(* ===== verification/_CoqProject ===== *)
-Q . S2P
Prelude.v
Config.v
Storage.v
Block.v
Trackers.v
Allocator.v
Index.v
TopicClean.v
Reader.v
Writer.v
TopicInv.v
Core.v
Batch.v
Walrus.v
BatchRead.v
Recovery.v
EngineInv.v
BatchReadOk.v
BatchReadInv.v
BatchReadSkips.v
Fifo.v
Instances.v
Metadata.v
OctopiiWal.v
LogStore.v
LogStoreOk.v
RaftQuorum.v
RaftMembership.v
RaftLogIds.v
RaftProgress.v
RaftState.v
RaftEngine.v
RaftProtocol.v
RaftCore.v
RaftCoreOk.v
RaftStartup.v
RaftStartupOk.v
RaftNet.v
RaftSim.v
RaftSimVote.v
RaftSimLead.v
RaftSimElect.v
RaftSimFollow.v
RaftSafety.v
RaftRead.v
WalKey.v
Bucket.v
Controller.v
ClusterInv.v
ClusterOps.v
ClusterQueues.v
WalrusEngine.v
Client.v
RaftMachine.v
OctopiiRestart.v
OctopiiRpc.v
OctopiiNode.v
OctopiiChunk.v
Background.v
SortBy.v
StateDb.v
RedbDb.v
RedbOk.v
KvDb.v
KvDbOk.v
TxData.v
Trie.v
Executor.v
ExecutorOk.v
Producer.v
ProducerOk.v
CliClient.v
Gateway.v
GatewayOk.v
Witnesses.v
ClusterWitnesses.v
RaftWitnesses.v
ConsensusWitnesses.v
ProducerWitnesses.v
OctopiiWitnesses.v
