(* ===== verification/Prelude.v ===== *)
(** * Walrus: a verification of the storage engine, its distributed layer and the block producer on it

    Walrus is a log in two layers. The _engine_ ([src/src/wal/]) is an embedded library: topics
    are append-only sequences of entries, stored in blocks of memory-mapped or
    descriptor-based log files, with a persisted read cursor per topic. The _distributed layer_
    ([src/distributed-walrus/src/]) runs an engine on every node, splits a topic into segments
    led by different nodes, keeps the map of segments in a replicated state machine and serves a
    text protocol to clients. Consensus comes from the library [octopii] ([src/octopii/src/]), which
    keeps its Raft log in a write-ahead log of its own, on a copy of the engine, and from the
    Raft implementation vendored with it ([src/octopii/openraft/openraft/src/]): an engine that
    turns events into commands, and a runtime that executes them. On top of it a
    _gateway_ ([src/rpc-gateway/src/]) writes transactions to a topic of the cluster and a _block
    producer_ ([src/block-producer/src/]) takes them from there, executes them in blocks on an
    embedded state database, and links the blocks to a chain.

    ** Files, in dependency order

    The engine:
    - this file: outcomes of fallible code, the state and error monad [M] with its [wp] rules
      and tactics, machine integers, lengths as integers;
    - [Config] ([config.rs]): layout constants; modules [Checksum] (FNV-1a), [Clock] (the
      compare-and-swap loop of [now_millis_str], as interleaved threads), [Namespace];
    - [Storage] ([storage.rs], [paths.rs]): sparse files, the two back ends, the handle keepers,
      file creation; the record [Fs] is the process-wide state and the environment;
    - [Block] ([block.rs]): the entry format; [Block_write], [Block_read], [zero_range];
    - [Trackers], [Allocator] ([runtime/allocator.rs]): counters that decide when a file may be
      deleted; the block allocator with its spin lock;
    - [Index] ([runtime/index.rs]), [TopicClean] ([runtime/topic_clean.rs]): maps that are
      persisted by write, sync and rename, with the states a crash can leave;
    - [Reader], [Writer] ([runtime/reader.rs], [runtime/writer.rs]): the chain and cursor of a
      topic; single and batch writes, the io_uring submission, its fallback and rollback;
    - [Walrus] ([runtime/walrus.rs], [walrus_write.rs], [walrus_read.rs]): the instance;
      [append_for_topic], [batch_append_for_topic], [read_next], counts and sizes;
    - [Recovery] ([runtime/walrus.rs]): [with_paths], [startup_chore], rebuilding of counts;
    - [Background] ([runtime/background.rs]): a turn of the worker that flushes and deletes;
    - [BatchRead] ([walrus_read.rs]): [batch_read_for_topic], with and without a start offset;
    - [TopicInv], [Core], [Batch], [EngineInv]: the invariant of a topic, of all topics together,
      through batches, and of a whole instance under reads and appends;
    - [BatchReadOk] (parser and planner), [BatchReadInv] (the operation on the invariant),
      [BatchReadSkips] (a budget that ends in the last sealed block), [Fifo] (the refinement
      of the whole engine to queues).

    The distributed layer:
    - [Metadata] ([metadata.rs]), [WalKey] ([controller/types.rs]), [Bucket] ([bucket.rs]);
    - [Controller] ([controller/mod.rs], [controller/internal.rs], [rpc.rs], [monitor.rs] and the
      request handler of [main.rs]): a cluster is a map of nodes, the committed log of
      metadata commands and a record [RaftView] of what consensus and network do;
    - [ClusterInv], [ClusterOps], [ClusterQueues]: invariant, operations and refinement;
    - [WalrusEngine]: the engine implements the interfaces the bucket and the write-ahead log are
      proved against;
    - [Client] ([client.rs]): frames, commands and the hexadecimal codec.

    Octopii:
    - [OctopiiWal] ([wal/mod.rs]): the write-ahead log, over the interface [WalTopic];
    - [LogStore], [LogStoreOk] ([openraft/storage.rs]): the Raft log store in memory and with a
      write-ahead log, its recovery; the abstract Raft log and the refinement;
    - [RaftMachine] ([openraft/storage.rs], [state_machine.rs]): applying entries, building and
      installing snapshots; the key-value machine and the machine with a log;
    - [OctopiiRestart] ([openraft/storage.rs], [openraft/node.rs]): what starting a node again finds, on the
      write-ahead log and the state machine of octopii;
    - [OctopiiRpc] ([rpc/], [transport/mod.rs]): remote calls over connections, as steps of a group of
      nodes; [OctopiiNode] ([openraft/node.rs], [openraft/network.rs]): addresses of peers, serving and
      sending the calls of Raft; [OctopiiChunk] ([transport/peer.rs], [chunk.rs], [shipping_lane.rs]):
      messages and verified chunks on a stream.

    The Raft implementation, with its theorems on one node and on a group:
    - [RaftQuorum], [RaftMembership] ([quorum/], [membership/], [change_members.rs],
      [raft_state/membership_state/]): majorities, joint configurations and their changes;
    - [RaftLogIds] ([engine/log_id_list.rs], [engine/leader_log_ids.rs]): the compressed list of log ids;
      [RaftProgress] ([progress/vec_progress.rs]): what a quorum of followers has reached;
    - [RaftState] ([vote/], [raft_state/], [proposer/], [progress/entry/], [utime.rs]): the state of a node;
    - [RaftEngine] ([engine/engine_impl.rs], [engine/handler/]): the handlers, as computations over the
      engine that put out commands; [RaftCore] ([core/raft_core.rs], [replication/mod.rs]): the
      runtime: messages, notifications, ticks, the queue of commands and the log storage;
    - [RaftCoreOk]: the interface [RaftLogStorageLaws] of a log storage, which octopii's store
      implements; a turn of the runtime ends and writes the log the commands describe;
    - [RaftStartup], [RaftStartupOk] ([storage/helper.rs], [storage/log_reader_ext.rs]): the state of a node
      from its storage, over the interfaces [RaftLogReader] and [RaftStateMachine] with their laws;
    - [RaftNet]: several engines over a network that loses, delays, repeats and reorders
      messages; [RaftProtocol]: an abstract protocol and its invariant; [RaftSim], [RaftSimVote],
      [RaftSimLead], [RaftSimElect], [RaftSimFollow]: each handler takes steps of the
      protocol; [RaftSafety]: the theorems on all reachable groups, and a run;
    - [RaftRead] ([core/raft_core.rs], [raft/linearizable_read/], [metrics/wait.rs]): linearizable reads: the question
      whether a node still leads, the answers, the wait, and what a read sees.

    The block producer and its way to the cluster:
    - [StateDb] ([db/traits.rs], [schema/account.rs], [schema/storage.rs], [wallet/mod.rs]): the
      data, the trait as a class, the transactional store a database is to implement, and the
      class [AtomicDb] of what the executor relies on;
    - [RedbDb], [RedbOk] ([db/redb_db.rs]): the embedded database with its transaction buffer and
      a disk that may fail at every transaction; its refinement and its opening;
    - [KvDb], [KvDbOk] ([db/kvdb.rs], [db/cache.rs]): the second database, which appends its commits
      to a topic of the engine and answers reads from a cache; its refinement, over an interface that the engine discharges;
    - [TxData] ([schema/block.rs], [executor/receipts.rs]), [SortBy] (stable sorting by a key),
      [Trie] ([trie/], [utils/merkle.rs]): transactions, blocks, receipts; storage, state and list roots;
    - [Executor], [ExecutorOk] ([executor/]): the EVM as a finite interaction with its database,
      the caching adapter, validation, and the loop over a block;
    - [Producer], [ProducerOk] ([main.rs]): pool, selection, execution, roots, the chain;
    - [CliClient] ([src/distributed-walrus/src/cli_client.rs]): the client library, one connection a call;
    - [Gateway], [GatewayOk] ([src/rpc-gateway/src/main.rs]): the gateway with its batch processor, and the way
      of a transaction from the gateway through the cluster to the pool.

    [Instances] has concrete serialisers and rings, [Witnesses], [ClusterWitnesses],
    [RaftWitnesses], [ConsensusWitnesses], [ProducerWitnesses] and [OctopiiWitnesses] the concrete runs in which the hypotheses of the theorems hold.

    ** How the code is represented

    A Rust function that mutates state and can fail is a computation [M S A]: it threads the
    state [S] and ends in [Ok], [Err], [Panic] or [Hang]; an error keeps the mutations already
    made, as [?] does. Unsigned integers are [Z] with their wrap-around or saturation written out
    ([wrap16], [wrap64], [sat_add64], ...), as in a release build; [HashMap] is [gmap]. Processes
    with several threads (the clock, the worker, the clean-marker thread) are step relations
    or event lists; the engine's operations themselves are those of one thread at a time,
    as the topic locks make them. The block producer has typed errors, so its code is a
    computation [X S E A] (in [StateDb]) that ends in [Good], [Bad] with an error of type [E] or [Crash]. In the cluster, requests are handlers that run one after the
    other, and every other node applies a committed command at some later step. In a group of
    Raft nodes a step is one handler on one engine; messages are what some engine has put
    out, and they are never used up. Log indexes and terms are unbounded, and debug assertions
    are left out, as in a release build.

    Crates are parameters, as classes with the laws the code relies on: [rkyv] ([MetaCodec],
    [MapCodec]), [bincode] ([Bincode]), [io_uring] ([IoUring], [ReadRing], [FsyncRing]); so are the
    membership type in the log store, the JSON printers and readers, [revm] ([Revm]), the parsers and
    hashes of alloy and sha2 ([TextLib], [Sha256]), keccak, RLP and the hash builder ([TrieLib]), the hash of topic names and the answers of the consensus library.

    ** What is proved

    - Refinement: the engine is one first-in first-out queue per topic
      ([Fifo.walrus_refines_queues], batch reads included when their budget covers the backlog); the cluster is one queue per registered topic, from the
      queue laws of the engines alone ([ClusterQueues.cluster_refines_queues]); the replicated
      state machine is a list of sealed segments and a current leader per topic
      ([Metadata.metadata_refines_spec], [Metadata.snapshot_then_log]); the Raft log store is a log
      of consecutive entries ([LogStoreOk.wal_store_refines_log]), and is rebuilt from its
      write-ahead log ([wal_store_recovers]), whose reading ends ([OctopiiWal.read_all_drains]).
    - Consensus: in every state that an orderly group reaches (fixed members of whom any two voters are a quorum, and
      only nodes that do not lead are told to stand for election: [RaftNet.orderly]), committed logs agree ([RaftSafety.committed_entries_agree]),
      leaders have what is committed ([leader_has_committed]), logs match ([logs_match]) and
      engines are well formed ([engines_well_formed]), and a confirmed read sees every acknowledged write
      ([RaftRead.confirmed_read_sees_write]), because the engines refine a protocol
      ([engines_refine_protocol]); a change of the members, whatever becomes of its two entries, ends in the old,
      the joint or the new configuration and keeps quorums in common ([RaftMembership]); the compressed ids are the log ([RaftLogIds.log_id_list_is_log],
      [get_key_log_ids_finds_keys]); the accepted id is the greatest of a quorum
      ([RaftProgress.quorum_accepted_is_greatest]); the runtime ends and its storage follows
      the engine ([RaftCoreOk]); a node that starts again for the first time, with nothing purged and a log within
      one batch read, has the vote, the log, the membership and the application state it had ([RaftStartupOk.get_initial_state_restores], [OctopiiRestart.octopii_node_restarts]).
    - Between nodes: a call is handed its own answer, once ([OctopiiRpc.rpc_answers_own_call]), a call of the Raft network is
      one of the peer's Raft instance ([OctopiiNode.network_calls_raft]), addresses survive a restart
      ([addresses_survive_restart]); a chunk is accepted exactly when it is there ([OctopiiChunk.recv_chunk_exact]) and
      both ends agree on it ([chunk_transfer], [changed_file_rejected]).
    - Safety of space: blocks never overlap ([Allocator.serve_all_disjoint]), file names
      never repeat ([Config.Clock.now_millis_unique]), files are queued for deletion only when
      consumed ([Trackers.deletion_only_when_consumed]) and only queued files are deleted
      ([Background.worker_deletes_only_requested]), eventually, unless the system refuses ([worker_deletes_requested],
      [refused_deletion_forgotten]).
    - Data on disk: entries are read back ([Block.block_write_read]), changed bytes are detected
      ([Block.block_read_detects_corruption]), recovery finds the blocks of a file
      ([Recovery.scan_file_recovers]), persisted maps survive restarts and crashes
      ([Index], [TopicClean]), published files are flushed ([worker_flushes_published]).
    - The client protocol: frames in order, hexadecimal round trip, PUT and GET; programs that use
      the client library see queues, whatever text they put, of which only hexadecimal is taken
      ([CliClient.wire_refines_queues]).
    - The block producer: the state database is a transactional store ([RedbOk.redb_refines_store]), and
      so is the one on the engine, for calls without deletions, listings and reads of code or block hashes of the
      open transaction, and versions within one batch read ([KvDbOk.walrus_db_refines_store]),
      on which a block is executed as a whole or not at all ([ExecutorOk.execute_block_atomic]),
      with counts and gas that add up ([execute_block_tally]) and a cache that does not show
      ([cache_transparent]); the state root is that of a reference trie
      ([Trie.state_root_reference]), a list root fixes its list ([merkle_root_binds]); the selection loses
      nothing, is in nonce order and fits ([ProducerOk.selection_exact]), the refill ends
      ([refill_terminates]), the blocks form a chain ([blocks_form_chain]); what the gateway
      accepts reaches the pool, with its batch processor batch by batch ([GatewayOk.gateway_to_pool]), and all of it in the
      end ([gateway_answers_everyone]).
    - Behaviour that differs from what the code intends, each with a proof: a spin lock kept on
      an error path, blocks past the end of a file, double counting of checkpoints, an
      oversized append that seals a block, a cursor that is persisted too low, a rollover that
      is not idempotent, an acknowledged append that is never delivered, a parser that panics,
      a frame that is not skipped, a namespace that can be [..], a batch read that skips
      entries, a recovery that consumes the log it reads, snapshots without application state
      (an invariant of all reachable groups of nodes) and what installing them does, a
      failed command that stops the state machine and every later start of the node, a purged log
      from which a node cannot start ([OctopiiRestart]), a connection that nobody reads
      ([OctopiiRpc.unread_connection_never_answers]), addresses that a second restart forgets ([OctopiiNode]), a chunk taken for a
      message, a rejected chunk that stays in its file, a message cut at 32 bits ([OctopiiChunk]); in the Raft implementation an id that five voters are taken to
      have accepted when two have ([RaftProgress.quorum_accepted_without_quorum]), for which
      the theorems on groups ask that two voters are a quorum, and an acknowledged write that is
      lost when a leader is told to stand for election ([RaftSafety.elect_while_leading_loses_write];
      [ConsensusWitnesses.elect_while_leading_breaks_engine]: why the theorems on groups ask for order); in the block producer an account that is lost at the commit, code
      that cannot be called in its block, a failed block that takes its transactions with it, a
      destroyed account that fails its block after the commit, a saved block without results,
      a gas sum that wraps; in the second database a deleted account that returns, and the newest version
      of an account that is not read when there are more than 2000 ([KvDbOk]).

    ** Fuel

    Loops that are not structural take fuel from their input, and the theorems prove it is
    enough: [read_loop] gets the blocks that are left and two more turns, [read_turns] the segments that
    are left, the scans of recovery the file size over the block size, a connection the length of
    its stream, the batch parser the length of its buffer, [read_all] the number of records and three
    more turns, the refill of the pool one turn for each entry of the topic and one more, the queue of
    commands as many turns as it has commands, [get_key_log_ids] twice the length of the log, the search for
    memberships and the replay at a start the number of entries they go over, the receiver of a chunk the bytes of its stream; [hops] bounds nested calls between nodes, and two are enough (the
    refinement holds for every [S (S hops)]).

    ** What is not modelled

    Recovery of the engine is modelled whole, but the refinement to queues starts from an empty
    directory. Batch reads are proved for budgets that cover the backlog, which is what
    [read_all] needs and, as [BatchReadSkips] shows, not by accident; reads with a start offset
    are modelled and have no theorem. Octopii runs on its own, older copy of the engine, which
    differs in batch reads (no look-ahead at the first entry) and has no entry counters; the
    log store is proved against the interface [WalTopic], and the interface is discharged by
    the engine modelled here. The theorems on groups of Raft nodes are for fixed members, without
    snapshots, purging, restarts and elections that a leader is told to start (octopii's [campaign], which a node
    of the distributed layer calls at its start and which may find it leading), and for streams that read their log while their leader
    leads and report in order; the handlers for the rest are modelled. Of the Raft implementation,
    its channels, tasks and metrics (but for the applied index that reads wait for) and the streaming of
    snapshots are not modelled; reads under a leader's lease are modelled and have no theorem, since they rest on clocks; of octopii's networking QUIC and TLS are parameters: what becomes of a dial, a send and the bytes of
    a stream; nor are start-up and join loops, timeouts and the TCP
    accept loop; failures of the network between the client library and a node. Of the block
    producer, Merkle proofs, which the sources leave as placeholders; of the gateway, permits, time-outs,
    metrics and the capacity of the batch processor's channel; the load generators. *)

From Stdlib Require Export ssreflect ZArith Lia.
From stdpp Require Export base list list_numbers gmap strings pretty.

#[export] Set Warnings "-rewrite-rw,-clear-no-such-hyp".
#[global] Open Scope general_if_scope.
#[global] Open Scope Z_scope.

(** * Outcomes of fallible code *)

(** [std::io::ErrorKind], restricted to the kinds the sources construct. *)
Inductive ErrorKind :=
  | KOther
  | KInvalidData
  | KInvalidInput
  | KWouldBlock
  | KUnsupported
  | KUnexpectedEof
  | KNotFound.

(** [std::io::Error]: a kind and a message. *)
Record io_error := IoError { err_kind : ErrorKind; err_msg : string }.

(** The outcome of running a Rust function: a value, an [Err], a panic (or an
    access outside a memory map, which the code does not define), or no return at all (a
    spin lock that is never released, or a loop cut by its fuel). *)
Inductive outcome (A : Type) :=
  | Ok (a : A)
  | Err (e : io_error)
  | Panic
  | Hang.
Arguments Ok {_} _.
Arguments Err {_} _.
Arguments Panic {_}.
Arguments Hang {_}.

Definition isOk {A} (o : outcome A) : bool :=
  match o with Ok _ => true | _ => false end.

#[global] Instance ErrorKind_eq_dec : EqDecision ErrorKind.
Proof. solve_decision. Defined.
#[global] Instance io_error_eq_dec : EqDecision io_error.
Proof. solve_decision. Defined.
#[global] Instance outcome_eq_dec {A} `{EqDecision A} : EqDecision (outcome A).
Proof. solve_decision. Defined.

(** * The state and error monad

    A computation threads a state [S] and ends in an [outcome]; an error keeps the
    state it was raised in, as a Rust [?] keeps every mutation already made. *)
Definition M (S A : Type) : Type := S → outcome A * S.

Definition ret {S A} (a : A) : M S A := λ s, (Ok a, s).

Definition bind {S A B} (m : M S A) (k : A → M S B) : M S B := λ s,
  match m s with
  | (Ok a, s') => k a s'
  | (Err e, s') => (Err e, s')
  | (Panic, s') => (Panic, s')
  | (Hang, s') => (Hang, s')
  end.

Definition fail {S A} (k : ErrorKind) (msg : string) : M S A :=
  λ s, (Err (IoError k msg), s).
Definition panic {S A} : M S A := λ s, (Panic, s).
Definition hang {S A} : M S A := λ s, (Hang, s).
Definition getS {S} : M S S := λ s, (Ok s, s).
Definition modify {S} (f : S → S) : M S unit := λ s, (Ok tt, f s).

(** Run a computation on the part [T] of the state [S]. *)
Definition zoom {S T A} (g : S → T) (p : T → S → S) (m : M T A) : M S A := λ s,
  let '(o, t) := m (g s) in (o, p t s).

(** [let _ = e]: the result is dropped, an [Err] included; a panic is not. *)
Definition ignore {S A} (m : M S A) : M S unit := λ s,
  match m s with
  | (Ok _, s') | (Err _, s') => (Ok tt, s')
  | (Panic, s') => (Panic, s')
  | (Hang, s') => (Hang, s')
  end.

(** [match e { Ok(v) => .., Err(_) => .. }] where the error itself is not used. *)
Definition attempt {S A} (m : M S A) : M S (option A) := λ s,
  match m s with
  | (Ok a, s') => (Ok (Some a), s')
  | (Err _, s') => (Ok None, s')
  | (Panic, s') => (Panic, s')
  | (Hang, s') => (Hang, s')
  end.

Declare Scope walrus_scope.
Delimit Scope walrus_scope with walrus.
Notation "'let!' x := m 'in' k" := (bind m (λ x, k))
  (at level 10, x pattern, m at level 100, k at level 200)
  : walrus_scope.
Notation "m ;; k" := (bind m (λ _, k))
  (at level 100, k at level 200, right associativity) : walrus_scope.
#[global] Open Scope walrus_scope.

(** ** Reasoning about computations *)

(** [wp m Q s]: running [m] from [s] ends in an outcome and a state related by [Q]. *)
Definition wp {S A} (m : M S A) (Q : outcome A → S → Prop) (s : S) : Prop :=
  Q (m s).1 (m s).2.

(** The continuation of [wp] for a successful outcome, with a separate condition on
    the other outcomes. *)
Definition on_ok {A B S} (Q : outcome B → S → Prop) (k : A → S → Prop) :
    outcome A → S → Prop := λ o s,
  match o with
  | Ok a => k a s
  | Err e => Q (Err e) s
  | Panic => Q Panic s
  | Hang => Q Hang s
  end.

Section wp_rules.
Context {S : Type}.

Lemma wp_ret {A} (a : A) (Q : outcome A → S → Prop) s :
  Q (Ok a) s → wp (ret a) Q s.
Proof. done. Qed.

Lemma wp_bind {A B} (m : M S A) (k : A → M S B) Q s :
  wp m (on_ok Q (λ a, wp (k a) Q)) s → wp (bind m k) Q s.
Proof. rewrite /wp /bind /on_ok. by destruct (m s) as [[] ?]. Qed.

Lemma wp_bind_inv {A B} (m : M S A) (k : A → M S B) Q s :
  wp (bind m k) Q s → wp m (on_ok Q (λ a, wp (k a) Q)) s.
Proof. rewrite /wp /bind /on_ok. by destruct (m s) as [[] ?]. Qed.

Lemma wp_mono {A} (m : M S A) (Q Q' : outcome A → S → Prop) s :
  wp m Q s → (∀ o s', Q o s' → Q' o s') → wp m Q' s.
Proof. rewrite /wp. eauto. Qed.

Lemma wp_run {A} (m : M S A) (Q : outcome A → S → Prop) s o s' :
  m s = (o, s') → Q o s' → wp m Q s.
Proof. rewrite /wp. by intros ->. Qed.

Lemma wp_out {A} (m : M S A) (Q : outcome A → S → Prop) s o s' :
  wp m Q s → m s = (o, s') → Q o s'.
Proof. rewrite /wp. intros H E. by rewrite E in H. Qed.

Lemma wp_fail {A} k msg (Q : outcome A → S → Prop) s :
  Q (Err (IoError k msg)) s → wp (fail k msg) Q s.
Proof. done. Qed.

Lemma wp_panic {A} (Q : outcome A → S → Prop) s : Q Panic s → wp panic Q s.
Proof. done. Qed.

Lemma wp_hang {A} (Q : outcome A → S → Prop) s : Q Hang s → wp hang Q s.
Proof. done. Qed.

Lemma wp_get (Q : outcome S → S → Prop) s : Q (Ok s) s → wp getS Q s.
Proof. done. Qed.

Lemma wp_modify f (Q : outcome unit → S → Prop) s :
  Q (Ok tt) (f s) → wp (modify f) Q s.
Proof. done. Qed.

Lemma wp_zoom {T A} (g : S → T) p (m : M T A) Q s :
  wp m (λ o t, Q o (p t s)) (g s) → wp (zoom g p m) Q s.
Proof. rewrite /wp /zoom. by destruct (m (g s)). Qed.

Lemma wp_ignore {A} (m : M S A) (Q : outcome unit → S → Prop) s :
  wp m (λ o s', match o with
                | Ok _ | Err _ => Q (Ok tt) s'
                | Panic => Q Panic s'
                | Hang => Q Hang s'
                end) s →
  wp (ignore m) Q s.
Proof. rewrite /wp /ignore. by destruct (m s) as [[] ?]. Qed.
End wp_rules.

(** One step of symbolic execution, by the head construct of the computation. *)
Ltac wp_step :=
  lazymatch goal with
  | |- wp (bind _ _) _ _ => apply wp_bind
  | |- wp (ret _) _ _ => apply wp_ret
  | |- wp (fail _ _) _ _ => apply wp_fail
  | |- wp panic _ _ => apply wp_panic
  | |- wp hang _ _ => apply wp_hang
  | |- wp getS _ _ => apply wp_get
  | |- wp (modify _) _ _ => apply wp_modify
  | |- wp (zoom _ _ _) _ _ => apply wp_zoom
  | |- wp (ignore _) _ _ => apply wp_ignore
  | |- wp (if ?b then _ else _) _ _ => let E := fresh "Hif" in destruct b eqn:E
  end; cbn [on_ok].

Ltac wp_steps := repeat wp_step.

(** * Machine integers *)

Definition U16_MAX : Z := 2 ^ 16 - 1.
Definition U32_MAX : Z := 2 ^ 32 - 1.
Definition U64_MAX : Z := 2 ^ 64 - 1.

Definition wrap16 (z : Z) : Z := z mod 2 ^ 16.
Definition wrap64 (z : Z) : Z := z mod 2 ^ 64.

Definition sat_add64 (a b : Z) : Z := Z.min (a + b) U64_MAX.
Definition sat_sub64 (a b : Z) : Z := Z.max (a - b) 0.
Definition sat_add32 (a b : Z) : Z := Z.min (a + b) U32_MAX.

Definition is_u64 (z : Z) : Prop := 0 ≤ z ≤ U64_MAX.
Definition is_byte (z : Z) : Prop := 0 ≤ z < 256.

(** The length of a slice as the machine sees it. *)
Definition len {A} (l : list A) : Z := Z.of_nat (length l).

Lemma len_nonneg {A} (l : list A) : 0 ≤ len l.
Proof. unfold len; lia. Qed.
Lemma len_nil {A} : len (@nil A) = 0.
Proof. done. Qed.
Lemma len_cons {A} (x : A) l : len (x :: l) = 1 + len l.
Proof. unfold len; cbn [length]; lia. Qed.
Lemma len_app {A} (l k : list A) : len (l ++ k) = len l + len k.
Proof. unfold len; rewrite length_app; lia. Qed.
Lemma len_replicate {A} n (x : A) : len (replicate n x) = Z.of_nat n.
Proof. unfold len; by rewrite length_replicate. Qed.

Create Rewrite HintDb len.
#[export] Hint Rewrite @len_nil @len_cons @len_app @len_replicate : len.
