(* ===== verification/Config.v ===== *)
(** Configuration and pure helpers of the storage engine: [src/src/wal/config.rs].

    The layout constants, the FNV-1a checksum that guards every entry, the
    monotonic millisecond clock that names log files (with its compare-and-swap loop as
    an interleaving of threads) and the namespace sanitiser. *)

From S2P Require Import Prelude.
From stdpp Require Import relations sorting.

#[local] Open Scope Z_scope.

(** * Constants *)

Definition DEFAULT_BLOCK_SIZE : Z := 10 * 1024 * 1024.
Definition BLOCKS_PER_FILE : Z := 100.
Definition MAX_ALLOC : Z := 1 * 1024 * 1024 * 1024.
Definition PREFIX_META_SIZE : Z := 256.
Definition MAX_FILE_SIZE : Z := DEFAULT_BLOCK_SIZE * BLOCKS_PER_FILE.
Definition MAX_BATCH_ENTRIES : Z := 2000.
Definition MAX_BATCH_BYTES : Z := 10 * 1024 * 1024 * 1024.
Definition TAIL_FLAG : Z := Z.shiftl 1 63.

(** Arithmetic over the layout constants. *)
Ltac consts :=
  unfold MAX_FILE_SIZE, BLOCKS_PER_FILE, MAX_ALLOC, PREFIX_META_SIZE, MAX_BATCH_ENTRIES,
    MAX_BATCH_BYTES, DEFAULT_BLOCK_SIZE, U64_MAX, U32_MAX, U16_MAX in *; lia.

Inductive FsyncSchedule :=
  | Milliseconds (ms : Z)
  | SyncEach
  | NoFsync.

(** * checksum64 *)

Module Checksum.
Definition FNV_OFFSET : Z := 0xcbf29ce484222325.
Definition FNV_PRIME : Z := 0x00000100000001B3.

(** One iteration of the loop: xor the byte in, multiply with wrap-around. *)
Definition fnv_step (hash b : Z) : Z := wrap64 (Z.lxor hash b * FNV_PRIME).

Definition checksum64 (data : list Z) : Z := foldl fnv_step FNV_OFFSET data.

(** The multiplicative inverse of the prime modulo 2^64: it is odd. *)
Definition FNV_PRIME_INV : Z := 14886173955864302971.

Lemma fnv_prime_inv : (FNV_PRIME * FNV_PRIME_INV) mod 2 ^ 64 = 1.
Proof. reflexivity. Qed.

Lemma fnv_step_range h b : is_u64 (fnv_step h b).
Proof. rewrite /fnv_step /wrap64 /is_u64 /U64_MAX. pose proof (Z.mod_pos_bound (Z.lxor h b * FNV_PRIME) (2 ^ 64)). lia. Qed.

Lemma checksum64_range data : is_u64 (checksum64 data).
Proof.
  rewrite /checksum64. destruct data as [|b data _] using rev_ind.
  - rewrite /is_u64 /FNV_OFFSET /U64_MAX /=. lia.
  - rewrite foldl_app /=. apply fnv_step_range.
Qed.

Lemma lxor_u64 h b : is_u64 h → is_byte b → is_u64 (Z.lxor h b).
Proof.
  rewrite /is_u64 /is_byte /U64_MAX. intros [Hh1 Hh2] [Hb1 Hb2].
  assert (0 ≤ Z.lxor h b) by (apply Z.lxor_nonneg; lia). split; [done|].
  destruct (decide (Z.lxor h b = 0)) as [->|Hne]; [lia|].
  enough (Z.lxor h b < 2 ^ 64) by lia.
  apply Z.log2_lt_pow2; [lia|].
  eapply Z.le_lt_trans; [apply Z.log2_lxor; lia|].
  apply Z.max_lub_lt.
  - destruct (decide (h = 0)) as [->|]; [done|]. apply Z.log2_lt_pow2; lia.
  - destruct (decide (b = 0)) as [->|]; [done|]. apply Z.log2_lt_pow2; lia.
Qed.

(** Multiplication by the prime is injective on 64-bit words. *)
Lemma mul_prime_inj x y :
  is_u64 x → is_u64 y → wrap64 (x * FNV_PRIME) = wrap64 (y * FNV_PRIME) → x = y.
Proof.
  rewrite /is_u64 /U64_MAX /wrap64. intros Hx Hy E.
  assert (∀ z, 0 ≤ z < 2 ^ 64 → (z * FNV_PRIME mod 2 ^ 64 * FNV_PRIME_INV) mod 2 ^ 64 = z) as inv.
  { intros z Hz. rewrite Z.mul_mod_idemp_l; [lia|].
    rewrite -Z.mul_assoc -Z.mul_mod_idemp_r; [lia|].
    rewrite fnv_prime_inv Z.mul_1_r. apply Z.mod_small; lia. }
  etransitivity; [symmetry; apply (inv x); lia|]. rewrite E. apply inv; lia.
Qed.

Lemma fnv_step_inj_hash h h' b :
  is_u64 h → is_u64 h' → is_byte b → fnv_step h b = fnv_step h' b → h = h'.
Proof.
  intros Hh Hh' Hb E. apply mul_prime_inj in E; [|by apply lxor_u64..].
  apply (f_equal (λ z, Z.lxor z b)) in E.
  by rewrite !Z.lxor_assoc !Z.lxor_nilpotent !Z.lxor_0_r in E.
Qed.

Lemma fnv_step_inj_byte h b b' :
  is_u64 h → is_byte b → is_byte b' → fnv_step h b = fnv_step h b' → b = b'.
Proof.
  intros Hh Hb Hb' E. apply mul_prime_inj in E; [|by apply lxor_u64..].
  apply (f_equal (Z.lxor h)) in E.
  by rewrite -!Z.lxor_assoc !Z.lxor_nilpotent !Z.lxor_0_l in E.
Qed.

Lemma fnv_fold_inj data h h' :
  Forall is_byte data → is_u64 h → is_u64 h' →
  foldl fnv_step h data = foldl fnv_step h' data → h = h'.
Proof.
  intros Hd. revert h h'. induction Hd as [|b data Hb Hd IH]; intros h h' Hh Hh'; [done|].
  cbn. intros E%IH; [|apply fnv_step_range..]. by eapply fnv_step_inj_hash.
Qed.

(** Every corruption of a single byte of a payload changes its checksum. *)
Lemma checksum64_detects pre post b b' :
  Forall is_byte post → is_byte b → is_byte b' → b ≠ b' →
  checksum64 (pre ++ b :: post) ≠ checksum64 (pre ++ b' :: post).
Proof.
  intros Hpost Hb Hb' Hne E. apply Hne.
  rewrite /checksum64 !foldl_app /= in E.
  apply fnv_fold_inj in E; [|done|apply fnv_step_range..].
  eapply fnv_step_inj_byte; [apply checksum64_range|done..].
Qed.
End Checksum.

(** * now_millis_str *)

Module Clock.
(** [system_ms.try_into().unwrap_or(u64::MAX)]: [as_millis] is a u128. *)
Definition system_ms_u64 (system_ms : Z) : Z :=
  if system_ms <=? U64_MAX then system_ms else U64_MAX.

Definition candidate (system_ms observed : Z) : Z :=
  if system_ms_u64 system_ms <=? observed
  then sat_add64 observed 1
  else system_ms_u64 system_ms.

(** The compare-and-swap loop, several threads at once. A thread in the loop keeps the
    clock value it read on entry and the counter value it last observed; [issued] is
    the list of values returned so far, the latest first. *)
Record state := State {
  LAST_MILLIS : Z;
  looping : gmap nat (Z * Z);
  issued : list Z;
}.

Definition initial : state := State 0 ∅ [].

Inductive step : state → state → Prop :=
  | step_load s t system_ms :
      looping s !! t = None → 0 ≤ system_ms →
      step s (State (LAST_MILLIS s) (<[t := (system_ms, LAST_MILLIS s)]> (looping s)) (issued s))
  | step_exchange_ok s t system_ms observed :
      looping s !! t = Some (system_ms, observed) → LAST_MILLIS s = observed →
      step s (State (candidate system_ms observed) (delete t (looping s))
                    (candidate system_ms observed :: issued s))
  | step_exchange_err s t system_ms observed :
      looping s !! t = Some (system_ms, observed) → LAST_MILLIS s ≠ observed →
      step s (State (LAST_MILLIS s) (<[t := (system_ms, LAST_MILLIS s)]> (looping s)) (issued s)).

(** A single caller: the exchange succeeds at once. *)
Definition now_millis (system_ms last : Z) : Z := candidate system_ms last.

Lemma candidate_gt system_ms o : o < U64_MAX → o < candidate system_ms o.
Proof. rewrite /candidate /sat_add64. case_match; lia. Qed.

Lemma candidate_ge system_ms o : o ≤ U64_MAX → o ≤ candidate system_ms o.
Proof. rewrite /candidate /sat_add64. case_match; lia. Qed.

Lemma candidate_u64 system_ms o : is_u64 o → 0 ≤ system_ms → is_u64 (candidate system_ms o).
Proof.
  rewrite /candidate /sat_add64 /system_ms_u64 /is_u64 /U64_MAX. repeat case_match; lia.
Qed.

Lemma step_sys_nonneg s s' :
  step s s' → map_Forall (λ _ p, 0 ≤ p.1) (looping s) → map_Forall (λ _ p, 0 ≤ p.1) (looping s').
Proof.
  destruct 1 as [s t ms Ht Hms|s t ms o Ht _|s t ms o Ht _]; cbn; intros Hall.
  - by apply map_Forall_insert_2.
  - by apply map_Forall_delete.
  - apply map_Forall_insert_2; [apply (Hall _ _ Ht)|done].
Qed.

(** What every interleaving preserves. *)
Record wf (s : state) : Prop := {
  wf_u64 : is_u64 (LAST_MILLIS s);
  wf_nonneg : map_Forall (λ _ p, 0 ≤ p.1) (looping s);
  wf_top : Forall (λ v, v ≤ LAST_MILLIS s) (issued s);
  wf_sorted : LAST_MILLIS s < U64_MAX → StronglySorted (λ a b, b < a) (issued s);
}.

Lemma wf_initial : wf initial.
Proof. split; rewrite /is_u64 /U64_MAX; cbn; [lia|apply map_Forall_empty|by constructor..]. Qed.

Lemma wf_exchange s t ms :
  wf s → looping s !! t = Some (ms, LAST_MILLIS s) →
  wf (State (candidate ms (LAST_MILLIS s)) (delete t (looping s))
            (candidate ms (LAST_MILLIS s) :: issued s)).
Proof.
  intros [Hu Hnn Ht Hs] Hl. pose proof (candidate_ge ms (LAST_MILLIS s)) as Hge.
  pose proof (candidate_gt ms (LAST_MILLIS s)) as Hgt.
  assert (LAST_MILLIS s ≤ U64_MAX) by apply Hu.
  split; cbn.
  - apply candidate_u64; [done|]. apply (Hnn _ _ Hl).
  - by apply map_Forall_delete.
  - constructor; [done|]. eapply Forall_impl; [done|]. cbn; intros; lia.
  - intros. constructor; [apply Hs; lia|].
    eapply Forall_impl; [done|]. cbn; intros; lia.
Qed.

Lemma wf_step s s' : step s s' → wf s → wf s'.
Proof.
  intros Hstep Hwf. pose proof (step_sys_nonneg _ _ Hstep (wf_nonneg _ Hwf)) as Hnn.
  destruct Hstep as [s t ms Hl Hms|s t ms o Hl <-|s t ms o Hl Ho]; cbn in *;
    [destruct Hwf; by split|by apply wf_exchange|destruct Hwf; by split].
Qed.

Lemma wf_reachable s : rtc step initial s → wf s.
Proof.
  intros H. cut (wf initial → wf s); [eauto using wf_initial|].
  induction H; eauto using wf_step.
Qed.

(** C37: whatever the interleaving of threads and whatever the system clock reads, the
    values handed out are pairwise different (strictly increasing in the order of the
    exchanges) until the counter saturates. *)
Theorem now_millis_unique s :
  rtc step initial s → LAST_MILLIS s < U64_MAX → NoDup (issued s).
Proof.
  intros H Hmax. pose proof (wf_sorted _ (wf_reachable _ H) Hmax) as Hs.
  clear H Hmax. induction Hs as [|v l Hs IH Hv]; constructor; [|done].
  intros Hin. rewrite Forall_forall in Hv. specialize (Hv _ Hin). lia.
Qed.
End Clock.

(** * sanitize_namespace

    A namespace key is a Rust string: a list of Unicode scalar values. *)
Module Namespace.
Definition cp_dash : Z := 45.
Definition cp_dot : Z := 46.
Definition cp_underscore : Z := 95.

Definition between (a b c : Z) : bool := (a <=? c) && (c <=? b).

Definition is_ascii_alphanumeric (c : Z) : bool :=
  between 48 57 c || between 65 90 c || between 97 122 c.

Definition allowed (c : Z) : bool :=
  is_ascii_alphanumeric c || (c =? cp_dash) || (c =? cp_underscore) || (c =? cp_dot).

(** [str::as_bytes]: the UTF-8 encoding. *)
Definition utf8_char (c : Z) : list Z :=
  if c <? 0x80 then [c]
  else if c <? 0x800 then [0xC0 + Z.shiftr c 6; 0x80 + Z.land c 0x3F]
  else if c <? 0x10000 then
    [0xE0 + Z.shiftr c 12; 0x80 + Z.land (Z.shiftr c 6) 0x3F; 0x80 + Z.land c 0x3F]
  else
    [0xF0 + Z.shiftr c 18; 0x80 + Z.land (Z.shiftr c 12) 0x3F;
     0x80 + Z.land (Z.shiftr c 6) 0x3F; 0x80 + Z.land c 0x3F].
Definition as_bytes (key : list Z) : list Z := key ≫= utf8_char.

(** [str::trim_matches('_')]. *)
Fixpoint trim_start (c : Z) (s : list Z) : list Z :=
  match s with
  | x :: s' => if x =? c then trim_start c s' else s
  | [] => []
  end.
Definition trim_matches (c : Z) (s : list Z) : list Z :=
  reverse (trim_start c (reverse (trim_start c s))).

(** [format!("{:x}", n)] for a u64: at most sixteen digits. *)
Definition hex_digit (d : Z) : Z := if d <? 10 then 48 + d else 87 + d.
Fixpoint hex_go (fuel : nat) (n : Z) (acc : list Z) : list Z :=
  match fuel with
  | O => acc
  | S fuel =>
      let acc := hex_digit (n mod 16) :: acc in
      if n / 16 =? 0 then acc else hex_go fuel (n / 16) acc
  end.
Definition format_x (n : Z) : list Z := hex_go 16 n [].

Definition sanitize_namespace (key : list Z) : list Z :=
  let sanitized := ((λ c, if allowed c then c else cp_underscore) <$> key) in
  if bool_decide (trim_matches cp_underscore sanitized = [])
  then [110; 115; 95] ++ format_x (Checksum.checksum64 (as_bytes key))
  else sanitized.

Lemma hex_go_allowed fuel n acc :
  0 ≤ n → Forall (λ c, allowed c = true) acc →
  Forall (λ c, allowed c = true) (hex_go fuel n acc).
Proof.
  revert n acc. induction fuel as [|fuel IH]; intros n acc Hn Hacc; [done|]. cbn.
  assert (allowed (hex_digit (n mod 16)) = true) as Hd.
  { pose proof (Z.mod_pos_bound n 16). rewrite /hex_digit /allowed /is_ascii_alphanumeric /between.
    case_match; rewrite !orb_true_iff !andb_true_iff; lia. }
  case_match; [by constructor|]. apply IH; [by apply Z.div_pos|by constructor].
Qed.

Lemma sanitize_nonempty key : sanitize_namespace key ≠ [].
Proof.
  rewrite /sanitize_namespace. case_bool_decide as E; [done|].
  intros H. by rewrite H in E.
Qed.

(** a sanitised namespace is a non-empty name made of ASCII letters, digits, '-',
    '_' and '.' only: it holds no path separator. *)
Theorem sanitize_namespace_safe key :
  sanitize_namespace key ≠ [] ∧
  Forall (λ c, allowed c = true) (sanitize_namespace key) ∧
  (47 ∉ sanitize_namespace key) ∧ (92 ∉ sanitize_namespace key).
Proof.
  assert (Forall (λ c, allowed c = true) (sanitize_namespace key)) as Hall.
  { rewrite /sanitize_namespace. case_bool_decide.
    - apply Forall_app; split; [by repeat constructor|].
      apply hex_go_allowed; [apply Checksum.checksum64_range|done].
    - apply Forall_fmap, Forall_true. intros c; cbn. by destruct (allowed c) eqn:E. }
  split_and!; [apply sanitize_nonempty|done|..];
    intros Hin; rewrite Forall_forall in Hall; by specialize (Hall _ Hin).
Qed.

Lemma trim_start_nil c l : trim_start c l = [] → Forall (λ x, x = c) l.
Proof.
  induction l as [|x l IH]; [done|]. cbn. destruct (Z.eqb_spec x c); [|done].
  intros Hl. constructor; [done|]. by apply IH.
Qed.

Lemma trim_start_suffix c l : ∃ pre, l = pre ++ trim_start c l ∧ Forall (λ x, x = c) pre.
Proof.
  induction l as [|x l (pre & El & Hp)]; [by exists []|]. cbn.
  destruct (Z.eqb_spec x c); [|by exists []]. exists (x :: pre). split; [by rewrite {1}El|by constructor].
Qed.

Lemma trim_matches_nil c l : trim_matches c l = [] → Forall (λ x, x = c) l.
Proof.
  rewrite /trim_matches. intros H%(f_equal reverse). rewrite reverse_involutive in H.
  apply trim_start_nil in H. destruct (trim_start_suffix c l) as (pre & El & Hp).
  rewrite El Forall_app. split; [done|]. by rewrite -(reverse_involutive (trim_start c l)) Forall_reverse.
Qed.

(** a key made of allowed characters, not all of them '_', is kept as it is. That
    includes [".."], so a directory built from a sanitised key can still leave the data
    directory. *)
Theorem sanitize_keeps_allowed key :
  Forall (λ c, allowed c = true) key → Exists (λ c, c ≠ cp_underscore) key →
  sanitize_namespace key = key.
Proof.
  intros Hall Hex. rewrite /sanitize_namespace.
  assert (((λ c, if allowed c then c else cp_underscore) <$> key) = key) as ->.
  { clear Hex. induction Hall as [|c key Hc _ IH]; [done|]. cbn. by rewrite Hc IH. }
  case_bool_decide as E; [|done]. apply trim_matches_nil in E.
  apply Exists_exists in Hex as (c & Hin & Hne). rewrite Forall_forall in E.
  exfalso. apply Hne, E, Hin.
Qed.
End Namespace.
