(* ===== verification/Storage.v ===== *)
(** Files and the storage back ends: [src/src/wal/storage.rs] and [src/src/wal/paths.rs].

    A file is a sparse array of bytes: a log file is created by [set_len] and every byte
    nobody wrote reads as zero. A handle ([StorageImpl]) names its file, so that two
    handles on one path alias the same bytes. The [Fs] record is the process-wide state the
    sources keep in statics, with the parts of the environment the code reads: the system clock
    and whether file creation and flushing succeed. *)

From S2P Require Import Prelude Config.

#[local] Open Scope Z_scope.

(** * Sparse files *)

Record File := MkFile { f_data : gmap Z Z; f_len : Z }.

Definition byte_at (f : File) (i : Z) : Z := default 0 (f_data f !! i).

(** The [n] bytes from [off]; past the end the buffer keeps its zeros. *)
Definition read_bytes (f : File) (off n : Z) : list Z := byte_at f <$> seqZ off n.

Fixpoint store (off : Z) (data : list Z) (m : gmap Z Z) : gmap Z Z :=
  match data with
  | [] => m
  | b :: data => <[off := b]> (store (off + 1) data m)
  end.

(** A positioned write; it extends the file when it ends past it. *)
Definition write_bytes (f : File) (off : Z) (data : list Z) : File :=
  MkFile (store off data (f_data f)) (Z.max (f_len f) (off + len data)).

Section files.
Implicit Types (f : File) (data : list Z).

Lemma lookup_store off data m i :
  store off data m !! i =
    if decide (off ≤ i < off + len data) then data !! Z.to_nat (i - off) else m !! i.
Proof.
  revert off. induction data as [|b data IH]; intros off; cbn [store].
  { rewrite decide_False //. rewrite len_nil. lia. }
  rewrite len_cons. destruct (decide (i = off)) as [->|Hne].
  - rewrite lookup_insert_eq decide_True; [pose proof (len_nonneg data); lia|].
    by rewrite Z.sub_diag.
  - rewrite lookup_insert_ne; [congruence|]. rewrite IH. repeat case_decide; try lia; [|done].
    replace (Z.to_nat (i - off)) with (S (Z.to_nat (i - (off + 1)))) by lia. done.
Qed.

Lemma byte_at_write f off data i :
  byte_at (write_bytes f off data) i =
    if decide (off ≤ i < off + len data)
    then default 0 (data !! Z.to_nat (i - off)) else byte_at f i.
Proof. rewrite /byte_at /write_bytes /= lookup_store. by case_decide. Qed.

Lemma length_read_bytes f off n : length (read_bytes f off n) = Z.to_nat n.
Proof. by rewrite /read_bytes length_fmap length_seqZ. Qed.

Lemma len_read_bytes f off n : 0 ≤ n → len (read_bytes f off n) = n.
Proof. intros. rewrite /len length_read_bytes. lia. Qed.

Lemma lookup_read_bytes f off n (i : nat) :
  Z.of_nat i < n → read_bytes f off n !! i = Some (byte_at f (off + Z.of_nat i)).
Proof. intros. rewrite /read_bytes list_lookup_fmap lookup_seqZ_lt; [lia|done]. Qed.

(** Two files that agree on a range read the same there. *)
Lemma read_bytes_ext f g off n :
  (∀ i, off ≤ i < off + n → byte_at f i = byte_at g i) →
  read_bytes f off n = read_bytes g off n.
Proof.
  intros H. rewrite /read_bytes. apply list_fmap_ext. intros i x Hx.
  apply lookup_seqZ in Hx. apply H. lia.
Qed.

Lemma read_bytes_app f off n m :
  0 ≤ n → 0 ≤ m → read_bytes f off (n + m) = read_bytes f off n ++ read_bytes f (off + n) m.
Proof. intros. by rewrite /read_bytes seqZ_app // fmap_app. Qed.

(** What was written is read back. *)
Lemma read_write_same f off data :
  read_bytes (write_bytes f off data) off (len data) = data.
Proof.
  apply list_eq. intros i. destruct (decide (i < length data)%nat) as [Hi|Hi].
  - rewrite lookup_read_bytes; [unfold len; lia|]. rewrite byte_at_write decide_True.
    { unfold len. lia. }
    replace (Z.to_nat (off + Z.of_nat i - off)) with i by lia.
    by destruct (lookup_lt_is_Some_2 data i Hi) as [x ->].
  - rewrite (lookup_ge_None_2 data); [lia|]. apply lookup_ge_None_2.
    rewrite length_read_bytes /len. lia.
Qed.

(** A write elsewhere changes nothing. *)
Lemma read_write_other f off data off' n :
  off' + n ≤ off ∨ off + len data ≤ off' →
  read_bytes (write_bytes f off data) off' n = read_bytes f off' n.
Proof. intros H. apply read_bytes_ext. intros i Hi. rewrite byte_at_write decide_False //; lia. Qed.

(** Reading a part of what was written gives that part. *)
Lemma read_write_prefix f off pre post :
  read_bytes (write_bytes f off (pre ++ post)) off (len pre) = pre.
Proof.
  pose proof (read_write_same f off (pre ++ post)) as H.
  rewrite len_app read_bytes_app in H; [apply len_nonneg..|].
  by apply app_inj_1 in H as [? _]; [|rewrite length_read_bytes /len; lia].
Qed.

Lemma read_write_suffix f off pre post :
  read_bytes (write_bytes f off (pre ++ post)) (off + len pre) (len post) = post.
Proof.
  pose proof (read_write_same f off (pre ++ post)) as H.
  rewrite len_app read_bytes_app in H; [apply len_nonneg..|].
  by apply app_inj_1 in H as [_ ?]; [|rewrite length_read_bytes /len; lia].
Qed.
End files.

(** * Storage handles and process-wide state *)

(** [StorageImpl]: a memory map over the file as it was when mapped, or a descriptor. *)
Inductive StorageImpl :=
  | Mmap (path : string) (maplen : Z)
  | Fd (path : string) (fdlen : Z) (o_sync : bool).

Definition st_path (st : StorageImpl) : string :=
  match st with Mmap p _ | Fd p _ _ => p end.
Definition st_len (st : StorageImpl) : Z :=
  match st with Mmap _ n | Fd _ n _ => n end.
Definition as_fd (st : StorageImpl) : option string :=
  match st with Fd p _ _ => Some p | Mmap _ _ => None end.

Record Fs := MkFs {
  fs_files : gmap string File;          (* contents, also of unlinked files still open *)
  fs_names : gset string;               (* directory entries *)
  USE_FD_BACKEND : bool;
  GLOBAL_FSYNC_SCHEDULE : option FsyncSchedule;
  LAST_MILLIS : Z;
  keeper_read : gmap string StorageImpl; (* the static of get_mmap_arc_read *)
  keeper : gmap string StorageImpl;      (* the static of get_mmap_arc *)
  env_now : Z;
  env_create_ok : bool;
  env_flush_ok : bool;
}.

Definition fs_set_files (m : gmap string File) (s : Fs) : Fs :=
  MkFs m (fs_names s) (USE_FD_BACKEND s) (GLOBAL_FSYNC_SCHEDULE s) (LAST_MILLIS s)
       (keeper_read s) (keeper s) (env_now s) (env_create_ok s) (env_flush_ok s).
Definition fs_set_millis (z : Z) (s : Fs) : Fs :=
  MkFs (fs_files s) (fs_names s) (USE_FD_BACKEND s) (GLOBAL_FSYNC_SCHEDULE s) z
       (keeper_read s) (keeper s) (env_now s) (env_create_ok s) (env_flush_ok s).
Definition fs_link (path : string) (f : File) (s : Fs) : Fs :=
  MkFs (<[path := f]> (fs_files s)) ({[path]} ∪ fs_names s) (USE_FD_BACKEND s)
       (GLOBAL_FSYNC_SCHEDULE s) (LAST_MILLIS s)
       (keeper_read s) (keeper s) (env_now s) (env_create_ok s) (env_flush_ok s).
Definition fs_keep (path : string) (st : StorageImpl) (s : Fs) : Fs :=
  MkFs (fs_files s) (fs_names s) (USE_FD_BACKEND s) (GLOBAL_FSYNC_SCHEDULE s) (LAST_MILLIS s)
       (keeper_read s) (<[path := st]> (keeper s)) (env_now s) (env_create_ok s) (env_flush_ok s).
Definition fs_set_schedule (o : option FsyncSchedule) (s : Fs) : Fs :=
  MkFs (fs_files s) (fs_names s) (USE_FD_BACKEND s) o (LAST_MILLIS s)
       (keeper_read s) (keeper s) (env_now s) (env_create_ok s) (env_flush_ok s).

Definition empty_file : File := MkFile ∅ 0.
Definition file_of (s : Fs) (path : string) : File := default empty_file (fs_files s !! path).

(** [StorageImpl::write]: the map is written without a check in release builds, so an
    access past it has no defined outcome; [pwrite] extends the file. *)
Definition storage_write (st : StorageImpl) (offset : Z) (data : list Z) : M Fs unit := λ s,
  let s' := fs_set_files (<[st_path st := write_bytes (file_of s (st_path st)) offset data]>
                            (fs_files s)) s in
  match st with
  | Mmap _ maplen => if offset + len data <=? maplen then (Ok tt, s') else (Panic, s)
  | Fd _ _ _ => (Ok tt, s')
  end.

(** [StorageImpl::read]: the map slice is bounds-checked; [pread] leaves the rest of the
    zeroed destination as it is. *)
Definition storage_read (st : StorageImpl) (offset n : Z) : M Fs (list Z) := λ s,
  match st with
  | Mmap _ maplen =>
      if offset + n <=? maplen then (Ok (read_bytes (file_of s (st_path st)) offset n), s)
      else (Panic, s)
  | Fd _ _ _ => (Ok (read_bytes (file_of s (st_path st)) offset n), s)
  end.

Definition storage_flush (st : StorageImpl) : M Fs unit := λ s,
  if env_flush_ok s then (Ok tt, s) else (Err (IoError KOther "flush failed"), s).

Definition should_use_o_sync (s : Fs) : bool :=
  match GLOBAL_FSYNC_SCHEDULE s with Some SyncEach => true | _ => false end.

(** [OnceLock::set]: the first schedule wins. *)
Definition set_fsync_schedule (schedule : FsyncSchedule) (s : Fs) : Fs :=
  match GLOBAL_FSYNC_SCHEDULE s with
  | None => fs_set_schedule (Some schedule) s
  | Some _ => s
  end.

Definition create_storage_impl (path : string) : M Fs StorageImpl :=
  let! s := getS in
  if bool_decide (path ∈ fs_names s) then
    let n := f_len (file_of s path) in
    if USE_FD_BACKEND s then ret (Fd path n (should_use_o_sync s)) else ret (Mmap path n)
  else fail KNotFound "open".

(** [SharedMmapKeeper::get_mmap_arc_read] reads a keeper of its own. *)
Definition get_mmap_arc_read (path : string) (s : Fs) : option StorageImpl :=
  keeper_read s !! path.

Definition get_mmap_arc (path : string) : M Fs StorageImpl :=
  let! s := getS in
  match get_mmap_arc_read path s with
  | Some existing => ret existing
  | None =>
      match keeper s !! path with
      | Some existing => ret existing
      | None =>
          let! arc := create_storage_impl path in
          modify (fs_keep path arc);;
          ret arc
      end
  end.

(** * Paths and file creation *)

Record WalPathManager := { root : string }.

(** [now_millis_str]: a decimal name from the monotonic counter. *)
Definition now_millis_str : M Fs string :=
  let! s := getS in
  let c := Clock.now_millis (env_now s) (LAST_MILLIS s) in
  modify (fs_set_millis c);;
  ret (pretty (Z.to_N c)).

Definition join (paths : WalPathManager) (name : string) : string :=
  root paths +:+ "/" +:+ name.

Definition index_path (paths : WalPathManager) (file_name : string) : string :=
  join paths (file_name +:+ "_index.db").

(** [File::create] truncates an existing file; [set_len] makes it sparse. *)
Definition create_new_file (paths : WalPathManager) : M Fs string :=
  let! file_name := now_millis_str in
  let path := join paths file_name in
  let! s := getS in
  if env_create_ok s then
    modify (fs_link path (MkFile ∅ MAX_FILE_SIZE));;
    ret path
  else fail KOther "create".

(** The path of the file named by a counter value. *)
Definition path_of (paths : WalPathManager) (ms : Z) : string := join paths (pretty (Z.to_N ms)).

Lemma string_app_inj (p a b : string) : p +:+ a = p +:+ b → a = b.
Proof. apply (inj (String.append p)). Qed.

Lemma path_of_inj paths a b : 0 ≤ a → 0 ≤ b → path_of paths a = path_of paths b → a = b.
Proof.
  intros Ha Hb H. apply string_app_inj, string_app_inj in H.
  apply (inj pretty) in H. lia.
Qed.
