(* ===== verification/Block.v ===== *)
(** Blocks and the on-disk entry format: [src/src/wal/block.rs].

    An entry is a 256-byte header (a two-byte little-endian length, the serialised
    [Metadata], zero padding) followed by the payload. The serialisation itself is the
    [rkyv] crate, which is a parameter: the class [MetaCodec] with its laws. *)

From S2P Require Import Prelude Config Storage.

#[local] Open Scope Z_scope.

Record Metadata := MkMetadata {
  read_size : Z;
  owned_by : string;
  next_block_start : Z;
  checksum : Z;
}.

(** The fields are machine words. *)
Definition meta_wf (m : Metadata) : Prop :=
  is_u64 (read_size m) ∧ is_u64 (next_block_start m) ∧ is_u64 (checksum m).

(** * The serialiser *)

(** [rkyv::to_bytes] and [rkyv::archived_root] followed by [deserialize]. *)
Class MetaCodec := {
  to_bytes : Metadata → option (list Z);
  archived_root : list Z → option Metadata;
}.

(** What the code relies on: a record that was serialised is read back, no record is
    serialised to nothing, and the fields read back are machine words. *)
Class MetaCodecLaws `{MetaCodec} : Prop := {
  codec_roundtrip m bs : meta_wf m → to_bytes m = Some bs → archived_root bs = Some m;
  codec_nonempty m bs : to_bytes m = Some bs → bs ≠ [];
  codec_range bs m : archived_root bs = Some m → meta_wf m;
}.

Record Block := MkBlock {
  b_id : Z;
  b_file_path : string;
  b_offset : Z;
  b_limit : Z;
  b_mmap : StorageImpl;
  b_used : Z;
}.

(** [sealed.used = u] on a clone. *)
Definition set_used (u : Z) (b : Block) : Block :=
  MkBlock (b_id b) (b_file_path b) (b_offset b) (b_limit b) (b_mmap b) u.

(** The header around serialised metadata; slicing past the buffer panics. *)
Definition meta_buffer (meta_bytes : list Z) : option (list Z) :=
  if 2 + len meta_bytes <=? PREFIX_META_SIZE then
    Some (Z.land (len meta_bytes) 0xFF :: Z.land (Z.shiftr (len meta_bytes) 8) 0xFF ::
          meta_bytes ++ replicate (Z.to_nat (PREFIX_META_SIZE - 2 - len meta_bytes)) 0)
  else None.

(** The length the first two bytes of a header announce. *)
Definition header_meta_len (buf : list Z) : Z :=
  Z.lor (default 0 (buf !! 0%nat)) (Z.shiftl (default 0 (buf !! 1%nat)) 8).

(** The serialised part of a header. *)
Definition header_meta_bytes (buf : list Z) : list Z :=
  take (Z.to_nat (header_meta_len buf)) (drop 2 buf).

Section block.
Context `{MetaCodec}.

Definition new_meta (data : list Z) (owner : string) (nbs : Z) : Metadata :=
  MkMetadata (len data) owner nbs (Checksum.checksum64 data).

Definition Block_write (self : Block) (in_block_offset : Z) (data : list Z)
    (owner : string) (nbs : Z) : M Fs unit :=
  match to_bytes (new_meta data owner nbs) with
  | None => fail KOther "serialize metadata failed"
  | Some meta_bytes =>
      if len meta_bytes >? PREFIX_META_SIZE - 2 then fail KInvalidData "metadata too large"
      else
        match meta_buffer meta_bytes with
        | None => panic
        | Some buf =>
            let file_offset := b_offset self + in_block_offset in
            storage_write (b_mmap self) file_offset (buf ++ data)
        end
  end.

Definition Block_read (self : Block) (in_block_offset : Z) : M Fs (list Z * Z) :=
  let file_offset := b_offset self + in_block_offset in
  let! buf := storage_read (b_mmap self) file_offset PREFIX_META_SIZE in
  let meta_len := header_meta_len buf in
  if (meta_len =? 0) || (meta_len >? PREFIX_META_SIZE - 2) then
    fail KInvalidData ("invalid metadata length: " +:+ pretty (Z.to_N meta_len))
  else
    match archived_root (header_meta_bytes buf) with
    | None => fail KInvalidData "failed to deserialize metadata"
    | Some meta =>
        let actual_entry_size := read_size meta in
        let new_offset := file_offset + PREFIX_META_SIZE in
        let! ret_buffer := storage_read (b_mmap self) new_offset actual_entry_size in
        if Checksum.checksum64 ret_buffer =? checksum meta then
          ret (ret_buffer, PREFIX_META_SIZE + actual_entry_size)
        else fail KInvalidData "checksum mismatch, data corruption detected"
    end.

Definition zero_range (self : Block) (in_block_offset size : Z) : M Fs unit :=
  if size =? 0 then ret tt
  else storage_write (b_mmap self) (b_offset self + in_block_offset)
         (replicate (Z.to_nat size) 0).
End block.

(** * The header *)

Lemma len_meta_buffer bs buf : meta_buffer bs = Some buf → len buf = PREFIX_META_SIZE.
Proof.
  rewrite /meta_buffer. case_match eqn:E; [|done]. intros [= <-].
  apply Z.leb_le in E. autorewrite with len. rewrite /PREFIX_META_SIZE in E |- *. lia.
Qed.

(** Two little-endian bytes give back a length below 2^16. *)
Lemma le16_roundtrip n :
  0 ≤ n < 2 ^ 16 → Z.lor (Z.land n 0xFF) (Z.shiftl (Z.land (Z.shiftr n 8) 0xFF) 8) = n.
Proof.
  intros Hn. apply Z.bits_inj'. intros i Hi.
  rewrite Z.lor_spec Z.land_spec. change 0xFF with (Z.ones 8).
  destruct (decide (i < 8)).
  - rewrite Z.shiftl_spec_low; [lia|]. rewrite Z.ones_spec_low; [lia|].
    by rewrite andb_true_r orb_false_r.
  - rewrite Z.shiftl_spec_high; [lia..|]. rewrite Z.land_spec Z.shiftr_spec; [lia|].
    rewrite (Z.ones_spec_high 8 i); [lia|]. rewrite andb_false_r orb_false_l.
    replace (i - 8 + 8) with i by lia. destruct (decide (i < 16)).
    + rewrite Z.ones_spec_low; [lia|]. by rewrite andb_true_r.
    + rewrite Z.ones_spec_high; [lia|]. rewrite andb_false_r. symmetry.
      destruct (decide (n = 0)) as [->|]; [apply Z.bits_0|].
      apply Z.bits_above_log2; [lia|]. apply Z.log2_lt_pow2; [lia|].
      eapply Z.lt_le_trans; [apply Hn|]. apply Z.pow_le_mono_r; lia.
Qed.

Lemma header_meta_len_buffer bs buf :
  meta_buffer bs = Some buf → header_meta_len buf = len bs.
Proof.
  rewrite /meta_buffer. case_match eqn:E; [|done]. intros [= <-].
  apply Z.leb_le in E. rewrite /header_meta_len /=. apply le16_roundtrip.
  pose proof (len_nonneg bs). rewrite /PREFIX_META_SIZE in E. lia.
Qed.

Lemma header_meta_bytes_buffer bs buf :
  meta_buffer bs = Some buf → header_meta_bytes buf = bs.
Proof.
  intros Hb. rewrite /header_meta_bytes (header_meta_len_buffer _ _ Hb).
  rewrite /meta_buffer in Hb. case_match; [|done]. injection Hb as <-.
  rewrite /= /len Nat2Z.id take_app_length' //.
Qed.

Lemma header_meta_len_zero n : header_meta_len (replicate n 0) = 0.
Proof. by destruct n as [|[|n]]. Qed.

(** * Reads and writes of one handle *)

Definition agree (s s' : Fs) (p : string) (lo hi : Z) : Prop :=
  ∀ i, lo ≤ i < hi → byte_at (file_of s p) i = byte_at (file_of s' p) i.

(** The handle can be accessed on [off, off + n). *)
Definition in_range (st : StorageImpl) (off n : Z) : Prop :=
  match st with Mmap _ maplen => off + n ≤ maplen | Fd _ _ _ => True end.

Definition fs_put (p : string) (off : Z) (data : list Z) (s : Fs) : Fs :=
  fs_set_files (<[p := write_bytes (file_of s p) off data]> (fs_files s)) s.

Lemma storage_write_ok st off data s :
  in_range st off (len data) →
  storage_write st off data s = (Ok tt, fs_put (st_path st) off data s).
Proof.
  destruct st as [p n|p n o]; cbn; intros Hr; [|done].
  by rewrite (proj2 (Z.leb_le _ _) Hr).
Qed.

Lemma storage_write_inv st off data s o s' :
  storage_write st off data s = (o, s') →
  (o = Ok tt ∧ in_range st off (len data) ∧ s' = fs_put (st_path st) off data s) ∨
  (o = Panic ∧ ¬ in_range st off (len data) ∧ s' = s).
Proof.
  destruct st as [p n|p n q]; cbn; [|intros [= <- <-]; by left].
  case_match eqn:E; intros [= <- <-]; [left|right]; (split_and!; [done| |done]); lia.
Qed.

Lemma storage_read_ok st off n s :
  in_range st off n →
  storage_read st off n s = (Ok (read_bytes (file_of s (st_path st)) off n), s).
Proof.
  destruct st as [p m|p m o]; cbn; intros Hr; [|done]. by rewrite (proj2 (Z.leb_le _ _) Hr).
Qed.

Lemma storage_read_inv st off n s o s' :
  storage_read st off n s = (o, s') →
  s' = s ∧
  ((in_range st off n ∧ o = Ok (read_bytes (file_of s (st_path st)) off n)) ∨
   (¬ in_range st off n ∧ o = Panic)).
Proof.
  destruct st as [p m|p m q]; cbn; [|intros [= <- <-]; by auto].
  case_match eqn:E; intros [= <- <-]; (split; [done|]); [left|right]; (split; [lia|done]).
Qed.

Lemma file_of_put_same p off data s :
  file_of (fs_put p off data s) p = write_bytes (file_of s p) off data.
Proof. by rewrite {1}/file_of /= lookup_insert_eq. Qed.

Lemma file_of_put_other p p' off data s :
  p ≠ p' → file_of (fs_put p off data s) p' = file_of s p'.
Proof. intros. by rewrite /file_of /= lookup_insert_ne. Qed.

(** A write does not disturb a range it does not meet. *)
Lemma agree_put p off data s p' lo hi :
  p ≠ p' ∨ hi ≤ off ∨ off + len data ≤ lo → agree s (fs_put p off data s) p' lo hi.
Proof.
  intros Hd i Hi. destruct (decide (p = p')) as [<-|Hne].
  - rewrite file_of_put_same byte_at_write decide_False //. destruct Hd as [|Hd]; [done|]. lia.
  - by rewrite file_of_put_other.
Qed.

Lemma agree_refl s p lo hi : agree s s p lo hi.
Proof. done. Qed.

Lemma agree_trans s1 s2 s3 p lo hi :
  agree s1 s2 p lo hi → agree s2 s3 p lo hi → agree s1 s3 p lo hi.
Proof. intros H1 H2 i Hi. by rewrite H1 // H2. Qed.

Lemma agree_sub s s' p lo hi lo' hi' :
  agree s s' p lo hi → lo ≤ lo' → hi' ≤ hi → agree s s' p lo' hi'.
Proof. intros H ?? i Hi. apply H. lia. Qed.

Lemma agree_read s s' p lo hi off n :
  agree s s' p lo hi → lo ≤ off → off + n ≤ hi →
  read_bytes (file_of s p) off n = read_bytes (file_of s' p) off n.
Proof. intros Ha ??. apply read_bytes_ext. intros i Hi. apply Ha. lia. Qed.

Section block_lemmas.
Context `{MetaCodecLaws}.
Implicit Types (b : Block) (s : Fs).

(** [Block::read] never changes the state. *)
Lemma Block_read_state b off s : (Block_read b off s).2 = s.
Proof.
  rewrite /Block_read /bind.
  destruct (storage_read _ _ _ s) as [o1 s1] eqn:E1.
  apply storage_read_inv in E1 as [-> [[_ ->]|[_ ->]]]; [|done].
  case_match; [done|]. case_match; [|done].
  destruct (storage_read _ _ (read_size _) s) as [o2 s2] eqn:E2.
  apply storage_read_inv in E2 as [-> [[_ ->]|[_ ->]]]; [|done].
  by case_match.
Qed.

(** A read that succeeds: where its header and its payload are. *)
Lemma Block_read_inv b off s d c :
  (Block_read b off s).1 = Ok (d, c) →
  let p := st_path (b_mmap b) in
  let base := b_offset b + off in
  let buf := read_bytes (file_of s p) base PREFIX_META_SIZE in
  in_range (b_mmap b) base c ∧ c = PREFIX_META_SIZE + len d ∧
  d = read_bytes (file_of s p) (base + PREFIX_META_SIZE) (len d) ∧
  header_meta_len buf ≠ 0 ∧ header_meta_len buf ≤ PREFIX_META_SIZE - 2 ∧
  ∃ m, archived_root (header_meta_bytes buf) = Some m ∧ read_size m = len d ∧
       Checksum.checksum64 d = checksum m.
Proof.
  rewrite /Block_read /bind.
  destruct (storage_read _ _ _ s) as [o1 s1] eqn:E1.
  apply storage_read_inv in E1 as [-> [[Hr1 ->]|[_ ->]]]; [|done].
  case_match eqn:Hlen; [done|]. case_match eqn:Hm; [|done].
  destruct (storage_read _ _ (read_size _) s) as [o2 s2] eqn:E2.
  apply storage_read_inv in E2 as [-> [[Hr2 ->]|[_ ->]]]; [|done].
  case_match eqn:Hc; [|done]. intros [= <- <-]. cbn.
  pose proof (codec_range _ _ Hm) as [[? ?] _].
  apply orb_false_iff in Hlen as [Hl1 Hl2].
  rewrite len_read_bytes; [lia|]. split_and!; try done.
  - destruct (b_mmap b); cbn in *; lia.
  - lia.
  - lia.
  - eexists. split; [done|]. split; [done|]. lia.
Qed.

(** Conversely, those facts make the read succeed. *)
Lemma Block_read_intro b off s d m :
  let p := st_path (b_mmap b) in
  let base := b_offset b + off in
  let buf := read_bytes (file_of s p) base PREFIX_META_SIZE in
  in_range (b_mmap b) base (PREFIX_META_SIZE + len d) →
  d = read_bytes (file_of s p) (base + PREFIX_META_SIZE) (len d) →
  header_meta_len buf ≠ 0 → header_meta_len buf ≤ PREFIX_META_SIZE - 2 →
  archived_root (header_meta_bytes buf) = Some m → read_size m = len d →
  Checksum.checksum64 d = checksum m →
  Block_read b off s = (Ok (d, PREFIX_META_SIZE + len d), s).
Proof.
  intros p base buf Hr Hd Hl1 Hl2 Hm Hsz Hc. rewrite /Block_read /bind.
  pose proof (len_nonneg d).
  rewrite storage_read_ok.
  { fold base. destruct (b_mmap b); cbn in *; [|done]. lia. }
  fold p base buf.
  rewrite (proj2 (orb_false_iff _ _)); [split; lia|].
  rewrite Hm Hsz storage_read_ok.
  { destruct (b_mmap b); cbn in *; [|done]. lia. }
  fold p. rewrite -Hd Hc Z.eqb_refl. done.
Qed.

(** A read depends only on the bytes of its entry. *)
Lemma Block_read_frame b off s s' d c :
  (Block_read b off s).1 = Ok (d, c) →
  agree s s' (st_path (b_mmap b)) (b_offset b + off) (b_offset b + off + c) →
  Block_read b off s' = (Ok (d, c), s').
Proof.
  intros (Hr & -> & Hd & Hl1 & Hl2 & m & Hm & Hsz & Hc)%Block_read_inv Ha.
  pose proof (len_nonneg d).
  assert (read_bytes (file_of s (st_path (b_mmap b))) (b_offset b + off) PREFIX_META_SIZE
          = read_bytes (file_of s' (st_path (b_mmap b))) (b_offset b + off) PREFIX_META_SIZE)
    as Hbuf by (eapply agree_read; [exact Ha|lia..]).
  rewrite Hbuf in Hl1 Hl2 Hm. apply (Block_read_intro _ _ _ _ m); try done.
  rewrite {1}Hd. eapply agree_read; [exact Ha| |lia]. rewrite /PREFIX_META_SIZE. lia.
Qed.

(** What a successful write leaves on disk. *)
Lemma Block_write_inv b off data col nbs s o s' :
  Block_write b off data col nbs s = (o, s') →
  match o with
  | Ok _ => ∃ bs buf, to_bytes (new_meta data col nbs) = Some bs ∧
      meta_buffer bs = Some buf ∧
      in_range (b_mmap b) (b_offset b + off) (PREFIX_META_SIZE + len data) ∧
      s' = fs_put (st_path (b_mmap b)) (b_offset b + off) (buf ++ data) s
  | Panic => ¬ in_range (b_mmap b) (b_offset b + off) (PREFIX_META_SIZE + len data) ∧ s' = s
  | Err _ => s' = s
  | Hang => False
  end.
Proof.
  rewrite /Block_write. case_match eqn:Hb; [|by intros [= <- <-]].
  case_match eqn:Hl; [by intros [= <- <-]|].
  assert (is_Some (meta_buffer l)) as [buf Hbuf].
  { rewrite /meta_buffer. case_match eqn:E; [by eexists|]. lia. }
  rewrite Hbuf. intros Hw.
  apply storage_write_inv in Hw; rewrite len_app (len_meta_buffer _ _ Hbuf) in Hw.
  destruct Hw as [(-> & Hr & ->)|(-> & Hr & ->)]; [|done].
  by exists l, buf.
Qed.

(** When the record serialises within the header, the write succeeds. *)
Lemma Block_write_ok b off data col nbs s bs :
  to_bytes (new_meta data col nbs) = Some bs → len bs ≤ PREFIX_META_SIZE - 2 →
  in_range (b_mmap b) (b_offset b + off) (PREFIX_META_SIZE + len data) →
  ∃ buf, meta_buffer bs = Some buf ∧
    Block_write b off data col nbs s =
      (Ok tt, fs_put (st_path (b_mmap b)) (b_offset b + off) (buf ++ data) s).
Proof.
  intros Hb Hl Hr. rewrite /Block_write Hb.
  destruct (Z.gtb_spec (len bs) (PREFIX_META_SIZE - 2)); [lia|].
  assert (is_Some (meta_buffer bs)) as [buf Hbuf].
  { rewrite /meta_buffer. case_match eqn:E; [by eexists|]. lia. }
  exists buf. split; [done|]. rewrite Hbuf storage_write_ok //.
  by rewrite len_app (len_meta_buffer _ _ Hbuf).
Qed.
End block_lemmas.

Section block_theorems.
Context `{MetaCodecLaws}.
Implicit Types (b : Block) (s : Fs).

Lemma new_meta_wf data col nbs :
  is_u64 (len data) → is_u64 nbs → meta_wf (new_meta data col nbs).
Proof. intros. split_and!; [done..|]. apply Checksum.checksum64_range. Qed.

(** The header of an entry that was just written. *)
Lemma read_put_header p base buf data s :
  len buf = PREFIX_META_SIZE →
  read_bytes (file_of (fs_put p base (buf ++ data) s) p) base PREFIX_META_SIZE = buf.
Proof. intros <-. rewrite file_of_put_same. apply read_write_prefix. Qed.

Lemma read_put_payload p base buf data s :
  len buf = PREFIX_META_SIZE →
  read_bytes (file_of (fs_put p base (buf ++ data) s) p) (base + PREFIX_META_SIZE) (len data)
  = data.
Proof. intros <-. rewrite file_of_put_same. apply read_write_suffix. Qed.

(** An entry on disk, as [Block_write] leaves it, is read back. *)
Lemma Block_read_put b off data col nbs s bs buf :
  to_bytes (new_meta data col nbs) = Some bs → meta_buffer bs = Some buf →
  in_range (b_mmap b) (b_offset b + off) (PREFIX_META_SIZE + len data) →
  is_u64 (len data) → is_u64 nbs →
  let s' := fs_put (st_path (b_mmap b)) (b_offset b + off) (buf ++ data) s in
  Block_read b off s' = (Ok (data, PREFIX_META_SIZE + len data), s').
Proof.
  intros Hb Hbuf Hr Hd Hn s'. pose proof (len_meta_buffer _ _ Hbuf) as Hlen.
  assert (len bs ≠ 0) as Hne.
  { pose proof (codec_nonempty _ _ Hb). destruct bs; [done|]. rewrite len_cons.
    pose proof (len_nonneg bs). lia. }
  assert (len bs ≤ PREFIX_META_SIZE - 2) as Hle.
  { rewrite /meta_buffer in Hbuf. case_match; [lia|done]. }
  apply (Block_read_intro _ _ _ _ (new_meta data col nbs)); try done.
  - symmetry. by apply read_put_payload.
  - by rewrite read_put_header // (header_meta_len_buffer _ _ Hbuf).
  - by rewrite read_put_header // (header_meta_len_buffer _ _ Hbuf).
  - rewrite read_put_header // (header_meta_bytes_buffer _ _ Hbuf).
    apply codec_roundtrip; [by apply new_meta_wf|done].
Qed.

(** an entry written at an offset of a block is read back from that offset, with the
    number of bytes it occupies; the read changes nothing. *)
Theorem block_write_read b off data col nbs s s' :
  Block_write b off data col nbs s = (Ok tt, s') →
  is_u64 (len data) → is_u64 nbs →
  Block_read b off s' = (Ok (data, PREFIX_META_SIZE + len data), s').
Proof.
  intros (bs & buf & Hb & Hbuf & Hr & ->)%Block_write_inv Hd Hn. by eapply Block_read_put.
Qed.

(** A one-byte write. *)
Lemma byte_at_put_one p i x s j :
  byte_at (file_of (fs_put p i [x] s) p) j = if decide (j = i) then x else byte_at (file_of s p) j.
Proof.
  rewrite file_of_put_same byte_at_write. change (len [x]) with 1.
  repeat case_decide; try lia; try done. subst. by rewrite Z.sub_diag.
Qed.

(** Overwriting one byte inside a range replaces that element. *)
Lemma read_put_one p off n x s (k : nat) :
  Z.of_nat k < n →
  read_bytes (file_of (fs_put p (off + Z.of_nat k) [x] s) p) off n =
    <[k := x]> (read_bytes (file_of s p) off n).
Proof.
  intros Hk. apply list_eq. intros i. destruct (decide (Z.of_nat i < n)).
  - rewrite lookup_read_bytes // byte_at_put_one. destruct (decide (i = k)) as [->|Hne].
    + rewrite decide_True // list_lookup_insert_eq // length_read_bytes. lia.
    + rewrite decide_False; [lia|]. rewrite list_lookup_insert_ne; [done|].
      by rewrite lookup_read_bytes.
  - rewrite !lookup_ge_None_2 // ?length_insert length_read_bytes; lia.
Qed.

(** C33: when any single byte of a stored payload is changed on disk, the entry is
    refused with a checksum error instead of being delivered. *)
Theorem block_read_detects_corruption b off data col nbs s s' (k : nat) x y :
  Block_write b off data col nbs s = (Ok tt, s') →
  is_u64 (len data) → is_u64 nbs → Forall is_byte data →
  data !! k = Some y → is_byte x → x ≠ y →
  let corrupted := fs_put (st_path (b_mmap b))
                     (b_offset b + off + PREFIX_META_SIZE + Z.of_nat k) [x] s' in
  Block_read b off corrupted =
    (Err (IoError KInvalidData "checksum mismatch, data corruption detected"), corrupted).
Proof.
  intros (bs & buf & Hb & Hbuf & Hr & ->)%Block_write_inv Hd Hn Hbytes Hk Hx Hne c.
  pose proof (len_meta_buffer _ _ Hbuf) as Hlen. pose proof (len_nonneg data).
  assert (Z.of_nat k < len data) as Hkl by (apply lookup_lt_Some in Hk; unfold len; lia).
  assert (len bs ≠ 0) as Hne0.
  { pose proof (codec_nonempty _ _ Hb). destruct bs; [done|]. rewrite len_cons.
    pose proof (len_nonneg bs). lia. }
  assert (len bs ≤ PREFIX_META_SIZE - 2) as Hle.
  { rewrite /meta_buffer in Hbuf. case_match; [lia|done]. }
  assert (read_bytes (file_of c (st_path (b_mmap b))) (b_offset b + off) PREFIX_META_SIZE = buf)
    as Hhdr.
  { rewrite -(read_put_header (st_path (b_mmap b)) (b_offset b + off) buf data s Hlen).
    symmetry. eapply agree_read; [apply agree_put| |]; [|done|done]. right. left. lia. }
  rewrite /Block_read /bind storage_read_ok.
  { destruct (b_mmap b); cbn in *; [|done]. lia. }
  rewrite Hhdr (header_meta_len_buffer _ _ Hbuf) (header_meta_bytes_buffer _ _ Hbuf).
  rewrite (proj2 (orb_false_iff _ _)); [split; lia|].
  rewrite (codec_roundtrip _ _ (new_meta_wf data col nbs Hd Hn) Hb) /=.
  rewrite storage_read_ok. { destruct (b_mmap b); cbn in *; [|done]. lia. }
  rewrite read_put_one // read_put_payload //.
  assert (data = take k data ++ y :: drop (S k) data) as Hsplit by (symmetry; apply take_drop_middle; exact Hk).
  rewrite (insert_take_drop data); [by apply lookup_lt_Some in Hk|].
  rewrite (proj2 (Z.eqb_neq _ _)) //. rewrite {3}Hsplit.
  rewrite Hsplit in Hbytes. apply Forall_app in Hbytes as [? [??]%Forall_cons].
  by apply Checksum.checksum64_detects.
Qed.

(** zeroing the header of an entry invalidates it: later reads report an invalid
    metadata length. *)
Theorem zero_range_invalidates b off s s' :
  zero_range b off PREFIX_META_SIZE s = (Ok tt, s') →
  Block_read b off s' = (Err (IoError KInvalidData "invalid metadata length: 0"), s').
Proof.
  rewrite /zero_range. change (PREFIX_META_SIZE =? 0) with false. cbv iota.
  intros [(_ & Hr & ->)|(? & _)]%storage_write_inv; [|done].
  rewrite len_replicate in Hr.
  rewrite /Block_read /bind storage_read_ok.
  { destruct (b_mmap b); cbn in *; [|done]. lia. }
  rewrite file_of_put_same.
  change PREFIX_META_SIZE with (len (replicate (Z.to_nat PREFIX_META_SIZE) 0)) at 1 2.
  rewrite read_write_same header_meta_len_zero. done.
Qed.
End block_theorems.
