(* ===== verification/Trackers.v ===== *)
(** Block and file state tracking, and the readiness check for deleting a log file:
    [BlockStateTracker], [FileStateTracker] and [flush_check] of
    [src/src/wal/runtime/allocator.rs].

    Both maps are process-wide statics; the record [Trackers] holds them with the deletion
    channel. The counters are 16-bit atomics that wrap. *)

From S2P Require Import Prelude.

#[local] Open Scope Z_scope.

Record BlockState := MkBlockState {
  is_checkpointed : bool;
  bs_file_path : string;
}.

Record FileState := MkFileState {
  locked_block_ctr : Z;
  checkpoint_block_ctr : Z;
  total_blocks : Z;
  is_fully_allocated : bool;
}.

Record Trackers := MkTrackers {
  t_blocks : gmap Z BlockState;
  t_files : gmap string FileState;
  DELETION_TX : option (list string);  (* None until the worker has set the channel *)
}.

#[global] Instance BlockState_eq_dec : EqDecision BlockState.
Proof. solve_decision. Defined.
#[global] Instance FileState_eq_dec : EqDecision FileState.
Proof. solve_decision. Defined.

Definition with_blocks (m : gmap Z BlockState) (t : Trackers) : Trackers :=
  MkTrackers m (t_files t) (DELETION_TX t).
Definition with_files (m : gmap string FileState) (t : Trackers) : Trackers :=
  MkTrackers (t_blocks t) m (DELETION_TX t).
Definition with_deletions (q : option (list string)) (t : Trackers) : Trackers :=
  MkTrackers (t_blocks t) (t_files t) q.

(** * FileStateTracker, counters only *)

Definition new_file_state : FileState := MkFileState 0 0 0 false.

Definition register_file_if_absent (file_path : string) (t : Trackers) : Trackers :=
  match t_files t !! file_path with
  | Some _ => t
  | None => with_files (<[file_path := new_file_state]> (t_files t)) t
  end.

Definition add_total (st : FileState) : FileState :=
  MkFileState (locked_block_ctr st) (checkpoint_block_ctr st) (wrap16 (total_blocks st + 1))
              (is_fully_allocated st).
Definition add_locked (d : Z) (st : FileState) : FileState :=
  MkFileState (wrap16 (locked_block_ctr st + d)) (checkpoint_block_ctr st) (total_blocks st)
              (is_fully_allocated st).
Definition add_checkpoint (st : FileState) : FileState :=
  MkFileState (locked_block_ctr st) (wrap16 (checkpoint_block_ctr st + 1)) (total_blocks st)
              (is_fully_allocated st).
Definition mark_full (st : FileState) : FileState :=
  MkFileState (locked_block_ctr st) (checkpoint_block_ctr st) (total_blocks st) true.

(** [if let Some(st) = r.get(path)]: an update in place of an existing record. *)
Definition update_file (f : FileState → FileState) (path : string) (t : Trackers) : Trackers :=
  with_files (alter f path (t_files t)) t.

Definition add_block_to_file_state (file_path : string) (t : Trackers) : Trackers :=
  update_file add_total file_path (register_file_if_absent file_path t).

Definition inc_checkpoint_for_file (file_path : string) (t : Trackers) : Trackers :=
  update_file add_checkpoint file_path t.

Definition get_state_snapshot (file_path : string) (t : Trackers) : option (Z * Z * Z * bool) :=
  st ← t_files t !! file_path;
  Some (locked_block_ctr st, checkpoint_block_ctr st, total_blocks st, is_fully_allocated st).

(** * flush_check *)

Definition ready_to_delete (p : Z * Z * Z * bool) : bool :=
  let '(locked, checkpointed, total, fully_allocated) := p in
  fully_allocated && (locked =? 0) && (total >? 0) && (checkpointed >=? total).

Definition flush_check (file_path : string) (t : Trackers) : Trackers :=
  match get_state_snapshot file_path t with
  | Some p =>
      if ready_to_delete p
      then with_deletions ((λ q, q ++ [file_path]) <$> DELETION_TX t) t
      else t
  | None => t
  end.

Definition set_fully_allocated (file_path : string) (t : Trackers) : Trackers :=
  flush_check file_path (update_file mark_full file_path (register_file_if_absent file_path t)).

(** * BlockStateTracker *)

(** [entry(id).or_insert_with(..)]: an id that is present keeps its record. *)
Definition register_block (block_id : Z) (file_path : string) (t : Trackers) : Trackers :=
  match t_blocks t !! block_id with
  | Some _ => t
  | None => with_blocks (<[block_id := MkBlockState false file_path]> (t_blocks t)) t
  end.

Definition get_file_path_for_block (block_id : Z) (t : Trackers) : option string :=
  bs_file_path <$> t_blocks t !! block_id.

Definition set_checkpointed_true (block_id : Z) (t : Trackers) : Trackers :=
  match t_blocks t !! block_id with
  | Some b =>
      let path := bs_file_path b in
      let t := with_blocks (<[block_id := MkBlockState true path]> (t_blocks t)) t in
      flush_check path (inc_checkpoint_for_file path t)
  | None => t
  end.

(** * Block locks *)

Definition set_block_locked (block_id : Z) (t : Trackers) : Trackers :=
  match get_file_path_for_block block_id t with
  | Some path => update_file (add_locked 1) path t
  | None => t
  end.

Definition set_block_unlocked (block_id : Z) (t : Trackers) : Trackers :=
  match get_file_path_for_block block_id t with
  | Some path => flush_check path (update_file (add_locked (-1)) path t)
  | None => t
  end.

(** * When a file is queued for deletion *)

(** The blocks of a map that satisfy [P]. *)
Definition count_blocks (P : Z → BlockState → bool) (m : gmap Z BlockState) : Z :=
  map_fold (λ id b n, if P id b then 1 + n else n) 0 m.

Lemma count_blocks_empty P : count_blocks P ∅ = 0.
Proof. apply map_fold_empty. Qed.

Lemma count_blocks_insert P m id b :
  m !! id = None → count_blocks P (<[id := b]> m) = (if P id b then 1 else 0) + count_blocks P m.
Proof.
  intros Hn. rewrite /count_blocks map_fold_insert_L //; [|by case_match].
  intros j1 j2 z1 z2 y _ _ _. repeat case_match; lia.
Qed.

Lemma count_blocks_update P m id b b' :
  m !! id = Some b →
  count_blocks P (<[id := b']> m) =
    count_blocks P m + (if P id b' then 1 else 0) - (if P id b then 1 else 0).
Proof.
  intros Hb. rewrite -{2}(insert_delete_id m id b Hb) -insert_delete_eq.
  rewrite !count_blocks_insert ?lookup_delete_eq //. lia.
Qed.

Lemma count_blocks_ext P Q m :
  (∀ id b, m !! id = Some b → P id b = Q id b) → count_blocks P m = count_blocks Q m.
Proof.
  induction m as [|id b m Hn IH] using map_ind; intros Hpq; [by rewrite !count_blocks_empty|].
  rewrite !count_blocks_insert // (Hpq id b); [by rewrite lookup_insert_eq|]. rewrite IH //.
  intros id' b' Hl. apply Hpq. rewrite lookup_insert_ne //. congruence.
Qed.

Lemma count_blocks_le P Q m :
  (∀ id b, P id b = true → Q id b = true) → count_blocks P m ≤ count_blocks Q m.
Proof.
  intros Hpq. induction m as [|id b m Hn IH] using map_ind; [by rewrite !count_blocks_empty|].
  rewrite !count_blocks_insert //. destruct (P id b) eqn:E; [by rewrite (Hpq _ _ E); lia|]. case_match; lia.
Qed.

Lemma count_blocks_nonneg P m : 0 ≤ count_blocks P m.
Proof.
  induction m as [|id b m Hn IH] using map_ind; [by rewrite count_blocks_empty|].
  rewrite count_blocks_insert //. case_match; lia.
Qed.

(** Counting none means there is none. *)
Lemma count_blocks_zero P m :
  count_blocks P m = 0 → ∀ id b, m !! id = Some b → P id b = false.
Proof.
  induction m as [|id b m Hn IH] using map_ind; [done|]. rewrite count_blocks_insert // => Hz.
  pose proof (count_blocks_nonneg P m). intros id' b' [[<- <-]|[Hne Hl]]%lookup_insert_Some.
  - by destruct (P id b); [lia|].
  - apply (IH ltac:(case_match; lia) _ _ Hl).
Qed.

(** Counting everything means there is nothing else. *)
Lemma count_blocks_all P Q m :
  (∀ id b, P id b = true → Q id b = true) → count_blocks Q m ≤ count_blocks P m →
  ∀ id b, m !! id = Some b → Q id b = true → P id b = true.
Proof.
  intros Hpq. induction m as [|id b m Hn IH] using map_ind; [done|]. rewrite !count_blocks_insert // => Hle.
  pose proof (count_blocks_le P Q m Hpq). intros id' b' [[<- <-]|[Hne Hl]]%lookup_insert_Some HQ.
  - rewrite HQ in Hle. destruct (P id b); [done|]. lia.
  - eapply IH; [|done|done]. destruct (P id b) eqn:E; [rewrite (Hpq _ _ E) in Hle; lia|]. case_match; lia.
Qed.

Definition in_file (path : string) (_ : Z) (b : BlockState) : bool :=
  bool_decide (bs_file_path b = path).
Definition checkpointed_in (path : string) (id : Z) (b : BlockState) : bool :=
  in_file path id b && is_checkpointed b.
Definition locked_in (locks : gset Z) (path : string) (id : Z) (b : BlockState) : bool :=
  in_file path id b && bool_decide (id ∈ locks).

(** What happens to a block and its file: it is handed out (and locked), sealed (unlocked),
    consumed; the file is filled up. The tracker calls are those of the allocator, the
    writers and the readers. *)
Inductive tracker_event :=
  | EHandout (id : Z) (path : string)
  | ESeal (id : Z)
  | EConsume (id : Z)
  | EFull (path : string).

Definition tracker_step (ev : tracker_event) (t : Trackers) : Trackers :=
  match ev with
  | EHandout id path =>
      set_block_locked id (add_block_to_file_state path
        (register_file_if_absent path (register_block id path t)))
  | ESeal id => set_block_unlocked id t
  | EConsume id => set_checkpointed_true id t
  | EFull path => set_fully_allocated path t
  end.

Definition locks_step (ev : tracker_event) (locks : gset Z) : gset Z :=
  match ev with
  | EHandout id _ => {[id]} ∪ locks
  | ESeal id => locks ∖ {[id]}
  | EConsume _ | EFull _ => locks
  end.

(** The discipline of the callers: fresh ids in files that are not full, one unlock per lock,
    and one checkpoint per block. *)
Definition event_ok (ev : tracker_event) (t : Trackers) (locks : gset Z) : Prop :=
  match ev with
  | EHandout id path =>
      t_blocks t !! id = None ∧ (id ∉ locks) ∧
      (∀ st, t_files t !! path = Some st → is_fully_allocated st = false) ∧
      count_blocks (in_file path) (t_blocks t) < U16_MAX
  | ESeal id => id ∈ locks
  | EConsume id => ∀ b, t_blocks t !! id = Some b → is_checkpointed b = false
  | EFull _ => True
  end.

(** The file is full, and all its blocks are unlocked and consumed. *)
Definition file_consumed (t : Trackers) (locks : gset Z) (path : string) : Prop :=
  (∃ st, t_files t !! path = Some st ∧ is_fully_allocated st = true) ∧
  ∀ id b, t_blocks t !! id = Some b → bs_file_path b = path →
    is_checkpointed b = true ∧ id ∉ locks.

(** The counters count. *)
Definition counters_ok (blocks : gmap Z BlockState) (locks : gset Z) (path : string)
    (st : FileState) : Prop :=
  total_blocks st = count_blocks (in_file path) blocks ∧
  checkpoint_block_ctr st = count_blocks (checkpointed_in path) blocks ∧
  locked_block_ctr st = count_blocks (locked_in locks path) blocks.

Record tracked (t : Trackers) (locks : gset Z) : Prop := {
  tr_counters path st : t_files t !! path = Some st → counters_ok (t_blocks t) locks path st;
  tr_absent path : t_files t !! path = None → count_blocks (in_file path) (t_blocks t) = 0;
  tr_bound path : count_blocks (in_file path) (t_blocks t) ≤ U16_MAX;
  tr_locks id : id ∈ locks → is_Some (t_blocks t !! id);
  tr_queue q path : DELETION_TX t = Some q → path ∈ q → file_consumed t locks path;
}.

Lemma part_le path locks blocks :
  count_blocks (checkpointed_in path) blocks ≤ count_blocks (in_file path) blocks ∧
  count_blocks (locked_in locks path) blocks ≤ count_blocks (in_file path) blocks.
Proof. split; apply count_blocks_le; intros id b [? _]%andb_true_iff; done. Qed.

Lemma wrap16_small z : 0 ≤ z ≤ U16_MAX → wrap16 z = z.
Proof. intros. rewrite /wrap16. apply Z.mod_small. rewrite /U16_MAX in H. lia. Qed.

(** The readiness check queues only consumed files. *)
Lemma tracked_flush_check path t locks : tracked t locks → tracked (flush_check path t) locks.
Proof.
  intros Ht. rewrite /flush_check /get_state_snapshot.
  destruct (t_files t !! path) as [st|] eqn:Hst; [|done]. cbn.
  destruct (_ && _ && _ && _) eqn:Hr; [|done].
  apply andb_true_iff in Hr as [[[Hfull Hl]%andb_true_iff Ht0]%andb_true_iff Hc].
  destruct (tr_counters _ _ Ht path st Hst) as (Et & Ec & El).
  assert (file_consumed t locks path) as Hdone.
  { split; [by exists st|]. intros id b Hb Hp.
    assert (in_file path id b = true) as Hin by by apply bool_decide_eq_true.
    split.
    - assert (checkpointed_in path id b = true) as [_ ?]%andb_true_iff; [|done].
      eapply count_blocks_all; [|..|exact Hb|exact Hin]; [by intros ?? [??]%andb_true_iff|lia].
    - assert (count_blocks (locked_in locks path) (t_blocks t) = 0) as Hz by lia.
      apply (count_blocks_zero _ _) with (id := id) (b := b) in Hz; [|done].
      rewrite /locked_in Hin /= in Hz. by apply bool_decide_eq_false in Hz. }
  destruct Ht as [T1 T2 T3 T4 T5]. split; try done. cbn. intros q p.
  destruct (DELETION_TX t) as [q0|]; [|done]. intros [= <-] [Hin|Hin]%elem_of_app; [by eapply T5|].
  by apply list_elem_of_singleton in Hin as ->.
Qed.

(** Changing one file's record, with its counters right for the new blocks and locks. *)
Lemma tracked_file t locks blocks' locks' path st' q :
  tracked t locks → DELETION_TX t = q →
  counters_ok blocks' locks' path st' → count_blocks (in_file path) blocks' ≤ U16_MAX →
  (∀ p, p ≠ path → count_blocks (in_file p) blocks' = count_blocks (in_file p) (t_blocks t) ∧
     count_blocks (checkpointed_in p) blocks' = count_blocks (checkpointed_in p) (t_blocks t) ∧
     count_blocks (locked_in locks' p) blocks' = count_blocks (locked_in locks p) (t_blocks t)) →
  (∀ id, id ∈ locks' → is_Some (blocks' !! id)) →
  (∀ p, file_consumed t locks p →
     file_consumed (MkTrackers blocks' (<[path := st']> (t_files t)) q) locks' p) →
  tracked (MkTrackers blocks' (<[path := st']> (t_files t)) q) locks'.
Proof.
  intros [T1 T2 T3 T4 T5] Hq Hc Hb Hother Hl Hcons. split; cbn.
  - intros p st [[<- <-]|[Hne Hst]]%lookup_insert_Some; [done|].
    destruct (Hother p ltac:(congruence)) as (E1 & E2 & E3). destruct (T1 _ _ Hst) as (?&?&?).
    split_and!; congruence.
  - intros p [Hn Hne]%lookup_insert_None. destruct (Hother p ltac:(congruence)) as (-> & _). by apply T2.
  - intros p. destruct (decide (p = path)) as [->|Hne]; [done|]. destruct (Hother p Hne) as (-> & _). apply T3.
  - done.
  - intros q' p E Hin. apply Hcons. subst q. by eapply T5.
Qed.

Lemma handout_eq id path t :
  t_blocks t !! id = None →
  tracker_step (EHandout id path) t =
    MkTrackers (<[id := MkBlockState false path]> (t_blocks t))
      (<[path := add_locked 1 (add_total (default new_file_state (t_files t !! path)))]> (t_files t))
      (DELETION_TX t).
Proof.
  intros Hn. cbn. rewrite /register_block Hn.
  rewrite /register_file_if_absent /=. destruct (t_files t !! path) as [st|] eqn:E; cbn.
  - rewrite /add_block_to_file_state /register_file_if_absent /= E /set_block_locked /get_file_path_for_block /=.
    rewrite lookup_insert_eq /= /update_file /with_files /=. f_equal.
    apply map_eq. intros p. destruct (decide (p = path)) as [->|].
    + by rewrite !lookup_alter_eq E lookup_insert_eq.
    + by rewrite !lookup_alter_ne // lookup_insert_ne.
  - rewrite /add_block_to_file_state /register_file_if_absent /= lookup_insert_eq /set_block_locked /get_file_path_for_block /=.
    rewrite lookup_insert_eq /= /update_file /with_files /=. f_equal.
    apply map_eq. intros p. destruct (decide (p = path)) as [->|].
    + by rewrite !lookup_alter_eq !lookup_insert_eq.
    + by rewrite !lookup_alter_ne // !lookup_insert_ne.
Qed.

Lemma count_blocks_split P m id b :
  m !! id = Some b → count_blocks P m = (if P id b then 1 else 0) + count_blocks P (delete id m).
Proof.
  intros Hb. rewrite -{1}(insert_delete_id m id b Hb) count_blocks_insert ?lookup_delete_eq //.
Qed.

(** The record of a file, or the one it would be created with. *)
Lemma counters_default t locks path :
  tracked t locks → counters_ok (t_blocks t) locks path (default new_file_state (t_files t !! path)).
Proof.
  intros Ht. destruct (t_files t !! path) as [st|] eqn:E; [by apply Ht|].
  pose proof (tr_absent _ _ Ht path E). pose proof (part_le path locks (t_blocks t)).
  pose proof (count_blocks_nonneg (checkpointed_in path) (t_blocks t)).
  pose proof (count_blocks_nonneg (locked_in locks path) (t_blocks t)).
  split_and!; cbn; lia.
Qed.

Lemma tracked_handout id path t locks :
  tracked t locks → event_ok (EHandout id path) t locks →
  tracked (tracker_step (EHandout id path) t) ({[id]} ∪ locks).
Proof.
  intros Ht (Hn & Hnl & Hfull & Hroom). rewrite handout_eq //.
  destruct (counters_default t locks path Ht) as (E1 & E2 & E3).
  set st := default _ _ in E1 E2 E3 |- *. pose proof (part_le path locks (t_blocks t)) as [_ Hle].
  pose proof (count_blocks_nonneg (in_file path) (t_blocks t)).
  pose proof (count_blocks_nonneg (locked_in locks path) (t_blocks t)).
  assert (∀ p, count_blocks (locked_in ({[id]} ∪ locks) p) (t_blocks t) =
               count_blocks (locked_in locks p) (t_blocks t)) as Hlk.
  { intros p. apply count_blocks_ext. intros id' b Hb. rewrite /locked_in. f_equal.
    apply bool_decide_ext. assert (id' ≠ id) by congruence. set_solver. }
  set nb := MkBlockState false path.
  assert (∀ p, in_file p id nb = bool_decide (p = path)) as Hinf.
  { intros p. apply bool_decide_ext. cbn. by split. }
  assert (∀ p, checkpointed_in p id nb = false) as Hck by (intros; apply andb_false_r).
  assert (∀ p, locked_in ({[id]} ∪ locks) p id nb = bool_decide (p = path)) as Hlo.
  { intros p. rewrite /locked_in Hinf (bool_decide_eq_true_2 (id ∈ _)) ?andb_true_r //. set_solver. }
  eapply tracked_file; [done|done|..].
  - split_and!; cbn [total_blocks checkpoint_block_ctr locked_block_ctr add_locked add_total];
      rewrite count_blocks_insert // ?Hinf ?Hck ?Hlo ?Hlk ?bool_decide_eq_true_2 // ?wrap16_small; lia.
  - rewrite count_blocks_insert // Hinf bool_decide_eq_true_2 //. lia.
  - intros p Hne. by rewrite !count_blocks_insert // Hlk Hinf Hck Hlo bool_decide_eq_false_2.
  - intros id' [->%elem_of_singleton|Hin]%elem_of_union; [by rewrite lookup_insert_eq|].
    rewrite lookup_insert_is_Some. destruct (decide (id = id')); [by left|right]. split; [done|]. by apply Ht.
  - intros p [(st0 & Hst & Hf) Hall]. assert (p ≠ path) as Hne by (intros ->; apply Hfull in Hst; congruence).
    split; cbn; [exists st0; by rewrite lookup_insert_ne|].
    intros id' b [[<- <-]|[Hid Hb]]%lookup_insert_Some Hp; [done|].
    destruct (Hall _ _ Hb Hp). split; [done|]. set_solver.
Qed.

(** A block's file is registered. *)
Lemma tracked_has_file t locks id b :
  tracked t locks → t_blocks t !! id = Some b → is_Some (t_files t !! bs_file_path b).
Proof.
  intros Ht Hb. destruct (t_files t !! _) eqn:E; [by eexists|].
  pose proof (count_blocks_zero _ _ (tr_absent _ _ Ht _ E) _ _ Hb) as Hz.
  rewrite /in_file bool_decide_eq_true_2 // in Hz.
Qed.

Lemma update_file_eq f path st t :
  t_files t !! path = Some st →
  update_file f path t = MkTrackers (t_blocks t) (<[path := f st]> (t_files t)) (DELETION_TX t).
Proof.
  intros E. rewrite /update_file /with_files. f_equal. apply map_eq. intros p.
  destruct (decide (p = path)) as [->|];
    [by rewrite lookup_alter_eq E lookup_insert_eq|by rewrite lookup_alter_ne // lookup_insert_ne].
Qed.

Lemma tracked_seal id t locks :
  tracked t locks → id ∈ locks → tracked (set_block_unlocked id t) (locks ∖ {[id]}).
Proof.
  intros Ht Hid. destruct (tr_locks _ _ Ht id Hid) as [b Hb].
  destruct (tracked_has_file _ _ _ _ Ht Hb) as [st Hst].
  rewrite /set_block_unlocked /get_file_path_for_block Hb /=. apply tracked_flush_check.
  rewrite (update_file_eq _ _ _ _ Hst). destruct (tr_counters _ _ Ht _ _ Hst) as (E1 & E2 & E3).
  set path := bs_file_path b in Hst E1 E2 E3 |- *.
  assert (∀ p, count_blocks (locked_in (locks ∖ {[id]}) p) (t_blocks t) =
    count_blocks (locked_in locks p) (t_blocks t) - (if bool_decide (p = path) then 1 else 0)) as Hlk.
  { intros p. rewrite !(count_blocks_split _ _ _ _ Hb).
    rewrite (count_blocks_ext (locked_in (locks ∖ {[id]}) p) (locked_in locks p)).
    - intros id' b' [Hne _]%lookup_delete_Some. rewrite /locked_in. f_equal. apply bool_decide_ext. set_solver.
    - rewrite /locked_in /in_file. rewrite (bool_decide_eq_false_2 (id ∈ locks ∖ {[id]})); [set_solver|].
      rewrite (bool_decide_eq_true_2 (id ∈ locks)) // andb_true_r andb_false_r.
      rewrite (bool_decide_ext (p = path) (bs_file_path b = p)); [done|]. lia. }
  pose proof (Hlk path) as Hp. rewrite bool_decide_eq_true_2 // in Hp.
  pose proof (count_blocks_nonneg (locked_in (locks ∖ {[id]}) path) (t_blocks t)).
  pose proof (part_le path locks (t_blocks t)) as [_ ?]. pose proof (tr_bound _ _ Ht path).
  eapply tracked_file; [done|done|..|].
  - split_and!; cbn; [done|done|]. rewrite wrap16_small; lia.
  - apply Ht.
  - intros p Hne. rewrite Hlk bool_decide_eq_false_2 //. split_and!; [done|done|lia].
  - intros id' Hin. apply Ht. set_solver.
  - intros p [(st0 & Hst0 & Hf) Hall]. split; cbn.
    + destruct (decide (p = path)) as [->|]; [|exists st0; by rewrite lookup_insert_ne].
      eexists. rewrite lookup_insert_eq. split; [done|]. cbn. congruence.
    + intros id' b' Hb' Hp'. destruct (Hall _ _ Hb' Hp'). split; [done|]. set_solver.
Qed.

Lemma tracked_consume id t locks :
  tracked t locks → event_ok (EConsume id) t locks → tracked (set_checkpointed_true id t) locks.
Proof.
  intros Ht Hok. rewrite /set_checkpointed_true. destruct (t_blocks t !! id) as [b|] eqn:Hb; [|done].
  specialize (Hok b Hb). apply tracked_flush_check.
  destruct (tracked_has_file _ _ _ _ Ht Hb) as [st Hst].
  rewrite /inc_checkpoint_for_file (update_file_eq _ _ st) //= .
  destruct (tr_counters _ _ Ht _ _ Hst) as (E1 & E2 & E3).
  set path := bs_file_path b in Hst E1 E2 E3 |- *. set nb := MkBlockState true path.
  assert (∀ p, in_file p id nb = bool_decide (p = path) ∧ in_file p id b = bool_decide (p = path)) as Hinf.
  { intros p. by split; apply bool_decide_ext; cbn; split. }
  assert (∀ p, count_blocks (in_file p) (<[id := nb]> (t_blocks t)) = count_blocks (in_file p) (t_blocks t) ∧
    count_blocks (checkpointed_in p) (<[id := nb]> (t_blocks t)) =
      count_blocks (checkpointed_in p) (t_blocks t) + (if bool_decide (p = path) then 1 else 0) ∧
    count_blocks (locked_in locks p) (<[id := nb]> (t_blocks t)) =
      count_blocks (locked_in locks p) (t_blocks t)) as Hcnt.
  { intros p. destruct (Hinf p) as [I1 I2]. rewrite !(count_blocks_update _ _ _ _ _ Hb).
    rewrite /checkpointed_in /locked_in I1 I2 Hok andb_false_r andb_true_r. split_and!; lia. }
  destruct (Hcnt path) as (C1 & C2 & C3). rewrite bool_decide_eq_true_2 // in C2.
  pose proof (tr_bound _ _ Ht path). pose proof (part_le path locks (<[id := nb]> (t_blocks t))) as [? _].
  pose proof (count_blocks_nonneg (checkpointed_in path) (t_blocks t)).
  apply (tracked_file t locks); [done|done|..].
  - split_and!; cbn [total_blocks checkpoint_block_ctr locked_block_ctr add_checkpoint];
      rewrite ?wrap16_small; lia.
  - lia.
  - intros p Hne. destruct (Hcnt p) as (-> & -> & ->). rewrite bool_decide_eq_false_2 //. split_and!; lia.
  - intros id' Hin. rewrite lookup_insert_is_Some. destruct (decide (id = id')); [by left|right].
    split; [done|]. by apply Ht.
  - intros p [(st0 & Hst0 & Hf) Hall]. split; cbn.
    + destruct (decide (p = path)) as [->|]; [|exists st0; by rewrite lookup_insert_ne].
      eexists. rewrite lookup_insert_eq. split; [done|]. cbn. congruence.
    + intros id' b' [[<- <-]|[Hid Hb']]%lookup_insert_Some Hp; [|by apply Hall].
      split; [done|]. by apply (Hall id b).
Qed.

Lemma tracked_full path t locks : tracked t locks → tracked (set_fully_allocated path t) locks.
Proof.
  intros Ht. rewrite /set_fully_allocated. apply tracked_flush_check.
  pose proof (counters_default t locks path Ht) as Hc. set st := default _ _ in Hc.
  assert (update_file mark_full path (register_file_if_absent path t) =
    MkTrackers (t_blocks t) (<[path := mark_full st]> (t_files t)) (DELETION_TX t)) as ->.
  { rewrite /register_file_if_absent /st. destruct (t_files t !! path) as [st0|] eqn:E.
    - by rewrite (update_file_eq _ _ st0).
    - rewrite (update_file_eq _ _ new_file_state) /=; [by rewrite lookup_insert_eq|]. by rewrite insert_insert_eq. }
  apply (tracked_file t locks); [done|done|done|apply Ht|done|apply Ht|].
  intros p [(st0 & Hst0 & Hf) Hall]. split; [|done]. cbn.
  destruct (decide (p = path)) as [->|]; [|exists st0; by rewrite lookup_insert_ne].
  eexists. by rewrite lookup_insert_eq.
Qed.

(** Histories in which every event follows the discipline. *)
Inductive tracker_run : list tracker_event → Trackers → gset Z → Prop :=
  | run_empty : tracker_run [] (MkTrackers ∅ ∅ (Some [])) ∅
  | run_step evs ev t locks : tracker_run evs t locks → event_ok ev t locks →
      tracker_run (evs ++ [ev]) (tracker_step ev t) (locks_step ev locks).

Lemma tracked_run evs t locks : tracker_run evs t locks → tracked t locks.
Proof.
  induction 1 as [|evs ev t locks _ IH Hok].
  - split; cbn.
    + done.
    + intros. apply count_blocks_empty.
    + intros. by rewrite count_blocks_empty.
    + intros id. set_solver.
    + intros q path [= <-] []%not_elem_of_nil.
  - destruct ev; cbn [tracker_step locks_step].
    + by apply tracked_handout.
    + by apply tracked_seal.
    + by apply tracked_consume.
    + by apply tracked_full.
Qed.

(** C32: as long as every block is checkpointed once, a log file is queued for deletion only when
    it is full and each of its blocks is sealed and completely consumed, whatever the
    order of handouts, seals, checkpoints and file switches. *)
Theorem deletion_only_when_consumed evs t locks q path :
  tracker_run evs t locks → DELETION_TX t = Some q → path ∈ q → file_consumed t locks path.
Proof. intros Hrun. apply (tr_queue _ _ (tracked_run _ _ _ Hrun)). Qed.

Lemma set_checkpointed_eq id path c st t :
  t_blocks t !! id = Some (MkBlockState c path) → t_files t !! path = Some st →
  set_checkpointed_true id t =
    flush_check path (MkTrackers (<[id := MkBlockState true path]> (t_blocks t))
      (<[path := add_checkpoint st]> (t_files t)) (DELETION_TX t)).
Proof.
  intros Hb Hst. by rewrite /set_checkpointed_true Hb /inc_checkpoint_for_file (update_file_eq _ _ st).
Qed.

Lemma flush_check_eq path st t :
  t_files t !! path = Some st →
  flush_check path t =
    if ready_to_delete (locked_block_ctr st, checkpoint_block_ctr st, total_blocks st, is_fully_allocated st)
    then with_deletions ((λ q, q ++ [path]) <$> DELETION_TX t) t else t.
Proof. intros Hst. by rewrite /flush_check /get_state_snapshot Hst. Qed.

(** [set_checkpointed_true] counts a block again when it is called twice: for a full
    file with two sealed blocks, checkpointing the first one twice queues the file for
    deletion although the second block was never consumed. *)
Theorem double_checkpoint_deletes t path b1 b2 q :
  b1 ≠ b2 →
  t_blocks t !! b1 = Some (MkBlockState false path) →
  t_blocks t !! b2 = Some (MkBlockState false path) →
  t_files t !! path = Some (MkFileState 0 0 2 true) → DELETION_TX t = Some q →
  let t' := set_checkpointed_true b1 (set_checkpointed_true b1 t) in
  DELETION_TX t' = Some (q ++ [path]) ∧ t_blocks t' !! b2 = Some (MkBlockState false path).
Proof.
  intros Hne H1 H2 Hf Hq t'. rewrite /t' (set_checkpointed_eq b1 path false (MkFileState 0 0 2 true) t) //.
  rewrite (flush_check_eq _ (MkFileState 0 1 2 true)) /=; [by rewrite lookup_insert_eq|].
  rewrite (set_checkpointed_eq b1 path true (MkFileState 0 1 2 true)) /=;
    [by rewrite lookup_insert_eq|by rewrite lookup_insert_eq|].
  rewrite (flush_check_eq _ (MkFileState 0 2 2 true)) /=; [by rewrite lookup_insert_eq|].
  rewrite Hq. split; [done|]. by rewrite !lookup_insert_ne.
Qed.
