(* ===== verification/Allocator.v ===== *)
(** The block allocator: [BlockAllocator] of [src/src/wal/runtime/allocator.rs].

    The allocator hands out consecutive regions of the current log file and rolls over to
    a new file when the next region does not fit. Its spin lock is part of the state: an
    error raised by [?] between [lock()] and [unlock()] leaves it taken. *)

From S2P Require Import Prelude Config Storage Block Trackers.

#[local] Open Scope Z_scope.

Record BlockAllocator := MkAllocator {
  next_block : Block;
  lock_flag : bool;
  paths : WalPathManager;
}.

(** The allocator with the process-wide state it works on. *)
Record AllocEnv := MkAllocEnv {
  ae_fs : Fs;
  ae_trk : Trackers;
  ae_alloc : BlockAllocator;
}.

Definition ae_set_fs (f : Fs) (e : AllocEnv) : AllocEnv := MkAllocEnv f (ae_trk e) (ae_alloc e).
Definition ae_set_trk (t : Trackers) (e : AllocEnv) : AllocEnv := MkAllocEnv (ae_fs e) t (ae_alloc e).
Definition ae_set_alloc (a : BlockAllocator) (e : AllocEnv) : AllocEnv :=
  MkAllocEnv (ae_fs e) (ae_trk e) a.

Definition on_fs {A} (m : M Fs A) : M AllocEnv A := zoom ae_fs ae_set_fs m.
Definition on_trk (f : Trackers → Trackers) : M AllocEnv unit :=
  modify (λ e, ae_set_trk (f (ae_trk e)) e).
Definition set_next (f : Block → Block) : M AllocEnv unit :=
  modify (λ e, ae_set_alloc (MkAllocator (f (next_block (ae_alloc e))) (lock_flag (ae_alloc e))
                                         (paths (ae_alloc e))) e).
Definition get_next : M AllocEnv Block := λ e, (Ok (next_block (ae_alloc e)), e).

Definition set_lock (l : bool) (e : AllocEnv) : AllocEnv :=
  ae_set_alloc (MkAllocator (next_block (ae_alloc e)) l (paths (ae_alloc e))) e.

(** [lock]: spins until the flag is clear. *)
Definition lock : M AllocEnv unit := λ e,
  if lock_flag (ae_alloc e) then (Hang, e) else (Ok tt, set_lock true e).
Definition unlock : M AllocEnv unit := modify (set_lock false).

(** Field updates of [next_block]. *)
Definition bk_file_path (p : string) (b : Block) : Block :=
  MkBlock (b_id b) p (b_offset b) (b_limit b) (b_mmap b) (b_used b).
Definition bk_mmap (m : StorageImpl) (b : Block) : Block :=
  MkBlock (b_id b) (b_file_path b) (b_offset b) (b_limit b) m (b_used b).
Definition bk_offset (o : Z) (b : Block) : Block :=
  MkBlock (b_id b) (b_file_path b) o (b_limit b) (b_mmap b) (b_used b).
Definition bk_id (i : Z) (b : Block) : Block :=
  MkBlock i (b_file_path b) (b_offset b) (b_limit b) (b_mmap b) (b_used b).
Definition bk_limit (l : Z) (b : Block) : Block :=
  MkBlock (b_id b) (b_file_path b) (b_offset b) l (b_mmap b) (b_used b).

(** [BlockAllocator::new]. *)
Definition BlockAllocator_new (p : WalPathManager) : M Fs BlockAllocator :=
  let! file1 := create_new_file p in
  let! mmap := get_mmap_arc file1 in
  ret (MkAllocator (MkBlock 1 file1 0 DEFAULT_BLOCK_SIZE mmap 0) false p).

(** The registration of a block that is handed out. *)
Definition register_handout (id : Z) (path : string) : M AllocEnv unit :=
  on_trk (register_block id path);;
  on_trk (register_file_if_absent path);;
  on_trk (add_block_to_file_state path);;
  on_trk (set_block_locked id).

(** The switch to a new file: path and map are replaced first, then the offset. *)
Definition switch_file : M AllocEnv unit :=
  let! e := getS in
  let! file := on_fs (create_new_file (paths (ae_alloc e))) in
  set_next (bk_file_path file);;
  let! mmap := on_fs (get_mmap_arc file) in
  set_next (bk_mmap mmap);;
  set_next (bk_offset 0).

Definition get_next_available_block : M AllocEnv Block :=
  lock;;
  let! data := get_next in
  let prev_block_file_path := b_file_path data in
  (if b_offset data >=? MAX_FILE_SIZE then
     on_trk (set_fully_allocated prev_block_file_path);;
     switch_file;;
     set_next (set_used 0)
   else ret tt);;
  let! data := get_next in
  register_handout (b_id data) (b_file_path data);;
  let r := data in
  set_next (λ b, bk_offset (b_offset b + DEFAULT_BLOCK_SIZE) b);;
  set_next (λ b, bk_id (b_id b + 1) b);;
  unlock;;
  ret r.

Definition alloc_units (want_bytes : Z) : Z :=
  (want_bytes + DEFAULT_BLOCK_SIZE - 1) / DEFAULT_BLOCK_SIZE.

Definition alloc_block (want_bytes : Z) : M AllocEnv Block :=
  if (want_bytes =? 0) || (want_bytes >? MAX_ALLOC) then
    fail KInvalidInput "invalid allocation size, a single entry can't be more than 1gb"
  else
    let alloc_size := alloc_units want_bytes * DEFAULT_BLOCK_SIZE in
    lock;;
    let! data := get_next in
    (if b_offset data + alloc_size >? MAX_FILE_SIZE then
       let prev_block_file_path := b_file_path data in
       switch_file;;
       on_trk (set_fully_allocated prev_block_file_path)
     else ret tt);;
    let! data := get_next in
    let r := MkBlock (b_id data) (b_file_path data) (b_offset data) alloc_size (b_mmap data) 0 in
    register_handout (b_id r) (b_file_path r);;
    set_next (λ b, bk_offset (b_offset b + alloc_size) b);;
    set_next (λ b, bk_id (b_id b + 1) b);;
    unlock;;
    ret r.

Definition fast_forward (next_id : Z) : M AllocEnv unit :=
  lock;;
  let! data := get_next in
  (if next_id >? b_id data then set_next (bk_id next_id) else ret tt);;
  unlock.

(** * Invariants *)

(** A handle on the file it is kept for: a descriptor, or a map of a whole log file; with the
    descriptor back end ([fd]) always a descriptor. *)
Definition handle_ok (fd : bool) (p : string) (st : StorageImpl) : Prop :=
  st_path st = p ∧ match st with Mmap _ n => fd = false ∧ MAX_FILE_SIZE ≤ n | Fd _ _ _ => True end.

Record fs_inv (s : Fs) : Prop := {
  fi_keeper_read : keeper_read s = ∅;
  fi_keeper : map_Forall (handle_ok (USE_FD_BACKEND s)) (keeper s);
  fi_millis : 0 ≤ LAST_MILLIS s;
  fi_now : 0 ≤ env_now s;
}.

(** [p] is a log file this process has created. *)
Definition made (pm : WalPathManager) (s : Fs) (p : string) : Prop :=
  ∃ k, p = path_of pm k ∧ 0 ≤ k ≤ LAST_MILLIS s.

Record alloc_inv (e : AllocEnv) : Prop := {
  ai_fs : fs_inv (ae_fs e);
  ai_lock : lock_flag (ae_alloc e) = false;
  ai_handle : handle_ok (USE_FD_BACKEND (ae_fs e)) (b_file_path (next_block (ae_alloc e)))
                (b_mmap (next_block (ae_alloc e)));
  ai_made : made (paths (ae_alloc e)) (ae_fs e) (b_file_path (next_block (ae_alloc e)));
  ai_offset : 0 ≤ b_offset (next_block (ae_alloc e)) ≤ MAX_FILE_SIZE;
  ai_align : (DEFAULT_BLOCK_SIZE | b_offset (next_block (ae_alloc e)));
  ai_limit : b_limit (next_block (ae_alloc e)) = DEFAULT_BLOCK_SIZE;
  ai_used : b_used (next_block (ae_alloc e)) = 0;
  ai_id : 1 ≤ b_id (next_block (ae_alloc e));
  ai_len : MAX_FILE_SIZE ≤ f_len (file_of (ae_fs e) (b_file_path (next_block (ae_alloc e))));
}.

(** A block that was handed out: its region ends below the allocator's frontier. *)
Record owned (e : AllocEnv) (b : Block) : Prop := {
  ow_handle : handle_ok (USE_FD_BACKEND (ae_fs e)) (b_file_path b) (b_mmap b);
  ow_made : made (paths (ae_alloc e)) (ae_fs e) (b_file_path b);
  ow_start : 0 ≤ b_offset b;
  ow_limit : 0 < b_limit b;
  ow_end : b_offset b + b_limit b ≤ MAX_FILE_SIZE;
  ow_id : 1 ≤ b_id b < b_id (next_block (ae_alloc e));
  ow_frontier : b_file_path b = b_file_path (next_block (ae_alloc e)) →
                b_offset b + b_limit b ≤ b_offset (next_block (ae_alloc e));
  ow_len : MAX_FILE_SIZE ≤ f_len (file_of (ae_fs e) (b_file_path b));
}.

Definition block_disjoint (b b' : Block) : Prop :=
  b_file_path b ≠ b_file_path b' ∨
  b_offset b + b_limit b ≤ b_offset b' ∨ b_offset b' + b_limit b' ≤ b_offset b.

#[global] Instance block_disjoint_sym : Symmetric block_disjoint.
Proof. intros b b' [?|[?|?]]; rewrite /block_disjoint; auto. Qed.

(** The environment is the same, and no existing log file has changed. *)
Record fs_grows (pm : WalPathManager) (s s' : Fs) : Prop := {
  fg_files : ∀ p, made pm s p → file_of s' p = file_of s p;
  fg_millis : LAST_MILLIS s ≤ LAST_MILLIS s' ≤ Z.max (env_now s) (LAST_MILLIS s + 1);
  fg_now : env_now s' = env_now s;
  fg_create : env_create_ok s' = env_create_ok s;
  fg_flush : env_flush_ok s' = env_flush_ok s;
  fg_backend : USE_FD_BACKEND s' = USE_FD_BACKEND s;
}.

Lemma made_mono pm s s' p : made pm s p → LAST_MILLIS s ≤ LAST_MILLIS s' → made pm s' p.
Proof. intros (k & -> & ?) ?. exists k. split; [done|lia]. Qed.

Lemma fs_grows_refl pm s : fs_grows pm s s.
Proof. split; try done. lia. Qed.

Lemma alloc_inv_trk trk' e : alloc_inv e → alloc_inv (ae_set_trk trk' e).
Proof. intros []. by split. Qed.

(** A successful handout of [b]. *)
Record handed (e e' : AllocEnv) (b : Block) : Prop := {
  hd_inv : alloc_inv e';
  hd_owned : owned e' b;
  hd_id : b_id b = b_id (next_block (ae_alloc e));
  hd_next : b_id (next_block (ae_alloc e')) = b_id b + 1;
  hd_used : b_used b = 0;
  hd_paths : paths (ae_alloc e') = paths (ae_alloc e);
  hd_fs : fs_grows (paths (ae_alloc e)) (ae_fs e) (ae_fs e');
  hd_old : ∀ b', owned e b' → owned e' b';
  hd_disjoint : ∀ b', owned e b' → block_disjoint b b';
}.

(** * File switches *)

Lemma get_mmap_arc_ok s p :
  fs_inv s → p ∈ fs_names s → f_len (file_of s p) = MAX_FILE_SIZE →
  ∃ st s', get_mmap_arc p s = (Ok st, s') ∧ handle_ok (USE_FD_BACKEND s) p st ∧ fs_inv s' ∧
    fs_files s' = fs_files s ∧ LAST_MILLIS s' = LAST_MILLIS s ∧ env_now s' = env_now s ∧
    env_create_ok s' = env_create_ok s ∧ env_flush_ok s' = env_flush_ok s ∧
    USE_FD_BACKEND s' = USE_FD_BACKEND s.
Proof.
  intros [Hkr Hk Hm Hn] Hp Hlen.
  rewrite /get_mmap_arc /get_mmap_arc_read /bind /= Hkr lookup_empty.
  destruct (keeper s !! p) as [st|] eqn:Hst.
  { exists st, s. split; [done|]. split; [by apply (Hk _ _ Hst)|]. by split; [split|]. }
  rewrite /create_storage_impl /bind /= bool_decide_eq_true_2 // Hlen.
  destruct (USE_FD_BACKEND s) eqn:Hb; cbn; eexists _, _; (split; [done|]).
  all: split; [by split|]; split; [|by rewrite ?Hb].
  all: split; try done; cbn; rewrite Hb; apply map_Forall_insert_2; [by split|done].
Qed.

(** The name is one the process has not used. *)
Lemma candidate_fresh s : LAST_MILLIS s < U64_MAX → 0 ≤ LAST_MILLIS s →
  let c := Clock.now_millis (env_now s) (LAST_MILLIS s) in
  LAST_MILLIS s < c ≤ Z.max (env_now s) (LAST_MILLIS s + 1).
Proof.
  intros Hm Hz. split; [by apply Clock.candidate_gt|].
  rewrite /Clock.now_millis /Clock.candidate /sat_add64 /Clock.system_ms_u64.
  repeat case_match; lia.
Qed.

Lemma create_new_file_ok pm s :
  fs_inv s → env_create_ok s = true → LAST_MILLIS s < U64_MAX →
  ∃ p s', create_new_file pm s = (Ok p, s') ∧ fs_inv s' ∧ fs_grows pm s s' ∧ made pm s' p ∧
    (¬ made pm s p) ∧ p ∈ fs_names s' ∧ f_len (file_of s' p) = MAX_FILE_SIZE.
Proof.
  intros [Hkr Hk Hm Hn] Hc Hmax. pose proof (candidate_fresh s Hmax Hm) as Hf. cbv zeta in Hf.
  rewrite /create_new_file /now_millis_str /bind /modify /getS /ret /= Hc.
  set c := Clock.now_millis (env_now s) (LAST_MILLIS s) in Hf |- *.
  assert (¬ made pm s (path_of pm c)) as Hfresh.
  { intros (k & Hk' & ?). apply path_of_inj in Hk'; lia. }
  eexists _, _. split; [done|]. fold (path_of pm c). split_and!.
  - split; try done. cbn. lia.
  - split; try done; cbn; [|lia]. intros p Hp. rewrite /file_of /= lookup_insert_ne //.
    by intros <-.
  - exists c. split; [done|]. cbn. lia.
  - done.
  - cbn. by apply elem_of_union_l, elem_of_singleton.
  - by rewrite /file_of /= lookup_insert_eq.
Qed.

Lemma fs_grows_files pm s s' s'' :
  fs_grows pm s s' → fs_files s'' = fs_files s' → LAST_MILLIS s'' = LAST_MILLIS s' →
  env_now s'' = env_now s' → env_create_ok s'' = env_create_ok s' →
  env_flush_ok s'' = env_flush_ok s' → USE_FD_BACKEND s'' = USE_FD_BACKEND s' →
  fs_grows pm s s''.
Proof.
  intros [Hf Hm Hn Hc Hfl Hb] E1 E2 E3 E4 E5 E6. split; [|by rewrite E2|congruence..].
  intros p Hp. rewrite /file_of E1. by apply Hf.
Qed.

Lemma switch_file_ok e :
  fs_inv (ae_fs e) → env_create_ok (ae_fs e) = true → LAST_MILLIS (ae_fs e) < U64_MAX →
  ∃ fs' p mmap, switch_file e =
      (Ok tt, MkAllocEnv fs' (ae_trk e)
         (MkAllocator (bk_offset 0 (bk_mmap mmap (bk_file_path p (next_block (ae_alloc e)))))
            (lock_flag (ae_alloc e)) (paths (ae_alloc e)))) ∧
    fs_inv fs' ∧ fs_grows (paths (ae_alloc e)) (ae_fs e) fs' ∧
    made (paths (ae_alloc e)) fs' p ∧ (¬ made (paths (ae_alloc e)) (ae_fs e) p) ∧
    handle_ok (USE_FD_BACKEND fs') p mmap ∧ MAX_FILE_SIZE ≤ f_len (file_of fs' p).
Proof.
  intros Hfs Hc Hm.
  destruct (create_new_file_ok (paths (ae_alloc e)) _ Hfs Hc Hm)
    as (p & s1 & E1 & Hi1 & Hg1 & Hmade & Hfresh & Hin & Hlen).
  destruct (get_mmap_arc_ok s1 p Hi1 Hin Hlen)
    as (st & s2 & E2 & Hst & Hi2 & Ef & Em & En & Ec & Efl & Eb).
  exists s2, p, st. split_and!; try done.
  - rewrite /switch_file /bind /getS /on_fs /zoom /= E1 /= E2 /=. done.
  - by eapply fs_grows_files.
  - destruct Hmade as (k & -> & ?). exists k. by rewrite Em.
  - by rewrite Eb.
  - rewrite /file_of Ef -/(file_of s1 p). lia.
Qed.

(** * Handouts *)

(** The position the next region is taken from: the current frontier, or a new file. *)
Record frontier (e : AllocEnv) (fs' : Fs) (nb : Block) : Prop := {
  fr_fs : fs_inv fs';
  fr_grows : fs_grows (paths (ae_alloc e)) (ae_fs e) fs';
  fr_handle : handle_ok (USE_FD_BACKEND fs') (b_file_path nb) (b_mmap nb);
  fr_made : made (paths (ae_alloc e)) fs' (b_file_path nb);
  fr_offset : 0 ≤ b_offset nb;
  fr_align : (DEFAULT_BLOCK_SIZE | b_offset nb);
  fr_id : b_id nb = b_id (next_block (ae_alloc e));
  fr_limit : b_limit nb = DEFAULT_BLOCK_SIZE;
  fr_used : b_used nb = 0;
  fr_where : (b_file_path nb = b_file_path (next_block (ae_alloc e)) ∧
              b_offset nb = b_offset (next_block (ae_alloc e))) ∨
             ¬ made (paths (ae_alloc e)) (ae_fs e) (b_file_path nb);
  fr_len : MAX_FILE_SIZE ≤ f_len (file_of fs' (b_file_path nb));
}.

Lemma frontier_here e : alloc_inv e → frontier e (ae_fs e) (next_block (ae_alloc e)).
Proof.
  intros []. split; try done; [apply fs_grows_refl|lia|by left].
Qed.

Lemma frontier_new e fs' p mmap :
  alloc_inv e → fs_inv fs' → fs_grows (paths (ae_alloc e)) (ae_fs e) fs' →
  made (paths (ae_alloc e)) fs' p → ¬ made (paths (ae_alloc e)) (ae_fs e) p →
  handle_ok (USE_FD_BACKEND fs') p mmap → MAX_FILE_SIZE ≤ f_len (file_of fs' p) →
  frontier e fs' (bk_offset 0 (bk_mmap mmap (bk_file_path p (next_block (ae_alloc e))))).
Proof. intros []. split; try done; cbn; [apply Z.divide_0_r|by right]. Qed.

(** The state after [size] bytes were taken at [nb]. *)
Definition after_handout (e : AllocEnv) (fs' : Fs) (trk' : Trackers) (nb : Block) (size : Z) :
    AllocEnv :=
  MkAllocEnv fs' trk'
    (MkAllocator (bk_id (b_id nb + 1) (bk_offset (b_offset nb + size) nb)) false
       (paths (ae_alloc e))).

Lemma handed_intro e fs' trk' nb size :
  alloc_inv e → frontier e fs' nb →
  0 < size → (DEFAULT_BLOCK_SIZE | size) → b_offset nb + size ≤ MAX_FILE_SIZE →
  handed e (after_handout e fs' trk' nb size)
    (MkBlock (b_id nb) (b_file_path nb) (b_offset nb) size (b_mmap nb) 0).
Proof.
  intros Hinv [Hfs Hg Hh Hmade Hoff Hal Hid Hlim Hus Hwh Hlen] Hsz Hdiv Hend.
  pose proof (ai_id _ Hinv).
  split; cbn; try done.
  - split; cbn; try done; [lia|by apply Z.divide_add_r|lia].
  - split; cbn; try done; lia.
  - intros b' [Hh' Hm' Hs' Hl' He' Hi' Hf' Hlen']. split; cbn; try done.
    + by rewrite (fg_backend _ _ _ Hg).
    + eapply made_mono; [done|apply Hg].
    + lia.
    + intros Hp. destruct Hwh as [[Hp1 Ho1]|Hnm]; [|by rewrite Hp in Hm'].
      specialize (Hf' ltac:(congruence)). lia.
    + by rewrite (fg_files _ _ _ Hg _ Hm').
  - intros b' [Hh' Hm' Hs' Hl' He' Hi' Hf' Hlen']. rewrite /block_disjoint /=.
    destruct (decide (b_file_path nb = b_file_path b')) as [Hp|]; [|by left].
    destruct Hwh as [[Hp1 Ho1]|Hnm]; [|by rewrite Hp in Hnm].
    specialize (Hf' ltac:(congruence)). lia.
Qed.

Lemma alloc_units_bounds want :
  0 < want → want ≤ alloc_units want * DEFAULT_BLOCK_SIZE < want + DEFAULT_BLOCK_SIZE.
Proof.
  intros. rewrite /alloc_units.
  pose proof (Z.mul_div_le (want + DEFAULT_BLOCK_SIZE - 1) DEFAULT_BLOCK_SIZE eq_refl).
  pose proof (Z.mul_succ_div_gt (want + DEFAULT_BLOCK_SIZE - 1) DEFAULT_BLOCK_SIZE eq_refl). lia.
Qed.

(** A request that fits in a file is rounded up to a size that fits in a file. *)
Lemma alloc_units_fit want :
  0 < want ≤ MAX_FILE_SIZE → alloc_units want * DEFAULT_BLOCK_SIZE ≤ MAX_FILE_SIZE.
Proof.
  intros Hw. rewrite /MAX_FILE_SIZE Z.mul_comm. apply Z.mul_le_mono_nonneg_l; [done|].
  rewrite /alloc_units. apply Z.lt_succ_r, Z.div_lt_upper_bound; [done|].
  rewrite /MAX_FILE_SIZE /BLOCKS_PER_FILE in Hw |- *. lia.
Qed.

Lemma alloc_block_ok want e :
  alloc_inv e → 0 < want ≤ MAX_FILE_SIZE → env_create_ok (ae_fs e) = true →
  LAST_MILLIS (ae_fs e) < U64_MAX →
  ∃ b e', alloc_block want e = (Ok b, e') ∧ handed e e' b ∧
    b_limit b = alloc_units want * DEFAULT_BLOCK_SIZE.
Proof.
  intros Hinv Hw Hc Hm. pose proof (alloc_units_bounds want) as Hb.
  pose proof (alloc_units_fit want Hw) as Hfit.
  rewrite /alloc_block. destruct (Z.eqb_spec want 0); [lia|].
  destruct (Z.gtb_spec want MAX_ALLOC); [consts|].
  cbn [orb]. rewrite /lock {1}/bind (ai_lock _ Hinv) {1}/bind /get_next.
  set size := alloc_units want * DEFAULT_BLOCK_SIZE in Hb Hfit |- *.
  assert (DEFAULT_BLOCK_SIZE | size) by apply Z.divide_factor_r.
  destruct (Z.gtb_spec (b_offset (next_block (ae_alloc (set_lock true e))) + size) MAX_FILE_SIZE).
  - destruct (switch_file_ok (set_lock true e)) as (fs' & p & mm & E & Hfs & Hg & Hmade & Hfr & Hh & Hlen);
      [apply Hinv|done|done|].
    rewrite /bind E /=. eexists _, _. split; [done|]. split; [|done].
    apply (handed_intro e fs' _ _ size Hinv (frontier_new e fs' p mm Hinv Hfs Hg Hmade Hfr Hh Hlen)); [lia|done|].
    cbn. lia.
  - rewrite /bind /=. eexists _, _. split; [done|]. split; [|done].
    apply (handed_intro e (ae_fs e) _ _ size Hinv (frontier_here e Hinv)); [lia|done|].
    cbn in *. lia.
Qed.

Lemma frontier_set_used e fs' nb : frontier e fs' nb → frontier e fs' (set_used 0 nb).
Proof. intros []. by split. Qed.

(** A block of the default size and unused is determined by the other fields. *)
Lemma frontier_block e fs' nb :
  frontier e fs' nb →
  nb = MkBlock (b_id nb) (b_file_path nb) (b_offset nb) DEFAULT_BLOCK_SIZE (b_mmap nb) 0.
Proof. intros [_ _ _ _ _ _ _ Hl Hu _ _]. destruct nb; cbn in *. by subst. Qed.

Lemma aligned_room o : (DEFAULT_BLOCK_SIZE | o) → o < MAX_FILE_SIZE → o + DEFAULT_BLOCK_SIZE ≤ MAX_FILE_SIZE.
Proof. intros [k ->] H. consts. Qed.

Lemma get_next_available_block_ok e :
  alloc_inv e → env_create_ok (ae_fs e) = true → LAST_MILLIS (ae_fs e) < U64_MAX →
  ∃ b e', get_next_available_block e = (Ok b, e') ∧ handed e e' b ∧
    b_limit b = DEFAULT_BLOCK_SIZE.
Proof.
  intros Hinv Hc Hm. rewrite /get_next_available_block.
  rewrite /lock {1}/bind (ai_lock _ Hinv) {1}/bind /get_next.
  assert (∀ fs' nb trk', frontier e fs' nb → b_offset nb + DEFAULT_BLOCK_SIZE ≤ MAX_FILE_SIZE →
    handed e (after_handout e fs' trk' nb DEFAULT_BLOCK_SIZE) nb ∧ b_limit nb = DEFAULT_BLOCK_SIZE)
    as Hgo.
  { intros fs' nb trk' Hfr Hroom. split; [|apply Hfr].
    rewrite {2}(frontier_block _ _ _ Hfr). by apply handed_intro. }
  destruct (Z.geb_spec (b_offset (next_block (ae_alloc (set_lock true e)))) MAX_FILE_SIZE) as [Hge|Hlt].
  - rewrite /bind /on_trk /modify.
    match goal with |- context [switch_file ?x] => set e1 := x end.
    destruct (switch_file_ok e1) as (fs' & p & mm & E & Hfs & Hg & Hmade & Hfr & Hh & Hlen);
      [apply Hinv|done|done|].
    rewrite E /=. eexists _, _. split; [done|].
    apply (Hgo fs' (set_used 0 (bk_offset 0 (bk_mmap mm (bk_file_path p (next_block (ae_alloc e)))))));
      [|done].
    apply frontier_set_used, frontier_new; done.
  - rewrite /bind /=. eexists _, _. split; [done|].
    apply (Hgo (ae_fs e) (next_block (ae_alloc e))); [by apply frontier_here|].
    apply aligned_room; [apply Hinv|done].
Qed.

(** * Sequences of requests *)

Inductive request := RNext | RSized (want : Z).

Definition wanted (r : request) : Z :=
  match r with RNext => DEFAULT_BLOCK_SIZE | RSized want => want end.

Definition serve (r : request) : M AllocEnv Block :=
  match r with RNext => get_next_available_block | RSized want => alloc_block want end.

Fixpoint serve_all (rs : list request) : M AllocEnv (list Block) :=
  match rs with
  | [] => ret []
  | r :: rs => let! b := serve r in let! bs := serve_all rs in ret (b :: bs)
  end.

(** Room for [n] more file names before the counter saturates. *)
Definition time_budget (n : Z) (s : Fs) : Prop :=
  LAST_MILLIS s + n < U64_MAX ∧ env_now s + n < U64_MAX.

Lemma time_budget_grows pm n s s' : 0 ≤ n →
  fs_grows pm s s' → time_budget (n + 1) s → time_budget n s'.
Proof. intros Hn [_ Hm Hnow _ _ _] [H1 H2]. rewrite /time_budget Hnow. split; lia. Qed.

Lemma serve_ok r e :
  alloc_inv e → 0 < wanted r ≤ MAX_FILE_SIZE → env_create_ok (ae_fs e) = true →
  LAST_MILLIS (ae_fs e) < U64_MAX →
  ∃ b e', serve r e = (Ok b, e') ∧ handed e e' b ∧ wanted r ≤ b_limit b.
Proof.
  intros Hinv Hw Hc Hm. destruct r as [|want]; cbn [serve wanted] in *.
  - destruct (get_next_available_block_ok e) as (b & e' & E & Hh & Hl); [done..|].
    exists b, e'. split_and!; [done..|]. lia.
  - destruct (alloc_block_ok want e) as (b & e' & E & Hh & Hl); [done..|].
    exists b, e'. split_and!; [done..|]. pose proof (alloc_units_bounds want). lia.
Qed.

(** The blocks of a list are separate from each other and from everything owned before. *)
Record separate (e : AllocEnv) (bs : list Block) : Prop := {
  sp_old b b' : b ∈ bs → owned e b' → block_disjoint b b' ∧ b_id b ≠ b_id b';
  sp_each i j b b' : bs !! i = Some b → bs !! j = Some b' → i ≠ j →
    block_disjoint b b' ∧ b_id b ≠ b_id b';
}.

Lemma handed_separate e e' b b' :
  handed e e' b → owned e b' → block_disjoint b b' ∧ b_id b ≠ b_id b'.
Proof. intros Hh Ho. split; [by eapply hd_disjoint|]. rewrite (hd_id _ _ _ Hh). pose proof (ow_id _ _ Ho). lia. Qed.

Lemma separate_cons e e' b bs :
  handed e e' b → separate e' bs → separate e (b :: bs).
Proof.
  intros Hh [Hold Heach]. split.
  - intros b1 b2 [->|Hin]%elem_of_cons Ho; [by eapply handed_separate|].
    apply Hold; [done|]. by eapply hd_old.
  - assert (∀ b', b' ∈ bs → block_disjoint b' b ∧ b_id b' ≠ b_id b) as Hb.
    { intros b' Hin. apply Hold; [done|apply Hh]. }
    intros [|i] [|j] b1 b2 H1 H2 Hne; cbn in *; simplify_eq.
    + apply list_elem_of_lookup_2, Hb in H2 as [??]. split; [by symmetry|congruence].
    + by apply list_elem_of_lookup_2, Hb in H1 as [??].
    + eapply Heach; [done..|congruence].
Qed.

(** C31: for every sequence of block requests that each fit in a log file, the allocator serves
    all of them, each block is at least as large as the request and lies inside its file,
    no two blocks share a byte or an id, and none meets a block handed out before. *)
Theorem serve_all_disjoint rs e :
  alloc_inv e → Forall (λ r, 0 < wanted r ≤ MAX_FILE_SIZE) rs →
  env_create_ok (ae_fs e) = true → time_budget (len rs) (ae_fs e) →
  ∃ bs e', serve_all rs e = (Ok bs, e') ∧ alloc_inv e' ∧
    Forall2 (λ r b, wanted r ≤ b_limit b) rs bs ∧
    Forall (λ b, 0 ≤ b_offset b ∧ b_offset b + b_limit b ≤ MAX_FILE_SIZE) bs ∧
    separate e bs.
Proof.
  intros Hinv Hrs. revert e Hinv. induction Hrs as [|r rs Hr Hrs IH]; intros e Hinv Hc Ht.
  - exists [], e. split_and!; try done. split; [|done]. intros ?? []%not_elem_of_nil.
  - rewrite len_cons Z.add_comm in Ht. pose proof (len_nonneg rs).
    destruct (serve_ok r e) as (b & e1 & E & Hh & Hl); [done|done|done|destruct Ht; lia|].
    destruct (IH e1) as (bs & e' & E' & Hinv' & Hl' & Hin & Hsep).
    + apply Hh.
    + by rewrite (fg_create _ _ _ (hd_fs _ _ _ Hh)).
    + eapply time_budget_grows; [done|apply Hh|done].
    + exists (b :: bs), e'. split_and!.
      * by rewrite /= /bind E E'.
      * done.
      * by constructor.
      * constructor; [|done]. pose proof (hd_owned _ _ _ Hh) as Ho.
        split; [apply Ho|apply Ho].
      * by eapply separate_cons.
Qed.

(** The allocator starts in its invariant. *)
Lemma BlockAllocator_new_ok pm s trk :
  fs_inv s → env_create_ok s = true → LAST_MILLIS s < U64_MAX →
  ∃ a s', BlockAllocator_new pm s = (Ok a, s') ∧ alloc_inv (MkAllocEnv s' trk a) ∧
    fs_grows pm s s' ∧ paths a = pm ∧ next_block a = MkBlock 1 (b_file_path (next_block a)) 0
      DEFAULT_BLOCK_SIZE (b_mmap (next_block a)) 0.
Proof.
  intros Hfs Hc Hm.
  destruct (create_new_file_ok pm s Hfs Hc Hm) as (p & s1 & E1 & Hi1 & Hg1 & Hmade & _ & Hin & Hlen).
  destruct (get_mmap_arc_ok s1 p Hi1 Hin Hlen)
    as (st & s2 & E2 & Hst & Hi2 & Ef & Em & En & Ec & Efl & Eb).
  rewrite /BlockAllocator_new /bind E1 E2. eexists _, s2. split; [done|]. split_and!; [|by eapply fs_grows_files|done|done].
  split; cbn; try done; [by rewrite Eb| |apply Z.divide_0_r|rewrite /file_of Ef -/(file_of s1 p); lia].
  destruct Hmade as (k & -> & ?). exists k. by rewrite Em.
Qed.

(** * Error paths *)

(** a request of zero bytes or of more than one GiB is refused and nothing changes. *)
Theorem alloc_block_refuses want e :
  want = 0 ∨ MAX_ALLOC < want →
  alloc_block want e =
    (Err (IoError KInvalidInput "invalid allocation size, a single entry can't be more than 1gb"), e).
Proof.
  intros H. rewrite /alloc_block. by destruct (Z.eqb_spec want 0), (Z.gtb_spec want MAX_ALLOC); try lia.
Qed.

Lemma switch_file_fails e :
  env_create_ok (ae_fs e) = false →
  ∃ fs', switch_file e = (Err (IoError KOther "create"), ae_set_fs fs' e) ∧
    env_create_ok fs' = false.
Proof.
  intros Hc. rewrite /switch_file /bind /getS /on_fs /zoom /create_new_file /now_millis_str /bind /=.
  rewrite Hc /=. eexists. split; [done|]. done.
Qed.

(** when the file a rollover needs cannot be created, [alloc_block] reports the error but
    keeps its spin lock: every later call of the allocator spins forever. *)
Theorem alloc_block_error_keeps_lock want e e1 :
  alloc_inv e → 0 < want ≤ MAX_ALLOC →
  env_create_ok (ae_fs e) = false →
  b_offset (next_block (ae_alloc e)) + alloc_units want * DEFAULT_BLOCK_SIZE > MAX_FILE_SIZE →
  e1 = (alloc_block want e).2 →
  (alloc_block want e).1 = Err (IoError KOther "create") ∧
  (∀ want', 0 < want' ≤ MAX_ALLOC → (alloc_block want' e1).1 = Hang) ∧
  (get_next_available_block e1).1 = Hang ∧ ∀ id, (fast_forward id e1).1 = Hang.
Proof.
  intros Hinv Hw Hc Hfull ->.
  destruct (switch_file_fails (set_lock true e) Hc) as (fs' & E & _).
  assert (alloc_block want e = (Err (IoError KOther "create"), ae_set_fs fs' (set_lock true e))) as ->.
  { rewrite /alloc_block. destruct (Z.eqb_spec want 0); [lia|].
    destruct (Z.gtb_spec want MAX_ALLOC); [lia|]. cbn [orb].
    rewrite /lock {1}/bind (ai_lock _ Hinv) {1}/bind /get_next.
    rewrite (proj2 (Z.gtb_lt _ _)); [by cbn; lia|]. by rewrite /bind E. }
  cbn [fst snd]. split_and!; [done| |done|done].
  intros want' Hw'. rewrite /alloc_block. destruct (Z.eqb_spec want' 0); [lia|].
  destruct (Z.gtb_spec want' MAX_ALLOC); [lia|]. done.
Qed.

(** requests between the size of a log file (1000 MiB) and the 1 GiB cap are accepted, and
    the block that is handed out ends past the end of its file. *)
Theorem alloc_block_past_file want e :
  alloc_inv e → MAX_FILE_SIZE < want ≤ MAX_ALLOC →
  env_create_ok (ae_fs e) = true → LAST_MILLIS (ae_fs e) < U64_MAX →
  ∃ b e', alloc_block want e = (Ok b, e') ∧ MAX_FILE_SIZE < b_offset b + b_limit b.
Proof.
  intros Hinv Hw Hc Hm. pose proof (alloc_units_bounds want) as Hb.
  rewrite /alloc_block. destruct (Z.eqb_spec want 0); [consts|].
  destruct (Z.gtb_spec want MAX_ALLOC); [lia|]. cbn [orb].
  rewrite /lock {1}/bind (ai_lock _ Hinv) {1}/bind /get_next.
  assert (0 < MAX_FILE_SIZE) by done. pose proof (ai_offset _ Hinv).
  rewrite (proj2 (Z.gtb_lt _ _)); [by cbn; lia|].
  destruct (switch_file_ok (set_lock true e)) as (fs' & p & mm & E & _); [apply Hinv|done|done|].
  rewrite /bind E /=. eexists _, _. split; [done|]. cbn. lia.
Qed.
