(* ===== verification/Index.v ===== *)
(** Persisted maps: the read-offset index ([src/src/wal/runtime/index.rs]) and the topic
    clean markers ([src/src/wal/runtime/topic_clean.rs]).

    Both keep a map in memory and rewrite a whole file on every change: serialise, write a
    temporary file, sync it, rename it over the old one. The serialisation of maps is the
    [rkyv] crate: the class [MapCodec] with its laws. *)

From S2P Require Import Prelude Config Storage.

#[local] Open Scope Z_scope.

(** [rkyv::to_bytes] and [rkyv::archived_root] at [HashMap<String, V>]. *)
Class MapCodec (V : Type) := {
  map_to_bytes : gmap string V → option (list Z);
  map_archived_root : list Z → option (gmap string V);
}.

Class MapCodecLaws (V : Type) `{MapCodec V} : Prop := {
  map_codec_roundtrip m bs : map_to_bytes m = Some bs → map_archived_root bs = Some m;
  map_codec_nonempty m bs : map_to_bytes m = Some bs → bs ≠ [];
}.

(** * Whole files *)

Definition whole_file (bytes : list Z) : File := MkFile (store 0 bytes ∅) (len bytes).

Lemma read_whole_file bytes : read_bytes (whole_file bytes) 0 (len bytes) = bytes.
Proof.
  rewrite -{3}(read_write_same empty_file 0 bytes). by apply read_bytes_ext.
Qed.

(** [fs::read]. *)
Definition fs_read (path : string) (s : Fs) : option (list Z) :=
  if bool_decide (path ∈ fs_names s)
  then Some (read_bytes (file_of s path) 0 (f_len (file_of s path)))
  else None.

(** [fs::write]. *)
Definition fs_write (path : string) (bytes : list Z) : M Fs unit :=
  let! s := getS in
  if env_create_ok s then modify (fs_link path (whole_file bytes)) else fail KOther "write".

(** [File::open(path)?.sync_all()?]. *)
Definition fs_sync (path : string) : M Fs unit :=
  let! s := getS in
  if bool_decide (path ∈ fs_names s) then
    if env_flush_ok s then ret tt else fail KOther "sync"
  else fail KNotFound "open".

Definition fs_unlink_name (path : string) (s : Fs) : Fs :=
  MkFs (fs_files s) (fs_names s ∖ {[path]}) (USE_FD_BACKEND s) (GLOBAL_FSYNC_SCHEDULE s)
       (LAST_MILLIS s) (keeper_read s) (keeper s) (env_now s) (env_create_ok s) (env_flush_ok s).

(** [fs::rename]: the name moves, with its contents, in one step. *)
Definition fs_rename (from to : string) : M Fs unit :=
  let! s := getS in
  if bool_decide (from ∈ fs_names s)
  then modify (λ s, fs_link to (file_of s from) (fs_unlink_name from s))
  else fail KNotFound "rename".

Definition tmp_path (path : string) : string := path +:+ ".tmp".

(** A sequence of file operations; an error ends it. *)
Inductive fs_op :=
  | OpWrite (path : string) (bytes : list Z)
  | OpSync (path : string)
  | OpRename (from to : string).

Definition run_fs_op (o : fs_op) : M Fs unit :=
  match o with
  | OpWrite path bytes => fs_write path bytes
  | OpSync path => fs_sync path
  | OpRename from to => fs_rename from to
  end.

Fixpoint run_fs_ops (os : list fs_op) : M Fs unit :=
  match os with [] => ret tt | o :: os => run_fs_op o;; run_fs_ops os end.

(** The three file operations that replace [path]. *)
Definition replace_ops (path : string) (bytes : list Z) : list fs_op :=
  [OpWrite (tmp_path path) bytes; OpSync (tmp_path path); OpRename (tmp_path path) path].

Definition replace_file (path : string) (bytes : list Z) : M Fs unit :=
  run_fs_ops (replace_ops path bytes).
#[global] Arguments replace_file : simpl never.

Lemma append_nonempty_neq (a b : string) : b ≠ "" → a +:+ b ≠ a.
Proof.
  intros Hb H. induction a as [|c a IH]; [done|].
  rewrite -/(String.app _ _) in H. by injection H.
Qed.

Lemma tmp_path_neq path : tmp_path path ≠ path.
Proof. by apply append_nonempty_neq. Qed.

Section load.
Context {V : Type} `{MapCodec V}.

(** The map in a file: a missing, empty or undecodable file gives the empty map. *)
Definition load_map (path : string) (s : Fs) : gmap string V :=
  match fs_read path s with
  | Some [] | None => ∅
  | Some bytes => default ∅ (map_archived_root bytes)
  end.

Definition persist_map (path : string) (m : gmap string V) : M Fs unit :=
  match map_to_bytes m with
  | None => fail KOther "serialize failed"
  | Some bytes => replace_file path bytes
  end.
End load.

(** ** Lookups after the file operations *)

Lemma file_of_link path f s : file_of (fs_link path f s) path = f.
Proof. by rewrite /file_of /= lookup_insert_eq. Qed.

Lemma fs_read_link path f s : fs_read path (fs_link path f s) = Some (read_bytes f 0 (f_len f)).
Proof. rewrite /fs_read bool_decide_eq_true_2; [cbn; set_solver|]. by rewrite file_of_link. Qed.

Lemma fs_read_ext path s s' :
  file_of s' path = file_of s path → (path ∈ fs_names s' ↔ path ∈ fs_names s) →
  fs_read path s' = fs_read path s.
Proof. intros Hf Hn. rewrite /fs_read Hf. by rewrite (bool_decide_ext _ _ Hn). Qed.

Lemma fs_read_link_other path path' f s :
  path ≠ path' → fs_read path (fs_link path' f s) = fs_read path s.
Proof.
  intros Hne. apply fs_read_ext; [|cbn; set_solver]. by rewrite /file_of /= lookup_insert_ne.
Qed.

Lemma fs_read_unlink_other path path' s :
  path ≠ path' → fs_read path (fs_unlink_name path' s) = fs_read path s.
Proof. intros Hne. apply fs_read_ext; [done|cbn; set_solver]. Qed.

(** ** Crashes *)

(** After a crash, a file that was written and not synced can hold anything. *)
Definition lost (unsynced : gset string) (s s' : Fs) : Prop :=
  ∀ p, p ∉ unsynced → fs_read p s' = fs_read p s.

(** The files that are not synced after an operation. *)
Definition unsynced_after (o : fs_op) (D : gset string) : gset string :=
  match o with
  | OpWrite p _ => {[p]} ∪ D
  | OpSync p => D ∖ {[p]}
  | OpRename from to => (if bool_decide (from ∈ D) then {[to]} else ∅) ∪ D ∖ {[from; to]}
  end.

(** [crash_state D os s s']: the process, or the machine, stops while it executes [os] from the
    state [s], where the files [D] are not synced; [s'] is what a restart can find. *)
Inductive crash_state (D : gset string) : list fs_op → Fs → Fs → Prop :=
  | crash_now os s s' : lost D s s' → crash_state D os s s'
  | crash_writing p bytes os s s' :
      lost ({[p]} ∪ D) s s' → crash_state D (OpWrite p bytes :: os) s s'
  | crash_later o os s s1 s' :
      run_fs_op o s = (Ok tt, s1) → crash_state (unsynced_after o D) os s1 s' →
      crash_state D (o :: os) s s'.

Section load_lemmas.
Context {V : Type} `{MapCodecLaws V}.

Lemma load_map_whole path m bs s :
  map_to_bytes m = Some bs → load_map path (fs_link path (whole_file bs) s) = m.
Proof.
  intros Hb. rewrite /load_map fs_read_link read_whole_file.
  pose proof (map_codec_nonempty _ _ Hb). rewrite (map_codec_roundtrip _ _ Hb).
  by destruct bs.
Qed.

(** A file replacement either takes effect completely or leaves the file alone. *)
Lemma replace_file_load path m bs s o s' :
  map_to_bytes m = Some bs → replace_file path bs s = (o, s') →
  match o with
  | Ok _ => load_map path s' = m
  | _ => load_map path s' = load_map path s
  end ∧ ∀ p, p ≠ path → p ≠ tmp_path path → fs_read p s' = fs_read p s.
Proof.
  intros Hb. pose proof (tmp_path_neq path) as Hne.
  rewrite /replace_file /= /fs_write /fs_sync /fs_rename /bind /getS /modify /=.
  destruct (env_create_ok s); cbn; [|by intros [= <- <-]].
  rewrite bool_decide_eq_true_2; [set_solver|].
  destruct (env_flush_ok s); cbn; [|intros [= <- <-]].
  - rewrite bool_decide_eq_true_2; [set_solver|]. intros [= <- <-].
    rewrite file_of_link. split; [by apply load_map_whole|].
    intros p Hp Ht. by rewrite fs_read_link_other // fs_read_unlink_other // fs_read_link_other.
  - split; [|intros p Hp Ht; by rewrite fs_read_link_other].
    by rewrite /load_map fs_read_link_other.
Qed.

Lemma load_map_lost path D s s' : path ∉ D → lost D s s' → load_map path s' = load_map path s.
Proof. intros Hp Hl. by rewrite /load_map (Hl path Hp). Qed.

(** A crash before the rename leaves the old file, a crash after it the new one. *)
Lemma rename_crash path m bs D s s' :
  map_to_bytes m = Some bs → file_of s (tmp_path path) = whole_file bs →
  tmp_path path ∉ D → path ∉ D → crash_state D [OpRename (tmp_path path) path] s s' →
  load_map path s' = load_map path s ∨ load_map path s' = m.
Proof.
  intros Hb Hf Ht Hp Hc. inversion Hc as [? ? ? Hl| |? ? ? s1 ? Hr Hc1]; subst.
  { left. by eapply load_map_lost. }
  right. assert (s1 = fs_link path (whole_file bs) (fs_unlink_name (tmp_path path) s)) as ->.
  { revert Hr. rewrite /= /fs_rename /bind /getS /modify /=. case_bool_decide; [|done].
    intros [= <-]. by rewrite Hf. }
  inversion Hc1 as [? ? ? Hl| |]; subst. rewrite (load_map_lost _ _ _ _ _ Hl); [|by apply load_map_whole].
  cbn. case_bool_decide; set_solver.
Qed.

Lemma replace_file_crash path m bs s s' :
  map_to_bytes m = Some bs → crash_state ∅ (replace_ops path bs) s s' →
  load_map path s' = load_map path s ∨ load_map path s' = m.
Proof.
  intros Hb Hc. pose proof (tmp_path_neq path) as Hne.
  inversion Hc as [? ? ? Hl|? ? ? ? ? Hl|? ? ? s1 ? Hw Hc1]; subst.
  1,2: left; eapply load_map_lost; [|done]; set_solver.
  assert (s1 = fs_link (tmp_path path) (whole_file bs) s) as ->.
  { revert Hw. rewrite /= /fs_write /bind /getS /modify. by destruct (env_create_ok s); intros [= <-]. }
  assert (load_map path (fs_link (tmp_path path) (whole_file bs) s) = load_map path s) as El.
  { by rewrite /load_map fs_read_link_other. }
  rewrite -El. inversion Hc1 as [? ? ? Hl| |? ? ? s2 ? Hs Hc2]; subst.
  { left. eapply load_map_lost; [|done]. set_solver. }
  assert (s2 = fs_link (tmp_path path) (whole_file bs) s) as ->.
  { revert Hs. rewrite /= /fs_sync /bind /getS. repeat case_match; by intros [= <-]. }
  eapply rename_crash; [done|by rewrite file_of_link|..|done]; set_solver.
Qed.
End load_lemmas.

(** * WalIndex *)

Record BlockPos := MkPos { cur_block_idx : Z; cur_block_offset : Z }.

#[global] Instance BlockPos_eq_dec : EqDecision BlockPos.
Proof. solve_decision. Defined.

Record WalIndex := MkIndex { idx_store : gmap string BlockPos; idx_path : string }.

(** Replacing a file ends, with or without an error. *)
Lemma replace_file_ends path bs s o s' :
  replace_file path bs s = (o, s') → match o with Ok _ | Err _ => True | _ => False end.
Proof.
  rewrite /replace_file /= /fs_write /fs_sync /fs_rename /bind /getS /modify /=.
  destruct (env_create_ok s); cbn; [|by intros [= <- <-]].
  rewrite bool_decide_eq_true_2; [set_solver|].
  destruct (env_flush_ok s); cbn; [rewrite bool_decide_eq_true_2; [set_solver|]|]; by intros [= <- <-].
Qed.

Section index.
Context `{MapCodec BlockPos}.

Definition WalIndex_new_in (pm : WalPathManager) (file_name : string) (s : Fs) : WalIndex :=
  let path := index_path pm file_name in
  MkIndex (load_map path s) path.

Definition WalIndex_persist (self : WalIndex) : M Fs unit := persist_map (idx_path self) (idx_store self).

(** [set]: the store in memory changes first; the result is that of [persist]. *)
Definition WalIndex_set (key : string) (idx off : Z) (self : WalIndex) : M Fs unit * WalIndex :=
  let self' := MkIndex (<[key := MkPos idx off]> (idx_store self)) (idx_path self) in
  (WalIndex_persist self', self').

Definition WalIndex_get (key : string) (self : WalIndex) : option BlockPos := idx_store self !! key.

Definition WalIndex_remove (key : string) (self : WalIndex) :
    M Fs (option BlockPos) * WalIndex :=
  let result := idx_store self !! key in
  let self' := MkIndex (delete key (idx_store self)) (idx_path self) in
  (match result with
   | Some _ => (WalIndex_persist self';; ret result)
   | None => ret result
   end, self').
End index.

Section index_theorems.
Context `{MapCodecLaws BlockPos}.

(** a cursor position that was stored successfully is found, with the positions of all
    other topics, by the index a restarted process opens on the same file. *)
Theorem index_survives_restart pm name key idx off self s s' :
  idx_path self = index_path pm name →
  (WalIndex_set key idx off self).1 s = (Ok tt, s') →
  WalIndex_new_in pm name s' = (WalIndex_set key idx off self).2 ∧
  WalIndex_get key (WalIndex_new_in pm name s') = Some (MkPos idx off).
Proof.
  intros Hp. rewrite /WalIndex_set /= /WalIndex_persist /persist_map /=.
  destruct (map_to_bytes _) as [bs|] eqn:Hb; [|done].
  intros Hr. apply (replace_file_load _ _ _ _ _ _ Hb) in Hr as [Hl _].
  rewrite /WalIndex_new_in -Hp Hl. split; [done|]. by rewrite /WalIndex_get /= lookup_insert_eq.
Qed.

(** C36: a process or machine that stops at any point of [persist], the middle of a write
    included, leaves an index file that loads as the old index or as the new one, also when every file
    that was written but not yet synced is lost or holds garbage. *)
Theorem index_persist_crash_safe self bs s s' pm name :
  idx_path self = index_path pm name →
  map_to_bytes (idx_store self) = Some bs → crash_state ∅ (replace_ops (idx_path self) bs) s s' →
  WalIndex_new_in pm name s' = WalIndex_new_in pm name s ∨ WalIndex_new_in pm name s' = self.
Proof.
  intros Hp Hb Hc. destruct self as [m path]; cbn in *. subst path.
  rewrite /WalIndex_new_in. by destruct (replace_file_crash _ _ _ _ _ Hb Hc) as [->| ->]; auto.
Qed.
End index_theorems.
