(* ===== verification/TopicClean.v ===== *)
(** Topic clean markers: [src/src/wal/runtime/topic_clean.rs].

    A topic is clean when nothing was appended to it since its last flush marker. The tracker
    keeps a state per topic and queues the topics whose state changed; a thread drains
    the queue and rewrites the marker file. The tracker and the thread's pending set are one
    record here, and one turn of the thread is [persister_turn]. *)

From S2P Require Import Prelude Config Storage Index.

#[local] Open Scope Z_scope.

Record CleanMarkerRecord := MkMarker { generation : Z; is_clean : bool }.

#[global] Instance CleanMarkerRecord_eq_dec : EqDecision CleanMarkerRecord.
Proof. solve_decision. Defined.

Definition default_marker : CleanMarkerRecord := MkMarker 0 true.

Record CleanMarkerStore := MkMarkerStore {
  cs_path : string;
  cs_store : gmap string CleanMarkerRecord;
}.

Record TopicCleanTracker := MkTracker {
  states : gmap string CleanMarkerRecord;   (* TopicCleanState: the same two fields, atomic *)
  tstore : CleanMarkerStore;
  persist_tx : list string;                 (* sent and not yet received *)
}.

(** [TopicCleanState::update]: the generation counts the changes, and wraps. *)
Definition TopicCleanState_update (desired_clean : bool) (st : CleanMarkerRecord) :
    option CleanMarkerRecord :=
  if bool_decide (is_clean st = desired_clean) then None
  else Some (MkMarker (wrap64 (generation st + 1)) desired_clean).

Definition set_states (m : gmap string CleanMarkerRecord) (t : TopicCleanTracker) :=
  MkTracker m (tstore t) (persist_tx t).
Definition send_topic (topic : string) (t : TopicCleanTracker) :=
  MkTracker (states t) (tstore t) (persist_tx t ++ [topic]).

(** The state of a topic, created when it is absent. *)
Definition get_or_insert_state (topic : string) (t : TopicCleanTracker) :
    CleanMarkerRecord * TopicCleanTracker :=
  match states t !! topic with
  | Some existing => (existing, t)
  | None => (default_marker, set_states (<[topic := default_marker]> (states t)) t)
  end.

Definition update_state (topic : string) (desired_clean : bool) (t : TopicCleanTracker) :
    TopicCleanTracker :=
  let '(state, t) := get_or_insert_state topic t in
  match TopicCleanState_update desired_clean state with
  | Some st' => send_topic topic (set_states (<[topic := st']> (states t)) t)
  | None => t
  end.

Definition mark_dirty (topic : string) := update_state topic false.
Definition mark_clean (topic : string) := update_state topic true.

Definition topic_is_clean (topic : string) (t : TopicCleanTracker) : bool :=
  default true (is_clean <$> states t !! topic).

(** [hydrate]: the records of a snapshot replace those in memory. *)
Definition hydrate (snapshot : gmap string CleanMarkerRecord) (t : TopicCleanTracker) :=
  set_states (snapshot ∪ states t) t.

Definition TopicCleanTracker_new (store : CleanMarkerStore) : TopicCleanTracker :=
  MkTracker ∅ store [].

(** [for (topic, record) in updates { guard.insert(..) }]. *)
Definition insert_all (updates : list (string * CleanMarkerRecord))
    (m : gmap string CleanMarkerRecord) : gmap string CleanMarkerRecord :=
  foldl (λ m u, <[u.1 := u.2]> m) m updates.

Section clean.
Context `{MapCodec CleanMarkerRecord}.

Definition CleanMarkerStore_new_in (pm : WalPathManager) (file_name : string) (s : Fs) :
    CleanMarkerStore :=
  let path := index_path pm file_name in
  MkMarkerStore path (load_map path s).

(** [persist_updates]: the map in memory changes even when the file is not written. *)
Definition persist_updates (updates : list (string * CleanMarkerRecord)) (st : CleanMarkerStore) :
    M Fs unit * CleanMarkerStore :=
  match updates with
  | [] => (ret tt, st)
  | _ =>
      let m := insert_all updates (cs_store st) in
      (persist_map (cs_path st) m, MkMarkerStore (cs_path st) m)
  end.

(** The records of the pending topics that have a state. *)
Definition topic_updates (topics : list string) (t : TopicCleanTracker) :
    list (string * CleanMarkerRecord) :=
  omap (λ topic, (λ r, (topic, r)) <$> states t !! topic) topics.

Definition persist_topics (topics : list string) (t : TopicCleanTracker) :
    M Fs unit * TopicCleanTracker :=
  let '(m, st') := persist_updates (topic_updates topics t) (tstore t) in
  (m, MkTracker (states t) st' (persist_tx t)).

(** One turn of the persister thread: receive everything that was sent, write it, and
    forget it whether or not the write succeeded. *)
Definition persister_turn (t : TopicCleanTracker) : M Fs unit * TopicCleanTracker :=
  let pending := elements (list_to_set (persist_tx t) : gset string) in
  let t := MkTracker (states t) (tstore t) [] in
  match pending with
  | [] => (ret tt, t)
  | _ => let '(m, t') := persist_topics pending t in (ignore m, t')
  end.

(** The tracker a process starts with. *)
Definition clean_startup (pm : WalPathManager) (s : Fs) : TopicCleanTracker :=
  let store := CleanMarkerStore_new_in pm "topic_clean" s in
  hydrate (cs_store store) (TopicCleanTracker_new store).
End clean.

(** * Properties *)

(** The tracker agrees with its store on every topic whose change is not queued. *)
Record synced (t : TopicCleanTracker) : Prop := {
  sy_dom : dom (cs_store (tstore t)) ⊆ dom (states t);
  sy_eq topic : topic ∉ persist_tx t →
    default default_marker (states t !! topic) = default default_marker (cs_store (tstore t) !! topic);
}.

Lemma synced_insert topic t :
  synced t → states t !! topic = None → synced (set_states (<[topic:=default_marker]> (states t)) t).
Proof.
  intros [Hd He] Hn. split; cbn; [set_solver|]. intros k Hk. rewrite -(He k Hk).
  destruct (decide (k = topic)) as [->|]; [by rewrite lookup_insert_eq Hn|by rewrite lookup_insert_ne].
Qed.

Lemma synced_send topic st' t :
  synced t → synced (send_topic topic (set_states (<[topic:=st']> (states t)) t)).
Proof.
  intros [Hd He]. split; cbn; [set_solver|]. intros k Hk. rewrite -(He k); [set_solver|].
  rewrite lookup_insert_ne //. set_solver.
Qed.

Lemma synced_update topic c t : synced t → synced (update_state topic c t).
Proof.
  intros Hs. rewrite /update_state /get_or_insert_state.
  destruct (states t !! topic) as [st|] eqn:E; case_match; try done;
    try apply synced_send; try done; by apply synced_insert.
Qed.

(** The effect of the updates on a map. *)
Lemma lookup_updates (f : string → option CleanMarkerRecord) topics
    (m : gmap string CleanMarkerRecord) k :
  insert_all (omap (λ topic, (λ r, (topic, r)) <$> f topic) topics) m !! k =
  if bool_decide (k ∈ topics) then f k ∪ m !! k else m !! k.
Proof.
  rewrite /insert_all. revert m. induction topics as [|x topics IH]; intros m; [done|]. cbn [omap list_omap].
  destruct (f x) as [r|] eqn:E; cbn [fmap option_fmap option_map foldl]; rewrite IH.
  - destruct (decide (k = x)) as [->|Hne].
    + rewrite lookup_insert_eq E (bool_decide_eq_true_2 (x ∈ x :: topics)); [set_solver|].
      by case_bool_decide; destruct (m !! x).
    + rewrite lookup_insert_ne //. by rewrite (bool_decide_ext (k ∈ x :: topics) (k ∈ topics)); [set_solver|].
  - destruct (decide (k = x)) as [->|Hne].
    + rewrite E (bool_decide_eq_true_2 (x ∈ x :: topics)); [set_solver|].
      rewrite !option_union_left_id. by case_bool_decide.
    + by rewrite (bool_decide_ext (k ∈ x :: topics) (k ∈ topics)); [set_solver|].
Qed.

Section clean_theorems.
Context `{MapCodecLaws CleanMarkerRecord}.

Definition env_ok (s : Fs) : Prop := env_create_ok s = true ∧ env_flush_ok s = true.

(** The file holds what the store holds. *)
Definition on_disk (t : TopicCleanTracker) (s : Fs) : Prop :=
  load_map (cs_path (tstore t)) s = cs_store (tstore t).

Inductive clean_op := MarkDirty (topic : string) | MarkClean (topic : string) | PersisterTurn.

Definition clean_step (op : clean_op) (t : TopicCleanTracker) : M Fs unit * TopicCleanTracker :=
  match op with
  | MarkDirty topic => (ret tt, mark_dirty topic t)
  | MarkClean topic => (ret tt, mark_clean topic t)
  | PersisterTurn => persister_turn t
  end.

Fixpoint clean_run (ops : list clean_op) (t : TopicCleanTracker) (s : Fs) : TopicCleanTracker * Fs :=
  match ops with
  | [] => (t, s)
  | op :: ops => let '(m, t') := clean_step op t in clean_run ops t' (m s).2
  end.

Definition clean_inv (pm : WalPathManager) (t : TopicCleanTracker) (s : Fs) : Prop :=
  synced t ∧ on_disk t s ∧ env_ok s ∧ cs_path (tstore t) = index_path pm "topic_clean".

Hypothesis serialises : ∀ m : gmap string CleanMarkerRecord, is_Some (map_to_bytes m).

Lemma tstore_update topic c t : tstore (update_state topic c t) = tstore t.
Proof. rewrite /update_state /get_or_insert_state. by repeat case_match; simplify_eq. Qed.

Lemma clean_inv_update pm topic c t s : clean_inv pm t s → clean_inv pm (update_state topic c t) s.
Proof.
  intros (Hs & Hd & He & Hp). split_and!; [by apply synced_update|..|done|];
    by rewrite /on_disk ?tstore_update.
Qed.

(** A turn writes every queued topic. *)
Lemma synced_turn t : synced t → synced (persister_turn t).2 ∧ persist_tx (persister_turn t).2 = [].
Proof.
  intros [Hd He]. rewrite /persister_turn.
  destruct (elements _) as [|x l] eqn:El.
  - apply elements_empty_inv in El. split; [|done]. split; [done|]. cbn. intros k _. apply He.
    apply leibniz_equiv_iff in El. intros Hk. apply (not_elem_of_empty (C:=gset string) k).
    rewrite -El. by apply elem_of_list_to_set.
  - rewrite -El. clear x l El. rewrite /persist_topics /persist_updates.
    set pend := elements _. set ups := topic_updates _ _.
    assert (∀ k, k ∈ pend ↔ k ∈ persist_tx t) as Hpend.
    { intros k. by rewrite /pend elem_of_elements elem_of_list_to_set. }
    pose proof (λ k, lookup_updates (λ x, states t !! x) pend (cs_store (tstore t)) k) as Hl.
    set m' := insert_all _ _ in Hl.
    assert (synced (MkTracker (states t) (MkMarkerStore (cs_path (tstore t)) m') [])) as Hs.
    { split; cbn.
      - intros k. rewrite !elem_of_dom Hl. case_bool_decide.
        + destruct (states t !! k) eqn:E; [by eauto|]. rewrite option_union_left_id.
          intros Hk%elem_of_dom%Hd%elem_of_dom. by rewrite E in Hk.
        + intros Hk%elem_of_dom%Hd%elem_of_dom. done.
      - intros k _. rewrite Hl. case_bool_decide as Hk.
        + destruct (states t !! k) eqn:E; [by destruct (cs_store (tstore t) !! k)|]. rewrite option_union_left_id.
          destruct (cs_store (tstore t) !! k) eqn:E2; [|done].
          assert (k ∈ dom (states t)) as []%not_elem_of_dom; [|done]. apply Hd, elem_of_dom. by eauto.
        + apply He. by rewrite -Hpend. }
    change ups with (omap (λ topic, (λ r, (topic, r)) <$> states t !! topic) pend).
    rewrite /m' in Hs. destruct (omap _ pend) eqn:Eu; (split; [|done]); [|exact Hs].
    cbn in Hs |- *. by destruct (tstore t).
Qed.

Lemma persist_map_ok path (m : gmap string CleanMarkerRecord) s :
  env_ok s → ∃ s', persist_map path m s = (Ok tt, s') ∧ env_ok s' ∧ load_map path s' = m.
Proof.
  intros [Hc Hf]. destruct (serialises m) as [bs Hb].
  assert (∃ s', replace_file path bs s = (Ok tt, s') ∧ env_ok s') as (s' & E & He').
  { rewrite /replace_file /= /fs_write /fs_sync /fs_rename /bind /getS /modify /= Hc /=.
    rewrite bool_decide_eq_true_2; [set_solver|]. rewrite Hf /=.
    rewrite bool_decide_eq_true_2; [set_solver|]. by eexists. }
  exists s'. rewrite /persist_map Hb. split_and!; [done..|].
  by apply (replace_file_load _ _ _ _ _ _ Hb) in E as [E _].
Qed.

Lemma clean_inv_turn pm t s :
  clean_inv pm t s → clean_inv pm (persister_turn t).2 ((persister_turn t).1 s).2.
Proof.
  intros (Hs & Hd & He & Hp). split; [by apply synced_turn|]. move: Hd Hp.
  rewrite /persister_turn /persist_topics /persist_updates /on_disk.
  destruct (elements _); [done|]. destruct (topic_updates _ _) as [|u us]; cbn -[insert_all]; [done|].
  set m' := insert_all _ _. intros Hd Hp.
  destruct (persist_map_ok (cs_path (tstore t)) m' s He) as (s' & E & He' & Hl).
  by rewrite /ignore E.
Qed.

Lemma clean_inv_run pm ops t s :
  clean_inv pm t s → clean_inv pm (clean_run ops t s).1 (clean_run ops t s).2.
Proof.
  revert t s. induction ops as [|[topic|topic|] ops IH]; intros t s Hi; cbn; [done|..].
  - by apply IH, clean_inv_update.
  - by apply IH, clean_inv_update.
  - pose proof (clean_inv_turn pm t s Hi) as Hi'. destruct (persister_turn t) as [m t']. by apply IH.
Qed.

Lemma clean_inv_startup pm s : env_ok s → clean_inv pm (clean_startup pm s) s.
Proof.
  intros He. split_and!; try done. split; cbn; [set_solver|].
  intros k _. by rewrite map_union_empty.
Qed.

(** whatever the history of clean and dirty marks and of turns of the persister thread,
    a restart finds the marker of every topic whose last change the thread has
    received; the others keep an older marker. *)
Theorem clean_markers_survive_restart pm ops s :
  env_ok s →
  let '(t, s') := clean_run ops (clean_startup pm s) s in
  ∀ topic, topic ∉ persist_tx t →
    topic_is_clean topic (clean_startup pm s') = topic_is_clean topic t.
Proof.
  intros He. pose proof (clean_inv_run pm ops _ _ (clean_inv_startup pm s He)) as Hi.
  destruct (clean_run _ _ _) as [t s'], Hi as (Hs & Hd & _ & Hp). intros topic Ht.
  pose proof (sy_eq _ Hs topic Ht) as Heq. rewrite /on_disk Hp in Hd.
  assert (∀ o, default true (is_clean <$> o) = is_clean (default default_marker o)) as Hdef
    by by intros [].
  by rewrite /topic_is_clean /= map_union_empty Hd !Hdef Heq.
Qed.
End clean_theorems.
