(* ===== verification/Reader.v ===== *)
(** The reader side of a topic: [src/src/wal/runtime/reader.rs], and the persistence policy
    [should_persist] of [src/src/wal/runtime/walrus_read.rs].

    A topic's reader is a chain of sealed blocks, a position in it, and the progress made in
    the block the writer still appends to (the tail). *)

From S2P Require Import Prelude Config Storage Block.

#[local] Open Scope Z_scope.

Record ColReaderInfo := MkInfo {
  chain : list Block;
  cur_idx : nat;
  cur_off : Z;
  reads_since_persist : Z;
  tail_block_id : Z;
  tail_offset : Z;
  hydrated_from_index : bool;
}.

Definition new_info : ColReaderInfo := MkInfo [] 0 0 0 0 0 false.

Definition set_pos (idx : nat) (off : Z) (i : ColReaderInfo) : ColReaderInfo :=
  MkInfo (chain i) idx off (reads_since_persist i) (tail_block_id i) (tail_offset i)
         (hydrated_from_index i).
Definition set_tail (id off : Z) (i : ColReaderInfo) : ColReaderInfo :=
  MkInfo (chain i) (cur_idx i) (cur_off i) (reads_since_persist i) id off (hydrated_from_index i).
Definition set_reads (n : Z) (i : ColReaderInfo) : ColReaderInfo :=
  MkInfo (chain i) (cur_idx i) (cur_off i) n (tail_block_id i) (tail_offset i)
         (hydrated_from_index i).
Definition set_hydrated (i : ColReaderInfo) : ColReaderInfo :=
  MkInfo (chain i) (cur_idx i) (cur_off i) (reads_since_persist i) (tail_block_id i)
         (tail_offset i) true.
Definition set_chain (c : list Block) (i : ColReaderInfo) : ColReaderInfo :=
  MkInfo c (cur_idx i) (cur_off i) (reads_since_persist i) (tail_block_id i)
         (tail_offset i) (hydrated_from_index i).

(** [Reader::data]. *)
Definition Reader := gmap string ColReaderInfo.

(** The body both paths of [append_block_to_chain] share: push, and carry the progress made in
    the tail over to the sealed block. *)
Definition push_block (block : Block) (info : ColReaderInfo) : ColReaderInfo :=
  let info := set_chain (chain info ++ [block]) info in
  let new_idx := (length (chain info) - 1)%nat in
  if tail_block_id info =? b_id block
  then set_pos new_idx (Z.min (tail_offset info) (b_used block)) info
  else info.

Definition append_block_to_chain (col : string) (block : Block) (r : Reader) : Reader :=
  match r !! col with
  | Some info => <[col := push_block block info]> r
  | None => <[col := push_block block new_info]> r
  end.

Inductive ReadConsistency :=
  | StrictlyAtOnce
  | AtLeastOnce (persist_every : Z).

Definition should_persist (mode : ReadConsistency) (info : ColReaderInfo) (force : bool) :
    bool * ColReaderInfo :=
  match mode with
  | StrictlyAtOnce => (true, info)
  | AtLeastOnce persist_every =>
      let every := Z.max persist_every 1 in
      if force then (true, set_reads 0 info)
      else
        let next := sat_add32 (reads_since_persist info) 1 in
        if next >=? every then (true, set_reads 0 info) else (false, set_reads next info)
  end.

(** * The persistence policy *)

(** The decisions of [n] consecutive calls. *)
Fixpoint persist_run (mode : ReadConsistency) (n : nat) (info : ColReaderInfo) :
    list bool * ColReaderInfo :=
  match n with
  | O => ([], info)
  | S n => let '(b, info) := should_persist mode info false in
           let '(bs, info) := persist_run mode n info in (b :: bs, info)
  end.

Lemma should_persist_pos mode info force :
  let i := (should_persist mode info force).2 in
  chain i = chain info ∧ cur_idx i = cur_idx info ∧ cur_off i = cur_off info ∧
  tail_block_id i = tail_block_id info ∧ tail_offset i = tail_offset info ∧
  hydrated_from_index i = hydrated_from_index info.
Proof. rewrite /should_persist. destruct mode, force; try done. by case_match. Qed.

Lemma should_persist_AtLeastOnce e info :
  1 ≤ e ≤ U32_MAX → 0 ≤ reads_since_persist info < e →
  should_persist (AtLeastOnce e) info false =
    if decide (reads_since_persist info + 1 = e) then (true, set_reads 0 info)
    else (false, set_reads (reads_since_persist info + 1) info).
Proof.
  intros He Hr. rewrite /should_persist. rewrite Z.max_l; [lia|].
  rewrite /sat_add32 Z.min_l; [lia|]. case_decide.
  - destruct (Z.geb_spec (reads_since_persist info + 1) e); [done|lia].
  - destruct (Z.geb_spec (reads_since_persist info + 1) e); [lia|done].
Qed.

Lemma persist_run_quiet e n info :
  1 ≤ e ≤ U32_MAX → 0 ≤ reads_since_persist info → reads_since_persist info + Z.of_nat n < e →
  persist_run (AtLeastOnce e) n info =
    (replicate n false, set_reads (reads_since_persist info + Z.of_nat n) info).
Proof.
  intros He. revert info. induction n as [|n IH]; intros info Hr Hn; cbn [persist_run replicate].
  { rewrite Z.add_0_r. by destruct info. }
  rewrite should_persist_AtLeastOnce; [lia|lia|]. rewrite decide_False; [lia|].
  rewrite IH; cbn [reads_since_persist set_reads]; [lia|lia|].
  by rewrite Nat2Z.inj_succ -Z.add_1_l Z.add_assoc.
Qed.

(** under [AtLeastOnce], starting from a fresh counter, of every [persist_every] consecutive
    reads exactly the last one persists the cursor, and the counter is then back at zero:
    a crash can repeat at most [persist_every - 1] entries. *)
Theorem persist_every_window e info :
  1 ≤ e ≤ U32_MAX → reads_since_persist info = 0 →
  persist_run (AtLeastOnce e) (Z.to_nat e) info =
    (replicate (Z.to_nat (e - 1)) false ++ [true], info).
Proof.
  intros He Hr. replace (Z.to_nat e) with (Z.to_nat (e - 1) + 1)%nat by lia.
  assert (∀ n m i, persist_run (AtLeastOnce e) (n + m) i =
    let '(bs, i1) := persist_run (AtLeastOnce e) n i in
    let '(bs', i2) := persist_run (AtLeastOnce e) m i1 in (bs ++ bs', i2)) as Happ.
  { induction n as [|n IH]; intros m i; cbn [persist_run Nat.add]; [by case_match|].
    destruct (should_persist _ i false) as [b i1]. rewrite IH.
    by destruct (persist_run _ n i1), (persist_run _ m _). }
  rewrite Happ persist_run_quiet; [lia|lia|lia|]. cbn [persist_run].
  rewrite should_persist_AtLeastOnce; cbn [reads_since_persist set_reads]; [lia|lia|].
  rewrite decide_True; [lia|]. by destruct info; cbn in *; subst.
Qed.
