(* ===== verification/Writer.v ===== *)
(** The writer of a topic: [src/src/wal/runtime/writer.rs].

    A writer appends to its current block and seals it (hands it to the reader's chain) when
    the next entry does not fit. A batch is planned first, then written, either by one
    io_uring submission or entry by entry, and rolled back when a write fails. The io_uring
    crate is a parameter: the class [IoUring] with its laws. *)

From S2P Require Import Prelude Config Storage Block Trackers Allocator Reader.

#[local] Open Scope Z_scope.

Record Writer := MkWriter {
  current_block : Block;
  col : string;
  current_offset : Z;
  w_schedule : FsyncSchedule;
  is_batch_writing : bool;
}.

Definition Writer_new (current_block : Block) (col : string) (schedule : FsyncSchedule) : Writer :=
  MkWriter current_block col 0 schedule false.

Definition set_block (b : Block) (w : Writer) : Writer :=
  MkWriter b (col w) (current_offset w) (w_schedule w) (is_batch_writing w).
Definition set_offset (o : Z) (w : Writer) : Writer :=
  MkWriter (current_block w) (col w) o (w_schedule w) (is_batch_writing w).
Definition set_batch (f : bool) (w : Writer) : Writer :=
  MkWriter (current_block w) (col w) (current_offset w) (w_schedule w) f.

(** A writer with what it shares: allocator and files, the reader, the flush channel. *)
Record WEnv := MkWEnv {
  we_alloc : AllocEnv;
  we_reader : Reader;
  we_tx : list string;
  we_self : Writer;
}.

Definition on_alloc {A} (m : M AllocEnv A) : M WEnv A :=
  zoom we_alloc (λ a e, MkWEnv a (we_reader e) (we_tx e) (we_self e)) m.
Definition on_files {A} (m : M Fs A) : M WEnv A := on_alloc (on_fs m).
Definition on_trackers (f : Trackers → Trackers) : M WEnv unit := on_alloc (on_trk f).
Definition on_reader (f : Reader → Reader) : M WEnv unit :=
  modify (λ e, MkWEnv (we_alloc e) (f (we_reader e)) (we_tx e) (we_self e)).
Definition on_self (f : Writer → Writer) : M WEnv unit :=
  modify (λ e, MkWEnv (we_alloc e) (we_reader e) (we_tx e) (f (we_self e))).
Definition publish (p : string) : M WEnv unit :=
  modify (λ e, MkWEnv (we_alloc e) (we_reader e) (we_tx e ++ [p]) (we_self e)).
Definition self : M WEnv Writer := λ e, (Ok (we_self e), e).

(** * Single writes *)

(** Sealing: the block's lock is dropped, its used size is fixed, it is flushed and appended
    to the chain. *)
Definition seal_current (used : Z) : M WEnv unit :=
  let! w := self in
  on_trackers (set_block_unlocked (b_id (current_block w)));;
  let sealed := set_used used (current_block w) in
  on_files (storage_flush (b_mmap sealed));;
  on_reader (append_block_to_chain (col w) sealed).

Section writer.
Context `{MetaCodec}.

(** [Writer::write]. *)
Definition Writer_write (data : list Z) : M WEnv unit :=
  let! w := self in
  if is_batch_writing w then fail KWouldBlock "batch write in progress for this topic"
  else
    let need := PREFIX_META_SIZE + len data in
    (if current_offset w + need >? b_limit (current_block w) then
       seal_current (current_offset w);;
       let! new_block := on_alloc (alloc_block need) in
       on_self (set_block new_block);;
       on_self (set_offset 0)
     else ret tt);;
    let! w := self in
    let block := current_block w in
    let next_block_start := b_offset block + b_limit block in
    on_files (Block_write block (current_offset w) data (col w) next_block_start);;
    on_self (λ w, set_offset (current_offset w + need) w);;
    match w_schedule w with
    | SyncEach => on_files (storage_flush (b_mmap block))
    | Milliseconds _ => publish (b_file_path block)
    | NoFsync => ret tt
    end.
End writer.

(** [Writer::snapshot_block]. *)
Definition snapshot_block (w : Writer) : Block * Z := (current_block w, current_offset w).

(** * Batches *)

(** The io_uring crate. A submission names a descriptor, an offset, a buffer, how much of the
    buffer to write (32 bits) and a user tag. *)
Record Sqe := MkSqe {
  sqe_path : string;
  sqe_off : Z;
  sqe_buf : list Z;
  sqe_len : Z;
  sqe_user : nat;
}.
Record Cqe := MkCqe { cqe_user : nat; cqe_result : Z }.

Class IoUring := {
  uring_new : Z → Fs → option string;              (* the error text, or none *)
  uring_push : Z → list Sqe → Sqe → option string; (* refusal of a full queue *)
  uring_submit_and_wait : list Sqe → M Fs (list Cqe);
}.

Definition plan_entry : Type := Block * Z * nat.

(** Flush each file of the plan once; the first failure stops. *)
Fixpoint flush_plan (plan : list plan_entry) (fsynced : gset string) : M Fs unit :=
  match plan with
  | [] => ret tt
  | (blk, _, _) :: plan =>
      if bool_decide (b_file_path blk ∈ fsynced) then flush_plan plan fsynced
      else storage_flush (b_mmap blk);; flush_plan plan ({[b_file_path blk]} ∪ fsynced)
  end.

(** The same with failures ignored, after a rollback. *)
Fixpoint flush_plan_ignore (plan : list plan_entry) (fsynced : gset string) : M Fs unit :=
  match plan with
  | [] => ret tt
  | (blk, _, _) :: plan =>
      if bool_decide (b_file_path blk ∈ fsynced) then flush_plan_ignore plan fsynced
      else ignore (storage_flush (b_mmap blk));;
           flush_plan_ignore plan ({[b_file_path blk]} ∪ fsynced)
  end.

Fixpoint zero_plan (plan : list plan_entry) : M Fs unit :=
  match plan with
  | [] => ret tt
  | (blk, off, _) :: plan => ignore (zero_range blk off PREFIX_META_SIZE);; zero_plan plan
  end.

Fixpoint unlock_all (ids : list Z) : M WEnv unit :=
  match ids with
  | [] => ret tt
  | id :: ids => on_trackers (set_block_unlocked id);; unlock_all ids
  end.

Definition entry_need (data : list Z) : Z := PREFIX_META_SIZE + len data.

Definition batch_total (batch : list (list Z)) : Z := foldr (λ d acc, entry_need d + acc) 0 batch.

(** The planning loop over [batch], from index [batch_idx]. *)
Fixpoint plan_loop (fuel : nat) (batch : list (list Z)) (batch_idx : nat) (planning_offset : Z)
    (write_plan : list plan_entry) (allocated : list Z) :
    M WEnv (list plan_entry * Z * list Z) :=
  match batch with
  | [] => ret (write_plan, planning_offset, allocated)
  | data :: rest =>
      match fuel with
      | O => hang
      | S fuel =>
          let need := entry_need data in
          let! w := self in
          let available := wrap64 (b_limit (current_block w) - planning_offset) in
          if available >=? need then
            plan_loop fuel rest (S batch_idx) (planning_offset + need)
              (write_plan ++ [(current_block w, planning_offset, batch_idx)]) allocated
          else
            seal_current planning_offset;;
            let! new_block := on_alloc (alloc_block (Z.max need DEFAULT_BLOCK_SIZE)) in
            on_self (set_block new_block);;
            plan_loop fuel batch batch_idx 0 write_plan (allocated ++ [b_id new_block])
      end
  end.

(** [str::contains]. *)
Definition contains (needle hay : string) : bool :=
  match String.index 0 needle hay with Some _ => true | None => false end.

Section batch.
Context `{MetaCodec} `{IoUring}.

(** The fallback writes of a plan; on a failure the headers written so far are zeroed. *)
Fixpoint write_plan_loop (colname : string) (batch : list (list Z)) (full todo : list plan_entry)
    (original_offset : Z) (allocated : list Z) : M WEnv unit :=
  match todo with
  | [] => ret tt
  | (blk, off, data_idx) :: todo =>
      match batch !! data_idx with
      | None => panic
      | Some data =>
          let next_block_start := b_offset blk + b_limit blk in
          λ e,
          match on_files (Block_write blk off data colname next_block_start) e with
          | (Ok _, e') => write_plan_loop colname batch full todo original_offset allocated e'
          | (Err err, e') =>
              (let written := take (S data_idx) full in
               on_files (zero_plan written);;
               on_files (flush_plan_ignore written ∅);;
               on_self (set_offset original_offset);;
               unlock_all allocated;;
               (λ e, (Err err, e))) e'
          | (Panic, e') => (Panic, e')
          | (Hang, e') => (Hang, e')
          end
      end
  end.

(** One submission entry per planned write; its header is built without a size check. *)
Fixpoint build_sqes (ring_size : Z) (colname : string) (batch : list (list Z))
    (plan : list plan_entry) (ring : list Sqe) (original_offset : Z) (allocated : list Z) :
    M WEnv (list Sqe) :=
  match plan with
  | [] => ret ring
  | (blk, off, data_idx) :: plan =>
      match batch !! data_idx with
      | None => panic
      | Some data =>
          let next_block_start := b_offset blk + b_limit blk in
          match to_bytes (new_meta data colname next_block_start) with
          | None => fail KOther "serialize metadata failed"
          | Some meta_bytes =>
              match meta_buffer meta_bytes with
              | None => panic
              | Some buf =>
                  match as_fd (b_mmap blk) with
                  | None =>
                      on_self (set_offset original_offset);;
                      unlock_all allocated;;
                      fail KUnsupported "batch writes require FD backend"
                  | Some path =>
                      let combined := buf ++ data in
                      let sqe := MkSqe path (b_offset blk + off) combined
                                   (len combined mod 2 ^ 32) data_idx in
                      match uring_push ring_size ring sqe with
                      | Some e => fail KOther ("io_uring push failed: " +:+ e)
                      | None =>
                          build_sqes ring_size colname batch plan (ring ++ [sqe]) original_offset
                            allocated
                      end
                  end
              end
          end
      end
  end.

(** The check of the completions: [n] of them at most are looked at. *)
Definition cqe_ok (ring : list Sqe) (c : Cqe) : bool :=
  let expected := default 0 ((λ s, len (sqe_buf s)) <$> ring !! cqe_user c) in
  (0 <=? cqe_result c) && (cqe_result c =? expected).

Definition all_success (ring : list Sqe) (cqes : list Cqe) : bool :=
  forallb (cqe_ok ring) (take (length ring) cqes).

Definition rollback (plan : list plan_entry) (original_offset : Z) (allocated : list Z) :
    M WEnv unit :=
  on_files (zero_plan plan);;
  on_files (flush_plan_ignore plan ∅);;
  on_self (set_offset original_offset);;
  unlock_all allocated.

Definition submit_batch_via_io_uring (plan : list plan_entry) (batch : list (list Z))
    (original_offset planning_offset : Z) (allocated : list Z) : M WEnv unit :=
  let! w := self in
  let ring_size := Z.min (len plan + 64) 4096 in
  let! e := getS in
  match uring_new ring_size (ae_fs (we_alloc e)) with
  | Some err => fail KOther ("io_uring init failed: " +:+ err)
  | None =>
      let! ring := build_sqes ring_size (col w) batch plan [] original_offset allocated in
      λ e,
      match on_files (uring_submit_and_wait ring) e with
      | (Ok cqes, e') =>
          (if negb (all_success ring cqes) then
             rollback plan original_offset allocated;;
             fail KOther "batch write failed, rolled back"
           else
             on_files (flush_plan plan ∅);;
             on_self (set_offset planning_offset)) e'
      | (Err err, e') => (rollback plan original_offset allocated;; (λ e, (Err err, e))) e'
      | (Panic, e') => (Panic, e')
      | (Hang, e') => (Hang, e')
      end
  end.

(** The guard: the flag is released on every way out, a panic included. *)
Definition with_batch_guard {A} (m : M WEnv A) : M WEnv A := λ e,
  match m e with
  | (Hang, e') => (Hang, e')
  | (o, e') => (o, (on_self (set_batch false) e').2)
  end.

(** The fallback after planning. *)
Definition batch_fallback (plan : list plan_entry) (batch : list (list Z))
    (original_offset planning_offset : Z) (allocated : list Z) : M WEnv unit :=
  let! w := self in
  write_plan_loop (col w) batch plan plan original_offset allocated;;
  on_files (flush_plan plan ∅);;
  on_self (set_offset planning_offset).

(** The body that runs under the guard. Every entry takes at most two turns of the
    planning loop: a turn that seals is followed by one that fits. *)
Definition batch_body (batch : list (list Z)) : M WEnv unit :=
  let! w := self in
  let original_offset := current_offset w in
  let! planned := plan_loop (2 * length batch) batch 0 original_offset [] [] in
  let '(plan, planning_offset, allocated) := planned in
  let! e := getS in
  if USE_FD_BACKEND (ae_fs (we_alloc e)) then
    λ e,
    match submit_batch_via_io_uring plan batch original_offset planning_offset allocated e with
    | (Err err, e') =>
        if contains "io_uring init failed" (err_msg err)
        then batch_fallback plan batch original_offset planning_offset allocated e'
        else (Err err, e')
    | r => r
    end
  else batch_fallback plan batch original_offset planning_offset allocated.

(** [Writer::batch_write]. *)
Definition Writer_batch_write (batch : list (list Z)) : M WEnv unit :=
  if len batch >? MAX_BATCH_ENTRIES then
    fail KInvalidInput ("batch exceeds " +:+ pretty (Z.to_N MAX_BATCH_ENTRIES) +:+ " entry limit")
  else if batch_total batch >? MAX_BATCH_BYTES then fail KInvalidInput "batch exceeds 10GB limit"
  else
    match batch with
    | [] => ret tt
    | _ =>
        let! w := self in
        if is_batch_writing w then fail KWouldBlock "another batch write already in progress"
        else
          on_self (set_batch true);;
          with_batch_guard (batch_body batch)
    end.
End batch.
