(* ===== verification/TopicInv.v ===== *)
(** The invariant of a topic: what its blocks hold on disk, where its reader stands, and the
    queue of entries that remain to be delivered.

    The lemmas of this file are about the pieces of the state (files, a reader entry, a
    writer), so that a single write, a planned batch and a read all use them. *)

From S2P Require Import Prelude Config Storage Block Trackers Allocator Index Reader Writer.

#[local] Open Scope Z_scope.

Section topic.
Context `{MetaCodec}.
Implicit Types (s : Fs) (b : Block) (q : list (list Z)).

(** * Entries on disk *)

(** [seg s b o u ds]: from offset [o] to [u], the block holds the entries [ds]. *)
Inductive seg s b : Z → Z → list (list Z) → Prop :=
  | seg_nil o : seg s b o o []
  | seg_cons o u d ds :
      (Block_read b o s).1 = Ok (d, entry_need d) →
      seg s b (o + entry_need d) u ds → seg s b o u (d :: ds).

Lemma entry_need_pos d : 0 < entry_need d.
Proof. rewrite /entry_need /PREFIX_META_SIZE. pose proof (len_nonneg d). lia. Qed.

Lemma seg_le s b o u ds : seg s b o u ds → o ≤ u.
Proof. induction 1; [lia|]. pose proof (entry_need_pos d). lia. Qed.

Lemma seg_empty s b o u : seg s b o u [] ↔ o = u.
Proof. split; [by inversion 1|]. intros ->. constructor. Qed.

Lemma seg_lt s b o u ds : seg s b o u ds → o < u ↔ ds ≠ [].
Proof.
  intros Hs. split; intros Ho.
  - intros ->. apply seg_empty in Hs. lia.
  - inversion Hs; subst; [done|]. apply seg_le in H1. pose proof (entry_need_pos d). lia.
Qed.

Lemma seg_app s b o m u ds es : seg s b o m ds → seg s b m u es → seg s b o u (ds ++ es).
Proof. induction 1; cbn; [done|]. intros He. econstructor; eauto. Qed.

Lemma seg_used s b u0 o u ds : seg s b o u ds → seg s (set_used u0 b) o u ds.
Proof. induction 1; econstructor; eauto. Qed.
End topic.

Section topic_laws.
Context `{MetaCodecLaws}.
Implicit Types (s : Fs) (b : Block) (q : list (list Z)).

(** The entries depend only on the bytes of their range. *)
Lemma seg_frame s s' b o u ds :
  seg s b o u ds → agree s s' (st_path (b_mmap b)) (b_offset b + o) (b_offset b + u) →
  seg s' b o u ds.
Proof.
  induction 1 as [|o u d ds Hr Hs IH]; intros Ha; [constructor|].
  pose proof (seg_le _ _ _ _ _ Hs). pose proof (entry_need_pos d). constructor.
  - rewrite (Block_read_frame b o s s' d (entry_need d)) //. eapply agree_sub; [done|lia..].
  - apply IH. eapply agree_sub; [done|lia..].
Qed.

(** * Ownership of blocks *)

(** The blocks handed out so far, by id, with the topic that got them. *)
Definition ghost := gmap Z (string * Block).

Record ghost_ok (e : AllocEnv) (g : ghost) : Prop := {
  g_owned id t b : g !! id = Some (t, b) → owned e b ∧ b_id b = id;
  g_disj id id' t t' b b' :
    g !! id = Some (t, b) → g !! id' = Some (t', b') → id ≠ id' → block_disjoint b b';
}.

(** [b] is a block of [t], up to its used size. *)
Definition holds (g : ghost) (t : string) (b : Block) : Prop :=
  g !! b_id b = Some (t, set_used 0 b).

Lemma holds_used g t u b : holds g t b → holds g t (set_used u b).
Proof. done. Qed.

(** Nothing changed in the blocks of [t]. *)
Definition undisturbed (g : ghost) (t : string) (s s' : Fs) : Prop :=
  ∀ b, holds g t b → agree s s' (b_file_path b) (b_offset b) (b_offset b + b_limit b).

(** * The state of a topic *)

Definition blocks_q s (bs : list Block) q : Prop :=
  ∃ ess, Forall2 (λ b es, seg s b 0 (b_used b) es) bs ess ∧ q = concat ess.

(** What remains in the chain from a position. *)
Definition chain_q s (c : list Block) (idx : nat) (off : Z) q : Prop :=
  match drop idx c with
  | [] => q = []
  | b :: bs => ∃ q1 q2, seg s b off (b_used b) q1 ∧ blocks_q s bs q2 ∧ q = q1 ++ q2
  end.

(** Where the reader stands in the active block. *)
Definition tail_start (info : ColReaderInfo) (w : Writer) : Z :=
  if tail_block_id info =? b_id (current_block w) then tail_offset info else 0.

Definition tail_q s (info : ColReaderInfo) (w : option Writer) q : Prop :=
  match w with
  | None => q = []
  | Some w => 0 ≤ tail_start info w ∧ seg s (current_block w) (tail_start info w) (current_offset w) q
  end.

(** A block of the chain lies in its region. *)
Definition sealed_ok (g : ghost) (t : string) (b : Block) : Prop :=
  holds g t b ∧ 0 ≤ b_used b ≤ b_limit b.

Record writer_ok (g : ghost) (t : string) (sched : FsyncSchedule) (info : ColReaderInfo)
    (w : Writer) : Prop := {
  wo_holds : holds g t (current_block w);
  wo_fresh : b_id (current_block w) ∉ b_id <$> chain info;
  wo_col : col w = t;
  wo_sched : w_schedule w = sched;
  wo_batch : is_batch_writing w = false;
  wo_offset : 0 ≤ current_offset w ≤ b_limit (current_block w);
  wo_tail : tail_block_id info = b_id (current_block w) → cur_idx info = length (chain info);
}.

Record topic_ok (g : ghost) (s : Fs) (nid : Z) (sched : FsyncSchedule) (t : string)
    (info : ColReaderInfo) (w : option Writer) (q : list (list Z)) : Prop := {
  to_chain : Forall (sealed_ok g t) (chain info);
  to_writer : ∀ w', w = Some w' → writer_ok g t sched info w';
  to_idx : (cur_idx info ≤ length (chain info))%nat;
  to_off : 0 ≤ cur_off info;
  to_end : cur_idx info = length (chain info) → cur_off info = 0;
  to_tail : tail_block_id info < nid;
  to_queue : ∃ qc qt, chain_q s (chain info) (cur_idx info) (cur_off info) qc ∧
                      tail_q s info w qt ∧ q = qc ++ qt;
}.

Lemma topic_ok_new g s nid sched t : 0 < nid → topic_ok g s nid sched t new_info None [].
Proof. intros. split; try done. by exists [], []. Qed.

(** * Framing *)

Lemma ghost_path e g t b : ghost_ok e g → holds g t b → st_path (b_mmap b) = b_file_path b.
Proof. intros Hg Hh. by apply Hg in Hh as [[[] _] _]. Qed.

(** The bytes of [b] below [u] are the same. *)
Definition block_agree s s' (b : Block) (u : Z) : Prop :=
  agree s s' (b_file_path b) (b_offset b) (b_offset b + u).

(** The bytes the topic's entries are in are the same. *)
Definition topic_agree s s' (info : ColReaderInfo) (w : option Writer) : Prop :=
  Forall (λ b, block_agree s s' b (b_limit b)) (chain info) ∧
  ∀ w', w = Some w' → block_agree s s' (current_block w') (current_offset w').

Lemma seg_agree e g t s s' b o u ds :
  ghost_ok e g → holds g t b → block_agree s s' b u → 0 ≤ o → seg s b o u ds → seg s' b o u ds.
Proof.
  intros Hg Hh Ha Ho Hs. eapply seg_frame; [done|]. rewrite (ghost_path e g t b) //.
  eapply agree_sub; [done|lia..].
Qed.

Lemma sealed_seg_agree e g t s s' b o ds :
  ghost_ok e g → sealed_ok g t b → block_agree s s' b (b_limit b) → 0 ≤ o →
  seg s b o (b_used b) ds → seg s' b o (b_used b) ds.
Proof.
  intros Hg [Hh Hu] Ha. apply (seg_agree e g t); [done..|]. eapply agree_sub; [done|lia..].
Qed.

Lemma blocks_q_agree e g t s s' bs q :
  ghost_ok e g → Forall (λ b, block_agree s s' b (b_limit b)) bs → Forall (sealed_ok g t) bs →
  blocks_q s bs q → blocks_q s' bs q.
Proof.
  intros Hg Hu Hbs (ess & Hf & ->). exists ess. split; [|done].
  induction Hf; [constructor|]. apply Forall_cons in Hbs as [Hb Hbs], Hu as [Hu Hus].
  constructor; [|by apply IHHf]. by eapply sealed_seg_agree.
Qed.

Lemma chain_q_agree e g t s s' c idx off q :
  ghost_ok e g → Forall (λ b, block_agree s s' b (b_limit b)) c → Forall (sealed_ok g t) c →
  0 ≤ off → chain_q s c idx off q → chain_q s' c idx off q.
Proof.
  intros Hg Hu Hc Ho. rewrite /chain_q. apply (Forall_drop _ idx) in Hc, Hu.
  destruct (drop idx c) as [|b bs]; [done|].
  apply Forall_cons in Hc as [Hb Hbs], Hu as [Hu Hus]. intros (q1 & q2 & Hs1 & Hs2 & ->).
  exists q1, q2. split_and!; [by eapply sealed_seg_agree|by eapply blocks_q_agree|done].
Qed.

Lemma topic_ok_frame e g g' s s' nid nid' sched t info w q :
  ghost_ok e g → topic_agree s s' info w → (∀ b, holds g t b → holds g' t b) → nid ≤ nid' →
  topic_ok g s nid sched t info w q → topic_ok g' s' nid' sched t info w q.
Proof.
  intros Hg [Huc Huw] Hinc Hn [Hc Hw Hi Ho He Ht (qc & qt & Hqc & Hqt & ->)]. split; try done.
  - eapply Forall_impl; [done|]. intros b [??]. split; auto.
  - intros w' []%Hw. split; auto.
  - lia.
  - exists qc, qt. split_and!; [by eapply chain_q_agree| |done].
    destruct w as [w|]; [|done]. destruct (Hw w eq_refl), Hqt. split; [done|].
    eapply seg_agree; [done..| |done|done]. by apply Huw.
Qed.

Lemma undisturbed_agree g s s' nid sched t info w q :
  undisturbed g t s s' → topic_ok g s nid sched t info w q → topic_agree s s' info w.
Proof.
  intros Hu Ht. split.
  - eapply Forall_impl; [apply Ht|]. intros b [Hb _]. by apply Hu.
  - intros w' Hw. destruct (to_writer _ _ _ _ _ _ _ _ Ht w' Hw).
    eapply agree_sub; [by apply Hu|lia|lia].
Qed.

(** * Operations on a topic *)

(** A first block for a topic that has none. *)
Lemma topic_ok_open g s nid sched t info b q :
  topic_ok g s nid sched t info None q → holds g t b → nid ≤ b_id b →
  b_id b ∉ b_id <$> chain info → 0 < b_limit b →
  topic_ok g s (b_id b + 1) sched t info (Some (Writer_new b t sched)) q.
Proof.
  intros [Hc _ Hi Ho He Ht (qc & qt & Hqc & -> & ->)] Hb Hn Hfresh Hl. split; try done.
  - intros w [= <-]. split; try done; cbn; lia.
  - lia.
  - exists qc, []. split_and!; [done| |done]. rewrite /tail_q /tail_start /=.
    destruct (Z.eqb_spec (tail_block_id info) (b_id b)); [lia|]. split; [done|constructor].
Qed.

(** An entry that was written at the end of the active block. *)
Lemma topic_ok_write g s nid sched t info w q d :
  topic_ok g s nid sched t info (Some w) q →
  (Block_read (current_block w) (current_offset w) s).1 = Ok (d, entry_need d) →
  current_offset w + entry_need d ≤ b_limit (current_block w) →
  topic_ok g s nid sched t info (Some (set_offset (current_offset w + entry_need d) w)) (q ++ [d]).
Proof.
  intros [Hc Hw Hi Ho He Ht (qc & qt & Hqc & Hqt & ->)] Hr Hl. split; try done.
  - intros w' [= <-]. destruct (Hw w eq_refl). split; try done. cbn. pose proof (entry_need_pos d). lia.
  - exists qc, (qt ++ [d]). split_and!; [done| |by rewrite app_assoc].
    destruct Hqt as [Ht0 Hs]. split; [done|]. eapply seg_app; [done|].
    econstructor; [done|]. constructor.
Qed.

Lemma blocks_q_snoc s bs q b es :
  blocks_q s bs q → seg s b 0 (b_used b) es → blocks_q s (bs ++ [b]) (q ++ es).
Proof.
  intros (ess & Hf & ->) Hs. exists (ess ++ [es]). split; [by apply Forall2_app; [|constructor]|].
  by rewrite concat_app /= app_nil_r.
Qed.

(** Appending a block behind a position that is inside the chain. *)
Lemma chain_q_snoc s c idx off qc b es :
  (idx ≤ length c)%nat → (idx = length c → off = 0) →
  chain_q s c idx off qc → seg s b 0 (b_used b) es → chain_q s (c ++ [b]) idx off (qc ++ es).
Proof.
  intros Hi He. rewrite /chain_q. destruct (decide (idx = length c)) as [->|Hne].
  - rewrite drop_app_length drop_ge //. intros -> Hs. exists es, []. cbn.
    rewrite He // app_nil_r. split_and!; [done|by exists []|done].
  - rewrite drop_app_le; [lia|]. destruct (drop idx c) as [|b0 bs] eqn:E.
    { apply (f_equal length) in E. rewrite length_drop /= in E. lia. }
    intros (q1 & q2 & H1 & H2 & ->) Hs. exists q1, (q2 ++ es). cbn.
    split_and!; [done|by apply blocks_q_snoc|by rewrite app_assoc].
Qed.

Lemma push_block_eq b info :
  chain (push_block b info) = chain info ++ [b] ∧
  tail_block_id (push_block b info) = tail_block_id info ∧
  tail_offset (push_block b info) = tail_offset info ∧
  (cur_idx (push_block b info), cur_off (push_block b info)) =
    if tail_block_id info =? b_id b
    then (length (chain info), Z.min (tail_offset info) (b_used b))
    else (cur_idx info, cur_off info).
Proof.
  rewrite /push_block /=. case_match; cbn; split_and!; try done.
  rewrite length_app /=. f_equal. lia.
Qed.

(** Sealing the active block and going on in a fresh one delivers the same queue. *)
Lemma topic_ok_seal g s nid sched t info w b q :
  topic_ok g s nid sched t info (Some w) q → holds g t b → nid ≤ b_id b →
  b_id b ∉ b_id <$> chain info → b_id b ≠ b_id (current_block w) → 0 < b_limit b →
  topic_ok g s (b_id b + 1) sched t (push_block (set_used (current_offset w) (current_block w)) info)
    (Some (set_offset 0 (set_block b w))) q.
Proof.
  intros [Hc Hw Hi Ho He Ht (qc & qt & Hqc & [Ht0 Hqt] & ->)] Hb Hn Hfresh Hne Hl.
  destruct (Hw w eq_refl) as [Wh Wf Wc Ws Wb Wo Wt].
  set sealed := set_used _ _. destruct (push_block_eq sealed info) as (Ec & Et & Eo & Epos).
  rewrite /tail_start in Ht0 Hqt. change (b_id sealed) with (b_id (current_block w)) in Epos.
  set info' := push_block sealed info in Ec Et Eo Epos |- *.
  assert (Htl : b_id b ≠ tail_block_id info) by lia.
  assert (chain_q s (chain info') (cur_idx info') (cur_off info') (qc ++ qt) ∧
          (cur_idx info' < length (chain info'))%nat ∧ 0 ≤ cur_off info') as (Hq & Hlt & Hoff).
  { rewrite Ec length_app /=. destruct (Z.eqb_spec (tail_block_id info) (b_id (current_block w))) as [E|E];
      injection Epos as -> ->.
    - specialize (Wt E). rewrite Wt in Hqc. rewrite /chain_q drop_ge in Hqc; [lia|]. subst qc.
      pose proof (seg_le _ _ _ _ _ Hqt). cbn [b_used sealed set_used].
      rewrite Z.min_l; [lia|]. split; [|split; [lia|done]].
      rewrite /chain_q drop_app_length. exists qt, []. rewrite app_nil_r.
      split_and!; [by apply seg_used|by exists []|done].
    - split; [|split; [lia|done]]. apply chain_q_snoc; [done..|]. by apply seg_used. }
  split.
  - rewrite Ec. apply Forall_app. split; [done|]. constructor; [|done]. by split.
  - intros w' [= <-]. split; try done; cbn.
    + rewrite Ec fmap_app. cbn. set_solver.
    + lia.
    + rewrite Et. congruence.
  - lia.
  - done.
  - lia.
  - rewrite Et. lia.
  - exists (qc ++ qt), []. split_and!; [done| |by rewrite app_nil_r].
    rewrite /tail_q /tail_start Et /=.
    destruct (Z.eqb_spec (tail_block_id info) (b_id b)); [done|]. split; [done|constructor].
Qed.

(** * Reads *)

(** The fields of a reader entry that matter for delivery. *)
Definition same_position (i i' : ColReaderInfo) : Prop :=
  chain i' = chain i ∧ cur_idx i' = cur_idx i ∧ cur_off i' = cur_off i ∧
  tail_block_id i' = tail_block_id i ∧ tail_offset i' = tail_offset i.

Lemma topic_ok_same g s nid sched t i i' w q :
  same_position i i' → topic_ok g s nid sched t i w q → topic_ok g s nid sched t i' w q.
Proof.
  intros (Ec & Ei & Eo & Et & Ef) [Hc Hw Hi Ho He Ht (qc & qt & Hqc & Hqt & ->)].
  split; rewrite ?Ec ?Ei ?Eo ?Et //.
  - intros w' []%Hw. split; rewrite ?Ec ?Ei ?Et //.
  - exists qc, qt. split_and!; try done. by rewrite /tail_q /tail_start Et Ef.
Qed.

Lemma chain_q_drop s c idx off q b :
  c !! idx = Some b → chain_q s c idx off q →
  ∃ q1 q2, seg s b off (b_used b) q1 ∧ blocks_q s (drop (S idx) c) q2 ∧ q = q1 ++ q2.
Proof. intros Hb. rewrite /chain_q (drop_S c b idx Hb). done. Qed.

Lemma blocks_chain_q s c idx q : blocks_q s (drop idx c) q → chain_q s c idx 0 q.
Proof.
  rewrite /chain_q. intros (ess & Hf & ->). destruct (drop idx c) as [|b bs].
  - by inversion Hf.
  - inversion Hf as [|? es ? ess' Hs Hf']; subst. exists es, (concat ess'). split_and!; [done| |done].
    by exists ess'.
Qed.

Lemma topic_ok_advance g s nid sched t info w q b :
  topic_ok g s nid sched t info w q → chain info !! cur_idx info = Some b →
  b_used b ≤ cur_off info → topic_ok g s nid sched t (set_pos (S (cur_idx info)) 0 info) w q.
Proof.
  intros [Hc Hw Hi Ho He Ht (qc & qt & Hqc & Hqt & ->)] Hb Hu.
  pose proof (lookup_lt_Some _ _ _ Hb).
  apply (chain_q_drop _ _ _ _ _ _ Hb) in Hqc as (q1 & q2 & Hs1 & Hs2 & ->).
  assert (q1 = []) as ->.
  { destruct (decide (q1 = [])) as [|Hne]; [done|]. apply (seg_lt _ _ _ _ _ Hs1) in Hne. lia. }
  split; try done; cbn.
  - intros w' Ew. destruct (Hw w' Ew). split; try done. cbn. intros ?%wo_tail0. lia.
  - exists q2, qt. split_and!; [by apply blocks_chain_q|done|done].
Qed.

Lemma topic_ok_read_chain g s nid sched t info w q b :
  topic_ok g s nid sched t info w q → chain info !! cur_idx info = Some b →
  cur_off info < b_used b →
  ∃ d q', q = d :: q' ∧ Block_read b (cur_off info) s = (Ok (d, entry_need d), s) ∧
    topic_ok g s nid sched t (set_pos (cur_idx info) (cur_off info + entry_need d) info) w q'.
Proof.
  intros [Hc Hw Hi Ho He Ht (qc & qt & Hqc & Hqt & ->)] Hb Hu.
  pose proof (lookup_lt_Some _ _ _ Hb).
  apply (chain_q_drop _ _ _ _ _ _ Hb) in Hqc as (q1 & q2 & Hs1 & Hs2 & ->).
  inversion Hs1 as [|? ? d ds Hr Hs]; subst; [lia|]. exists d, (ds ++ q2 ++ qt).
  split_and!; [by rewrite -app_assoc|by rewrite -Hr -{3}(Block_read_state b (cur_off info) s); destruct (Block_read _ _ _)|].
  pose proof (entry_need_pos d). split; try done; cbn; [by intros w' []%Hw|lia|lia|].
  exists (ds ++ q2), qt. split_and!; [|done|by rewrite app_assoc].
  rewrite /chain_q (drop_S _ b) //. by exists ds, q2.
Qed.

Lemma tail_start_set off info w :
  tail_start (set_tail (b_id (current_block w)) off info) w = off.
Proof. by rewrite /tail_start /= Z.eqb_refl. Qed.

Lemma topic_ok_read_tail g s nid sched t info w q :
  topic_ok g s nid sched t info (Some w) q → chain info !! cur_idx info = None →
  b_id (current_block w) < nid →
  if tail_start info w <? current_offset w then
    ∃ d q', q = d :: q' ∧
      Block_read (current_block w) (tail_start info w) s = (Ok (d, entry_need d), s) ∧
      topic_ok g s nid sched t
        (set_tail (b_id (current_block w)) (tail_start info w + entry_need d) info) (Some w) q'
  else q = [].
Proof.
  intros [Hc Hw Hi Ho He Ht (qc & qt & Hqc & [Hz Hqt] & ->)] Hb Hid.
  apply lookup_ge_None in Hb. rewrite /chain_q drop_ge // in Hqc. subst qc.
  destruct (Z.ltb_spec (tail_start info w) (current_offset w)).
  - inversion Hqt as [|? ? d ds Hr Hs]; subst; [lia|]. exists d, ds. split_and!; [done| |].
    { rewrite -Hr -{3}(Block_read_state (current_block w) (tail_start info w) s).
      by destruct (Block_read _ _ _). }
    pose proof (entry_need_pos d). split; try done; cbn.
    + intros w' Ew. destruct (Hw w' Ew). split; try done. cbn. intros _. lia.
    + exists [], ds. split; [by rewrite /chain_q drop_ge|]. split; [|done].
      rewrite tail_start_set. split; [lia|done].
  - cbn. destruct (decide (qt = [])) as [|Hne]; [done|]. apply (seg_lt _ _ _ _ _ Hqt) in Hne. lia.
Qed.

Lemma topic_ok_no_writer g s nid sched t info q :
  topic_ok g s nid sched t info None q → chain info !! cur_idx info = None → q = [].
Proof.
  intros [Hc Hw Hi Ho He Ht (qc & qt & Hqc & -> & ->)] Hb.
  apply lookup_ge_None in Hb. rewrite /chain_q drop_ge // in Hqc. by subst qc.
Qed.
End topic_laws.
