(* ===== verification/Core.v ===== *)
(** The invariant of all topics together, and the write path: single writes and batches.

    The part of the state the writers share (allocator and files, reader entries, writers) is
    related to a queue per topic; the theorems on the whole engine are in [Fifo]. *)

From S2P Require Import Prelude Config Storage Block Trackers Allocator Index Reader Writer TopicInv.

#[local] Open Scope Z_scope.

(** * States that differ in file contents only *)

Record fs_env_eq (s s' : Fs) : Prop := {
  fe_keeper_read : keeper_read s' = keeper_read s;
  fe_keeper : keeper s' = keeper s;
  fe_millis : LAST_MILLIS s' = LAST_MILLIS s;
  fe_now : env_now s' = env_now s;
  fe_create : env_create_ok s' = env_create_ok s;
  fe_flush : env_flush_ok s' = env_flush_ok s;
  fe_backend : USE_FD_BACKEND s' = USE_FD_BACKEND s;
}.

#[global] Instance fs_env_eq_equiv : Equivalence fs_env_eq.
Proof.
  split; [by intros s|by intros s s' []|].
  intros s1 s2 s3 [] []. split; by etrans.
Qed.

Lemma fs_env_eq_put p off data s : fs_env_eq s (fs_put p off data s).
Proof. done. Qed.

Lemma made_env pm s s' p : fs_env_eq s s' → made pm s p → made pm s' p.
Proof. intros [] (k & -> & Hk). exists k. split; [done|]. lia. Qed.

Lemma fs_inv_env s s' : fs_env_eq s s' → fs_inv s → fs_inv s'.
Proof. intros [Hr Hk Hm Hn _ _ Hb] []. split; by rewrite ?Hr ?Hk ?Hm ?Hn ?Hb. Qed.

(** Log files do not shrink. *)
Definition logs_kept (pm : WalPathManager) (s s' : Fs) : Prop :=
  ∀ p, made pm s p → f_len (file_of s p) ≤ f_len (file_of s' p).

Lemma logs_kept_refl pm s : logs_kept pm s s.
Proof. intros p _. lia. Qed.

Lemma logs_kept_put pm p off data s : logs_kept pm s (fs_put p off data s).
Proof.
  intros p' _. destruct (decide (p = p')) as [<-|]; [|by rewrite file_of_put_other].
  rewrite file_of_put_same /=. lia.
Qed.

Lemma alloc_inv_env e s' trk :
  fs_env_eq (ae_fs e) s' → logs_kept (paths (ae_alloc e)) (ae_fs e) s' → alloc_inv e →
  alloc_inv (MkAllocEnv s' trk (ae_alloc e)).
Proof.
  intros Hs Hk []. split; try done;
    [by eapply fs_inv_env|by rewrite (fe_backend _ _ Hs)|by eapply made_env|]. etrans; [done|by apply Hk].
Qed.

Lemma owned_env e s' trk b :
  fs_env_eq (ae_fs e) s' → logs_kept (paths (ae_alloc e)) (ae_fs e) s' → owned e b →
  owned (MkAllocEnv s' trk (ae_alloc e)) b.
Proof.
  intros Hs Hk []. split; try done; [by rewrite (fe_backend _ _ Hs)|by eapply made_env|].
  etrans; [done|by apply Hk].
Qed.

(** The environment answers every request, and [n] more file names are left. *)
Record env_good (n : Z) (s : Fs) : Prop := {
  eg_create : env_create_ok s = true;
  eg_flush : env_flush_ok s = true;
  eg_time : time_budget n s;
}.

Lemma env_good_le n m s : env_good n s → m ≤ n → env_good m s.
Proof. intros [?? []] ?. split; [done..|]. split; lia. Qed.

Lemma env_good_eq n s s' : fs_env_eq s s' → env_good n s → env_good n s'.
Proof. intros [] [?? []]. split; [congruence..|]. split; lia. Qed.

Lemma env_good_grows pm n s s' : 0 ≤ n → fs_grows pm s s' → env_good (n + 1) s → env_good n s'.
Proof.
  intros Hn Hg []. split; [by rewrite (fg_create _ _ _ Hg)|by rewrite (fg_flush _ _ _ Hg)|].
  by eapply time_budget_grows.
Qed.

(** * The invariant *)

Definition info_of (r : Reader) (t : string) : ColReaderInfo := default new_info (r !! t).

(** The entries of a topic that were appended and not yet consumed. *)
Definition queues := gmap string (list (list Z)).
Definition pending (σ : queues) (t : string) : list (list Z) := default [] (σ !! t).

Lemma pending_insert σ t q : pending (<[t := q]> σ) t = q.
Proof. by rewrite /pending lookup_insert_eq. Qed.
Lemma pending_insert_ne σ t t' q : t ≠ t' → pending (<[t := q]> σ) t' = pending σ t'.
Proof. intros. by rewrite /pending lookup_insert_ne. Qed.

Lemma info_of_insert r t i : info_of (<[t := i]> r) t = i.
Proof. by rewrite /info_of lookup_insert_eq. Qed.
Lemma info_of_insert_ne r t t' i : t ≠ t' → info_of (<[t := i]> r) t' = info_of r t'.
Proof. intros. by rewrite /info_of lookup_insert_ne. Qed.

Lemma append_block_to_chain_eq t b r :
  append_block_to_chain t b r = <[t := push_block b (info_of r t)]> r.
Proof. rewrite /append_block_to_chain /info_of. by destruct (r !! t). Qed.

Definition next_id (e : AllocEnv) : Z := b_id (next_block (ae_alloc e)).

Section core.
Context `{MetaCodecLaws}.

Record core_inv (g : ghost) (e : AllocEnv) (s : Fs) (r : Reader) (ws : gmap string Writer)
    (sched : FsyncSchedule) (σ : queues) : Prop := {
  ci_alloc : alloc_inv e;
  ci_ghost : ghost_ok e g;
  ci_topic : ∀ t, topic_ok g s (next_id e) sched t (info_of r t) (ws !! t) (pending σ t);
}.

(** Replacing the state of one topic. *)
Lemma core_inv_update g e s r r' ws sched σ σ' t w q :
  core_inv g e s r ws sched σ →
  topic_ok g s (next_id e) sched t (info_of r' t) (Some w) q →
  (∀ t', t' ≠ t → info_of r' t' = info_of r t') →
  pending σ' t = q → (∀ t', t' ≠ t → pending σ' t' = pending σ t') →
  core_inv g e s r' (<[t := w]> ws) sched σ'.
Proof.
  intros [Ha Hg Ht] Hn Hr Hq Hqs. split; [done..|]. intros t'.
  destruct (decide (t' = t)) as [->|Hne].
  - by rewrite lookup_insert_eq Hq.
  - by rewrite Hr // lookup_insert_ne // Hqs.
Qed.

Lemma core_inv_info g e s r r' ws sched σ σ' t q :
  core_inv g e s r ws sched σ →
  topic_ok g s (next_id e) sched t (info_of r' t) (ws !! t) q →
  (∀ t', t' ≠ t → info_of r' t' = info_of r t') →
  pending σ' t = q → (∀ t', t' ≠ t → pending σ' t' = pending σ t') →
  core_inv g e s r' ws sched σ'.
Proof.
  intros [Ha Hg Ht] Hn Hr Hq Hqs. split; [done..|]. intros t'.
  destruct (decide (t' = t)) as [->|Hne]; [by rewrite Hq|by rewrite Hr // Hqs].
Qed.

(** Changes of the trackers, and of files that hold no block. *)
Lemma core_inv_env g e s s' r ws sched σ trk :
  core_inv g e s r ws sched σ → fs_env_eq (ae_fs e) s' → logs_kept (paths (ae_alloc e)) (ae_fs e) s' →
  core_inv g (MkAllocEnv s' trk (ae_alloc e)) s r ws sched σ.
Proof.
  intros [Ha Hg Ht] Hs Hk. split; [by apply alloc_inv_env| |done].
  destruct Hg as [Ho Hd]. split; [|done]. intros id t b [??]%Ho. split; [|done]. by apply owned_env.
Qed.

Lemma core_inv_files g e s s' r ws sched σ :
  core_inv g e s r ws sched σ → (∀ t, undisturbed g t s s') → core_inv g e s' r ws sched σ.
Proof.
  intros [Ha Hg Ht] Hu. split; [done..|]. intros t.
  eapply (topic_ok_frame e g); [done| |done|done|done]. by eapply undisturbed_agree.
Qed.

(** A handout leaves every topic as it was; [s] may be ahead of the real files by writes
    inside known blocks. *)
Lemma core_inv_handout g e e' s s' r ws sched σ t b :
  core_inv g e s r ws sched σ → handed e e' b →
  (∀ t', undisturbed g t' s s') →
  core_inv (<[b_id b := (t, b)]> g) e' s' r ws sched σ ∧
  holds (<[b_id b := (t, b)]> g) t b ∧ b_id b = next_id e ∧ next_id e' = b_id b + 1.
Proof.
  intros [Ha Hg Ht] Hh Hu. pose proof (hd_id _ _ _ Hh) as Hid. pose proof (hd_used _ _ _ Hh) as Hus.
  assert (g !! b_id b = None) as Hnone.
  { destruct (g !! b_id b) as [[t' b']|] eqn:E; [|done]. destruct (g_owned _ _ Hg _ _ _ E) as [Ho Hb'].
    pose proof (ow_id _ _ Ho). lia. }
  assert (set_used 0 b = b) as Hset by (destruct b; cbn in *; by subst).
  split_and!; [|by rewrite /holds Hset lookup_insert_eq|done|apply Hh].
  split; [apply Hh| |].
  - split.
    + intros id t' b' [[<- [= <- <-]]|[Hne Hl]]%lookup_insert_Some; [by split; [apply Hh|]|].
      destruct (g_owned _ _ Hg _ _ _ Hl) as [Ho ?]. split; [|done]. by eapply hd_old.
    + intros id id' t1 t2 b1 b2 [[<- [= <- <-]]|[Hne Hl]]%lookup_insert_Some
        [[<- [= <- <-]]|[Hne' Hl']]%lookup_insert_Some Hids; try done.
      * eapply hd_disjoint; [done|]. by apply Hg in Hl' as [].
      * symmetry. eapply hd_disjoint; [done|]. by apply Hg in Hl as [].
      * by eapply (g_disj _ _ Hg id id').
  - intros t'. eapply (topic_ok_frame e _ _ _ _ (next_id e)); [done|by eapply undisturbed_agree| |rewrite /next_id (hd_next _ _ _ Hh); lia|done].
    intros b' Hb'. rewrite /holds lookup_insert_ne //. rewrite /holds in Hb'. congruence.
Qed.

(** A fresh id is not in any chain. *)
Lemma core_inv_fresh_chain g e s r ws sched σ t :
  core_inv g e s r ws sched σ → Forall (λ id, id < next_id e) (b_id <$> chain (info_of r t)).
Proof.
  intros [Ha Hg Ht]. apply Forall_fmap. eapply Forall_impl; [apply (Ht t)|]. intros b [Hb _].
  apply Hg in Hb as [Ho _]. pose proof (ow_id _ _ Ho). cbn in *. rewrite /next_id. lia.
Qed.

Lemma core_inv_fresh_active g e s r ws sched σ t w :
  core_inv g e s r ws sched σ → ws !! t = Some w → b_id (current_block w) < next_id e.
Proof.
  intros [Ha Hg Ht] Hw. destruct (to_writer _ _ _ _ _ _ _ _ (Ht t) w Hw) as [Hb _ _ _ _ _ _].
  apply Hg in Hb as [Ho _]. pose proof (ow_id _ _ Ho). cbn in *. rewrite /next_id. lia.
Qed.

(** A write that starts at the end of the active block and ends inside it. *)
Lemma core_inv_put g e s r ws sched σ t w data :
  core_inv g e s r ws sched σ → ws !! t = Some w →
  current_offset w + len data ≤ b_limit (current_block w) →
  core_inv g e (fs_put (b_file_path (current_block w))
                  (b_offset (current_block w) + current_offset w) data s) r ws sched σ.
Proof.
  intros [Ha Hg Ht] Hw Hl. split; [done..|]. intros t'.
  destruct (to_writer _ _ _ _ _ _ _ _ (Ht t) w Hw) as [Hcb Hfresh _ _ _ Hoff _].
  set s' := fs_put _ _ _ _.
  assert (∀ t1 b, holds g t1 b → b_id b ≠ b_id (current_block w) → block_agree s s' b (b_limit b))
    as Hother.
  { intros t1 b Hb Hne. apply agree_put.
    pose proof (g_disj _ _ Hg _ _ _ _ _ _ Hb Hcb Hne) as Hd. rewrite /block_disjoint /= in Hd.
    destruct Hd as [?|[?|?]]; [by left; congruence|right; left; lia|right; right; lia]. }
  eapply (topic_ok_frame e g); [done| |done|done|apply Ht].
  destruct (decide (t' = t)) as [->|Hne].
  - split.
    + apply Forall_forall. intros b Hb. pose proof (to_chain _ _ _ _ _ _ _ _ (Ht t)) as Hc.
      rewrite Forall_forall in Hc. apply (Hother t); [by apply Hc|].
      intros Heq. apply Hfresh. rewrite -Heq. by apply list_elem_of_fmap_2.
    + intros w' Hw'. simplify_eq. apply agree_put. right. left. lia.
  - eapply undisturbed_agree; [|apply Ht]. intros b Hb. apply (Hother t'); [done|].
    rewrite /holds in Hb Hcb. congruence.
Qed.

(** * One entry *)

(** The record of an entry fits in a header, and the entry in a log file. *)
Definition fits (t : string) (d : list Z) : Prop :=
  entry_need d ≤ MAX_FILE_SIZE ∧
  ∀ nbs, is_u64 nbs → ∃ bs, to_bytes (new_meta d t nbs) = Some bs ∧ len bs ≤ PREFIX_META_SIZE - 2.

(** The bytes of an entry of topic [t] in block [b]. *)
Definition entry_bytes (t : string) (b : Block) (d : list Z) : option (list Z) :=
  bs ← to_bytes (new_meta d t (b_offset b + b_limit b));
  buf ← meta_buffer bs;
  Some (buf ++ d).

Lemma owned_next_start e b : owned e b → is_u64 (b_offset b + b_limit b).
Proof. intros []. rewrite /is_u64. consts. Qed.

Lemma owned_in_range e b off n :
  owned e b → off + n ≤ b_limit b → in_range (b_mmap b) (b_offset b + off) n.
Proof. intros [[_ Hh] _ _ _ He _ _ _] Hn. destruct (b_mmap b); cbn in *; [|done]. lia. Qed.

Lemma fits_u64 t d : fits t d → is_u64 (len d).
Proof.
  intros [Hl _]. pose proof (len_nonneg d). rewrite /entry_need in Hl. rewrite /is_u64. consts.
Qed.

Lemma entry_bytes_ok e t b d :
  owned e b → fits t d → ∃ data, entry_bytes t b d = Some data ∧ len data = entry_need d.
Proof.
  intros Ho [_ Hf]. destruct (Hf _ (owned_next_start _ _ Ho)) as (bs & Hb & Hlen).
  rewrite /entry_bytes Hb /=.
  assert (is_Some (meta_buffer bs)) as [buf Hbuf].
  { rewrite /meta_buffer. case_match eqn:E; [by eexists|]. lia. }
  rewrite Hbuf /=. eexists. split; [done|]. by rewrite len_app (len_meta_buffer _ _ Hbuf).
Qed.

(** Putting the bytes of an entry at the end of the active block appends it to the queue. *)
Lemma core_inv_entry g e s r ws sched σ t w d data :
  core_inv g e s r ws sched σ → ws !! t = Some w → fits t d →
  entry_bytes t (current_block w) d = Some data →
  current_offset w + entry_need d ≤ b_limit (current_block w) →
  core_inv g e (fs_put (b_file_path (current_block w))
                  (b_offset (current_block w) + current_offset w) data s)
    r (<[t := set_offset (current_offset w + entry_need d) w]> ws) sched
    (<[t := pending σ t ++ [d]]> σ).
Proof.
  intros Hi Hw Hf Hd Hl. pose proof (ci_ghost _ _ _ _ _ _ _ Hi) as Hg.
  destruct (to_writer _ _ _ _ _ _ _ _ (ci_topic _ _ _ _ _ _ _ Hi t) w Hw) as [Hcb _ _ _ _ _ _].
  apply Hg in Hcb as [Ho _]. set b := current_block w in Ho Hd Hl |- *.
  assert (owned e b) as Hob by by destruct Ho.
  destruct (entry_bytes_ok e t b d Hob Hf) as (data' & Hd' & Hlen). simplify_eq.
  rewrite /entry_bytes in Hd. destruct (to_bytes _) as [bs|] eqn:Hbs; [|done].
  cbn in Hd. destruct (meta_buffer bs) as [buf|] eqn:Hbuf; [|done]. injection Hd as <-.
  eapply core_inv_update; [eapply core_inv_put; [done..|by rewrite Hlen]| |done| |].
  - apply topic_ok_write; [|  |done].
    + rewrite -Hw. eapply core_inv_put; [done..|by rewrite Hlen].
    + assert (st_path (b_mmap b) = b_file_path b) as Hp by apply Hob.
      rewrite -Hp. fold b. erewrite Block_read_put; [done|done|done| |by eapply fits_u64|by eapply owned_next_start].
      eapply owned_in_range; [done|]. exact Hl.
  - by rewrite pending_insert.
  - intros t' Hne. by rewrite pending_insert_ne.
Qed.

Lemma Block_write_entry e t b off d data s :
  owned e b → fits t d → entry_bytes t b d = Some data → off + entry_need d ≤ b_limit b →
  Block_write b off d t (b_offset b + b_limit b) s =
    (Ok tt, fs_put (b_file_path b) (b_offset b + off) data s).
Proof.
  intros Ho [_ Hf] Hd Hl. destruct (Hf _ (owned_next_start _ _ Ho)) as (bs & Hb & Hlen).
  destruct (Block_write_ok b off d t (b_offset b + b_limit b) s bs) as (buf & Hbuf & ->); [done|done| |].
  { by eapply owned_in_range. }
  rewrite /entry_bytes Hb /= Hbuf /= in Hd. injection Hd as <-.
  by replace (st_path (b_mmap b)) with (b_file_path b) by (symmetry; apply Ho).
Qed.

(** * Switching to a fresh block *)

Lemma handed_trk trk e e' b : handed (ae_set_trk trk e) e' b → handed e e' b.
Proof.
  intros [H1 H2 H3 H4 H5 H6 H7 H8 H9]. split; try done.
  - intros b' Hb'. apply H8. by destruct Hb'.
  - intros b' Hb'. apply H9. by destruct Hb'.
Qed.

(** File contents, where the topics' blocks are, after files were only added. *)
Lemma grows_undisturbed e g s' t :
  ghost_ok e g → fs_grows (paths (ae_alloc e)) (ae_fs e) s' → undisturbed g t (ae_fs e) s'.
Proof.
  intros Hg Hgr b Hb i Hi. apply Hg in Hb as [Ho _].
  rewrite (fg_files _ _ _ Hgr) //. apply (ow_made _ _ Ho).
Qed.

Lemma core_inv_switch g e e' s s' r ws sched σ t w b u :
  core_inv g e s r ws sched σ → ws !! t = Some w → handed e e' b →
  (∀ t', undisturbed g t' s s') → u = current_offset w →
  core_inv (<[b_id b := (t, b)]> g) e' s'
    (append_block_to_chain t (set_used u (current_block w)) r)
    (<[t := set_offset 0 (set_block b w)]> ws) sched σ.
Proof.
  intros Hi Hw Hh Hu ->.
  destruct (core_inv_handout g e e' s s' r ws sched σ t b Hi Hh Hu) as (Hi' & Hb & Hid & Hnext).
  pose proof (core_inv_fresh_active _ _ _ _ _ _ _ _ _ Hi Hw) as Hact.
  pose proof (core_inv_fresh_chain _ _ _ _ _ _ _ t Hi) as Hch.
  rewrite append_block_to_chain_eq.
  eapply core_inv_update; [done| | |done|done].
  - rewrite info_of_insert Hnext. pose proof (ci_topic _ _ _ _ _ _ _ Hi' t) as Ht.
    rewrite Hw in Ht. eapply (topic_ok_seal _ _ (next_id e)); [|done|lia| |lia|apply (hd_owned _ _ _ Hh)].
    + destruct Ht as [Hc Hwr ? ? ? _ ?]. split; try done.
      apply (to_tail _ _ _ _ _ _ _ _ (ci_topic _ _ _ _ _ _ _ Hi t)).
    + intros Hin. rewrite Forall_forall in Hch. apply Hch in Hin. lia.
  - intros t' Hne. by rewrite info_of_insert_ne.
Qed.

Lemma seal_current_ok u e r tx w :
  env_flush_ok (ae_fs e) = true →
  seal_current u (MkWEnv e r tx w) =
    (Ok tt, MkWEnv (ae_set_trk (set_block_unlocked (b_id (current_block w)) (ae_trk e)) e)
              (append_block_to_chain (col w) (set_used u (current_block w)) r) tx w).
Proof.
  intros Hf. rewrite /seal_current /bind /self /on_trackers /on_files /on_alloc /on_fs /on_trk /zoom /=.
  by rewrite /storage_flush Hf.
Qed.

(** A block for [want] bytes, in an environment that answers. *)
Lemma alloc_step want e n :
  alloc_inv e → 0 < want ≤ MAX_FILE_SIZE → 0 ≤ n → env_good (n + 1) (ae_fs e) →
  ∃ b e', alloc_block want e = (Ok b, e') ∧ handed e e' b ∧ env_good n (ae_fs e') ∧ want ≤ b_limit b.
Proof.
  intros Ha Hw Hn Hg. destruct (alloc_block_ok want e) as (b & e' & E & Hh & Hl); [done|done|apply Hg| |].
  { destruct (eg_time _ _ Hg). lia. }
  exists b, e'. split_and!; [done|done| |].
  - eapply env_good_grows; [done|apply Hh|done].
  - rewrite Hl. pose proof (alloc_units_bounds want). lia.
Qed.

(** Sealing and switching as the code does it, in one step. *)
Lemma switch_step g e r tx ws sched σ t w s want n u :
  core_inv g e s r ws sched σ → ws !! t = Some w → 0 < want ≤ MAX_FILE_SIZE → 0 ≤ n →
  env_good (n + 1) (ae_fs e) →
  ∃ b e' e1, handed e e' b ∧ want ≤ b_limit b ∧ env_good n (ae_fs e') ∧
    seal_current u (MkWEnv e r tx w) = (Ok tt, e1) ∧
    on_alloc (alloc_block want) e1 =
      (Ok b, MkWEnv e' (append_block_to_chain t (set_used u (current_block w)) r) tx w).
Proof.
  intros Hi Hw Hwant Hn Hg.
  destruct (to_writer _ _ _ _ _ _ _ _ (ci_topic _ _ _ _ _ _ _ Hi t) w Hw) as [_ _ Hcol _ _ _ _].
  set trk := set_block_unlocked (b_id (current_block w)) (ae_trk e).
  destruct (alloc_step want (ae_set_trk trk e) n) as (b & e' & E & Hh & Hg' & Hl); [|done|done|done|].
  { apply (alloc_inv_env e); [done|apply logs_kept_refl|apply Hi]. }
  eexists b, e', _. split_and!; [by eapply handed_trk|done|done|apply seal_current_ok, Hg|].
  by rewrite /on_alloc /zoom /= -/trk E /= Hcol.
Qed.

(** * Writer::write *)

(** The part after the switch: the entry is put at the end of the active block. *)
Lemma write_tail_ok g e r tx ws sched σ t w d n :
  core_inv g e (ae_fs e) r ws sched σ → ws !! t = Some w → fits t d →
  current_offset w + entry_need d ≤ b_limit (current_block w) → env_good n (ae_fs e) →
  ∃ e' tx' w',
    (let! w := self in
     let block := current_block w in
     on_files (Block_write block (current_offset w) d (col w) (b_offset block + b_limit block));;
     on_self (λ w, set_offset (current_offset w + entry_need d) w);;
     match w_schedule w with
     | SyncEach => on_files (storage_flush (b_mmap block))
     | Milliseconds _ => publish (b_file_path block)
     | NoFsync => ret tt
     end) (MkWEnv e r tx w) = (Ok tt, MkWEnv e' r tx' w') ∧
    core_inv g e' (ae_fs e') r (<[t := w']> ws) sched (<[t := pending σ t ++ [d]]> σ) ∧
    env_good n (ae_fs e') ∧ ae_alloc e' = ae_alloc e.
Proof.
  intros Hi Hw Hf Hl Hg. pose proof (ci_ghost _ _ _ _ _ _ _ Hi) as Hgh.
  destruct (to_writer _ _ _ _ _ _ _ _ (ci_topic _ _ _ _ _ _ _ Hi t) w Hw) as [Hcb _ Hcol _ _ _ _].
  apply Hgh in Hcb as [Ho _]. assert (owned e (current_block w)) as Hob by by destruct Ho.
  destruct (entry_bytes_ok e t (current_block w) d Hob Hf) as (data & Hd & Hlen).
  set s' := fs_put (b_file_path (current_block w)) (b_offset (current_block w) + current_offset w) data (ae_fs e).
  set w' := set_offset (current_offset w + entry_need d) w.
  assert (core_inv g (ae_set_fs s' e) s' r (<[t := w']> ws) sched (<[t := pending σ t ++ [d]]> σ)) as Hi'.
  { apply (core_inv_env g e); [|done|apply logs_kept_put]. by apply core_inv_entry. }
  exists (ae_set_fs s' e), (match w_schedule w with Milliseconds _ => tx ++ [b_file_path (current_block w)] | _ => tx end), w'.
  split_and!; [|done|by eapply env_good_eq; [apply fs_env_eq_put|]|done].
  rewrite /bind /self /on_files /on_alloc /on_fs /zoom /= Hcol (Block_write_entry e t _ _ d data) //=.
  destruct (w_schedule w); try done. by rewrite /storage_flush /= (eg_flush _ _ Hg).
Qed.

Lemma Writer_write_ok g e r tx ws sched σ t w d n :
  core_inv g e (ae_fs e) r ws sched σ → ws !! t = Some w → fits t d → 0 ≤ n →
  env_good (n + 1) (ae_fs e) →
  ∃ g' e' r' tx' w', Writer_write d (MkWEnv e r tx w) = (Ok tt, MkWEnv e' r' tx' w') ∧
    core_inv g' e' (ae_fs e') r' (<[t := w']> ws) sched (<[t := pending σ t ++ [d]]> σ) ∧
    env_good n (ae_fs e') ∧ paths (ae_alloc e') = paths (ae_alloc e) ∧
    (∀ t', hydrated_from_index (info_of r' t') = hydrated_from_index (info_of r t')).
Proof.
  intros Hi Hw Hf Hn Hg. pose proof (entry_need_pos d) as Hpos.
  destruct (to_writer _ _ _ _ _ _ _ _ (ci_topic _ _ _ _ _ _ _ Hi t) w Hw) as [_ _ Hcol _ Hbw Hoff _].
  rewrite /Writer_write {1}/bind {1}/self. cbn [we_self]. rewrite Hbw.
  change (PREFIX_META_SIZE + len d) with (entry_need d).
  destruct (Z.gtb_spec (current_offset w + entry_need d) (b_limit (current_block w))) as [Hbig|Hfit].
  - destruct (switch_step g e r tx ws sched σ t w (ae_fs e) (entry_need d) n (current_offset w))
      as (b & e1 & e0 & Hh & Hlim & Hg1 & E0 & E); [done|done|destruct Hf; lia|done|done|].
    pose proof (core_inv_switch g e e1 _ (ae_fs e1) r ws sched σ t w b _ Hi Hw Hh
      (λ t', grows_undisturbed _ _ _ t' (ci_ghost _ _ _ _ _ _ _ Hi) (hd_fs _ _ _ Hh)) eq_refl) as Hi1.
    set r1 := append_block_to_chain _ _ _ in E Hi1.
    set w1 := set_offset 0 (set_block b w) in Hi1.
    destruct (write_tail_ok _ e1 r1 tx _ sched σ t w1 d n Hi1) as (e' & tx' & w' & E' & Hi' & Hg' & Hal);
      [by rewrite lookup_insert_eq|done|cbn; lia|done|].
    rewrite insert_insert_eq in Hi'.
    eexists _, e', r1, tx', w'. split_and!; [|done|done|by rewrite Hal (hd_paths _ _ _ Hh)|].
    + by rewrite -E' /bind E0 E.
    + intros t'. rewrite /r1 append_block_to_chain_eq.
      destruct (decide (t' = t)) as [->|]; [rewrite info_of_insert|by rewrite info_of_insert_ne].
      rewrite /push_block. by case_match.
  - destruct (write_tail_ok g e r tx ws sched σ t w d n) as (e' & tx' & w' & E' & Hi' & Hg' & Hal);
      [done|done|done|done|eapply env_good_le; [done|lia]|].
    exists g, e', r, tx', w'. split_and!; try done. by rewrite Hal.
Qed.
End core.

(** * An entry that is too large *)

Section oversized.
Context `{MetaCodec}.

(** an append of more than 1 GiB (header included) to a topic fails, but only after the
    active block was sealed and appended to the reader's chain. The writer keeps the same
    block as its active block, so its entries are reachable twice: through the chain and
    as the tail. *)
Theorem oversized_write_seals_active d e :
  let w := we_self e in
  is_batch_writing w = false → MAX_ALLOC < PREFIX_META_SIZE + len d →
  0 ≤ current_offset w → b_limit (current_block w) ≤ MAX_ALLOC →
  env_flush_ok (ae_fs (we_alloc e)) = true →
  ∃ e', Writer_write d e =
      (Err (IoError KInvalidInput "invalid allocation size, a single entry can't be more than 1gb"), e') ∧
    we_self e' = w ∧
    chain (info_of (we_reader e') (col w)) =
      chain (info_of (we_reader e) (col w)) ++ [set_used (current_offset w) (current_block w)].
Proof.
  intros w Hb Hbig Ho Hl Hf. destruct e as [a r tx w0]; cbn in *. subst w.
  rewrite /Writer_write {1}/bind {1}/self. cbn [we_self]. rewrite Hb.
  destruct (Z.gtb_spec (current_offset w0 + (PREFIX_META_SIZE + len d)) (b_limit (current_block w0))); [|lia].
  eexists. split; [|split].
  - rewrite /bind seal_current_ok //= /on_alloc /zoom /alloc_block.
    rewrite (proj2 (Z.eqb_neq _ _)); [consts|]. rewrite (proj2 (Z.gtb_lt _ _)) //.
  - done.
  - cbn. rewrite append_block_to_chain_eq info_of_insert.
    by destruct (push_block_eq (set_used (current_offset w0) (current_block w0)) (info_of r (col w0))) as [-> _].
Qed.
End oversized.
