(* ===== verification/Batch.v ===== *)
(** Batches: planning, and the two ways of writing a plan.

    Planning seals blocks before anything is written, so the invariant is kept for the
    files as they will be: the real files with the planned writes put in. Once the writes are
    made, both agree. *)

From S2P Require Import Prelude Config Storage Block Trackers Allocator Index Reader Writer TopicInv Core.

#[local] Open Scope Z_scope.

(** * Sequences of writes *)

Definition putw : Type := string * Z * list Z.

Definition puts (ws : list putw) (s : Fs) : Fs :=
  foldl (λ s w, fs_put w.1.1 w.1.2 w.2 s) s ws.

Lemma puts_env ws s : fs_env_eq s (puts ws s).
Proof.
  revert s. induction ws as [|w ws IH]; intros s; [done|]. cbn.
  etrans; [apply fs_env_eq_put|apply IH].
Qed.

Lemma puts_kept pm ws s : logs_kept pm s (puts ws s).
Proof.
  revert s. induction ws as [|[[p off] data] ws IH]; intros s; [apply logs_kept_refl|].
  intros p' Hp. etrans; [by apply (logs_kept_put pm p off data)|]. by apply IH.
Qed.

Lemma puts_snoc ws w s : puts (ws ++ [w]) s = fs_put w.1.1 w.1.2 w.2 (puts ws s).
Proof. by rewrite /puts foldl_app. Qed.

(** Where two states have the same file, they have the same file after the same writes. *)
Lemma puts_file_of ws s s' p : file_of s' p = file_of s p → file_of (puts ws s') p = file_of (puts ws s) p.
Proof.
  revert s s'. induction ws as [|[[q o] d] ws IH]; intros s s' E; [done|]. cbn. apply IH.
  destruct (decide (q = p)) as [->|]; [by rewrite !file_of_put_same E|by rewrite !file_of_put_other].
Qed.

(** * The io_uring crate when it works *)

Definition sqe_put (q : Sqe) : putw :=
  (sqe_path q, sqe_off q, take (Z.to_nat (sqe_len q)) (sqe_buf q)).

(** A ring that was created takes as many entries as it was created for, performs every write
    and reports for each entry how much of it was written. *)
Class IoUringReliable `{IoUring} : Prop := {
  uring_push_room cap ring q : len ring < cap → uring_push cap ring q = None;
  uring_submit_writes ring s : ∃ cqes,
    uring_submit_and_wait ring s = (Ok cqes, puts (sqe_put <$> ring) s) ∧
    Forall (λ c, ∃ q, q ∈ ring ∧ cqe_user c = sqe_user q ∧ cqe_result c = sqe_len q) cqes;
}.

Section batch.
Context `{MetaCodecLaws} `{IoUringReliable}.

(** A planned write and the bytes it puts. *)
Definition planned (e : AllocEnv) (t : string) (batch : list (list Z)) (p : plan_entry)
    (pw : putw) : Prop :=
  let '(blk, off, i) := p in
  ∃ d data, batch !! i = Some d ∧ fits t d ∧ owned e blk ∧ off + entry_need d ≤ b_limit blk ∧
    entry_bytes t blk d = Some data ∧ pw = (b_file_path blk, b_offset blk + off, data).

Lemma planned_mono e e' t batch p pw :
  (∀ b, owned e b → owned e' b) → planned e t batch p pw → planned e' t batch p pw.
Proof. intros Ho. destruct p as [[blk off] i]. intros (d & data & ?&?&?&?&?&?). exists d, data. split_and!; auto. Qed.

(** The writer as it will be after the batch. *)
Definition ahead (po : Z) (w : Writer) : Writer := set_batch false (set_offset po w).

Record plan_state (g : ghost) (e : AllocEnv) (r : Reader) (ws : gmap string Writer)
    (sched : FsyncSchedule) (σ : queues) (t : string) (w : Writer) (batch : list (list Z))
    (po : Z) (plan : list plan_entry) (pw : list putw) : Prop := {
  ps_core : core_inv g e (puts pw (ae_fs e)) r (<[t := ahead po w]> ws) sched σ;
  ps_plan : Forall2 (planned e t batch) plan pw;
  ps_index : plan.*2 = seq 0 (length plan);
}.

(** An entry that fits is planned. *)
Lemma plan_state_fit g e r ws sched σ t w batch po plan pw d :
  plan_state g e r ws sched σ t w batch po plan pw → batch !! length plan = Some d → fits t d →
  po + entry_need d ≤ b_limit (current_block w) →
  ∃ pw', plan_state g e r ws sched (<[t := pending σ t ++ [d]]> σ) t w batch (po + entry_need d)
           (plan ++ [(current_block w, po, length plan)]) pw'.
Proof.
  intros [Hc Hp Hx] Hd Hf Hl.
  assert (owned e (current_block w)) as Ho.
  { pose proof (ci_topic _ _ _ _ _ _ _ Hc t) as Ht. rewrite lookup_insert_eq in Ht.
    destruct (to_writer _ _ _ _ _ _ _ _ Ht _ eq_refl) as [Hcb _ _ _ _ _ _].
    apply (ci_ghost _ _ _ _ _ _ _ Hc) in Hcb as [Ho _]. by destruct Ho. }
  destruct (entry_bytes_ok e t (current_block w) d Ho Hf) as (data & Hdata & Hlen).
  exists (pw ++ [(b_file_path (current_block w), b_offset (current_block w) + po, data)]). split.
  - rewrite puts_snoc /=.
    pose proof (core_inv_entry _ _ _ _ _ _ _ t (ahead po w) d data Hc) as Hi.
    rewrite lookup_insert_eq insert_insert_eq in Hi. by apply Hi.
  - apply Forall2_app; [done|]. constructor; [|done]. by exists d, data.
  - rewrite fmap_app Hx length_app seq_app. done.
Qed.

(** A switch to a fresh block. *)
Lemma plan_state_switch g e e' r ws sched σ t w batch po plan pw b :
  plan_state g e r ws sched σ t w batch po plan pw → handed e e' b →
  plan_state (<[b_id b := (t, b)]> g) e' (append_block_to_chain t (set_used po (current_block w)) r)
    ws sched σ t (set_block b w) batch 0 plan pw.
Proof.
  intros [Hc Hp Hx] Hh. split; [| |done].
  - assert (∀ t', undisturbed g t' (puts pw (ae_fs e)) (puts pw (ae_fs e'))) as Hu.
    { intros t' b' Hb' i Hi. apply (ci_ghost _ _ _ _ _ _ _ Hc) in Hb' as [Ho _].
      f_equal. symmetry. apply puts_file_of, (fg_files _ _ _ (hd_fs _ _ _ Hh)), (ow_made _ _ Ho). }
    pose proof (core_inv_switch g e e' _ (puts pw (ae_fs e')) r _ sched σ t (ahead po w) b po Hc) as Hi.
    rewrite lookup_insert_eq insert_insert_eq in Hi. by apply Hi.
  - eapply Forall2_impl; [done|]. intros p pw'. apply planned_mono, (hd_old _ _ _ Hh).
Qed.

(** * The planning loop *)

Lemma plan_state_active g e r ws sched σ t w batch po plan pw :
  plan_state g e r ws sched σ t w batch po plan pw →
  owned e (current_block w) ∧ col w = t ∧ 0 ≤ po ≤ b_limit (current_block w).
Proof.
  intros [Hc _ _]. pose proof (ci_topic _ _ _ _ _ _ _ Hc t) as Ht. rewrite lookup_insert_eq in Ht.
  destruct (to_writer _ _ _ _ _ _ _ _ Ht _ eq_refl) as [Hcb _ Hcol _ _ Hoff _].
  apply (ci_ghost _ _ _ _ _ _ _ Hc) in Hcb as [Ho _]. split_and!; [by destruct Ho|done|apply Hoff..].
Qed.

(** The room left in the active block, as the code computes it. *)
Lemma plan_available g e r ws sched σ t w batch po plan pw :
  plan_state g e r ws sched σ t w batch po plan pw →
  wrap64 (b_limit (current_block w) - po) = b_limit (current_block w) - po.
Proof.
  intros (Ho & _ & Hpo)%plan_state_active. rewrite /wrap64 Z.mod_small //.
  destruct Ho. pose proof (eq_refl : (MAX_FILE_SIZE <? 2 ^ 64) = true). lia.
Qed.

Definition hydration_kept (r r' : Reader) : Prop :=
  ∀ t, hydrated_from_index (info_of r' t) = hydrated_from_index (info_of r t).

Lemma hydration_append t b r : hydration_kept r (append_block_to_chain t b r).
Proof.
  intros t'. rewrite append_block_to_chain_eq.
  destruct (decide (t' = t)) as [->|]; [rewrite info_of_insert|by rewrite info_of_insert_ne].
  rewrite /push_block. by case_match.
Qed.

(** The turn that seals the block and takes another one. *)
Lemma plan_switch_step g e r tx ws sched σ t w batch po plan pw want n :
  plan_state g e r ws sched σ t w batch po plan pw → 0 < want ≤ MAX_FILE_SIZE → 0 ≤ n →
  env_good (n + 1) (ae_fs e) →
  ∃ b e' e1, seal_current po (MkWEnv e r tx w) = (Ok tt, e1) ∧
    on_alloc (alloc_block want) e1 =
      (Ok b, MkWEnv e' (append_block_to_chain t (set_used po (current_block w)) r) tx w) ∧
    handed e e' b ∧ want ≤ b_limit b ∧ env_good n (ae_fs e').
Proof.
  intros Hp Hw Hn Hg. destruct (plan_state_active _ _ _ _ _ _ _ _ _ _ _ _ Hp) as (_ & Hcol & _).
  set trk := set_block_unlocked (b_id (current_block w)) (ae_trk e).
  destruct (alloc_step want (ae_set_trk trk e) n) as (b & e' & E & Hh & Hg' & Hl); [|done|done|done|].
  { apply (alloc_inv_env e); [done|apply logs_kept_refl|apply Hp]. }
  eexists b, e', _. split_and!; [apply seal_current_ok, Hg| |by eapply handed_trk|done|done].
  by rewrite /on_alloc /zoom /= -/trk E /= Hcol.
Qed.

Definition plan_result (fuel : nat) (g : ghost) (e : AllocEnv) (r : Reader) (tx : list string)
    (ws : gmap string Writer) (sched : FsyncSchedule) (σ : queues) (t : string) (w : Writer)
    (batch : list (list Z)) (po : Z) (plan : list plan_entry) (alloc : list Z) (n : Z) : Prop :=
  ∃ g' e' r' w' po' plan' pw' alloc',
    plan_loop fuel (drop (length plan) batch) (length plan) po plan alloc (MkWEnv e r tx w) =
      (Ok (plan', po', alloc'), MkWEnv e' r' tx w') ∧
    plan_state g' e' r' ws sched (<[t := pending σ t ++ drop (length plan) batch]> σ) t w' batch po' plan' pw' ∧
    env_good n (ae_fs e') ∧ paths (ae_alloc e') = paths (ae_alloc e) ∧ hydration_kept r r' ∧
    is_batch_writing w' = is_batch_writing w ∧ length plan' = length batch.

Lemma plan_state_ext g e r ws sched σ σ' t w batch po plan pw :
  (∀ t, pending σ' t = pending σ t) → plan_state g e r ws sched σ t w batch po plan pw →
  plan_state g e r ws sched σ' t w batch po plan pw.
Proof.
  intros Hσ [[Ha Hg Ht] Hp Hx]. split; [|done..]. split; [done..|]. intros t'. by rewrite Hσ.
Qed.

Lemma drop_here {A} (l : list A) k x : l !! k = Some x → drop k l = x :: drop (S k) l.
Proof. apply drop_S. Qed.

(** The turn that plans an entry. *)
Lemma plan_turn_fit fuel g e r tx ws sched σ t w batch po plan pw alloc n d :
  plan_state g e r ws sched σ t w batch po plan pw → batch !! length plan = Some d →
  po + entry_need d ≤ b_limit (current_block w) →
  plan_result fuel g e r tx ws sched (<[t := pending σ t ++ [d]]> σ) t w batch (po + entry_need d)
    (plan ++ [(current_block w, po, length plan)]) alloc n →
  plan_result (S fuel) g e r tx ws sched σ t w batch po plan alloc n.
Proof.
  intros Hp Hd Hl (g' & e' & r' & w' & po' & plan' & pw' & alloc' & E & Hp' & Hrest).
  exists g', e', r', w', po', plan', pw', alloc'. rewrite length_app /= Nat.add_1_r in E Hp'.
  rewrite (drop_here _ _ _ Hd). split; [|split; [|done]].
  - cbn [plan_loop]. rewrite {1}/bind {1}/self. cbn [we_self].
    rewrite (plan_available _ _ _ _ _ _ _ _ _ _ _ _ Hp).
    destruct (Z.geb_spec (b_limit (current_block w) - po) (entry_need d)); [exact E|lia].
  - eapply plan_state_ext; [|done]. intros t'. destruct (decide (t' = t)) as [->|].
    + by rewrite !pending_insert -app_assoc.
    + by rewrite !pending_insert_ne.
Qed.

(** The turn that seals the block and takes another one, in which the entry fits. *)
Lemma plan_turn_switch fuel g e r tx ws sched σ t w batch po plan pw alloc n m d :
  plan_state g e r ws sched σ t w batch po plan pw → batch !! length plan = Some d → fits t d →
  ¬ po + entry_need d ≤ b_limit (current_block w) → 0 ≤ m → env_good (m + 1) (ae_fs e) →
  (∀ g e r w alloc, plan_state g e r ws sched σ t w batch 0 plan pw → env_good m (ae_fs e) →
     entry_need d ≤ b_limit (current_block w) →
     plan_result fuel g e r tx ws sched σ t w batch 0 plan alloc n) →
  plan_result (S fuel) g e r tx ws sched σ t w batch po plan alloc n.
Proof.
  intros Hp Hd Hf Hgt Hm Hg Hgo. pose proof (entry_need_pos d).
  destruct (plan_switch_step g e r tx ws sched σ t w batch po plan pw
    (Z.max (entry_need d) DEFAULT_BLOCK_SIZE) m Hp) as (b & e' & e1 & E1 & E2 & Hh & Hl & Hg');
    [destruct Hf; consts|done|done|].
  pose proof (plan_state_switch _ _ _ _ _ _ _ _ _ _ _ _ _ _ Hp Hh) as Hp1.
  destruct (Hgo _ _ _ _ (alloc ++ [b_id b]) Hp1 Hg' ltac:(cbn; lia)) as
    (g' & e2 & r' & w' & po' & plan' & pw' & alloc' & E & Hp' & Hg2 & Hpath & Hhyd & Hb & Hl').
  exists g', e2, r', w', po', plan', pw', alloc'. split_and!; try done.
  - rewrite (drop_here _ _ _ Hd) in E |- *. cbn [plan_loop]. rewrite {1}/bind {1}/self. cbn [we_self].
    rewrite (plan_available _ _ _ _ _ _ _ _ _ _ _ _ Hp).
    destruct (Z.geb_spec (b_limit (current_block w) - po) (entry_need d)); [lia|].
    rewrite /bind E1 E2. exact E.
  - by rewrite Hpath (hd_paths _ _ _ Hh).
  - intros t'. rewrite Hhyd. apply hydration_append.
Qed.

Lemma plan_loop_ok rest fuel g e r tx ws sched σ t w batch po plan pw alloc n :
  drop (length plan) batch = rest → (length plan ≤ length batch)%nat → (2 * length rest ≤ fuel)%nat →
  plan_state g e r ws sched σ t w batch po plan pw → Forall (fits t) rest → 0 ≤ n →
  env_good (n + len rest) (ae_fs e) →
  plan_result fuel g e r tx ws sched σ t w batch po plan alloc n.
Proof.
  revert fuel g e r σ w po plan pw alloc.
  induction rest as [|d rest IH]; intros fuel g e r σ w po plan pw alloc Hrest Hlen Hfuel Hp Hfits Hn Hg.
  { rewrite /plan_result Hrest. exists g, e, r, w, po, plan, pw, alloc.
    split_and!; try done; [by destruct fuel| | |].
    - eapply plan_state_ext; [|done]. intros t'. rewrite app_nil_r.
      destruct (decide (t' = t)) as [->|]; [by rewrite pending_insert|by rewrite pending_insert_ne].
    - eapply env_good_le; [done|]. rewrite len_nil. lia.
    - apply (f_equal length) in Hrest. rewrite length_drop /= in Hrest. lia. }
  apply Forall_cons in Hfits as [Hf Hfits]. cbn [length] in Hfuel. rewrite len_cons in Hg.
  pose proof (len_nonneg rest) as Hlr.
  assert (batch !! length plan = Some d) as Hd.
  { rewrite -(Nat.add_0_r (length plan)) -lookup_drop Hrest. done. }
  rewrite (drop_here _ _ _ Hd) in Hrest. injection Hrest as Hrest.
  pose proof (lookup_lt_Some _ _ _ Hd) as Hlt.
  assert (∀ fuel g e r w po alloc, (2 * length rest ≤ fuel)%nat →
    plan_state g e r ws sched σ t w batch po plan pw → env_good (n + len rest) (ae_fs e) →
    po + entry_need d ≤ b_limit (current_block w) →
    plan_result (S fuel) g e r tx ws sched σ t w batch po plan alloc n) as Hfit.
  { clear fuel g e r w po alloc Hfuel Hp Hg. intros fuel g e r w po alloc Hfuel Hp Hg Hfit.
    eapply plan_turn_fit; [done..|].
    destruct (plan_state_fit _ _ _ _ _ _ _ _ _ _ _ _ d Hp Hd Hf Hfit) as (pw1 & Hp1).
    eapply (IH _ _ _ _ _ _ _ _ pw1); [..|done|done|done|done]; rewrite ?length_app /= ?Nat.add_1_r; [done|lia|lia]. }
  destruct fuel as [|[|fuel]]; [lia|lia|].
  destruct (decide (po + entry_need d ≤ b_limit (current_block w))) as [Hle|Hgt].
  - eapply Hfit; [lia|done| |done]. eapply env_good_le; [done|lia].
  - eapply (plan_turn_switch _ _ _ _ _ _ _ _ _ _ _ _ _ _ _ _ (n + len rest)); [done..|lia| |].
    + eapply env_good_le; [done|lia].
    + intros g' e' r' w' alloc' Hp' Hg' Hl'. apply Hfit; [lia|done..].
Qed.

(** * Writing a plan *)

Lemma planned_write e0 t batch blk off i pw s :
  planned e0 t batch (blk, off, i) pw →
  ∃ d, batch !! i = Some d ∧
    Block_write blk off d t (b_offset blk + b_limit blk) s = (Ok tt, fs_put pw.1.1 pw.1.2 pw.2 s).
Proof.
  intros (d & data & Hd & Hf & Ho & Hl & Hb & ->). exists d. split; [done|].
  by apply (Block_write_entry e0).
Qed.

Lemma write_plan_loop_ok e0 t batch full todo pw oo alloc e r tx w :
  Forall2 (planned e0 t batch) todo pw →
  write_plan_loop t batch full todo oo alloc (MkWEnv e r tx w) =
    (Ok tt, MkWEnv (ae_set_fs (puts pw (ae_fs e)) e) r tx w).
Proof.
  intros Hp. revert e. induction Hp as [|[[blk off] i] q todo pw Hq Hp IH]; intros e; cbn [write_plan_loop].
  { by destruct e. }
  destruct (planned_write _ _ _ _ _ _ _ (ae_fs e) Hq) as (d & -> & E).
  rewrite /on_files /on_alloc /on_fs /zoom /= E IH. done.
Qed.

Lemma flush_plan_ok plan fsynced s : env_flush_ok s = true → flush_plan plan fsynced s = (Ok tt, s).
Proof.
  intros Hf. revert fsynced. induction plan as [|[[blk off] i] plan IH]; intros fsynced; [done|].
  cbn [flush_plan]. case_bool_decide; [apply IH|]. by rewrite /bind /storage_flush Hf.
Qed.

(** A submission entry stands for a planned write. *)
Definition sqe_ok (q : Sqe) (pw : putw) : Prop := sqe_put q = pw ∧ sqe_len q = len (sqe_buf q).

Lemma planned_sqe e0 t batch blk off i pw :
  planned e0 t batch (blk, off, i) pw → USE_FD_BACKEND (ae_fs e0) = true →
  ∃ d bs buf, batch !! i = Some d ∧
    to_bytes (new_meta d t (b_offset blk + b_limit blk)) = Some bs ∧ meta_buffer bs = Some buf ∧
    as_fd (b_mmap blk) = Some (b_file_path blk) ∧
    sqe_ok (MkSqe (b_file_path blk) (b_offset blk + off) (buf ++ d) (len (buf ++ d) mod 2 ^ 32) i) pw.
Proof.
  intros (d & data & Hd & Hf & Ho & Hl & Hb & ->) Hfd. exists d.
  destruct (entry_bytes_ok e0 t blk d Ho Hf) as (data' & Hb' & Hlen). simplify_eq.
  rewrite /entry_bytes in Hb. destruct (to_bytes _) as [bs|]; [|done].
  cbn in Hb. destruct (meta_buffer bs) as [buf|] eqn:Hbuf; [|done]. injection Hb as <-.
  destruct Ho as [[Hp Hm] _ _ _ _ _ _]. exists bs, buf. split_and!; try done.
  - rewrite -Hp. destruct (b_mmap blk); [|done]. destruct Hm as [? _]. congruence.
  - assert (len (buf ++ d) mod 2 ^ 32 = len (buf ++ d)) as ->.
    { apply Z.mod_small. pose proof (len_nonneg (buf ++ d)). destruct Hf as [Hf _].
      pose proof (eq_refl : (MAX_FILE_SIZE <? 2 ^ 32) = true). lia. }
    split; [|done]. rewrite /sqe_put /= take_ge //. rewrite /len. lia.
Qed.

Lemma build_sqes_ok e0 cap t batch plan pw ring oo alloc E :
  USE_FD_BACKEND (ae_fs e0) = true → len ring + len plan ≤ cap →
  Forall2 (planned e0 t batch) plan pw →
  ∃ sqes, build_sqes cap t batch plan ring oo alloc E = (Ok (ring ++ sqes), E) ∧
    Forall2 sqe_ok sqes pw ∧ sqe_user <$> sqes = plan.*2.
Proof.
  intros Hfd Hcap Hp. revert ring Hcap.
  induction Hp as [|[[blk off] i] q plan pw Hq Hp IH]; intros ring Hcap; cbn [build_sqes].
  { exists []. by rewrite app_nil_r. }
  destruct (planned_sqe _ _ _ _ _ _ _ Hq Hfd) as (d & bs & buf & -> & -> & -> & -> & Hok).
  rewrite len_cons in Hcap. pose proof (len_nonneg plan).
  rewrite uring_push_room; [lia|]. set sqe := MkSqe _ _ _ _ _ in Hok |- *.
  destruct (IH (ring ++ [sqe])) as (sqes & E' & Hf & Hu).
  { rewrite len_app len_cons len_nil. lia. }
  exists (sqe :: sqes). rewrite E' -app_assoc. split_and!; [done|by constructor|]. cbn. by rewrite Hu.
Qed.

Lemma sqes_puts sqes pw : Forall2 sqe_ok sqes pw → sqe_put <$> sqes = pw.
Proof. induction 1 as [|q p sqes pw [Hq _] _ IH]; [done|]. cbn. by rewrite Hq IH. Qed.

(** Full completions are accepted: each tag is the entry's position. *)
Lemma all_success_ok ring pw (cqes : list Cqe) :
  Forall2 sqe_ok ring pw → sqe_user <$> ring = seq 0 (length ring) →
  Forall (λ c, ∃ q, q ∈ ring ∧ cqe_user c = sqe_user q ∧ cqe_result c = sqe_len q) cqes →
  all_success ring cqes = true.
Proof.
  intros Hok Hu Hc. rewrite /all_success. apply forallb_forall. intros c Hin.
  apply list_elem_of_In in Hin. apply (Forall_take _ (length ring)) in Hc.
  rewrite Forall_forall in Hc. destruct (Hc c Hin) as (q & Hq & Hcu & Hcr).
  apply list_elem_of_lookup in Hq as [k Hk].
  assert (sqe_user q = k) as Hqk.
  { assert (Hx : (sqe_user <$> ring) !! k = Some (sqe_user q)) by by rewrite list_lookup_fmap Hk.
    rewrite Hu lookup_seq in Hx. lia. }
  destruct (Forall2_lookup_l _ _ _ _ _ Hok Hk) as (p & _ & _ & Hlen).
  rewrite /cqe_ok Hcu Hqk Hk /= Hcr Hlen. pose proof (len_nonneg (sqe_buf q)).
  apply andb_true_intro. split; lia.
Qed.

Lemma submit_batch_ok e t batch plan pw oo po alloc r tx w :
  Forall2 (planned e t batch) plan pw → plan.*2 = seq 0 (length plan) → col w = t →
  USE_FD_BACKEND (ae_fs e) = true → env_flush_ok (ae_fs e) = true → len plan ≤ 4000 →
  match uring_new (Z.min (len plan + 64) 4096) (ae_fs e) with
  | None => submit_batch_via_io_uring plan batch oo po alloc (MkWEnv e r tx w) =
              (Ok tt, MkWEnv (ae_set_fs (puts pw (ae_fs e)) e) r tx (set_offset po w))
  | Some err => submit_batch_via_io_uring plan batch oo po alloc (MkWEnv e r tx w) =
                  (Err (IoError KOther ("io_uring init failed: " +:+ err)), MkWEnv e r tx w)
  end.
Proof.
  intros Hp Hx Hcol Hfd Hfl Hlen. rewrite /submit_batch_via_io_uring.
  destruct (uring_new _ _) as [err|] eqn:Hn; rewrite /bind /self /getS; cbn [we_self we_alloc];
    rewrite Hn; [done|]. rewrite Hcol.
  destruct (build_sqes_ok e (Z.min (len plan + 64) 4096) t batch plan pw [] oo alloc (MkWEnv e r tx w))
    as (sqes & E & Hok & Hu); [done|rewrite len_nil; lia|done|].
  rewrite E app_nil_l /on_files /on_alloc /on_fs /zoom. cbn [we_alloc].
  destruct (uring_submit_writes sqes (ae_fs e)) as (cqes & -> & Hc).
  rewrite (sqes_puts _ _ Hok). rewrite (all_success_ok _ _ _ Hok _ Hc).
  - rewrite Hu Hx. f_equal. apply Forall2_length in Hok, Hp. by rewrite Hok Hp.
  - cbn [negb we_alloc]. rewrite flush_plan_ok; [|done]. by cbn; rewrite (fe_flush _ _ (puts_env pw (ae_fs e))).
Qed.

(** * Writer::batch_write *)

Lemma batch_fallback_ok e0 t batch plan pw oo po alloc e r tx w :
  Forall2 (planned e0 t batch) plan pw → col w = t → env_flush_ok (ae_fs e) = true →
  batch_fallback plan batch oo po alloc (MkWEnv e r tx w) =
    (Ok tt, MkWEnv (ae_set_fs (puts pw (ae_fs e)) e) r tx (set_offset po w)).
Proof.
  intros Hp Hcol Hf. rewrite /batch_fallback /bind /self. cbn [we_self]. rewrite Hcol.
  rewrite (write_plan_loop_ok e0 _ _ _ _ pw) //.
  rewrite /on_files /on_alloc /on_fs /zoom. cbn [we_alloc]. rewrite flush_plan_ok; [|done].
  by cbn; rewrite (fe_flush _ _ (puts_env pw (ae_fs e))).
Qed.

Lemma contains_init_failed err : contains "io_uring init failed" ("io_uring init failed: " +:+ err) = true.
Proof.
  rewrite /contains. change ("io_uring init failed: " +:+ err) with ("io_uring init failed" +:+ (": " +:+ err)).
  by destruct err.
Qed.

(** Both ways of writing a plan end in the same state. *)
Lemma batch_body_ok g e r ws sched σ tx t w batch n :
  core_inv g e (ae_fs e) r (<[t := set_batch false w]> ws) sched σ → Forall (fits t) batch → 0 ≤ n →
  len batch ≤ MAX_BATCH_ENTRIES → env_good (n + len batch) (ae_fs e) →
  ∃ g' e' r' w', batch_body batch (MkWEnv e r tx w) = (Ok tt, MkWEnv e' r' tx w') ∧
    core_inv g' e' (ae_fs e') r' (<[t := set_batch false w']> ws) sched
      (<[t := pending σ t ++ batch]> σ) ∧
    env_good n (ae_fs e') ∧ paths (ae_alloc e') = paths (ae_alloc e) ∧ hydration_kept r r'.
Proof.
  intros Hc Hf Hn Hlen Hg.
  destruct (plan_loop_ok batch (2 * length batch) g e r tx ws sched σ t w batch (current_offset w) [] [] [] n)
    as (g' & e' & r' & w' & po & plan & pw & alloc & E & Hp & Hg' & Hpath & Hhyd & Hb & Hl);
    [done|cbn; lia|done| |done..|].
  { split; [|by constructor|done]. cbn. replace (ahead (current_offset w) w) with (set_batch false w); [done|].
    by destruct w. }
  destruct (plan_state_active _ _ _ _ _ _ _ _ _ _ _ _ Hp) as (_ & Hcol & _).
  destruct Hp as [Hc' Hp Hx].
  assert (len plan ≤ 4000) as Hsmall.
  { rewrite /len Hl. rewrite /MAX_BATCH_ENTRIES /len in Hlen. lia. }
  assert (batch_body batch (MkWEnv e r tx w) =
    (Ok tt, MkWEnv (ae_set_fs (puts pw (ae_fs e')) e') r' tx (set_offset po w'))) as Eb.
  { rewrite /batch_body /bind /self /getS. cbn [we_self]. cbn [drop length] in E.
    rewrite E. cbn [we_alloc].
    pose proof (batch_fallback_ok e' t batch plan pw (current_offset w) po alloc e' r' tx w' Hp Hcol
      (eg_flush _ _ Hg')) as Hfb.
    destruct (USE_FD_BACKEND (ae_fs e')) eqn:Hfd; [|done].
    pose proof (submit_batch_ok e' t batch plan pw (current_offset w) po alloc r' tx w' Hp Hx Hcol Hfd
      (eg_flush _ _ Hg') Hsmall) as Hs.
    destruct (uring_new _ _) as [err|]; rewrite Hs; [|done].
    cbn [err_msg]. by rewrite contains_init_failed. }
  exists g', (ae_set_fs (puts pw (ae_fs e')) e'), r', (set_offset po w').
  split_and!; [done| |eapply env_good_eq; [apply puts_env|done]|done|done].
  apply (core_inv_env g' e'); [exact Hc'|apply puts_env|apply puts_kept].
Qed.

Lemma Writer_batch_write_ok g e r tx ws sched σ t w batch n :
  core_inv g e (ae_fs e) r ws sched σ → ws !! t = Some w → Forall (fits t) batch → 0 ≤ n →
  len batch ≤ MAX_BATCH_ENTRIES → batch_total batch ≤ MAX_BATCH_BYTES →
  env_good (n + len batch) (ae_fs e) →
  ∃ g' e' r' w', Writer_batch_write batch (MkWEnv e r tx w) = (Ok tt, MkWEnv e' r' tx w') ∧
    core_inv g' e' (ae_fs e') r' (<[t := w']> ws) sched (<[t := pending σ t ++ batch]> σ) ∧
    env_good n (ae_fs e') ∧ paths (ae_alloc e') = paths (ae_alloc e) ∧ hydration_kept r r'.
Proof.
  intros Hc Hw Hf Hn Hlen Htot Hg. rewrite /Writer_batch_write.
  destruct (Z.gtb_spec (len batch) MAX_BATCH_ENTRIES); [lia|].
  destruct (Z.gtb_spec (batch_total batch) MAX_BATCH_BYTES); [lia|].
  destruct (to_writer _ _ _ _ _ _ _ _ (ci_topic _ _ _ _ _ _ _ Hc t) w Hw) as [_ _ _ _ Hbw _ _].
  destruct batch as [|d batch].
  - exists g, e, r, w. split_and!; try done; [|by rewrite len_nil Z.add_0_r in Hg].
    rewrite app_nil_r (insert_id ws) //. destruct Hc as [Ha Hgh Ht]. split; [done..|]. intros t'.
    destruct (decide (t' = t)) as [->|]; [by rewrite pending_insert|by rewrite pending_insert_ne].
  - rewrite {1}/bind {1}/self. cbn [we_self]. rewrite Hbw {1}/bind {1}/on_self {1}/modify. cbn [we_alloc we_reader we_tx we_self].
    destruct (batch_body_ok g e r ws sched σ tx t (set_batch true w) (d :: batch) n)
      as (g' & e' & r' & w' & E & Hc' & ?); [|done..|].
    + replace (set_batch false (set_batch true w)) with w; [by rewrite insert_id|].
      rewrite /set_batch /=. destruct w; cbn in *. by subst.
    + exists g', e', r', (set_batch false w'). rewrite /with_batch_guard E. done.
Qed.
End batch.
