(* ===== verification/Walrus.v ===== *)
(** The engine's front end: [src/src/wal/runtime/walrus.rs] (without recovery, which is in
    [Recovery]), [walrus_write.rs], and [read_next] of [walrus_read.rs].

    The record [Walrus] is the instance with the process-wide state it works on. A topic's
    writer and reader entry are kept in maps, as in the code; the operations are those of one
    thread at a time. *)

From S2P Require Import Prelude Config Storage Block Trackers Allocator Index TopicClean Reader Writer.

#[local] Open Scope Z_scope.

Record Walrus := MkWalrus {
  wa_alloc : AllocEnv;
  wa_reader : Reader;
  wa_writers : gmap string Writer;
  wa_tx : list string;
  read_offset_index : WalIndex;
  read_consistency : ReadConsistency;
  fsync_schedule : FsyncSchedule;
  clean_tracker : TopicCleanTracker;
  topic_entry_counts : gmap string Z;
}.

Definition set_alloc (a : AllocEnv) (W : Walrus) : Walrus :=
  MkWalrus a (wa_reader W) (wa_writers W) (wa_tx W) (read_offset_index W) (read_consistency W)
           (fsync_schedule W) (clean_tracker W) (topic_entry_counts W).
Definition set_reader (r : Reader) (W : Walrus) : Walrus :=
  MkWalrus (wa_alloc W) r (wa_writers W) (wa_tx W) (read_offset_index W) (read_consistency W)
           (fsync_schedule W) (clean_tracker W) (topic_entry_counts W).
Definition set_writers (m : gmap string Writer) (W : Walrus) : Walrus :=
  MkWalrus (wa_alloc W) (wa_reader W) m (wa_tx W) (read_offset_index W) (read_consistency W)
           (fsync_schedule W) (clean_tracker W) (topic_entry_counts W).
Definition set_tx (q : list string) (W : Walrus) : Walrus :=
  MkWalrus (wa_alloc W) (wa_reader W) (wa_writers W) q (read_offset_index W) (read_consistency W)
           (fsync_schedule W) (clean_tracker W) (topic_entry_counts W).
Definition set_index (i : WalIndex) (W : Walrus) : Walrus :=
  MkWalrus (wa_alloc W) (wa_reader W) (wa_writers W) (wa_tx W) i (read_consistency W)
           (fsync_schedule W) (clean_tracker W) (topic_entry_counts W).
Definition set_clean (c : TopicCleanTracker) (W : Walrus) : Walrus :=
  MkWalrus (wa_alloc W) (wa_reader W) (wa_writers W) (wa_tx W) (read_offset_index W)
           (read_consistency W) (fsync_schedule W) c (topic_entry_counts W).
Definition set_counts (c : gmap string Z) (W : Walrus) : Walrus :=
  MkWalrus (wa_alloc W) (wa_reader W) (wa_writers W) (wa_tx W) (read_offset_index W)
           (read_consistency W) (fsync_schedule W) (clean_tracker W) c.

Definition wa_fs (W : Walrus) : Fs := ae_fs (wa_alloc W).

Definition in_alloc {A} (m : M AllocEnv A) : M Walrus A := zoom wa_alloc set_alloc m.
Definition in_fs {A} (m : M Fs A) : M Walrus A := in_alloc (on_fs m).
Definition in_trk (f : Trackers → Trackers) : M Walrus unit := in_alloc (on_trk f).

(** * Topic marks and counters *)

Definition mark_topic_dirty (topic : string) : M Walrus unit :=
  modify (λ W, set_clean (mark_dirty topic (clean_tracker W)) W).
Definition mark_topic_clean (topic : string) : M Walrus unit :=
  modify (λ W, set_clean (mark_clean topic (clean_tracker W)) W).

Definition get_topic_entry_count (topic : string) (W : Walrus) : Z :=
  default 0 (topic_entry_counts W !! topic).

Definition increment_topic_entry_count (topic : string) (delta : Z) : M Walrus unit :=
  if delta =? 0 then ret tt
  else modify (λ W, set_counts (<[topic := sat_add64 (get_topic_entry_count topic W) delta]>
                                  (topic_entry_counts W)) W).
Definition decrement_topic_entry_count (topic : string) (delta : Z) : M Walrus unit :=
  if delta =? 0 then ret tt
  else modify (λ W, set_counts (<[topic := sat_sub64 (get_topic_entry_count topic W) delta]>
                                  (topic_entry_counts W)) W).

Definition sum_used (bs : list Block) : Z := foldr (λ b acc, b_used b + acc) 0 bs.

Definition get_topic_size (topic : string) (W : Walrus) : Z :=
  let sealed_size :=
    match wa_reader W !! topic with Some info => sum_used (chain info) | None => 0 end in
  let active_size :=
    match wa_writers W !! topic with Some w => (snapshot_block w).2 | None => 0 end in
  sealed_size + active_size.

(** * Appends *)

Definition get_or_create_writer (col_name : string) : M Walrus unit :=
  let! W := getS in
  match wa_writers W !! col_name with
  | Some _ => ret tt
  | None =>
      let! initial_block := in_alloc get_next_available_block in
      modify (λ W, set_writers
        (<[col_name := Writer_new initial_block col_name (fsync_schedule W)]> (wa_writers W)) W)
  end.

(** A method of the topic's writer, on the state it shares with the instance. *)
Definition with_writer {A} (col_name : string) (m : M WEnv A) : M Walrus A := λ W,
  match wa_writers W !! col_name with
  | None => (Panic, W)
  | Some w =>
      let '(o, e) := m (MkWEnv (wa_alloc W) (wa_reader W) (wa_tx W) w) in
      (o, set_alloc (we_alloc e) (set_reader (we_reader e) (set_tx (we_tx e)
            (set_writers (<[col_name := we_self e]> (wa_writers W)) W))))
  end.

Section append.
Context `{MetaCodec} `{IoUring}.

Definition append_for_topic (col_name : string) (raw_bytes : list Z) : M Walrus unit :=
  mark_topic_dirty col_name;;
  get_or_create_writer col_name;;
  with_writer col_name (Writer_write raw_bytes);;
  increment_topic_entry_count col_name 1.

Definition batch_append_for_topic (col_name : string) (batch : list (list Z)) : M Walrus unit :=
  mark_topic_dirty col_name;;
  get_or_create_writer col_name;;
  with_writer col_name (Writer_batch_write batch);;
  increment_topic_entry_count col_name (len batch).
End append.

(** * read_next *)

(** The first block of the chain with this id. *)
Definition find_block (id : Z) (c : list Block) : option nat :=
  fst <$> list_find (λ b, b_id b = id) c.

Definition get_info (col_name : string) : M Walrus ColReaderInfo := λ W,
  (Ok (default new_info (wa_reader W !! col_name)), W).
Definition put_info (col_name : string) (info : ColReaderInfo) : M Walrus unit :=
  modify (λ W, set_reader (<[col_name := info]> (wa_reader W)) W).

Definition used_at (c : list Block) (idx : nat) : Z := default 0 (b_used <$> c !! idx).

(** Positions from the persisted index: a tail position is returned, a position in the chain
    is clamped. *)
Definition hydrate_info (pos : option BlockPos) (info : ColReaderInfo) :
    ColReaderInfo * option (Z * Z) :=
  if hydrated_from_index info then (info, None)
  else
    match pos with
    | None => (set_hydrated info, None)
    | Some pos =>
        if negb (Z.land (cur_block_idx pos) TAIL_FLAG =? 0) then
          (set_hydrated (set_pos (length (chain info)) 0 info),
           Some (Z.ldiff (cur_block_idx pos) TAIL_FLAG, cur_block_offset pos))
        else
          let ib := Nat.min (Z.to_nat (cur_block_idx pos)) (length (chain info)) in
          let off := if (ib <? length (chain info))%nat
                     then Z.min (cur_block_offset pos) (used_at (chain info) ib) else 0 in
          (set_hydrated (set_pos ib off info), None)
    end.

(** A persisted tail position in a block that is sealed now; it is forgotten either way. *)
Definition fold_tail (tail : option (Z * Z)) (info : ColReaderInfo) : ColReaderInfo :=
  match tail with
  | None => info
  | Some (id, off) =>
      match chain info with
      | [] => info
      | _ =>
          match find_block id (chain info) with
          | Some idx => set_pos idx (Z.min off (used_at (chain info) idx)) info
          | None => set_pos 0 0 info
          end
      end
  end.

Section read.
Context `{MetaCodec} `{MapCodec BlockPos}.

(** [let _ = idx_guard.set(..)]: the position is kept in memory even when the file is not
    written. *)
Definition index_set (col_name : string) (idx off : Z) : M Walrus unit := λ W,
  let '(m, i) := WalIndex_set col_name idx off (read_offset_index W) in
  ignore (in_fs m) (set_index i W).

(** [if self.should_persist(&mut info, true) { idx_guard.set(..) }] *)
Definition persist_forced (col_name : string) (info : ColReaderInfo) (idx off : Z) :
    M Walrus unit :=
  let! W := getS in
  let '(p, info) := should_persist (read_consistency W) info true in
  put_info col_name info;;
  if p then index_set col_name idx off else ret tt.

(** Progress after an entry was read with [checkpoint]: [info] has the new position. *)
Definition commit_read (col_name : string) (info : ColReaderInfo) (idx off : Z) :
    M Walrus unit :=
  let! W := getS in
  let '(p, info) := should_persist (read_consistency W) info false in
  put_info col_name info;;
  (if p then index_set col_name idx off else ret tt);;
  decrement_topic_entry_count col_name 1.

(** The decision on the tail position, for the active block: [None] means that the
    position was folded into the chain and the loop goes on. *)
Definition settle_tail (col_name : string) (checkpoint : bool) (active : Block)
    (persisted_tail : option (Z * Z)) : M Walrus (option (Z * Z)) :=
  let! info := get_info col_name in
  let rebase :=
    (if checkpoint
     then persist_forced col_name info (Z.lor (b_id active) TAIL_FLAG) 0 else ret tt);;
    ret (Some (b_id active, 0)) in
  match persisted_tail with
  | Some (id, off) =>
      if id =? b_id active then ret persisted_tail
      else
        match find_block id (chain info) with
        | Some idx =>
            let info := set_pos idx (Z.min off (used_at (chain info) idx)) info in
            put_info col_name info;;
            (if checkpoint
             then persist_forced col_name info (Z.of_nat (cur_idx info)) (cur_off info)
             else ret tt);;
            ret None
        | None => rebase
        end
  | None => rebase
  end.

Fixpoint read_loop (fuel : nat) (col_name : string) (checkpoint : bool)
    (persisted_tail : option (Z * Z)) : M Walrus (option (list Z)) :=
  match fuel with
  | O => hang
  | S fuel =>
      let! info := get_info col_name in
      match chain info !! cur_idx info with
      | Some block =>
          let off := cur_off info in
          if off >=? b_used block then
            in_trk (set_checkpointed_true (b_id block));;
            put_info col_name (set_pos (S (cur_idx info)) 0 info);;
            read_loop fuel col_name checkpoint persisted_tail
          else
            let! r := attempt (in_fs (Block_read block off)) in
            match r with
            | Some (entry, consumed) =>
                let new_off := off + consumed in
                (if checkpoint
                 then commit_read col_name (set_pos (cur_idx info) new_off info)
                        (Z.of_nat (cur_idx info)) new_off
                 else ret tt);;
                ret (Some entry)
            | None => ret None
            end
      | None =>
          let tail_snapshot := (tail_block_id info, tail_offset info) in
          let! W := getS in
          match wa_writers W !! col_name with
          | None => ret None
          | Some writer =>
              let '(active_block, written) := snapshot_block writer in
              let! settled := settle_tail col_name checkpoint active_block persisted_tail in
              match settled with
              | None => read_loop fuel col_name checkpoint None
              | Some (id, off) =>
                  let tail_off :=
                    if (id =? b_id active_block) && (fst tail_snapshot =? b_id active_block)
                    then Z.max off (snd tail_snapshot) else off in
                  if negb (id =? b_id active_block)
                  then read_loop fuel col_name checkpoint (Some (id, off))
                  else if tail_off <? written then
                    let! r := attempt (in_fs (Block_read active_block tail_off)) in
                    match r with
                    | Some (entry, consumed) =>
                        let new_off := tail_off + consumed in
                        (if checkpoint
                         then let! info := get_info col_name in
                              commit_read col_name (set_tail (b_id active_block) new_off info)
                                (Z.lor id TAIL_FLAG) new_off
                         else ret tt);;
                        ret (Some entry)
                    | None => ret None
                    end
                  else ret None
              end
          end
      end
  end.

(** [Walrus::read_next]. Every turn of the loop leaves a block of the chain behind or
    returns, so that the chain's length and two more turns are enough. *)
Definition read_next (col_name : string) (checkpoint : bool) : M Walrus (option (list Z)) :=
  let! info := get_info col_name in
  let! W := getS in
  let '(info, tail) := hydrate_info (WalIndex_get col_name (read_offset_index W)) info in
  put_info col_name (fold_tail tail info);;
  read_loop (length (chain info) + 2) col_name checkpoint None.
End read.

(** * The persisted cursor of a reader that has caught up *)

Section caught_up.
Context `{MetaCodec} `{MapCodec BlockPos}.

Lemma index_set_get t i o W :
  ∃ W', index_set t i o W = (Ok tt, W') ∧
    WalIndex_get t (read_offset_index W') = Some (MkPos i o).
Proof.
  rewrite /index_set /WalIndex_set /WalIndex_persist /ignore /in_fs /in_alloc /zoom /on_fs /zoom /persist_map /=.
  destruct (map_to_bytes _) as [bs|]; cbn; [|eexists; split; [done|]; apply lookup_insert_eq].
  destruct (replace_file _ _ _) as [out s'] eqn:E. apply replace_file_ends in E.
  destruct out; try done; (eexists; split; [done|]); apply lookup_insert_eq.
Qed.

(** under [StrictlyAtOnce], a committing read of a topic whose reader has consumed the whole
    active block answers [None] and moves the persisted cursor back to offset 0 of that
    block: the progress made in the block is lost to a restart. *)
Theorem caught_up_read_resets_cursor t W w info :
  wa_reader W !! t = Some info → hydrated_from_index info = true →
  chain info !! cur_idx info = None → wa_writers W !! t = Some w →
  tail_block_id info = b_id (current_block w) → current_offset w ≤ tail_offset info →
  read_consistency W = StrictlyAtOnce →
  ∃ W', read_next t true W = (Ok None, W') ∧
    WalIndex_get t (read_offset_index W') = Some (MkPos (Z.lor (b_id (current_block w)) TAIL_FLAG) 0).
Proof.
  intros Hi Hh Hc Hw Ht Ho Hm. rewrite /read_next {1}/bind {1}/get_info {1}/bind {1}/getS Hi.
  rewrite /hydrate_info /= Hh /=. rewrite {1}/bind {1}/put_info {1}/modify.
  replace (length (chain info) + 2)%nat with (S (length (chain info) + 1)) by lia. cbn [read_loop].
  rewrite {1}/bind {1}/get_info [wa_reader _]/= lookup_insert_eq [default _ _]/= Hc.
  rewrite {1}/bind {1}/getS [wa_writers _]/= Hw. cbn [snapshot_block].
  set W1 := set_reader _ W.
  destruct (index_set_get t (Z.lor (b_id (current_block w)) TAIL_FLAG) 0
    (set_reader (<[t := info]> (wa_reader W1)) W1)) as (W2 & E & Hg).
  assert (settle_tail t true (current_block w) None W1 = (Ok (Some (b_id (current_block w), 0)), W2)) as Es.
  { rewrite /settle_tail {1}/bind {1}/get_info [wa_reader _]/= lookup_insert_eq [default _ _]/=.
    rewrite /persist_forced /bind /getS. change (read_consistency W1) with (read_consistency W).
    rewrite Hm. cbn [should_persist]. rewrite /put_info /modify. by rewrite E. }
  rewrite /snapshot_block {1}/bind Es Z.eqb_refl Ht Z.eqb_refl. cbn [andb negb fst snd].
  destruct (Z.ltb_spec (Z.max 0 (tail_offset info)) (current_offset w)); [lia|]. by exists W2.
Qed.
End caught_up.
