(* ===== verification/BatchRead.v ===== *)
(** Batch reads: [batch_read_for_topic] of [src/src/wal/runtime/walrus_read.rs].

    A batch read plans byte ranges of the sealed blocks and of the active block, reads them
    (by io_uring or one by one), parses entries out of the buffers and commits the position
    of the last one. With a start offset it ignores the topic's cursor and looks for the
    entry at that offset instead. The read side of the io_uring crate is the class [ReadRing]. *)

From S2P Require Import Prelude Config Storage Block Trackers Allocator Index TopicClean Reader Writer Walrus.

#[local] Open Scope Z_scope.

(** * The ring *)

(** A read of [rd_len] bytes (32 bits) into a buffer of [rd_size] zeros. *)
Record ReadSqe := MkReadSqe {
  rd_path : string;
  rd_off : Z;
  rd_len : Z;
  rd_size : Z;
  rd_user : nat;
}.

(** Creation, refusal of a full queue, and a submission: its completions and what the
    buffers hold afterwards. *)
Class ReadRing := {
  rring_new : Z → Fs → bool;
  rring_push : Z → list ReadSqe → ReadSqe → option string;
  rring_submit_and_wait : list ReadSqe → M Fs (list Cqe * list (list Z));
}.

(** * Plans *)

Record ReadPlan := MkReadPlan {
  rp_blk : Block;
  rp_start : Z;
  rp_end : Z;
  rp_is_tail : bool;
  rp_chain_idx : option nat;
}.

(** The block that holds the byte [rem] of the chain, and the rest of [rem] in it; past the
    chain, the rest of [rem] in the tail. *)
Fixpoint locate (i : nat) (rem : Z) (c : list Block) : option nat * Z :=
  match c with
  | [] => (None, rem)
  | b :: c => if rem <? b_used b then (Some i, rem) else locate (S i) (rem - b_used b) c
  end.

(** The position a topic's batch reads start from. *)
Definition hydrate_batch (pos : option BlockPos) (info : ColReaderInfo) : ColReaderInfo :=
  if hydrated_from_index info then info
  else
    match pos with
    | None => set_hydrated info
    | Some pos =>
        if negb (Z.land (cur_block_idx pos) TAIL_FLAG =? 0) then
          let tail_bid := Z.ldiff (cur_block_idx pos) TAIL_FLAG in
          let info := set_hydrated (set_pos (length (chain info)) 0
                        (set_tail tail_bid (cur_block_offset pos) info)) in
          match find_block tail_bid (chain info) with
          | Some idx => set_pos idx (Z.min (cur_block_offset pos) (used_at (chain info) idx)) info
          | None => info
          end
        else
          let ib := Nat.min (Z.to_nat (cur_block_idx pos)) (length (chain info)) in
          let off := if (ib <? length (chain info))%nat
                     then Z.min (cur_block_offset pos) (used_at (chain info) ib) else 0 in
          set_hydrated (set_pos ib off info)
    end.

(** * Parsing state *)

Record PState := MkPState {
  ps_entries : list (list Z);
  ps_total : Z;
  ps_block_idx : nat;
  ps_block_off : Z;
  ps_tail_id : Z;
  ps_tail_off : Z;
  ps_parsed : Z;
  ps_saw_tail : bool;
  ps_trim : Z;
}.

Definition parse_start (initial_trim : Z) : PState := MkPState [] 0 0 0 0 0 0 false initial_trim.

Definition is_nil {A} (l : list A) : bool := match l with [] => true | _ => false end.

(** The payload without the bytes before the start offset. *)
Definition trimmed (trim : Z) (data : list Z) : list Z :=
  if trim >? 0 then if trim <? len data then drop (Z.to_nat trim) data else [] else data.

(** One entry was parsed; it ends at [off] in the block of the plan. *)
Definition push_entry (p : ReadPlan) (data : list Z) (next_total off : Z) (st : PState) : PState :=
  let final := trimmed (ps_trim st) data in
  let entries := if is_nil final then ps_entries st else ps_entries st ++ [final] in
  let parsed := ps_parsed st + 1 in
  if rp_is_tail p then
    MkPState entries next_total (ps_block_idx st) (ps_block_off st) (b_id (rp_blk p)) off parsed true 0
  else
    match rp_chain_idx p with
    | Some idx => MkPState entries next_total idx off (ps_tail_id st) (ps_tail_off st) parsed (ps_saw_tail st) 0
    | None => MkPState entries next_total (ps_block_idx st) (ps_block_off st) (ps_tail_id st)
                (ps_tail_off st) parsed (ps_saw_tail st) 0
    end.

Inductive PersistTarget :=
  | TargetTail (blk_id off : Z)
  | TargetSealed (idx off : Z)
  | TargetNone.

(** [update_state]: where the reader stands after the batch, and what is to be persisted. *)
Definition update_state (mode : ReadConsistency) (chain_len : nat) (st : PState) (info : ColReaderInfo) :
    PersistTarget * ColReaderInfo :=
  let '(should_persist_disk, info) :=
    match mode with
    | StrictlyAtOnce => (true, info)
    | AtLeastOnce persist_every =>
        let every := Z.max persist_every 1 in
        let total := sat_add32 (reads_since_persist info) (ps_parsed st) in
        (false, set_reads (if total >=? every then 0 else total) info)
    end in
  if ps_saw_tail st then
    (if should_persist_disk then TargetTail (ps_tail_id st) (ps_tail_off st) else TargetNone,
     set_tail (ps_tail_id st) (ps_tail_off st) (set_pos chain_len 0 info))
  else
    (if should_persist_disk then TargetSealed (Z.of_nat (ps_block_idx st)) (ps_block_off st) else TargetNone,
     set_pos (ps_block_idx st) (ps_block_off st) info).

Section batch_read.
Context `{MetaCodec} `{MapCodec BlockPos} `{ReadRing}.

(** The metadata a header holds: none when its length is not possible, [Some None] when it
    cannot be deserialised. *)
Definition decode_header (buf : list Z) : option (option Metadata) :=
  let meta_len := header_meta_len buf in
  if (meta_len =? 0) || (meta_len >? PREFIX_META_SIZE - 2) then None
  else Some (archived_root (header_meta_bytes buf)).

Definition read_header (blk : Block) (pos : Z) : M Fs (option (option Metadata)) :=
  let! buf := storage_read (b_mmap blk) (b_offset blk + pos) PREFIX_META_SIZE in
  ret (decode_header buf).

(** The entry of a block that contains the byte [rem]: the position where the scan stopped, and
    the bounds of the entry when there is one. With [rem = 0], entries of less than 128
    bytes are skipped. *)
Fixpoint find_entry (fuel : nat) (blk : Block) (limit rem scan_pos : Z) : M Fs (Z * option (Z * Z)) :=
  match fuel with
  | O => hang
  | S fuel =>
      if scan_pos <? limit then
        if scan_pos + PREFIX_META_SIZE >? limit then ret (scan_pos, None)
        else
          let! h := read_header blk scan_pos in
          match h with
          | Some (Some meta) =>
              let data_size := read_size meta in
              let entry_end := scan_pos + (PREFIX_META_SIZE + data_size) in
              if (rem =? 0) && (data_size <? 128) then find_entry fuel blk limit rem entry_end
              else if entry_end >? rem then ret (scan_pos, Some (scan_pos, entry_end))
              else find_entry fuel blk limit rem entry_end
          | _ => ret (scan_pos, None)
          end
      else ret (scan_pos, None)
  end.

(** Every entry takes at least its header. *)
Definition find_fuel (limit : Z) : nat := S (Z.to_nat (limit / PREFIX_META_SIZE) + 1).

Definition trim_of (rem start : Z) : option Z :=
  if rem >? start + PREFIX_META_SIZE then Some (rem - (start + PREFIX_META_SIZE)) else None.

(** What a read starts from: chain, index, offset, tail block, tail offset, whether the topic's
    cursor is held, bytes to trim, end of the first entry. *)
Definition start_state : Type := list Block * nat * Z * Z * Z * bool * Z * Z.

(** With a start offset. *)
Definition prepare_at (col_name : string) (req_offset : Z) : M Walrus start_state :=
  let! W := getS in
  let c := match wa_reader W !! col_name with Some info => chain info | None => [] end in
  let '(found, rem) := locate 0 req_offset c in
  match found with
  | Some c_idx =>
      match c !! c_idx with
      | None => panic
      | Some blk =>
          let! r := in_fs (find_entry (find_fuel (b_used blk)) blk (b_used blk) rem 0) in
          let '(scan_pos, hit) := r in
          let '(c_off, trim, hint) :=
            match hit with
            | Some (start, entry_end) => (start, default 0 (trim_of rem start), entry_end)
            | None => (0, 0, 0)
            end in
          let c_off := if scan_pos >=? b_used blk then b_used blk else c_off in
          ret (c, c_idx, c_off, 0, rem, false, trim, hint)
      end
  | None => ret (c, length c, 0, 0, rem, false, 0, 0)
  end.

(** From the topic's cursor. *)
Definition prepare_cursor (col_name : string) : M Walrus start_state :=
  let! info := get_info col_name in
  let! W := getS in
  let info := hydrate_batch (WalIndex_get col_name (read_offset_index W)) info in
  put_info col_name info;;
  ret (chain info, cur_idx info, cur_off info, tail_block_id info, tail_offset info, true, 0, 0).

(** How many bytes to read at the start of a batch: enough for the first entry, and for
    the second one when the first is small. *)
Definition peek_want (blk : Block) (cur_off want : Z) : M Fs Z :=
  if cur_off + PREFIX_META_SIZE <=? b_used blk then
    let! h := read_header blk cur_off in
    match h with
    | Some (Some meta) =>
        let required1 := PREFIX_META_SIZE + read_size meta in
        let offset2 := cur_off + required1 in
        let! final_required :=
          if (read_size meta <? 128) && (offset2 + PREFIX_META_SIZE <=? b_used blk) then
            let! h2 := read_header blk offset2 in
            match h2 with
            | None => ret required1
            | Some None => panic
            | Some (Some meta2) => ret (required1 + (PREFIX_META_SIZE + read_size meta2))
            end
          else ret required1 in
        ret (if final_required >? want then final_required else want)
    | _ => ret want
    end
  else ret want.

Definition plan_want (has_start : bool) (hint : Z) (blk : Block) (cur_off planned want : Z) : M Fs Z :=
  if planned =? 0 then
    if has_start && (hint >? cur_off) then ret (Z.max want (hint - cur_off))
    else peek_want blk cur_off want
  else ret want.

(** The ranges of the sealed blocks, and the index after the last one; [rest] is the chain from
    [cur_idx] on. *)
Fixpoint plan_chain (held has_start : bool) (max_bytes : Z) (rest : list Block)
    (cur_idx : nat) (cur_off hint planned : Z) : M Walrus (list ReadPlan * nat) :=
  match rest with
  | [] => ret ([], cur_idx)
  | blk :: rest =>
      if planned <? max_bytes then
        if cur_off >=? b_used blk then
          (if held then in_trk (set_checkpointed_true (b_id blk)) else ret tt);;
          plan_chain held has_start max_bytes rest (S cur_idx) 0 0 planned
        else
          let! want := in_fs (plan_want has_start hint blk cur_off planned (max_bytes - planned)) in
          let end_ := Z.min (b_used blk) (wrap64 (cur_off + want)) in
          if end_ >? cur_off then
            let! r := plan_chain held has_start max_bytes rest (S cur_idx) 0 hint
                        (planned + (end_ - cur_off)) in
            ret (MkReadPlan blk cur_off end_ false (Some cur_idx) :: fst r, snd r)
          else plan_chain held has_start max_bytes rest (S cur_idx) 0 hint planned
      else ret ([], cur_idx)
  end.

(** The range of the active block, and the bytes to trim. *)
Definition plan_tail (has_start : bool) (snapshot : option (Block * Z)) (tail_block_id tail_offset trim : Z) :
    M Fs (list ReadPlan * Z) :=
  match snapshot with
  | None => ret ([], trim)
  | Some (active_block, written) =>
      let! r :=
        if has_start then
          let! r := find_entry (find_fuel written) active_block written tail_offset 0 in
          match snd r with
          | Some (start, _) => ret (start, default trim (trim_of tail_offset start))
          | None => ret (0, trim)
          end
        else ret (if tail_block_id =? b_id active_block then tail_offset else 0, trim) in
      let '(tail_start, trim) := r in
      ret (if tail_start <? written then [MkReadPlan active_block tail_start written true None] else [], trim)
  end.

(** * Reading the ranges *)

Fixpoint read_ranges (plan : list ReadPlan) : M Fs (list (list Z)) :=
  match plan with
  | [] => ret []
  | p :: plan =>
      let! buffer := storage_read (b_mmap (rp_blk p)) (b_offset (rp_blk p) + rp_start p) (rp_end p - rp_start p) in
      let! buffers := read_ranges plan in
      ret (buffer :: buffers)
  end.

Fixpoint push_reads (cap : Z) (plan : list ReadPlan) (i : nat) (ring : list ReadSqe) : M Fs (list ReadSqe) :=
  match plan with
  | [] => ret ring
  | p :: plan =>
      match as_fd (b_mmap (rp_blk p)) with
      | None => fail KUnsupported "batch reads require FD backend when io_uring is enabled"
      | Some fd =>
          let size := rp_end p - rp_start p in
          let sqe := MkReadSqe fd (b_offset (rp_blk p) + rp_start p) (size mod 2 ^ 32) size i in
          match rring_push cap ring sqe with
          | Some e => fail KOther ("io_uring push failed: " +:+ e)
          | None => push_reads cap plan (S i) (ring ++ [sqe])
          end
      end
  end.

(** At most one completion per planned range is looked at. *)
Fixpoint check_reads (plan : list ReadPlan) (cqes : list Cqe) : M Fs unit :=
  match cqes with
  | [] => ret tt
  | c :: cqes =>
      if cqe_result c <? 0 then fail KOther ("io_uring read failed: " +:+ pretty (cqe_result c))
      else
        match plan !! cqe_user c with
        | None => panic
        | Some p =>
            if cqe_result c =? rp_end p - rp_start p then check_reads plan cqes
            else fail KUnexpectedEof ("short read: got " +:+ pretty (cqe_result c) +:+ " bytes, expected " +:+
                                      pretty (rp_end p - rp_start p))
        end
  end.

Definition read_buffers (plan : list ReadPlan) : M Fs (list (list Z)) :=
  let! s := getS in
  if USE_FD_BACKEND s then
    let ring_size := Z.min (len plan + 64) 4096 in
    if rring_new ring_size s then
      let! ring := push_reads ring_size plan 0 [] in
      let! r := rring_submit_and_wait ring in
      check_reads plan (take (length plan) (fst r));;
      ret (snd r)
    else read_ranges plan
  else read_ranges plan.

(** * Parsing *)

Fixpoint parse_buffer {S} (fuel : nat) (max_bytes : Z) (p : ReadPlan) (buffer : list Z) (off : Z)
    (st : PState) : M S PState :=
  match fuel with
  | O => hang
  | Datatypes.S fuel =>
      if off <? len buffer then
        if len (ps_entries st) >=? MAX_BATCH_ENTRIES then ret st
        else if off + PREFIX_META_SIZE >? len buffer then ret st
        else
          match decode_header (take (Z.to_nat PREFIX_META_SIZE) (drop (Z.to_nat off) buffer)) with
          | Some (Some meta) =>
              let data_size := read_size meta in
              let entry_consumed := PREFIX_META_SIZE + data_size in
              if off + entry_consumed >? len buffer then ret st
              else
                let next_total := sat_add64 (ps_total st) data_size in
                if (next_total >? max_bytes) && negb (is_nil (ps_entries st)) then ret st
                else
                  let data := take (Z.to_nat data_size) (drop (Z.to_nat (off + PREFIX_META_SIZE)) buffer) in
                  if Checksum.checksum64 data =? checksum meta then
                    parse_buffer fuel max_bytes p buffer (off + entry_consumed)
                      (push_entry p data next_total (rp_start p + off + entry_consumed) st)
                  else fail KInvalidData "checksum mismatch in batch read"
          | _ => ret st
          end
      else ret st
  end.

Definition parse_fuel (buffer : list Z) : nat := S (length buffer).

Fixpoint parse_plans {S} (max_bytes : Z) (plan : list ReadPlan) (buffers : list (list Z)) (st : PState) :
    M S PState :=
  match plan with
  | [] => ret st
  | p :: plan =>
      if len (ps_entries st) >=? MAX_BATCH_ENTRIES then ret st
      else
        match buffers with
        | [] => panic
        | buffer :: buffers =>
            let! st := parse_buffer (parse_fuel buffer) max_bytes p buffer 0 st in
            parse_plans max_bytes plan buffers st
        end
  end.

(** * The operation *)

Definition commit_batch (col_name : string) (checkpoint held : bool) (hold_lock : bool) (chain_len : nat)
    (st : PState) : M Walrus unit :=
  let! W := getS in
  if checkpoint && (if hold_lock then held else bool_decide (is_Some (wa_reader W !! col_name))) then
    let! info := get_info col_name in
    let '(target, info) := update_state (read_consistency W) chain_len st info in
    put_info col_name info;;
    match target with
    | TargetTail blk_id off => index_set col_name (Z.lor blk_id TAIL_FLAG) off
    | TargetSealed idx off => index_set col_name idx off
    | TargetNone => ret tt
    end
  else ret tt.

Definition batch_read_for_topic (col_name : string) (max_bytes : Z) (checkpoint : bool)
    (start_offset : option Z) : M Walrus (list (list Z)) :=
  let has_start := match start_offset with Some _ => true | None => false end in
  let! W := getS in
  let writer_snapshot := snapshot_block <$> wa_writers W !! col_name in
  let! r := match start_offset with
            | Some req_offset => prepare_at col_name req_offset
            | None => prepare_cursor col_name
            end in
  let '(c, idx, off, tail_id, tail_off, held, trim, hint) := r in
  let! r := plan_chain held has_start max_bytes (drop idx c) idx off hint 0 in
  let '(plan, idx) := r in
  let! r := if (length c <=? idx)%nat
            then in_fs (plan_tail has_start writer_snapshot tail_id tail_off trim)
            else ret ([], trim) in
  let '(tail, trim) := r in
  let plan := plan ++ tail in
  if is_nil plan then ret []
  else
    let hold_lock := match read_consistency W with StrictlyAtOnce => true | _ => checkpoint && negb has_start end in
    let! buffers := in_fs (read_buffers plan) in
    let! st := parse_plans max_bytes plan buffers (parse_start trim) in
    (if ps_parsed st >? 0 then commit_batch col_name checkpoint held hold_lock (length c) st else ret tt);;
    (if checkpoint && negb has_start then decrement_topic_entry_count col_name (ps_parsed st) else ret tt);;
    ret (ps_entries st).
End batch_read.
