(* ===== verification/Recovery.v ===== *)
(** Opening an instance: [with_paths], [startup_chore] and
    [rebuild_topic_entry_counts_after_recovery] of [src/src/wal/runtime/walrus.rs].

    Recovery lists the data directory, walks every file in steps of the default block size,
    rebuilds the chain of each topic from the entries it can read, and restores the read
    cursors and entry counts from the persisted index. *)

From stdpp Require Import sorting.
From S2P Require Import Prelude Config Storage Block Trackers Allocator Index TopicClean Reader Writer TopicInv Walrus.

#[local] Open Scope walrus_scope.
#[local] Open Scope Z_scope.

(** * The data directory *)

(** [str::ends_with]. *)
Definition ends_with (suf s : string) : bool := String.prefix (String.rev suf) (String.rev s).

Definition has_slash (s : string) : bool :=
  match String.index 0 "/" s with Some _ => true | None => false end.

(** [str::strip_prefix]. *)
Fixpoint strip_prefix (p s : string) : option string :=
  match p, s with
  | EmptyString, _ => Some s
  | String a p, String b s => if decide (a = b) then strip_prefix p s else None
  | String _ _, EmptyString => None
  end.

(** The name of a file of the directory, without the directory. *)
Definition name_in (pm : WalPathManager) (path : string) : option string :=
  match strip_prefix (root pm +:+ "/") path with
  | Some name => if has_slash name then None else Some name
  | None => None
  end.

(** The files recovery looks at, in the order of their paths. *)
Definition recovery_files (pm : WalPathManager) (s : Fs) : list string :=
  merge_sort String.le
    (filter (λ p, is_Some (name_in pm p) ∧ ends_with "_index.db" p = false) (elements (fs_names s))).

(** * Scanning a file *)

(** The state recovery builds while it scans. *)
Record Scan := MkScan {
  sc_next : Z;                             (* next_block_id *)
  sc_reader : Reader;
  sc_trk : Trackers;
  sc_counts : gmap string (list Z);        (* topic_block_entry_counts *)
}.

Section recovery.
Context `{MetaCodec} `{MapCodec BlockPos} `{MapCodec CleanMarkerRecord}.

(** The inner loop: entries from [in_block_off] on, until one cannot be read. *)
Fixpoint scan_entries (fuel : nat) (stub : Block) (in_block_off used entries : Z) : M Fs (Z * Z) :=
  match fuel with
  | O => hang
  | S fuel =>
      let! r := attempt (Block_read stub in_block_off) in
      match r with
      | None => ret (used, entries)
      | Some (_, consumed) =>
          let off' := in_block_off + consumed in
          let used' := used + consumed in
          let entries' := sat_add64 entries 1 in
          if off' >=? DEFAULT_BLOCK_SIZE then ret (used', entries')
          else scan_entries fuel stub off' used' entries'
      end
  end.

(** An entry takes at least its header, so this many reads pass the end of a block. *)
Definition scan_fuel : nat := S (Z.to_nat (DEFAULT_BLOCK_SIZE / PREFIX_META_SIZE)).

(** The outcome of looking at one block: stop with this file, skip it, or record it. *)
Inductive block_scan := BStop | BSkip | BFound (col_name : string) (used entries : Z).

Definition scan_block (file_path : string) (mmap : StorageImpl) (id block_offset : Z) :
    M Fs block_scan :=
  let! probe := storage_read mmap block_offset 8 in
  if forallb (λ b, b =? 0) probe then ret BStop
  else
    let! meta_buf := storage_read mmap block_offset PREFIX_META_SIZE in
    let meta_len := header_meta_len meta_buf in
    if (meta_len =? 0) || (meta_len >? PREFIX_META_SIZE - 2) then ret BSkip
    else
      match archived_root (header_meta_bytes meta_buf) with
      | None => ret BStop
      | Some md =>
          let stub := MkBlock id file_path block_offset DEFAULT_BLOCK_SIZE mmap 0 in
          let! r := scan_entries scan_fuel stub 0 0 0 in
          let '(used, entries) := r in
          if used =? 0 then ret BStop else ret (BFound (owned_by md) used entries)
      end.

(** [register and append]. *)
Definition record_block (block : Block) (col_name : string) (entries : Z) (sc : Scan) : Scan :=
  let trk := add_block_to_file_state (b_file_path block)
               (register_block (b_id block) (b_file_path block) (sc_trk sc)) in
  let '(reader, counts) :=
    if bool_decide (col_name = "") then (sc_reader sc, sc_counts sc)
    else (append_block_to_chain col_name block (sc_reader sc),
          <[col_name := default [] (sc_counts sc !! col_name) ++ [entries]]> (sc_counts sc)) in
  MkScan (sc_next sc) reader trk counts.

Definition bump (sc : Scan) : Scan :=
  MkScan (sc_next sc + 1) (sc_reader sc) (sc_trk sc) (sc_counts sc).

(** The blocks of one file; [blocks] is how many default-size blocks can follow. *)
Fixpoint scan_file (blocks : nat) (file_path : string) (mmap : StorageImpl) (block_offset : Z)
    (sc : Scan) : M Fs Scan :=
  match blocks with
  | O => ret sc
  | S blocks =>
      let! r := scan_block file_path mmap (sc_next sc) block_offset in
      match r with
      | BStop => ret sc
      | BSkip => scan_file blocks file_path mmap (block_offset + DEFAULT_BLOCK_SIZE) (bump sc)
      | BFound col_name used entries =>
          let block := MkBlock (sc_next sc) file_path block_offset DEFAULT_BLOCK_SIZE mmap used in
          scan_file blocks file_path mmap (block_offset + DEFAULT_BLOCK_SIZE)
            (bump (record_block block col_name entries sc))
      end
  end.

(** All files; a file that cannot be opened is passed over. *)
Fixpoint scan_files (files : list string) (seen : list string) (sc : Scan) :
    M Fs (list string * Scan) :=
  match files with
  | [] => ret (seen, sc)
  | file_path :: files =>
      let! m := attempt (get_mmap_arc file_path) in
      match m with
      | None => scan_files files seen sc
      | Some mmap =>
          let sc := MkScan (sc_next sc) (sc_reader sc)
                      (register_file_if_absent file_path (sc_trk sc)) (sc_counts sc) in
          let! sc := scan_file (Z.to_nat BLOCKS_PER_FILE) file_path mmap 0 sc in
          scan_files files (seen ++ [file_path]) sc
      end
  end.

(** * Entry counts *)

(** [count_entries_in_block_up_to]. *)
Fixpoint count_entries (fuel : nat) (block : Block) (limit off count : Z) : M Fs Z :=
  match fuel with
  | O => hang
  | S fuel =>
      if off <? limit then
        let! r := attempt (Block_read block off) in
        match r with
        | None => ret count
        | Some (_, consumed) =>
            let next := sat_add64 off consumed in
            if next >? limit then ret count
            else count_entries fuel block limit next (sat_add64 count 1)
        end
      else ret count
  end.

Definition count_entries_in_block_up_to (block : Block) (limit : Z) : M Fs Z :=
  let limit := Z.min limit (b_used block) in
  count_entries (S (Z.to_nat (limit / PREFIX_META_SIZE + 1))) block limit 0 0.

Definition sumZ (l : list Z) : Z := foldr Z.add 0 l.

(** The entries of a block before an offset: all of them, or a partial count. *)
Definition consumed_in_block (info : ColReaderInfo) (per_block : list Z) (idx : nat) (off : Z) :
    M Fs Z :=
  match chain info !! idx with
  | None => ret 0
  | Some block =>
      if off >=? b_used block then ret (default 0 (per_block !! idx))
      else count_entries_in_block_up_to block off
  end.

(** The entries the persisted position [pos] has consumed. *)
Definition consumed_entries (pos : option BlockPos) (info : ColReaderInfo) (per_block : list Z) :
    M Fs Z :=
  match pos with
  | None => ret 0
  | Some pos =>
      if negb (Z.land (cur_block_idx pos) TAIL_FLAG =? 0) then
        match find_block (Z.ldiff (cur_block_idx pos) TAIL_FLAG) (chain info) with
        | None => ret 0
        | Some tail_idx =>
            let! part := consumed_in_block info per_block tail_idx (cur_block_offset pos) in
            ret (sat_add64 (sumZ (take tail_idx per_block)) part)
        end
      else
        let block_idx := Nat.min (Z.to_nat (cur_block_idx pos)) (length (chain info)) in
        let! part := consumed_in_block info per_block block_idx (cur_block_offset pos) in
        ret (sat_add64 (sumZ (take block_idx per_block)) part)
  end.

Fixpoint rebuild_counts (topics : list (string * ColReaderInfo)) (idx : WalIndex)
    (per_topic : gmap string (list Z)) (counts : gmap string Z) : M Fs (gmap string Z) :=
  match topics with
  | [] => ret counts
  | (topic, info) :: topics =>
      let per_block := default [] (per_topic !! topic) in
      let! consumed := consumed_entries (WalIndex_get topic idx) info per_block in
      rebuild_counts topics idx per_topic
        (<[topic := sat_sub64 (sumZ per_block) consumed]> counts)
  end.

(** * Read positions *)

(** A chain position from the index, clamped; the blocks behind it count as consumed. *)
Definition restore_position (pos : BlockPos) (info : ColReaderInfo) : ColReaderInfo :=
  let ib := Z.to_nat (Z.min (cur_block_idx pos) (len (chain info))) in
  let off := if (ib <? length (chain info))%nat
             then Z.min (cur_block_offset pos) (used_at (chain info) ib) else 0 in
  set_pos ib off info.

Definition restore_checkpoints (info : ColReaderInfo) (trk : Trackers) : Trackers :=
  let behind := take (cur_idx info) (chain info) in
  let trk := foldl (λ t b, set_checkpointed_true (b_id b) t) trk behind in
  match chain info !! cur_idx info with
  | Some b => if cur_off info >=? b_used b then set_checkpointed_true (b_id b) trk else trk
  | None => trk
  end.

Fixpoint restore_positions (topics : list (string * ColReaderInfo)) (idx : WalIndex)
    (r : Reader) (trk : Trackers) : Reader * Trackers :=
  match topics with
  | [] => (r, trk)
  | (topic, info) :: topics =>
      match WalIndex_get topic idx with
      | None => restore_positions topics idx r trk
      | Some pos =>
          let info := restore_position pos info in
          restore_positions topics idx (<[topic := info]> r) (restore_checkpoints info trk)
      end
  end.

(** * startup_chore and with_paths *)

Definition startup_chore : M Walrus unit :=
  let! W := getS in
  let files := recovery_files (paths (ae_alloc (wa_alloc W))) (wa_fs W) in
  let! r := in_fs (scan_files files [] (MkScan 1 (wa_reader W) (ae_trk (wa_alloc W)) ∅)) in
  let '(seen, sc) := r in
  modify (set_reader (sc_reader sc));;
  in_trk (λ _, sc_trk sc);;
  let topics := map_to_list (sc_reader sc) in
  let! counts := in_fs (rebuild_counts topics (read_offset_index W) (sc_counts sc) ∅) in
  modify (set_counts counts);;
  let '(reader, trk) := restore_positions topics (read_offset_index W) (sc_reader sc) (sc_trk sc) in
  modify (set_reader reader);;
  in_trk (λ _, foldl (λ t f, flush_check f t) trk seen);;
  in_alloc (fast_forward (sc_next sc)).

(** [start_background_workers]: the first instance of the process sets the deletion channel. *)
Definition set_deletion_channel (t : Trackers) : Trackers :=
  match DELETION_TX t with None => with_deletions (Some []) t | Some _ => t end.

(** [Walrus::with_paths], in a process with the trackers [trk]. *)
Definition with_paths (pm : WalPathManager) (mode : ReadConsistency) (schedule : FsyncSchedule)
    (trk : Trackers) : Fs → outcome Walrus * Fs := λ s,
  let s := set_fsync_schedule schedule s in
  match BlockAllocator_new pm s with
  | (Ok allocator, s) =>
      let trk := set_deletion_channel trk in
      let clean := clean_startup pm s in
      let idx := WalIndex_new_in pm "read_offset_idx" s in
      let instance := MkWalrus (MkAllocEnv s trk allocator) ∅ ∅ [] idx mode schedule clean ∅ in
      match startup_chore instance with
      | (Ok _, W) => (Ok W, wa_fs W)
      | (Err e, W) => (Err e, wa_fs W)
      | (Panic, W) => (Panic, wa_fs W)
      | (Hang, W) => (Hang, wa_fs W)
      end
  | (Err e, s) => (Err e, s)
  | (Panic, s) => (Panic, s)
  | (Hang, s) => (Hang, s)
  end.
End recovery.

(** * Opening an empty directory *)

Lemma strip_prefix_Some p s r : strip_prefix p s = Some r → s = p +:+ r.
Proof.
  revert s. induction p as [|a p IH]; intros s; cbn; [by intros [= ->]|].
  destruct s as [|b s]; [done|]. case_decide; [subst|done]. intros ->%IH. done.
Qed.

Lemma string_app_assoc (a b c : string) : (a +:+ b) +:+ c = a +:+ (b +:+ c).
Proof.
  induction a as [|x a IH]; [done|].
  change (String x ((a +:+ b) +:+ c) = String x (a +:+ (b +:+ c))). by rewrite IH.
Qed.

Lemma name_in_Some pm path name : name_in pm path = Some name → path = join pm name.
Proof.
  rewrite /name_in /join. destruct (strip_prefix _ _) eqn:E; [|done]. case_match; [done|].
  intros [= <-]. apply strip_prefix_Some in E as ->. by rewrite string_app_assoc.
Qed.

(** No file of the directory exists. *)
Definition fresh_dir (pm : WalPathManager) (s : Fs) : Prop := ∀ name, join pm name ∉ fs_names s.

Lemma elem_of_recovery_files pm s p :
  p ∈ recovery_files pm s → p ∈ fs_names s ∧ ∃ name, p = join pm name.
Proof.
  rewrite /recovery_files merge_sort_Permutation list_elem_of_filter elem_of_elements.
  intros [[[name Hn] _] Hp]. split; [done|]. exists name. by apply name_in_Some.
Qed.

(** The file a new allocator starts with: kept, and all zero. *)
Lemma BlockAllocator_new_file pm s a s' :
  fs_inv s → BlockAllocator_new pm s = (Ok a, s') →
  ∃ name, let p := join pm name in
  b_file_path (next_block a) = p ∧ keeper s' !! p = Some (b_mmap (next_block a)) ∧
  file_of s' p = MkFile ∅ MAX_FILE_SIZE ∧ fs_names s' = {[p]} ∪ fs_names s ∧
  (∀ q, q ≠ p → file_of s' q = file_of s q).
Proof.
  intros Hfs. rewrite /BlockAllocator_new /bind /create_new_file /now_millis_str /bind /getS /modify /=.
  destruct (env_create_ok s); [|done]. cbn.
  set name := pretty _. set p := join pm name.
  rewrite /get_mmap_arc /get_mmap_arc_read /bind /= (fi_keeper_read _ Hfs) lookup_empty.
  assert (∀ s1 : Fs, fs_files s1 = <[p := MkFile ∅ MAX_FILE_SIZE]> (fs_files s) →
    file_of s1 p = MkFile ∅ MAX_FILE_SIZE ∧ ∀ q, q ≠ p → file_of s1 q = file_of s q) as Hf.
  { intros s1 E. rewrite /file_of E lookup_insert_eq. split; [done|].
    intros q Hq. by rewrite lookup_insert_ne. }
  destruct (keeper s !! p) as [st|] eqn:Hk.
  { intros [= <- <-]. exists name. split_and!; try done; by apply Hf. }
  rewrite /create_storage_impl /bind /= bool_decide_eq_true_2; [set_solver|].
  destruct (USE_FD_BACKEND s); cbn; intros [= <- <-]; exists name; fold p; cbn;
    rewrite lookup_insert_eq; split_and!; try done; by apply Hf.
Qed.

Lemma read_zero_file off n : read_bytes (MkFile ∅ MAX_FILE_SIZE) off n = replicate (Z.to_nat n) 0.
Proof.
  apply list_eq. intros i. destruct (decide (Z.of_nat i < n)).
  - rewrite lookup_read_bytes // lookup_replicate_2; [lia|]. by rewrite /byte_at /= lookup_empty.
  - rewrite !lookup_ge_None_2 // ?length_read_bytes ?length_replicate; lia.
Qed.

(** * Index files are not log files *)

Lemma pretty_N_go_head x s :
  pretty_N_go x s = s ∨ ∃ c s', pretty_N_go x s = String (pretty_N_char c) s'.
Proof.
  revert s. induction (N.lt_wf_0 x) as [x _ IH]; intros s.
  destruct (decide (0 < x)%N) as [Hx|Hx].
  - rewrite pretty_N_go_step //. right.
    destruct (IH (x `div` 10)%N) with (s := String (pretty_N_char (x `mod` 10)) s) as [->|?];
      [by apply N.div_lt|by eexists _, _|done].
  - left. assert (x = 0%N) as -> by lia. apply pretty_N_go_0.
Qed.

Lemma pretty_N_head (n : N) : ∃ c s', pretty n = String (pretty_N_char c) s'.
Proof.
  rewrite /pretty /pretty_N. case_decide; [by exists 0%N, ""|].
  rewrite pretty_N_go_step; [lia|].
  destruct (pretty_N_go_head (n `div` 10) (String (pretty_N_char (n `mod` 10)) "")) as [->|?];
    [by eexists _, _|done].
Qed.

Lemma pretty_N_char_r c : pretty_N_char c ≠ Ascii.ascii_of_nat 114.
Proof. rewrite /pretty_N_char. by repeat case_match. Qed.

Definition read_index_path (pm : WalPathManager) : string := index_path pm "read_offset_idx".

Lemma made_not_index pm s p :
  made pm s p → p ≠ read_index_path pm ∧ p ≠ tmp_path (read_index_path pm).
Proof.
  intros (k & -> & _). rewrite /path_of /read_index_path /index_path /tmp_path /join.
  destruct (pretty_N_head (Z.to_N k)) as (c & s' & ->). pose proof (pretty_N_char_r c).
  split.
  - intros E%string_app_inj%string_app_inj. by injection E.
  - rewrite !string_app_assoc. intros E%string_app_inj%string_app_inj. by injection E.
Qed.

Section open.
Context `{MetaCodecLaws} `{MapCodec BlockPos} `{MapCodec CleanMarkerRecord}.

Lemma scan_file_zero n p st off s sc :
  st_path st = p → in_range st off 8 → file_of s p = MkFile ∅ MAX_FILE_SIZE →
  scan_file (S n) p st off sc s = (Ok sc, s).
Proof.
  intros Hp Hr Hz. cbn [scan_file]. rewrite /scan_block /bind storage_read_ok // Hp Hz read_zero_file. done.
Qed.

(** Scanning a directory whose only file is the new one changes nothing but the trackers. *)
Lemma scan_files_fresh files seen sc s p st :
  Forall (λ f, f = p) files → keeper_read s = ∅ → keeper s !! p = Some st → st_path st = p →
  in_range st 0 8 → file_of s p = MkFile ∅ MAX_FILE_SIZE →
  ∃ seen' trk, scan_files files seen sc s =
    (Ok (seen', MkScan (sc_next sc) (sc_reader sc) trk (sc_counts sc)), s).
Proof.
  intros Hall Hkr Hk Hp Hr Hz. revert seen sc.
  induction Hall as [|f files -> Hall IH]; intros seen sc; cbn [scan_files].
  { exists seen, (sc_trk sc). by destruct sc. }
  assert (attempt (get_mmap_arc p) s = (Ok (Some st), s)) as E.
  { by rewrite /attempt /get_mmap_arc /get_mmap_arc_read /bind /= Hkr lookup_empty Hk. }
  rewrite /bind E. change (Z.to_nat BLOCKS_PER_FILE) with (S 99).
  rewrite scan_file_zero //. set sc' := MkScan _ _ _ _. destruct (IH (seen ++ [p]) sc') as (seen' & trk & ->).
  by exists seen', trk.
Qed.

Lemma fs_read_fresh pm name s : fresh_dir pm s → fs_read (join pm name) s = None.
Proof. intros Hd. by rewrite /fs_read bool_decide_eq_false_2. Qed.

Lemma fs_inv_schedule sch s : fs_inv s → fs_inv (set_fsync_schedule sch s).
Proof. intros []. rewrite /set_fsync_schedule. by case_match; split. Qed.

Lemma fs_grows_schedule pm sch s s' : fs_grows pm (set_fsync_schedule sch s) s' → fs_grows pm s s'.
Proof. rewrite /set_fsync_schedule. case_match; [done|]. intros []. by split. Qed.

Lemma startup_chore_fresh W p :
  p = b_file_path (next_block (ae_alloc (wa_alloc W))) →
  wa_reader W = ∅ → keeper_read (wa_fs W) = ∅ →
  keeper (wa_fs W) !! p = Some (b_mmap (next_block (ae_alloc (wa_alloc W)))) →
  st_path (b_mmap (next_block (ae_alloc (wa_alloc W)))) = p →
  in_range (b_mmap (next_block (ae_alloc (wa_alloc W)))) 0 8 →
  file_of (wa_fs W) p = MkFile ∅ MAX_FILE_SIZE →
  Forall (λ f, f = p) (recovery_files (paths (ae_alloc (wa_alloc W))) (wa_fs W)) →
  lock_flag (ae_alloc (wa_alloc W)) = false → 1 ≤ b_id (next_block (ae_alloc (wa_alloc W))) →
  ∃ trk, startup_chore W =
    (Ok tt, set_alloc (MkAllocEnv (wa_fs W) trk (ae_alloc (wa_alloc W))) (set_counts ∅ W)).
Proof.
  intros Hp Hre Hkr Hk Hst Hr Hz Hall Hl Hid.
  destruct (scan_files_fresh _ [] (MkScan 1 (wa_reader W) (ae_trk (wa_alloc W)) ∅) _ _ _ Hall Hkr Hk Hst Hr Hz)
    as (seen & trk & E).
  exists (foldl (λ t f, flush_check f t) trk seen).
  rewrite /startup_chore /bind /getS /in_fs /in_alloc /on_fs /zoom /wa_fs in E |- *.
  rewrite E Hre /= map_to_list_empty. cbn.
  rewrite /fast_forward /bind /lock /= Hl /=.
  destruct (Z.gtb_spec 1 (b_id (next_block (ae_alloc (wa_alloc W))))); [lia|].
  destruct W as [[s t [nb lf pm]] r ws tx idx mode sched clean counts]; cbn in *. by subst.
Qed.

(** Opening an instance on an empty directory: no reader, no writer, empty index. *)
Lemma with_paths_fresh pm mode sched trk s :
  fs_inv s → fresh_dir pm s → env_create_ok s = true → LAST_MILLIS s < U64_MAX →
  ∃ W, with_paths pm mode sched trk s = (Ok W, wa_fs W) ∧ alloc_inv (wa_alloc W) ∧
    fs_grows pm s (wa_fs W) ∧ paths (ae_alloc (wa_alloc W)) = pm ∧ wa_reader W = ∅ ∧
    wa_writers W = ∅ ∧ fsync_schedule W = sched ∧ read_consistency W = mode ∧
    topic_entry_counts W = ∅ ∧
    read_offset_index W = MkIndex ∅ (index_path pm "read_offset_idx").
Proof.
  intros Hfs Hd Hc Hm. rewrite /with_paths. set s0 := set_fsync_schedule sched s.
  assert (fs_inv s0) as Hfs0 by by apply fs_inv_schedule.
  assert (env_create_ok s0 = true ∧ LAST_MILLIS s0 = LAST_MILLIS s ∧ fs_names s0 = fs_names s)
    as (Hc0 & Hm0 & Hn0) by by rewrite /s0 /set_fsync_schedule; case_match.
  destruct (BlockAllocator_new_ok pm s0 (set_deletion_channel trk) Hfs0 Hc0) as (a & s1 & E & Ha & Hg & Hpm & _); [lia|].
  destruct (BlockAllocator_new_file pm s0 a s1 Hfs0 E) as (name & Hp & Hk & Hz & Hn & Hother).
  rewrite E. set W0 := MkWalrus _ _ _ _ _ _ _ _ _.
  assert (∀ p, p ∈ fs_names s1 → (∃ n, p = join pm n) → p = join pm name) as Honly.
  { intros p Hin (n & ->). rewrite Hn Hn0 in Hin. apply elem_of_union in Hin as [Hin|Hin].
    - by apply elem_of_singleton in Hin.
    - by apply Hd in Hin. }
  assert (fs_read (read_index_path pm) s1 = None) as Hidx.
  { rewrite /fs_read bool_decide_eq_false_2 //. intros Hin.
    destruct (made_not_index _ _ _ (ai_made _ Ha)) as [Hne _]. cbn in Hne. rewrite Hpm in Hne.
    apply Hne. rewrite Hp. symmetry. by apply Honly; [|eexists]. }
  destruct (startup_chore_fresh W0 (join pm name)) as (trk' & ->);
    [done|done|apply (fi_keeper_read _ (ai_fs _ Ha))|done| | |done| |apply Ha|apply (ai_id _ Ha)|].
  - rewrite -Hp. apply (ai_handle _ Ha).
  - destruct (ai_handle _ Ha) as [_ Hh]. cbn in Hh |- *. destruct (b_mmap _); [|done]. cbn. consts.
  - rewrite /= Hpm. apply Forall_forall. intros p [Hin Hname]%elem_of_recovery_files. by apply Honly.
  - eexists. split; [done|]. cbn. split_and!; try done.
    + by apply (alloc_inv_trk trk') in Ha.
    + by eapply fs_grows_schedule.
    + rewrite /WalIndex_new_in /load_map. by rewrite /read_index_path in Hidx; rewrite Hidx.
Qed.
End open.

(** * Scanning a file with entries *)

Section scan.
Context `{MetaCodecLaws}.

(** The block at [off], as the scan sees it. *)
Definition stub (path : string) (mmap : StorageImpl) (id off used : Z) : Block :=
  MkBlock id path off DEFAULT_BLOCK_SIZE mmap used.

Lemma seg_stub s path mmap id off used id' used' o u ds :
  seg s (stub path mmap id off used) o u ds → seg s (stub path mmap id' off used') o u ds.
Proof. induction 1; econstructor; eauto. Qed.

Lemma seg_length s b o u ds : seg s b o u ds → len ds * PREFIX_META_SIZE ≤ u - o.
Proof.
  induction 1 as [|o u d ds Hr Hs IH]; [rewrite len_nil; lia|].
  rewrite len_cons. rewrite /entry_need in IH. pose proof (len_nonneg d). lia.
Qed.

(** The scan of a block ends here: at its end, or at an entry that cannot be read. *)
Definition scan_end s (b : Block) (u : Z) : Prop :=
  u = DEFAULT_BLOCK_SIZE ∨ ∃ e, (Block_read b u s).1 = Err e.

Lemma attempt_read_err s b u e : (Block_read b u s).1 = Err e → attempt (Block_read b u) s = (Ok None, s).
Proof.
  intros E. pose proof (Block_read_state b u s) as Hst. rewrite /attempt.
  destruct (Block_read b u s) as [o s']. cbn in *. by subst.
Qed.

Lemma attempt_read_ok s b o d :
  (Block_read b o s).1 = Ok (d, entry_need d) →
  attempt (Block_read b o) s = (Ok (Some (d, entry_need d)), s).
Proof.
  intros E. pose proof (Block_read_state b o s) as Hst. rewrite /attempt.
  destruct (Block_read b o s) as [r s']. cbn in *. by subst.
Qed.

Lemma scan_entries_ok s b o u ds fuel used entries :
  seg s b o u ds → u ≤ DEFAULT_BLOCK_SIZE → o < DEFAULT_BLOCK_SIZE → scan_end s b u →
  (length ds < fuel)%nat → 0 ≤ entries → entries + len ds ≤ U64_MAX →
  scan_entries fuel b o used entries s = (Ok (used + (u - o), entries + len ds), s).
Proof.
  intros Hs. revert fuel used entries.
  induction Hs as [o|o u d ds Hr Hs IH]; intros fuel used entries Hu Ho He Hf H0e Hmax;
    (destruct fuel as [|fuel]; [cbn in Hf; lia|]); cbn [scan_entries].
  - destruct He as [?|[e He]]; [lia|]. rewrite /bind (attempt_read_err _ _ _ e) //.
    by rewrite len_nil Z.sub_diag !Z.add_0_r.
  - rewrite /bind (attempt_read_ok _ _ _ d) //. rewrite len_cons in Hmax. pose proof (len_nonneg ds).
    rewrite /sat_add64 Z.min_l; [lia|].
    destruct (Z.geb_spec (o + entry_need d) DEFAULT_BLOCK_SIZE) as [Hge|Hlt].
    + pose proof (seg_le _ _ _ _ _ Hs). assert (ds = []) as ->.
      { destruct (decide (ds = [])); [done|]. apply (seg_lt _ _ _ _ _ Hs) in n. lia. }
      apply seg_empty in Hs. rewrite len_cons len_nil Z.add_0_r.
      by replace (u - o) with (entry_need d) by lia.
    + rewrite IH //; [cbn in Hf; lia|lia|lia|]. rewrite len_cons.
      by replace (used + (u - o)) with (used + entry_need d + (u - (o + entry_need d))) by lia;
        replace (entries + (1 + len ds)) with (entries + 1 + len ds) by lia.
Qed.

(** A block on disk: the entries [ds] of topic [col] in its first [used] bytes. *)
Record block_image s (path : string) (mmap : StorageImpl) (off : Z) (col : string) (used : Z)
    (ds : list (list Z)) : Prop := {
  bi_seg : seg s (stub path mmap 0 off 0) 0 used ds;
  bi_some : ds ≠ [];
  bi_fit : used ≤ DEFAULT_BLOCK_SIZE;
  bi_end : scan_end s (stub path mmap 0 off 0) used;
  bi_owner : ∃ m, archived_root (header_meta_bytes
               (read_bytes (file_of s (st_path mmap)) off PREFIX_META_SIZE)) = Some m ∧ owned_by m = col;
}.

(** A header with a length does not start with eight zero bytes. *)
Lemma probe_nonzero f off :
  header_meta_len (read_bytes f off PREFIX_META_SIZE) ≠ 0 →
  forallb (λ b, b =? 0) (read_bytes f off 8) = false.
Proof.
  intros Hl. destruct (forallb _ _) eqn:E; [|done]. exfalso. apply Hl.
  rewrite forallb_forall in E.
  assert (∀ i : nat, Z.of_nat i < 8 → byte_at f (off + Z.of_nat i) = 0) as Hz.
  { intros i Hi. apply Z.eqb_eq, E, list_elem_of_In, list_elem_of_lookup. exists i. by apply lookup_read_bytes. }
  rewrite /header_meta_len !lookup_read_bytes; [done|done|]. cbn [default].
  by rewrite (Hz 0%nat) // (Hz 1%nat).
Qed.

Lemma scan_block_ok s path mmap id off col used ds :
  block_image s path mmap off col used ds →
  scan_block path mmap id off s = (Ok (BFound col used (len ds)), s).
Proof.
  intros [Hs Hne Hfit Hend (m & Hm & Ho)].
  destruct ds as [|d ds]; [done|]. pose proof Hs as Hs0. inversion Hs as [|? ? ? ? Hr Hs']; subst.
  apply Block_read_inv in Hr as (Hrange & _ & _ & Hl1 & Hl2 & _). cbn in Hrange, Hl1, Hl2.
  rewrite Z.add_0_r in Hrange Hl1 Hl2. pose proof (entry_need_pos d).
  pose proof (seg_length _ _ _ _ _ Hs0) as Hlen. pose proof (seg_le _ _ _ _ _ Hs') as Hle.
  rewrite /scan_block /bind storage_read_ok.
  { destruct mmap; cbn in *; [|done]. rewrite /entry_need in Hrange. pose proof (len_nonneg d). consts. }
  rewrite probe_nonzero // storage_read_ok.
  { destruct mmap; cbn in *; [|done]. rewrite /entry_need in Hrange. pose proof (len_nonneg d). lia. }
  rewrite (proj2 (orb_false_iff _ _)); [split; lia|]. rewrite Hm.
  rewrite (scan_entries_ok _ _ 0 used (d :: ds)).
  - eapply seg_stub, Hs0.
  - done.
  - done.
  - destruct Hend as [?|[e He]]; [by left|]. right. by exists e.
  - rewrite /scan_fuel. rewrite /len in Hlen. apply Nat.lt_succ_r.
    apply Nat2Z.inj_le. rewrite Z2Nat.id; [done|]. apply Z.div_le_lower_bound; [done|]. lia.
  - done.
  - rewrite /PREFIX_META_SIZE in Hlen. consts.
  - rewrite (proj2 (Z.eqb_neq _ _)); [lia|]. by rewrite Z.add_0_l Z.sub_0_r Z.add_0_l.
Qed.

(** What recovery makes of consecutive blocks. *)
Fixpoint recovered (path : string) (mmap : StorageImpl)
    (bl : list (string * Z * list (list Z))) (off : Z) (sc : Scan) : Scan :=
  match bl with
  | [] => sc
  | (col, used, ds) :: bl =>
      recovered path mmap bl (off + DEFAULT_BLOCK_SIZE)
        (bump (record_block (stub path mmap (sc_next sc) off used) col (len ds) sc))
  end.

(** The blocks of a file from [off] on, up to the first unused one or the end of the file. *)
Inductive file_image s (path : string) (mmap : StorageImpl) :
    nat → Z → list (string * Z * list (list Z)) → Prop :=
  | fi_full off : file_image s path mmap 0 off []
  | fi_unused n off : in_range mmap off 8 →
      read_bytes (file_of s (st_path mmap)) off 8 = replicate 8 0 →
      file_image s path mmap n off []
  | fi_block n off col used ds bl : block_image s path mmap off col used ds →
      file_image s path mmap n (off + DEFAULT_BLOCK_SIZE) bl →
      file_image s path mmap (S n) off ((col, used, ds) :: bl).

(** C35: recovery of a log file of default-size blocks finds every block up to the first
    unused one, with its topic, the number of bytes it uses and the number of its entries,
    gives the blocks consecutive ids and appends each to its topic's chain, without changing
    the file. *)
Theorem scan_file_recovers s path mmap n off bl sc :
  file_image s path mmap n off bl →
  scan_file n path mmap off sc s = (Ok (recovered path mmap bl off sc), s).
Proof.
  intros Hf. revert sc. induction Hf as [off|n off Hr Hz|n off col used ds bl Hb Hf IH]; intros sc.
  - done.
  - destruct n; [done|]. cbn [scan_file]. by rewrite /scan_block /bind storage_read_ok // Hz.
  - cbn [scan_file]. rewrite /bind (scan_block_ok _ _ _ _ _ _ _ _ Hb). apply IH.
Qed.
End scan.
