(* ===== verification/EngineInv.v ===== *)
(** The invariant of a whole instance, and what reads and appends do to it.

    The queues that the files, readers and writers hold are related to one abstract queue per
    topic; the theorem on whole histories is in [Fifo], batch reads are in [BatchReadOk]. *)

From S2P Require Import Prelude Config Storage Block Trackers Allocator Index TopicClean Reader Writer TopicInv Core Batch Walrus Recovery.

#[local] Open Scope Z_scope.

(** What [persist] does to the files: nothing but the index file and its temporary. *)
Lemma replace_file_files path bs s o s' :
  replace_file path bs s = (o, s') →
  fs_env_eq s s' ∧ ∀ p, p ≠ path → p ≠ tmp_path path → file_of s' p = file_of s p.
Proof.
  rewrite /replace_file /= /fs_write /fs_sync /fs_rename /bind /getS /modify /=.
  destruct (env_create_ok s); cbn; [|by intros [= <- <-]].
  rewrite bool_decide_eq_true_2; [set_solver|].
  destruct (env_flush_ok s); cbn; [rewrite bool_decide_eq_true_2; [set_solver|]|]; intros [= <- <-];
    (split; [done|]); intros p Hp Ht; rewrite /file_of /= !lookup_insert_ne //.
Qed.

Section engine_inv.
Context `{MetaCodecLaws} `{MapCodec BlockPos} `{IoUringReliable}.

(** The invariant: queues [σ] on disk, counters for the queues [τ]. *)
Record winv (g : ghost) (W : Walrus) (σ τ : queues) : Prop := {
  wi_core : core_inv g (wa_alloc W) (wa_fs W) (wa_reader W) (wa_writers W) (fsync_schedule W) σ;
  wi_hyd t : hydrated_from_index (info_of (wa_reader W) t) = false →
             idx_store (read_offset_index W) !! t = None;
  wi_count t : get_topic_entry_count t W = len (pending τ t);
  wi_index : idx_path (read_offset_index W) = read_index_path (paths (ae_alloc (wa_alloc W)));
}.

(** The parts of the state an operation on the reader side leaves alone. *)
Definition reader_side (W W' : Walrus) : Prop :=
  wa_writers W' = wa_writers W ∧ ae_alloc (wa_alloc W') = ae_alloc (wa_alloc W) ∧
  fs_env_eq (wa_fs W) (wa_fs W').

#[global] Instance reader_side_preorder : PreOrder reader_side.
Proof.
  split; [by intros W|]. intros W1 W2 W3 (E1 & E2 & E3) (E4 & E5 & E6).
  split_and!; [congruence..|by etrans].
Qed.

(** ** Steps on the reader side *)

Lemma winv_put_info g W σ τ t info q :
  winv g W σ τ → hydrated_from_index info = true →
  topic_ok g (wa_fs W) (next_id (wa_alloc W)) (fsync_schedule W) t info (wa_writers W !! t) q →
  winv g (set_reader (<[t := info]> (wa_reader W)) W) (<[t := q]> σ) τ.
Proof.
  intros [Hc Hh Hn Hi] Hhyd Ht. split; cbn; [|..|done|done].
  - eapply (core_inv_info _ _ _ _ _ _ _ _ _ t q); [done|by rewrite info_of_insert| | |].
    + intros. by rewrite info_of_insert_ne.
    + by rewrite pending_insert.
    + intros. by rewrite pending_insert_ne.
  - intros t'. destruct (decide (t' = t)) as [->|]; [by rewrite info_of_insert Hhyd|].
    rewrite info_of_insert_ne //. apply Hh.
Qed.

Lemma winv_index_set g W σ τ t i o :
  winv g W σ τ → hydrated_from_index (info_of (wa_reader W) t) = true →
  ∃ W', index_set t i o W = (Ok tt, W') ∧ winv g W' σ τ ∧ reader_side W W' ∧
    wa_reader W' = wa_reader W.
Proof.
  intros [Hc Hh Hn Hi] Hhyd. rewrite /index_set /WalIndex_set /WalIndex_persist /=.
  rewrite /ignore /in_fs /in_alloc /zoom /on_fs /zoom /persist_map /= Hi.
  set idx' := MkIndex _ _. set pm := paths (ae_alloc (wa_alloc W)).
  assert (∀ s', fs_env_eq (wa_fs W) s' →
    (∀ p, p ≠ read_index_path pm → p ≠ tmp_path (read_index_path pm) → file_of s' p = file_of (wa_fs W) p) →
    winv g (set_alloc (ae_set_fs s' (wa_alloc W)) (set_index idx' W)) σ τ) as Hgo.
  { intros s' Hs Hf. split; cbn; [|..|done|done].
    - apply (core_inv_env g (wa_alloc W)); [|done|].
      2:{ intros p Hp. destruct (made_not_index _ _ _ Hp). rewrite -/(wa_fs W) Hf //. }
      eapply core_inv_files; [done|].
      intros t' b Hb j Hj. apply (ci_ghost _ _ _ _ _ _ _ Hc) in Hb as [Ho _].
      destruct (made_not_index _ _ _ (ow_made _ _ Ho)). by rewrite Hf.
    - intros t' Ht'. rewrite lookup_insert_ne; [by intros <-; congruence|]. by apply Hh. }
  destruct (map_to_bytes _) as [bs|]; cbn.
  - destruct (replace_file _ bs (ae_fs (wa_alloc W))) as [out s'] eqn:E.
    pose proof (replace_file_ends _ _ _ _ _ E) as Ho. apply replace_file_files in E as [Hs Hf].
    specialize (Hgo s' Hs Hf).
    destruct out; try done; (eexists; split; [done|]); by split_and!.
  - eexists. split; [done|]. split_and!; try done. by apply (Hgo (wa_fs W)).
Qed.

Lemma winv_trk g W σ τ f :
  winv g W σ τ → winv g (set_alloc (ae_set_trk (f (ae_trk (wa_alloc W))) (wa_alloc W)) W) σ τ.
Proof. intros [Hc Hh Hn Hi]. split; try done. apply (core_inv_env g (wa_alloc W)); [done..|apply logs_kept_refl]. Qed.

Lemma winv_ext g W σ σ' τ τ' :
  (∀ t, pending σ' t = pending σ t) → (∀ t, pending τ' t = pending τ t) →
  winv g W σ τ → winv g W σ' τ'.
Proof.
  intros Hσ Hτ [[Ha Hg Ht] Hh Hn Hi]. split; try done.
  - split; [done..|]. intros t. by rewrite Hσ.
  - intros t. by rewrite Hτ.
Qed.

Lemma pending_same σ t q : pending σ t = q → ∀ t', pending (<[t := q]> σ) t' = pending σ t'.
Proof.
  intros <- t'. destruct (decide (t' = t)) as [->|];
    [by rewrite pending_insert|by rewrite pending_insert_ne].
Qed.

Lemma winv_decrement g W σ τ t n :
  winv g W σ τ →
  ∃ W', decrement_topic_entry_count t (Z.of_nat n) W = (Ok tt, W') ∧
    winv g W' σ (<[t := drop n (pending τ t)]> τ) ∧ reader_side W W' ∧ wa_reader W' = wa_reader W.
Proof.
  intros Hi. rewrite /decrement_topic_entry_count. destruct (Z.eqb_spec (Z.of_nat n) 0) as [Hz|Hz].
  { exists W. split_and!; [done| |done|done]. replace n with 0%nat by lia.
    eapply winv_ext; [done| |done]. by apply pending_same. }
  destruct Hi as [Hc Hh Hn Hi]. eexists. split; [done|]. split; [|done]. split; try done.
  intros t'. rewrite {1}/get_topic_entry_count [topic_entry_counts _]/=.
  destruct (decide (t' = t)) as [->|].
  - rewrite lookup_insert_eq pending_insert [default _ _]/= Hn /sat_sub64 /len length_drop. lia.
  - rewrite lookup_insert_ne // pending_insert_ne //. apply Hn.
Qed.

Lemma should_persist_same mode info force :
  same_position info (should_persist mode info force).2 ∧
  hydrated_from_index (should_persist mode info force).2 = hydrated_from_index info.
Proof. by destruct (should_persist_pos mode info force) as (?&?&?&?&?&?). Qed.

Lemma commit_read_ok g W σ τ t info i o q :
  winv g W σ τ → hydrated_from_index info = true →
  topic_ok g (wa_fs W) (next_id (wa_alloc W)) (fsync_schedule W) t info (wa_writers W !! t) q →
  ∃ W', commit_read t info i o W = (Ok tt, W') ∧
    winv g W' (<[t := q]> σ) (<[t := drop 1 (pending τ t)]> τ) ∧ reader_side W W'.
Proof.
  intros Hi Hhyd Ht. rewrite /commit_read {1}/bind {1}/getS.
  destruct (should_persist_same (read_consistency W) info false) as [Hp Hhyd'].
  destruct (should_persist _ info false) as [p info']; cbn in Hp, Hhyd'. rewrite Hhyd in Hhyd'.
  pose proof (winv_put_info _ _ _ _ _ _ _ Hi Hhyd' (topic_ok_same _ _ _ _ _ _ _ _ _ Hp Ht)) as Hi1.
  rewrite {1}/bind {1}/put_info {1}/modify. set W1 := set_reader _ W in Hi1 |- *.
  assert (∃ W2, (if p then index_set t i o else ret tt) W1 = (Ok tt, W2) ∧
    winv g W2 (<[t := q]> σ) τ ∧ reader_side W1 W2) as (W2 & E2 & Hi2 & Hr2).
  { destruct p; [|by exists W1].
    destruct (winv_index_set g W1 _ _ t i o Hi1) as (W2 & ? & ? & ? & ?); [|by exists W2].
    by rewrite /W1 /= info_of_insert. }
  destruct (winv_decrement g W2 _ _ t 1 Hi2) as (W3 & E3 & Hi3 & Hr3 & _).
  exists W3. split_and!; [by rewrite /bind E2 E3|done|]. etrans; [|done]. by etrans.
Qed.

Lemma persist_forced_ok g W σ τ t i o :
  winv g W σ τ → hydrated_from_index (info_of (wa_reader W) t) = true →
  ∃ W', persist_forced t (info_of (wa_reader W) t) i o W = (Ok tt, W') ∧
    winv g W' σ τ ∧ reader_side W W' ∧
    same_position (info_of (wa_reader W) t) (info_of (wa_reader W') t) ∧
    hydrated_from_index (info_of (wa_reader W') t) = true.
Proof.
  intros Hi Hhyd. set info := info_of (wa_reader W) t in Hhyd |- *.
  rewrite /persist_forced {1}/bind {1}/getS.
  destruct (should_persist_same (read_consistency W) info true) as [Hp Hhyd'].
  destruct (should_persist _ info true) as [p info']; cbn in Hp, Hhyd'. rewrite Hhyd in Hhyd'.
  pose proof (ci_topic _ _ _ _ _ _ _ (wi_core _ _ _ _ Hi) t) as Ht.
  pose proof (winv_put_info _ _ _ _ _ _ _ Hi Hhyd' (topic_ok_same _ _ _ _ _ _ _ _ _ Hp Ht)) as Hi1.
  eapply winv_ext in Hi1; [|intros t'|done]; last first.
  { instantiate (1 := σ). destruct (decide (t' = t)) as [->|];
      [by rewrite pending_insert|by rewrite pending_insert_ne]. }
  rewrite {1}/bind {1}/put_info {1}/modify. set W1 := set_reader _ W in Hi1 |- *.
  assert (info_of (wa_reader W1) t = info') as Hinfo by by rewrite /W1 /= info_of_insert.
  destruct p; [|exists W1; by rewrite Hinfo].
  destruct (winv_index_set g W1 _ _ t i o Hi1) as (W2 & E2 & Hi2 & Hr2 & Er); [by rewrite Hinfo|].
  exists W2. rewrite Er Hinfo. split_and!; try done; apply Hr2 || apply Hp.
Qed.

(** ** The read loop *)

(** What a read does to the queues. *)
Definition spec_read (t : string) (checkpoint : bool) (σ : queues) : queues :=
  if checkpoint then <[t := tail (pending σ t)]> σ else σ.

(** Delivering [d], with or without a commit. *)
Lemma deliver_ok (c : bool) g W σ τ t info i o d q :
  winv g W σ τ → (c = true → τ = σ) → hydrated_from_index info = true → pending σ t = d :: q →
  topic_ok g (wa_fs W) (next_id (wa_alloc W)) (fsync_schedule W) t info (wa_writers W !! t) q →
  ∃ W', ((if c then commit_read t info i o else ret tt);; ret (Some d)) W =
      (Ok (head (pending σ t)), W') ∧
    winv g W' (spec_read t c σ) (spec_read t c τ) ∧ reader_side W W'.
Proof.
  intros Hi Hc Hhyd Hq Ht. rewrite Hq. destruct c; cbn [spec_read head]; [|by exists W]. rewrite (Hc eq_refl) in Hi |- *.
  destruct (commit_read_ok g W σ σ t info i o q Hi Hhyd Ht) as (W' & E & Hi' & Hr).
  exists W'. rewrite /bind E. rewrite Hq /= in Hi' |- *. done.
Qed.

Lemma in_fs_pure {A} (m : M Fs A) o W : m (wa_fs W) = (o, wa_fs W) → in_fs m W = (o, W).
Proof.
  intros E. rewrite /in_fs /in_alloc /on_fs /zoom /=. rewrite /wa_fs in E. rewrite E.
  by destruct W as [[]].
Qed.

(** The answer of a caught-up read. *)
Lemma nothing_ok c g W W' σ τ t :
  pending σ t = [] → (c = true → τ = σ) → winv g W' σ τ → reader_side W W' →
  ∃ W'', ret None W' = (Ok (head (pending σ t)), W'') ∧
    winv g W'' (spec_read t c σ) (spec_read t c τ) ∧ reader_side W W''.
Proof.
  intros Hq Hc Hi Hr. exists W'. rewrite Hq. split_and!; [done| |done].
  destruct c; [|done]. rewrite (Hc eq_refl) in Hi |- *. cbn. eapply winv_ext; [..|done]; by apply pending_same; rewrite Hq.
Qed.

(** The tail of the active block, when no position was persisted. *)
Lemma settle_tail_ok c g W σ τ t w :
  winv g W σ τ → hydrated_from_index (info_of (wa_reader W) t) = true →
  ∃ W', settle_tail t c (current_block w) None W = (Ok (Some (b_id (current_block w), 0)), W') ∧
    winv g W' σ τ ∧ reader_side W W' ∧
    same_position (info_of (wa_reader W) t) (info_of (wa_reader W') t) ∧
    hydrated_from_index (info_of (wa_reader W') t) = true.
Proof.
  intros Hi Hhyd. rewrite /settle_tail {1}/bind {1}/get_info -/(info_of (wa_reader W) t).
  destruct c; [|by exists W].
  destruct (persist_forced_ok g W σ τ t (Z.lor (b_id (current_block w)) TAIL_FLAG) 0 Hi Hhyd)
    as (W1 & E1 & ?). exists W1. by rewrite /bind E1.
Qed.

Lemma read_loop_ok fuel c g W σ τ t :
  winv g W σ τ → (c = true → τ = σ) → hydrated_from_index (info_of (wa_reader W) t) = true →
  (length (chain (info_of (wa_reader W) t)) < cur_idx (info_of (wa_reader W) t) + fuel)%nat →
  ∃ W', read_loop fuel t c None W = (Ok (head (pending σ t)), W') ∧
    winv g W' (spec_read t c σ) (spec_read t c τ) ∧ reader_side W W'.
Proof.
  revert W. induction fuel as [|fuel IH]; intros W Hi Hc Hhyd Hf.
  { pose proof (to_idx _ _ _ _ _ _ _ _ (ci_topic _ _ _ _ _ _ _ (wi_core _ _ _ _ Hi) t)). lia. }
  pose proof (ci_topic _ _ _ _ _ _ _ (wi_core _ _ _ _ Hi) t) as Ht.
  cbn [read_loop]. rewrite {1}/bind {1}/get_info -/(info_of (wa_reader W) t).
  set info := info_of (wa_reader W) t in Hhyd Hf Ht |- *.
  destruct (chain info !! cur_idx info) as [b|] eqn:Hb.
  - destruct (Z.geb_spec (cur_off info) (b_used b)) as [Hu|Hu].
    + pose proof (topic_ok_advance _ _ _ _ _ _ _ _ _ Ht Hb Hu) as Ht'.
      rewrite {1}/bind {1}/in_trk {1}/in_alloc {1}/zoom {1}/on_trk {1}/modify {1}/bind {1}/put_info {1}/modify.
      set W1 := set_alloc _ W.
      assert (winv g W1 σ τ) as Hi1 by by apply winv_trk.
      pose proof (winv_put_info g W1 σ τ t (set_pos (S (cur_idx info)) 0 info) _ Hi1 Hhyd Ht') as Hi2. set W2 := set_reader _ W1 in Hi2 |- *.
      eapply (winv_ext _ _ _ σ _ τ) in Hi2; [|intros; symmetry; by apply pending_same|done].
      destruct (IH W2 Hi2 Hc) as (W' & E & Hi' & Hr'); cbn; rewrite ?info_of_insert //=.
      { pose proof (lookup_lt_Some _ _ _ Hb). lia. }
      exists W'. split_and!; [done|done|]. by etrans; [|done].
    + destruct (topic_ok_read_chain _ _ _ _ _ _ _ _ _ Ht Hb Hu) as (d & q' & Hq & Hr & Ht').
      rewrite /attempt {1}/bind (in_fs_pure _ _ _ Hr). by eapply deliver_ok.
  - rewrite {1}/bind {1}/getS. destruct (wa_writers W !! t) as [w|] eqn:Hw; last first.
    { apply (nothing_ok c g W W); [|done|done|done]. by eapply topic_ok_no_writer. }
    cbn [snapshot_block]. rewrite /snapshot_block.
    pose proof (core_inv_fresh_active _ _ _ _ _ _ _ _ _ (wi_core _ _ _ _ Hi) Hw) as Hid.
    destruct (settle_tail_ok c g W σ τ t w Hi Hhyd) as (W1 & E1 & Hi1 & Hr1 & Hp1 & Hh1).
    fold info in Hp1.
    rewrite {1}/bind E1 Z.eqb_refl. cbn [andb negb fst snd].
    pose proof Hr1 as (Ew & Ea & Es).
    pose proof (ci_topic _ _ _ _ _ _ _ (wi_core _ _ _ _ Hi1) t) as Ht1. rewrite Ew Hw in Ht1.
    assert (Hb1 : chain (info_of (wa_reader W1) t) !! cur_idx (info_of (wa_reader W1) t) = None).
    { destruct Hp1 as (-> & -> & _). done. }
    assert (Hid1 : b_id (current_block w) < next_id (wa_alloc W1)) by by rewrite /next_id Ea.
    pose proof (topic_ok_read_tail _ _ _ _ _ _ _ _ Ht1 Hb1 Hid1) as Hrt.
    assert (Hts : (if tail_block_id info =? b_id (current_block w) then Z.max 0 (tail_offset info) else 0)
              = tail_start (info_of (wa_reader W1) t) w).
    { rewrite /tail_start. destruct Hp1 as (_ & _ & _ & -> & ->).
      pose proof (to_queue _ _ _ _ _ _ _ _ Ht) as (? & ? & _ & Htq & _).
      destruct Htq as [Htq _]. rewrite /tail_start in Htq. case_match; [|done]. lia. }
    rewrite Hts. destruct (_ <? _) eqn:Hlt; [|by apply (nothing_ok c g W W1)].
    destruct Hrt as (d & q' & Hq & Hr & Ht').
    rewrite /attempt {1}/bind (in_fs_pure _ _ _ Hr).
    set info' := set_tail _ _ _ in Ht'.
    destruct (deliver_ok c g W1 σ τ t info' (Z.lor (b_id (current_block w)) TAIL_FLAG)
      (tail_start (info_of (wa_reader W1) t) w + entry_need d) d q' Hi1 Hc Hh1 Hq) as (W' & E & Hi' & Hr').
    { by rewrite Ew Hw. }
    exists W'. split_and!; [|done|by etrans]. rewrite -E. by destruct c.
Qed.

(** The counters may be those of other queues while nothing is committed. *)
Lemma read_next_counts c g W σ τ t :
  winv g W σ τ → (c = true → τ = σ) →
  ∃ W', read_next t c W = (Ok (head (pending σ t)), W') ∧
    winv g W' (spec_read t c σ) (spec_read t c τ) ∧ reader_side W W'.
Proof.
  intros Hi Hc. rewrite /read_next {1}/bind {1}/get_info -/(info_of (wa_reader W) t) {1}/bind {1}/getS.
  set info := info_of (wa_reader W) t. set info' := set_hydrated info.
  assert (hydrate_info (WalIndex_get t (read_offset_index W)) info = (info', None)) as ->.
  { rewrite /hydrate_info. destruct (hydrated_from_index info) eqn:E.
    - f_equal. rewrite /info' /set_hydrated. destruct info; cbn in *. by subst.
    - rewrite /WalIndex_get (wi_hyd _ _ _ _ Hi t E). done. }
  cbn [fold_tail]. rewrite {1}/bind {1}/put_info {1}/modify.
  pose proof (ci_topic _ _ _ _ _ _ _ (wi_core _ _ _ _ Hi) t) as Ht.
  pose proof (winv_put_info g W σ τ t info' _ Hi eq_refl
    (topic_ok_same _ _ _ _ _ info info' _ _ ltac:(done) Ht)) as Hi1.
  eapply (winv_ext _ _ _ σ _ τ) in Hi1; [|intros; symmetry; by apply pending_same|done].
  set W1 := set_reader _ W in Hi1 |- *.
  assert (info_of (wa_reader W1) t = info') as Hinfo by by rewrite /W1 /= info_of_insert.
  destruct (read_loop_ok (length (chain info') + 2) c g W1 σ τ t Hi1 Hc) as (W' & E & Hi' & Hr').
  - by rewrite Hinfo.
  - rewrite Hinfo. lia.
  - exists W'. split_and!; [done|done|]. by etrans; [|done].
Qed.

Lemma read_next_ok c g W σ t :
  winv g W σ σ →
  ∃ W', read_next t c W = (Ok (head (pending σ t)), W') ∧
    winv g W' (spec_read t c σ) (spec_read t c σ) ∧ reader_side W W'.
Proof. intros Hi. by apply read_next_counts. Qed.

(** ** Appends *)

Lemma winv_dirty g W σ τ t : winv g W σ τ → winv g (set_clean (mark_dirty t (clean_tracker W)) W) σ τ.
Proof. by intros []. Qed.

Lemma get_or_create_writer_ok g W σ τ t n :
  winv g W σ τ → 0 ≤ n → env_good (n + 1) (wa_fs W) →
  ∃ g' W', get_or_create_writer t W = (Ok tt, W') ∧ winv g' W' σ τ ∧ env_good n (wa_fs W') ∧
    is_Some (wa_writers W' !! t) ∧ wa_reader W' = wa_reader W.
Proof.
  intros Hi Hn Hg. rewrite /get_or_create_writer {1}/bind {1}/getS.
  destruct (wa_writers W !! t) as [w|] eqn:Hw.
  { exists g, W. split_and!; [done|done| |by rewrite Hw|done]. eapply env_good_le; [done|lia]. }
  destruct (get_next_available_block_ok (wa_alloc W)) as (b & e' & E & Hh & Hl).
  { apply Hi. } { apply Hg. } { destruct (eg_time _ _ Hg) as [Hm _]. rewrite /wa_fs in Hm. lia. }
  destruct Hi as [Hc Hhyd Hcnt Hidx].
  destruct (core_inv_handout g _ e' _ (ae_fs e') _ _ _ _ t b Hc Hh
    (λ t', grows_undisturbed _ _ _ t' (ci_ghost _ _ _ _ _ _ _ Hc) (hd_fs _ _ _ Hh))) as (Hc' & Hb & Hid & Hnext).
  eexists _, _. split; [by rewrite /bind /in_alloc /zoom E|]. split_and!; [|by eapply env_good_grows; [|apply Hh|]| |done].
  - split; try done; cbn; last by rewrite Hidx (hd_paths _ _ _ Hh).
    eapply core_inv_update; [done| |done|done|done].
    rewrite Hnext. eapply (topic_ok_open _ _ (next_id (wa_alloc W))); [|done|lia| |apply (hd_owned _ _ _ Hh)].
    + pose proof (ci_topic _ _ _ _ _ _ _ Hc' t) as [X1 X2 X3 X4 X5 _ X7].
      rewrite Hw in X2 X7.
      split; try done. apply (to_tail _ _ _ _ _ _ _ _ (ci_topic _ _ _ _ _ _ _ Hc t)).
    + pose proof (core_inv_fresh_chain _ _ _ _ _ _ _ t Hc) as Hf. rewrite Forall_forall in Hf.
      intros Hin%Hf. lia.
  - cbn. by rewrite lookup_insert_eq.
Qed.

Lemma winv_increment g W σ τ t (ds : list (list Z)) :
  winv g W σ τ → len (pending τ t) + len ds ≤ U64_MAX →
  ∃ W', increment_topic_entry_count t (len ds) W = (Ok tt, W') ∧
    winv g W' σ (<[t := pending τ t ++ ds]> τ) ∧ wa_fs W' = wa_fs W.
Proof.
  intros Hi Hl. rewrite /increment_topic_entry_count.
  destruct (Z.eqb_spec (len ds) 0) as [Hz|Hz].
  { exists W. split_and!; [done| |done]. destruct ds; [|rewrite len_cons in Hz; pose proof (len_nonneg ds); lia].
    rewrite app_nil_r. eapply winv_ext; [done| |done]. by apply pending_same. }
  eexists. split; [done|]. split; [|done]. destruct Hi as [Hc Hh Hn Hi]. split; try done.
  intros t'. rewrite {1}/get_topic_entry_count [topic_entry_counts _]/=.
  destruct (decide (t' = t)) as [->|].
  - rewrite lookup_insert_eq pending_insert [default _ _]/= Hn /sat_add64 len_app. lia.
  - rewrite lookup_insert_ne // pending_insert_ne //. apply Hn.
Qed.

(** A method of the writer that keeps the invariant of the shared state keeps it for the
    instance. *)
Lemma with_writer_ok {A} (m : M WEnv A) g W σ σ' τ t w a g' e' r' tx' w' :
  winv g W σ τ → wa_writers W !! t = Some w →
  m (MkWEnv (wa_alloc W) (wa_reader W) (wa_tx W) w) = (Ok a, MkWEnv e' r' tx' w') →
  core_inv g' e' (ae_fs e') r' (<[t := w']> (wa_writers W)) (fsync_schedule W) σ' →
  paths (ae_alloc e') = paths (ae_alloc (wa_alloc W)) →
  (∀ t', hydrated_from_index (info_of r' t') = hydrated_from_index (info_of (wa_reader W) t')) →
  ∃ W', with_writer t m W = (Ok a, W') ∧ winv g' W' σ' τ ∧ wa_fs W' = ae_fs e'.
Proof.
  intros [Hc Hh Hn Hi] Hw E Hc' Hp Hhyd. rewrite /with_writer Hw E.
  eexists. split; [done|]. split; [|done]. split; cbn; [done| |done|by rewrite Hp].
  intros t'. rewrite Hhyd. apply Hh.
Qed.

Definition spec_append (t : string) (ds : list (list Z)) (σ : queues) : queues :=
  <[t := pending σ t ++ ds]> σ.

Lemma append_for_topic_ok g W σ t d n :
  winv g W σ σ → fits t d → 0 ≤ n → env_good (n + 2) (wa_fs W) → len (pending σ t) < U64_MAX →
  ∃ g' W', append_for_topic t d W = (Ok tt, W') ∧
    winv g' W' (spec_append t [d] σ) (spec_append t [d] σ) ∧ env_good n (wa_fs W').
Proof.
  intros Hi Hf Hn Hg Hl. rewrite /append_for_topic {1}/bind {1}/mark_topic_dirty {1}/modify.
  set W0 := set_clean _ W. assert (winv g W0 σ σ) as Hi0 by by apply winv_dirty.
  destruct (get_or_create_writer_ok g W0 σ σ t (n + 1) Hi0) as (g1 & W1 & E1 & Hi1 & Hg1 & [w Hw] & Er1);
    [lia|by replace (n + 1 + 1) with (n + 2) by lia|].
  destruct (Writer_write_ok g1 (wa_alloc W1) (wa_reader W1) (wa_tx W1) _ _ σ t w d n (wi_core _ _ _ _ Hi1))
    as (g2 & e2 & r2 & tx2 & w2 & E2 & Hc2 & Hg2 & Hp2 & Hh2); [done..|].
  destruct (with_writer_ok _ g1 W1 σ _ σ t w tt g2 e2 r2 tx2 w2 Hi1 Hw E2 Hc2 Hp2 Hh2)
    as (W2 & E3 & Hi2 & Ef).
  destruct (winv_increment g2 W2 _ σ t [d] Hi2) as (W3 & E4 & Hi3 & Ef3).
  { change (len [d]) with 1. lia. }
  exists g2, W3. split_and!; [|done|by rewrite Ef3 Ef].
  rewrite /bind E1 E3. done.
Qed.

(** A batch within the limits. *)
Definition batch_fits (t : string) (batch : list (list Z)) : Prop :=
  Forall (fits t) batch ∧ len batch ≤ MAX_BATCH_ENTRIES ∧ batch_total batch ≤ MAX_BATCH_BYTES.

Lemma batch_append_for_topic_ok g W σ t batch n :
  winv g W σ σ → batch_fits t batch → 0 ≤ n → env_good (n + len batch + 1) (wa_fs W) →
  len (pending σ t) + len batch ≤ U64_MAX →
  ∃ g' W', batch_append_for_topic t batch W = (Ok tt, W') ∧
    winv g' W' (spec_append t batch σ) (spec_append t batch σ) ∧ env_good n (wa_fs W').
Proof.
  intros Hi (Hf & Hmax & Htot) Hn Hg Hl. pose proof (len_nonneg batch).
  rewrite /batch_append_for_topic {1}/bind {1}/mark_topic_dirty {1}/modify.
  set W0 := set_clean _ W. assert (winv g W0 σ σ) as Hi0 by by apply winv_dirty.
  destruct (get_or_create_writer_ok g W0 σ σ t (n + len batch) Hi0)
    as (g1 & W1 & E1 & Hi1 & Hg1 & [w Hw] & Er1); [lia|done|].
  destruct (Writer_batch_write_ok g1 (wa_alloc W1) (wa_reader W1) (wa_tx W1) _ _ σ t w batch n
    (wi_core _ _ _ _ Hi1)) as (g2 & e2 & r2 & w2 & E2 & Hc2 & Hg2 & Hp2 & Hh2); [done..|].
  destruct (with_writer_ok _ g1 W1 σ _ σ t w tt g2 e2 r2 (wa_tx W1) w2 Hi1 Hw E2 Hc2 Hp2 Hh2)
    as (W2 & E3 & Hi2 & Ef).
  destruct (winv_increment g2 W2 _ σ t batch Hi2 Hl) as (W3 & E4 & Hi3 & Ef3).
  exists g2, W3. split_and!; [|done|by rewrite Ef3 Ef]. by rewrite /bind E1 E3.
Qed.

(** A new instance on an empty directory holds empty queues. *)
Lemma winv_fresh W pm :
  alloc_inv (wa_alloc W) → paths (ae_alloc (wa_alloc W)) = pm → wa_reader W = ∅ →
  wa_writers W = ∅ → topic_entry_counts W = ∅ →
  read_offset_index W = MkIndex ∅ (read_index_path pm) → winv ∅ W ∅ ∅.
Proof.
  intros Ha Hp Hr Hw Hc Hi. split.
  - split; [done|by split|]. intros t. rewrite Hr Hw /info_of /pending !lookup_empty.
    apply topic_ok_new. pose proof (ai_id _ Ha). rewrite /next_id. lia.
  - intros t _. by rewrite Hi lookup_empty.
  - intros t. by rewrite /get_topic_entry_count Hc /pending !lookup_empty.
  - by rewrite Hi Hp.
Qed.
End engine_inv.
