(* ===== verification/BatchReadOk.v ===== *)
(** Batch reads deliver a prefix of the queue.

    The parser is related to the entries a block holds, the plan to the chain of the topic, and
    the whole operation to the queue of [EngineInv]. *)

From S2P Require Import Prelude Config Storage Block Trackers Allocator Index TopicClean Reader Writer TopicInv Core Batch Walrus BatchRead Recovery EngineInv.

#[local] Open Scope Z_scope.

(** * The specification *)

Definition nonempty (l : list (list Z)) : list (list Z) := filter (λ d, d ≠ []) l.

(** How many of the entries [q] a batch takes when [total] bytes and [emitted] entries were taken
    before: at most [MAX_BATCH_ENTRIES] that are not empty, and payloads of [max] bytes in all,
    but one entry in any case. *)
Fixpoint batch_count (max : Z) (q : list (list Z)) (total emitted : Z) : nat :=
  match q with
  | [] => 0
  | d :: q =>
      if emitted >=? MAX_BATCH_ENTRIES then 0
      else if (total + len d >? max) && (emitted >? 0) then 0
      else S (batch_count max q (total + len d) (emitted + len (nonempty [d])))
  end%nat.

(** The bytes of payloads; with the headers they are [batch_total]. *)
Definition payload_bytes (q : list (list Z)) : Z := foldr (λ d n, len d + n) 0 q.

(** The same when only [w] bytes of the block are read. *)
Fixpoint window_count (max w : Z) (q : list (list Z)) (total emitted : Z) : nat :=
  match q with
  | [] => 0
  | d :: q =>
      if emitted >=? MAX_BATCH_ENTRIES then 0
      else if entry_need d >? w then 0
      else if (total + len d >? max) && (emitted >? 0) then 0
      else S (window_count max (w - entry_need d) q (total + len d) (emitted + len (nonempty [d])))
  end%nat.

Lemma batch_total_app q q' : batch_total (q ++ q') = batch_total q + batch_total q'.
Proof. rewrite /batch_total. induction q as [|d q IH]; cbn; [done|]. rewrite IH. lia. Qed.

Lemma payload_app q q' : payload_bytes (q ++ q') = payload_bytes q + payload_bytes q'.
Proof. rewrite /payload_bytes. induction q as [|d q IH]; cbn; [done|]. rewrite IH. lia. Qed.

Lemma payload_le q : 0 ≤ payload_bytes q ≤ batch_total q.
Proof.
  induction q as [|d q IH]; cbn; [done|]. fold (payload_bytes q) (batch_total q).
  rewrite /entry_need. pose proof (len_nonneg d). consts.
Qed.

Lemma nonempty_app q q' : nonempty (q ++ q') = nonempty q ++ nonempty q'.
Proof. apply filter_app. Qed.

Lemma nonempty_one d : nonempty [d] = if is_nil d then [] else [d].
Proof. by destruct d. Qed.

Lemma window_count_le max w q total emitted : (window_count max w q total emitted ≤ length q)%nat.
Proof.
  revert w total emitted. induction q as [|d q IH]; intros w total emitted; cbn [window_count length]; [done|].
  repeat match goal with |- context [if ?b then _ else _] => destruct b end; try lia; apply le_n_S, IH.
Qed.

Lemma batch_count_le max q total emitted : (batch_count max q total emitted ≤ length q)%nat.
Proof.
  revert total emitted. induction q as [|d q IH]; intros total emitted; cbn [batch_count length]; [done|].
  repeat match goal with |- context [if ?b then _ else _] => destruct b end; try lia; apply le_n_S, IH.
Qed.

(** A window that holds all entries is no limit. *)
Lemma window_count_all max w q total emitted :
  batch_total q ≤ w → window_count max w q total emitted = batch_count max q total emitted.
Proof.
  revert w total emitted. induction q as [|d q IH]; intros w total emitted Hw; cbn [window_count batch_count]; [done|].
  cbn in Hw. fold (batch_total q) in Hw. pose proof (payload_le q).
  destruct (emitted >=? MAX_BATCH_ENTRIES); [done|].
  destruct (Z.gtb_spec (entry_need d) w); [lia|]. destruct (_ && _); [done|]. f_equal. apply IH. lia.
Qed.

(** Within the byte budget only the number of entries stops a batch. *)
Lemma window_count_stop max w q total emitted :
  batch_total q ≤ w → total + payload_bytes q ≤ max →
  (window_count max w q total emitted < length q)%nat →
  MAX_BATCH_ENTRIES ≤ emitted + len (nonempty (take (window_count max w q total emitted) q)).
Proof.
  revert w total emitted. induction q as [|d q IH]; intros w total emitted Hw Ht; cbn [window_count length]; [cbn; lia|].
  cbn in Hw, Ht. fold (batch_total q) in Hw. fold (payload_bytes q) in Ht. pose proof (payload_le q).
  destruct (Z.geb_spec emitted MAX_BATCH_ENTRIES); [cbn; intros; rewrite len_nil; lia|].
  destruct (Z.gtb_spec (entry_need d) w); [lia|].
  destruct (Z.gtb_spec (total + len d) max); [lia|]. cbn [andb]. intros Hl.
  cbn [take]. rewrite -(app_nil_l (take _ q)) -[d :: _]/([d] ++ _) nonempty_app len_app Z.add_assoc. apply IH; lia.
Qed.

Lemma window_count_first max w d q total : entry_need d ≤ w → ∀ emitted, emitted = 0 →
  (0 < window_count max w (d :: q) total emitted)%nat.
Proof.
  intros Hw emitted ->. cbn [window_count]. destruct (Z.geb_spec 0 MAX_BATCH_ENTRIES); [consts|]. destruct (Z.gtb_spec (entry_need d) w); [lia|]. rewrite andb_false_r. lia.
Qed.

Lemma batch_count_app max q q' total emitted :
  batch_count max (q ++ q') total emitted =
    if decide (batch_count max q total emitted = length q)
    then (length q + batch_count max q' (total + payload_bytes q) (emitted + len (nonempty q)))%nat
    else batch_count max q total emitted.
Proof.
  revert total emitted. induction q as [|d q IH]; intros total emitted; cbn [app batch_count length].
  { cbn. by rewrite len_nil !Z.add_0_r. }
  destruct (emitted >=? MAX_BATCH_ENTRIES); [by case_decide|].
  destruct (_ && _); [by case_decide|]. rewrite IH.
  destruct (decide (batch_count max q _ _ = length q)) as [E|E].
  - case_decide; [|lia]. change (payload_bytes (d :: q)) with (len d + payload_bytes q).
    change (nonempty (d :: q)) with (nonempty ([d] ++ q)). by rewrite nonempty_app len_app !Z.add_assoc.
  - case_decide; [lia|done].
Qed.

(** No batch goes on after the limit on the number of entries. *)
Lemma batch_count_full max q total emitted : MAX_BATCH_ENTRIES ≤ emitted → batch_count max q total emitted = 0%nat.
Proof. intros H. destruct q; cbn [batch_count]; [done|]. by destruct (Z.geb_spec emitted MAX_BATCH_ENTRIES); [|lia]. Qed.

(** * Buffers *)

Lemma read_bytes_slice f base n off k :
  0 ≤ off → 0 ≤ k → off + k ≤ n →
  take (Z.to_nat k) (drop (Z.to_nat off) (read_bytes f base n)) = read_bytes f (base + off) k.
Proof.
  intros Ho Hk Hn. replace n with (off + (k + (n - off - k))) by lia.
  rewrite read_bytes_app; [lia..|]. rewrite drop_app_length'; [by rewrite length_read_bytes|].
  rewrite read_bytes_app; [lia..|]. by rewrite take_app_length' // length_read_bytes.
Qed.

(** The entries of a state that was advanced by [ds], read in the block of [p] from offset [o]. *)
Fixpoint push_all (p : ReadPlan) (o : Z) (ds : list (list Z)) (st : PState) : PState :=
  match ds with
  | [] => st
  | d :: ds => push_all p (o + entry_need d) ds
                 (push_entry p d (ps_total st + len d) (o + entry_need d) st)
  end.

(** What parsing [ds] adds, wherever they were read. *)
Record parsed (ds : list (list Z)) (st st' : PState) : Prop := {
  pa_entries : ps_entries st' = ps_entries st ++ nonempty ds;
  pa_total : ps_total st' = ps_total st + payload_bytes ds;
  pa_parsed : ps_parsed st' = ps_parsed st + len ds;
  pa_trim : ps_trim st' = 0;
}.

Lemma parsed_nil st : ps_trim st = 0 → parsed [] st st.
Proof. intros. split; cbn; rewrite ?app_nil_r ?len_nil //; lia. Qed.

Lemma parsed_app ds es st st1 st2 : parsed ds st st1 → parsed es st1 st2 → parsed (ds ++ es) st st2.
Proof.
  intros [E1 E2 E3 _] [E4 E5 E6 E7].
  split; rewrite ?nonempty_app ?payload_app ?len_app ?E4 ?E5 ?E6 ?E1 ?E2 ?E3 ?app_assoc //; lia.
Qed.

Lemma push_entry_parsed p d o st :
  ps_trim st = 0 → parsed [d] st (push_entry p d (ps_total st + len d) o st).
Proof.
  intros Ht. rewrite /push_entry Ht /trimmed /=.
  assert ((if is_nil d then ps_entries st else ps_entries st ++ [d]) = ps_entries st ++ nonempty [d]) as ->.
  { rewrite nonempty_one. by destruct d; cbn; rewrite ?app_nil_r. }
  destruct (rp_is_tail p), (rp_chain_idx p); split; cbn; autorewrite with len; try done; lia.
Qed.

Lemma push_all_parsed p o ds st : ps_trim st = 0 → parsed ds st (push_all p o ds st).
Proof.
  revert o st. induction ds as [|d ds IH]; intros o st Ht; cbn [push_all]; [by apply parsed_nil|].
  pose proof (push_entry_parsed p d (o + entry_need d) st Ht) as Hp.
  apply (parsed_app [d] ds _ _ _ Hp). apply IH, Hp.
Qed.

(** Where a state stands after entries were read. *)
Definition stands_in (p : ReadPlan) (off : Z) (st st' : PState) : Prop :=
  if rp_is_tail p then
    ps_saw_tail st' = true ∧ ps_tail_id st' = b_id (rp_blk p) ∧ ps_tail_off st' = off
  else ps_saw_tail st' = ps_saw_tail st ∧ Some (ps_block_idx st') = rp_chain_idx p ∧ ps_block_off st' = off.

Lemma push_all_stands p o ds st :
  ds ≠ [] → (rp_is_tail p = false → is_Some (rp_chain_idx p)) →
  stands_in p (o + batch_total ds) st (push_all p o ds st).
Proof.
  intros Hne Hc. revert o st Hne. induction ds as [|d ds IH]; intros o st Hne; [done|]. cbn [push_all].
  assert (stands_in p (o + entry_need d) st (push_entry p d (ps_total st + len d) (o + entry_need d) st)) as Hp.
  { rewrite /stands_in /push_entry. destruct (rp_is_tail p); [done|].
    by destruct (Hc eq_refl) as [i ->]. }
  destruct ds as [|d' ds']; [by rewrite /= Z.add_0_r|].
  specialize (IH (o + entry_need d) (push_entry p d (ps_total st + len d) (o + entry_need d) st) ltac:(done)).
  change (batch_total (d :: d' :: ds')) with (entry_need d + batch_total (d' :: ds')). rewrite Z.add_assoc.
  rewrite /stands_in in Hp IH |- *. destruct (rp_is_tail p); [done|]. destruct Hp as [E _]. by rewrite -E.
Qed.

Section parse.
Context `{MetaCodecLaws}.

(** An entry of a block, as the parser and the planner see it. *)
Lemma entry_header b o s d :
  (Block_read b o s).1 = Ok (d, entry_need d) →
  let f := file_of s (st_path (b_mmap b)) in
  ∃ m, decode_header (read_bytes f (b_offset b + o) PREFIX_META_SIZE) = Some (Some m) ∧
    read_size m = len d ∧ checksum m = Checksum.checksum64 d ∧
    in_range (b_mmap b) (b_offset b + o) (entry_need d) ∧
    read_bytes f (b_offset b + o + PREFIX_META_SIZE) (len d) = d.
Proof.
  intros (Hr & _ & Hd & Hl1 & Hl2 & m & Hm & Hs & Hc)%Block_read_inv. exists m. split_and!; try done.
  rewrite /decode_header Hm. destruct (Z.eqb_spec (header_meta_len (read_bytes (file_of s (st_path (b_mmap b))) (b_offset b + o) PREFIX_META_SIZE)) 0); [done|].
  by rewrite Z.gtb_ltb (proj2 (Z.ltb_ge _ _)).
Qed.

Lemma parse_buffer_ok {S} fuel max p s o u e ds st (x : S) :
  seg s (rp_blk p) o u ds → rp_start p ≤ o ≤ e → e ≤ u → ps_trim st = 0 → 0 ≤ ps_total st →
  ps_total st + (e - o) ≤ U64_MAX → (Z.to_nat (e - o) < fuel)%nat →
  let n := window_count max (e - o) ds (ps_total st) (len (ps_entries st)) in
  parse_buffer fuel max p
    (read_bytes (file_of s (st_path (b_mmap (rp_blk p)))) (b_offset (rp_blk p) + rp_start p) (e - rp_start p))
    (o - rp_start p) st x = (Ok (push_all p o (take n ds) st), x).
Proof.
  intros Hs. revert fuel st. set f := file_of _ _. set base := b_offset _ + _.
  induction Hs as [o|o u d ds Hr Hs IH]; intros fuel st Ho He Ht Hz Hu Hf; (destruct fuel as [|fuel]; [lia|]);
    cbn [parse_buffer window_count take push_all].
  { by rewrite len_read_bytes; [lia|]; destruct (Z.ltb_spec (o - rp_start p) (e - rp_start p)); [lia|]. }
  pose proof (entry_need_pos d) as Hpos. pose proof (len_nonneg d).
  destruct (entry_header _ _ _ _ Hr) as (m & Hm & Hsz & Hck & _ & Hdata). cbv zeta in Hm, Hdata. fold f in Hm, Hdata.
  rewrite len_read_bytes; [lia|]. destruct (Z.ltb_spec (o - rp_start p) (e - rp_start p)); last first.
  { destruct (_ >=? _); [done|]. by destruct (Z.gtb_spec (entry_need d) (e - o)); [|lia]. }
  destruct (_ >=? MAX_BATCH_ENTRIES); [done|].
  destruct (Z.gtb_spec (entry_need d) (e - o)) as [Hw|Hw].
  - destruct (Z.gtb_spec (o - rp_start p + PREFIX_META_SIZE) (e - rp_start p)); [done|].
    rewrite read_bytes_slice; [consts..|]. replace (base + (o - rp_start p)) with (b_offset (rp_blk p) + o) by (rewrite /base; lia).
    rewrite Hm Hsz -/(entry_need d). by destruct (Z.gtb_spec (o - rp_start p + entry_need d) (e - rp_start p)); [|lia].
  - assert (PREFIX_META_SIZE + len d ≤ e - o) as Hw' by exact Hw.
    destruct (Z.gtb_spec (o - rp_start p + PREFIX_META_SIZE) (e - rp_start p)) as [Hx|_]; [lia|].
    rewrite read_bytes_slice; [consts..|]. replace (base + (o - rp_start p)) with (b_offset (rp_blk p) + o) by (rewrite /base; lia).
    rewrite Hm Hsz -/(entry_need d). destruct (Z.gtb_spec (o - rp_start p + entry_need d) (e - rp_start p)); [lia|].
    rewrite /sat_add64 Z.min_l; [consts|].
    assert (negb (is_nil (ps_entries st)) = (len (ps_entries st) >? 0)) as ->.
    { destruct (ps_entries st) as [|x0 l1]; [done|]. rewrite len_cons. pose proof (len_nonneg l1). symmetry. cbn. by apply Z.gtb_lt; lia. }
    destruct (_ && _); [done|].
    rewrite read_bytes_slice; [consts..|].
    replace (base + (o - rp_start p + PREFIX_META_SIZE)) with (b_offset (rp_blk p) + o + PREFIX_META_SIZE) by (rewrite /base; lia).
    rewrite Hdata Hck Z.eqb_refl. cbn [take push_all].
    replace (o - rp_start p + entry_need d) with (o + entry_need d - rp_start p) by lia.
    replace (rp_start p + (o - rp_start p) + entry_need d) with (o + entry_need d) by lia.
    destruct (push_entry_parsed p d (o + entry_need d) st Ht) as [Ee Et _ Ez].
    rewrite IH; [lia|lia|done| | |lia|].
    + rewrite Et /payload_bytes /=. lia.
    + rewrite Et /payload_bytes /=. rewrite /entry_need. consts.
    + rewrite Et Ee len_app /payload_bytes /=. rewrite Z.add_0_r. 
      by replace (e - o - entry_need d) with (e - (o + entry_need d)) by lia.
Qed.

(** * Plans and the chain *)

Lemma seg_total s b o u ds : seg s b o u ds → batch_total ds = u - o.
Proof.
  induction 1 as [|o u d ds Hr Hs IH]; cbn; [lia|]. fold (batch_total ds). lia.
Qed.

Lemma seg_drop s b o u ds n : seg s b o u ds → seg s b (o + batch_total (take n ds)) u (drop n ds).
Proof.
  intros Hs. revert n. induction Hs as [o|o u d ds Hr Hs IH]; intros n.
  - rewrite take_nil drop_nil /= Z.add_0_r. constructor.
  - destruct n as [|n]; cbn [take drop]; [rewrite /= Z.add_0_r; by constructor|].
    change (batch_total (d :: take n ds)) with (entry_need d + batch_total (take n ds)). rewrite Z.add_assoc. apply IH.
Qed.

(** The ranges of the chain [c] from a position on, when [P] bytes were planned before: whole
    blocks until the budget [max] is used up, and always the first entry. *)
Inductive layout (s : Fs) (c : list Block) (max : Z) : nat → Z → Z → list ReadPlan → nat → Prop :=
  | lay_end off P : layout s c max (length c) off P [] (length c)
  | lay_stop idx off P : max ≤ P → layout s c max idx off P [] idx
  | lay_skip idx off P b ps j :
      c !! idx = Some b → b_used b ≤ off → layout s c max (S idx) 0 P ps j → layout s c max idx off P ps j
  | lay_read idx off P b e ps j :
      c !! idx = Some b → off < e ≤ b_used b → P < max → (e = b_used b ∨ max ≤ P + (e - off)) →
      (P = 0 → ∀ d, (Block_read b off s).1 = Ok (d, entry_need d) → off + entry_need d ≤ e) →
      layout s c max (S idx) 0 (P + (e - off)) ps j →
      layout s c max idx off P (MkReadPlan b off e false (Some idx) :: ps) j.

(** The buffer of a range. *)
Definition buf_ok (s : Fs) (p : ReadPlan) (bf : list Z) : Prop :=
  bf = read_bytes (file_of s (st_path (b_mmap (rp_blk p)))) (b_offset (rp_blk p) + rp_start p) (rp_end p - rp_start p).

(** After the limit on the number of entries nothing is parsed. *)
Lemma parse_plans_stop {S} max ps bs st (x : S) :
  MAX_BATCH_ENTRIES ≤ len (ps_entries st) → parse_plans max ps bs st x = (Ok st, x).
Proof. intros Hm. destruct ps; cbn [parse_plans]; [done|]. by destruct (Z.geb_spec (len (ps_entries st)) MAX_BATCH_ENTRIES); [|lia]. Qed.

(** Where the chain is read from after the first [n] entries. *)
Definition chain_at (s : Fs) (c : list Block) (n : nat) (qc : list (list Z)) (st st' : PState) : Prop :=
  ps_saw_tail st' = ps_saw_tail st ∧
  match n with
  | O => st' = st
  | _ => chain_q s c (ps_block_idx st') (ps_block_off st') (drop n qc) ∧
         (ps_block_idx st' < length c)%nat ∧ 0 ≤ ps_block_off st'
  end.

(** One range of the chain. *)
Lemma parse_range_ok s c max idx off b e q1 q2 st bf :
  c !! idx = Some b → 0 ≤ off → off < e ≤ b_used b → seg s b off (b_used b) q1 → blocks_q s (drop (S idx) c) q2 →
  ps_trim st = 0 → 0 ≤ ps_total st → ps_total st + (e - off) ≤ U64_MAX →
  let p := MkReadPlan b off e false (Some idx) in
  let n := window_count max (e - off) q1 (ps_total st) (len (ps_entries st)) in
  buf_ok s p bf →
  ∃ st1, (∀ S (x : S), parse_buffer (parse_fuel bf) max p bf 0 st x = (Ok st1, x)) ∧ parsed (take n q1) st st1 ∧
    chain_at s c n (q1 ++ q2) st st1.
Proof.
  intros Hb Ho He Hs Hq2 Ht Hz Hu p n ->. pose proof (window_count_le max (e - off) q1 (ps_total st) (len (ps_entries st))).
  eexists. split; [|split; [by apply (push_all_parsed p off)|]].
  - intros S x. pose proof (parse_buffer_ok (parse_fuel (read_bytes (file_of s (st_path (b_mmap b))) (b_offset b + off) (e - off)))
      max p s off (b_used b) e q1 st x) as Hp. cbn [rp_blk rp_start p] in Hp. rewrite Z.sub_diag in Hp.
    apply Hp; try done; [lia|lia|]. rewrite /parse_fuel length_read_bytes. lia.
  - fold n. destruct (decide (n = 0%nat)) as [->|Hn]; [by split|].
    destruct (push_all_stands p off (take n q1) st) as (E1 & E2 & E3).
    { intros E. apply (f_equal length) in E. rewrite length_take /= in E. lia. }
    { by eexists. }
    cbn in E2. injection E2 as E2. split; [done|]. rewrite E2 E3. destruct n as [|n'] eqn:En; [done|]. split_and!.
    + rewrite /chain_q (drop_S c b idx Hb) drop_app_le; [lia|].
      exists (drop (S n') q1), q2. split_and!; [by apply seg_drop|done|done].
    + by eapply lookup_lt_Some.
    + pose proof (payload_le (take (S n') q1)). lia.
Qed.

(** What the parser makes of the ranges of the chain: the first [n] entries of it. All of
    them that the limits allow when the chain fits in the budget, and one at least. *)
Record chain_parsed (s : Fs) (c : list Block) (max P : Z) (ps : list ReadPlan) (bs : list (list Z))
    (qc : list (list Z)) (st : PState) (n : nat) (st1 : PState) : Prop := {
  cp_le : (n ≤ length qc)%nat;
  cp_parsed : parsed (take n qc) st st1;
  cp_at : chain_at s c n qc st st1;
  cp_run {S} tl tb (x : S) : parse_plans max (ps ++ tl) (bs ++ tb) st x = parse_plans max tl tb st1 x;
  cp_full : P + batch_total qc < max → n = batch_count max qc (ps_total st) (len (ps_entries st));
  cp_progress : P = 0 → 0 < max → len (ps_entries st) = 0 → qc ≠ [] → (0 < n)%nat;
}.

Lemma chain_parsed_none s c max P qc st :
  ps_trim st = 0 → max ≤ P ∨ qc = [] → chain_parsed s c max P [] [] qc st 0 st.
Proof.
  intros Ht Hs. pose proof (payload_le qc). split; try done.
  - lia.
  - by apply parsed_nil.
  - intros Hf. destruct Hs as [?| ->]; [lia|done].
  - intros. destruct Hs as [?| ->]; [lia|done].
Qed.

(** A range that was parsed to its end goes on with the rest of the chain. *)
Lemma chain_parsed_next s c max P idx off b e ps bs bf q1 q2 st st1 n2 st2 :
  c !! idx = Some b → off < b_used b → e = b_used b → P < max → seg s b off (b_used b) q1 →
  len (ps_entries st) < MAX_BATCH_ENTRIES →
  batch_count max q1 (ps_total st) (len (ps_entries st)) = length q1 →
  parsed q1 st st1 → chain_at s c (length q1) (q1 ++ q2) st st1 →
  (∀ {S} (x : S), parse_buffer (parse_fuel bf) max (MkReadPlan b off e false (Some idx)) bf 0 st x = (Ok st1, x)) →
  chain_parsed s c max (P + (e - off)) ps bs q2 st1 n2 st2 →
  chain_parsed s c max P (MkReadPlan b off e false (Some idx) :: ps) (bf :: bs) (q1 ++ q2) st (length q1 + n2) st2.
Proof.
  intros Hb Ho He HP Hs Hm Hn1 Hp1 [Hs1 Ha1] Hrun [Hle Hp2 Ha2 Hrun2 Hfull _].
  assert (q1 ≠ []) as Hne by by apply (seg_lt _ _ _ _ _ Hs).
  assert (take (length q1 + n2) (q1 ++ q2) = q1 ++ take n2 q2) as Etake by by rewrite take_app_add'.
  split.
  - rewrite length_app. lia.
  - rewrite Etake. by eapply parsed_app.
  - destruct Ha2 as [Hs2 Ha2]. split; [congruence|].
    destruct (length q1 + n2)%nat eqn:E; [destruct q1; [done|cbn in E; lia]|]. rewrite -E.
    rewrite drop_app_add' //. destruct n2 as [|n2]; [|done]. subst st2. rewrite drop_0.
    destruct (length q1) eqn:E1 in Ha1; [by destruct q1|]. by rewrite -E1 drop_app_length in Ha1.
  - intros S tl tb x. cbn [app parse_plans]. destruct (Z.geb_spec (len (ps_entries st)) MAX_BATCH_ENTRIES); [lia|].
    rewrite /bind Hrun. apply Hrun2.
  - intros Hf. rewrite batch_total_app (seg_total _ _ _ _ _ Hs) in Hf.
    rewrite Hfull; [lia|]. rewrite batch_count_app. case_decide; [|done].
    by rewrite (pa_entries _ _ _ Hp1) (pa_total _ _ _ Hp1) len_app.
  - intros. destruct q1; [done|cbn; lia].
Qed.

(** A range after which the parser stops. *)
Lemma chain_parsed_stop s c max P p ps bs bf q1 q2 st n st1 :
  len (ps_entries st) < MAX_BATCH_ENTRIES → (n ≤ length q1)%nat → parsed (take n q1) st st1 →
  chain_at s c n (q1 ++ q2) st st1 → (∀ S (x : S), parse_buffer (parse_fuel bf) max p bf 0 st x = (Ok st1, x)) →
  (ps = [] ∧ bs = [] ∨ MAX_BATCH_ENTRIES ≤ len (ps_entries st1)) →
  (P + batch_total (q1 ++ q2) < max → n = batch_count max (q1 ++ q2) (ps_total st) (len (ps_entries st))) →
  (P = 0 → len (ps_entries st) = 0 → (0 < n)%nat) →
  chain_parsed s c max P (p :: ps) (bf :: bs) (q1 ++ q2) st n st1.
Proof.
  intros Hm Hle Hp Ha Hrun Hstop Hfull Hprog. split; try done.
  - rewrite length_app. lia.
  - by rewrite take_app_le.
  - intros S tl tb x. cbn [app parse_plans]. destruct (Z.geb_spec (len (ps_entries st)) MAX_BATCH_ENTRIES); [lia|].
    rewrite /bind Hrun. destruct Hstop as [[-> ->]|Hs]; [done|]. by rewrite !parse_plans_stop.
  - intros. auto.
Qed.

(** A plan that leaves no room in the budget is the last one. *)
Lemma layout_stopped s c max idx off P ps j : layout s c max idx off P ps j → max ≤ P → ps = [].
Proof. induction 1; intros; [done|done|auto|lia]. Qed.

(** A chain that fits in the budget is planned to its end. *)
Lemma layout_end s c max idx off P ps j qc :
  layout s c max idx off P ps j → chain_q s c idx off qc → P + batch_total qc < max → j = length c.
Proof.
  intros Hl. revert qc. induction Hl as [|idx off P Hs|idx off P b ps j Hb Hu _ IH|idx off P b e ps j Hb He HP Hend _ _ IH];
    intros qc Hq Hf; [done|pose proof (payload_le qc); lia|..];
    destruct (chain_q_drop _ _ _ _ _ _ Hb Hq) as (q1 & q2 & H1 & H2 & ->);
    pose proof (seg_total _ _ _ _ _ H1) as Ht; pose proof (payload_le q1); pose proof (payload_le q2);
    rewrite batch_total_app in Hf; apply (IH q2); [by apply blocks_chain_q| |by apply blocks_chain_q|]; lia.
Qed.

Lemma parse_chain_ok s c max idx off P ps j :
  layout s c max idx off P ps j → max + MAX_FILE_SIZE ≤ U64_MAX → Forall (λ b, b_used b ≤ MAX_FILE_SIZE) c →
  ∀ qc st bs, 0 ≤ off → chain_q s c idx off qc → Forall2 (buf_ok s) ps bs → ps_trim st = 0 → 0 ≤ ps_total st ≤ P →
  ∃ n st1, chain_parsed s c max P ps bs qc st n st1.
Proof.
  intros Hl Hmax Hc. induction Hl as [off P|idx off P Hs|idx off P b ps j Hb Hu _ IH|idx off P b e ps j Hb He HP Hend Hfst Hl IH];
    intros qc st bs Ho Hq Hbs Ht Htot.
  - inversion Hbs; subst. rewrite /chain_q drop_ge // in Hq. exists 0%nat, st. apply chain_parsed_none; auto.
  - inversion Hbs; subst. exists 0%nat, st. apply chain_parsed_none; auto.
  - destruct (chain_q_drop _ _ _ _ _ _ Hb Hq) as (q1 & q2 & H1 & H2 & ->).
    assert (q1 = []) as ->.
    { destruct (decide (q1 = [])) as [|Hne]; [done|]. apply (seg_lt _ _ _ _ _ H1) in Hne. lia. }
    apply IH; [done|by apply blocks_chain_q|done..].
  - inversion Hbs as [|? bf ? bs' Hbf Hbs']; subst.
    destruct (chain_q_drop _ _ _ _ _ _ Hb Hq) as (q1 & q2 & H1 & H2 & ->).
    pose proof (proj1 (Forall_lookup _ _) Hc idx b Hb) as Hbu. cbn in Hbu.
    assert (q1 ≠ []) as Hne by (apply (seg_lt _ _ _ _ _ H1); lia).
    pose proof (seg_total _ _ _ _ _ H1) as Ht1.
    destruct (Z.le_gt_cases MAX_BATCH_ENTRIES (len (ps_entries st))) as [Hm|Hm].
    { exists 0%nat, st. split; try done.
      - lia.
      - by apply parsed_nil.
      - intros. by rewrite !parse_plans_stop.
      - by rewrite batch_count_full.
      - intros _ _ Hz. exfalso. consts. }
    set n := window_count max (e - off) q1 (ps_total st) (len (ps_entries st)).
    destruct (parse_range_ok s c max idx off b e q1 q2 st bf) as (st1 & Hrun & Hp1 & Ha1); [done|done|done|done|done|done|lia|lia|done|].
    fold n in Hp1, Ha1. pose proof (window_count_le max (e - off) q1 (ps_total st) (len (ps_entries st))) as Hnle. fold n in Hnle.
    assert (P = 0 → len (ps_entries st) = 0 → (0 < n)%nat) as Hprog.
    { intros -> He0. inversion H1 as [|? ? d ds Hd Hs1]; subst; [done|]. specialize (Hfst eq_refl d Hd).
      rewrite /n. apply window_count_first; [lia|done]. }
    destruct (decide (e = b_used b)) as [->|Hcut]; last first.
    { exists n, st1. destruct Hend as [?|Hend]; [done|]. pose proof (layout_stopped _ _ _ _ _ _ _ _ Hl Hend) as ->.
      inversion Hbs'; subst. apply chain_parsed_stop; try done; [by left; split|].
      rewrite batch_total_app. pose proof (payload_le q2). intros. lia. }
    assert (n = batch_count max q1 (ps_total st) (len (ps_entries st))) as En by (apply window_count_all; lia).
    destruct (decide (n = length q1)) as [Ea|Ea].
    + assert (take n q1 = q1) as Etk by (rewrite Ea; apply take_ge; lia). rewrite Etk in Hp1. rewrite Ea in Ha1.
      destruct (IH q2 st1 bs') as (n2 & st2 & Hcp); [done|by apply blocks_chain_q|done|apply Hp1| |].
      { rewrite (pa_total _ _ _ Hp1). pose proof (payload_le q1). lia. }
      exists (length q1 + n2)%nat, st2. by apply (chain_parsed_next _ _ _ _ _ _ _ _ _ _ _ _ _ _ st1); try done; [lia|congruence].
    + exists n, st1. apply chain_parsed_stop; try done.
      * destruct (Z.le_gt_cases max (P + (b_used b - off))) as [Hge|Hlt].
        { left. pose proof (layout_stopped _ _ _ _ _ _ _ _ Hl Hge) as ->. by inversion Hbs'. }
        right. rewrite (pa_entries _ _ _ Hp1) len_app. apply window_count_stop; [lia| |fold n; lia].
        pose proof (payload_le q1). lia.
      * intros _. rewrite batch_count_app -En. by case_decide.
Qed.

(** The range of the active block. *)
Lemma parse_tail_ok max s b ts u qt st bf :
  seg s b ts u qt → ps_trim st = 0 → 0 ≤ ps_total st → ps_total st + (u - ts) ≤ U64_MAX →
  buf_ok s (MkReadPlan b ts u true None) bf →
  let n := batch_count max qt (ps_total st) (len (ps_entries st)) in
  ∃ st', (∀ S (x : S), parse_plans max [MkReadPlan b ts u true None] [bf] st x = (Ok st', x)) ∧
    parsed (take n qt) st st' ∧ (n = 0%nat → st' = st) ∧
    ((0 < n)%nat → ps_saw_tail st' = true ∧ ps_tail_id st' = b_id b ∧ ps_tail_off st' = ts + batch_total (take n qt)).
Proof.
  intros Hs Ht Hz Hu Hbf n. set p := MkReadPlan b ts u true None in Hbf |- *.
  destruct (Z.le_gt_cases MAX_BATCH_ENTRIES (len (ps_entries st))) as [Hm|Hm].
  { assert (n = 0%nat) as -> by by apply batch_count_full.
    exists st. split_and!; [intros; by apply parse_plans_stop|by apply parsed_nil|done|lia]. }
  assert (n = window_count max (u - ts) qt (ps_total st) (len (ps_entries st))) as En.
  { symmetry. apply window_count_all. rewrite (seg_total _ _ _ _ _ Hs). lia. }
  exists (push_all p ts (take n qt) st). split_and!.
  - intros S x. cbn [parse_plans]. destruct (Z.geb_spec (len (ps_entries st)) MAX_BATCH_ENTRIES); [lia|].
    rewrite Hbf /bind. pose proof (seg_le _ _ _ _ _ Hs).
    pose proof (parse_buffer_ok (parse_fuel bf) max p s ts u u qt st x Hs) as Hp.
    cbn [rp_blk rp_start rp_end p] in Hp |- *. rewrite Z.sub_diag -En Hbf in Hp. rewrite Hp; [lia|lia|done|done|done| |done].
    rewrite /parse_fuel length_read_bytes /=. lia.
  - by apply push_all_parsed.
  - by intros ->.
  - intros Hn. apply (push_all_stands p ts (take n qt) st); [|done].
    pose proof (batch_count_le max qt (ps_total st) (len (ps_entries st))). fold n in H1.
    intros E. apply (f_equal length) in E. rewrite length_take /= in E. lia.
Qed.

(** * Planning *)

Lemma read_header_ok b o s d :
  (Block_read b o s).1 = Ok (d, entry_need d) →
  ∃ m, read_header b o s = (Ok (Some (Some m)), s) ∧ read_size m = len d.
Proof.
  intros (m & Hm & Hs & _ & Hr & _)%entry_header. exists m. split; [|done].
  rewrite /read_header /bind storage_read_ok; [|by rewrite Hm].
  pose proof (len_nonneg d). destruct (b_mmap b); cbn in *; [|done]. rewrite /entry_need in Hr. lia.
Qed.

Lemma peek_want_ok b off want s d ds :
  seg s b off (b_used b) (d :: ds) →
  ∃ want', peek_want b off want s = (Ok want', s) ∧ want ≤ want' ≤ Z.max want (b_used b - off) ∧ entry_need d ≤ want'.
Proof.
  intros Hs. inversion Hs as [|? ? ? ? Hd Hs1]; subst. pose proof (seg_le _ _ _ _ _ Hs1) as Hle.
  pose proof (len_nonneg d). destruct (read_header_ok _ _ _ _ Hd) as (m & Hm & Esz).
  rewrite /peek_want. destruct (Z.leb_spec (off + PREFIX_META_SIZE) (b_used b)); [|rewrite /entry_need in Hle; lia].
  rewrite {1}/bind Hm Esz -/(entry_need d).
  assert (∃ r, (if (len d <? 128) && (off + entry_need d + PREFIX_META_SIZE <=? b_used b)
    then let! h2 := read_header b (off + entry_need d) in
         match h2 with None => ret (entry_need d) | Some None => panic
         | Some (Some meta2) => ret (entry_need d + (PREFIX_META_SIZE + read_size meta2)) end
    else ret (entry_need d)) s = (Ok r, s) ∧ entry_need d ≤ r ≤ b_used b - off) as (r & Er & Hr).
  { destruct (_ && _) eqn:Hc; [|eexists; split; [done|lia]]. apply andb_true_iff in Hc as [_ Hc%Z.leb_le].
    inversion Hs1 as [|? ? d2 ? Hd2 Hs2]; subst; [consts|]. pose proof (seg_le _ _ _ _ _ Hs2).
    destruct (read_header_ok _ _ _ _ Hd2) as (m2 & Hm2 & Esz2). rewrite /bind Hm2 Esz2 -/(entry_need d2).
    pose proof (entry_need_pos d2). eexists. split; [done|]. lia. }
  rewrite /bind. rewrite /bind in Er. rewrite Er. eexists. split; [done|]. destruct (Z.gtb_spec r want); lia.
Qed.

(** Only the trackers changed. *)
Definition trk_only (W W' : Walrus) : Prop := ∃ trk, W' = set_alloc (ae_set_trk trk (wa_alloc W)) W.

Lemma wrap64_small z : 0 ≤ z ≤ U64_MAX → wrap64 z = z.
Proof. rewrite /U64_MAX. intros Hz. apply Z.mod_small. lia. Qed.

Lemma trk_only_refl W : trk_only W W.
Proof. exists (ae_trk (wa_alloc W)). by destruct W as [[]]. Qed.

Lemma trk_only_trans W1 W2 W3 : trk_only W1 W2 → trk_only W2 W3 → trk_only W1 W3.
Proof. intros [trk ->] [trk' ->]. by exists trk'. Qed.

Lemma plan_chain_ok max c W idx off P qc :
  max + MAX_FILE_SIZE ≤ U64_MAX → Forall (λ b, 0 ≤ b_used b ≤ MAX_FILE_SIZE) c → 0 ≤ off → 0 ≤ P →
  (idx ≤ length c)%nat → chain_q (wa_fs W) c idx off qc →
  ∃ ps j W', plan_chain true false max (drop idx c) idx off 0 P W = (Ok (ps, j), W') ∧
    layout (wa_fs W) c max idx off P ps j ∧ trk_only W W'.
Proof.
  intros Hmax Hc. remember (drop idx c) as rest eqn:Erest. revert W idx off P qc Erest.
  induction rest as [|b rest IH]; intros W idx off P qc Erest Ho HP Hidx Hq; cbn [plan_chain].
  { assert (idx = length c) as ->.
    { apply (f_equal length) in Erest. rewrite length_drop /= in Erest. lia. }
    exists [], (length c), W. split_and!; [done|constructor|apply trk_only_refl]. }
  assert (c !! idx = Some b) as Hb by by rewrite -(Nat.add_0_r idx) -lookup_drop -Erest.
  rewrite (drop_S c b idx Hb) in Erest. injection Erest as Er.
  pose proof (lookup_lt_Some _ _ _ Hb) as Hlt.
  pose proof (proj1 (Forall_lookup _ _) Hc idx b Hb) as Hbu. cbn in Hbu.
  destruct (Z.ltb_spec P max) as [HPm|HPm]; last first.
  { exists [], idx, W. split_and!; [done|by constructor|apply trk_only_refl]. }
  destruct (chain_q_drop _ _ _ _ _ _ Hb Hq) as (q1 & q2 & Hs1 & Hs2 & ->).
  apply blocks_chain_q in Hs2.
  destruct (Z.geb_spec off (b_used b)) as [Hu|Hu].
  - rewrite {1}/bind {1}/in_trk {1}/in_alloc {1}/zoom {1}/on_trk {1}/modify. set W1 := set_alloc _ W.
    assert (trk_only W W1) as Ht1 by by eexists.
    destruct (IH W1 (S idx) 0 P q2 Er) as (ps & j & W' & E & Hl & Ht2); [done|done|lia|done|].
    exists ps, j, W'. split_and!; [done| |exact (trk_only_trans _ _ _ Ht1 Ht2)]. by eapply lay_skip.
  - assert (∃ want, plan_want false 0 b off P (max - P) (wa_fs W) = (Ok want, wa_fs W) ∧
      max - P ≤ want ≤ Z.max (max - P) (b_used b - off) ∧
      (P = 0 → ∀ d, (Block_read b off (wa_fs W)).1 = Ok (d, entry_need d) → entry_need d ≤ want)) as (want & Ew & Hw & Hfst).
    { inversion Hs1 as [|? ? d ds Hd Hs]; subst; [lia|]. rewrite /plan_want. destruct (Z.eqb_spec P 0) as [->|]; cbn [andb].
      - destruct (peek_want_ok b off (max - 0) _ d ds Hs1) as (w & E & Hw & Hn). exists w. split_and!; [done|lia|lia|].
        intros _ d' Hd'. rewrite Hd in Hd'. by simplify_eq.
      - eexists. split; [done|]. split; lia. }
    rewrite {1}/bind (in_fs_pure _ _ _ Ew). rewrite wrap64_small; [consts|].
    destruct (Z.gtb_spec (Z.min (b_used b) (off + want)) off) as [He|]; [|lia].
    set e := Z.min _ _ in He |- *.
    destruct (IH W (S idx) 0 (P + (e - off)) q2 Er) as (ps & j & W' & E & Hl & Ht2); [done|lia|lia|done|].
    exists (MkReadPlan b off e false (Some idx) :: ps), j, W'. split_and!; [by rewrite /bind E| |done].
    eapply lay_read; try done; [lia|lia|]. intros HP0 d Hd. specialize (Hfst HP0 d Hd).
    inversion Hs1 as [|? ? d' ds Hd' Hs]; subst; [lia|]. rewrite Hd' in Hd. simplify_eq.
    pose proof (seg_le _ _ _ _ _ Hs). lia.
Qed.
End parse.
