(* ===== verification/BatchReadInv.v ===== *)
(** The batch read operation on a whole instance: the ranges are read back as they are in the
    files, and a batch whose byte budget covers the topic's backlog takes from the front of the
    queue. *)

From S2P Require Import Prelude Config Storage Block Trackers Allocator Index TopicClean Reader Writer TopicInv Core Batch Walrus BatchRead Recovery EngineInv BatchReadOk.

#[local] Open Scope Z_scope.

(** The bytes a submitted read asks for. *)
Definition sqe_bytes (s : Fs) (q : ReadSqe) : list Z := read_bytes (file_of s (rd_path q)) (rd_off q) (rd_size q).

(** A ring that was created takes as many entries as it was created for; a read inside its file
    fills its buffer and is reported with its length, in any order. *)
Class ReadRingReliable `{ReadRing} : Prop := {
  rring_push_room cap ring q : len ring < cap → rring_push cap ring q = None;
  rring_submit_reads ring s :
    Forall (λ q, rd_off q + rd_size q ≤ f_len (file_of s (rd_path q)) ∧ rd_len q = rd_size q) ring →
    ∃ cqes, rring_submit_and_wait ring s = (Ok (cqes, sqe_bytes s <$> ring), s) ∧
      Forall (λ c, ∃ q, q ∈ ring ∧ cqe_user c = rd_user q ∧ cqe_result c = rd_len q) cqes;
}.

(** * Reading the ranges *)

(** A range of a block the process has handed out. *)
Record range_ok (s : Fs) (p : ReadPlan) : Prop := {
  ra_handle : handle_ok (USE_FD_BACKEND s) (b_file_path (rp_blk p)) (b_mmap (rp_blk p));
  ra_len : MAX_FILE_SIZE ≤ f_len (file_of s (b_file_path (rp_blk p)));
  ra_start : 0 ≤ rp_start p < rp_end p;
  ra_end : b_offset (rp_blk p) + rp_end p ≤ MAX_FILE_SIZE;
  ra_off : 0 ≤ b_offset (rp_blk p);
}.

Definition buf_of (s : Fs) (p : ReadPlan) : list Z :=
  read_bytes (file_of s (st_path (b_mmap (rp_blk p)))) (b_offset (rp_blk p) + rp_start p) (rp_end p - rp_start p).

Definition sqe_of (i : nat) (p : ReadPlan) : ReadSqe :=
  MkReadSqe (st_path (b_mmap (rp_blk p))) (b_offset (rp_blk p) + rp_start p) (rp_end p - rp_start p) (rp_end p - rp_start p) i.

Lemma read_ranges_ok s plan : Forall (range_ok s) plan → read_ranges plan s = (Ok (buf_of s <$> plan), s).
Proof.
  induction 1 as [|p plan Hp _ IH]; cbn [read_ranges]; [done|].
  rewrite {1}/bind storage_read_ok.
  { destruct Hp as [[_ Hh] _ _ He _]. destruct (b_mmap (rp_blk p)); cbn; [lia|done]. }
  by rewrite /bind IH.
Qed.

Section read_buffers.
Context `{ReadRingReliable}.

Lemma push_reads_ok cap plan s : ∀ i ring,
  USE_FD_BACKEND s = true → Forall (range_ok s) plan → len ring + len plan ≤ cap →
  push_reads cap plan i ring s = (Ok (ring ++ imap (λ k, sqe_of (i + k)) plan), s).
Proof.
  induction plan as [|p plan IH]; intros i ring Hfd Hps Hl; cbn [push_reads imap]; [by rewrite app_nil_r|].
  apply Forall_cons in Hps as [[[Hp Hh] Hlen Hs He Ho] Hps]. rewrite len_cons in Hl. pose proof (len_nonneg plan).
  destruct (b_mmap (rp_blk p)) as [|fd n o] eqn:Em; [destruct Hh; congruence|]. cbn [as_fd].
  rewrite Z.mod_small; [consts|]. rewrite rring_push_room; [lia|].
  rewrite IH; [done|done|rewrite len_app; change (len [_]) with 1; lia|].
  rewrite -app_assoc /=. do 3 f_equal. f_equal.
  - rewrite /sqe_of Em Nat.add_0_r. done.
  - apply imap_ext. intros k x _. by rewrite /= Nat.add_succ_r.
Qed.

Lemma check_reads_ok plan cqes s :
  Forall (λ c, ∃ i p, plan !! i = Some p ∧ cqe_user c = i ∧ cqe_result c = rp_end p - rp_start p) cqes →
  Forall (range_ok s) plan → check_reads plan cqes s = (Ok tt, s).
Proof.
  intros Hc Hp. induction Hc as [|c cqes (i & p & Hi & Eu & Er) _ IH]; cbn [check_reads]; [done|].
  pose proof (ra_start _ _ (proj1 (Forall_lookup _ _) Hp i p Hi)).
  destruct (Z.ltb_spec (cqe_result c) 0); [lia|]. by rewrite Eu Hi Er Z.eqb_refl.
Qed.

Lemma read_buffers_ok s plan :
  Forall (range_ok s) plan → (USE_FD_BACKEND s = true → len plan ≤ 4096) →
  read_buffers plan s = (Ok (buf_of s <$> plan), s).
Proof.
  intros Hp Hl. rewrite /read_buffers {1}/bind {1}/getS. destruct (USE_FD_BACKEND s) eqn:Hfd; [|by apply read_ranges_ok].
  destruct (rring_new _ s); [|by apply read_ranges_ok]. specialize (Hl eq_refl).
  rewrite {1}/bind push_reads_ok; [done|done|rewrite len_nil; lia|]. cbn [app].
  set ring := imap _ plan. assert (∀ q, q ∈ ring → ∃ i p, plan !! i = Some p ∧ q = sqe_of i p) as Hring.
  { intros q (i & p & -> & Hi)%elem_of_lookup_imap_1. by exists i, p. }
  destruct (rring_submit_reads ring s) as (cqes & E & Hc).
  { apply Forall_forall. intros q (i & p & Hi & ->)%Hring. split; [|done].
    destruct (proj1 (Forall_lookup _ _) Hp i p Hi) as [[Ep _] Hlen _ He _]. cbn. rewrite Ep. lia. }
  rewrite {1}/bind E. rewrite /bind /= check_reads_ok; [|done|].
  - apply Forall_take. eapply Forall_impl; [done|]. intros c (q & (i & p & Hi & ->)%Hring & Eu & Er). by exists i, p.
  - rewrite /ret. do 2 f_equal. rewrite /ring fmap_imap. apply list_eq. intros i. rewrite list_lookup_imap list_lookup_fmap.
    by destruct (plan !! i).
Qed.
End read_buffers.

(** * The position after a batch *)

(** The range of the active block, when the chain was planned to its end. *)
Definition tail_plan (info : ColReaderInfo) (w : option Writer) : list ReadPlan :=
  match w with
  | None => []
  | Some w => if tail_start info w <? current_offset w
              then [MkReadPlan (current_block w) (tail_start info w) (current_offset w) true None] else []
  end.

Lemma plan_tail_eq `{MetaCodec} info w s :
  plan_tail false (snapshot_block <$> w) (tail_block_id info) (tail_offset info) 0 s = (Ok (tail_plan info w, 0), s).
Proof. by destruct w. Qed.

(** Where the reader stands after a batch that delivered something. *)
Definition moved (st : PState) (info : ColReaderInfo) : ColReaderInfo :=
  if ps_saw_tail st then set_tail (ps_tail_id st) (ps_tail_off st) (set_pos (length (chain info)) 0 info)
  else set_pos (ps_block_idx st) (ps_block_off st) info.

Lemma update_state_moved mode st info :
  same_position (moved st info) (update_state mode (length (chain info)) st info).2 ∧
  hydrated_from_index (update_state mode (length (chain info)) st info).2 = hydrated_from_index info.
Proof. rewrite /update_state /moved. destruct mode, (ps_saw_tail st); done. Qed.

Section moved.
Context `{MetaCodecLaws}.

Lemma topic_ok_moved_chain g s nid sched t info w qc qt n st :
  topic_ok g s nid sched t info w (qc ++ qt) → tail_q s info w qt → (cur_idx info < length (chain info))%nat →
  (n ≤ length qc)%nat → chain_q s (chain info) (ps_block_idx st) (ps_block_off st) (drop n qc) →
  (ps_block_idx st < length (chain info))%nat → 0 ≤ ps_block_off st → ps_saw_tail st = false →
  topic_ok g s nid sched t (moved st info) w (drop n (qc ++ qt)).
Proof.
  intros [Hc Hw Hi Ho He Ht _] Hq Hlt Hn Hqc Hidx Hoff Hst. rewrite /moved Hst drop_app_le //.
  split; try done; cbn; [|lia|lia|by exists (drop n qc), qt].
  intros w' Ew. destruct (Hw w' Ew) as [?????? Hwt]. split; try done. cbn. intros ?%Hwt. lia.
Qed.

Lemma topic_ok_moved_tail g s nid sched t info w qc qt n st :
  topic_ok g s nid sched t info (Some w) (qc ++ qt) → tail_q s info (Some w) qt → b_id (current_block w) < nid →
  ps_saw_tail st = true → ps_tail_id st = b_id (current_block w) →
  ps_tail_off st = tail_start info w + batch_total (take n qt) →
  topic_ok g s nid sched t (moved st info) (Some w) (drop (length qc + n) (qc ++ qt)).
Proof.
  intros [Hc Hw Hi Ho He Ht _] [Hz Hq] Hid Hst Eid Eoff. rewrite /moved Hst Eid Eoff drop_app_add'; [done|].
  pose proof (payload_le (take n qt)). split; try done; cbn.
  - intros w' Ew. destruct (Hw w' Ew). by split.
  - exists [], (drop n qt). split; [by rewrite /chain_q /= drop_ge|]. split; [|done].
    rewrite /tail_q tail_start_set. split; [lia|by apply seg_drop].
Qed.

(** ** Parsing the whole plan *)

Lemma tail_plan_ok max s info w qt st :
  tail_q s info w qt → (∀ w', w = Some w' → current_offset w' ≤ MAX_FILE_SIZE) → ps_trim st = 0 → 0 ≤ ps_total st →
  ps_total st + MAX_FILE_SIZE ≤ U64_MAX →
  let n := batch_count max qt (ps_total st) (len (ps_entries st)) in
  ∃ st', (∀ S (x : S), parse_plans max (tail_plan info w) (buf_of s <$> tail_plan info w) st x = (Ok st', x)) ∧
    parsed (take n qt) st st' ∧ (n = 0%nat → st' = st) ∧
    ((0 < n)%nat → ∃ w', w = Some w' ∧ ps_saw_tail st' = true ∧ ps_tail_id st' = b_id (current_block w') ∧
                     ps_tail_off st' = tail_start info w' + batch_total (take n qt)).
Proof.
  intros Hq Hw Ht Hz Hu n. destruct w as [w|]; cbn in Hq.
  - destruct Hq as [Hts Hq]. specialize (Hw w eq_refl). rewrite /tail_plan.
    destruct (Z.ltb_spec (tail_start info w) (current_offset w)).
    + destruct (parse_tail_ok max s _ _ _ qt st (buf_of s (MkReadPlan (current_block w) (tail_start info w) (current_offset w) true None)) Hq)
        as (st' & Hrun & Hp & Hn0 & Hn); [done|done|lia|done|].
      exists st'. split_and!; [done|done|done|]. intros ?%Hn. by exists w.
    + assert (qt = []) as ->.
      { destruct (decide (qt = [])) as [|Hne]; [done|]. apply (seg_lt _ _ _ _ _ Hq) in Hne. lia. }
      exists st. split_and!; [done|by apply parsed_nil|done|cbn in n; lia].
  - subst qt. exists st. split_and!; [done|by apply parsed_nil|done|cbn in n; lia].
Qed.

(** A batch that stops in the chain within its byte budget holds as many entries as it may. *)
Lemma batch_count_stop max q total emitted :
  total + batch_total q ≤ max → (batch_count max q total emitted < length q)%nat →
  MAX_BATCH_ENTRIES ≤ emitted + len (nonempty (take (batch_count max q total emitted) q)).
Proof.
  intros Ht. pose proof (payload_le q). rewrite -(window_count_all max (batch_total q)); [lia|].
  intros. apply window_count_stop; [lia|lia|done].
Qed.

Lemma parse_batch_ok g s nid sched t info w qc qt max ps :
  topic_ok g s nid sched t info w (qc ++ qt) → chain_q s (chain info) (cur_idx info) (cur_off info) qc → tail_q s info w qt →
  layout s (chain info) max (cur_idx info) (cur_off info) 0 ps (length (chain info)) →
  batch_total (qc ++ qt) < max → max + MAX_FILE_SIZE ≤ U64_MAX → Forall (λ b, 0 ≤ b_used b ≤ MAX_FILE_SIZE) (chain info) →
  (∀ w', w = Some w' → current_offset w' ≤ MAX_FILE_SIZE ∧ b_id (current_block w') < nid) →
  let n := batch_count max (qc ++ qt) 0 0 in
  ∃ st, (∀ S (x : S), parse_plans max (ps ++ tail_plan info w) (buf_of s <$> (ps ++ tail_plan info w)) (parse_start 0) x = (Ok st, x)) ∧
    ps_entries st = nonempty (take n (qc ++ qt)) ∧ ps_parsed st = Z.of_nat n ∧
    ((0 < n)%nat → topic_ok g s nid sched t (moved st info) w (drop n (qc ++ qt))).
Proof.
  intros Ht Hqc Hqt Hl Hmax Hu Hc Hw n. rewrite batch_total_app in Hmax.
  pose proof (payload_le qc) as Hpc. pose proof (payload_le qt) as Hpt.
  destruct (parse_chain_ok s (chain info) max _ _ 0 ps _ Hl Hu) with (qc := qc) (st := parse_start 0) (bs := buf_of s <$> ps)
    as (n1 & st1 & [Hle Hp1 [Hs1 Ha1] Hrun Hfull _]); [|apply Ht|done| |done|done|].
  { eapply Forall_impl; [done|]. cbn. lia. }
  { apply Forall2_fmap_r, Forall_Forall2_diag, Forall_forall. done. }
  assert (n1 = batch_count max qc 0 0) as En1 by (apply Hfull; lia).
  assert (n = if decide (n1 = length qc)
              then (length qc + batch_count max qt (payload_bytes qc) (len (nonempty qc)))%nat else n1) as En.
  { rewrite /n batch_count_app -En1 !Z.add_0_l. done. }
  assert (ps_total st1 = payload_bytes (take n1 qc) ∧ ps_entries st1 = nonempty (take n1 qc)) as [Etot Eent].
  { rewrite (pa_total _ _ _ Hp1) (pa_entries _ _ _ Hp1). done. }
  assert (payload_bytes (take n1 qc) ≤ payload_bytes qc) as Hpn.
  { pose proof (payload_le (drop n1 qc)). rewrite -{2}(take_drop n1 qc) payload_app. lia. }
  pose proof (payload_le (take n1 qc)).
  destruct (tail_plan_ok max s info w qt st1 Hqt) as (st2 & Hrun2 & Hp2 & Hn0 & Hn2);
    [intros w' Ew; apply (Hw w' Ew)|apply Hp1|lia|lia|]. rewrite Etot Eent in Hp2 Hn0 Hn2.
  assert ((0 < n1)%nat → topic_ok g s nid sched t (moved st1 info) w (drop n1 (qc ++ qt))) as Hchain.
  { intros Hpos. destruct n1 as [|n1]; [lia|]. destruct Ha1 as (Hq' & Hi' & Ho').
    apply topic_ok_moved_chain; try done.
    destruct (decide (cur_idx info < length (chain info))%nat) as [|Hge]; [done|].
    rewrite /chain_q drop_ge in Hqc; [lia|]. subst qc. cbn in Hle. lia. }
  exists st2. split.
  { intros S x. by rewrite fmap_app Hrun Hrun2. }
  destruct (decide (n1 = length qc)) as [Ea|Ea].
  - rewrite Ea take_ge // in Hp1 Hp2 Hn0 Hn2. set n2 := batch_count max qt _ _ in En Hp2 Hn0 Hn2.
    pose proof (parsed_app _ _ _ _ _ Hp1 Hp2) as Hp. rewrite En take_app_add'; [done|].
    split; [apply (pa_entries _ _ _ Hp)|]. split.
    { rewrite (pa_parsed _ _ _ Hp) /len length_app length_take. pose proof (batch_count_le max qt (payload_bytes qc) (len (nonempty qc))).
      cbn. fold n2 in H0. lia. }
    intros Hpos. destruct (decide (n2 = 0%nat)) as [Ez|Hn].
    + rewrite (Hn0 Ez) Ez Nat.add_0_r -Ea. apply Hchain. lia.
    + destruct Hn2 as (w' & -> & Hst & Eid & Eoff); [lia|].
      apply topic_ok_moved_tail; [done|done|by apply (Hw w')|done..].
  - rewrite batch_count_full in Hp2 Hn0 Hn2.
    { rewrite En1. pose proof (batch_count_stop max qc 0 0) as Hs. rewrite Z.add_0_l in Hs. apply Hs; lia. }
    rewrite (Hn0 eq_refl) En take_app_le; [done|]. split; [done|]. split; [|done].
    rewrite (pa_parsed _ _ _ Hp1) /len length_take. cbn. lia.
Qed.
End moved.

(** * The plan of a topic *)

Section plan.
Context `{MetaCodecLaws}.

(** Every range holds an entry. *)
Lemma layout_length s c max idx off P ps j qc :
  layout s c max idx off P ps j → chain_q s c idx off qc → (length ps ≤ length qc)%nat.
Proof.
  intros Hl. revert qc. induction Hl as [|idx off P Hs|idx off P b ps j Hb Hu _ IH|idx off P b e ps j Hb He HP Hend _ _ IH];
    intros qc Hq; cbn [length]; [lia..| |];
    destruct (chain_q_drop _ _ _ _ _ _ Hb Hq) as (q1 & q2 & Hs1 & Hs2%blocks_chain_q & ->); rewrite length_app;
    apply IH in Hs2; [lia|].
  assert (q1 ≠ []) as Hne by (apply (seg_lt _ _ _ _ _ Hs1); lia). destruct q1; [done|cbn; lia].
Qed.

Lemma tail_plan_length s info w qt : tail_q s info w qt → (length (tail_plan info w) ≤ length qt)%nat.
Proof.
  destruct w as [w|]; cbn; [|lia]. intros [_ Hq]. destruct (Z.ltb_spec (tail_start info w) (current_offset w)) as [Hlt|]; cbn; [|lia].
  apply (seg_lt _ _ _ _ _ Hq) in Hlt. destruct qt; [done|cbn; lia].
Qed.

(** Ranges of blocks that were handed out can be read. *)
Lemma holds_range e g t b o u tl ci :
  ghost_ok e g → holds g t b → 0 ≤ o < u → u ≤ b_limit b → range_ok (ae_fs e) (MkReadPlan b o u tl ci).
Proof. intros Hg Hh Ho Hu. apply (g_owned _ _ Hg) in Hh as [[? _ ? _ ? _ _ ?] _]. split; cbn in *; try done; lia. Qed.

Lemma layout_ranges e g t s c max idx off P ps j :
  layout s c max idx off P ps j → 0 ≤ off → ghost_ok e g → Forall (sealed_ok g t) c → Forall (range_ok (ae_fs e)) ps.
Proof.
  intros Hl Ho Hg Hc. induction Hl as [| |idx off P b ps j Hb Hu _ IH|idx off P b e' ps j Hb He HP Hend _ _ IH];
    [constructor..|by apply IH|]. constructor; [|by apply IH].
  destruct (proj1 (Forall_lookup _ _) Hc idx b Hb) as [Hh Hu]. by eapply holds_range; [..|lia|lia].
Qed.

Lemma tail_plan_ranges e g s nid sched t info w q :
  ghost_ok e g → topic_ok g s nid sched t info w q → Forall (range_ok (ae_fs e)) (tail_plan info w).
Proof.
  intros Hg [_ Hw _ _ _ _ (qc & qt & _ & Hq & _)]. destruct w as [w|]; [|constructor]. cbn in Hq |- *.
  destruct (Hw w eq_refl) as [Hh _ _ _ _ Ho _]. case_match eqn:Hlt; [|constructor]. apply Z.ltb_lt in Hlt.
  constructor; [|constructor]. eapply holds_range; [done|done|lia|lia].
Qed.
End plan.

(** * Batch reads on the queues *)

Definition spec_batch (t : string) (max : Z) (σ : queues) : list (list Z) :=
  nonempty (take (batch_count max (pending σ t) 0 0) (pending σ t)).

Definition spec_batch_read (t : string) (max : Z) (checkpoint : bool) (σ : queues) : queues :=
  if checkpoint then <[t := drop (batch_count max (pending σ t) 0 0) (pending σ t)]> σ else σ.

(** The budget covers the backlog, with its headers; on the descriptor back end the ring takes
    at most 4096 ranges. *)
Record batch_covers (fd : bool) (max : Z) (q : list (list Z)) : Prop := {
  bc_total : batch_total q < max;
  bc_max : max + MAX_FILE_SIZE ≤ U64_MAX;
  bc_ring : fd = true → len q ≤ 4096;
}.

Section batch_read.
Context `{MetaCodecLaws} `{MapCodec BlockPos} `{ReadRingReliable}.

Lemma commit_batch_ok g W σ τ t info st q hold :
  winv g W σ τ → wa_reader W !! t = Some info → hydrated_from_index info = true →
  topic_ok g (wa_fs W) (next_id (wa_alloc W)) (fsync_schedule W) t (moved st info) (wa_writers W !! t) q →
  ∃ W', commit_batch t true true hold (length (chain info)) st W = (Ok tt, W') ∧ winv g W' (<[t := q]> σ) τ ∧ reader_side W W'.
Proof.
  intros Hi Ht Hh Hq. rewrite /commit_batch {1}/bind {1}/getS Ht.
  replace (if hold then true else bool_decide (is_Some (Some info))) with true by by destruct hold. cbn [andb].
  rewrite {1}/bind {1}/get_info Ht /default /id.
  destruct (update_state_moved (read_consistency W) st info) as [Hp Hhyd].
  destruct (update_state _ _ st info) as [tgt info']. cbn in Hp, Hhyd. rewrite Hh in Hhyd.
  pose proof (winv_put_info _ _ _ _ _ _ _ Hi Hhyd (topic_ok_same _ _ _ _ _ _ _ _ _ Hp Hq)) as Hi1.
  rewrite {1}/bind {1}/put_info {1}/modify. set W1 := set_reader _ W in Hi1 |- *.
  assert (∀ i o, ∃ W', index_set t i o W1 = (Ok tt, W') ∧ winv g W' (<[t := q]> σ) τ ∧ reader_side W W') as Hset.
  { intros i o. destruct (winv_index_set g W1 _ _ t i o Hi1) as (W2 & ? & ? & ? & _); [by rewrite /W1 /= info_of_insert|].
    by exists W2. }
  destruct tgt; [apply Hset|apply Hset|by exists W1].
Qed.

Lemma hydrate_batch_none info : hydrate_batch None info = set_hydrated info.
Proof. rewrite /hydrate_batch. destruct info as [????? ? []]; done. Qed.

Lemma prepare_cursor_ok g W σ t :
  winv g W σ σ →
  let info := set_hydrated (info_of (wa_reader W) t) in let W1 := set_reader (<[t := info]> (wa_reader W)) W in
  prepare_cursor t W = (Ok (chain info, cur_idx info, cur_off info, tail_block_id info, tail_offset info, true, 0, 0), W1) ∧
  winv g W1 σ σ.
Proof.
  intros Hi info W1. rewrite /prepare_cursor {1}/bind {1}/get_info -/(info_of (wa_reader W) t) {1}/bind {1}/getS.
  assert (hydrate_batch (WalIndex_get t (read_offset_index W)) (info_of (wa_reader W) t) = info) as ->.
  { destruct (hydrated_from_index (info_of (wa_reader W) t)) eqn:E.
    - rewrite /hydrate_batch E /info. by destruct (info_of (wa_reader W) t); cbn in *; subst.
    - rewrite /WalIndex_get (wi_hyd _ _ _ _ Hi t E). apply hydrate_batch_none. }
  split; [done|]. pose proof (ci_topic _ _ _ _ _ _ _ (wi_core _ _ _ _ Hi) t) as Ht.
  pose proof (winv_put_info g W σ σ t info _ Hi eq_refl (topic_ok_same _ _ _ _ _ (info_of (wa_reader W) t) info _ _ ltac:(done) Ht)) as Hi1.
  by eapply (winv_ext _ _ _ σ _ σ) in Hi1; [|intros; symmetry; by apply pending_same|done].
Qed.

(** What the read does to the rest of the instance: at most the trackers change while it plans. *)
Lemma winv_trk_only g W W' σ τ : trk_only W W' → winv g W σ τ → winv g W' σ τ ∧ reader_side W W' ∧ wa_reader W' = wa_reader W.
Proof. intros [trk ->] Hi. split; [|done]. by apply (winv_trk _ _ _ _ (λ _, trk)). Qed.

(** Everything after the planning. *)
Lemma finish_batch_ok g W σ t max c info ps hold qc qt :
  let plan := ps ++ tail_plan info (wa_writers W !! t) in
  let n := batch_count max (pending σ t) 0 0 in
  winv g W σ σ → wa_reader W !! t = Some info → hydrated_from_index info = true →
  pending σ t = qc ++ qt → chain_q (wa_fs W) (chain info) (cur_idx info) (cur_off info) qc →
  tail_q (wa_fs W) info (wa_writers W !! t) qt →
  layout (wa_fs W) (chain info) max (cur_idx info) (cur_off info) 0 ps (length (chain info)) →
  batch_covers (USE_FD_BACKEND (wa_fs W)) max (pending σ t) →
  ∃ st W', (let! buffers := in_fs (read_buffers plan) in
    let! st := parse_plans max plan buffers (parse_start 0) in
    (if ps_parsed st >? 0 then commit_batch t c true hold (length (chain info)) st else ret tt);;
    (if c then decrement_topic_entry_count t (ps_parsed st) else ret tt);; ret (ps_entries st)) W = (Ok (ps_entries st), W') ∧
    parse_plans max plan (buf_of (wa_fs W) <$> plan) (parse_start 0) W = (Ok st, W) ∧ ps_parsed st = Z.of_nat n ∧
    ps_entries st = spec_batch t max σ ∧ winv g W' (spec_batch_read t max c σ) (spec_batch_read t max c σ) ∧ reader_side W W'.
Proof.
  intros plan n Hi Ht Hh Eq Hqc Hqt Hl [Htot Hu Hring].
  pose proof (ci_topic _ _ _ _ _ _ _ (wi_core _ _ _ _ Hi) t) as Htop. pose proof (ci_ghost _ _ _ _ _ _ _ (wi_core _ _ _ _ Hi)) as Hg.
  rewrite {1}/info_of Ht [default _ _]/= in Htop.
  assert (Forall (range_ok (wa_fs W)) plan) as Hplan.
  { apply Forall_app. split; [|by eapply tail_plan_ranges].
    eapply layout_ranges; [done|apply Htop|done|apply Htop]. }
  assert (in_fs (read_buffers plan) W = (Ok (buf_of (wa_fs W) <$> plan), W)) as Hread.
  { apply in_fs_pure, read_buffers_ok; [done|]. intros Hfd%Hring. rewrite Eq len_app in Hfd.
    pose proof (layout_length _ _ _ _ _ _ _ _ _ Hl Hqc). pose proof (tail_plan_length _ _ _ _ Hqt).
    rewrite /plan /len length_app. rewrite /len in Hfd. lia. }
  destruct (parse_batch_ok g (wa_fs W) (next_id (wa_alloc W)) (fsync_schedule W) t info (wa_writers W !! t) qc qt max ps)
    as (st & Hparse & Hent & Hpar & Hmv); [by rewrite -Eq|done|done|done|by rewrite -Eq|done| | |].
  { eapply Forall_impl; [apply Htop|]. intros b [[[] _]%(g_owned _ _ Hg) Hbu]. cbn in *. lia. }
  { intros w Hw. destruct (to_writer _ _ _ _ _ _ _ _ Htop w Hw) as [[[] Hid]%(g_owned _ _ Hg) _ _ _ _ Ho _]. cbn in *. rewrite /next_id. lia. }
  rewrite -Eq -/n in Hent, Hpar, Hmv. fold plan in Hparse.
  assert (∃ W', ((if ps_parsed st >? 0 then commit_batch t c true hold (length (chain info)) st else ret tt);;
    (if c then decrement_topic_entry_count t (ps_parsed st) else ret tt);; ret (ps_entries st)) W = (Ok (ps_entries st), W') ∧
    winv g W' (spec_batch_read t max c σ) (spec_batch_read t max c σ) ∧ reader_side W W') as (W' & E & Hi' & Hr').
  { rewrite /spec_batch_read. fold n. rewrite Hpar. destruct c; last first.
    { exists W. rewrite /commit_batch. by destruct (_ >? 0). }
    assert (∃ W1, (if Z.of_nat n >? 0 then commit_batch t true true hold (length (chain info)) st else ret tt) W = (Ok tt, W1) ∧
      winv g W1 (<[t := drop n (pending σ t)]> σ) σ ∧ reader_side W W1) as (W1 & E1 & Hi1 & Hr1).
    { destruct (Z.gtb_spec (Z.of_nat n) 0) as [Hn|Hn]; [apply commit_batch_ok; [done..|]; apply Hmv; lia|].
      exists W. split_and!; [done| |done]. replace n with 0%nat by lia.
      eapply winv_ext; [|done..]. by apply pending_same. }
    destruct (winv_decrement g W1 _ σ t n Hi1) as (W2 & E2 & Hi2 & Hr2 & _).
    exists W2. split_and!; [by rewrite /bind E1 E2|done|by etrans]. }
  exists st, W'. rewrite {1}/bind Hread {1}/bind Hparse. split_and!; [done|done|done|by rewrite Hent|done|apply Hr'..].
Qed.

(** A batch read delivers the entries that are not empty among the first ones of the queue, as
    many as its limits allow. *)
Lemma batch_read_ok g W σ t max c :
  winv g W σ σ → batch_covers (USE_FD_BACKEND (wa_fs W)) max (pending σ t) →
  ∃ W', batch_read_for_topic t max c None W = (Ok (spec_batch t max σ), W') ∧
    winv g W' (spec_batch_read t max c σ) (spec_batch_read t max c σ) ∧ reader_side W W'.
Proof.
  intros Hi Hcov. rewrite /batch_read_for_topic {1}/bind {1}/getS.
  destruct (prepare_cursor_ok g W σ t Hi) as [E1 Hi1]. rewrite {1}/bind E1.
  set info := set_hydrated _ in E1 Hi1 |- *. set W1 := set_reader _ W in E1 Hi1 |- *.
  pose proof (ci_topic _ _ _ _ _ _ _ (wi_core _ _ _ _ Hi1) t) as Htop. rewrite /W1 /= info_of_insert in Htop.
  pose proof (ci_ghost _ _ _ _ _ _ _ (wi_core _ _ _ _ Hi1)) as Hg.
  destruct (to_queue _ _ _ _ _ _ _ _ Htop) as (qc & qt & Hqc & Hqt & Eq).
  destruct (plan_chain_ok max (chain info) W1 (cur_idx info) (cur_off info) 0 qc) as (ps & j & W2 & E2 & Hl & Htrk);
    [apply Hcov| |apply Htop|done|apply Htop|done|].
  { eapply Forall_impl; [apply Htop|]. intros b [[[] _]%(g_owned _ _ Hg) Hbu]. cbn in *. lia. }
  rewrite {1}/bind E2. destruct (winv_trk_only _ _ _ _ _ Htrk Hi1) as (Hi2 & Hr2 & Er2). pose proof Hr2 as (Ew2 & _).
  assert (wa_fs W2 = wa_fs W) as Efs by by destruct Htrk as [trk ->].
  pose proof (bc_total _ _ _ Hcov) as Htot. rewrite Eq batch_total_app in Htot.
  pose proof (payload_le qt). 
  assert (j = length (chain info)) as -> by (eapply layout_end; [done|done|lia]). rewrite Nat.leb_refl.
  rewrite {1}/bind (in_fs_pure _ _ _ (plan_tail_eq info (wa_writers W !! t) (wa_fs W2))).
  set plan := ps ++ tail_plan _ _.
  destruct (finish_batch_ok g W2 σ t max c info ps (match read_consistency W with StrictlyAtOnce => true | _ => c && negb false end) qc qt)
    as (st & W' & E & Hparse & Hpar & Hent & Hi' & Hr'); try done.
  { by rewrite Er2 /W1 /= lookup_insert_eq. } { by rewrite Efs. } { by rewrite Efs Ew2. } { by rewrite Efs. } { by rewrite Efs. }
  rewrite Ew2 -/plan in E Hparse.
  assert (reader_side W W') as Hr by by etrans; [|done].
  destruct plan as [|p plan'] eqn:Ep; cbn [is_nil].
  - cbn in Hparse. injection Hparse as <-. cbn in Hpar, Hent. exists W2. rewrite -Hent. split_and!; [done| |].
    + rewrite /spec_batch_read. replace (batch_count max (pending σ t) 0 0) with 0%nat by lia.
      destruct c; [|done]. eapply winv_ext; [..|done]; by apply pending_same.
    + done.
  - exists W'. rewrite -Hent -E. split; [|done]. by destruct c.
Qed.
End batch_read.
