(* ===== verification/BatchReadSkips.v ===== *)
(** A batch read that runs out of budget in the last sealed block.

    [batch_read_for_topic] advances past a sealed block after it has planned any part of it
    ([src/src/wal/runtime/walrus_read.rs], lines 776-790), and plans the active block whenever
    the index has reached the end of the chain. When the budget ends inside the last sealed block
    the active block is read all the same, and the rest of the sealed block is passed over. *)

From S2P Require Import Prelude Config Storage Block Trackers Allocator Index TopicClean Reader Writer TopicInv Core Batch Walrus BatchRead Recovery EngineInv BatchReadOk BatchReadInv.

#[local] Open Scope Z_scope.

Section skips.
Context `{MetaCodecLaws} `{MapCodec BlockPos} `{ReadRingReliable}.

(** The reader of [t] stands in the last sealed block before [d1 :: d2 :: ds]; the budget [max]
    holds [d1] but not [d2] as well; the active block holds [qt], which fits in what the payload
    of [d1] leaves. *)
Record cut_in_last_block (W : Walrus) (t : string) (max : Z) (d1 d2 : list Z) (ds qt : list (list Z)) : Prop := {
  cl_block : ∃ b, let info := info_of (wa_reader W) t in
    chain info !! cur_idx info = Some b ∧ S (cur_idx info) = length (chain info) ∧
    seg (wa_fs W) b (cur_off info) (b_used b) (d1 :: d2 :: ds);
  cl_tail : ∃ w, wa_writers W !! t = Some w ∧ tail_q (wa_fs W) (info_of (wa_reader W) t) (Some w) qt;
  cl_first : 128 ≤ len d1;
  cl_budget : entry_need d1 ≤ max < entry_need d1 + entry_need d2;
  cl_fits : len d1 + payload_bytes qt ≤ max;
  cl_number : 1 + len qt ≤ MAX_BATCH_ENTRIES;
  cl_some : qt ≠ [];
  cl_max : max + MAX_FILE_SIZE ≤ U64_MAX;
}.

Lemma batch_count_all max q total emitted :
  total + payload_bytes q ≤ max → emitted + len q ≤ MAX_BATCH_ENTRIES → batch_count max q total emitted = length q.
Proof.
  revert total emitted. induction q as [|d q IH]; intros total emitted Ht Hn; cbn [batch_count length]; [done|].
  change (payload_bytes (d :: q)) with (len d + payload_bytes q) in Ht. rewrite len_cons in Hn.
  pose proof (payload_le q). pose proof (len_nonneg q).
  destruct (Z.geb_spec emitted MAX_BATCH_ENTRIES); [lia|]. destruct (Z.gtb_spec (total + len d) max); [lia|]. cbn [andb].
  f_equal. apply IH; [lia|]. rewrite nonempty_one. destruct d; cbn [is_nil]; rewrite ?len_nil; [lia|]. change (len [_]) with 1. lia.
Qed.

(** The range planned in the sealed block ends after [max] bytes, and the index is past it. *)
Lemma plan_chain_cut W b idx off max d1 d2 ds :
  seg (wa_fs W) b off (b_used b) (d1 :: d2 :: ds) → 0 ≤ off → b_used b ≤ MAX_FILE_SIZE → max + MAX_FILE_SIZE ≤ U64_MAX →
  128 ≤ len d1 → entry_need d1 ≤ max < entry_need d1 + entry_need d2 →
  off + max < b_used b ∧
  plan_chain true false max [b] idx off 0 0 W = (Ok ([MkReadPlan b off (off + max) false (Some idx)], S idx), W).
Proof.
  intros Hs Ho Hu Hmax Hd1 Hm. pose proof (seg_total _ _ _ _ _ Hs) as Ht. cbn in Ht. fold (batch_total ds) in Ht.
  pose proof (payload_le ds). pose proof (entry_need_pos d1). inversion Hs as [|? ? ? ? Hd Hs1]; subst.
  split; [lia|]. cbn [plan_chain]. destruct (Z.ltb_spec 0 max); [|lia]. destruct (Z.geb_spec off (b_used b)); [lia|].
  assert (peek_want b off max (wa_fs W) = (Ok max, wa_fs W)) as Ep.
  { destruct (read_header_ok _ _ _ _ Hd) as (m & Em & Esz). rewrite /peek_want.
    destruct (Z.leb_spec (off + PREFIX_META_SIZE) (b_used b)); [|rewrite /entry_need in Ht Hm; pose proof (len_nonneg d2); consts].
    rewrite {1}/bind Em Esz -/(entry_need d1). destruct (Z.ltb_spec (len d1) 128); [lia|]. cbn [andb].
    rewrite /bind /ret. destruct (Z.gtb_spec (entry_need d1) max); [lia|done]. }
  rewrite /plan_want /= Z.sub_0_r {1}/bind (in_fs_pure _ _ _ Ep) wrap64_small; [consts|]. rewrite Z.min_r; [lia|].
  by destruct (Z.gtb_spec (off + max) off); [|lia].
Qed.

Lemma window_count_one max d1 d2 ds :
  entry_need d1 ≤ max < entry_need d1 + entry_need d2 → window_count max max (d1 :: d2 :: ds) 0 0 = 1%nat.
Proof.
  intros Hm. cbn [window_count]. destruct (Z.geb_spec 0 MAX_BATCH_ENTRIES); [consts|].
  destruct (Z.gtb_spec (entry_need d1) max); [lia|]. rewrite andb_false_r. f_equal.
  destruct (_ >=? _); [done|]. by destruct (Z.gtb_spec (entry_need d2) (max - entry_need d1)); [|lia].
Qed.

(** What a block holds is determined by its bytes. *)
Lemma seg_det s b o u ds ds' : seg s b o u ds → seg s b o u ds' → ds = ds'.
Proof.
  intros Hs. revert ds'. induction Hs as [o|o u d ds Hr Hs IH]; intros ds' Hs'.
  - destruct ds' as [|d' ds']; [done|]. assert (o < o) by (by apply (seg_lt _ _ _ _ _ Hs')). lia.
  - inversion Hs' as [|? ? d' ds1 Hr' Hs1]; subst.
    + apply seg_le in Hs. pose proof (entry_need_pos d). lia.
    + rewrite Hr in Hr'. simplify_eq. f_equal. by apply IH.
Qed.

Lemma cut_queue g W σ t max d1 d2 ds qt :
  winv g W σ σ → cut_in_last_block W t max d1 d2 ds qt → pending σ t = (d1 :: d2 :: ds) ++ qt.
Proof.
  intros Hi [(b & Hb & Hidx & Hs) (w & Hw & Hz & Hq) _ _ _ _ _ _].
  pose proof (ci_topic _ _ _ _ _ _ _ (wi_core _ _ _ _ Hi) t) as Htop.
  destruct (to_queue _ _ _ _ _ _ _ _ Htop) as (qc' & qt' & Hqc & Hqt & ->). rewrite Hw in Hqt. destruct Hqt as [_ Hqt].
  apply (chain_q_drop _ _ _ _ _ _ Hb) in Hqc as (q1 & q2 & Hs1 & (ess & Hf & ->) & ->).
  rewrite drop_ge in Hf; [lia|]. inversion Hf; subst.
  by rewrite (seg_det _ _ _ _ _ _ Hs1 Hs) (seg_det _ _ _ _ _ _ Hqt Hq) /= app_nil_r.
Qed.

(** The parser takes [d1] and the active block. *)
Lemma parse_cut s c idx b off max d1 d2 ds info w qt :
  c !! idx = Some b → S idx = length c → seg s b off (b_used b) (d1 :: d2 :: ds) → 0 ≤ off → off + max < b_used b →
  max + MAX_FILE_SIZE ≤ U64_MAX → entry_need d1 ≤ max < entry_need d1 + entry_need d2 → d1 ≠ [] →
  tail_q s info (Some w) qt → current_offset w ≤ MAX_FILE_SIZE → qt ≠ [] →
  len d1 + payload_bytes qt ≤ max → 1 + len qt ≤ MAX_BATCH_ENTRIES →
  let plan := MkReadPlan b off (off + max) false (Some idx) :: tail_plan info (Some w) in
  ∃ st, (∀ S (x : S), parse_plans max plan (buf_of s <$> plan) (parse_start 0) x = (Ok st, x)) ∧
    ps_entries st = nonempty (d1 :: qt) ∧ ps_parsed st = len (d1 :: qt) ∧ ps_saw_tail st = true ∧
    ps_tail_id st = b_id (current_block w) ∧ ps_tail_off st = tail_start info w + batch_total qt.
Proof.
  intros Hb Hidx Hs Ho He Hmax Hm Hd Hq Hw Hne Hf Hn plan. pose proof (entry_need_pos d1). pose proof (payload_le qt).
  destruct (parse_range_ok s c max idx off b (off + max) (d1 :: d2 :: ds) [] (parse_start 0)
    (buf_of s (MkReadPlan b off (off + max) false (Some idx)))) as (st1 & Hrun & Hp1 & _); try done; [lia|..|cbn; consts|].
  { rewrite drop_ge; [lia|]. by exists []. }
  cbn [ps_total ps_entries parse_start] in Hp1. rewrite Z.add_simpl_l len_nil (window_count_one _ _ _ _ Hm) in Hp1. cbn [take] in Hp1.
  assert (ps_total st1 = len d1 ∧ ps_entries st1 = [d1] ∧ ps_parsed st1 = 1) as (Et & Ee & Epar).
  { destruct Hp1 as [-> -> -> _]. rewrite nonempty_one. destruct d1; [done|]. split; [cbn; lia|done]. }
  destruct (tail_plan_ok max s info (Some w) qt st1 Hq) as (st2 & Hrun2 & Hp2 & _ & Hn2);
    [by intros ? [= <-]|apply Hp1|rewrite Et; apply len_nonneg|rewrite Et; lia|].
  rewrite Et Ee batch_count_all in Hp2 Hn2; [done|done|]. rewrite take_ge // in Hp2 Hn2.
  destruct Hn2 as (w' & [= <-] & Hst & Eid & Eoff); [by destruct qt; [|cbn; lia]|].
  exists st2. split_and!; [|rewrite (pa_entries _ _ _ Hp2) Ee|rewrite (pa_parsed _ _ _ Hp2) Epar len_cons; lia|done..].
  - intros S x. rewrite /plan fmap_cons. cbn [parse_plans ps_entries parse_start]. rewrite len_nil.
    destruct (Z.geb_spec 0 MAX_BATCH_ENTRIES); [consts|]. by rewrite {1}/bind Hrun Hrun2.
  - by destruct d1.
Qed.

(** a committing batch read whose budget ends inside the last sealed block loses entries. It
    delivers the first entry and then the whole active block, and the cursor is past all of
    them: a peek finds nothing, while the entries that were passed over are still counted as
    pending. *)
Theorem batch_read_skips_sealed g W σ t max d1 d2 ds qt :
  winv g W σ σ → cut_in_last_block W t max d1 d2 ds qt →
  pending σ t = d1 :: d2 :: ds ++ qt ∧
  ∃ W', batch_read_for_topic t max true None W = (Ok (nonempty (d1 :: qt)), W') ∧
    (read_next t false W').1 = Ok None ∧ get_topic_entry_count t W' = len (d2 :: ds).
Proof.
  intros Hi Hcut. pose proof (cut_queue _ _ _ _ _ _ _ _ _ Hi Hcut) as Eq. split; [done|].
  destruct Hcut as [(b & Hb & Hidx & Hs) (w & Hw & Hq) H128 Hm Hf Hn Hne Hmax].
  rewrite /batch_read_for_topic {1}/bind {1}/getS.
  destruct (prepare_cursor_ok g W σ t Hi) as [E1 Hi1]. rewrite {1}/bind E1.
  set info := set_hydrated _ in E1 Hi1 |- *. set W1 := set_reader _ W in E1 Hi1 |- *.
  pose proof (ci_topic _ _ _ _ _ _ _ (wi_core _ _ _ _ Hi1) t) as Htop. rewrite /W1 /= info_of_insert in Htop.
  pose proof (ci_ghost _ _ _ _ _ _ _ (wi_core _ _ _ _ Hi1)) as Hg.
  destruct (proj1 (Forall_lookup _ _) (to_chain _ _ _ _ _ _ _ _ Htop) _ _ Hb) as [Hh Hu].
  assert (b_used b ≤ MAX_FILE_SIZE) as Hub by (pose proof (g_owned _ _ Hg _ _ _ Hh) as [[] _]; cbn in *; lia).
  destruct (to_writer _ _ _ _ _ _ _ _ Htop w Hw) as [Hhw _ _ _ _ How _].
  assert (current_offset w ≤ MAX_FILE_SIZE ∧ b_id (current_block w) < next_id (wa_alloc W)) as [Huw Hid].
  { pose proof (g_owned _ _ Hg _ _ _ Hhw) as [[] _]; cbn in *. rewrite /next_id. lia. }
  destruct (plan_chain_cut W1 b (cur_idx info) (cur_off info) max d1 d2 ds) as [He E2]; try done; [apply Htop|].
  change (S (cur_idx info) = length (chain info)) in Hidx.
  rewrite (drop_S _ b) // drop_ge; [lia|]. rewrite {1}/bind E2.
  replace (length (chain info) <=? S (cur_idx info))%nat with true by (symmetry; apply Nat.leb_le; lia).
  rewrite {1}/bind (in_fs_pure _ _ _ (plan_tail_eq info (wa_writers W !! t) (wa_fs W1))) Hw. cbn [app is_nil].
  destruct (parse_cut (wa_fs W1) (chain info) (cur_idx info) b (cur_off info) max d1 d2 ds info w qt)
    as (st & Hparse & Hent & Hpar & Hst & Eid & Eoff); try done; [apply Htop|by intros ->|].
  set plan := _ :: tail_plan _ _ in Hparse |- *.
  assert (Forall (range_ok (wa_fs W1)) plan) as Hplan.
  { constructor; [|rewrite -Hw; by eapply tail_plan_ranges]. eapply holds_range; [done|done| |lia].
    pose proof (to_off _ _ _ _ _ _ _ _ Htop). pose proof (entry_need_pos d1). lia. }
  rewrite {1}/bind (in_fs_pure _ _ _ (read_buffers_ok _ _ Hplan _)).
  { intros _. rewrite /plan /tail_plan. destruct (_ <? _); by vm_compute. }
  rewrite {1}/bind Hparse Hpar len_cons. pose proof (len_nonneg qt). destruct (Z.gtb_spec (1 + len qt) 0); [|lia].
  destruct (commit_batch_ok g W1 σ σ t info st [] (match read_consistency W with StrictlyAtOnce => true | _ => true && negb false end))
    as (W2 & E3 & Hi2 & Hr2); [done|by rewrite /W1 /= lookup_insert_eq|done| |].
  { rewrite -(drop_all ((d1 :: d2 :: ds) ++ qt)) length_app. rewrite Hw in Htop |- *. 
    apply topic_ok_moved_tail; try done; [by rewrite -Eq|by rewrite take_ge]. }
  destruct (winv_decrement g W2 _ σ t (S (length qt)) Hi2) as (W3 & E4 & Hi3 & Hr3 & _).
  exists W3. split; [|split].
  - rewrite {1}/bind E3 /bind. replace (1 + len qt) with (Z.of_nat (S (length qt))) by (rewrite /len; lia).
    cbn [andb negb]. by rewrite E4 Hent.
  - destruct (read_next_counts false g W3 _ _ t Hi3) as (W4 & E5 & _); [done|]. by rewrite E5 pending_insert.
  - rewrite (wi_count _ _ _ _ Hi3) pending_insert Eq /len length_drop length_app /=. lia.
Qed.
End skips.
