(* ===== verification/Fifo.v ===== *)
(** The engine as a queue per topic.

    A fresh instance, driven by any sequence of appends, reads, peeks, batch reads and clock changes,
    answers as one first-in first-out queue per topic would. *)

From S2P Require Import Prelude Config Storage Block Trackers Allocator Index TopicClean Reader Writer TopicInv Core Batch Walrus BatchRead Recovery EngineInv BatchReadOk BatchReadInv.

#[local] Open Scope Z_scope.

Section fifo.
Context `{MetaCodecLaws} `{MapCodec BlockPos} `{IoUringReliable} `{ReadRingReliable}.

(** * Histories *)

(** What a client does, and what the clock does in between. *)
Inductive op :=
  | OAppend (t : string) (d : list Z)
  | OBatch (t : string) (ds : list (list Z))
  | ORead (t : string) (checkpoint : bool)
  | OBatchRead (t : string) (max_bytes : Z) (checkpoint : bool)
  | OClock (now : Z).

(** What it answers. *)
Inductive reply :=
  | RDone
  | REntry (entry : option (list Z))
  | REntries (entries : list (list Z)).

(** [SystemTime::now] reads another value from now on; it may go back. *)
Definition set_now (now : Z) (s : Fs) : Fs :=
  MkFs (fs_files s) (fs_names s) (USE_FD_BACKEND s) (GLOBAL_FSYNC_SCHEDULE s) (LAST_MILLIS s)
       (keeper_read s) (keeper s) now (env_create_ok s) (env_flush_ok s).

Definition run_op (o : op) : M Walrus reply :=
  match o with
  | OAppend t d => append_for_topic t d;; ret RDone
  | OBatch t ds => batch_append_for_topic t ds;; ret RDone
  | ORead t c => let! e := read_next t c in ret (REntry e)
  | OBatchRead t max c => let! es := batch_read_for_topic t max c None in ret (REntries es)
  | OClock now => in_fs (modify (set_now now));; ret RDone
  end.

Fixpoint run_all (os : list op) : M Walrus (list reply) :=
  match os with
  | [] => ret []
  | o :: os => let! r := run_op o in let! rs := run_all os in ret (r :: rs)
  end.

(** The specification: one queue per topic. *)
Definition spec_op (o : op) (σ : queues) : reply * queues :=
  match o with
  | OAppend t d => (RDone, spec_append t [d] σ)
  | OBatch t ds => (RDone, spec_append t ds σ)
  | ORead t c => (REntry (head (pending σ t)), spec_read t c σ)
  | OBatchRead t max c => (REntries (spec_batch t max σ), spec_batch_read t max c σ)
  | OClock _ => (RDone, σ)
  end.

Fixpoint spec_all (os : list op) (σ : queues) : list reply * queues :=
  match os with
  | [] => ([], σ)
  | o :: os => let '(r, σ) := spec_op o σ in let '(rs, σ) := spec_all os σ in (r :: rs, σ)
  end.

(** How many file names and entries an operation can use up. *)
Definition cost (o : op) : Z :=
  match o with
  | OAppend _ _ => 2
  | OBatch _ ds => len ds + 1
  | ORead _ _ | OBatchRead _ _ _ | OClock _ => 0
  end.

Definition total_cost (os : list op) : Z := foldr (λ o n, cost o + n) 0 os.

(** Entries within the limits, batch reads that cover the backlog they meet, and clock values that
    leave [n] names. *)
Definition op_ok (n : Z) (σ : queues) (o : op) : Prop :=
  match o with
  | OAppend t d => fits t d
  | OBatch t ds => batch_fits t ds
  | ORead _ _ => True
  | OBatchRead t max _ => batch_covers true max (pending σ t)
  | OClock now => 0 ≤ now ∧ now + n < U64_MAX
  end.

Fixpoint ops_ok (n : Z) (σ : queues) (os : list op) : Prop :=
  match os with
  | [] => True
  | o :: os => op_ok n σ o ∧ ops_ok n (spec_op o σ).2 os
  end.

Lemma op_ok_mono n m σ o : op_ok n σ o → m ≤ n → op_ok m σ o.
Proof. destruct o; try done. cbn. lia. Qed.

Lemma ops_ok_mono n m σ os : ops_ok n σ os → m ≤ n → ops_ok m σ os.
Proof.
  revert σ. induction os as [|o os IH]; intros σ; cbn; [done|]. intros [Ho Hos] Hle.
  split; [by eapply op_ok_mono|by eapply IH].
Qed.

Lemma cost_nonneg o : 0 ≤ cost o.
Proof. destruct o; cbn; try lia. pose proof (len_nonneg ds). lia. Qed.
Lemma total_cost_nonneg os : 0 ≤ total_cost os.
Proof. induction os as [|o os IH]; cbn; [done|]. pose proof (cost_nonneg o). rewrite -/(total_cost os). lia. Qed.

Definition room (n : Z) (σ : queues) : Prop := ∀ t, len (pending σ t) + n ≤ U64_MAX.

Lemma room_append n t ds σ : room (n + len ds) σ → room n (spec_append t ds σ).
Proof.
  intros Hr t'. rewrite /spec_append. destruct (decide (t' = t)) as [->|].
  - rewrite pending_insert len_app. specialize (Hr t). lia.
  - rewrite pending_insert_ne //. specialize (Hr t'). pose proof (len_nonneg ds). lia.
Qed.

Lemma room_shrink n t k σ : room n σ → room n (<[t := drop k (pending σ t)]> σ).
Proof.
  intros Hr t'. specialize (Hr t'). destruct (decide (t' = t)) as [->|]; [|by rewrite pending_insert_ne].
  rewrite pending_insert. rewrite /len length_drop. rewrite /len in Hr. lia.
Qed.

Lemma room_read n t c σ : room n σ → room n (spec_read t c σ).
Proof. rewrite /spec_read. destruct c; [|done]. apply (room_shrink n t 1). Qed.

Lemma room_batch_read n t max c σ : room n σ → room n (spec_batch_read t max c σ).
Proof. rewrite /spec_batch_read. destruct c; [|done]. apply room_shrink. Qed.

Lemma room_le n m σ : room n σ → m ≤ n → room m σ.
Proof. intros Hr ? t. specialize (Hr t). lia. Qed.

Lemma winv_clock g W σ now n :
  winv g W σ σ → env_good n (wa_fs W) → op_ok n σ (OClock now) →
  ∃ W', in_fs (modify (set_now now)) W = (Ok tt, W') ∧ winv g W' σ σ ∧ env_good n (wa_fs W').
Proof.
  intros [[Ha Hg Ht] Hh Hn Hi] [??[??]] [Hz Hnow]. eexists. split; [done|]. split.
  - split; try done. apply (core_inv_files _ _ (wa_fs W)); [|by intros t b Hb i]. split; [| |done].
    + destruct Ha as [[]]. by split.
    + destruct Hg as [Ho Hd]. split; [|done]. intros id t b [[] ?]%Ho. by split; [split|].
  - by split.
Qed.

Lemma run_op_ok o n g W σ :
  winv g W σ σ → op_ok n σ o → 0 ≤ n → env_good (n + cost o) (wa_fs W) → room (n + cost o) σ →
  ∃ g' W', run_op o W = (Ok (spec_op o σ).1, W') ∧ winv g' W' (spec_op o σ).2 (spec_op o σ).2 ∧
    env_good n (wa_fs W') ∧ room n (spec_op o σ).2.
Proof.
  intros Hi Hok Hn Hg Hr. destruct o as [t d|t ds|t c|t max c|now]; cbn [run_op spec_op cost fst snd] in *.
  - destruct (append_for_topic_ok g W σ t d n) as (g' & W' & E & Hi' & Hg'); [done..| |].
    { specialize (Hr t). lia. }
    exists g', W'. split_and!; [by rewrite /bind E|done|done|]. apply room_append.
    eapply room_le; [done|]. change (len [d]) with 1. lia.
  - destruct (batch_append_for_topic_ok g W σ t ds n) as (g' & W' & E & Hi' & Hg'); [done..| | |].
    { by rewrite -Z.add_assoc. } { specialize (Hr t). lia. }
    exists g', W'. split_and!; [by rewrite /bind E|done|done|]. apply room_append.
    eapply room_le; [done|]. lia.
  - destruct (read_next_ok c g W σ t Hi) as (W' & E & Hi' & Hs). rewrite Z.add_0_r in Hg Hr.
    exists g, W'. split_and!; [by rewrite /bind E|done| |by apply room_read]. eapply env_good_eq; [apply Hs|done].
  - destruct (batch_read_ok g W σ t max c Hi) as (W' & E & Hi' & Hs); [by destruct Hok; split; auto|]. rewrite Z.add_0_r in Hg Hr.
    exists g, W'. split_and!; [by rewrite /bind E|done| |by apply room_batch_read]. eapply env_good_eq; [apply Hs|done].
  - rewrite Z.add_0_r in Hg Hr. destruct (winv_clock g W σ now n Hi Hg Hok) as (W' & E & Hi' & Hg').
    exists g, W'. split_and!; [by rewrite /bind E|done|done|done].
Qed.

Lemma run_all_ok os g W σ :
  winv g W σ σ → ops_ok (total_cost os) σ os → env_good (total_cost os) (wa_fs W) →
  room (total_cost os) σ →
  ∃ g' W', run_all os W = (Ok (spec_all os σ).1, W') ∧ winv g' W' (spec_all os σ).2 (spec_all os σ).2.
Proof.
  revert g W σ. induction os as [|o os IH]; intros g W σ Hi Hok Hg Hr.
  { by exists g, W. }
  cbn [total_cost foldr] in Hok, Hg, Hr. rewrite -/(total_cost os) Z.add_comm in Hok Hg Hr.
  pose proof (total_cost_nonneg os). pose proof (cost_nonneg o). destruct Hok as [Ho Hos].
  destruct (run_op_ok o (total_cost os) g W σ) as (g1 & W1 & E1 & Hi1 & Hg1 & Hr1); [done| |done..|].
  { eapply op_ok_mono; [done|lia]. }
  destruct (IH g1 W1 (spec_op o σ).2) as (g2 & W2 & E2 & Hi2); [done| |done|done|].
  { eapply ops_ok_mono; [done|lia]. }
  exists g2, W2. cbn. rewrite /bind E1. destruct (spec_op o σ) as [r σ1]; cbn in *. rewrite E2.
  by destruct (spec_all os σ1).
Qed.

End fifo.

Section fifo_theorems.
Context `{MetaCodecLaws} `{MapCodec BlockPos} `{MapCodec CleanMarkerRecord} `{IoUringReliable} `{ReadRingReliable}.

(** C3: opened on an empty directory and driven by any sequence of single appends, batches,
    committing reads, peeks, batch reads and clock changes (also backwards) over any topics, the engine
    never fails, panics or loops, and every call answers exactly as one first-in first-out queue
    per topic: a committing read delivers and removes the oldest entry, a peek delivers it
    without removing it, an empty queue answers [None], and a batch read takes from the front
    of the queue until it has 2000 entries that are not empty or the next payload would exceed
    its budget, provided the budget covers the backlog with its headers. This holds on both storage back
    ends, for every fsync schedule and read consistency, across block and file rollovers,
    and for batches written and read by io_uring or by the fallback. *)
Theorem walrus_refines_queues pm mode sched trk s os :
  fs_inv s → fresh_dir pm s → env_good (total_cost os + 1) s →
  ops_ok (total_cost os) ∅ os → total_cost os ≤ U64_MAX →
  ∃ W0 W, with_paths pm mode sched trk s = (Ok W0, wa_fs W0) ∧
    run_all os W0 = (Ok (spec_all os ∅).1, W) ∧
    (∀ t, get_topic_entry_count t W = len (pending (spec_all os ∅).2 t)).
Proof.
  intros Hfs Hd Hg Hok Hcost. pose proof (total_cost_nonneg os) as Hnn.
  destruct (with_paths_fresh pm mode sched trk s Hfs Hd) as
    (W0 & E0 & Ha & Hgr & Hp & Hr & Hw & _ & _ & Hc & Hi); [apply Hg|destruct (eg_time _ _ Hg); lia|].
  destruct (run_all_ok os ∅ W0 ∅) as (g & W & E & Hinv).
  - by eapply winv_fresh.
  - done.
  - by eapply env_good_grows.
  - intros t. rewrite /pending lookup_empty len_nil. lia.
  - exists W0, W. split_and!; [done|done|]. apply Hinv.
Qed.
End fifo_theorems.
