(* ===== verification/Instances.v ===== *)
(** Concrete serialisers and a concrete ring, which satisfy the laws the development assumes
    of the [rkyv] and [io_uring] crates. The theorems hold for every instance; these make
    the definitions executable. *)

From stdpp Require Import countable.
From S2P Require Import Prelude Config Storage Block Index TopicClean Writer Batch BatchRead BatchReadInv.

#[local] Open Scope Z_scope.

(** * Metadata: three little-endian words, then the owner's name *)

Fixpoint le_bytes (n : nat) (z : Z) : list Z :=
  match n with O => [] | S n => z mod 256 :: le_bytes n (z / 256) end.

Fixpoint le_value (bs : list Z) : Z :=
  match bs with [] => 0 | b :: bs => b + 256 * le_value bs end.

Lemma le_value_bytes n z : 0 ≤ z < 256 ^ Z.of_nat n → le_value (le_bytes n z) = z.
Proof.
  revert z. induction n as [|n IH]; intros z Hz; cbn [le_bytes le_value]; [lia|].
  rewrite Nat2Z.inj_succ Z.pow_succ_r in Hz; [lia|]. rewrite IH.
  - split; [apply Z.div_pos; lia|]. apply Z.div_lt_upper_bound; lia.
  - pose proof (Z.div_mod z 256). lia.
Qed.

Lemma length_le_bytes n z : length (le_bytes n z) = n.
Proof. revert z. induction n as [|n IH]; intros z; [done|]. cbn. by rewrite IH. Qed.

Lemma le_bytes_byte n z : Forall is_byte (le_bytes n z).
Proof.
  revert z. induction n as [|n IH]; intros z; constructor; [|apply IH].
  apply Z.mod_pos_bound. lia.
Qed.

Lemma le_value_range bs : Forall is_byte bs → 0 ≤ le_value bs < 256 ^ Z.of_nat (length bs).
Proof.
  induction 1 as [|b bs [Hb1 Hb2] _ IH]; cbn [le_value length]; [done|].
  rewrite Nat2Z.inj_succ Z.pow_succ_r; [lia|]. lia.
Qed.

#[global] Instance is_byte_dec z : Decision (is_byte z).
Proof. rewrite /is_byte. apply _. Defined.

Definition name_bytes (s : string) : list Z :=
  (λ a, Z.of_nat (Ascii.nat_of_ascii a)) <$> String.list_ascii_of_string s.
Definition bytes_name (bs : list Z) : string :=
  String.string_of_list_ascii ((λ b, Ascii.ascii_of_nat (Z.to_nat b)) <$> bs).

Lemma name_bytes_roundtrip s : bytes_name (name_bytes s) = s.
Proof.
  rewrite /bytes_name /name_bytes -list_fmap_compose.
  assert ((λ b, Ascii.ascii_of_nat (Z.to_nat b)) ∘ (λ a, Z.of_nat (Ascii.nat_of_ascii a)) <$>
    String.list_ascii_of_string s = String.list_ascii_of_string s) as ->.
  { induction (String.list_ascii_of_string s) as [|a l IH]; [done|]. cbn.
    rewrite Nat2Z.id Ascii.ascii_nat_embedding. by f_equal. }
  apply String.string_of_list_ascii_of_string.
Qed.

Definition ref_to_bytes (m : Metadata) : option (list Z) :=
  Some (le_bytes 8 (read_size m) ++ le_bytes 8 (next_block_start m) ++ le_bytes 8 (checksum m) ++
        name_bytes (owned_by m)).

Definition ref_archived_root (bs : list Z) : option Metadata :=
  if decide (Forall is_byte (take 24 bs) ∧ (24 ≤ length bs)%nat) then
    Some (MkMetadata (le_value (take 8 bs)) (bytes_name (drop 24 bs))
            (le_value (take 8 (drop 8 bs))) (le_value (take 8 (drop 16 bs))))
  else None.

#[global] Instance ref_codec : MetaCodec := {
  to_bytes := ref_to_bytes;
  archived_root := ref_archived_root;
}.

Lemma take_drop_le_bytes z rest : take 8 (le_bytes 8 z ++ rest) = le_bytes 8 z ∧
  drop 8 (le_bytes 8 z ++ rest) = rest.
Proof. by rewrite take_app_length' ?length_le_bytes // drop_app_length' ?length_le_bytes. Qed.

Lemma u64_le z : is_u64 z → le_value (le_bytes 8 z) = z.
Proof. intros Hz. apply le_value_bytes. rewrite /is_u64 /U64_MAX in Hz. lia. Qed.

Lemma word_range bs : Forall is_byte bs → length bs = 8%nat → is_u64 (le_value bs).
Proof. intros Hb Hl. apply le_value_range in Hb. rewrite Hl in Hb. rewrite /is_u64 /U64_MAX. lia. Qed.

#[global] Instance ref_codec_laws : MetaCodecLaws.
Proof.
  split.
  - intros m bs (H1 & H2 & H3) Hbs. change (ref_to_bytes m = Some bs) in Hbs.
    change (ref_archived_root bs = Some m). rewrite /ref_to_bytes in Hbs. apply (inj Some) in Hbs as <-.
    rewrite /ref_archived_root.
    set a := le_bytes 8 (read_size m). set b := le_bytes 8 (next_block_start m).
    set c := le_bytes 8 (checksum m). set n := name_bytes (owned_by m).
    assert (drop 16 (a ++ b ++ c ++ n) = c ++ n ∧ drop 24 (a ++ b ++ c ++ n) = n) as [E16 E24].
    { change 16%nat with (8 + 8)%nat. change 24%nat with (8 + (8 + 8))%nat.
      by rewrite -!drop_drop; rewrite !(proj2 (take_drop_le_bytes _ _)). }
    rewrite decide_True.
    { split; [|unfold n; rewrite !List.length_app !length_le_bytes; lia].
      rewrite app_assoc app_assoc take_app_length'; [by rewrite !List.length_app !length_le_bytes|].
      rewrite !Forall_app. split_and!; apply le_bytes_byte. }
    rewrite E16 E24 (proj2 (take_drop_le_bytes _ _)) !(proj1 (take_drop_le_bytes _ _)).
    rewrite !u64_le // name_bytes_roundtrip. by destruct m.
  - by intros m bs [= <-].
  - intros bs m. cbn. rewrite /ref_archived_root. case_decide as Hd; [|done].
    destruct Hd as [Hb Hl]. intros [= <-]. rewrite /meta_wf /=.
    assert (∀ k, (k + 8 ≤ 24)%nat → is_u64 (le_value (take 8 (drop k bs)))) as Hw.
    { intros k Hk. apply word_range; [|rewrite length_take length_drop; lia].
      apply (Forall_drop _ k) in Hb. rewrite -(firstn_skipn 24 bs).
      rewrite drop_app_le; [rewrite length_take; lia|]. rewrite take_app_le; [rewrite length_drop length_take; lia|].
      by apply Forall_take. }
    split_and!; [apply (Hw 0%nat); lia|apply (Hw 8%nat); lia|apply (Hw 16%nat); lia].
Qed.

(** * Maps: the bits of their code *)

Fixpoint pos_bits (p : positive) : list Z :=
  match p with xH => [2] | xO p => 0 :: pos_bits p | xI p => 1 :: pos_bits p end.

Fixpoint bits_pos (bs : list Z) : positive :=
  match bs with
  | [] => xH
  | b :: bs => if b =? 2 then xH else if b =? 0 then xO (bits_pos bs) else xI (bits_pos bs)
  end.

Lemma bits_pos_bits p : bits_pos (pos_bits p) = p.
Proof. induction p as [p IH|p IH|]; cbn; by rewrite ?IH. Qed.

Section maps.
Context {V : Type} `{Countable V}.

#[global] Instance ref_map_codec : MapCodec V := {
  map_to_bytes m := Some (pos_bits (encode m));
  map_archived_root bs := decode (bits_pos bs);
}.

#[global] Instance ref_map_codec_laws : MapCodecLaws V.
Proof.
  split; intros m bs [= <-].
  - cbn. by rewrite bits_pos_bits decode_encode.
  - by destruct (encode m).
Qed.
End maps.

#[global] Instance BlockPos_countable : Countable BlockPos.
Proof.
  apply (inj_countable' (λ p, (cur_block_idx p, cur_block_offset p)) (λ '(a, b), MkPos a b)).
  by intros [].
Defined.

#[global] Instance CleanMarkerRecord_countable : Countable CleanMarkerRecord.
Proof.
  apply (inj_countable' (λ p, (generation p, is_clean p)) (λ '(a, b), MkMarker a b)). by intros [].
Defined.

(** * A ring that performs every write *)

#[global] Instance ref_uring : IoUring := {
  uring_new _ _ := None;
  uring_push cap ring _ := if len ring <? cap then None else Some "full";
  uring_submit_and_wait ring := λ s,
    (Ok ((λ q, MkCqe (sqe_user q) (sqe_len q)) <$> ring), puts (sqe_put <$> ring) s);
}.

#[global] Instance ref_uring_reliable : IoUringReliable.
Proof.
  split.
  - intros cap ring q Hl. cbn. by destruct (Z.ltb_spec (len ring) cap); [|lia].
  - intros ring s. eexists. split; [done|]. apply Forall_fmap, Forall_forall. intros q Hq. by exists q.
Qed.

(** * A ring that performs every read *)

#[global] Instance ref_read_ring : ReadRing := {
  rring_new _ _ := true;
  rring_push cap ring _ := if len ring <? cap then None else Some "full";
  rring_submit_and_wait ring := λ s,
    (Ok ((λ q, MkCqe (rd_user q) (rd_len q)) <$> ring, sqe_bytes s <$> ring), s);
}.

#[global] Instance ref_read_ring_reliable : ReadRingReliable.
Proof.
  split.
  - intros cap ring q Hl. cbn. by destruct (Z.ltb_spec (len ring) cap); [|lia].
  - intros ring s _. eexists. split; [done|]. apply Forall_fmap, Forall_forall. intros q Hq. by exists q.
Qed.

(** * Names and entries that fit the reference serialiser *)

Lemma ref_fits t d :
  entry_need d ≤ MAX_FILE_SIZE → len (name_bytes t) ≤ 230 →
  entry_need d ≤ MAX_FILE_SIZE ∧
  ∀ nbs, is_u64 nbs → ∃ bs, to_bytes (new_meta d t nbs) = Some bs ∧ len bs ≤ PREFIX_META_SIZE - 2.
Proof.
  intros Hd Ht. split; [done|]. intros nbs _. eexists. split; [done|].
  rewrite !len_app /len !length_le_bytes. rewrite /len in Ht. rewrite /PREFIX_META_SIZE /=. lia.
Qed.
