(* ===== verification/Metadata.v ===== *)
(** The replicated topic metadata: [src/distributed-walrus/src/metadata.rs].

    Every node applies the same sequence of commands to a [ClusterState]: topics are created,
    their current segment is sealed and handed to another leader, node addresses are
    recorded. The [bincode] crate is the class [Bincode] with its law. *)

From S2P Require Import Prelude.

#[local] Open Scope Z_scope.

Record TopicState := MkTopic {
  current_segment : Z;
  leader_node : Z;
  last_sealed_entry_offset : Z;
  sealed_segments : gmap Z Z;
  segment_leaders : gmap Z Z;
}.

Record ClusterState := MkCluster {
  topics : gmap string TopicState;
  nodes : gmap Z string;
}.

Definition default_cluster : ClusterState := MkCluster ∅ ∅.

Inductive MetadataCmd :=
  | CreateTopic (name : string) (initial_leader : Z)
  | RolloverTopic (name : string) (new_leader : Z) (sealed_segment_entry_count : Z)
  | UpsertNode (node_id : Z) (addr : string).

(** [bincode::serialize] and [deserialize]. *)
Class Bincode (A : Type) := {
  serialize : A → list Z;
  deserialize : list Z → option A;
}.
Class BincodeLaws (A : Type) `{Bincode A} : Prop := {
  bincode_roundtrip (a : A) : deserialize (serialize a) = Some a;
}.

(** * Queries *)

Definition get_topic_state (topic : string) (st : ClusterState) : option TopicState :=
  topics st !! topic.
Definition get_node_addr (node_id : Z) (st : ClusterState) : option string := nodes st !! node_id.
Definition all_node_addrs (st : ClusterState) : list (Z * string) := map_to_list (nodes st).

Definition owned_topics (node_id : Z) (st : ClusterState) : list (string * Z) :=
  omap (λ '(topic, ts), if leader_node ts =? node_id then Some (topic, current_segment ts) else None)
       (map_to_list (topics st)).

Definition sealed_count (topic : string) (segment : Z) (st : ClusterState) : option Z :=
  ts ← topics st !! topic; sealed_segments ts !! segment.

Definition segment_leader (topic : string) (segment : Z) (st : ClusterState) : option Z :=
  match (ts ← topics st !! topic; segment_leaders ts !! segment) with
  | Some l => Some l
  | None => leader_node <$> topics st !! topic
  end.

(** * Commands *)

Definition new_topic (initial_leader : Z) : TopicState :=
  MkTopic 1 initial_leader 0 ∅ (<[1 := initial_leader]> ∅).

Definition rollover (new_leader count : Z) (ts : TopicState) : TopicState :=
  let sealed_seg := current_segment ts in
  let sealed := <[sealed_seg := count]> (sealed_segments ts) in
  let leaders := <[sealed_seg := leader_node ts]> (segment_leaders ts) in
  let last := wrap64 (last_sealed_entry_offset ts + count) in
  let cur := wrap64 (current_segment ts + 1) in
  MkTopic cur new_leader last sealed (<[cur := new_leader]> leaders).

(** The answer, and the new state; [inr] is an error. *)
Definition apply_cmd (cmd : MetadataCmd) (st : ClusterState) : (string + string) * ClusterState :=
  match cmd with
  | CreateTopic name initial_leader =>
      match topics st !! name with
      | Some _ => (inl "EXISTS", st)
      | None => (inl "CREATED",
                 MkCluster (<[name := new_topic initial_leader]> (topics st)) (nodes st))
      end
  | RolloverTopic name new_leader count =>
      match topics st !! name with
      | Some ts => (inl "ROLLED",
                    MkCluster (<[name := rollover new_leader count ts]> (topics st)) (nodes st))
      | None => (inr "Topic not found", st)
      end
  | UpsertNode node_id addr => (inl "NODE", MkCluster (topics st) (<[node_id := addr]> (nodes st)))
  end.

Section machine.
Context `{Bincode MetadataCmd} `{Bincode ClusterState}.

Definition apply (command : list Z) (st : ClusterState) : (string + string) * ClusterState :=
  match deserialize command with
  | None => (inr "decode cmd", st)
  | Some cmd => apply_cmd cmd st
  end.

Definition snapshot (st : ClusterState) : list Z := serialize st.

Definition restore (data : list Z) (st : ClusterState) : option string * ClusterState :=
  match deserialize data with
  | None => (Some "snapshot decode", st)
  | Some recovered => (None, recovered)
  end.

(** A log of raw commands, applied in order. *)
Fixpoint apply_log (log : list (list Z)) (st : ClusterState) : list (string + string) * ClusterState :=
  match log with
  | [] => ([], st)
  | c :: log => let '(r, st) := apply c st in let '(rs, st) := apply_log log st in (r :: rs, st)
  end.
End machine.

(** * The specification: a topic is a list of sealed segments and a current leader *)

(** Leader and entry count of each sealed segment, oldest first. *)
Definition topic_spec : Type := list (Z * Z) * Z.

Definition spec_cmd (cmd : MetadataCmd) (σ : gmap string topic_spec) :
    (string + string) * gmap string topic_spec :=
  match cmd with
  | CreateTopic name l =>
      match σ !! name with
      | Some _ => (inl "EXISTS", σ)
      | None => (inl "CREATED", <[name := ([], l)]> σ)
      end
  | RolloverTopic name l c =>
      match σ !! name with
      | Some (segs, cur) => (inl "ROLLED", <[name := (segs ++ [(cur, c)], l)]> σ)
      | None => (inr "Topic not found", σ)
      end
  | UpsertNode _ _ => (inl "NODE", σ)
  end.

Fixpoint spec_log (cmds : list MetadataCmd) (σ : gmap string topic_spec) :
    list (string + string) * gmap string topic_spec :=
  match cmds with
  | [] => ([], σ)
  | c :: cmds => let '(r, σ) := spec_cmd c σ in let '(rs, σ) := spec_log cmds σ in (r :: rs, σ)
  end.

(** Segment numbers start at [k]. *)
Fixpoint seg_map {A} (f : A → Z) (k : Z) (segs : list A) : gmap Z Z :=
  match segs with [] => ∅ | x :: segs => <[k := f x]> (seg_map f (k + 1) segs) end.

Definition total_entries (segs : list (Z * Z)) : Z := foldr (λ s n, s.2 + n) 0 segs.

(** The state that stores a topic. *)
Definition concrete (t : topic_spec) : TopicState :=
  let '(segs, cur) := t in
  MkTopic (len segs + 1) cur (wrap64 (total_entries segs)) (seg_map snd 1 segs)
          (<[len segs + 1 := cur]> (seg_map fst 1 segs)).

Lemma seg_map_snoc {A} (f : A → Z) k segs x :
  seg_map f k (segs ++ [x]) = <[k + len segs := f x]> (seg_map f k segs).
Proof.
  revert k. induction segs as [|y segs IH]; intros k; cbn; [by rewrite Z.add_0_r|].
  rewrite IH len_cons. pose proof (len_nonneg segs).
  rewrite insert_insert_ne; [lia|]. by replace (k + 1 + len segs) with (k + (1 + len segs)) by lia.
Qed.

Lemma lookup_seg_map {A} (f : A → Z) k segs i :
  seg_map f k segs !! i =
    if decide (k ≤ i < k + len segs) then f <$> segs !! Z.to_nat (i - k) else None.
Proof.
  revert k. induction segs as [|y segs IH]; intros k; cbn [seg_map].
  { rewrite decide_False; [rewrite len_nil; lia|]. apply lookup_empty. }
  rewrite len_cons. pose proof (len_nonneg segs). destruct (decide (i = k)) as [->|Hne].
  - rewrite lookup_insert_eq decide_True; [lia|]. by rewrite Z.sub_diag.
  - rewrite lookup_insert_ne; [done|]. rewrite IH. repeat case_decide; try lia; [|done].
    by replace (Z.to_nat (i - k)) with (S (Z.to_nat (i - (k + 1)))) by lia.
Qed.

Lemma total_entries_snoc segs s : total_entries (segs ++ [s]) = total_entries segs + s.2.
Proof. rewrite /total_entries. induction segs as [|x segs IH]; cbn; [lia|]. rewrite IH. lia. Qed.

Lemma rollover_concrete segs cur l c :
  len segs + 2 ≤ U64_MAX → rollover l c (concrete (segs, cur)) = concrete (segs ++ [(cur, c)], l).
Proof.
  intros Hl. rewrite /rollover /concrete /=. pose proof (len_nonneg segs).
  assert (wrap64 (len segs + 1 + 1) = len segs + 1 + 1) as ->.
  { rewrite /wrap64 Z.mod_small //. rewrite /U64_MAX in Hl. lia. }
  rewrite len_app len_cons len_nil total_entries_snoc !seg_map_snoc /=.
  rewrite insert_insert_eq (Z.add_comm 1 (len segs)) Z.add_0_r. f_equal.
  rewrite /wrap64. apply Zplus_mod_idemp_l.
Qed.

(** Segments so far of every topic. *)
Definition segs_bound (n : Z) (σ : gmap string topic_spec) : Prop :=
  map_Forall (λ _ t, len t.1 ≤ n) σ.

Lemma segs_bound_cmd n cmd σ : segs_bound n σ → 0 ≤ n → segs_bound (n + 1) (spec_cmd cmd σ).2.
Proof.
  intros Hb Hn. assert (segs_bound (n + 1) σ) as Hb'.
  { eapply map_Forall_impl; [done|]. cbn. intros; lia. }
  destruct cmd as [name l|name l c|]; cbn; [..|done]; destruct (σ !! name) as [[segs cur]|] eqn:E; cbn; try done.
  - apply map_Forall_insert_2; [cbn; rewrite len_nil; lia|done].
  - apply map_Forall_insert_2; [|done]. cbn. rewrite len_app len_cons len_nil.
    specialize (Hb _ _ E). cbn in Hb. lia.
Qed.

Lemma apply_cmd_concrete cmd σ ns n :
  segs_bound n σ → n + 2 ≤ U64_MAX →
  (apply_cmd cmd (MkCluster (concrete <$> σ) ns)).1 = (spec_cmd cmd σ).1 ∧
  topics (apply_cmd cmd (MkCluster (concrete <$> σ) ns)).2 = concrete <$> (spec_cmd cmd σ).2.
Proof.
  intros Hb Hn. destruct cmd as [name l|name l c|]; cbn; [..|done];
    rewrite lookup_fmap; destruct (σ !! name) as [[segs cur]|] eqn:E; cbn; try done.
  - by rewrite fmap_insert.
  - rewrite fmap_insert. split; [done|]. f_equal. apply rollover_concrete.
    specialize (Hb _ _ E). cbn in Hb. lia.
Qed.

Section metadata.
Context `{BincodeLaws MetadataCmd} `{BincodeLaws ClusterState}.

Lemma apply_log_spec cmds σ ns n :
  segs_bound n σ → 0 ≤ n → n + len cmds + 1 ≤ U64_MAX →
  (apply_log (serialize <$> cmds) (MkCluster (concrete <$> σ) ns)).1 = (spec_log cmds σ).1 ∧
  topics (apply_log (serialize <$> cmds) (MkCluster (concrete <$> σ) ns)).2 =
    concrete <$> (spec_log cmds σ).2.
Proof.
  revert σ ns n. induction cmds as [|c cmds IH]; intros σ ns n Hb Hn Hl; [done|]. cbn.
  rewrite /apply bincode_roundtrip. rewrite len_cons in Hl. pose proof (len_nonneg cmds).
  destruct (apply_cmd_concrete c σ ns n Hb ltac:(lia)) as [E1 E2].
  pose proof (segs_bound_cmd n c σ Hb Hn) as Hb'.
  destruct (apply_cmd c _) as [r [ts ns']]; cbn in E1, E2. subst r ts.
  destruct (spec_cmd c σ) as [r σ']; cbn in *.
  destruct (IH σ' ns' (n + 1) Hb') as [E3 E4]; [lia|lia|].
  destruct (apply_log _ _), (spec_log _ _); cbn in *. by rewrite E3.
Qed.

(** C6: a node that applies any log of commands answers and ends up as the specification says:
    each topic is the list of its sealed segments, oldest first, with the leader that wrote
    each of them and its entry count, and one current leader. In particular segments are
    numbered consecutively from 1, every segment keeps the leader and the count it was
    sealed with, and the cumulative offset is the sum of the counts. *)
Theorem metadata_refines_spec cmds :
  len cmds + 1 ≤ U64_MAX →
  (apply_log (serialize <$> cmds) default_cluster).1 = (spec_log cmds ∅).1 ∧
  topics (apply_log (serialize <$> cmds) default_cluster).2 = concrete <$> (spec_log cmds ∅).2.
Proof.
  intros Hl. rewrite /default_cluster -(fmap_empty concrete).
  by apply (apply_log_spec cmds ∅ ∅ 0); [apply map_Forall_empty|..].
Qed.

Lemma apply_log_app log1 log2 st :
  (apply_log (log1 ++ log2) st).2 = (apply_log log2 (apply_log log1 st).2).2.
Proof.
  revert st. induction log1 as [|c log1 IH]; intros st; [done|]. cbn.
  destruct (apply c st) as [r st1]. specialize (IH st1).
  destruct (apply_log (log1 ++ log2) st1), (apply_log log1 st1); cbn in *. done.
Qed.

(** a node that restores another node's snapshot, whatever its own state was, and then
    applies the rest of the log has the state of a node that applied the whole log. *)
Theorem snapshot_then_log log1 log2 st :
  let leader := (apply_log log1 default_cluster).2 in
  (restore (snapshot leader) st).1 = None ∧
  (apply_log log2 (restore (snapshot leader) st).2).2 = (apply_log (log1 ++ log2) default_cluster).2.
Proof. cbn. by rewrite /restore /snapshot bincode_roundtrip /= apply_log_app. Qed.

(** A bad command or snapshot changes nothing. *)
Lemma apply_decode_error command st :
  deserialize (A := MetadataCmd) command = None → apply command st = (inr "decode cmd", st).
Proof. intros E. by rewrite /apply E. Qed.
End metadata.

(** ** Consequences of the refinement *)

Lemma concrete_lookups segs cur i :
  sealed_segments (concrete (segs, cur)) !! i =
    (if decide (1 ≤ i < 1 + len segs) then snd <$> segs !! Z.to_nat (i - 1) else None) ∧
  segment_leaders (concrete (segs, cur)) !! i =
    (if decide (i = len segs + 1) then Some cur
     else if decide (1 ≤ i < 1 + len segs) then fst <$> segs !! Z.to_nat (i - 1) else None).
Proof.
  cbn. rewrite lookup_seg_map. split; [done|]. destruct (decide (i = len segs + 1)) as [->|].
  - by rewrite lookup_insert_eq.
  - by rewrite lookup_insert_ne // lookup_seg_map.
Qed.

(** the command carries no segment number, so a rollover that is proposed twice (the monitor
    and the append path both propose it) is applied twice: the segment that was just opened
    is sealed at once with the entry count of its predecessor, which is then counted twice. *)
Theorem rollover_not_idempotent name l c segs cur st :
  topics st !! name = Some (concrete (segs, cur)) → len segs + 3 ≤ U64_MAX →
  topics (apply_cmd (RolloverTopic name l c) (apply_cmd (RolloverTopic name l c) st).2).2 !! name =
    Some (concrete (segs ++ [(cur, c); (l, c)], l)).
Proof.
  intros E Hl. cbn. rewrite E /= lookup_insert_eq /= lookup_insert_eq.
  rewrite rollover_concrete; [lia|]. rewrite rollover_concrete; [rewrite len_app len_cons len_nil; lia|].
  by rewrite -app_assoc.
Qed.
