(* ===== verification/OctopiiWal.v ===== *)
(** Octopii's write-ahead log: [WriteAheadLog] of [src/octopii/src/wal/mod.rs].

    A log is one topic of an engine. It is read back, for recovery, by draining the topic with
    committing batch reads. The engine is seen through the interface [WalTopic]; what the log
    relies on is the law class [WalTopicLaws], a queue with batch reads as [BatchReadInv]
    describes them. *)

From S2P Require Import Prelude Config Writer Batch BatchReadOk BatchReadInv.

#[local] Open Scope Z_scope.

(** * The interface of the engine *)

(** [append_for_topic] and [batch_read_for_topic] for one topic. *)
Class WalTopic (E : Type) := {
  wt_append : list Z → M E unit;
  wt_batch_read : Z → bool → M E (list (list Z));
}.

(** [wt_holds n e q]: the topic holds [q] and has room for [n] more appends. *)
Class WalTopicLaws (E : Type) `{WalTopic E} := {
  wt_accepts : list Z → Prop;
  wt_holds : Z → E → list (list Z) → Prop;
  wt_holds_append n e q d :
    0 ≤ n → wt_accepts d → wt_holds (n + 1) e q →
    ∃ e', wt_append d e = (Ok tt, e') ∧ wt_holds n e' (q ++ [d]);
  wt_holds_read n e q max :
    wt_holds n e q → batch_covers true max q →
    let k := batch_count max q 0 0 in
    ∃ e', wt_batch_read max true e = (Ok (nonempty (take k q)), e') ∧ wt_holds n e' (drop k q);
}.

(** * The log *)

Section wal.
Context {E : Type} `{WalTopic E}.

Record WriteAheadLog := MkWal {
  walrus : E;
  offset_counter : Z;
  write_counter : Z;
}.

Definition in_walrus {A} (m : M E A) : M WriteAheadLog A :=
  zoom walrus (λ e w, MkWal e (offset_counter w) (write_counter w)) m.

(** [OctopiiError::Wal]. *)
Definition map_err {S A} (prefix : string) (m : M S A) : M S A := λ s,
  match m s with
  | (Err (IoError _ msg), s') => (Err (IoError KOther (prefix +:+ msg)), s')
  | r => r
  end.

Definition new_wal (e : E) : WriteAheadLog := MkWal e 0 0.

(** [WriteAheadLog::append]: the offset is the number of appends before this one. *)
Definition wal_append (data : list Z) : M WriteAheadLog Z :=
  map_err "Failed to append: " (in_walrus (wt_append data));;
  let! w := getS in
  modify (λ w, MkWal (walrus w) (wrap64 (offset_counter w + 1)) (wrap64 (write_counter w + 1)));;
  ret (offset_counter w).

(** The budget of one read. *)
Definition READ_ALL_BYTES : Z := 10 * 1024 * 1024.

(** [WriteAheadLog::read_all]: until two reads in a row were empty, or one failed. *)
Fixpoint read_loop_all (fuel : nat) (all_entries : list (list Z)) (consecutive_empty_reads : Z) :
    M WriteAheadLog (list (list Z)) :=
  match fuel with
  | O => hang
  | S fuel =>
      let! r := attempt (in_walrus (wt_batch_read READ_ALL_BYTES true)) in
      match r with
      | Some batch =>
          match batch with
          | [] => if consecutive_empty_reads + 1 >=? 2 then ret all_entries
                  else read_loop_all fuel all_entries (consecutive_empty_reads + 1)
          | _ => read_loop_all fuel (all_entries ++ batch) 0
          end
      | None => ret all_entries
      end
  end.

Definition read_all (fuel : nat) : M WriteAheadLog (list (list Z)) := read_loop_all fuel [] 0.
End wal.
Arguments WriteAheadLog : clear implicits.

(** * What the log promises *)

(** A covered batch takes something, and everything when nothing it took has a payload. *)
Lemma covered_progress max q :
  batch_covers true max q → q ≠ [] → (0 < batch_count max q 0 0)%nat.
Proof.
  intros _ Hq. destruct q as [|d q]; [done|]. cbn [batch_count].
  destruct (Z.geb_spec 0 MAX_BATCH_ENTRIES); [consts|]. rewrite andb_false_r. lia.
Qed.

Lemma covered_empty max q :
  batch_covers true max q → nonempty (take (batch_count max q 0 0) q) = [] → batch_count max q 0 0 = length q.
Proof.
  intros [Ht _ _] He. pose proof (batch_count_le max q 0 0). pose proof (batch_count_stop max q 0 0) as Hs.
  destruct (decide (batch_count max q 0 0 < length q)%nat) as [Hlt|]; [|lia].
  rewrite He len_nil in Hs. specialize (Hs ltac:(lia) Hlt). consts.
Qed.

Lemma covers_drop max q k : batch_covers true max q → batch_covers true max (drop k q).
Proof.
  intros [Ht Hm Hl]. pose proof (payload_le (take k q)). rewrite -{1}(take_drop k q) batch_total_app in Ht.
  split; [lia|done|]. intros _. specialize (Hl eq_refl). rewrite /len length_drop. rewrite /len in Hl. lia.
Qed.

Lemma nonempty_all q : Forall (λ d, d ≠ []) q → nonempty q = q.
Proof.
  induction 1 as [|d q Hd _ IH]; [done|]. rewrite /nonempty filter_cons decide_True //. f_equal. exact IH.
Qed.

Section laws.
Context {E : Type} `{WalTopicLaws E}.

Lemma wal_append_ok n w q d :
  0 ≤ n → wt_accepts d → wt_holds (n + 1) (walrus w) q →
  ∃ w', wal_append d w = (Ok (offset_counter w), w') ∧ wt_holds n (walrus w') (q ++ [d]).
Proof.
  intros Hn Ha Hh. destruct (wt_holds_append n (walrus w) q d Hn Ha Hh) as (e' & E1 & Hh').
  rewrite /wal_append /map_err /in_walrus /bind /zoom E1 /=. by eexists.
Qed.

(** One read of the loop. *)
Lemma read_once_ok n w q :
  wt_holds n (walrus w) q → batch_covers true READ_ALL_BYTES q →
  let k := batch_count READ_ALL_BYTES q 0 0 in
  ∃ w', attempt (in_walrus (wt_batch_read READ_ALL_BYTES true)) w = (Ok (Some (nonempty (take k q))), w') ∧
    wt_holds n (walrus w') (drop k q) ∧ offset_counter w' = offset_counter w ∧ write_counter w' = write_counter w.
Proof.
  intros Hh Hc k. destruct (wt_holds_read n (walrus w) q READ_ALL_BYTES Hh Hc) as (e' & E1 & Hh').
  rewrite /attempt /in_walrus /zoom E1. eexists. by split.
Qed.

(** On an empty topic the loop ends after the second empty read. *)
Lemma read_loop_all_empty fuel acc c n w :
  wt_holds n (walrus w) [] → 0 ≤ c ≤ 1 → (2 ≤ fuel)%nat →
  ∃ w', read_loop_all fuel acc c w = (Ok acc, w') ∧ wt_holds n (walrus w') [] ∧
    offset_counter w' = offset_counter w ∧ write_counter w' = write_counter w.
Proof.
  assert (batch_covers true READ_ALL_BYTES []) as Hcov by (split; [done|rewrite /READ_ALL_BYTES; consts|done]).
  assert (∀ w fuel c, wt_holds n (walrus w) [] → ∃ w1,
    read_loop_all (S fuel) acc c w = (if c + 1 >=? 2 then ret acc else read_loop_all fuel acc (c + 1)) w1 ∧
    wt_holds n (walrus w1) [] ∧ offset_counter w1 = offset_counter w ∧ write_counter w1 = write_counter w) as Hstep.
  { intros w0 fuel0 c0 Hh. destruct (read_once_ok n w0 [] Hh Hcov) as (w1 & E1 & Hh1 & Ho & Hw). cbn in E1, Hh1.
    exists w1. split_and!; [by rewrite /= {1}/bind E1|done..]. }
  intros Hh Hc Hf. destruct fuel as [|[|fuel]]; [lia..|]. destruct (Hstep w (S fuel) c Hh) as (w1 & -> & Hh1 & Ho & Hw).
  destruct (Z.geb_spec (c + 1) 2); [by exists w1|].
  destruct (Hstep w1 fuel (c + 1) Hh1) as (w2 & -> & Hh2 & Ho2 & Hw2).
  destruct (Z.geb_spec (c + 1 + 1) 2); [|lia]. exists w2. split_and!; [done|done|congruence..].
Qed.

Lemma read_loop_all_ok q : ∀ fuel acc n w,
  wt_holds n (walrus w) q → batch_covers true READ_ALL_BYTES q → (length q + 3 ≤ fuel)%nat →
  ∃ w', read_loop_all fuel acc 0 w = (Ok (acc ++ nonempty q), w') ∧ wt_holds n (walrus w') [] ∧
    offset_counter w' = offset_counter w ∧ write_counter w' = write_counter w.
Proof.
  induction q as [q IH] using (induction_ltof1 _ length). intros fuel acc n w Hh Hcov Hf.
  destruct (decide (q = [])) as [->|Hne].
  { rewrite app_nil_r. apply (read_loop_all_empty fuel acc 0 n w); [done|lia|cbn in Hf; lia]. }
  destruct fuel as [|fuel]; [lia|]. cbn [read_loop_all].
  destruct (read_once_ok n w q Hh Hcov) as (w1 & E1 & Hh1 & Ho & Hw). rewrite {1}/bind E1.
  set k := batch_count READ_ALL_BYTES q 0 0 in Hh1 |- *.
  pose proof (covered_progress _ _ Hcov Hne) as Hk. fold k in Hk.
  assert (length (drop k q) < length q)%nat as Hlt.
  { assert (0 < length q)%nat by (destruct q; [done|cbn; lia]). rewrite length_drop. lia. }
  destruct (nonempty (take k q)) as [|x b] eqn:Eb.
  - pose proof (covered_empty _ _ Hcov Eb) as Ek. fold k in Ek. rewrite take_ge in Eb; [lia|]. rewrite drop_ge in Hh1; [lia|].
    rewrite Eb app_nil_r. destruct (read_loop_all_empty fuel acc 1 n w1) as (w2 & E2 & Hh2 & Ho2 & Hw2); [done|lia|lia|].
    exists w2. split_and!; [done|done|congruence..].
  - destruct (IH (drop k q) Hlt fuel (acc ++ x :: b) n w1 Hh1 (covers_drop _ _ _ Hcov)) as (w2 & E2 & Hh2 & Ho2 & Hw2); [lia|].
    exists w2. rewrite E2 -{2}(take_drop k q) nonempty_app Eb app_assoc. split_and!; [done|done|congruence..].
Qed.

(** reading a log back for recovery ends, and returns every record that is not empty, in
    the order of the appends; the log holds nothing afterwards. Two empty reads end the loop
    after at most one read per record. *)
Theorem read_all_drains n w q fuel :
  wt_holds n (walrus w) q → batch_covers true READ_ALL_BYTES q → (length q + 3 ≤ fuel)%nat →
  ∃ w', read_all fuel w = (Ok (nonempty q), w') ∧ wt_holds n (walrus w') [] ∧
    offset_counter w' = offset_counter w ∧ write_counter w' = write_counter w.
Proof. apply read_loop_all_ok. Qed.
End laws.
