(* ===== verification/LogStore.v ===== *)
(** Octopii's Raft log store: [src/octopii/src/openraft/storage.rs].

    [MemLogStoreInner] keeps entries by index, the last purged id, the vote and the committed id.
    [WalLogStore] changes it and then appends a record of the change to a write-ahead log, from
    which a new store is rebuilt. The entries of the consensus library and its membership
    configurations are parameters; [bincode] is the class [Bincode]. *)

From stdpp Require Import sorting.
From S2P Require Import Prelude Config Writer Batch BatchReadOk BatchReadInv Metadata OctopiiWal.

#[local] Open Scope Z_scope.

(** * Ids and entries *)

(** [LeaderId] and [LogId], ordered by their fields. *)
Record LeaderId := MkLeaderId { term : Z; node_id : Z }.
Record LogId := MkLogId { leader_id : LeaderId; index : Z }.

Definition leader_id_cmp (a b : LeaderId) : comparison :=
  match term a ?= term b with Eq => node_id a ?= node_id b | c => c end.
Definition log_id_cmp (a b : LogId) : comparison :=
  match leader_id_cmp (leader_id a) (leader_id b) with Eq => index a ?= index b | c => c end.

(** [Option<LogId>]: [None] is below everything. *)
Definition opt_log_id_le (a b : option LogId) : bool :=
  match a, b with
  | None, _ => true
  | Some _, None => false
  | Some a, Some b => match log_id_cmp a b with Gt => false | _ => true end
  end.

Record Vote := MkVote { vote_leader : LeaderId; vote_committed : bool }.

Inductive EntryPayload (Mem : Type) :=
  | Blank
  | Normal (data : list Z)
  | Membership (m : Mem).
Arguments Blank {_}.
Arguments Normal {_} _.
Arguments Membership {_} _.

Record Entry (Mem : Type) := MkEntry { log_id : LogId; payload : EntryPayload Mem }.
Arguments MkEntry {_} _ _.
Arguments log_id {_} _.
Arguments payload {_} _.

Definition entry_index {Mem} (e : Entry Mem) : Z := index (log_id e).

(** * Ordered maps *)

(** A bound of a range. *)
Inductive bound := Included (k : Z) | Excluded (k : Z) | Unbounded.

Definition in_bounds (lo hi : bound) (k : Z) : bool :=
  (match lo with Included a => a <=? k | Excluded a => a <? k | Unbounded => true end) &&
  (match hi with Included b => k <=? b | Excluded b => k <? b | Unbounded => true end).

(** [BTreeMap::range] panics on a range that ends before it starts. *)
Definition range_panics (lo hi : bound) : bool :=
  match lo, hi with
  | Included a, Included b | Included a, Excluded b | Excluded a, Included b => b <? a
  | Excluded a, Excluded b => b <=? a
  | _, _ => false
  end.

Definition sorted_keys {V} (m : gmap Z V) : list Z := merge_sort Z.le (map_to_list m).*1.

Definition keys_in {V} (lo hi : bound) (m : gmap Z V) : list Z := filter (λ k, in_bounds lo hi k = true) (sorted_keys m).

Definition values_in {V} (lo hi : bound) (m : gmap Z V) : list V := omap (λ k, m !! k) (keys_in lo hi m).

Definition remove_keys {V} (ks : list Z) (m : gmap Z V) : gmap Z V := foldr delete m ks.

(** * The store in memory *)

Section store.
Context {Mem : Type}.

Record MemLogStoreInner := MkInner {
  last_purged_log_id : option LogId;
  log : gmap Z (Entry Mem);
  committed : option LogId;
  vote : option Vote;
}.

Definition default_inner : MemLogStoreInner := MkInner None ∅ None None.

Definition set_log (l : gmap Z (Entry Mem)) (i : MemLogStoreInner) : MemLogStoreInner :=
  MkInner (last_purged_log_id i) l (committed i) (vote i).
Definition set_committed (c : option LogId) (i : MemLogStoreInner) : MemLogStoreInner :=
  MkInner (last_purged_log_id i) (log i) c (vote i).
Definition set_vote (v : option Vote) (i : MemLogStoreInner) : MemLogStoreInner :=
  MkInner (last_purged_log_id i) (log i) (committed i) v.
Definition set_purged (p : option LogId) (i : MemLogStoreInner) : MemLogStoreInner :=
  MkInner p (log i) (committed i) (vote i).

Definition try_get_log_entries (lo hi : bound) : M MemLogStoreInner (list (Entry Mem)) :=
  if range_panics lo hi then panic
  else let! i := getS in ret (values_in lo hi (log i)).

(** The last purged id and the last id. *)
Definition get_log_state : M MemLogStoreInner (option LogId * option LogId) :=
  let! i := getS in
  let last_log := match last (sorted_keys (log i)) with
                  | Some k => log_id <$> log i !! k
                  | None => None
                  end in
  ret (last_purged_log_id i, match last_log with None => last_purged_log_id i | Some x => Some x end).

Definition save_committed (c : option LogId) : M MemLogStoreInner unit := modify (set_committed c).
Definition read_committed : M MemLogStoreInner (option LogId) := let! i := getS in ret (committed i).
Definition save_vote (v : Vote) : M MemLogStoreInner unit := modify (set_vote (Some v)).
Definition read_vote : M MemLogStoreInner (option Vote) := let! i := getS in ret (vote i).

Definition insert_entry (l : gmap Z (Entry Mem)) (e : Entry Mem) : gmap Z (Entry Mem) := <[entry_index e := e]> l.

(** [append]; the callback runs when it returns [Ok]. *)
Definition append (entries : list (Entry Mem)) : M MemLogStoreInner unit :=
  modify (λ i, set_log (foldl insert_entry (log i) entries) i).

Definition truncate_log (id : LogId) (i : MemLogStoreInner) : MemLogStoreInner :=
  set_log (remove_keys (keys_in (Included (index id)) Unbounded (log i)) (log i)) i.
Definition purge_log (id : LogId) (i : MemLogStoreInner) : MemLogStoreInner :=
  set_log (remove_keys (keys_in Unbounded (Included (index id)) (log i)) (log i)) i.

Definition truncate (id : LogId) : M MemLogStoreInner unit := modify (truncate_log id).

Definition purge (id : LogId) : M MemLogStoreInner unit :=
  let! i := getS in
  if opt_log_id_le (last_purged_log_id i) (Some id)
  then modify (set_purged (Some id));; modify (purge_log id)
  else panic.

(** * The store with a write-ahead log *)

Inductive WalLogRecord :=
  | RecLogEntry (e : Entry Mem)
  | RecVote (v : Vote)
  | RecCommitted (c : option LogId)
  | RecPurged (id : LogId)
  | RecTruncated (id : LogId).

(** What recovery does with one record. *)
Definition replay_record (i : MemLogStoreInner) (r : WalLogRecord) : MemLogStoreInner :=
  match r with
  | RecLogEntry e => set_log (insert_entry (log i) e) i
  | RecVote v => set_vote (Some v) i
  | RecCommitted c => set_committed c i
  | RecPurged id => set_purged (Some id) (purge_log id i)
  | RecTruncated id => truncate_log id i
  end.

Context {E : Type} `{WalTopic E} `{Bincode WalLogRecord}.

Record WalLogStore := MkStore {
  st_inner : MemLogStoreInner;
  st_wal : WriteAheadLog E;
}.

Definition in_inner {A} (m : M MemLogStoreInner A) : M WalLogStore A :=
  zoom st_inner (λ i s, MkStore i (st_wal s)) m.
Definition in_wal {A} (m : M (WriteAheadLog E) A) : M WalLogStore A :=
  zoom st_wal (λ w s, MkStore (st_inner s) w) m.

Definition persist_record (r : WalLogRecord) : M WalLogStore unit :=
  in_wal (map_err "WAL error: " (wal_append (serialize r)));; ret tt.

Fixpoint persist_entries (entries : list (Entry Mem)) : M WalLogStore unit :=
  match entries with
  | [] => ret tt
  | e :: entries => persist_record (RecLogEntry e);; persist_entries entries
  end.

Definition wal_save_committed (c : option LogId) : M WalLogStore unit :=
  in_inner (save_committed c);; persist_record (RecCommitted c).
Definition wal_save_vote (v : Vote) : M WalLogStore unit :=
  in_inner (save_vote v);; persist_record (RecVote v).
Definition wal_store_append (entries : list (Entry Mem)) : M WalLogStore unit :=
  in_inner (append entries);; persist_entries entries.
Definition wal_truncate (id : LogId) : M WalLogStore unit :=
  in_inner (truncate id);; persist_record (RecTruncated id).
Definition wal_purge (id : LogId) : M WalLogStore unit :=
  in_inner (purge id);; persist_record (RecPurged id).

Fixpoint replay_raw (entries : list (list Z)) : M MemLogStoreInner unit :=
  match entries with
  | [] => ret tt
  | raw :: entries =>
      match deserialize raw with
      | None => fail KOther "Failed to deserialize WAL record"
      | Some r => modify (λ i, replay_record i r);; replay_raw entries
      end
  end.

Definition recover_from_wal (fuel : nat) : M WalLogStore unit :=
  let! entries := attempt (in_wal (read_all fuel)) in
  in_inner (replay_raw (default [] entries)).

(** [WalLogStore::new] on a log; the log keeps what recovery did to it. *)
Definition WalLogStore_new (fuel : nat) (w : WriteAheadLog E) : outcome unit * WalLogStore :=
  recover_from_wal fuel (MkStore default_inner w).
End store.
Arguments MemLogStoreInner : clear implicits.
Arguments WalLogRecord : clear implicits.
Arguments WalLogStore : clear implicits.
