(* ===== verification/LogStoreOk.v ===== *)
(** The log store as a Raft log: a purged prefix, a run of consecutive entries, a vote and a
    committed id. The store answers as this log does, and a new store opened on its
    write-ahead log is the same store. *)

From stdpp Require Import sorting.
From S2P Require Import Prelude Config Writer Batch BatchReadOk BatchReadInv Metadata OctopiiWal LogStore.

#[local] Open Scope Z_scope.

(** * Ordered maps *)

Lemma elem_of_sorted_keys {V} (m : gmap Z V) k : k ∈ sorted_keys m ↔ is_Some (m !! k).
Proof.
  rewrite /sorted_keys merge_sort_Permutation list_elem_of_fmap. split.
  - intros ([k' v] & -> & Hv%elem_of_map_to_list). by eexists.
  - intros [v Hv]. exists (k, v). by rewrite elem_of_map_to_list.
Qed.

Lemma elem_of_keys_in {V} lo hi (m : gmap Z V) k : k ∈ keys_in lo hi m ↔ in_bounds lo hi k = true ∧ is_Some (m !! k).
Proof. by rewrite /keys_in list_elem_of_filter elem_of_sorted_keys. Qed.

Lemma lookup_remove_keys {V} ks (m : gmap Z V) k : remove_keys ks m !! k = if decide (k ∈ ks) then None else m !! k.
Proof.
  induction ks as [|k' ks IH]; cbn; [case_decide as Hd; [by apply not_elem_of_nil in Hd|done]|].
  destruct (decide (k = k')) as [->|Hne].
  - rewrite lookup_delete_eq decide_True //. set_solver.
  - rewrite lookup_delete_ne // IH. do 2 case_decide; set_solver.
Qed.

Lemma lookup_remove_range {V} lo hi (m : gmap Z V) k :
  remove_keys (keys_in lo hi m) m !! k = if in_bounds lo hi k then None else m !! k.
Proof.
  rewrite lookup_remove_keys. case_decide as Hd; rewrite elem_of_keys_in in Hd.
  - by destruct Hd as [-> _].
  - destruct (in_bounds lo hi k) eqn:Eb; [|done]. destruct (m !! k) eqn:Ek; [|done]. exfalso. apply Hd. by split.
Qed.

Lemma Sorted_seqZ a n : Sorted Z.le (seqZ a n).
Proof.
  rewrite /seqZ. generalize (Z.to_nat n). intros k. revert a. 
  cut (∀ j a, Sorted Z.le ((λ i : nat, Z.add (Z.of_nat i) a) <$> seq j k)); [intros Hc a; apply (Hc 0%nat)|].
  induction k as [|k IH]; intros j a; cbn; [constructor|]. constructor; [apply IH|].
  destruct k; cbn; constructor. lia.
Qed.

(** A map with the keys [a], [a+1], ... *)
Lemma sorted_keys_run {V} (m : gmap Z V) a n :
  (∀ k, is_Some (m !! k) ↔ a ≤ k < a + n) → sorted_keys m = seqZ a n.
Proof.
  intros Hm. apply (Sorted_unique Z.le); [apply Sorted_merge_sort; intros x y; lia|apply Sorted_seqZ|].
  rewrite /sorted_keys merge_sort_Permutation. apply NoDup_Permutation; [apply NoDup_fst_map_to_list|apply NoDup_seqZ|].
  intros k. rewrite elem_of_seqZ -Hm -elem_of_sorted_keys /sorted_keys merge_sort_Permutation. done.
Qed.

(** * The abstract log *)

Section spec.
Context {Mem : Type}.

Record RaftLog := MkRaftLog {
  rl_purged : option LogId;
  rl_entries : list (Entry Mem);
  rl_committed : option LogId;
  rl_vote : option Vote;
}.

Definition empty_log : RaftLog := MkRaftLog None [] None None.

(** The index after an id; the first index is 0. *)
Definition next_index (o : option LogId) : Z := match o with None => 0 | Some id => index id + 1 end.
Definition rl_first (l : RaftLog) : Z := next_index (rl_purged l).
Definition rl_next (l : RaftLog) : Z := rl_first l + len (rl_entries l).

(** Entries [es] have consecutive indices from [a]. *)
Definition run_from (a : Z) (es : list (Entry Mem)) : Prop :=
  ∀ (i : nat) e, es !! i = Some e → entry_index e = a + Z.of_nat i.

Inductive log_op :=
  | LAppend (es : list (Entry Mem))
  | LTruncate (id : LogId)
  | LPurge (id : LogId)
  | LSaveVote (v : Vote)
  | LSaveCommitted (c : option LogId)
  | LGetState
  | LRead (lo hi : bound)
  | LReadVote
  | LReadCommitted.

Inductive log_answer :=
  | ADone
  | AState (purged last : option LogId)
  | AEntries (es : list (Entry Mem))
  | AVote (v : option Vote)
  | ACommitted (c : option LogId).

Definition spec_log_op (o : log_op) (l : RaftLog) : log_answer * RaftLog :=
  match o with
  | LAppend es => (ADone, MkRaftLog (rl_purged l) (rl_entries l ++ es) (rl_committed l) (rl_vote l))
  | LTruncate id => (ADone, MkRaftLog (rl_purged l) (take (Z.to_nat (index id - rl_first l)) (rl_entries l))
                              (rl_committed l) (rl_vote l))
  | LPurge id => (ADone, MkRaftLog (Some id) (drop (Z.to_nat (index id + 1 - rl_first l)) (rl_entries l))
                           (rl_committed l) (rl_vote l))
  | LSaveVote v => (ADone, MkRaftLog (rl_purged l) (rl_entries l) (rl_committed l) (Some v))
  | LSaveCommitted c => (ADone, MkRaftLog (rl_purged l) (rl_entries l) c (rl_vote l))
  | LGetState => (AState (rl_purged l) (match last (rl_entries l) with Some e => Some (log_id e) | None => rl_purged l end), l)
  | LRead lo hi => (AEntries (filter (λ e, in_bounds lo hi (entry_index e) = true) (rl_entries l)), l)
  | LReadVote => (AVote (rl_vote l), l)
  | LReadCommitted => (ACommitted (rl_committed l), l)
  end.

(** The contract of [RaftLogStorage]: entries follow the last one, the log is truncated after its
    purged part, and purged in order; ranges do not end before they start. *)
Definition log_op_ok (o : log_op) (l : RaftLog) : Prop :=
  match o with
  | LAppend es => run_from (rl_next l) es
  | LTruncate id => rl_first l ≤ index id
  | LPurge id => opt_log_id_le (rl_purged l) (Some id) = true ∧ rl_first l ≤ index id + 1
  | LRead lo hi => range_panics lo hi = false
  | _ => True
  end.

(** ** The store represents it *)

Record rep (i : MemLogStoreInner Mem) (l : RaftLog) : Prop := {
  rep_purged : last_purged_log_id i = rl_purged l;
  rep_committed : committed i = rl_committed l;
  rep_vote : vote i = rl_vote l;
  rep_run : run_from (rl_first l) (rl_entries l);
  rep_log k : log i !! k = if decide (rl_first l ≤ k) then rl_entries l !! Z.to_nat (k - rl_first l) else None;
}.

Lemma rep_empty : rep default_inner empty_log.
Proof. split; try done. intros k. rewrite lookup_empty. by case_decide. Qed.

Lemma rep_keys i l : rep i l → sorted_keys (log i) = seqZ (rl_first l) (len (rl_entries l)).
Proof.
  intros Hr. apply sorted_keys_run. intros k. rewrite (rep_log _ _ Hr). case_decide.
  - rewrite lookup_lt_is_Some /len. lia.
  - split; [by intros []|lia].
Qed.

(** ** Reads *)

Lemma run_from_cons a e es : run_from a (e :: es) ↔ entry_index e = a ∧ run_from (Z.succ a) es.
Proof.
  split.
  - intros Hr. split; [rewrite (Hr 0%nat e eq_refl); lia|]. intros i e' He. rewrite (Hr (S i) e' He). lia.
  - intros [He Hr] [|i] e' He'; cbn in He'; [simplify_eq; lia|]. rewrite (Hr i e' He'). lia.
Qed.

Lemma run_from_app a es es' : run_from a (es ++ es') ↔ run_from a es ∧ run_from (a + len es) es'.
Proof.
  revert a. induction es as [|e es IH]; intros a; cbn [app].
  - rewrite len_nil Z.add_0_r. split; [by intros|by intros [_ ?]].
  - rewrite !run_from_cons IH len_cons. replace (Z.succ a + len es) with (a + (1 + len es)) by lia. tauto.
Qed.

Lemma values_in_run lo hi (m : gmap Z (Entry Mem)) es : ∀ a,
  run_from a es → (∀ (i : nat), (i < length es)%nat → m !! (a + Z.of_nat i) = es !! i) →
  omap (λ k, m !! k) (filter (λ k, in_bounds lo hi k = true) (seqZ a (len es))) =
  filter (λ e, in_bounds lo hi (entry_index e) = true) es.
Proof.
  induction es as [|e es IH]; intros a Hr Hm; [done|]. apply run_from_cons in Hr as [He Hr].
  pose proof (len_nonneg es). rewrite len_cons seqZ_cons; [lia|]. replace (Z.pred (1 + len es)) with (len es) by lia.
  rewrite !filter_cons He. specialize (IH (Z.succ a) Hr).
  rewrite -IH.
  - intros i Hi. specialize (Hm (S i)). cbn in Hm. replace (Z.succ a + Z.of_nat i) with (a + Z.of_nat (S i)) by lia. apply Hm. lia.
  - case_decide; [|done]. cbn. specialize (Hm 0%nat ltac:(cbn; lia)). rewrite Z.add_0_r in Hm. by rewrite Hm.
Qed.

Lemma rep_lookup i l (j : nat) : rep i l → log i !! (rl_first l + Z.of_nat j) = rl_entries l !! j.
Proof.
  intros Hr. rewrite (rep_log _ _ Hr). case_decide; [|lia]. f_equal. lia.
Qed.

Lemma rep_read lo hi i l : rep i l →
  values_in lo hi (log i) = filter (λ e, in_bounds lo hi (entry_index e) = true) (rl_entries l).
Proof.
  intros Hr. rewrite /values_in /keys_in (rep_keys _ _ Hr). apply values_in_run; [apply Hr|]. intros j _. by apply rep_lookup.
Qed.

Lemma rep_last i l : rep i l →
  match last (sorted_keys (log i)) with Some k => log_id <$> log i !! k | None => None end =
  match last (rl_entries l) with Some e => Some (log_id e) | None => None end.
Proof.
  intros Hr. rewrite (rep_keys _ _ Hr). destruct (rl_entries l) as [|e es _] eqn:El using rev_ind; [done|].
  rewrite last_snoc len_app. change (len [e]) with 1. rewrite /len. replace (Z.of_nat (length es) + 1) with (Z.of_nat (S (length es))) by lia.
  rewrite seqZ_S last_snoc (rep_lookup _ _ _ Hr) El lookup_app_r // Nat.sub_diag. done.
Qed.

(** ** Changes *)

Lemma rep_snoc i l e :
  rep i l → entry_index e = rl_next l →
  rep (set_log (insert_entry (log i) e) i) (MkRaftLog (rl_purged l) (rl_entries l ++ [e]) (rl_committed l) (rl_vote l)).
Proof.
  intros [Hp Hc Hv Hr Hl] He. split; try done; cbn.
  - apply run_from_app. split; [done|]. apply run_from_cons. split; [done|]. by intros ? ?.
  - intros k. rewrite /insert_entry He. rewrite /rl_next /rl_first in He |- *. cbn. fold (rl_first l). destruct (decide (k = rl_next l)) as [->|Hne].
    + rewrite lookup_insert_eq. pose proof (len_nonneg (rl_entries l)). rewrite /rl_next. case_decide; [|lia].
      replace (Z.to_nat _) with (length (rl_entries l)) by (rewrite /len; lia). by rewrite lookup_app_r // Nat.sub_diag.
    + rewrite lookup_insert_ne // Hl. case_decide; [|done]. rewrite /rl_next /len in Hne.
      destruct (decide (Z.to_nat (k - rl_first l) < length (rl_entries l))%nat); [by rewrite lookup_app_l|].
      rewrite !lookup_ge_None_2 // ?length_app /=; lia.
Qed.

Lemma rep_append es : ∀ i l, rep i l → run_from (rl_next l) es →
  rep (set_log (foldl insert_entry (log i) es) i) (MkRaftLog (rl_purged l) (rl_entries l ++ es) (rl_committed l) (rl_vote l)).
Proof.
  induction es as [|e es IH]; intros i l Hr Hes.
  - rewrite app_nil_r. cbn. destruct i, l. apply Hr.
  - apply run_from_cons in Hes as [He Hes].
    pose proof (rep_snoc _ _ _ Hr He) as Hr1. specialize (IH _ _ Hr1). cbn in IH |- *. rewrite -app_assoc in IH. apply IH.
    rewrite /rl_next /rl_first /= len_app. change (len [e]) with 1. by replace (next_index (rl_purged l) + (len (rl_entries l) + 1)) with (Z.succ (rl_next l)) by (rewrite /rl_next /rl_first; lia).
Qed.

Lemma rep_truncate id i l :
  rep i l → rl_first l ≤ index id →
  rep (truncate_log id i) (MkRaftLog (rl_purged l) (take (Z.to_nat (index id - rl_first l)) (rl_entries l)) (rl_committed l) (rl_vote l)).
Proof.
  intros [Hp Hc Hv Hr Hl] Hid. split; try done; cbn.
  - intros j e [He _]%lookup_take_Some. by apply Hr.
  - intros k. rewrite lookup_remove_range Hl /rl_first /= /in_bounds -/(rl_first l) andb_true_r.
    case_decide; [|by destruct (_ <=? _)]. destruct (Z.leb_spec (index id) k).
    + rewrite lookup_take_ge //. lia.
    + rewrite lookup_take_lt //. lia.
Qed.

Lemma rep_purge id i l :
  rep i l → rl_first l ≤ index id + 1 →
  rep (purge_log id (set_purged (Some id) i))
    (MkRaftLog (Some id) (drop (Z.to_nat (index id + 1 - rl_first l)) (rl_entries l)) (rl_committed l) (rl_vote l)).
Proof.
  intros [Hp Hc Hv Hr Hl] Hid. split; try done; cbn.
  - intros j e He. rewrite lookup_drop in He. rewrite (Hr _ _ He) /rl_first /=. rewrite /rl_first in Hid. lia.
  - intros k. rewrite lookup_remove_range Hl /in_bounds. set f := rl_first l in Hid |- *. rewrite /rl_first /=.
    destruct (Z.leb_spec k (index id)); [by case_decide; [lia|]|].
    case_decide; [|lia]. case_decide; [|lia]. rewrite lookup_drop. f_equal. lia.
Qed.
End spec.
Arguments RaftLog : clear implicits.
Arguments log_op : clear implicits.
Arguments log_answer : clear implicits.

(** The encoding of an enum starts with the number of its variant. *)
Class BincodeTagged (A : Type) `{Bincode A} : Prop := { bincode_tagged (a : A) : serialize a ≠ [] }.

(** * Histories *)

Section runs.
Context {Mem : Type}.

Definition run_mem_op (o : log_op Mem) : M (MemLogStoreInner Mem) (log_answer Mem) :=
  match o with
  | LAppend es => append es;; ret ADone
  | LTruncate id => truncate id;; ret ADone
  | LPurge id => purge id;; ret ADone
  | LSaveVote v => save_vote v;; ret ADone
  | LSaveCommitted c => save_committed c;; ret ADone
  | LGetState => let! r := get_log_state in ret (AState r.1 r.2)
  | LRead lo hi => let! es := try_get_log_entries lo hi in ret (AEntries es)
  | LReadVote => let! v := read_vote in ret (AVote v)
  | LReadCommitted => let! c := read_committed in ret (ACommitted c)
  end.

Lemma mem_op_ok o i l :
  rep i l → log_op_ok o l → ∃ i', run_mem_op o i = (Ok (spec_log_op o l).1, i') ∧ rep i' (spec_log_op o l).2.
Proof.
  intros Hr Hok. destruct o as [es|id|id|v|c| |lo hi| |]; cbn [run_mem_op spec_log_op log_op_ok fst snd] in *.
  - eexists. split; [done|]. by apply rep_append.
  - eexists. split; [done|]. by apply rep_truncate.
  - destruct Hok as [Hle Hf]. eexists. split; [|by apply rep_purge].
    by rewrite /purge /bind /getS (rep_purged _ _ Hr) Hle.
  - eexists. split; [done|]. by destruct Hr.
  - eexists. split; [done|]. by destruct Hr.
  - exists i. split; [|done]. rewrite /get_log_state /bind /getS /ret /= (rep_last _ _ Hr) (rep_purged _ _ Hr).
    by destruct (last (rl_entries l)).
  - exists i. split; [|done]. rewrite /try_get_log_entries Hok /bind /getS /ret /=. by rewrite (rep_read _ _ _ _ Hr).
  - exists i. split; [|done]. by rewrite /read_vote /bind /getS /ret (rep_vote _ _ Hr).
  - exists i. split; [|done]. by rewrite /read_committed /bind /getS /ret (rep_committed _ _ Hr).
Qed.

(** The records an operation leaves in the log. *)
Definition records_of (o : log_op Mem) : list (WalLogRecord Mem) :=
  match o with
  | LAppend es => RecLogEntry <$> es
  | LTruncate id => [RecTruncated id]
  | LPurge id => [RecPurged id]
  | LSaveVote v => [RecVote v]
  | LSaveCommitted c => [RecCommitted c]
  | _ => []
  end.

Lemma replay_op o i a i' : run_mem_op o i = (Ok a, i') → foldl replay_record i (records_of o) = i'.
Proof.
  destruct o as [es|id|id|v|c| |lo hi| |]; cbn [run_mem_op records_of].
  - intros [= _ <-]. revert i. induction es as [|e es IH]; intros i; [by destruct i|]. cbn. by rewrite IH.
  - by intros [= _ <-].
  - rewrite /purge /bind /getS. destruct (opt_log_id_le _ _); by intros [= _ <-].
  - by intros [= _ <-].
  - by intros [= _ <-].
  - by intros [= _ <-].
  - rewrite /try_get_log_entries /bind /getS. destruct (range_panics lo hi); by intros [= _ <-].
  - by intros [= _ <-].
  - by intros [= _ <-].
Qed.

Context {E : Type} `{WalTopicLaws E} `{BincodeLaws (WalLogRecord Mem)}.

Definition run_wal_op (o : log_op Mem) : M (WalLogStore Mem E) (log_answer Mem) :=
  match o with
  | LAppend es => wal_store_append es;; ret ADone
  | LTruncate id => wal_truncate id;; ret ADone
  | LPurge id => wal_purge id;; ret ADone
  | LSaveVote v => wal_save_vote v;; ret ADone
  | LSaveCommitted c => wal_save_committed c;; ret ADone
  | LGetState => let! r := in_inner get_log_state in ret (AState r.1 r.2)
  | LRead lo hi => let! es := in_inner (try_get_log_entries lo hi) in ret (AEntries es)
  | LReadVote => let! v := in_inner read_vote in ret (AVote v)
  | LReadCommitted => let! c := in_inner read_committed in ret (ACommitted c)
  end.

Fixpoint run_wal_ops (os : list (log_op Mem)) : M (WalLogStore Mem E) (list (log_answer Mem)) :=
  match os with
  | [] => ret []
  | o :: os => let! a := run_wal_op o in let! rs := run_wal_ops os in ret (a :: rs)
  end.

(** Persisting records one by one. *)
Fixpoint persist_records (rs : list (WalLogRecord Mem)) : M (WalLogStore Mem E) unit :=
  match rs with
  | [] => ret tt
  | r :: rs => persist_record r;; persist_records rs
  end.

Lemma persist_records_ok rs : ∀ n s q,
  0 ≤ n → Forall (λ r, wt_accepts (serialize r)) rs → wt_holds (n + len rs) (walrus (st_wal s)) q →
  ∃ w, persist_records rs s = (Ok tt, MkStore (st_inner s) w) ∧ wt_holds n (walrus w) (q ++ (serialize <$> rs)).
Proof.
  induction rs as [|r rs IH]; intros n s q Hn Hf Hh.
  - rewrite len_nil Z.add_0_r in Hh. exists (st_wal s). rewrite app_nil_r. by destruct s.
  - apply Forall_cons in Hf as [Hr Hf]. rewrite len_cons in Hh. pose proof (len_nonneg rs).
    destruct (wal_append_ok (n + len rs) (st_wal s) q (serialize r)) as (w1 & E1 & Hh1); [lia|done| |].
    { by replace (n + len rs + 1) with (n + (1 + len rs)) by lia. }
    destruct (IH n (MkStore (st_inner s) w1) (q ++ [serialize r])) as (w2 & E2 & Hh2); [done|done|done|].
    exists w2. rewrite -app_assoc in Hh2. split; [|done].
    cbn [persist_records]. by rewrite {1}/bind /persist_record /bind /in_wal /zoom /map_err E1.
Qed.

Lemma persist_entries_records es s : persist_entries es s = persist_records (RecLogEntry <$> es) s.
Proof.
  revert s. induction es as [|e es IH]; intros s; cbn [persist_entries persist_records fmap list_fmap]; [done|].
  rewrite /bind. destruct (persist_record _ s) as [[] s']; by rewrite ?IH.
Qed.

(** A store operation is the operation in memory, and then its records. *)
Lemma wal_op_split o s a i' :
  run_mem_op o (st_inner s) = (Ok a, i') →
  run_wal_op o s = (persist_records (records_of o);; ret a) (MkStore i' (st_wal s)).
Proof.
  assert (∀ r (s : WalLogStore Mem E), (persist_record r;; ret (@ADone Mem)) s = (persist_records [r];; ret ADone) s) as Hone.
  { intros r s0. cbn [persist_records]. rewrite /bind. by destruct (persist_record r s0) as [[[]| | |] ?]. }
  destruct o as [es|id|id|v|c| |lo hi| |]; cbn [run_mem_op run_wal_op records_of].
  - intros [= <- <-]. rewrite /wal_store_append /bind /in_inner /zoom /=. by rewrite persist_entries_records.
  - intros [= <- <-]. rewrite -Hone. done.
  - rewrite /wal_purge /in_inner /zoom. rewrite {1}/bind. destruct (purge id (st_inner s)) as [[[]| | |] i1] eqn:Ep; intros [= <- <-].
    rewrite -Hone /bind Ep. done.
  - intros [= <- <-]. rewrite -Hone. done.
  - intros [= <- <-]. rewrite -Hone. done.
  - intros [= <- <-]. done.
  - rewrite /in_inner /zoom /bind. destruct (try_get_log_entries lo hi (st_inner s)) as [[] i1] eqn:Et; intros [= <- <-]. done.
  - intros [= <- <-]. done.
  - intros [= <- <-]. done.
Qed.

(** ** Sequences of operations *)

Fixpoint spec_log_ops (os : list (log_op Mem)) (l : RaftLog Mem) : list (log_answer Mem) * RaftLog Mem :=
  match os with
  | [] => ([], l)
  | o :: os => let '(a, l) := spec_log_op o l in let '(rs, l) := spec_log_ops os l in (a :: rs, l)
  end.

Fixpoint log_ops_ok (os : list (log_op Mem)) (l : RaftLog Mem) : Prop :=
  match os with
  | [] => True
  | o :: os => log_op_ok o l ∧ log_ops_ok os (spec_log_op o l).2
  end.

Definition all_records (os : list (log_op Mem)) : list (WalLogRecord Mem) := concat (records_of <$> os).

(** The store [s] is the log [l], and its write-ahead log holds the records [rs] it is made of. *)
Record store_ok (n : Z) (s : WalLogStore Mem E) (l : RaftLog Mem) (rs : list (WalLogRecord Mem)) : Prop := {
  so_rep : rep (st_inner s) l;
  so_wal : wt_holds n (walrus (st_wal s)) (serialize <$> rs);
  so_replay : foldl replay_record default_inner rs = st_inner s;
}.

Lemma wal_op_ok o n s l rs :
  store_ok (n + len (records_of o)) s l rs → log_op_ok o l → 0 ≤ n → Forall (λ r, wt_accepts (serialize r)) (records_of o) →
  ∃ s', run_wal_op o s = (Ok (spec_log_op o l).1, s') ∧ store_ok n s' (spec_log_op o l).2 (rs ++ records_of o).
Proof.
  intros [Hr Hw Hp] Hok Hn Hf. destruct (mem_op_ok o _ l Hr Hok) as (i' & Em & Hr').
  rewrite (wal_op_split _ _ _ _ Em).
  destruct (persist_records_ok (records_of o) n (MkStore i' (st_wal s)) (serialize <$> rs)) as (w & Ew & Hw'); [done|done|done|].
  exists (MkStore i' w). split; [by rewrite /bind Ew|]. split; [done|by rewrite fmap_app|].
  rewrite foldl_app Hp. by eapply replay_op.
Qed.

Lemma run_wal_ops_ok os : ∀ n s l rs,
  store_ok (n + len (all_records os)) s l rs → log_ops_ok os l → 0 ≤ n → Forall (λ r, wt_accepts (serialize r)) (all_records os) →
  ∃ s', run_wal_ops os s = (Ok (spec_log_ops os l).1, s') ∧ store_ok n s' (spec_log_ops os l).2 (rs ++ all_records os).
Proof.
  induction os as [|o os IH]; intros n s l rs Hs Hok Hn Hf.
  { exists s. rewrite app_nil_r. rewrite len_nil Z.add_0_r in Hs. done. }
  rewrite /all_records fmap_cons concat_cons -/(all_records os) in Hs Hf |- *. apply Forall_app in Hf as [Ho Hf]. rewrite len_app in Hs.
  pose proof (len_nonneg (all_records os)). destruct Hok as [Hok1 Hok].
  destruct (wal_op_ok o (n + len (all_records os)) s l rs) as (s1 & E1 & Hs1); [|done|lia|done|].
  { by replace (n + len (all_records os) + len (records_of o)) with (n + (len (records_of o) + len (all_records os))) by lia. }
  destruct (IH n s1 _ _ Hs1 Hok Hn Hf) as (s2 & E2 & Hs2). rewrite -app_assoc in Hs2.
  exists s2. cbn [run_wal_ops spec_log_ops]. rewrite {1}/bind E1 /bind E2.
  destruct (spec_log_op o l) as [a l1]. cbn [snd fst] in Hs2 |- *. by destruct (spec_log_ops os l1).
Qed.

Lemma store_fresh n e : wt_holds n e [] → store_ok n (MkStore default_inner (new_wal e)) empty_log [].
Proof. intros Hh. split; [apply rep_empty|done|done]. Qed.

(** ** Recovery *)

Context `{!BincodeTagged (WalLogRecord Mem)}.

Lemma nonempty_records (rs : list (WalLogRecord Mem)) : nonempty (serialize <$> rs) = serialize <$> rs.
Proof. apply nonempty_all, Forall_fmap, Forall_forall. intros r _. apply bincode_tagged. Qed.

Lemma replay_raw_ok rs : ∀ i : MemLogStoreInner Mem, replay_raw (serialize <$> rs) i = (Ok tt, foldl replay_record i rs).
Proof. induction rs as [|r rs IH]; intros i; cbn; [done|]. by rewrite bincode_roundtrip /bind /modify IH. Qed.

Lemma WalLogStore_new_ok n w (rs : list (WalLogRecord Mem)) fuel :
  wt_holds n (walrus w) (serialize <$> rs) → batch_covers true READ_ALL_BYTES (serialize <$> rs) → (length rs + 3 ≤ fuel)%nat →
  ∃ w', WalLogStore_new fuel w = (Ok tt, MkStore (foldl replay_record default_inner rs) w') ∧ wt_holds n (walrus w') [].
Proof.
  intros Hh Hc Hf. destruct (read_loop_all_ok (serialize <$> rs) fuel [] n w Hh Hc) as (w' & Er & Hh' & _); [by rewrite length_fmap|].
  exists w'. split; [|done]. rewrite /WalLogStore_new /recover_from_wal /read_all /bind /attempt /in_wal /zoom /= Er /=.
  by rewrite nonempty_records /in_inner /zoom /= replay_raw_ok.
Qed.

(** * Theorems *)

(** C8: the log store behaves as a Raft log. Opened on an empty write-ahead log and driven by any
    sequence of appends, truncations, purges, votes, committed ids and reads that keeps the
    storage contract (no holes), it never fails or panics and answers every call as the
    abstract log does: reads return the entries in range in index order, the log state is the
    purged id and the id of the last entry. *)
Theorem wal_store_refines_log e os :
  wt_holds (len (all_records os)) e [] → log_ops_ok os empty_log → Forall (λ r, wt_accepts (serialize r)) (all_records os) →
  ∃ s, run_wal_ops os (MkStore default_inner (new_wal e)) = (Ok (spec_log_ops os empty_log).1, s).
Proof.
  intros Hh Hok Hf. destruct (run_wal_ops_ok os 0 _ _ _ (store_fresh _ _ Hh) Hok) as (s & Hrun & _); [lia|done|]. by exists s.
Qed.

(** a store opened on the write-ahead log of another one is the same store: after any such
    sequence, recovery rebuilds the entries, the purged id, the committed id and the vote. *)
Theorem wal_store_recovers e os fuel :
  wt_holds (len (all_records os)) e [] → log_ops_ok os empty_log → Forall (λ r, wt_accepts (serialize r)) (all_records os) →
  batch_covers true READ_ALL_BYTES (serialize <$> all_records os) → (length (all_records os) + 3 ≤ fuel)%nat →
  ∃ s w, run_wal_ops os (MkStore default_inner (new_wal e)) = (Ok (spec_log_ops os empty_log).1, s) ∧
    WalLogStore_new fuel (st_wal s) = (Ok tt, MkStore (st_inner s) w).
Proof.
  intros Hh Hok Hf Hc Hl. destruct (run_wal_ops_ok os 0 _ _ _ (store_fresh _ _ Hh) Hok) as (s & Hrun & [_ Hw Hp]); [lia|done|].
  destruct (WalLogStore_new_ok _ _ _ fuel Hw Hc Hl) as (w & Hn & _). exists s, w. by rewrite -Hp.
Qed.

(** recovery consumes the log it reads. Opening a store a second time, with nothing written
    since, finds no entry, no committed id and no vote, so a node that restarts twice may vote
    twice in a term. *)
Theorem wal_recovery_consumes e os fuel :
  wt_holds (len (all_records os)) e [] → log_ops_ok os empty_log → Forall (λ r, wt_accepts (serialize r)) (all_records os) →
  batch_covers true READ_ALL_BYTES (serialize <$> all_records os) → (length (all_records os) + 3 ≤ fuel)%nat →
  ∃ s s1 s2, run_wal_ops os (MkStore default_inner (new_wal e)) = (Ok (spec_log_ops os empty_log).1, s) ∧
    WalLogStore_new fuel (st_wal s) = (Ok tt, s1) ∧ vote (st_inner s1) = rl_vote (spec_log_ops os empty_log).2 ∧
    WalLogStore_new fuel (st_wal s1) = (Ok tt, s2) ∧ st_inner s2 = default_inner.
Proof.
  intros Hh Hok Hf Hc Hl. destruct (run_wal_ops_ok os 0 _ _ _ (store_fresh _ _ Hh) Hok) as (s & Hrun & [Hr Hw Hp]); [lia|done|].
  destruct (WalLogStore_new_ok _ _ _ fuel Hw Hc Hl) as (w & Hn & Hw1).
  destruct (WalLogStore_new_ok 0 w [] fuel Hw1) as (w2 & Hn2 & _); [by apply (covers_drop _ _ (length (serialize <$> all_records os))) in Hc; rewrite drop_all in Hc|cbn; lia|].
  eexists s, _, _. split_and!; [done|done| |done|done]. cbn in Hp |- *. rewrite Hp. apply Hr.
Qed.
End runs.
