(* ===== verification/RaftQuorum.v ===== *)
(** Quorum sets of the consensus library: [src/octopii/openraft/openraft/src/quorum/].

    A quorum set decides whether a sequence of node ids contains a quorum. A set of voters asks
    for a majority, by a loop that counts by two; a [Joint] asks for a quorum of each of its
    children. [Coherent] sets share a child, so a quorum of one meets every quorum of the other:
    this is what makes a change of the members safe, and what the election and the commit rest on. *)

From stdpp Require Import sorting.
From S2P Require Import Prelude.

#[local] Open Scope Z_scope.

(** The result of code with a typed error, as a value. *)
Inductive Result (A E : Type) := Okay (a : A) | Failed (e : E).
Arguments Okay {_ _} _.
Arguments Failed {_ _} _.

(** Iteration over a [BTreeSet] and over the keys of a [BTreeMap] goes upwards. *)
Definition btree_iter (s : gset Z) : list Z := merge_sort Z.le (elements s).
Definition btree_keys {V} (m : gmap Z V) : list Z := merge_sort Z.le (map_to_list m).*1.

(** * The trait and its implementations *)

Class QuorumSet (QS : Type) := {
  is_quorum : QS → list Z → bool;
  ids : QS → list Z
}.
#[global] Arguments is_quorum {_ _} _ _ : simpl never.
#[global] Arguments ids {_ _} _ : simpl never.

(** The loop of [is_quorum]: [count += 2; if count > limit]. *)
Fixpoint quorum_loop (contains : Z → bool) (limit count : Z) (l : list Z) : bool :=
  match l with
  | [] => false
  | id :: rest =>
      if contains id then if limit <? count + 2 then true else quorum_loop contains limit (count + 2) rest
      else quorum_loop contains limit count rest
  end.

(** [BTreeSet<ID>] and [Vec<ID>]. *)
#[export] Instance set_quorum : QuorumSet (gset Z) := {
  is_quorum s := quorum_loop (λ id, bool_decide (id ∈ s)) (Z.of_nat (size s)) 0;
  ids := btree_iter
}.

#[export] Instance vec_quorum : QuorumSet (list Z) := {
  is_quorum v := quorum_loop (λ id, bool_decide (id ∈ v)) (len v) 0;
  ids v := btree_iter (list_to_set v)
}.

(** [Joint<ID, QS, Vec<QS>>]. *)
Record Joint (QS : Type) := MkJoint { children : list QS }.
Arguments MkJoint {_} _.
Arguments children {_} _.

#[export] Instance joint_quorum {QS} `{QuorumSet QS} : QuorumSet (Joint QS) := {
  is_quorum j l := forallb (λ child, is_quorum child l) (children j);
  ids j := btree_iter (foldl (λ acc child, acc ∪ list_to_set (ids child)) ∅ (children j))
}.

Section Coherent.
Context {QS : Type} `{EqDecision QS}.

(** [Coherent<ID, Joint<..>> for Joint<..>] and [Coherent<ID, QS> for Joint<..>]. *)
Definition joint_is_coherent_with (a b : Joint QS) : bool :=
  existsb (λ x, existsb (λ y, bool_decide (x = y)) (children b)) (children a).
Definition is_coherent_with (a : Joint QS) (other : QS) : bool :=
  existsb (λ x, bool_decide (x = other)) (children a).

Definition find_coherent (self : Joint QS) (other : QS) : Joint QS :=
  if is_coherent_with self other then MkJoint [other]
  else match last (children self) with
       | Some c => MkJoint [c; other]
       | None => MkJoint [other]
       end.

End Coherent.

(** * Majorities *)

Lemma elem_of_btree_iter x s : x ∈ btree_iter s ↔ x ∈ s.
Proof. unfold btree_iter. by rewrite merge_sort_Permutation elem_of_elements. Qed.

Lemma NoDup_btree_iter s : NoDup (btree_iter s).
Proof. unfold btree_iter. rewrite merge_sort_Permutation. apply NoDup_elements. Qed.

Lemma length_btree_iter s : length (btree_iter s) = size s.
Proof. unfold btree_iter. by rewrite merge_sort_Permutation. Qed.

(** The loop answers whether twice the number of members exceeds the limit. *)
Lemma quorum_loop_spec contains limit count l :
  count ≤ limit →
  quorum_loop contains limit count l = (limit <? count + 2 * len (filter (λ id, contains id = true) l)).
Proof.
  revert count. induction l as [|id l IH]; intros count Hle; simpl.
  - rewrite filter_nil. unfold len. simpl. symmetry. apply Z.ltb_ge. lia.
  - destruct (contains id) eqn:Hc.
    + rewrite filter_cons_True //. unfold len in *. simpl.
      destruct (Z.ltb_spec limit (count + 2)).
      * symmetry. apply Z.ltb_lt. lia.
      * rewrite IH; [lia|]. f_equal. lia.
    + rewrite filter_cons_False; [by rewrite Hc|]. by apply IH.
Qed.

(** What a quorum of voters [members] is: a majority. *)
Definition majority (members : gset Z) (l : list Z) : Prop :=
  (size members < 2 * length (filter (λ id, id ∈ members) l))%nat.

Lemma filter_bool_decide (P : Z → Prop) `{∀ x, Decision (P x)} (l : list Z) :
  filter (λ id, bool_decide (P id) = true) l = filter P l.
Proof. apply list_filter_iff. intros x. apply bool_decide_eq_true. Qed.

Lemma vec_is_quorum_majority (v l : list Z) :
  NoDup v → is_quorum v l = true ↔ majority (list_to_set v) l.
Proof.
  intros Hnd. unfold is_quorum, vec_quorum, majority.
  rewrite quorum_loop_spec; [apply len_nonneg|].
  rewrite filter_bool_decide Z.ltb_lt size_list_to_set //. unfold len.
  rewrite (list_filter_iff (λ id, id ∈ (list_to_set v : gset Z)) (λ id, id ∈ v)); [set_solver|]. lia.
Qed.

Lemma set_is_quorum_majority (s : gset Z) (l : list Z) :
  is_quorum s l = true ↔ majority s l.
Proof.
  unfold is_quorum, set_quorum, majority.
  rewrite quorum_loop_spec; [lia|]. rewrite filter_bool_decide Z.ltb_lt. unfold len. lia.
Qed.

(** Two majorities of the same set share a member: the sizes do not fit otherwise. *)
Lemma majorities_meet members l1 l2 :
  NoDup l1 → NoDup l2 → majority members l1 → majority members l2 →
  ∃ x, x ∈ l1 ∧ x ∈ l2 ∧ x ∈ members.
Proof.
  unfold majority. intros Hn1 Hn2 M1 M2.
  set (A := list_to_set (filter (λ id, id ∈ members) l1) : gset Z).
  set (B := list_to_set (filter (λ id, id ∈ members) l2) : gset Z).
  assert (size A = length (filter (λ id, id ∈ members) l1)) as HA
    by (apply size_list_to_set, NoDup_filter, Hn1).
  assert (size B = length (filter (λ id, id ∈ members) l2)) as HB
    by (apply size_list_to_set, NoDup_filter, Hn2).
  assert (∀ x, x ∈ A ↔ x ∈ members ∧ x ∈ l1) as EA
    by (intros x; unfold A; by rewrite elem_of_list_to_set list_elem_of_filter).
  assert (∀ x, x ∈ B ↔ x ∈ members ∧ x ∈ l2) as EB
    by (intros x; unfold B; by rewrite elem_of_list_to_set list_elem_of_filter).
  destruct (decide (A ∩ B = ∅)) as [He|Hne].
  - assert (A ∪ B ⊆ members) as HU by (intros x; rewrite elem_of_union EA EB; tauto).
    apply subseteq_size in HU. rewrite size_union in HU; [set_solver|]. lia.
  - apply set_choose_L in Hne as [x Hx]. exists x. rewrite elem_of_intersection EA EB in Hx. tauto.
Qed.

(** * Quorum sets whose quorums meet *)

(** The law of a quorum set: two quorums without repetitions share a node. *)
Definition quorums_meet {QS} `{QuorumSet QS} (a b : QS) : Prop :=
  ∀ l1 l2, NoDup l1 → NoDup l2 → is_quorum a l1 = true → is_quorum b l2 = true → ∃ x, x ∈ l1 ∧ x ∈ l2.

Lemma vec_quorums_meet (v : list Z) : NoDup v → quorums_meet v v.
Proof.
  intros Hv l1 l2 Hn1 Hn2 Hq1 Hq2. apply vec_is_quorum_majority in Hq1, Hq2; [|done..].
  destruct (majorities_meet _ l1 l2 Hn1 Hn2 Hq1 Hq2) as (x & ? & ? & _). by exists x.
Qed.

Lemma set_quorums_meet (s : gset Z) : quorums_meet s s.
Proof.
  intros l1 l2 Hn1 Hn2 Hq1%set_is_quorum_majority Hq2%set_is_quorum_majority.
  destruct (majorities_meet _ l1 l2 Hn1 Hn2 Hq1 Hq2) as (x & ? & ? & _). by exists x.
Qed.

Section JointMeet.
Context {QS : Type} `{QuorumSet QS} `{EqDecision QS}.

Lemma joint_is_quorum_child (j : Joint QS) c l : is_quorum j l = true → c ∈ children j → is_quorum c l = true.
Proof.
  unfold is_quorum at 1, joint_quorum. rewrite forallb_forall. intros Hall Hc.
  apply Hall. by rewrite -list_elem_of_In.
Qed.

Lemma joint_meet_at (a b : Joint QS) c :
  c ∈ children a → c ∈ children b → quorums_meet c c → quorums_meet a b.
Proof.
  intros Ha Hb Hc l1 l2 Hn1 Hn2 Hq1 Hq2.
  apply (Hc l1 l2); eauto using joint_is_quorum_child.
Qed.

Lemma joint_is_coherent_spec (a b : Joint QS) :
  joint_is_coherent_with a b = true ↔ ∃ c, c ∈ children a ∧ c ∈ children b.
Proof.
  unfold joint_is_coherent_with. rewrite existsb_exists. setoid_rewrite existsb_exists.
  setoid_rewrite bool_decide_eq_true. setoid_rewrite <- list_elem_of_In. naive_solver.
Qed.

Lemma is_coherent_spec (a : Joint QS) c : is_coherent_with a c = true ↔ c ∈ children a.
Proof.
  unfold is_coherent_with. rewrite existsb_exists.
  setoid_rewrite bool_decide_eq_true. setoid_rewrite <- list_elem_of_In. naive_solver.
Qed.

(** What [find_coherent] finds contains the goal and is coherent with where it started. *)
Lemma find_coherent_goal (a : Joint QS) goal : last (children (find_coherent a goal)) = Some goal.
Proof. unfold find_coherent. destruct (is_coherent_with _ _); [done|]. by destruct (last (children a)). Qed.

Lemma find_coherent_coherent (a : Joint QS) goal :
  children a ≠ [] → joint_is_coherent_with a (find_coherent a goal) = true.
Proof.
  intros Hne. apply joint_is_coherent_spec. unfold find_coherent.
  destruct (is_coherent_with a goal) eqn:Hc.
  - apply is_coherent_spec in Hc. exists goal. set_solver.
  - destruct (last (children a)) as [c|] eqn:Hl; [|by apply last_None in Hl].
    exists c. split; [|set_solver]. by apply last_Some_elem_of.
Qed.

(** The second step of a change ends in the goal alone. *)
Lemma find_coherent_twice (a : Joint QS) goal :
  find_coherent (find_coherent a goal) goal = MkJoint [goal].
Proof.
  assert (is_coherent_with (find_coherent a goal) goal = true) as Hc
    by (apply is_coherent_spec, last_Some_elem_of, find_coherent_goal).
  unfold find_coherent at 1. by rewrite Hc.
Qed.

End JointMeet.
