(* ===== verification/RaftMembership.v ===== *)
(** Membership of a Raft group: [membership/], [change_members.rs] and
    [raft_state/membership_state/] of [src/octopii/openraft/openraft/src/].

    A [Membership] is a joint configuration of voters with the nodes that are known, learners
    included. A change goes through a configuration that is coherent with the present one, and
    only from a configuration that is committed: so the quorums of the committed and of the
    effective configuration always meet. Nodes and ids are those of octopii's type
    configuration ([BasicNode], [u64]). *)

From stdpp Require Import sorting strings.
From S2P Require Import Prelude LogStore RaftQuorum.

#[local] Open Scope Z_scope.

#[export] Instance leader_id_eq_dec : EqDecision LeaderId. Proof. solve_decision. Defined.
#[export] Instance log_id_eq_dec : EqDecision LogId. Proof. solve_decision. Defined.

(** [LogIndexOptionExt] and [LogIdOptionExt]: the index of an optional id, and the next one. *)
Definition opt_index (o : option LogId) : option Z := index <$> o.
Definition next_index (o : option LogId) : Z := match o with Some l => index l + 1 | None => 0 end.

(** * Memberships *)

Record BasicNode := MkBasicNode { addr : string }.
#[export] Instance basic_node_eq_dec : EqDecision BasicNode. Proof. solve_decision. Defined.

Record Membership := MkMembership { configs : list (gset Z); nodes : gmap Z BasicNode }.
#[export] Instance membership_eq_dec : EqDecision Membership. Proof. solve_decision. Defined.

Definition default_membership : Membership := MkMembership [] ∅.

(** The errors [EmptyMembership] and [NodeNotFound], and those of a change. *)
Inductive MembershipError := EmptyMembership | NodeNotFound (node : Z).
Inductive ChangeMembershipError :=
  | InProgress (committed membership_log_id : option LogId)
  | ChangeEmptyMembership
  | LearnerNotFound (node : Z).

Definition change_error (e : MembershipError) : ChangeMembershipError :=
  match e with EmptyMembership => ChangeEmptyMembership | NodeNotFound n => LearnerNotFound n end.

#[warnings="-register-all"]
Inductive ChangeMembers :=
  | AddVoterIds (l : gset Z)
  | AddVoters (m : gmap Z BasicNode)
  | RemoveVoters (l : gset Z)
  | ReplaceAllVoters (l : gset Z)
  | AddNodes (m : gmap Z BasicNode)
  | SetNodes (m : gmap Z BasicNode)
  | RemoveNodes (l : gset Z)
  | ReplaceAllNodes (m : gmap Z BasicNode)
  | BatchChange (l : list ChangeMembers).

Definition get_joint_config (m : Membership) : list (gset Z) := configs m.
Definition get_node (m : Membership) (id : Z) : option BasicNode := nodes m !! id.
Definition voter_ids (m : Membership) : list Z := ids (MkJoint (configs m)).
Definition is_voter (m : Membership) (id : Z) : bool := existsb (λ c, bool_decide (id ∈ c)) (configs m).
Definition mem_contains (m : Membership) (id : Z) : bool := bool_decide (is_Some (nodes m !! id)).
Definition learner_ids (m : Membership) : list Z :=
  filter (λ id, is_voter m id = false) (btree_keys (nodes m)).

(** Entries of [old] are kept where both have one. *)
Definition extend_nodes (old new : gmap Z BasicNode) : gmap Z BasicNode :=
  foldl (λ res kv, match res !! kv.1 with Some _ => res | None => <[kv.1 := kv.2]> res end)
    old (map_to_list new).

Definition ensure_non_empty_config (m : Membership) : Result unit MembershipError :=
  if existsb (λ c, bool_decide (c = ∅)) (get_joint_config m) then Failed EmptyMembership else Okay tt.

(** The first voter, in the order of ids, that has no node. *)
Definition ensure_voter_nodes (m : Membership) : Result unit Z :=
  match find (λ id, negb (mem_contains m id)) (voter_ids m) with
  | Some id => Failed id
  | None => Okay tt
  end.

Definition ensure_valid (m : Membership) : Result unit MembershipError :=
  match ensure_non_empty_config m with
  | Failed e => Failed e
  | Okay _ => match ensure_voter_nodes m with Failed id => Failed (NodeNotFound id) | Okay _ => Okay tt end
  end.

Definition membership_new (config : list (gset Z)) (ns : gmap Z BasicNode) : Result Membership MembershipError :=
  let m := MkMembership config ns in
  match ensure_valid m with Failed e => Failed e | Okay _ => Okay m end.

Definition remove_nodes (l : list Z) (ns : gmap Z BasicNode) : gmap Z BasicNode := foldl (λ acc id, delete id acc) ns l.

Definition next_coherent (m : Membership) (goal : gset Z) (retain : bool) : Membership :=
  let config := children (find_coherent (MkJoint (configs m)) goal) in
  let ns :=
    if retain then nodes m
    else
      let old_voter_ids : gset Z := list_to_set (ids (MkJoint (configs m))) in
      let new_voter_ids : gset Z := list_to_set (ids (MkJoint config)) in
      remove_nodes (btree_iter (old_voter_ids ∖ new_voter_ids)) (nodes m) in
  MkMembership config ns.

Definition last_config (m : Membership) : gset Z := default ∅ (last (get_joint_config m)).

Fixpoint compute_target_membership (change : ChangeMembers) (m : Membership) : Membership :=
  match change with
  | AddVoterIds l => MkMembership [last_config m ∪ l] (nodes m)
  | AddVoters vs => MkMembership [last_config m ∪ dom vs] (extend_nodes (nodes m) vs)
  | RemoveVoters l => MkMembership [last_config m ∖ l] (nodes m)
  | ReplaceAllVoters l => MkMembership [l] (nodes m)
  | AddNodes ns => MkMembership (configs m) (extend_nodes (nodes m) ns)
  | SetNodes ns => MkMembership (configs m) (foldl (λ acc kv, <[kv.1 := kv.2]> acc) (nodes m) (map_to_list ns))
  | RemoveNodes l => MkMembership (configs m) (remove_nodes (btree_iter l) (nodes m))
  | ReplaceAllNodes ns => MkMembership (configs m) ns
  | BatchChange l => fold_left (λ acc c, compute_target_membership c acc) l m
  end.

Definition change (self : Membership) (ch : ChangeMembers) (retain : bool)
    : Result Membership ChangeMembershipError :=
  let target := compute_target_membership ch self in
  match last (configs target) with
  | None => Failed ChangeEmptyMembership
  | Some target_voter_ids =>
      let new_membership := next_coherent (MkMembership (configs self) (nodes target)) target_voter_ids retain in
      match ensure_valid new_membership with
      | Failed e => Failed (change_error e)
      | Okay _ => Okay new_membership
      end
  end.

Definition to_quorum_set (m : Membership) : Joint (list Z) := MkJoint (map btree_iter (get_joint_config m)).

(** * Stored and effective memberships *)

Record StoredMembership := MkStored { stored_log_id : option LogId; stored_m : Membership }.
#[export] Instance stored_membership_eq_dec : EqDecision StoredMembership. Proof. solve_decision. Defined.
Definition default_stored : StoredMembership := MkStored None default_membership.

Record EffectiveMembership := MkEffective {
  stored_membership : StoredMembership;
  quorum_set : Joint (list Z);
  em_voter_ids : gset Z
}.

Definition em_new (lid : option LogId) (m : Membership) : EffectiveMembership :=
  MkEffective (MkStored lid m) (MkJoint (map btree_iter (get_joint_config m))) (list_to_set (voter_ids m)).
Definition new_from_stored_membership (s : StoredMembership) : EffectiveMembership :=
  em_new (stored_log_id s) (stored_m s).
Definition em_log_id (e : EffectiveMembership) : option LogId := stored_log_id (stored_membership e).
Definition em_membership (e : EffectiveMembership) : Membership := stored_m (stored_membership e).

(** * The committed and the effective membership of a node *)

(** The order of [Option<LogId>], as a test. *)
Definition opt_log_id_lt (a b : option LogId) : bool := negb (opt_log_id_le b a).

(** [Option<u64>]: [None] is below everything. *)
Definition opt_z_le (a b : option Z) : bool :=
  match a, b with None, _ => true | Some _, None => false | Some x, Some y => x <=? y end.

Record MembershipState := MkMembershipState {
  ms_committed : EffectiveMembership;
  ms_effective : EffectiveMembership
}.

Definition default_membership_state : MembershipState :=
  MkMembershipState (new_from_stored_membership default_stored) (new_from_stored_membership default_stored).

Definition ms_contains (s : MembershipState) (id : Z) : bool := mem_contains (em_membership (ms_effective s)) id.
Definition ms_is_voter (s : MembershipState) (id : Z) : bool := is_voter (em_membership (ms_effective s)) id.

Definition ms_commit (committed_log_id : option LogId) (s : MembershipState) : MembershipState :=
  if opt_log_id_le (em_log_id (ms_effective s)) committed_log_id
  then MkMembershipState (ms_effective s) (ms_effective s) else s.

(** The flag says whether the effective membership changed. *)
Definition ms_update_committed (c : EffectiveMembership) (s : MembershipState) : MembershipState * bool :=
  let '(effective, changed) :=
    if opt_z_le (opt_index (em_log_id (ms_effective s))) (opt_index (em_log_id c))
    then (c, bool_decide (em_membership c ≠ em_membership (ms_effective s)))
    else (ms_effective s, false) in
  let committed := if opt_log_id_lt (em_log_id (ms_committed s)) (em_log_id c) then c else ms_committed s in
  (MkMembershipState committed effective, changed).

(** At most one membership is uncommitted: the former effective one becomes the committed one. *)
Definition ms_append (m : EffectiveMembership) (s : MembershipState) : MembershipState :=
  MkMembershipState (ms_effective s) m.

Definition ms_truncate (since : Z) (s : MembershipState) : MembershipState * bool :=
  if opt_z_le (Some since) (opt_index (em_log_id (ms_effective s)))
  then (MkMembershipState (ms_committed s) (ms_committed s), true) else (s, false).

(** [ChangeHandler::ensure_committed] and [ChangeHandler::apply]. *)
Definition ensure_committed (s : MembershipState) : Result unit ChangeMembershipError :=
  if bool_decide (em_log_id (ms_effective s) = em_log_id (ms_committed s)) then Okay tt
  else Failed (InProgress (em_log_id (ms_committed s)) (em_log_id (ms_effective s))).

Definition change_apply (s : MembershipState) (ch : ChangeMembers) (retain : bool)
    : Result Membership ChangeMembershipError :=
  match ensure_committed s with
  | Failed e => Failed e
  | Okay _ => change (em_membership (ms_effective s)) ch retain
  end.

(** * Orders *)

Lemma leader_id_cmp_spec a b :
  CompareSpec (a = b) (term a < term b ∨ term a = term b ∧ node_id a < node_id b)
    (term b < term a ∨ term a = term b ∧ node_id b < node_id a) (leader_id_cmp a b).
Proof.
  unfold leader_id_cmp. destruct a as [t1 n1], b as [t2 n2]; simpl.
  destruct (Z.compare_spec t1 t2); [destruct (Z.compare_spec n1 n2)|..]; constructor; subst; auto.
Qed.

Definition leader_id_lt (a b : LeaderId) : Prop := term a < term b ∨ term a = term b ∧ node_id a < node_id b.

Definition log_id_lt (a b : LogId) : Prop :=
  leader_id_lt (leader_id a) (leader_id b) ∨ leader_id a = leader_id b ∧ index a < index b.

Lemma log_id_cmp_spec a b : CompareSpec (a = b) (log_id_lt a b) (log_id_lt b a) (log_id_cmp a b).
Proof.
  unfold log_id_cmp, log_id_lt, leader_id_lt. destruct a as [l1 i1], b as [l2 i2]; simpl.
  destruct (leader_id_cmp_spec l1 l2); [destruct (Z.compare_spec i1 i2)|..]; constructor; subst; naive_solver.
Qed.

Lemma leader_id_lt_trans a b c : leader_id_lt a b → leader_id_lt b c → leader_id_lt a c.
Proof. unfold leader_id_lt. lia. Qed.

Lemma leader_id_lt_irrefl a : ¬ leader_id_lt a a.
Proof. unfold leader_id_lt. lia. Qed.

Lemma log_id_lt_trans a b c : log_id_lt a b → log_id_lt b c → log_id_lt a c.
Proof.
  unfold log_id_lt. intros [?|[-> ?]] [?|[<- ?]]; eauto using leader_id_lt_trans. right. split; [done|lia].
Qed.

Lemma log_id_lt_irrefl a : ¬ log_id_lt a a.
Proof. unfold log_id_lt. intros [?%leader_id_lt_irrefl|[_ ?]]; [done|lia]. Qed.

(** The tests agree with the orders. *)
Definition opt_le (a b : option LogId) : Prop :=
  match a, b with None, _ => True | Some _, None => False | Some a, Some b => a = b ∨ log_id_lt a b end.

Lemma opt_log_id_le_spec a b : opt_log_id_le a b = true ↔ opt_le a b.
Proof.
  destruct a as [a|], b as [b|]; simpl; try done. destruct (log_id_cmp_spec a b) as [->|Hlt|Hgt].
  - naive_solver.
  - naive_solver.
  - split; [done|]. intros [->|Hlt]; [by apply log_id_lt_irrefl in Hgt|].
    by destruct (log_id_lt_irrefl a); eapply log_id_lt_trans.
Qed.

Lemma opt_le_refl a : opt_le a a.
Proof. destruct a; simpl; auto. Qed.

Lemma opt_le_trans a b c : opt_le a b → opt_le b c → opt_le a c.
Proof.
  destruct a as [a|], b as [b|], c as [c|]; simpl; try done. naive_solver eauto using log_id_lt_trans.
Qed.

Lemma opt_le_total a b : opt_le a b ∨ opt_le b a.
Proof. destruct a as [a|], b as [b|]; simpl; auto. destruct (log_id_cmp_spec a b) as [->|?|?]; auto. Qed.

Lemma opt_le_antisym a b : opt_le a b → opt_le b a → a = b.
Proof.
  destruct a as [a|], b as [b|]; simpl; try done. intros [->|?] [Heq|?]; try congruence.
  by destruct (log_id_lt_irrefl a); eapply log_id_lt_trans.
Qed.

Lemma opt_log_id_lt_spec a b : opt_log_id_lt a b = true ↔ ¬ opt_le b a.
Proof.
  unfold opt_log_id_lt. pose proof (opt_log_id_le_spec b a) as Hspec.
  destruct (opt_log_id_le b a); naive_solver.
Qed.

Create HintDb raft discriminated.
#[export] Hint Resolve opt_le_refl : raft.

(** * The nodes of a membership *)

Lemma elem_of_btree_keys {V} (m : gmap Z V) id : id ∈ btree_keys m ↔ is_Some (m !! id).
Proof.
  unfold btree_keys. rewrite merge_sort_Permutation list_elem_of_fmap. split.
  - intros ([k v] & -> & Hkv%elem_of_map_to_list). by exists v.
  - intros [v Hv]. exists (id, v). split; [done|]. by apply elem_of_map_to_list.
Qed.

Lemma foldl_union_elem (l : list (gset Z)) (acc : gset Z) x :
  x ∈ foldl (λ acc c, acc ∪ list_to_set (btree_iter c)) acc l ↔ x ∈ acc ∨ ∃ c, c ∈ l ∧ x ∈ c.
Proof.
  revert acc. induction l as [|c l IH]; intros acc; simpl; [set_solver|].
  rewrite IH elem_of_union elem_of_list_to_set elem_of_btree_iter. set_solver.
Qed.

Lemma elem_of_voter_ids m id : id ∈ voter_ids m ↔ is_voter m id = true.
Proof.
  unfold voter_ids, is_voter, ids, joint_quorum. rewrite elem_of_btree_iter.
  unfold ids, set_quorum. rewrite foldl_union_elem existsb_exists.
  setoid_rewrite bool_decide_eq_true. setoid_rewrite <- list_elem_of_In. set_solver.
Qed.

(** [ensure_valid] accepts the memberships with voters in every configuration and a node for each voter. *)
Definition valid_membership (m : Membership) : Prop :=
  Forall (λ c, c ≠ ∅) (configs m) ∧ ∀ id, is_voter m id = true → is_Some (nodes m !! id).

Lemma ensure_valid_spec m : ensure_valid m = Okay tt ↔ valid_membership m.
Proof.
  unfold ensure_valid, ensure_non_empty_config, ensure_voter_nodes, valid_membership.
  destruct (existsb _ _) eqn:He.
  - apply existsb_exists in He as (c & Hin & ->%bool_decide_eq_true).
    split; [done|]. intros [Hall _]. rewrite Forall_forall in Hall.
    apply list_elem_of_In in Hin. by destruct (Hall _ Hin).
  - assert (Forall (λ c, c ≠ ∅) (configs m)) as Hall.
    { apply Forall_forall. intros c Hc ->. apply not_true_iff_false in He. apply He.
      apply existsb_exists. exists ∅. split; [by apply list_elem_of_In|by apply bool_decide_eq_true]. }
    destruct (find _ _) as [id|] eqn:Hf.
    + apply find_some in Hf as [Hin Hneg]. split; [done|]. intros [_ Hv].
      apply list_elem_of_In, elem_of_voter_ids, Hv in Hin.
      unfold mem_contains in Hneg. by rewrite bool_decide_true in Hneg.
    + split; [intros _|done]. split; [done|]. intros id Hid%elem_of_voter_ids%list_elem_of_In.
      apply (find_none _ _ Hf), negb_false_iff in Hid. by apply bool_decide_eq_true in Hid.
Qed.

(** * Changes *)

Lemma to_quorum_set_coherent m1 m2 :
  joint_is_coherent_with (MkJoint (configs m1)) (MkJoint (configs m2)) = true →
  quorums_meet (to_quorum_set m1) (to_quorum_set m2).
Proof.
  intros (c & Hc1 & Hc2)%joint_is_coherent_spec. simpl in *.
  apply (joint_meet_at _ _ (btree_iter c)).
  - unfold to_quorum_set, get_joint_config. simpl. apply list_elem_of_fmap. by exists c.
  - unfold to_quorum_set, get_joint_config. simpl. apply list_elem_of_fmap. by exists c.
  - apply vec_quorums_meet, NoDup_btree_iter.
Qed.

(** A change that is accepted: where it leads, and that the result is valid. *)
Lemma change_inv m ch retain m' :
  change m ch retain = Okay m' →
  ∃ goal, last (configs (compute_target_membership ch m)) = Some goal
    ∧ MkJoint (configs m') = find_coherent (MkJoint (configs m)) goal ∧ valid_membership m'.
Proof.
  unfold change. destruct (last _) as [goal|] eqn:Hl; [|done].
  set (n := next_coherent _ goal retain). destruct (ensure_valid n) eqn:Hv; [|done].
  intros [= <-]. exists goal. split; [done|]. split.
  - unfold n, next_coherent. simpl. by destruct (find_coherent _ _).
  - apply ensure_valid_spec. rewrite Hv. by destruct a.
Qed.

Lemma change_coherent m ch retain m' :
  configs m ≠ [] → change m ch retain = Okay m' →
  joint_is_coherent_with (MkJoint (configs m)) (MkJoint (configs m')) = true ∧ configs m' ≠ [].
Proof.
  intros Hne (goal & Hl & Hc & _)%change_inv.
  rewrite Hc. split; [by apply find_coherent_coherent|].
  intros He. pose proof (find_coherent_goal (MkJoint (configs m)) goal) as Hg.
  by rewrite -Hc He in Hg.
Qed.

(** * The two steps of a membership change *)

Section Change.
Context {Fatal : Type}.

(** [ClientWriteError]; a refusal names the leader if it is known. *)
Inductive ClientWriteError :=
  | WriteForwardToLeader (f : option (Z * BasicNode))
  | WriteChangeMembership (e : ChangeMembershipError).

(** What becomes of the entry of a change at the core of this node: it is committed and applied at an id; the node does not
    lead, or hands over; a later leader's entries take its place; the core stops, before the request is handled, or with
    the entry in the log, which may be committed by then. *)
Inductive StepFate :=
  | StepCommitted (lid : LogId)
  | StepForwarded (f : option (Z * BasicNode))
  | StepReplaced (lid : LogId) (f : option (Z * BasicNode))
  | StepStopped (e : Fatal) (reached : option (LogId * bool)).

Abbreviation ChangeResult := (Result (Result (LogId * Membership) ClientWriteError) Fatal).

(** One request to the core ([RaftMsg::ChangeMembership]): the change is checked, its entry is written, and the caller hears
    of it when it is applied, when it is removed, or when the core has stopped. *)
Definition change_step (ch : ChangeMembers) (retain : bool) (fate : StepFate) (s : MembershipState) : ChangeResult * MembershipState :=
  match fate, change_apply s ch retain with
  | StepStopped e None, _ => (Failed e, s)
  | _, Failed e => (Okay (Failed (WriteChangeMembership e)), s)
  | StepCommitted lid, Okay m => (Okay (Okay (lid, m)), ms_commit (Some lid) (ms_append (em_new (Some lid) m) s))
  | StepForwarded f, Okay _ => (Okay (Failed (WriteForwardToLeader f)), s)
  | StepReplaced lid f, Okay m =>
      (Okay (Failed (WriteForwardToLeader f)), fst (ms_truncate (index lid) (ms_append (em_new (Some lid) m) s)))
  | StepStopped e (Some (lid, committed)), Okay m =>
      let s1 := ms_append (em_new (Some lid) m) s in
      (Failed e, if committed then ms_commit (Some lid) s1 else s1)
  end.

(** [ManagementApi::change_membership]: a second, empty change flattens a joint configuration. *)
Definition change_membership (ch : ChangeMembers) (retain : bool) (fate1 fate2 : StepFate) (s : MembershipState)
    : ChangeResult * MembershipState :=
  match change_step ch retain fate1 s with
  | (Okay (Okay (lid, joint)), s1) =>
      if bool_decide (length (get_joint_config joint) = 1%nat) then (Okay (Okay (lid, joint)), s1)
      else change_step (AddVoterIds ∅) retain fate2 s1
  | (r, s1) => (r, s1)
  end.

Lemma ms_commit_append lid m s :
  ms_commit (Some lid) (ms_append (em_new (Some lid) m) s) = MkMembershipState (em_new (Some lid) m) (em_new (Some lid) m).
Proof.
  unfold ms_commit, ms_append. simpl. unfold em_log_id. simpl.
  assert (opt_log_id_le (Some lid) (Some lid) = true) as Hle by (apply opt_log_id_le_spec; auto with raft).
  simpl in Hle. by rewrite Hle.
Qed.

Lemma next_coherent_goal_valid m goal retain :
  last (configs m) = Some goal → valid_membership m → valid_membership (next_coherent m goal retain).
Proof.
  intros Hl [Hne Hv]. unfold next_coherent.
  assert (find_coherent (MkJoint (configs m)) goal = MkJoint [goal]) as Hf.
  { unfold find_coherent. rewrite (proj2 (is_coherent_spec _ _)) //. by apply last_Some_elem_of. }
  rewrite Hf. simpl. split; simpl.
  - constructor; [|done]. rewrite Forall_forall in Hne. by apply Hne, last_Some_elem_of.
  - intros id Hid.
    assert (id ∈ goal) as Hg by (unfold is_voter in Hid; simpl in Hid; rewrite orb_false_r bool_decide_eq_true in Hid; done).
    assert (is_Some (nodes m !! id)) as Hs.
    { apply Hv. unfold is_voter. apply existsb_exists. exists goal.
      split; [by apply list_elem_of_In, last_Some_elem_of|by apply bool_decide_eq_true]. }
    destruct retain; [done|]. unfold remove_nodes.
    set (l := btree_iter _).
    assert (id ∉ l) as Hl'.
    { unfold l. rewrite elem_of_btree_iter. intros [_ Hn]%elem_of_difference. apply Hn.
      apply elem_of_list_to_set, (elem_of_voter_ids (MkMembership [goal] ∅)).
      unfold is_voter. simpl. by rewrite bool_decide_true. }
    clearbody l. clear -Hs Hl'. revert Hs. generalize (nodes m).
    induction l as [|x l IH]; intros ns Hs; simpl; [done|].
    apply IH; [set_solver|]. rewrite lookup_delete_ne; set_solver.
Qed.

Lemma add_no_voters_last m c : last (configs m) = Some c →
  compute_target_membership (AddVoterIds ∅) m = MkMembership [c] (nodes m).
Proof. intros Hl. simpl. unfold last_config, get_joint_config. rewrite Hl. simpl. by rewrite union_empty_r_L. Qed.

(** The second step cannot fail after the first, and ends in the goal alone. *)
Lemma flatten_ok m goal retain :
  last (configs m) = Some goal → valid_membership m →
  ∃ m', change m (AddVoterIds ∅) retain = Okay m' ∧ configs m' = [goal] ∧ valid_membership m'.
Proof.
  intros Hl Hv. unfold change. rewrite (add_no_voters_last _ _ Hl). simpl.
  pose proof (next_coherent_goal_valid m goal retain Hl Hv) as Hv'.
  replace (MkMembership (configs m) (nodes m)) with m by (by destruct m).
  rewrite (proj2 (ensure_valid_spec _) Hv'). eexists. split; [done|]. split; [|done].
  unfold next_coherent. simpl. unfold find_coherent.
  by rewrite (proj2 (is_coherent_spec (MkJoint (configs m)) goal) (last_Some_elem_of _ _ Hl)).
Qed.

(** ** What a change comes to *)

Lemma ms_truncate_append lid m s :
  fst (ms_truncate (index lid) (ms_append (em_new (Some lid) m) s)) = MkMembershipState (ms_effective s) (ms_effective s).
Proof. unfold ms_truncate. simpl. by rewrite Z.leb_refl. Qed.

Abbreviation effective_m s := (em_membership (ms_effective s)).

(** The change leads from [old] to [m] in one step. *)
Definition steps_to (old m : Membership) (goal : gset Z) : Prop :=
  last (configs m) = Some goal ∧ valid_membership m ∧ quorums_meet (to_quorum_set old) (to_quorum_set m).

Lemma change_apply_steps s ch retain m :
  configs (effective_m s) ≠ [] → change_apply s ch retain = Okay m →
  ∃ goal, last (configs (compute_target_membership ch (effective_m s))) = Some goal ∧ steps_to (effective_m s) m goal.
Proof.
  intros Hne Hc. unfold change_apply in Hc. destruct (ensure_committed s); [|done].
  destruct (change_coherent _ _ _ _ Hne Hc) as [Hco _]. destruct (change_inv _ _ _ _ Hc) as (goal & Hl & Hf & Hv).
  exists goal. split; [done|]. split_and!; [|done|by apply to_quorum_set_coherent].
  pose proof (find_coherent_goal (MkJoint (configs (effective_m s))) goal) as Hg. by rewrite -Hf in Hg.
Qed.

(** The flattening is never refused. *)
Lemma flatten_apply lid m goal retain :
  last (configs m) = Some goal → valid_membership m →
  ∃ m', change_apply (MkMembershipState (em_new (Some lid) m) (em_new (Some lid) m)) (AddVoterIds ∅) retain = Okay m'
    ∧ configs m' = [goal] ∧ steps_to m m' goal.
Proof.
  intros Hl Hv. destruct (flatten_ok m goal retain Hl Hv) as (m' & Hch & Hcf & Hv'). exists m'.
  unfold change_apply, ensure_committed. rewrite bool_decide_true //. split; [done|]. split; [done|].
  split_and!; [by rewrite Hcf|done|]. apply to_quorum_set_coherent, joint_is_coherent_spec. exists goal.
  split; [by apply last_Some_elem_of|]. rewrite Hcf. set_solver.
Qed.

(** The membership that a step leaves in force. *)
Lemma change_step_result ch retain fate s r s' :
  change_step ch retain fate s = (r, s') →
  match r with
  | Okay (Okay (lid, m)) => fate = StepCommitted lid ∧ change_apply s ch retain = Okay m ∧ s' = MkMembershipState (em_new (Some lid) m) (em_new (Some lid) m)
  | Okay (Failed (WriteChangeMembership e)) => change_apply s ch retain = Failed e ∧ s' = s
  | Okay (Failed (WriteForwardToLeader _)) => s' = s ∨ s' = MkMembershipState (ms_effective s) (ms_effective s)
  | Failed _ => s' = s ∨ ∃ lid m, change_apply s ch retain = Okay m ∧ ms_effective s' = em_new (Some lid) m
  end.
Proof.
  unfold change_step. destruct fate as [lid|f|lid f|e [[lid c]|]]; [..|by intros [= <- <-]; left].
  all: destruct (change_apply s ch retain) as [m|err] eqn:Hc; intros [= <- <-]; try done.
  - by rewrite ms_commit_append.
  - by left.
  - right. by rewrite ms_truncate_append.
  - right. exists lid, m. split; [done|]. destruct c; [by rewrite ms_commit_append|done].
Qed.

(** C14: what a membership change comes to, whatever happens to its two entries, while no other change runs. When the caller
    is told that it succeeded, the voters are those it asked for, in one valid configuration, effective and committed,
    reached in steps that each keep a quorum in common; it is refused for what it asks only at the first step, and then
    nothing has changed; when leadership is lost or the core stops, the effective membership is the old one,
    the joint one or the new one. It succeeds if its change is valid and its entries are committed. *)
Theorem change_membership_outcomes ch retain fate1 fate2 s r s' :
  configs (effective_m s) ≠ [] → change_membership ch retain fate1 fate2 s = (r, s') →
  match r with
  | Okay (Okay (lid, m)) => ∃ joint goal,
      last (configs (compute_target_membership ch (effective_m s))) = Some goal ∧ configs m = [goal] ∧ valid_membership m
      ∧ s' = MkMembershipState (em_new (Some lid) m) (em_new (Some lid) m)
      ∧ quorums_meet (to_quorum_set (effective_m s)) (to_quorum_set joint) ∧ quorums_meet (to_quorum_set joint) (to_quorum_set m)
  | Okay (Failed (WriteChangeMembership e)) => change_apply s ch retain = Failed e ∧ s' = s
  | Okay (Failed (WriteForwardToLeader _)) => ms_effective s' = ms_effective s
      ∨ ∃ goal, last (configs (compute_target_membership ch (effective_m s))) = Some goal
          ∧ steps_to (effective_m s) (effective_m s') goal ∧ length (configs (effective_m s')) ≠ 1%nat
          ∧ ms_committed s' = ms_effective s'
  | Failed _ => ms_effective s' = ms_effective s
      ∨ ∃ goal, last (configs (compute_target_membership ch (effective_m s))) = Some goal
          ∧ (steps_to (effective_m s) (effective_m s') goal
             ∨ ∃ joint, steps_to (effective_m s) joint goal ∧ steps_to joint (effective_m s') goal ∧ configs (effective_m s') = [goal])
  end
  ∧ (∀ m lid1 lid2, change_apply s ch retain = Okay m → fate1 = StepCommitted lid1 → fate2 = StepCommitted lid2 → ∃ x, r = Okay (Okay x)).
Proof.
  intros Hne. unfold change_membership. destruct (change_step ch retain fate1 s) as [r1 s1] eqn:H1.
  pose proof (change_step_result _ _ _ _ _ _ H1) as Hr1. destruct r1 as [[[lid joint]|[f|e]]|e].
  2: { intros [= <- <-]. split; [left; by destruct Hr1 as [-> | ->]|]. intros m lid1 lid2 Ha -> _. unfold change_step in H1. by rewrite Ha in H1. }
  2: { intros [= <- <-]. split; [done|]. intros m lid1 lid2 Ha. destruct Hr1 as [Hf _]. congruence. }
  2: { intros [= <- <-]. split.
       - destruct Hr1 as [->|(lid & m & Ha & He)]; [by left|right]. destruct (change_apply_steps s ch retain m Hne Ha) as (goal & Hl & Hs).
         exists goal. split; [done|]. left. by rewrite He.
       - intros m lid1 lid2 Ha -> _. unfold change_step in H1. by rewrite Ha in H1. }
  destruct Hr1 as (-> & Ha & ->). destruct (change_apply_steps s ch retain joint Hne Ha) as (goal & Hl & Hs). pose proof Hs as (Hlj & Hvj & Hqj).
  case_bool_decide as Hlen.
  { intros [= <- <-]. split; [|eauto]. exists joint, goal. split_and!; try done.
    - unfold get_joint_config in Hlen. destruct (configs joint) as [|c [|]]; simplify_eq/=. done.
    - apply to_quorum_set_coherent, joint_is_coherent_spec. exists goal. split; by apply last_Some_elem_of. }
  destruct (flatten_apply lid joint goal retain Hlj Hvj) as (m' & Ha2 & Hc2 & Hs2). set (s1 := MkMembershipState _ _) in *.
  intros H2. pose proof (change_step_result _ _ _ _ _ _ H2) as Hr2. split.
  2: { intros m lid1 lid2 _ _ ->. unfold change_step in H2. rewrite Ha2 in H2. injection H2 as <- _. eauto. }
  destruct r as [[[lid2 m]|[f|e]]|e].
  - destruct Hr2 as (_ & Hm & ->). rewrite Ha2 in Hm. injection Hm as <-. exists joint, goal. destruct Hs2 as (_ & ? & ?). done.
  - right. exists goal. split; [done|].
    assert (s' = s1) as -> by (by destruct Hr2 as [-> | ->]). done.
  - destruct Hr2 as [Hf _]. congruence.
  - right. exists goal. split; [done|]. destruct Hr2 as [->|(lid2 & m & Hm & He)]; [by left|]. rewrite Ha2 in Hm. injection Hm as <-.
    right. exists joint. by rewrite He.
Qed.

End Change.

(** * The state of a node over time *)

(** What happens to the membership state of a leader: a change is checked and appended at a
    greater id; some id is committed; a snapshot or a truncation resets the uncommitted one. *)
Inductive ms_step : MembershipState → MembershipState → Prop :=
  | MsChange s ch retain lid m :
      change_apply s ch retain = Okay m →
      opt_log_id_lt (em_log_id (ms_effective s)) (Some lid) = true →
      ms_step s (ms_append (em_new (Some lid) m) s)
  | MsCommit s c : ms_step s (ms_commit c s)
  | MsTruncate s since : ms_step s (fst (ms_truncate since s)).

(** An effective membership carries the quorum set of its configuration. *)
Definition em_ok (e : EffectiveMembership) : Prop := e = em_new (em_log_id e) (em_membership e).

Definition ms_inv (s : MembershipState) : Prop :=
  em_ok (ms_committed s) ∧ em_ok (ms_effective s)
  ∧ configs (em_membership (ms_committed s)) ≠ [] ∧ configs (em_membership (ms_effective s)) ≠ []
  ∧ (ms_committed s = ms_effective s
     ∨ opt_log_id_lt (em_log_id (ms_committed s)) (em_log_id (ms_effective s)) = true
       ∧ joint_is_coherent_with (MkJoint (configs (em_membership (ms_committed s))))
           (MkJoint (configs (em_membership (ms_effective s)))) = true).

Lemma em_ok_new lid m : em_ok (em_new lid m).
Proof. done. Qed.

Lemma ms_step_inv s s' : ms_inv s → ms_step s s' → ms_inv s'.
Proof.
  intros (Hc & He & Nc & Ne & Hrel) Hstep.
  destruct Hstep as [s ch retain lid m Happ Hlt|s c|s since].
  - unfold change_apply, ensure_committed in Happ. case_bool_decide as Hid; [|done].
    destruct (change_coherent _ _ _ _ Ne Happ) as [Hco Hne].
    split; [exact He|]. split; [apply em_ok_new|]. repeat split; try done. by right.
  - unfold ms_commit. destruct (opt_log_id_le _ _); repeat split; try done. by left.
  - unfold ms_truncate. destruct (opt_z_le _ _); repeat split; try done. by left.
Qed.

Lemma ms_inv_meet s : ms_inv s → quorums_meet (quorum_set (ms_committed s)) (quorum_set (ms_effective s)).
Proof.
  intros (Hc & He & Nc & Ne & Hrel).
  assert (quorum_set (ms_committed s) = to_quorum_set (em_membership (ms_committed s))) as -> by (by rewrite {1}Hc).
  assert (quorum_set (ms_effective s) = to_quorum_set (em_membership (ms_effective s))) as -> by (by rewrite {1}He).
  apply to_quorum_set_coherent, joint_is_coherent_spec. destruct Hrel as [Heq|[_ Hco]].
  - rewrite -Heq. destruct (configs (em_membership (ms_committed s))) as [|c l]; [done|].
    exists c. simpl. set_solver.
  - by apply joint_is_coherent_spec in Hco.
Qed.

(** C21: whatever changes, commits and truncations a node goes through, every quorum of its committed
    configuration meets every quorum of its effective one; and a change is refused while the
    effective configuration is not the committed one. *)
Theorem membership_quorums_always_meet lid m s :
  configs m ≠ [] →
  rtc ms_step (MkMembershipState (em_new lid m) (em_new lid m)) s →
  quorums_meet (quorum_set (ms_committed s)) (quorum_set (ms_effective s))
  ∧ (ms_committed s ≠ ms_effective s → ∀ ch retain,
       change_apply s ch retain = Failed (InProgress (em_log_id (ms_committed s)) (em_log_id (ms_effective s)))).
Proof.
  intros Hne Hrtc.
  assert (ms_inv s) as Hinv.
  { assert (ms_inv (MkMembershipState (em_new lid m) (em_new lid m))) as H0 by (repeat split; auto).
    clear Hne. induction Hrtc; eauto using ms_step_inv. }
  split; [by apply ms_inv_meet|]. intros Hd ch retain.
  destruct Hinv as (_ & _ & _ & _ & [?|[Hlt _]]); [done|].
  unfold change_apply, ensure_committed. case_bool_decide as Hid; [|done].
  rewrite -Hid opt_log_id_lt_spec in Hlt. destruct Hlt. apply opt_le_refl.
Qed.
