(* ===== verification/RaftLogIds.v ===== *)
(** The engine's index of its log: [engine/log_id_list.rs] and [engine/leader_log_ids.rs] of
    [src/octopii/openraft/openraft/src/].

    A node does not keep the id of every entry in memory: it keeps the first id of each leader
    and the last id. [keys] is that compression as a function of the whole list of ids, and every
    operation of the list is shown to compute it. *)

From S2P Require Import Prelude LogStore RaftQuorum RaftMembership.

#[local] Open Scope Z_scope.

(** * The list *)

(** [LogIdList]; its only field is [key_log_ids]. *)
Definition LogIdList := list LogId.

(** [binary_search_by] on ids that are ordered by index: the position of the id at [at], or where it would be. *)
Fixpoint lower (ks : LogIdList) (pos : Z) : nat :=
  match ks with
  | [] => O
  | k :: rest => if index k <? pos then S (lower rest pos) else O
  end.

Definition binary_search (ks : LogIdList) (pos : Z) : Result nat nat :=
  let i := lower ks pos in
  match ks !! i with
  | Some k => if index k =? pos then Okay i else Failed i
  | None => Failed i
  end.

Definition log_ids_append (ks : LogIdList) (new_log_id : LogId) : LogIdList :=
  let l := length ks in
  match l with
  | O => ks ++ [new_log_id]
  | S O => ks ++ [new_log_id]
  | _ =>
      if bool_decide (leader_id <$> ks !! (l - 2)%nat = leader_id <$> ks !! (l - 1)%nat)
      then <[(l - 1)%nat := new_log_id]> ks else ks ++ [new_log_id]
  end.

Definition last_committed_leader_id (ks : LogIdList) : option LeaderId := leader_id <$> last ks.

(** [it.next()] and then [it.next_back()], which is the last of the rest. *)
Definition extend_from_same_leader (ks : LogIdList) (new_ids : list LogId) : LogIdList :=
  match new_ids with
  | [] => ks
  | first :: rest =>
      let ks := log_ids_append ks first in
      match last rest with
      | None => ks
      | Some l => if bool_decide (l ≠ first) then log_ids_append ks l else ks
      end
  end.

(** The body of the loop of [extend]; [fin] says whether the id is the last one. *)
Definition extend_turn (ks : LogIdList) (id : LogId) (fin : bool) : LogIdList :=
  let ks := if bool_decide (last_committed_leader_id ks ≠ Some (leader_id id)) then log_ids_append ks id else ks in
  if fin then if bool_decide (last ks ≠ Some id) then log_ids_append ks id else ks else ks.

Fixpoint extend (ks : LogIdList) (new_ids : list LogId) : LogIdList :=
  match new_ids with
  | [] => ks
  | id :: rest => extend (extend_turn ks id (match rest with [] => true | _ => false end)) rest
  end.

Definition truncate_at (ks : LogIdList) (pos : Z) (i : nat) : LogIdList :=
  let ks := take i ks in
  match last ks with
  | Some l => if index l <? pos - 1 then log_ids_append ks (MkLogId (leader_id l) (pos - 1)) else ks
  | None => ks
  end.

Definition log_ids_truncate (ks : LogIdList) (pos : Z) : LogIdList :=
  match binary_search ks pos with
  | Okay i => truncate_at ks pos i
  | Failed i => if bool_decide (i = length ks) then ks else truncate_at ks pos i
  end.

Definition set_first_index (ks : LogIdList) (i : Z) : LogIdList :=
  match ks with [] => [] | k :: rest => MkLogId (leader_id k) i :: rest end.

Definition log_ids_purge (ks : LogIdList) (upto : LogId) : LogIdList :=
  if next_index (last ks) <=? index upto then [upto]
  else if index upto <? match ks with k :: _ => index k | [] => 0 end then ks
  else match binary_search ks (index upto) with
       | Okay i => if (0 <? i)%nat then drop i ks else ks
       | Failed i => set_first_index (drop (i - 1) ks) (index upto)
       end.

Definition ref_at (ks : LogIdList) (pos : Z) : option LogId :=
  let change_point :=
    match binary_search ks pos with
    | Okay i => Some i
    | Failed i => if bool_decide (i = 0%nat ∨ i = length ks) then None else Some (i - 1)%nat
    end in
  match change_point with
  | None => None
  | Some i => (λ k, MkLogId (leader_id k) pos) <$> ks !! i
  end.

Definition log_ids_first (ks : LogIdList) : option LogId := head ks.
Definition log_ids_last (ks : LogIdList) : option LogId := last ks.

(** [LeaderLogIds]: the first and the last id of one leader. *)
Definition LeaderLogIds := option (LogId * LogId).
Definition lli_first (r : LeaderLogIds) : option LogId := fst <$> r.
Definition lli_last (r : LeaderLogIds) : option LogId := snd <$> r.

Definition by_last_leader (ks : LogIdList) : LeaderLogIds :=
  let l := length ks in
  if (l <? 2)%nat then (λ x, (x, x)) <$> last ks
  else match ks !! (l - 1)%nat, ks !! (l - 2)%nat with
       | Some b, Some a => if bool_decide (leader_id b = leader_id a) then Some (a, b) else Some (b, b)
       | _, _ => None
       end.

(** [get_key_log_ids]: which ids a new engine reads from the store, with a stack of ranges. The
    store's [get_log_id] may fail. *)
Section GetKeys.
Context {Er : Type} (get_log_id : Z → Result LogId Er).

(** [res.last().committed_leader_id() < Some(first.committed_leader_id())]. *)
Definition leader_id_ltb (a b : LeaderId) : bool := match leader_id_cmp a b with Lt => true | _ => false end.
Definition push_new_leader (res : list LogId) (first : LogId) : list LogId :=
  match last res with
  | None => res ++ [first]
  | Some r => if leader_id_ltb (leader_id r) (leader_id first) then res ++ [first] else res
  end.

(** The head of [stack] is its top. [None]: the fuel is used up. *)
Fixpoint key_log_ids_loop (fuel : nat) (stack : list (LogId * LogId)) (res : list LogId)
    : option (Result (list LogId) Er) :=
  match fuel, stack with
  | _, [] => Some (Okay res)
  | O, _ => None
  | S fuel, (first, last) :: stack =>
      if bool_decide (leader_id first = leader_id last) then key_log_ids_loop fuel stack (push_new_leader res first)
      else if index first + 1 =? index last then
        key_log_ids_loop fuel stack (push_new_leader res first ++ [last])
      else match get_log_id ((index first + index last) / 2) with
           | Failed e => Some (Failed e)
           | Okay mid =>
               if bool_decide (leader_id first = leader_id mid) then
                 key_log_ids_loop fuel ((mid, last) :: stack) (push_new_leader res first)
               else if bool_decide (leader_id mid = leader_id last) then
                 key_log_ids_loop fuel ((first, mid) :: stack) res
               else key_log_ids_loop fuel ((first, mid) :: (mid, last) :: stack) res
           end
  end.

Definition get_key_log_ids (fuel : nat) (first lst : LogId) : option (Result (list LogId) Er) :=
  match key_log_ids_loop fuel [(first, lst)] [] with
  | Some (Okay res) => Some (Okay (if bool_decide (last res ≠ Some lst) then res ++ [lst] else res))
  | r => r
  end.

End GetKeys.

(** * What the list stands for *)

(** The ids of consecutive entries from [s] on. *)
Definition consecutive (s : Z) (log : list LogId) : Prop := ∀ i x, log !! i = Some x → index x = s + Z.of_nat i.

(** The ids that have another leader than the one before, where [p] comes before the first. *)
Fixpoint run_heads (p : option LeaderId) (log : list LogId) : list LogId :=
  match log with
  | [] => []
  | x :: rest =>
      if bool_decide (p = Some (leader_id x)) then run_heads p rest
      else x :: run_heads (Some (leader_id x)) rest
  end.

(** The leader at the end of a list that comes after [p]. *)
Definition end_leader (p : option LeaderId) (log : list LogId) : option LeaderId :=
  match last log with Some x => Some (leader_id x) | None => p end.

(** Reference: the ids that begin a leader, and the last id. *)
Definition keys (log : list LogId) : list LogId :=
  match last log with
  | None => []
  | Some x => run_heads None (take (length log - 1) log) ++ [x]
  end.

Lemma keys_snoc log x : keys (log ++ [x]) = run_heads None log ++ [x].
Proof. unfold keys. by rewrite last_snoc length_app Nat.add_sub take_app_length. Qed.

Lemma run_heads_app p a b : run_heads p (a ++ b) = run_heads p a ++ run_heads (end_leader p a) b.
Proof.
  revert p. induction a as [|x a IH]; intros p; simpl; [done|].
  assert (∀ q, end_leader q (x :: a) = end_leader (Some (leader_id x)) a) as He.
  { intros q. unfold end_leader. rewrite last_cons. by destruct (last a). }
  case_bool_decide as Hp; rewrite IH He; simpl; [by rewrite Hp|done].
Qed.

Lemma end_leader_snoc p a x : end_leader p (a ++ [x]) = Some (leader_id x).
Proof. unfold end_leader. by rewrite last_snoc. Qed.

Lemma run_heads_snoc p a x :
  run_heads p (a ++ [x]) = run_heads p a ++ (if bool_decide (end_leader p a = Some (leader_id x)) then [] else [x]).
Proof. rewrite run_heads_app. simpl. by case_bool_decide. Qed.

(** The last run head has the leader of the end. *)
Lemma run_heads_last a : leader_id <$> last (run_heads None a) = end_leader None a.
Proof.
  induction a as [|x a IH] using rev_ind; [done|]. rewrite run_heads_snoc end_leader_snoc.
  case_bool_decide as Hp; [by rewrite app_nil_r IH|by rewrite last_snoc].
Qed.

Lemma run_heads_nil a : run_heads None a = [] → a = [].
Proof.
  intros He. pose proof (run_heads_last a) as Hl. rewrite He in Hl. simpl in Hl.
  unfold end_leader in Hl. destruct (last a) eqn:Hla; [done|]. by apply last_None in Hla.
Qed.

Lemma run_heads_sublist p a x : x ∈ run_heads p a → x ∈ a.
Proof.
  revert p. induction a as [|y a IH]; intros p; simpl; [done|]. case_bool_decide; set_solver.
Qed.

(** Neighbours among the heads have different leaders, so [append] pushes. *)
Lemma run_heads_neighbours a b x : run_heads None a = b ++ [x] → b ≠ [] → leader_id <$> last b ≠ Some (leader_id x).
Proof.
  revert b x. induction a as [|y a IH] using rev_ind; intros b x; [intros Heq; by destruct b|].
  rewrite run_heads_snoc. case_bool_decide as Hp; [rewrite app_nil_r; apply IH|].
  intros [<- [= <-]]%app_inj_tail Hne. by rewrite run_heads_last.
Qed.

Lemma lookup_snoc_snoc {A} (b : list A) x y :
  (b ++ [x; y]) !! length b = Some x ∧ (b ++ [x; y]) !! S (length b) = Some y.
Proof.
  split; [by apply list_lookup_middle|]. rewrite lookup_app_r; [lia|].
  by replace (S (length b) - length b)%nat with 1%nat by lia.
Qed.

Lemma append_snoc_snoc b x y z :
  log_ids_append (b ++ [x; y]) z =
    if bool_decide (leader_id x = leader_id y) then b ++ [x; z] else b ++ [x; y; z].
Proof.
  destruct (lookup_snoc_snoc b x y) as [Hx Hy].
  assert (<[S (length b) := z]> (b ++ [x; y]) = b ++ [x; z]) as Hi
    by (rewrite insert_app_r_alt; [lia|]; by replace (S (length b) - length b)%nat with 1%nat by lia).
  unfold log_ids_append. rewrite length_app /=.
  replace (length b + 2)%nat with (S (S (length b))) by lia. simpl. rewrite !Nat.sub_0_r Hx Hy Hi. simpl.
  rewrite (bool_decide_ext (Some (leader_id x) = Some (leader_id y)) (leader_id x = leader_id y)); [split; congruence|].
  by rewrite -app_assoc.
Qed.

Lemma run_heads_push a x : log_ids_append (run_heads None a) x = run_heads None a ++ [x].
Proof.
  remember (run_heads None a) as h eqn:Hr. symmetry in Hr.
  destruct h as [|y r _] using rev_ind; [done|]. destruct r as [|z r _] using rev_ind; [done|].
  rewrite -app_assoc append_snoc_snoc. case_bool_decide as He; [|by rewrite -app_assoc].
  destruct (run_heads_neighbours _ _ _ Hr); [by destruct r|]. by rewrite last_snoc -He.
Qed.

(** * Appending *)

(** Appending an id after ids of the leader at the end, which are not kept. *)
Lemma append_keys log mid x :
  Forall (λ m, Some (leader_id m) = end_leader None log) mid →
  log_ids_append (keys log) x = keys (log ++ mid ++ [x]).
Proof.
  intros Hmid. rewrite app_assoc keys_snoc run_heads_app.
  assert (run_heads (end_leader None log) mid = []) as ->.
  { clear x. induction Hmid as [|m mid Hm _ IH]; [done|]. simpl. rewrite bool_decide_true; [congruence|done]. }
  rewrite app_nil_r. destruct log as [|y log _] using rev_ind; [done|].
  rewrite keys_snoc run_heads_snoc. pose proof (run_heads_last log) as Hl.
  remember (run_heads None log) as h eqn:Hh. destruct h as [|z h _] using rev_ind; simpl.
  - rewrite bool_decide_false; [by rewrite -Hl|done].
  - rewrite last_snoc in Hl. rewrite -!app_assoc append_snoc_snoc -Hl. simpl.
    rewrite (bool_decide_ext (Some (leader_id z) = Some (leader_id y)) (leader_id z = leader_id y)); [split; congruence|].
    by case_bool_decide.
Qed.

Lemma last_keys log : last (keys log) = last log.
Proof. destruct log as [|x log _] using rev_ind; [done|]. by rewrite keys_snoc !last_snoc. Qed.

Lemma last_leader_keys log : last_committed_leader_id (keys log) = end_leader None log.
Proof. unfold last_committed_leader_id, end_leader. rewrite last_keys. by destruct (last log). Qed.

Lemma extend_from_same_leader_keys log x rest :
  Forall (λ y, leader_id y = leader_id x) rest → x ∉ rest →
  extend_from_same_leader (keys log) (x :: rest) = keys (log ++ x :: rest).
Proof.
  intros Hall Hx. simpl. rewrite (append_keys log [] x); [done|]. simpl.
  destruct rest as [|y rest _] using rev_ind; [done|]. rewrite last_snoc bool_decide_true; [set_solver|].
  rewrite (append_keys (log ++ [x]) rest y).
  - apply Forall_app in Hall as [Hall _]. eapply Forall_impl; [exact Hall|]. intros m Hm. simpl. by rewrite end_leader_snoc Hm.
  - by rewrite -app_assoc.
Qed.

(** The loop of [extend]: the list is that of the ids up to the last change of the leader. *)
Lemma extend_loop_keys log mid new :
  NoDup (log ++ mid ++ new) → new ≠ [] →
  Forall (λ m, Some (leader_id m) = end_leader None log) mid →
  extend (keys log) new = keys (log ++ mid ++ new).
Proof.
  revert log mid. induction new as [|x new IH]; intros log mid Hnd Hne Hmid; [done|].
  simpl. unfold extend_turn. rewrite last_leader_keys.
  set (ks := if bool_decide _ then log_ids_append (keys log) x else keys log).
  destruct (decide (end_leader None log = Some (leader_id x))) as [Hl|Hl].
  - assert (ks = keys log) as -> by (unfold ks; by rewrite bool_decide_false; [tauto|]).
    destruct new as [|y new]; cbv beta iota.
    + simpl. rewrite last_keys bool_decide_true.
      * intros Hx%last_Some_elem_of. apply NoDup_app in Hnd as (_ & Hnd & _). set_solver.
      * by apply append_keys.
    + rewrite (IH log (mid ++ [x])); [by rewrite -!app_assoc|done| |by rewrite -!app_assoc].
      apply Forall_app. split; [done|]. by constructor.
  - assert (ks = keys (log ++ mid ++ [x])) as -> by (unfold ks; rewrite bool_decide_true //; by apply append_keys).
    destruct new as [|y new]; cbv beta iota.
    + simpl. rewrite last_keys !app_assoc last_snoc bool_decide_false; [tauto|done].
    + rewrite (IH (log ++ mid ++ [x]) []); [by rewrite -!app_assoc|done|done|by rewrite -!app_assoc].
Qed.

Lemma extend_keys log new : NoDup (log ++ new) → extend (keys log) new = keys (log ++ new).
Proof. intros Hnd. destruct new as [|x new]; [by rewrite app_nil_r|]. by apply (extend_loop_keys log []). Qed.

Lemma consecutive_NoDup s log : consecutive s log → NoDup log.
Proof.
  intros Hc. apply NoDup_alt. intros i j x Hi%Hc Hj%Hc. lia.
Qed.

Lemma consecutive_app s a b : consecutive s (a ++ b) ↔ consecutive s a ∧ consecutive (s + len a) b.
Proof.
  unfold consecutive, len. split.
  - intros Hc. split; intros i x Hi.
    + apply Hc. by apply lookup_app_l_Some.
    + assert ((a ++ b) !! (length a + i)%nat = Some x) as Hl
        by (rewrite lookup_app_r; [lia|]; by replace (length a + i - length a)%nat with i by lia).
      apply Hc in Hl. lia.
  - intros [Ha Hb] i x [Hi|[Hle Hi]]%lookup_app_Some; [by apply Ha|]. apply Hb in Hi. lia.
Qed.

Lemma consecutive_index_bounds s log x : consecutive s log → x ∈ log → s ≤ index x < s + len log.
Proof.
  intros Hc [i Hi]%list_elem_of_lookup. pose proof (lookup_lt_Some _ _ _ Hi). apply Hc in Hi. unfold len. lia.
Qed.

(** * Searching *)

Lemma lower_app a b pos :
  Forall (λ k, index k < pos) a → match b with k :: _ => pos ≤ index k | [] => True end →
  lower (a ++ b) pos = length a.
Proof.
  intros Ha Hb. induction Ha as [|k a Hk _ IH]; simpl.
  - destruct b as [|k b]; [done|]. simpl. by destruct (Z.ltb_spec (index k) pos); [lia|].
  - destruct (Z.ltb_spec (index k) pos); [by rewrite IH|lia].
Qed.

(** The heads of [u :: b] and its last id, after a list that ends with leader [p]. *)
Definition keys_after (p : option LeaderId) (b : list LogId) : list LogId :=
  match last b with
  | None => []
  | Some x => run_heads p (take (length b - 1) b) ++ [x]
  end.

Lemma keys_after_snoc p b x : keys_after p (b ++ [x]) = run_heads p b ++ [x].
Proof. unfold keys_after. by rewrite last_snoc length_app Nat.add_sub take_app_length. Qed.

Lemma keys_after_cons p u b :
  keys_after p (u :: b) =
    match b with
    | [] => [u]
    | _ => if bool_decide (p = Some (leader_id u)) then keys_after p b else u :: keys_after (Some (leader_id u)) b
    end.
Proof.
  destruct b as [|x b _] using rev_ind; [done|].
  assert (b ++ [x] ≠ []) as Hne by (by destruct b).
  rewrite app_comm_cons keys_after_snoc !keys_after_snoc. simpl.
  destruct (b ++ [x]) eqn:He; [done|]. by case_bool_decide.
Qed.

Lemma keys_app a b : b ≠ [] → keys (a ++ b) = run_heads None a ++ keys_after (end_leader None a) b.
Proof.
  intros Hne. destruct b as [|x b _] using rev_ind; [done|].
  by rewrite app_assoc keys_snoc run_heads_app keys_after_snoc -app_assoc.
Qed.

Lemma elem_of_keys_after p b x : x ∈ keys_after p b → x ∈ b.
Proof.
  destruct b as [|y b _] using rev_ind; [done|]. rewrite keys_after_snoc.
  intros [Hx%run_heads_sublist|Hx]%elem_of_app; set_solver.
Qed.

(** An id that is kept is found at its place; one that is not lies after the head of its leader. *)
Lemma search_split s a u b :
  consecutive s (a ++ u :: b) →
  let h := run_heads None a in
  keys (a ++ u :: b) = h ++ keys_after (end_leader None a) (u :: b)
  ∧ (keys_after (end_leader None a) (u :: b) = u :: keys_after (Some (leader_id u)) b
       ∧ binary_search (keys (a ++ u :: b)) (index u) = Okay (length h)
     ∨ b ≠ [] ∧ end_leader None a = Some (leader_id u)
       ∧ keys_after (end_leader None a) (u :: b) = keys_after (Some (leader_id u)) b
       ∧ binary_search (keys (a ++ u :: b)) (index u) = Failed (length h)).
Proof.
  intros Hc h. rewrite keys_app //. split; [done|].
  apply consecutive_app in Hc as [Ha Hb].
  assert (index u = s + len a) as Hu by (rewrite (Hb 0%nat u eq_refl); lia).
  assert (Forall (λ k, index k < index u) h) as Hh.
  { apply Forall_forall. intros k Hk%run_heads_sublist. pose proof (consecutive_index_bounds _ _ _ Ha Hk). lia. }
  assert (∀ p k r, keys_after p b = k :: r → index u < index k) as Hgt.
  { intros p k r He. assert (k ∈ b) as Hk by (apply (elem_of_keys_after p); rewrite He; set_solver).
    assert (consecutive (s + len a + 1) b) as Hb'.
    { intros i x Hi. specialize (Hb (S i) x Hi). lia. }
    pose proof (consecutive_index_bounds _ _ _ Hb' Hk). lia. }
  unfold binary_search. rewrite keys_after_cons. destruct b as [|v b].
  - left. split; [done|]. rewrite lower_app //; try lia. by rewrite list_lookup_middle // Z.eqb_refl.
  - case_bool_decide as Hp.
    + right. split; [done|]. split; [done|]. rewrite Hp. split; [done|].
      destruct (keys_after (Some (leader_id u)) (v :: b)) as [|k r] eqn:Hk.
      * rewrite lower_app //. by rewrite app_nil_r lookup_ge_None_2.
      * pose proof (Hgt _ _ _ Hk). rewrite lower_app //; try lia.
        rewrite list_lookup_middle //. destruct (Z.eqb_spec (index k) (index u)); [lia|done].
    + left. split; [done|]. rewrite lower_app //; try lia. by rewrite list_lookup_middle // Z.eqb_refl.
Qed.

Lemma keys_after_ne p b : b ≠ [] → keys_after p b ≠ [].
Proof. destruct b as [|x b _] using rev_ind; [done|]. rewrite keys_after_snoc. by destruct (run_heads p b). Qed.

Lemma ref_at_split s a u b : consecutive s (a ++ u :: b) → ref_at (keys (a ++ u :: b)) (index u) = Some u.
Proof.
  intros Hc. destruct (search_split _ _ _ _ Hc) as [Hk [[Hu Hs]|(Hb & Hp & Hu & Hs)]]; unfold ref_at; rewrite Hs Hk Hu.
  - rewrite list_lookup_middle //. simpl. by destruct u.
  - pose proof (run_heads_last a) as Hl. rewrite Hp in Hl.
    remember (run_heads None a) as h eqn:Hh. destruct h as [|z h _] using rev_ind; [done|].
    rewrite last_snoc in Hl. injection Hl as Hz.
    pose proof (keys_after_ne (Some (leader_id u)) b Hb) as Hne.
    rewrite bool_decide_false.
    + rewrite !length_app /=. destruct (keys_after _ b); [done|]. simpl. lia.
    + rewrite length_app /= Nat.add_sub -app_assoc list_lookup_middle //. simpl. rewrite Hz. by destruct u.
Qed.

Lemma search_end s log pos : consecutive s log → s + len log ≤ pos → binary_search (keys log) pos = Failed (length (keys log)).
Proof.
  intros Hc Hge. unfold binary_search.
  assert (lower (keys log) pos = length (keys log)) as ->.
  { rewrite -{1}(app_nil_r (keys log)). apply lower_app; [|done]. apply Forall_forall. intros k Hk.
    apply (elem_of_keys_after None) in Hk. pose proof (consecutive_index_bounds _ _ _ Hc Hk). lia. }
  by rewrite lookup_ge_None_2.
Qed.

Lemma search_before s log pos : consecutive s log → pos < s → binary_search (keys log) pos = Failed 0%nat.
Proof.
  intros Hc Hlt. unfold binary_search. destruct (keys log) as [|k r] eqn:Hk; [done|].
  assert (s ≤ index k) as Hs.
  { apply (consecutive_index_bounds _ log); [done|]. apply (elem_of_keys_after None).
    change (keys_after None log) with (keys log). rewrite Hk. set_solver. }
  simpl. destruct (Z.ltb_spec (index k) pos); [lia|]. simpl. by destruct (Z.eqb_spec (index k) pos); [lia|].
Qed.

Lemma ref_at_outside s log pos : consecutive s log → pos < s ∨ s + len log ≤ pos → ref_at (keys log) pos = None.
Proof.
  intros Hc [Hlt|Hge]; unfold ref_at.
  - rewrite (search_before s) // bool_decide_true; auto.
  - rewrite (search_end s) // bool_decide_true; auto.
Qed.

Lemma ref_at_keys s log pos :
  consecutive s log → ref_at (keys log) pos = if s <=? pos then log !! Z.to_nat (pos - s) else None.
Proof.
  intros Hc. destruct (Z.leb_spec s pos); [|by apply (ref_at_outside s); auto].
  destruct (log !! Z.to_nat (pos - s)) as [u|] eqn:Hl.
  - assert (index u = pos) as <- by (apply Hc in Hl; lia).
    apply list_elem_of_split_length in Hl as (a & b & -> & _). by apply (ref_at_split s).
  - apply (ref_at_outside s); [done|]. right. apply lookup_ge_None in Hl. unfold len. lia.
Qed.

(** * Cutting *)

Lemma consecutive_split s log pos :
  consecutive s log → s ≤ pos < s + len log →
  ∃ a u b, log = a ++ u :: b ∧ index u = pos ∧ len a = pos - s.
Proof.
  intros Hc Hp. destruct (lookup_lt_is_Some_2 log (Z.to_nat (pos - s))) as [u Hu]; [unfold len in Hp; lia|].
  pose proof (Hc _ _ Hu) as Hi. apply list_elem_of_split_length in Hu as (a & b & -> & Hlen).
  exists a, u, b. unfold len. split; [done|]. lia.
Qed.

Lemma truncate_at_heads s a x pos ks :
  consecutive s (a ++ [x]) → index x = pos - 1 → take (length (run_heads None (a ++ [x]))) ks = run_heads None (a ++ [x]) →
  truncate_at ks pos (length (run_heads None (a ++ [x]))) = keys (a ++ [x]).
Proof.
  intros Hc Hx Ht. unfold truncate_at. rewrite Ht keys_snoc run_heads_snoc.
  case_bool_decide as Hp.
  - pose proof (run_heads_last a) as Hl. rewrite Hp in Hl. rewrite app_nil_r.
    destruct (last (run_heads None a)) as [z|] eqn:Hz; [|done]. injection Hl as Hz'.
    assert (z ∈ a) as Hza by (apply (run_heads_sublist None), last_Some_elem_of, Hz).
    apply consecutive_app in Hc as [Ha Hb]. specialize (Hb 0%nat x eq_refl).
    pose proof (consecutive_index_bounds _ _ _ Ha Hza).
    destruct (Z.ltb_spec (index z) (pos - 1)); [|lia].
    rewrite run_heads_push. f_equal. rewrite Hz' -Hx. by destruct x.
  - rewrite last_snoc. destruct (Z.ltb_spec (index x) (pos - 1)); [lia|done].
Qed.

Lemma truncate_keys s log pos :
  consecutive s log → log_ids_truncate (keys log) pos = keys (take (Z.to_nat (pos - s)) log).
Proof.
  intros Hc. unfold log_ids_truncate.
  destruct (Z_lt_ge_dec pos s) as [Hlt|Hge].
  { rewrite (search_before s) //. replace (Z.to_nat (pos - s)) with 0%nat by lia. simpl.
    case_bool_decide as H0; [|done]. by destruct (keys log). }
  destruct (Z_lt_ge_dec pos (s + len log)) as [Hin|Hout]; last first.
  { rewrite (search_end s) //; [lia|]. rewrite bool_decide_true // take_ge //. unfold len in Hout. lia. }
  destruct (consecutive_split s log pos) as (a & u & b & -> & Hu & Ha); [done|lia|].
  replace (Z.to_nat (pos - s)) with (length a) by (unfold len in Ha; lia). rewrite take_app_length.
  destruct (search_split _ _ _ _ Hc) as [Hk Hs]. rewrite -Hu.
  assert (take (length (run_heads None a)) (keys (a ++ u :: b)) = run_heads None a) as Ht
    by (by rewrite Hk take_app_length).
  assert (truncate_at (keys (a ++ u :: b)) (index u) (length (run_heads None a)) = keys a) as Hres.
  { destruct a as [|x a _] using rev_ind; [done|]. apply consecutive_app in Hc as [Hca _].
    apply (truncate_at_heads s); [done| |done].
    apply consecutive_app in Hca as [_ Hx]. specialize (Hx 0%nat x eq_refl). rewrite len_app in Ha.
    change (len [x]) with 1 in Ha. lia. }
  destruct Hs as [[_ Hs]|(Hb & _ & Hu' & Hs)]; rewrite Hs; [done|].
  rewrite bool_decide_false; [|done]. rewrite Hk length_app Hu'.
  pose proof (keys_after_ne (Some (leader_id u)) b Hb). destruct (keys_after _ b); [done|]. simpl. lia.
Qed.

Lemma next_index_last s log : consecutive s log → log ≠ [] → next_index (last log) = s + len log.
Proof.
  intros Hc Hne. destruct log as [|x log _] using rev_ind; [done|]. rewrite last_snoc. simpl.
  apply consecutive_app in Hc as [_ Hx]. rewrite (Hx 0%nat x eq_refl) len_app. change (len [x]) with 1. lia.
Qed.

Lemma head_keys log : head (keys log) = head log.
Proof.
  change (keys log) with (keys_after None log). destruct log as [|x log]; [done|].
  rewrite keys_after_cons. by destruct log.
Qed.

(** Purging up to an id of the log keeps that id; purging beyond the log leaves the id alone. *)
Lemma purge_keys s log upto :
  consecutive s log → upto ∈ log → log_ids_purge (keys log) upto = keys (drop (Z.to_nat (index upto - s)) log).
Proof.
  intros Hc Hin. pose proof (consecutive_index_bounds _ _ _ Hc Hin) as Hb.
  apply list_elem_of_split in Hin as (a & b & ->).
  destruct (search_split _ _ _ _ Hc) as [Hk Hs]. unfold log_ids_purge.
  rewrite last_keys (next_index_last _ _ Hc); [by destruct a|].
  destruct (Z.leb_spec (s + len (a ++ upto :: b)) (index upto)); [lia|].
  destruct (Z.ltb_spec (index upto) (match keys (a ++ upto :: b) with k :: _ => index k | [] => 0 end)) as [Hlt|Hge].
  { exfalso. pose proof (head_keys (a ++ upto :: b)) as Hhd.
    destruct (keys (a ++ upto :: b)) as [|k r]; [by destruct a|]. simpl in Hhd.
    assert ((a ++ upto :: b) !! 0%nat = Some k) as H0 by (by rewrite -head_lookup).
    apply Hc in H0. lia. }
  assert (length a = Z.to_nat (index upto - s)) as <-.
  { apply consecutive_app in Hc as [_ Hu]. specialize (Hu 0%nat upto eq_refl). unfold len in Hu. lia. }
  rewrite drop_app_length. change (keys (upto :: b)) with (keys_after None (upto :: b)).
  assert (keys_after None (upto :: b) = upto :: keys_after (Some (leader_id upto)) b) as Hg
    by (rewrite keys_after_cons; by destruct b).
  destruct Hs as [[Hu Hs]|(Hb' & Hp & Hu & Hs)]; rewrite Hs Hk Hu Hg.
  - destruct (run_heads None a); [done|]. by rewrite drop_app_length.
  - pose proof (run_heads_last a) as Hl. rewrite Hp in Hl.
    destruct (run_heads None a) as [|z h _] using rev_ind; [done|].
    rewrite last_snoc in Hl. injection Hl as Hz.
    rewrite length_app /= Nat.add_sub -app_assoc drop_app_length. simpl. rewrite Hz. by destruct upto.
Qed.

Lemma by_last_leader_snoc_snoc b x y :
  by_last_leader (b ++ [x; y]) = if bool_decide (leader_id y = leader_id x) then Some (x, y) else Some (y, y).
Proof.
  destruct (lookup_snoc_snoc b x y) as [Hx Hy]. unfold by_last_leader. rewrite length_app /=.
  replace (length b + 2)%nat with (S (S (length b))) by lia. simpl. by rewrite !Nat.sub_0_r Hx Hy.
Qed.

(** The ids of the last leader. *)
Lemma by_last_leader_keys a x run :
  end_leader None a ≠ Some (leader_id x) → Forall (λ y, leader_id y = leader_id x) run →
  by_last_leader (keys (a ++ x :: run)) = Some (x, default x (last run)).
Proof.
  intros Ha Hrun. destruct run as [|y run _] using rev_ind.
  - rewrite keys_snoc. pose proof (run_heads_last a) as Hl.
    destruct (run_heads None a) as [|z h _] using rev_ind; [done|]. rewrite last_snoc in Hl.
    rewrite -app_assoc by_last_leader_snoc_snoc bool_decide_false //.
    intros Heq. apply Ha. by rewrite -Hl Heq.
  - rewrite last_snoc. apply Forall_app in Hrun as [Hrun [Hy _]%Forall_cons].
    rewrite app_comm_cons app_assoc keys_snoc run_heads_app. simpl. rewrite bool_decide_false //.
    assert (run_heads (Some (leader_id x)) run = []) as ->.
    { clear -Hrun. induction Hrun as [|m r Hm _ IH]; [done|]. simpl. by rewrite bool_decide_true; [congruence|]. }
    by rewrite -app_assoc by_last_leader_snoc_snoc bool_decide_true.
Qed.

(** C22: the engine's compressed list of log ids is the list of all ids for every operation: on the
    keys of a log of consecutive ids, extending, truncating and purging give the keys of the
    log extended, truncated and purged; looking up an index gives the id that the log has there;
    the first and last ids are those of the log. *)
Theorem log_id_list_is_log s log :
  consecutive s log →
  (∀ new, consecutive s (log ++ new) → extend (keys log) new = keys (log ++ new))
  ∧ (∀ x rest, consecutive s (log ++ x :: rest) → Forall (λ y, leader_id y = leader_id x) rest →
       extend_from_same_leader (keys log) (x :: rest) = keys (log ++ x :: rest))
  ∧ (∀ pos, log_ids_truncate (keys log) pos = keys (take (Z.to_nat (pos - s)) log))
  ∧ (∀ upto, upto ∈ log → log_ids_purge (keys log) upto = keys (drop (Z.to_nat (index upto - s)) log))
  ∧ (∀ upto, next_index (last log) ≤ index upto → log_ids_purge (keys log) upto = keys [upto])
  ∧ (∀ pos, ref_at (keys log) pos = if s <=? pos then log !! Z.to_nat (pos - s) else None)
  ∧ log_ids_first (keys log) = head log ∧ log_ids_last (keys log) = last log.
Proof.
  intros Hc. split; [|split; [|split; [|split; [|split; [|split; [|split]]]]]].
  - intros new Hn. by apply extend_keys, (consecutive_NoDup s).
  - intros x rest Hn Hr. apply extend_from_same_leader_keys; [done|].
    apply consecutive_NoDup, NoDup_app in Hn as (_ & _ & Hn). by apply NoDup_cons in Hn as [? _].
  - intros pos. by apply truncate_keys.
  - intros upto Hu. by apply purge_keys.
  - intros upto Hu. unfold log_ids_purge. rewrite last_keys. by destruct (Z.leb_spec (next_index (last log)) (index upto)); [|lia].
  - intros pos. by apply ref_at_keys.
  - apply head_keys.
  - apply last_keys.
Qed.

(** * Reading the keys from a store *)

(** The leaders of a log do not go back. *)
Definition leaders_ordered (log : list LogId) : Prop :=
  ∀ i j x y, (i ≤ j)%nat → log !! i = Some x → log !! j = Some y →
    leader_id x = leader_id y ∨ leader_id_lt (leader_id x) (leader_id y).

Section ReadKeys.
Context {Er : Type} (get_log_id : Z → Result LogId Er) (s : Z) (log : list LogId).
Hypothesis Hc : consecutive s log.
Hypothesis Hord : leaders_ordered log.
Hypothesis Hget : ∀ x, x ∈ log → get_log_id (index x) = Okay x.

Abbreviation heads n := (run_heads None (take n log)).

Lemma heads_S i x : log !! i = Some x →
  heads (S i) = heads i ++ (if bool_decide (end_leader None (take i log) = Some (leader_id x)) then [] else [x]).
Proof. intros Hx. by rewrite (take_S_r _ _ _ Hx) run_heads_snoc. Qed.

Lemma end_leader_take i x : log !! i = Some x → end_leader None (take (S i) log) = Some (leader_id x).
Proof. intros Hx. by rewrite (take_S_r _ _ _ Hx) end_leader_snoc. Qed.

Lemma push_new_leader_heads i x res :
  log !! i = Some x → res = heads i ∨ res = heads (S i) → push_new_leader res x = heads (S i).
Proof.
  intros Hx Hres. unfold push_new_leader. pose proof (run_heads_last (take i log)) as Hl.
  pose proof (run_heads_last (take (S i) log)) as Hl'.
  rewrite (end_leader_take _ _ Hx) in Hl'.
  destruct Hres as [-> | ->].
  - rewrite (heads_S _ _ Hx). destruct (last (heads i)) as [r|] eqn:Hr; simpl in Hl.
    + rewrite -Hl. assert (∃ k, (k ≤ i)%nat ∧ log !! k = Some r) as (k & Hk & Hrk).
      { apply last_Some_elem_of, run_heads_sublist, list_elem_of_lookup in Hr as [k Hk].
        exists k. apply lookup_take_Some in Hk as [? ?]. split; [lia|done]. }
      unfold leader_id_ltb. destruct (leader_id_cmp_spec (leader_id r) (leader_id x)) as [He|Hlt|Hgt].
      * rewrite bool_decide_true; [by rewrite He|by rewrite app_nil_r].
      * rewrite bool_decide_false //. intros [= He]. rewrite He in Hlt. lia.
      * exfalso. destruct (Hord k i r x Hk Hrk Hx) as [He|Hlt']; [rewrite He in Hgt|unfold leader_id_lt in Hlt']; lia.
    + by rewrite -Hl bool_decide_false.
  - destruct (last (heads (S i))) as [r|]; [|done]. injection Hl' as Hr. unfold leader_id_ltb. rewrite Hr.
    destruct (leader_id_cmp_spec (leader_id x) (leader_id x)); [done|lia|done].
Qed.

Lemma heads_same_leader i j x y :
  (i ≤ j)%nat → log !! i = Some x → log !! j = Some y → leader_id x = leader_id y → heads (S j) = heads (S i).
Proof.
  intros Hij Hx Hy He. induction j as [|j IH] in y, Hij, Hy, He |- *; [by replace i with 0%nat by lia|].
  destruct (decide (i = S j)) as [->|Hne]; [done|].
  destruct (lookup_lt_is_Some_2 log j) as [z Hz]; [apply lookup_lt_Some in Hy; lia|].
  assert (leader_id x = leader_id z) as Hxz.
  { destruct (Hord i j x z) as [?|H1]; [lia|done|done|done|].
    destruct (Hord j (S j) z y) as [H2|H2]; [lia|done|done|congruence|].
    exfalso. apply (leader_id_lt_irrefl (leader_id x)). rewrite {2}He. by eapply leader_id_lt_trans. }
  rewrite (heads_S _ _ Hy) (IH z) //; [lia|].
  rewrite (end_leader_take _ _ Hz) bool_decide_true; [congruence|by rewrite app_nil_r].
Qed.

(** One range: at most [2d - 1] turns (one when its ends coincide) take the heads to its end. *)
Lemma key_loop_range d : ∀ i j x y res, (j - i = d)%nat → (i ≤ j)%nat →
  log !! i = Some x → log !! j = Some y → res = heads i ∨ res = heads (S i) →
  ∃ k, (k ≤ 2 * d + 1 ∧ (0 < d → k ≤ 2 * d - 1))%nat ∧ ∀ fuel stack,
    key_log_ids_loop get_log_id (k + fuel) ((x, y) :: stack) res = key_log_ids_loop get_log_id fuel stack (heads (S j)).
Proof.
  induction d as [d IH] using lt_wf_ind. intros i j x y res Hd Hij Hx Hy Hres.
  pose proof (push_new_leader_heads i x res Hx Hres) as Hpush.
  destruct (decide (leader_id x = leader_id y)) as [He|He].
  { exists 1%nat. split; [lia|]. intros fuel stack. simpl. rewrite bool_decide_true // Hpush. by rewrite (heads_same_leader i j x y). }
  assert (i ≠ j) as Hne by (intros ->; congruence).
  pose proof (Hc _ _ Hx) as Hix. pose proof (Hc _ _ Hy) as Hiy.
  destruct (decide (j = S i)) as [->|Hadj].
  { exists 1%nat. split; [lia|]. intros fuel stack. simpl. rewrite bool_decide_false //.
    destruct (Z.eqb_spec (index x + 1) (index y)); [|lia]. rewrite Hpush (heads_S _ _ Hy).
    rewrite (end_leader_take _ _ Hx) bool_decide_false //. congruence. }
  set (m := ((i + j) / 2)%nat).
  assert (i < m < j)%nat as Hm.
  { unfold m. split; [apply Nat.div_le_lower_bound; lia|apply Nat.Div0.div_lt_upper_bound; lia]. }
  destruct (lookup_lt_is_Some_2 log m) as [z Hz]; [apply lookup_lt_Some in Hy; lia|].
  pose proof (Hc _ _ Hz) as Hiz.
  assert (get_log_id ((index x + index y) / 2) = Okay z) as Hg.
  { rewrite -(Hget z); [by apply list_elem_of_lookup_2 in Hz|]. f_equal. rewrite Hix Hiy Hiz. unfold m.
    rewrite Nat2Z.inj_div Nat2Z.inj_add. change (Z.of_nat 2) with 2.
    replace (s + Z.of_nat i + (s + Z.of_nat j)) with (Z.of_nat i + Z.of_nat j + s * 2) by lia.
    rewrite Z.div_add; lia. }
  assert (∀ fuel stack, key_log_ids_loop get_log_id (S fuel) ((x, y) :: stack) res =
    if bool_decide (leader_id x = leader_id z) then key_log_ids_loop get_log_id fuel ((z, y) :: stack) (heads (S i))
    else if bool_decide (leader_id z = leader_id y) then key_log_ids_loop get_log_id fuel ((x, z) :: stack) res
    else key_log_ids_loop get_log_id fuel ((x, z) :: (z, y) :: stack) res) as Hturn.
  { intros fuel stack. simpl. rewrite bool_decide_false //. destruct (Z.eqb_spec (index x + 1) (index y)); [lia|].
    by rewrite Hg Hpush. }
  case_bool_decide as Hxz.
  - destruct (IH (j - m)%nat ltac:(lia) m j z y (heads (S m))) as (k & Hk & Hrun); [done|lia|done|done|by right|].
    exists (S k). split; [lia|]. intros fuel stack. simpl plus. rewrite Hturn -Hrun.
    rewrite (heads_same_leader i m x z) //; lia.
  - case_bool_decide as Hzy.
    + destruct (IH (m - i)%nat ltac:(lia) i m x z res) as (k & Hk & Hrun); [done|lia|done|done|done|].
      exists (S k). split; [lia|]. intros fuel stack. simpl plus. rewrite Hturn Hrun.
      rewrite (heads_same_leader m j z y) //; lia.
    + destruct (IH (m - i)%nat ltac:(lia) i m x z res) as (k1 & Hk1 & Hrun1); [done|lia|done|done|done|].
      destruct (IH (j - m)%nat ltac:(lia) m j z y (heads (S m))) as (k2 & Hk2 & Hrun2); [done|lia|done|done|by right|].
      exists (S (k1 + k2)). split; [lia|]. intros fuel stack. simpl plus. rewrite -Nat.add_assoc Hturn Hrun1.
      by rewrite Hrun2.
Qed.

End ReadKeys.

(** a new engine that reads the log ids of a range from the store gets exactly the keys of that
    range: with a store that has consecutive ids whose leaders do not go back, the search
    ends (at most [2n] turns for a range of [n] ids) and returns the first id of each leader and the last id. *)
Theorem get_key_log_ids_finds_keys {Er} (get_log_id : Z → Result LogId Er) s log first lst fuel :
  consecutive s log → leaders_ordered log → (∀ x, x ∈ log → get_log_id (index x) = Okay x) →
  head log = Some first → last log = Some lst → (2 * length log ≤ fuel)%nat →
  get_key_log_ids get_log_id fuel first lst = Some (Okay (keys log)).
Proof.
  intros Hc Hord Hget Hf Hl Hfuel. destruct log as [|y log _] using rev_ind; [done|].
  rewrite last_snoc in Hl. injection Hl as ->. rewrite head_lookup in Hf.
  assert ((log ++ [lst]) !! length log = Some lst) as Hlst by (by apply list_lookup_middle).
  destruct (key_loop_range get_log_id s (log ++ [lst]) Hc Hord Hget (length log) 0 (length log) first lst [])
    as (k & Hk & Hrun); [lia|lia|done|done|by left|].
  unfold get_key_log_ids. rewrite length_app /= in Hfuel.
  replace fuel with (k + (fuel - k))%nat by lia. rewrite Hrun.
  assert (∀ n r, key_log_ids_loop get_log_id n [] r = Some (Okay r)) as -> by (by intros []).
  rewrite take_ge; [rewrite length_app /=; lia|]. rewrite keys_snoc run_heads_snoc.
  destruct (decide (end_leader None log = Some (leader_id lst))) as [He|He].
  - rewrite !(bool_decide_true (end_leader None log = Some (leader_id lst))) // app_nil_r.
    rewrite bool_decide_true //. intros Hin%last_Some_elem_of%run_heads_sublist.
    apply consecutive_NoDup, NoDup_app in Hc as (_ & Hd & _). by apply (Hd lst); [|set_solver].
  - rewrite !(bool_decide_false (end_leader None log = Some (leader_id lst))) // last_snoc bool_decide_false; [tauto|done].
Qed.
