(* ===== verification/RaftProgress.v ===== *)
(** The progress of a group of nodes: [progress/vec_progress.rs], [progress/id_val.rs] and the
    trait of [progress/mod.rs] of [src/octopii/openraft/openraft/src/].

    A [VecProgress] has a value for each voter and learner and maintains the greatest value that
    a quorum of the voters has reached: the votes of a candidate, the log ids that the nodes
    have stored, the times at which they answered. It keeps the voters above that value sorted,
    so that an update only looks at a part of them. The counters of [ProgressStats] are left out. *)

From S2P Require Import Prelude LogStore RaftQuorum RaftMembership.

#[local] Open Scope Z_scope.

(** * Progress values *)

(** [PartialOrd] of the progress types, which are totally ordered. *)
Class ProgOrd (P : Type) := ple : P → P → bool.
#[export] Hint Mode ProgOrd ! : typeclass_instances.
Definition plt {P} `{ProgOrd P} (a b : P) : bool := negb (ple b a).

#[export] Instance bool_ord : ProgOrd bool := λ a b, implb a b.
#[export] Instance log_id_ord : ProgOrd (option LogId) := opt_log_id_le.
#[export] Instance instant_ord : ProgOrd (option Z) := opt_z_le.

Class ProgOrdLaws (P : Type) `{ProgOrd P} := {
  ple_refl (a : P) : ple a a = true;
  ple_trans (a b c : P) : ple a b = true → ple b c = true → ple a c = true;
  ple_antisym (a b : P) : ple a b = true → ple b a = true → a = b;
  ple_total (a b : P) : ple a b = true ∨ ple b a = true
}.

#[export] Instance bool_ord_laws : ProgOrdLaws bool.
Proof. split; unfold ple, bool_ord; intros; repeat match goal with b : bool |- _ => destruct b end; simpl in *; auto; discriminate. Qed.

#[export] Instance log_id_ord_laws : ProgOrdLaws (option LogId).
Proof.
  split; unfold ple, log_id_ord; intros *; rewrite ?opt_log_id_le_spec;
    eauto using opt_le_refl, opt_le_trans, opt_le_antisym, opt_le_total.
Qed.

#[export] Instance instant_ord_laws : ProgOrdLaws (option Z).
Proof.
  split; unfold ple, instant_ord, opt_z_le; repeat intros [?|]; try done; rewrite ?Z.leb_le; try lia; auto.
  intros. f_equal. lia.
Qed.

(** * The vector *)

Record IdVal (Ent : Type) := MkIdVal { pid : Z; pval : Ent }.
Arguments MkIdVal {_} _ _.
Arguments pid {_} _.
Arguments pval {_} _.

(** [Ent: Borrow<Prog>]. *)
Class Borrow (Ent Prog : Type) := borrow : Ent → Prog.

(** [LeaderQuorumSet]. *)
Definition LeaderQuorumSet := Joint (list Z).

Section VecProgress.
Context {Ent Prog : Type} {Bor : Borrow Ent Prog} `{ProgOrd Prog} `{EqDecision Prog}.

Record VecProgress := MkVecProgress {
  vp_quorum_set : LeaderQuorumSet;
  quorum_accepted : Prog;
  voter_count : nat;
  entries : list (IdVal Ent)
}.

Definition with_entries (es : list (IdVal Ent)) (p : VecProgress) : VecProgress :=
  MkVecProgress (vp_quorum_set p) (quorum_accepted p) (voter_count p) es.
Definition with_accepted (a : Prog) (p : VecProgress) : VecProgress :=
  MkVecProgress (vp_quorum_set p) a (voter_count p) (entries p).

Definition vp_new (qs : LeaderQuorumSet) (learners : list Z) (default_v : Ent) : VecProgress :=
  let voters := map (λ id, MkIdVal id default_v) (ids qs) in
  MkVecProgress qs (borrow default_v) (length voters) (voters ++ map (λ id, MkIdVal id default_v) learners).

(** [position]. *)
Fixpoint index_of (es : list (IdVal Ent)) (target : Z) : option nat :=
  match es with
  | [] => None
  | e :: rest => if pid e =? target then Some 0%nat else S <$> index_of rest target
  end.
Definition vp_index (p : VecProgress) (target : Z) : option nat := index_of (entries p) target.

Definition swap (es : list (IdVal Ent)) (i j : nat) : list (IdVal Ent) :=
  match es !! i, es !! j with
  | Some a, Some b => <[i := b]> (<[j := a]> es)
  | _, _ => es
  end.

(** [for i in (0..index).rev()]. *)
Fixpoint move_up (es : list (IdVal Ent)) (index : nat) : list (IdVal Ent) * nat :=
  match index with
  | O => (es, O)
  | S i =>
      match es !! i, es !! S i with
      | Some a, Some b =>
          if plt (borrow (pval a)) (borrow (pval b)) then move_up (swap es i (S i)) i else (es, S i)
      | _, _ => (es, S i)
      end
  end.

(** [for i in new_index..voter_count], [n] turns. *)
Fixpoint accept_loop (qs : LeaderQuorumSet) (es : list (IdVal Ent)) (qa : Prog) (i n : nat) : Prog :=
  match n with
  | O => qa
  | S n =>
      match es !! i with
      | None => qa
      | Some e =>
          let prog : Prog := borrow (pval e) in
          if ple prog qa then qa
          else if is_quorum qs (map pid (take (S i) es)) then prog
          else accept_loop qs es qa (S i) n
      end
  end.

Definition update_with (id : Z) (f : Ent → Ent) (p : VecProgress) : Result Prog Prog * VecProgress :=
  match vp_index p id with
  | None => (Failed (quorum_accepted p), p)
  | Some index =>
      match entries p !! index with
      | None => (Failed (quorum_accepted p), p)
      | Some ent =>
          let prev_progress : Prog := borrow (pval ent) in
          let val := f (pval ent) in
          let new_progress : Prog := borrow val in
          let p := with_entries (<[index := MkIdVal (pid ent) val]> (entries p)) p in
          if bool_decide (prev_progress = new_progress) then (Okay (quorum_accepted p), p)
          else if (voter_count p <=? index)%nat then (Okay (quorum_accepted p), p)
          else if ple prev_progress (quorum_accepted p) && plt (quorum_accepted p) new_progress then
            let '(es, new_index) := move_up (entries p) index in
            let qa := accept_loop (vp_quorum_set p) es (quorum_accepted p) new_index (voter_count p - new_index) in
            (Okay qa, with_accepted qa (with_entries es p))
          else (Okay (quorum_accepted p), p)
      end
  end.

Definition vp_update (id : Z) (v : Ent) (p : VecProgress) : Result Prog Prog * VecProgress := update_with id (λ _, v) p.

Definition try_get (id : Z) (p : VecProgress) : option Ent :=
  match vp_index p id with Some i => pval <$> entries p !! i | None => None end.

(** A change through [get_mut]. *)
Definition modify_entry (id : Z) (f : Ent → Ent) (p : VecProgress) : VecProgress :=
  match vp_index p id with
  | Some i => with_entries (alter (λ e, MkIdVal (pid e) (f (pval e))) i (entries p)) p
  | None => p
  end.

Definition upgrade_quorum_set (p : VecProgress) (qs : LeaderQuorumSet) (learners : list Z) (default_v : Ent) : VecProgress :=
  foldl (λ acc item, snd (vp_update (pid item) (pval item) acc)) (vp_new qs learners default_v) (entries p).

Definition vp_is_voter (id : Z) (p : VecProgress) : option bool :=
  match vp_index p id with Some i => Some (i <? voter_count p)%nat | None => None end.

End VecProgress.
Arguments VecProgress : clear implicits.

(** [increase_to] asks for an order on the entries themselves. *)
Definition increase_to {Prog} `{ProgOrd Prog} `{EqDecision Prog} (id : Z) (value : Prog) (p : VecProgress Prog Prog)
    : Result Prog Prog * VecProgress Prog Prog :=
  update_with (Bor := λ x, x) id (λ x, if plt x value then value else x) p.

(** * Monotone quorum sets *)

(** More nodes are still a quorum. *)
Definition quorum_mono (qs : LeaderQuorumSet) : Prop :=
  ∀ l1 l2, NoDup l1 → NoDup l2 → l1 ⊆ l2 → is_quorum qs l1 = true → is_quorum qs l2 = true.

Lemma vec_quorum_mono (v l1 l2 : list Z) :
  NoDup v → NoDup l1 → NoDup l2 → l1 ⊆ l2 → is_quorum v l1 = true → is_quorum v l2 = true.
Proof.
  intros Hv Hn1 Hn2 Hsub. rewrite !vec_is_quorum_majority //. unfold majority.
  assert (length (filter (λ id, id ∈ (list_to_set v : gset Z)) l1)
    ≤ length (filter (λ id, id ∈ (list_to_set v : gset Z)) l2))%nat; [|lia].
  apply submseteq_length, NoDup_submseteq; [by apply NoDup_filter|].
  intros x. rewrite !list_elem_of_filter. set_solver.
Qed.

Lemma joint_quorum_mono (qs : LeaderQuorumSet) : Forall NoDup (children qs) → quorum_mono qs.
Proof.
  intros Hnd l1 l2 Hn1 Hn2 Hsub Hq. unfold is_quorum, joint_quorum. apply forallb_forall.
  intros c Hc%list_elem_of_In. rewrite Forall_forall in Hnd.
  eapply (vec_quorum_mono c l1); eauto using joint_is_quorum_child.
Qed.

Lemma to_quorum_set_mono m : quorum_mono (to_quorum_set m).
Proof.
  apply joint_quorum_mono, Forall_forall. intros c (s & -> & _)%list_elem_of_fmap. apply NoDup_btree_iter.
Qed.

(** * The order of the voters *)

Section Order.
Context {P : Type} `{ProgOrdLaws P}.

Lemma plt_spec (a b : P) : plt a b = true ↔ ple b a = false.
Proof. unfold plt. by destruct (ple b a). Qed.

Lemma ple_false_lt (a b : P) : ple a b = false → ple b a = true.
Proof. intros Hf. destruct (ple_total a b) as [Ht|Ht]; congruence. Qed.

Lemma plt_le (a b : P) : plt a b = true → ple a b = true.
Proof. rewrite plt_spec. apply ple_false_lt. Qed.

Lemma plt_ple_trans (a b c : P) : plt a b = true → ple b c = true → plt a c = true.
Proof.
  rewrite !plt_spec. intros Hab Hbc. destruct (ple c a) eqn:Hca; [|done].
  rewrite -Hab. symmetry. by apply (ple_trans b c a).
Qed.

Lemma ple_plt_trans (a b c : P) : ple a b = true → plt b c = true → plt a c = true.
Proof.
  rewrite !plt_spec. intros Hab Hbc. destruct (ple c a) eqn:Hca; [|done].
  rewrite -Hbc. symmetry. by apply (ple_trans c a b).
Qed.

End Order.

Section Sorted.
Context {Ent Prog : Type} {Bor : Borrow Ent Prog} `{ProgOrdLaws Prog} `{EqDecision Prog}.
Implicit Types (es a b : list (IdVal Ent)) (x e : IdVal Ent) (qa : Prog).

Abbreviation prog e := (borrow (pval e) : Prog).

(** The entries above [qa] come first, in descending order. *)
Definition sorted_above qa es : Prop :=
  ∀ i j x y, (i < j)%nat → es !! i = Some x → es !! j = Some y → plt qa (prog y) = true → ple (prog y) (prog x) = true.

Lemma sorted_above_weaken qa qa' es : ple qa qa' = true → sorted_above qa es → sorted_above qa' es.
Proof. intros Hle Hs i j x y Hij Hx Hy Hlt. eapply Hs; eauto. by eapply ple_plt_trans. Qed.

Lemma sorted_above_app qa a b :
  sorted_above qa (a ++ b) ↔
    sorted_above qa a ∧ sorted_above qa b
    ∧ ∀ x y, x ∈ a → y ∈ b → plt qa (prog y) = true → ple (prog y) (prog x) = true.
Proof.
  split.
  - intros Hs. split; [|split].
    + intros i j x y Hij Hx Hy. apply (Hs i j); [done|by apply lookup_app_l_Some..].
    + intros i j x y Hij Hx Hy.
      apply (Hs (length a + i) (length a + j))%nat; [lia| |]; rewrite lookup_app_r; try lia;
        by rewrite Nat.add_comm Nat.add_sub.
    + intros x y [i Hi]%list_elem_of_lookup [j Hj]%list_elem_of_lookup.
      apply (Hs i (length a + j))%nat.
      * apply lookup_lt_Some in Hi. lia.
      * by apply lookup_app_l_Some.
      * rewrite lookup_app_r; [lia|]. by rewrite Nat.add_comm Nat.add_sub.
  - intros (Ha & Hb & Hab) i j x y Hij [Hx|[Hxi Hx]]%lookup_app_Some [Hy|[Hyi Hy]]%lookup_app_Some.
    + by apply (Ha i j).
    + intros. apply Hab; [by apply list_elem_of_lookup_2 in Hx|by apply list_elem_of_lookup_2 in Hy|done].
    + apply lookup_lt_Some in Hy. lia.
    + apply (Hb (i - length a) (j - length a))%nat; [lia|done|done].
Qed.

Lemma sorted_above_singleton qa x : sorted_above qa [x].
Proof. intros [|i] [|j] ? ? ? ? ?; simplify_eq/=; lia. Qed.

(** [move_up] takes an entry past the smaller ones before it. *)
Lemma swap_snoc a y x b : swap (a ++ y :: x :: b) (length a) (S (length a)) = a ++ x :: y :: b.
Proof.
  unfold swap. rewrite list_lookup_middle //.
  rewrite lookup_app_r; [lia|]. replace (S (length a) - length a)%nat with 1%nat by lia. simpl.
  rewrite insert_app_r_alt; [lia|]. rewrite insert_app_r_alt; [lia|]. rewrite Nat.sub_diag. by replace (S (length a) - length a)%nat with 1%nat by lia.
Qed.

Lemma move_up_spec a x b :
  ∃ a1 a2, a = a1 ++ a2 ∧ move_up (a ++ x :: b) (length a) = (a1 ++ x :: a2 ++ b, length a1)
    ∧ (∀ y, y ∈ a2 → plt (prog y) (prog x) = true)
    ∧ (∀ y, last a1 = Some y → ple (prog x) (prog y) = true).
Proof.
  revert b. induction a as [|y a IH] using rev_ind; intros b.
  - exists [], []. split_and!; [done|done|by intros y ?%elem_of_nil|done].
  - rewrite length_app Nat.add_1_r -app_assoc. simpl. rewrite list_lookup_middle //.
    rewrite lookup_app_r; [lia|]. replace (S (length a) - length a)%nat with 1%nat by lia. simpl.
    destruct (plt (prog y) (prog x)) eqn:Hlt.
    + rewrite swap_snoc. destruct (IH (y :: b)) as (a1 & a2 & -> & Hm & Hlo & Hhi).
      exists a1, (a2 ++ [y]). split_and!; [by rewrite -app_assoc|by rewrite Hm -app_assoc| |done].
      intros z [Hz|Hz]%elem_of_app; [by apply Hlo|]. apply list_elem_of_singleton in Hz. by subst.
    + exists (a ++ [y]), []. rewrite app_nil_r length_app Nat.add_1_r -app_assoc. split_and!; [done|done|by intros z ?%elem_of_nil|].
      intros z. rewrite last_snoc. intros [= <-]. unfold plt in Hlt. by apply negb_false_iff in Hlt.
Qed.

(** When an entry that was not above [qa] rises above it, moving it up restores the order. *)
Lemma move_up_sorted qa a x0 x b a1 a2 :
  sorted_above qa (a ++ x0 :: b) → ple (prog x0) qa = true → plt qa (prog x) = true →
  a = a1 ++ a2 → (∀ y, y ∈ a2 → plt (prog y) (prog x) = true) → (∀ y, last a1 = Some y → ple (prog x) (prog y) = true) →
  sorted_above qa (a1 ++ x :: a2 ++ b) ∧ (∀ y, y ∈ b → ple (prog y) qa = true)
  ∧ (∀ y, y ∈ a1 → ple (prog x) (prog y) = true).
Proof.
  intros Hs Hx0 Hx -> Hlo Hhi. apply sorted_above_app in Hs as (Ha & Hb0 & Hab).
  change (x0 :: b) with ([x0] ++ b) in Hb0. apply sorted_above_app in Hb0 as (_ & Hb & Hxb).
  assert (∀ y, y ∈ b → ple (prog y) qa = true) as Hlow.
  { intros y Hy. destruct (ple (prog y) qa) eqn:Hle; [done|]. rewrite -Hle.
    apply (ple_trans _ (prog x0)); [|done]. apply Hxb; [set_solver|done|by apply plt_spec]. }
  apply sorted_above_app in Ha as (Ha1 & Ha2 & Ha12).
  assert (∀ y, y ∈ a1 → ple (prog x) (prog y) = true) as Hge.
  { intros y Hy. destruct a1 as [|z a1 _] using rev_ind; [by apply elem_of_nil in Hy|].
    specialize (Hhi z). rewrite last_snoc in Hhi. specialize (Hhi eq_refl).
    apply elem_of_app in Hy as [Hy|Hy]; [|apply list_elem_of_singleton in Hy; by subst].
    apply sorted_above_app in Ha1 as (_ & _ & Hz). apply (ple_trans _ (prog z)); [done|].
    apply Hz; [done|set_solver|]. by eapply plt_ple_trans. }
  split; [|done]. apply sorted_above_app. split; [done|]. split.
  - change (x :: a2 ++ b) with ([x] ++ a2 ++ b). apply sorted_above_app.
    split; [apply sorted_above_singleton|]. split.
    + apply sorted_above_app. split; [done|]. split; [done|]. intros y z Hy Hz Hlt.
      apply plt_spec in Hlt. by rewrite Hlow in Hlt.
    + intros y z ->%list_elem_of_singleton [Hz|Hz]%elem_of_app Hlt.
      * by apply plt_le, Hlo.
      * apply plt_spec in Hlt. by rewrite Hlow in Hlt.
  - intros y z Hy [->|Hz]%elem_of_cons Hlt; [by apply Hge|].
    apply elem_of_app in Hz as [Hz|Hz]; [by apply Ha12|].
    apply plt_spec in Hlt. by rewrite Hlow in Hlt.
Qed.

End Sorted.

(** * The greatest value that a quorum has reached *)

Section Accepted.
Context {Ent Prog : Type} {Bor : Borrow Ent Prog} `{ProgOrdLaws Prog} `{EqDecision Prog}.
Implicit Types (es a b : list (IdVal Ent)) (x e : IdVal Ent) (qa v : Prog) (p : VecProgress Ent Prog).

Abbreviation prog e := (borrow (pval e) : Prog).

(** The nodes of [es] that have reached [v]. *)
Definition reached v es : list Z := map pid (filter (λ e, ple v (prog e) = true) es).

Definition voters p : list (IdVal Ent) := take (voter_count p) (entries p).

(** Reference: [qa] is reached by a quorum of the voters, and nothing above it is. *)
Definition greatest_accepted (qs : LeaderQuorumSet) es qa : Prop :=
  is_quorum qs (reached qa es) = true ∧ ∀ v, plt qa v = true → is_quorum qs (reached v es) = false.

Definition vp_ok p : Prop :=
  quorum_mono (vp_quorum_set p) ∧ is_quorum (vp_quorum_set p) [] = false
  ∧ NoDup (map pid (entries p)) ∧ (voter_count p ≤ length (entries p))%nat
  ∧ sorted_above (quorum_accepted p) (voters p)
  ∧ greatest_accepted (vp_quorum_set p) (voters p) (quorum_accepted p).

Lemma elem_of_reached v es id : id ∈ reached v es ↔ ∃ e, e ∈ es ∧ pid e = id ∧ ple v (prog e) = true.
Proof.
  unfold reached. rewrite list_elem_of_fmap. setoid_rewrite list_elem_of_filter. naive_solver.
Qed.

Lemma NoDup_reached v es : NoDup (map pid es) → NoDup (reached v es).
Proof.
  unfold reached. intros Hnd. induction es as [|e es IH]; [constructor|].
  rewrite map_cons in Hnd. apply NoDup_cons in Hnd as [Hni Hnd]. rewrite filter_cons.
  destruct (decide _); [|by apply IH]. rewrite map_cons. apply NoDup_cons. split; [|by apply IH].
  intros Hin. apply Hni. apply list_elem_of_fmap in Hin as (e' & -> & [_ He']%list_elem_of_filter).
  apply list_elem_of_fmap. by exists e'.
Qed.

(** A part of a list that is not a quorum is none either. *)
Lemma not_quorum_sub (qs : LeaderQuorumSet) l1 l2 :
  quorum_mono qs → NoDup l1 → NoDup l2 → l1 ⊆ l2 → is_quorum qs l2 = false → is_quorum qs l1 = false.
Proof.
  intros Hmono Hn1 Hn2 Hsub Hq. destruct (is_quorum qs l1) eqn:Hq1; [|done].
  rewrite -Hq. symmetry. by apply (Hmono l1).
Qed.

Lemma accept_loop_spec (qs : LeaderQuorumSet) es rest qa i n :
  quorum_mono qs → NoDup (map pid es) → sorted_above qa es →
  is_quorum qs (reached qa es) = true → (i + n = length es)%nat →
  is_quorum qs (map pid (take i es)) = false →
  let qa' := accept_loop qs (es ++ rest) qa i n in
  ple qa qa' = true ∧ greatest_accepted qs es qa'.
Proof.
  intros Hmono Hnd Hs Hqa. revert i. induction n as [|n IH]; intros i Hin Hpre; simpl.
  - split; [apply ple_refl|]. split; [done|]. intros v Hv.
    rewrite take_ge in Hpre; [lia|]. apply (not_quorum_sub qs _ (map pid es)); eauto using NoDup_reached.
    intros id (e & He & <- & _)%elem_of_reached. apply list_elem_of_fmap. by exists e.
  - destruct (lookup_lt_is_Some_2 es i) as [e He]; [lia|].
    rewrite (lookup_app_l_Some _ _ _ _ He).
    assert (∀ m, NoDup (map pid (take m es))) as Hndt.
    { intros m. rewrite -{1}(take_drop m es) map_app in Hnd. by apply NoDup_app in Hnd as (? & _ & _). }
    assert (∀ v, plt qa v = true → plt (prog e) v = true → is_quorum qs (reached v es) = false) as Habove.
    { intros v Hv Hev. apply (not_quorum_sub qs _ (map pid (take i es))); eauto using NoDup_reached.
      intros id (y & Hy & <- & Hyv)%elem_of_reached. apply list_elem_of_lookup in Hy as [j Hj].
      apply list_elem_of_fmap. exists y. split; [done|].
      assert (j < i)%nat; [|apply list_elem_of_lookup; exists j; by rewrite lookup_take_lt].
      destruct (Nat.lt_total j i) as [?|[->|Hij]]; [done| |].
      - simplify_eq. apply plt_spec in Hev. by rewrite Hev in Hyv.
      - assert (ple (prog y) (prog e) = true) as Hye by (apply (Hs i j); try done; by eapply plt_ple_trans).
        apply plt_spec in Hev. rewrite (ple_trans v (prog y) (prog e)) // in Hev. }
    destruct (ple (prog e) qa) eqn:Hle.
    { split; [apply ple_refl|]. split; [done|]. intros v Hv. apply Habove; [done|]. by eapply ple_plt_trans. }
    destruct (is_quorum qs (map pid (take (S i) (es ++ rest)))) eqn:Hq.
    + split; [by apply ple_false_lt|]. rewrite take_app_le in Hq; [lia|]. split.
      * apply (Hmono (map pid (take (S i) es))); eauto using NoDup_reached. intros id (y & -> & Hy)%list_elem_of_fmap.
        apply elem_of_reached. exists y. apply list_elem_of_lookup in Hy as [j Hj].
        apply lookup_take_Some in Hj as [Hj Hji]. split; [by eapply list_elem_of_lookup_2|]. split; [done|].
        destruct (decide (j = i)) as [->|Hne]; [simplify_eq; apply ple_refl|].
        apply (Hs j i); [lia|done|done|]. by apply plt_spec.
      * intros v Hv. apply Habove; [|done]. apply plt_spec in Hle. by eapply plt_ple_trans, plt_le.
    + rewrite take_app_le in Hq; [lia|]. apply IH; [lia|done].
Qed.

Lemma index_of_split es id i :
  index_of es id = Some i → ∃ a x b, es = a ++ x :: b ∧ length a = i ∧ pid x = id.
Proof.
  revert i. induction es as [|e es IH]; intros i; simpl; [done|].
  destruct (Z.eqb_spec (pid e) id) as [He|He].
  - intros [= <-]. by exists [], e, es.
  - destruct (index_of es id) as [j|] eqn:Hj; [|done]. intros [= <-].
    destruct (IH j eq_refl) as (a & x & b & -> & <- & Hx). by exists (e :: a), x, b.
Qed.

(** Raising the value of one voter: who has reached a value. *)
Section Raise.
Context (a b : list (IdVal Ent)) (x0 x : IdVal Ent).
Hypothesis Hpid : pid x = pid x0.
Hypothesis Hle : ple (prog x0) (prog x) = true.

Lemma raise_pids : map pid (a ++ x :: b) = map pid (a ++ x0 :: b).
Proof. rewrite !map_app !map_cons. by rewrite Hpid. Qed.

Lemma raise_reached v : reached v (a ++ x0 :: b) ⊆ reached v (a ++ x :: b).
Proof.
  intros id (e & He & <- & Hv)%elem_of_reached. apply elem_of_reached.
  apply elem_of_app in He as [He|[->|He]%elem_of_cons]; [exists e; set_solver| |exists e; set_solver].
  exists x. split; [set_solver|]. split; [done|]. by apply (ple_trans _ (prog x0)).
Qed.

Lemma raise_reached_at_most v w :
  ple w v = true → (ple v (prog x) = true → ple w (prog x0) = true) →
  reached v (a ++ x :: b) ⊆ reached w (a ++ x0 :: b).
Proof.
  intros Hwv Hx id (e & He & <- & Hv)%elem_of_reached. apply elem_of_reached.
  apply elem_of_app in He as [He|[->|He]%elem_of_cons].
  - exists e. split; [set_solver|]. split; [done|]. by apply (ple_trans _ v).
  - exists x0. split; [set_solver|]. split; [done|]. by apply Hx.
  - exists e. split; [set_solver|]. split; [done|]. by apply (ple_trans _ v).
Qed.

(** A voter that was above the accepted value, or stays below it, does not change that value. *)
Lemma raise_greatest (qs : LeaderQuorumSet) qa :
  quorum_mono qs → NoDup (map pid (a ++ x0 :: b)) →
  plt qa (prog x0) = true ∨ ple (prog x) qa = true →
  greatest_accepted qs (a ++ x0 :: b) qa → greatest_accepted qs (a ++ x :: b) qa.
Proof.
  intros Hmono Hnd Hcase [Hq Hmax].
  assert (NoDup (map pid (a ++ x :: b))) as Hnd' by (by rewrite raise_pids).
  split; [by apply (Hmono (reached qa (a ++ x0 :: b))); auto using NoDup_reached, raise_reached|].
  intros v Hv.
  assert (∃ w, plt qa w = true ∧ ple w v = true ∧ (ple v (prog x) = true → ple w (prog x0) = true)) as (w & Hw & Hwv & Hwx).
  { destruct Hcase as [Hx0|Hx].
    - destruct (ple_total v (prog x0)) as [Ht|Ht].
      + exists v. split; [done|]. split; [apply ple_refl|done].
      + exists (prog x0). split; [done|]. split; [done|]. intros _. apply ple_refl.
    - exists v. split; [done|]. split; [apply ple_refl|]. intros Hvx.
      apply plt_spec in Hv. rewrite (ple_trans v (prog x) qa) // in Hv. }
  apply (not_quorum_sub qs _ (reached w (a ++ x0 :: b))); auto using NoDup_reached, raise_reached_at_most.
Qed.

(** ... and leaves the order alone if it does not pass one before it. *)
Lemma raise_sorted qa :
  sorted_above qa (a ++ x0 :: b) →
  plt qa (prog x0) = true ∧ (∀ y, y ∈ a → ple (prog x) (prog y) = true) ∨ ple (prog x) qa = true →
  sorted_above qa (a ++ x :: b).
Proof.
  intros Hs Hcase. apply sorted_above_app in Hs as (Ha & Hxb & Hab).
  change (x0 :: b) with ([x0] ++ b) in Hxb. apply sorted_above_app in Hxb as (_ & Hb & Hxb).
  apply sorted_above_app. split; [done|]. split.
  - change (x :: b) with ([x] ++ b). apply sorted_above_app. split; [apply sorted_above_singleton|]. split; [done|].
    intros y z ->%list_elem_of_singleton Hz Hlt. apply (ple_trans _ (prog x0)); [|done]. apply Hxb; set_solver.
  - intros y z Hy [->|Hz]%elem_of_cons Hlt.
    + destruct Hcase as [[_ Hord]|Hx]; [by apply Hord|]. apply plt_spec in Hlt. congruence.
    + apply Hab; set_solver.
Qed.

End Raise.

(** The value [n] of a voter [id] would not pass the value of an entry before it. *)
Definition rises_in_order p (id : Z) (n : Prog) : Prop :=
  ∀ i j e, vp_index p id = Some i → (i < voter_count p)%nat → (j < i)%nat → entries p !! j = Some e →
    ple n (prog e) = true.

(** An update from [prev] to [n] that the code handles: from at most the accepted value, or in order. *)
Definition keeps_order p (id : Z) (prev n : Prog) : Prop :=
  ple prev (quorum_accepted p) = true ∨ prev = n ∨ rises_in_order p id n.

(** What one update does to the voters: nothing, a change in place, or a change and a move. *)
Lemma move_up_prefix es rest i : (i < length es)%nat →
  move_up (es ++ rest) i = ((move_up es i).1 ++ rest, (move_up es i).2).
Proof.
  revert es. induction i as [|i IH]; intros es Hi; simpl; [done|].
  rewrite !lookup_app_l; [lia..|].
  destruct (lookup_lt_is_Some_2 es i) as [u Hu]; [lia|]. destruct (lookup_lt_is_Some_2 es (S i)) as [w Hw]; [lia|].
  rewrite Hu Hw. destruct (plt _ _); [|done].
  assert (swap (es ++ rest) i (S i) = swap es i (S i) ++ rest) as ->.
  { unfold swap. rewrite !lookup_app_l; [lia..|]. rewrite Hu Hw.
    rewrite insert_app_l; [lia|]. rewrite insert_app_l; [rewrite length_insert; lia|done]. }
  apply IH. unfold swap. rewrite Hu Hw !length_insert. lia.
Qed.

Lemma voters_split p a x b :
  entries p = a ++ x :: b → (length a < voter_count p)%nat →
  voters p = a ++ x :: take (voter_count p - length a - 1) b.
Proof.
  intros He Hlt. unfold voters. rewrite He take_app. f_equal; [by rewrite take_ge; [lia|]|].
  destruct (voter_count p - length a)%nat as [|m] eqn:Hm; [lia|]. simpl. by rewrite Nat.sub_0_r.
Qed.

(** A change in place: of a learner, or of a voter that keeps the order. *)
Lemma in_place_ok p a x0 x b :
  vp_ok p → entries p = a ++ x0 :: b → pid x = pid x0 → ple (prog x0) (prog x) = true →
  (voter_count p ≤ length a)%nat
    ∨ plt (quorum_accepted p) (prog x0) = true ∧ (∀ y, y ∈ a → ple (prog x) (prog y) = true)
    ∨ ple (prog x) (quorum_accepted p) = true →
  vp_ok (with_entries (a ++ x :: b) p).
Proof.
  intros (Hmono & Hempty & Hnd & Hlen & Hs & Hg) He Hpid Hle Hcase.
  split; [done|]. split; [done|]. simpl.
  split; [by rewrite (raise_pids a b x0 x Hpid) -He|].
  split; [rewrite He !length_app /= in Hlen |- *; lia|].
  destruct (decide (voter_count p ≤ length a)%nat) as [Hv|Hv].
  - assert (voters (with_entries (a ++ x :: b) p) = voters p) as ->.
    { unfold voters. simpl. rewrite He. by rewrite !take_app_le; [lia..|]. }
    done.
  - destruct Hcase as [?|Hcase]; [done|].
    rewrite (voters_split (with_entries (a ++ x :: b) p) a x b) //=; [lia|].
    rewrite (voters_split p a x0 b) // in Hs, Hg; [lia..|].
    set (b' := take _ b) in *. split; [by eapply raise_sorted; eauto|].
    apply (raise_greatest _ _ x0); try done.
    + assert (∃ r, entries p = (a ++ x0 :: b') ++ r) as [r Hr].
      { exists (drop (voter_count p - length a - 1) b). rewrite He -app_assoc. simpl. unfold b'. by rewrite take_drop. }
      rewrite Hr map_app in Hnd. by apply NoDup_app in Hnd as (? & _ & _).
    + naive_solver.
Qed.

(** A voter that rises above the accepted value: the move and the search that follow. *)
Lemma rise_ok p a x0 x b :
  vp_ok p → entries p = a ++ x0 :: b → (length a < voter_count p)%nat → pid x = pid x0 →
  ple (prog x0) (prog x) = true → ple (prog x0) (quorum_accepted p) = true → plt (quorum_accepted p) (prog x) = true →
  let m := move_up (a ++ x :: b) (length a) in
  let qa := accept_loop (vp_quorum_set p) m.1 (quorum_accepted p) m.2 (voter_count p - m.2) in
  vp_ok (with_accepted qa (with_entries m.1 p)) ∧ ple (quorum_accepted p) qa = true.
Proof.
  intros (Hmono & Hempty & Hnd & Hlen & Hs & Hg & Hmax) He Hv Hpid Hle Hq Hgt.
  pose proof (voters_split p a x0 b He Hv) as Hvs.
  set (b1 := take _ b) in *. set (b2 := drop (voter_count p - length a - 1) b).
  assert (b = b1 ++ b2) as Hb by (unfold b1, b2; by rewrite take_drop).
  assert (length (a ++ x0 :: b1) = voter_count p) as Hvl by (rewrite -Hvs; unfold voters; rewrite length_take; lia).
  rewrite Hvs in Hs, Hg, Hmax. rewrite Hb app_comm_cons app_assoc move_up_prefix; [rewrite length_app /=; lia|].
  destruct (move_up_spec a x b1) as (a1 & a2 & Ha & Hm & Hlo & Hhi). rewrite Hm /=.
  destruct (move_up_sorted _ a x0 x b1 a1 a2 Hs Hq Hgt Ha Hlo Hhi) as (Hs' & Hlow & Hge).
  rewrite He Hb app_comm_cons app_assoc in Hnd.
  assert (NoDup (map pid (a ++ x0 :: b1))) as Hnd1 by (rewrite map_app in Hnd; by apply NoDup_app in Hnd as (? & _ & _)).
  assert (map pid (a1 ++ x :: a2 ++ b1) ≡ₚ map pid (a ++ x0 :: b1)) as Hperm.
  { rewrite Ha !map_app !map_cons !map_app Hpid. solve_Permutation. }
  assert (NoDup (map pid (a1 ++ x :: a2 ++ b1))) as Hnd2 by (by rewrite Hperm).
  assert (length (a1 ++ x :: a2 ++ b1) = voter_count p) as Hvl'
    by (rewrite -Hvl Ha !length_app /= !length_app /=; lia).
  destruct (accept_loop_spec (vp_quorum_set p) (a1 ++ x :: a2 ++ b1) b2 (quorum_accepted p) (length a1)
    (voter_count p - length a1)) as [Hup Hgr]; [done|done|done| | | |].
  - apply (Hmono (reached (quorum_accepted p) (a ++ x0 :: b1))); auto using NoDup_reached.
    intros id' Hin. apply (raise_reached a b1 x0 x) in Hin; [|done|done].
    apply elem_of_reached in Hin as (y & Hy & Hid & Hyq). apply elem_of_reached. exists y. rewrite Ha in Hy. set_solver.
  - rewrite length_app /= in Hvl'. rewrite length_app /=. lia.
  - rewrite take_app_length. apply (not_quorum_sub _ _ (reached (prog x) (a ++ x0 :: b1))); auto using NoDup_reached.
    + rewrite map_app in Hnd2. by apply NoDup_app in Hnd2 as (? & _ & _).
    + intros id' (y & -> & Hy)%list_elem_of_fmap. apply elem_of_reached. exists y.
      split; [rewrite Ha; set_solver|]. split; [done|]. by apply Hge.
  - split; [|done]. set (qa := accept_loop _ _ _ _ _) in *.
    assert (voters (with_accepted qa (with_entries ((a1 ++ x :: a2 ++ b1) ++ b2) p)) = a1 ++ x :: a2 ++ b1) as Hvn
      by (unfold voters; simpl; rewrite -Hvl' take_app_length //).
    split; [done|]. split; [done|]. simpl. split; [by rewrite map_app Hperm -map_app|].
    split; [rewrite length_app Hvl'; lia|]. rewrite Hvn. split; [|done]. by eapply sorted_above_weaken.
Qed.

Lemma update_with_raise p id f a x0 b :
  vp_ok p → entries p = a ++ x0 :: b → vp_index p id = Some (length a) →
  ple (prog x0) (borrow (f (pval x0))) = true →
  keeps_order p id (prog x0) (borrow (f (pval x0))) →
  vp_ok (snd (update_with id f p)) ∧ fst (update_with id f p) = Okay (quorum_accepted (snd (update_with id f p)))
  ∧ ple (quorum_accepted p) (quorum_accepted (snd (update_with id f p))) = true.
Proof.
  intros Hok He Hi Hle Hord. set (x := MkIdVal (pid x0) (f (pval x0))).
  assert (∀ y, y ∈ a → ∃ j, (j < length a)%nat ∧ entries p !! j = Some y) as Hbefore.
  { intros y [j Hj]%list_elem_of_lookup. exists j. split; [by apply lookup_lt_Some in Hj|].
    rewrite He. by apply lookup_app_l_Some. }
  unfold update_with. rewrite Hi He list_lookup_middle //.
  rewrite insert_app_r_alt; [lia|]. rewrite Nat.sub_diag. simpl.
  assert (∀ y, y ∈ a → plt (quorum_accepted p) (prog x0) = true → (length a < voter_count p)%nat → ple (prog x0) (prog y) = true) as Hsort.
  { intros y Hy Hgt Hv. destruct Hok as (_ & _ & _ & _ & Hs & _).
    rewrite (voters_split p a x0 b) // in Hs. apply sorted_above_app in Hs as (_ & _ & Hs). apply Hs; set_solver. }
  case_bool_decide as Heq.
  { simpl. split_and!; [|done|apply ple_refl]. apply (in_place_ok p a x0 x b); try done.
    destruct (decide (voter_count p ≤ length a)%nat); [by left|]. right.
    change (borrow (pval x)) with (borrow (f (pval x0)) : Prog). rewrite -Heq.
    destruct (ple (prog x0) (quorum_accepted p)) eqn:Hq; [by right|]. left.
    apply plt_spec in Hq. split; [done|]. intros y Hy. apply Hsort; [done|done|lia]. }
  destruct (Nat.leb_spec (voter_count p) (length a)) as [Hv|Hv].
  { simpl. split_and!; [|done|apply ple_refl]. apply (in_place_ok p a x0 x b); auto. }
  destruct (ple (prog x0) (quorum_accepted p)) eqn:Hq; [destruct (plt (quorum_accepted p) (borrow (f (pval x0)))) eqn:Hgt|]; simpl.
  - destruct (rise_ok p a x0 x b) as [Hok' Hup]; [done..|].
    change (MkIdVal (pid x0) (f (pval x0))) with x. destruct (move_up (a ++ x :: b) (length a)) as [es ni]. simpl in *. done.
  - split_and!; [|done|apply ple_refl]. apply (in_place_ok p a x0 x b); try done. right. right.
    unfold plt in Hgt. by apply negb_false_iff in Hgt.
  - split_and!; [|done|apply ple_refl]. apply (in_place_ok p a x0 x b); try done. right. left.
    split; [by apply plt_spec|]. intros y (j & Hj & Hy)%Hbefore. destruct Hord as [?|[?|Hord]]; [congruence|done|].
    by apply (Hord (length a) j).
Qed.

Lemma try_get_split p id (v : Ent) :
  try_get id p = Some v → ∃ a x0 b, entries p = a ++ x0 :: b ∧ vp_index p id = Some (length a) ∧ pid x0 = id ∧ pval x0 = v.
Proof.
  unfold try_get. destruct (vp_index p id) as [i|] eqn:Hi; [|done].
  destruct (index_of_split _ _ _ Hi) as (a & x0 & b & He & <- & Hx). rewrite He list_lookup_middle //.
  intros [= <-]. by exists a, x0, b.
Qed.

Lemma update_with_ok p id f (v : Ent) :
  vp_ok p → try_get id p = Some v → ple (borrow v) (borrow (f v)) = true → keeps_order p id (borrow v) (borrow (f v)) →
  vp_ok (snd (update_with id f p)) ∧ fst (update_with id f p) = Okay (quorum_accepted (snd (update_with id f p)))
  ∧ ple (quorum_accepted p) (quorum_accepted (snd (update_with id f p))) = true.
Proof.
  intros Hok (a & x0 & b & He & Hi & Hx & <-)%try_get_split Hle Hord. by eapply update_with_raise.
Qed.

(** A vector that starts with one value for all. *)
Lemma vp_new_ok (qs : LeaderQuorumSet) learners (v : Ent) :
  quorum_mono qs → is_quorum qs [] = false → is_quorum qs (ids qs) = true → NoDup (ids qs ++ learners) →
  vp_ok (vp_new qs learners v).
Proof.
  intros Hmono Hempty Hall Hnd.
  assert (voters (vp_new qs learners v) = map (λ id, MkIdVal id v) (ids qs)) as Hvs
    by (unfold voters, vp_new; simpl; by rewrite take_app_length).
  assert (∀ e, e ∈ map (λ id, MkIdVal id v) (ids qs) → pval e = v) as Hval
    by (intros e (id & -> & _)%list_elem_of_fmap; done).
  split; [done|]. split; [done|]. split.
  { simpl. rewrite map_app !map_map /= !map_id. done. }
  split; [simpl; rewrite length_app; lia|]. rewrite Hvs. split; [|split].
  - intros i j x y _ _ Hy%list_elem_of_lookup_2. simpl. rewrite (Hval y) // plt_spec ple_refl //.
  - simpl. unfold reached. assert (∀ l, filter (λ e, ple (borrow v : Prog) (prog e) = true) (map (λ id, MkIdVal id v) l)
      = map (λ id, MkIdVal id v) l) as ->.
    { induction l as [|id l IH]; [done|]. rewrite map_cons filter_cons_True; [apply ple_refl|by rewrite IH]. }
    by rewrite map_map /= map_id.
  - intros w Hw. simpl in Hw. assert (reached w (map (λ id, MkIdVal id v) (ids qs)) = []) as ->; [|done].
    destruct (reached w _) as [|id l] eqn:Hr; [done|]. exfalso.
    assert (id ∈ reached w (map (λ id, MkIdVal id v) (ids qs))) as Hin by (rewrite Hr; set_solver).
    apply elem_of_reached in Hin as (e & He & _ & Hwe). rewrite (Hval e He) in Hwe.
    apply plt_spec in Hw. by rewrite Hw in Hwe.
Qed.

(** Updates over time. *)
Definition vp_step p p' : Prop :=
  ∃ id f (v : Ent), try_get id p = Some v ∧ ple (borrow v) (borrow (f v)) = true
    ∧ keeps_order p id (borrow v) (borrow (f v)) ∧ p' = snd (update_with id f p).

Lemma vp_steps_ok p p' :
  vp_ok p → rtc vp_step p p' → vp_ok p' ∧ ple (quorum_accepted p) (quorum_accepted p') = true.
Proof.
  intros Hok Hrtc. induction Hrtc as [p|p q r (id & f & v & Hv & Hle & Hord & ->) _ IH]; [auto using ple_refl|].
  destruct (update_with_ok p id f v Hok Hv Hle Hord) as (Hok' & _ & Hup).
  destruct (IH Hok') as [? Hup']. split; [done|]. by eapply ple_trans.
Qed.

(** In a group where two voters are a quorum, one at most is above the accepted value. *)
Definition pairs_are_quorums (qs : LeaderQuorumSet) : Prop :=
  ∀ x y : Z, x ≠ y → x ∈ ids qs → y ∈ ids qs → is_quorum qs [x; y] = true.

Lemma pairs_keep_order p id (v : Ent) n :
  vp_ok p → pairs_are_quorums (vp_quorum_set p) → (∀ e, e ∈ voters p → pid e ∈ ids (vp_quorum_set p)) →
  try_get id p = Some v → keeps_order p id (borrow v) n.
Proof.
  intros (Hmono & Hempty & Hnd & Hlen & Hs & Hg & Hmax) Hpairs Hids (a & x0 & b & He & Hi & Hx & <-)%try_get_split.
  destruct (ple (prog x0) (quorum_accepted p)) eqn:Hq; [by left|]. right. right.
  intros i j e Hi' Hiv Hji Hj. rewrite Hi in Hi'. injection Hi' as <-. exfalso.
  rewrite (voters_split p a x0 b) // in Hs, Hg, Hmax, Hids.
  assert (e ∈ a) as Hea by (rewrite He lookup_app_l // in Hj; by eapply list_elem_of_lookup_2).
  set (b' := take _ b) in *. apply plt_spec in Hq. apply sorted_above_app in Hs as (_ & _ & Hs).
  assert (ple (prog x0) (prog e) = true) as Hge by (apply Hs; set_solver).
  specialize (Hmax (prog x0) Hq).
  assert (NoDup (map pid (a ++ x0 :: b'))) as Hnd'.
  { rewrite He -(take_drop (voter_count p - length a - 1) b) app_comm_cons app_assoc map_app in Hnd.
    by apply NoDup_app in Hnd as (? & _ & _). }
  assert (pid e ≠ pid x0) as Hne.
  { rewrite map_app map_cons in Hnd'. apply NoDup_app in Hnd' as (_ & Hd & _). intros Heq.
    apply (Hd (pid e)); [apply list_elem_of_fmap; by exists e|]. rewrite Heq. set_solver. }
  rewrite -not_true_iff_false in Hmax. apply Hmax.
  apply (Hmono [pid e; pid x0]); [|by apply NoDup_reached| |].
  - apply NoDup_cons. split; [set_solver|apply NoDup_singleton].
  - intros id' Hin. apply elem_of_reached.
    apply elem_of_cons in Hin as [->|Hin]; [|apply list_elem_of_singleton in Hin as ->].
    + exists e. split; [set_solver|]. by split.
    + exists x0. split; [set_solver|]. split; [done|apply ple_refl].
  - apply Hpairs; [done|apply Hids; set_solver|apply Hids; set_solver].
Qed.

End Accepted.

(** Quorum sets of memberships are monotone, not empty, and all voters are a quorum. *)
Lemma to_quorum_set_empty m : configs m ≠ [] → is_quorum (to_quorum_set m) [] = false.
Proof.
  intros Hne. destruct (is_quorum _ _) eqn:Hq; [|done]. destruct (configs m) as [|c l] eqn:Hc; [done|].
  apply (joint_is_quorum_child _ (btree_iter c)) in Hq; [done|].
  unfold to_quorum_set, get_joint_config. rewrite Hc. simpl. set_solver.
Qed.

Lemma elem_of_ids_quorum_set m id : id ∈ ids (to_quorum_set m) ↔ is_voter m id = true.
Proof.
  rewrite -elem_of_voter_ids. unfold voter_ids, to_quorum_set, get_joint_config, ids, joint_quorum.
  rewrite !elem_of_btree_iter. simpl. generalize (∅ : gset Z). induction (configs m) as [|c l IH]; intros acc; simpl; [done|].
  unfold ids, vec_quorum, set_quorum in *.
  assert (list_to_set (btree_iter (list_to_set (btree_iter c))) =@{gset Z} list_to_set (btree_iter c)) as ->; [|apply IH].
  apply set_eq. intros x. by rewrite !elem_of_list_to_set !elem_of_btree_iter elem_of_list_to_set !elem_of_btree_iter.
Qed.

Lemma to_quorum_set_all m : Forall (λ c, c ≠ ∅) (configs m) → is_quorum (to_quorum_set m) (ids (to_quorum_set m)) = true.
Proof.
  intros Hne. unfold is_quorum, joint_quorum. apply forallb_forall. intros v Hv%list_elem_of_In.
  apply list_elem_of_fmap in Hv as (c & -> & Hc). apply vec_is_quorum_majority; [apply NoDup_btree_iter|].
  unfold majority. rewrite Forall_forall in Hne. specialize (Hne c Hc). set (F := filter _ _).
  assert (btree_iter c ⊆+ F) as Hsub.
  { unfold F. apply NoDup_submseteq; [apply NoDup_btree_iter|]. intros id Hid. apply list_elem_of_filter.
    split; [by apply elem_of_list_to_set|]. apply elem_of_ids_quorum_set. unfold is_voter. apply existsb_exists.
    exists c. split; [by apply list_elem_of_In|]. apply bool_decide_eq_true. by apply elem_of_btree_iter. }
  apply submseteq_length in Hsub. rewrite size_list_to_set; [apply NoDup_btree_iter|].
  rewrite length_btree_iter in Hsub |- *. assert (size c ≠ 0%nat) by (intros Hz; by apply Hne, leibniz_equiv, size_empty_inv).
  lia.
Qed.

Lemma membership_progress_ok {Ent Prog} {Bor : Borrow Ent Prog} `{ProgOrdLaws Prog} `{EqDecision Prog} m (v : Ent) :
  configs m ≠ [] → Forall (λ c, c ≠ ∅) (configs m) → vp_ok (vp_new (to_quorum_set m) (learner_ids m) v).
Proof.
  intros Hne Hall. apply vp_new_ok; auto using to_quorum_set_mono, to_quorum_set_empty, to_quorum_set_all.
  apply NoDup_app. split; [apply NoDup_btree_iter|]. split.
  - intros id Hid%elem_of_ids_quorum_set. unfold learner_ids. rewrite list_elem_of_filter. intros [Hv _]. congruence.
  - unfold learner_ids. apply NoDup_filter. unfold btree_keys. rewrite sorting.merge_sort_Permutation. apply NoDup_fst_map_to_list.
Qed.

(** C23: the value that a progress reports as accepted is the greatest one that a quorum of the voters
    has reached, and it does not go back, over any updates that raise a value which is not
    above the accepted one, or raise it without passing an entry that is kept before it. *)
Theorem quorum_accepted_is_greatest {Ent Prog} {Bor : Borrow Ent Prog} `{ProgOrdLaws Prog} `{EqDecision Prog}
    m (v : Ent) (p p' : VecProgress Ent Prog) :
  configs m ≠ [] → Forall (λ c, c ≠ ∅) (configs m) →
  rtc vp_step (vp_new (to_quorum_set m) (learner_ids m) v) p → vp_step p p' →
  greatest_accepted (vp_quorum_set p') (voters p') (quorum_accepted p')
  ∧ ple (quorum_accepted p) (quorum_accepted p') = true.
Proof.
  intros Hne Hall Hrtc Hstep.
  destruct (vp_steps_ok _ p (membership_progress_ok m v Hne Hall) Hrtc) as [Hok _].
  destruct (vp_steps_ok p p' Hok (rtc_once _ _ Hstep)) as [(_ & _ & _ & _ & _ & Hg) Hup]. done.
Qed.

(** with five voters the accepted value can be one that no quorum has reached. Voter 0 reaches 6,
    voter 1 reaches 5 and then 9, which is above the accepted value already and is not moved up;
    when voter 2 reaches 7, the entries before it are taken for ones that have reached 7 too. Two
    voters of five have. *)
Theorem quorum_accepted_without_quorum :
  let p := foldl (λ p u, snd (increase_to (fst u) (Some (snd u)) p))
             (vp_new (Bor := λ x, x) (MkJoint [[0; 1; 2; 3; 4]]) [] (None : option Z)) [(0, 6); (1, 5); (1, 9); (2, 7)] in
  quorum_accepted p = Some 7
  ∧ reached (Bor := λ x : option Z, x) (Some 7) (voters p) = [1; 2]
  ∧ is_quorum (vp_quorum_set p) (reached (Bor := λ x : option Z, x) (Some 7) (voters p)) = false.
Proof. vm_compute. done. Qed.
