(* ===== verification/RaftState.v ===== *)
(** The state of a Raft node: [vote/], [utime.rs], [raft_state/], [log_id_range.rs],
    [progress/entry/], [progress/inflight/] and [proposer/] of [src/octopii/openraft/openraft/src/].

    [RaftState] is what a node keeps as an acceptor: its vote with the leader's lease, the ids of
    its log, the memberships, and how far each kind of I/O has been accepted, submitted and
    flushed. [Candidate] and [Leader] are what it keeps as a proposer; a [ProgressEntry] is what a leader
    knows of one follower. Instants are integers. *)

From stdpp Require Import strings.
From S2P Require Import Prelude LogStore RaftQuorum RaftMembership RaftLogIds RaftProgress.

#[local] Open Scope Z_scope.

#[export] Instance vote_eq_dec : EqDecision Vote. Proof. solve_decision. Defined.

(** * Votes *)

(** [RefVote::partial_cmp]: by leader, and a committed vote is above a vote that is not. *)
Definition bool_cmp (a b : bool) : comparison :=
  match a, b with false, true => Lt | true, false => Gt | _, _ => Eq end.
Definition vote_cmp (a b : Vote) : comparison :=
  match leader_id_cmp (vote_leader a) (vote_leader b) with
  | Eq => bool_cmp (vote_committed a) (vote_committed b)
  | c => c
  end.
Definition vote_le (a b : Vote) : bool := match vote_cmp a b with Gt => false | _ => true end.
Definition vote_lt (a b : Vote) : bool := match vote_cmp a b with Lt => true | _ => false end.

(** A [CommittedVote] and a [NonCommittedVote] are given by their leader. *)
Definition CommittedVote := LeaderId.
Definition committed_into_vote (v : CommittedVote) : Vote := MkVote v true.
Definition non_committed_into_vote (v : LeaderId) : Vote := MkVote v false.
Definition to_committed (v : Vote) : CommittedVote := vote_leader v.
Definition vote_term (v : Vote) : Z := term (vote_leader v).
Definition is_same_leader (v : Vote) (l : LeaderId) : bool := bool_decide (vote_leader v = l).
Definition default_leader_id : LeaderId := MkLeaderId 0 0.
Definition default_vote : Vote := MkVote default_leader_id false.
Definition default_log_id : LogId := MkLogId default_leader_id 0.

(** [Leased<Vote>]. *)
Record Leased := MkLeased { leased_vote : Vote; last_update : option Z; lease : Z; lease_enabled : bool }.
Definition default_leased : Leased := MkLeased default_vote None 0 true.
Definition leased_update (now lease_for : Z) (v : Vote) : Leased := MkLeased v (Some now) lease_for true.
Definition disable_lease (l : Leased) : Leased := MkLeased (leased_vote l) (last_update l) 0 false.
Definition touch (now lease_for : Z) (l : Leased) : Leased :=
  MkLeased (leased_vote l) (Some now) (if lease_enabled l then lease_for else lease l) (lease_enabled l).
Definition is_expired (l : Leased) (now timeout : Z) : bool :=
  match last_update l with Some u => u + lease l + timeout <? now | None => true end.

(** * Progress of I/O *)

(** [LogIOId] and [IOId]: an I/O that saves a vote, or one that appends log under a committed vote. *)
Record LogIOId := MkLogIOId { committed_vote : CommittedVote; io_log_id : option LogId }.
Inductive IOId := IOVote (v : LeaderId) | IOLog (l : LogIOId).

Definition new_log_io (v : CommittedVote) (l : option LogId) : IOId := IOLog (MkLogIOId v l).
Definition new_io (v : Vote) : IOId :=
  if vote_committed v then new_log_io (to_committed v) None else IOVote (vote_leader v).
Definition to_app_vote (i : IOId) : Vote :=
  match i with IOVote v => non_committed_into_vote v | IOLog l => committed_into_vote (committed_vote l) end.
Definition to_committed_vote (i : IOId) : option CommittedVote :=
  match i with IOVote _ => None | IOLog l => Some (committed_vote l) end.
Definition io_last_log_id (i : IOId) : option LogId := match i with IOVote _ => None | IOLog l => io_log_id l end.

(** [Option<LogId>::cmp]. *)
Definition opt_log_id_cmp (a b : option LogId) : comparison :=
  match a, b with
  | None, None => Eq
  | None, Some _ => Lt
  | Some _, None => Gt
  | Some a, Some b => log_id_cmp a b
  end.
Definition io_id_cmp (a b : IOId) : comparison :=
  match vote_cmp (to_app_vote a) (to_app_vote b) with
  | Eq => opt_log_id_cmp (io_last_log_id a) (io_last_log_id b)
  | c => c
  end.
Definition log_io_id_cmp (a b : LogIOId) : comparison :=
  match leader_id_cmp (committed_vote a) (committed_vote b) with
  | Eq => opt_log_id_cmp (io_log_id a) (io_log_id b)
  | c => c
  end.

(** [Option<T>], [a < b], for a [cmp] of [T]. *)
Definition opt_lt {T} (cmp : T → T → comparison) (a b : option T) : bool :=
  match a, b with
  | _, None => false
  | None, Some _ => true
  | Some a, Some b => match cmp a b with Lt => true | _ => false end
  end.

Record IOProgress (T : Type) := MkIOProgress { accepted : option T; submitted : option T; flushed : option T }.
Arguments MkIOProgress {_} _ _ _.
Arguments accepted {_} _.
Arguments submitted {_} _.
Arguments flushed {_} _.

Section IOProgress.
Context {T : Type} (cmp : T → T → comparison).
Definition new_synchronized (v : option T) : IOProgress T := MkIOProgress v v v.
Definition accept (v : T) (p : IOProgress T) : IOProgress T := MkIOProgress (Some v) (submitted p) (flushed p).
Definition submit (v : T) (p : IOProgress T) : IOProgress T := MkIOProgress (accepted p) (Some v) (flushed p).
Definition flush (v : T) (p : IOProgress T) : IOProgress T := MkIOProgress (accepted p) (submitted p) (Some v).
Definition try_accept (v : T) (p : IOProgress T) : IOProgress T := if opt_lt cmp (accepted p) (Some v) then accept v p else p.
Definition try_submit (v : T) (p : IOProgress T) : IOProgress T := if opt_lt cmp (submitted p) (Some v) then submit v p else p.
Definition try_flush (v : T) (p : IOProgress T) : IOProgress T := if opt_lt cmp (flushed p) (Some v) then flush v p else p.
Definition try_update_all (v : T) (p : IOProgress T) : IOProgress T := try_flush v (try_submit v (try_accept v p)).

(** [MonotonicIncrease::try_update]; its error is ignored by the callers. *)
Definition try_update (v : T) (cur : option T) : option T := if opt_lt cmp cur (Some v) then Some v else cur.
End IOProgress.

Record IOState := MkIOState {
  building_snapshot : bool;
  log_progress : IOProgress IOId;
  apply_progress : IOProgress LogId;
  io_snapshot : IOProgress LogId;
  cluster_committed : option LogIOId;
  purged : option LogId
}.
Definition default_io_state : IOState :=
  MkIOState false (new_synchronized None) (new_synchronized None) (new_synchronized None) None None.
Definition io_state_new (v : Vote) (applied snapshot purged : option LogId) : IOState :=
  MkIOState false (new_synchronized (Some (new_io v))) (new_synchronized applied) (new_synchronized snapshot) None purged.

(** [Option::min] of log ids. *)
Definition opt_log_id_min (a b : option LogId) : option LogId := if opt_log_id_le a b then a else b.
Definition opt_log_id_max (a b : option LogId) : option LogId := if opt_log_id_le a b then b else a.

(** [do_calculate_local_committed]: the part of the cluster's committed log that this node has accepted. *)
Definition calculate_local_committed (s : IOState) : option LogId :=
  match cluster_committed s, accepted (log_progress s) with
  | Some c, Some a =>
      match to_committed_vote a with
      | Some accepted_vote =>
          match leader_id_cmp accepted_vote (committed_vote c) with
          | Lt => None
          | _ => opt_log_id_min (io_last_log_id a) (io_log_id c)
          end
      | None => None
      end
  | _, _ => None
  end.

(** * The acceptor *)

Inductive ServerState := Learner | Follower | CandidateState | LeaderState | Shutdown.
#[export] Instance server_state_eq_dec : EqDecision ServerState. Proof. solve_decision. Defined.

Record SnapshotMeta := MkSnapshotMeta {
  meta_last_log_id : option LogId;
  last_membership : StoredMembership;
  snapshot_id : string
}.
Definition default_snapshot_meta : SnapshotMeta := MkSnapshotMeta None default_stored EmptyString.

Record RaftState := MkRaftState {
  rs_vote : Leased;
  purged_next : Z;
  log_ids : LogIdList;
  membership_state : MembershipState;
  snapshot_meta : SnapshotMeta;
  server_state : ServerState;
  io_state : IOState;
  purge_upto : option LogId
}.
Definition default_raft_state : RaftState :=
  MkRaftState default_leased 0 [] default_membership_state default_snapshot_meta Learner default_io_state None.

Definition set_vote_leased (v : Leased) (s : RaftState) : RaftState :=
  MkRaftState v (purged_next s) (log_ids s) (membership_state s) (snapshot_meta s) (server_state s) (io_state s) (purge_upto s).
Definition set_log_ids (l : LogIdList) (s : RaftState) : RaftState :=
  MkRaftState (rs_vote s) (purged_next s) l (membership_state s) (snapshot_meta s) (server_state s) (io_state s) (purge_upto s).
Definition set_purged_next (n : Z) (s : RaftState) : RaftState :=
  MkRaftState (rs_vote s) n (log_ids s) (membership_state s) (snapshot_meta s) (server_state s) (io_state s) (purge_upto s).
Definition set_membership_state (m : MembershipState) (s : RaftState) : RaftState :=
  MkRaftState (rs_vote s) (purged_next s) (log_ids s) m (snapshot_meta s) (server_state s) (io_state s) (purge_upto s).
Definition set_snapshot_meta (m : SnapshotMeta) (s : RaftState) : RaftState :=
  MkRaftState (rs_vote s) (purged_next s) (log_ids s) (membership_state s) m (server_state s) (io_state s) (purge_upto s).
Definition set_server_state (v : ServerState) (s : RaftState) : RaftState :=
  MkRaftState (rs_vote s) (purged_next s) (log_ids s) (membership_state s) (snapshot_meta s) v (io_state s) (purge_upto s).
Definition set_io_state (i : IOState) (s : RaftState) : RaftState :=
  MkRaftState (rs_vote s) (purged_next s) (log_ids s) (membership_state s) (snapshot_meta s) (server_state s) i (purge_upto s).
Definition set_purge_upto (p : option LogId) (s : RaftState) : RaftState :=
  MkRaftState (rs_vote s) (purged_next s) (log_ids s) (membership_state s) (snapshot_meta s) (server_state s) (io_state s) p.

Definition set_log_progress (p : IOProgress IOId) (i : IOState) : IOState :=
  MkIOState (building_snapshot i) p (apply_progress i) (io_snapshot i) (cluster_committed i) (purged i).
Definition set_apply_progress (p : IOProgress LogId) (i : IOState) : IOState :=
  MkIOState (building_snapshot i) (log_progress i) p (io_snapshot i) (cluster_committed i) (purged i).
Definition set_io_snapshot (p : IOProgress LogId) (i : IOState) : IOState :=
  MkIOState (building_snapshot i) (log_progress i) (apply_progress i) p (cluster_committed i) (purged i).
Definition set_cluster_committed (c : option LogIOId) (i : IOState) : IOState :=
  MkIOState (building_snapshot i) (log_progress i) (apply_progress i) (io_snapshot i) c (purged i).
Definition set_building_snapshot (b : bool) (i : IOState) : IOState :=
  MkIOState b (log_progress i) (apply_progress i) (io_snapshot i) (cluster_committed i) (purged i).

(** [LogStateReader] and [VoteStateReader]. *)
Definition vote_ref (s : RaftState) : Vote := leased_vote (rs_vote s).
Definition get_log_id (s : RaftState) (i : Z) : option LogId := ref_at (log_ids s) i.
Definition last_log_id (s : RaftState) : option LogId := log_ids_last (log_ids s).
Definition committed (s : RaftState) : option LogId := accepted (apply_progress (io_state s)).
Definition snapshot_last_log_id (s : RaftState) : option LogId := meta_last_log_id (snapshot_meta s).
Definition last_purged_log_id (s : RaftState) : option LogId :=
  if purged_next s =? 0 then None else log_ids_first (log_ids s).
Definition prev_log_id (s : RaftState) (i : Z) : option LogId := if i =? 0 then None else get_log_id s (i - 1).

(** Committed ids are in the log, whatever they are. *)
Definition has_log_id (s : RaftState) (l : LogId) : bool :=
  if index l <? next_index (committed s) then true
  else match get_log_id s (index l) with Some local => bool_decide (l = local) | None => false end.

Definition is_initialized (s : RaftState) : bool :=
  bool_decide (is_Some (last_log_id s)) || bool_decide (vote_ref s ≠ default_vote).

(** The former accepted I/O is returned. *)
Definition accept_log_io (a : IOId) (s : RaftState) : option IOId * RaftState :=
  let cur := accepted (log_progress (io_state s)) in
  (cur, if opt_lt io_id_cmp cur (Some a)
        then set_io_state (set_log_progress (accept a (log_progress (io_state s))) (io_state s)) s else s).

Definition update_local_committed (c : option LogId) (s : RaftState) : option (option LogId) * RaftState :=
  if opt_log_id_lt (committed s) c then
    match c with
    | Some l =>
        let s1 := set_io_state (set_apply_progress (accept l (apply_progress (io_state s))) (io_state s)) s in
        (Some (committed s), set_membership_state (ms_commit c (membership_state s1)) s1)
    | None => (None, s)
    end
  else (None, s).

Definition update_committed (c : LogIOId) (s : RaftState) : RaftState :=
  let s1 := set_io_state (set_cluster_committed (try_update log_io_id_cmp c (cluster_committed (io_state s))) (io_state s)) s in
  snd (update_local_committed (calculate_local_committed (io_state s1)) s1).

(** The position of the first entry that this node does not have. *)
Fixpoint first_conflicting_index (s : RaftState) (ids : list LogId) : nat :=
  match ids with
  | [] => 0%nat
  | l :: rest => if has_log_id s l then S (first_conflicting_index s rest) else 0%nat
  end.

Definition state_purge_log (upto : LogId) (s : RaftState) : RaftState :=
  set_log_ids (log_ids_purge (log_ids s) upto) (set_purged_next (index upto + 1) s).

Definition is_leading (s : RaftState) (id : Z) : bool :=
  ms_contains (membership_state s) id && (node_id (vote_leader (vote_ref s)) =? id).
Definition is_leader (s : RaftState) (id : Z) : bool := is_leading s id && vote_committed (vote_ref s).
Definition calc_server_state (s : RaftState) (id : Z) : ServerState :=
  if is_leader s id then LeaderState
  else if is_leading s id then CandidateState
  else if ms_is_voter (membership_state s) id then Follower else Learner.

(** [ForwardToLeader]: the leader, if it is known, with its node. *)
Definition ForwardToLeader := option (Z * BasicNode).
Definition new_forward_to_leader (s : RaftState) (to : Z) : ForwardToLeader :=
  match get_node (em_membership (ms_effective (membership_state s))) to with
  | Some n => Some (to, n)
  | None => None
  end.
Definition forward_to_leader (s : RaftState) : ForwardToLeader :=
  if vote_committed (vote_ref s) then new_forward_to_leader s (node_id (vote_leader (vote_ref s))) else None.

(** * Progress of a follower *)

Record LogIdRange := MkLogIdRange { range_prev : option LogId; range_last : option LogId }.
#[export] Instance log_id_range_eq_dec : EqDecision LogIdRange. Proof. solve_decision. Defined.
Inductive Inflight := INone | ILogs (r : LogIdRange) | ISnapshot.
#[export] Instance inflight_eq_dec : EqDecision Inflight. Proof. solve_decision. Defined.

Definition inflight_logs (prev last : option LogId) : Inflight :=
  if opt_log_id_lt prev last then ILogs (MkLogIdRange prev last) else INone.

(** [None]: [unreachable!()]. *)
Definition inflight_ack (i : Inflight) (upto : option LogId) : option Inflight :=
  match i with
  | INone => None
  | ILogs r => Some (inflight_logs upto (range_last r))
  | ISnapshot => Some INone
  end.
Definition inflight_conflict (i : Inflight) : option Inflight :=
  match i with ILogs _ => Some INone | _ => None end.

Record ProgressEntry := MkProgressEntry {
  matching : option LogId;
  inflight : Inflight;
  searching_end : Z;
  entry_allow_log_reversion : bool
}.
#[export] Instance progress_entry_borrow : Borrow ProgressEntry (option LogId) := matching.

Definition progress_entry_new (m : option LogId) : ProgressEntry := MkProgressEntry m INone (next_index m) false.
Definition progress_entry_empty (e : Z) : ProgressEntry := MkProgressEntry None INone e false.
Definition set_inflight (i : Inflight) (p : ProgressEntry) : ProgressEntry :=
  MkProgressEntry (matching p) i (searching_end p) (entry_allow_log_reversion p).
Definition set_allow_log_reversion (b : bool) (p : ProgressEntry) : ProgressEntry :=
  MkProgressEntry (matching p) (inflight p) (searching_end p) b.

Definition is_log_range_inflight (p : ProgressEntry) (upto : LogId) : bool :=
  match inflight p with ILogs r => opt_log_id_lt (range_prev r) (Some upto) | _ => false end.

Definition calc_mid (matching_next e : Z) : Z := matching_next + (e - matching_next) / 16 * 8.

(** The flag is that of the [Result]: whether there is something to send. *)
Definition next_send (s : RaftState) (max_entries : Z) (p : ProgressEntry) : bool * ProgressEntry :=
  if bool_decide (inflight p ≠ INone) then (false, p)
  else
    let last_next := next_index (last_log_id s) in
    let purge_upto_next := next_index (purge_upto s) in
    if searching_end p <? purge_upto_next then (true, set_inflight ISnapshot p)
    else
      let start := calc_mid (next_index (matching p)) (searching_end p) in
      let start := if start <? purge_upto_next then purge_upto_next else start in
      let e := Z.min (start + max_entries) last_next in
      if start =? e then (false, set_inflight INone p)
      else (true, set_inflight (inflight_logs (prev_log_id s start) (prev_log_id s e)) p).

(** [Updater]; [None] is an [unreachable!()]. *)
Definition entry_update_conflicting (allow_config : bool) (conflict : Z) (has_payload : bool) (p : ProgressEntry)
    : option ProgressEntry :=
  match (if has_payload then inflight_conflict (inflight p) else Some (inflight p)) with
  | None => None
  | Some i =>
      let p := set_inflight i p in
      if searching_end p <=? conflict then Some p
      else if (entry_allow_log_reversion p || allow_config) && (conflict <? next_index (matching p))
           then Some (MkProgressEntry None (inflight p) conflict false)
           else Some (MkProgressEntry (matching p) (inflight p) conflict (entry_allow_log_reversion p))
  end.

Definition entry_update_matching (m : option LogId) (p : ProgressEntry) : option ProgressEntry :=
  match inflight_ack (inflight p) m with
  | None => None
  | Some i => Some (MkProgressEntry m i (Z.max (searching_end p) (next_index m)) (entry_allow_log_reversion p))
  end.

(** * The proposer *)

Abbreviation MEntry := (Entry Membership).

Record Candidate := MkCandidate {
  starting_time : Z;
  cand_vote : Vote;
  cand_last_log_id : option LogId;
  cand_progress : VecProgress bool bool;
  cand_quorum_set : LeaderQuorumSet;
  cand_learner_ids : list Z
}.

#[export] Instance bool_borrow : Borrow bool bool := λ b, b.
#[export] Instance instant_borrow : Borrow (option Z) (option Z) := λ t, t.

Definition candidate_new (now : Z) (v : Vote) (l : option LogId) (qs : LeaderQuorumSet) (learners : list Z) : Candidate :=
  MkCandidate now v l (vp_new qs [] false) qs learners.

(** [None]: [expect] fails, the target is not a voter. *)
Definition grant_by (target : Z) (c : Candidate) : option (bool * Candidate) :=
  match vp_update target true (cand_progress c) with
  | (Okay granted, p) =>
      Some (granted, MkCandidate (starting_time c) (cand_vote c) (cand_last_log_id c) p (cand_quorum_set c) (cand_learner_ids c))
  | (Failed _, _) => None
  end.

Record Leader := MkLeader {
  transfer_to : option Z;
  leader_vote : CommittedVote;
  next_heartbeat : Z;
  leader_last_log_id : option LogId;
  noop_log_id : LogId;
  progress : VecProgress ProgressEntry (option LogId);
  clock_progress : VecProgress (option Z) (option Z)
}.

Definition leader_new (now : Z) (v : CommittedVote) (qs : LeaderQuorumSet) (learners : list Z) (r : LeaderLogIds) : Leader :=
  let noop :=
    match lli_first r with
    | Some f => if bool_decide (leader_id f = v) then f else MkLogId v (next_index (lli_last r))
    | None => MkLogId v (next_index (lli_last r))
    end in
  MkLeader None v now (lli_last r) noop
    (vp_new qs learners (progress_entry_empty (next_index (lli_last r))))
    (vp_new qs learners None).

Definition set_leader_vote (v : CommittedVote) (l : Leader) : Leader :=
  MkLeader (transfer_to l) v (next_heartbeat l) (leader_last_log_id l) (noop_log_id l) (progress l) (clock_progress l).
Definition set_progress (p : VecProgress ProgressEntry (option LogId)) (l : Leader) : Leader :=
  MkLeader (transfer_to l) (leader_vote l) (next_heartbeat l) (leader_last_log_id l) (noop_log_id l) p (clock_progress l).
Definition set_clock_progress (p : VecProgress (option Z) (option Z)) (l : Leader) : Leader :=
  MkLeader (transfer_to l) (leader_vote l) (next_heartbeat l) (leader_last_log_id l) (noop_log_id l) (progress l) p.
Definition set_leader_last_log_id (i : option LogId) (l : Leader) : Leader :=
  MkLeader (transfer_to l) (leader_vote l) (next_heartbeat l) i (noop_log_id l) (progress l) (clock_progress l).
Definition set_next_heartbeat (t : Z) (l : Leader) : Leader :=
  MkLeader (transfer_to l) (leader_vote l) t (leader_last_log_id l) (noop_log_id l) (progress l) (clock_progress l).
Definition mark_transfer (to : Z) (l : Leader) : Leader :=
  MkLeader (Some to) (leader_vote l) (next_heartbeat l) (leader_last_log_id l) (noop_log_id l) (progress l) (clock_progress l).

Definition set_entry_log_id (l : LogId) (e : MEntry) : MEntry := MkEntry l (payload e).

(** The entries get consecutive ids of the leader, after its last one. *)
Fixpoint number_entries (v : CommittedVote) (i : Z) (es : list MEntry) : list MEntry :=
  match es with
  | [] => []
  | e :: rest => set_entry_log_id (MkLogId v i) e :: number_entries v (i + 1) rest
  end.
Definition assign_log_ids (es : list MEntry) (l : Leader) : list MEntry * Leader :=
  match es with
  | [] => ([], l)
  | _ =>
      let i := next_index (leader_last_log_id l) in
      (number_entries (leader_vote l) i es,
       set_leader_last_log_id (Some (MkLogId (leader_vote l) (i + len es - 1))) l)
  end.

(** [Candidate::into_leader]: only the last id of the log is known. *)
Definition into_leader (now : Z) (c : Candidate) : Leader :=
  leader_new now (to_committed (cand_vote c)) (cand_quorum_set c) (cand_learner_ids c)
    ((λ l, (l, l)) <$> cand_last_log_id c).

(** [RaftState::new_leader]. *)
Definition new_leader (now : Z) (s : RaftState) : Leader :=
  let em := em_membership (ms_effective (membership_state s)) in
  leader_new now (to_committed (vote_ref s)) (to_quorum_set em) (learner_ids em) (by_last_leader (log_ids s)).

(** [last_quorum_acked_time]: the leader answers itself; it may not be a voter. *)
Definition last_quorum_acked_time (now : Z) (l : Leader) : option Z * Leader :=
  match increase_to (node_id (leader_vote l)) (Some now) (clock_progress l) with
  | (Okay t, p) => (t, set_clock_progress p l)
  | (Failed t, p) => (t, set_clock_progress p l)
  end.

Definition get_membership (e : MEntry) : option Membership :=
  match payload e with LogStore.Membership m => Some m | _ => None end.
