(* ===== verification/RaftEngine.v ===== *)
(** The consensus engine: [engine/engine_impl.rs], [engine/handler/], [engine/command.rs] and
    [engine/engine_output.rs] of [src/octopii/openraft/openraft/src/].

    The engine is a deterministic state machine: an event (a request, a response, a timer, the
    end of an I/O) changes the state and appends commands to the output, which the runtime of
    [core/raft_core.rs] executes. Handlers are computations over the whole [Engine], as they are
    views of its fields; [unwrap], [expect] and [unreachable!] are [panic]. The time of an event
    is an argument, [now]; a sender that waits for a response is its number, [tx]. *)

From stdpp Require Import strings.
From S2P Require Import Prelude LogStore RaftQuorum RaftMembership RaftLogIds RaftProgress RaftState.

#[local] Open Scope Z_scope.

(** * Commands *)

Inductive Condition :=
  | IOFlushed (i : IOId)
  | LogFlushed (l : LogId)
  | Applied (l : LogId)
  | SnapshotAt (l : LogId).

Record VoteRequest := MkVoteRequest { vreq_vote : Vote; vreq_last_log_id : option LogId }.
Record VoteResponse := MkVoteResponse { vresp_vote : Vote; vote_granted : bool; vresp_last_log_id : option LogId }.
Inductive AppendEntriesResponse := Success | PartialSuccess (l : option LogId) | Conflict | HigherVote (v : Vote).
Record TransferLeaderRequest := MkTransferLeader { from_leader : Vote; transfer_node : Z; transfer_last_log_id : option LogId }.
Record Snapshot := MkSnapshot { snap_meta : SnapshotMeta; snap_data : list Z }.

Inductive RejectVoteRequest := ByVote (v : Vote).
Inductive RejectAppendEntries := RejectByVote (v : Vote) | ByConflictingLogId (expect : LogId) (local : option LogId).
Inductive InitializeError :=
  | NotAllowed (l : option LogId) (v : Vote)
  | NotInMembers (n : Z) (m : Membership).

Inductive SmCommand :=
  | BuildSnapshot
  | BeginReceivingSnapshot (tx : Z)
  | InstallFullSnapshot (log_io_id : LogIOId) (s : Snapshot).

Inductive Replicate := ReplicateLogs (r : LogIdRange) | ReplicateSnapshot.

(** [ReplicationSessionId]: the vote of the leader and the log id of the membership. *)
Record ReplicationSessionId := MkSessionId { session_vote : CommittedVote; session_membership : option LogId }.

Inductive Respond :=
  | RespondVote (r : VoteResponse)
  | RespondAppendEntries (r : AppendEntriesResponse)
  | RespondInstallFullSnapshot (v : Vote)
  | RespondInitialize (r : Result unit InitializeError).

Inductive Command :=
  | UpdateIOProgress (when : option Condition) (io_id : IOId)
  | AppendEntries (v : CommittedVote) (es : list MEntry)
  | ReplicateCommitted (c : option LogId)
  | BroadcastHeartbeat (s : ReplicationSessionId) (c : option LogId)
  | SaveCommittedAndApply (already_applied : option LogId) (upto : LogId)
  | ReplicateTo (target : Z) (req : Replicate)
  | BroadcastTransferLeader (req : TransferLeaderRequest)
  | RebuildReplicationStreams (targets : list (Z * ProgressEntry))
  | SaveVote (v : Vote)
  | SendVote (req : VoteRequest)
  | PurgeLog (upto : LogId)
  | TruncateLog (since : LogId)
  | StateMachine (c : SmCommand)
  | RespondCmd (when : option Condition) (resp : Respond) (tx : Z).

(** [Command::condition]. *)
Definition condition (c : Command) : option Condition :=
  match c with
  | RespondCmd w _ _ => w
  | UpdateIOProgress w _ => w
  | PurgeLog upto => Some (SnapshotAt upto)
  | _ => None
  end.

(** [actual >= expected]. *)
Definition is_satisfied_by {T} (cmp : T → T → comparison) (expected : T) (actual : option T) : bool :=
  match actual with
  | None => false
  | Some a => match cmp a expected with Lt => false | _ => true end
  end.
Definition is_met (c : Condition) (s : IOState) : bool :=
  match c with
  | IOFlushed i => is_satisfied_by io_id_cmp i (flushed (log_progress s))
  | LogFlushed l => is_satisfied_by log_id_cmp l (flushed (log_progress s) ≫= io_last_log_id)
  | Applied l => is_satisfied_by log_id_cmp l (flushed (apply_progress s))
  | SnapshotAt l => is_satisfied_by log_id_cmp l (flushed (io_snapshot s))
  end.

(** * The engine *)

Record EngineConfig := MkEngineConfig {
  cfg_id : Z;
  max_in_snapshot_log_to_keep : Z;
  purge_batch_size : Z;
  max_payload_entries : Z;
  allow_log_reversion : bool;
  leader_lease : Z;
  election_timeout : Z;
  smaller_log_timeout : Z
}.

Record Engine := MkEngine {
  config : EngineConfig;
  state : RaftState;
  seen_greater_log : bool;
  leader : option Leader;
  candidate : option Candidate;
  output : list Command
}.

Definition engine_new (s : RaftState) (c : EngineConfig) : Engine := MkEngine c s false None None [].

Definition with_state (f : RaftState → RaftState) : M Engine unit :=
  modify (λ e, MkEngine (config e) (f (state e)) (seen_greater_log e) (leader e) (candidate e) (output e)).
Definition set_leader (l : option Leader) : M Engine unit :=
  modify (λ e, MkEngine (config e) (state e) (seen_greater_log e) l (candidate e) (output e)).
Definition set_candidate (c : option Candidate) : M Engine unit :=
  modify (λ e, MkEngine (config e) (state e) (seen_greater_log e) (leader e) c (output e)).
Definition set_seen_greater (b : bool) : M Engine unit :=
  modify (λ e, MkEngine (config e) (state e) b (leader e) (candidate e) (output e)).
Definition push_command (c : Command) : M Engine unit :=
  modify (λ e, MkEngine (config e) (state e) (seen_greater_log e) (leader e) (candidate e) (output e ++ [c])).
Definition get_state : M Engine RaftState := let! e := getS in ret (state e).
Definition my_id : M Engine Z := let! e := getS in ret (cfg_id (config e)).

(** [self.leader.as_mut().unwrap()]. *)
Definition the_leader : M Engine Leader :=
  let! e := getS in match leader e with Some l => ret l | None => panic end.
Definition modify_leader (f : Leader → Leader) : M Engine unit :=
  let! l := the_leader in set_leader (Some (f l)).

Definition accept_io (i : IOId) : M Engine (option IOId) :=
  let! s := get_state in
  with_state (λ s, snd (accept_log_io i s)) ;;
  ret (fst (accept_log_io i s)).

(** * [ServerStateHandler] *)

Definition update_server_state_if_changed : M Engine unit :=
  let! id := my_id in
  with_state (λ s, let st := calc_server_state s id in
                   if bool_decide (server_state s = st) then s else set_server_state st s).

(** * [LogHandler] *)

Definition purge_log : M Engine unit :=
  let! s := get_state in
  if opt_log_id_le (purge_upto s) (last_purged_log_id s) then ret tt
  else match purge_upto s with
       | None => panic
       | Some upto => with_state (state_purge_log upto) ;; push_command (PurgeLog upto)
       end.

Definition update_purge_upto (l : LogId) : M Engine unit := with_state (set_purge_upto (Some l)).

(** Subtraction of [u64] saturates in [saturating_sub]. *)
Definition calc_purge_upto (c : EngineConfig) (s : RaftState) : option LogId :=
  let purge_end := Z.max 0 (next_index (snapshot_last_log_id s) - max_in_snapshot_log_to_keep c) in
  if purge_end <? next_index (last_purged_log_id s) + purge_batch_size c then None
  else get_log_id s (purge_end - 1).

Definition schedule_policy_based_purge : M Engine unit :=
  let! e := getS in
  match calc_purge_upto (config e) (state e) with
  | Some l => update_purge_upto l
  | None => ret tt
  end.

(** * [SnapshotHandler] *)

Definition trigger_snapshot : M Engine bool :=
  let! s := get_state in
  if building_snapshot (io_state s) then ret false
  else
    with_state (λ s, set_io_state (set_building_snapshot true (io_state s)) s) ;;
    push_command (StateMachine BuildSnapshot) ;;
    ret true.

Definition update_snapshot (m : SnapshotMeta) : M Engine bool :=
  let! s := get_state in
  if opt_log_id_le (meta_last_log_id m) (snapshot_last_log_id s) then ret false
  else with_state (set_snapshot_meta m) ;; ret true.

(** * [ReplicationHandler] *)

Abbreviation with_progress f := (modify_leader (λ l, set_progress (f (progress l)) l)).

Definition rebuild_progresses : M Engine unit :=
  let! s := get_state in
  let em := em_membership (ms_effective (membership_state s)) in
  let e := next_index (last_log_id s) in
  with_progress (λ p, upgrade_quorum_set p (to_quorum_set em) (learner_ids em) (progress_entry_empty e)) ;;
  modify_leader (λ l, set_clock_progress
    (upgrade_quorum_set (clock_progress l) (to_quorum_set em) (learner_ids em) None) l).

Definition update_leader_clock (node : Z) (t : Z) : M Engine unit :=
  let! l := the_leader in
  match increase_to node (Some t) (clock_progress l) with
  | (Okay _, p) => modify_leader (set_clock_progress p)
  | (Failed _, _) => panic
  end.

Definition try_commit_quorum_accepted (granted : option LogId) : M Engine unit :=
  let! s := get_state in
  if match granted with Some c => negb (is_same_leader (vote_ref s) (leader_id c)) | None => false end then ret tt
  else
    let c := MkLogIOId (to_committed (vote_ref s)) granted in
    with_state (λ s, set_io_state (set_cluster_committed (try_update log_io_id_cmp c (cluster_committed (io_state s))) (io_state s)) s) ;;
    let! s := get_state in
    with_state (λ s, snd (update_local_committed granted s)) ;;
    match fst (update_local_committed granted s) with
    | Some _ => let! s := get_state in push_command (ReplicateCommitted (committed s))
    | None => ret tt
    end.

Definition update_matching (node : Z) (m : option LogId) : M Engine unit :=
  let! l := the_leader in
  match try_get node (progress l) with
  | None => panic
  | Some ent =>
      match entry_update_matching m ent with
      | None => panic
      | Some ent' =>
          match update_with node (λ _, ent') (progress l) with
          | (Okay quorum_accepted, p) =>
              modify_leader (set_progress p) ;; try_commit_quorum_accepted quorum_accepted
          | (Failed _, _) => panic
          end
      end
  end.

Definition update_conflicting (target : Z) (conflict : LogId) (has_payload : bool) : M Engine unit :=
  let! e := getS in
  let! l := the_leader in
  match try_get target (progress l) with
  | None => panic
  | Some ent =>
      match entry_update_conflicting (allow_log_reversion (config e)) (index conflict) has_payload ent with
      | None => panic
      | Some ent' => with_progress (modify_entry target (λ _, ent'))
      end
  end.

Definition allow_next_revert (target : Z) (allow : bool) : M Engine (Result unit Z) :=
  let! l := the_leader in
  match try_get target (progress l) with
  | None => ret (Failed target)
  | Some _ => with_progress (modify_entry target (set_allow_log_reversion allow)) ;; ret (Okay tt)
  end.

Definition rebuild_replication_streams : M Engine unit :=
  let! id := my_id in
  with_progress (λ p, with_entries
    (map (λ x, if pid x =? id then x else MkIdVal (pid x) (set_inflight INone (pval x))) (entries p)) p) ;;
  let! l := the_leader in
  push_command (RebuildReplicationStreams
    (map (λ x, (pid x, pval x)) (filter (λ x, pid x ≠ id) (entries (progress l))))).

(** [Inflight::None] cannot be sent. *)
Definition send_to_target (target : Z) (i : Inflight) : M Engine unit :=
  match i with
  | INone => panic
  | ILogs r => push_command (ReplicateTo target (ReplicateLogs r))
  | ISnapshot => push_command (ReplicateTo target ReplicateSnapshot)
  end.

(** The turns of [iter_mut], [n] entries from position [i] on. *)
Fixpoint initiate_from (i n : nat) : M Engine unit :=
  match n with
  | O => ret tt
  | S n =>
      let! e := getS in
      let! l := the_leader in
      match entries (progress l) !! i with
      | None => ret tt
      | Some x =>
          (if pid x =? cfg_id (config e) then ret tt
           else
             let '(ok, ent) := next_send (state e) (max_payload_entries (config e)) (pval x) in
             with_progress (λ p, with_entries (<[i := MkIdVal (pid x) ent]> (entries p)) p) ;;
             if ok then send_to_target (pid x) (inflight ent) else ret tt) ;;
          initiate_from (S i) n
      end
  end.
Definition initiate_replication : M Engine unit :=
  let! l := the_leader in initiate_from 0 (length (entries (progress l))).

(** Logs that are being sent are not purged. *)
Definition replication_try_purge_log : M Engine unit :=
  let! s := get_state in
  if opt_log_id_le (purge_upto s) (last_purged_log_id s) then ret tt
  else match purge_upto s with
       | None => panic
       | Some upto =>
           let! l := the_leader in
           if existsb (λ x, is_log_range_inflight (pval x) upto) (entries (progress l)) then ret tt
           else purge_log
       end.

(** [ReplicationResult]: the matching log id, or the conflicting one; or the error of the network. *)
Definition update_progress (target : Z) (res : Result (Result (option LogId) LogId) string) (has_payload : bool) : M Engine unit :=
  match res with
  | Okay (Okay m) => update_matching target m
  | Okay (Failed conflict) => update_conflicting target conflict has_payload
  | Failed _ =>
      let! l := the_leader in
      match try_get target (progress l) with
      | None => panic
      | Some _ => with_progress (modify_entry target (set_inflight INone))
      end
  end ;;
  replication_try_purge_log.

Definition replication_append_membership (l : LogId) (m : Membership) : M Engine unit :=
  with_state (λ s, set_membership_state (ms_append (em_new (Some l) m) (membership_state s)) s) ;;
  rebuild_progresses ;; rebuild_replication_streams ;; initiate_replication.

Definition update_local_progress (upto : option LogId) : M Engine unit :=
  match upto with
  | None => ret tt
  | Some _ =>
      let! id := my_id in
      let! l := the_leader in
      match try_get id (progress l) with
      | None => ret tt
      | Some ent =>
          if opt_log_id_le upto (matching ent) then ret tt
          else with_progress (modify_entry id (set_inflight (inflight_logs None upto))) ;; update_matching id upto
      end
  end.

(** * [LeaderHandler] *)

(** The last membership entry of the batch. *)
Definition batch_membership (es : list MEntry) : option (LogId * Membership) :=
  foldl (λ acc e, match get_membership e with Some m => Some (log_id e, m) | None => acc end) None es.

Definition leader_append_entries (es : list MEntry) : M Engine unit :=
  match es with
  | [] => ret tt
  | _ =>
      let! l := the_leader in
      let '(es, l) := assign_log_ids es l in
      set_leader (Some l) ;;
      with_state (λ s, set_log_ids (extend_from_same_leader (log_ids s) (map log_id es)) s) ;;
      let! _ := accept_io (new_log_io (leader_vote l) (leader_last_log_id l)) in
      push_command (AppendEntries (leader_vote l) es) ;;
      match batch_membership es with
      | Some (i, m) => replication_append_membership i m
      | None => ret tt
      end ;;
      initiate_replication
  end.

Definition send_heartbeat : M Engine unit :=
  let! s := get_state in
  let! l := the_leader in
  push_command (BroadcastHeartbeat (MkSessionId (leader_vote l) (em_log_id (ms_effective (membership_state s)))) (committed s)).

Definition get_read_log_id (l : Leader) (s : RaftState) : LogId :=
  match committed s with
  | None => noop_log_id l
  | Some c => match log_id_cmp (noop_log_id l) c with Gt => noop_log_id l | _ => c end
  end.

Definition transfer_leader (to : Z) : M Engine unit :=
  modify_leader (mark_transfer to) ;;
  with_state (λ s, set_vote_leased (disable_lease (rs_vote s)) s) ;;
  let! l := the_leader in
  push_command (BroadcastTransferLeader (MkTransferLeader (committed_into_vote (leader_vote l)) to (leader_last_log_id l))).

(** * [VoteHandler] *)

Definition new_blank : MEntry := MkEntry default_log_id Blank.

Definition become_leader (now : Z) : M Engine unit :=
  let! e := getS in
  if match leader e with Some l => bool_decide (leader_vote l = vote_leader (vote_ref (state e))) | None => false end then
    modify_leader (set_leader_vote (to_committed (vote_ref (state e)))) ;;
    update_server_state_if_changed
  else
    let l := new_leader now (state e) in
    set_leader (Some l) ;;
    let! _ := accept_io (new_log_io (leader_vote l) (leader_last_log_id l)) in
    push_command (UpdateIOProgress None (new_log_io (leader_vote l) (leader_last_log_id l))) ;;
    update_server_state_if_changed ;;
    rebuild_replication_streams ;;
    if opt_log_id_lt (leader_last_log_id l) (Some (noop_log_id l)) then leader_append_entries [new_blank]
    else initiate_replication.

Definition become_following : M Engine unit :=
  set_leader None ;; set_candidate None ;; update_server_state_if_changed.

Definition update_internal_server_state (now : Z) : M Engine unit :=
  let! e := getS in
  if is_leader (state e) (cfg_id (config e)) then become_leader now
  else if is_leading (state e) (cfg_id (config e)) then ret tt
  else become_following.

Definition update_vote (now : Z) (v : Vote) : M Engine (Result unit RejectVoteRequest) :=
  let! e := getS in
  let mine := vote_ref (state e) in
  if vote_le mine v then
    let lease_for := if vote_committed v then leader_lease (config e) else 0 in
    (if vote_lt mine v then
       with_state (set_vote_leased (leased_update now lease_for v)) ;;
       let! _ := accept_io (new_io v) in
       push_command (SaveVote v)
     else with_state (λ s, set_vote_leased (touch now lease_for (rs_vote s)) s)) ;;
    update_internal_server_state now ;;
    ret (Okay tt)
  else ret (Failed (ByVote mine)).

(** [accept_vote]: a refusal is answered once the present vote is on disk. The result says whether to go on. *)
Definition accept_vote (now : Z) (v : Vote) (tx : Z) (f : RaftState → Respond) : M Engine bool :=
  let! r := update_vote now v in
  match r with
  | Failed _ =>
      let! s := get_state in
      push_command (RespondCmd (Some (IOFlushed (new_io (vote_ref s)))) (f s) tx) ;;
      ret false
  | Okay _ => ret true
  end.

(** * [FollowingHandler] *)

Definition truncate_logs (since : Z) : M Engine unit :=
  let! s := get_state in
  match get_log_id s since with
  | None => ret tt
  | Some since_log_id =>
      with_state (λ s, set_log_ids (log_ids_truncate (log_ids s) since) s) ;;
      push_command (TruncateLog since_log_id) ;;
      let '(ms, changed) := ms_truncate since (membership_state s) in
      with_state (set_membership_state ms) ;;
      if changed then update_server_state_if_changed else ret tt
  end.

(** Backwards through the entries, at most two. *)
Fixpoint collect_memberships (rev_es : list MEntry) (acc : list StoredMembership) : list StoredMembership :=
  match rev_es with
  | [] => acc
  | e :: rest =>
      match get_membership e with
      | Some m =>
          let acc := MkStored (Some (log_id e)) m :: acc in
          if bool_decide (length acc = 2%nat) then acc else collect_memberships rest acc
      | None => collect_memberships rest acc
      end
  end.
Definition last_two_memberships (es : list MEntry) : list StoredMembership := collect_memberships (rev es) [].

Definition append_membership (es : list MEntry) : M Engine unit :=
  match last_two_memberships es with
  | [] => ret tt
  | ms =>
      with_state (λ s, set_membership_state
        (foldl (λ acc m, ms_append (new_from_stored_membership m) acc) (membership_state s) ms) s) ;;
      update_server_state_if_changed
  end.

Definition do_append_entries (v : CommittedVote) (es : list MEntry) : M Engine unit :=
  with_state (λ s, set_log_ids (extend (log_ids s) (map log_id es)) s) ;;
  append_membership es ;;
  push_command (AppendEntries v es).

Definition ensure_log_consecutive (prev : option LogId) : M Engine (Result unit RejectAppendEntries) :=
  let! s := get_state in
  match prev with
  | Some p =>
      if has_log_id s p then ret (Okay tt)
      else
        let local := get_log_id s (index p) in
        truncate_logs (index p) ;;
        ret (Failed (ByConflictingLogId p local))
  | None => ret (Okay tt)
  end.

(** [Some(&a) <= b.as_ref()] for I/O ids. *)
Definition io_le_opt (a : IOId) (b : option IOId) : bool :=
  match b with Some b => match io_id_cmp a b with Gt => false | _ => true end | None => false end.

Definition following_append_entries (v : CommittedVote) (prev : option LogId) (es : list MEntry) : M Engine unit :=
  let last := opt_log_id_max prev (log_id <$> last es) in
  let! prev_accepted := accept_io (new_log_io v last) in
  let! s := get_state in
  let since := first_conflicting_index s (map log_id es) in
  match drop since es with
  | e :: rest => truncate_logs (entry_index e) ;; do_append_entries v (e :: rest)
  | [] =>
      let to_submit := new_log_io v last in
      if io_le_opt to_submit prev_accepted then ret tt
      else push_command (UpdateIOProgress (IOFlushed <$> prev_accepted) to_submit)
  end.

Definition update_committed_membership (m : EffectiveMembership) : M Engine unit :=
  with_state (λ s, set_membership_state (fst (ms_update_committed m (membership_state s))) s) ;;
  update_server_state_if_changed.

Definition install_full_snapshot (v : CommittedVote) (snapshot : Snapshot) : M Engine (option Condition) :=
  let meta := snap_meta snapshot in
  let! s := get_state in
  if opt_log_id_le (meta_last_log_id meta) (committed s) then ret None
  else match meta_last_log_id meta with
       | None => panic
       | Some snap_last =>
           let! updated := update_snapshot meta in
           if negb updated then ret None
           else
             let! s := get_state in
             match get_log_id s (index snap_last) with
             | Some local => if bool_decide (local ≠ snap_last) then truncate_logs (next_index (committed s)) else ret tt
             | None => ret tt
             end ;;
             let log_io_id := MkLogIOId v (Some snap_last) in
             let! _ := accept_io (IOLog log_io_id) in
             with_state (λ s, set_io_state (set_apply_progress (accept snap_last (apply_progress (io_state s))) (io_state s)) s) ;;
             with_state (λ s, set_io_state (set_io_snapshot (accept snap_last (io_snapshot (io_state s))) (io_state s)) s) ;;
             update_committed_membership (new_from_stored_membership (last_membership meta)) ;;
             push_command (StateMachine (InstallFullSnapshot log_io_id snapshot)) ;;
             with_state (set_purge_upto (Some snap_last)) ;;
             purge_log ;;
             ret (Some (SnapshotAt snap_last))
       end.

(** * [Engine] *)

Definition startup (now : Z) : M Engine unit :=
  let! e := getS in
  if is_leader (state e) (cfg_id (config e)) then update_internal_server_state now
  else with_state (λ s, set_server_state (if ms_is_voter (membership_state s) (cfg_id (config e)) then Follower else Learner) s).

Definition new_candidate (now : Z) (v : Vote) : M Engine unit :=
  let! s := get_state in
  let m := em_membership (ms_effective (membership_state s)) in
  set_candidate (Some (candidate_new now v (last_log_id s) (to_quorum_set m) (learner_ids m))).

Definition elect (now : Z) : M Engine unit :=
  let! e := getS in
  let new_vote := MkVote (MkLeaderId (vote_term (vote_ref (state e)) + 1) (cfg_id (config e))) false in
  new_candidate now new_vote ;;
  let l := last_log_id (state e) in
  let! r := update_vote now new_vote in
  match r with
  | Failed _ => panic
  | Okay _ =>
      push_command (SendVote (MkVoteRequest new_vote l)) ;;
      update_server_state_if_changed
  end.

Definition check_initialize (s : RaftState) : Result unit InitializeError :=
  if is_initialized s then Failed (NotAllowed (last_log_id s) (vote_ref s)) else Okay tt.
Definition check_members_contain_me (id : Z) (m : Membership) : Result unit InitializeError :=
  if is_voter m id then Okay tt else Failed (NotInMembers id m).

Definition initialize (now : Z) (entry : MEntry) : M Engine (Result unit InitializeError) :=
  let! e := getS in
  match check_initialize (state e) with
  | Failed err => ret (Failed err)
  | Okay _ =>
      let entry := set_entry_log_id default_log_id entry in
      match get_membership entry with
      | None => panic
      | Some m =>
          match check_members_contain_me (cfg_id (config e)) m with
          | Failed err => ret (Failed err)
          | Okay _ =>
              let v := MkVote default_leader_id true in
              with_state (set_vote_leased (leased_update now 0 v)) ;;
              do_append_entries (to_committed v) [entry] ;;
              elect now ;;
              ret (Okay tt)
          end
      end
  end.

(** [Command::Replicate], then the leader's first entry. *)
Definition establish_leader (now : Z) : M Engine unit :=
  let! e := getS in
  match candidate e with
  | None => panic
  | Some c =>
      set_candidate None ;;
      if match leader e with
         | Some l => negb (vote_lt (committed_into_vote (leader_vote l)) (cand_vote c))
         | None => false
         end then ret tt
      else
        let l := into_leader now c in
        set_leader (Some l) ;;
        rebuild_replication_streams ;;
        let! _ := update_vote now (committed_into_vote (leader_vote l)) in
        let! _ := accept_io (new_log_io (leader_vote l) (leader_last_log_id l)) in
        leader_append_entries [new_blank]
  end.

Definition handle_vote_req (now : Z) (req : VoteRequest) : M Engine VoteResponse :=
  let! s := get_state in
  let refuse := MkVoteResponse (vote_ref s) false (last_log_id s) in
  if vote_committed (vote_ref s) && negb (is_expired (rs_vote s) now 0) then ret refuse
  else if negb (opt_log_id_le (last_log_id s) (vreq_last_log_id req)) then ret refuse
  else
    let! r := update_vote now (vreq_vote req) in
    let! s := get_state in
    ret (MkVoteResponse (vote_ref s) (match r with Okay _ => true | Failed _ => false end) (last_log_id s)).

Definition handle_vote_resp (now : Z) (target : Z) (resp : VoteResponse) : M Engine unit :=
  let! e := getS in
  match candidate e with
  | None => ret tt
  | Some c =>
      if vote_granted resp && bool_decide (vresp_vote resp = cand_vote c) then
        match grant_by target c with
        | None => panic
        | Some (quorum_granted, c) =>
            set_candidate (Some c) ;;
            if quorum_granted then establish_leader now else ret tt
        end
      else
        (if opt_log_id_lt (last_log_id (state e)) (vresp_last_log_id resp) then set_seen_greater true else ret tt) ;;
        let! _ := update_vote now (non_committed_into_vote (vote_leader (vresp_vote resp))) in
        ret tt
  end.

Definition append_entries (now : Z) (v : Vote) (prev : option LogId) (es : list MEntry)
    : M Engine (Result unit RejectAppendEntries) :=
  let! r := update_vote now v in
  match r with
  | Failed (ByVote mine) => ret (Failed (RejectByVote mine))
  | Okay _ =>
      let! s := get_state in
      let leader_vote := to_committed (vote_ref s) in
      let! r := ensure_log_consecutive prev in
      match r with
      | Failed e => ret (Failed e)
      | Okay _ => following_append_entries leader_vote prev es ;; ret (Okay tt)
      end
  end.

Definition append_response (r : Result unit RejectAppendEntries) : AppendEntriesResponse :=
  match r with
  | Okay _ => Success
  | Failed (RejectByVote v) => HigherVote v
  | Failed (ByConflictingLogId _ _) => Conflict
  end.

Definition handle_append_entries (now : Z) (v : Vote) (prev : option LogId) (es : list MEntry) (tx : Z) : M Engine bool :=
  let! r := append_entries now v prev es in
  let! s := get_state in
  match r with
  | Okay _ =>
      match accepted (log_progress (io_state s)) with
      | None => panic
      | Some i => push_command (RespondCmd (Some (IOFlushed i)) (RespondAppendEntries Success) tx) ;; ret true
      end
  | Failed _ => push_command (RespondCmd None (RespondAppendEntries (append_response r)) tx) ;; ret false
  end.

Definition handle_install_full_snapshot (now : Z) (v : Vote) (snapshot : Snapshot) (tx : Z) : M Engine unit :=
  let! ok := accept_vote now v tx (λ s, RespondInstallFullSnapshot (vote_ref s)) in
  if negb ok then ret tt
  else
    let! s := get_state in
    let! cond := install_full_snapshot (to_committed (vote_ref s)) snapshot in
    let! s := get_state in
    push_command (RespondCmd cond (RespondInstallFullSnapshot (vote_ref s)) tx).

Definition handle_begin_receiving_snapshot (tx : Z) : M Engine unit := push_command (StateMachine (BeginReceivingSnapshot tx)).

Definition leader_step_down (now : Z) : M Engine unit :=
  let! s := get_state in
  if opt_log_id_le (em_log_id (ms_effective (membership_state s))) (committed s)
  then update_internal_server_state now else ret tt.

Definition try_purge_log : M Engine unit :=
  let! e := getS in
  match leader e with Some _ => replication_try_purge_log | None => purge_log end.

Definition on_building_snapshot_done (meta : option SnapshotMeta) : M Engine unit :=
  with_state (λ s, set_io_state (set_building_snapshot false (io_state s)) s) ;;
  match meta with
  | None => ret tt
  | Some m =>
      match meta_last_log_id m with
      | Some l => with_state (λ s, set_io_state (set_io_snapshot (try_update_all log_id_cmp l (io_snapshot (io_state s))) (io_state s)) s)
      | None => ret tt
      end ;;
      let! updated := update_snapshot m in
      if updated then schedule_policy_based_purge ;; try_purge_log else ret tt
  end.

Definition trigger_purge_log (i : Z) : M Engine unit :=
  let! s := get_state in
  match snapshot_last_log_id s with
  | None => ret tt
  | Some snap_last =>
      if i <? next_index (purge_upto s) then ret tt
      else match get_log_id s (if index snap_last <? i then index snap_last else i) with
           | None => panic
           | Some l => update_purge_upto l ;; try_purge_log
           end
  end.

Definition trigger_transfer_leader (to : Z) : M Engine unit :=
  let! e := getS in
  match leader e with None => ret tt | Some _ => transfer_leader to end.

(** What can be applied: the committed ids that have been submitted under the accepted vote. *)
Definition next_progress_driven_command (e : Engine) : option Command :=
  let ap := apply_progress (io_state (state e)) in
  let lp := log_progress (io_state (state e)) in
  if bool_decide ((to_app_vote <$> submitted lp) = (to_app_vote <$> accepted lp)) then
    let upto := opt_log_id_min (submitted lp ≫= io_last_log_id) (accepted ap) in
    if next_index (submitted ap) <? next_index upto then
      match upto with Some u => Some (SaveCommittedAndApply (submitted ap) u) | None => None end
    else None
  else None.
