(* ===== verification/RaftProtocol.v ===== *)
(** Raft as a protocol: what a group of engines does to votes and logs, and why it is safe.

    A state has the vote and the log of every node, the log of every leader there has been, and
    the evidence that was ever given: requests for votes, votes granted (with the log of the voter
    at that moment) and acknowledgements of a prefix of a leader's log. The steps are those of
    the engine ([engine/engine_impl.rs], [engine/handler/]) on whole lists of log ids, with
    an adversarial network; [RaftSafety] shows that the engine takes only these steps. A leader is
    identified by its term and its node, and several leaders may share a term. *)

From stdpp Require Import functions.
From S2P Require Import Prelude LogStore RaftQuorum RaftMembership RaftLogIds RaftProgress RaftState.

#[local] Open Scope Z_scope.

(** * Votes *)

Definition vle (a b : Vote) : Prop :=
  leader_id_lt (vote_leader a) (vote_leader b)
  ∨ vote_leader a = vote_leader b ∧ (vote_committed a = true → vote_committed b = true).

Lemma vote_le_spec a b : vote_le a b = true ↔ vle a b.
Proof.
  unfold vote_le, vote_cmp, vle. destruct a as [la ca], b as [lb cb]; simpl.
  destruct (leader_id_cmp_spec la lb) as [->|Hlt|Hgt].
  - split.
    + intros Hc. right. split; [done|]. by destruct ca, cb.
    + intros [Hlt|[_ Hc]]; [by apply leader_id_lt_irrefl in Hlt|]. destruct ca, cb; auto; discriminate Hc; done.
  - split; [by left|done].
  - split; [done|]. intros [Hlt|[-> _]]; unfold leader_id_lt in *; lia.
Qed.

Lemma vote_lt_spec a b : vote_lt a b = true ↔ vle a b ∧ a ≠ b.
Proof.
  unfold vote_lt, vote_cmp, vle. destruct a as [la ca], b as [lb cb]; simpl.
  destruct (leader_id_cmp_spec la lb) as [->|Hlt|Hgt].
  - split.
    + intros Hc. destruct ca, cb; try discriminate. split; [by right|done].
    + intros [[Hlt|[_ Hc]] Hne]; [by apply leader_id_lt_irrefl in Hlt|]. destruct ca, cb; try done; discriminate Hc; done.
  - split; [|done]. intros _. split; [by left|]. intros [= -> ->]. lia.
  - split; [done|]. intros [[Hlt|[-> _]] _]; unfold leader_id_lt in *; lia.
Qed.

Lemma vle_refl a : vle a a.
Proof. right. auto. Qed.

Lemma vle_trans a b c : vle a b → vle b c → vle a c.
Proof.
  unfold vle. intros [?|[Hab ?]] [?|[Hbc ?]].
  - left. by eapply leader_id_lt_trans.
  - left. by rewrite -Hbc.
  - left. by rewrite Hab.
  - right. split; [congruence|auto].
Qed.

Lemma vle_antisym a b : vle a b → vle b a → a = b.
Proof.
  unfold vle. destruct a as [la ca], b as [lb cb]; simpl. intros [H1|[-> H1]] [H2|[H2' H2]].
  - destruct (leader_id_lt_irrefl la). by eapply leader_id_lt_trans.
  - subst. by apply leader_id_lt_irrefl in H1.
  - by apply leader_id_lt_irrefl in H2.
  - f_equal. destruct ca, cb; auto; symmetry; auto.
Qed.

Lemma vle_leader a b : vle a b → leader_id_lt (vote_leader a) (vote_leader b) ∨ vote_leader a = vote_leader b.
Proof. intros [?|[? _]]; auto. Qed.

Lemma leader_id_lt_total a b : leader_id_lt a b ∨ a = b ∨ leader_id_lt b a.
Proof. unfold leader_id_lt. destruct (leader_id_cmp_spec a b) as [->|?|?]; [auto|auto|]. right. right. lia. Qed.

Definition leader_id_le (a b : LeaderId) : Prop := leader_id_lt a b ∨ a = b.

Lemma leader_id_le_trans a b c : leader_id_le a b → leader_id_le b c → leader_id_le a c.
Proof. intros [?| ->] [?| <-]; unfold leader_id_le; eauto using leader_id_lt_trans. Qed.

Lemma leader_id_le_lt_trans a b c : leader_id_le a b → leader_id_lt b c → leader_id_lt a c.
Proof. intros [?| ->]; eauto using leader_id_lt_trans. Qed.

Lemma leader_id_lt_le_trans a b c : leader_id_lt a b → leader_id_le b c → leader_id_lt a c.
Proof. intros ? [?| <-]; eauto using leader_id_lt_trans. Qed.

Lemma leader_id_le_antisym a b : leader_id_le a b → leader_id_le b a → a = b.
Proof.
  intros [?| ->] [?|Heq]; try done. destruct (leader_id_lt_irrefl a). by eapply leader_id_lt_trans.
Qed.

(** * States and steps *)

Record Net := MkNet {
  nvote : Z → Vote;
  nlog : Z → list LogId;
  llog : LeaderId → option (list LogId);
  reqs : list (LeaderId * option LogId);
  grants : list (Z * LeaderId * list LogId);
  acks : list (Z * LeaderId * nat)
}.

(** The log after entries up to [j] of the leader's log [lg] were accepted: unchanged if it has them. *)
Definition accept_log (a lg : list LogId) (j : nat) : list LogId :=
  if bool_decide (take j a = take j lg) then a else take j lg.

Definition set_nvote (n : Z) (v : Vote) (s : Net) : Net :=
  MkNet (<[n := v]> (nvote s)) (nlog s) (llog s) (reqs s) (grants s) (acks s).
Definition set_nlog (n : Z) (l : list LogId) (s : Net) : Net :=
  MkNet (nvote s) (<[n := l]> (nlog s)) (llog s) (reqs s) (grants s) (acks s).
Definition set_llog (L : LeaderId) (l : list LogId) (s : Net) : Net :=
  MkNet (nvote s) (nlog s) (<[L := Some l]> (llog s)) (reqs s) (grants s) (acks s).
Definition add_req (r : LeaderId * option LogId) (s : Net) : Net :=
  MkNet (nvote s) (nlog s) (llog s) (r :: reqs s) (grants s) (acks s).
Definition add_grant (g : Z * LeaderId * list LogId) (s : Net) : Net :=
  MkNet (nvote s) (nlog s) (llog s) (reqs s) (g :: grants s) (acks s).
Definition add_ack (a : Z * LeaderId * nat) (s : Net) : Net :=
  MkNet (nvote s) (nlog s) (llog s) (reqs s) (grants s) (a :: acks s).

Section Protocol.
Context (qs : LeaderQuorumSet).

Inductive pstep : Net → Net → Prop :=
  (** [Engine::elect]. *)
  | PElect s n L :
      node_id L = n → vle (nvote s n) (MkVote L false) → nvote s n ≠ MkVote L false →
      pstep s (add_req (L, last (nlog s n)) (set_nvote n (MkVote L false) s))
  (** [Engine::handle_vote_req], granted; and the vote of a candidate for itself. *)
  | PGrant s n L lst :
      (L, lst) ∈ reqs s → vle (nvote s n) (MkVote L false) → opt_le (last (nlog s n)) lst →
      pstep s (add_grant (n, L, nlog s n) (set_nvote n (MkVote L false) s))
  (** [VoteHandler::update_vote] with a vote that some other node has. *)
  | PRaise s n v :
      vle (nvote s n) v → (vote_committed v = true → node_id (vote_leader v) ≠ n) →
      pstep s (set_nvote n v s)
  (** [Engine::establish_leader]. *)
  | PEstablish s n L l :
      node_id L = n → nvote s n = MkVote L false →
      NoDup l → is_quorum qs l = true → (∀ m, m ∈ l → ∃ lg, (m, L, lg) ∈ grants s) →
      pstep s (set_llog L (nlog s n) (set_nvote n (MkVote L true) s))
  (** [LeaderHandler::leader_append_entries]. *)
  | PAppend s n L lg :
      node_id L = n → nvote s n = MkVote L true → llog s L = Some lg →
      pstep s (set_llog L (lg ++ [MkLogId L (len lg)]) (set_nlog n (lg ++ [MkLogId L (len lg)]) s))
  (** [FollowingHandler::append_entries], after the id before the entries was found. *)
  | PAccept s n L lg i j :
      node_id L ≠ n → llog s L = Some lg → vle (nvote s n) (MkVote L true) →
      (i ≤ j ≤ length lg)%nat → (i ≤ length (nlog s n))%nat → take i (nlog s n) = take i lg →
      pstep s (add_ack (n, L, j) (set_nlog n (accept_log (nlog s n) lg j) (set_nvote n (MkVote L true) s)))
  (** [FollowingHandler::ensure_log_consecutive], when that id is not there. *)
  | PReject s n L lg i x :
      node_id L ≠ n → llog s L = Some lg → vle (nvote s n) (MkVote L true) →
      lg !! i = Some x → nlog s n !! i ≠ Some x →
      pstep s (set_nlog n (take i (nlog s n)) (set_nvote n (MkVote L true) s))
  (** [ReplicationHandler::update_local_progress]. *)
  | PAckSelf s n L lg k :
      node_id L = n → nvote s n = MkVote L true → llog s L = Some lg → (k ≤ length lg)%nat →
      pstep s (add_ack (n, L, k) s).

(** All nodes start with the log and the membership of an initialized group. *)
Definition init_net : Net :=
  MkNet (λ _, default_vote) (λ _, [default_log_id])
    (λ L, if bool_decide (L = default_leader_id) then Some [default_log_id] else None) [] [] [].

Definition reachable_net (s : Net) : Prop := rtc pstep init_net s.

(** A prefix of length [k] of the log of [L] is chosen: a quorum has it, and it ends with an entry of [L]. *)
Definition chosen (s : Net) (L : LeaderId) (k : nat) : Prop :=
  ∃ lg x l, llog s L = Some lg ∧ (0 < k)%nat ∧ lg !! (k - 1)%nat = Some x ∧ leader_id x = L
    ∧ NoDup l ∧ is_quorum qs l = true ∧ ∀ n, n ∈ l → ∃ k', (k ≤ k')%nat ∧ (n, L, k') ∈ acks s.

End Protocol.

(** * Logs that match the logs of the leaders *)

Abbreviation LLog := (LeaderId → option (list LogId)).

(** Each entry is at its index, and up to it the log is that of the entry's leader. *)
Definition matches (ll : LLog) (lg : list LogId) : Prop :=
  ∀ i x, lg !! i = Some x →
    index x = Z.of_nat i ∧ ∃ m, ll (leader_id x) = Some m ∧ take (S i) lg = take (S i) m.

(** The logs of leaders only grow. *)
Definition extends (ll ll' : LLog) : Prop := ∀ L lg, ll L = Some lg → ∃ r, ll' L = Some (lg ++ r).

Lemma take_S_lookup (a b : list LogId) i x : take (S i) a = take (S i) b → a !! i = Some x → b !! i = Some x.
Proof. intros Heq Hx. rewrite -(lookup_take_lt b (S i) i); [lia|]. rewrite -Heq lookup_take_lt //. lia. Qed.

Lemma take_take_ge (a : list LogId) j i : (i ≤ j)%nat → take i (take j a) = take i a.
Proof. intros Hij. by rewrite take_take Nat.min_l. Qed.

Lemma take_eq_le (a b : list LogId) i j : (i ≤ j)%nat → take j a = take j b → take i a = take i b.
Proof. intros Hij Heq. rewrite -(take_take_ge a j i) // Heq take_take_ge //. Qed.

Lemma matches_extends ll ll' lg : extends ll ll' → matches ll lg → matches ll' lg.
Proof.
  intros He Hm i x Hx. destruct (Hm i x Hx) as (Hi & m & HL & Ht). split; [done|].
  destruct (He _ _ HL) as [r Hr]. exists (m ++ r). split; [done|]. rewrite Ht take_app_le //.
  pose proof (take_S_lookup _ _ _ _ Ht Hx) as Hm'. apply lookup_lt_Some in Hm'. lia.
Qed.

Lemma matches_take ll lg k : matches ll lg → matches ll (take k lg).
Proof.
  intros Hm i x [Hx Hik]%lookup_take_Some. destruct (Hm i x Hx) as (Hi & m & HL & Ht). split; [done|].
  exists m. split; [done|]. rewrite take_take_ge //.
Qed.

Lemma matches_accept ll a lg j : matches ll a → matches ll lg → matches ll (accept_log a lg j).
Proof. intros Ha Hl. unfold accept_log. case_bool_decide; [done|]. by apply matches_take. Qed.

Lemma extends_refl ll : extends ll ll.
Proof. intros L lg HL. exists []. by rewrite app_nil_r. Qed.

Lemma extends_establish ll L l : ll L = None → extends ll (<[L := Some l]> ll).
Proof.
  intros HL M lg HM. exists []. rewrite app_nil_r fn_lookup_insert_ne //. intros ->. congruence.
Qed.

Lemma extends_append ll L lg x : ll L = Some lg → extends ll (<[L := Some (lg ++ [x])]> ll).
Proof.
  intros HL M m HM. destruct (decide (L = M)) as [<-|Hne].
  - exists [x]. rewrite fn_lookup_insert. by simplify_eq.
  - exists []. by rewrite app_nil_r fn_lookup_insert_ne.
Qed.

(** Entries of a leader's log are of that leader or of earlier ones. *)
Definition leaders_le (ll : LLog) : Prop :=
  ∀ L lg x, ll L = Some lg → x ∈ lg → leader_id_le (leader_id x) L.

Lemma matches_monotone ll lg i j x y :
  matches ll lg → leaders_le ll → (i ≤ j)%nat → lg !! i = Some x → lg !! j = Some y →
  leader_id_le (leader_id x) (leader_id y).
Proof.
  intros Hm Hle Hij Hx Hy. destruct (Hm j y Hy) as (_ & m & HL & Ht).
  apply (Hle _ m); [done|]. apply (list_elem_of_lookup_2 _ i).
  apply (take_S_lookup lg); [|done]. apply (take_eq_le _ _ _ (S j)); [lia|done].
Qed.

(** Two matching logs with the same entry agree up to it. *)
Lemma matches_agree ll a b i x : matches ll a → matches ll b → a !! i = Some x → b !! i = Some x →
  take (S i) a = take (S i) b.
Proof.
  intros Ha Hb Hx Hy. destruct (Ha i x Hx) as (_ & m & HL & Ht). destruct (Hb i x Hy) as (_ & m' & HL' & Ht').
  simplify_eq. congruence.
Qed.

Lemma matches_index ll a i j x : matches ll a → a !! i = Some x → index x = Z.of_nat j → i = j.
Proof. intros Ha Hx Hj. destruct (Ha i x Hx) as [Hi _]. lia. Qed.

(** A prefix [k] of the log of [L] that a later leader's log does not have, it never gets. *)
Lemma diverged_stable ll L lg L' l x k :
  leaders_le ll → ll L = Some lg → (k ≤ length lg)%nat → leader_id_lt L L' → leader_id x = L' →
  take k l ≠ take k lg → take k (l ++ [x]) ≠ take k lg.
Proof.
  intros Hle HL Hk Hlt Hx Hne Heq. destruct (Nat.le_gt_cases k (length l)) as [Hkl|Hkl].
  - by rewrite take_app_le in Heq.
  - assert (lg !! length l = Some x) as Hin.
    { apply (take_S_lookup (l ++ [x])); [by apply (take_eq_le _ _ _ k)|]. by apply list_lookup_middle. }
    apply list_elem_of_lookup_2 in Hin. apply (Hle _ _ _ HL) in Hin. rewrite Hx in Hin.
    apply (leader_id_lt_irrefl L). by eapply leader_id_lt_le_trans.
Qed.

(** * The invariant *)

(** The log of [n] still has the prefix it acknowledged, or the log of a leader it has followed since has not. *)
Definition retains (s : Net) (n : Z) (L : LeaderId) (k : nat) (lg : list LogId) : Prop :=
  take k (nlog s n) = take k lg
  ∨ ∃ L' l', leader_id_lt L L' ∧ vle (MkVote L' true) (nvote s n) ∧ llog s L' = Some l' ∧ take k l' ≠ take k lg.

(** The same of a log [gl] with which [n] granted the vote of [L2]. *)
Definition retained_at (s : Net) (gl : list LogId) (L : LeaderId) (k : nat) (lg : list LogId) (L2 : LeaderId) : Prop :=
  take k gl = take k lg
  ∨ ∃ L' l', leader_id_lt L L' ∧ leader_id_lt L' L2 ∧ llog s L' = Some l' ∧ take k l' ≠ take k lg.

Section Invariant.
Context (qs : LeaderQuorumSet).

Record net_inv (s : Net) : Prop := {
  inv_default n : leader_id_le default_leader_id (vote_leader (nvote s n));
  inv_log n : matches (llog s) (nlog s n);
  inv_log_vote n x : x ∈ nlog s n → leader_id x = default_leader_id ∨ vle (MkVote (leader_id x) true) (nvote s n);
  inv_llog L lg : llog s L = Some lg → matches (llog s) lg;
  inv_llog_le : leaders_le (llog s);
  inv_llog_vote L lg : llog s L = Some lg → L = default_leader_id ∨ vle (MkVote L true) (nvote s (node_id L));
  inv_leader n L : nvote s n = MkVote L true → node_id L = n → llog s L = Some (nlog s n);
  inv_llog_quorum L lg : llog s L = Some lg → L = default_leader_id
    ∨ ∃ l, NoDup l ∧ is_quorum qs l = true ∧ ∀ m, m ∈ l → ∃ gl, (m, L, gl) ∈ grants s;
  inv_reqs L lst : (L, lst) ∈ reqs s →
    leader_id_lt default_leader_id L ∧ vle (MkVote L false) (nvote s (node_id L))
    ∧ (nvote s (node_id L) = MkVote L false → last (nlog s (node_id L)) = lst)
    ∧ (∀ x, lst = Some x → leader_id_lt (leader_id x) L)
    ∧ (∀ lg, llog s L = Some lg → ∃ k, last (take k lg) = lst);
  inv_grants n L gl : (n, L, gl) ∈ grants s →
    matches (llog s) gl ∧ vle (MkVote L false) (nvote s n) ∧ ∃ lst, (L, lst) ∈ reqs s ∧ opt_le (last gl) lst;
  inv_acks n L k : (n, L, k) ∈ acks s →
    vle (MkVote L true) (nvote s n) ∧ ∃ lg, llog s L = Some lg ∧ (k ≤ length lg)%nat ∧ ∀ k0, (k0 ≤ k)%nat → retains s n L k0 lg;
  inv_grant_acks n L L2 k gl lg : (n, L2, gl) ∈ grants s → (n, L, k) ∈ acks s → leader_id_lt L L2 →
    llog s L = Some lg → ∀ k0, (k0 ≤ k)%nat → retained_at s gl L k0 lg L2
}.

Lemma init_inv : net_inv init_net.
Proof.
  assert (∀ i x, [default_log_id] !! i = Some x → i = 0%nat ∧ x = default_log_id) as Hone.
  { intros [|[|i]] x Hx; simpl in Hx; by simplify_eq. }
  assert (matches (llog init_net) [default_log_id]) as Hm.
  { intros i x [-> ->]%Hone. split; [done|]. exists [default_log_id]. done. }
  split; simpl.
  - intros n. by right.
  - intros n. exact Hm.
  - intros n x ->%list_elem_of_singleton. by left.
  - intros L lg. by case_bool_decide; intros [= <-].
  - intros L lg x HL Hx. simpl in HL. case_bool_decide; simplify_eq. apply list_elem_of_singleton in Hx as ->. by right.
  - intros L lg. case_bool_decide; [by left|done].
  - intros n L [=].
  - intros L lg. case_bool_decide; [by left|done].
  - by intros L lst ?%elem_of_nil.
  - by intros n L gl ?%elem_of_nil.
  - by intros n L k ?%elem_of_nil.
  - by intros n L L2 k gl lg ?%elem_of_nil.
Qed.

(** A change of the vote, of the log, of the evidence: each keeps the invariant under its condition. *)
Lemma raise_inv s n v :
  net_inv s → vle (nvote s n) v →
  (vote_committed v = true → node_id (vote_leader v) ≠ n ∨ nvote s n = v) → net_inv (set_nvote n v s).
Proof.
  intros Hinv Hv Hown.
  assert (∀ m, vle (nvote s m) (nvote (set_nvote n v s) m)) as Hup.
  { intros m. simpl. destruct (decide (n = m)) as [<-|Hne]; [by rewrite fn_lookup_insert|].
    rewrite fn_lookup_insert_ne //. apply vle_refl. }
  destruct Hinv. split; try (simpl; done).
  - intros m. eapply leader_id_le_trans; [done|]. by destruct (vle_leader _ _ (Hup m)); [left|right].
  - intros m x Hx. destruct (inv_log_vote0 m x Hx); [by left|]. right. by eapply vle_trans.
  - intros L lg HL. destruct (inv_llog_vote0 L lg HL); [by left|]. right. by eapply vle_trans.
  - intros m L Hm Hn. destruct (decide (n = m)) as [<-|Hne].
    + simpl in Hm. rewrite fn_lookup_insert in Hm. subst v. simpl in Hown.
      destruct (Hown eq_refl) as [?|Heq]; [done|]. by apply inv_leader0.
    + simpl in Hm. rewrite fn_lookup_insert_ne // in Hm. by apply inv_leader0.
  - intros L lst Hin. destruct (inv_reqs0 L lst Hin) as (H1 & H2 & H3 & H4 & H5).
    split_and!; [done|by eapply vle_trans| |done|done].
    intros Hm. apply H3. apply vle_antisym; [|done]. rewrite -Hm. apply Hup.
  - intros m L gl Hin. destruct (inv_grants0 m L gl Hin) as (? & ? & ?). split_and!; [done|by eapply vle_trans|done].
  - intros m L k Hin. destruct (inv_acks0 m L k Hin) as (Hle & lg & HL & Hk & Hr). split; [by eapply vle_trans|].
    exists lg. split_and!; [done..|]. intros k0 Hk0. destruct (Hr k0 Hk0) as [?|(L' & l' & ? & ? & ? & ?)]; [by left|].
    right. exists L', l'. split_and!; [done| |done|done]. by eapply vle_trans.
Qed.

Lemma add_req_inv s L :
  net_inv s → nvote s (node_id L) = MkVote L false → leader_id_lt default_leader_id L →
  (∀ x, x ∈ nlog s (node_id L) → leader_id_lt (leader_id x) L) →
  net_inv (add_req (L, last (nlog s (node_id L))) s).
Proof.
  intros Hinv Hv Hd Hlt. destruct Hinv. split; try (simpl; done).
  - intros L1 lst Hin. apply elem_of_cons in Hin as [Heq|Hin]; [|by apply inv_reqs0]. injection Heq as -> ->.
    simpl. split_and!; [done|rewrite Hv; apply vle_refl|done| |].
    + intros x Hx%last_Some_elem_of. by apply Hlt.
    + intros lg HL. destruct (inv_llog_vote0 L lg HL) as [->|Hle]; [by apply leader_id_lt_irrefl in Hd|].
      rewrite Hv in Hle. destruct Hle as [Hlt'|[_ Hc]]; [by apply leader_id_lt_irrefl in Hlt'|by discriminate (Hc eq_refl)].
  - intros n L1 gl Hin. destruct (inv_grants0 n L1 gl Hin) as (? & ? & lst & ? & ?).
    split_and!; [done..|]. exists lst. simpl. split; [set_solver|done].
Qed.

Lemma add_grant_inv s n L lst :
  net_inv s → nvote s n = MkVote L false → (L, lst) ∈ reqs s → opt_le (last (nlog s n)) lst →
  net_inv (add_grant (n, L, nlog s n) s).
Proof.
  intros Hinv Hv Hreq Hle. destruct Hinv. split; try (simpl; done).
  - intros L1 lg HL. destruct (inv_llog_quorum0 L1 lg HL) as [?|(l & ? & ? & Hg)]; [by left|].
    right. exists l. split_and!; [done..|]. intros m Hm. destruct (Hg m Hm) as [gl Hgl]. exists gl. simpl. set_solver.
  - intros m L1 gl Hin. apply elem_of_cons in Hin as [Heq|Hin]; [|by apply inv_grants0]. injection Heq as -> -> ->.
    simpl. split_and!; [done|rewrite Hv; apply vle_refl|by exists lst].
  - intros m L1 L2 k gl lg Hin Hack Hlt HL k0 Hk0. apply elem_of_cons in Hin as [Heq|Hin]; [|by eapply inv_grant_acks0].
    injection Heq as -> -> ->. simpl in *.
    destruct (inv_acks0 n L1 k Hack) as (_ & lg' & HL' & Hk & Hr). simplify_eq.
    destruct (Hr k0 Hk0) as [?|(L' & l' & ? & Hle' & ? & ?)]; [by left|]. right. exists L', l'. split_and!; [done| |done|done].
    rewrite Hv in Hle'. destruct Hle' as [?|[_ Hc]]; [done|]. by discriminate (Hc eq_refl).
Qed.

Lemma add_ack_inv s n L k lg :
  net_inv s → nvote s n = MkVote L true → llog s L = Some lg → (k ≤ length lg)%nat → take k (nlog s n) = take k lg →
  net_inv (add_ack (n, L, k) s).
Proof.
  intros Hinv Hv HL Hk Ht. destruct Hinv. split; try (simpl; done).
  - intros m L1 k1 Hin. apply elem_of_cons in Hin as [Heq|Hin]; [|by apply inv_acks0]. injection Heq as -> -> ->.
    simpl. split; [rewrite Hv; apply vle_refl|]. exists lg. split_and!; [done..|].
    intros k0 Hk0. left. simpl. by apply (take_eq_le _ _ _ k).
  - intros m L1 L2 k1 gl lg1 Hg Hin Hlt HL1 k0 Hk0. apply elem_of_cons in Hin as [Heq|Hin]; [|by eapply inv_grant_acks0].
    injection Heq as -> -> ->. simpl in *. destruct (inv_grants0 n L2 gl Hg) as (_ & Hle & _). rewrite Hv in Hle.
    exfalso. destruct (vle_leader _ _ Hle) as [Hlt'|Heq]; simpl in *.
    + apply (leader_id_lt_irrefl L). by eapply leader_id_lt_trans.
    + subst. by apply leader_id_lt_irrefl in Hlt.
Qed.

(** The log of a follower of [L] changes to one that matches and has what [n] has acknowledged. *)
Lemma set_log_inv s n L l' :
  net_inv s → nvote s n = MkVote L true → node_id L ≠ n → matches (llog s) l' →
  (∀ x, x ∈ l' → leader_id_le (leader_id x) L) →
  (∀ L1 k k0 lg1, (n, L1, k) ∈ acks s → llog s L1 = Some lg1 → (k0 ≤ k)%nat → retains s n L1 k0 lg1 →
     retains (set_nlog n l' s) n L1 k0 lg1) →
  net_inv (set_nlog n l' s).
Proof.
  intros Hinv Hv Hn Hm Hle Hret. destruct Hinv. split; try (simpl; done).
  - intros m. simpl. destruct (decide (n = m)) as [<-|Hne]; [by rewrite fn_lookup_insert|by rewrite fn_lookup_insert_ne].
  - intros m x. simpl. destruct (decide (n = m)) as [<-|Hne]; [|rewrite fn_lookup_insert_ne //; apply inv_log_vote0].
    rewrite fn_lookup_insert. intros Hx. right. rewrite Hv. destruct (Hle x Hx) as [?| ->]; [by left|by right].
  - intros m L1. simpl. intros Hm1 Hn1. destruct (decide (n = m)) as [<-|Hne].
    + rewrite Hv in Hm1. by simplify_eq.
    + rewrite fn_lookup_insert_ne //. by apply inv_leader0.
  - intros L1 lst Hin. destruct (inv_reqs0 L1 lst Hin) as (H1 & H2 & H3 & H4 & H5). simpl. split_and!; [done|done| |done|done].
    intros Hm1. destruct (decide (n = node_id L1)) as [->|Hne]; [by rewrite Hv in Hm1|].
    rewrite fn_lookup_insert_ne //. by apply H3.
  - intros m L1 k Hin. destruct (inv_acks0 m L1 k Hin) as (? & lg & HL & Hk & Hr). split; [done|].
    exists lg. split_and!; [done..|]. intros k0 Hk0. destruct (decide (n = m)) as [<-|Hne]; [by apply (Hret L1 k); auto|].
    destruct (Hr k0 Hk0) as [Ht|?]; [left|by right]. simpl. by rewrite fn_lookup_insert_ne.
Qed.

(** A candidate with a quorum of grants becomes a leader. *)
Lemma establish_inv s n L l :
  quorums_meet qs qs → net_inv s → node_id L = n → nvote s n = MkVote L false →
  NoDup l → is_quorum qs l = true → (∀ m, m ∈ l → ∃ lg, (m, L, lg) ∈ grants s) →
  net_inv (set_llog L (nlog s n) (set_nvote n (MkVote L true) s)).
Proof.
  intros Hmeet Hinv Hn Hv Hnd Hq Hg.
  assert (leader_id_lt default_leader_id L) as Hd.
  { destruct (Hmeet l l Hnd Hnd Hq Hq) as (m & Hm & _). destruct (Hg m Hm) as [gl Hgl].
    destruct (inv_grants _ Hinv _ _ _ Hgl) as (_ & _ & lst & Hreq & _). by apply (inv_reqs _ Hinv _ _ Hreq). }
  assert (llog s L = None) as HL.
  { destruct (llog s L) as [lg|] eqn:HL; [|done]. exfalso. destruct (inv_llog_vote _ Hinv _ _ HL) as [->|Hle].
    - by apply leader_id_lt_irrefl in Hd.
    - rewrite Hn Hv in Hle. destruct Hle as [Hlt|[_ Hc]]; [by apply leader_id_lt_irrefl in Hlt|by discriminate (Hc eq_refl)]. }
  assert (extends (llog s) (<[L := Some (nlog s n)]> (llog s))) as Hext by (by apply extends_establish).
  assert (∀ L' l', llog s L' = Some l' → <[L := Some (nlog s n)]> (llog s) L' = Some l') as Hold.
  { intros L' l' HL'. rewrite fn_lookup_insert_ne //. intros ->. congruence. }
  assert (∀ m, vle (nvote s m) (<[n := MkVote L true]> (nvote s) m)) as Hup.
  { intros m. destruct (decide (n = m)) as [<-|Hne]; [rewrite fn_lookup_insert Hv; by right|].
    rewrite fn_lookup_insert_ne //. apply vle_refl. }
  destruct Hinv. split; simpl.
  - intros m. eapply leader_id_le_trans; [done|]. by destruct (vle_leader _ _ (Hup m)); [left|right].
  - intros m. by eapply matches_extends.
  - intros m x Hx. destruct (inv_log_vote0 m x Hx); [by left|]. right. by eapply vle_trans.
  - intros L1 lg. destruct (decide (L = L1)) as [<-|Hne].
    + rewrite fn_lookup_insert. intros [= <-]. by eapply matches_extends.
    + rewrite fn_lookup_insert_ne // => HL1. eapply matches_extends; [done|]. by eapply inv_llog0.
  - intros L1 lg x. simpl. destruct (decide (L = L1)) as [<-|Hne].
    + rewrite fn_lookup_insert. intros [= <-] Hx. destruct (inv_log_vote0 n x Hx) as [->|Hle]; [by left|].
      rewrite Hv in Hle. by destruct (vle_leader _ _ Hle); [left|right].
    + rewrite fn_lookup_insert_ne //. apply inv_llog_le0.
  - intros L1 lg. destruct (decide (L = L1)) as [<-|Hne].
    + intros _. right. rewrite Hn fn_lookup_insert. apply vle_refl.
    + rewrite fn_lookup_insert_ne // => HL1. destruct (inv_llog_vote0 L1 lg HL1); [by left|]. right. by eapply vle_trans.
  - intros m L1. destruct (decide (n = m)) as [<-|Hne].
    + rewrite fn_lookup_insert. intros [= <-] _. by rewrite fn_lookup_insert.
    + rewrite fn_lookup_insert_ne // => Hm Hm1. apply Hold. by apply inv_leader0.
  - intros L1 lg. destruct (decide (L = L1)) as [<-|Hne].
    + intros _. right. by exists l.
    + rewrite fn_lookup_insert_ne //. apply inv_llog_quorum0.
  - intros L1 lst Hin. destruct (inv_reqs0 L1 lst Hin) as (H1 & H2 & H3 & H4 & H5). split_and!; [done|by eapply vle_trans| |done|].
    + intros Hm. apply H3. destruct (decide (n = node_id L1)) as [Heq|Hne]; [|by rewrite fn_lookup_insert_ne in Hm].
      by rewrite -Heq fn_lookup_insert in Hm.
    + intros lg. destruct (decide (L = L1)) as [<-|Hne]; [|rewrite fn_lookup_insert_ne //; apply H5].
      rewrite fn_lookup_insert. intros [= <-]. exists (length (nlog s n)). rewrite take_ge // -Hn. apply H3. by rewrite Hn.
  - intros m L1 gl Hin. destruct (inv_grants0 m L1 gl Hin) as (? & ? & ?).
    split_and!; [by eapply matches_extends|by eapply vle_trans|done].
  - intros m L1 k Hin. destruct (inv_acks0 m L1 k Hin) as (Hle & lg & HL1 & Hk & Hr). split; [by eapply vle_trans|].
    exists lg. split_and!; [by apply Hold|done|]. intros k0 Hk0.
    destruct (Hr k0 Hk0) as [?|(L' & l' & ? & ? & ? & ?)]; [by left|].
    right. exists L', l'. simpl. split_and!; [done|by eapply vle_trans|by apply Hold|done].
  - intros m L1 L2 k gl lg Hgr Hin Hlt HL1 k0 Hk0. destruct (inv_acks0 m L1 k Hin) as (_ & lg' & HL1' & _ & _).
    rewrite (Hold _ _ HL1') in HL1. simplify_eq.
    destruct (inv_grant_acks0 m L1 L2 k gl lg Hgr Hin Hlt HL1' k0 Hk0) as [?|(L' & l' & ? & ? & ? & ?)]; [by left|].
    right. exists L', l'. simpl. split_and!; [done|done|by apply Hold|done].
Qed.

(** A leader appends an entry. *)
Lemma append_inv s n L lg :
  net_inv s → node_id L = n → nvote s n = MkVote L true → llog s L = Some lg →
  net_inv (set_llog L (lg ++ [MkLogId L (len lg)]) (set_nlog n (lg ++ [MkLogId L (len lg)]) s)).
Proof.
  intros Hinv Hn Hv HL. set (x := MkLogId L (len lg)). set (lg' := lg ++ [x]).
  assert (nlog s n = lg) as Hlg by (pose proof (inv_leader _ Hinv n L Hv Hn); congruence).
  assert (extends (llog s) (<[L := Some lg']> (llog s))) as Hext by (by apply extends_append).
  assert (matches (<[L := Some lg']> (llog s)) lg') as Hmat.
  { intros i y Hy. apply lookup_snoc_Some in Hy as [[Hi Hy]|[-> <-]].
    - destruct (matches_extends _ _ _ Hext (inv_llog _ Hinv _ _ HL) i y Hy) as (? & m & HLm & Ht). split; [done|].
      exists m. split; [done|]. by rewrite -Ht /lg' take_app_le; [lia|].
    - split; [done|]. exists lg'. simpl. by rewrite fn_lookup_insert. }
  assert (∀ L1 lg1 k, llog s L1 = Some lg1 → (k ≤ length lg1)%nat →
    ∃ lg2, <[L := Some lg']> (llog s) L1 = Some lg2 ∧ take k lg2 = take k lg1 ∧ (k ≤ length lg2)%nat) as Hgrow.
  { intros L1 lg1 k HL1 Hk. destruct (Hext _ _ HL1) as [r Hr]. exists (lg1 ++ r).
    split_and!; [done|by rewrite take_app_le|rewrite length_app; lia]. }
  assert (∀ L1 lg1 lg2 k L' l', llog s L1 = Some lg1 → (k ≤ length lg1)%nat → <[L := Some lg']> (llog s) L1 = Some lg2 →
    leader_id_lt L1 L' → llog s L' = Some l' → take k l' ≠ take k lg1 →
    ∃ l2, <[L := Some lg']> (llog s) L' = Some l2 ∧ take k l2 ≠ take k lg2) as Hdiv.
  { intros L1 lg1 lg2 k L' l' HL1 Hk HL2 Hlt HL' Hne.
    destruct (Hgrow L1 lg1 k HL1 Hk) as (lg3 & HL3 & Ht & _). simplify_eq. rewrite Ht.
    destruct (decide (L = L')) as [<-|Hd].
    - exists lg'. rewrite fn_lookup_insert. split; [done|]. simplify_eq.
      eapply (diverged_stable (llog s) L1 lg1 L); [apply Hinv|done|done|done|done|done].
    - exists l'. by rewrite fn_lookup_insert_ne. }
  destruct Hinv. split; simpl.
  - done.
  - intros m. destruct (decide (n = m)) as [<-|Hne]; [by rewrite fn_lookup_insert|].
    rewrite fn_lookup_insert_ne //. by eapply matches_extends.
  - intros m y. destruct (decide (n = m)) as [<-|Hne]; [|rewrite fn_lookup_insert_ne //; apply inv_log_vote0].
    rewrite fn_lookup_insert. intros [Hy|Hy]%elem_of_app; [apply inv_log_vote0; by rewrite Hlg|].
    apply list_elem_of_singleton in Hy as ->. right. rewrite Hv. apply vle_refl.
  - intros L1 lg1. destruct (decide (L = L1)) as [<-|Hne].
    + rewrite fn_lookup_insert. by intros [= <-].
    + rewrite fn_lookup_insert_ne // => HL1. eapply matches_extends; [done|]. by eapply inv_llog0.
  - intros L1 lg1 y. simpl. destruct (decide (L = L1)) as [<-|Hne]; [|rewrite fn_lookup_insert_ne //; apply inv_llog_le0].
    rewrite fn_lookup_insert. intros [= <-] [Hy|Hy]%elem_of_app; [by eapply inv_llog_le0|].
    apply list_elem_of_singleton in Hy as ->. by right.
  - intros L1 lg1. destruct (decide (L = L1)) as [<-|Hne]; [|rewrite fn_lookup_insert_ne //; apply inv_llog_vote0].
    intros _. by eapply inv_llog_vote0.
  - intros m L1 Hm Hm1. destruct (decide (n = m)) as [<-|Hne].
    + rewrite Hv in Hm. injection Hm as <-. by rewrite !fn_lookup_insert.
    + rewrite (fn_lookup_insert_ne (nlog s)) // fn_lookup_insert_ne; [intros <-; congruence|]. by apply inv_leader0.
  - intros L1 lg1. destruct (decide (L = L1)) as [<-|Hne]; [|rewrite fn_lookup_insert_ne //; apply inv_llog_quorum0].
    intros _. by eapply inv_llog_quorum0.
  - intros L1 lst Hin. destruct (inv_reqs0 L1 lst Hin) as (H1 & H2 & H3 & H4 & H5). split_and!; [done|done| |done|].
    + intros Hm. destruct (decide (n = node_id L1)) as [Heq|Hne]; [by rewrite -Heq Hv in Hm|].
      rewrite fn_lookup_insert_ne //. by apply H3.
    + intros lg1. destruct (decide (L = L1)) as [<-|Hne]; [|rewrite fn_lookup_insert_ne //; apply H5].
      rewrite fn_lookup_insert. intros [= <-]. destruct (H5 lg HL) as [k Hk]. exists (k `min` length lg)%nat.
      rewrite take_app_le; [lia|]. by rewrite -Hk -take_take firstn_all.
  - intros m L1 gl Hin. destruct (inv_grants0 m L1 gl Hin) as (? & ? & ?). split_and!; [by eapply matches_extends|done|done].
  - intros m L1 k Hin. destruct (inv_acks0 m L1 k Hin) as (Hle & lg1 & HL1 & Hk & Hr). split; [done|].
    destruct (Hgrow L1 lg1 k HL1 Hk) as (lg2 & HL2 & Ht & Hk2). exists lg2. split_and!; [done..|]. intros k0 Hk0.
    destruct (Hr k0 Hk0) as [Ht1|(L' & l' & ? & ? & ? & ?)].
    + left. simpl. rewrite (take_eq_le lg2 lg1 k0 k) //. destruct (decide (n = m)) as [<-|Hne]; [|by rewrite fn_lookup_insert_ne].
      rewrite fn_lookup_insert /lg' -Ht1 Hlg take_app_le //.
      rewrite Hlg in Ht1. apply (f_equal length) in Ht1. rewrite !length_take in Ht1. lia.
    + right. destruct (Hdiv L1 lg1 lg2 k0 L' l') as (l2 & ? & ?); try done; [lia|]. exists L', l2. done.
  - intros m L1 L2 k gl lg2 Hgr Hin Hlt HL2 k0 Hk0. destruct (inv_acks0 m L1 k Hin) as (_ & lg1 & HL1 & Hk & _).
    destruct (Hgrow L1 lg1 k HL1 Hk) as (lg3 & HL3 & Ht & _). simplify_eq.
    destruct (inv_grant_acks0 m L1 L2 k gl lg1 Hgr Hin Hlt HL1 k0 Hk0) as [Ht1|(L' & l' & ? & ? & ? & ?)].
    + left. by rewrite Ht1 (take_eq_le lg2 lg1 k0 k).
    + right. destruct (Hdiv L1 lg1 lg2 k0 L' l') as (l2 & ? & ?); try done; [lia|]. exists L', l2. done.
Qed.

Lemma log_le_vote s n L c x : net_inv s → nvote s n = MkVote L c → x ∈ nlog s n → leader_id_le (leader_id x) L.
Proof.
  intros Hinv Hv Hx. pose proof (inv_default _ Hinv n) as Hd. rewrite Hv in Hd.
  destruct (inv_log_vote _ Hinv n x Hx) as [->|Hle]; [done|]. rewrite Hv in Hle.
  by destruct (vle_leader _ _ Hle); [left|right].
Qed.

Context (Hmeet : quorums_meet qs qs).

Lemma pstep_inv s s' : net_inv s → pstep qs s s' → net_inv s'.
Proof.
  intros Hinv Hstep. destruct Hstep as [s n L Hn Hv Hne|s n L lst Hreq Hv Hle|s n v Hv Hown|s n L l Hn Hv Hnd Hq Hg
    |s n L lg Hn Hv HL|s n L lg i j Hn HL Hv Hij Hi Ht|s n L lg i x Hn HL Hv Hx Hnx|s n L lg k Hn Hv HL Hk].
  - (* elect *)
    assert (leader_id_lt (vote_leader (nvote s n)) L) as Hlt.
    { destruct Hv as [?|[Heq Hc]]; [done|]. destruct Hne. destruct (nvote s n) as [L0 c]. simpl in *. subst L0.
      destruct c; [discriminate (Hc eq_refl)|done]. }
    pose proof (raise_inv s n (MkVote L false) Hinv Hv) as Hinv'. specialize (Hinv' ltac:(done)).
    replace (last (nlog s n)) with (last (nlog (set_nvote n (MkVote L false) s) (node_id L))) by (by rewrite Hn).
    apply add_req_inv; [done|by rewrite Hn /= fn_lookup_insert| |].
    + eapply leader_id_le_lt_trans; [apply Hinv|done].
    + rewrite Hn. simpl. intros x Hx. destruct (inv_log_vote _ Hinv n x Hx) as [->|Hle].
      * eapply leader_id_le_lt_trans; [apply Hinv|done].
      * eapply leader_id_le_lt_trans; [|done]. by destruct (vle_leader _ _ Hle); [left|right].
  - apply (add_grant_inv (set_nvote n (MkVote L false) s) n L lst); [|by rewrite /= fn_lookup_insert|done|done].
    by apply raise_inv.
  - apply raise_inv; [done|done|]. intros Hc. left. by apply Hown.
  - by apply (establish_inv s n L l).
  - by apply append_inv.
  - (* accept *)
    pose proof (raise_inv s n (MkVote L true) Hinv Hv (λ _, or_introl Hn)) as Hinv'.
    set (s1 := set_nvote n (MkVote L true) s) in *.
    assert (nvote s1 n = MkVote L true) as Hv1 by (by rewrite /= fn_lookup_insert).
    assert (net_inv (set_nlog n (accept_log (nlog s n) lg j) s1)) as Hinv2.
    { apply (set_log_inv s1 n L); [done|done|done| | |].
      - apply matches_accept; [apply Hinv|by eapply Hinv].
      - intros x. unfold accept_log. case_bool_decide.
        + intros Hx. by apply (log_le_vote s1 n L true).
        + intros Hx. eapply (inv_llog_le _ Hinv); [done|]. apply elem_of_take in Hx as (i' & Hx & _). by eapply list_elem_of_lookup_2.
      - intros L1 k1 k lg1 Hack HL1 Hk1 Hr. destruct Hr as [Hr|?]; [|by right].
        destruct (decide (take k lg = take k lg1)) as [Heq|Hneq].
        + left. simpl in *. rewrite fn_lookup_insert. unfold accept_log. case_bool_decide as Hj; [done|].
          assert (k ≤ j)%nat; [|rewrite take_take_ge //].
          destruct (Nat.le_gt_cases k j) as [?|Hlt]; [done|]. destruct Hj. apply (take_eq_le _ _ _ k); [lia|congruence].
        + right. exists L, lg. split_and!; [|rewrite /= fn_lookup_insert; apply vle_refl|done|done].
          destruct (inv_acks _ Hinv' n L1 k1 Hack) as (Hle & _). rewrite Hv1 in Hle.
          destruct (vle_leader _ _ Hle) as [?|Heq]; [done|]. simpl in *. simplify_eq. }
    apply (add_ack_inv _ n L j lg); [done|done|done|lia|].
    simpl. rewrite fn_lookup_insert. unfold accept_log. case_bool_decide; [done|]. by rewrite take_take_ge.
  - (* reject *)
    pose proof (raise_inv s n (MkVote L true) Hinv Hv (λ _, or_introl Hn)) as Hinv'.
    set (s1 := set_nvote n (MkVote L true) s) in *.
    assert (nvote s1 n = MkVote L true) as Hv1 by (by rewrite /= fn_lookup_insert).
    apply (set_log_inv s1 n L); [done|done|done| | |].
    + apply matches_take. apply Hinv.
    + intros y Hy. apply elem_of_take in Hy as (i' & Hy & _). apply list_elem_of_lookup_2 in Hy.
      by apply (log_le_vote s1 n L true).
    + intros L1 k1 k lg1 Hack HL1 Hk1 Hr. destruct Hr as [Hr|?]; [|by right]. change (nlog s1 n) with (nlog s n) in Hr.
      destruct (Nat.le_gt_cases k i) as [Hki|Hki].
      { left. simpl. by rewrite fn_lookup_insert take_take_ge. }
      assert (take k lg ≠ take k lg1) as Hneq.
      { intros Heq. apply Hnx. apply (take_S_lookup lg); [|done]. apply (take_eq_le _ _ _ k); [lia|congruence]. }
      right. exists L, lg. split_and!; [|rewrite /= fn_lookup_insert; apply vle_refl|done|done].
      destruct (inv_acks _ Hinv' n L1 k1 Hack) as (Hle & _). rewrite Hv1 in Hle.
      destruct (vle_leader _ _ Hle) as [?|Heq]; [done|]. simpl in *. by simplify_eq.
  - apply (add_ack_inv s n L k lg); [done..|]. pose proof (inv_leader _ Hinv n L Hv Hn). congruence.
Qed.

Lemma steps_inv s s' : net_inv s → rtc (pstep qs) s s' → net_inv s'.
Proof. intros Hinv Hr. induction Hr; eauto using pstep_inv. Qed.

Lemma reachable_inv s : reachable_net qs s → net_inv s.
Proof. apply steps_inv, init_inv. Qed.

(** * Safety *)

#[local] Instance leader_id_lt_dec a b : Decision (leader_id_lt a b).
Proof. unfold leader_id_lt. apply _. Defined.

(** Every leader has asked for votes, so there are finitely many before a given one. *)
Definition leaders_before (s : Net) (L : LeaderId) : nat :=
  length (filter (λ r : LeaderId * option LogId, leader_id_lt (fst r) L) (reqs s)).

Lemma leader_requested s L lg : net_inv s → llog s L = Some lg → L = default_leader_id ∨ ∃ lst, (L, lst) ∈ reqs s.
Proof.
  intros Hinv HL. destruct (inv_llog_quorum _ Hinv L lg HL) as [?|(l & Hnd & Hq & Hg)]; [by left|]. right.
  destruct (Hmeet l l Hnd Hnd Hq Hq) as (m & Hm & _). destruct (Hg m Hm) as [gl Hgl].
  destruct (inv_grants _ Hinv _ _ _ Hgl) as (_ & _ & lst & Hreq & _). by exists lst.
Qed.

Lemma leaders_before_lt s L L' lst : (L, lst) ∈ reqs s → leader_id_lt L L' → (leaders_before s L < leaders_before s L')%nat.
Proof.
  unfold leaders_before. intros Hin Hlt. induction (reqs s) as [|r l IH]; [by apply elem_of_nil in Hin|].
  assert (length (filter (λ r : LeaderId * option LogId, leader_id_lt r.1 L) l)
    ≤ length (filter (λ r : LeaderId * option LogId, leader_id_lt r.1 L') l))%nat as Hmono.
  { clear -Hlt. induction l as [|r l IH]; [done|]. rewrite !filter_cons. destruct (decide (leader_id_lt r.1 L)) as [H1|H1].
    - rewrite decide_True; [by eapply leader_id_lt_trans|]. simpl. lia.
    - destruct (decide (leader_id_lt r.1 L')); simpl; lia. }
  rewrite !filter_cons. apply elem_of_cons in Hin as [<-|Hin].
  - simpl. rewrite decide_False; [apply leader_id_lt_irrefl|]. rewrite decide_True //. simpl. lia.
  - specialize (IH Hin). destruct (decide (leader_id_lt r.1 L)) as [H1|H1].
    + rewrite decide_True; [by eapply leader_id_lt_trans|]. simpl. lia.
    + destruct (decide (leader_id_lt r.1 L')); simpl; lia.
Qed.

(** The last id of a matching log tells where it ends. *)
Lemma last_lookup_matches ll lg x : matches ll lg → last lg = Some x → lg !! Z.to_nat (index x) = Some x ∧ length lg = S (Z.to_nat (index x)).
Proof.
  intros Hm Hl. rewrite last_lookup in Hl. destruct (Hm _ _ Hl) as [Hi _]. pose proof (lookup_lt_Some _ _ _ Hl).
  replace (Z.to_nat (index x)) with (pred (length lg)) by lia. split; [done|lia].
Qed.

(** A chosen prefix comes after the initial leader only if its leader does. *)
Lemma no_leader_before_default s L lg : net_inv s → llog s L = Some lg → ¬ leader_id_lt L default_leader_id.
Proof.
  intros Hinv HL Hlt. destruct (leader_requested s L lg Hinv HL) as [->|[lst Hreq]]; [by apply leader_id_lt_irrefl in Hlt|].
  destruct (inv_reqs _ Hinv _ _ Hreq) as [Hd _]. apply (leader_id_lt_irrefl L). by eapply leader_id_lt_trans.
Qed.

(** A log [p] that is at least as long, by its last id, as a log [g] with the prefix [k] of [lg] has it too, if the
    leaders between have it. *)
Lemma longer_log_has_prefix s L k lg x g p y z :
  net_inv s → llog s L = Some lg → matches (llog s) g → matches (llog s) p →
  (0 < k)%nat → lg !! (k - 1)%nat = Some x → leader_id x = L → take k g = take k lg →
  last g = Some y → last p = Some z → opt_le (Some y) (Some z) →
  (∀ m, llog s (leader_id z) = Some m → leader_id_lt L (leader_id z) → take k m = take k lg) →
  take k p = take k lg ∧ (k ≤ length p)%nat.
Proof.
  intros Hinv HL Hg Hp Hk Hx HxL Ht Hy Hz Hle Hm.
  destruct (last_lookup_matches _ _ _ Hg Hy) as [Hgy Hgl]. destruct (last_lookup_matches _ _ _ Hp Hz) as [Hpz Hpl].
  assert (g !! (k - 1)%nat = Some x) as Hgx.
  { apply (take_S_lookup lg); [|done]. apply (take_eq_le _ _ _ k); [lia|done]. }
  pose proof (lookup_lt_Some _ _ _ Hgx) as Hkg.
  assert (leader_id_le L (leader_id y)) as HLy.
  { rewrite -HxL. eapply (matches_monotone _ g (k - 1) (Z.to_nat (index y))); eauto; [apply Hinv|lia]. }
  destruct (Hg _ _ Hgy) as (Hiy & my & HMy & Hty). destruct (Hp _ _ Hpz) as (Hiz & mz & HMz & Htz).
  assert (leader_id y = leader_id z ∧ (Z.to_nat (index y) ≤ Z.to_nat (index z))%nat ∨ leader_id_lt (leader_id y) (leader_id z)) as [[He Hi]|Hlt].
  { destruct Hle as [->|[Hlt|[He Hi]]]; [left; split; [done|lia]|by right|left; split; [done|lia]]. }
  - rewrite -He HMy in HMz. injection HMz as ->.
    split; [|lia]. rewrite -Ht. apply (take_eq_le _ _ _ (S (Z.to_nat (index y)))); [lia|].
    rewrite Hty. apply (take_eq_le _ _ _ (S (Z.to_nat (index z)))); [lia|done].
  - assert (leader_id_lt L (leader_id z)) as HLz by (by eapply leader_id_le_lt_trans).
    specialize (Hm mz HMz HLz).
    assert (mz !! (k - 1)%nat = Some x) as Hmx.
    { apply (take_S_lookup lg); [|done]. apply (take_eq_le _ _ _ k); [lia|done]. }
    pose proof (take_S_lookup _ _ _ _ Htz Hpz) as Hmzz.
    destruct (Nat.le_gt_cases (Z.to_nat (index z)) (k - 1)) as [Hc|Hc].
    + exfalso. pose proof (matches_monotone _ mz _ _ _ _ (inv_llog _ Hinv _ _ HMz) (inv_llog_le _ Hinv) Hc Hmzz Hmx) as Hcon.
      rewrite HxL in Hcon. apply (leader_id_lt_irrefl L). by eapply leader_id_lt_le_trans.
    + split; [|lia]. rewrite -Hm. apply (take_eq_le _ _ _ (S (Z.to_nat (index z)))); [lia|done].
Qed.

(** A later leader has every chosen prefix. *)
Lemma chosen_in_later s L k L' lg lg' :
  net_inv s → chosen qs s L k → llog s L = Some lg → llog s L' = Some lg' → leader_id_lt L L' → take k lg' = take k lg.
Proof.
  intros Hinv Hch HL. remember (leaders_before s L') as c eqn:Hc. revert L' lg' Hc.
  induction c as [c IH] using lt_wf_ind. intros L' lg' Hc HL' Hlt.
  pose proof Hch as (lg0 & x & l & HL0 & Hk0 & Hx & HxL & Hnd & Hq & Hacks). rewrite HL in HL0. injection HL0 as <-.
  destruct (inv_llog_quorum _ Hinv L' lg' HL') as [->|(l2 & Hnd2 & Hq2 & Hg)].
  { by destruct (no_leader_before_default s L lg Hinv HL). }
  assert (∀ M m, llog s M = Some m → leader_id_lt L M → leader_id_lt M L' → take k m = take k lg) as IH'.
  { intros M m HM HM1 HM2. destruct (leader_requested s M m Hinv HM) as [->|[lst Hreq]].
    - by destruct (no_leader_before_default s L lg Hinv HL).
    - apply (IH (leaders_before s M)) with M; try done. rewrite Hc. by eapply leaders_before_lt. }
  destruct (Hmeet l l2 Hnd Hnd2 Hq Hq2) as (n & Hn1 & Hn2).
  destruct (Hacks n Hn1) as (k' & Hkk & Hack). destruct (Hg n Hn2) as [gl Hgl].
  destruct (inv_grants _ Hinv n L' gl Hgl) as (Hgm & _ & lst & Hreq & Hle).
  destruct (inv_reqs _ Hinv L' lst Hreq) as (_ & _ & _ & Hlst & Hpre). destruct (Hpre lg' HL') as [e He].
  assert (take k gl = take k lg) as Hgk.
  { destruct (inv_grant_acks _ Hinv n L L' k' gl lg Hgl Hack Hlt HL k Hkk) as [Ht|(M & m & HM1 & HM2 & HM & Hne)]; [done|].
    destruct Hne. by apply (IH' M). }
  assert (gl !! (k - 1)%nat = Some x) as Hgx.
  { apply (take_S_lookup lg); [|done]. apply (take_eq_le _ _ _ k); [lia|done]. }
  destruct (last gl) as [y|] eqn:Hy; [|apply last_None in Hy; by rewrite Hy in Hgx].
  destruct lst as [z|]; [|done].
  destruct (longer_log_has_prefix s L k lg x gl (take e lg') y z) as [Hres Hlen]; try done.
  - apply matches_take. by eapply inv_llog.
  - intros m Hm Hz. apply (IH' (leader_id z)); [done|done|by apply Hlst].
  - rewrite length_take in Hlen. rewrite -Hres take_take_ge //. lia.
Qed.

(** The prefixes that are committed: those of chosen ones. *)
Definition committed_prefix (s : Net) (p : list LogId) : Prop :=
  ∃ L k lg m, chosen qs s L k ∧ llog s L = Some lg ∧ (m ≤ k)%nat ∧ p = take m lg.

Lemma committed_prefixes_agree s p1 p2 :
  net_inv s → committed_prefix s p1 → committed_prefix s p2 → p1 `prefix_of` p2 ∨ p2 `prefix_of` p1.
Proof.
  intros Hinv (L1 & k1 & lg1 & m1 & Hc1 & HL1 & Hm1 & ->) (L2 & k2 & lg2 & m2 & Hc2 & HL2 & Hm2 & ->).
  assert (∀ a b : nat, ∀ l : list LogId, take a l `prefix_of` take b l ∨ take b l `prefix_of` take a l) as Hpre.
  { assert (∀ a b (l : list LogId), (a ≤ b)%nat → take a l `prefix_of` take b l) as Hle.
    { intros a b l Hab. rewrite -(take_take_ge l b a Hab). apply prefix_take. }
    intros a b l. destruct (Nat.le_ge_cases a b); auto. }
  destruct (leader_id_lt_total L1 L2) as [Hlt|[->|Hlt]].
  - pose proof (chosen_in_later s L1 k1 L2 lg1 lg2 Hinv Hc1 HL1 HL2 Hlt) as Heq.
    rewrite -(take_eq_le _ _ _ _ Hm1 Heq). apply Hpre.
  - simplify_eq. apply Hpre.
  - pose proof (chosen_in_later s L2 k2 L1 lg2 lg1 Hinv Hc2 HL2 HL1 Hlt) as Heq.
    rewrite -(take_eq_le _ _ _ _ Hm2 Heq). apply Hpre.
Qed.

End Invariant.
