(* ===== verification/RaftCore.v ===== *)
(** The runtime around the engine: [core/raft_core.rs], [core/balancer.rs], [core/sm/command.rs],
    [engine/pending_responds.rs], [engine/engine_output.rs], [config/config.rs] (the snapshot policy)
    and the sender of log entries of [replication/mod.rs], under [src/octopii/openraft/openraft/src/].

    One task owns the engine: it takes a message or a notification, lets the engine handle it, and runs the
    commands that the engine has put out, in order, until one has to wait for an I/O. Handlers
    that only touch the engine are computations over [Engine]; those that reach the log storage, the
    waiting clients or a channel are computations over [Core]. What goes out through a channel is
    recorded in [sent]; the tasks at the other end are not part of the model. *)

From stdpp Require Import strings.
From S2P Require Import Prelude LogStore RaftQuorum RaftMembership RaftLogIds RaftProgress RaftState RaftEngine.

#[local] Open Scope Z_scope.

(** * Messages *)

Record AppendEntriesRequest := MkAppendReq {
  areq_vote : Vote;
  areq_prev : option LogId;
  areq_entries : list MEntry;
  areq_commit : option LogId
}.

(** [sm::Response]. *)
Inductive SmResponse :=
  | BuildSnapshotDone (meta : option SnapshotMeta)
  | SnapshotInstalled (log_io_id : LogIOId) (meta : option SnapshotMeta)
  | ApplyDone (last_applied : LogId).

Inductive Notification :=
  | NVoteResponse (target : Z) (resp : VoteResponse) (candidate_vote : LeaderId)
  | NHigherVote (target : Z) (higher : Vote) (leader_vote : CommittedVote)
  | NStorageError (error : string)
  | NLocalIO (io_id : IOId)
  | NReplicationProgress (has_payload : bool) (session : ReplicationSessionId) (target : Z)
      (result : Result (Result (option LogId) LogId) string)
  | NHeartbeatProgress (session : ReplicationSessionId) (sending_time : Z) (target : Z)
  | NStateMachine (result : Result SmResponse string)
  | NTick (i : Z).

Inductive Fatal := Stopped | FatalStorage (error : string).

(** [RuntimeConfig] and what [Config] adds to [EngineConfig]. *)
Inductive SnapshotPolicy := LogsSinceLast (threshold : Z) | Never.
Record RuntimeConfig := MkRuntime {
  enable_elect : bool;
  enable_heartbeat : bool;
  heartbeat_interval : Z;
  snapshot_policy : SnapshotPolicy
}.

(** * Handlers over the engine *)

(** [leader_handler]: an error says where the leader is. *)
Definition leader_handler : M Engine (Result Leader ForwardToLeader) :=
  let! e := getS in
  ret (match leader e with Some l => Okay l | None => Failed (forward_to_leader (state e)) end).

Definition does_candidate_vote_match (e : Engine) (v : LeaderId) : bool :=
  match candidate e with Some c => bool_decide (v = vote_leader (cand_vote c)) | None => false end.
Definition does_leader_vote_match (e : Engine) (v : CommittedVote) : bool :=
  match leader e with Some l => bool_decide (v = leader_vote l) | None => false end.
Definition does_replication_session_match (e : Engine) (s : ReplicationSessionId) : bool :=
  does_leader_vote_match e (session_vote s)
  && bool_decide (session_membership s = em_log_id (ms_effective (membership_state (state e)))).

Definition handle_vote_request (now : Z) (req : VoteRequest) (tx : Z) : M Engine unit :=
  let! resp := handle_vote_req now req in
  let! s := get_state in
  push_command (RespondCmd (Some (IOFlushed (new_io (vote_ref s)))) (RespondVote resp) tx).

Definition handle_append_entries_request (now : Z) (req : AppendEntriesRequest) (tx : Z) : M Engine unit :=
  let! is_ok := handle_append_entries now (areq_vote req) (areq_prev req) (areq_entries req) tx in
  if is_ok then with_state (update_committed (MkLogIOId (to_committed (areq_vote req)) (areq_commit req))) else ret tt.

(** The part of [write_entry] that changes the engine; the index of the entry, or where to go instead. *)
Definition append_one (entry : MEntry) : M Engine (Result Z ForwardToLeader) :=
  let! h := leader_handler in
  match h with
  | Failed f => ret (Failed f)
  | Okay l =>
      match transfer_to l with
      | Some to => let! s := get_state in ret (Failed (new_forward_to_leader s to))
      | None =>
          leader_append_entries [entry] ;;
          let! s := get_state in
          match last_log_id s with Some i => ret (Okay (index i)) | None => panic end
      end
  end.

(** [RaftCore::send_heartbeat]; the flag says whether it was sent. *)
Definition core_send_heartbeat : M Engine bool :=
  let! h := leader_handler in
  match h with
  | Failed _ => ret false
  | Okay l => match transfer_to l with Some _ => ret false | None => send_heartbeat ;; ret true end
  end.

(** The response to [initialize] waits until the log is on disk. *)
Definition handle_initialize (now : Z) (m : Membership) (tx : Z) : M Engine unit :=
  let! r := initialize now (MkEntry default_log_id (LogStore.Membership m)) in
  let! s := get_state in
  let cond := match r with Failed _ => None | Okay _ => LogFlushed <$> last_log_id s end in
  push_command (RespondCmd cond (RespondInitialize r) tx).

(** [current_leader] and [get_leader_node]. *)
Definition current_leader (s : RaftState) : option Z :=
  if vote_committed (vote_ref s) then
    let id := node_id (vote_leader (vote_ref s)) in
    if ms_is_voter (membership_state s) id then Some id else None
  else None.
Definition get_leader_node (s : RaftState) (l : option Z) : option BasicNode :=
  match l with Some id => get_node (em_membership (ms_effective (membership_state s))) id | None => None end.

Definition should_snapshot (p : SnapshotPolicy) (s : RaftState) (tried : option LogId) : option LogId :=
  match p with
  | LogsSinceLast threshold =>
      let base := opt_log_id_max tried (snapshot_last_log_id s) in
      if next_index base + threshold <=? next_index (committed s) then committed s else None
  | Never => None
  end.

(** [handle_tick_election]. *)
Definition handle_tick_election (rt : RuntimeConfig) (now : Z) : M Engine unit :=
  let! e := getS in
  let s := state e in
  if bool_decide (server_state s = LeaderState) then ret tt
  else if negb (ms_is_voter (membership_state s) (cfg_id (config e))) then ret tt
  else if negb (enable_elect rt) then ret tt
  else if negb (len (voter_ids (em_membership (ms_effective (membership_state s)))) =? 1)
          && negb (is_expired (rs_vote s) now
                     (election_timeout (config e) + (if seen_greater_log e then smaller_log_timeout (config e) else 0)))
       then ret tt
  else set_seen_greater false ;; elect now.

Definition with_log_progress (f : IOProgress IOId → IOProgress IOId) : M Engine unit :=
  with_state (λ s, set_io_state (set_log_progress (f (log_progress (io_state s))) (io_state s)) s).
Definition with_apply_progress (f : IOProgress LogId → IOProgress LogId) : M Engine unit :=
  with_state (λ s, set_io_state (set_apply_progress (f (apply_progress (io_state s))) (io_state s)) s).
Definition with_snapshot_progress (f : IOProgress LogId → IOProgress LogId) : M Engine unit :=
  with_state (λ s, set_io_state (set_io_snapshot (f (io_snapshot (io_state s))) (io_state s)) s).

Definition handle_tick (rt : RuntimeConfig) (now : Z) : M Engine unit :=
  handle_tick_election rt now ;;
  let! e := getS in
  match leader e with
  | Some l =>
      if next_heartbeat l <=? now then
        (if enable_heartbeat rt then let! _ := core_send_heartbeat in ret tt else ret tt) ;;
        modify_leader (set_next_heartbeat (now + heartbeat_interval rt))
      else ret tt
  | None => ret tt
  end ;;
  let! s := get_state in
  if opt_log_id_le (em_log_id (ms_effective (membership_state s))) (flushed (apply_progress (io_state s)))
  then leader_step_down now else ret tt.

Definition handle_notification (rt : RuntimeConfig) (now : Z) (n : Notification) : M Engine (Result unit Fatal) :=
  let! e := getS in
  match n with
  | NVoteResponse target resp v =>
      (if does_candidate_vote_match e v then handle_vote_resp now target resp else ret tt) ;; ret (Okay tt)
  | NHigherVote _ higher v =>
      (if does_leader_vote_match e v then let! _ := update_vote now higher in ret tt else ret tt) ;; ret (Okay tt)
  | NTick _ => handle_tick rt now ;; ret (Okay tt)
  | NStorageError err => ret (Failed (FatalStorage err))
  | NLocalIO io_id =>
      with_log_progress (flush io_id) ;;
      match io_id with
      | IOLog l => if does_leader_vote_match e (committed_vote l) then update_local_progress (io_log_id l) else ret tt
      | IOVote _ => ret tt
      end ;;
      ret (Okay tt)
  | NReplicationProgress has_payload session target result =>
      (if does_replication_session_match e session then update_progress target result has_payload else ret tt) ;; ret (Okay tt)
  | NHeartbeatProgress session t target =>
      (if does_replication_session_match e session then update_leader_clock target t else ret tt) ;; ret (Okay tt)
  | NStateMachine (Failed err) => ret (Failed (FatalStorage err))
  | NStateMachine (Okay r) =>
      match r with
      | BuildSnapshotDone meta => on_building_snapshot_done meta
      | SnapshotInstalled l meta =>
          with_log_progress (flush (IOLog l)) ;;
          match meta with
          | Some m =>
              match meta_last_log_id m with
              | Some i => with_apply_progress (flush i) ;; with_snapshot_progress (flush i)
              | None => ret tt
              end
          | None => ret tt
          end
      | ApplyDone i => with_apply_progress (flush i)
      end ;;
      ret (Okay tt)
  end.

(** [HandleTransferLeader]: the leader gives up its lease, and [to] stands for election. *)
Definition handle_transfer_leader (now : Z) (from : Vote) (to : Z) : M Engine unit :=
  let! e := getS in
  if bool_decide (vote_ref (state e) = from) then
    with_state (λ s, set_vote_leased (disable_lease (rs_vote s)) s) ;;
    if cfg_id (config e) =? to then elect now else ret tt
  else ret tt.

Inductive ExternalCommand :=
  | ExtElect
  | ExtHeartbeat
  | ExtSnapshot
  | ExtPurgeLog (upto : Z)
  | ExtTransferLeader (to : Z)
  | ExtAllowNextRevert (to : Z) (allow : bool) (tx : Z).

(** The commands of [ExternalCommand] that the engine handles. *)
Definition handle_external (now : Z) (c : ExternalCommand) : M Engine unit :=
  let! e := getS in
  match c with
  | ExtElect => if ms_is_voter (membership_state (state e)) (cfg_id (config e)) then elect now else ret tt
  | ExtHeartbeat => let! _ := core_send_heartbeat in ret tt
  | ExtSnapshot => let! _ := trigger_snapshot in ret tt
  | ExtPurgeLog i => trigger_purge_log i
  | ExtTransferLeader to => trigger_transfer_leader to
  | ExtAllowNextRevert to allow _ =>
      match leader e with Some _ => let! _ := allow_next_revert to allow in ret tt | None => ret tt end
  end.

(** * The log storage, the clients and the channels *)

(** What the core asks of a log storage ([RaftLogStorage]). *)
Class RaftLogStorage (LS : Type) := {
  sto_append : list MEntry → M LS unit;
  sto_truncate : LogId → M LS unit;
  sto_purge : LogId → M LS unit;
  sto_save_vote : Vote → M LS unit;
  sto_save_committed : option LogId → M LS unit
}.

#[export] Instance mem_log_storage : RaftLogStorage (@MemLogStoreInner Membership) := {
  sto_append := LogStore.append;
  sto_truncate := LogStore.truncate;
  sto_purge := LogStore.purge;
  sto_save_vote := LogStore.save_vote;
  sto_save_committed := LogStore.save_committed
}.

(** [PendingResponds]: a queue of responses for each kind of I/O. *)
Record PendingResponds := MkPending {
  on_log_io : list (IOId * (Respond * Z));
  on_log_flush : list (LogId * (Respond * Z));
  on_apply : list (LogId * (Respond * Z));
  on_snapshot : list (LogId * (Respond * Z))
}.

Inductive Sent :=
  | SentResponse (r : Respond) (tx : Z)
  | SentVoteRequest (target : Z) (req : VoteRequest)
  | SentTransferLeader (target : Z) (req : TransferLeaderRequest)
  | SentHeartbeat (time : Z) (s : ReplicationSessionId) (c : option LogId)
  | SentCommitted (target : Z) (c : option LogId)
  | SentReplicate (target : Z) (req : Replicate)
  | SpawnedStream (target : Z) (s : ReplicationSessionId) (c : option LogId) (matching : option LogId)
  | SpawnedHeartbeats (targets : list Z)
  | SentToStateMachine (c : SmCommand)
  | SentApply (first last : LogId) (responders : list (Z * Z))
  | SentClientError (tx : Z) (leader_id : option Z) (leader_node : option BasicNode)
  | SentChangeError (tx : Z) (e : ChangeMembershipError).

Record Core (LS : Type) := MkCore {
  core_engine : Engine;
  log_store : LS;
  client_responders : list (Z * Z);
  replications : list Z;
  pending_responds : PendingResponds;
  tx_notification : list Notification;
  sent : list Sent
}.
Arguments MkCore {_} _ _ _ _ _ _ _.
Arguments core_engine {_} _.
Arguments log_store {_} _.
Arguments client_responders {_} _.
Arguments replications {_} _.
Arguments pending_responds {_} _.
Arguments tx_notification {_} _.
Arguments sent {_} _.

Section Core.
Context {LS : Type} `{RaftLogStorage LS}.

Definition on_engine {A} (m : M Engine A) : M (Core LS) A :=
  zoom core_engine (λ e c, MkCore e (log_store c) (client_responders c) (replications c) (pending_responds c) (tx_notification c) (sent c)) m.
Definition on_store {A} (m : M LS A) : M (Core LS) A :=
  zoom log_store (λ s c, MkCore (core_engine c) s (client_responders c) (replications c) (pending_responds c) (tx_notification c) (sent c)) m.
Definition set_responders (r : list (Z * Z)) : M (Core LS) unit :=
  modify (λ c, MkCore (core_engine c) (log_store c) r (replications c) (pending_responds c) (tx_notification c) (sent c)).
Definition set_replications (r : list Z) : M (Core LS) unit :=
  modify (λ c, MkCore (core_engine c) (log_store c) (client_responders c) r (pending_responds c) (tx_notification c) (sent c)).
Definition set_pending (p : PendingResponds) : M (Core LS) unit :=
  modify (λ c, MkCore (core_engine c) (log_store c) (client_responders c) (replications c) p (tx_notification c) (sent c)).
Definition notify (n : Notification) : M (Core LS) unit :=
  modify (λ c, MkCore (core_engine c) (log_store c) (client_responders c) (replications c) (pending_responds c) (tx_notification c ++ [n]) (sent c)).
Definition send (x : Sent) : M (Core LS) unit :=
  modify (λ c, MkCore (core_engine c) (log_store c) (client_responders c) (replications c) (pending_responds c) (tx_notification c) (sent c ++ [x])).
Definition set_output (cs : list Command) : M (Core LS) unit :=
  on_engine (modify (λ e, MkEngine (config e) (state e) (seen_greater_log e) (leader e) (candidate e) cs)).
Definition core_state : M (Core LS) RaftState := let! c := getS in ret (state (core_engine c)).
Fixpoint send_all (xs : list Sent) : M (Core LS) unit :=
  match xs with [] => ret tt | x :: rest => send x ;; send_all rest end.

(** [BTreeMap::insert] and [split_off] of the waiting clients, kept in the order of their indexes. *)
Fixpoint responder_insert (i tx : Z) (r : list (Z * Z)) : list (Z * Z) :=
  match r with
  | [] => [(i, tx)]
  | (j, t) :: rest =>
      if i <? j then (i, tx) :: (j, t) :: rest
      else if i =? j then (i, tx) :: rest
      else (j, t) :: responder_insert i tx rest
  end.
Definition split_off (i : Z) (r : list (Z * Z)) : list (Z * Z) * list (Z * Z) :=
  (filter (λ x, fst x < i) r, filter (λ x, i ≤ fst x) r).

Definition write_entry (entry : MEntry) (tx : option Z) : M (Core LS) unit :=
  let! r := on_engine (append_one entry) in
  match r, tx with
  | Okay i, Some tx => let! c := getS in set_responders (responder_insert i tx (client_responders c))
  | Failed f, Some tx => send (SentClientError tx (fst <$> f) (snd <$> f))
  | _, None => ret tt
  end.

Definition core_change_membership (ch : ChangeMembers) (retain : bool) (tx : Z) : M (Core LS) unit :=
  let! s := core_state in
  match change_apply (membership_state s) ch retain with
  | Failed e => send (SentChangeError tx e)
  | Okay m => write_entry (MkEntry default_log_id (LogStore.Membership m)) (Some tx)
  end.

(** [spawn_parallel_vote_requests] and [broadcast_transfer_leader]; [get_node] is unwrapped. *)
Fixpoint to_other_voters (mk : Z → Sent) (m : Membership) (id : Z) (targets : list Z) : M (Core LS) unit :=
  match targets with
  | [] => ret tt
  | t :: rest =>
      (if t =? id then ret tt else match get_node m t with Some _ => send (mk t) | None => panic end) ;;
      to_other_voters mk m id rest
  end.
Definition broadcast (mk : Z → Sent) : M (Core LS) unit :=
  let! c := getS in
  let m := em_membership (ms_effective (membership_state (state (core_engine c)))) in
  to_other_voters mk m (cfg_id (config (core_engine c))) (voter_ids m).

(** Every responder below the end is handed over; each of them waits for an entry of the log. *)
Definition apply_to_state_machine (first lst : LogId) : M (Core LS) unit :=
  let! c := getS in
  let '(responders, rest) := split_off (index lst + 1) (client_responders c) in
  set_responders rest ;;
  if forallb (λ x, bool_decide (is_Some (get_log_id (state (core_engine c)) (fst x)))) responders
  then send (SentApply first lst responders) else panic.

(** [remove_all_replication] and [spawn_replication_stream] for each target. *)
Fixpoint spawn_streams (targets : list (Z * ProgressEntry)) : M (Core LS) unit :=
  match targets with
  | [] => ret tt
  | (t, p) :: rest =>
      let! c := getS in
      let s := state (core_engine c) in
      match get_node (em_membership (ms_effective (membership_state s))) t, leader (core_engine c) with
      | Some _, Some l =>
          send (SpawnedStream t (MkSessionId (leader_vote l) (em_log_id (ms_effective (membership_state s)))) (committed s) (matching p)) ;;
          set_replications (replications c ++ [t]) ;;
          spawn_streams rest
      | _, _ => panic
      end
  end.

Definition sm_log_progress (c : SmCommand) : option IOId :=
  match c with InstallFullSnapshot l _ => Some (IOLog l) | _ => None end.
Definition sm_apply_progress (c : SmCommand) : option LogId :=
  match c with InstallFullSnapshot l _ => io_log_id l | _ => None end.
Definition sm_snapshot_progress (c : SmCommand) : option LogId :=
  match c with InstallFullSnapshot _ s => meta_last_log_id (snap_meta s) | _ => None end.

Definition opt_do {A} (o : option A) (f : A → M (Core LS) unit) : M (Core LS) unit :=
  match o with Some a => f a | None => ret tt end.

(** [run_command]: a command that has to wait comes back. The worker of the state machine runs: a command
    can be handed to it. *)
Definition execute (now : Z) (cmd : Command) : M (Core LS) unit :=
  match cmd with
  | UpdateIOProgress _ io_id => on_engine (with_log_progress (submit io_id)) ;; notify (NLocalIO io_id)
  | AppendEntries v es =>
      match last es with
      | None => panic
      | Some l =>
          let io_id := new_log_io v (Some (log_id l)) in
          on_engine (with_log_progress (submit io_id)) ;; on_store (sto_append es) ;; notify (NLocalIO io_id)
      end
  | SaveVote v =>
      on_engine (with_log_progress (submit (new_io v))) ;;
      on_store (sto_save_vote v) ;;
      notify (NLocalIO (new_io v)) ;;
      if vote_committed v then ret tt
      else let! c := getS in notify (NVoteResponse (cfg_id (config (core_engine c))) (MkVoteResponse v true None) (vote_leader v))
  | PurgeLog upto =>
      on_store (sto_purge upto) ;;
      on_engine (with_state (λ s, let i := io_state s in
        set_io_state (MkIOState (building_snapshot i) (log_progress i) (apply_progress i) (io_snapshot i) (cluster_committed i) (Some upto)) s))
  | TruncateLog since =>
      on_store (sto_truncate since) ;;
      let! c := getS in
      let '(kept, removed) := split_off (index since) (client_responders c) in
      set_responders kept ;;
      let s := state (core_engine c) in
      let l := current_leader s in
      send_all (map (λ x, SentClientError (snd x) l (get_leader_node s l)) removed)
  | SendVote req => broadcast (λ t, SentVoteRequest t req)
  | ReplicateCommitted c => let! k := getS in send_all (map (λ t, SentCommitted t c) (replications k))
  | BroadcastHeartbeat s c => send (SentHeartbeat now s c)
  | SaveCommittedAndApply already upto =>
      on_engine (with_apply_progress (submit upto)) ;;
      on_store (sto_save_committed (Some upto)) ;;
      let! s := core_state in
      match get_log_id s (next_index already) with
      | None => panic
      | Some first => apply_to_state_machine first upto
      end
  | ReplicateTo target req =>
      let! k := getS in
      if bool_decide (target ∈ replications k) then send (SentReplicate target req) else panic
  | BroadcastTransferLeader req => broadcast (λ t, SentTransferLeader t req)
  | RebuildReplicationStreams targets => set_replications [] ;; spawn_streams targets ;; send (SpawnedHeartbeats (map fst targets))
  | StateMachine c =>
      opt_do (sm_log_progress c) (λ i, on_engine (with_log_progress (submit i))) ;;
      opt_do (sm_apply_progress c) (λ i, on_engine (with_apply_progress (submit i))) ;;
      opt_do (sm_snapshot_progress c) (λ i, on_engine (with_snapshot_progress (submit i))) ;;
      send (SentToStateMachine c)
  | RespondCmd _ r tx => send (SentResponse r tx)
  end.

Definition run_command (now : Z) (cmd : Command) : M (Core LS) (option Command) :=
  let! s := core_state in
  match condition cmd with
  | Some c => if is_met c (io_state s) then execute now cmd ;; ret None else ret (Some cmd)
  | None => execute now cmd ;; ret None
  end.

(** [postpone_command]: a response waits in its queue; another command goes back to the front. The flag
    says whether the queue of commands can go on. *)
Definition postpone_command (cmd : Command) : M (Core LS) bool :=
  let! c := getS in
  let p := pending_responds c in
  match cmd with
  | RespondCmd None _ _ => panic
  | RespondCmd (Some (IOFlushed i)) r tx =>
      set_pending (MkPending (on_log_io p ++ [(i, (r, tx))]) (on_log_flush p) (on_apply p) (on_snapshot p)) ;; ret true
  | RespondCmd (Some (LogFlushed i)) r tx =>
      set_pending (MkPending (on_log_io p) (on_log_flush p ++ [(i, (r, tx))]) (on_apply p) (on_snapshot p)) ;; ret true
  | RespondCmd (Some (Applied i)) r tx =>
      set_pending (MkPending (on_log_io p) (on_log_flush p) (on_apply p ++ [(i, (r, tx))]) (on_snapshot p)) ;; ret true
  | RespondCmd (Some (SnapshotAt i)) r tx =>
      set_pending (MkPending (on_log_io p) (on_log_flush p) (on_apply p) (on_snapshot p ++ [(i, (r, tx))])) ;; ret true
  | _ => set_output (cmd :: output (core_engine c)) ;; ret false
  end.

(** [drain_satisfied]: of each queue, what stands before the first response that has to wait. *)
Fixpoint pop_satisfied {T} (cmp : T → T → comparison) (actual : option T) (q : list (T * (Respond * Z)))
    : list (Respond * Z) * list (T * (Respond * Z)) :=
  match q with
  | [] => ([], [])
  | (w, r) :: rest =>
      if is_satisfied_by cmp w actual then let '(a, b) := pop_satisfied cmp actual rest in (r :: a, b) else ([], q)
  end.

Definition send_satisfied_responds : M (Core LS) unit :=
  let! c := getS in
  let p := pending_responds c in
  let io := io_state (state (core_engine c)) in
  let '(r1, q1) := pop_satisfied io_id_cmp (flushed (log_progress io)) (on_log_io p) in
  let '(r2, q2) := pop_satisfied log_id_cmp (flushed (log_progress io) ≫= io_last_log_id) (on_log_flush p) in
  let '(r3, q3) := pop_satisfied log_id_cmp (flushed (apply_progress io)) (on_apply p) in
  let '(r4, q4) := pop_satisfied log_id_cmp (flushed (io_snapshot io)) (on_snapshot p) in
  set_pending (MkPending q1 q2 q3 q4) ;;
  send_all (map (λ x, SentResponse (fst x) (snd x)) (r1 ++ r2 ++ r3 ++ r4)).

(** [while let Some(cmd) = pop_command()]. Running a command adds none, so there are as many turns as commands. *)
Fixpoint run_queue (now : Z) (fuel : nat) : M (Core LS) unit :=
  let! c := getS in
  match output (core_engine c), fuel with
  | [], _ => ret tt
  | _, O => hang
  | cmd :: rest, S fuel =>
      set_output rest ;;
      let! res := run_command now cmd in
      match res with
      | None => run_queue now fuel
      | Some cmd => let! go_on := postpone_command cmd in if go_on then run_queue now fuel else ret tt
      end
  end.

(** [run_progress_driven_command]; what is applied is submitted, so a second turn finds nothing. *)
Fixpoint run_progress_driven (now : Z) (fuel : nat) : M (Core LS) unit :=
  let! c := getS in
  match next_progress_driven_command (core_engine c), fuel with
  | None, _ => ret tt
  | Some _, O => hang
  | Some cmd, S fuel => let! _ := run_command now cmd in run_progress_driven now fuel
  end.

Definition run_engine_commands (now : Z) : M (Core LS) unit :=
  send_satisfied_responds ;;
  let! c := getS in
  run_queue now (length (output (core_engine c))) ;;
  run_progress_driven now 1.

End Core.

(** * The balancer of the two queues *)

Record Balancer := MkBalancer { bal_total : Z; bal_raft_msg : Z }.
Definition balancer_new (total : Z) : Balancer := MkBalancer total (total / 10).
Definition bal_notification (b : Balancer) : Z := bal_total b - bal_raft_msg b.
Definition increase_notification (b : Balancer) : Balancer :=
  let m := bal_raft_msg b * 15 / 16 in MkBalancer (bal_total b) (if m =? 0 then 1 else m).
Definition increase_raft_msg (b : Balancer) : Balancer :=
  let m := bal_raft_msg b * 17 / 16 in
  MkBalancer (bal_total b) (if bal_total b / 2 <? m then bal_total b / 2 else m).

(** * Sending entries *)

(** The request that [send_log_entries] makes of a range, with what the log reader returned for it; an empty
    answer for a range that is not empty is unwrapped. The last id goes into the range that was sent. *)
Definition request_of_range (session : ReplicationSessionId) (c : option LogId) (r : LogIdRange) (logs : list MEntry)
    : option (AppendEntriesRequest * LogIdRange) :=
  let v := committed_into_vote (session_vote session) in
  if next_index (range_prev r) =? next_index (range_last r) then
    Some (MkAppendReq v (range_prev r) [] c, MkLogIdRange (range_prev r) (range_prev r))
  else match last logs with
       | None => None
       | Some l => Some (MkAppendReq v (range_prev r) logs c, MkLogIdRange (range_prev r) (Some (log_id l)))
       end.

(** What the sender reports to the core of an answer, and what it sends next; a conflict with nothing before
    the range is unwrapped. *)
Definition report_of_response (session : ReplicationSessionId) (target time : Z) (has_payload : bool) (sending rng : LogIdRange)
    (resp : AppendEntriesResponse) : option (list Notification * option LogIdRange) :=
  let beat := NHeartbeatProgress session time target in
  let matched m :=
    if has_payload then
      ([beat; NReplicationProgress has_payload session target (Okay (Okay m))],
       if opt_log_id_lt m (range_last rng) then Some (MkLogIdRange m (range_last rng)) else None)
    else ([beat], None) in
  match resp with
  | Success => Some (matched (range_last sending))
  | PartialSuccess m => Some (matched m)
  | HigherVote v => Some ([NHigherVote target v (session_vote session)], None)
  | Conflict =>
      match range_prev sending with
      | Some p => Some ([beat; NReplicationProgress has_payload session target (Okay (Failed p))], None)
      | None => None
      end
  end.

(** The heartbeat of [core/heartbeat/worker.rs]. *)
Definition heartbeat_request (session : ReplicationSessionId) (c : option LogId) : AppendEntriesRequest :=
  MkAppendReq (committed_into_vote (session_vote session)) c [] c.
