(* ===== verification/RaftCoreOk.v ===== *)
(** The runtime around the engine ends its work and writes the log that the engine keeps.

    A log storage promises to be a log ([RaftLogStorageLaws]): octopii's store does, in memory and over its
    write-ahead log. Running the queue of commands then ends, whatever has to wait, and the storage holds
    the log that the commands taken off the queue describe. *)

From stdpp Require Import strings.
From S2P Require Import Prelude Metadata OctopiiWal LogStore LogStoreOk RaftQuorum RaftMembership RaftLogIds RaftProgress RaftState RaftEngine RaftCore.

#[local] Open Scope Z_scope.

Abbreviation mlog := (RaftLog Membership).
Abbreviation mop := (log_op Membership).

(** * What a log storage promises *)

(** The operation of [RaftLogStorage] that an operation on the abstract log stands for. *)
Definition sto_op {LS} `{RaftLogStorage LS} (o : mop) : M LS unit :=
  match o with
  | LAppend es => sto_append es
  | LTruncate id => sto_truncate id
  | LPurge id => sto_purge id
  | LSaveVote v => sto_save_vote v
  | LSaveCommitted c => sto_save_committed c
  | _ => ret tt
  end.

(** The storage holds a log and has room for a number of records; an operation that keeps the contract of the
    log succeeds and does what it does to the log. *)
Class RaftLogStorageLaws (LS : Type) `{RaftLogStorage LS} := {
  sto_holds : Z → LS → mlog → Prop;
  sto_accepts : WalLogRecord Membership → Prop;
  sto_op_ok o n s l :
    sto_holds (n + len (records_of o)) s l → log_op_ok o l → 0 ≤ n → Forall sto_accepts (records_of o) →
    ∃ s', sto_op o s = (Ok tt, s') ∧ sto_holds n s' (spec_log_op o l).2
}.

#[export] Program Instance mem_log_storage_laws : RaftLogStorageLaws (MemLogStoreInner Membership) := {
  sto_holds _ s l := rep s l;
  sto_accepts _ := True
}.
Next Obligation.
  intros o n s l Hr Hok _ _. destruct (mem_op_ok o s l Hr Hok) as (s' & Hs & Hr').
  destruct o; simpl in Hs |- *; try (by exists s); exists s'; (split; [|done]); revert Hs; try (by intros [= <-]).
  unfold bind. destruct (purge id s) as [[[]| | |] s1]; by intros [= <-].
Qed.

Section wal_storage.
Context {E : Type} `{WalTopicLaws E} `{BincodeLaws (WalLogRecord Membership)}.

#[export] Instance wal_log_storage : RaftLogStorage (WalLogStore Membership E) := {
  sto_append := wal_store_append;
  sto_truncate := wal_truncate;
  sto_purge := wal_purge;
  sto_save_vote := wal_save_vote;
  sto_save_committed := wal_save_committed
}.

#[export] Program Instance wal_log_storage_laws : RaftLogStorageLaws (WalLogStore Membership E) := {
  sto_holds n s l := ∃ rs, store_ok n s l rs;
  sto_accepts r := wt_accepts (serialize r)
}.
Next Obligation.
  intros o n s l [rs Hr] Hok Hn Hf. destruct (wal_op_ok o n s l rs Hr Hok Hn Hf) as (s' & Hs & Hr').
  assert (∀ (m : M (WalLogStore Membership E) unit) a, (m ;; ret a) s = (Ok (spec_log_op o l).1, s') → m s = (Ok tt, s')) as Hret.
  { intros m a. unfold bind. destruct (m s) as [[[]| | |] s1]; by intros [= _ <-]. }
  destruct o; simpl in Hs |- *; try (exists s'; split; [by eapply Hret|by eexists]).
  all: exists s; split; [done|exists rs; rewrite /= len_nil Z.add_0_r in Hr; done].
Qed.
End wal_storage.

(** The operation on the log storage that a command makes. *)
Definition cmd_op (c : Command) : option mop :=
  match c with
  | AppendEntries _ [] => None
  | AppendEntries _ es => Some (LAppend es)
  | TruncateLog since => Some (LTruncate since)
  | PurgeLog upto => Some (LPurge upto)
  | SaveVote v => Some (LSaveVote v)
  | SaveCommittedAndApply _ upto => Some (LSaveCommitted (Some upto))
  | _ => None
  end.
Definition cmd_ops (cs : list Command) : list mop := omap cmd_op cs.

Section runtime.
Context {LS : Type} `{RaftLogStorage LS}.
Abbreviation core := (Core LS).

(** * Computations that leave the queue and the storage alone *)

Definition answers {A} (o : outcome A) : Prop := match o with Ok _ | Panic => True | _ => False end.

Definition quiet {A} (m : M core A) : Prop :=
  ∀ c, answers (m c).1 ∧ output (core_engine (m c).2) = output (core_engine c) ∧ log_store (m c).2 = log_store c.

Create HintDb quiet.

Lemma quiet_ret {A} (a : A) : quiet (ret a).
Proof. done. Qed.
Lemma quiet_panic {A} : quiet (panic : M core A).
Proof. done. Qed.
Lemma quiet_get : quiet getS.
Proof. done. Qed.
Lemma quiet_bind {A B} (m : M core A) (k : A → M core B) : quiet m → (∀ a, quiet (k a)) → quiet (bind m k).
Proof.
  intros Hm Hk c. unfold bind. destruct (Hm c) as (Hh & Ho & Hs). destruct (m c) as [[a| | |] c']; simpl in *; try done.
  destruct (Hk a c') as (Hh' & Ho' & Hs'). split_and!; congruence.
Qed.
Lemma quiet_if {A} (b : bool) (m1 m2 : M core A) : quiet m1 → quiet m2 → quiet (if b then m1 else m2).
Proof. by destruct b. Qed.
Lemma quiet_engine f : (∀ e, output (f e) = output e) → quiet (on_engine (modify f)).
Proof. intros Hm c. by split_and!; simpl. Qed.
Lemma quiet_send x : quiet (send x).
Proof. done. Qed.
Lemma quiet_notify x : quiet (notify x).
Proof. done. Qed.
Lemma quiet_responders r : quiet (set_responders r).
Proof. done. Qed.
Lemma quiet_replications r : quiet (set_replications r).
Proof. done. Qed.
Lemma quiet_pending p : quiet (set_pending p).
Proof. done. Qed.
Lemma quiet_state : quiet core_state.
Proof. done. Qed.
#[local] Hint Resolve quiet_ret quiet_panic quiet_get quiet_send quiet_notify quiet_responders quiet_replications quiet_pending quiet_state : quiet.

Lemma quiet_send_all xs : quiet (send_all xs).
Proof. induction xs; simpl; [done|]. apply quiet_bind; auto with quiet. Qed.
Lemma quiet_log_progress f : quiet (on_engine (with_log_progress f)).
Proof. by apply quiet_engine. Qed.
Lemma quiet_apply_progress f : quiet (on_engine (with_apply_progress f)).
Proof. by apply quiet_engine. Qed.
Lemma quiet_snapshot_progress f : quiet (on_engine (with_snapshot_progress f)).
Proof. by apply quiet_engine. Qed.
Lemma quiet_opt_do {A} (o : option A) f : (∀ a, quiet (f a)) → quiet (opt_do o f).
Proof. destruct o; simpl; auto with quiet. Qed.
#[local] Hint Resolve quiet_send_all quiet_log_progress quiet_apply_progress quiet_snapshot_progress : quiet.

Lemma quiet_to_other_voters mk m id ts : quiet (to_other_voters mk m id ts).
Proof.
  induction ts as [|t ts IH]; simpl; [done|]. apply quiet_bind; [|done]. apply quiet_if; [done|]. by destruct (get_node m t).
Qed.
Lemma quiet_broadcast mk : quiet (broadcast mk).
Proof. apply quiet_bind; [done|]. intros c. apply quiet_to_other_voters. Qed.
Lemma quiet_spawn_streams ts : quiet (spawn_streams ts).
Proof.
  induction ts as [|[t p] ts IH]; simpl; [done|]. apply quiet_bind; [done|]. intros c.
  destruct (get_node _ t); [|done]. destruct (leader _); [|done]. repeat (apply quiet_bind; auto with quiet; intros).
Qed.
Lemma quiet_apply first lst : quiet (apply_to_state_machine first lst).
Proof.
  apply quiet_bind; [done|]. intros c. destruct (split_off _ _). apply quiet_bind; auto with quiet. intros _. by apply quiet_if.
Qed.
#[local] Hint Resolve quiet_broadcast quiet_spawn_streams quiet_apply : quiet.

(** * What a command does to the storage *)

(** An outcome that continues another: a failure stays, what is done may be followed by an answer. *)
Definition follows {A} (a : outcome unit) (b : outcome A) : Prop :=
  match a with Ok _ => answers b | Err x => b = Err x | Panic => b = Panic | Hang => b = Hang end.

(** [m] makes the operation [o] on the storage, if there is one, and leaves the queue alone. *)
Definition makes {A} (o : option mop) (m : M core A) : Prop :=
  ∀ c, output (core_engine (m c).2) = output (core_engine c) ∧
    let r := match o with Some o => sto_op o (log_store c) | None => (Ok tt, log_store c) end in
    follows r.1 (m c).1 ∧ log_store (m c).2 = r.2.

Lemma makes_quiet {A} (m : M core A) : quiet m → makes None m.
Proof. intros Hm c. destruct (Hm c) as (? & ? & ?). done. Qed.
Lemma makes_store o : makes (Some o) (on_store (sto_op o)).
Proof. intros c. unfold on_store, zoom. by destruct (sto_op o (log_store c)) as [[[]| | |] s]. Qed.
Lemma makes_after {A B} o (m : M core A) (k : A → M core B) :
  quiet m → (∀ c, (m c).1 ≠ Panic) → (∀ a, makes o (k a)) → makes o (bind m k).
Proof.
  intros Hm Hp Hk c. unfold bind. destruct (Hm c) as (Hh & Ho & Hs). specialize (Hp c). destruct (m c) as [[a| | |] c']; simpl in *; try done.
  rewrite -Ho -Hs. apply Hk.
Qed.
Lemma makes_before {A B} o (m : M core A) (k : A → M core B) : makes o m → (∀ a, quiet (k a)) → makes o (bind m k).
Proof.
  intros Hm Hk c. unfold bind. destruct (Hm c) as (Ho & Hf & Hs).
  set (r := match o with Some o => _ | None => _ end) in *. clearbody r. cbv zeta in *.
  destruct (m c) as [[a| | |] c']; simpl in *; [|by destruct r as [[]]; simplify_eq/=..].
  destruct (Hk a c') as (Hh' & Ho' & Hs'). rewrite Ho' Hs' Ho Hs. split_and!; try done. by destruct r as [[]].
Qed.

Lemma execute_makes now cmd : makes (cmd_op cmd) (execute now cmd).
Proof.
  assert (∀ A (m : M core A), quiet m → makes None m) as Hq by (intros; by apply makes_quiet).
  destruct cmd; cbn [execute cmd_op].
  1, 3, 4, 6-8, 10, 13, 14: apply Hq; repeat (apply quiet_bind; auto with quiet; intros); auto with quiet.
  - by apply quiet_if.
  - apply quiet_to_other_voters.
  - apply quiet_to_other_voters.
  - apply quiet_opt_do. auto with quiet.
  - apply quiet_opt_do. auto with quiet.
  - apply quiet_opt_do. auto with quiet.
  - destruct es as [|x es]; [by apply Hq|]. destruct (last (x :: es)) eqn:Hl; [|by destruct es using rev_ind; rewrite ?app_comm_cons ?last_snoc in Hl].
    apply makes_after; auto with quiet. intros _. apply makes_before; auto with quiet. apply (makes_store (LAppend (x :: es))).
  - apply makes_after; auto with quiet. intros _. apply makes_before; [apply (makes_store (LSaveCommitted (Some upto)))|]. intros _.
    apply quiet_bind; auto with quiet. intros s. destruct (get_log_id _ _); auto with quiet.
  - apply makes_after; auto with quiet. intros _. apply makes_before; [apply (makes_store (LSaveVote v))|]. intros _.
    apply quiet_bind; auto with quiet. intros _. apply quiet_if; auto with quiet.
  - apply makes_before; [apply (makes_store (LPurge upto))|]. intros _. by apply quiet_engine.
  - apply makes_before; [apply (makes_store (LTruncate since))|]. intros _. apply quiet_bind; auto with quiet. intros c.
    destruct (split_off _ _). apply quiet_bind; auto with quiet.
Qed.

(** A command that waits does nothing. *)
Lemma run_command_makes now cmd c :
  run_command now cmd c = (Ok (Some cmd), c) ∨ run_command now cmd c = (execute now cmd ;; ret None) c.
Proof.
  unfold run_command, core_state. cbn [bind getS ret]. unfold bind at 1 3. cbn. destruct (condition cmd) as [w|]; [|by right].
  destruct (is_met w _); [by right|by left].
Qed.

(** Only a response lets the queue go on, and it is not put back. *)
Lemma postpone_shape cmd (c : core) :
  let r := postpone_command cmd c in log_store r.2 = log_store c ∧
    ((r.1 = Ok true ∨ r.1 = Panic) ∧ cmd_op cmd = None ∧ output (core_engine r.2) = output (core_engine c) ∨
     r.1 = Ok false ∧ output (core_engine r.2) = cmd :: output (core_engine c)).
Proof. destruct cmd as [| | | | | | | | | | | | |[[]|] r tx]; simpl; split; auto 6. Qed.

(** * The queue ends *)

Lemma run_queue_ends now fuel : (∀ o s, (sto_op (LS := LS) o s).1 ≠ Hang) → ∀ c,
  (length (output (core_engine c)) ≤ fuel)%nat → (run_queue now fuel c).1 ≠ Hang.
Proof.
  intros Hends. induction fuel as [|fuel IH]; intros c Hlen; cbn [run_queue]; unfold bind at 1, getS.
  - destruct (output (core_engine c)); [done|simpl in Hlen; lia].
  - destruct (output (core_engine c)) as [|cmd rest] eqn:Ho; [done|]. simpl in Hlen.
    unfold bind at 1. cbn [set_output on_engine zoom modify]. set (c1 := MkCore _ _ _ _ _ _ _). unfold bind at 1.
    destruct (run_command_makes now cmd c1) as [-> | ->].
    + unfold bind. destruct (postpone_shape cmd c1) as [_ [([Hr|Hr] & _ & Hq)|[Hr Hq]]]; destruct (postpone_command cmd c1) as [r c3]; simpl in *; subst r; try done.
      apply IH. rewrite Hq. lia.
    + destruct (execute_makes now cmd c1) as (Hq & Hf & _). unfold bind.
      assert ((execute now cmd c1).1 ≠ Hang) as Hh.
      { destruct (cmd_op cmd) as [o|]; [specialize (Hends o (log_store c1))|]; destruct (execute now cmd c1) as [[]]; try done.
        by destruct (sto_op o _) as [[]]. }
      destruct (execute now cmd c1) as [[[]| | |] c2]; try done. simpl in *. apply IH. rewrite Hq. lia.
Qed.

(** A batch that has been handed over is not handed over again. *)
Lemma no_second_batch now (c c' : core) cmd r :
  next_progress_driven_command (core_engine c) = Some cmd → run_command now cmd c = (Ok r, c') →
  next_progress_driven_command (core_engine c') = None.
Proof.
  intros Hnext. unfold next_progress_driven_command in Hnext. set (e := core_engine c) in *.
  destruct (bool_decide _) eqn:Hv; [|done]. set (upto := opt_log_id_min _ _) in *.
  destruct (next_index (submitted (apply_progress (io_state (state e)))) <? next_index upto) eqn:Hlt; [|done].
  destruct upto as [u|] eqn:Hu; [|done]. injection Hnext as <-. unfold run_command, bind, core_state, getS. cbn [condition].
  cbn [execute]. unfold bind. cbn [on_engine zoom with_apply_progress with_state modify core_state ret getS].
  unfold on_store, zoom. cbn [log_store core_engine]. destruct (sto_save_committed _ _) as [[[]| | |] s]; try done.
  unfold core_state, bind, getS, ret. cbn [core_engine state].
  match goal with |- context [match get_log_id ?s ?i with _ => _ end] => destruct (get_log_id s i) as [first|] end; [|done].
  unfold apply_to_state_machine, bind, getS. destruct (split_off _ _) as [rs rest]. cbn [set_responders modify].
  destruct (forallb _ _); [|done]. cbn [send modify ret]. intros [= _ <-]. unfold next_progress_driven_command. simpl.
  fold e. rewrite Hv. unfold upto in Hu. rewrite Hu. by rewrite Z.ltb_irrefl.
Qed.

Lemma quiet_responds : quiet send_satisfied_responds.
Proof. apply quiet_bind; auto with quiet. intros k. cbv zeta. do 4 destruct (pop_satisfied _ _ _). apply quiet_bind; auto with quiet. Qed.

Lemma progress_command_op e cmd : next_progress_driven_command e = Some cmd → condition cmd = None ∧ ∃ u, cmd_op cmd = Some (LSaveCommitted (Some u)).
Proof.
  unfold next_progress_driven_command. destruct (bool_decide _); [|done]. destruct (_ <? _); [|done].
  destruct (opt_log_id_min _ _) as [u|]; [|done]. intros [= <-]. eauto.
Qed.

(** C24: a turn of the runtime ends, on a storage whose operations end: every response that is due is sent, the
    commands of the engine are run until one has to wait, the committed entries that are ready go
    to the state machine in one batch, and there is nothing left to do, as many commands as there are. *)
Theorem run_engine_commands_ends now (c : core) :
  (∀ o s, (sto_op (LS := LS) o s).1 ≠ Hang) → (run_engine_commands now c).1 ≠ Hang.
Proof.
  intros Hends. unfold run_engine_commands. unfold bind at 1.
  destruct (quiet_responds c) as [Hh _]. destruct (send_satisfied_responds c) as [[[]| | |] c1]; simpl in *; try done.
  unfold bind at 1. cbn [getS]. unfold bind at 1.
  pose proof (run_queue_ends now (length (output (core_engine c1))) Hends c1 (Nat.le_refl _)) as Hq.
  destruct (run_queue now _ c1) as [[[]| | |] c2]; simpl in *; try done.
  unfold bind, getS. destruct (next_progress_driven_command (core_engine c2)) as [cmd|] eqn:Hn; [|done].
  destruct (progress_command_op _ _ Hn) as [_ [u Hu]].
  destruct (run_command now cmd c2) as [[r| | |] c3] eqn:Hrun; try done; [by rewrite (no_second_batch now c2 c3 cmd r)|].
  destruct (run_command_makes now cmd c2) as [Hr|Hr]; rewrite Hrun in Hr; [done|]. unfold bind in Hr.
  destruct (execute_makes now cmd c2) as (_ & Hf & _). rewrite Hu in Hf. specialize (Hends (LSaveCommitted (Some u)) (log_store c2)).
  destruct (execute now cmd c2) as [[]]; try done. by destruct (sto_op _ _) as [[]].
Qed.

(** * The storage follows the queue *)

Context `{!RaftLogStorageLaws LS}.

(** The storage holds [l] and has room for what the commands [cs] write, and for [n] records more. *)
Definition ready (n : Z) (cs : list Command) (s : LS) (l : mlog) : Prop :=
  sto_holds (n + len (all_records (cmd_ops cs))) s l ∧ log_ops_ok (cmd_ops cs) l ∧ Forall sto_accepts (all_records (cmd_ops cs)).

Definition log_after (cs : list Command) (l : mlog) : mlog := (spec_log_ops (cmd_ops cs) l).2.

Lemma log_after_cons cmd cs l :
  log_after (cmd :: cs) l = log_after cs (match cmd_op cmd with Some o => (spec_log_op o l).2 | None => l end).
Proof.
  unfold log_after, cmd_ops. simpl. destruct (cmd_op cmd) as [o|]; [|done]. cbn [spec_log_ops]. destruct (spec_log_op o l) as [a l']. cbn [snd].
  by destruct (spec_log_ops _ l').
Qed.

Lemma makes_ready {A} n cmd cs (m : M core A) c l :
  0 ≤ n → makes (cmd_op cmd) m → ready n (cmd :: cs) (log_store c) l →
  answers (m c).1 ∧ output (core_engine (m c).2) = output (core_engine c) ∧
  ready n cs (log_store (m c).2) (match cmd_op cmd with Some o => (spec_log_op o l).2 | None => l end).
Proof.
  intros Hn Hm (Hh & Hok & Hacc). destruct (Hm c) as (Ho & Hf & Hs). unfold ready, cmd_ops in *. simpl in *.
  destruct (cmd_op cmd) as [o|]; simpl in *; [|by rewrite Hs].
  unfold all_records in Hh, Hacc. rewrite fmap_cons concat_cons -/(all_records _) in Hh Hacc. apply Forall_app in Hacc as [Ha1 Ha2].
  rewrite len_app in Hh. destruct Hok as [Hok1 Hok2]. set (rest := all_records _) in *. pose proof (len_nonneg rest).
  destruct (sto_op_ok o (n + len rest) (log_store c) l) as (s' & Hrun & Hs'); [|done|lia|done|].
  { by replace (n + len rest + len (records_of o)) with (n + (len (records_of o) + len rest)) by lia. }
  rewrite Hrun in Hf, Hs. simpl in *. by rewrite Hs.
Qed.

Lemma run_queue_store now fuel n : 0 ≤ n → ∀ c l r c',
  ready n (output (core_engine c)) (log_store c) l → (length (output (core_engine c)) ≤ fuel)%nat → run_queue now fuel c = (r, c') →
  answers r ∧ ∃ ran rest, output (core_engine c) = ran ++ rest ∧ ready n rest (log_store c') (log_after ran l) ∧
    (r = Ok tt → output (core_engine c') = rest).
Proof.
  intros Hn. induction fuel as [|fuel IH]; intros c l r c' Hr Hlen; cbn [run_queue]; unfold bind at 1, getS.
  { destruct (output (core_engine c)) eqn:Ho; [|simpl in Hlen; lia]. intros [= <- <-]. split; [done|]. by exists [], []. }
  destruct (output (core_engine c)) as [|cmd rest] eqn:Ho; [intros [= <- <-]; split; [done|]; by exists [], []|]. simpl in Hlen.
  unfold bind at 1. cbn [set_output on_engine zoom modify]. set (c1 := MkCore _ _ _ _ _ _ _).
  change (log_store c) with (log_store c1) in Hr. assert (output (core_engine c1) = rest) as Ho1 by done. clearbody c1. unfold bind at 1.
  destruct (run_command_makes now cmd c1) as [-> | ->].
  - destruct (postpone_shape cmd c1) as [Hst Hp]. unfold bind. destruct (postpone_command cmd c1) as [r3 c3]; simpl in *. rewrite -Hst in Hr.
    destruct Hp as [(Hres & Hop & Hq)|[-> Hq]].
    + assert (ready n rest (log_store c3) l) as Hr3 by (unfold ready, cmd_ops in Hr; simpl in Hr; rewrite Hop in Hr; done).
      destruct Hres as [-> | ->]; [intros Hrun|intros [= <- <-]; split; [done|]; exists [cmd], rest; by rewrite log_after_cons Hop].
      destruct (IH c3 l r c') as (Ha & ran & rest' & Heq & Hrd & Hout); [by rewrite Hq Ho1|rewrite Hq Ho1; lia|done|].
      split; [done|]. exists (cmd :: ran), rest'. by rewrite log_after_cons Hop -app_comm_cons -Heq Hq Ho1.
    + intros [= <- <-]. split; [done|]. exists [], (cmd :: rest). by rewrite Hq Ho1.
  - destruct (makes_ready n cmd rest (execute now cmd) c1 l Hn (execute_makes now cmd) Hr) as (Ha & Hq & Hr2). unfold bind.
    destruct (execute now cmd c1) as [[[]| | |] c2]; simpl in *; try done; [intros Hrun|intros [= <- <-]; split; [done|]; exists [cmd], rest; by rewrite log_after_cons].
    destruct (IH c2 _ r c' ltac:(by rewrite Hq Ho1) ltac:(rewrite Hq Ho1; lia) Hrun) as (Ha2 & ran & rest' & Heq & Hrd & Hout).
    split; [done|]. exists (cmd :: ran), rest'. by rewrite log_after_cons -app_comm_cons -Heq Hq Ho1.
Qed.

(** The batch of committed entries that is handed over after the queue. *)
Lemma run_progress_store now n c l cs r c' :
  0 ≤ n → ready (n + 1) cs (log_store c) l → (∀ i, sto_accepts (RecCommitted (Some i))) → run_progress_driven now 1 c = (r, c') →
  answers r ∧ output (core_engine c') = output (core_engine c) ∧ ∃ batch, (batch = [] ∨ ∃ i, batch = [LSaveCommitted (Some i)]) ∧
    ∃ m, n ≤ m ∧ sto_holds (m + len (all_records (cmd_ops cs))) (log_store c') (spec_log_ops batch l).2.
Proof.
  intros Hn (Hh & _ & _) Hacc. set (k := len _) in *. assert (0 ≤ k) as Hk by apply len_nonneg. cbn [run_progress_driven]. unfold bind at 1, getS.
  destruct (next_progress_driven_command (core_engine c)) as [cmd|] eqn:Hnext.
  2:{ intros [= <- <-]. split_and!; [done..|]. exists []. split; [by left|]. exists (n + 1). split; [lia|done]. }
  destruct (progress_command_op _ _ Hnext) as [Hcond [u Hu]]. unfold bind at 1. destruct (run_command now cmd c) as [rc c2] eqn:Hrun.
  assert (run_command now cmd c = (execute now cmd ;; ret None) c) as Hex by (unfold run_command, core_state, bind at 1 3; cbn; by rewrite Hcond).
  rewrite Hrun in Hex. unfold bind, ret in Hex.
  destruct (execute_makes now cmd c) as (Ho & Hf & Hs). rewrite Hu in Hf, Hs.
  destruct (sto_op_ok (LSaveCommitted (Some u)) (n + k) (log_store c) l) as (s' & Hop & Hs'); [|done|lia|by constructor|].
  { cbn [records_of]. by replace (n + k + len [RecCommitted (Some u)]) with (n + 1 + k) by (unfold len; simpl; lia). }
  cbv zeta in *. rewrite Hop in Hf, Hs. cbn [fst snd follows] in *.
  assert (answers rc ∧ output (core_engine c2) = output (core_engine c) ∧ log_store c2 = s') as (Ha & Ho2 & Hs2).
  { destruct (execute now cmd c) as [[]]; simpl in *; simplify_eq; done. }
  intros Hfin. assert (answers r ∧ c' = c2) as [Har ->].
  { destruct rc as [rr| | |]; try done; [|by injection Hfin as <- <-]. unfold bind in Hfin. rewrite (no_second_batch now c c2 cmd rr Hnext Hrun) in Hfin.
    by injection Hfin as <- <-. }
  split_and!; [done..|]. exists [LSaveCommitted (Some u)]. split; [eauto|]. exists n. split; [lia|]. by rewrite Hs2.
Qed.

(** C7: the storage follows the engine. On a storage that keeps its promise and holds a log for which the waiting
    commands make sense, a turn of the runtime never fails in the storage and never hangs; it stops by itself or
    at a broken assumption of the engine, and in both cases the storage holds exactly the log that the
    first commands of the queue describe, those that were taken off, and at most one committed id more; what has to wait
    stays in the queue in its order. *)
Theorem run_engine_commands_writes_log now n (c : core) l r c' :
  0 ≤ n → ready (n + 1) (output (core_engine c)) (log_store c) l → (∀ i, sto_accepts (RecCommitted (Some i))) →
  run_engine_commands now c = (r, c') →
  answers r ∧ ∃ ran rest batch, output (core_engine c) = ran ++ rest ∧ (r = Ok tt → output (core_engine c') = rest) ∧
    (batch = [] ∨ ∃ i, batch = [LSaveCommitted (Some i)]) ∧
    ∃ m, n ≤ m ∧ sto_holds (m + len (all_records (cmd_ops rest))) (log_store c') (spec_log_ops batch (log_after ran l)).2.
Proof.
  intros Hn Hr Hacc. unfold run_engine_commands, bind at 1. destruct (quiet_responds c) as (Hh & Ho & Hs).
  destruct (send_satisfied_responds c) as [[[]| | |] c1]; simpl in *; try done; rewrite -Ho -Hs in Hr.
  2:{ intros [= <- <-]. split; [done|]. exists [], (output (core_engine c)), []. rewrite -Ho. split_and!; [done..|by left|].
      exists (n + 1). split; [lia|]. apply Hr. }
  unfold bind at 1. cbn [getS]. unfold bind at 1. destruct (run_queue now _ c1) as [rq c2] eqn:Hq. rewrite -Ho.
  destruct (run_queue_store _ _ (n + 1) ltac:(lia) _ _ _ _ Hr (Nat.le_refl _) Hq) as (Ha & ran & rest & Heq & Hrd & Hout).
  destruct rq as [[]| | |]; try done.
  2:{ intros [= <- <-]. split; [done|]. exists ran, rest, []. split_and!; [done..|by left|]. exists (n + 1). split; [lia|]. apply Hrd. }
  intros Hp. destruct (run_progress_store now n c2 _ rest _ _ Hn Hrd Hacc Hp) as (Har & Ho2 & batch & Hb & Hm).
  split; [done|]. exists ran, rest, batch. split_and!; [done|intros _; rewrite Ho2; auto|done|done].
Qed.
End runtime.
