(* ===== verification/RaftStartup.v ===== *)
(** Starting a Raft node from its storage: [storage/helper.rs] and [storage/log_reader_ext.rs] of
    [src/octopii/openraft/openraft/src/].

    [get_initial_state] reads the vote, the committed id and the log, brings the state machine up to what is
    committed, finds the last two memberships going back through the log in steps, and
    rebuilds the compressed list of log ids. The log is an implementation of [RaftLogStorage] and
    [RaftLogReader], the state machine one of [RaftStateMachine]; octopii's are instances. *)

From stdpp Require Import strings.
From S2P Require Import Prelude Metadata OctopiiWal LogStore LogStoreOk RaftQuorum RaftMembership RaftLogIds RaftProgress RaftState RaftEngine RaftCore RaftCoreOk.

#[local] Open Scope Z_scope.

(** * The storage interfaces *)

(** What is read of a log: [RaftLogReader], and [read_committed] and [get_log_state] of [RaftLogStorage]. *)
Class RaftLogReader (LS : Type) := {
  try_get_log_entries : bound → bound → M LS (list MEntry);
  read_vote : M LS (option Vote);
  read_committed : M LS (option LogId);
  get_log_state : M LS (option LogId * option LogId)
}.

Class RaftStateMachine (SM : Type) := {
  applied_state : M SM (option LogId * StoredMembership);
  sm_apply_entries : list MEntry → M SM unit;
  sm_install_snapshot : Snapshot → M SM unit;
  get_current_snapshot : M SM (option Snapshot);
  sm_build_snapshot : M SM Snapshot
}.

#[export] Instance mem_log_reader : RaftLogReader (MemLogStoreInner Membership) := {
  try_get_log_entries := LogStore.try_get_log_entries;
  read_vote := LogStore.read_vote;
  read_committed := LogStore.read_committed;
  get_log_state := LogStore.get_log_state
}.

(** [WalLogStore] reads what it keeps in memory. *)
#[export] Instance wal_log_reader {E} : RaftLogReader (WalLogStore Membership E) := {
  try_get_log_entries lo hi := in_inner (LogStore.try_get_log_entries lo hi);
  read_vote := in_inner LogStore.read_vote;
  read_committed := in_inner LogStore.read_committed;
  get_log_state := in_inner LogStore.get_log_state
}.

Definition out_of {A} (o : outcome A) : Result A io_error :=
  match o with Ok a => Okay a | Err e => Failed e | _ => Failed (IoError KOther "") end.

Section startup.
Context {LS SM : Type} `{RaftLogStorage LS} `{RaftLogReader LS} `{RaftStateMachine SM}.

(** [StorageHelper]: the two storages. *)
Record StorageHelper := MkHelper { helper_log : LS; helper_sm : SM }.

Definition on_log {A} (m : M LS A) : M StorageHelper A := zoom helper_log (λ l h, MkHelper l (helper_sm h)) m.
Definition on_sm {A} (m : M SM A) : M StorageHelper A := zoom helper_sm (λ s h, MkHelper (helper_log h) s) m.

(** ** Reading *)

Definition reader_get_log_id (i : Z) : M LS LogId :=
  let! es := try_get_log_entries (Included i) (Included i) in
  match es with [] => fail KOther "log entry not found" | e :: _ => ret (log_id e) end.

(** The ids are read one by one as the search asks for them; reading leaves the log as it is. *)
Definition reader_get_key_log_ids (first lst : LogId) : M LS (list LogId) :=
  let! s := getS in
  match get_key_log_ids (λ i, out_of (reader_get_log_id i s).1) (2 * Z.to_nat (index lst - index first + 1)) first lst with
  | None => hang
  | Some (Failed e) => λ s, (Err e, s)
  | Some (Okay ks) => ret ks
  end.

Definition helper_get_key_log_ids (purged lst : option LogId) : M StorageHelper LogIdList :=
  match lst with
  | None => ret []
  | Some l =>
      if bool_decide (opt_index purged = Some (index l)) then ret [l]
      else
        let! first := on_log (reader_get_log_id (next_index purged)) in
        let! ids := on_log (reader_get_key_log_ids first l) in
        ret (match ids, purged with
             | x :: rest, Some p =>
                 if bool_decide (leader_id p = leader_id x)
                 then if (2 <=? length ids)%nat then p :: rest else p :: ids
                 else p :: ids
             | _, _ => ids
             end)
  end.

(** ** Memberships *)

(** Backwards in steps of 64 entries, until there are two. *)
Fixpoint membership_loop (fuel : nat) (start e : Z) (res : list StoredMembership) : M LS (list StoredMembership) :=
  if start <? e then
    match fuel with
    | O => hang
    | S fuel =>
        let step_start := Z.max start (Z.max 0 (e - 64)) in
        let! es := try_get_log_entries (Included step_start) (Excluded e) in
        let res := collect_memberships (rev es) res in
        if bool_decide (length res = 2%nat) then ret res else membership_loop fuel start (Z.max 0 (e - 64)) res
    end
  else ret res.

Definition last_membership_in_log (since : Z) : M StorageHelper (list StoredMembership) :=
  let! (purged, lst) := on_log get_log_state in
  let e := next_index lst in
  let start := Z.max (next_index purged) since in
  on_log (membership_loop (Z.to_nat (e - start)) start e []).

Definition get_membership : M StorageHelper MembershipState :=
  let! (last_applied, sm_mem) := on_sm applied_state in
  let! log_mem := last_membership_in_log (next_index last_applied) in
  ret (match log_mem with
       | [a; b] => MkMembershipState (new_from_stored_membership a) (new_from_stored_membership b)
       | a :: _ => MkMembershipState (new_from_stored_membership sm_mem) (new_from_stored_membership a)
       | [] => MkMembershipState (new_from_stored_membership sm_mem) (new_from_stored_membership sm_mem)
       end).

(** ** The state machine *)

Definition restore_from_snapshot : M StorageHelper unit :=
  let! (last_applied, _) := on_sm applied_state in
  let! snapshot := on_sm get_current_snapshot in
  match snapshot with
  | None => ret tt
  | Some snap =>
      if opt_log_id_lt last_applied (meta_last_log_id (snap_meta snap)) then on_sm (sm_install_snapshot snap) else ret tt
  end.

(** In chunks of 64 entries, each of which has to be complete. *)
Fixpoint reapply_committed (fuel : nat) (start e : Z) : M StorageHelper unit :=
  if start <? e then
    match fuel with
    | O => hang
    | S fuel =>
        let chunk_end := Z.min e (start + 64) in
        let! es := on_log (try_get_log_entries (Included start) (Excluded chunk_end)) in
        if negb (bool_decide (entry_index <$> head es = Some start)) then fail KOther "Failed to get log entries"
        else if negb (bool_decide (entry_index <$> last es = Some (chunk_end - 1))) then fail KOther "Failed to get log entries"
        else on_sm (sm_apply_entries es) ;; reapply_committed fuel chunk_end e
    end
  else ret tt.

(** ** The state of a node *)

Definition get_initial_state (now : Z) : M StorageHelper RaftState :=
  let! v := on_log read_vote in
  let v := default default_vote v in
  let! committed := on_log read_committed in
  let! (last_purged_log_id, last_log_id) := on_log get_log_state in
  let! (last_applied, _) := on_sm applied_state in
  let committed := if opt_log_id_lt committed last_applied then last_applied else committed in
  restore_from_snapshot ;;
  let! (last_applied, _) := on_sm applied_state in
  let! last_applied :=
    if opt_log_id_lt last_applied committed then
      let start := next_index last_applied in
      let e := next_index committed in
      if start <? next_index last_purged_log_id then fail KOther "Cannot re-apply logs"
      else reapply_committed (Z.to_nat (e - start)) start e ;; ret committed
    else ret last_applied in
  let! mem_state := get_membership in
  let! (last_purged_log_id, last_log_id) :=
    if opt_log_id_lt last_log_id last_applied then
      match last_applied with
      | None => panic
      | Some a => on_log (sto_purge a) ;; ret (last_applied, last_applied)
      end
    else ret (last_purged_log_id, last_log_id) in
  let! ids := helper_get_key_log_ids last_purged_log_id last_log_id in
  let! snapshot := on_sm get_current_snapshot in
  let! snapshot :=
    match snapshot, last_purged_log_id with
    | None, Some _ => let! s := on_sm sm_build_snapshot in ret (Some s)
    | s, _ => ret s
    end in
  let meta := match snapshot with Some s => snap_meta s | None => default_snapshot_meta end in
  ret (MkRaftState (MkLeased v (Some now) 0 true) (next_index last_purged_log_id) ids mem_state meta Learner
         (io_state_new v last_applied (meta_last_log_id meta) last_purged_log_id) last_purged_log_id).

End startup.
Arguments StorageHelper : clear implicits.
