(* ===== verification/RaftStartupOk.v ===== *)
(** A node that starts again is the node that stopped: what [get_initial_state] reads from a log storage that
    holds a log is the vote, the ids and the memberships of that log, and the state machine is
    brought up to what is committed. *)

From stdpp Require Import strings.
From S2P Require Import Prelude Metadata OctopiiWal LogStore LogStoreOk RaftQuorum RaftMembership RaftLogIds RaftProgress RaftState RaftEngine RaftCore RaftCoreOk RaftStartup.

#[local] Open Scope Z_scope.

(** * What the storages promise *)

(** Reading a log storage that holds a log answers as the log does, and changes nothing. *)
Class RaftLogReaderLaws (LS : Type) `{RaftLogReader LS} := {
  lr_holds : LS → mlog → Prop;
  lr_run s l : lr_holds s l → run_from (rl_first l) (rl_entries l);
  lr_entries s l lo hi : lr_holds s l → range_panics lo hi = false →
    try_get_log_entries lo hi s = (Ok (filter (λ e, in_bounds lo hi (entry_index e) = true) (rl_entries l)), s);
  lr_vote s l : lr_holds s l → read_vote s = (Ok (rl_vote l), s);
  lr_committed s l : lr_holds s l → read_committed s = (Ok (rl_committed l), s);
  lr_state s l : lr_holds s l →
    get_log_state s = (Ok (rl_purged l, match last (rl_entries l) with Some e => Some (log_id e) | None => rl_purged l end), s)
}.

(** The last membership among entries that come after [m]. *)
Definition stored_of (e : MEntry) : option StoredMembership := MkStored (Some (log_id e)) <$> RaftState.get_membership e.
Definition memberships (es : list MEntry) : list StoredMembership := omap stored_of es.
Definition membership_after (m : StoredMembership) (es : list MEntry) : StoredMembership := default m (last (memberships es)).

(** What a state machine holds: the data of the application, the last applied id and the last membership. *)
Record sm_view (D : Type) := MkView { v_data : D; v_applied : option LogId; v_mem : StoredMembership }.
Arguments MkView {D}.
Arguments v_data {D}.
Arguments v_applied {D}.
Arguments v_mem {D}.

(** A state machine applies entries one after the other, as long as the application accepts them, and unpacks
    the snapshot it keeps. *)
Class RaftStateMachineLaws (SM : Type) `{RaftStateMachine SM} := {
  sm_data : Type;
  sm_step : sm_data → MEntry → sm_data;
  sm_accepts : sm_data → MEntry → Prop;
  sm_unpack : Snapshot → sm_data → sm_data;
  sm_at : SM → sm_view sm_data → option Snapshot → Prop;
  view_step (v : sm_view sm_data) (e : MEntry) : sm_view sm_data :=
    MkView (sm_step (v_data v) e) (Some (log_id e)) (default (v_mem v) (stored_of e));
  accepted : sm_data → list MEntry → Prop :=
    fix go d es := match es with [] => True | e :: es => sm_accepts d e ∧ go (sm_step d e) es end;
  sm_applied_ok s v o : sm_at s v o → applied_state s = (Ok (v_applied v, v_mem v), s);
  sm_snapshot_ok s v o : sm_at s v o → get_current_snapshot s = (Ok o, s);
  sm_apply_ok s v o es : sm_at s v o → accepted (v_data v) es →
    ∃ s', sm_apply_entries es s = (Ok tt, s') ∧ sm_at s' (foldl view_step v es) o;
  sm_install_ok s v snap : sm_at s v (Some snap) →
    ∃ s', sm_install_snapshot snap s = (Ok tt, s') ∧
      sm_at s' (MkView (sm_unpack snap (v_data v)) (meta_last_log_id (snap_meta snap)) (last_membership (snap_meta snap))) (Some snap);
  sm_build_ok s v : sm_at s v None →
    ∃ s' snap, sm_build_snapshot s = (Ok snap, s') ∧ applied_state s' = (Ok (v_applied v, v_mem v), s')
}.

#[export] Program Instance mem_log_reader_laws : RaftLogReaderLaws (MemLogStoreInner Membership) := { lr_holds := rep }.
Next Obligation. intros s l. by apply rep_run. Qed.
Next Obligation.
  intros s l lo hi Hr Hp. unfold try_get_log_entries, mem_log_reader, LogStore.try_get_log_entries. rewrite Hp. unfold bind, getS, ret.
  by rewrite (rep_read _ _ _ _ Hr).
Qed.
Next Obligation. intros s l Hr. unfold read_vote, mem_log_reader, LogStore.read_vote, bind, getS, ret. by rewrite (rep_vote _ _ Hr). Qed.
Next Obligation. intros s l Hr. unfold read_committed, mem_log_reader, LogStore.read_committed, bind, getS, ret. by rewrite (rep_committed _ _ Hr). Qed.
Next Obligation.
  intros s l Hr. unfold get_log_state, mem_log_reader, LogStore.get_log_state, bind, getS, ret. rewrite (rep_last _ _ Hr) (rep_purged _ _ Hr). by destruct (last _).
Qed.

(** The store with a write-ahead log is read in memory. *)
Section wal_reader.
Context {E : Type} `{WalTopic E} `{Bincode (WalLogRecord Membership)}.

Lemma in_inner_read {A} (m : M (MemLogStoreInner Membership) A) (s : WalLogStore Membership E) x :
  m (st_inner s) = (Ok x, st_inner s) → in_inner m s = (Ok x, s).
Proof. unfold in_inner, zoom. intros ->. by destruct s. Qed.

#[export] Program Instance wal_log_reader_laws : RaftLogReaderLaws (WalLogStore Membership E) := { lr_holds s l := rep (st_inner s) l }.
Next Obligation. intros s l. apply (@lr_run _ _ mem_log_reader_laws). Qed.
Next Obligation. intros s l lo hi Hr Hp. apply in_inner_read. by apply (@lr_entries _ _ mem_log_reader_laws). Qed.
Next Obligation. intros s l Hr. apply in_inner_read. by apply (@lr_vote _ _ mem_log_reader_laws). Qed.
Next Obligation. intros s l Hr. apply in_inner_read. by apply (@lr_committed _ _ mem_log_reader_laws). Qed.
Next Obligation. intros s l Hr. apply in_inner_read. by apply (@lr_state _ _ mem_log_reader_laws). Qed.
End wal_reader.

(** * Ranges of a log *)

Lemma filter_range es f lo hi :
  run_from f es →
  filter (λ e : MEntry, in_bounds (Included lo) (Excluded hi) (entry_index e) = true) es
  = take (Z.to_nat (hi - Z.max lo f)) (drop (Z.to_nat (lo - f)) es).
Proof.
  revert f. induction es as [|x es IH]; intros f Hr; [by rewrite drop_nil take_nil|].
  apply run_from_cons in Hr as [Hx Hr]. rewrite filter_cons (IH _ Hr). unfold in_bounds. rewrite Hx.
  destruct (Z.leb_spec lo f), (Z.ltb_spec f hi); simpl.
  - replace (Z.to_nat (lo - f)) with 0%nat by lia. replace (Z.to_nat (lo - Z.succ f)) with 0%nat by lia.
    replace (Z.to_nat (hi - Z.max lo f)) with (S (Z.to_nat (hi - Z.max lo (Z.succ f)))) by lia. done.
  - replace (Z.to_nat (hi - Z.max lo f)) with 0%nat by lia. replace (Z.to_nat (hi - Z.max lo (Z.succ f))) with 0%nat by lia. by rewrite !take_0.
  - replace (Z.to_nat (lo - f)) with (S (Z.to_nat (lo - Z.succ f))) by lia. by replace (Z.max lo (Z.succ f)) with (Z.max lo f) by lia.
  - replace (Z.to_nat (lo - f)) with (S (Z.to_nat (lo - Z.succ f))) by lia. by replace (Z.max lo (Z.succ f)) with (Z.max lo f) by lia.
Qed.

Lemma filter_single es f (j : nat) x :
  run_from f es → es !! j = Some x →
  filter (λ e : MEntry, in_bounds (Included (f + Z.of_nat j)) (Included (f + Z.of_nat j)) (entry_index e) = true) es = [x].
Proof.
  intros Hr Hj. transitivity (filter (λ e : MEntry, in_bounds (Included (f + Z.of_nat j)) (Excluded (f + Z.of_nat j + 1)) (entry_index e) = true) es).
  - apply list_filter_iff. intros e. unfold in_bounds. rewrite !andb_true_iff. lia.
  - rewrite (filter_range _ f) //. replace (Z.to_nat (f + Z.of_nat j + 1 - Z.max (f + Z.of_nat j) f)) with 1%nat by lia.
    replace (Z.to_nat (f + Z.of_nat j - f)) with j by lia. by rewrite (drop_S _ _ _ Hj).
Qed.

(** * The last two memberships *)

Definition last_two {A} (l : list A) : list A := drop (length l - 2) l.

Lemma last_two_app {A} (a b : list A) : (2 ≤ length b)%nat → last_two (a ++ b) = last_two b.
Proof. intros Hb. unfold last_two. rewrite length_app drop_app_ge; [lia|]. f_equal. lia. Qed.

Lemma last_two_again {A} (a b : list A) : last_two (a ++ last_two b) = last_two (a ++ b).
Proof.
  destruct (decide (2 ≤ length b)%nat).
  - rewrite !last_two_app //; unfold last_two; rewrite ?length_drop; [lia|]. rewrite drop_drop. f_equal. lia.
  - unfold last_two at 2. by replace (length b - 2)%nat with 0%nat by lia.
Qed.

Lemma collect_memberships_spec es : ∀ acc, (length acc ≤ 1)%nat → collect_memberships (rev es) acc = last_two (memberships es ++ acc).
Proof.
  induction es as [|x es IH] using rev_ind; intros acc Hacc.
  - unfold last_two. simpl. by replace (length acc - 2)%nat with 0%nat by lia.
  - rewrite rev_app_distr. simpl. unfold memberships. rewrite omap_app. simpl. unfold stored_of at 2.
    destruct (RaftState.get_membership x) as [m|] eqn:Hm; simpl; [|rewrite app_nil_r; by apply IH].
    rewrite -app_assoc. simpl. case_bool_decide as Hl; [|apply IH; simpl in *; lia].
    rewrite last_two_app; [simpl in *; lia|]. unfold last_two. cbn [length]. by rewrite Hl.
Qed.

Section startup.
Context {LS SM : Type} `{RaftLogStorage LS} `{RaftLogReaderLaws LS} `{RaftStateMachineLaws SM}.
Abbreviation helper := (StorageHelper LS SM).

(** The entries of a log from index [lo] on, and between [lo] and [hi]. *)
Definition entries_from (l : mlog) (lo : Z) : list MEntry := drop (Z.to_nat (lo - rl_first l)) (rl_entries l).
Definition entries_between (l : mlog) (lo hi : Z) : list MEntry := take (Z.to_nat (hi - lo)) (entries_from l lo).

Lemma read_between s l lo hi :
  lr_holds s l → rl_first l ≤ lo → lo ≤ hi → try_get_log_entries (Included lo) (Excluded hi) s = (Ok (entries_between l lo hi), s).
Proof.
  intros Hh Hf Hl. rewrite (lr_entries s l) //; [simpl; by apply Z.ltb_ge|]. do 2 f_equal.
  rewrite (filter_range _ (rl_first l)); [by eapply lr_run|]. unfold entries_between, entries_from. by replace (Z.max lo (rl_first l)) with lo by lia.
Qed.

(** Going back from [e] to [e'] adds what lies between. *)
Lemma entries_from_split l lo hi : rl_first l ≤ lo → lo ≤ hi → entries_from l lo = entries_between l lo hi ++ entries_from l hi.
Proof.
  intros Hf Hl. unfold entries_between, entries_from. rewrite -{1}(take_drop (Z.to_nat (hi - lo)) (drop (Z.to_nat (lo - rl_first l)) _)).
  f_equal. rewrite drop_drop. f_equal. lia.
Qed.

Lemma membership_loop_ok s l fuel : lr_holds s l → ∀ start e res,
  rl_first l ≤ start → 0 ≤ start → res = last_two (memberships (entries_from l e)) → (length res ≤ 1)%nat → (e - start ≤ Z.of_nat fuel) →
  membership_loop fuel start e res s = (Ok (if start <? e then last_two (memberships (entries_from l start)) else res), s).
Proof.
  intros Hh. induction fuel as [|fuel IH]; intros start e res Hf Hpos Hres Hlen Hfuel; cbn [membership_loop].
  { destruct (Z.ltb_spec start e); [lia|done]. }
  destruct (Z.ltb_spec start e); [|done]. set (e' := Z.max start (Z.max 0 (e - 64))).
  unfold bind. rewrite (read_between s l e' e) //; [lia|lia|].
  rewrite collect_memberships_spec //.
  assert (last_two (memberships (entries_between l e' e) ++ res) = last_two (memberships (entries_from l e'))) as ->.
  { subst res. rewrite last_two_again. unfold memberships. by rewrite -omap_app -entries_from_split; [lia..|]. }
  case_bool_decide as Htwo.
  - f_equal. f_equal. destruct (decide (e' = start)) as [->|Hne]; [done|].
    rewrite (entries_from_split l start e'); [lia..|]. unfold last_two in Htwo. rewrite length_drop in Htwo.
    unfold memberships in *. rewrite omap_app last_two_app //. lia.
  - assert (length (last_two (memberships (entries_from l e'))) ≤ 1)%nat as Hl1.
    { unfold last_two in Htwo |- *. rewrite length_drop in Htwo |- *. lia. }
    destruct (decide (e' = start)) as [Heq|Hne].
    + rewrite Heq. assert (Z.max 0 (e - 64) ≤ start) as Hle by lia. destruct fuel; cbn [membership_loop];
        destruct (Z.ltb_spec start (Z.max 0 (e - 64))); try lia; done.
    + assert (e' = Z.max 0 (e - 64)) as Heq by lia. rewrite -Heq. rewrite (IH start e') //; [lia|].
      by destruct (Z.ltb_spec start e'); [|lia].
Qed.

(** The last id of a log; the ids that a node knows of it, the last purged one included. *)
Definition rl_last (l : mlog) : option LogId := match last (rl_entries l) with Some e => Some (log_id e) | None => rl_purged l end.
Definition ids_of (l : mlog) : list LogId := option_list (rl_purged l) ++ map log_id (rl_entries l).

Lemma rl_last_next s l : lr_holds s l → next_index (rl_last l) = rl_next l.
Proof.
  intros Hh%lr_run. unfold rl_last, rl_next, rl_first in *. destruct (rl_entries l) as [|x es _] eqn:El using rev_ind.
  - unfold len. simpl. by rewrite Z.add_0_r.
  - rewrite last_snoc len_app. simpl. assert (entry_index x = LogStoreOk.next_index (rl_purged l) + Z.of_nat (length es)) as Hx.
    { apply Hh. by rewrite lookup_app_r // Nat.sub_diag. }
    unfold entry_index in Hx. rewrite Hx /len /=. lia.
Qed.

Lemma entries_from_end l lo : rl_next l ≤ lo → entries_from l lo = [].
Proof. unfold rl_next, len, entries_from. intros Hl. apply drop_ge. lia. Qed.

Lemma last_membership_ok (h : helper) l since :
  lr_holds (helper_log h) l → 0 ≤ rl_first l →
  last_membership_in_log since h = (Ok (last_two (memberships (entries_from l (Z.max (rl_first l) since)))), h).
Proof.
  intros Hh Hpos. unfold last_membership_in_log, bind. unfold on_log at 1, zoom. rewrite (lr_state _ l Hh).
  replace (MkHelper (helper_log h) (helper_sm h)) with h by (by destruct h). change (match last _ with Some e => _ | None => _ end) with (rl_last l).
  rewrite (rl_last_next (helper_log h)) //. change (next_index (rl_purged l)) with (rl_first l). set (start := Z.max (rl_first l) since).
  unfold on_log, zoom. rewrite (membership_loop_ok _ l _ Hh); [lia|lia|by rewrite entries_from_end|simpl; lia|lia|].
  replace (MkHelper (helper_log h) (helper_sm h)) with h by (by destruct h).
  destruct (Z.ltb_spec start (rl_next l)); [done|]. by rewrite entries_from_end.
Qed.

(** What the memberships of a node are, when its state machine has one and more follow in the log. *)
Definition start_membership (m : StoredMembership) (later : list StoredMembership) : MembershipState :=
  match last_two later with
  | [a; b] => MkMembershipState (new_from_stored_membership a) (new_from_stored_membership b)
  | a :: _ => MkMembershipState (new_from_stored_membership m) (new_from_stored_membership a)
  | [] => MkMembershipState (new_from_stored_membership m) (new_from_stored_membership m)
  end.

Lemma get_membership_ok (h : helper) l v o :
  lr_holds (helper_log h) l → 0 ≤ rl_first l → sm_at (helper_sm h) v o →
  RaftStartup.get_membership h = (Ok (start_membership (v_mem v) (memberships (entries_from l (Z.max (rl_first l) (next_index (v_applied v)))))), h).
Proof.
  intros Hh Hpos Hs. unfold RaftStartup.get_membership, bind. unfold on_sm, zoom. rewrite (sm_applied_ok _ _ _ Hs).
  replace (MkHelper (helper_log h) (helper_sm h)) with h by (by destruct h). by rewrite (last_membership_ok h l).
Qed.

(** * Applying what is committed *)

Lemma membership_after_app m a b : membership_after m (a ++ b) = membership_after (membership_after m a) b.
Proof.
  unfold membership_after, memberships. rewrite omap_app. destruct (omap stored_of b) as [|x y _] using rev_ind.
  - by rewrite app_nil_r.
  - by rewrite app_assoc !last_snoc.
Qed.

Lemma between_last s l lo hi :
  lr_holds s l → rl_first l ≤ lo → lo < hi → hi ≤ rl_next l →
  entry_index <$> head (entries_between l lo hi) = Some lo ∧ ∃ x, last (entries_between l lo hi) = Some x ∧ entry_index x = hi - 1.
Proof.
  intros Hh%lr_run Hf Hl Hn. unfold rl_next, len in Hn. unfold entries_between, entries_from.
  set (i := Z.to_nat (lo - rl_first l)). set (k := Z.to_nat (hi - lo)).
  destruct (lookup_lt_is_Some_2 (rl_entries l) i) as [x Hx]; [lia|].
  destruct (lookup_lt_is_Some_2 (rl_entries l) (i + (k - 1))%nat) as [y Hy]; [lia|]. split.
  - rewrite head_lookup lookup_take_lt; [lia|]. rewrite lookup_drop Nat.add_0_r Hx. simpl. f_equal. rewrite (Hh _ _ Hx). lia.
  - exists y. split; [|rewrite (Hh _ _ Hy); lia]. rewrite last_lookup length_take length_drop.
    replace (Nat.pred (k `min` (length (rl_entries l) - i))) with (k - 1)%nat by lia. rewrite lookup_take_lt; [lia|]. by rewrite lookup_drop.
Qed.

Lemma between_app l lo mid hi : rl_first l ≤ lo → lo ≤ mid → mid ≤ hi → entries_between l lo hi = entries_between l lo mid ++ entries_between l mid hi.
Proof.
  intros Hf H1' H2'. unfold entries_between, entries_from. rewrite -{1}(Nat.add_0_r (Z.to_nat (hi - lo))).
  replace (Z.to_nat (hi - lo) + 0)%nat with (Z.to_nat (mid - lo) + Z.to_nat (hi - mid))%nat by lia.
  rewrite -take_take_drop drop_drop. do 3 f_equal. lia.
Qed.

Lemma accepted_app es1 : ∀ d es2, accepted d (es1 ++ es2) ↔ accepted d es1 ∧ accepted (foldl sm_step d es1) es2.
Proof. induction es1 as [|e es1 IH]; intros d es2; [unfold accepted; simpl; tauto|]. specialize (IH (sm_step d e) es2). unfold accepted in *. simpl. tauto. Qed.

(** What replaying entries makes of each part of the view. *)
Lemma replay_data es : ∀ v, v_data (foldl view_step v es) = foldl sm_step (v_data v) es.
Proof. induction es as [|e es IH]; intros v; [done|]. simpl. by rewrite IH. Qed.
Lemma replay_applied es : ∀ v, v_applied (foldl view_step v es) = match last es with Some x => Some (log_id x) | None => v_applied v end.
Proof. intros v. destruct es as [|x es _] using rev_ind; [done|]. by rewrite foldl_snoc last_snoc. Qed.
Lemma replay_mem es : ∀ v, v_mem (foldl view_step v es) = membership_after (v_mem v) es.
Proof.
  induction es as [|x es IH] using rev_ind; intros v; [done|]. rewrite foldl_snoc membership_after_app -IH. simpl.
  unfold membership_after, memberships. simpl. by destruct (stored_of x).
Qed.

Lemma reapply_ok l fuel : ∀ start e (h : helper) v o,
  lr_holds (helper_log h) l → sm_at (helper_sm h) v o → rl_first l ≤ start → start ≤ e → e ≤ rl_next l → e - start ≤ Z.of_nat fuel →
  accepted (v_data v) (entries_between l start e) →
  ∃ s', reapply_committed fuel start e h = (Ok tt, MkHelper (helper_log h) s') ∧
    sm_at s' (foldl view_step v (entries_between l start e)) o.
Proof.
  induction fuel as [|fuel IH]; intros start e h v o Hh Hs Hf Hle He Hfuel Hacc; cbn [reapply_committed].
  - destruct (Z.ltb_spec start e); [lia|]. exists (helper_sm h). split; [by destruct h|]. unfold entries_between.
    by replace (Z.to_nat (e - start)) with 0%nat by lia.
  - destruct (Z.ltb_spec start e) as [Hlt|].
    2:{ exists (helper_sm h). split; [by destruct h|]. unfold entries_between. by replace (Z.to_nat (e - start)) with 0%nat by lia. }
    set (mid := Z.min e (start + 64)). unfold bind at 1. unfold on_log at 1, zoom. rewrite (read_between _ l) //; [lia|].
    replace (MkHelper (helper_log h) (helper_sm h)) with h by (by destruct h).
    destruct (between_last _ l start mid Hh) as (Hhd & x & Hlast & Hx); [lia..|]. rewrite Hhd Hlast /= Hx.
    rewrite (between_app l start mid e) in Hacc |- *; [lia..|]. apply accepted_app in Hacc as [Ha1 Ha2]. rewrite -replay_data in Ha2.
    rewrite !bool_decide_true //. simpl. unfold bind, on_sm, zoom. destruct (sm_apply_ok _ _ _ _ Hs Ha1) as (s1 & -> & Hs1).
    destruct (IH mid e (MkHelper (helper_log h) s1) _ _ Hh Hs1) as (s' & Hrun & Hs'); [lia..|done|].
    exists s'. split; [done|]. by rewrite foldl_app.
Qed.

(** * The ids of the log *)

Lemma read_log_id_ok s l (j : nat) x :
  lr_holds s l → rl_entries l !! j = Some x → reader_get_log_id (rl_first l + Z.of_nat j) s = (Ok (log_id x), s).
Proof.
  intros Hh Hj. unfold reader_get_log_id, bind. rewrite (lr_entries s l) //; [simpl; apply Z.ltb_irrefl|].
  by rewrite (filter_single _ (rl_first l) j x (lr_run _ _ Hh) Hj).
Qed.

Lemma keys_cons p x rest :
  NoDup (p :: x :: rest) →
  keys (p :: x :: rest) =
    if bool_decide (leader_id p = leader_id x)
    then if (2 <=? length (keys (x :: rest)))%nat then p :: tail (keys (x :: rest)) else p :: keys (x :: rest)
    else p :: keys (x :: rest).
Proof.
  intros Hnd. destruct rest as [|y rest _] using rev_ind.
  - unfold keys. simpl. by destruct (bool_decide _).
  - change (p :: x :: rest ++ [y]) with ((p :: x :: rest) ++ [y]). change (x :: rest ++ [y]) with ((x :: rest) ++ [y]). rewrite !keys_snoc. simpl.
    destruct (decide (leader_id p = leader_id x)) as [Heq|Hne].
    + rewrite (bool_decide_true (leader_id p = _)) // bool_decide_true; [congruence|]. rewrite length_app. simpl.
      rewrite Nat.add_1_r. by rewrite Heq.
    + rewrite (bool_decide_false (leader_id p = _)) // bool_decide_false; [congruence|]. done.
Qed.

Lemma ids_of_consecutive s l : lr_holds s l → consecutive (match rl_purged l with Some p => index p | None => 0 end) (ids_of l).
Proof.
  intros Hh%lr_run. unfold ids_of, rl_first in *. destruct (rl_purged l) as [p|]; simpl in *.
  - intros [|i] x; simpl; [by intros [= <-]; lia|]. rewrite list_lookup_fmap. destruct (rl_entries l !! i) as [e|] eqn:He; [|done].
    intros [= <-]. pose proof (Hh _ _ He) as Hi. unfold entry_index in Hi. lia.
  - intros i x. rewrite list_lookup_fmap. destruct (rl_entries l !! i) as [e|] eqn:He; [|done]. intros [= <-].
    pose proof (Hh _ _ He) as Hi. unfold entry_index in Hi. lia.
Qed.

Lemma reader_keys_ok s l x es y :
  lr_holds s l → leaders_ordered (map log_id (rl_entries l)) → rl_entries l = x :: es → last (rl_entries l) = Some y →
  reader_get_key_log_ids (log_id x) (log_id y) s = (Ok (keys (map log_id (rl_entries l))), s).
Proof.
  intros Hh Hord Hx Hy. pose proof (lr_run _ _ Hh) as Hr. unfold reader_get_key_log_ids, bind, getS.
  assert (consecutive (rl_first l) (map log_id (rl_entries l))) as Hc.
  { intros i z. rewrite list_lookup_fmap. destruct (rl_entries l !! i) as [e|] eqn:He; [|done]. intros [= <-]. by apply Hr. }
  rewrite (get_key_log_ids_finds_keys _ (rl_first l) (map log_id (rl_entries l))) //.
  - intros z (e & -> & He)%list_elem_of_fmap. apply list_elem_of_lookup_1 in He as [j Hj].
    pose proof (Hr j e Hj) as Hi. unfold entry_index in Hi. rewrite Hi (read_log_id_ok s l j e) //.
  - by rewrite Hx.
  - by rewrite fmap_last Hy.
  - rewrite length_map. pose proof Hy as Hy'. rewrite last_lookup in Hy'. pose proof (Hr _ _ Hy') as Hi.
    assert (entry_index x = rl_first l + Z.of_nat 0) as Hi0 by (apply Hr; by rewrite Hx).
    assert (length (rl_entries l) ≠ 0%nat) by (by rewrite Hx). unfold entry_index in *. lia.
Qed.

Lemma key_log_ids_ok (h : helper) l :
  lr_holds (helper_log h) l → leaders_ordered (ids_of l) →
  helper_get_key_log_ids (rl_purged l) (rl_last l) h = (Ok (keys (ids_of l)), h).
Proof.
  intros Hh Hord. pose proof (lr_run _ _ Hh) as Hr. pose proof (ids_of_consecutive _ _ Hh) as Hc. unfold helper_get_key_log_ids, rl_last.
  destruct (rl_entries l) as [|x es] eqn:He.
  - simpl. unfold ids_of. rewrite He. destruct (rl_purged l) as [p|]; [|done]. by rewrite bool_decide_true.
  - destruct (last (x :: es)) as [y|] eqn:Hy; [|by destruct es using rev_ind; rewrite ?app_comm_cons ?last_snoc in Hy].
    assert (rl_first l ≤ entry_index y) as Hyf.
    { rewrite last_lookup in Hy. rewrite (Hr _ _ Hy). lia. }
    rewrite bool_decide_false.
    { unfold rl_first in Hyf. destruct (rl_purged l) as [p|]; [|done]. simpl in *. unfold entry_index in Hyf. intros [= ?]. lia. }
    unfold bind, on_log, zoom. change (next_index (rl_purged l)) with (rl_first l).
    rewrite -(Z.add_0_r (rl_first l)) (read_log_id_ok _ l 0 x); [done|by rewrite He|]. simpl.
    rewrite (reader_keys_ok _ l x es y) //; [|by rewrite He|].
    + unfold ids_of in Hord. intros i j a b Hij Ha Hb.
      set (k := length (option_list (rl_purged l))). apply (Hord (k + i)%nat (k + j)%nat); [lia|..]; by rewrite lookup_app_r; [lia|];
        rewrite Nat.add_comm Nat.add_sub.
    + replace (MkHelper (helper_log h) (helper_sm h)) with h by (by destruct h). f_equal. f_equal. rewrite He /=.
      apply consecutive_NoDup in Hc. unfold ids_of in *. rewrite He /= in Hc |- *. destruct (rl_purged l) as [p|]; simpl in *.
      * rewrite keys_cons //. destruct (keys (log_id x :: map log_id es)) as [|z rest] eqn:Hk.
        { exfalso. destruct es as [|w es _] using rev_ind; [done|]. rewrite map_app app_comm_cons keys_snoc in Hk. by destruct (run_heads _ _). }
        assert (z = log_id x) as -> by (assert (head (keys (log_id x :: map log_id es)) = Some (log_id x)) as Hhd by apply head_keys; rewrite Hk in Hhd; by injection Hhd).
        done.
      * by destruct (keys _).
Qed.

(** * The order of ids in a log *)

Definition in_log (l : mlog) (o : option LogId) : Prop := match o with None => rl_purged l = None | Some x => x ∈ ids_of l end.

Lemma id_position s l x : lr_holds s l → x ∈ ids_of l →
  ∃ i, ids_of l !! i = Some x ∧ index x = match rl_purged l with Some p => index p | None => 0 end + Z.of_nat i.
Proof. intros Hh [i Hi]%list_elem_of_lookup_1. exists i. split; [done|]. by apply (ids_of_consecutive s l Hh). Qed.

Lemma ids_ordered s l x y :
  lr_holds s l → leaders_ordered (ids_of l) → x ∈ ids_of l → y ∈ ids_of l → index x ≤ index y → opt_log_id_le (Some x) (Some y) = true.
Proof.
  intros Hh Hord Hx Hy Hle. destruct (id_position s l x Hh Hx) as (i & Hi & Ei), (id_position s l y Hh Hy) as (j & Hj & Ej).
  apply opt_log_id_le_spec. destruct (Hord i j x y) as [Heq|Hlt]; [lia|done..| |].
  - destruct (decide (index x = index y)) as [E|E].
    + left. destruct x, y. simpl in *. congruence.
    + right. right. split; [done|lia].
  - right. by left.
Qed.

Lemma in_log_next s l o : lr_holds s l → in_log l o → rl_first l ≤ next_index o ≤ rl_next l.
Proof.
  intros Hh Ho. unfold rl_next. pose proof (len_nonneg (rl_entries l)). unfold in_log in Ho. destruct o as [x|]; simpl.
  - destruct (id_position s l x Hh Ho) as (i & Hi & Ei). apply lookup_lt_Some in Hi. unfold ids_of in Hi. rewrite length_app length_map in Hi.
    unfold rl_first, len in *. destruct (rl_purged l); simpl in *; lia.
  - unfold rl_first. rewrite Ho. simpl. lia.
Qed.

(** What lies after an id and up to a greater one ends in the greater one. *)
Lemma between_ids s l o y :
  lr_holds s l → leaders_ordered (ids_of l) → in_log l o → y ∈ ids_of l → opt_log_id_lt o (Some y) = true →
  next_index o < next_index (Some y) ∧ ∃ x, last (entries_between l (next_index o) (next_index (Some y))) = Some x ∧ log_id x = y.
Proof.
  intros Hh Hord Ho Hy Hlt. pose proof (in_log_next s l o Hh Ho) as Hno. pose proof (in_log_next s l (Some y) Hh Hy) as Hny.
  assert (next_index o < next_index (Some y)) as Hlt'.
  { destruct (Z.lt_ge_cases (next_index o) (next_index (Some y))) as [?|Hge]; [done|exfalso]. destruct o as [x|]; simpl in *.
    - apply opt_log_id_lt_spec in Hlt. apply Hlt, opt_log_id_le_spec. eapply (ids_ordered s l); eauto. lia.
    - unfold rl_first in *. rewrite Ho in Hny. simpl in Hny.
      destruct (id_position s l y Hh Hy) as (i & _ & Ei). rewrite Ho in Ei. lia. }
  split; [done|]. destruct (between_last s l (next_index o) (next_index (Some y)) Hh) as (_ & x & Hx & Ex); [lia..|].
  exists x. split; [done|]. assert (x ∈ rl_entries l) as Hin.
  { apply last_Some_elem_of in Hx. unfold entries_between, entries_from in Hx. apply elem_of_take in Hx as (i & Hx & _).
    rewrite lookup_drop in Hx. by eapply list_elem_of_lookup_2. }
  destruct (id_position s l (log_id x) Hh) as (i & Hi & Ei).
  { unfold ids_of. apply elem_of_app. right. by apply list_elem_of_fmap_2. }
  destruct (id_position s l y Hh Hy) as (j & Hj & Ej). unfold entry_index in Ex. simpl in Ex. assert (i = j) as -> by lia. congruence.
Qed.

Lemma last_is_greatest s l o : lr_holds s l → leaders_ordered (ids_of l) → in_log l o → opt_log_id_lt (rl_last l) o = false.
Proof.
  intros Hh Hord Ho. destruct (opt_log_id_lt (rl_last l) o) eqn:Hlt; [|done]. exfalso. destruct o as [x|]; [|by destruct (rl_last l)].
  apply opt_log_id_lt_spec in Hlt. apply Hlt, opt_log_id_le_spec.
  pose proof (in_log_next s l (Some x) Hh Ho) as [_ Hn]. rewrite -(rl_last_next s l Hh) in Hn.
  assert (in_log l (rl_last l)) as Hin.
  { unfold rl_last. destruct (last (rl_entries l)) as [e|] eqn:He.
    - simpl. apply elem_of_app. right. apply list_elem_of_fmap_2. by apply last_Some_elem_of.
    - destruct (rl_purged l) eqn:Hp; simpl; [|done]. unfold ids_of. rewrite Hp. simpl. set_solver. }
  destruct (rl_last l) as [y|]; simpl in *.
  - apply (ids_ordered s l); auto. lia.
  - destruct (id_position s l x Hh Ho) as (i & _ & Ei). rewrite Hin in Ei. lia.
Qed.

(** * The state after a start *)

(** What the state machine holds once a newer snapshot is installed. *)
Definition restored (v : sm_view sm_data) (o : option Snapshot) : sm_view sm_data :=
  match o with
  | Some snap =>
      if opt_log_id_lt (v_applied v) (meta_last_log_id (snap_meta snap))
      then MkView (sm_unpack snap (v_data v)) (meta_last_log_id (snap_meta snap)) (last_membership (snap_meta snap)) else v
  | None => v
  end.

Lemma restore_ok (h : helper) v o :
  sm_at (helper_sm h) v o →
  ∃ s', restore_from_snapshot h = (Ok tt, MkHelper (helper_log h) s') ∧ sm_at s' (restored v o) o.
Proof.
  intros Hs. unfold restore_from_snapshot, bind, on_sm, zoom. rewrite (sm_applied_ok _ _ _ Hs). simpl. rewrite (sm_snapshot_ok _ _ _ Hs). simpl.
  destruct o as [snap|]; simpl; [|by exists (helper_sm h); destruct h]. destruct (opt_log_id_lt (v_applied v) _); [|by exists (helper_sm h); destruct h].
  destruct (sm_install_ok _ _ _ Hs) as (s' & Hi & Hs'). simpl. rewrite Hi. by exists s'.
Qed.

Lemma restored_not_below v o : opt_log_id_lt (v_applied (restored v o)) (v_applied v) = false.
Proof.
  assert (opt_log_id_lt (v_applied v) (v_applied v) = false) as Hrefl.
  { destruct (opt_log_id_lt (v_applied v) (v_applied v)) eqn:E; [|done]. apply opt_log_id_lt_spec in E. by destruct E; apply opt_le_refl. }
  destruct o as [snap|]; [|done]. cbn [restored]. set (x := meta_last_log_id (snap_meta snap)).
  destruct (opt_log_id_lt (v_applied v) x) eqn:Hlt; [|done]. cbn [v_applied].
  destruct (opt_log_id_lt x (v_applied v)) eqn:E; [|done]. apply opt_log_id_lt_spec in E, Hlt. destruct (opt_le_total (v_applied v) x); tauto.
Qed.

Lemma start_effective m later : ms_effective (start_membership m later) = new_from_stored_membership (default m (last later)).
Proof.
  unfold start_membership, last_two. destruct later as [|y later _] using rev_ind; [done|]. rewrite last_snoc length_app. simpl.
  destruct later as [|x later _] using rev_ind; [done|]. rewrite length_app. simpl.
  replace (length later + 1 + 1 - 2)%nat with (length later) by lia. by rewrite -app_assoc drop_app_length.
Qed.

Lemma bind_ok {S A B} (m : M S A) (k : A → M S B) s x s' : m s = (Ok x, s') → bind m k s = k x s'.
Proof. unfold bind. by intros ->. Qed.
Lemma on_log_read {A} (m : M LS A) (h : helper) x : m (helper_log h) = (Ok x, helper_log h) → on_log m h = (Ok x, h).
Proof. unfold on_log, zoom. intros ->. by destruct h. Qed.
Lemma on_sm_read {A} (m : M SM A) (h : helper) x : m (helper_sm h) = (Ok x, helper_sm h) → on_sm m h = (Ok x, h).
Proof. unfold on_sm, zoom. intros ->. by destruct h. Qed.

(** The state machine after every committed entry it has not applied. *)
Definition caught_up (l : mlog) (v : sm_view sm_data) : sm_view sm_data :=
  foldl view_step v (entries_between l (next_index (v_applied v)) (next_index (rl_committed l))).

Lemma committed_not_after s l o c :
  lr_holds s l → 0 ≤ rl_first l → leaders_ordered (ids_of l) → in_log l o → (∀ x, c = Some x → x ∈ ids_of l) → opt_log_id_lt o c = false →
  next_index c ≤ next_index o.
Proof.
  intros Hh Hpos Hord Ho Hc Hlt. destruct c as [y|].
  - specialize (Hc y eq_refl). destruct o as [x|]; [|done]. simpl in Ho |- *. destruct (Z.le_gt_cases (index y) (index x)) as [?|Hgt]; [lia|].
    pose proof (ids_ordered s l x y Hh Hord Ho Hc ltac:(lia)) as Hle. apply opt_log_id_le_spec in Hle.
    destruct (opt_le_total (Some y) (Some x)) as [Hge|_].
    + pose proof (opt_le_antisym _ _ Hle Hge). simplify_eq. lia.
    + assert (¬ opt_log_id_lt (Some x) (Some y) = true) as Hn by congruence. rewrite opt_log_id_lt_spec in Hn.
      destruct (decide (x = y)) as [-> | Hne]; [lia|]. destruct Hn. intros Hge. pose proof (opt_le_antisym _ _ Hle Hge). congruence.
  - change (next_index None) with 0. pose proof (in_log_next s l o Hh Ho) as [? _]. lia.
Qed.

(** Bringing the state machine, at [v] now and at [a] before a snapshot was restored, up to what is committed. *)
Lemma catch_up_ok ls sm l a v o :
  lr_holds ls l → 0 ≤ rl_first l → leaders_ordered (ids_of l) → sm_at sm v o → in_log l (v_applied v) → (∀ c, rl_committed l = Some c → c ∈ ids_of l) →
  opt_log_id_lt (v_applied v) a = false →
  accepted (v_data v) (entries_between l (next_index (v_applied v)) (next_index (rl_committed l))) →
  let c0 := if opt_log_id_lt (rl_committed l) a then a else rl_committed l in
  let start := next_index (v_applied v) in
  let t := v_applied (caught_up l v) in
  in_log l t ∧ start ≤ next_index t ∧ entries_between l start (next_index (rl_committed l)) = entries_between l start (next_index t) ∧
  ∃ s2, (if opt_log_id_lt (v_applied v) c0 then
      if start <? next_index (rl_purged l) then fail KOther "Cannot re-apply logs"
      else reapply_committed (Z.to_nat (next_index c0 - start)) start (next_index c0) ;; ret c0
    else ret (v_applied v)) (MkHelper ls sm) = (Ok t, MkHelper ls s2) ∧ sm_at s2 (caught_up l v) o.
Proof.
  intros Hh Hpos Hord Hs Hin Hcom Hnb Hacc. cbv zeta. set (c0 := if opt_log_id_lt (rl_committed l) a then a else rl_committed l).
  pose proof (in_log_next ls l _ Hh Hin) as [Hf _].
  destruct (opt_log_id_lt (v_applied v) c0) eqn:Hlt.
  - assert (c0 = rl_committed l) as Ec by (unfold c0 in *; destruct (opt_log_id_lt (rl_committed l) a); [congruence|done]).
    rewrite Ec in Hlt |- *. unfold caught_up. rewrite replay_applied. destruct (rl_committed l) as [y|] eqn:Hc; [|by destruct (v_applied v)].
    pose proof (Hcom y eq_refl) as Hy. destruct (between_ids ls l _ y Hh Hord Hin Hy Hlt) as (Hn & x & Hx & Ex). rewrite Hx Ex.
    split; [done|]. split; [lia|]. split; [done|]. change (next_index (rl_purged l)) with (rl_first l). destruct (Z.ltb_spec (next_index (v_applied v)) (rl_first l)); [lia|].
    pose proof (in_log_next ls l (Some y) Hh Hy) as [_ He].
    destruct (reapply_ok l (Z.to_nat (next_index (Some y) - next_index (v_applied v))) (next_index (v_applied v)) (next_index (Some y)) (MkHelper ls sm) v o)
      as (s2 & Hrun & Hs2); [done|done|lia..|done|]. exists s2. by rewrite (bind_ok _ _ _ _ _ Hrun).
  - assert (entries_between l (next_index (v_applied v)) (next_index (rl_committed l)) = []) as Hnil.
    2:{ unfold caught_up. rewrite Hnil. split_and!; [done|done|unfold entries_between; by rewrite Z.sub_diag|by eauto]. }
    unfold entries_between. replace (Z.to_nat _) with 0%nat; [done|].
    enough (next_index (rl_committed l) ≤ next_index (v_applied v)) by lia. apply (committed_not_after ls l); auto. unfold c0 in Hlt.
      destruct (opt_log_id_lt (v_applied v) (rl_committed l)) eqn:E; [|done].
      destruct (opt_log_id_lt (rl_committed l) a) eqn:E2; [|congruence]. exfalso. apply opt_log_id_lt_spec in E, E2.
      assert (¬ opt_le a (v_applied v)) as Hna by (intros Ha; apply E2; eapply opt_le_trans; [exact Ha|]; destruct (opt_le_total (v_applied v) (rl_committed l)); tauto).
      apply opt_log_id_lt_spec in Hna. congruence.
Qed.

(** a node that starts again is the node that stopped. From a log storage that holds a log, and a state
    machine whose position, or that of its newer snapshot, is in the log, and which accepts the committed entries
    it has not applied, starting never fails and leaves the log as it
    is: the state has the vote that was saved, the compressed ids of the whole log and its purged position; the
    state machine has applied, once and in order, every entry up to the committed id; and the effective
    membership is the last one of the log, however far back it is. *)
Theorem get_initial_state_restores now ls sm l v o :
  lr_holds ls l → 0 ≤ rl_first l → leaders_ordered (ids_of l) → sm_at sm v o →
  in_log l (v_applied (restored v o)) → (∀ c, rl_committed l = Some c → c ∈ ids_of l) →
  let v1 := restored v o in
  accepted (v_data v1) (entries_between l (next_index (v_applied v1)) (next_index (rl_committed l))) →
  ∃ s sm1 sm2, get_initial_state now (MkHelper ls sm) = (Ok s, MkHelper ls sm2) ∧
    vote_ref s = default default_vote (rl_vote l) ∧ log_ids s = keys (ids_of l) ∧ purged_next s = rl_first l ∧ purge_upto s = rl_purged l
    ∧ sm_at sm1 (caught_up l v1) o
    ∧ (sm2 = sm1 ∨ is_Some (rl_purged l) ∧ ∃ snap, sm_build_snapshot sm1 = (Ok snap, sm2))
    ∧ committed s = v_applied (caught_up l v1)
    ∧ ms_effective (membership_state s) = new_from_stored_membership (membership_after (v_mem v1) (entries_from l (next_index (v_applied v1)))).
Proof.
  intros Hh Hpos Hord Hs Hin Hcom v1 Hacc. fold v1 in Hin.
  destruct (restore_ok (MkHelper ls sm) v o Hs) as (s1 & Hrestore & Hs1). simpl in Hrestore. fold v1 in Hs1.
  pose proof (restored_not_below v o) as Hnb. fold v1 in Hnb.
  destruct (catch_up_ok ls s1 l (v_applied v) v1 o Hh Hpos Hord Hs1 Hin Hcom Hnb Hacc) as (Hint & Hle & Hbtw & s2 & Happly & Hs2).
  set (v2 := caught_up l v1) in *.
  pose proof (in_log_next ls l _ Hh Hint) as [Hft _]. pose proof (in_log_next ls l _ Hh Hin) as [Hfa _].
  unfold get_initial_state.
  rewrite (bind_ok _ _ _ _ _ (on_log_read _ (MkHelper ls sm) _ (lr_vote ls l Hh))) (bind_ok _ _ _ _ _ (on_log_read _ (MkHelper ls sm) _ (lr_committed ls l Hh))).
  rewrite (bind_ok _ _ _ _ _ (on_log_read _ (MkHelper ls sm) _ (lr_state ls l Hh))) (bind_ok _ _ _ _ _ (on_sm_read _ (MkHelper ls sm) _ (sm_applied_ok _ _ _ Hs))).
  rewrite (bind_ok _ _ _ _ _ Hrestore) (bind_ok _ _ _ _ _ (on_sm_read _ (MkHelper ls s1) _ (sm_applied_ok _ _ _ Hs1))).
  rewrite (bind_ok _ _ _ _ _ Happly) (bind_ok _ _ _ _ _ (get_membership_ok (MkHelper ls s2) l _ _ Hh Hpos Hs2)).
  change (match last (rl_entries l) with Some e => _ | None => _ end) with (rl_last l). rewrite (last_is_greatest ls l (v_applied v2)) //.
  rewrite (bind_ok _ _ _ _ _ eq_refl) (bind_ok _ _ _ _ _ (key_log_ids_ok (MkHelper ls s2) l Hh Hord)).
  rewrite (bind_ok _ _ _ _ _ (on_sm_read _ (MkHelper ls s2) _ (sm_snapshot_ok _ _ _ Hs2))).
  assert (∃ s3 o', (match o, rl_purged l with
      | None, Some _ => let! s := on_sm sm_build_snapshot in ret (Some s)
      | s, _ => ret s end) (MkHelper ls s2) = (Ok o', MkHelper ls s3)
      ∧ (s3 = s2 ∨ is_Some (rl_purged l) ∧ ∃ snap, sm_build_snapshot s2 = (Ok snap, s3))) as (s3 & o' & Hsnap & Hs3).
  { destruct o as [snap|]; [by exists s2, (Some snap); auto|]. destruct (rl_purged l); [|by exists s2, None; auto].
    destruct (sm_build_ok _ _ Hs2) as (s3 & snap & Hb & _). exists s3, (Some snap). unfold bind, on_sm, zoom. simpl. rewrite Hb. by eauto. }
  rewrite (bind_ok _ _ _ _ _ Hsnap). eexists _, s2, s3. split; [reflexivity|]. split_and!; try done.
  cbn [membership_state]. rewrite start_effective -/(membership_after _ _) {1}/v2 replay_mem -membership_after_app. f_equal. f_equal.
  replace (Z.max (rl_first l) (next_index (v_applied v2))) with (next_index (v_applied v2)) by lia.
  by rewrite Hbtw -entries_from_split.
Qed.
End startup.
