(* ===== verification/RaftNet.v ===== *)
(** A group of engines over a network: the steps that the runtimes of several nodes take together.

    Each node runs the handlers of [core/raft_core.rs] on its engine. A message is what some engine
    has put out: the commands and the responses of every engine are kept for ever, so they may be delivered late,
    more than once or never, and in any order. A leader sends any stretch of its log while it leads, as
    its streams and its heartbeats do. The members do not change, there are no snapshots, and
    a node that stops does not come back. An application may tell a node to stand for election; in an orderly
    group it tells only nodes that do not lead. *)

From stdpp Require Import functions strings.
From S2P Require Import Prelude LogStore RaftQuorum RaftMembership RaftLogIds RaftProgress RaftState RaftEngine RaftCore.

#[local] Open Scope Z_scope.

(** * The log of a node *)

(** What a command does to the log; [execute] does the same to the log storage. *)
Definition log_effect (log : list MEntry) (c : Command) : list MEntry :=
  match c with
  | AppendEntries _ es => log ++ es
  | TruncateLog since => take (Z.to_nat (index since)) log
  | _ => log
  end.
Definition replay (log : list MEntry) (cs : list Command) : list MEntry := foldl log_effect log cs.

Lemma replay_app log a b : replay log (a ++ b) = replay (replay log a) b.
Proof. apply foldl_app. Qed.

(** * Events *)

Inductive Event :=
  | EvVoteRequest (req : VoteRequest) (tx : Z)
  | EvAppendEntries (req : AppendEntriesRequest) (tx : Z)
  | EvWrite (data : list Z)
  | EvNotify (n : Notification)
  | EvHeartbeat
  | EvElect
  | EvTransferTo (to : Z)
  | EvTransfer (from : Vote) (to : Z)
  | EvRoutine
  | EvSubmitted (i : IOId)
  | EvApplySubmitted (i : LogId).

(** The handler of an event in [RaftCore]; the last two are progress that [run_command] records. *)
Definition handle_event (rt : RuntimeConfig) (now : Z) (ev : Event) : M Engine unit :=
  match ev with
  | EvVoteRequest req tx => handle_vote_request now req tx
  | EvAppendEntries req tx => handle_append_entries_request now req tx
  | EvWrite data => let! _ := append_one (MkEntry default_log_id (Normal data)) in ret tt
  | EvNotify n => let! _ := handle_notification rt now n in ret tt
  | EvHeartbeat => handle_external now ExtHeartbeat
  | EvElect => handle_external now ExtElect
  | EvTransferTo to => handle_external now (ExtTransferLeader to)
  | EvTransfer from to => handle_transfer_leader now from to
  | EvRoutine => let! e := getS in match leader e with Some _ => initiate_replication | None => ret tt end
  | EvSubmitted i => with_log_progress (submit i)
  | EvApplySubmitted i => with_apply_progress (submit i)
  end.

(** * The world *)

Record World := MkWorld { wengine : Z → Engine; wreqs : list AppendEntriesRequest }.

(** The last id that a request carries: what its sender takes for stored when it succeeds. *)
Definition sent_last (r : AppendEntriesRequest) : option LogId :=
  match last (areq_entries r) with Some e => Some (log_id e) | None => areq_prev r end.

(** An I/O that a command starts. *)
Definition io_of (c : Command) : option IOId :=
  match c with
  | UpdateIOProgress _ i => Some i
  | AppendEntries v es => (λ e, new_log_io v (Some (log_id e))) <$> last es
  | SaveVote v => Some (new_io v)
  | _ => None
  end.

Section World.
Context (m0 : Membership) (cfgs : Z → EngineConfig).

Definition entry0 : MEntry := MkEntry default_log_id (LogStore.Membership m0).
Definition em0 : EffectiveMembership := em_new (Some default_log_id) m0.
Definition wlog (e : Engine) : list MEntry := replay [entry0] (output e).

(** A node of a group that has been initialized: the log has the members, and nothing else has happened. *)
Definition init_state : RaftState :=
  MkRaftState default_leased 0 [default_log_id] (MkMembershipState (em_new None default_membership) em0) default_snapshot_meta
    Learner (io_state_new default_vote None None None) None.
Definition init_engine (n : Z) : Engine := (startup 0 (engine_new init_state (cfgs n))).2.
Definition init_world : World := MkWorld init_engine [].

(** The notifications that can reach node [n]. *)
Inductive notified (w : World) (n : Z) : Notification → Prop :=
  | NotVote target cond resp tx v :
      RespondCmd cond (RespondVote resp) tx ∈ output (wengine w target) → notified w n (NVoteResponse target resp v)
  | NotOwnVote v :
      SaveVote v ∈ output (wengine w n) → vote_committed v = false →
      notified w n (NVoteResponse n (MkVoteResponse v true None) (vote_leader v))
  | NotHigherVote target cond v tx l :
      RespondCmd cond (RespondAppendEntries (HigherVote v)) tx ∈ output (wengine w target) → notified w n (NHigherVote target v l)
  | NotLocalIO c i : c ∈ output (wengine w n) → io_of c = Some i → notified w n (NLocalIO i)
  | NotMatching target cond tx r session payload :
      wreqs w !! Z.to_nat tx = Some r → areq_vote r = committed_into_vote (session_vote session) →
      RespondCmd cond (RespondAppendEntries Success) tx ∈ output (wengine w target) →
      (** the responses of one stream arrive in order *)
      (∀ l ent, leader (wengine w n) = Some l → try_get target (progress l) = Some ent → opt_le (matching ent) (sent_last r)) →
      notified w n (NReplicationProgress payload session target (Okay (Okay (sent_last r))))
  | NotConflict target p session payload :
      notified w n (NReplicationProgress payload session target (Okay (Failed p)))
  | NotFailed target err session payload :
      notified w n (NReplicationProgress payload session target (Failed err))
  | NotHeartbeat session t target : notified w n (NHeartbeatProgress session t target)
  | NotApplied i : notified w n (NStateMachine (Okay (ApplyDone i)))
  | NotTick i : notified w n (NTick i).

(** The events that can reach node [n]. *)
Inductive delivered (w : World) (n : Z) : Event → Prop :=
  | DelVoteRequest m req tx :
      SendVote req ∈ output (wengine w m) → m ≠ n → delivered w n (EvVoteRequest req tx)
  | DelAppendEntries req tx :
      wreqs w !! Z.to_nat tx = Some req → node_id (vote_leader (areq_vote req)) ≠ n → delivered w n (EvAppendEntries req tx)
  | DelWrite data : delivered w n (EvWrite data)
  | DelNotify x : notified w n x → delivered w n (EvNotify x)
  | DelHeartbeat : delivered w n EvHeartbeat
  | DelElect : delivered w n EvElect
  | DelTransferTo to : delivered w n (EvTransferTo to)
  | DelTransfer m req :
      BroadcastTransferLeader req ∈ output (wengine w m) → m ≠ n →
      delivered w n (EvTransfer (from_leader req) (transfer_node req))
  | DelRoutine : delivered w n EvRoutine
  | DelSubmitted i : delivered w n (EvSubmitted i)
  | DelApplySubmitted i : delivered w n (EvApplySubmitted i).

(** Node [n] as a leader sends the entries from [i] to [j], with what it, or a part of it, has committed. *)
Definition stretch (log : list MEntry) (l : CommittedVote) (i j : nat) (c : option LogId) : AppendEntriesRequest :=
  MkAppendReq (committed_into_vote l) (log_id <$> last (take i log)) (take (j - i) (drop i log)) c.

Inductive wstep_if (allowed : Engine → Event → Prop) : World → World → Prop :=
  | WHandle w n rt now ev e' :
      delivered w n ev → allowed (wengine w n) ev → handle_event rt now ev (wengine w n) = (Ok tt, e') →
      wstep_if allowed w (MkWorld (<[n := e']> (wengine w)) (wreqs w))
  | WSend w n l i j k :
      leader (wengine w n) = Some l → (i ≤ j ≤ length (wlog (wengine w n)))%nat →
      Z.of_nat k ≤ next_index (committed (state (wengine w n))) →
      wstep_if allowed w (MkWorld (wengine w)
        (wreqs w ++ [stretch (wlog (wengine w n)) (leader_vote l) i j (log_id <$> last (take k (wlog (wengine w n))))])).

(** An application that tells only nodes that do not lead to stand for election ([ExternalCommand::Elect]). *)
Definition orderly (e : Engine) (ev : Event) : Prop := ev = EvElect → leader e = None.
Definition wstep : World → World → Prop := wstep_if orderly.
Definition reachable_world (w : World) : Prop := rtc wstep init_world w.

(** Without that restriction. *)
Definition reachable_anyhow (w : World) : Prop := rtc (wstep_if (λ _ _, True)) init_world w.

End World.
