(* ===== verification/RaftSim.v ===== *)
(** What relates a group of engines to the protocol: the invariant of a node and of a message, and
    that they survive the steps of other nodes.

    The ghost state [Ghost] is a state of the protocol with the payload of every entry that a leader has
    made. The parts of a node's state are tied to it by [node_ok]: its vote and its log are those
    of the protocol, a candidate has the evidence of the votes it counts, a leader that of the
    acknowledgements it counts, and what it holds for committed is chosen. *)

From stdpp Require Import functions strings.
From S2P Require Import Prelude LogStore RaftQuorum RaftMembership RaftLogIds RaftProgress RaftState RaftEngine RaftCore RaftNet RaftProtocol.

#[local] Open Scope Z_scope.

Abbreviation pos x := (Z.to_nat (index x)).

Record Ghost := MkGhost { gnet :> Net; gcontent : LogId → option (EntryPayload Membership) }.

(** A vote that some node has or has sent: the node it names has it too, and a leader is behind a committed one. *)
Definition known (s : Net) (v : Vote) : Prop :=
  vle v (nvote s (node_id (vote_leader v))) ∧ (vote_committed v = true → is_Some (llog s (vote_leader v))).

(** An id of the log of leader [L]. *)
Definition in_llog (s : Net) (L : LeaderId) (x : LogId) : Prop :=
  ∃ lg, llog s L = Some lg ∧ lg !! pos x = Some x.

(** Node [m] has acknowledged the log of [L] up to [x]. *)
Definition acked (s : Net) (m : Z) (L : LeaderId) (x : LogId) : Prop :=
  in_llog s L x ∧ ∃ k, (pos x < k)%nat ∧ (m, L, k) ∈ acks s.

(** The log of [n] is that of [L] up to [x]. *)
Definition shares (s : Net) (n : Z) (L : LeaderId) (x : LogId) : Prop :=
  ∃ lg, llog s L = Some lg ∧ lg !! pos x = Some x ∧ take (S (pos x)) (nlog s n) = take (S (pos x)) lg.

(** All logs begin with the entry of the members. *)
Definition heads (s : Net) : Prop :=
  (∀ n, nlog s n !! 0%nat = Some default_log_id) ∧ (∀ L lg, llog s L = Some lg → lg !! 0%nat = Some default_log_id).

Definition content_ok (g : Ghost) (x : MEntry) : Prop := gcontent g (log_id x) = Some (payload x).

(** Node [n] moves the protocol on. *)
Definition grows (n : Z) (g g' : Ghost) : Prop :=
  extends (llog g) (llog g') ∧ reqs g ⊆ reqs g' ∧ grants g ⊆ grants g' ∧ acks g ⊆ acks g'
  ∧ (∀ m, m ≠ n → nvote g' m = nvote g m ∧ nlog g' m = nlog g m)
  ∧ vle (nvote g n) (nvote g' n)
  ∧ (∀ x p, gcontent g x = Some p → gcontent g' x = Some p).

Lemma grows_refl n g : grows n g g.
Proof. split_and!; auto using extends_refl, vle_refl. Qed.

Lemma extends_trans a b c : extends a b → extends b c → extends a c.
Proof.
  intros Hab Hbc L lg HL. destruct (Hab L lg HL) as [r Hr]. destruct (Hbc L _ Hr) as [r' Hr'].
  exists (r ++ r'). by rewrite app_assoc.
Qed.

Lemma grows_trans n a b c : grows n a b → grows n b c → grows n a c.
Proof.
  intros (H1 & H2 & H3 & H4 & H5 & H6 & H7) (I1 & I2 & I3 & I4 & I5 & I6 & I7). split_and!.
  - by eapply extends_trans.
  - by etrans.
  - by etrans.
  - by etrans.
  - intros m Hm. destruct (H5 m Hm), (I5 m Hm). split; congruence.
  - by eapply vle_trans.
  - auto.
Qed.

(** The vote and the log of node [m] stay. *)
Definition same_at (m : Z) (g g' : Net) : Prop := nvote g' m = nvote g m ∧ nlog g' m = nlog g m.

Lemma grows_other n g g' m : grows n g g' → m ≠ n → same_at m g g'.
Proof. intros (_ & _ & _ & _ & Ho & _) Hm. by apply Ho. Qed.

Lemma grows_vote n g g' m : grows n g g' → vle (nvote g m) (nvote g' m).
Proof.
  intros (_ & _ & _ & _ & Ho & Hn & _). destruct (decide (m = n)) as [->|Hne]; [done|].
  destruct (Ho m Hne) as [-> _]. apply vle_refl.
Qed.

Lemma known_grows n g g' v : grows n g g' → known g v → known g' v.
Proof.
  intros Hg [Hv Hc]. split; [eapply vle_trans; [done|by eapply grows_vote]|].
  intros Hcm. destruct (Hc Hcm) as [lg Hlg]. destruct Hg as (He & _). destruct (He _ _ Hlg) as [r Hr]. by eexists.
Qed.

Lemma in_llog_grows n g g' L x : grows n g g' → in_llog g L x → in_llog g' L x.
Proof.
  intros (He & _) (lg & HL & Hx). destruct (He _ _ HL) as [r Hr]. exists (lg ++ r). split; [done|].
  by apply lookup_app_l_Some.
Qed.

Lemma acked_grows n g g' m L x : grows n g g' → acked g m L x → acked g' m L x.
Proof.
  intros Hg (Hin & k & Hk & Ha). split; [by eapply in_llog_grows|]. exists k. split; [done|].
  destruct Hg as (_ & _ & _ & Hacks & _). by apply Hacks.
Qed.

Lemma shares_grows n g g' m L x :
  grows n g g' → take (S (pos x)) (nlog g' m) = take (S (pos x)) (nlog g m) → shares g m L x → shares g' m L x.
Proof.
  intros (He & _) Ht (lg & HL & Hx & Hs). destruct (He _ _ HL) as [r Hr]. exists (lg ++ r).
  split_and!; [done|by apply lookup_app_l_Some|]. rewrite Ht Hs take_app_le //. apply lookup_lt_Some in Hx. lia.
Qed.

Section Node.
Context (m0 : Membership).

Abbreviation qs := (to_quorum_set m0).

Lemma chosen_grows n g g' L k : grows n g g' → chosen qs g L k → chosen qs g' L k.
Proof.
  intros (He & _ & _ & Ha & _) (lg & x & l & HL & Hk & Hx & HxL & Hnd & Hq & Hacks).
  destruct (He _ _ HL) as [r Hr]. exists (lg ++ r), x, l. split_and!; try done.
  - by apply lookup_app_l_Some.
  - intros m Hm. destruct (Hacks m Hm) as (k' & ? & Hin). exists k'. split; [done|]. by apply Ha.
Qed.

(** [x] is committed under a leader that is not after [L]. *)
Definition cid (s : Net) (L : LeaderId) (x : LogId) : Prop :=
  ∃ L1 k, chosen qs s L1 k ∧ in_llog s L1 x ∧ (pos x < k)%nat ∧ leader_id_le L1 L.

Lemma cid_grows n g g' L x : grows n g g' → cid g L x → cid g' L x.
Proof.
  intros Hg (L1 & k & Hc & Hin & Hk & Hle). exists L1, k. split_and!; eauto using chosen_grows, in_llog_grows.
Qed.

(** * The parts of a node *)

(** What the node holds for accepted. *)
Definition acc_ok (s : Net) (n : Z) (a : IOId) : Prop :=
  to_app_vote a = nvote s n
  ∧ match a with IOLog (MkLogIOId L (Some x)) => shares s n L x | _ => True end.

Definition cluster_ok (s : Net) (c : LogIOId) : Prop := ∀ x, io_log_id c = Some x → cid s (committed_vote c) x.

Definition commit_ok (s : Net) (n : Z) (x : LogId) : Prop :=
  ∃ L1 k, chosen qs s L1 k ∧ (pos x < k)%nat ∧ vle (MkVote L1 true) (nvote s n) ∧ shares s n L1 x.

Definition cand_ok (s : Net) (n : Z) (c : Candidate) : Prop :=
  cand_vote c = nvote s n ∧ vote_committed (cand_vote c) = false ∧ node_id (vote_leader (cand_vote c)) = n
  ∧ (vote_leader (cand_vote c), cand_last_log_id c) ∈ reqs s
  ∧ cand_quorum_set c = qs ∧ cand_learner_ids c = learner_ids m0
  ∧ vp_ok (cand_progress c) ∧ vp_quorum_set (cand_progress c) = qs
  ∧ ∀ x, x ∈ entries (cand_progress c) → pval x = true → ∃ gl, (pid x, vote_leader (cand_vote c), gl) ∈ grants s.

Definition progress_ok (s : Net) (L : LeaderId) (p : VecProgress ProgressEntry (option LogId)) : Prop :=
  vp_ok p ∧ vp_quorum_set p = qs
  ∧ (∀ x, x ∈ voters p → pid x ∈ ids qs)
  ∧ (∀ x y, x ∈ entries p → matching (pval x) = Some y → acked s (pid x) L y)
  ∧ (∀ y, quorum_accepted p = Some y → in_llog s L y)
  ∧ (∀ x, x ∈ entries p → entry_allow_log_reversion (pval x) = false).

(** The first id of a leader's own: what it had before comes before it. *)
Definition noop_ok (s : Net) (n : Z) (l : Leader) : Prop :=
  leader_id (noop_log_id l) = leader_vote l
  ∧ ∀ x, x ∈ nlog s n → leader_id x = leader_vote l ∨ index x < index (noop_log_id l).

Definition leader_ok (s : Net) (n : Z) (st : RaftState) (l : Leader) : Prop :=
  nvote s n = MkVote (leader_vote l) true ∧ node_id (leader_vote l) = n
  ∧ leader_last_log_id l = last (nlog s n) ∧ server_state st = LeaderState
  ∧ progress_ok s (leader_vote l) (progress l) ∧ noop_ok s n l.

(** A request carries a stretch of its leader's log. *)
Definition req_ok (g : Ghost) (r : AppendEntriesRequest) : Prop :=
  ∃ L lg i j, areq_vote r = MkVote L true ∧ known g (MkVote L true) ∧ llog g L = Some lg ∧ (i ≤ j ≤ length lg)%nat
    ∧ areq_prev r = last (take i lg) ∧ map log_id (areq_entries r) = take (j - i) (drop i lg)
    ∧ (∀ x, x ∈ areq_entries r → content_ok g x)
    ∧ (∀ x, areq_commit r = Some x → cid g L x).

Definition req_acked (s : Net) (n : Z) (r : AppendEntriesRequest) : Prop :=
  ∀ x, sent_last r = Some x → acked s n (vote_leader (areq_vote r)) x.

(** What a node has put out. *)
Definition cmd_ok (s : Net) (rq : list AppendEntriesRequest) (n : Z) (c : Command) : Prop :=
  match c with
  | SendVote req => ∃ L, vreq_vote req = MkVote L false ∧ node_id L = n ∧ (L, vreq_last_log_id req) ∈ reqs s
  | SaveVote v =>
      vote_committed v = false → node_id (vote_leader v) = n → ∃ gl, (n, vote_leader v, gl) ∈ grants s
  | RespondCmd _ (RespondVote r) _ =>
      known s (vresp_vote r)
      ∧ (vote_granted r = true → vote_committed (vresp_vote r) = false → ∃ gl, (n, vote_leader (vresp_vote r), gl) ∈ grants s)
  | RespondCmd _ (RespondAppendEntries Success) tx => ∃ r, rq !! Z.to_nat tx = Some r ∧ req_acked s n r
  | RespondCmd _ (RespondAppendEntries (HigherVote v)) _ => known s v
  | AppendEntries L es => node_id L = n → ∀ x, last es = Some x → in_llog s L (log_id x)
  | UpdateIOProgress _ (IOLog (MkLogIOId L (Some x))) => node_id L = n → in_llog s L x
  | BroadcastTransferLeader req => node_id (vote_leader (from_leader req)) = n ∧ vote_committed (from_leader req) = true
  | _ => True
  end.

(** A node, without what it does as a proposer. *)
Record base_ok (g : Ghost) (rq : list AppendEntriesRequest) (n : Z) (e : Engine) : Prop := {
  ok_id : cfg_id (config e) = n;
  ok_cfg : allow_log_reversion (config e) = false;
  ok_vote : vote_ref (state e) = nvote g n;
  ok_log : map log_id (wlog m0 e) = nlog g n;
  ok_content x : x ∈ wlog m0 e → content_ok g x;
  ok_ids : log_ids (state e) = keys (nlog g n);
  ok_em : ms_effective (membership_state (state e)) = em0 m0;
  ok_purge : purge_upto (state e) = None;
  ok_acc a : accepted (log_progress (io_state (state e))) = Some a → acc_ok g n a;
  ok_cluster c : cluster_committed (io_state (state e)) = Some c → cluster_ok g c;
  ok_committed x : committed (state e) = Some x → commit_ok g n x;
  ok_out c : c ∈ output e → cmd_ok g rq n c
}.

Record node_ok (g : Ghost) (rq : list AppendEntriesRequest) (n : Z) (e : Engine) : Prop := {
  ok_base : base_ok g rq n e;
  ok_cand c : candidate e = Some c → cand_ok g n c;
  ok_leader l : leader e = Some l → leader_ok g n (state e) l;
  ok_leading : is_leader (state e) n = true → leader e ≠ None
}.

(** * They survive the steps of other nodes *)

Lemma cluster_ok_grows n g g' c : grows n g g' → cluster_ok g c → cluster_ok g' c.
Proof. intros Hg Hc x Hx. eapply cid_grows; eauto. Qed.

Lemma acc_ok_grows n g g' m a : grows n g g' → same_at m g g' → acc_ok g m a → acc_ok g' m a.
Proof.
  intros Hg [Hov Hol] [Hv Ha].
  split; [congruence|]. destruct a as [|[L [x|]]]; try done. eapply shares_grows; eauto. by rewrite Hol.
Qed.

Lemma commit_ok_grows n g g' m x :
  grows n g g' → take (S (pos x)) (nlog g' m) = take (S (pos x)) (nlog g m) → commit_ok g m x → commit_ok g' m x.
Proof.
  intros Hg Ht (L1 & k & Hc & Hk & Hv & Hs). exists L1, k.
  split_and!; eauto using chosen_grows, shares_grows. eapply vle_trans; [done|by eapply grows_vote].
Qed.

Lemma cand_ok_grows n g g' m c : grows n g g' → same_at m g g' → cand_ok g m c → cand_ok g' m c.
Proof.
  intros Hg [Hov _] (H1 & H2 & H3 & H4 & H5 & H6 & H7 & H8 & H9). pose proof Hg as (_ & Hr & Hgr & _).
  split_and!; try done; [congruence|by apply Hr|].
  intros x Hx Hp. destruct (H9 x Hx Hp) as [gl Hgl]. exists gl. by apply Hgr.
Qed.

Lemma progress_ok_grows n g g' L p : grows n g g' → progress_ok g L p → progress_ok g' L p.
Proof.
  intros Hg (H1 & H2 & H3 & H4 & H5 & H6). split_and!; try done; eauto using acked_grows, in_llog_grows.
Qed.

Lemma leader_ok_grows n g g' m st l : grows n g g' → same_at m g g' → leader_ok g m st l → leader_ok g' m st l.
Proof.
  intros Hg [Hov Hol] (H1 & H2 & H3 & H4 & H5 & H6).
  split; [congruence|]. split; [done|]. split; [congruence|]. split; [done|]. split; [by eapply progress_ok_grows|].
  unfold noop_ok. by rewrite Hol.
Qed.

Lemma req_ok_grows n g g' r : grows n g g' → req_ok g r → req_ok g' r.
Proof.
  intros Hg (L & lg & i & j & H1 & H0 & H2 & H3 & H4 & H5 & H6 & H7). pose proof Hg as (He & _ & _ & _ & _ & _ & Hct).
  destruct (He _ _ H2) as [rest Hr]. exists L, (lg ++ rest), i, j. split_and!; try done.
  - by eapply known_grows.
  - lia.
  - rewrite length_app. lia.
  - by rewrite take_app_le; [lia|].
  - rewrite drop_app_le; [lia|]. rewrite take_app_le //. rewrite length_drop. lia.
  - intros x Hx. apply Hct. by apply H6.
  - intros x Hx. eapply cid_grows; eauto.
Qed.

Lemma cmd_ok_grows n g g' rq m c : grows n g g' → cmd_ok g rq m c → cmd_ok g' rq m c.
Proof.
  intros Hg. pose proof Hg as (_ & Hr & Hgr & _). unfold cmd_ok.
  destruct c as [w i|L es| | | | | | |v|req| | | |w r tx]; try done.
  - destruct i as [|[L [x|]]]; try done. intros Hc ?. eapply in_llog_grows; eauto.
  - intros Hc ? x Hx. eapply in_llog_grows; eauto.
  - intros Hs Hc Hn. destruct (Hs Hc Hn) as [gl Hgl]. exists gl. by apply Hgr.
  - intros (L & ? & ? & Hin). exists L. split_and!; [done|done|by apply Hr].
  - destruct r as [vr|a| |]; try done.
    + intros [Hk Hc]. split; [by eapply known_grows|]. intros H1 H2. destruct (Hc H1 H2) as [gl Hgl].
      exists gl. by apply Hgr.
    + destruct a; try done.
      * intros (r & Hr' & Hc). exists r. split; [done|]. intros x Hx. eapply acked_grows; [done|]. by apply Hc.
      * by eapply known_grows.
Qed.

Lemma base_ok_grows n g g' rq m e : grows n g g' → same_at m g g' → base_ok g rq m e → base_ok g' rq m e.
Proof.
  intros Hg Hs [H1 H2 H3 H4 H5 H6 H7 H8 H9 H10 H11 H12].
  pose proof Hg as (_ & _ & _ & _ & _ & _ & Hct). pose proof Hs as [Hov Hol]. split; try done.
  - congruence.
  - congruence.
  - intros x Hx. by apply Hct, H5.
  - congruence.
  - eauto using acc_ok_grows.
  - eauto using cluster_ok_grows.
  - intros x Hx. eapply commit_ok_grows; eauto. by rewrite Hol.
  - eauto using cmd_ok_grows.
Qed.

Lemma node_ok_grows n g g' rq m e : grows n g g' → same_at m g g' → node_ok g rq m e → node_ok g' rq m e.
Proof. intros Hg Hm []. split; eauto using base_ok_grows, cand_ok_grows, leader_ok_grows. Qed.

(** A request more changes nothing. *)
Lemma cmd_ok_send g rq n c r : cmd_ok g rq n c → cmd_ok g (rq ++ [r]) n c.
Proof.
  destruct c as [| | | | | | | | | | | | |w q tx]; try done. destruct q as [|a| |]; try done.
  destruct a; try done. intros (r' & Hr' & Hc). exists r'. split; [by apply lookup_app_l_Some|done].
Qed.

Lemma node_ok_send g rq n e r : node_ok g rq n e → node_ok g (rq ++ [r]) n e.
Proof. intros [[] ? ? ?]; split; [|done..]. split; eauto using cmd_ok_send. Qed.

(** * The protocol's steps *)

Definition ghost_ok (g : Ghost) : Prop :=
  net_inv qs g ∧ (∀ m, known g (nvote g m)) ∧ heads g
  ∧ (∀ x p, gcontent g x = Some p → in_llog g (leader_id x) x)
  ∧ (∀ x m, gcontent g x = Some (LogStore.Membership m) → x = default_log_id).

(** Node [n] takes steps of the protocol. *)
Definition evolves (n : Z) (g g' : Ghost) : Prop := rtc (pstep qs) g g' ∧ grows n g g'.

Lemma evolves_refl n g : evolves n g g.
Proof. split; [done|apply grows_refl]. Qed.

Lemma evolves_trans n a b c : evolves n a b → evolves n b c → evolves n a c.
Proof. intros [? ?] [? ?]. split; [by etrans|by eapply grows_trans]. Qed.

Context (Hmeet : quorums_meet qs qs).

Lemma ghost_step n (g g' : Ghost) :
  ghost_ok g → pstep qs g g' → grows n g g' → known g' (nvote g' n) → heads g' →
  (∀ x p, gcontent g' x = Some p → gcontent g x = Some p ∨ in_llog g' (leader_id x) x ∧ ∀ m, p ≠ LogStore.Membership m) →
  ghost_ok g' ∧ evolves n g g'.
Proof.
  intros (Hinv & Hk & _ & Hct & Hcm) Hstep Hg Hkn Hh Hct'. split.
  - split; [by eapply pstep_inv|]. split; [|split; [done|]].
    + intros m. destruct (decide (m = n)) as [->|Hne]; [done|]. pose proof Hg as (_ & _ & _ & _ & Ho & _).
      destruct (Ho m Hne) as [-> _]. by eapply known_grows.
    + split.
      * intros x p Hx. destruct (Hct' x p Hx) as [Hx'|[? _]]; [|done]. eapply in_llog_grows; [done|by eapply Hct].
      * intros x m Hx. destruct (Hct' x _ Hx) as [Hx'|[_ Hm]]; [by eapply Hcm|by destruct (Hm m)].
  - split; [by apply rtc_once|done].
Qed.

Abbreviation up g s := (MkGhost s (gcontent g)).

Ltac grow := split_and!; simpl; auto using extends_refl, vle_refl; try (intros m Hm; rewrite !fn_lookup_insert_ne; [done|done..]); try set_solver.

Lemma ghost_raise n g v :
  ghost_ok g → known g v → vle (nvote g n) v → node_id (vote_leader v) ≠ n →
  ghost_ok (up g (set_nvote n v g)) ∧ evolves n g (up g (set_nvote n v g)).
Proof.
  intros Hok Hkn Hv Hn. apply ghost_step; try done.
  - by apply PRaise.
  - grow. by rewrite fn_lookup_insert.
  - simpl. rewrite fn_lookup_insert. split; [|apply Hkn]. simpl. rewrite fn_lookup_insert_ne //. apply Hkn.
  - apply Hok.
  - auto.
Qed.

Lemma ghost_elect n g L :
  ghost_ok g → node_id L = n → vle (nvote g n) (MkVote L false) → nvote g n ≠ MkVote L false →
  let g' := up g (add_req (L, last (nlog g n)) (set_nvote n (MkVote L false) g)) in ghost_ok g' ∧ evolves n g g'.
Proof.
  intros Hok Hn Hv Hne g'. apply ghost_step; try done.
  - by apply PElect.
  - grow. by rewrite fn_lookup_insert.
  - simpl. rewrite fn_lookup_insert. split; [|done]. simpl. rewrite Hn fn_lookup_insert. apply vle_refl.
  - apply Hok.
  - auto.
Qed.

Lemma ghost_grant n g L lst :
  ghost_ok g → (L, lst) ∈ reqs g → nvote g n = MkVote L false → opt_le (last (nlog g n)) lst →
  let g' := up g (add_grant (n, L, nlog g n) (set_nvote n (MkVote L false) g)) in ghost_ok g' ∧ evolves n g g'.
Proof.
  intros Hok Hreq Hv Hle g'. pose proof Hok as (Hinv & Hk & _). apply ghost_step; try done.
  - apply (PGrant _ _ _ _ lst); [done|rewrite Hv; apply vle_refl|done].
  - grow. rewrite fn_lookup_insert Hv. apply vle_refl.
  - simpl. rewrite fn_lookup_insert. split; [|done]. simpl. destruct (decide (n = node_id L)) as [->|Hne].
    + rewrite fn_lookup_insert. apply vle_refl.
    + rewrite fn_lookup_insert_ne //. specialize (Hk n). rewrite Hv in Hk. apply Hk.
  - apply Hok.
  - auto.
Qed.

Lemma ghost_establish n g L l :
  ghost_ok g → node_id L = n → nvote g n = MkVote L false →
  NoDup l → is_quorum qs l = true → (∀ m, m ∈ l → ∃ lg, (m, L, lg) ∈ grants g) →
  let g' := up g (set_llog L (nlog g n) (set_nvote n (MkVote L true) g)) in ghost_ok g' ∧ evolves n g g'.
Proof.
  intros Hok Hn Hv Hnd Hq Hgr g'. pose proof Hok as (Hinv & Hk & Hh & _).
  assert (llog g L = None) as HL.
  { destruct (llog g L) as [lg|] eqn:HL; [|done]. exfalso.
    destruct (Hgr (hd 0 l)) as [gl Hgl].
    { destruct (Hmeet l l Hnd Hnd Hq Hq) as (x & Hx & _). destruct l; [by apply elem_of_nil in Hx|]. set_solver. }
    destruct (inv_grants _ _ Hinv _ _ _ Hgl) as (_ & _ & lst & Hreq & _).
    destruct (inv_reqs _ _ Hinv _ _ Hreq) as [Hd _].
    destruct (inv_llog_vote _ _ Hinv L lg HL) as [->|Hle]; [by apply leader_id_lt_irrefl in Hd|].
    rewrite Hn Hv in Hle. destruct Hle as [Hlt|[_ Hc]]; [by apply leader_id_lt_irrefl in Hlt|]. discriminate (Hc eq_refl). }
  apply ghost_step; try done.
  - by apply (PEstablish _ _ _ _ l).
  - grow.
    + by apply extends_establish.
    + rewrite fn_lookup_insert Hv. right. auto.
  - simpl. rewrite fn_lookup_insert. split; simpl.
    + rewrite Hn fn_lookup_insert. apply vle_refl.
    + intros _. rewrite fn_lookup_insert. done.
  - destruct Hh as [Hh1 Hh2]. split; [done|]. simpl. intros M lg. destruct (decide (L = M)) as [<-|Hne].
    + rewrite fn_lookup_insert. intros [= <-]. apply Hh1.
    + rewrite fn_lookup_insert_ne //. apply Hh2.
  - auto.
Qed.

Lemma ghost_append n g L p :
  ghost_ok g → node_id L = n → nvote g n = MkVote L true → (∀ m, p ≠ LogStore.Membership m) →
  let x := MkLogId L (len (nlog g n)) in
  let g' := MkGhost (set_llog L (nlog g n ++ [x]) (set_nlog n (nlog g n ++ [x]) g)) (<[x := Some p]> (gcontent g)) in
  ghost_ok g' ∧ evolves n g g' ∧ gcontent g x = None.
Proof.
  intros Hok Hn Hv Hnm x g'. pose proof Hok as (Hinv & Hk & Hh & Hct & _).
  pose proof (inv_leader _ _ Hinv n L Hv Hn) as HL.
  assert (gcontent g x = None) as Hfresh.
  { destruct (gcontent g x) as [q|] eqn:Hx; [|done]. exfalso. destruct (Hct x q Hx) as (lg & HL' & Hlg). simpl in *.
    rewrite HL in HL'. injection HL' as <-. apply lookup_lt_Some in Hlg. unfold len in Hlg. lia. }
  assert (ghost_ok g' ∧ evolves n g g') as [? ?]; [|done]. apply ghost_step; try done.
  - by apply PAppend.
  - grow.
    + by apply extends_append.
    + intros y q Hy. rewrite fn_lookup_insert_ne //. intros <-. congruence.
  - simpl. specialize (Hk n). rewrite Hv in Hk |- *. split; [apply Hk|]. simpl. intros _. by rewrite fn_lookup_insert.
  - destruct Hh as [Hh1 Hh2]. split; simpl.
    + intros m. destruct (decide (n = m)) as [<-|Hne]; [|rewrite fn_lookup_insert_ne //].
      rewrite fn_lookup_insert. by apply lookup_app_l_Some.
    + intros M lg. destruct (decide (L = M)) as [<-|Hne]; [|rewrite fn_lookup_insert_ne //; apply Hh2].
      rewrite fn_lookup_insert. intros [= <-]. by apply lookup_app_l_Some.
  - intros y q. simpl. destruct (decide (x = y)) as [<-|Hne]; [|rewrite fn_lookup_insert_ne //; auto].
    rewrite fn_lookup_insert. intros [= <-]. right. split; [|done]. exists (nlog g n ++ [x]). simpl.
    rewrite fn_lookup_insert. split; [done|]. unfold len. rewrite Nat2Z.id. by apply list_lookup_middle.
Qed.

(** A node that follows [L]: what it accepts and what it drops. *)
Lemma ghost_accept n g L lg i j :
  ghost_ok g → node_id L ≠ n → llog g L = Some lg → nvote g n = MkVote L true →
  (i ≤ j ≤ length lg)%nat → (i ≤ length (nlog g n))%nat → take i (nlog g n) = take i lg →
  let g' := up g (add_ack (n, L, j) (set_nlog n (accept_log (nlog g n) lg j) (set_nvote n (MkVote L true) g))) in
  ghost_ok g' ∧ evolves n g g'.
Proof.
  intros Hok Hn HL Hv Hij Hi Ht g'. pose proof Hok as (Hinv & Hk & Hh & _). apply ghost_step; try done.
  - apply (PAccept _ _ _ _ _ i j); try done. rewrite Hv. apply vle_refl.
  - grow. rewrite fn_lookup_insert Hv. apply vle_refl.
  - simpl. rewrite fn_lookup_insert. specialize (Hk n). rewrite Hv in Hk. split; [|apply Hk].
    simpl. rewrite fn_lookup_insert_ne //. apply Hk.
  - destruct Hh as [Hh1 Hh2]. split; [|done]. simpl. intros m. destruct (decide (n = m)) as [<-|Hne]; [|rewrite fn_lookup_insert_ne //].
    rewrite fn_lookup_insert. unfold accept_log. case_bool_decide as Hj; [done|].
    rewrite lookup_take_lt; [|by apply (Hh2 L)]. destruct j; [done|lia].
  - auto.
Qed.

Lemma ghost_reject n g L lg i x :
  ghost_ok g → node_id L ≠ n → llog g L = Some lg → nvote g n = MkVote L true →
  lg !! i = Some x → nlog g n !! i ≠ Some x →
  let g' := up g (set_nlog n (take i (nlog g n)) (set_nvote n (MkVote L true) g)) in
  ghost_ok g' ∧ evolves n g g'.
Proof.
  intros Hok Hn HL Hv Hx Hnx g'. pose proof Hok as (Hinv & Hk & Hh & _). apply ghost_step; try done.
  - apply (PReject _ _ _ _ lg i x); try done. rewrite Hv. apply vle_refl.
  - grow. rewrite fn_lookup_insert Hv. apply vle_refl.
  - simpl. rewrite fn_lookup_insert. specialize (Hk n). rewrite Hv in Hk. split; [|apply Hk].
    simpl. rewrite fn_lookup_insert_ne //. apply Hk.
  - destruct Hh as [Hh1 Hh2]. split; [|done]. simpl. intros m. destruct (decide (n = m)) as [<-|Hne]; [|rewrite fn_lookup_insert_ne //].
    rewrite fn_lookup_insert. rewrite lookup_take_lt; [|done]. destruct i; [|lia].
    rewrite (Hh2 L lg HL) in Hx. rewrite Hh1 in Hnx. congruence.
  - auto.
Qed.

Lemma ghost_ack_self n g L lg k :
  ghost_ok g → node_id L = n → nvote g n = MkVote L true → llog g L = Some lg → (k ≤ length lg)%nat →
  ghost_ok (up g (add_ack (n, L, k) g)) ∧ evolves n g (up g (add_ack (n, L, k) g)).
Proof.
  intros Hok Hn Hv HL Hkl. pose proof Hok as (Hinv & Hk & Hh & _). apply ghost_step; try done.
  - by apply (PAckSelf _ _ _ _ lg).
  - grow.
  - specialize (Hk n). done.
  - auto.
Qed.

End Node.
