(* ===== verification/RaftSimVote.v ===== *)
(** The engine takes steps of the protocol: votes and elections.

    Each lemma runs a handler on a node that satisfies the invariant, and gives steps of the
    protocol after which it satisfies it again. A run that panics has nothing to show: such a node stops. *)

From stdpp Require Import functions strings.
From S2P Require Import Prelude LogStore RaftQuorum RaftMembership RaftLogIds RaftProgress RaftState RaftEngine RaftCore RaftNet RaftProtocol RaftSim.

#[local] Open Scope Z_scope.

(** * Runs that end well *)

Definition okpost {A S} (Q : A → S → Prop) (o : outcome A) (s : S) : Prop :=
  match o with Ok a => Q a s | _ => True end.

Lemma wpo_bind {S A B} (m : M S A) (k : A → M S B) Q s :
  wp m (okpost (λ a, wp (k a) (okpost Q))) s → wp (bind m k) (okpost Q) s.
Proof. rewrite /wp /bind. by destruct (m s) as [[] ?]. Qed.

Lemma wpo_mono {S A} (m : M S A) (Q Q' : A → S → Prop) s :
  wp m (okpost Q) s → (∀ a s', Q a s' → Q' a s') → wp m (okpost Q') s.
Proof. rewrite /wp. destruct (m s) as [[] ?]; simpl; auto. Qed.

Lemma wpo_run {S A} (m : M S A) (Q : A → S → Prop) s a s' : m s = (Ok a, s') → wp m (okpost Q) s → Q a s'.
Proof. rewrite /wp. by intros ->. Qed.

(** One construct of the computation; the operations of the engine are unfolded down to it. *)
Ltac run_step :=
  lazymatch goal with
  | |- wp (bind _ _) _ _ => apply wpo_bind
  | |- wp (ret _) _ _ => apply wp_ret; cbn [okpost]
  | |- wp panic _ _ => exact I
  | |- wp getS _ _ => apply wp_get; cbn [okpost]
  | |- wp (modify _) _ _ => apply wp_modify; cbn [okpost]
  | |- wp get_state _ _ => unfold get_state
  | |- wp my_id _ _ => unfold my_id
  | |- wp (with_state _) _ _ => unfold with_state
  | |- wp (set_leader _) _ _ => unfold set_leader
  | |- wp (set_candidate _) _ _ => unfold set_candidate
  | |- wp (set_seen_greater _) _ _ => unfold set_seen_greater
  | |- wp (push_command _) _ _ => unfold push_command
  | |- wp (accept_io _) _ _ => unfold accept_io
  | |- wp the_leader _ _ => unfold the_leader
  | |- wp (modify_leader _) _ _ => unfold modify_leader
  end.
Ltac run := repeat run_step.

(** * Votes of other nodes *)

Section Vote.
Context (m0 : Membership) (rq : list AppendEntriesRequest) (n : Z).
Context (Hmeet : quorums_meet (to_quorum_set m0) (to_quorum_set m0)).

Abbreviation qs := (to_quorum_set m0).
Abbreviation nok := (node_ok m0).
Abbreviation gok := (ghost_ok m0).

Lemma accept_new_vote (v mine : Vote) cur :
  vote_lt mine v = true → (∀ a, cur = Some a → to_app_vote a = mine) → opt_lt io_id_cmp cur (Some (new_io v)) = true.
Proof.
  intros Hlt Hc. destruct cur as [a|]; [|done]. specialize (Hc a eq_refl). subst mine. simpl. unfold io_id_cmp.
  assert (to_app_vote (new_io v) = v) as -> by (unfold new_io; by destruct v as [L []]).
  unfold vote_lt in Hlt. by destruct (vote_cmp _ v).
Qed.

Lemma to_app_vote_new_io v : to_app_vote (new_io v) = v.
Proof. unfold new_io. by destruct v as [L []]. Qed.

Lemma acc_ok_new_io s v : nvote s n = v → acc_ok s n (new_io v).
Proof. intros Hv. split; [by rewrite to_app_vote_new_io|]. unfold new_io. by destruct v as [L []]. Qed.

(** A node that takes a greater vote [v]: the vote is kept, accepted and put out. *)
Lemma raise_base g e v b l c u :
  gok g → base_ok m0 g rq n e → vle (nvote g n) v → vote_lt (vote_ref (state e)) v = true →
  leased_vote l = v → ∀ g' : Ghost, grows n g g' → nvote g' n = v → nlog g' n = nlog g n → cmd_ok g' rq n (SaveVote v) →
  base_ok m0 g' rq n (MkEngine (config e)
    (snd (accept_log_io (new_io v) (set_vote_leased l (state e)))) b u c (output e ++ [SaveVote v])).
Proof.
  intros Hg Hb Hle Hlt Hl g' Hgr Hv Hlog Hsave. pose proof Hb as [H1 H2 H3 H4 H5 H6 H7 H8 H9 H10 H11 H12].
  assert (∀ st, wlog m0 (MkEngine (config e) st b u c (output e ++ [SaveVote v])) = wlog m0 e) as Hw
    by (intros st; unfold wlog; simpl; by rewrite replay_app).
  unfold accept_log_io. simpl. rewrite (accept_new_vote v (vote_ref (state e))); [done|by intros a [-> _]%H9|].
  split; try rewrite Hw; simpl; try done.
  - by rewrite Hv -Hl.
  - congruence.
  - intros x Hx. apply Hgr. by apply H5.
  - congruence.
  - intros a [= <-]. by apply acc_ok_new_io.
  - intros x Hx. eapply cluster_ok_grows; eauto.
  - intros x Hx. eapply commit_ok_grows; eauto. by rewrite Hlog.
  - intros x [Hx|Hx]%elem_of_app; [eapply cmd_ok_grows; eauto|]. apply list_elem_of_singleton in Hx. by subst.
Qed.

Lemma base_ok_state g e st l c b :
  base_ok m0 g rq n e →
  vote_ref st = vote_ref (state e) → log_ids st = log_ids (state e) →
  ms_effective (membership_state st) = ms_effective (membership_state (state e)) → purge_upto st = purge_upto (state e) →
  accepted (log_progress (io_state st)) = accepted (log_progress (io_state (state e))) →
  cluster_committed (io_state st) = cluster_committed (io_state (state e)) → committed st = committed (state e) →
  base_ok m0 g rq n (MkEngine (config e) st b l c (output e)).
Proof. intros [] E1 E2 E3 E4 E5 E6 E7. split; simpl; rewrite ?E1 ?E2 ?E3 ?E4 ?E5 ?E6 ?E7; done. Qed.

Lemma is_leader_vote s id : is_leader s id = true → node_id (vote_leader (vote_ref s)) = id ∧ vote_committed (vote_ref s) = true.
Proof. unfold is_leader, is_leading. rewrite !andb_true_iff Z.eqb_eq. tauto. Qed.

Lemma become_following_ok g e :
  base_ok m0 g rq n e → is_leader (state e) n = false →
  wp become_following (okpost (λ _ e', nok g rq n e' ∧ leader e' = None ∧ candidate e' = None)) e.
Proof.
  intros Hb Hne. unfold become_following, update_server_state_if_changed. run. cbn. split; [|done]. split; try done; simpl.
  - by apply base_ok_state; try done; case_bool_decide.
  - case_bool_decide; [congruence|]. change (is_leader (set_server_state _ (state e)) n) with (is_leader (state e) n). congruence.
Qed.

Lemma update_internal_foreign now g e :
  base_ok m0 g rq n e → node_id (vote_leader (nvote g n)) ≠ n →
  wp (update_internal_server_state now) (okpost (λ _ e', nok g rq n e' ∧ leader e' = None ∧ candidate e' = None)) e.
Proof.
  intros Hb Hne. unfold update_internal_server_state. run. rewrite (ok_id _ _ _ _ _ Hb).
  assert (is_leading (state e) n = false) as Hl.
  { unfold is_leading. rewrite (ok_vote _ _ _ _ _ Hb). apply andb_false_intro2. by apply Z.eqb_neq. }
  assert (is_leader (state e) n = false) as Hld by (unfold is_leader; by rewrite Hl).
  rewrite Hld Hl. by apply become_following_ok.
Qed.

Lemma update_vote_foreign now v g e :
  gok g → nok g rq n e → known g v → node_id (vote_leader v) ≠ n →
  wp (update_vote now v) (okpost (λ r e', ∃ g', gok g' ∧ evolves m0 n g g' ∧ nok g' rq n e' ∧ nlog g' n = nlog g n
    ∧ match r with
      | Okay _ => nvote g' n = v ∧ leader e' = None ∧ candidate e' = None ∧ vle (nvote g n) v
      | Failed (ByVote mine) => g' = g ∧ e' = e ∧ mine = nvote g n
      end)) e.
Proof.
  intros Hg Hn Hk Hne. pose proof (ok_base _ _ _ _ _ Hn) as Hb. unfold update_vote. run.
  destruct (vote_le (vote_ref (state e)) v) eqn:Hle; run.
  2: { exists g. split_and!; try done; [apply evolves_refl|apply Hb]. }
  pose proof Hle as Hle'. rewrite (ok_vote _ _ _ _ _ Hb) in Hle'. apply vote_le_spec in Hle'.
  destruct (vote_lt (vote_ref (state e)) v) eqn:Hlt; run.
  - destruct (ghost_raise m0 Hmeet n g v Hg Hk Hle' Hne) as [Hg' Hev].
    eapply wpo_mono.
    { apply update_internal_foreign.
      - eapply (raise_base g e v); [exact Hg|done|done|done| |apply Hev| |done|]; try done; [simpl; by rewrite fn_lookup_insert|].
        simpl. intros _ Heq. done.
      - simpl. by rewrite fn_lookup_insert. }
    intros _ e' (Hok & Hl & Hc). run. eexists. split_and!; [exact Hg'|exact Hev|done|done| |done|done|done].
    simpl. by rewrite fn_lookup_insert.
  - assert (nvote g n = v) as Hv.
    { rewrite -(ok_vote _ _ _ _ _ Hb). destruct (decide (vote_ref (state e) = v)) as [?|Hd]; [done|].
      rewrite -not_true_iff_false vote_lt_spec in Hlt. destruct Hlt. split; [by apply vote_le_spec|done]. }
    eapply wpo_mono.
    { apply (update_internal_foreign now g); [|by rewrite Hv]. by apply base_ok_state. }
    intros _ e' (Hok & Hl & Hc). run. exists g. split_and!; try done. apply evolves_refl.
Qed.

(** A command more, that leaves the log alone. *)
Lemma base_push g e c l k b :
  base_ok m0 g rq n e → cmd_ok g rq n c → (∀ log, log_effect log c = log) →
  base_ok m0 g rq n (MkEngine (config e) (state e) b l k (output e ++ [c])).
Proof.
  intros Hb Hcmd Heff.
  assert (wlog m0 (MkEngine (config e) (state e) b l k (output e ++ [c])) = wlog m0 e) as Hw
    by (unfold wlog; simpl; by rewrite replay_app /= Heff).
  destruct Hb; split; try rewrite Hw; simpl; try done.
  intros x [Hx|Hx]%elem_of_app; [by auto|]. apply list_elem_of_singleton in Hx. by subst.
Qed.

Lemma push_ok g e c b :
  nok g rq n e → cmd_ok g rq n c → (∀ log, log_effect log c = log) →
  nok g rq n (MkEngine (config e) (state e) b (leader e) (candidate e) (output e ++ [c])).
Proof. intros [Hb Hc Hl Hld] Hcmd Heff. split; [by apply base_push|done..]. Qed.

Lemma last_log_id_ok g e : base_ok m0 g rq n e → last_log_id (state e) = last (nlog g n).
Proof. intros Hb. unfold last_log_id, log_ids_last. by rewrite (ok_ids _ _ _ _ _ Hb) last_keys. Qed.

Lemma request_known g L lst : gok g → (L, lst) ∈ reqs g → known g (MkVote L false).
Proof. intros (Hinv & _) Hr. split; [|done]. by apply (inv_reqs _ _ Hinv _ _ Hr). Qed.

(** The handler of an event takes the node, by steps of the protocol, to a good state. *)
Definition sim {A} (g : Ghost) (m : M Engine A) (e : Engine) : Prop :=
  wp m (okpost (λ _ e', ∃ g', gok g' ∧ evolves m0 n g g' ∧ nok g' rq n e')) e.

Lemma handle_vote_request_ok now req tx g e L :
  gok g → nok g rq n e → vreq_vote req = MkVote L false → node_id L ≠ n → (L, vreq_last_log_id req) ∈ reqs g →
  sim g (handle_vote_request now req tx) e.
Proof.
  intros Hg Hn Hv Hne Hreq. pose proof (ok_base _ _ _ _ _ Hn) as Hb.
  assert (known g (vote_ref (state e))) as Hkn by (rewrite (ok_vote _ _ _ _ _ Hb); apply Hg).
  assert (sim g (push_command (RespondCmd (Some (IOFlushed (new_io (vote_ref (state e)))))
    (RespondVote (MkVoteResponse (vote_ref (state e)) false (last_log_id (state e)))) tx)) e) as Hrefuse.
  { unfold sim. run. exists g. split_and!; [done|apply evolves_refl|]. apply push_ok; [done|by split|done]. }
  unfold sim, handle_vote_request, handle_vote_req. run.
  destruct (vote_committed _ && _); run; [exact Hrefuse|].
  destruct (negb (opt_log_id_le _ _)) eqn:Hlog; run; [exact Hrefuse|].
  apply negb_false_iff, opt_log_id_le_spec in Hlog. rewrite (last_log_id_ok g) // in Hlog.
  rewrite Hv. eapply wpo_mono; [apply update_vote_foreign; [done|done|by eapply request_known|done]|].
  intros [[]|[mine]] e1 (g1 & Hg1 & Hev & Hn1 & Hlog1 & Hr).
  - destruct Hr as (Hv1 & Hl1 & Hc1 & _). pose proof (ok_base _ _ _ _ _ Hn1) as Hb1. run.
    destruct (ghost_grant m0 Hmeet n g1 L (vreq_last_log_id req)) as [Hg2 Hev2]; [done| |done|by rewrite Hlog1|].
    { destruct Hev as [_ (_ & Hr & _)]. by apply Hr. }
    set (g2 := MkGhost _ _) in *.
    assert (nok g2 rq n e1) as Hn2.
    { eapply node_ok_grows; [apply Hev2| |done]. split; [|done]. simpl. by rewrite fn_lookup_insert. }
    exists g2. split_and!; [done|by eapply evolves_trans|]. apply push_ok; [done| |done].
    simpl. rewrite (ok_vote _ _ _ _ _ Hb1) Hv1. split; [|intros _ _; exists (nlog g1 n); by left].
    apply (known_grows n g1 g2); [apply Hev2|]. rewrite -Hv1. apply Hg1.
  - destruct Hr as (-> & -> & ->). run. exact Hrefuse.
Qed.

(** * Elections *)

Lemma em_state g e : base_ok m0 g rq n e → em_membership (ms_effective (membership_state (state e))) = m0.
Proof. intros Hb. by rewrite (ok_em _ _ _ _ _ Hb). Qed.

Lemma next_term_vote (v : Vote) : vote_lt v (MkVote (MkLeaderId (vote_term v + 1) n) false) = true.
Proof.
  apply vote_lt_spec. destruct v as [[t i] c]. unfold vote_term, vle, leader_id_lt; simpl. split; [left; lia|].
  intros [= Ht _ _]. lia.
Qed.

(** Without a leader the server state matters to nothing. *)
Lemma server_state_ok g e :
  nok g rq n e → leader e = None →
  wp update_server_state_if_changed (okpost (λ _ e', nok g rq n e' ∧ leader e' = None)) e.
Proof.
  intros [Hb Hc _ Hld] Hl. unfold update_server_state_if_changed. run. cbn. split; [|done]. split; simpl.
  - by apply base_ok_state; try done; case_bool_decide.
  - done.
  - by rewrite Hl.
  - rewrite Hl in Hld |- *. case_bool_decide; done.
Qed.

Context (Hvalid : configs m0 ≠ []) (Hsome : Forall (λ c, c ≠ ∅) (configs m0)).

Lemma candidate_progress_ok : vp_ok (vp_new qs [] false).
Proof.
  apply vp_new_ok; auto using to_quorum_set_mono, to_quorum_set_empty, to_quorum_set_all.
  rewrite app_nil_r. apply NoDup_btree_iter.
Qed.

Lemma elect_ok now g e :
  gok g → nok g rq n e → leader e = None → sim g (elect now) e.
Proof.
  intros Hg Hn Hl. pose proof (ok_base _ _ _ _ _ Hn) as Hb. unfold sim, elect, new_candidate, update_vote. run. cbn [state config].
  rewrite (ok_id _ _ _ _ _ Hb). set (v := MkVote _ false).
  pose proof (next_term_vote (vote_ref (state e))) as Hlt. change (MkVote _ false) with v in Hlt. rewrite Hlt.
  pose proof Hlt as [Hle Hne]%vote_lt_spec. pose proof Hle as Hle'%vote_le_spec. rewrite Hle'.
  rewrite (ok_vote _ _ _ _ _ Hb) in Hle, Hne.
  destruct (ghost_elect m0 Hmeet n g (vote_leader v)) as [Hg1 Hev1]; [done|done|done|done|]. set (g1 := MkGhost _ _) in *.
  destruct (ghost_grant m0 Hmeet n g1 (vote_leader v) (last (nlog g n))) as [Hg2 Hev2]; [done| | |apply opt_le_refl|].
  { simpl. set_solver. }
  { simpl. by rewrite fn_lookup_insert. }
  set (g2 := MkGhost (add_grant _ _) _) in *. pose proof (evolves_trans _ _ _ _ _ Hev1 Hev2) as Hev.
  assert (nvote g2 n = v) as Hv2 by (simpl; by rewrite fn_lookup_insert).
  assert (cmd_ok g2 rq n (SaveVote v)) as Hsave by (intros _ _; exists (nlog g1 n); by left).
  assert (cmd_ok g2 rq n (SendVote (MkVoteRequest v (last_log_id (state e))))) as Hsend.
  { exists (vote_leader v). split_and!; [done|done|]. rewrite (last_log_id_ok g) //. simpl. set_solver. }
  set (c := candidate_new now v _ _ _).
  assert (cand_ok m0 g2 n c) as Hc.
  { unfold c. rewrite (em_state g) // (last_log_id_ok g) //. split_and!; try done; simpl; [by left| |].
    - apply candidate_progress_ok.
    - intros x. rewrite app_nil_r. by intros (id & -> & _)%list_elem_of_fmap. }
  run. cbn [state config].
  set (l := leased_update now _ v).
  pose proof (raise_base g e v (seen_greater_log e) l (Some c) (leader e) Hg Hb Hle Hlt eq_refl g2 (proj2 Hev) Hv2 eq_refl Hsave) as Hb2.
  set (e2 := MkEngine _ _ _ _ _ _) in Hb2.
  assert (is_leader (state e2) n = false) as Hld.
  { unfold is_leader. rewrite (ok_vote _ _ _ _ _ Hb2) Hv2. apply andb_false_r. }
  assert (wp (update_internal_server_state now) (okpost (λ _ e', nok g2 rq n e' ∧ leader e' = None)) e2) as Hint.
  { unfold update_internal_server_state. run. rewrite (ok_id _ _ _ _ _ Hb2) Hld. destruct (is_leading (state e2) n); run.
    - split; [|done]. split; [done| | |]; simpl.
      + by intros ? [= <-].
      + by rewrite Hl.
      + intros Hx. change (is_leader (state e2) n = true) in Hx. congruence.
    - eapply wpo_mono; [by apply become_following_ok|]. by intros _ ? (? & ? & _). }
  eapply wpo_mono; [exact Hint|]. intros _ e3 [Hn3 Hl3]. run.
  eapply wpo_mono; [apply (server_state_ok g2); [by apply push_ok|done]|].
  intros _ e4 [Hn4 _]. by exists g2.
Qed.

End Vote.
