(* ===== verification/RaftSimLead.v ===== *)
(** The engine takes steps of the protocol: a leader, its entries and what it commits. *)

From stdpp Require Import functions strings.
From S2P Require Import Prelude LogStore RaftQuorum RaftMembership RaftLogIds RaftProgress RaftState RaftEngine RaftCore RaftNet RaftProtocol RaftSim RaftSimVote.

#[local] Open Scope Z_scope.

(** * What an update does to the entries of a progress *)

Section Shape.
Context {Ent Prog : Type} {Bor : Borrow Ent Prog} `{ProgOrdLaws Prog} `{EqDecision Prog}.
Implicit Types (es a b : list (IdVal Ent)) (x e : IdVal Ent) (qa v : Prog) (p : VecProgress Ent Prog).

Lemma accept_loop_value (qset : LeaderQuorumSet) es qa i k :
  accept_loop qset es qa i k = qa ∨ ∃ e, e ∈ es ∧ accept_loop qset es qa i k = borrow (pval e).
Proof.
  revert i. induction k as [|k IH]; intros i; simpl; [by left|].
  destruct (es !! i) as [e|] eqn:He; [|by left]. destruct (ple _ qa); [by left|].
  destruct (is_quorum _ _); [|apply IH]. right. exists e. split; [by eapply list_elem_of_lookup_2|done].
Qed.

(** One entry has its new value, at its place or further up among the voters. *)
Lemma update_with_shape p id f :
  let p' := snd (update_with id f p) in
  p' = p ∨ ∃ a x0 b a1 a2, entries p = a ++ x0 :: b ∧ try_get id p = Some (pval x0) ∧ pid x0 = id ∧ a = a1 ++ a2
    ∧ (a2 = [] ∨ (length a < voter_count p)%nat) ∧ entries p' = a1 ++ MkIdVal id (f (pval x0)) :: a2 ++ b
    ∧ vp_quorum_set p' = vp_quorum_set p ∧ voter_count p' = voter_count p
    ∧ (quorum_accepted p' = quorum_accepted p ∨ ∃ e, e ∈ entries p' ∧ quorum_accepted p' = borrow (pval e)).
Proof.
  destruct (update_with id f p) as [res q] eqn:Hu. simpl. unfold update_with in Hu.
  destruct (vp_index p id) as [i|] eqn:Hi; [|left; by simplify_eq].
  destruct (index_of_split _ _ _ Hi) as (a & x0 & b & He & <- & Hx). rewrite He list_lookup_middle // in Hu.
  assert (try_get id p = Some (pval x0)) as Hget by (unfold try_get; rewrite Hi He list_lookup_middle //).
  rewrite insert_app_r_alt in Hu; [lia|]. rewrite Nat.sub_diag Hx in Hu. right.
  destruct (bool_decide _).
  { injection Hu as <- <-. exists a, x0, b, a, []. rewrite app_nil_r. split_and!; auto. }
  simpl in Hu. destruct (Nat.leb_spec (voter_count p) (length a)) as [Hv|Hv].
  { injection Hu as <- <-. exists a, x0, b, a, []. rewrite app_nil_r. split_and!; auto. }
  destruct (_ && _).
  - destruct (move_up_spec a (MkIdVal id (f (pval x0))) b) as (a1 & a2 & Ha & Hm & _). rewrite Hm in Hu.
    injection Hu as <- <-. exists a, x0, b, a1, a2. split_and!; auto. apply accept_loop_value.
  - injection Hu as <- <-. exists a, x0, b, a, []. rewrite app_nil_r. split_and!; auto.
Qed.

Lemma update_with_elem p id f x :
  x ∈ entries (snd (update_with id f p)) → x ∈ entries p ∨ ∃ u : Ent, try_get id p = Some u ∧ x = MkIdVal id (f u).
Proof.
  destruct (update_with_shape p id f) as [->|(a & x0 & b & a1 & a2 & He & Hg & _ & Ha & _ & -> & _)]; [by left|].
  rewrite He Ha. intros [Hx|[->|Hx]%elem_of_cons]%elem_of_app; [left; set_solver|right; by exists (pval x0)|left; set_solver].
Qed.

Lemma update_with_voters p id f x :
  x ∈ voters (snd (update_with id f p)) → ∃ y, y ∈ voters p ∧ pid y = pid x.
Proof.
  destruct (update_with_shape p id f) as [->|(a & x0 & b & a1 & a2 & He & Hg & Hid & Ha & Hcase & He' & _ & Hc & _)]; [by exists x|].
  unfold voters. rewrite Hc He' He. destruct Hcase as [->|Hlt].
  - rewrite app_nil_r in Ha. subst a. simpl. intros (k & Hk & Hlt)%elem_of_take.
    destruct (decide (k = length a1)) as [->|Hne].
    + rewrite list_lookup_middle // in Hk. injection Hk as <-. exists x0. split; [|done].
      apply elem_of_take. exists (length a1). split; [by apply list_lookup_middle|done].
    + exists x. split; [|done]. apply elem_of_take. exists k. split; [|done].
      rewrite lookup_app in Hk. rewrite lookup_app. destruct (a1 !! k) eqn:Hl; [done|].
      apply lookup_ge_None in Hl. destruct (k - length a1)%nat eqn:Hd; [lia|]. done.
  - assert (length a = length a1 + length a2)%nat as Hlen by (by rewrite Ha length_app).
    intros Hx.
    assert (take (voter_count p) (a1 ++ MkIdVal id (f (pval x0)) :: a2 ++ b)
      = a1 ++ MkIdVal id (f (pval x0)) :: a2 ++ take (voter_count p - length a - 1) b) as Ht.
    { rewrite take_app. rewrite (take_ge a1); [lia|]. f_equal.
      destruct (voter_count p - length a1)%nat as [|d] eqn:Hd; [lia|]. simpl. f_equal.
      rewrite take_app. rewrite (take_ge a2); [lia|]. f_equal. f_equal. lia. }
    rewrite Ht in Hx.
    assert (take (voter_count p) (a ++ x0 :: b) = a ++ x0 :: take (voter_count p - length a - 1) b) as Ht0.
    { rewrite take_app. rewrite (take_ge a); [lia|]. f_equal.
      destruct (voter_count p - length a)%nat as [|d] eqn:Hd; [lia|]. simpl. f_equal. f_equal. lia. }
    rewrite Ht0. apply elem_of_app in Hx as [Hx|[->|Hx]%elem_of_cons].
    + exists x. split; [subst a; set_solver|done].
    + exists x0. split; [set_solver|done].
    + exists x. split; [subst a; set_solver|done].
Qed.

(** Entries that differ in nothing that counts. *)
Definition same_entries es es' : Prop :=
  Forall2 (λ x y, pid y = pid x ∧ (borrow (pval y) : Prog) = borrow (pval x)) es es'.

Lemma same_reached v es es' : same_entries es es' → reached v es' = reached v es.
Proof.
  unfold reached. induction 1 as [|x y l l' [Hp Hb] _ IH]; [done|]. rewrite !filter_cons.
  destruct (decide (ple v (borrow (pval y)) = true)) as [Hy|Hy]; destruct (decide (ple v (borrow (pval x)) = true)) as [Hx|Hx];
    rewrite ?map_cons IH ?Hp //; congruence.
Qed.

Lemma same_vp_ok p es' : vp_ok p → same_entries (entries p) es' → vp_ok (with_entries es' p).
Proof.
  intros (Hmono & Hempty & Hnd & Hlen & Hs & Hg & Hmax) Hsame.
  assert (same_entries (voters p) (voters (with_entries es' p))) as Hv by (by apply Forall2_take).
  split_and!; try done; simpl.
  - assert (map pid es' = map pid (entries p)) as ->; [|done].
    clear -Hsame. induction Hsame as [|x y l l' [Hp _] _ IH]; [done|]. rewrite !map_cons. congruence.
  - apply Forall2_length in Hsame. lia.
  - intros i j x y Hij Hx Hy Hlt.
    destruct (Forall2_lookup_r _ _ _ _ _ Hv Hx) as (x' & Hx' & _ & Hbx).
    destruct (Forall2_lookup_r _ _ _ _ _ Hv Hy) as (y' & Hy' & _ & Hby).
    rewrite Hby in Hlt |- *. rewrite Hbx. by apply (Hs i j).
  - split; [by rewrite (same_reached _ (voters p))|].
    intros v Hlt. rewrite (same_reached _ (voters p)) //. by apply Hmax.
Qed.

Lemma same_entries_refl es : same_entries es es.
Proof. induction es; constructor; auto. Qed.

End Shape.

(** * A leader's book-keeping *)

(** Entries that differ only in what is in flight and where to look for a match. *)
Definition same_progress (es es' : list (IdVal ProgressEntry)) : Prop :=
  Forall2 (λ x y, pid y = pid x ∧ matching (pval y) = matching (pval x)
    ∧ entry_allow_log_reversion (pval y) = entry_allow_log_reversion (pval x)) es es'.

Lemma same_progress_refl es : same_progress es es.
Proof. induction es; constructor; auto. Qed.

Lemma same_progress_alter es i f :
  (∀ x, es !! i = Some x → matching (f (pval x)) = matching (pval x)
     ∧ entry_allow_log_reversion (f (pval x)) = entry_allow_log_reversion (pval x)) →
  same_progress es (alter (λ e, MkIdVal (pid e) (f (pval e))) i es).
Proof.
  revert i. induction es as [|x es IH]; intros i Hf; [constructor|]. destruct i as [|i]; simpl.
  - constructor; [by destruct (Hf x eq_refl)|apply same_progress_refl].
  - constructor; [done|]. apply IH. intros y Hy. by apply Hf.
Qed.

Lemma same_progress_insert es i x ent :
  es !! i = Some x → matching ent = matching (pval x) → entry_allow_log_reversion ent = entry_allow_log_reversion (pval x) →
  same_progress es (<[i := MkIdVal (pid x) ent]> es).
Proof.
  revert i. induction es as [|y es IH]; intros i Hi Hm Ha; [done|]. destruct i as [|i]; simplify_eq/=.
  - constructor; [done|apply same_progress_refl].
  - constructor; [done|]. by apply IH.
Qed.

Lemma modify_entry_same id f (p : VecProgress ProgressEntry (option LogId)) :
  (∀ v, try_get id p = Some v → matching (f v) = matching v ∧ entry_allow_log_reversion (f v) = entry_allow_log_reversion v) →
  ∃ es, modify_entry id f p = with_entries es p ∧ same_progress (entries p) es.
Proof.
  unfold modify_entry, try_get. destruct (vp_index p id) as [i|] eqn:Hi.
  - intros Hf. eexists. split; [done|]. apply same_progress_alter. intros x Hx. apply Hf. by rewrite Hx.
  - intros _. exists (entries p). split; [by destruct p|apply same_progress_refl].
Qed.

Lemma try_get_elem {Ent Prog} {Bor : Borrow Ent Prog} `{ProgOrdLaws Prog} `{EqDecision Prog} (p : VecProgress Ent Prog) x :
  NoDup (map pid (entries p)) → x ∈ entries p → try_get (pid x) p = Some (pval x).
Proof.
  unfold try_get, vp_index. intros Hnd Hx. induction (entries p) as [|y es IH]; [by apply elem_of_nil in Hx|].
  rewrite map_cons in Hnd. apply NoDup_cons in Hnd as [Hni Hnd]. simpl. destruct (Z.eqb_spec (pid y) (pid x)) as [Heq|Hne].
  - apply elem_of_cons in Hx as [->|Hx]; [done|]. destruct Hni. rewrite Heq. apply list_elem_of_fmap. by exists x.
  - apply elem_of_cons in Hx as [->|Hx]; [done|]. specialize (IH Hnd Hx). by destruct (index_of es (pid x)).
Qed.

Section Lead.
Context (m0 : Membership) (rq : list AppendEntriesRequest) (n : Z).
Context (Hmeet : quorums_meet (to_quorum_set m0) (to_quorum_set m0)).
Context (Hvalid : configs m0 ≠ []) (Hsome : Forall (λ c, c ≠ ∅) (configs m0)).

Abbreviation qs := (to_quorum_set m0).
Abbreviation nok := (node_ok m0).
Abbreviation gok := (ghost_ok m0).
Abbreviation simu := (sim m0 rq n).

Lemma progress_ok_same (s : Net) L p es :
  progress_ok m0 s L p → same_progress (entries p) es → progress_ok m0 s L (with_entries es p).
Proof.
  intros (H1 & H2 & H3 & H4 & H5 & H6) Hs.
  assert (∀ y, y ∈ es → ∃ x, x ∈ entries p ∧ pid y = pid x ∧ matching (pval y) = matching (pval x)
    ∧ entry_allow_log_reversion (pval y) = entry_allow_log_reversion (pval x)) as Hback.
  { intros y [i Hi]%list_elem_of_lookup. destruct (Forall2_lookup_r _ _ _ _ _ Hs Hi) as (x & Hx & ?).
    exists x. split; [by eapply list_elem_of_lookup_2|done]. }
  split_and!; try done; simpl.
  - apply same_vp_ok; [done|]. eapply Forall2_impl; [exact Hs|]. intros x y (? & ? & _). split; done.
  - unfold voters. simpl. intros y [i Hi]%list_elem_of_lookup.
    destruct (Forall2_lookup_r _ _ _ _ _ (Forall2_take _ _ _ (voter_count p) Hs) Hi) as (x & Hx & -> & _).
    apply H3. by eapply list_elem_of_lookup_2.
  - intros y z Hy Hm. destruct (Hback y Hy) as (x & Hx & -> & Hmx & _). apply H4; [done|congruence].
  - intros y Hy. destruct (Hback y Hy) as (x & Hx & _ & _ & ->). by apply H6.
Qed.

(** A leader with other book-keeping. *)
Lemma set_leader_ok g e l l' b :
  nok g rq n e → leader e = Some l → leader_vote l' = leader_vote l → leader_last_log_id l' = leader_last_log_id l → noop_log_id l' = noop_log_id l →
  progress_ok m0 g (leader_vote l) (progress l') →
  nok g rq n (MkEngine (config e) (state e) b (Some l') (candidate e) (output e)).
Proof.
  intros [Hb Hc Hl Hld] He Hv Hlast Hno Hp. destruct (Hl l He) as (H1 & H2 & H3 & H4 & _ & H6). split; simpl; try done.
  - destruct Hb; by split.
  - intros k [= <-]. unfold leader_ok, noop_ok. rewrite Hv Hlast Hno. done.
Qed.

Lemma leader_no_candidate g e l : nok g rq n e → leader e = Some l → candidate e = None.
Proof.
  intros Hn He. destruct (candidate e) as [c|] eqn:Hc; [|done]. destruct (ok_cand _ _ _ _ _ Hn c Hc) as (H1 & H2 & _).
  destruct (ok_leader _ _ _ _ _ Hn l He) as (H3 & _). rewrite H1 H3 in H2. done.
Qed.

Lemma next_send_same s k p : let r := snd (next_send s k p) in
  matching r = matching p ∧ entry_allow_log_reversion r = entry_allow_log_reversion p.
Proof.
  unfold next_send. case_bool_decide; [done|]. destruct (_ <? _); [done|]. by destruct (_ =? _).
Qed.

Lemma initiate_from_ok g i k e :
  nok g rq n e → wp (initiate_from i k) (okpost (λ _ e', nok g rq n e')) e.
Proof.
  revert i e. induction k as [|k IH]; intros i e Hn; cbn [initiate_from]; run; [done|].
  destruct (leader e) as [l|] eqn:Hl; run. destruct (entries (progress l) !! i) as [x|] eqn:Hx; run; [|done].
  destruct (pid x =? cfg_id (config e)); run; [by apply IH|].
  destruct (next_send (state e) _ (pval x)) as [ok ent] eqn:Hsend.
  pose proof (next_send_same (state e) (max_payload_entries (config e)) (pval x)) as [Hm Ha]. rewrite Hsend /= in Hm, Ha.
  run. rewrite Hl. run.
  assert (nok g rq n (MkEngine (config e) (state e) (seen_greater_log e)
    (Some (set_progress (with_entries (<[i := MkIdVal (pid x) ent]> (entries (progress l))) (progress l)) l)) (candidate e) (output e))) as Hn1.
  { eapply set_leader_ok; try done. apply progress_ok_same; [apply (ok_leader _ _ _ _ _ Hn l Hl)|]. by apply same_progress_insert. }
  destruct ok; run; [|by apply IH].
  unfold send_to_target. destruct (inflight ent); run; apply IH; by apply (push_ok m0 rq n g _ _ _ Hn1).
Qed.

Lemma initiate_replication_ok g e : nok g rq n e → wp initiate_replication (okpost (λ _ e', nok g rq n e')) e.
Proof. intros Hn. unfold initiate_replication. run. destruct (leader e) as [l|] eqn:Hl; run. by apply initiate_from_ok. Qed.

(** * New entries *)

Lemma shares_lookup (s : Net) m L x : shares s m L x → nlog s m !! pos x = Some x.
Proof. intros (lg & _ & Hx & Ht). apply (take_S_lookup lg); [|done]. by symmetry. Qed.

Lemma log_consecutive g m : gok g → consecutive 0 (nlog g m).
Proof. intros (Hinv & _) i x Hx. destruct (inv_log _ _ Hinv m i x Hx) as [Hi _]. lia. Qed.

Lemma log_not_empty g m : gok g → nlog g m ≠ [].
Proof. intros (_ & _ & [Hh _] & _) Hnil. specialize (Hh m). by rewrite Hnil in Hh. Qed.

Lemma next_index_log g m : gok g → next_index (last (nlog g m)) = len (nlog g m).
Proof. intros Hg. rewrite (next_index_last 0); auto using log_consecutive, log_not_empty. Qed.

(** The log of node [n] gets longer; all that was said of its prefixes stays. *)
Lemma commit_ok_app g g' x rest : grows n g g' → nlog g' n = nlog g n ++ rest → commit_ok m0 g n x → commit_ok m0 g' n x.
Proof.
  intros Hg Hlog Hc. eapply commit_ok_grows; [done| |done]. destruct Hc as (L & k & _ & _ & _ & Hs).
  apply shares_lookup in Hs. apply lookup_lt_Some in Hs. rewrite Hlog take_app_le //. 
Qed.

Lemma acc_ok_app g g' a rest :
  grows n g g' → nvote g' n = nvote g n → nlog g' n = nlog g n ++ rest → acc_ok g n a → acc_ok g' n a.
Proof.
  intros Hg Hv Hlog [Ha Hs]. split; [congruence|]. destruct a as [|[L [x|]]]; try done.
  eapply shares_grows; [done| |done]. apply shares_lookup, lookup_lt_Some in Hs. by rewrite Hlog take_app_le.
Qed.

Lemma leader_append_ok g e x :
  gok g → nok g rq n e → get_membership x = None → simu g (leader_append_entries [x]) e.
Proof.
  intros Hg Hn Hx. unfold sim, leader_append_entries. run. destruct (leader e) as [l|] eqn:Hl; run.
  pose proof (ok_base _ _ _ _ _ Hn) as Hb. destruct (ok_leader _ _ _ _ _ Hn l Hl) as (Hv & Hid & Hlast & Hsrv & Hp & Hno).
  set (L := leader_vote l) in *. unfold assign_log_ids. cbn [number_entries].
  rewrite Hlast next_index_log //. fold L. set (id := MkLogId L (len (nlog g n))).
  assert (∀ m, payload x ≠ LogStore.Membership m) as Hnm by (intros m Hm; unfold get_membership in Hx; by rewrite Hm in Hx).
  destruct (ghost_append m0 Hmeet n g L (payload x) Hg Hid Hv Hnm) as (Hg' & Hev & Hfresh). fold id in Hg', Hev, Hfresh.
  set (g' := MkGhost _ _) in *. pose proof Hev as [_ Hgr].
  assert (nlog g' n = nlog g n ++ [id]) as Hlog' by (simpl; by rewrite fn_lookup_insert).
  assert (llog g' L = Some (nlog g n ++ [id])) as HL' by (simpl; by rewrite fn_lookup_insert).
  assert (nvote g' n = nvote g n) as Hv' by done.
  assert (gcontent g' id = Some (payload x)) as Hct' by (simpl; by rewrite fn_lookup_insert). clearbody g'.
  assert (pos id = length (nlog g n)) as Hpos by (unfold id, len; simpl; lia).
  assert ((nlog g n ++ [id]) !! pos id = Some id) as Hidl by (rewrite Hpos; by apply list_lookup_middle).
  assert (MkLogId L (len (nlog g n) + len [x] - 1) = id) as Hid2 by (unfold id; f_equal; unfold len; simpl; lia).
  assert (extend_from_same_leader (keys (nlog g n)) [id] = keys (nlog g n ++ [id])) as Hext
    by (apply extend_from_same_leader_keys; [constructor|set_solver]).
  assert (in_llog g' L id) as Hin by (by exists (nlog g n ++ [id])).
  run. cbn [state leader_vote set_leader_last_log_id leader_last_log_id config seen_greater_log candidate output leader map log_id set_entry_log_id].
  rewrite Hid2. unfold batch_membership. cbn [foldl]. unfold get_membership in Hx |- *. cbn [payload set_entry_log_id]. rewrite Hx. run.
  eapply wpo_mono; [apply (initiate_replication_ok g')|intros [] e' Hok; by exists g'].
  assert (∀ st l k, wlog m0 (MkEngine (config e) st (seen_greater_log e) l k (output e ++ [AppendEntries L [set_entry_log_id id x]]))
    = wlog m0 e ++ [set_entry_log_id id x]) as Hw by (intros; unfold wlog; simpl; by rewrite replay_app).
  assert (acc_ok g' n (new_log_io L (Some id))) as Hacc.
  { split; [simpl; by rewrite Hv' Hv|]. exists (nlog g n ++ [id]). split_and!; [done|done|by rewrite Hlog']. }
  destruct Hb as [H1 H2 H3 H4 H5 H6 H7 H8 H9 H10 H11 H12]. split; [split|..]; try rewrite Hw; simpl; unfold accept_log_io; simpl.
  - done.
  - done.
  - rewrite Hv'. by destruct (opt_lt _ _ _).
  - by rewrite map_app H4 Hlog'.
  - intros y [Hy|Hy]%elem_of_app.
    + destruct Hgr as (_ & _ & _ & _ & _ & _ & Hct). by apply Hct, H5.
    + by apply list_elem_of_singleton in Hy as ->.
  - rewrite Hlog' -Hext -H6. by destruct (opt_lt _ _ _).
  - by destruct (opt_lt _ _ _).
  - by destruct (opt_lt _ _ _).
  - intros a. destruct (opt_lt _ _ _); simpl; [by intros [= <-]|]. intros Ha. by eapply acc_ok_app; eauto.
  - intros c Hc. eapply cluster_ok_grows; [done|]. apply H10. by destruct (opt_lt _ _ _).
  - intros y Hy. eapply commit_ok_app; [done|done|]. apply H11. by destruct (opt_lt _ _ _).
  - intros c [Hc|Hc]%elem_of_app; [by eapply cmd_ok_grows; eauto|]. apply list_elem_of_singleton in Hc as ->.
    intros _ y [= <-]. done.
  - rewrite (leader_no_candidate g e l) //.
  - intros k [= <-]. split_and!; simpl; [by rewrite Hv' Hv|done|by rewrite Hlog' last_snoc|by destruct (opt_lt _ _ _)|by eapply progress_ok_grows|].
    destruct Hno as [Hno1 Hno2]. split; [done|]. intros y. rewrite Hlog'. simpl.
    intros [Hy| ->%list_elem_of_singleton]%elem_of_app; [by apply Hno2|by left].
  - done.
Qed.

(** * Commitment *)

(** In one leader's log, ids come in their order. *)
Lemma in_llog_order g L x y :
  gok g → in_llog g L x → in_llog g L y → opt_le (Some x) (Some y) → (pos x ≤ pos y)%nat.
Proof.
  intros (Hinv & _) (lg & HL & Hx) (lg' & HL' & Hy) Hle. rewrite HL in HL'. injection HL' as <-.
  destruct (Nat.le_gt_cases (pos x) (pos y)) as [?|Hlt]; [done|]. exfalso.
  pose proof (matches_monotone _ lg _ _ _ _ (inv_llog _ _ Hinv _ _ HL) (inv_llog_le _ _ Hinv) (Nat.lt_le_incl _ _ Hlt) Hy Hx) as Hmono.
  destruct Hle as [[=]|[Hll|[He Hi]]]; subst; [lia| |lia].
  apply (leader_id_lt_irrefl (leader_id x)). by eapply leader_id_lt_le_trans.
Qed.

Lemma NoDup_voter_pids {Ent Prog} {Bor : Borrow Ent Prog} `{ProgOrdLaws Prog} (p : VecProgress Ent Prog) :
  NoDup (map pid (entries p)) → NoDup (map pid (voters p)).
Proof.
  unfold voters. rewrite -{1}(take_drop (voter_count p) (entries p)) map_app. by intros (? & _ & _)%NoDup_app.
Qed.

Lemma accepted_chosen g L p c :
  gok g → progress_ok m0 g L p → quorum_accepted p = Some c → leader_id c = L → chosen qs g L (S (pos c)).
Proof.
  intros Hg (Hok & Hqs & _ & Hack & Hqa & _) Hc HcL. pose proof Hok as (_ & _ & Hnd & _ & _ & [Hq _]).
  pose proof (Hqa c Hc) as (lg & HL & Hlg). rewrite Hqs Hc in Hq.
  exists lg, c, (reached (Some c) (voters p)). split_and!; try done; [lia|by rewrite Nat.sub_1_r|by apply NoDup_reached, NoDup_voter_pids|].
  intros m (x & Hx & <- & Hle)%elem_of_reached.
  assert (x ∈ entries p) as Hxe by (unfold voters in Hx; apply elem_of_take in Hx as (i & Hi & _); by eapply list_elem_of_lookup_2).
  change (opt_log_id_le (Some c) (matching (pval x)) = true) in Hle. apply opt_log_id_le_spec in Hle.
  destruct (matching (pval x)) as [y|] eqn:Hy; [|done]. destruct (Hack x y Hxe Hy) as (Hin & k & Hk & Hka).
  exists k. split; [|done]. pose proof (in_llog_order g L c y Hg (Hqa c Hc) Hin Hle). lia.
Qed.

Lemma leader_log g l e : gok g → nok g rq n e → leader e = Some l → llog g (leader_vote l) = Some (nlog g n).
Proof.
  intros (Hinv & _) Hn Hl. destruct (ok_leader _ _ _ _ _ Hn l Hl) as (Hv & Hid & _). by apply (inv_leader _ _ Hinv).
Qed.

Lemma leader_shares g l e x : gok g → nok g rq n e → leader e = Some l → in_llog g (leader_vote l) x → shares g n (leader_vote l) x.
Proof.
  intros Hg Hn Hl (lg & HL & Hx). exists lg. split_and!; try done. rewrite (leader_log g l e) // in HL. by simplify_eq.
Qed.

Lemma opt_lt_try_update (c : LogIOId) cur r : try_update log_io_id_cmp c cur = Some r → cur = Some r ∨ r = c.
Proof. unfold try_update. destruct (opt_lt _ _ _); intros; simplify_eq; auto. Qed.

(** What is committed after [update_local_committed]. *)
Lemma update_local_committed_ok g e c b l k :
  base_ok m0 g rq n e → (∀ x, c = Some x → commit_ok m0 g n x) →
  base_ok m0 g rq n (MkEngine (config e) (snd (update_local_committed c (state e))) b l k (output e)).
Proof.
  intros Hb Hc. unfold update_local_committed. destruct (opt_log_id_lt _ c); [|destruct Hb; by split].
  destruct c as [x|]; [|destruct Hb; by split]. destruct Hb. split; simpl; try done.
  unfold ms_commit. destruct (opt_log_id_le _ _); done.
Qed.

Lemma update_local_committed_same c s : let s' := snd (update_local_committed c s) in
  vote_ref s' = vote_ref s ∧ server_state s' = server_state s
  ∧ ms_effective (membership_state s') = ms_effective (membership_state s).
Proof.
  unfold update_local_committed. destruct (opt_log_id_lt _ c); [|done]. destruct c as [x|]; [|done].
  simpl. split_and!; try done. unfold ms_commit. by destruct (opt_log_id_le _ _).
Qed.

(** The state of a leader or of a follower may change where its proposer does not look. *)
Lemma node_ok_state g e st out b :
  nok g rq n e → base_ok m0 g rq n (MkEngine (config e) st b (leader e) (candidate e) out) →
  vote_ref st = vote_ref (state e) → server_state st = server_state (state e) →
  ms_effective (membership_state st) = ms_effective (membership_state (state e)) →
  nok g rq n (MkEngine (config e) st b (leader e) (candidate e) out).
Proof.
  intros [_ Hc Hl Hld] Hb Hv Hs Hm. split; simpl; try done.
  - intros l He. destruct (Hl l He) as (? & ? & ? & ? & ? & ?). unfold leader_ok. split_and!; try done. congruence.
  - intros H1. apply Hld. unfold is_leader, is_leading, ms_contains in H1 |- *. by rewrite -Hv -Hm.
Qed.

Lemma try_commit_ok g e l :
  gok g → nok g rq n e → leader e = Some l →
  wp (try_commit_quorum_accepted (quorum_accepted (progress l))) (okpost (λ _ e', nok g rq n e')) e.
Proof.
  intros Hg Hn Hl. pose proof (ok_base _ _ _ _ _ Hn) as Hb. unfold try_commit_quorum_accepted. run.
  destruct (ok_leader _ _ _ _ _ Hn l Hl) as (Hv & Hid & Hlast & Hsrv & Hp & _). set (L := leader_vote l) in *.
  rewrite (ok_vote _ _ _ _ _ Hb) Hv. destruct (match quorum_accepted (progress l) with Some _ => _ | None => _ end) eqn:Hcase; run; [done|].
  set (q := quorum_accepted (progress l)) in *.
  assert (∀ x, q = Some x → chosen qs g L (S (pos x)) ∧ in_llog g L x) as Hq.
  { intros x Hx. split; [|by apply Hp]. apply (accepted_chosen g L (progress l)); try done. rewrite Hx in Hcase.
    apply negb_false_iff in Hcase. unfold is_same_leader in Hcase. apply bool_decide_eq_true in Hcase. by rewrite -Hcase. }
  assert (∀ x, q = Some x → commit_ok m0 g n x) as Hcommit.
  { intros x Hx. destruct (Hq x Hx) as [Hch Hin]. exists L, (S (pos x)). split_and!; try done; [lia|rewrite Hv; apply vle_refl|by eapply leader_shares]. }
  set (s1 := set_io_state _ (state e)).
  assert (base_ok m0 g rq n (MkEngine (config e) s1 (seen_greater_log e) (leader e) (candidate e) (output e))) as Hb1.
  { destruct Hb. split; simpl; try done. intros c Hc%opt_lt_try_update. destruct Hc as [Hc| ->]; [by auto|].
    intros x Hx. destruct (Hq x Hx) as [Hch Hin]. exists L, (S (pos x)). split_and!; try done; [lia|by right]. }
  assert (nok g rq n (MkEngine (config e) s1 (seen_greater_log e) (leader e) (candidate e) (output e))) as Hn1
    by (by apply node_ok_state).
  pose proof (update_local_committed_ok g _ q (seen_greater_log e) (leader e) (candidate e) Hb1 Hcommit) as Hb2. cbn [state config output] in Hb2.
  destruct (update_local_committed_same q s1) as (Hs1 & Hs2 & Hs3).
  assert (nok g rq n (MkEngine (config e) (snd (update_local_committed q s1)) (seen_greater_log e) (leader e) (candidate e) (output e))) as Hn2
    by (by apply (node_ok_state g _ _ _ _ Hn1)).
  cbn [state]. destruct (fst (update_local_committed q s1)); run; [|done]. by apply (push_ok m0 rq n g _ _ _ Hn2).
Qed.

Context (Hpairs : pairs_are_quorums qs).

Lemma entry_update_matching_spec m p p' :
  entry_update_matching m p = Some p' → matching p' = m ∧ entry_allow_log_reversion p' = entry_allow_log_reversion p.
Proof. unfold entry_update_matching. destruct (inflight_ack _ _); [|done]. by intros [= <-]. Qed.

(** A node has acknowledged more. *)
Lemma progress_ok_update g L p id m ent ent' :
  progress_ok m0 g L p → try_get id p = Some ent → opt_le (matching ent) m → (∀ y, m = Some y → acked g id L y) →
  entry_update_matching m ent = Some ent' →
  let p' := snd (update_with id (λ _, ent') p) in
  progress_ok m0 g L p' ∧ fst (update_with id (λ _, ent') p) = Okay (quorum_accepted p').
Proof.
  intros (Hok & Hqs & Hids & Hack & Hqa & Hrev) Hget Hle Hm [Hm' Hrev']%entry_update_matching_spec p'.
  destruct (update_with_ok p id (λ _, ent') ent Hok Hget) as (Hok' & Hres & _).
  { change (opt_log_id_le (matching ent) (matching ent') = true). rewrite Hm'. by apply opt_log_id_le_spec. }
  { apply pairs_keep_order; try done; rewrite Hqs; done. }
  fold p' in Hok', Hres. split; [|done].
  assert (ent_rev : entry_allow_log_reversion ent' = false).
  { destruct (try_get_split p id ent Hget) as (a & x0 & b & He & _ & _ & Hv). rewrite Hrev' -Hv. apply Hrev. rewrite He. set_solver. }
  assert (∀ x y, x ∈ entries p' → matching (pval x) = Some y → acked g (pid x) L y) as Hack'.
  { intros x y Hx Hy. apply update_with_elem in Hx as [Hx|(u & _ & ->)]; [by apply Hack|]. simpl in *. apply Hm. congruence. }
  split_and!; try done.
  - unfold p'. destruct (update_with_shape p id (λ _, ent')) as [->|(? & ? & ? & ? & ? & _ & _ & _ & _ & _ & _ & -> & _)]; done.
  - intros x Hx. apply update_with_voters in Hx as (y & Hy & <-). by apply Hids.
  - intros y. unfold p'. destruct (update_with_shape p id (λ _, ent')) as [->|(? & ? & ? & ? & ? & _ & _ & _ & _ & _ & _ & _ & _ & Hcase)]; [apply Hqa|].
    destruct Hcase as [->|(z & Hz & Heq)]; [apply Hqa|]. rewrite Heq. intros Hy. by apply (Hack' z y).
  - intros x Hx. apply update_with_elem in Hx as [Hx|(u & _ & ->)]; [by apply Hrev|done].
Qed.

Lemma update_matching_ok g e l id m :
  gok g → nok g rq n e → leader e = Some l →
  (∀ ent, try_get id (progress l) = Some ent → opt_le (matching ent) m) → (∀ y, m = Some y → acked g id (leader_vote l) y) →
  wp (update_matching id m) (okpost (λ _ e', nok g rq n e')) e.
Proof.
  intros Hg Hn Hl Hle Hm. unfold update_matching. run. rewrite Hl. run.
  destruct (try_get id (progress l)) as [ent|] eqn:Hget; run. destruct (entry_update_matching m ent) as [ent'|] eqn:Hup; run.
  destruct (ok_leader _ _ _ _ _ Hn l Hl) as (Hv & Hid & Hlast & Hsrv & Hp & _).
  destruct (progress_ok_update g (leader_vote l) (progress l) id m ent ent' Hp Hget (Hle _ eq_refl) Hm Hup) as [Hp' Hres].
  destruct (update_with id (λ _, ent') (progress l)) as [r p]. simpl in Hres, Hp'. rewrite Hres. run. rewrite Hl. run.
  apply (try_commit_ok g _ (set_progress p l)); [done| |done]. by eapply set_leader_ok.
Qed.

(** Book-keeping of one entry. *)
Lemma modify_entry_ok g e l id f :
  nok g rq n e → leader e = Some l →
  (∀ v, try_get id (progress l) = Some v → matching (f v) = matching v ∧ entry_allow_log_reversion (f v) = entry_allow_log_reversion v) →
  nok g rq n (MkEngine (config e) (state e) (seen_greater_log e) (Some (set_progress (modify_entry id f (progress l)) l)) (candidate e) (output e)).
Proof.
  intros Hn Hl Hf. destruct (modify_entry_same id f (progress l) Hf) as (es & Heq & Hs). rewrite Heq.
  eapply set_leader_ok; try done. apply progress_ok_same; [|done]. by apply (ok_leader _ _ _ _ _ Hn l Hl).
Qed.

Lemma try_get_modify_entry (p : VecProgress ProgressEntry (option LogId)) id f ent :
  try_get id (modify_entry id f p) = Some ent → ∃ v, try_get id p = Some v ∧ ent = f v.
Proof.
  unfold try_get, modify_entry. destruct (vp_index p id) as [i|] eqn:Hi; [|by rewrite Hi].
  assert (vp_index (with_entries (alter (λ e, MkIdVal (pid e) (f (pval e))) i (entries p)) p) id = Some i) as ->.
  { unfold vp_index in *. simpl. revert i Hi. induction (entries p) as [|x es IH]; intros i; simpl; [done|].
    destruct (Z.eqb_spec (pid x) id) as [Hx|Hx].
    - intros [= <-]. simpl. by rewrite (proj2 (Z.eqb_eq _ _) Hx).
    - destruct (index_of es id) as [j|]; [|done]. intros [= <-]. simpl. rewrite (proj2 (Z.eqb_neq _ _) Hx).
      specialize (IH j eq_refl). by rewrite IH. }
  simpl. rewrite list_lookup_alter_eq. destruct (entries p !! i) as [x|]; [|done]. simpl. intros [= <-]. by exists (pval x).
Qed.

Lemma update_local_progress_ok g e upto :
  gok g → nok g rq n e → (∀ l x, leader e = Some l → upto = Some x → in_llog g (leader_vote l) x) →
  simu g (update_local_progress upto) e.
Proof.
  intros Hg Hn Hin. assert (∃ g', gok g' ∧ evolves m0 n g g' ∧ nok g' rq n e) as Hsame by (exists g; auto using evolves_refl).
  unfold sim, update_local_progress. destruct upto as [x|]; run; [|done]. destruct (leader e) as [l|] eqn:Hl; run.
  pose proof (ok_base _ _ _ _ _ Hn) as Hb. rewrite (ok_id _ _ _ _ _ Hb).
  destruct (try_get n (progress l)) as [ent|] eqn:Hget; run; [|done]. destruct (opt_log_id_le (Some x) (matching ent)) eqn:Hle; run; [done|].
  rewrite Hl. run. destruct (ok_leader _ _ _ _ _ Hn l Hl) as (Hv & Hid & _).
  destruct (Hin l x eq_refl eq_refl) as (lg & HL & Hx).
  destruct (ghost_ack_self m0 Hmeet n g (leader_vote l) lg (S (pos x)) Hg Hid Hv HL) as [Hg' Hev].
  { apply lookup_lt_Some in Hx. lia. }
  set (g' := MkGhost _ _) in *.
  assert (acked g' n (leader_vote l) x) as Hack.
  { split; [by exists lg|]. exists (S (pos x)). split; [lia|]. by left. }
  assert (nok g' rq n e) as Hn' by (eapply node_ok_grows; [apply Hev|done|done]). clearbody g'.
  eapply wpo_mono; [eapply (update_matching_ok g')|].
  - done.
  - eapply modify_entry_ok; done.
  - done.
  - intros ent' (v & Hv' & ->)%try_get_modify_entry. rewrite Hget in Hv'. injection Hv' as <-. simpl.
    destruct (opt_le_total (matching ent) (Some x)) as [?|Hc]; [done|]. apply opt_log_id_le_spec in Hc. congruence.
  - by intros y [= <-].
  - intros [] e' Hok. by exists g'.
Qed.

Lemma replication_purge_ok g e : nok g rq n e → wp replication_try_purge_log (okpost (λ _ e', nok g rq n e')) e.
Proof.
  intros Hn. unfold replication_try_purge_log. run. rewrite (ok_purge _ _ _ _ _ (ok_base _ _ _ _ _ Hn)). by run.
Qed.

Lemma entry_update_conflicting_spec c b p p' :
  entry_allow_log_reversion p = false → entry_update_conflicting false c b p = Some p' →
  matching p' = matching p ∧ entry_allow_log_reversion p' = entry_allow_log_reversion p.
Proof.
  unfold entry_update_conflicting. intros Hr. destruct (if b then _ else _) as [i|]; [|done]. simpl.
  destruct (searching_end p <=? c); [by intros [= <-]|]. rewrite Hr. simpl. by intros [= <-].
Qed.

(** The answer of a follower, or of the network. *)
Lemma update_progress_ok g e target res payload :
  gok g → nok g rq n e →
  (∀ l m, leader e = Some l → res = Okay (Okay m) →
     (∀ ent, try_get target (progress l) = Some ent → opt_le (matching ent) m) ∧ ∀ y, m = Some y → acked g target (leader_vote l) y) →
  wp (update_progress target res payload) (okpost (λ _ e', nok g rq n e')) e.
Proof.
  intros Hg Hn Hres. unfold update_progress. apply wpo_bind.
  assert (wp (match res with
    | Okay (Okay m) => update_matching target m
    | Okay (Failed conflict) => update_conflicting target conflict payload
    | Failed _ => let! l := the_leader in
        match try_get target (progress l) with
        | None => panic
        | Some _ => modify_leader (λ l, set_progress (modify_entry target (set_inflight INone) (progress l)) l)
        end
    end) (okpost (λ _ e', nok g rq n e')) e) as Hfirst.
  { destruct res as [[m|c]|err].
    - destruct (leader e) as [l|] eqn:Hl; [|unfold update_matching; run; by rewrite Hl].
      destruct (Hres l m eq_refl eq_refl) as [Hle Hm]. by eapply update_matching_ok.
    - unfold update_conflicting. run. destruct (leader e) as [l|] eqn:Hl; run.
      destruct (try_get target (progress l)) as [ent|] eqn:Hget; run.
      rewrite (ok_cfg _ _ _ _ _ (ok_base _ _ _ _ _ Hn)).
      destruct (entry_update_conflicting false _ _ ent) as [ent'|] eqn:Hup; run. rewrite Hl. run.
      eapply modify_entry_ok; [done|done|]. intros v Hv. rewrite Hget in Hv. injection Hv as <-.
      eapply entry_update_conflicting_spec; [|done].
      destruct (try_get_split _ _ _ Hget) as (a & x0 & b & He & _ & _ & <-).
      destruct (ok_leader _ _ _ _ _ Hn l Hl) as (_ & _ & _ & _ & Hp & _). apply Hp. rewrite He. set_solver.
    - run. destruct (leader e) as [l|] eqn:Hl; run. destruct (try_get target (progress l)) as [ent|] eqn:Hget; run.
      rewrite Hl. run. by eapply modify_entry_ok. }
  eapply wpo_mono; [exact Hfirst|]. intros [] e' Hok. by apply replication_purge_ok.
Qed.

Lemma update_leader_clock_ok g e id t : nok g rq n e → wp (update_leader_clock id t) (okpost (λ _ e', nok g rq n e')) e.
Proof.
  intros Hn. unfold update_leader_clock. run. destruct (leader e) as [l|] eqn:Hl; run.
  destruct (increase_to id (Some t) (clock_progress l)) as [[r|r] p]; run. rewrite Hl. run.
  eapply set_leader_ok; try done. by apply (ok_leader _ _ _ _ _ Hn l Hl).
Qed.

Lemma core_heartbeat_ok g e : nok g rq n e → wp core_send_heartbeat (okpost (λ _ e', nok g rq n e' ∧ is_Some (leader e') = is_Some (leader e))) e.
Proof.
  intros Hn. unfold core_send_heartbeat, leader_handler. run. destruct (leader e) as [l|] eqn:Hl; run; [|by rewrite Hl].
  destruct (transfer_to l); run; [by rewrite Hl|]. unfold send_heartbeat. run. rewrite Hl. run. simpl. rewrite Hl. split; [|done].
  rewrite -Hl. by apply push_ok.
Qed.

Lemma transfer_leader_ok g e to : nok g rq n e → wp (trigger_transfer_leader to) (okpost (λ _ e', nok g rq n e')) e.
Proof.
  intros Hn. unfold trigger_transfer_leader. run. destruct (leader e) as [l|] eqn:Hl; run; [|done].
  unfold transfer_leader. run. rewrite Hl. run. cbn [leader]. run.
  destruct (ok_leader _ _ _ _ _ Hn l Hl) as (Hv & Hid & Hlast & Hsrv & Hp & _).
  assert (nok g rq n (MkEngine (config e) (state e) (seen_greater_log e) (Some (mark_transfer to l)) (candidate e) (output e))) as Hn1
    by (by eapply set_leader_ok).
  assert (nok g rq n (MkEngine (config e) (set_vote_leased (disable_lease (rs_vote (state e))) (state e)) (seen_greater_log e)
    (Some (mark_transfer to l)) (candidate e) (output e))) as Hn2.
  { apply (node_ok_state g _ _ _ _ Hn1); try done. by apply (base_ok_state m0 rq n g _ _ _ _ _ (ok_base _ _ _ _ _ Hn1)). }
  by apply (push_ok m0 rq n g _ _ _ Hn2).
Qed.

End Lead.
