(* ===== verification/RaftSimElect.v ===== *)
(** The engine takes steps of the protocol: counting votes and taking office. *)

From stdpp Require Import functions strings.
From S2P Require Import Prelude LogStore RaftQuorum RaftMembership RaftLogIds RaftProgress RaftState RaftEngine RaftCore RaftNet RaftProtocol RaftSim RaftSimVote RaftSimLead.

#[local] Open Scope Z_scope.

Section Elect.
Context (m0 : Membership) (rq : list AppendEntriesRequest) (n : Z).
Context (Hmeet : quorums_meet (to_quorum_set m0) (to_quorum_set m0)).
Context (Hvalid : configs m0 ≠ []) (Hsome : Forall (λ c, c ≠ ∅) (configs m0)).

Abbreviation qs := (to_quorum_set m0).
Abbreviation nok := (node_ok m0).
Abbreviation gok := (ghost_ok m0).
Abbreviation simu := (sim m0 rq n).

(** * Votes that are known already *)

Lemma calc_leader s : is_leader s n = true → calc_server_state s n = LeaderState.
Proof. intros Hl. unfold calc_server_state. by rewrite Hl. Qed.

Lemma set_leader_vote_same l : set_leader_vote (leader_vote l) l = l.
Proof. by destruct l. Qed.

Lemma update_internal_ok now g e :
  nok g rq n e → wp (update_internal_server_state now) (okpost (λ _ e', nok g rq n e')) e.
Proof.
  intros Hn. pose proof (ok_base _ _ _ _ _ Hn) as Hb. unfold update_internal_server_state. run. rewrite (ok_id _ _ _ _ _ Hb).
  destruct (is_leader (state e) n) eqn:Hld; [|destruct (is_leading (state e) n); run; [done|]].
  - unfold become_leader. run. pose proof (ok_leading _ _ _ _ _ Hn Hld) as Hne. destruct (leader e) as [l|] eqn:Hl; [|done].
    destruct (ok_leader _ _ _ _ _ Hn l Hl) as (Hv & Hid & Hlast & Hsrv & Hp & _).
    rewrite (ok_vote _ _ _ _ _ Hb) Hv. simpl. rewrite bool_decide_true //. run. rewrite Hl. run.
    unfold to_committed. simpl. rewrite set_leader_vote_same. unfold update_server_state_if_changed. run. cbn.
    rewrite (ok_id _ _ _ _ _ Hb) calc_leader // Hsrv bool_decide_true //.
    replace (MkEngine (config e) (state e) (seen_greater_log e) (Some l) (candidate e) (output e)) with e; [done|].
    rewrite -Hl. by destruct e.
  - eapply wpo_mono; [by apply (become_following_ok m0 rq n g)|]. by intros [] e' (? & _).
Qed.

Lemma update_vote_known now g e v :
  gok g → nok g rq n e → known g v → simu g (update_vote now v) e.
Proof.
  intros Hg Hn Hk. destruct (decide (node_id (vote_leader v) = n)) as [Heq|Hne].
  - pose proof (ok_base _ _ _ _ _ Hn) as Hb. unfold sim, update_vote. run.
    destruct (vote_le (vote_ref (state e)) v) eqn:Hle; run; [|exists g; auto using evolves_refl].
    apply vote_le_spec in Hle. rewrite (ok_vote _ _ _ _ _ Hb) in Hle. destruct Hk as [Hk _]. rewrite Heq in Hk.
    pose proof (vle_antisym _ _ Hle Hk) as <-.
    assert (vote_lt (vote_ref (state e)) (nvote g n) = false) as ->.
    { apply not_true_iff_false. rewrite vote_lt_spec (ok_vote _ _ _ _ _ Hb). by intros []. }
    run. eapply wpo_mono; [apply (update_internal_ok now g)|].
    + apply (node_ok_state m0 rq n g); try done. by apply (base_ok_state m0 rq n g).
    + intros [] e' Hok. run. exists g. auto using evolves_refl.
  - eapply wpo_mono; [by apply (update_vote_foreign m0 rq n Hmeet)|]. intros r e' (g' & ? & ? & ? & _). by exists g'.
Qed.

(** * Taking office *)

Lemma rebuild_streams_raw e l :
  leader e = Some l →
  wp rebuild_replication_streams (okpost (λ _ e', ∃ es ts, same_progress (entries (progress l)) es
    ∧ e' = MkEngine (config e) (state e) (seen_greater_log e) (Some (set_progress (with_entries es (progress l)) l)) (candidate e)
             (output e ++ [RebuildReplicationStreams ts]))) e.
Proof.
  intros Hl. unfold rebuild_replication_streams. run. rewrite Hl. run. eexists _, _. split; [|done].
  induction (entries (progress l)) as [|x es IH]; simpl; [constructor|]. constructor; [|done].
  by destruct (pid x =? cfg_id (config e)).
Qed.

(** The candidate's own vote becomes committed. *)
Lemma update_vote_own now (g g1 : Ghost) e l :
  gok g → base_ok m0 g rq n e → leader e = Some l → candidate e = None →
  nvote g n = MkVote (leader_vote l) false → node_id (leader_vote l) = n →
  grows n g g1 → nvote g1 n = MkVote (leader_vote l) true → nlog g1 n = nlog g n →
  wp (update_vote now (MkVote (leader_vote l) true)) (okpost (λ _ e', base_ok m0 g1 rq n e' ∧ candidate e' = None
    ∧ (leader e' = None ∨ leader e' = Some l ∧ server_state (state e') = LeaderState))) e.
Proof.
  intros Hg Hb Hl Hc Hv Hid Hgr Hv1 Hlog1. unfold update_vote. run. set (v := MkVote (leader_vote l) true) in *.
  assert (vle (nvote g n) v) as Hle by (rewrite Hv; right; done).
  assert (vote_lt (vote_ref (state e)) v = true) as Hlt.
  { apply vote_lt_spec. rewrite (ok_vote _ _ _ _ _ Hb). split; [done|]. by rewrite Hv. }
  assert (vote_le (vote_ref (state e)) v = true) as -> by (apply vote_le_spec; by rewrite (ok_vote _ _ _ _ _ Hb)).
  rewrite Hlt. run. unfold update_internal_server_state. run.
  set (ls := leased_update now _ v).
  pose proof (raise_base m0 rq n g e v (seen_greater_log e) ls (candidate e) (leader e) Hg Hb Hle Hlt eq_refl g1 Hgr Hv1 Hlog1 ltac:(done)) as Hb2.
  set (e2 := MkEngine _ _ _ _ _ _) in Hb2. change (wp _ _ _) with
    (wp (if is_leader (state e2) (cfg_id (config e2)) then become_leader now
         else if is_leading (state e2) (cfg_id (config e2)) then ret tt else become_following)
      (okpost (λ _, wp (ret (Okay tt)) (okpost (λ (_ : Result unit RejectVoteRequest) e', base_ok m0 g1 rq n e' ∧ candidate e' = None
         ∧ (leader e' = None ∨ leader e' = Some l ∧ server_state (state e') = LeaderState))))) e2).
  rewrite (ok_id _ _ _ _ _ Hb2). destruct (is_leader (state e2) n) eqn:Hld.
  - unfold become_leader. run. assert (leader e2 = Some l) as -> by done.
    rewrite (ok_vote _ _ _ _ _ Hb2) Hv1. simpl. rewrite bool_decide_true //. run.
    assert (leader e2 = Some l) as -> by done. run. unfold to_committed. simpl. rewrite set_leader_vote_same.
    unfold update_server_state_if_changed. run. cbn [config state leader candidate output seen_greater_log].
    rewrite (ok_id _ _ _ _ _ Hb2) calc_leader //. split_and!; [|done|right; split; [done|by case_bool_decide]].
    apply (base_ok_state m0 rq n g1 e2); try done; by case_bool_decide.
  - assert (is_leading (state e2) n = false) as ->.
    { unfold is_leader in Hld. rewrite (ok_vote _ _ _ _ _ Hb2) Hv1 andb_true_r in Hld. done. }
    eapply wpo_mono; [by apply (become_following_ok m0 rq n g1)|]. intros [] e' (Hok & Hl' & Hc'). run.
    split_and!; [apply Hok|done|by left].
Qed.

Lemma new_progress_ok (s : Net) L v :
  matching v = None → entry_allow_log_reversion v = false → progress_ok m0 s L (vp_new qs (learner_ids m0) v).
Proof.
  intros Hm Hr.
  assert (∀ x, x ∈ entries (vp_new qs (learner_ids m0) v) → pval x = v) as Hval.
  { simpl. intros x [(id & -> & _)%list_elem_of_fmap|(id & -> & _)%list_elem_of_fmap]%elem_of_app; done. }
  split_and!; try done.
  - by apply membership_progress_ok.
  - unfold voters. simpl. intros x. rewrite take_app_length. by intros (id & -> & Hid)%list_elem_of_fmap.
  - intros x y Hx. rewrite Hval // Hm. done.
  - simpl. unfold borrow, progress_entry_borrow. by rewrite Hm.
  - intros x Hx. by rewrite Hval.
Qed.

Lemma establish_ok now g e c :
  gok g → nok g rq n e → candidate e = Some c → quorum_accepted (cand_progress c) = true → simu g (establish_leader now) e.
Proof.
  intros Hg Hn Hc Hq. pose proof (ok_base _ _ _ _ _ Hn) as Hb.
  destruct (ok_cand _ _ _ _ _ Hn c Hc) as (Hcv & Hcm & Hid & Hreq & Hcq & Hcl & Hvp & Hvq & Hgr).
  assert (leader e = None) as Hl.
  { destruct (leader e) as [l|] eqn:Hl; [|done]. by rewrite (leader_no_candidate m0 rq n g e l) in Hc. }
  unfold sim, establish_leader. run. rewrite Hc. run. rewrite Hl. run.
  set (L := vote_leader (cand_vote c)) in *.
  assert (nvote g n = MkVote L false) as Hv.
  { rewrite -Hcv. unfold L. destruct (cand_vote c) as [? b]. simpl in *. by subst b. }
  destruct (ghost_establish m0 Hmeet n g L (reached true (voters (cand_progress c)))) as [Hg1 Hev1]; [done|done|done| | | |].
  { apply NoDup_reached, NoDup_voter_pids. apply Hvp. }
  { destruct Hvp as (_ & _ & _ & _ & _ & [Hqq _]). by rewrite Hq Hvq in Hqq. }
  { intros m (x & Hx & <- & Hle)%elem_of_reached. apply Hgr; [|by destruct (pval x)].
    unfold voters in Hx. apply elem_of_take in Hx as (i & Hi & _). by eapply list_elem_of_lookup_2. }
  set (g1 := MkGhost _ _) in *. pose proof Hev1 as [_ Hgr1].
  assert (nvote g1 n = MkVote L true) as Hv1 by (simpl; by rewrite fn_lookup_insert).
  assert (llog g1 L = Some (nlog g n)) as HL1 by (simpl; by rewrite fn_lookup_insert).
  assert (nlog g1 n = nlog g n) as Hlog1 by done.
  assert (cand_last_log_id c = last (nlog g n)) as Hlst.
  { destruct Hg as (Hinv & _). destruct (inv_reqs _ _ Hinv _ _ Hreq) as (_ & _ & H3 & _). rewrite Hid in H3. symmetry. by apply H3. }
  clearbody g1.
  assert (progress_ok m0 g1 L (progress (into_leader now c))) as Hp.
  { unfold into_leader, leader_new. simpl. rewrite Hcq Hcl. by apply new_progress_ok. }
  assert (leader_vote (into_leader now c) = L) as HLv by done.
  assert (leader_last_log_id (into_leader now c) = last (nlog g n)) as Hlast.
  { unfold into_leader, leader_new. simpl. rewrite Hlst. by destruct (last (nlog g n)). }
  assert (noop_ok g1 n (into_leader now c)) as Hno.
  { assert (noop_log_id (into_leader now c) = MkLogId L (len (nlog g n))) as Heq.
    { pose proof Hg as (Hinv & _). destruct (inv_reqs _ _ Hinv _ _ Hreq) as (_ & _ & _ & Hlt & _). unfold into_leader, leader_new. simpl.
      rewrite -(next_index_log m0 g n) // -Hlst. destruct (cand_last_log_id c) as [f|]; [|done]. simpl.
      case_bool_decide as Hf; [|done]. specialize (Hlt f eq_refl). rewrite Hf in Hlt. by apply leader_id_lt_irrefl in Hlt. }
    split; rewrite Heq; [done|]. intros x Hx. right. rewrite Hlog1 in Hx. apply list_elem_of_lookup in Hx as [i Hi].
    pose proof (log_consecutive m0 g n Hg _ _ Hi). apply lookup_lt_Some in Hi. simpl. unfold len. lia. }
  set (l := into_leader now c) in *. clearbody l.
  eapply wpo_mono; [by eapply (rebuild_streams_raw _ l)|]. intros [] e2 (es & ts & Hsame & ->).
  run. cbn [config state seen_greater_log candidate output]. set (l2 := set_progress _ l).
  set (e2 := MkEngine _ _ _ _ _ _).
  assert (base_ok m0 g rq n e2) as Hb2 by (by apply base_push).
  assert (leader_vote l = leader_vote l2) as Hvl by done. rewrite Hvl.
  eapply wpo_mono.
  { apply (update_vote_own now g g1 e2 l2); try done; rewrite -Hvl HLv; done. }
  intros r e3 (Hb3 & Hc3 & Hl3). run.
  destruct Hl3 as [Hl3|[Hl3 Hs3]].
  { unfold leader_append_entries. run. cbn. by rewrite Hl3. }
  rewrite -Hvl HLv Hlast.
  set (e4 := MkEngine _ _ _ _ _ _).
  assert (acc_ok g1 n (new_log_io L (last (nlog g n)))) as Hacc.
  { split; [done|]. destruct (last (nlog g n)) as [x|] eqn:Hx; [|done]. simpl.
    destruct Hg as (Hinv & _). destruct (last_lookup_matches _ _ _ (inv_log _ _ Hinv n) Hx) as [Hpx Hlen].
    exists (nlog g n). split_and!; [done|done|by rewrite Hlog1]. }
  assert (nok g1 rq n e4) as Hn4.
  { assert (∀ b : bool, is_leader (state e4) n = is_leader (state e3) n) as Hisl.
    { intros b. unfold e4, accept_log_io. simpl. by destruct (opt_lt _ _ _). }
    split.
    - destruct Hb3. unfold e4, accept_log_io. simpl. split; simpl; try done; try (by destruct (opt_lt _ _ _)).
      intros a. destruct (opt_lt _ _ _); simpl; [by intros [= <-]|auto].
    - simpl. by rewrite Hc3.
    - unfold e4. simpl. rewrite Hl3. intros k [= <-]. split_and!; simpl.
      + by rewrite HLv.
      + by rewrite HLv.
      + by rewrite Hlog1.
      + unfold accept_log_io. simpl. by destruct (opt_lt _ _ _).
      + rewrite HLv. by apply progress_ok_same.
      + exact Hno.
    - simpl. by rewrite Hl3. }
  eapply wpo_mono; [by apply (leader_append_ok m0 rq n Hmeet Hvalid Hsome g1)|].
  intros [] e5 (g2 & Hg2 & Hev2 & Hn5). exists g2. split_and!; [done|by eapply evolves_trans|done].
Qed.

(** * Counting votes *)

Lemma handle_vote_resp_ok now g e target resp :
  gok g → nok g rq n e → known g (vresp_vote resp) →
  (vote_granted resp = true → vote_committed (vresp_vote resp) = false → ∃ gl, (target, vote_leader (vresp_vote resp), gl) ∈ grants g) →
  simu g (handle_vote_resp now target resp) e.
Proof.
  intros Hg Hn Hk Hgr. unfold sim, handle_vote_resp. run.
  destruct (candidate e) as [c|] eqn:Hc; run; [|exists g; auto using evolves_refl].
  destruct (ok_cand _ _ _ _ _ Hn c Hc) as (Hcv & Hcm & Hid & Hreq & Hcq & Hcl & Hvp & Hvq & Hev).
  destruct (vote_granted resp && bool_decide (vresp_vote resp = cand_vote c)) eqn:Hgrant.
  - apply andb_true_iff in Hgrant as [Hyes Heq%bool_decide_eq_true]. rewrite Heq in Hgr. destruct (Hgr Hyes Hcm) as [gl Hgl].
    unfold grant_by, vp_update. destruct (try_get target (cand_progress c)) as [v|] eqn:Hget.
    2: { assert (update_with target (λ _, true) (cand_progress c) = (Failed (quorum_accepted (cand_progress c)), cand_progress c)) as ->; [|exact I].
         unfold try_get in Hget. unfold update_with. destruct (vp_index (cand_progress c) target) as [i|]; [|done].
         by destruct (entries (cand_progress c) !! i). }
    destruct (update_with_ok (cand_progress c) target (λ _, true) v Hvp Hget) as (Hok & Hres & _).
    { by destruct v. }
    { destruct v; [by right; left|by left]. }
    pose proof (update_with_elem (cand_progress c) target (λ _, true)) as Helem.
    pose proof (update_with_shape (cand_progress c) target (λ _, true)) as Hshape.
    destruct (update_with target (λ _, true) (cand_progress c)) as [r p]. simpl in Hok, Hres, Helem, Hshape. subst r. run.
    assert (nok g rq n (MkEngine (config e) (state e) (seen_greater_log e) (leader e)
      (Some (MkCandidate (starting_time c) (cand_vote c) (cand_last_log_id c) p (cand_quorum_set c) (cand_learner_ids c))) (output e))) as Hn1.
    { destruct Hn as [Hb _ Hl Hld]. split; simpl; try done; [destruct Hb; by split|]. intros k [= <-]. split_and!; simpl; try done.
      - destruct Hshape as [->|(? & ? & ? & ? & ? & _ & _ & _ & _ & _ & _ & Hsq & _)]; [done|congruence].
      - intros x Hx Ht. destruct (Helem x Hx) as [Hx'|(u & _ & ->)]; [by apply Hev|]. by exists gl. }
    destruct (quorum_accepted p) eqn:Hqp; run; [|exists g; auto using evolves_refl].
    by eapply (establish_ok now g).
  - apply wpo_bind. eapply wpo_mono with (Q := λ _ e', nok g rq n e').
    { destruct (opt_log_id_lt _ _); run; [|done]. destruct Hn as [Hb H1 H2 H3]. split; try done. destruct Hb; by split. }
    intros [] e1 Hn1. apply wpo_bind. eapply wpo_mono; [apply (update_vote_known now g); try done|].
    + destruct Hk as [Hk _]. split; [|done]. eapply vle_trans; [|done]. right. done.
    + intros r e2 Hok. by run.
Qed.

End Elect.
