(* ===== verification/RaftSimFollow.v ===== *)
(** The engine takes steps of the protocol: a node that follows a leader. *)

From stdpp Require Import functions strings.
From S2P Require Import Prelude LogStore RaftQuorum RaftMembership RaftLogIds RaftProgress RaftState RaftEngine RaftCore RaftNet RaftProtocol RaftSim RaftSimVote RaftSimLead.

#[local] Open Scope Z_scope.

(** Accepting a leader's entries keeps every prefix that the two logs share. *)
Lemma accept_keeps (a lg : list LogId) j k :
  take k a = take k lg → take k (accept_log a lg j) = take k a.
Proof.
  intros Hk. unfold accept_log. case_bool_decide as Hj; [done|]. rewrite take_take Hk. f_equal.
  destruct (Nat.le_gt_cases k j) as [?|Hlt]; [lia|]. destruct Hj. by apply (take_eq_le _ _ _ k); [lia|].
Qed.

Lemma reject_keeps (a lg : list LogId) i x k :
  lg !! i = Some x → a !! i ≠ Some x → take k a = take k lg → take k (take i a) = take k a.
Proof.
  intros Hx Hnx Hk. rewrite take_take. f_equal. destruct (Nat.le_gt_cases k i) as [?|Hlt]; [lia|]. destruct Hnx.
  apply (take_S_lookup lg); [|done]. symmetry. apply (take_eq_le _ _ _ k); [lia|done].
Qed.

(** What [collect_memberships] finds where there are none. *)
Lemma collect_none es acc : (∀ e, e ∈ es → get_membership e = None) → collect_memberships es acc = acc.
Proof.
  revert acc. induction es as [|e es IH]; intros acc Hes; [done|]. simpl. rewrite Hes; [set_solver|]. apply IH. set_solver.
Qed.

Section Follow.
Context (m0 : Membership) (rq : list AppendEntriesRequest) (n : Z).
Context (Hmeet : quorums_meet (to_quorum_set m0) (to_quorum_set m0)).

Abbreviation qs := (to_quorum_set m0).
Abbreviation nok := (node_ok m0).
Abbreviation gok := (ghost_ok m0).

(** Node [n] follows [L], whose log is [lg]. *)
Section Leader.
Context (L : LeaderId) (lg : list LogId).

Definition follows (g : Ghost) : Prop := nvote g n = MkVote L true ∧ llog g L = Some lg ∧ node_id L ≠ n.

(** Leader completeness: what the node holds for committed is in the leader's log. *)
Lemma committed_shared g x :
  gok g → follows g → commit_ok m0 g n x → take (S (pos x)) (nlog g n) = take (S (pos x)) lg.
Proof.
  intros (Hinv & _) (Hv & HL & _) (L1 & k & Hch & Hk & Hle & lg1 & HL1 & Hx & Ht). rewrite Ht Hv in Hle |- *.
  destruct Hle as [Hlt|[Heq _]]; simpl in *.
  - symmetry. apply (take_eq_le _ _ _ k); [lia|]. by apply (chosen_in_later qs Hmeet g L1 k L).
  - subst L1. congruence.
Qed.

Lemma accepted_shared g x : follows g → acc_ok g n (new_log_io L (Some x)) → take (S (pos x)) (nlog g n) = take (S (pos x)) lg.
Proof. intros (_ & HL & _) [_ (lg' & HL' & _ & Ht)]. congruence. Qed.

Lemma get_log_id_ok g st k : gok g → log_ids st = keys (nlog g n) → get_log_id st (Z.of_nat k) = nlog g n !! k.
Proof.
  intros Hg Hb. unfold get_log_id. rewrite Hb (ref_at_keys 0); [by eapply log_consecutive|].
  rewrite Z.sub_0_r Nat2Z.id. rewrite (proj2 (Z.leb_le _ _)) //. lia.
Qed.

(** [has_log_id] answers for the entries of the leader's log. *)
Lemma has_log_id_ok g e k x :
  gok g → base_ok m0 g rq n e → follows g → lg !! k = Some x → has_log_id (state e) x = bool_decide (nlog g n !! k = Some x).
Proof.
  intros Hg Hb Hf Hx. pose proof Hf as (_ & HL & _). pose proof Hg as (Hinv & _).
  destruct (inv_llog _ _ Hinv _ _ HL k x Hx) as [Hi _]. unfold has_log_id. rewrite Hi (get_log_id_ok g) //; [by apply Hb|].
  destruct (Z.ltb_spec (Z.of_nat k) (next_index (committed (state e)))) as [Hlt|Hge].
  - symmetry. apply bool_decide_eq_true. destruct (committed (state e)) as [c|] eqn:Hc; simpl in Hlt; [|lia].
    pose proof (committed_shared g c Hg Hf (ok_committed _ _ _ _ _ Hb c Hc)) as Ht.
    apply (take_S_lookup lg); [|done]. symmetry. apply (take_eq_le _ _ _ (S (pos c))); [lia|done].
  - destruct (nlog g n !! k) as [y|]; [|by rewrite bool_decide_false].
    destruct (decide (x = y)) as [->|Hne]; [by rewrite !bool_decide_true|]. rewrite !bool_decide_false //. congruence.
Qed.

(** A node whose log changes, but not where it is shared with the leader's. *)
Lemma follow_base g g' e st cs :
  gok g → base_ok m0 g rq n e → follows g → grows n g g' → nvote g' n = nvote g n →
  (∀ k, take k (nlog g n) = take k lg → take k (nlog g' n) = take k (nlog g n)) →
  map log_id (replay (wlog m0 e) cs) = nlog g' n → (∀ x, x ∈ replay (wlog m0 e) cs → content_ok g' x) →
  log_ids st = keys (nlog g' n) → vote_ref st = vote_ref (state e) →
  ms_effective (membership_state st) = ms_effective (membership_state (state e)) → purge_upto st = purge_upto (state e) →
  accepted (log_progress (io_state st)) = accepted (log_progress (io_state (state e)))
    ∨ (∃ a, accepted (log_progress (io_state st)) = Some a ∧ acc_ok g' n a) →
  cluster_committed (io_state st) = cluster_committed (io_state (state e)) → committed st = committed (state e) →
  (∀ c, c ∈ cs → cmd_ok g' rq n c) →
  base_ok m0 g' rq n (MkEngine (config e) st (seen_greater_log e) (leader e) (candidate e) (output e ++ cs)).
Proof.
  intros Hg Hb Hf Hgr Hv Hkeep Hlog Hct Hids E1 E2 E3 Hacc E4 E5 Hout. pose proof Hf as (Hvn & HL & _).
  assert (wlog m0 (MkEngine (config e) st (seen_greater_log e) (leader e) (candidate e) (output e ++ cs)) = replay (wlog m0 e) cs) as Hw
    by (unfold wlog; simpl; by rewrite replay_app).
  pose proof Hb as [H1 H2 H3 H4 H5 H6 H7 H8 H9 H10 H11 H12].
  split; try rewrite Hw; simpl; try done; try congruence.
  - intros a Ha. destruct Hacc as [Hsame|(a' & Ha' & Hok)]; [|congruence]. rewrite Hsame in Ha.
    pose proof (H9 a Ha) as [Hav Has]. split; [congruence|]. destruct a as [|[La [x|]]]; try done.
    simpl in Hav. rewrite Hvn in Hav. injection Hav as ->. eapply shares_grows; [done| |done]. apply Hkeep.
    apply (accepted_shared g); [done|]. by apply H9.
  - rewrite E4. intros c Hc. eapply cluster_ok_grows; eauto.
  - rewrite E5. intros x Hx. eapply commit_ok_grows; [done| |by apply H11]. apply Hkeep. by apply committed_shared; auto.
  - intros c [Hc|Hc]%elem_of_app; [|by apply Hout]. eapply cmd_ok_grows; [done|]. by apply H12.
Qed.

(** * Cutting and extending the log *)

Lemma set_log_ids_same st ks : log_ids st = ks → set_log_ids ks st = st.
Proof. intros <-. by destruct st. Qed.
Lemma set_membership_state_same st : set_membership_state (membership_state st) st = st.
Proof. by destruct st. Qed.

Lemma truncate_logs_raw g e k :
  gok g → log_ids (state e) = keys (nlog g n) → ms_effective (membership_state (state e)) = em0 m0 →
  map log_id (wlog m0 e) = nlog g n → (0 < k)%nat →
  wp (truncate_logs (Z.of_nat k)) (okpost (λ _ e', ∃ cs,
    e' = MkEngine (config e) (set_log_ids (keys (take k (nlog g n))) (state e)) (seen_greater_log e) (leader e) (candidate e) (output e ++ cs)
    ∧ replay (wlog m0 e) cs = take k (wlog m0 e) ∧ ∀ c, c ∈ cs → ∃ x, c = TruncateLog x)) e.
Proof.
  intros Hg Hids Hem Hlog Hk. unfold truncate_logs. run. rewrite (get_log_id_ok g) //.
  assert (length (wlog m0 e) = length (nlog g n)) as Hlen by (by rewrite -Hlog length_map).
  destruct (nlog g n !! k) as [x|] eqn:Hx; run.
  - assert (ms_truncate (Z.of_nat k) (membership_state (state e)) = (membership_state (state e), false)) as ->.
    { unfold ms_truncate. rewrite Hem. simpl. rewrite (proj2 (Z.leb_gt _ _)) //. lia. }
    run. exists [TruncateLog x]. split_and!.
    + f_equal. rewrite (set_membership_state_same (set_log_ids _ _)). f_equal.
      rewrite Hids (truncate_keys 0); [by eapply log_consecutive|]. by rewrite Z.sub_0_r Nat2Z.id.
    + simpl. by rewrite (log_consecutive m0 g n Hg k x Hx) /= Nat2Z.id.
    + intros c ->%list_elem_of_singleton. by exists x.
  - apply lookup_ge_None in Hx. exists []. split_and!.
    + rewrite app_nil_r set_log_ids_same; [by rewrite take_ge|by destruct e].
    + by rewrite take_ge; [lia|].
    + by intros c ?%elem_of_nil.
Qed.

Lemma do_append_raw v e es :
  (∀ x, x ∈ es → get_membership x = None) →
  wp (do_append_entries v es) (okpost (λ _ e',
    e' = MkEngine (config e) (set_log_ids (extend (log_ids (state e)) (map log_id es)) (state e)) (seen_greater_log e) (leader e) (candidate e)
           (output e ++ [AppendEntries v es]))) e.
Proof.
  intros Hes. unfold do_append_entries, append_membership, last_two_memberships. rewrite collect_none.
  { intros x Hx%list_elem_of_In. apply Hes, list_elem_of_In. by rewrite -in_rev in Hx. }
  by run.
Qed.

Lemma last_take_lg i x : (i ≤ length lg)%nat → last (take i lg) = Some x → (0 < i)%nat ∧ lg !! (i - 1)%nat = Some x.
Proof.
  intros Hi Hl. destruct i as [|i]; [done|]. split; [lia|]. rewrite last_lookup length_take Nat.min_l // in Hl. simpl in Hl.
  rewrite lookup_take_lt in Hl; [lia|]. by rewrite Nat.sub_1_r.
Qed.

(** A node that follows has no proposer. *)
Definition follower_ok (g : Ghost) (e : Engine) : Prop := nok g rq n e ∧ leader e = None ∧ candidate e = None.

Lemma follower_intro g e : base_ok m0 g rq n e → follows g → leader e = None → candidate e = None → follower_ok g e.
Proof.
  intros Hb (Hv & _ & Hne) Hl Hc. split; [|done]. split; [done|by rewrite Hc|by rewrite Hl|].
  intros [Hid _]%is_leader_vote. rewrite (ok_vote _ _ _ _ _ Hb) Hv in Hid. done.
Qed.

Lemma ensure_ok g e i :
  gok g → follower_ok g e → follows g → (i ≤ length lg)%nat →
  wp (ensure_log_consecutive (last (take i lg))) (okpost (λ r e',
    match r with
    | Okay _ => e' = e ∧ take i (nlog g n) = take i lg ∧ (i ≤ length (nlog g n))%nat
    | Failed (ByConflictingLogId _ _) => ∃ g', gok g' ∧ evolves m0 n g g' ∧ nok g' rq n e'
    | Failed (RejectByVote _) => False
    end)) e.
Proof.
  intros Hg (Hn & Hl & Hc) Hf Hi. pose proof (ok_base _ _ _ _ _ Hn) as Hb. pose proof Hf as (Hv & HL & Hne).
  pose proof Hg as (Hinv & _). unfold ensure_log_consecutive. run.
  destruct (last (take i lg)) as [p|] eqn:Hp; run.
  2: { apply last_None in Hp. destruct i as [|i]; [split_and!; [done|done|lia]|]. destruct lg; [simpl in Hi; lia|done]. }
  apply last_take_lg in Hp as [Hpos Hp]; [|done]. rewrite (has_log_id_ok g e (i - 1)) //.
  destruct (inv_llog _ _ Hinv _ _ HL _ _ Hp) as [Hidx _].
  case_bool_decide as Hhas; run.
  - split_and!; [done| |apply lookup_lt_Some in Hhas; lia].
    replace i with (S (i - 1)) by lia. by apply (matches_agree (llog g) _ _ _ p); [apply (inv_log _ _ Hinv)|by eapply (inv_llog _ _ Hinv)|..].
  - destruct (ghost_reject m0 Hmeet n g L lg (i - 1) p Hg Hne HL Hv Hp Hhas) as [Hg' Hev]. set (g' := MkGhost _ _) in *.
    assert (nlog g' n = take (i - 1) (nlog g n)) as Hlog' by (simpl; by rewrite fn_lookup_insert).
    assert (nvote g' n = nvote g n) as Hv' by (simpl; by rewrite fn_lookup_insert). assert (llog g' L = Some lg) as HL' by done.
    clearbody g'.
    assert (0 < i - 1)%nat as Hpos'.
    { destruct (i - 1)%nat; [|lia]. destruct Hg as (_ & _ & [Hh1 Hh2] & _). rewrite (Hh2 L lg HL) in Hp. rewrite Hh1 in Hhas. congruence. }
    rewrite Hidx. eapply wpo_mono; [by apply (truncate_logs_raw g); auto; apply Hb|]. intros [] e' (cs & -> & Hrep & Hcs). run.
    exists g'. split_and!; [done|done|]. apply follower_intro; [|by split_and!; [congruence|..]|done|done].
    apply (follow_base g g' e); try done.
    + apply Hev.
    + intros k Hk. rewrite Hlog'. by eapply reject_keeps.
    + by rewrite Hrep -firstn_map (ok_log _ _ _ _ _ Hb) Hlog'.
    + intros x. rewrite Hrep. intros (q & Hq & _)%elem_of_take. destruct Hev as [_ (_ & _ & _ & _ & _ & _ & Hct)]. apply Hct.
      apply (ok_content _ _ _ _ _ Hb). by eapply list_elem_of_lookup_2.
    + simpl. by rewrite Hlog'.
    + by left.
    + by intros c [x ->]%Hcs.
Qed.

(** * Accepting entries *)

Lemma lg_order g p q x y : gok g → llog g L = Some lg → lg !! p = Some x → lg !! q = Some y → (p ≤ q)%nat → opt_le (Some x) (Some y).
Proof.
  intros (Hinv & _) HL Hx Hy Hpq. pose proof (inv_llog _ _ Hinv _ _ HL) as Hm.
  destruct (Hm p x Hx) as [Hix _]. destruct (Hm q y Hy) as [Hiy _].
  destruct (matches_monotone _ lg p q x y Hm (inv_llog_le _ _ Hinv) Hpq Hx Hy) as [Hlt|Heq]; [right; by left|].
  destruct (decide (p = q)) as [->|Hne]; [left; congruence|]. right. right. split; [done|lia].
Qed.

Lemma stretch_app i j : (i ≤ j)%nat → take j lg = take i lg ++ take (j - i) (drop i lg).
Proof. intros Hij. replace j with (i + (j - i))%nat at 1 by lia. by rewrite take_take_drop. Qed.

Lemma max_last g i j (es : list MEntry) :
  gok g → llog g L = Some lg → (i ≤ j ≤ length lg)%nat → map log_id es = take (j - i) (drop i lg) →
  opt_log_id_max (last (take i lg)) (log_id <$> last es) = last (take j lg).
Proof.
  intros Hg HL Hij Hes.
  assert (log_id <$> last es = last (take (j - i) (drop i lg))) as ->.
  { rewrite -Hes. by rewrite -fmap_last. }
  rewrite (stretch_app i j); [lia|]. rewrite last_app. unfold opt_log_id_max.
  destruct (last (take (j - i) (drop i lg))) as [y|] eqn:Hy.
  - destruct (opt_log_id_le (last (take i lg)) (Some y)) eqn:Hle; [done|]. exfalso. apply not_true_iff_false in Hle. apply Hle.
    apply opt_log_id_le_spec. destruct (last (take i lg)) as [x|] eqn:Hx; [|done].
    apply last_take_lg in Hx as [Hi Hx]; [|lia].
    rewrite last_lookup length_take length_drop Nat.min_l in Hy; [lia|].
    assert (j - i ≠ 0)%nat as Hd by (intros Hd; by rewrite Hd in Hy).
    rewrite lookup_take_lt in Hy; [lia|]. rewrite lookup_drop in Hy. eapply (lg_order g); [done|done|exact Hx|exact Hy|lia].
  - destruct (last (take i lg)); done.
Qed.

Lemma sent_last_spec i j (es : list MEntry) :
  (i ≤ j)%nat → map log_id es = take (j - i) (drop i lg) →
  match last es with Some e => Some (log_id e) | None => last (take i lg) end = last (take j lg).
Proof.
  intros Hij Hes. rewrite (stretch_app i j) // last_app -Hes.
  assert (last (map log_id es) = log_id <$> last es) as -> by (by rewrite -fmap_last). by destruct (last es).
Qed.

Lemma first_conflicting_spec g e d i :
  gok g → base_ok m0 g rq n e → follows g → (i + d ≤ length lg)%nat → take i (nlog g n) = take i lg → (i ≤ length (nlog g n))%nat →
  let c := first_conflicting_index (state e) (take d (drop i lg)) in
  (c ≤ d)%nat ∧ take (i + c) (nlog g n) = take (i + c) lg ∧ (i + c ≤ length (nlog g n))%nat
  ∧ ((c < d)%nat → nlog g n !! (i + c)%nat ≠ lg !! (i + c)%nat).
Proof.
  intros Hg Hb Hf. revert i. induction d as [|d IH]; intros i Hd Ht Hi; simpl.
  { rewrite Nat.add_0_r. split_and!; [lia|done|done|lia]. }
  destruct (lookup_lt_is_Some_2 lg i) as [x Hx]; [lia|]. rewrite (drop_S _ x) //. simpl. rewrite (has_log_id_ok g e i) //.
  case_bool_decide as Hhas.
  - destruct (IH (S i)) as (Hc & Htc & Hlc & Hne); [lia| |apply lookup_lt_Some in Hhas; lia|].
    { by rewrite (take_S_r _ _ _ Hhas) (take_S_r _ _ _ Hx) Ht. }
    rewrite -Nat.add_succ_comm. split_and!; [lia|done|done|]. intros Hlt. apply Hne. lia.
  - rewrite Nat.add_0_r. split_and!; [lia|done|done|]. intros _. congruence.
Qed.

Lemma has_log_id_accept st a : has_log_id (snd (accept_log_io a st)) = has_log_id st.
Proof. unfold accept_log_io. simpl. by destruct (opt_lt _ _ _). Qed.
Lemma first_conflicting_accept st a ids : first_conflicting_index (snd (accept_log_io a st)) ids = first_conflicting_index st ids.
Proof. induction ids as [|x ids IH]; [done|]. cbn [first_conflicting_index]. by rewrite has_log_id_accept IH. Qed.

(** What a state keeps when an I/O is accepted. *)
Lemma accept_log_io_same a st : let st' := snd (accept_log_io a st) in
  log_ids st' = log_ids st ∧ vote_ref st' = vote_ref st ∧ membership_state st' = membership_state st ∧ purge_upto st' = purge_upto st
  ∧ cluster_committed (io_state st') = cluster_committed (io_state st) ∧ committed st' = committed st
  ∧ (accepted (log_progress (io_state st')) = accepted (log_progress (io_state st))
     ∨ accepted (log_progress (io_state st')) = Some a).
Proof. unfold accept_log_io. simpl. destruct (opt_lt _ _ _); split_and!; auto. Qed.

Lemma accept_log_take (a : list LogId) j : take j (accept_log a lg j) = take j lg.
Proof. unfold accept_log. case_bool_decide; [done|]. by rewrite take_take_ge. Qed.

Lemma no_membership g x : gok g → content_ok g x → log_id x ≠ default_log_id → get_membership x = None.
Proof.
  intros (_ & _ & _ & _ & Hcm) Hc Hne. unfold get_membership. unfold content_ok in Hc. destruct (payload x); try done.
  destruct Hne. by eapply Hcm.
Qed.

Lemma following_ok g e i j es :
  gok g → follower_ok g e → follows g → (i ≤ j ≤ length lg)%nat →
  take i (nlog g n) = take i lg → (i ≤ length (nlog g n))%nat →
  map log_id es = take (j - i) (drop i lg) → (∀ x, x ∈ es → content_ok g x) →
  wp (following_append_entries L (last (take i lg)) es) (okpost (λ _ e', ∃ g', gok g' ∧ evolves m0 n g g'
    ∧ follower_ok g' e' ∧ follows g' ∧ (n, L, j) ∈ acks g')) e.
Proof.
  intros Hg (Hn & Hl & Hc) Hf Hij Ht Hi Hes Hct. pose proof (ok_base _ _ _ _ _ Hn) as Hb. pose proof Hf as (Hv & HL & Hne).
  pose proof Hg as (Hinv & _). unfold following_append_entries. rewrite (max_last g i j) //. run. cbn [state config output leader candidate seen_greater_log].
  set (io := new_log_io L (last (take j lg))). rewrite Hes first_conflicting_accept.
  destruct (first_conflicting_spec g e (j - i) i Hg Hb Hf ltac:(lia) Ht Hi) as (Hc1 & Hc2 & Hc3 & Hc4).
  set (c := first_conflicting_index _ _) in *.
  destruct (ghost_accept m0 Hmeet n g L lg i j Hg Hne HL Hv Hij Hi Ht) as [Hg' Hev]. set (g' := MkGhost _ _) in *.
  assert (nlog g' n = accept_log (nlog g n) lg j) as Hlog' by (simpl; by rewrite fn_lookup_insert).
  assert (nvote g' n = nvote g n) as Hv' by (simpl; by rewrite fn_lookup_insert). assert (llog g' L = Some lg) as HL' by done.
  assert ((n, L, j) ∈ acks g') as Hack by (by left). clearbody g'. pose proof Hev as [_ Hgr].
  assert (follows g') as Hf' by (split_and!; [congruence|done..]).
  assert (∀ k, take k (nlog g n) = take k lg → take k (nlog g' n) = take k (nlog g n)) as Hkeep
    by (intros k Hk; rewrite Hlog'; by apply accept_keeps).
  assert (acc_ok g' n io) as Hacc.
  { split; [by rewrite Hv' Hv|]. simpl. destruct (last (take j lg)) as [x|] eqn:Hx; [|done]. apply last_take_lg in Hx as [Hj Hx]; [|lia].
    destruct (inv_llog _ _ Hinv _ _ HL _ _ Hx) as [Hix _]. exists lg. rewrite Hix Nat2Z.id. split_and!; [done|done|].
    replace (S (j - 1)) with j by lia. rewrite Hlog'. apply accept_log_take. }
  destruct (accept_log_io_same io (state e)) as (E1 & E2 & E3 & E4 & E5 & E6 & E7).
  set (s1 := snd (accept_log_io io (state e))) in *.
  assert (∀ st, log_progress (io_state st) = log_progress (io_state s1) →
    accepted (log_progress (io_state st)) = accepted (log_progress (io_state (state e)))
    ∨ (∃ a, accepted (log_progress (io_state st)) = Some a ∧ acc_ok g' n a)) as Hacc'.
  { intros st ->. destruct E7 as [->| ->]; [by left|]. right. eauto. }
  assert (∀ x, x ∈ wlog m0 e → content_ok g' x) as Hctw.
  { intros x Hx. destruct Hgr as (_ & _ & _ & _ & _ & _ & Hg7). apply Hg7. by apply (ok_content _ _ _ _ _ Hb). }
  destruct (drop c es) as [|x0 rest] eqn:Hdrop.
  - assert (c = j - i)%nat as ->.
    { apply (f_equal length) in Hdrop. rewrite length_drop in Hdrop. apply (f_equal length) in Hes.
      rewrite length_map length_take length_drop in Hes. simpl in Hdrop. lia. }
    replace (i + (j - i))%nat with j in * by lia.
    assert (nlog g' n = nlog g n) as Hsame by (rewrite Hlog'; unfold accept_log; by rewrite bool_decide_true).
    assert (∀ cs, (∀ log, replay log cs = log) → (∀ c, c ∈ cs → cmd_ok g' rq n c) →
      follower_ok g' (MkEngine (config e) s1 (seen_greater_log e) (leader e) (candidate e) (output e ++ cs))) as Hend.
    { intros cs Hrep Hcs. apply follower_intro; try done. apply (follow_base g g' e); try done.
      - by rewrite Hrep Hsame (ok_log _ _ _ _ _ Hb).
      - intros x. rewrite Hrep. apply Hctw.
      - by rewrite E1 Hsame (ok_ids _ _ _ _ _ Hb).
      - by rewrite E3.
      - by apply Hacc'. }
    destruct (io_le_opt io _); run; exists g'; split_and!; try done.
    + rewrite -(app_nil_r (output e)). apply Hend; [done|by intros ? ?%elem_of_nil].
    + apply Hend; [done|]. intros ? ->%list_elem_of_singleton. simpl. destruct (last (take j lg)); [|done]. done.
  - assert (c < j - i)%nat as Hlt.
    { apply (f_equal length) in Hdrop. rewrite length_drop in Hdrop. apply (f_equal length) in Hes.
      rewrite length_map length_take length_drop in Hes. simpl in Hdrop. lia. }
    set (k := (i + c)%nat) in *. specialize (Hc4 Hlt).
    assert (map log_id (x0 :: rest) = take (j - k) (drop k lg)) as Hids'.
    { rewrite -Hdrop -skipn_map Hes skipn_firstn_comm drop_drop. f_equal. unfold k. lia. }
    destruct (lookup_lt_is_Some_2 lg k) as [y Hy]; [lia|].
    assert (log_id x0 = y) as Hx0.
    { rewrite (drop_S _ y) // in Hids'. destruct (j - k)%nat eqn:Hjk; [lia|]. simpl in Hids'. by injection Hids' as ->. }
    assert (entry_index x0 = Z.of_nat k) as Hidx by (unfold entry_index; rewrite Hx0; by apply (inv_llog _ _ Hinv _ _ HL)).
    assert (0 < k)%nat as Hk0.
    { destruct k as [|k'] eqn:Hk; [|lia]. destruct Hg as (_ & _ & [Hh1 Hh2] & _). destruct Hc4. by rewrite Hh1 (Hh2 L lg HL). }
    assert (accept_log (nlog g n) lg j = take j lg) as Hacc2.
    { unfold accept_log. rewrite bool_decide_false //. intros Heq. apply Hc4.
      rewrite -(lookup_take_lt (nlog g n) j k); [lia|]. rewrite Heq lookup_take_lt //. lia. }
    assert (take k (nlog g n) ++ map log_id (x0 :: rest) = take j lg) as Hnew by (rewrite Hids' Hc2 -stretch_app //; lia).
    rewrite Hidx. run.
    eapply wpo_mono; [apply (truncate_logs_raw g); try done; cbn [state]; [by rewrite E1; apply Hb|by rewrite E3; apply Hb|by apply (ok_log _ _ _ _ _ Hb)]|].
    intros [] e1 (cs & -> & Hrep & Hcs). cbn [state config output leader candidate seen_greater_log] in *.
    eapply wpo_mono; [apply do_append_raw|].
    { intros x Hx. apply (no_membership g); [done|apply Hct; rewrite -(take_drop c es) Hdrop; set_solver|].
      intros Hd. assert (log_id x ∈ map log_id (x0 :: rest)) as Hin by (apply list_elem_of_fmap; by exists x).
      rewrite Hids' Hd in Hin. apply elem_of_take in Hin as (q & Hq & _). rewrite lookup_drop in Hq.
      destruct (inv_llog _ _ Hinv _ _ HL _ _ Hq) as [Hiq _]. simpl in Hiq. lia. }
    intros [] e2 ->. cbn [state config output leader candidate seen_greater_log].
    exists g'. split_and!; try done. rewrite -app_assoc. apply follower_intro; try done.
    assert (replay (wlog m0 e) (cs ++ [AppendEntries L (x0 :: rest)]) = take k (wlog m0 e) ++ x0 :: rest) as Hrep'.
    { rewrite replay_app. unfold wlog in Hrep |- *. simpl in Hrep. by rewrite Hrep. }
    apply (follow_base g g' e); try done.
    + rewrite Hrep' map_app -firstn_map (ok_log _ _ _ _ _ Hb) Hnew Hlog' Hacc2. done.
    + intros x. rewrite Hrep'. intros [Hx|Hx]%elem_of_app.
      * apply elem_of_take in Hx as (q & Hq & _). apply Hctw. by eapply list_elem_of_lookup_2.
      * destruct Hgr as (_ & _ & _ & _ & _ & _ & Hg7). apply Hg7. apply Hct. rewrite -(take_drop c es) Hdrop. set_solver.
    + change (extend (keys (take k (nlog g n))) (map log_id (x0 :: rest)) = keys (nlog g' n)).
      rewrite extend_keys; [|by rewrite Hnew Hlog' Hacc2]. rewrite Hnew. apply (consecutive_NoDup 0). intros q x Hq. apply lookup_take_Some in Hq as [Hq _].
      destruct (inv_llog _ _ Hinv _ _ HL _ _ Hq) as [Hiq _]. lia.
    + simpl. by rewrite E3.
    + by apply Hacc'.
    + intros d [[x ->]%Hcs|Hd]%elem_of_app; [done|]. apply list_elem_of_singleton in Hd as ->. intros Heq. done.
Qed.

End Leader.

(** * What the leader has committed *)

Lemma local_committed_inv st y :
  calculate_local_committed st = Some y →
  ∃ Lc c La x, cluster_committed st = Some (MkLogIOId Lc (Some c)) ∧ accepted (log_progress st) = Some (new_log_io La (Some x))
    ∧ leader_id_le Lc La ∧ (y = x ∧ opt_le (Some x) (Some c) ∨ y = c ∧ opt_le (Some c) (Some x)).
Proof.
  unfold calculate_local_committed. destruct (cluster_committed st) as [[Lc oc]|]; [|done].
  destruct (accepted (log_progress st)) as [[|[La oa]]|]; try done. simpl.
  pose proof (leader_id_cmp_spec La Lc) as Hspec.
  assert (opt_log_id_min oa oc = Some y → leader_id_le Lc La →
    ∃ Lc0 c La0 x, Some (MkLogIOId Lc oc) = Some (MkLogIOId Lc0 (Some c)) ∧ Some (IOLog (MkLogIOId La oa)) = Some (new_log_io La0 (Some x))
      ∧ leader_id_le Lc0 La0 ∧ (y = x ∧ opt_le (Some x) (Some c) ∨ y = c ∧ opt_le (Some c) (Some x))) as Hmin.
  { unfold opt_log_id_min. intros Hy HL. destruct oa as [x|]; [|done].
    destruct (opt_log_id_le (Some x) oc) eqn:Hle.
    - destruct oc as [c|]; [|done]. injection Hy as <-. apply opt_log_id_le_spec in Hle. exists Lc, c, La, x. split_and!; auto.
    - subst oc. exists Lc, y, La, x. split_and!; try done. right. split; [done|].
      destruct (opt_le_total (Some y) (Some x)) as [?|Ht]; [done|]. apply opt_log_id_le_spec in Ht. congruence. }
  destruct (leader_id_cmp La Lc); inversion Hspec; subst;
    [intros Hy; apply Hmin; [done|by right]|done|intros Hy; apply Hmin; [done|left; unfold leader_id_lt; lia]].
Qed.

Lemma local_committed_ok g st y :
  gok g → (∀ a, accepted (log_progress st) = Some a → acc_ok g n a) →
  (∀ c, cluster_committed st = Some c → cluster_ok m0 g c) →
  calculate_local_committed st = Some y → commit_ok m0 g n y.
Proof.
  intros Hg Hacc Hcl (Lc & c & La & x & Hc & Ha & HLL & Hcase)%local_committed_inv.
  destruct (Hacc _ Ha) as [Hv (lgA & HLA & HxA & HtA)]. simpl in Hv.
  destruct (Hcl _ Hc c eq_refl) as (L1 & k & Hch & (lg1 & HL1 & Hc1) & Hk & Hle1). simpl in Hle1.
  pose proof (leader_id_le_trans _ _ _ Hle1 HLL) as HL1A. pose proof Hg as (Hinv & _).
  assert (take k lgA = take k lg1) as Htk
    by (destruct HL1A as [Hlt|Heq]; [by apply (chosen_in_later qs Hmeet g L1 k La)|subst; congruence]).
  assert (lgA !! pos c = Some c) as HcA by (apply (take_S_lookup lg1); [|done]; apply (take_eq_le _ _ _ k); [lia|done]).
  assert ((pos y ≤ pos x)%nat ∧ (pos y ≤ pos c)%nat ∧ lgA !! pos y = Some y) as (Hyx & Hyc & HyA).
  { assert (in_llog g La c) as H1 by (by exists lgA). assert (in_llog g La x) as H2 by (by exists lgA).
    destruct Hcase as [[-> Ho]|[-> Ho]];
      [pose proof (in_llog_order m0 g La x c Hg H2 H1 Ho)|pose proof (in_llog_order m0 g La c x Hg H1 H2 Ho)]; split_and!; done || lia. }
  exists L1, k. split_and!; [done|lia| |].
  { rewrite -Hv. destruct HL1A as [?| ->]; [by left|right; done]. }
  exists lg1. split_and!; [done| |].
  - apply (take_S_lookup lgA); [apply (take_eq_le _ _ _ k); [lia|done]|done].
  - transitivity (take (S (pos y)) lgA); [apply (take_eq_le _ _ _ (S (pos x))); [lia|done]|apply (take_eq_le _ _ _ k); [lia|done]].
Qed.

(** The commitment that comes with a request. *)
Lemma update_committed_ok g e c :
  gok g → nok g rq n e → cluster_ok m0 g c →
  nok g rq n (MkEngine (config e) (update_committed c (state e)) (seen_greater_log e) (leader e) (candidate e) (output e)).
Proof.
  intros Hg Hn Hc. pose proof (ok_base _ _ _ _ _ Hn) as Hb. unfold update_committed. set (s1 := set_io_state _ (state e)).
  assert (base_ok m0 g rq n (MkEngine (config e) s1 (seen_greater_log e) (leader e) (candidate e) (output e))) as Hb1.
  { destruct Hb. split; simpl; try done. intros d Hd%opt_lt_try_update. destruct Hd as [Hd| ->]; [by auto|done]. }
  destruct (update_local_committed_same (calculate_local_committed (io_state s1)) s1) as (Hs1 & Hs2 & Hs3).
  apply (node_ok_state m0 rq n g e); try done.
  apply (update_local_committed_ok m0 rq n g _ _ _ _ _ Hb1). intros x Hx.
  eapply local_committed_ok; [done|apply (ok_acc _ _ _ _ _ Hb1)|apply (ok_cluster _ _ _ _ _ Hb1)|exact Hx].
Qed.

(** * The request *)

Lemma handle_append_entries_ok now g e r tx :
  gok g → nok g rq n e → req_ok m0 g r → rq !! Z.to_nat tx = Some r → node_id (vote_leader (areq_vote r)) ≠ n →
  sim m0 rq n g (handle_append_entries_request now r tx) e.
Proof.
  intros Hg Hn Hr Htx Hne. pose proof Hr as (L & lg & i & j & Hv & Hk & HL & Hij & Hprev & Hes & Hct & Hcm).
  rewrite Hv in Hne. unfold sim, handle_append_entries_request, handle_append_entries, append_entries. apply wpo_bind, wpo_bind, wpo_bind. rewrite Hv.
  eapply wpo_mono; [by apply (update_vote_foreign m0 rq n Hmeet)|].
  intros [[]|[mine]] e1 (g1 & Hg1 & Hev1 & Hn1 & Hlog1 & Hpost).
  2: { destruct Hpost as (-> & -> & ->). run. exists g. split_and!; [done|apply evolves_refl|].
       apply push_ok; [done| |done]. simpl. apply Hg. }
  destruct Hpost as (Hv1 & Hl1 & Hc1 & _). pose proof Hev1 as [_ Hgr1].
  destruct Hgr1 as (He1 & _ & _ & _ & _ & _ & Hct1). destruct (He1 L lg HL) as [rest HL1].
  set (lg1 := lg ++ rest) in *.
  assert (follows L lg1 g1) as Hf by (split_and!; done).
  assert (follower_ok g1 e1) as Hfo by (split_and!; done).
  assert (last (take i lg) = last (take i lg1)) as Hlast by (unfold lg1; rewrite take_app_le //; lia).
  assert (map log_id (areq_entries r) = take (j - i) (drop i lg1)) as Hes1.
  { rewrite Hes. unfold lg1. rewrite drop_app_le; [lia|]. rewrite take_app_le //. rewrite length_drop. lia. }
  run. rewrite Hprev Hlast. assert (i ≤ j ≤ length lg1)%nat as Hij1 by (unfold lg1; rewrite length_app; lia).
  eapply wpo_mono; [apply (ensure_ok L lg1 g1); [done..|lia]|].
  intros [[]|[|p local]] e2 Hens; [|done|].
  2: { destruct Hens as (g2 & Hg2 & Hev2 & Hn2). run. exists g2. split_and!; [done|by eapply evolves_trans|].
       apply push_ok; done. }
  destruct Hens as (-> & Ht & Hi). run.
  assert (to_committed (vote_ref (state e1)) = L) as ->.
  { unfold to_committed. by rewrite (ok_vote _ _ _ _ _ (ok_base _ _ _ _ _ Hn1)) Hv1. }
  eapply wpo_mono; [apply (following_ok L lg1 g1 e1 i j); try done; intros x Hx; by apply Hct1, Hct|].
  intros [] e3 (g3 & Hg3 & Hev3 & (Hn3 & Hl3 & Hc3) & Hf3 & Hack). run.
  destruct (accepted (log_progress (io_state (state e3)))) as [io|]; run.
  pose proof (evolves_trans _ _ _ _ _ Hev1 Hev3) as Hev. exists g3. split_and!; [done|done|].
  assert (req_acked g3 n r) as Hra.
  { intros x Hx. rewrite Hv. simpl. destruct Hf3 as (_ & HL3 & _). unfold sent_last in Hx.
    assert (last (take j lg1) = Some x) as Hxl.
    { rewrite -(sent_last_spec lg1 i j (areq_entries r)) //; [lia|]. by rewrite -Hlast -Hprev. }
    apply (last_take_lg lg1) in Hxl as [Hj Hxl]; [|lia]. pose proof Hg3 as (Hinv3 & _).
    destruct (inv_llog _ _ Hinv3 _ _ HL3 _ _ Hxl) as [Hix _]. split.
    - exists lg1. split; [done|]. by rewrite Hix Nat2Z.id.
    - exists j. split; [lia|done]. }
  assert (nok g3 rq n (MkEngine (config e3) (state e3) (seen_greater_log e3) (leader e3) (candidate e3)
    (output e3 ++ [RespondCmd (Some (IOFlushed io)) (RespondAppendEntries Success) tx]))) as Hn4.
  { apply push_ok; [done| |done]. by exists r. }
  apply (update_committed_ok g3 _ _ Hg3 Hn4). intros x Hx. simpl in Hx |- *.
  eapply cid_grows; [apply Hev|]. by apply Hcm.
Qed.

End Follow.
