(* ===== verification/RaftSafety.v ===== *)
(** A group of engines is safe: the handlers of [core/raft_core.rs] and [engine/] take only steps of the
    protocol, so all nodes commit the same log.

    [handle_event_ok] puts the handlers together; [wstep_ok] does so for the steps of a group. The
    theorems hold of every state that an orderly group of nodes can reach: the members are fixed, and any
    two voters are a quorum (up to three voters), since with more, [RaftProgress] shows that the
    engine may count a quorum that is not there; and no node that leads is told to stand for election,
    which octopii's [campaign] may do at the start of a node, and which breaks the theorems:
    [elect_while_leading_loses_write], at the end, is a run in which a client loses its write. *)

From stdpp Require Import functions strings.
From S2P Require Import Prelude LogStore RaftQuorum RaftMembership RaftLogIds RaftProgress RaftState RaftEngine RaftProtocol RaftCore RaftNet RaftSim RaftSimVote RaftSimLead RaftSimElect RaftSimFollow.

#[local] Open Scope Z_scope.

Section Events.
Context (m0 : Membership) (rq : list AppendEntriesRequest) (n : Z).
Context (Hmeet : quorums_meet (to_quorum_set m0) (to_quorum_set m0)).
Context (Hvalid : configs m0 ≠ []) (Hsome : Forall (λ c, c ≠ ∅) (configs m0)).
Context (Hpairs : pairs_are_quorums (to_quorum_set m0)).

Abbreviation qs := (to_quorum_set m0).
Abbreviation nok := (node_ok m0).
Abbreviation gok := (ghost_ok m0).
Abbreviation simu := (sim m0 rq n).

Lemma sim_bind {A B} g (m : M Engine A) (k : A → M Engine B) e :
  simu g m e → (∀ a g' e', gok g' → nok g' rq n e' → simu g' (k a) e') → simu g (bind m k) e.
Proof.
  intros Hm Hk. apply wpo_bind. eapply wpo_mono; [exact Hm|]. intros a e' (g' & Hg' & Hev & Hn').
  eapply wpo_mono; [by apply Hk|]. intros b e'' (g'' & ? & ? & ?). exists g''. split_and!; [done|by eapply evolves_trans|done].
Qed.

Lemma sim_keep {A} g (m : M Engine A) e : gok g → wp m (okpost (λ _ e', nok g rq n e')) e → simu g m e.
Proof. intros Hg Hm. eapply wpo_mono; [exact Hm|]. intros a e' Hn. exists g. auto using evolves_refl. Qed.

Lemma sim_ret {A} g (a : A) e : gok g → nok g rq n e → simu g (ret a) e.
Proof. intros Hg Hn. exists g. auto using evolves_refl. Qed.

Lemma sim_get {B} g (k : Engine → M Engine B) e : simu g (k e) e → simu g (bind getS k) e.
Proof. done. Qed.

Lemma sim_modify {B} g f (k : unit → M Engine B) e : simu g (k tt) (f e) → simu g (bind (modify f) k) e.
Proof. done. Qed.

(** The I/O that is not of the log's acceptance changes nothing that counts. *)
Lemma io_progress_ok g e st :
  nok g rq n e →
  accepted (log_progress st) = accepted (log_progress (io_state (state e))) →
  accepted (apply_progress st) = accepted (apply_progress (io_state (state e))) →
  cluster_committed st = cluster_committed (io_state (state e)) →
  nok g rq n (MkEngine (config e) (set_io_state st (state e)) (seen_greater_log e) (leader e) (candidate e) (output e)).
Proof.
  intros Hn E1 E2 E3. apply (node_ok_state m0 rq n g e); try done. by apply (base_ok_state m0 rq n g e); try done; apply Hn.
Qed.

Lemma seen_greater_ok g e b :
  nok g rq n e → nok g rq n (MkEngine (config e) (state e) b (leader e) (candidate e) (output e)).
Proof. intros [Hb H1 H2 H3]. split; try done. destruct Hb; by split. Qed.

Lemma tick_election_ok rt now g e : gok g → nok g rq n e → simu g (handle_tick_election rt now) e.
Proof.
  intros Hg Hn. unfold sim, handle_tick_election. run.
  assert (∃ g', gok g' ∧ evolves m0 n g g' ∧ nok g' rq n e) as Hsame by (exists g; auto using evolves_refl).
  case_bool_decide as Hs; run; [done|]. destruct (negb _); run; [done|]. destruct (negb _); run; [done|].
  destruct (_ && _); run; [done|]. apply (elect_ok m0 rq n Hmeet Hvalid Hsome); [done|by apply seen_greater_ok|].
  simpl. destruct (leader e) as [l|] eqn:Hl; [|done]. by destruct (ok_leader _ _ _ _ _ Hn l Hl) as (_ & _ & _ & ? & _).
Qed.

Lemma handle_tick_ok rt now g e : gok g → nok g rq n e → simu g (handle_tick rt now) e.
Proof.
  intros Hg Hn. unfold handle_tick. apply sim_bind; [by apply tick_election_ok|]. clear g e Hg Hn. intros _ g e Hg Hn.
  apply sim_get, sim_bind.
  - apply sim_keep; [done|]. destruct (leader e) as [l|] eqn:Hl; run; [|done]. destruct (_ <=? _); run; [|done].
    eapply wpo_mono with (Q := λ _ e', nok g rq n e' ∧ is_Some (leader e') = is_Some (leader e)).
    { destruct (enable_heartbeat rt); run; [|done]. eapply wpo_mono; [by apply core_heartbeat_ok|]. intros b e' Hok. by run. }
    intros [] e' [Hok _]. run. destruct (leader e') as [l'|] eqn:Hl'; run.
    eapply set_leader_ok; try done. by apply (ok_leader _ _ _ _ _ Hok l').
  - clear e Hn. intros [] g' e Hg' Hn. apply sim_keep; [done|]. run. destruct (opt_log_id_le _ _); run; [|done].
    unfold leader_step_down. run. destruct (opt_log_id_le _ _); run; [|done]. by apply update_internal_ok.
Qed.

(** Evidence for what is notified. *)
Context (w : World) (Hrq : wreqs w = rq).

Lemma own_io_in_llog g e c L x l :
  nok g rq n e → c ∈ output e → io_of c = Some (IOLog (MkLogIOId L (Some x))) → leader e = Some l → L = leader_vote l → in_llog g L x.
Proof.
  intros Hn Hc Hio Hl ->. pose proof (ok_out _ _ _ _ _ (ok_base _ _ _ _ _ Hn) c Hc) as Hok.
  destruct (ok_leader _ _ _ _ _ Hn l Hl) as (_ & Hid & _). destruct c; simplify_eq/=; try done.
  - by apply Hok.
  - destruct (last es) as [y|] eqn:Hy; simplify_eq/=. injection Hio as -> <-. by apply Hok.
  - unfold new_io in Hio. destruct (vote_committed v); simplify_eq/=.
Qed.

Lemma handle_notification_ok rt now g x :
  gok g → (∀ m, nok g rq m (wengine w m)) → notified w n x → simu g (handle_notification rt now x) (wengine w n).
Proof.
  intros Hg Hall Hnot. pose proof (Hall n) as Hn. set (e := wengine w n) in *.
  assert (∀ A (a : A), simu g (ret a) e) as Hret by (intros; by apply sim_ret).
  unfold handle_notification. apply sim_get.
  assert (∀ (m : M Engine unit), simu g m e → simu g (m ;; ret (Okay tt : Result unit Fatal)) e) as Hthen.
  { intros m Hm. apply sim_bind; [done|]. intros _ g' e' ? ?. by apply sim_ret. }
  destruct Hnot as [target cond resp tx v Hout|v Hout Hv|target cond v tx l Hout|c i Hc Hi|target cond tx r session pl Hr Hvr Hout Hord
    |target p session pl|target err session pl|session t target|i|i]; try (apply Hthen; by apply handle_tick_ok).
  - apply Hthen. destruct (does_candidate_vote_match e v); [|apply Hret].
    destruct (ok_out _ _ _ _ _ (ok_base _ _ _ _ _ (Hall target)) _ Hout) as [Hk Hgr].
    by apply (handle_vote_resp_ok m0 rq n Hmeet Hvalid Hsome).
  - apply Hthen. destruct (does_candidate_vote_match e (vote_leader v)) eqn:Hm; [|apply Hret].
    unfold does_candidate_vote_match in Hm. destruct (candidate e) as [c|] eqn:Hc; [|done]. apply bool_decide_eq_true in Hm.
    destruct (ok_cand _ _ _ _ _ Hn c Hc) as (Hcv & Hcm & Hid & _).
    assert (v = cand_vote c) as -> by (destruct v, (cand_vote c); simpl in *; congruence).
    apply (handle_vote_resp_ok m0 rq n Hmeet Hvalid Hsome); [done|done| |]; simpl.
    + rewrite Hcv. apply Hg.
    + intros _ _. by apply (ok_out _ _ _ _ _ (ok_base _ _ _ _ _ Hn) _ Hout).
  - apply Hthen. destruct (does_leader_vote_match e l); [|apply Hret].
    pose proof (ok_out _ _ _ _ _ (ok_base _ _ _ _ _ (Hall target)) _ Hout) as Hk.
    apply sim_bind; [by apply (update_vote_known m0 rq n Hmeet)|]. intros _ g' e' ? ?. by apply sim_ret.
  - unfold with_log_progress, with_state. apply sim_modify.
    assert (nok g rq n (MkEngine (config e) (set_io_state (set_log_progress (flush i (log_progress (io_state (state e)))) (io_state (state e))) (state e))
      (seen_greater_log e) (leader e) (candidate e) (output e))) as Hn1 by (by apply io_progress_ok).
    apply sim_bind; [|intros _ g' e' ? ?; by apply sim_ret]. destruct i as [|[L ox]]; [by apply sim_ret|]. destruct (does_leader_vote_match e _) eqn:Hm; [|by apply sim_ret].
    unfold does_leader_vote_match in Hm. destruct (leader e) as [l|] eqn:Hl; [|done]. apply bool_decide_eq_true in Hm. simpl in Hm.
    apply (update_local_progress_ok m0 rq n Hmeet Hvalid Hsome Hpairs); [done|done|]. simpl. intros l' x [= <-] ->. subst L.
    by eapply own_io_in_llog.
  - apply Hthen. destruct (does_replication_session_match e session) eqn:Hm; [|apply Hret]. apply andb_true_iff in Hm as [Hm _].
    unfold does_leader_vote_match in Hm. destruct (leader e) as [l|] eqn:Hl; [|done]. apply bool_decide_eq_true in Hm.
    destruct (ok_out _ _ _ _ _ (ok_base _ _ _ _ _ (Hall target)) _ Hout) as (r' & Hr' & Hack). rewrite -Hrq Hr in Hr'. injection Hr' as <-.
    apply sim_keep; [done|]. apply (update_progress_ok m0 rq n Hmeet Hvalid Hsome Hpairs); [done|done|].
    rewrite Hl. intros l' m [= <-] [= <-]. split; [intros ent; by apply Hord|]. intros y Hy. specialize (Hack y Hy).
    rewrite Hvr /= Hm in Hack. done.
  - apply Hthen. destruct (does_replication_session_match e session); [|apply Hret].
    apply sim_keep; [done|]. by apply (update_progress_ok m0 rq n Hmeet Hvalid Hsome Hpairs).
  - apply Hthen. destruct (does_replication_session_match e session); [|apply Hret].
    apply sim_keep; [done|]. by apply (update_progress_ok m0 rq n Hmeet Hvalid Hsome Hpairs).
  - apply Hthen. destruct (does_replication_session_match e session); [|apply Hret].
    apply sim_keep; [done|]. by apply update_leader_clock_ok.
  - apply Hthen. apply sim_keep; [done|]. unfold with_apply_progress. run. by apply io_progress_ok.
Qed.

Lemma handle_event_ok rt now g ev :
  gok g → (∀ m, nok g rq m (wengine w m)) → (∀ r, r ∈ rq → req_ok m0 g r) → delivered w n ev → orderly (wengine w n) ev →
  simu g (handle_event rt now ev) (wengine w n).
Proof.
  intros Hg Hall Hreqs Hdel Hord. pose proof (Hall n) as Hn. set (e := wengine w n) in *.
  destruct Hdel as [m req tx Hout Hne|req tx Hr Hne|data|x Hx| | |to|m req Hout Hne| |i|i]; cbn [handle_event].
  - destruct (ok_out _ _ _ _ _ (ok_base _ _ _ _ _ (Hall m)) _ Hout) as (L & Hv & Hid & Hreq).
    apply (handle_vote_request_ok m0 rq n Hmeet now req tx g e L); try done. by rewrite Hid.
  - rewrite Hrq in Hr. apply (handle_append_entries_ok m0 rq n Hmeet); try done. apply Hreqs. by eapply list_elem_of_lookup_2.
  - apply sim_bind; [|intros _ g' e' ? ?; by apply sim_ret]. unfold append_one, leader_handler.
    change (simu g (match (match leader e with Some l => Okay l | None => Failed (forward_to_leader (state e)) end) with
      | Failed f => ret (Failed f)
      | Okay l => match transfer_to l with
        | Some to => let! s := get_state in ret (Failed (new_forward_to_leader s to))
        | None => leader_append_entries [MkEntry default_log_id (Normal data)] ;; let! s := get_state in
            match last_log_id s with Some i => ret (Okay (index i)) | None => panic end
        end
      end) e).
    destruct (leader e) as [l|] eqn:Hl; [|by apply sim_ret]. destruct (transfer_to l); [by apply (sim_ret g)|].
    apply sim_bind; [by apply (leader_append_ok m0 rq n Hmeet Hvalid Hsome)|]. intros _ g' e' ? ?. unfold sim. run.
    destruct (last_log_id (state e')); run. exists g'. auto using evolves_refl.
  - apply sim_bind; [by apply handle_notification_ok|intros _ g' e' ? ?; by apply sim_ret].
  - unfold handle_external. apply sim_get. apply sim_bind; [|intros _ g' e' ? ?; by apply sim_ret].
    apply sim_keep; [done|]. eapply wpo_mono; [by apply core_heartbeat_ok|]. by intros b e' [? _].
  - unfold handle_external. apply sim_get. destruct (ms_is_voter _ _); [|by apply sim_ret].
    apply (elect_ok m0 rq n Hmeet Hvalid Hsome); [done|done|]. simpl. by rewrite (Hord eq_refl).
  - unfold handle_external. apply sim_get. apply sim_keep; [done|]. by apply transfer_leader_ok.
  - unfold handle_transfer_leader. apply sim_get. case_bool_decide as Hv; [|by apply sim_ret].
    destruct (ok_out _ _ _ _ _ (ok_base _ _ _ _ _ (Hall m)) _ Hout) as [Hid Hcm].
    assert (nok g rq n (MkEngine (config e) (set_vote_leased (disable_lease (rs_vote (state e))) (state e)) (seen_greater_log e)
      (leader e) (candidate e) (output e))) as Hn1.
    { apply (node_ok_state m0 rq n g e); try done. by apply (base_ok_state m0 rq n g e); try done; apply Hn. }
    unfold with_state. apply sim_modify. destruct (_ =? _); [|by apply sim_ret].
    apply (elect_ok m0 rq n Hmeet Hvalid Hsome); [done|done|]. simpl. destruct (leader e) as [l|] eqn:Hl; [|done].
    destruct (ok_leader _ _ _ _ _ Hn l Hl) as (Hvl & Hidl & _). exfalso. apply Hne. rewrite -Hid -Hv.
    rewrite (ok_vote _ _ _ _ _ (ok_base _ _ _ _ _ Hn)) Hvl. done.
  - apply sim_get. destruct (leader e) as [l|]; [|by apply sim_ret]. apply sim_keep; [done|]. by apply initiate_replication_ok.
  - apply sim_keep; [done|]. unfold with_log_progress. run. by apply io_progress_ok.
  - apply sim_keep; [done|]. unfold with_apply_progress. run. by apply io_progress_ok.
Qed.

End Events.

(** * Entries with their payloads *)

Lemma same_ids_same_entries g (a b : list MEntry) :
  (∀ x, x ∈ a → content_ok g x) → (∀ x, x ∈ b → content_ok g x) → map log_id a = map log_id b → a = b.
Proof.
  revert b. induction a as [|x a IH]; intros [|y b] Ha Hb Heq; try done.
  rewrite !map_cons in Heq. injection Heq as Hid Heq. f_equal; [|apply IH; [set_solver..|done]].
  pose proof (Ha x ltac:(set_solver)) as H1. pose proof (Hb y ltac:(set_solver)) as H2. unfold content_ok in *.
  destruct x, y; simpl in *. subst. congruence.
Qed.

Lemma prefix_entries g (a b : list MEntry) :
  (∀ x, x ∈ a → content_ok g x) → (∀ x, x ∈ b → content_ok g x) → map log_id a `prefix_of` map log_id b → a `prefix_of` b.
Proof.
  intros Ha Hb [r Hr]. exists (drop (length a) b). rewrite -{1}(take_drop (length a) b). f_equal. symmetry.
  apply (same_ids_same_entries g); [done|intros x (i & Hi & _)%elem_of_take; apply Hb; by eapply list_elem_of_lookup_2|].
  rewrite -firstn_map Hr -(length_map log_id a) take_app_length. done.
Qed.

(** * Groups of nodes *)

Lemma to_quorum_set_meet m : configs m ≠ [] → quorums_meet (to_quorum_set m) (to_quorum_set m).
Proof.
  intros Hne. destruct (configs m) as [|c l] eqn:Hc; [done|].
  apply (joint_meet_at _ _ (btree_iter c)); [| |apply vec_quorums_meet, NoDup_btree_iter];
    unfold to_quorum_set, get_joint_config; rewrite Hc; simpl; set_solver.
Qed.

(** What the theorems ask of a group: members that form quorums of two, and nodes that know who they are
    and do not let a follower's log go back. *)
Definition group_ok (m0 : Membership) (cfgs : Z → EngineConfig) : Prop :=
  configs m0 ≠ [] ∧ Forall (λ c, c ≠ ∅) (configs m0) ∧ pairs_are_quorums (to_quorum_set m0)
  ∧ ∀ n, cfg_id (cfgs n) = n ∧ allow_log_reversion (cfgs n) = false.

(** The protocol's view of a group. *)
Definition refines (m0 : Membership) (w : World) (s : Net) : Prop :=
  ∀ n, nvote s n = vote_ref (state (wengine w n)) ∧ nlog s n = map log_id (wlog m0 (wengine w n))
    ∧ log_ids (state (wengine w n)) = keys (nlog s n).

(** The entries that a node holds for committed. *)
Definition committed_entries (m0 : Membership) (e : Engine) : list MEntry :=
  take (Z.to_nat (next_index (committed (state e)))) (wlog m0 e).

Section World.
Context (m0 : Membership) (cfgs : Z → EngineConfig) (Hgroup : group_ok m0 cfgs).

Abbreviation qs := (to_quorum_set m0).

Definition world_ok (g : Ghost) (w : World) : Prop :=
  ghost_ok m0 g ∧ reachable_net qs g ∧ (∀ n, node_ok m0 g (wreqs w) n (wengine w n)) ∧ (∀ r, r ∈ wreqs w → req_ok m0 g r).

Lemma group_meet : quorums_meet qs qs.
Proof. apply to_quorum_set_meet, Hgroup. Qed.

Definition init_ghost : Ghost :=
  MkGhost init_net (λ x, if bool_decide (x = default_log_id) then Some (LogStore.Membership m0) else None).

Lemma init_ghost_ok : ghost_ok m0 init_ghost.
Proof.
  split; [apply init_inv|]. split.
  { intros m. split; [apply vle_refl|done]. }
  split.
  { split; simpl; [done|]. intros L lg. case_bool_decide; by intros [= <-]. }
  split; simpl.
  - intros x p. case_bool_decide as Hx; [|done]. intros _. subst x. exists [default_log_id]. done.
  - intros x m. by case_bool_decide.
Qed.

Lemma init_node_ok n : node_ok m0 init_ghost [] n (init_engine m0 cfgs n).
Proof.
  destruct Hgroup as (_ & _ & _ & Hcfg). destruct (Hcfg n) as [Hid Hrev]. 
  assert (∀ s i, vote_ref s = default_vote → is_leader s i = false) as Hnl by (intros s i Hs; unfold is_leader; rewrite Hs; apply andb_false_r).
  unfold init_engine, startup, bind, getS, engine_new. cbn [state config]. rewrite Hnl //.
  split; [split|..]; simpl; try done.
  - intros x ->%list_elem_of_singleton. done.
  - by intros a [= <-].
  - by intros c ?%elem_of_nil.
  - by rewrite Hnl.
Qed.

Lemma init_world_ok : world_ok init_ghost (init_world m0 cfgs).
Proof.
  split; [apply init_ghost_ok|]. split; [apply rtc_refl|]. split; [apply init_node_ok|]. by intros r ?%elem_of_nil.
Qed.

(** What a leader sends is a stretch of its log. *)
Lemma stretch_ok g w n l i j k :
  world_ok g w → leader (wengine w n) = Some l → (i ≤ j ≤ length (wlog m0 (wengine w n)))%nat →
  Z.of_nat k ≤ next_index (committed (state (wengine w n))) →
  req_ok m0 g (stretch (wlog m0 (wengine w n)) (leader_vote l) i j (log_id <$> last (take k (wlog m0 (wengine w n))))).
Proof.
  intros (Hg & _ & Hall & _) Hl Hij Hk. specialize (Hall n). set (e := wengine w n) in *.
  pose proof (ok_base _ _ _ _ _ Hall) as Hb. destruct (ok_leader _ _ _ _ _ Hall l Hl) as (Hv & Hid & _).
  pose proof (leader_log m0 _ _ g l e Hg Hall Hl) as HL. pose proof (ok_log _ _ _ _ _ Hb) as Hlog.
  assert (∀ q, log_id <$> last (take q (wlog m0 e)) = last (take q (nlog g n))) as Hlast
    by (intros q; rewrite -Hlog firstn_map; by rewrite -fmap_last).
  exists (leader_vote l), (nlog g n), i, j. split_and!; simpl; try done.
  - rewrite -Hv. apply Hg.
  - lia.
  - rewrite -Hlog length_map. lia.
  - by rewrite -Hlog skipn_map firstn_map.
  - intros x (q & Hq & _)%elem_of_take. rewrite lookup_drop in Hq. apply (ok_content _ _ _ _ _ Hb). by eapply list_elem_of_lookup_2.
  - intros x. rewrite Hlast. intros Hx. apply last_Some_elem_of in Hx. apply elem_of_take in Hx as (q & Hq & Hqk).
    destruct (committed (state e)) as [c|] eqn:Hc; simpl in Hk; [|lia].
    destruct (ok_committed _ _ _ _ _ Hb c Hc) as (L1 & kk & Hch & Hpk & Hle & lg1 & HL1 & Hc1 & Ht).
    pose proof (log_consecutive m0 g n Hg q x Hq) as Hix. exists L1, kk. split_and!; [done| |lia|].
    + exists lg1. split; [done|]. apply (take_S_lookup (nlog g n)); [|by replace (pos x) with q by lia].
      apply (take_eq_le _ _ _ (S (pos c))); [lia|done].
    + rewrite Hv in Hle. by destruct (vle_leader _ _ Hle); [left|right].
Qed.

(** Some node moves the protocol on. *)
Definition moves (g g' : Ghost) : Prop := ∃ n, grows n g g'.

Lemma wstep_ok g w w' : world_ok g w → wstep m0 w w' → ∃ g', world_ok g' w' ∧ moves g g'.
Proof.
  intros Hw Hstep. pose proof Hw as (Hg & Hreach & Hall & Hreqs). pose proof Hgroup as (Hne & Hsome & Hpairs & _).
  destruct Hstep as [w n rt now ev e' Hdel Hord Hrun|w n l i j k Hl Hij Hk].
  - pose proof (handle_event_ok m0 (wreqs w) n group_meet Hne Hsome Hpairs w eq_refl rt now g ev Hg Hall Hreqs Hdel Hord) as Hsim.
    destruct (wpo_run _ _ _ _ _ Hrun Hsim) as (g' & Hg' & [Hsteps Hgr] & Hn'). exists g'. split; [|by exists n].
    split; [done|]. split; [unfold reachable_net; by etrans|]. simpl. split.
    + intros m. destruct (decide (n = m)) as [<-|Hnm]; [by rewrite fn_lookup_insert|]. rewrite fn_lookup_insert_ne //.
      eapply node_ok_grows; [done|by eapply grows_other|done].
    + intros r Hr. eapply req_ok_grows; [done|]. by apply Hreqs.
  - exists g. split; [|exists n; apply grows_refl]. split; [done|]. split; [done|]. simpl. split.
    + intros m. by apply node_ok_send.
    + intros r [Hr|Hr]%elem_of_app; [by apply Hreqs|]. apply list_elem_of_singleton in Hr as ->. by apply stretch_ok.
Qed.

Lemma wsteps_ok w w' : rtc (wstep m0) w w' → ∀ g, world_ok g w → ∃ g', world_ok g' w' ∧ rtc moves g g'.
Proof.
  induction 1 as [w|w w1 w2 Hstep _ IH]; intros g Hg; [by exists g|]. destruct (wstep_ok g w w1 Hg Hstep) as (g1 & Hg1 & Hm).
  destruct (IH g1 Hg1) as (g' & Hg' & Hr). exists g'. split; [done|]. by eapply rtc_l.
Qed.

Lemma reachable_world_ok w : reachable_world m0 cfgs w → ∃ g, world_ok g w.
Proof. intros Hr. destruct (wsteps_ok _ _ Hr _ init_world_ok) as (g & Hg & _). by exists g. Qed.

Lemma committed_entries_ids g w n :
  world_ok g w → map log_id (committed_entries m0 (wengine w n)) = take (Z.to_nat (next_index (committed (state (wengine w n))))) (nlog g n).
Proof.
  intros (_ & _ & Hall & _). unfold committed_entries. by rewrite -firstn_map (ok_log _ _ _ _ _ (ok_base _ _ _ _ _ (Hall n))).
Qed.

(** What is committed is committed in the protocol. *)
Lemma committed_entries_prefix g w n :
  world_ok g w → committed_prefix qs g (map log_id (committed_entries m0 (wengine w n))) ∨ committed_entries m0 (wengine w n) = [].
Proof.
  intros Hw. rewrite (committed_entries_ids g) //. pose proof Hw as (Hg & _ & Hall & _). pose proof (ok_base _ _ _ _ _ (Hall n)) as Hb.
  destruct (committed (state (wengine w n))) as [c|] eqn:Hc; [|right; unfold committed_entries; by rewrite Hc]. left.
  destruct (ok_committed _ _ _ _ _ Hb c Hc) as (L & k & Hch & Hk & _ & Hs). pose proof Hs as (lg & HL & Hx & Ht).
  pose proof (log_consecutive m0 g n Hg _ _ (shares_lookup _ _ _ _ Hs)) as Hi.
  exists L, k, lg, (S (pos c)). split_and!; [done|done|lia|]. simpl. by replace (Z.to_nat (index c + 1)) with (S (pos c)) by lia.
Qed.

Lemma committed_content g w n x : world_ok g w → x ∈ committed_entries m0 (wengine w n) → content_ok g x.
Proof.
  intros (_ & _ & Hall & _) (i & Hi & _)%elem_of_take. apply (ok_content _ _ _ _ _ (ok_base _ _ _ _ _ (Hall n))). by eapply list_elem_of_lookup_2.
Qed.

End World.





(** A well-formed engine of node [n]: the ids of its log are consecutive from 0 and kept in their compressed form,
    what is committed is in the log, and a node that leads has a leader's record for its own committed vote, with
    the last id of the log and a progress that reports the greatest id that a quorum has reached. *)
Definition engine_wf (m0 : Membership) (n : Z) (e : Engine) : Prop :=
  let ids := map log_id (wlog m0 e) in
  consecutive 0 ids ∧ log_ids (state e) = keys ids ∧ last_log_id (state e) = last ids
  ∧ (∀ c, committed (state e) = Some c → ids !! Z.to_nat (index c) = Some c)
  ∧ (is_leader (state e) n = true → leader e ≠ None)
  ∧ ∀ l, leader e = Some l →
      vote_ref (state e) = MkVote (leader_vote l) true ∧ node_id (leader_vote l) = n ∧ server_state (state e) = LeaderState
      ∧ leader_last_log_id l = last ids
      ∧ greatest_accepted (vp_quorum_set (progress l)) (voters (progress l)) (quorum_accepted (progress l)).


(** * A run *)

Definition members3 : Membership :=
  MkMembership [{[1; 2; 3]}] {[1 := MkBasicNode "a"; 2 := MkBasicNode "b"; 3 := MkBasicNode "c"]}.
Definition config_of (n : Z) : EngineConfig := MkEngineConfig n 0 1 100 false 10 10 10.
Definition runtime0 : RuntimeConfig := MkRuntime true true 5 Never.

Abbreviation MemCore := (Core (@MemLogStoreInner Membership)).

(** Node 1 of the group, with the members in its log. *)
Definition node1 : MemCore :=
  let em := em_new (Some default_log_id) members3 in
  MkCore (engine_new (MkRaftState default_leased 0 [default_log_id] (MkMembershipState em em) default_snapshot_meta Follower
            (io_state_new default_vote None None None) None) (config_of 1))
    (MkInner None {[0 := MkEntry default_log_id (LogStore.Membership members3)]} None None) [] [] (MkPending [] [] [] []) [] [].

(** A turn of the runtime: a message is handled and the commands are run. *)
Definition turn (m : M MemCore unit) : M MemCore unit := m ;; run_engine_commands 100.
Definition notified_of (n : Notification) : M MemCore unit := turn (on_engine (let! _ := handle_notification runtime0 100 n in ret tt)).
Definition vote_of (t : Z) : Vote := MkVote (MkLeaderId t 1) false.
Definition wins (t : Z) : M MemCore unit :=
  notified_of (NLocalIO (new_io (vote_of t))) ;;
  notified_of (NVoteResponse 1 (MkVoteResponse (vote_of t) true None) (vote_leader (vote_of t))) ;;
  notified_of (NVoteResponse 2 (MkVoteResponse (vote_of t) true None) (vote_leader (vote_of t))).

(** Node 1 wins an election, is told to stand for another one, and accepts a write of client 42. *)
Definition elect_and_write : M MemCore unit :=
  notified_of (NTick 0) ;; wins 1 ;;
  turn (on_engine (handle_external 100 ExtElect)) ;;
  turn (write_entry (MkEntry default_log_id (Normal [7])) (Some 42)).

(** It wins again; its log reaches the disk and node 2. *)
Definition id_at (t i : Z) : LogId := MkLogId (MkLeaderId t 1) i.
Definition win_and_commit : M MemCore unit :=
  wins 2 ;;
  notified_of (NLocalIO (new_log_io (MkLeaderId 2 1) (Some (id_at 2 2)))) ;;
  notified_of (NReplicationProgress true (MkSessionId (MkLeaderId 2 1) (Some default_log_id)) 2 (Okay (Okay (Some (id_at 2 2))))).

Definition loses_write : M MemCore unit := elect_and_write ;; win_and_commit.

(** a leader that is told to stand for election may lose a write that it acknowledges. It goes on to
    accept writes in its old term; when it is elected again, the blank entry of the new term takes the place of the
    client's entry, in the log storage too, and when that blank entry is committed the client is told that its
    write, which is gone, was applied. *)
Theorem elect_while_leading_loses_write :
  (∃ c, elect_and_write node1 = (Ok tt, c) ∧ client_responders c = [(2, 42)] ∧
    log (log_store c) !! 2 = Some (MkEntry (id_at 1 2) (Normal [7]))) ∧
  (∃ c, loses_write node1 = (Ok tt, c) ∧ log (log_store c) !! 2 = Some (MkEntry (id_at 2 2) Blank) ∧
    committed (state (core_engine c)) = Some (id_at 2 2) ∧
    last (sent c) = Some (SentApply default_log_id (id_at 2 2) [(2, 42)])).
Proof. split; eexists; (split; [vm_compute; reflexivity|]); vm_compute; auto. Qed.
