(* ===== verification/RaftRead.v ===== *)
(** Linearizable reads: [handle_check_is_leader_request] of [core/raft_core.rs], [raft/linearizable_read/] and the
    waiting of [metrics/wait.rs], under [src/octopii/openraft/openraft/src/].

    A leader that is asked for a read notes the id up to which a state machine has to be applied and asks the
    voters with an empty request whether it still leads; a quorum of answers without a greater vote
    confirms it. The caller then waits, on any node, until that node has applied so much. The theorem is about groups
    of nodes: a read that was confirmed and has waited sees every write that was acknowledged before it began. *)

From stdpp Require Import functions strings.
From S2P Require Import Prelude LogStore RaftQuorum RaftMembership RaftLogIds RaftProgress RaftState RaftEngine RaftProtocol RaftCore RaftNet RaftSim RaftSimVote RaftSimLead RaftSimElect RaftSimFollow RaftSafety.

#[local] Open Scope Z_scope.

(** * The read *)

Inductive ReadPolicy := LeaseRead | ReadIndex.
#[global] Instance ReadPolicy_eq_dec : EqDecision ReadPolicy.
Proof. solve_decision. Defined.

(** [LinearizeState]; a [Linearizer] holds nothing else. *)
Record LinearizeState := MkLinearize { lin_node_id : Z; read_log_id : LogId; lin_applied : option LogId }.
Abbreviation Linearizer := LinearizeState.

Definition with_applied (s : LinearizeState) (node : Z) (applied : option LogId) : LinearizeState :=
  MkLinearize node (read_log_id s) applied.
Definition is_ready_on_node (s : LinearizeState) (node : Z) : bool :=
  (lin_node_id s =? node) && opt_log_id_le (Some (read_log_id s)) (lin_applied s).

(** [QuorumNotEnough] keeps the members, here not as text, and who has confirmed. *)
Inductive CheckIsLeaderError :=
  | CheckForwardToLeader (f : ForwardToLeader)
  | QuorumNotEnough (cluster : Membership) (got : gset Z).

(** What the request comes to: an answer, or calls to the voters and a task that waits for their answers. *)
Inductive ReadStart :=
  | ReadAnswered (r : Result Linearizer CheckIsLeaderError)
  | ReadWaits (resp : Linearizer) (my_vote : Vote) (eff_mem : EffectiveMembership) (rpcs : list (Z * AppendEntriesRequest)).

(** The empty requests to the other voters. *)
Definition read_rpcs (my_id : Z) (s : RaftState) (l : Leader) : list (Z * AppendEntriesRequest) :=
  (λ x, (pid x, MkAppendReq (vote_ref s) (matching (pval x)) [] (committed s))) <$>
    filter (λ x, vp_is_voter (pid x) (progress l) = Some true ∧ pid x ≠ my_id) (entries (progress l)).

(** [now] is read before [acked_now]; a target without a node in the membership is a panic. *)
Definition handle_check_is_leader_request (now acked_now : Z) (read_policy : ReadPolicy) : M Engine ReadStart :=
  let! h := leader_handler in
  match h with
  | Failed forward => ret (ReadAnswered (Failed (CheckForwardToLeader forward)))
  | Okay lh =>
      let! e := getS in
      let s := state e in
      let my_id := cfg_id (config e) in
      let resp := MkLinearize my_id (get_read_log_id lh s) (flushed (apply_progress (io_state s))) in
      if bool_decide (read_policy = LeaseRead) then
        let '(acked, l) := last_quorum_acked_time acked_now lh in
        set_leader (Some l) ;;
        if match acked with Some t => now <? t + leader_lease (config e) | None => false end
        then ret (ReadAnswered (Okay resp))
        else ret (ReadAnswered (Failed (CheckForwardToLeader None)))
      else
        let eff_mem := ms_effective (membership_state s) in
        if is_quorum (quorum_set eff_mem) [my_id] then ret (ReadAnswered (Okay resp))
        else
          let rpcs := read_rpcs my_id s lh in
          if forallb (λ r, mem_contains (em_membership eff_mem) r.1) rpcs
          then ret (ReadWaits resp (vote_ref s) eff_mem rpcs) else panic
  end.

(** The task that waits: what the calls come back with, in the order in which they do; [Failed] is a call that timed
    out, failed or was lost. With the answer, what it tells [RaftCore]. *)
Fixpoint wait_answers (resp : Linearizer) (my_vote : Vote) (eff_mem : EffectiveMembership) (granted : gset Z)
    (pending : list (Result (Z * AppendEntriesResponse) Z)) : Result Linearizer CheckIsLeaderError * list Notification :=
  match pending with
  | [] => (Failed (QuorumNotEnough (em_membership eff_mem) granted), [])
  | Failed _ :: rest => wait_answers resp my_vote eff_mem granted rest
  | Okay (target, HigherVote vote) :: _ =>
      (Failed (CheckForwardToLeader None), [NHigherVote target vote (to_committed my_vote)])
  | Okay (target, _) :: rest =>
      if is_quorum (quorum_set eff_mem) (btree_iter ({[target]} ∪ granted)) then (Okay resp, [])
      else wait_answers resp my_vote eff_mem ({[target]} ∪ granted) rest
  end.
Definition confirm_leader (my_id : Z) (resp : Linearizer) (my_vote : Vote) (eff_mem : EffectiveMembership)
    (pending : list (Result (Z * AppendEntriesResponse) Z)) : Result Linearizer CheckIsLeaderError * list Notification :=
  wait_answers resp my_vote eff_mem {[my_id]} pending.

(** * Waiting *)

Inductive WaitError := WaitTimeout | ShuttingDown.

(** [Wait::metrics] of the id that was applied last: the value when the wait begins, those seen as it changes, and how
    the wait ends if none will do. *)
Fixpoint wait_metrics (func : option LogId → bool) (latest : option LogId) (changes : list (option LogId)) (fin : WaitError)
    : Result (option LogId) WaitError :=
  if func latest then Okay latest
  else match changes with [] => Failed fin | m :: rest => wait_metrics func m rest fin end.

Definition applied_index_at_least (want : Z) (m : option LogId) : bool :=
  match m with Some i => want <=? index i | None => false end.

(** [Linearizer::try_await_ready]; after a timeout the metrics are read once more, when they show [after], and when the
    node is stopping it says why. *)
Definition try_await_ready (this_id : Z) (lin : Linearizer) (latest : option LogId) (changes : list (option LogId))
    (fin : WaitError) (after : option LogId) (why : Fatal) : Result (Result LinearizeState LinearizeState) Fatal :=
  if is_ready_on_node lin this_id then Okay (Okay lin)
  else match wait_metrics (applied_index_at_least (index (read_log_id lin))) latest changes fin with
       | Okay applied => Okay (Okay (with_applied lin this_id applied))
       | Failed WaitTimeout =>
           let state := with_applied lin this_id after in
           if is_ready_on_node state this_id then Okay (Okay state) else Okay (Failed state)
       | Failed ShuttingDown => Failed why
       end.

(** * What a handler leaves alone *)

Definition is_answer (c : Command) : Prop := match c with RespondCmd _ (RespondAppendEntries _) _ => True | _ => False end.

(** The committed id does not go back, and what is put out has the property [P]. *)
Record fresh (P : Command → Prop) (e e' : Engine) : Prop := {
  fresh_committed : opt_le (committed (state e)) (committed (state e'));
  fresh_output c : c ∈ output e' → c ∈ output e ∨ P c;
}.

#[local] Instance fresh_refl P : Reflexive (fresh P).
Proof. intros e. split; [apply opt_le_refl|auto]. Qed.
#[local] Instance fresh_trans P : Transitive (fresh P).
Proof. intros a b c [H1 H2] [I1 I2]. split; [by eapply opt_le_trans|]. intros x Hx. destruct (I2 x Hx); auto. Qed.
Lemma fresh_mono (P Q : Command → Prop) e e' : (∀ c, P c → Q c) → fresh P e e' → fresh Q e e'.
Proof. intros HPQ [H1 H2]. split; [done|]. intros c Hc. destruct (H2 c Hc); auto. Qed.

(** In particular, it answers no call of a leader. *)
Definition calm_step : relation Engine := fresh (λ c, ¬ is_answer c).
Definition calm {A} (m : M Engine A) : Prop := ∀ e, calm_step e (m e).2.
#[local] Instance calm_step_refl : Reflexive calm_step. Proof. apply fresh_refl. Qed.
#[local] Instance calm_step_trans : Transitive calm_step. Proof. apply fresh_trans. Qed.

Create HintDb calm.

Lemma calm_bind {A B} (m : M Engine A) (k : A → M Engine B) : calm m → (∀ a, calm (k a)) → calm (bind m k).
Proof.
  intros Hm Hk e. unfold bind. specialize (Hm e). destruct (m e) as [[a| | |] e']; cbn in *; [|done..]. etrans; [exact Hm|apply Hk].
Qed.
Lemma calm_ret {A} (a : A) : calm (ret a). Proof. by intros e. Qed.
Lemma calm_panic {A} : calm (panic : M Engine A). Proof. by intros e. Qed.
Lemma calm_get : calm getS. Proof. by intros e. Qed.
Lemma calm_state f : (∀ s, opt_le (committed s) (committed (f s))) → calm (with_state f).
Proof. intros Hf e. split; cbn; auto. Qed.
Lemma calm_same f : (∀ s, committed (f s) = committed s) → calm (with_state f).
Proof. intros Hf. apply calm_state. intros s. rewrite Hf. apply opt_le_refl. Qed.
Lemma calm_push c : ¬ is_answer c → calm (push_command c).
Proof. intros Hc e. split; cbn; [apply opt_le_refl|]. intros x [?| ->%list_elem_of_singleton]%elem_of_app; auto. Qed.
Lemma calm_set_leader o : calm (set_leader o).
Proof. intros e. split; cbn; [apply opt_le_refl|auto]. Qed.
Lemma calm_set_candidate c : calm (set_candidate c).
Proof. intros e. split; cbn; [apply opt_le_refl|auto]. Qed.
Lemma calm_seen b : calm (set_seen_greater b).
Proof. intros e. split; cbn; [apply opt_le_refl|auto]. Qed.
Lemma calm_the_leader : calm the_leader.
Proof. intros e. unfold the_leader, bind, getS. by destruct (leader e). Qed.
Lemma calm_modify_leader f : calm (modify_leader f).
Proof.
  intros e. unfold modify_leader, the_leader, bind, getS. destruct (leader e) as [l|]; [|done]. split; cbn; [apply opt_le_refl|auto].
Qed.
#[local] Hint Resolve calm_ret calm_panic calm_get calm_set_candidate calm_set_leader calm_modify_leader calm_seen calm_the_leader : calm.

(** One construct after the other, with the lemmas above for the calls. *)
Ltac calm_step :=
  lazymatch goal with
  | |- calm (bind _ _) => apply calm_bind; [|intros ?]
  | |- calm (if ?b then _ else _) => destruct b
  | |- calm (match ?x with _ => _ end) => destruct x
  | |- calm (push_command _) => apply calm_push; cbn; tauto
  | |- calm (with_state _) => first [apply calm_same; intros ?; reflexivity|solve [auto 2 with calm nocore]]
  | |- calm _ => solve [auto 2 with calm nocore]
  end.
Ltac calm_all := repeat calm_step.

Lemma calm_get_state : calm get_state. Proof. unfold get_state. calm_all. Qed.
Lemma calm_my_id : calm my_id. Proof. unfold my_id. calm_all. Qed.
#[local] Hint Resolve calm_get_state calm_my_id : calm.
Lemma calm_accept_io i : calm (accept_io i).
Proof. unfold accept_io. calm_step; [calm_all|]. calm_step; [|calm_all]. apply calm_same. intros s. unfold accept_log_io. cbn. by destruct (opt_lt _ _ _). Qed.
Lemma calm_server_state : calm update_server_state_if_changed.
Proof. unfold update_server_state_if_changed. calm_step; [calm_all|]. apply calm_same. intros s. by case_bool_decide. Qed.
#[local] Hint Resolve calm_accept_io calm_server_state : calm.
Lemma calm_purge_log : calm purge_log.
Proof. unfold purge_log. calm_all. Qed.
Lemma calm_local_committed g : calm (with_state (λ s, snd (update_local_committed g s))).
Proof.
  apply calm_state. intros s. unfold update_local_committed. destruct (opt_log_id_lt (committed s) g) eqn:Hlt; [|apply opt_le_refl].
  apply opt_log_id_lt_spec in Hlt. destruct g as [l|]; [|apply opt_le_refl]. cbn. destruct (opt_le_total (committed s) (Some l)); [done|done].
Qed.
#[local] Hint Resolve calm_purge_log calm_local_committed : calm.

(** ** The handlers, in the order of the sources *)

Lemma calm_clock n t : calm (update_leader_clock n t).
Proof. unfold update_leader_clock. calm_all. Qed.
Lemma calm_try_commit g : calm (try_commit_quorum_accepted g).
Proof. unfold try_commit_quorum_accepted. do 3 calm_step; calm_all. Qed.
#[local] Hint Resolve calm_clock calm_try_commit : calm.
Lemma calm_matching n m : calm (update_matching n m).
Proof. unfold update_matching. calm_all. Qed.
Lemma calm_conflicting t c h : calm (update_conflicting t c h).
Proof. unfold update_conflicting. calm_all. Qed.
Lemma calm_rebuild : calm rebuild_replication_streams.
Proof. unfold rebuild_replication_streams. calm_all. Qed.
Lemma calm_send_to t i : calm (send_to_target t i).
Proof. unfold send_to_target. calm_all. Qed.
#[local] Hint Resolve calm_matching calm_conflicting calm_rebuild calm_send_to : calm.
Lemma calm_initiate_from n : ∀ i, calm (initiate_from i n).
Proof. induction n as [|n IH]; intros i; cbn [initiate_from]; calm_all. Qed.
#[local] Hint Resolve calm_initiate_from : calm.
Lemma calm_initiate : calm initiate_replication.
Proof. unfold initiate_replication. calm_all. Qed.
Lemma calm_replication_purge : calm replication_try_purge_log.
Proof. unfold replication_try_purge_log. calm_all. Qed.
#[local] Hint Resolve calm_initiate calm_replication_purge : calm.
Lemma calm_progress t r h : calm (update_progress t r h).
Proof. unfold update_progress. calm_all. Qed.
Lemma calm_append_membership i m : calm (replication_append_membership i m).
Proof. unfold replication_append_membership, rebuild_progresses. calm_all. Qed.
Lemma calm_local_progress u : calm (update_local_progress u).
Proof. unfold update_local_progress. calm_all. Qed.
#[local] Hint Resolve calm_progress calm_append_membership calm_local_progress : calm.

Lemma calm_leader_append es : calm (leader_append_entries es).
Proof. unfold leader_append_entries. calm_all. Qed.
#[local] Hint Resolve calm_leader_append : calm.
Lemma calm_send_heartbeat : calm send_heartbeat.
Proof. unfold send_heartbeat. calm_all. Qed.
Lemma calm_transfer to : calm (transfer_leader to).
Proof. unfold transfer_leader. calm_all. Qed.
#[local] Hint Resolve calm_send_heartbeat calm_transfer : calm.

Lemma calm_become_leader now : calm (become_leader now).
Proof. unfold become_leader. calm_all. Qed.
Lemma calm_following : calm become_following.
Proof. unfold become_following. calm_all. Qed.
#[local] Hint Resolve calm_become_leader calm_following : calm.
Lemma calm_internal now : calm (update_internal_server_state now).
Proof. unfold update_internal_server_state. calm_all. Qed.
#[local] Hint Resolve calm_internal : calm.
Lemma calm_update_vote now v : calm (update_vote now v).
Proof. unfold update_vote. calm_all. Qed.
#[local] Hint Resolve calm_update_vote : calm.
Lemma calm_truncate i : calm (truncate_logs i).
Proof. unfold truncate_logs. calm_all. Qed.
Lemma calm_append_memberships es : calm (append_membership es).
Proof. unfold append_membership. calm_all. Qed.
#[local] Hint Resolve calm_truncate calm_append_memberships : calm.
Lemma calm_do_append v es : calm (do_append_entries v es).
Proof. unfold do_append_entries. calm_all. Qed.
Lemma calm_consecutive p : calm (ensure_log_consecutive p).
Proof. unfold ensure_log_consecutive. calm_all. Qed.
#[local] Hint Resolve calm_do_append calm_consecutive : calm.
Lemma calm_following_append v p es : calm (following_append_entries v p es).
Proof. unfold following_append_entries. calm_all. Qed.
#[local] Hint Resolve calm_following_append : calm.
Lemma calm_elect now : calm (elect now).
Proof. unfold elect, new_candidate. calm_all. Qed.
Lemma calm_establish now : calm (establish_leader now).
Proof. unfold establish_leader. calm_all. Qed.
#[local] Hint Resolve calm_elect calm_establish : calm.
Lemma calm_vote_req now r : calm (handle_vote_req now r).
Proof. unfold handle_vote_req. calm_all. Qed.
Lemma calm_vote_resp now t r : calm (handle_vote_resp now t r).
Proof. unfold handle_vote_resp. calm_all. Qed.
Lemma calm_step_down now : calm (leader_step_down now).
Proof. unfold leader_step_down. calm_all. Qed.
#[local] Hint Resolve calm_vote_req calm_vote_resp calm_step_down : calm.
Lemma calm_core_heartbeat : calm core_send_heartbeat.
Proof. unfold core_send_heartbeat, leader_handler. calm_all. Qed.
#[local] Hint Resolve calm_core_heartbeat : calm.
Lemma calm_tick rt now : calm (handle_tick rt now).
Proof. unfold handle_tick, handle_tick_election. calm_all. Qed.
Lemma calm_log_progress f : calm (with_log_progress f).
Proof. by apply calm_same. Qed.
Lemma calm_apply_progress f : (∀ p, accepted (f p) = accepted p) → calm (with_apply_progress f).
Proof. intros Hf. apply calm_same. intros s. apply Hf. Qed.
#[local] Hint Resolve calm_tick calm_log_progress : calm.
Lemma calm_snapshot_done m : calm (on_building_snapshot_done m).
Proof.
  unfold on_building_snapshot_done, update_snapshot, schedule_policy_based_purge, update_purge_upto, try_purge_log. calm_all.
Qed.
#[local] Hint Resolve calm_snapshot_done : calm.
Lemma calm_notification rt now x : calm (handle_notification rt now x).
Proof.
  unfold handle_notification, with_snapshot_progress. calm_all; try (by apply calm_apply_progress).
Qed.
Lemma calm_transfer_request now v to : calm (handle_transfer_leader now v to).
Proof. unfold handle_transfer_leader. calm_all. Qed.
Lemma calm_append_one x : calm (append_one x).
Proof. unfold append_one, leader_handler. calm_all. Qed.
#[local] Hint Resolve calm_notification calm_transfer_request calm_append_one : calm.

(** Every event but a request of a leader. *)
Lemma calm_event rt now ev : (∀ req tx, ev ≠ EvAppendEntries req tx) → calm (handle_event rt now ev).
Proof.
  intros Hev. destruct ev; cbn [handle_event]; unfold handle_vote_request, handle_external, trigger_transfer_leader, trigger_purge_log.
  all: try (by destruct (Hev req tx)). all: calm_all; try (by apply calm_apply_progress).
Qed.

(** A request of a leader is answered under its own number, and by a node whose vote was not beyond the request's, if
    not with the greater vote. *)
Definition answer_to (old v : Vote) (tx : Z) (c : Command) : Prop :=
  ¬ is_answer c ∨ ∃ cond r, c = RespondCmd cond (RespondAppendEntries r) tx ∧ ((∃ h, r = HigherVote h) ∨ vle old v).

Definition freshm {A} (P : Command → Prop) (m : M Engine A) : Prop := ∀ e, fresh P e (m e).2.

Lemma freshm_bind {A B} P (m : M Engine A) (k : A → M Engine B) : freshm P m → (∀ a, freshm P (k a)) → freshm P (bind m k).
Proof.
  intros Hm Hk e. unfold bind. specialize (Hm e). destruct (m e) as [[a| | |] e']; cbn in *; [|done..]. etrans; [exact Hm|apply Hk].
Qed.
Lemma freshm_calm {A} old v tx (m : M Engine A) : calm m → freshm (answer_to old v tx) m.
Proof. intros Hm e. eapply fresh_mono; [|apply Hm]. intros c Hc. by left. Qed.
Lemma freshm_push P c : P c → freshm P (push_command c).
Proof. intros Hc e. split; cbn; [apply opt_le_refl|]. intros x [?| ->%list_elem_of_singleton]%elem_of_app; auto. Qed.

Lemma calm_update_committed c : calm (with_state (update_committed c)).
Proof.
  intros e. set (s1 := set_io_state (set_cluster_committed (try_update log_io_id_cmp c (cluster_committed (io_state (state e)))) (io_state (state e))) (state e)).
  destruct (calm_local_committed (calculate_local_committed (io_state s1))
    (MkEngine (config e) s1 (seen_greater_log e) (leader e) (candidate e) (output e))) as [H1 H2].
  split; [exact H1|exact H2].
Qed.

Lemma append_request_fresh now req tx e :
  fresh (answer_to (vote_ref (state e)) (areq_vote req) tx) e (handle_append_entries_request now req tx e).2.
Proof.
  unfold handle_append_entries_request. destruct (vote_le (vote_ref (state e)) (areq_vote req)) eqn:Hle.
  - apply freshm_bind; [|intros a; apply freshm_calm; destruct a; [apply calm_update_committed|apply calm_ret]].
    apply vote_le_spec in Hle. set (old := vote_ref (state e)) in *. clearbody old. clear e. unfold handle_append_entries.
    apply freshm_bind; [apply freshm_calm; unfold append_entries; calm_all|]. intros r.
    apply freshm_bind; [apply freshm_calm; calm_all|]. intros s.
    destruct r as [?|?]; [destruct (accepted _)|]; [|apply freshm_calm, calm_panic|];
      (apply freshm_bind; [apply freshm_push; right; eauto 6|intros; apply freshm_calm, calm_ret]).
  - unfold handle_append_entries, append_entries, update_vote, bind, getS. rewrite Hle. cbn.
    split; [apply opt_le_refl|]. cbn. intros x [?| ->%list_elem_of_singleton]%elem_of_app; [auto|]. right. right. eauto 8.
Qed.

(** * Groups of nodes *)

(** Node [k] has answered the request number [tx]. *)
Definition answered (w : World) (k tx : Z) (r : AppendEntriesResponse) : Prop :=
  ∃ cond, RespondCmd cond (RespondAppendEntries r) tx ∈ output (wengine w k).

Lemma handle_event_fresh rt now ev e :
  fresh (λ c, ¬ is_answer c ∨ ∃ req tx, ev = EvAppendEntries req tx ∧ answer_to (vote_ref (state e)) (areq_vote req) tx c) e
    (handle_event rt now ev e).2.
Proof.
  assert ((∃ req tx, ev = EvAppendEntries req tx) ∨ ¬ ∃ req tx, ev = EvAppendEntries req tx) as [(req & tx & ->)|Hev]
    by (destruct ev; eauto; right; by intros (? & ? & ?)).
  - eapply fresh_mono; [|apply append_request_fresh]. intros c Hc. right. eauto.
  - eapply fresh_mono; [|apply calm_event]; [by left|]. intros req tx ->. eauto.
Qed.

Section Group.
Context (m0 : Membership) (cfgs : Z → EngineConfig) (Hgroup : group_ok m0 cfgs).

Abbreviation qs := (to_quorum_set m0).

Lemma wstep_answers w w' :
  wstep m0 w w' →
  wreqs w `prefix_of` wreqs w' ∧
  ∀ k, opt_le (committed (state (wengine w k))) (committed (state (wengine w' k))) ∧
    ∀ tx r, answered w' k tx r → answered w k tx r ∨
      ∃ req, wreqs w !! Z.to_nat tx = Some req ∧ ((∃ h, r = HigherVote h) ∨ vle (vote_ref (state (wengine w k))) (areq_vote req)).
Proof.
  intros [w1 n rt now ev e' Hdel _ Hrun|w1 n l i j k Hl Hij Hk]; simpl.
  - split; [done|]. intros k. destruct (decide (n = k)) as [<-|Hne].
    2: { rewrite fn_lookup_insert_ne //. split; [apply opt_le_refl|]. intros tx r (cond & Hc). left. exists cond. simpl in Hc. by rewrite fn_lookup_insert_ne in Hc. }
    rewrite fn_lookup_insert. destruct (handle_event_fresh rt now ev (wengine w1 n)) as [H1 H2]. rewrite Hrun in H1, H2. split; [exact H1|].
    intros tx r (cond & Hc). simpl in Hc. rewrite fn_lookup_insert in Hc.
    destruct (H2 _ Hc) as [?|[Hna|(req & tx' & -> & Hans)]]; [left; by exists cond|by destruct Hna|].
    destruct Hans as [Hna|(cond' & r' & [= <- <- <-] & Hr)]; [by destruct Hna|]. right. inversion Hdel; subst. eauto.
  - split; [by apply prefix_app_r|]. intros m. split; [apply opt_le_refl|]. intros tx r Ha. by left.
Qed.

Lemma wsteps_committed w w' k :
  rtc (wstep m0) w w' → opt_le (committed (state (wengine w k))) (committed (state (wengine w' k))).
Proof.
  induction 1 as [w|w w1 w2 Hstep _ IH]; [apply opt_le_refl|]. eapply opt_le_trans; [|exact IH]. by apply (wstep_answers w w1 Hstep).
Qed.

Lemma wsteps_reqs w w' : rtc (wstep m0) w w' → wreqs w `prefix_of` wreqs w'.
Proof. induction 1 as [w|w w1 w2 Hstep _ IH]; [done|]. etrans; [|exact IH]. by apply (wstep_answers w w1 Hstep). Qed.

Lemma answered_request w k tx r : reachable_world m0 cfgs w → answered w k tx r → is_Some (wreqs w !! Z.to_nat tx).
Proof.
  intros Hr. revert k tx r. revert w Hr. refine (rtc_ind_r (λ w, ∀ k tx r, answered w k tx r → is_Some (wreqs w !! Z.to_nat tx)) _ _ _); [|intros w1 w2 _ Hstep IH]; intros k tx r Ha.
  - destruct Ha as [cond Hc]. cbn [init_world wengine] in Hc.
    assert (output (init_engine m0 cfgs k) = []) as Hnil.
    { assert (∀ s i, vote_ref s = default_vote → is_leader s i = false) as Hnl by (intros s i Hs; unfold is_leader; rewrite Hs; apply andb_false_r).
      unfold init_engine, startup, bind, getS, engine_new. cbn [state config]. by rewrite Hnl. }
    rewrite Hnil in Hc. by apply elem_of_nil in Hc.
  - destruct (wstep_answers w1 w2 Hstep) as [Hpre Hk]. destruct (Hk k) as [_ Hans].
    assert (is_Some (wreqs w1 !! Z.to_nat tx)) as [req Hq].
    { destruct (Hans tx r Ha) as [Ha'|(req & -> & _)]; [by eapply IH|done]. }
    exists req. by eapply prefix_lookup_Some.
Qed.

(** What moves of the protocol keep. *)
Lemma moves_keep (P : Ghost → Prop) : (∀ n g g', grows n g g' → P g → P g') → ∀ g g', rtc moves g g' → P g → P g'.
Proof. intros HP g g'. induction 1 as [g|g g1 g2 [n Hg] _ IH]; [done|]. intros Hp. by eapply IH, HP. Qed.

Lemma moves_vote g g' m : rtc moves g g' → vle (nvote g m) (nvote g' m).
Proof.
  intros Hm. apply (moves_keep (λ h, vle (nvote g m) (nvote h m))) with g; [|done|apply vle_refl].
  intros n h h' Hg Hv. eapply vle_trans; [exact Hv|by eapply grows_vote].
Qed.

Lemma wsteps_vote g w w' k :
  world_ok m0 g w → rtc (wstep m0) w w' → vle (vote_ref (state (wengine w k))) (vote_ref (state (wengine w' k))).
Proof.
  intros Hw Hr. destruct (wsteps_ok m0 cfgs Hgroup _ _ Hr g Hw) as (g' & (_ & _ & Hall' & _) & Hm). destruct Hw as (_ & _ & Hall & _).
  rewrite (ok_vote _ _ _ _ _ (ok_base _ _ _ _ _ (Hall k))) (ok_vote _ _ _ _ _ (ok_base _ _ _ _ _ (Hall' k))). by apply moves_vote.
Qed.

(** An answer given since [w] that names no greater vote is from a node that had none in [w]. *)
Lemma answer_vote g w w' k tx r req :
  world_ok m0 g w → rtc (wstep m0) w w' → wreqs w !! Z.to_nat tx = Some req → (∀ r, ¬ answered w k tx r) →
  answered w' k tx r → (∀ h, r ≠ HigherVote h) → vle (vote_ref (state (wengine w k))) (areq_vote req).
Proof.
  intros Hw Hr Hq Hnone Ha Hnh. revert Ha. revert w' Hr.
  refine (rtc_ind_r (λ w', answered w' k tx r → vle (vote_ref (state (wengine w k))) (areq_vote req)) _ _ _).
  { intros Ha. by destruct (Hnone r). }
  intros w1 w2 Hr Hstep IH Ha.
  destruct (wstep_answers w1 w2 Hstep) as [_ Hk]. destruct (Hk k) as [_ Hans].
  destruct (Hans tx r Ha) as [Ha'|(req' & Hq' & [(h & ->)|Hv])]; [by apply IH|by destruct (Hnh h)|].
  rewrite (prefix_lookup_Some _ _ _ _ Hq (wsteps_reqs _ _ Hr)) in Hq'. injection Hq' as <-.
  eapply vle_trans; [by eapply wsteps_vote|exact Hv].
Qed.

(** ** The order of ids *)

Lemma in_llog_le g L x y :
  ghost_ok m0 g → in_llog g L x → in_llog g L y → (pos x ≤ pos y)%nat → opt_le (Some x) (Some y).
Proof.
  intros (Hinv & _) (lg & HL & Hx) (lg' & HL' & Hy) Hle. rewrite HL in HL'. injection HL' as <-.
  pose proof (inv_llog _ _ Hinv _ _ HL) as Hm. destruct (Hm _ _ Hx) as [Hix _]. destruct (Hm _ _ Hy) as [Hiy _].
  destruct (matches_monotone _ lg _ _ _ _ Hm (inv_llog_le _ _ Hinv) Hle Hx Hy) as [Hlt|Heq]; [right; by left|].
  destruct (decide (pos x = pos y)) as [Hp|Hp]; [left; rewrite Hp in Hx; congruence|]. right. right. split; [done|lia].
Qed.

(** An id that is committed under some leader. *)
Definition settled (g : Ghost) (L : LeaderId) (x : LogId) : Prop := ∃ k, chosen qs g L k ∧ in_llog g L x ∧ (pos x < k)%nat.

Lemma settled_later g L L' lg x :
  ghost_ok m0 g → settled g L x → llog g L' = Some lg → leader_id_le L L' → in_llog g L' x.
Proof.
  intros (Hinv & _) (k & Hch & (lg0 & HL & Hx) & Hk) HL' Hle. exists lg. split; [done|].
  destruct Hle as [Hlt| ->]; [|congruence]. apply (take_S_lookup lg0); [|done]. symmetry. apply (take_eq_le _ _ _ k); [lia|].
  by apply (chosen_in_later _ (group_meet m0 cfgs Hgroup) g L k L').
Qed.

Lemma settled_common g L L' x y :
  ghost_ok m0 g → settled g L x → settled g L' y → ∃ M, in_llog g M x ∧ in_llog g M y.
Proof.
  intros Hg Hx Hy. pose proof Hx as (_ & _ & (lg & HL & _) & _). pose proof Hy as (_ & _ & (lg' & HL' & _) & _). pose proof Hx as (k & _ & Hxi & _). pose proof Hy as (k' & _ & Hyi & _).
  destruct (leader_id_lt_total L L') as [Hlt|[->|Hlt]].
  - exists L'. split; [|done]. apply (settled_later g L L' lg'); [done..|by left].
  - by exists L'.
  - exists L. split; [done|]. apply (settled_later g L' L lg); [done..|by left].
Qed.

Lemma settled_moves g g' L x : rtc moves g g' → settled g L x → settled g' L x.
Proof.
  apply (moves_keep (λ h, settled h L x)). intros n h h' Hg (k & Hc & Hi & Hk). exists k. split_and!; eauto using chosen_grows, in_llog_grows.
Qed.

(** What a node holds for committed. *)
Lemma committed_settled g w k z :
  world_ok m0 g w → z ∈ committed_entries m0 (wengine w k) →
  ∃ L c, committed (state (wengine w k)) = Some c ∧ settled g L (log_id z) ∧ settled g L c ∧ vle (MkVote L true) (nvote g k)
    ∧ (pos (log_id z) ≤ pos c)%nat ∧ nlog g k !! pos (log_id z) = Some (log_id z) ∧ nlog g k !! pos c = Some c.
Proof.
  intros Hw Hz. pose proof Hw as (Hg & _ & Hall & _). pose proof (ok_base _ _ _ _ _ (Hall k)) as Hb.
  assert (log_id z ∈ map log_id (committed_entries m0 (wengine w k))) as Hin by (by apply list_elem_of_fmap_2).
  rewrite (committed_entries_ids m0 g) // in Hin. apply elem_of_take in Hin as (i & Hi & Hlt).
  pose proof (log_consecutive m0 g k Hg _ _ Hi) as Hix.
  destruct (committed (state (wengine w k))) as [c|] eqn:Hc; simpl in Hlt; [|lia].
  destruct (ok_committed _ _ _ _ _ Hb c Hc) as (L & q & Hch & Hq & Hv & Hs). pose proof (shares_lookup _ _ _ _ Hs) as Hcl.
  pose proof (log_consecutive m0 g k Hg _ _ Hcl) as Hic. destruct Hs as (lg & HL & Hcg & Ht).
  assert (pos (log_id z) = i) as Hp by lia. exists L, c.
  assert ((pos (log_id z) ≤ pos c)%nat) as Hzc by lia. split_and!; try done.
  - exists q. split_and!; [done| |lia]. exists lg. split; [done|]. rewrite Hp. apply (take_S_lookup (nlog g k)); [|done]. apply (take_eq_le _ _ _ (S (pos c))); [lia|done].
  - exists q. split_and!; [done|by exists lg|done].
  - by rewrite Hp.
Qed.

(** ** The read of a leader *)

Lemma read_request_spec now acked e rs e' :
  handle_check_is_leader_request now acked ReadIndex e = (Ok rs, e') →
  match rs with
  | ReadAnswered (Failed _) => True
  | ReadAnswered (Okay lin) => ∃ l, leader e = Some l ∧ read_log_id lin = get_read_log_id l (state e)
      ∧ is_quorum (quorum_set (ms_effective (membership_state (state e)))) [cfg_id (config e)] = true
  | ReadWaits lin v eff rpcs => ∃ l, leader e = Some l ∧ read_log_id lin = get_read_log_id l (state e) ∧ v = vote_ref (state e)
      ∧ eff = ms_effective (membership_state (state e)) ∧ rpcs = read_rpcs (cfg_id (config e)) (state e) l
  end.
Proof.
  unfold handle_check_is_leader_request, leader_handler, bind, getS, ret. destruct (leader e) as [l|]; [|by intros [= <- _]].
  rewrite bool_decide_false //. destruct (is_quorum _ _) eqn:Hq; [intros [= <- _]; by exists l|].
  destruct (forallb _ _); [|done]. intros [= <- _]. by exists l.
Qed.

(** The id that a read has to wait for is not before the leader's first one, nor before the committed one. *)
Lemma read_log_id_bounds g w n l x :
  world_ok m0 g w → leader (wengine w n) = Some l → x = noop_log_id l ∨ committed (state (wengine w n)) = Some x →
  opt_le (Some x) (Some (get_read_log_id l (state (wengine w n)))) ∧ index x ≤ index (get_read_log_id l (state (wengine w n))).
Proof.
  intros (Hg & _ & Hall & _) Hl Hx. destruct (ok_leader _ _ _ _ _ (Hall n) l Hl) as (Hv & _ & _ & _ & _ & Hno1 & Hno2).
  unfold get_read_log_id. destruct (committed (state (wengine w n))) as [c|] eqn:Hc.
  2: { destruct Hx as [->|[=]]. split; [apply opt_le_refl|done]. }
  destruct (ok_committed _ _ _ _ _ (ok_base _ _ _ _ _ (Hall n)) c Hc) as (L & k & _ & _ & _ & Hs).
  apply shares_lookup, list_elem_of_lookup_2 in Hs. specialize (Hno2 c Hs).
  assert (leader_id_le (leader_id c) (leader_vote l)) as Hcl by (destruct Hg as (Hinv & _); by eapply log_le_vote).
  assert (opt_le (Some (noop_log_id l)) (Some c) → index (noop_log_id l) ≤ index c) as H1.
  { intros [[= ->]|[Hlt|[_ Hi]]]; [done| |lia]. rewrite Hno1 in Hlt. destruct (leader_id_lt_irrefl (leader_vote l)). by eapply leader_id_lt_le_trans. }
  assert (opt_le (Some c) (Some (noop_log_id l)) → index c ≤ index (noop_log_id l)) as H2.
  { intros [[= ->]|[Hlt|[_ Hi]]]; [done| |lia]. destruct Hno2 as [He|?]; [|lia]. rewrite He Hno1 in Hlt. by apply leader_id_lt_irrefl in Hlt. }
  assert (x = noop_log_id l ∨ x = c) as Hxs by (destruct Hx as [?|[= ->]]; auto). clear Hx.
  destruct (log_id_cmp_spec (noop_log_id l) c) as [Heq|Hlt|Hgt]; destruct Hxs as [->| ->]; split;
    first [done|apply opt_le_refl|by left|by right|by rewrite Heq|apply H1; by right|apply H2; by right].
Qed.

(** What the voters were asked is what the leader may send. *)
Definition sent (w : World) (rpcs : list (Z * AppendEntriesRequest)) : World := MkWorld (wengine w) (wreqs w ++ (snd <$> rpcs)).

Lemma sent_all w rpcs :
  (∀ r w1, r ∈ rpcs → wengine w1 = wengine w → wstep m0 w1 (MkWorld (wengine w1) (wreqs w1 ++ [r.2]))) → rtc (wstep m0) w (sent w rpcs).
Proof.
  intros Hall. unfold sent. assert (∀ w1, wengine w1 = wengine w → rtc (wstep m0) w1 (MkWorld (wengine w1) (wreqs w1 ++ (snd <$> rpcs)))) as Hgo; [|by apply Hgo].
  induction rpcs as [|r rpcs IH]; intros w1 Hw1.
  - simpl. rewrite app_nil_r. by destruct w1.
  - eapply rtc_l; [apply (Hall r w1); [by left|done]|]. rewrite fmap_cons.
    replace (wreqs w1 ++ r.2 :: rpcs.*2) with ((wreqs w1 ++ [r.2]) ++ rpcs.*2) by (by rewrite -app_assoc).
    apply (IH (λ r' w2 Hr', Hall r' w2 (list_elem_of_further _ _ _ Hr')) (MkWorld (wengine w1) (wreqs w1 ++ [r.2])) Hw1).
Qed.

Lemma last_at (log : list LogId) i x : log !! i = Some x → last (take (S i) log) = Some x.
Proof. intros Hx. rewrite (take_S_r _ _ x Hx). apply last_snoc. Qed.

Lemma read_requests_sent g w n l :
  world_ok m0 g w → leader (wengine w n) = Some l → rtc (wstep m0) w (sent w (read_rpcs n (state (wengine w n)) l)).
Proof.
  intros Hw Hl. apply sent_all. intros r w1 Hr Hw1. apply list_elem_of_fmap in Hr as (x & -> & Hx). apply list_elem_of_filter in Hx as [_ Hx]. simpl.
  pose proof Hw as (Hg & _ & Hall & _). pose proof (ok_base _ _ _ _ _ (Hall n)) as Hb. destruct (ok_leader _ _ _ _ _ (Hall n) l Hl) as (Hv & Hid & _ & _ & Hp & _).
  set (e := wengine w n) in *. pose proof (ok_log _ _ _ _ _ Hb) as Hlog.
  assert (∀ q, log_id <$> last (take q (wlog m0 e)) = last (take q (nlog g n))) as Hlast
    by (intros q; rewrite -Hlog firstn_map; by rewrite -fmap_last).
  assert (∃ i, (i ≤ length (wlog m0 e))%nat ∧ matching (pval x) = last (take i (nlog g n))) as (i & Hi & Hm).
  { destruct (matching (pval x)) as [y|] eqn:Hy; [|by exists 0%nat; split; [lia|]]. destruct Hp as (_ & _ & _ & Hack & _).
    destruct (Hack x y Hx Hy) as [(lg & HL & Hyl) _]. rewrite (leader_log m0 _ _ g l e Hg (Hall n) Hl) in HL. injection HL as <-.
    exists (S (pos y)). split; [|by rewrite (last_at _ _ _ Hyl)]. apply lookup_lt_Some in Hyl. rewrite -Hlog length_map in Hyl. lia. }
  assert (∃ k, Z.of_nat k ≤ next_index (committed (state e)) ∧ committed (state e) = last (take k (nlog g n))) as (k & Hk & Hc).
  { destruct (committed (state e)) as [c|] eqn:Hc; [|by exists 0%nat]. destruct (ok_committed _ _ _ _ _ Hb c Hc) as (L & q & _ & _ & _ & Hs).
    apply shares_lookup in Hs. pose proof (log_consecutive m0 g n Hg _ _ Hs). exists (S (pos c)). split; [simpl; lia|by rewrite (last_at _ _ _ Hs)]. }
  pose proof (WSend m0 orderly w1 n l i i k) as Hstep. rewrite Hw1 in Hstep |- *. fold e in Hstep.
  assert (MkAppendReq (vote_ref (state e)) (matching (pval x)) [] (committed (state e))
    = stretch (wlog m0 e) (leader_vote l) i i (log_id <$> last (take k (wlog m0 e)))) as ->; [|by apply Hstep].
  unfold stretch. by rewrite (ok_vote _ _ _ _ _ Hb) Hv !Hlast Hm Hc Nat.sub_diag.
Qed.

(** An answer to one of the read's requests, by the node that it went to. *)
Definition arrived (w : World) (rpcs : list (Z * AppendEntriesRequest)) (w1 : World) (a : Result (Z * AppendEntriesResponse) Z) : Prop :=
  match a with
  | Failed _ => True
  | Okay (target, r) => ∃ i req tx, rpcs !! i = Some (target, req) ∧ Z.to_nat tx = (length (wreqs w) + i)%nat ∧ answered w1 target tx r
  end.

(** Node [n] begins a read in [w], and in [w1] it has been confirmed. *)
Inductive read_confirmed (w : World) (n : Z) : Linearizer → World → Prop :=
  | ReadAlone now acked lin e :
      handle_check_is_leader_request now acked ReadIndex (wengine w n) = (Ok (ReadAnswered (Okay lin)), e) → read_confirmed w n lin w
  | ReadAsked now acked resp v eff rpcs e pending lin notes w1 :
      handle_check_is_leader_request now acked ReadIndex (wengine w n) = (Ok (ReadWaits resp v eff rpcs), e) →
      rtc (wstep m0) (sent w rpcs) w1 → Forall (arrived w rpcs w1) pending →
      confirm_leader n resp v eff pending = (Okay lin, notes) → read_confirmed w n lin w1.

Lemma wait_answers_spec resp v eff granted pending lin notes :
  wait_answers resp v eff granted pending = (Okay lin, notes) →
  lin = resp ∧ ∃ all, is_quorum (quorum_set eff) (btree_iter all) = true
    ∧ ∀ t, t ∈ all → t ∈ granted ∨ ∃ r, Okay (t, r) ∈ pending ∧ ∀ h, r ≠ HigherVote h.
Proof.
  revert granted. induction pending as [|[[t r]|t] pending IH]; intros granted Hw; [done| |].
  2: { destruct (IH granted Hw) as (Hl & all & Hq & Hall). split; [done|]. exists all. split; [done|]. intros u Hu.
       destruct (Hall u Hu) as [?|(r & Hr & ?)]; [by left|right; exists r; split; [by right|done]]. }
  assert ((if is_quorum (quorum_set eff) (btree_iter ({[t]} ∪ granted)) then (Okay resp, [])
    else wait_answers resp v eff ({[t]} ∪ granted) pending) = (Okay lin, notes) ∧ ∀ h, r ≠ HigherVote h) as [Hif Hnh] by (by destruct r).
  clear Hw. destruct (is_quorum _ _) eqn:Hq.
  - injection Hif as <- <-. split; [done|]. exists ({[t]} ∪ granted). split; [done|]. intros u [->%elem_of_singleton|Hu]%elem_of_union; [|by left].
    right. exists r. split; [by left|done].
  - destruct (IH _ Hif) as (Hl & all & Hq' & Hall). split; [done|]. exists all. split; [done|]. intros u Hu.
    destruct (Hall u Hu) as [[->%elem_of_singleton|?]%elem_of_union|(r' & Hr & ?)]; [right; exists r; split; [by left|done]|by left|].
    right. exists r'. split; [by right|done].
Qed.

(** When a read has been confirmed, a quorum had no greater vote when it began. *)
Lemma confirmed_quorum g w n lin w1 :
  reachable_world m0 cfgs w → world_ok m0 g w → read_confirmed w n lin w1 →
  rtc (wstep m0) w w1 ∧ ∃ l all, leader (wengine w n) = Some l ∧ read_log_id lin = get_read_log_id l (state (wengine w n))
    ∧ is_quorum qs (btree_iter all) = true ∧ ∀ t, t ∈ all → vle (nvote g t) (MkVote (leader_vote l) true).
Proof.
  intros Hreach Hw Hread. pose proof Hw as (Hg & _ & Hall & _). pose proof (ok_base _ _ _ _ _ (Hall n)) as Hb.
  assert (∀ l, leader (wengine w n) = Some l → vle (nvote g n) (MkVote (leader_vote l) true)) as Hself.
  { intros l Hl. destruct (ok_leader _ _ _ _ _ (Hall n) l Hl) as (-> & _). apply vle_refl. }
  destruct Hread as [now acked lin e Hh|now acked resp v eff rpcs e pending lin notes w1 Hh Hsteps Harr Hconf].
  - apply read_request_spec in Hh as (l & Hl & Hid & Hq). rewrite (ok_em _ _ _ _ _ Hb) (ok_id _ _ _ _ _ Hb) in Hq.
    split; [done|]. exists l, {[n]}. split_and!; [done|done| |intros t ->%elem_of_singleton; by apply Hself].
    unfold btree_iter. by rewrite elements_singleton.
  - apply read_request_spec in Hh as (l & Hl & Hid & -> & -> & ->). rewrite (ok_id _ _ _ _ _ Hb) in Hsteps, Harr.
    pose proof (read_requests_sent g w n l Hw Hl) as Hsent. split; [by etrans|]. set (rpcs := read_rpcs n _ l) in *.
    apply wait_answers_spec in Hconf as (-> & all & Hq & Hfrom). rewrite (ok_em _ _ _ _ _ Hb) in Hq.
    exists l, all. split_and!; [done..|]. intros t Ht. destruct (Hfrom t Ht) as [->%elem_of_singleton|(r & Hr & Hnh)]; [by apply Hself|].
    rewrite Forall_forall in Harr. destruct (Harr _ Hr) as (i & req & tx & Hi & Htx & Hans).
    destruct (wsteps_ok m0 cfgs Hgroup _ _ Hsent g Hw) as (g1 & Hw1 & _).
    pose proof (answer_vote g1 (sent w rpcs) w1 t tx r req Hw1 Hsteps) as Hv.
    rewrite -(ok_vote _ _ _ _ _ (ok_base _ _ _ _ _ (Hall t))). eapply vle_trans; [apply Hv; [| |done|done]|].
    + simpl. rewrite Htx lookup_app_r; [lia|]. replace (_ + i - _)%nat with i by lia. by rewrite list_lookup_fmap Hi.
    + intros r' Ha. destruct (answered_request w t tx r' Hreach Ha) as [q Hq']. rewrite Htx in Hq'. apply lookup_lt_Some in Hq'. lia.
    + apply list_elem_of_lookup_2 in Hi. apply list_elem_of_fmap in Hi as (x & [= -> ->] & _). simpl.
      rewrite (ok_vote _ _ _ _ _ Hb). by apply Hself.
Qed.

(** A write that the leader who made it holds for committed. *)
Definition acknowledged (w : World) (y : MEntry) : Prop :=
  ∃ m l, leader (wengine w m) = Some l ∧ y ∈ committed_entries m0 (wengine w m) ∧ leader_id (log_id y) = leader_vote l.

Lemma acknowledged_settled g w y :
  world_ok m0 g w → acknowledged w y →
  settled g (leader_id (log_id y)) (log_id y)
  ∧ opt_le (Some (log_id y)) (committed (state (wengine w (node_id (leader_id (log_id y)))))).
Proof.
  intros Hw (m & l & Hl & Hy & Hly). pose proof Hw as (Hg & _ & Hall & _).
  destruct (committed_settled g w m y Hw Hy) as (L & c & Hc & Hs & Hsc & Hv & Hp & _).
  destruct (ok_leader _ _ _ _ _ (Hall m) l Hl) as (Hvm & Hid & _). rewrite Hvm in Hv.
  assert (L = leader_id (log_id y)) as ->.
  { pose proof Hs as (_ & _ & (lg & HL & Hyl) & _). apply leader_id_le_antisym.
    - rewrite Hly. by destruct (vle_leader _ _ Hv); [left|right].
    - destruct Hg as (Hinv & _). apply (inv_llog_le _ _ Hinv _ lg); [done|]. by eapply list_elem_of_lookup_2. }
  split; [done|]. rewrite Hly Hid Hc. destruct Hs as (_ & _ & H1 & _), Hsc as (_ & _ & H2 & _). by eapply in_llog_le.
Qed.

(** The id of a confirmed read is not before that of an acknowledged write. *)
Lemma read_covers g' w' w n lin w1 y :
  world_ok m0 g' w' → rtc (wstep m0) w' w → reachable_world m0 cfgs w → acknowledged w' y → read_confirmed w n lin w1 →
  opt_le (Some (log_id y)) (Some (read_log_id lin)) ∧ index (log_id y) ≤ index (read_log_id lin).
Proof.
  intros Hw' Hsteps Hreach Hack Hread. destruct (wsteps_ok m0 cfgs Hgroup _ _ Hsteps g' Hw') as (g & Hw & Hm).
  destruct (acknowledged_settled g' w' y Hw' Hack) as [Hs Hc]. set (L' := leader_id (log_id y)) in *.
  apply (settled_moves g' g) in Hs; [|done].
  destruct (confirmed_quorum g w n lin w1 Hreach Hw Hread) as (_ & l & all & Hl & -> & Hq & Hvotes).
  pose proof Hw as (Hg & _ & Hall & _). pose proof Hg as (Hinv & _). pose proof (leader_log m0 _ _ g l _ Hg (Hall n) Hl) as HL.
  destruct (ok_leader _ _ _ _ _ (Hall n) l Hl) as (Hvn & Hid & _ & _ & _ & Hno1 & Hno2). set (L := leader_vote l) in *.
  assert (leader_id_le L' L) as Hle.
  { destruct Hs as (k & (lg & x & q & _ & _ & _ & _ & Hnd & Hq' & Hacks) & _).
    destruct (group_meet m0 cfgs Hgroup q (btree_iter all) Hnd (NoDup_btree_iter all) Hq' Hq) as (t & Ht1 & Ht2).
    destruct (Hacks t Ht1) as (k' & _ & Hin). destruct (inv_acks _ _ Hinv _ _ _ Hin) as (Hv & _).
    apply elem_of_btree_iter, Hvotes in Ht2. pose proof (vle_trans _ _ _ Hv Ht2) as Hv2. by destruct (vle_leader _ _ Hv2); [left|right]. }
  pose proof (settled_later g L' L _ (log_id y) Hg Hs HL Hle) as Hin.
  destruct Hle as [Hlt|Heq].
  - destruct (read_log_id_bounds g w n l (noop_log_id l) Hw Hl (or_introl eq_refl)) as [H1 H2].
    assert (index (log_id y) < index (noop_log_id l)).
    { destruct Hin as (lg & HL2 & Hy). rewrite HL in HL2. injection HL2 as <-. apply list_elem_of_lookup_2 in Hy.
      destruct (Hno2 _ Hy) as [He|?]; [|done]. fold L' L in He. rewrite He in Hlt. by apply leader_id_lt_irrefl in Hlt. }
    split; [|lia]. eapply opt_le_trans; [|exact H1]. right. left. by rewrite Hno1.
  - rewrite Heq Hid in Hc. pose proof (opt_le_trans _ _ _ Hc (wsteps_committed w' w n Hsteps)) as Hc2.
    destruct (committed (state (wengine w n))) as [c|] eqn:Ec; [|done].
    destruct (read_log_id_bounds g w n l c Hw Hl (or_intror Ec)) as [H1 H2]. split; [by eapply opt_le_trans|].
    destruct (ok_committed _ _ _ _ _ (ok_base _ _ _ _ _ (Hall n)) c Ec) as (? & ? & _ & _ & _ & Hsh). apply shares_lookup in Hsh.
    pose proof (in_llog_order m0 g L (log_id y) c Hg Hin ltac:(by exists (nlog g n)) Hc2) as Hpos.
    pose proof (log_consecutive m0 g n Hg _ _ Hsh). destruct Hin as (lg & HL2 & Hy). rewrite HL in HL2. injection HL2 as <-.
    pose proof (log_consecutive m0 g n Hg _ _ Hy). lia.
Qed.

Lemma wait_metrics_spec func latest changes fin m : wait_metrics func latest changes fin = Okay m → func m = true.
Proof.
  revert latest. induction changes as [|c changes IH]; intros latest; simpl; destruct (func latest) eqn:Hf; try done.
  - by intros [= <-].
  - by intros [= <-].
  - apply IH.
Qed.

Lemma try_await_ready_spec this lin latest changes fin after why st :
  try_await_ready this lin latest changes fin after why = Okay (Okay st) →
  ∃ a, lin_applied st = Some a ∧ (opt_le (Some (read_log_id lin)) (Some a) ∨ index (read_log_id lin) ≤ index a).
Proof.
  assert (∀ s, read_log_id s = read_log_id lin → is_ready_on_node s this = true →
    ∃ a, lin_applied s = Some a ∧ (opt_le (Some (read_log_id lin)) (Some a) ∨ index (read_log_id lin) ≤ index a)) as Hready.
  { intros s Hs [_ Hle]%andb_true_iff. apply opt_log_id_le_spec in Hle. rewrite Hs in Hle. destruct (lin_applied s) as [a|]; [|done].
    exists a. split; [done|by left]. }
  unfold try_await_ready. destruct (is_ready_on_node lin this) eqn:Hr; [intros [= <-]; by apply Hready|].
  destruct (wait_metrics _ _ _ _) as [m|[]] eqn:Hw; [| |done].
  - intros [= <-]. apply wait_metrics_spec in Hw. destruct m as [a|]; [|done]. exists a. split; [done|]. right. by apply Z.leb_le in Hw.
  - set (s := with_applied lin this after). destruct (is_ready_on_node s this) eqn:Hs; [|done]. intros [= <-]. by apply Hready.
Qed.

(** A node that has applied an id beyond the read's has applied the write. *)
Lemma applied_covers g g2 w' w2 k y a rid :
  world_ok m0 g w' → rtc moves g g2 → world_ok m0 g2 w2 → acknowledged w' y →
  opt_le (Some (log_id y)) (Some rid) → index (log_id y) ≤ index rid → opt_le (Some rid) (Some a) ∨ index rid ≤ index a →
  a ∈ map log_id (committed_entries m0 (wengine w2 k)) → y ∈ take (S (pos a)) (wlog m0 (wengine w2 k)).
Proof.
  intros Hw Hm Hw2 Hack Hle Hix Ha (z & -> & Hz)%list_elem_of_fmap.
  pose proof Hw2 as (Hg2 & _ & Hall2 & _). pose proof Hg2 as (Hinv2 & _). pose proof (ok_base _ _ _ _ _ (Hall2 k)) as Hb.
  destruct (acknowledged_settled g w' y Hw Hack) as [Hs _]. apply (settled_moves g g2) in Hs; [|done].
  destruct (committed_settled g2 w2 k z Hw2 Hz) as (L & c & _ & Hsz & _ & _ & _ & Hzl & _).
  destruct (settled_common g2 _ _ _ _ Hg2 Hs Hsz) as (M & Hy & Hzm).
  assert (pos (log_id y) ≤ pos (log_id z))%nat as Hpos.
  { destruct Ha as [Ha|Ha]; [|lia]. by eapply (in_llog_order m0 g2 M); [..|eapply opt_le_trans]. }
  destruct Hy as (lg & HM & Hy). destruct Hzm as (lg' & HM' & Hzm). rewrite HM in HM'. injection HM' as <-.
  pose proof (matches_agree (llog g2) _ _ _ _ (inv_log _ _ Hinv2 k) (inv_llog _ _ Hinv2 _ _ HM) Hzl Hzm) as Hag.
  assert (nlog g2 k !! pos (log_id y) = Some (log_id y)) as Hyl.
  { apply (take_S_lookup lg); [|done]. symmetry. apply (take_eq_le _ _ _ (S (pos (log_id z)))); [lia|done]. }
  rewrite -(ok_log _ _ _ _ _ Hb) in Hyl. rewrite list_lookup_fmap in Hyl. destruct (wlog m0 (wengine w2 k) !! _) as [u|] eqn:Hu; [|done].
  injection Hyl as Hid. assert (u = y) as ->.
  { assert (content_ok g2 y) as H1.
    { apply (moves_keep (λ h, content_ok h y)) with g; [|done|]. { intros n h h' (_ & _ & _ & _ & _ & _ & Hct). apply Hct. }
      destruct Hack as (m & _ & _ & Hin & _). by eapply committed_content. }
    pose proof (ok_content _ _ _ _ _ Hb u ltac:(by eapply list_elem_of_lookup_2)) as H2. unfold content_ok in *. destruct u, y; simpl in *. subst. congruence. }
  apply elem_of_take. exists (pos (log_id y)). split; [done|lia].
Qed.

End Group.

