(* ===== verification/WalKey.v ===== *)
(** Keys of topic segments: [src/distributed-walrus/src/controller/types.rs].

    A segment of a topic is an engine topic of its own, named by [wal_key]; the name is
    taken apart again by [parse_wal_key]. *)

From S2P Require Import Prelude.

#[local] Open Scope Z_scope.

(** [str::strip_prefix]. *)
Fixpoint strip (p s : string) : option string :=
  match p, s with
  | EmptyString, _ => Some s
  | String a p, String b s => if decide (a = b) then strip p s else None
  | String _ _, EmptyString => None
  end.

(** [rsplitn(2, pat)] when it yields two pieces: what is before and after the last match. *)
Fixpoint rsplit (pat s : string) : option (string * string) :=
  match s with
  | EmptyString => None
  | String c s' =>
      match rsplit pat s' with
      | Some (before, after) => Some (String c before, after)
      | None => match strip pat s with Some after => Some (EmptyString, after) | None => None end
      end
  end.

(** The value of a decimal digit. *)
Definition digit (a : Ascii.ascii) : option Z :=
  let n := Z.of_nat (Ascii.nat_of_ascii a) in
  if (48 <=? n) && (n <=? 57) then Some (n - 48) else None.

Fixpoint parse_digits (acc : Z) (s : string) : option Z :=
  match s with
  | EmptyString => Some acc
  | String a s =>
      match digit a with
      | None => None
      | Some d => let acc := acc * 10 + d in if acc <=? U64_MAX then parse_digits acc s else None
      end
  end.

(** [str::parse::<u64>]: an optional plus sign, then at least one digit, without overflow. *)
Definition parse_u64 (s : string) : option Z :=
  let digits := match strip "+" s with Some s' => s' | None => s end in
  match digits with EmptyString => None | _ => parse_digits 0 digits end.

Definition wal_key (topic : string) (segment : Z) : string :=
  "t_" +:+ topic +:+ "_s_" +:+ pretty (Z.to_N segment).

Definition parse_wal_key (key : string) : option (string * Z) :=
  match rsplit "_s_" key with
  | None => None
  | Some (before, after) =>
      match strip "t_" before with
      | None => None
      | Some topic_part =>
          match parse_u64 after with None => None | Some segment => Some (topic_part, segment) end
      end
  end.

(** * Strings of digits *)

Fixpoint all_digits (s : string) : Prop :=
  match s with EmptyString => True | String a s => is_Some (digit a) ∧ all_digits s end.

Lemma digit_char x : (x < 10)%N → digit (pretty_N_char x) = Some (Z.of_N x).
Proof.
  intros Hx. assert (x = 0 ∨ x = 1 ∨ x = 2 ∨ x = 3 ∨ x = 4 ∨ x = 5 ∨ x = 6 ∨ x = 7 ∨ x = 8 ∨ x = 9)%N as Hc by lia.
  by repeat (destruct Hc as [->|Hc]; [reflexivity|]); subst.
Qed.

Lemma all_digits_go x s : all_digits s → all_digits (pretty_N_go x s).
Proof.
  revert s. induction (N.lt_wf_0 x) as [x _ IH]; intros s Hs.
  destruct (decide (0 < x)%N) as [Hx|Hx].
  - rewrite pretty_N_go_step //. apply IH; [by apply N.div_lt|]. split; [|done].
    rewrite digit_char; [apply N.mod_lt; lia|by eexists].
  - assert (x = 0%N) as -> by lia. by rewrite pretty_N_go_0.
Qed.

Lemma all_digits_pretty (n : N) : all_digits (pretty n).
Proof.
  rewrite /pretty /pretty_N. case_decide; [|by apply all_digits_go]. split; [by eexists|done].
Qed.

Lemma pretty_nonempty (n : N) : pretty n ≠ "".
Proof.
  rewrite /pretty /pretty_N. case_decide; [done|]. rewrite pretty_N_go_step; [lia|].
  assert (∀ x c s, ∃ c' s', pretty_N_go x (String c s) = String c' s') as Hgo.
  { intros x. induction (N.lt_wf_0 x) as [x _ IH]; intros c s. destruct (decide (0 < x)%N).
    - rewrite pretty_N_go_step //. apply IH. by apply N.div_lt.
    - assert (x = 0%N) as -> by lia. rewrite pretty_N_go_0. by eexists _, _. }
  by destruct (Hgo (n `div` 10)%N (pretty_N_char (n `mod` 10)) "") as (? & ? & ->).
Qed.

(** Reading the digits that were put in front of [s]. *)
Lemma parse_digits_go x s :
  Z.of_N x ≤ U64_MAX → parse_digits 0 (pretty_N_go x s) = parse_digits (Z.of_N x) s.
Proof.
  revert s. induction (N.lt_wf_0 x) as [x _ IH]; intros s Hm.
  destruct (decide (0 < x)%N) as [Hx|Hx]; last first.
  { assert (x = 0%N) as -> by lia. by rewrite pretty_N_go_0. }
  rewrite pretty_N_go_step // IH; [by apply N.div_lt| |].
  { rewrite N2Z.inj_div. change (Z.of_N 10) with 10. pose proof (Z.div_le_upper_bound (Z.of_N x) 10 (Z.of_N x)). lia. }
  cbn [parse_digits]. rewrite digit_char; [apply N.mod_lt; lia|].
  rewrite N2Z.inj_div N2Z.inj_mod. change (Z.of_N 10) with 10.
  replace (Z.of_N x / 10 * 10 + Z.of_N x `mod` 10) with (Z.of_N x) by (pose proof (Z.div_mod (Z.of_N x) 10); lia).
  by rewrite (proj2 (Z.leb_le _ _) Hm).
Qed.

Lemma strip_digit_plus s : all_digits s → strip "+" s = None.
Proof.
  destruct s as [|a s]; [done|]. intros [[d Hd] _]. cbn. case_decide as E; [|done]. subst a. by vm_compute in Hd.
Qed.

Lemma parse_u64_pretty z : is_u64 z → parse_u64 (pretty (Z.to_N z)) = Some z.
Proof.
  intros Hz. rewrite /parse_u64 strip_digit_plus; [apply all_digits_pretty|].
  pose proof (pretty_nonempty (Z.to_N z)). destruct (pretty (Z.to_N z)) eqn:E; [done|]. rewrite -E.
  rewrite /pretty /pretty_N. case_decide as Hd.
  - assert (z = 0) as -> by (rewrite /is_u64 in Hz; lia). reflexivity.
  - rewrite parse_digits_go; rewrite /is_u64 in Hz; [lia|]. cbn. f_equal. lia.
Qed.

(** * The last separator *)

Lemma strip_app p s : strip p (p +:+ s) = Some s.
Proof. induction p as [|a p IH]; [done|]. change (strip (String a p) (String a (p +:+ s)) = Some s). cbn. by rewrite decide_True. Qed.

Lemma rsplit_digits r : all_digits r → rsplit "_s_" r = None.
Proof.
  induction r as [|a r IH]; [done|]. intros [[d Hd] Hr]. cbn [rsplit]. rewrite IH //.
  change (strip "_s_" (String a r)) with (if decide (Ascii.ascii_of_nat 95 = a) then strip "s_" r else None).
  case_decide as E; [|done]. subst a. by vm_compute in Hd.
Qed.

Lemma strip_digits_s r : all_digits r → strip "s_" r = None.
Proof.
  destruct r as [|a r]; [done|]. intros [[d Hd] _].
  change (strip "s_" (String a r)) with (if decide (Ascii.ascii_of_nat 115 = a) then strip "_" r else None).
  case_decide as E; [|done]. subst a. by vm_compute in Hd.
Qed.

Lemma rsplit_last p r : all_digits r → rsplit "_s_" (p +:+ "_s_" +:+ r) = Some (p, r).
Proof.
  intros Hr. induction p as [|a p IH].
  - change ("" +:+ "_s_" +:+ r) with (String (Ascii.ascii_of_nat 95) (String (Ascii.ascii_of_nat 115) (String (Ascii.ascii_of_nat 95) r))).
    cbn [rsplit]. rewrite rsplit_digits //.
    change (strip "_s_" (String (Ascii.ascii_of_nat 95) r)) with (strip "s_" r). rewrite strip_digits_s //.
  - change (rsplit "_s_" (String a (p +:+ "_s_" +:+ r)) = Some (String a p, r)). cbn [rsplit]. by rewrite IH.
Qed.

Lemma string_assoc (a b c : string) : (a +:+ b) +:+ c = a +:+ (b +:+ c).
Proof.
  induction a as [|x a IH]; [done|].
  change (String x ((a +:+ b) +:+ c) = String x (a +:+ (b +:+ c))). by rewrite IH.
Qed.

Lemma parse_wal_key_eq topic segment :
  is_u64 segment → parse_wal_key (wal_key topic segment) = Some (topic, segment).
Proof.
  intros Hs. rewrite /parse_wal_key /wal_key -string_assoc rsplit_last; [apply all_digits_pretty|].
  by rewrite strip_app parse_u64_pretty.
Qed.

(** the key of a segment is taken apart into the same topic and segment number, for every
    topic name, also one that contains the separator; so different segments have different
    keys. *)
Theorem wal_key_roundtrip topic segment topic' segment' :
  is_u64 segment → is_u64 segment' →
  parse_wal_key (wal_key topic segment) = Some (topic, segment) ∧
  (wal_key topic segment = wal_key topic' segment' → topic = topic' ∧ segment = segment').
Proof.
  intros Hs Hs'. split; [by apply parse_wal_key_eq|]. intros E%(f_equal parse_wal_key).
  rewrite !parse_wal_key_eq // in E. by injection E.
Qed.
