(* ===== verification/Bucket.v ===== *)
(** The bucket: [src/distributed-walrus/src/bucket.rs].

    A node keeps its data in one engine, behind leases: an append is accepted only for a key
    the node holds a lease on. The engine is seen through the interface [Engine], and what the
    distributed layer relies on is the law class [QueueEngine]: each key is a first-in
    first-out queue. *)

From S2P Require Import Prelude.

#[local] Open Scope Z_scope.

(** * The interface of the engine *)

(** [batch_append_for_topic] and [read_next] of the engine, and [get_topic_size]. *)
Class Engine (E : Type) := {
  engine_append : string → list (list Z) → M E unit;
  engine_read : string → bool → M E (option (list Z));
  engine_size : string → E → Z;
}.

(** What is stored under each key. *)
Definition contents : Type := string → list (list Z).
Definition put (k : string) (q : list (list Z)) (c : contents) : contents :=
  λ k', if decide (k' = k) then q else c k'.

Lemma put_eq k q c : put k q c k = q.
Proof. rewrite /put. by case_decide. Qed.
Lemma put_ne k k' q c : k' ≠ k → put k q c k' = c k'.
Proof. intros. rewrite /put. by case_decide. Qed.

(** [holds n e c]: the engine [e] stores [c] and has room for [n] more appends. *)
Class QueueEngine (E : Type) `{Engine E} := {
  accepts : string → list Z → Prop;
  holds : Z → E → contents → Prop;
  holds_append n e c k d :
    0 ≤ n → accepts k d → holds (n + 1) e c →
    ∃ e', engine_append k [d] e = (Ok tt, e') ∧ holds n e' (put k (c k ++ [d]) c);
  holds_read n e c k :
    holds n e c →
    ∃ e', engine_read k true e = (Ok (head (c k)), e') ∧ holds n e' (put k (tail (c k)) c);
  holds_ext n e c c' : (∀ k, c k = c' k) → holds n e c → holds n e c';
}.

(** * The bucket *)

Section bucket.
Context {E : Type} `{Engine E}.

Record Storage := MkStorage {
  engine : E;
  active_leases : gset string;
  write_locks : gset string;      (* the keys that have a mutex *)
}.

Definition in_engine {A} (m : M E A) : M Storage A :=
  zoom engine (λ e s, MkStorage e (active_leases s) (write_locks s)) m.

Definition ensure_lease (wal_key : string) : M Storage unit :=
  let! s := getS in
  if bool_decide (wal_key ∈ active_leases s) then ret tt
  else fail KOther ("NotLeaderForPartition: " +:+ wal_key).

(** The mutex of a key is created on first use and never removed. *)
Definition lock_for_key (key : string) : M Storage unit :=
  modify (λ s, MkStorage (engine s) (active_leases s) ({[key]} ∪ write_locks s)).

Definition append_by_key (wal_key : string) (data : list Z) : M Storage unit :=
  ensure_lease wal_key;;
  lock_for_key wal_key;;
  in_engine (engine_append wal_key [data]).

Definition read_one (wal_key : string) : M Storage (option (list Z)) :=
  in_engine (engine_read wal_key true).

Definition bucket_update_leases (expected : gset string) : M Storage unit :=
  let! s := getS in
  if bool_decide (active_leases s = expected) then ret tt
  else
    let leases := active_leases s ∩ expected in
    modify (λ s, MkStorage (engine s) (leases ∪ expected) (write_locks s)).

Definition get_topic_size_blocking (wal_key : string) (s : Storage) : Z :=
  engine_size wal_key (engine s).

(** The leases are exactly what metadata expects. *)
Lemma bucket_update_leases_ok expected s :
  ∃ s', bucket_update_leases expected s = (Ok tt, s') ∧ active_leases s' = expected ∧
    engine s' = engine s.
Proof.
  rewrite /bucket_update_leases /bind /getS. case_bool_decide; eexists; split; [done| |done|]; [done|].
  split; [|done]. cbn. set_solver.
Qed.

Lemma append_by_key_fenced k d s :
  k ∉ active_leases s →
  append_by_key k d s = (Err (IoError KOther ("NotLeaderForPartition: " +:+ k)), s).
Proof.
  intros Hk. rewrite /append_by_key /ensure_lease /bind /getS. by rewrite bool_decide_eq_false_2.
Qed.

Context `{!QueueEngine E}.

Lemma append_by_key_ok n k d s c :
  k ∈ active_leases s → 0 ≤ n → accepts k d → holds (n + 1) (engine s) c →
  ∃ s', append_by_key k d s = (Ok tt, s') ∧ active_leases s' = active_leases s ∧
    holds n (engine s') (put k (c k ++ [d]) c).
Proof.
  intros Hk Hn Ha Hh. destruct (holds_append n (engine s) c k d Hn Ha Hh) as (e' & E1 & Hh').
  rewrite /append_by_key /ensure_lease /bind /getS bool_decide_eq_true_2 //.
  rewrite /ret /lock_for_key /modify /in_engine /zoom /= E1. by eexists.
Qed.

Lemma read_one_ok n k s c :
  holds n (engine s) c →
  ∃ s', read_one k s = (Ok (head (c k)), s') ∧ active_leases s' = active_leases s ∧
    holds n (engine s') (put k (tail (c k)) c).
Proof.
  intros Hh. destruct (holds_read n (engine s) c k Hh) as (e' & E1 & Hh').
  rewrite /read_one /in_engine /zoom E1. by eexists.
Qed.
End bucket.
Arguments Storage : clear implicits.
