(* ===== verification/Controller.v ===== *)
(** The controller of a node and its monitor: [src/distributed-walrus/src/controller/mod.rs],
    [controller/internal.rs], [monitor.rs], [rpc.rs] and the request handler of [main.rs].

    The state is the whole cluster: each node has its bucket, its replica of the metadata,
    its entry counters and its read cursors; the commands the consensus layer has committed are
    a log. Consensus itself (the [octopii] node) and the network are seen through the record
    [RaftView]: who leads, who votes, which node answers at an address, whether a proposal
    goes through. A committed command is applied at the leader when the proposal returns, and
    on every other node at some later step ([catch_up]). *)

From stdpp Require Import sorting.
From S2P Require Import Prelude Metadata WalKey Bucket.

#[local] Open Scope Z_scope.

(** * Messages ([rpc.rs]) *)

Inductive TestControl :=
  | ForceForwardReadError (flag : bool)
  | RevokeLeases (topic : string)
  | SyncLeases
  | TriggerJoin (node_id : Z) (addr : string)
  | ForceMonitorError
  | ForceDirSizeError.

Inductive InternalOp :=
  | ForwardAppend (wal_key : string) (data : list Z)
  | ForwardRead (wal_key : string) (max_entries : Z)
  | ForwardMetadata (cmd : MetadataCmd)
  | JoinCluster (node_id : Z) (addr : string)
  | OpTestControl (c : TestControl).

Inductive InternalResp :=
  | RespOk
  | ReadResult (data : list (list Z)) (high_watermark : Z)
  | RespError (e : string).

Inductive ResponsePayload :=
  | CustomResponse (success : bool) (data : list Z)
  | PayloadError (message : string).

(** [ReadCursor] of [controller/types.rs]. *)
Record ReadCursor := MkCursor { segment : Z; delivered_in_segment : Z }.
Definition default_cursor : ReadCursor := MkCursor 0 0.

(** * Limits ([monitor.rs]) *)

Definition DEFAULT_MAX_SEGMENT_ENTRIES : Z := 1000000.
Definition DEFAULT_CHECK_INTERVAL : Z := 10000.

(** The value of the environment variable, when it is set. *)
Definition max_segment_entries (var : option string) : Z :=
  match var with
  | Some val =>
      match parse_u64 val with
      | Some parsed => Z.max parsed 1
      | None => DEFAULT_MAX_SEGMENT_ENTRIES
      end
  | None => DEFAULT_MAX_SEGMENT_ENTRIES
  end.

Definition check_interval (var : option string) : Z :=
  match var with
  | Some ms =>
      match parse_u64 ms with Some parsed => Z.max parsed 10 | None => DEFAULT_CHECK_INTERVAL end
  | None => DEFAULT_CHECK_INTERVAL
  end.

(** The voters of a joint configuration, in the order of a [BTreeSet]. *)
Definition voters_of (joint_config : list (list Z)) : list Z :=
  merge_sort Z.le (elements (list_to_set (concat joint_config) : gset Z)).

(** The voter after this node, around the ring. *)
Definition next_leader (node_id : Z) (nodes : list Z) : Z :=
  let current_idx := default 0%nat (fst <$> list_find (λ id, id = node_id) nodes) in
  default node_id (nodes !! ((current_idx + 1) `mod` length nodes)%nat).

(** [match m { Ok(v) => .., Err(e) => .. }], with the text of the error. *)
Definition catch {S A} (m : M S A) : M S (A + string) := λ s,
  match m s with
  | (Ok a, s') => (Ok (inl a), s')
  | (Err e, s') => (Ok (inr (err_msg e)), s')
  | (Panic, s') => (Panic, s')
  | (Hang, s') => (Hang, s')
  end.

(** [anyhow!] *)
Definition bail {S A} (msg : string) : M S A := fail KOther msg.

(** * The cluster *)

(** What a node sees of consensus and network: its belief about the leader (polled), the
    voters, the node that answers at an address, proposals and replies that fail. *)
Record RaftView := MkView {
  raft_is_leader : Z → bool;
  raft_current_leader : Z → nat → option Z;
  joint_config : Z → list (list Z);
  resolve : string → option Z;
  reply_lost : string → bool;
  propose_error : option string;
  add_learner_error : Z → option string;
  topic_hash : string → Z;
  max_entries_var : option string;
}.

Section controller.
Context {E : Type} `{Engine E} `{Bincode MetadataCmd, Bincode ClusterState}
        `{Bincode InternalOp} `{Bincode InternalResp}.

Record Node := MkNode {
  bucket : Storage E;
  metadata : ClusterState;
  applied : nat;                       (* commands of the log in [metadata] *)
  offsets : gmap string Z;
  read_cursors : gmap string ReadCursor;
  test_fail_forward_read : bool;
  test_fail_monitor : bool;
  test_fail_dir_size : bool;
}.

Record Cluster := MkCl {
  members : gmap Z Node;
  raft_log : list (list Z);
  view : RaftView;
}.

Definition set_bucket (b : Storage E) (n : Node) : Node :=
  MkNode b (metadata n) (applied n) (offsets n) (read_cursors n) (test_fail_forward_read n)
         (test_fail_monitor n) (test_fail_dir_size n).
Definition set_metadata (m : ClusterState) (k : nat) (n : Node) : Node :=
  MkNode (bucket n) m k (offsets n) (read_cursors n) (test_fail_forward_read n)
         (test_fail_monitor n) (test_fail_dir_size n).
Definition set_offsets (o : gmap string Z) (n : Node) : Node :=
  MkNode (bucket n) (metadata n) (applied n) o (read_cursors n) (test_fail_forward_read n)
         (test_fail_monitor n) (test_fail_dir_size n).
Definition set_cursors (m : gmap string ReadCursor) (n : Node) : Node :=
  MkNode (bucket n) (metadata n) (applied n) (offsets n) m (test_fail_forward_read n)
         (test_fail_monitor n) (test_fail_dir_size n).
Definition set_flags (r m d : bool) (n : Node) : Node :=
  MkNode (bucket n) (metadata n) (applied n) (offsets n) (read_cursors n) r m d.
Definition set_member (i : Z) (n : Node) (c : Cluster) : Cluster :=
  MkCl (<[i := n]> (members c)) (raft_log c) (view c).

(** Code that runs on node [i]. *)
Definition on_node {A} (i : Z) (m : M Node A) : M Cluster A := λ c,
  match members c !! i with
  | None => (Panic, c)
  | Some n => let '(o, n') := m n in (o, set_member i n' c)
  end.
Definition node_of (i : Z) : M Cluster Node := on_node i getS.
Definition in_bucket {A} (m : M (Storage E) A) : M Node A := zoom bucket set_bucket m.

(** ** Leases and counters *)

Definition expected_leases (node_id : Z) (st : ClusterState) : gset string :=
  list_to_set ((λ '(topic, seg), wal_key topic seg) <$> owned_topics node_id st).

Definition update_leases (node_id : Z) : M Node unit :=
  let! n := getS in
  in_bucket (bucket_update_leases (expected_leases node_id (metadata n))).

Definition tracked_entry_count (key : string) (n : Node) : Z := default 0 (offsets n !! key).

Definition record_append (key : string) (num_entries : Z) : M Node unit :=
  modify (λ n, set_offsets (<[key := wrap64 (tracked_entry_count key n + num_entries)]>
                              (offsets n)) n).

(** ** The data plane of one node *)

Definition forward_read (key : string) : M Node InternalResp :=
  let! n := getS in
  if test_fail_forward_read n then ret (RespError "forced forward read failure")
  else
    let! r := catch (in_bucket (read_one key)) in
    let! n := getS in
    match r with
    | inl (Some data) => ret (ReadResult [data] (tracked_entry_count key n))
    | inl None => ret (ReadResult [] (tracked_entry_count key n))
    | inr e => ret (RespError e)
    end.

(** Two attempts; the leases are refreshed before the second. *)
Definition append_with_retry (node_id : Z) (key : string) (data : list Z) : M Node unit :=
  let! r := catch (in_bucket (append_by_key key data)) in
  match r with
  | inl _ => ret tt
  | inr _ =>
      update_leases node_id;;
      let! r := catch (in_bucket (append_by_key key data)) in
      match r with inl _ => ret tt | inr e => bail e end
  end.

(** ** Consensus *)

(** The first [k] commands of the log are applied on a node, those it has applied before
    left out. *)
Definition catch_up_node (log : list (list Z)) (k : nat) (n : Node) : Node :=
  let todo := take (k - applied n) (drop (applied n) log) in
  set_metadata (apply_log todo (metadata n)).2 (applied n + length todo) n.

Definition catch_up (i : Z) (k : nat) : M Cluster unit :=
  let! c := getS in on_node i (modify (catch_up_node (raft_log c) k)).

(** [raft.propose]: the command is committed, and applied here before the call returns. (An
    error of the state machine also stops the consensus layer of the node; no command the
    controller proposes makes it fail, so the model only reports it.) *)
Definition raft_propose (i : Z) (payload : list Z) : M Cluster unit :=
  let! c := getS in
  match propose_error (view c) with
  | Some e => bail ("client_write: " +:+ e)
  | None =>
      modify (λ c, MkCl (members c) (raft_log c ++ [payload]) (view c));;
      let! n := node_of i in
      let n := catch_up_node (raft_log c) (length (raft_log c)) n in
      let '(r, st) := apply payload (metadata n) in
      on_node i (modify (λ _, set_metadata st (S (length (raft_log c))) n));;
      match r with inl _ => ret tt | inr e => bail ("client_write: " +:+ e) end
  end.

(** The polls of [propose_metadata]: fifty at most. *)
Fixpoint poll_leader (attempts : nat) (seen : nat → option Z) (k : nat) : option Z :=
  match attempts with
  | O => None
  | S a => match seen k with Some l => Some l | None => poll_leader a seen (S k) end
  end.

(** ** Calls to other nodes *)

Section calls.
(** The handler of the node that is called. *)
Variable call : Z → InternalOp → M Cluster InternalResp.

(** The custom handler that [main.rs] installs. *)
Definition custom_rpc_handler (i : Z) (data : list Z) : M Cluster ResponsePayload :=
  match deserialize data with
  | None => ret (PayloadError "decode error")
  | Some op =>
      let! resp := call i op in
      let success := match resp with RespError _ => false | _ => true end in
      ret (CustomResponse success (serialize resp))
  end.

Definition rpc_request (addr : string) (op : InternalOp) : M Cluster ResponsePayload :=
  let! c := getS in
  match resolve (view c) addr with
  | None => bail ("could not resolve addr " +:+ addr)
  | Some j =>
      match members c !! j with
      | None => bail "rpc: unreachable"
      | Some _ =>
          let! resp := custom_rpc_handler j (serialize op) in
          if reply_lost (view c) addr then bail "rpc: timed out" else ret resp
      end
  end.

(** The error a failed response carries. *)
Definition resp_error (data : list Z) : string :=
  match deserialize data with Some (RespError e) => e | _ => "unknown error" end.

Definition expect_success (what : string) (resp : ResponsePayload) : M Cluster unit :=
  match resp with
  | CustomResponse true _ => ret tt
  | CustomResponse false data => bail (what +:+ " failed: " +:+ resp_error data)
  | PayloadError m => bail ("unexpected response: " +:+ m)
  end.

Definition propose_metadata (i : Z) (cmd : MetadataCmd) : M Cluster unit :=
  let! c := getS in
  if raft_is_leader (view c) i then raft_propose i (serialize cmd)
  else
    match poll_leader 50 (raft_current_leader (view c) i) 0 with
    | None => bail "no raft leader known for metadata proposal after retries"
    | Some leader_id =>
        if leader_id =? i then raft_propose i (serialize cmd)
        else
          let! n := node_of i in
          match get_node_addr leader_id (metadata n) with
          | None => bail ("unknown addr for raft leader " +:+ pretty (Z.to_N leader_id))
          | Some addr =>
              let! resp := rpc_request addr (ForwardMetadata cmd) in
              expect_success "forwarded metadata" resp
          end
    end.

Definition upsert_node (i node_id : Z) (addr : string) : M Cluster unit :=
  propose_metadata i (UpsertNode node_id addr).

Definition maybe_rollover (i : Z) (topic : string) (seg : Z) : M Cluster unit :=
  let! n := node_of i in
  let! c := getS in
  let count := tracked_entry_count (wal_key topic seg) n in
  if count <? max_segment_entries (max_entries_var (view c)) then ret tt
  else
    let nodes := voters_of (joint_config (view c) i) in
    propose_metadata i (RolloverTopic topic (next_leader i nodes) count).

(** [internal.rs]: a failed rollover is only logged. *)
Definition forward_append (i : Z) (key : string) (data : list Z) : M Cluster InternalResp :=
  on_node i (update_leases i);;
  let! r := catch (on_node i (append_with_retry i key data)) in
  match r with
  | inl _ =>
      on_node i (record_append key 1);;
      (match parse_wal_key key with
       | Some (topic, seg) => ignore (maybe_rollover i topic seg)
       | None => ret tt
       end);;
      ret RespOk
  | inr e => ret (RespError e)
  end.

(** The task that promotes the learner later only talks to consensus. *)
Definition handle_join_cluster (i node_id : Z) (addr : string) : M Cluster InternalResp :=
  let! c := getS in
  match resolve (view c) addr with
  | None => ret (RespError ("Could not resolve join addr " +:+ addr))
  | Some _ =>
      match add_learner_error (view c) node_id with
      | Some e => ret (RespError ("Failed to add learner: " +:+ e))
      | None => ignore (upsert_node i node_id addr);; ret RespOk
      end
  end.

Definition test_control (i : Z) (cmd : TestControl) : M Cluster InternalResp :=
  match cmd with
  | ForceForwardReadError flag =>
      on_node i (modify (λ n, set_flags flag (test_fail_monitor n) (test_fail_dir_size n) n));;
      ret RespOk
  | RevokeLeases topic =>
      on_node i (in_bucket (bucket_update_leases ∅));;
      on_node i (modify (λ n, set_offsets (delete (wal_key topic 1) (offsets n)) n));;
      ret RespOk
  | SyncLeases => on_node i (update_leases i);; ret RespOk
  | TriggerJoin node_id addr => handle_join_cluster i node_id addr
  | ForceMonitorError =>
      on_node i (modify (λ n, set_flags (test_fail_forward_read n) true (test_fail_dir_size n) n));;
      ret RespOk
  | ForceDirSizeError =>
      on_node i (modify (λ n, set_flags (test_fail_forward_read n) (test_fail_monitor n) true n));;
      ret RespOk
  end.

Definition handle_rpc_with (i : Z) (op : InternalOp) : M Cluster InternalResp :=
  match op with
  | ForwardAppend key data => forward_append i key data
  | ForwardRead key _ => on_node i (forward_read key)
  | ForwardMetadata cmd =>
      let! r := catch (propose_metadata i cmd) in
      match r with inl _ => ret RespOk | inr e => ret (RespError e) end
  | JoinCluster node_id addr => handle_join_cluster i node_id addr
  | OpTestControl cmd => test_control i cmd
  end.
End calls.

(** A handler may call another node's handler (a proposal is forwarded to the leader), so the
    number of nested calls is bounded by [hops]. *)
Fixpoint handle_rpc (hops : nat) (i : Z) (op : InternalOp) : M Cluster InternalResp :=
  match hops with
  | O => hang
  | S hops => handle_rpc_with (handle_rpc hops) i op
  end.

(** ** Operations for clients *)

(** Requests go out to handlers that may make [hops] nested calls. *)
Variable hops : nat.
#[local] Abbreviation call := (handle_rpc hops).

(** The node with the smallest id first. *)
Definition sorted_nodes (st : ClusterState) : list Z := merge_sort Z.le (fst <$> all_node_addrs st).

Definition initial_leader_for (i : Z) (hash : string → Z) (topic : string) (st : ClusterState) : Z :=
  let all_nodes := sorted_nodes st in
  match all_nodes with
  | [] => i
  | _ => default i (all_nodes !! Z.to_nat (hash topic mod len all_nodes))
  end.

Definition ensure_topic (i : Z) (topic : string) : M Cluster unit :=
  let! n := node_of i in
  match get_topic_state topic (metadata n) with
  | Some _ => ret tt
  | None =>
      let! c := getS in
      let initial_leader := initial_leader_for i (topic_hash (view c)) topic (metadata n) in
      propose_metadata call i (CreateTopic topic initial_leader);;
      on_node i (update_leases i)
  end.

Definition forward_append_remote (i leader_node : Z) (key : string) (data : list Z) :
    M Cluster unit :=
  let! n := node_of i in
  match get_node_addr leader_node (metadata n) with
  | None => bail ("unknown addr for node " +:+ pretty (Z.to_N leader_node))
  | Some addr =>
      let! resp := rpc_request call addr (ForwardAppend key data) in
      expect_success "forward append" resp
  end.

Definition append_for_topic (i : Z) (topic : string) (data : list Z) : M Cluster unit :=
  let! n := node_of i in
  match get_topic_state topic (metadata n) with
  | None => bail ("unknown topic " +:+ topic)
  | Some topic_state =>
      let key := wal_key topic (current_segment topic_state) in
      if leader_node topic_state =? i then
        let! r := forward_append call i key data in
        match r with
        | RespOk => ret tt
        | RespError e => bail e
        | ReadResult _ _ => bail "unexpected append response"
        end
      else forward_append_remote i (leader_node topic_state) key data
  end.

Definition forward_read_remote (i leader_node : Z) (key : string) : M Cluster (list (list Z)) :=
  let! n := node_of i in
  match get_node_addr leader_node (metadata n) with
  | None => bail ("unknown addr for node " +:+ pretty (Z.to_N leader_node))
  | Some addr =>
      let! resp := rpc_request call addr (ForwardRead key 1) in
      match resp with
      | CustomResponse _ data =>
          match deserialize data with
          | None => bail "decode read"
          | Some (ReadResult data _) => ret data
          | Some (RespError e) => bail e
          | Some RespOk => bail "unexpected read response"
          end
      | PayloadError m => bail ("unexpected response: " +:+ m)
      end
  end.

(** The cursor is a mutable argument: it keeps its progress when an error is returned. *)
Definition in_cluster {A} (m : M Cluster A) : M (Cluster * ReadCursor) A :=
  zoom fst (λ c s, (c, snd s)) m.
Definition get_cursor : M (Cluster * ReadCursor) ReadCursor := λ s, (Ok (snd s), s).
Definition set_cursor (cur : ReadCursor) : M (Cluster * ReadCursor) unit :=
  modify (λ s, (fst s, cur)).
Definition next_segment (cur : ReadCursor) : ReadCursor := MkCursor (wrap64 (segment cur + 1)) 0.

(** The entry at the head of a key, from this node or from the node that leads the segment. *)
Definition read_at (i leader : Z) (key : string) : M (Cluster * ReadCursor) (list (list Z)) :=
  if leader =? i then
    let! r := in_cluster (on_node i (forward_read key)) in
    match r with
    | ReadResult data _ => ret data
    | RespError e => bail e
    | RespOk => bail "unexpected read response"
    end
  else in_cluster (forward_read_remote i leader key).

(** One turn of the loop; [None] means [continue]. A sealed segment that has nothing left is
    passed whether or not the cursor has seen all of its entries. *)
Definition read_turn (i : Z) (topic : string) : M (Cluster * ReadCursor) (option (option (list Z))) :=
  let! n := in_cluster (node_of i) in
  match get_topic_state topic (metadata n) with
  | None => bail ("unknown topic " +:+ topic)
  | Some topic_state =>
      let! cur := get_cursor in
      set_cursor (if segment cur =? 0 then MkCursor 1 (delivered_in_segment cur) else cur);;
      let! cur := get_cursor in
      let current := current_segment topic_state in
      let count := default 0 (sealed_count topic (segment cur) (metadata n)) in
      if (segment cur <? current) && (delivered_in_segment cur >=? count) then
        set_cursor (next_segment cur);; ret None
      else
        let leader :=
          if segment cur =? current then leader_node topic_state
          else default (leader_node topic_state) (segment_leader topic (segment cur) (metadata n)) in
        let key := wal_key topic (segment cur) in
        let! data_vec := read_at i leader key in
        match data_vec with
        | entry :: _ =>
            set_cursor (MkCursor (segment cur) (wrap64 (delivered_in_segment cur + 1)));;
            ret (Some (Some entry))
        | [] =>
            if segment cur <? current then set_cursor (next_segment cur);; ret None
            else ret (Some None)
        end
  end.

Fixpoint read_turns (fuel : nat) (i : Z) (topic : string) :
    M (Cluster * ReadCursor) (option (list Z)) :=
  match fuel with
  | O => hang
  | S fuel =>
      let! r := read_turn i topic in
      match r with Some v => ret v | None => read_turns fuel i topic end
  end.

(** Every turn but the last moves to the next segment. *)
Definition read_fuel (i : Z) (topic : string) (cur : ReadCursor) (c : Cluster) : nat :=
  match members c !! i with
  | Some n =>
      match get_topic_state topic (metadata n) with
      | Some ts => Z.to_nat (current_segment ts - segment cur) + 2
      | None => 1
      end
  | None => 1
  end.

Definition read_one_for_topic (i : Z) (topic : string) : M (Cluster * ReadCursor) (option (list Z)) :=
  λ s, read_turns (read_fuel i topic (snd s) (fst s)) i topic s.

Definition read_one_for_topic_shared (i : Z) (topic : string) : M Cluster (option (list Z)) := λ c,
  match members c !! i with
  | None => (Panic, c)
  | Some n =>
      let cursor := default default_cursor (read_cursors n !! topic) in
      let '(o, (c', cursor')) := read_one_for_topic i topic (c, cursor) in
      (o, (on_node i (modify (λ n, set_cursors (<[topic := cursor']> (read_cursors n)) n)) c').2)
  end.

(** [topic_snapshot], before it is printed. *)
Definition topic_snapshot (i : Z) (topic : string) : M Cluster TopicState :=
  let! n := node_of i in
  match get_topic_state topic (metadata n) with
  | None => bail ("unknown topic " +:+ topic)
  | Some state => ret state
  end.

(** ** The monitor *)

Fixpoint check_owned (i : Z) (limit : Z) (owned : list (string * Z)) : M Cluster unit :=
  match owned with
  | [] => ret tt
  | (topic, seg) :: owned =>
      let! n := node_of i in
      let entries := tracked_entry_count (wal_key topic seg) n in
      if entries <? limit then check_owned i limit owned
      else
        let! c := getS in
        let nodes := voters_of (joint_config (view c) i) in
        propose_metadata call i (RolloverTopic topic (next_leader i nodes) entries);;
        check_owned i limit owned
  end.

Definition check_rollovers (i : Z) (limit : Z) : M Cluster unit :=
  let! n := node_of i in
  if test_fail_dir_size n then ret tt
  else check_owned i limit (owned_topics i (metadata n)).

Definition monitor_tick (i : Z) (limit : Z) : M Cluster unit :=
  let! n := node_of i in
  if test_fail_monitor n then bail "monitor in forced error mode" else check_rollovers i limit.
End controller.
Arguments Node : clear implicits.
Arguments Cluster : clear implicits.
