(* ===== verification/ClusterInv.v ===== *)
(** The cluster keeps one queue per topic.

    The specification of the distributed layer: a topic, once registered, is a first-in
    first-out queue, whatever node a client talks to and however the topic is split into
    segments with different leaders. This file has the invariant that relates the nodes' engines,
    counters and cursors to the queues, and what the operations do to it. *)

From S2P Require Import Prelude Metadata WalKey Bucket Controller.

#[local] Open Scope Z_scope.

(** The nodes that make up the cluster. *)
Class NodeIds := node_ids : gset Z.

Section inv.
Context {Eng : Type} `{QueueEngine Eng}.
Context `{BincodeLaws MetadataCmd, Bincode ClusterState, BincodeLaws InternalOp, BincodeLaws InternalResp, NodeIds}.

Implicit Types (D : gmap Z (Node Eng)) (c : Cluster Eng) (n : Node Eng).

(** The data of a node, without its metadata replica. *)
Definition strip n : Node Eng := set_metadata default_cluster 0 n.

Definition cursor_of (t : string) n : ReadCursor := default default_cursor (read_cursors n !! t).

(** ** One topic *)

(** Leader and number of entries of every segment, the current one included. *)
Definition all_segs (D : gmap Z (Node Eng)) (t : string) (ts : topic_spec) : list (Z * Z) :=
  let '(segs, cur) := ts in
  segs ++ [(cur, default 0 (tracked_entry_count (wal_key t (len segs + 1)) <$> D !! cur))].

(** The entries of segment [k] (from 0) that are not read yet. *)
Definition seg_queue (cont : Z → contents) (t : string) (k : nat) (s : Z * Z) : list (list Z) :=
  cont s.1 (wal_key t (Z.of_nat k + 1)).

Definition topic_queue (cont : Z → contents) (t : string) (all : list (Z * Z)) : list (list Z) :=
  concat (imap (seg_queue cont t) all).

(** A cursor stands at segment [k]: nothing is left before it, and it has delivered no more
    than what is gone from the segment. *)
Definition cursor_at (cont : Z → contents) (t : string) (all : list (Z * Z)) (cu : ReadCursor)
    (k : nat) : Prop :=
  (segment cu = Z.of_nat k + 1 ∨ segment cu = 0 ∧ k = 0%nat) ∧ 0 ≤ delivered_in_segment cu ∧
  (∀ k' s, (k' < k)%nat → all !! k' = Some s → seg_queue cont t k' s = []) ∧
  ∃ s, all !! k = Some s ∧ delivered_in_segment cu + len (seg_queue cont t k s) ≤ s.2.

(** Nothing is stored for the segments of [t] from number [k0] on. *)
Definition unused D (cont : Z → contents) (t : string) (k0 : Z) : Prop :=
  ∀ k i n, k0 ≤ k ≤ U64_MAX → D !! i = Some n →
    cont i (wal_key t k) = [] ∧ tracked_entry_count (wal_key t k) n = 0.

Record topic_inv (b : Z) D (cont : Z → contents) (t : string) (ts : topic_spec)
    (q : list (list Z)) : Prop := {
  ti_members k s : all_segs D t ts !! k = Some s → is_Some (D !! s.1);
  ti_queue : q = topic_queue cont t (all_segs D t ts);
  ti_total k s : all_segs D t ts !! k = Some s → len (seg_queue cont t k s) ≤ s.2 ≤ U64_MAX;
  ti_room : len ts.1 + b + 2 ≤ U64_MAX ∧
            ∀ s, last (all_segs D t ts) = Some s → s.2 + b ≤ U64_MAX;
  ti_cursor i n : D !! i = Some n → ∃ k, cursor_at cont t (all_segs D t ts) (cursor_of t n) k;
  ti_unused : unused D cont t (len ts.1 + 2);
}.

Definition absent_inv D (cont : Z → contents) (t : string) : Prop :=
  unused D cont t 1 ∧ ∀ i n, D !! i = Some n → cursor_of t n = default_cursor.

(** ** All topics *)

(** [b] more appends fit everywhere. *)
Record data_inv (b : Z) D (cont : Z → contents) (μ : gmap string topic_spec)
    (σ : gmap string (list (list Z))) : Prop := {
  di_holds i n : D !! i = Some n → ∃ m, b ≤ m ∧ holds m (engine (bucket n)) (cont i);
  di_flag i n : D !! i = Some n → test_fail_forward_read n = false;
  di_dom t : is_Some (μ !! t) ↔ is_Some (σ !! t);
  di_topic t ts q : μ !! t = Some ts → σ !! t = Some q → topic_inv b D cont t ts q;
  di_absent t : μ !! t = None → absent_inv D cont t;
}.

(** ** Replicas *)

(** A node whose replica is the log up to some point: with the rest it reaches [st]. *)
Definition lagged (log : list (list Z)) (st : ClusterState) n : Prop :=
  (applied n ≤ length log)%nat ∧ (apply_log (drop (applied n) log) (metadata n)).2 = st.

Definition synced c : Prop := ∀ i n, members c !! i = Some n → applied n = length (raft_log c).

(** Consensus is available and the addresses in the metadata lead to the nodes. *)
Record healthy (ld : Z) c (st : ClusterState) : Prop := {
  he_ids i : is_Some (members c !! i) ↔ i ∈ node_ids;
  he_leader : is_Some (members c !! ld);
  he_is_leader i : is_Some (members c !! i) → raft_is_leader (view c) i = bool_decide (i = ld);
  he_seen i : raft_current_leader (view c) i 0 = Some ld;
  he_propose : propose_error (view c) = None;
  he_reply a : reply_lost (view c) a = false;
  he_addr j : is_Some (members c !! j) →
    ∃ a, get_node_addr j st = Some a ∧ resolve (view c) a = Some j;
  he_voters i j : j ∈ voters_of (joint_config (view c) i) → is_Some (members c !! j);
  he_nodes j : is_Some (nodes st !! j) → is_Some (members c !! j);
}.

Definition cluster_inv (b ld : Z) c (σ : gmap string (list (list Z))) : Prop :=
  ∃ st μ cont, healthy ld c st ∧ (∀ i n, members c !! i = Some n → lagged (raft_log c) st n) ∧
    topics st = concrete <$> μ ∧ data_inv b (strip <$> members c) cont μ σ.

(** ** Keys *)

Lemma wal_key_inj t k t' k' : is_u64 k → is_u64 k' → wal_key t k = wal_key t' k' → t = t' ∧ k = k'.
Proof. intros Hk Hk' E%(f_equal parse_wal_key). rewrite !parse_wal_key_eq // in E. by injection E. Qed.

(** ** Changes that leave a topic alone *)

Definition same_for (t : string) D D' : Prop := ∀ i,
  match D !! i, D' !! i with
  | Some n, Some n' =>
      (∀ k, is_u64 k → tracked_entry_count (wal_key t k) n' = tracked_entry_count (wal_key t k) n) ∧
      cursor_of t n' = cursor_of t n
  | None, None => True
  | _, _ => False
  end.

Definition same_cont (t : string) (cont cont' : Z → contents) : Prop :=
  ∀ i k, is_u64 k → cont' i (wal_key t k) = cont i (wal_key t k).

Lemma same_for_lookup t D D' i n' :
  same_for t D D' → D' !! i = Some n' → ∃ n, D !! i = Some n ∧
    (∀ k, is_u64 k → tracked_entry_count (wal_key t k) n' = tracked_entry_count (wal_key t k) n) ∧
    cursor_of t n' = cursor_of t n.
Proof. intros Hs E. specialize (Hs i). rewrite E in Hs. destruct (D !! i); [|done]. by eexists. Qed.

Lemma same_for_some t D D' i : same_for t D D' → is_Some (D !! i) → is_Some (D' !! i).
Proof. intros Hs [n E]. specialize (Hs i). rewrite E in Hs. by destruct (D' !! i). Qed.

Lemma all_segs_same t D D' ts :
  same_for t D D' → len ts.1 + 1 ≤ U64_MAX → all_segs D' t ts = all_segs D t ts.
Proof.
  intros Hs Hl. destruct ts as [segs cur]. cbn in *. pose proof (len_nonneg segs). do 3 f_equal.
  specialize (Hs cur). destruct (D !! cur), (D' !! cur); cbn; try done. apply Hs. split; lia.
Qed.

Lemma length_all_segs D t ts : length (all_segs D t ts) = S (length ts.1).
Proof. destruct ts as [segs cur]. cbn. rewrite length_app /=. lia. Qed.

Lemma seg_queue_same t cont cont' k s :
  same_cont t cont cont' → Z.of_nat k + 1 ≤ U64_MAX → seg_queue cont' t k s = seg_queue cont t k s.
Proof. intros Hs Hk. apply Hs. split; lia. Qed.

Lemma topic_inv_same b D D' cont cont' t ts q :
  same_for t D D' → same_cont t cont cont' → topic_inv b D cont t ts q → 0 ≤ b →
  topic_inv b D' cont' t ts q.
Proof.
  intros Hs Hc [Hm Hq Ht [Hr1 Hr2] Hcu Hu] Hb. pose proof (len_nonneg ts.1).
  assert (all_segs D' t ts = all_segs D t ts) as Ea by (apply all_segs_same; [done|lia]).
  assert (∀ k s, all_segs D t ts !! k = Some s → seg_queue cont' t k s = seg_queue cont t k s) as Es.
  { intros k s E%lookup_lt_Some. rewrite length_all_segs in E. apply seg_queue_same; [done|].
    rewrite /len in Hr1. lia. }
  split; rewrite ?Ea; [..|done| |].
  - intros k s E. eapply same_for_some; [done|]. by eapply Hm.
  - rewrite Hq /topic_queue. f_equal. apply imap_ext. intros k s E. symmetry. by apply Es.
  - intros k s E. rewrite Es //. by apply Ht.
  - intros i n' E. destruct (same_for_lookup t D D' i n' Hs E) as (n & En & _ & ->).
    destruct (Hcu i n En) as (k & Hc1 & Hc2 & Hc3 & s & E4 & Hc4). exists k.
    split_and!; [done|done| |exists s; split; [done|by rewrite Es]].
    intros k' s' Hk E'. rewrite Es //. by eapply Hc3.
  - intros k i n' Hk E. destruct (same_for_lookup t D D' i n' Hs E) as (n & En & Ho & _).
    rewrite Hc; [split; lia|]. rewrite Ho; [split; lia|]. by eapply Hu.
Qed.

Lemma absent_inv_same D D' cont cont' t :
  same_for t D D' → same_cont t cont cont' → absent_inv D cont t → absent_inv D' cont' t.
Proof.
  intros Hs Hc [Hu Hcu]. split.
  - intros k i n' Hk E. destruct (same_for_lookup t D D' i n' Hs E) as (n & En & Ho & _).
    rewrite Hc; [split; lia|]. rewrite Ho; [split; lia|]. by eapply Hu.
  - intros i n' E. destruct (same_for_lookup t D D' i n' Hs E) as (n & En & _ & ->). by eapply Hcu.
Qed.

(** ** Contents of one key of one node *)

Definition cput (j : Z) (key : string) (q : list (list Z)) (cont : Z → contents) : Z → contents :=
  λ i, if decide (i = j) then put key q (cont j) else cont i.

Lemma cput_ne i j key key' q cont : i ≠ j ∨ key' ≠ key → cput j key q cont i key' = cont i key'.
Proof. rewrite /cput. intros Hne. case_decide; [subst|done]. rewrite put_ne //. naive_solver. Qed.
Lemma cput_eq j key q cont : cput j key q cont j key = q.
Proof. rewrite /cput decide_True //. apply put_eq. Qed.

Lemma same_cont_cput t t' k j q cont :
  t ≠ t' → is_u64 k → same_cont t' cont (cput j (wal_key t k) q cont).
Proof.
  intros Hne Hk i k' Hk'. apply cput_ne. right. intros [-> _]%wal_key_inj; done.
Qed.

(** ** Reading from the first segment that is not empty *)

Lemma concat_nils {A} (l : list (list A)) : Forall (λ x, x = []) l → concat l = [].
Proof. induction 1 as [|x l -> _ IH]; [done|]. by rewrite /= IH. Qed.

Lemma topic_queue_split cont t all k s :
  all !! k = Some s → (∀ k' s', (k' < k)%nat → all !! k' = Some s' → seg_queue cont t k' s' = []) →
  topic_queue cont t all =
    seg_queue cont t k s ++ concat (imap (λ j, seg_queue cont t (S k + j)) (drop (S k) all)).
Proof.
  intros Hk Hz. rewrite /topic_queue -{1}(take_drop_middle all k s Hk) imap_app concat_app.
  assert (length (take k all) = k) as El.
  { rewrite length_take. apply lookup_lt_Some in Hk. lia. }
  assert (concat (imap (seg_queue cont t) (take k all)) = []) as ->.
  { apply concat_nils, Forall_forall. intros l (j & s' & -> & Hj)%elem_of_lookup_imap_1.
    apply lookup_take_Some in Hj as [Hj ?]. by eapply Hz. }
  rewrite imap_cons El Nat.add_0_r /=. do 2 f_equal. apply imap_ext. intros j s' _. cbn.
  by rewrite Nat.add_succ_r.
Qed.

(** The segments of a topic after one of them lost its first entry. *)
Lemma seg_queue_cput cont t k s rest k' s' :
  Z.of_nat k + 1 ≤ U64_MAX → Z.of_nat k' + 1 ≤ U64_MAX → (k' = k → s' = s) →
  seg_queue (cput s.1 (wal_key t (Z.of_nat k + 1)) rest cont) t k' s' =
    if decide (k' = k) then rest else seg_queue cont t k' s'.
Proof.
  intros Hk Hk' Hs. rewrite /seg_queue. case_decide as Ek.
  - rewrite (Hs Ek) Ek. apply cput_eq.
  - apply cput_ne. right. intros [_ ?]%wal_key_inj; [lia|split; lia..].
Qed.

Lemma cursor_at_pop cont t all cu k0 k s d rest :
  len all ≤ U64_MAX → all !! k = Some s → seg_queue cont t k s = d :: rest →
  cursor_at cont t all cu k0 →
  cursor_at (cput s.1 (wal_key t (Z.of_nat k + 1)) rest cont) t all cu k0.
Proof.
  intros Hl Hk Hq (Hs & Hd & Hz & s0 & Hk0 & Hle).
  assert (∀ k' s', all !! k' = Some s' → Z.of_nat k' + 1 ≤ U64_MAX) as Hb.
  { intros k' s' ?%lookup_lt_Some. rewrite /len in Hl. lia. }
  split_and!; [done|done|..].
  - intros k' s' Hlt E'. rewrite seg_queue_cput; [by eapply Hb..| |].
    { intros ->. congruence. }
    case_decide as Ek; [subst|by eapply Hz]. exfalso. by rewrite (Hz k s Hlt Hk) in Hq.
  - exists s0. split; [done|]. rewrite seg_queue_cput; [by eapply Hb..| |].
    { intros ->. congruence. }
    case_decide as Ek; [|done]. subst k0. assert (s0 = s) as -> by congruence.
    rewrite Hq len_cons in Hle. lia.
Qed.

Lemma topic_inv_pop b D D' cont t ts q k s d rest :
  same_for t D D' → topic_inv b D cont t ts q → 0 ≤ b →
  all_segs D t ts !! k = Some s →
  (∀ k' s', (k' < k)%nat → all_segs D t ts !! k' = Some s' → seg_queue cont t k' s' = []) →
  seg_queue cont t k s = d :: rest →
  head q = Some d ∧
  topic_inv b D' (cput s.1 (wal_key t (Z.of_nat k + 1)) rest cont) t ts (tail q).
Proof.
  intros Hs Ht Hb Hk Hz Hq. set cont' := cput _ _ _ _. set all := all_segs D t ts in Hk Hz |- *.
  pose proof (ti_room _ _ _ _ _ _ Ht) as [Hr1 Hr2]. pose proof (len_nonneg ts.1).
  assert (all_segs D' t ts = all) as Ea by (apply all_segs_same; [done|lia]).
  assert (len all ≤ U64_MAX) as Hl. { rewrite /len length_all_segs. rewrite /len in Hr1. lia. }
  assert (∀ k' s', all !! k' = Some s' → Z.of_nat k' + 1 ≤ U64_MAX) as Hbd.
  { intros k' s' ?%lookup_lt_Some. rewrite /len in Hl. lia. }
  assert (∀ k' s', all !! k' = Some s' → seg_queue cont' t k' s' =
    if decide (k' = k) then rest else seg_queue cont t k' s') as Es.
  { intros k' s' E'. apply seg_queue_cput; [by eapply Hbd..|]. intros ->. congruence. }
  assert (topic_queue cont' t all = tail q ∧ head q = Some d) as [Etq Hh].
  { rewrite (ti_queue _ _ _ _ _ _ Ht) -/all (topic_queue_split cont t all k s) // Hq.
    split; [|done]. rewrite (topic_queue_split cont' t all k s) //.
    - intros k' s' Hlt E'. rewrite Es //. case_decide; [lia|]. by eapply Hz.
    - rewrite Es // decide_True //. cbn. f_equal. f_equal. apply imap_ext. intros j s' Hj.
      rewrite lookup_drop in Hj. cbn. rewrite (Es (S (k + j)) s' Hj). by case_decide; [lia|]. }
  split; [done|]. split; rewrite ?Ea.
  - intros k' s' E'. eapply same_for_some; [done|]. by eapply (ti_members _ _ _ _ _ _ Ht).
  - by rewrite Etq.
  - intros k' s' E'. pose proof (ti_total _ _ _ _ _ _ Ht k' s' E') as Htot. rewrite Es //.
    case_decide as Ek; [|done]. subst k'. assert (s' = s) as -> by congruence.
    rewrite Hq len_cons in Htot. lia.
  - done.
  - intros i n' E'. destruct (same_for_lookup t D D' i n' Hs E') as (n & En & _ & ->).
    destruct (ti_cursor _ _ _ _ _ _ Ht i n En) as [k0 Hc]. exists k0. by eapply cursor_at_pop.
  - intros k' i n' Hk' E'. destruct (same_for_lookup t D D' i n' Hs E') as (n & En & Ho & _).
    destruct (ti_unused _ _ _ _ _ _ Ht k' i n Hk' En) as [Hu1 Hu2].
    rewrite Ho; [split; lia|]. split; [|done]. rewrite /cont' cput_ne //. right.
    intros [_ ?]%wal_key_inj; [|split; lia|split; [lia|by eapply Hbd]].
    apply lookup_lt_Some in Hk. rewrite length_all_segs in Hk. rewrite /len in Hk'. lia.
Qed.

Lemma same_for_insert t D j n n' :
  D !! j = Some n →
  (∀ k, is_u64 k → tracked_entry_count (wal_key t k) n' = tracked_entry_count (wal_key t k) n) →
  cursor_of t n' = cursor_of t n → same_for t D (<[j := n']> D).
Proof.
  intros Ej Ho Hc i. destruct (decide (i = j)) as [->|Hne].
  - by rewrite Ej lookup_insert_eq.
  - rewrite lookup_insert_ne //. by destruct (D !! i).
Qed.

(** ** Appending to the current segment *)

(** Appending keeps every cursor where it is. *)
Lemma cursor_at_append cont cont' t all tot cur cu k d :
  cursor_at cont t (all ++ [(cur, tot)]) cu k →
  (∀ k' s, all !! k' = Some s → seg_queue cont' t k' s = seg_queue cont t k' s) →
  seg_queue cont' t (length all) (cur, tot + 1) = seg_queue cont t (length all) (cur, tot) ++ [d] →
  cursor_at cont' t (all ++ [(cur, tot + 1)]) cu k.
Proof.
  intros (Hs & Hd & Hz & s0 & Hk0 & Hle) Hsame Hlast.
  pose proof (lookup_lt_Some _ _ _ Hk0) as Hlt. rewrite length_app /= in Hlt.
  split_and!; [done|done|..].
  - intros k' s' Hk' E'. rewrite lookup_app_l in E'; [lia|]. rewrite Hsame //.
    eapply Hz; [done|]. by rewrite lookup_app_l; [lia|].
  - destruct (decide (k = length all)) as [->|Hne].
    + rewrite lookup_app_r // Nat.sub_diag in Hk0. injection Hk0 as <-. exists (cur, tot + 1).
      rewrite lookup_app_r // Nat.sub_diag Hlast len_app /= len_cons len_nil. cbn in Hle. split; [done|lia].
    + rewrite lookup_app_l in Hk0; [lia|]. exists s0. rewrite lookup_app_l; [lia|]. by rewrite Hsame.
Qed.

Lemma topic_inv_append b D cont t segs cur q n n' d :
  topic_inv (b + 1) D cont t (segs, cur) q → 0 ≤ b → D !! cur = Some n →
  let key := wal_key t (len segs + 1) in
  (∀ k, is_u64 k → k ≠ len segs + 1 →
     tracked_entry_count (wal_key t k) n' = tracked_entry_count (wal_key t k) n) →
  tracked_entry_count key n' = tracked_entry_count key n + 1 → cursor_of t n' = cursor_of t n →
  topic_inv b (<[cur := n']> D) (cput cur key (cont cur key ++ [d]) cont) t (segs, cur) (q ++ [d]).
Proof.
  intros Ht Hb Ej key Ho Hkey Hc. set D' := <[cur := n']> D. set cont' := cput _ _ _ _.
  destruct Ht as [Hm Hq Htot [Hr1 Hr2] Hcu Hu]. cbn [fst] in *. pose proof (len_nonneg segs) as Hls.
  set tot := tracked_entry_count key n.
  assert (all_segs D t (segs, cur) = segs ++ [(cur, tot)]) as Ea by by rewrite /all_segs Ej.
  assert (all_segs D' t (segs, cur) = segs ++ [(cur, tot + 1)]) as Ea'.
  { rewrite /all_segs /D' lookup_insert_eq /= -/key. by rewrite Hkey. }
  assert (∀ k s, segs !! k = Some s → seg_queue cont' t k s = seg_queue cont t k s) as Hsame.
  { intros k s Hk. apply cput_ne. right. apply lookup_lt_Some in Hk. rewrite /key.
    intros [_ ?]%wal_key_inj; rewrite ?/is_u64; unfold len in *; lia. }
  assert (seg_queue cont' t (length segs) (cur, tot + 1) =
          seg_queue cont t (length segs) (cur, tot) ++ [d]) as Hlast by apply cput_eq.
  rewrite Ea in Hm Hq Htot Hr2 Hcu. specialize (Hr2 (cur, tot) (last_snoc _ _)). cbn in Hr2.
  split; rewrite ?Ea'; cbn [fst].
  - intros k s Hk. rewrite /D'. destruct (decide (s.1 = cur)) as [->|Hne]; [by rewrite lookup_insert_eq|].
    rewrite lookup_insert_ne //. apply (Hm k s). rewrite !lookup_app in Hk *.
    destruct (segs !! k); [done|]. apply list_lookup_singleton_Some in Hk as [_ <-]. by cbn in Hne.
  - rewrite Hq /topic_queue !imap_app !concat_app -app_assoc /= Nat.add_0_r Hlast !app_nil_r.
    f_equal. f_equal. apply imap_ext. intros k s Hk. by rewrite Hsame.
  - intros k s Hk. rewrite lookup_app in Hk. destruct (segs !! k) as [s'|] eqn:Es.
    + injection Hk as <-. rewrite Hsame //. apply Htot. by rewrite lookup_app Es.
    + apply list_lookup_singleton_Some in Hk as [Hk0 <-]. apply lookup_ge_None in Es.
      assert (k = length segs) as -> by lia. rewrite Hlast len_app len_cons len_nil /=.
      specialize (Htot (length segs) (cur, tot)). rewrite lookup_app_r // Nat.sub_diag in Htot.
      specialize (Htot eq_refl). cbn in Htot. lia.
  - split; [lia|]. intros s. rewrite last_snoc. intros [= <-]. cbn. lia.
  - intros i m E'. rewrite /D' in E'. destruct (decide (i = cur)) as [->|Hne].
    + rewrite lookup_insert_eq in E'. injection E' as <-. rewrite Hc.
      destruct (Hcu cur n Ej) as [k Hk]. exists k. by eapply cursor_at_append.
    + rewrite lookup_insert_ne // in E'. destruct (Hcu i m E') as [k Hk]. exists k. by eapply cursor_at_append.
  - intros k i m Hk E'. rewrite /cont' cput_ne.
    { right. rewrite /key. intros [_ ?]%wal_key_inj; [lia|split; lia..]. }
    rewrite /D' in E'. destruct (decide (i = cur)) as [->|Hne].
    + rewrite lookup_insert_eq in E'. injection E' as <-. rewrite Ho; [split; lia|lia|]. by apply Hu.
    + rewrite lookup_insert_ne // in E'. by apply Hu.
Qed.

(** ** New topics and new segments *)

Lemma cursor_at_app cont t all s cu k : cursor_at cont t all cu k → cursor_at cont t (all ++ [s]) cu k.
Proof.
  intros (Hs & Hd & Hz & s0 & Hk0 & Hle). pose proof (lookup_lt_Some _ _ _ Hk0).
  split_and!; [done|done| |exists s0; split; [by apply lookup_app_l_Some|done]].
  intros k' s' Hk' E'. rewrite lookup_app_l in E'; [lia|]. by eapply Hz.
Qed.

Lemma topic_inv_roll b D cont t segs cur q l n :
  topic_inv b D cont t (segs, cur) q → 0 ≤ b → len segs + b + 3 ≤ U64_MAX → b ≤ U64_MAX →
  D !! cur = Some n → is_Some (D !! l) →
  topic_inv b D cont t (segs ++ [(cur, tracked_entry_count (wal_key t (len segs + 1)) n)], l) q.
Proof.
  intros [Hm Hq Htot [Hr1 Hr2] Hcu Hu] Hb Hroom HbU Ecur [nl El]. cbn [fst] in *.
  set tot := tracked_entry_count _ n. pose proof (len_nonneg segs) as Hls.
  assert (all_segs D t (segs, cur) = segs ++ [(cur, tot)]) as Ea by by rewrite /all_segs Ecur.
  destruct (Hu (len segs + 2) l nl) as [Hcl Hol]; [lia|done|].
  assert (all_segs D t (segs ++ [(cur, tot)], l) = (segs ++ [(cur, tot)]) ++ [(l, 0)]) as Ea'.
  { rewrite /all_segs El /= len_app len_cons len_nil.
    by replace (len segs + (1 + 0) + 1) with (len segs + 2) by lia; rewrite Hol. }
  rewrite Ea in Hm Hq Htot Hr2 Hcu. set all := segs ++ [(cur, tot)] in Hm Hq Htot Hr2 Hcu Ea' |- *.
  assert (Z.of_nat (length all) + 1 = len segs + 2) as Hlen.
  { rewrite /all length_app /=. rewrite /len. lia. }
  assert (seg_queue cont t (length all) (l, 0) = []) as Hnew by by rewrite /seg_queue Hlen.
  assert (∀ k s, (all ++ [(l, 0)]) !! k = Some s →
    all !! k = Some s ∨ k = length all ∧ s = (l, 0)) as Hlk.
  { intros k s Hk. rewrite lookup_app in Hk. destruct (all !! k) eqn:Ek; [by left|].
    apply list_lookup_singleton_Some in Hk as [? <-]. apply lookup_ge_None in Ek. right. split; [lia|done]. }
  split; rewrite ?Ea'; cbn [fst].
  - intros k s [Hk|[_ ->]]%Hlk; [by eapply Hm|by eexists].
  - rewrite Hq /topic_queue imap_app concat_app /= Nat.add_0_r Hnew !app_nil_r. done.
  - intros k s [Hk|[-> ->]]%Hlk; [by apply Htot|]. rewrite Hnew len_nil /=. lia.
  - rewrite /all len_app len_cons len_nil. split; [lia|]. intros s. rewrite last_snoc. by intros [= <-].
  - intros i m Ei. destruct (Hcu i m Ei) as [k Hk]. exists k. by apply cursor_at_app.
  - intros k i m Hk Ei. apply Hu; [|done]. rewrite /all len_app len_cons len_nil in Hk. lia.
Qed.

Lemma topic_inv_create b D cont t l :
  absent_inv D cont t → 0 ≤ b → b + 2 ≤ U64_MAX → is_Some (D !! l) → topic_inv b D cont t ([], l) [].
Proof.
  intros [Hu Hcu] Hb HbU [nl El].
  destruct (Hu 1 l nl) as [Hcl Hol]; [lia|done|].
  assert (all_segs D t ([], l) = [(l, 0)]) as Ea by by rewrite /all_segs El /= Hol.
  assert (seg_queue cont t 0 (l, 0) = []) as Hq by done.
  split; rewrite ?Ea; cbn [fst]; rewrite ?len_nil.
  - intros k s [_ <-]%list_lookup_singleton_Some. by eexists.
  - by rewrite /topic_queue /= Hq.
  - intros k s [-> <-]%list_lookup_singleton_Some. rewrite Hq len_nil /=. lia.
  - split; [lia|]. intros s [= <-]. cbn. lia.
  - intros i m Ei. exists 0%nat. rewrite (Hcu i m Ei). split_and!; [by right|done|lia|].
    exists (l, 0). by rewrite Hq.
  - intros k i m Hk Ei. apply (Hu k i m); [lia|done].
Qed.

(** ** The cursor of a node *)

Lemma topic_inv_cursor b D cont t ts q i n n' k :
  topic_inv b D cont t ts q → 0 ≤ b → D !! i = Some n → offsets n' = offsets n →
  cursor_at cont t (all_segs D t ts) (cursor_of t n') k →
  topic_inv b (<[i := n']> D) cont t ts q.
Proof.
  intros [Hm Hq Htot Hr Hcu Hu] Hb Ei Ho Hk.
  assert (∀ key, tracked_entry_count key n' = tracked_entry_count key n) as Ht by
    by intros key; rewrite /tracked_entry_count Ho.
  assert (all_segs (<[i := n']> D) t ts = all_segs D t ts) as Ea.
  { destruct ts as [segs cur]. cbn. do 3 f_equal. destruct (decide (cur = i)) as [->|];
      [by rewrite lookup_insert_eq Ei /= Ht|by rewrite lookup_insert_ne]. }
  split; rewrite ?Ea; [|done|done|done|..].
  - intros k' s Hs. destruct (decide (s.1 = i)) as [->|]; [by rewrite lookup_insert_eq|].
    rewrite lookup_insert_ne //. by eapply Hm.
  - intros j m Ej. destruct (decide (j = i)) as [->|].
    + rewrite lookup_insert_eq in Ej. injection Ej as <-. by exists k.
    + rewrite lookup_insert_ne // in Ej. by eapply Hcu.
  - intros k' j m Hk' Ej. destruct (decide (j = i)) as [->|].
    + rewrite lookup_insert_eq in Ej. injection Ej as <-. rewrite Ht. by apply Hu.
    + rewrite lookup_insert_ne // in Ej. by apply Hu.
Qed.

(** ** One topic changes, the others stay *)

Lemma data_inv_topic b D D' cont cont' μ σ t ts q :
  data_inv b D cont μ σ → 0 ≤ b →
  (∀ i n, D' !! i = Some n → ∃ m, b ≤ m ∧ holds m (engine (bucket n)) (cont' i)) →
  (∀ i n, D' !! i = Some n → test_fail_forward_read n = false) →
  (∀ t', t' ≠ t → same_for t' D D' ∧ same_cont t' cont cont') →
  topic_inv b D' cont' t ts q → data_inv b D' cont' (<[t := ts]> μ) (<[t := q]> σ).
Proof.
  intros [Hh Hf Hd Ht Ha] Hb Hh' Hf' Hs Hnew. split; [done|done|..].
  - intros t'. destruct (decide (t' = t)) as [->|]; [by rewrite !lookup_insert_eq|by rewrite !lookup_insert_ne].
  - intros t' ts' q'. destruct (decide (t' = t)) as [->|Hne].
    { rewrite !lookup_insert_eq. by intros [= <-] [= <-]. }
    rewrite !lookup_insert_ne //. intros E1 E2. destruct (Hs t' Hne).
    eapply topic_inv_same; [done|done|by apply Ht|done].
  - intros t' E'. assert (t' ≠ t) as Hne by (intros ->; by rewrite lookup_insert_eq in E').
    rewrite lookup_insert_ne // in E'. destruct (Hs t' Hne). eapply absent_inv_same; [done|done|by apply Ha].
Qed.

Lemma data_inv_le b b' D cont μ σ : data_inv b D cont μ σ → b' ≤ b → data_inv b' D cont μ σ.
Proof.
  intros [Hh Hf Hd Ht Ha] Hle. split; [|done|done| |done].
  - intros i n E. destruct (Hh i n E) as (m & ? & ?). exists m. split; [lia|done].
  - intros t ts q E1 E2. destruct (Ht t ts q E1 E2) as [Hm Hq Htot [Hr1 Hr2] Hcu Hu].
    split; [done..| |done|done]. split; [lia|]. intros s Hs. specialize (Hr2 s Hs). lia.
Qed.

(** A node changes in a way no topic sees. *)
Lemma data_inv_node b D cont μ σ i n n' :
  data_inv b D cont μ σ → 0 ≤ b → D !! i = Some n →
  (∃ m, b ≤ m ∧ holds m (engine (bucket n')) (cont i)) →
  test_fail_forward_read n' = test_fail_forward_read n → offsets n' = offsets n →
  (∀ t, cursor_of t n' = cursor_of t n) → data_inv b (<[i := n']> D) cont μ σ.
Proof.
  intros [Hho Hf Hdo Ht Ha] Hb Ei Hh' Hf' Ho Hcu.
  assert (∀ t, same_for t D (<[i := n']> D)) as Hsf.
  { intros t. eapply same_for_insert; [done| |done]. intros k _. by rewrite /tracked_entry_count Ho. }
  split; [..|done| |].
  - intros j m. destruct (decide (j = i)) as [->|]; [|rewrite lookup_insert_ne //; apply Hho].
    rewrite lookup_insert_eq. by intros [= <-].
  - intros j m. destruct (decide (j = i)) as [->|]; [|rewrite lookup_insert_ne //; apply Hf].
    rewrite lookup_insert_eq. intros [= <-]. rewrite Hf'. by apply (Hf i n).
  - intros t ts q E1 E2. eapply topic_inv_same; [apply Hsf|done|by apply Ht|done].
  - intros t E1. eapply absent_inv_same; [apply Hsf|done|by apply Ha].
Qed.
End inv.
