(* ===== verification/ClusterOps.v ===== *)
(** What the operations of the distributed layer do to the invariant of [ClusterInv]: proposals,
    appends with their rollovers, reads across segments, registration of topics. *)

From stdpp Require Import sorting.
From S2P Require Import Prelude Metadata WalKey Bucket Controller ClusterInv.

#[local] Open Scope walrus_scope.
#[local] Open Scope Z_scope.

Section ops.
Context {Eng : Type} `{QueueEngine Eng}.
Context `{BincodeLaws MetadataCmd, Bincode ClusterState, BincodeLaws InternalOp, BincodeLaws InternalResp, NodeIds}.

Implicit Types (c : Cluster Eng) (n : Node Eng).

(** ** Code on one node *)

Lemma set_member_id i n c : members c !! i = Some n → set_member i n c = c.
Proof. intros E. rewrite /set_member insert_id //. by destruct c. Qed.

Lemma on_node_eq {A} i (m : M (Node Eng) A) c n o n' :
  members c !! i = Some n → m n = (o, n') → on_node i m c = (o, set_member i n' c).
Proof. intros E Em. by rewrite /on_node E Em. Qed.

Lemma node_of_eq i c n : members c !! i = Some n → node_of i c = (Ok n, c).
Proof. intros E. rewrite /node_of (on_node_eq i _ c n (Ok n) n) // set_member_id //. Qed.

Lemma members_set_member i n c : members (set_member i n c) !! i = Some n.
Proof. apply lookup_insert_eq. Qed.

(** ** Replicas *)

Lemma lagged_synced log st n : lagged log st n → applied n = length log → metadata n = st.
Proof. intros [_ Hl] E. by rewrite E drop_all in Hl. Qed.

Lemma lagged_catch_up log st n :
  lagged log st n → catch_up_node log (length log) n = set_metadata st (length log) n.
Proof.
  intros [Hle Hl]. rewrite /catch_up_node take_ge; [by rewrite length_drop|]. rewrite Hl length_drop.
  by replace (applied n + (length log - applied n))%nat with (length log) by lia.
Qed.

(** The rest of a cluster that does not concern data. *)
Definition same_meta c c' : Prop :=
  raft_log c' = raft_log c ∧ view c' = view c ∧
  ∀ i, (λ n, (metadata n, applied n)) <$> members c' !! i = (λ n, (metadata n, applied n)) <$> members c !! i.

#[local] Instance same_meta_preorder : PreOrder same_meta.
Proof.
  split; [by intros c|]. intros c1 c2 c3 (E1 & E2 & E3) (E4 & E5 & E6).
  split_and!; [congruence..|]. intros i. by rewrite E6.
Qed.

Lemma same_meta_set i n n' c :
  members c !! i = Some n → metadata n' = metadata n → applied n' = applied n →
  same_meta c (set_member i n' c).
Proof.
  intros E Em Ea. split_and!; [done..|]. intros j. cbn. destruct (decide (j = i)) as [->|].
  - by rewrite lookup_insert_eq E /= Em Ea.
  - by rewrite lookup_insert_ne.
Qed.

Lemma same_meta_lookup c c' i n' :
  same_meta c c' → members c' !! i = Some n' →
  ∃ n, members c !! i = Some n ∧ metadata n' = metadata n ∧ applied n' = applied n.
Proof.
  intros (_ & _ & Hs) E. specialize (Hs i). rewrite E in Hs. destruct (members c !! i) as [n|]; [|done].
  injection Hs as ??. by exists n.
Qed.

Lemma same_meta_some c c' i : same_meta c c' → is_Some (members c' !! i) ↔ is_Some (members c !! i).
Proof. intros (_ & _ & Hs). specialize (Hs i). by destruct (members c !! i), (members c' !! i). Qed.

Lemma healthy_ext ld c c' st st' :
  (∀ i, is_Some (members c' !! i) ↔ is_Some (members c !! i)) → view c' = view c →
  nodes st' = nodes st → healthy ld c st → healthy ld c' st'.
Proof.
  intros Hd Hv Hn [Hids ? ? ? ? ? Ha Hvo Hno]. split; rewrite ?Hv ?Hd; try done.
  - intros i. by rewrite Hd.
  - intros i Hi%Hd. auto.
  - intros j Hj%Hd. rewrite /get_node_addr Hn. by apply Ha.
  - intros i j Hj. apply Hd. by eapply Hvo.
  - intros j Hj. apply Hd, Hno. by rewrite -Hn.
Qed.

Definition all_lagged c st : Prop := ∀ i n, members c !! i = Some n → lagged (raft_log c) st n.

Lemma all_lagged_same c c' st : same_meta c c' → all_lagged c st → all_lagged c' st.
Proof.
  intros Hs Hl i n' E. destruct (same_meta_lookup _ _ _ _ Hs E) as (n & En & Em & Ea).
  rewrite /lagged Em Ea. destruct Hs as (-> & _). by eapply Hl.
Qed.

Lemma synced_same c c' : same_meta c c' → synced c → synced c'.
Proof.
  intros Hs Hl i n' E. destruct (same_meta_lookup _ _ _ _ Hs E) as (n & En & Em & Ea).
  destruct Hs as (-> & _). rewrite Ea. by eapply Hl.
Qed.

(** ** Proposals *)

(** A command was committed; only replicas changed. *)
Definition committed c c' (st' : ClusterState) : Prop :=
  view c' = view c ∧ strip <$> members c' = strip <$> members c ∧ all_lagged c' st'.

Lemma committed_some c c' st' i :
  committed c c' st' → is_Some (members c' !! i) ↔ is_Some (members c !! i).
Proof.
  intros (_ & Hs & _). apply (f_equal (.!! i)) in Hs. rewrite !lookup_fmap in Hs.
  by destruct (members c !! i), (members c' !! i).
Qed.

Lemma apply_cmd_eq cmd st : apply (serialize cmd) st = apply_cmd cmd st.
Proof. by rewrite /apply bincode_roundtrip. Qed.

Lemma raft_propose_ok c st i n cmd r st' :
  propose_error (view c) = None → all_lagged c st → members c !! i = Some n →
  apply_cmd cmd st = (inl r, st') →
  ∃ c', raft_propose i (serialize cmd) c = (Ok tt, c') ∧ committed c c' st'.
Proof.
  intros Hp Hl Ei Ha. rewrite /raft_propose {1}/bind /getS Hp {1}/bind /modify.
  set c1 := MkCl _ _ _. rewrite {1}/bind (node_of_eq i c1 n) //.
  rewrite (lagged_catch_up _ st); [by eapply Hl|]. cbn [metadata set_metadata].
  rewrite apply_cmd_eq Ha {1}/bind /on_node Ei.
  eexists. split; [done|]. split_and!; [done|..].
  - cbn. rewrite fmap_insert. apply map_eq. intros j. destruct (decide (j = i)) as [->|].
    + by rewrite lookup_insert_eq lookup_fmap Ei.
    + by rewrite lookup_insert_ne.
  - intros j m. cbn. destruct (decide (j = i)) as [->|].
    + rewrite lookup_insert_eq. intros [= <-]. split; cbn; [rewrite length_app /=; lia|].
      rewrite drop_ge; [rewrite length_app /=; lia|done].
    + rewrite lookup_insert_ne //. intros Ej. destruct (Hl j m Ej) as [Hle Hlog]. split.
      { rewrite length_app. lia. }
      rewrite drop_app_le // apply_log_app Hlog /=. by rewrite apply_cmd_eq Ha.
Qed.

(** Any node can propose: it is the leader or forwards to it. *)
Lemma propose_metadata_ok hops ld c st i n cmd r st' :
  healthy ld c st → all_lagged c st → synced c → members c !! i = Some n →
  apply_cmd cmd st = (inl r, st') →
  ∃ c', propose_metadata (handle_rpc (S hops)) i cmd c = (Ok tt, c') ∧ committed c c' st'.
Proof.
  intros Hh Hl Hsy Ei Ha. destruct (he_leader _ _ _ Hh) as [nl El].
  assert (∀ h j m, members c !! j = Some m → j = ld →
    ∃ c', propose_metadata (handle_rpc h) j cmd c = (Ok tt, c') ∧ committed c c' st') as Hlead.
  { intros h j m Ej ->. rewrite /propose_metadata {1}/bind /getS (he_is_leader _ _ _ Hh ld); [by eexists|].
    rewrite bool_decide_eq_true_2 //. eapply raft_propose_ok; [apply Hh|done..]. }
  destruct (decide (i = ld)) as [->|Hne]; [by eapply Hlead|].
  rewrite /propose_metadata {1}/bind /getS (he_is_leader _ _ _ Hh i); [by eexists|].
  rewrite bool_decide_eq_false_2 //. change (poll_leader 50 (raft_current_leader (view c) i) 0) with
    (match raft_current_leader (view c) i 0 with Some l => Some l
     | None => poll_leader 49 (raft_current_leader (view c) i) 1 end).
  rewrite (he_seen _ _ _ Hh). destruct (Z.eqb_spec ld i); [congruence|].
  rewrite {1}/bind (node_of_eq i c n) // (lagged_synced (raft_log c) st n); [by eapply Hl|by eapply Hsy|].
  destruct (he_addr _ _ _ Hh ld) as (a & Hga & Hres); [by eexists|]. rewrite Hga.
  destruct (Hlead hops ld nl El eq_refl) as (c' & Ep & Hc). exists c'. split; [|done].
  rewrite {1}/bind /rpc_request {1}/bind /getS Hres El /custom_rpc_handler bincode_roundtrip.
  cbn [handle_rpc handle_rpc_with]. rewrite /bind /catch Ep /ret (he_reply _ _ _ Hh). done.
Qed.

(** ** Appends *)

Lemma owned_lease t segs cur st μ :
  topics st = concrete <$> μ → μ !! t = Some (segs, cur) →
  wal_key t (len segs + 1) ∈ expected_leases cur st.
Proof.
  intros Ht Hm. rewrite /expected_leases elem_of_list_to_set list_elem_of_fmap.
  exists (t, len segs + 1). split; [done|]. rewrite /owned_topics list_elem_of_omap.
  exists (t, concrete (segs, cur)). cbn. rewrite Z.eqb_refl. split; [|done].
  apply elem_of_map_to_list. by rewrite Ht lookup_fmap Hm.
Qed.

(** The bucket's part of an append on the node that leads the segment. *)
Lemma node_append_ok j key d n m cj :
  key ∈ expected_leases j (metadata n) → 0 ≤ m → accepts key d → holds (m + 1) (engine (bucket n)) cj →
  ∃ b1 b2, update_leases j n = (Ok tt, set_bucket b1 n) ∧
    append_with_retry j key d (set_bucket b1 n) = (Ok tt, set_bucket b2 n) ∧
    holds m (engine b2) (put key (cj key ++ [d]) cj).
Proof.
  intros Hk Hm Ha Hh.
  destruct (bucket_update_leases_ok (expected_leases j (metadata n)) (bucket n)) as (b1 & E1 & Hl & He).
  rewrite -He in Hh. destruct (append_by_key_ok m key d b1 cj) as (b2 & E2 & _ & Hh'); [by rewrite Hl|done..|].
  exists b1, b2. split_and!; [by rewrite /update_leases /bind /getS /in_bucket /zoom E1| |done].
  by rewrite /append_with_retry /bind /catch /in_bucket /zoom /= E2.
Qed.

Definition appended (b2 : Storage Eng) (key : string) n : Node Eng :=
  set_offsets (<[key := tracked_entry_count key n + 1]> (offsets n)) (set_bucket b2 n).

Lemma tracked_appended b2 key key' n :
  tracked_entry_count key' (appended b2 key n) =
    if decide (key' = key) then tracked_entry_count key n + 1 else tracked_entry_count key' n.
Proof.
  rewrite /appended {1}/tracked_entry_count /=. case_decide as Ek.
  - by rewrite Ek lookup_insert_eq.
  - by rewrite lookup_insert_ne.
Qed.

Lemma data_inv_append b D cont μ σ t segs j q n b2 d m :
  data_inv (b + 1) D cont μ σ → 0 ≤ b → μ !! t = Some (segs, j) → σ !! t = Some q → D !! j = Some n →
  let key := wal_key t (len segs + 1) in
  b ≤ m → holds m (engine b2) (put key (cont j key ++ [d]) (cont j)) →
  data_inv b (<[j := appended b2 key n]> D) (cput j key (cont j key ++ [d]) cont) μ (<[t := q ++ [d]]> σ).
Proof.
  intros Hd Hb Hm Hs Ej key Hbm Hh.
  pose proof (di_topic _ _ _ _ _ Hd t _ q Hm Hs) as Ht. pose proof (len_nonneg segs).
  pose proof (ti_room _ _ _ _ _ _ Ht) as [Hr _]. cbn in Hr.
  assert (is_u64 (len segs + 1)) as Hu by (split; lia).
  rewrite -(insert_id μ t _ Hm).
  apply (data_inv_topic b D _ cont); [eapply data_inv_le; [exact Hd|lia]|done|..].
  - intros i n' E. destruct (decide (i = j)) as [->|Hne].
    + rewrite lookup_insert_eq in E. injection E as <-. exists m. rewrite /cput decide_True //.
    + rewrite lookup_insert_ne // in E. destruct (di_holds _ _ _ _ _ Hd i n' E) as (m' & ? & ?).
      exists m'. split; [lia|]. by rewrite /cput decide_False.
  - intros i n' E. destruct (decide (i = j)) as [->|Hne].
    + rewrite lookup_insert_eq in E. injection E as <-. apply (di_flag _ _ _ _ _ Hd j n Ej).
    + rewrite lookup_insert_ne // in E. by eapply (di_flag _ _ _ _ _ Hd).
  - intros t' Hne. split; [|by apply same_cont_cput].
    apply (same_for_insert t' D j n); [done| |done]. intros k Hk. rewrite tracked_appended.
    case_decide as E; [|done]. apply wal_key_inj in E as [? _]; done.
  - apply (topic_inv_append b D cont t segs j q n); [done|done|done|..|done].
    + intros k Hk Hne. rewrite tracked_appended. case_decide as E; [|done]. apply wal_key_inj in E as [_ ?]; done.
    + by rewrite tracked_appended decide_True.
Qed.

Lemma strip_insert j n n' c :
  strip n' = n → strip <$> members (set_member j n' c) = <[j := n]> (strip <$> members c).
Proof. intros <-. apply fmap_insert. Qed.

Lemma next_leader_member ld c st i n :
  healthy ld c st → members c !! i = Some n →
  is_Some (members c !! next_leader i (voters_of (joint_config (view c) i))).
Proof.
  intros Hh Ei. rewrite /next_leader. set k := ((_ + 1) `mod` _)%nat.
  destruct (voters_of (joint_config (view c) i) !! k) as [j|] eqn:Ej; [|by eexists].
  eapply (he_voters _ _ _ Hh i). by eapply list_elem_of_lookup_2.
Qed.

(** Rolling over the segment that [j] leads, with the count it has. *)
Lemma maybe_rollover_ok hops ld c st μ cont σ t segs j q n b :
  healthy ld c st → all_lagged c st → synced c → topics st = concrete <$> μ →
  data_inv b (strip <$> members c) cont μ σ → 0 ≤ b → len segs + b + 3 ≤ U64_MAX →
  μ !! t = Some (segs, j) → σ !! t = Some q → members c !! j = Some n →
  ∃ c' , maybe_rollover (handle_rpc (S hops)) j t (len segs + 1) c = (Ok tt, c') ∧ cluster_inv b ld c' σ.
Proof.
  intros Hh Hl Hsy Htop Hd Hb Hroom Hm Hs Ej. pose proof (len_nonneg segs).
  rewrite /maybe_rollover {1}/bind (node_of_eq j c n) // {1}/bind /getS.
  case_match; [exists c; split; [done|]; by exists st, μ, cont|].
  set cnt := tracked_entry_count _ n. set l := next_leader _ _.
  assert (is_Some (members c !! l)) as Hlm by by eapply next_leader_member.
  destruct (propose_metadata_ok hops ld c st j n (RolloverTopic t l cnt) "ROLLED"
    (MkCluster (<[t := concrete (segs ++ [(j, cnt)], l)]> (topics st)) (nodes st)))
    as (c' & Ep & Hc); [done..| |].
  { cbn. rewrite Htop lookup_fmap Hm /= -/(concrete (segs, j)) rollover_concrete; [lia|done]. }
  exists c'. split; [done|]. pose proof (λ i, committed_some _ _ _ i Hc) as Hdom. destruct Hc as (Hv & Hst & Hlag).
  eexists _, (<[t := (segs ++ [(j, cnt)], l)]> μ), cont. split_and!; [|done|..].
  - by apply (healthy_ext ld c c' st).
  - by rewrite /= Htop fmap_insert.
  - rewrite Hst -(insert_id σ t q Hs). apply (data_inv_topic b (strip <$> members c) _ cont); [done|done|..].
    + apply Hd. + apply Hd.
    + intros t' _. split; [|done]. intros i. by destruct (_ !! i).
    + apply (topic_inv_roll b _ cont t segs j q l (strip n)); [by eapply (di_topic _ _ _ _ _ Hd)|done|done|lia|by rewrite lookup_fmap Ej|].
      rewrite lookup_fmap. by destruct Hlm as [? ->].
Qed.

Lemma data_inv_member b c cont μ σ t ts q :
  data_inv b (strip <$> members c) cont μ σ → μ !! t = Some ts → σ !! t = Some q →
  ∃ n, members c !! ts.2 = Some n.
Proof.
  intros Hd Hm Hs. destruct ts as [segs cur].
  destruct (ti_members _ _ _ _ _ _ (di_topic _ _ _ _ _ Hd t _ q Hm Hs) (length segs)
    (cur, default 0 (tracked_entry_count (wal_key t (len segs + 1)) <$> (strip <$> members c) !! cur))) as [n En].
  { by rewrite /all_segs lookup_app_r // Nat.sub_diag. }
  cbn [fst snd] in *. rewrite lookup_fmap in En. destruct (members c !! cur) as [n'|] eqn:E'; [by exists n'|done].
Qed.

(** A counter that leaves room does not wrap. *)
Lemma tracked_small b D cont t segs j q n n0 :
  topic_inv (b + 1) D cont t (segs, j) q → 0 ≤ b → D !! j = Some n0 → n0 = strip n →
  let key := wal_key t (len segs + 1) in
  wrap64 (tracked_entry_count key n + 1) = tracked_entry_count key n + 1.
Proof.
  intros Ht Hb Ej -> key. rewrite /wrap64 Z.mod_small //.
  pose proof (ti_room _ _ _ _ _ _ Ht) as [_ Hr]. pose proof (ti_total _ _ _ _ _ _ Ht (length segs)) as Htot.
  rewrite /all_segs Ej last_snoc lookup_app_r // Nat.sub_diag in Hr Htot.
  specialize (Hr _ eq_refl). specialize (Htot _ eq_refl). cbn in Hr, Htot.
  change (tracked_entry_count _ (strip n)) with (tracked_entry_count key n) in Hr, Htot.
  pose proof (len_nonneg (seg_queue cont t (length segs) (j, tracked_entry_count key n))).
  rewrite /U64_MAX in Hr. lia.
Qed.

Lemma forward_append_ok hops ld c st μ cont σ t segs j q b d :
  healthy ld c st → all_lagged c st → synced c → topics st = concrete <$> μ →
  data_inv (b + 1) (strip <$> members c) cont μ σ → 0 ≤ b →
  μ !! t = Some (segs, j) → σ !! t = Some q → accepts (wal_key t (len segs + 1)) d →
  ∃ c', forward_append (handle_rpc (S hops)) j (wal_key t (len segs + 1)) d c = (Ok RespOk, c') ∧
    cluster_inv b ld c' (<[t := q ++ [d]]> σ).
Proof.
  intros Hh Hl Hsy Htop Hd Hb Hm Hs Ha. pose proof (len_nonneg segs).
  pose proof (ti_room _ _ _ _ _ _ (di_topic _ _ _ _ _ Hd t _ q Hm Hs)) as [Hr1 Hr2]. cbn in Hr1.
  destruct (data_inv_member _ _ _ _ _ _ _ _ Hd Hm Hs) as [n Ej]. cbn in Ej.
  assert ((strip <$> members c) !! j = Some (strip n)) as EDj by by rewrite lookup_fmap Ej.
  destruct (di_holds _ _ _ _ _ Hd j _ EDj) as (m & Hbm & Hhold). replace m with (m - 1 + 1) in Hhold by lia.
  set key := wal_key t (len segs + 1) in Ha |- *.
  destruct (node_append_ok j key d n (m - 1) (cont j)) as (b1 & b2 & E1 & E2 & Hhold2); [|lia|done|done|].
  { rewrite (lagged_synced (raft_log c) st n); [by eapply Hl|by eapply Hsy|by eapply owned_lease]. }
  rewrite /forward_append {1}/bind (on_node_eq j _ c n _ _ Ej E1) {1}/bind {1}/catch.
  rewrite (on_node_eq j _ _ _ _ _ (members_set_member j _ c) E2) {1}/bind.
  assert (wrap64 (tracked_entry_count key n + 1) = tracked_entry_count key n + 1) as Ew.
  { eapply tracked_small; [by eapply (di_topic _ _ _ _ _ Hd)|done|done|done]. }
  rewrite /record_append (on_node_eq j _ _ (set_bucket b2 n) (Ok tt) (appended b2 key n)).
  { apply members_set_member. } 
  { exact (f_equal (λ z, (Ok tt, set_offsets (<[key := z]> (offsets n)) (set_bucket b2 n))) Ew). }
  set c3 := set_member j (appended b2 key n) _.
  assert (c3 = set_member j (appended b2 key n) c) as Ec3 by by rewrite /c3 /set_member /= !insert_insert_eq.
  assert (same_meta c c3) as Hsm by (rewrite Ec3; by eapply same_meta_set).
  rewrite /key parse_wal_key_eq; [split; lia|]. rewrite -/key.
  assert (data_inv b (strip <$> members c3) (cput j key (cont j key ++ [d]) cont) μ (<[t := q ++ [d]]> σ)) as Hd3.
  { rewrite Ec3 (strip_insert j (appended b2 key (strip n))) //.
    apply (data_inv_append b _ cont μ σ t segs j q (strip n) b2 d (m - 1)); try done. lia. }
  destruct (maybe_rollover_ok hops ld c3 st μ (cput j key (cont j key ++ [d]) cont) (<[t := q ++ [d]]> σ) t segs j (q ++ [d]) (appended b2 key n) b) as (c' & Er & Hinv);
    [|by eapply all_lagged_same|by eapply synced_same|done|exact Hd3|done|lia|done|by rewrite lookup_insert_eq| |].
  { eapply healthy_ext; [intros i; by apply same_meta_some|apply Hsm|done|done]. }
  { rewrite Ec3. apply members_set_member. }
  exists c'. split; [|done]. by rewrite /bind /ignore Er.
Qed.

(** An append through any node reaches the leader of the topic. *)
Lemma cluster_append_ok hops ld c st μ cont σ t ts q b d i :
  healthy ld c st → all_lagged c st → synced c → topics st = concrete <$> μ →
  data_inv (b + 1) (strip <$> members c) cont μ σ → 0 ≤ b → is_Some (members c !! i) →
  μ !! t = Some ts → σ !! t = Some q → (∀ k, is_u64 k → accepts (wal_key t k) d) →
  ∃ c', append_for_topic (S (S hops)) i t d c = (Ok tt, c') ∧ cluster_inv b ld c' (<[t := q ++ [d]]> σ).
Proof.
  intros Hh Hl Hsy Htop Hd Hb [n Ei] Hm Hs Ha. destruct ts as [segs cur].
  pose proof (ti_room _ _ _ _ _ _ (di_topic _ _ _ _ _ Hd t _ q Hm Hs)) as [Hr1 _]. cbn in Hr1.
  pose proof (len_nonneg segs).
  assert (metadata n = st) as Em by (eapply lagged_synced; [by eapply Hl|by eapply Hsy]).
  rewrite /append_for_topic {1}/bind (node_of_eq i c n) // Em /get_topic_state Htop lookup_fmap Hm.
  cbn [fmap option_fmap option_map concrete current_segment leader_node].
  destruct (Z.eqb_spec cur i) as [->|Hne].
  - destruct (forward_append_ok (S hops) ld c st μ cont σ t segs i q b d) as (c' & Ef & Hinv); [done..|apply Ha; split; lia|].
    exists c'. split; [|done]. by rewrite /bind Ef.
  - destruct (forward_append_ok hops ld c st μ cont σ t segs cur q b d) as (c' & Ef & Hinv); [done..|apply Ha; split; lia|].
    exists c'. split; [|done]. rewrite /forward_append_remote {1}/bind (node_of_eq i c n) // Em.
    destruct (data_inv_member _ _ _ _ _ _ _ _ Hd Hm Hs) as [nc Ec]. cbn in Ec.
    destruct (he_addr _ _ _ Hh cur) as (a & Hga & Hres); [by eexists|]. rewrite Hga.
    rewrite {1}/bind /rpc_request {1}/bind /getS Hres Ec /custom_rpc_handler bincode_roundtrip.
    cbn [handle_rpc handle_rpc_with]. by rewrite /bind Ef /ret (he_reply _ _ _ Hh).
Qed.

(** ** Registering a topic *)

Lemma initial_leader_member ld c st i hash t :
  healthy ld c st → is_Some (members c !! i) → is_Some (members c !! initial_leader_for i hash t st).
Proof.
  intros Hh Hi. rewrite /initial_leader_for. destruct (sorted_nodes st) as [|x l] eqn:E; [done|].
  rewrite -E. set k := Z.to_nat _. destruct (sorted_nodes st !! k) as [j|] eqn:Ej; [|done]. cbn.
  apply (he_nodes _ _ _ Hh). apply list_elem_of_lookup_2 in Ej.
  rewrite /sorted_nodes merge_sort_Permutation list_elem_of_fmap in Ej.
  destruct Ej as ([j' a] & -> & Hin). apply elem_of_map_to_list in Hin. by eexists.
Qed.

(** Leases do not matter for what is stored. *)
Lemma cluster_inv_bucket b ld c σ i n b' :
  cluster_inv b ld c σ → members c !! i = Some n → engine b' = engine (bucket n) → 0 ≤ b →
  cluster_inv b ld (set_member i (set_bucket b' n) c) σ.
Proof.
  intros (st & μ & cont & Hh & Hl & Htop & Hd) Ei He Hb. exists st, μ, cont.
  assert (same_meta c (set_member i (set_bucket b' n) c)) as Hsm by by eapply same_meta_set.
  split_and!; [|by eapply all_lagged_same|done|].
  { eapply healthy_ext; [intros j; by apply same_meta_some|done|done|done]. }
  rewrite (strip_insert i (set_bucket b' (strip n))) //.
  assert ((strip <$> members c) !! i = Some (strip n)) as EDi by by rewrite lookup_fmap Ei.
  eapply data_inv_node; [done|done|exact EDi| |done..]. cbn. rewrite He.
  by apply (di_holds _ _ _ _ _ Hd i (strip n)).
Qed.

Lemma ensure_topic_ok hops ld c σ b i t :
  cluster_inv b ld c σ → synced c → 0 ≤ b → b + 2 ≤ U64_MAX → is_Some (members c !! i) →
  ∃ c', ensure_topic (S hops) i t c = (Ok tt, c') ∧
    cluster_inv b ld c' (match σ !! t with Some _ => σ | None => <[t := []]> σ end).
Proof.
  intros Hinv Hsy Hb HbU [n Ei]. pose proof Hinv as (st & μ & cont & Hh & Hl & Htop & Hd).
  assert (metadata n = st) as Em by (eapply lagged_synced; [by eapply Hl|by eapply Hsy]).
  rewrite /ensure_topic {1}/bind (node_of_eq i c n) // Em /get_topic_state Htop lookup_fmap.
  destruct (σ !! t) as [q|] eqn:Es.
  { destruct (proj2 (di_dom _ _ _ _ _ Hd t)) as [ts ->]; [by eexists|]. by exists c. }
  destruct (μ !! t) as [ts|] eqn:Hm.
  { destruct (proj1 (di_dom _ _ _ _ _ Hd t)) as [? ?]; [by eexists|congruence]. }
  cbn [fmap option_fmap option_map]. rewrite {1}/bind /getS. set l := initial_leader_for _ _ _ _.
  assert (is_Some (members c !! l)) as Hlm by (eapply initial_leader_member; [done|by eexists]).
  destruct (propose_metadata_ok hops ld c st i n (CreateTopic t l) "CREATED"
    (MkCluster (<[t := new_topic l]> (topics st)) (nodes st))) as (c1 & Ep & Hc); [done..| |].
  { cbn. by rewrite Htop lookup_fmap Hm. }
  rewrite {1}/bind Ep.
  assert (cluster_inv b ld c1 (<[t := []]> σ)) as Hinv1.
  { pose proof (λ i, committed_some _ _ _ i Hc) as Hdom. destruct Hc as (Hv & Hst & Hlag).
    eexists _, (<[t := ([], l)]> μ), cont. split_and!; [|done|..].
    - by apply (healthy_ext ld c c1 st).
    - by rewrite /= Htop fmap_insert.
    - rewrite Hst. apply (data_inv_topic b (strip <$> members c) _ cont); [done|done|apply Hd|apply Hd|..].
      + intros t' _. split; [|done]. intros j. by destruct (_ !! j).
      + apply topic_inv_create; [by apply (di_absent _ _ _ _ _ Hd)|done|lia|].
        rewrite lookup_fmap. by destruct Hlm as [? ->]. }
  destruct (proj2 (committed_some _ _ _ i Hc)) as [n1 E1]; [by eexists|].
  destruct (bucket_update_leases_ok (expected_leases i (metadata n1)) (bucket n1)) as (b1 & Eb & _ & He).
  rewrite (on_node_eq i _ c1 n1 (Ok tt) (set_bucket b1 n1)) //.
  { by rewrite /update_leases /bind /getS /in_bucket /zoom Eb. }
  eexists. split; [done|]. by apply cluster_inv_bucket.
Qed.

(** ** Reads *)

Lemma forward_read_ok key n m cj :
  test_fail_forward_read n = false → holds m (engine (bucket n)) cj →
  ∃ b', forward_read key n = (Ok (ReadResult (option_list (head (cj key))) (tracked_entry_count key n)), set_bucket b' n) ∧
    holds m (engine b') (put key (tail (cj key)) cj).
Proof.
  intros Hf Hh. destruct (read_one_ok m key (bucket n) cj Hh) as (b' & E1 & _ & Hh').
  exists b'. split; [|done]. rewrite /forward_read {1}/bind /getS Hf {1}/bind /catch /in_bucket /zoom E1.
  by destruct (head (cj key)).
Qed.

(** A read of one key at its leader, from node [i]. *)
Lemma read_at_ok hops ld c st i n leader nl key m cj cu :
  healthy ld c st → all_lagged c st → synced c → members c !! i = Some n → members c !! leader = Some nl →
  test_fail_forward_read nl = false → holds m (engine (bucket nl)) cj →
  ∃ b', read_at (S hops) i leader key (c, cu) =
      (Ok (option_list (head (cj key))), (set_member leader (set_bucket b' nl) c, cu)) ∧
    holds m (engine b') (put key (tail (cj key)) cj).
Proof.
  intros Hh Hl Hsy Ei Enl Hf Hho. destruct (forward_read_ok key nl m cj Hf Hho) as (b' & Er & Hh').
  exists b'. split; [|done]. rewrite /read_at. destruct (Z.eqb_spec leader i) as [->|Hne].
  - by rewrite /bind /in_cluster /zoom /= (on_node_eq i _ c nl _ _ Enl Er).
  - rewrite /in_cluster /zoom /= /forward_read_remote {1}/bind (node_of_eq i c n) //.
    rewrite (lagged_synced (raft_log c) st n); [by eapply Hl|by eapply Hsy|].
    destruct (he_addr _ _ _ Hh leader) as (a & Hga & Hres); [by eexists|]. rewrite Hga.
    rewrite {1}/bind /rpc_request {1}/bind /getS Hres Enl /custom_rpc_handler bincode_roundtrip.
    cbn [handle_rpc handle_rpc_with]. rewrite /bind (on_node_eq leader _ c nl _ _ Enl Er) /ret.
    by rewrite (he_reply _ _ _ Hh) bincode_roundtrip.
Qed.

Lemma data_inv_reread b D cont μ σ l nl b' key m :
  data_inv b D cont μ σ → 0 ≤ b → D !! l = Some nl → cont l key = [] → b ≤ m →
  holds m (engine b') (put key (tail (cont l key)) (cont l)) →
  data_inv b (<[l := set_bucket b' nl]> D) cont μ σ.
Proof.
  intros Hd Hb El Hz Hm Hh'. eapply data_inv_node; [done|done|exact El| |done..].
  exists m. split; [done|]. eapply holds_ext, Hh'. intros k. rewrite Hz /put. by case_decide; [subst|].
Qed.

Lemma data_inv_pop b D cont μ σ t ts q k s d rest nl b' m :
  data_inv b D cont μ σ → 0 ≤ b → μ !! t = Some ts → σ !! t = Some q →
  all_segs D t ts !! k = Some s → D !! s.1 = Some nl →
  (∀ k' s', (k' < k)%nat → all_segs D t ts !! k' = Some s' → seg_queue cont t k' s' = []) →
  seg_queue cont t k s = d :: rest → b ≤ m →
  holds m (engine b') (put (wal_key t (Z.of_nat k + 1)) rest (cont s.1)) →
  head q = Some d ∧
  data_inv b (<[s.1 := set_bucket b' nl]> D) (cput s.1 (wal_key t (Z.of_nat k + 1)) rest cont) μ
    (<[t := tail q]> σ).
Proof.
  intros Hd Hb Hm Hs Hk El Hz Hq Hbm Hh'. set D' := <[s.1 := _]> D.
  assert (∀ t, same_for t D D') as Hsf by (intros; by eapply same_for_insert).
  pose proof (di_topic _ _ _ _ _ Hd t ts q Hm Hs) as Ht.
  destruct (topic_inv_pop b D D' cont t ts q k s d rest (Hsf t) Ht) as [Hh Ht']; [done..|].
  split; [done|]. rewrite -(insert_id μ t _ Hm). apply (data_inv_topic b D D' cont); [done|done|..|done].
  - intros j n. rewrite /D' /cput. destruct (decide (j = s.1)) as [->|].
    + rewrite lookup_insert_eq. intros [= <-]. by exists m.
    + rewrite lookup_insert_ne //. apply Hd.
  - intros j n. rewrite /D'. destruct (decide (j = s.1)) as [->|].
    + rewrite lookup_insert_eq. intros [= <-]. by apply (di_flag _ _ _ _ _ Hd s.1 nl).
    + rewrite lookup_insert_ne //. apply Hd.
  - intros t' Hne. split; [done|]. apply same_cont_cput; [done|].
    pose proof (ti_room _ _ _ _ _ _ Ht) as [Hr _]. apply lookup_lt_Some in Hk. rewrite length_all_segs in Hk.
    rewrite /len in Hr. split; lia.
Qed.

Lemma sealed_lookup t segs cur st μ k :
  topics st = concrete <$> μ → μ !! t = Some (segs, cur) →
  (∀ s, segs !! k = Some s → sealed_count t (Z.of_nat k + 1) st = Some s.2 ∧
     segment_leader t (Z.of_nat k + 1) st = Some s.1).
Proof.
  intros Htop Hm s Hk. pose proof (lookup_lt_Some _ _ _ Hk) as Hlt.
  destruct (concrete_lookups segs cur (Z.of_nat k + 1)) as [E1 E2].
  assert (Z.to_nat (Z.of_nat k + 1 - 1) = k) as Ek by lia. rewrite Ek Hk in E1, E2.
  rewrite /sealed_count /segment_leader Htop lookup_fmap Hm.
  cbn [fmap option_fmap option_map mbind option_bind]. rewrite E1 E2.
  rewrite decide_True; [rewrite /len; lia|]. rewrite decide_False; [rewrite /len; lia|].
  by rewrite decide_True; [rewrite /len; lia|].
Qed.

Lemma cursor_norm cont t all cu k :
  cursor_at cont t all cu k →
  (if segment cu =? 0 then MkCursor 1 (delivered_in_segment cu) else cu) =
    MkCursor (Z.of_nat k + 1) (delivered_in_segment cu).
Proof. intros ([E|[E ->]] & _); destruct cu as [sg d]; cbn in *; subst; [|done]. by destruct k. Qed.

Lemma cursor_at_norm cont t all cu k :
  cursor_at cont t all cu k → cursor_at cont t all (MkCursor (Z.of_nat k + 1) (delivered_in_segment cu)) k.
Proof. intros (_ & Hr). split; [by left|done]. Qed.

(** The cursor moves on from an empty segment that is sealed. *)
Lemma cursor_at_next cont t all cu k s s' :
  cursor_at cont t all cu k → all !! k = Some s → seg_queue cont t k s = [] → all !! S k = Some s' →
  Z.of_nat k + 2 ≤ U64_MAX → len (seg_queue cont t (S k) s') ≤ s'.2 →
  cursor_at cont t all (next_segment (MkCursor (Z.of_nat k + 1) (delivered_in_segment cu))) (S k).
Proof.
  intros (_ & _ & Hz & _) Hk Hq Hk' Hb Hle. rewrite /next_segment /wrap64 Z.mod_small /=.
  { rewrite /U64_MAX in Hb. lia. }
  split_and!; [left; cbn; lia|done| |by exists s'].
  intros j sj Hj Ej. destruct (decide (j = k)) as [->|]; [congruence|]. eapply Hz; [|done]. lia.
Qed.

(** What a turn of the read loop does, from a cursor at segment [k]. *)
Definition turn_post (b : Z) c (μ : gmap string topic_spec) (σ : gmap string (list (list Z))) t ts q k
    (r : option (option (list Z))) c' (cu' : ReadCursor) : Prop :=
  same_meta c c' ∧ ∃ cont' k',
    cursor_at cont' t (all_segs (strip <$> members c') t ts) cu' k' ∧
    match r with
    | Some v => v = head q ∧ data_inv b (strip <$> members c') cont' μ (<[t := tail q]> σ)
    | None => k' = S k ∧ (S k < length (all_segs (strip <$> members c) t ts))%nat ∧
              data_inv b (strip <$> members c') cont' μ σ
    end.

(** The part after the test for a segment that is used up. *)
Lemma read_segment_ok hops ld c st μ cont σ t segs cur q b i n cu k s :
  healthy ld c st → all_lagged c st → synced c → topics st = concrete <$> μ →
  data_inv b (strip <$> members c) cont μ σ → 0 ≤ b → members c !! i = Some n →
  μ !! t = Some (segs, cur) → σ !! t = Some q →
  cursor_at cont t (all_segs (strip <$> members c) t (segs, cur)) cu k →
  all_segs (strip <$> members c) t (segs, cur) !! k = Some s →
  ∃ r c' cu',
    (let! data_vec := read_at (S hops) i s.1 (wal_key t (Z.of_nat k + 1)) in
     match data_vec with
     | entry :: _ =>
         set_cursor (MkCursor (Z.of_nat k + 1) (wrap64 (delivered_in_segment cu + 1)));;
         ret (Some (Some entry))
     | [] =>
         if Z.of_nat k + 1 <? len segs + 1
         then set_cursor (next_segment (MkCursor (Z.of_nat k + 1) (delivered_in_segment cu)));; ret None
         else ret (Some None)
     end) (c, MkCursor (Z.of_nat k + 1) (delivered_in_segment cu)) = (Ok r, (c', cu')) ∧
    turn_post b c μ σ t (segs, cur) q k r c' cu'.
Proof.
  intros Hh Hl Hsy Htop Hd Hb Ei Hm Hs Hcu Hk. set all := all_segs _ _ _ in Hcu Hk.
  pose proof (di_topic _ _ _ _ _ Hd t _ q Hm Hs) as Ht. pose proof (ti_room _ _ _ _ _ _ Ht) as [Hr _]. cbn in Hr.
  pose proof (lookup_lt_Some _ _ _ Hk) as Hlt. rewrite length_all_segs /= in Hlt.
  destruct (ti_members _ _ _ _ _ _ Ht k s Hk) as [nd EDl].
  destruct (members c !! s.1) as [nl|] eqn:El; [|by rewrite lookup_fmap El in EDl].
  assert (nd = strip nl) as -> by (rewrite lookup_fmap El in EDl; by injection EDl).
  destruct (di_holds _ _ _ _ _ Hd _ _ EDl) as (m & Hbm & Hho).
  set key := wal_key t (Z.of_nat k + 1).
  destruct (read_at_ok hops ld c st i n s.1 nl key m (cont s.1) (MkCursor (Z.of_nat k + 1) (delivered_in_segment cu)))
    as (b' & Er & Hho'); [done..|by apply (di_flag _ _ _ _ _ Hd _ _ EDl)|done|].
  set c' := set_member s.1 (set_bucket b' nl) c in Er.
  assert (same_meta c c') as Hsm by by eapply same_meta_set.
  assert (strip <$> members c' = <[s.1 := set_bucket b' (strip nl)]> (strip <$> members c)) as ED'
    by by apply strip_insert.
  assert (all_segs (strip <$> members c') t (segs, cur) = all) as Ea.
  { rewrite ED'. apply all_segs_same; [by eapply same_for_insert|cbn; lia]. }
  rewrite /bind Er. destruct (cont s.1 key) as [|d rest] eqn:Eq; cbn [head tail option_list].
  - assert (data_inv b (strip <$> members c') cont μ σ) as Hd'.
    { rewrite ED'. apply (data_inv_reread b _ cont μ σ s.1 (strip nl) b' key m); try done. by rewrite Eq. }
    destruct (Z.ltb_spec (Z.of_nat k + 1) (len segs + 1)) as [Hsl|Hsl].
    + eexists None, c', _. split; [done|]. split; [done|]. exists cont, (S k). rewrite Ea -/all.
      assert (S k < length all)%nat as HSk by (rewrite length_all_segs /=; rewrite /len in Hsl; lia).
      split; [|done]. destruct (all !! S k) as [s'|] eqn:Es'; [|apply lookup_ge_None in Es'; lia].
      eapply cursor_at_next; [done|done|done|done| |apply (ti_total _ _ _ _ _ _ Ht (S k) s' Es')]. lia.
    + eexists (Some None), c', _. split; [done|]. split; [done|]. exists cont, k. rewrite Ea.
      split; [by apply cursor_at_norm|]. assert (q = []) as ->.
      { rewrite (ti_queue _ _ _ _ _ _ Ht) (topic_queue_split cont t _ k s) //; [apply Hcu|].
        rewrite {1}/seg_queue -/key Eq drop_ge //. rewrite length_all_segs /=. rewrite /len in Hsl. lia. }
      split; [done|]. by rewrite insert_id.
  - eexists (Some (Some d)), c', _. split; [done|]. split; [done|].
    destruct (data_inv_pop b _ cont μ σ t (segs, cur) q k s d rest (strip nl) b' m Hd) as [Hhd Hd']; [done..|apply Hcu|done|done|done|].
    exists (cput s.1 key rest cont), k. rewrite Ea ED'. split; [|done].
    destruct (cursor_at_pop cont t all cu k k s d rest) as (_ & _ & Hz' & _); try done.
    { rewrite /len length_all_segs /=. rewrite /len in Hr. lia. }
    destruct Hcu as (Hsg & Hdl & Hz & s0 & Hk0 & Hle). assert (s0 = s) as -> by congruence.
    pose proof (ti_total _ _ _ _ _ _ Ht k s Hk) as [_ Hmax]. rewrite {1}/seg_queue -/key Eq len_cons in Hle.
    pose proof (len_nonneg rest). assert (wrap64 (delivered_in_segment cu + 1) = delivered_in_segment cu + 1) as ->.
    { rewrite /wrap64 Z.mod_small //. rewrite /U64_MAX in Hmax. lia. }
    split_and!; [by left|cbn; lia|done|]. exists s. split; [done|].
    rewrite /len in Hr. rewrite seg_queue_cput //; [lia..|]. rewrite decide_True //=. lia.
Qed.

Lemma read_turn_ok hops ld c st μ cont σ t segs cur q b i n cu k :
  healthy ld c st → all_lagged c st → synced c → topics st = concrete <$> μ →
  data_inv b (strip <$> members c) cont μ σ → 0 ≤ b → members c !! i = Some n →
  μ !! t = Some (segs, cur) → σ !! t = Some q →
  cursor_at cont t (all_segs (strip <$> members c) t (segs, cur)) cu k →
  ∃ r c' cu', read_turn (S hops) i t (c, cu) = (Ok r, (c', cu')) ∧
    turn_post b c μ σ t (segs, cur) q k r c' cu'.
Proof.
  intros Hh Hl Hsy Htop Hd Hb Ei Hm Hs Hcu. pose proof Hcu as (_ & Hdl & Hz & s & Hk & Hle).
  pose proof (di_topic _ _ _ _ _ Hd t _ q Hm Hs) as Ht. pose proof (ti_room _ _ _ _ _ _ Ht) as [Hr _]. cbn in Hr.
  pose proof (lookup_lt_Some _ _ _ Hk) as Hlt. rewrite length_all_segs /= in Hlt.
  assert (metadata n = st) as Em by (eapply lagged_synced; [by eapply Hl|by eapply Hsy]).
  rewrite /read_turn {1}/bind {1}/in_cluster {1}/zoom /= (node_of_eq i c n) // Em.
  rewrite {1}/get_topic_state Htop lookup_fmap Hm. cbn [fmap option_fmap option_map].
  rewrite {1}/bind /get_cursor {1}/bind /set_cursor {1}/modify {1}/bind. cbn [fst snd].
  rewrite (cursor_norm _ _ _ _ _ Hcu). cbn [segment delivered_in_segment concrete current_segment leader_node].
  destruct (decide (k < length segs)%nat) as [Hsl|Hsl].
  - assert (segs !! k = Some s) as Esk by (rewrite /all_segs lookup_app_l in Hk; [lia|done]).
    destruct (sealed_lookup t segs cur st μ k Htop Hm s Esk) as [-> ->]. cbn [default]. rewrite /id.
    rewrite (proj2 (Z.ltb_lt _ _)); [rewrite /len; lia|]. cbn [andb].
    destruct (Z.geb_spec (delivered_in_segment cu) s.2) as [Hge|Hge].
    + eexists None, c, _. split; [done|]. split; [done|]. exists cont, (S k).
      assert (seg_queue cont t k s = []) as Hq by (destruct (seg_queue cont t k s) as [|x rest]; [done|];
        rewrite len_cons in Hle; pose proof (len_nonneg rest); lia).
      assert (S k < length (all_segs (strip <$> members c) t (segs, cur)))%nat as HSk by (rewrite length_all_segs /=; lia).
      split; [|done]. apply lookup_lt_is_Some in HSk as [s' Es'].
      eapply cursor_at_next; [done|done|done|done| |apply (ti_total _ _ _ _ _ _ Ht (S k) s' Es')].
      rewrite /len in Hr. lia.
    + destruct (Z.eqb_spec (Z.of_nat k + 1) (len segs + 1)); [rewrite /len in e; lia|].
      destruct (read_segment_ok hops ld c st μ cont σ t segs cur q b i n cu k s) as (r & c' & cu' & Er & Hp); [done..|].
      rewrite (proj2 (Z.ltb_lt _ _)) in Er; [rewrite /len; lia|]. by exists r, c', cu'.
  - assert (k = length segs) as Ek by lia.
    assert (s.1 = cur) as Es1.
    { rewrite Ek /all_segs lookup_app_r // Nat.sub_diag in Hk. by injection Hk as <-. }
    destruct (read_segment_ok hops ld c st μ cont σ t segs cur q b i n cu k s) as (r & c' & cu' & Er & Hp); [done..|].
    exists r, c', cu'. split; [|done]. rewrite Es1 in Er.
    assert (Z.of_nat k + 1 = len segs + 1) as Ek' by (rewrite /len; lia).
    rewrite Ek' Z.ltb_irrefl Z.eqb_refl in Er |- *. exact Er.
Qed.

Lemma read_turns_ok hops ld st μ t segs cur b i n (fuel : nat) : ∀ c cont σ q cu k,
  healthy ld c st → all_lagged c st → synced c → topics st = concrete <$> μ →
  data_inv b (strip <$> members c) cont μ σ → 0 ≤ b → members c !! i = Some n →
  μ !! t = Some (segs, cur) → σ !! t = Some q →
  cursor_at cont t (all_segs (strip <$> members c) t (segs, cur)) cu k →
  (S (length segs) ≤ fuel + k)%nat →
  ∃ c' cu' cont' k', read_turns (S hops) fuel i t (c, cu) = (Ok (head q), (c', cu')) ∧ same_meta c c' ∧
    cursor_at cont' t (all_segs (strip <$> members c') t (segs, cur)) cu' k' ∧
    data_inv b (strip <$> members c') cont' μ (<[t := tail q]> σ).
Proof.
  revert n. induction fuel as [|fuel IH]; intros n c cont σ q cu k Hh Hl Hsy Htop Hd Hb Ei Hm Hs Hcu Hfuel.
  { destruct Hcu as (_ & _ & _ & s & Hk & _). apply lookup_lt_Some in Hk. rewrite length_all_segs /= in Hk. lia. }
  destruct (read_turn_ok hops ld c st μ cont σ t segs cur q b i n cu k) as (r & c1 & cu1 & Er & Hsm & cont1 & k1 & Hcu1 & Hr);
    [done..|]. cbn [read_turns]. rewrite {1}/bind Er. destruct r as [v|].
  { destruct Hr as [-> Hd1]. by exists c1, cu1, cont1, k1. }
  destruct Hr as (-> & Hlt & Hd1). rewrite length_all_segs /= in Hlt.
  destruct (same_meta_some c c1 i Hsm) as [_ Hsome]. destruct Hsome as [n1 E1]; [by eexists|].
  destruct (IH n1 c1 cont1 σ q cu1 (S k)) as (c' & cu' & cont' & k' & Et & Hsm' & Hcu' & Hd');
    [|by eapply all_lagged_same|by eapply synced_same|done..|lia|].
  { eapply healthy_ext; [intros j; by apply same_meta_some|apply Hsm|done|done]. }
  exists c', cu', cont', k'. split_and!; [done|by etrans|done|done].
Qed.
End ops.
