(* ===== verification/ClusterQueues.v ===== *)
(** The refinement theorem of the distributed layer, and the ways it can fail when replicas
    lag behind. *)

From S2P Require Import Prelude Metadata WalKey Bucket Controller ClusterInv ClusterOps.

#[local] Open Scope walrus_scope.
#[local] Open Scope Z_scope.

Section queues.
Context {Eng : Type} `{QueueEngine Eng}.
Context `{BincodeLaws MetadataCmd, Bincode ClusterState, BincodeLaws InternalOp, BincodeLaws InternalResp, NodeIds}.

Implicit Types (c : Cluster Eng) (n : Node Eng).

(** ** Reads with the shared cursor of a node *)

Lemma cursor_of_set t t' cu n :
  cursor_of t (set_cursors (<[t' := cu]> (read_cursors n)) n) = if decide (t = t') then cu else cursor_of t n.
Proof.
  rewrite /cursor_of /=. case_decide as E; [by rewrite E lookup_insert_eq|by rewrite lookup_insert_ne].
Qed.

Lemma data_inv_set_cursor b D cont μ σ t ts q i n k cu :
  data_inv b D cont μ σ → 0 ≤ b → μ !! t = Some ts → σ !! t = Some q → D !! i = Some n →
  cursor_at cont t (all_segs D t ts) cu k →
  data_inv b (<[i := set_cursors (<[t := cu]> (read_cursors n)) n]> D) cont μ σ.
Proof.
  intros Hd Hb Hm Hs Ei Hcu. set n' := set_cursors _ n.
  rewrite -(insert_id μ t ts Hm) -(insert_id σ t q Hs).
  apply (data_inv_topic b D _ cont); [done|done|..].
  - intros j m. destruct (decide (j = i)) as [->|]; [|rewrite lookup_insert_ne //; apply Hd].
    rewrite lookup_insert_eq. intros [= <-]. by apply (di_holds _ _ _ _ _ Hd i n).
  - intros j m. destruct (decide (j = i)) as [->|]; [|rewrite lookup_insert_ne //; apply Hd].
    rewrite lookup_insert_eq. intros [= <-]. by apply (di_flag _ _ _ _ _ Hd i n).
  - intros t' Hne. split; [|done]. apply (same_for_insert t' D i n); [done|done|].
    by rewrite cursor_of_set decide_False.
  - apply (topic_inv_cursor b D cont t ts q i n n' k); [by eapply (di_topic _ _ _ _ _ Hd)|done|done|done|].
    by rewrite cursor_of_set decide_True.
Qed.

Lemma set_cursors_inv b ld c cont st μ σ t ts q i n k cu :
  healthy ld c st → all_lagged c st → topics st = concrete <$> μ →
  data_inv b (strip <$> members c) cont μ σ → 0 ≤ b → members c !! i = Some n →
  μ !! t = Some ts → σ !! t = Some q →
  cursor_at cont t (all_segs (strip <$> members c) t ts) cu k →
  cluster_inv b ld (set_member i (set_cursors (<[t := cu]> (read_cursors n)) n) c) σ.
Proof.
  intros Hh Hl Htop Hd Hb Ei Hm Hs Hcu. set c' := set_member _ _ _.
  assert (same_meta c c') as Hsm by by eapply same_meta_set.
  exists st, μ, cont. split_and!; [|by eapply all_lagged_same|done|].
  - eapply healthy_ext; [intros j; by apply same_meta_some|done|done|done].
  - rewrite (strip_insert i (set_cursors (<[t := cu]> (read_cursors (strip n))) (strip n))) //.
    eapply data_inv_set_cursor; [done..|by rewrite lookup_fmap Ei|done].
Qed.

Lemma read_shared_ok hops ld c σ q b i t :
  cluster_inv b ld c σ → synced c → 0 ≤ b → is_Some (members c !! i) → σ !! t = Some q →
  ∃ c', read_one_for_topic_shared (S hops) i t c = (Ok (head q), c') ∧ cluster_inv b ld c' (<[t := tail q]> σ).
Proof.
  intros (st & μ & cont & Hh & Hl & Htop & Hd) Hsy Hb [n Ei] Hs.
  destruct (proj2 (di_dom _ _ _ _ _ Hd t)) as [[segs cur] Hm]; [by eexists|].
  destruct (ti_cursor _ _ _ _ _ _ (di_topic _ _ _ _ _ Hd t _ q Hm Hs) i (strip n)) as [k Hcu];
    [by rewrite lookup_fmap Ei|]. change (cursor_of t (strip n)) with (cursor_of t n) in Hcu.
  rewrite /read_one_for_topic_shared Ei -/(cursor_of t n) /read_one_for_topic. cbn [fst snd].
  destruct (read_turns_ok hops ld st μ t segs cur b i n (read_fuel i t (cursor_of t n) c) c cont σ q (cursor_of t n) k)
    as (c1 & cu1 & cont1 & k1 & Er & Hsm & Hcu1 & Hd1); [done..| |].
  { rewrite /read_fuel Ei. assert (metadata n = st) as -> by (eapply lagged_synced; [by eapply Hl|by eapply Hsy]).
    rewrite /get_topic_state Htop lookup_fmap Hm. cbn [fmap option_fmap option_map concrete current_segment].
    destruct Hcu as (Hsg & _). rewrite /len. lia. }
  rewrite Er. destruct (same_meta_some c c1 i Hsm) as [_ Hsome]. destruct Hsome as [n1 E1]; [by eexists|].
  rewrite /on_node E1. eexists. split; [done|].
  apply (set_cursors_inv b ld c1 cont1 st μ _ t (segs, cur) (tail q) i n1 k1); [|by eapply all_lagged_same|done..| |done].
  - eapply healthy_ext; [intros j; by apply same_meta_some|apply Hsm|done|done].
  - by rewrite lookup_insert_eq.
Qed.

(** A topic that is not registered. *)
Lemma read_unknown hops ld c σ b i t :
  cluster_inv b ld c σ → synced c → 0 ≤ b → is_Some (members c !! i) → σ !! t = None →
  ∃ c', read_one_for_topic_shared hops i t c = (Err (IoError KOther ("unknown topic " +:+ t)), c') ∧
    cluster_inv b ld c' σ.
Proof.
  intros Hinv Hsy Hb [n Ei] Hs. pose proof Hinv as (st & μ & cont & Hh & Hl & Htop & Hd).
  assert (μ !! t = None) as Hm.
  { destruct (μ !! t) eqn:E1; [|done]. destruct (proj1 (di_dom _ _ _ _ _ Hd t)); [by eexists|congruence]. }
  assert (metadata n = st) as Em by (eapply lagged_synced; [by eapply Hl|by eapply Hsy]).
  assert (get_topic_state t st = None) as Hg by by rewrite /get_topic_state Htop lookup_fmap Hm.
  rewrite /read_one_for_topic_shared Ei /read_one_for_topic /read_fuel. cbn [fst snd]. rewrite Ei Em Hg.
  cbn [read_turns]. rewrite {1}/bind /read_turn {1}/bind /in_cluster /zoom /= (node_of_eq i c n) // Em Hg /=.
  rewrite /on_node Ei. eexists. split; [done|]. cbn [modify fst snd].
  rewrite -/(cursor_of t n). set n' := set_cursors _ n.
  assert (∀ t', cursor_of t' n' = cursor_of t' n) as Hcu.
  { intros t'. rewrite cursor_of_set. by case_decide as E1; [rewrite E1|]. }
  assert (same_meta c (set_member i n' c)) as Hsm by by eapply same_meta_set.
  exists st, μ, cont. split_and!; [|by eapply all_lagged_same|done|].
  { eapply healthy_ext; [intros j; by apply same_meta_some|done|done|done]. }
  rewrite (strip_insert i (strip n')) //.
  assert ((strip <$> members c) !! i = Some (strip n)) as EDi by by rewrite lookup_fmap Ei.
  eapply data_inv_node; [done|done|exact EDi| |done|done|apply Hcu].
  by apply (di_holds _ _ _ _ _ Hd i (strip n)).
Qed.

(** ** Runs *)

(** What a client asks of node [i]. *)
Inductive cop :=
  | CRegister (i : Z) (t : string)
  | CPut (i : Z) (t : string) (d : list Z)
  | CGet (i : Z) (t : string).

Definition run_cop (hops : nat) (o : cop) : M (Cluster Eng) (option (list Z)) :=
  match o with
  | CRegister i t => ensure_topic hops i t;; ret None
  | CPut i t d => append_for_topic hops i t d;; ret None
  | CGet i t => read_one_for_topic_shared hops i t
  end.

(** Every replica catches up with the log. *)
Definition sync c : Cluster Eng :=
  MkCl (catch_up_node (raft_log c) (length (raft_log c)) <$> members c) (raft_log c) (view c).

(** The answers to a sequence of requests; replication catches up between them. *)
Fixpoint run_cops (hops : nat) (os : list cop) c : list (outcome (option (list Z))) * Cluster Eng :=
  match os with
  | [] => ([], c)
  | o :: os =>
      let '(r, c) := run_cop hops o c in
      let '(rs, c) := run_cops hops os (sync c) in (r :: rs, c)
  end.

(** The specification: registered topics are queues. *)
Definition unknown_topic (t : string) : outcome (option (list Z)) :=
  Err (IoError KOther ("unknown topic " +:+ t)).

Definition spec_cop (o : cop) (σ : gmap string (list (list Z))) :
    outcome (option (list Z)) * gmap string (list (list Z)) :=
  match o with
  | CRegister _ t => (Ok None, match σ !! t with Some _ => σ | None => <[t := []]> σ end)
  | CPut _ t d =>
      match σ !! t with
      | Some q => (Ok None, <[t := q ++ [d]]> σ)
      | None => (unknown_topic t, σ)
      end
  | CGet _ t =>
      match σ !! t with
      | Some q => (Ok (head q), <[t := tail q]> σ)
      | None => (unknown_topic t, σ)
      end
  end.

Fixpoint spec_cops (os : list cop) (σ : gmap string (list (list Z))) :
    list (outcome (option (list Z))) * gmap string (list (list Z)) :=
  match os with
  | [] => ([], σ)
  | o :: os => let '(r, σ) := spec_cop o σ in let '(rs, σ) := spec_cops os σ in (r :: rs, σ)
  end.

(** The request goes to a node of the cluster, and the engine takes the entry. *)
Definition cop_ok (o : cop) : Prop :=
  match o with
  | CRegister i _ | CGet i _ => i ∈ node_ids
  | CPut i t d => i ∈ node_ids ∧ ∀ k, is_u64 k → accepts (wal_key t k) d
  end.

Lemma sync_ok b ld c σ : cluster_inv b ld c σ → cluster_inv b ld (sync c) σ ∧ synced (sync c).
Proof.
  intros (st & μ & cont & Hh & Hl & Htop & Hd).
  assert (∀ i n, members (sync c) !! i = Some n →
    ∃ n0, members c !! i = Some n0 ∧ n = set_metadata st (length (raft_log c)) n0) as Hm.
  { intros i n. rewrite /sync lookup_fmap. destruct (members c !! i) as [n0|] eqn:Ei; [|done].
    intros [= <-]. exists n0. split; [done|]. apply lagged_catch_up. by eapply Hl. }
  split; [|by intros i n (n0 & _ & ->)%Hm].
  exists st, μ, cont. split_and!; [|..|done|].
  - eapply (healthy_ext ld c); [|done..]. intros i. rewrite /sync lookup_fmap. by destruct (members c !! i).
  - intros i n (n0 & _ & ->)%Hm. split; cbn; [done|by rewrite drop_all].
  - rewrite /sync /= -map_fmap_compose. by rewrite (map_fmap_ext _ strip).
Qed.

Lemma run_cop_ok hops ld c σ b o :
  cluster_inv (b + 1) ld c σ → synced c → 0 ≤ b → b + 3 ≤ U64_MAX →
  cop_ok o →
  ∃ c', run_cop (S (S hops)) o c = ((spec_cop o σ).1, c') ∧ cluster_inv b ld c' (spec_cop o σ).2.
Proof.
  intros Hinv Hsy Hb HbU Hok.
  assert (∀ i, i ∈ node_ids → is_Some (members c !! i)) as Hids.
  { destruct Hinv as (st & μ & cont & Hh & _). intros i. apply (he_ids _ _ _ Hh). }
  assert (cluster_inv b ld c σ) as Hinv0.
  { destruct Hinv as (st & μ & cont & ? & ? & ? & Hd). exists st, μ, cont.
    split_and!; [done..|]. eapply data_inv_le; [exact Hd|lia]. }
  destruct o as [i t|i t d|i t]; cbn [run_cop spec_cop cop_ok] in *.
  - destruct (ensure_topic_ok (S hops) ld c σ b i t) as (c' & Ee & Hi); [done..|lia|auto|].
    exists c'. by rewrite /bind Ee.
  - destruct Hok as [Hi Ha]. destruct (σ !! t) as [q|] eqn:Es.
    + destruct Hinv as (st & μ & cont & Hh & Hl & Htop & Hd).
      destruct (proj2 (di_dom _ _ _ _ _ Hd t)) as [ts Hm]; [by eexists|].
      destruct (cluster_append_ok hops ld c st μ cont σ t ts q b d i) as (c' & Ea & Hi'); [done..|auto|done|done|done|].
      exists c'. by rewrite /bind Ea.
    + exists c. split; [|done]. destruct (Hids i Hi) as [n Ei].
      destruct Hinv as (st & μ & cont & Hh & Hl & Htop & Hd).
      rewrite /append_for_topic /bind (node_of_eq i c n) //.
      rewrite (lagged_synced (raft_log c) st n); [by eapply Hl|by eapply Hsy|].
      rewrite /get_topic_state Htop lookup_fmap. destruct (μ !! t) eqn:Em; [|done].
      destruct (proj1 (di_dom _ _ _ _ _ Hd t)); [by eexists|congruence].
  - destruct (σ !! t) as [q|] eqn:Es.
    + eapply (read_shared_ok (S hops)); [done..|auto|done].
    + eapply (read_unknown (S (S hops))); [done..|auto|done].
Qed.

Lemma run_cops_ok hops ld os : ∀ c σ,
  cluster_inv (len os) ld c σ → synced c → len os + 2 ≤ U64_MAX → Forall cop_ok os →
  ∃ c', run_cops (S (S hops)) os c = ((spec_cops os σ).1, c') ∧ cluster_inv 0 ld c' (spec_cops os σ).2.
Proof.
  induction os as [|o os IH]; intros c σ Hinv Hsy Hl Hok; [by exists c|].
  apply Forall_cons in Hok as [Ho Hos]. rewrite len_cons in Hinv Hl. pose proof (len_nonneg os).
  rewrite Z.add_comm in Hinv. destruct (run_cop_ok hops ld c σ (len os) o) as (c1 & E1 & Hi1); [done..|lia|done|].
  destruct (sync_ok _ _ _ _ Hi1) as [Hi2 Hs2].
  destruct (IH (sync c1) (spec_cop o σ).2) as (c' & E2 & Hi'); [done|done|lia|done|].
  exists c'. cbn. rewrite E1. destruct (spec_cop o σ) as [r σ1]; cbn in *. rewrite E2.
  by destruct (spec_cops os σ1).
Qed.

(** A cluster in which nothing was stored yet; it has room for [b] appends. *)
Definition fresh_cluster (b ld : Z) c (st : ClusterState) : Prop :=
  healthy ld c st ∧ topics st = ∅ ∧
  ∀ i n, members c !! i = Some n →
    metadata n = st ∧ applied n = length (raft_log c) ∧ offsets n = ∅ ∧ read_cursors n = ∅ ∧
    test_fail_forward_read n = false ∧ holds b (engine (bucket n)) (λ _, []).

Lemma fresh_cluster_inv b ld c st :
  fresh_cluster b ld c st → cluster_inv b ld c ∅ ∧ synced c.
Proof.
  intros (Hh & Htop & Hn). split; [|by intros i n (_ & ? & _)%Hn].
  assert (∀ i n, (strip <$> members c) !! i = Some n → ∃ n0, members c !! i = Some n0 ∧ n = strip n0) as Hm.
  { intros i n. rewrite lookup_fmap. destruct (members c !! i); [|done]. intros [= <-]. by eexists. }
  exists st, ∅, (λ _ _, []). split_and!; [done|..|by rewrite fmap_empty|split].
  - intros i n (Em & Ea & _)%Hn. by rewrite /lagged Ea drop_all Em.
  - intros i n (n0 & (_ & _ & _ & _ & _ & ?)%Hn & ->)%Hm. by exists b.
  - by intros i n (n0 & (_ & _ & _ & _ & ? & _)%Hn & ->)%Hm.
  - intros t. by rewrite !lookup_empty.
  - intros t ts q. by rewrite lookup_empty.
  - intros t _. split.
    + intros k i n _ (n0 & (_ & _ & Ho & _)%Hn & ->)%Hm. by rewrite /tracked_entry_count /= Ho.
    + intros i n (n0 & (_ & _ & _ & Hr & _)%Hn & ->)%Hm. by rewrite /cursor_of /= Hr.
Qed.

(** C4: in a cluster whose consensus layer is available, and whose replicas catch up between
    requests, clients that register topics, put and get through any nodes are answered as
    by one first-in first-out queue per registered topic, however the topics are split into
    segments, rolled over and led by different nodes, and whichever node's cursor serves
    the reads: every entry that was accepted is delivered once and in order, an unknown topic
    is an error, and no request fails or loops. Only the queue laws of the nodes'
    engines are used. *)
Theorem cluster_refines_queues hops ld c st os :
  fresh_cluster (len os) ld c st → len os + 2 ≤ U64_MAX → Forall cop_ok os →
  (run_cops (S (S hops)) os c).1 = (spec_cops os ∅).1.
Proof.
  intros Hf Hl Hok. destruct (fresh_cluster_inv _ _ _ _ Hf) as [Hinv Hsy].
  destruct (run_cops_ok hops ld os c ∅ Hinv Hsy Hl Hok) as (c' & E & _). by rewrite E.
Qed.
End queues.
