(* ===== verification/WalrusEngine.v ===== *)
(** The storage engine as the engine of a bucket and of a write-ahead log: it implements the
    interfaces the distributed layer and the log store are proved against. *)

From S2P Require Import Prelude Config Storage Block Trackers Allocator Index TopicClean Reader Writer TopicInv Core Batch Walrus BatchRead Recovery EngineInv BatchReadOk BatchReadInv Fifo Bucket OctopiiWal.

#[local] Open Scope Z_scope.

Section engine.
Context `{MetaCodecLaws} `{MapCodec BlockPos} `{MapCodec CleanMarkerRecord} `{IoUringReliable}.

#[global] Instance walrus_engine : Engine Walrus := {
  engine_append := batch_append_for_topic;
  engine_read := read_next;
  engine_size := get_topic_size;
}.

(** The queues [c], and file names and counters for [n] more appends. *)
Definition walrus_holds (n : Z) (W : Walrus) (c : contents) : Prop :=
  ∃ g σ, winv g W σ σ ∧ (∀ k, pending σ k = c k) ∧ env_good (2 * n) (wa_fs W) ∧ room n σ.

Lemma walrus_append n W c k d :
  0 ≤ n → batch_fits k [d] → walrus_holds (n + 1) W c →
  ∃ W', batch_append_for_topic k [d] W = (Ok tt, W') ∧ walrus_holds n W' (put k (c k ++ [d]) c).
Proof.
  intros Hn Hf (g & σ & Hi & Hc & Hg & Hr). change (len [d]) with 1 in *.
  destruct (batch_append_for_topic_ok g W σ k [d] (2 * n)) as (g' & W' & E & Hi' & Hg'); [done|done|lia|..].
  { change (len [d]) with 1. by replace (2 * n + 1 + 1) with (2 * (n + 1)) by lia. }
  { change (len [d]) with 1. specialize (Hr k). lia. }
  exists W'. split; [done|]. exists g', (spec_append k [d] σ). split_and!; [done| |done|by apply room_append].
  intros k'. rewrite /spec_append. destruct (decide (k' = k)) as [->|].
  - by rewrite pending_insert put_eq Hc.
  - by rewrite pending_insert_ne // put_ne.
Qed.

Lemma walrus_read n W c k :
  walrus_holds n W c →
  ∃ W', read_next k true W = (Ok (head (c k)), W') ∧ walrus_holds n W' (put k (tail (c k)) c).
Proof.
  intros (g & σ & Hi & Hc & Hg & Hr).
  destruct (read_next_ok true g W σ k Hi) as (W' & E & Hi' & Hs). rewrite Hc in E.
  exists W'. split; [done|]. exists g, (spec_read k true σ). split_and!; [done| | |by apply room_read].
  - intros k'. rewrite /spec_read. destruct (decide (k' = k)) as [->|].
    + by rewrite pending_insert put_eq Hc.
    + by rewrite pending_insert_ne // put_ne.
  - eapply env_good_eq; [apply Hs|done].
Qed.

Lemma walrus_ext n W c c' : (∀ k, c k = c' k) → walrus_holds n W c → walrus_holds n W c'.
Proof. intros Hcc (g & σ & Hi & Hc & Hg & Hr). exists g, σ. split_and!; [done| |done..]. congruence. Qed.

#[global] Instance walrus_queue_engine : QueueEngine Walrus := {
  accepts k d := batch_fits k [d];
  holds := walrus_holds;
  holds_append := walrus_append;
  holds_read := walrus_read;
  holds_ext := walrus_ext;
}.

(** A new instance on an empty directory stores nothing. *)
Lemma walrus_holds_fresh pm mode sched trk s n :
  fs_inv s → fresh_dir pm s → env_good (2 * n + 1) s → 0 ≤ n ≤ U64_MAX →
  ∃ W, with_paths pm mode sched trk s = (Ok W, wa_fs W) ∧ walrus_holds n W (λ _, []).
Proof.
  intros Hfs Hd Hg Hn.
  destruct (with_paths_fresh pm mode sched trk s Hfs Hd) as
    (W & E & Ha & Hgr & Hp & Hr & Hw & _ & _ & Hc & Hi); [apply Hg|destruct (eg_time _ _ Hg); lia|].
  exists W. split; [done|]. exists ∅, ∅. split_and!; [by eapply winv_fresh|done|eapply env_good_grows; [lia|done|done]|].
  intros t. rewrite /pending lookup_empty len_nil. lia.
Qed.

(** ** One topic as a write-ahead log *)

Section wal_topic.
Context `{ReadRingReliable}.

(** The topic of every log. *)
Definition wal_data : string := "wal_data".

#[global] Instance walrus_wal_topic : WalTopic Walrus := {
  wt_append := append_for_topic wal_data;
  wt_batch_read max c := batch_read_for_topic wal_data max c None;
}.

Definition topic_holds (n : Z) (W : Walrus) (q : list (list Z)) : Prop := ∃ c, walrus_holds n W c ∧ c wal_data = q.

Lemma topic_append n W q d :
  0 ≤ n → fits wal_data d → topic_holds (n + 1) W q →
  ∃ W', append_for_topic wal_data d W = (Ok tt, W') ∧ topic_holds n W' (q ++ [d]).
Proof.
  intros Hn Hf (c & (g & σ & Hi & Hc & Hg & Hr) & <-).
  destruct (append_for_topic_ok g W σ wal_data d (2 * n)) as (g' & W' & E & Hi' & Hg'); [done|done|lia|..].
  { by replace (2 * n + 2) with (2 * (n + 1)) by lia. } { specialize (Hr wal_data). lia. }
  exists W'. split; [done|]. exists (pending (spec_append wal_data [d] σ)). split; [|by rewrite /spec_append pending_insert Hc].
  exists g', (spec_append wal_data [d] σ). split_and!; [done|done|done|]. apply room_append. by change (len [d]) with 1.
Qed.

Lemma topic_batch_read n W q max :
  topic_holds n W q → batch_covers true max q →
  let k := batch_count max q 0 0 in
  ∃ W', batch_read_for_topic wal_data max true None W = (Ok (nonempty (take k q)), W') ∧ topic_holds n W' (drop k q).
Proof.
  intros (c & (g & σ & Hi & Hc & Hg & Hr) & <-) Hcov k.
  destruct (batch_read_ok g W σ wal_data max true Hi) as (W' & E & Hi' & Hs); [rewrite Hc; by destruct Hcov; split; auto|].
  rewrite /spec_batch Hc in E. exists W'. split; [done|]. exists (pending (spec_batch_read wal_data max true σ)).
  split; [|by rewrite /spec_batch_read pending_insert Hc].
  exists g, (spec_batch_read wal_data max true σ). split_and!; [done|done| |by apply room_batch_read]. eapply env_good_eq; [apply Hs|done].
Qed.

#[global] Instance walrus_wal_topic_laws : WalTopicLaws Walrus := {
  wt_accepts := fits wal_data;
  wt_holds := topic_holds;
  wt_holds_append := topic_append;
  wt_holds_read := topic_batch_read;
}.
End wal_topic.
End engine.
