(* ===== verification/Client.v ===== *)
(** The client listener: [src/distributed-walrus/src/client.rs].

    A connection is a stream of frames: four bytes of length and a UTF-8 command line. Text
    is kept as its bytes, since the code slices strings by byte. The JSON printers of the
    [serde_json] crate and the metrics of the consensus layer are parameters. *)

From S2P Require Import Prelude Config Metadata WalKey Bucket Controller.

#[local] Open Scope Z_scope.

Definition MAX_FRAME_LEN : Z := 64 * 1024.

(** * Text *)

Definition str (s : string) : list Z :=
  (λ a, Z.of_nat (Ascii.nat_of_ascii a)) <$> String.list_ascii_of_string s.
Definition to_string (l : list Z) : string :=
  String.string_of_list_ascii ((λ b, Ascii.ascii_of_nat (Z.to_nat b)) <$> l).

Definition between (a b c : Z) : bool := (a <=? c) && (c <=? b).
(** A byte inside a multi-byte character. *)
Definition cont (b : Z) : bool := between 0x80 0xBF b.

(** [String::from_utf8] accepts exactly these. *)
Fixpoint utf8_valid (l : list Z) : bool :=
  match l with
  | [] => true
  | a :: l1 =>
      if a <? 0x80 then utf8_valid l1
      else match l1 with
      | [] => false
      | b :: l2 =>
          if between 0xC2 0xDF a then cont b && utf8_valid l2
          else match l2 with
          | [] => false
          | c :: l3 =>
              if a =? 0xE0 then between 0xA0 0xBF b && cont c && utf8_valid l3
              else if between 0xE1 0xEC a || between 0xEE 0xEF a then cont b && cont c && utf8_valid l3
              else if a =? 0xED then between 0x80 0x9F b && cont c && utf8_valid l3
              else match l3 with
              | [] => false
              | d :: l4 =>
                  if a =? 0xF0 then between 0x90 0xBF b && cont c && cont d && utf8_valid l4
                  else if between 0xF1 0xF3 a then cont b && cont c && cont d && utf8_valid l4
                  else if a =? 0xF4 then between 0x80 0x8F b && cont c && cont d && utf8_valid l4
                  else false
              end
          end
      end
  end.

(** [char::is_whitespace], on the one, two or three bytes of the character. *)
Definition ws1 (a : Z) : bool := between 0x09 0x0D a || (a =? 0x20).
Definition ws2 (a b : Z) : bool := (a =? 0xC2) && ((b =? 0x85) || (b =? 0xA0)).
Definition ws3 (a b c : Z) : bool :=
  ((a =? 0xE1) && (b =? 0x9A) && (c =? 0x80)) ||
  ((a =? 0xE2) && (b =? 0x80) && (between 0x80 0x8A c || (c =? 0xA8) || (c =? 0xA9) || (c =? 0xAF))) ||
  ((a =? 0xE2) && (b =? 0x81) && (c =? 0x9F)) ||
  ((a =? 0xE3) && (b =? 0x80) && (c =? 0x80)).

Fixpoint trim_rev (l : list Z) : list Z :=
  match l with
  | [] => []
  | a :: l1 =>
      if ws1 a then trim_rev l1
      else match l1 with
      | [] => l
      | b :: l2 =>
          if ws2 b a then trim_rev l2
          else match l2 with
          | [] => l
          | c :: l3 => if ws3 c b a then trim_rev l3 else l
          end
      end
  end.
Definition trim_end (l : list Z) : list Z := reverse (trim_rev (reverse l)).

(** What is before and after the first space. *)
Fixpoint split_space (l : list Z) : list Z * option (list Z) :=
  match l with
  | [] => ([], None)
  | a :: l => if a =? 0x20 then ([], Some l) else let '(h, t) := split_space l in (a :: h, t)
  end.

(** [splitn(3, ' ')]: the first part, and the next two if there are. *)
Definition splitn3 (l : list Z) : list Z * option (list Z) * option (list Z) :=
  let '(op, rest) := split_space l in
  match rest with
  | None => (op, None, None)
  | Some rest => let '(topic, payload) := split_space rest in (op, Some topic, payload)
  end.

(** * Hexadecimal strings *)

Definition hex_value (a : Z) : option Z :=
  if between 48 57 a then Some (a - 48)
  else if between 97 102 a then Some (a - 87)
  else if between 65 70 a then Some (a - 55)
  else None.

(** [u8::from_str_radix(_, 16)] on two bytes: a plus sign may come first. *)
Definition from_str_radix16 (a b : Z) : option Z :=
  if a =? 43 then hex_value b
  else match hex_value a, hex_value b with
       | Some x, Some y => Some (x * 16 + y)
       | _, _ => None
       end.

(** The loop over pairs of bytes. A slice that cuts a character panics. *)
Fixpoint hex_loop {S} (l : list Z) : M S (list Z) :=
  match l with
  | [] => ret []
  | a :: l =>
      match l with
      | [] => panic
      | b :: rest =>
          if cont a || match rest with c :: _ => cont c | [] => false end then panic
          else
            match from_str_radix16 a b with
            | None => bail ("invalid hex byte '" +:+ to_string [a; b] +:+ "': invalid digit found in string")
            | Some byte => let! bytes := hex_loop rest in ret (byte :: bytes)
            end
      end
  end.

Definition strip_0x (s : list Z) : option (list Z) :=
  match s with
  | 48 :: 120 :: rest => Some rest
  | 48 :: 88 :: rest => Some rest
  | _ => None
  end.

Definition parse_hexstring {S} (s : list Z) : M S (list Z) :=
  match strip_0x s with
  | None => bail "hexstring must start with 0x or 0X"
  | Some hex_part => hex_loop (if Z.odd (len hex_part) then 48 :: hex_part else hex_part)
  end.

Definition hex_digit (d : Z) : Z := if d <? 10 then 48 + d else 87 + d.

Definition encode_hexstring (bytes : list Z) : list Z :=
  str "0x" ++ bytes ≫= λ b, [hex_digit (b / 16); hex_digit (b mod 16)].

(** * Commands *)

Section client.
Context {E : Type} `{Engine E} `{Bincode MetadataCmd, Bincode ClusterState}
        `{Bincode InternalOp} `{Bincode InternalResp}.
(** [serde_json::to_string] of a topic's state, and the metrics printer. *)
Variable json_state : TopicState → string.
Variable metrics_json : Z → Cluster E → string.
Variable hops : nat.

Definition require {A} (msg : string) (o : option A) : M (Cluster E) A :=
  match o with Some a => ret a | None => bail msg end.

Definition handle_command (i : Z) (line : list Z) : M (Cluster E) (list Z) :=
  let '(op, topic, payload) := splitn3 line in
  if bool_decide (op = str "REGISTER") then
    let! topic := require "REGISTER requires a topic" topic in
    ensure_topic hops i (to_string topic);;
    ret (str "OK")
  else if bool_decide (op = str "PUT") then
    let! topic := require "PUT requires a topic" topic in
    let! payload := require "PUT requires a payload" payload in
    match strip_0x payload with
    | None => bail "payload must be hexstring format (start with 0x or 0X)"
    | Some _ =>
        let! bytes := parse_hexstring payload in
        append_for_topic hops i (to_string topic) bytes;;
        ret (str "OK")
    end
  else if bool_decide (op = str "GET") then
    let! topic := require "GET requires a topic" topic in
    let! r := read_one_for_topic_shared hops i (to_string topic) in
    match r with
    | Some bytes => ret (str "OK " ++ encode_hexstring bytes)
    | None => ret (str "EMPTY")
    end
  else if bool_decide (op = str "STATE") then
    let! topic := require "STATE requires a topic" topic in
    let! state := topic_snapshot i (to_string topic) in
    ret (str (json_state state))
  else if bool_decide (op = str "METRICS") then
    let! c := getS in ret (str (metrics_json i c))
  else bail "unknown command".

(** * Frames *)

Definition le_u32 (n : Z) : list Z := [n mod 256; n / 256 mod 256; n / 65536 mod 256; n / 16777216 mod 256].
Definition from_le (a b c d : Z) : Z := a + 256 * b + 65536 * c + 16777216 * d.

(** [send_response]: the frame that goes out. *)
Definition send_response (message : list Z) : list Z := le_u32 (len message mod 2 ^ 32) ++ message.

(** The response to the text of one frame. *)
Definition handle_text (i : Z) (buf : list Z) : M (Cluster E) (list Z) :=
  if utf8_valid buf then
    let! r := catch (handle_command i (trim_end buf)) in
    match r with inl msg => ret msg | inr e => ret (str ("ERR " +:+ e)) end
  else ret (str "ERR invalid utf-8").

(** The loop: the input is what the peer sends before it closes. The result is what is
    sent back, and whether the connection ends with an error. A frame that is too long is
    answered, and its bytes stay in the stream. *)
Fixpoint connection_loop (fuel : nat) (i : Z) (input sent : list Z) : M (Cluster E) (list Z * bool) :=
  match fuel with
  | O => hang
  | S fuel =>
      match input with
      | a :: b :: c :: d :: rest =>
          let frame_len := from_le a b c d in
          if (frame_len =? 0) || (frame_len >? MAX_FRAME_LEN) then
            connection_loop fuel i rest (sent ++ send_response (str "ERR invalid frame length"))
          else if len rest <? frame_len then ret (sent, true)
          else
            let! response := handle_text i (take (Z.to_nat frame_len) rest) in
            connection_loop fuel i (drop (Z.to_nat frame_len) rest) (sent ++ send_response response)
      | _ => ret (sent, false)
      end
  end.

(** Every turn takes at least four bytes. *)
Definition handle_connection (i : Z) (input : list Z) : M (Cluster E) (list Z * bool) :=
  connection_loop (S (length input)) i input [].
End client.

(** * Hexadecimal text is faithful *)

Lemma hex_value_digit d : 0 ≤ d < 16 → hex_value (hex_digit d) = Some d.
Proof.
  intros Hd. rewrite /hex_digit /hex_value /between. destruct (Z.ltb_spec d 10).
  - rewrite (proj2 (Z.leb_le 48 _)); [lia|]. rewrite (proj2 (Z.leb_le _ 57)); [lia|]. cbn. f_equal. lia.
  - rewrite (proj2 (Z.leb_gt (87 + d) 57)); [lia|]. rewrite andb_false_r.
    rewrite (proj2 (Z.leb_le 97 _)); [lia|]. rewrite (proj2 (Z.leb_le _ 102)); [lia|]. cbn. f_equal. lia.
Qed.

Lemma hex_value_range c d : hex_value c = Some d → 0 ≤ d < 16.
Proof.
  rewrite /hex_value /between. destruct (Z.leb_spec 48 c), (Z.leb_spec c 57), (Z.leb_spec 97 c), (Z.leb_spec c 102),
    (Z.leb_spec 65 c), (Z.leb_spec c 70); cbn; intros [= <-]; lia.
Qed.

Lemma hex_digit_range d : 0 ≤ d < 16 → 48 ≤ hex_digit d < 0x80.
Proof. intros. rewrite /hex_digit. case_match; lia. Qed.

Lemma cont_ascii a : a < 0x80 → cont a = false.
Proof. intros. rewrite /cont /between. destruct (Z.leb_spec 0x80 a); [lia|done]. Qed.

Definition hex_pairs (bytes : list Z) : list Z := bytes ≫= λ b, [hex_digit (b / 16); hex_digit (b mod 16)].

Lemma hex_pairs_cons b bytes :
  hex_pairs (b :: bytes) = hex_digit (b / 16) :: hex_digit (b mod 16) :: hex_pairs bytes.
Proof. done. Qed.

Lemma byte_nibbles b : is_byte b → 0 ≤ b / 16 < 16 ∧ 0 ≤ b mod 16 < 16 ∧ b / 16 * 16 + b mod 16 = b.
Proof. rewrite /is_byte. intros. pose proof (Z.div_mod b 16). pose proof (Z.mod_pos_bound b 16). lia. Qed.

Lemma from_str_radix16_pair b : is_byte b → from_str_radix16 (hex_digit (b / 16)) (hex_digit (b mod 16)) = Some b.
Proof.
  intros (H1 & H2 & H3)%byte_nibbles. rewrite /from_str_radix16.
  pose proof (hex_digit_range _ H1). destruct (Z.eqb_spec (hex_digit (b / 16)) 43); [lia|].
  rewrite !hex_value_digit //. by rewrite H3.
Qed.

(** The loop over the pairs of some bytes, with more text behind them. *)
Lemma hex_loop_pairs {S} bytes rest (s : S) :
  Forall is_byte bytes → match rest with c :: _ => cont c = false | [] => True end →
  hex_loop (hex_pairs bytes ++ rest) s = (let! bs := hex_loop rest in ret (bytes ++ bs)) s.
Proof.
  intros Hb Hr. induction Hb as [|b bytes Hb Hbs IH].
  { rewrite /bind /=. by destruct (hex_loop rest s) as [[] ?]. }
  destruct (byte_nibbles b Hb) as (H1 & H2 & _).
  pose proof (hex_digit_range _ H1). pose proof (hex_digit_range _ H2).
  rewrite hex_pairs_cons. cbn [hex_loop app]. rewrite from_str_radix16_pair // (cont_ascii (hex_digit (b / 16))); [lia|].
  assert (match hex_pairs bytes ++ rest with c :: _ => cont c | [] => false end = false) as ->.
  { destruct bytes as [|b' bytes]; [by destruct rest|]. rewrite hex_pairs_cons. apply Forall_cons in Hbs as [Hb' _].
    destruct (byte_nibbles b' Hb') as (H3 & _). pose proof (hex_digit_range _ H3). apply cont_ascii. lia. }
  cbn [orb]. rewrite /bind IH /bind. by destruct (hex_loop rest s) as [[] ?].
Qed.

Lemma len_hex_pairs bytes : len (hex_pairs bytes) = 2 * len bytes.
Proof. induction bytes as [|b bytes IH]; [done|]. rewrite hex_pairs_cons !len_cons IH. lia. Qed.

Lemma parse_encode {S} bytes (s : S) : Forall is_byte bytes → parse_hexstring (encode_hexstring bytes) s = (Ok bytes, s).
Proof.
  intros Hb. rewrite /parse_hexstring. change (encode_hexstring bytes) with (48 :: 120 :: hex_pairs bytes).
  cbn [strip_0x]. rewrite len_hex_pairs Z.odd_mul /= -(app_nil_r (hex_pairs bytes)) hex_loop_pairs //.
  by rewrite /bind /= app_nil_r.
Qed.

(** every payload survives the text protocol: the hexadecimal string a node prints for some
    bytes is parsed back to the same bytes. *)
Theorem hexstring_roundtrip {S} bytes (s : S) :
  Forall is_byte bytes → parse_hexstring (encode_hexstring bytes) s = (Ok bytes, s).
Proof. apply parse_encode. Qed.

(** the parser cuts the string every two bytes. When a cut falls inside a character (after any
    number of good pairs, an ASCII byte and then a character of two bytes) the slice panics
    instead of reporting an invalid digit, so the task of the connection dies without an
    answer. *)
Theorem hexstring_panics {S} bytes a b c rest (s : S) :
  Forall is_byte bytes → a < 0x80 → cont c = true → Z.odd (len rest) = true →
  parse_hexstring (str "0x" ++ hex_pairs bytes ++ a :: b :: c :: rest) s = (Panic, s).
Proof.
  intros Hb Ha Hc Hl. rewrite /parse_hexstring. change (str "0x" ++ hex_pairs bytes ++ a :: b :: c :: rest)
    with (48 :: 120 :: hex_pairs bytes ++ a :: b :: c :: rest). cbn [strip_0x].
  rewrite len_app len_hex_pairs !len_cons.
  replace (2 * len bytes + (1 + (1 + (1 + len rest)))) with (len rest + 1 + 2 * (len bytes + 1)) by lia.
  rewrite Z.odd_add Z.odd_mul Z.odd_add Hl /=.
  rewrite hex_loop_pairs //; [by apply cont_ascii|]. rewrite {1}/bind. cbn [hex_loop]. by rewrite Hc orb_true_r.
Qed.

(** * Framing *)

Section frames.
Context {E : Type} `{Engine E} `{Bincode MetadataCmd, Bincode ClusterState}
        `{Bincode InternalOp} `{Bincode InternalResp}.
Variable json_state : TopicState → string.
Variable metrics_json : Z → Cluster E → string.
Variable hops : nat.
#[local] Abbreviation handle_text := (handle_text json_state metrics_json hops).
#[local] Abbreviation connection_loop := (connection_loop json_state metrics_json hops).
#[local] Abbreviation handle_connection := (handle_connection json_state metrics_json hops).
#[local] Abbreviation handle_command := (handle_command json_state metrics_json hops).

Definition frame (msg : list Z) : list Z := le_u32 (len msg) ++ msg.

(** The answers to a list of messages, one after the other. *)
Fixpoint answers (i : Z) (msgs : list (list Z)) (sent : list Z) : M (Cluster E) (list Z * bool) :=
  match msgs with
  | [] => ret (sent, false)
  | m :: msgs => let! r := handle_text i m in answers i msgs (sent ++ send_response r)
  end.

Lemma from_le_le_u32 n :
  0 ≤ n < 2 ^ 32 → from_le (n mod 256) (n / 256 mod 256) (n / 65536 mod 256) (n / 16777216 mod 256) = n.
Proof.
  intros Hn. rewrite /from_le. change 65536 with (256 * 256). change 16777216 with (256 * 256 * 256).
  rewrite -!Z.div_div //. set a := n / 256. set b := a / 256. set d := b / 256.
  assert (d < 256) by (rewrite /d /b /a; repeat (apply Z.div_lt_upper_bound; [lia|]); lia).
  assert (0 ≤ d) by (repeat apply Z.div_pos; lia).
  rewrite (Z.mod_small d 256) //.
  pose proof (Z.div_mod n 256 ltac:(lia)) as E1. pose proof (Z.div_mod a 256 ltac:(lia)) as E2.
  pose proof (Z.div_mod b 256 ltac:(lia)) as E3. rewrite -/a in E1. rewrite -/b in E2. rewrite -/d in E3. lia.
Qed.

Lemma loop_frame fuel i msg rest sent c :
  0 < len msg ≤ MAX_FRAME_LEN →
  connection_loop (S fuel) i (frame msg ++ rest) sent c =
    (let! r := handle_text i msg in connection_loop fuel i rest (sent ++ send_response r)) c.
Proof.
  intros Hl. rewrite /frame -app_assoc. cbn [Client.connection_loop le_u32 app].
  rewrite from_le_le_u32; [rewrite /MAX_FRAME_LEN in Hl; lia|].
  destruct (Z.eqb_spec (len msg) 0); [lia|]. rewrite Z.gtb_ltb. destruct (Z.ltb_spec MAX_FRAME_LEN (len msg)); [lia|].
  cbn [orb]. rewrite len_app. destruct (Z.ltb_spec (len msg + len rest) (len msg)); [pose proof (len_nonneg rest); lia|].
  rewrite take_app_length' ?drop_app_length' //; rewrite /len; lia.
Qed.

(** a connection that carries any number of messages of a length the server accepts is
    answered message by message and in order, each message from its own text, and ends
    cleanly when the peer closes it. *)
Theorem frames_in_order i msgs c :
  Forall (λ m, 0 < len m ≤ MAX_FRAME_LEN) msgs →
  handle_connection i (concat (frame <$> msgs)) c = answers i msgs [] c.
Proof.
  intros Hm. rewrite /Client.handle_connection. generalize (@nil Z) as sent.
  assert (length msgs ≤ length (concat (frame <$> msgs)))%nat as Hf.
  { clear Hm c. induction msgs as [|m msgs IH]; [done|]. change (frame <$> m :: msgs) with (frame m :: (frame <$> msgs)).
    cbn [concat length]. rewrite length_app {1}/frame length_app. change (length (le_u32 (len m))) with 4%nat. lia. }
  revert Hf. generalize (length (concat (frame <$> msgs))) as fuel. revert c.
  induction Hm as [|m msgs Hm Hms IH]; intros c fuel Hf sent; [done|]. change (frame <$> m :: msgs) with (frame m :: (frame <$> msgs)).
  cbn [concat answers length] in *. rewrite loop_frame // /bind. destruct (handle_text i m c) as [[r| | |] c1]; try done.
  destruct fuel as [|fuel]; [lia|]. apply IH. lia.
Qed.

(** What was sent before stays in front of what is sent later. *)
Lemma loop_sent fuel i input s1 s2 c :
  connection_loop fuel i input (s1 ++ s2) c =
    (let! r := connection_loop fuel i input s2 in ret (s1 ++ r.1, r.2)) c.
Proof.
  revert input s2 c. induction fuel as [|fuel IH]; intros input s2 c; [done|].
  destruct input as [|a [|b [|x [|y rest]]]]; try done.
  cbn [Client.connection_loop]. destruct ((_ =? 0) || _); [rewrite -app_assoc; apply IH|].
  destruct (len rest <? _); [done|]. rewrite /bind.
  destruct (handle_text i _ c) as [[r| | |] c1]; try done. rewrite -app_assoc. apply IH.
Qed.

(** A turn for every byte is enough. *)
Lemma loop_fuel f1 f2 i input sent c :
  (length input < f1)%nat → (length input < f2)%nat →
  connection_loop f1 i input sent c = connection_loop f2 i input sent c.
Proof.
  revert f2 input sent c. induction f1 as [|f1 IH]; intros [|f2] input sent c Hf1 Hf2; try lia.
  destruct input as [|a [|b [|x [|y rest]]]]; try done. cbn [length] in Hf1, Hf2.
  cbn [Client.connection_loop]. destruct ((_ =? 0) || _); [apply IH; lia|].
  destruct (len rest <? _); [done|]. rewrite /bind. destruct (handle_text i _ c) as [[r| | |] c1]; try done.
  apply IH; rewrite length_drop; lia.
Qed.

(** the bytes of a frame that is too long are not skipped: after the error the server takes
    the frame's own text for the next frames, as if it had just been sent on a new
    connection. *)
Theorem oversized_frame_desyncs i msg rest c :
  MAX_FRAME_LEN < len msg < 2 ^ 32 →
  handle_connection i (frame msg ++ rest) c =
    (let! r := handle_connection i (msg ++ rest) in
     ret (send_response (str "ERR invalid frame length") ++ r.1, r.2)) c.
Proof.
  intros Hl. rewrite /Client.handle_connection -loop_sent app_nil_r /frame -app_assoc.
  generalize (S (length (msg ++ rest))), (Nat.lt_succ_diag_r (length (msg ++ rest))). intros f Hf.
  cbn [Client.connection_loop le_u32 app]. rewrite from_le_le_u32; [rewrite /MAX_FRAME_LEN in Hl; lia|].
  rewrite Z.gtb_ltb. destruct (Z.ltb_spec MAX_FRAME_LEN (len msg)); [|lia]. rewrite orb_true_r.
  apply loop_fuel; [cbn [length]; lia|done].
Qed.

(** ** The text of PUT and GET *)

Lemma split_space_app w rest : Forall (λ b, b ≠ 0x20) w → split_space (w ++ 0x20 :: rest) = (w, Some rest).
Proof.
  induction 1 as [|b w Hb _ IH]; [done|]. cbn. rewrite IH. by destruct (Z.eqb_spec b 32).
Qed.
Lemma split_space_end w : Forall (λ b, b ≠ 0x20) w → split_space w = (w, None).
Proof. induction 1 as [|b w Hb _ IH]; [done|]. cbn. rewrite IH. by destruct (Z.eqb_spec b 32). Qed.

Lemma words_ok : Forall (λ b, b ≠ 0x20) (str "PUT") ∧ Forall (λ b, b ≠ 0x20) (str "GET").
Proof. split; repeat constructor; done. Qed.

(** a PUT with the hexadecimal text of some bytes appends exactly these bytes to the topic,
    and a GET answers with the hexadecimal text of the entry it reads. *)
Theorem put_get_text i topic bytes c :
  Forall (λ b, b ≠ 0x20) topic → Forall is_byte bytes →
  handle_command i (str "PUT" ++ 0x20 :: topic ++ 0x20 :: encode_hexstring bytes) c =
    (append_for_topic hops i (to_string topic) bytes;; ret (str "OK")) c ∧
  handle_command i (str "GET" ++ 0x20 :: topic) c =
    (let! r := read_one_for_topic_shared hops i (to_string topic) in
     match r with
     | Some bytes => ret (str "OK " ++ encode_hexstring bytes)
     | None => ret (str "EMPTY")
     end) c.
Proof.
  intros Ht Hb. destruct words_ok as [Hp Hg]. rewrite /Client.handle_command /splitn3 !split_space_app //.
  rewrite split_space_end //. split; [|done].
  rewrite bool_decide_eq_false_2; [by vm_compute|]. rewrite bool_decide_eq_true_2 //.
  rewrite {1}/bind /require /ret {1}/bind. change (strip_0x (encode_hexstring bytes)) with (Some (hex_pairs bytes)).
  by rewrite {1}/bind parse_encode.
Qed.
End frames.
