(* ===== verification/RaftMachine.v ===== *)
(** State machines under Raft: [MemStateMachine] of [src/octopii/src/openraft/storage.rs], and the
    machines of [src/octopii/src/state_machine.rs].

    [MemStateMachine] applies committed entries to an application machine, the interface
    [StateMachineTrait], and builds and installs snapshots. Its own map [data] is what snapshots
    carry. *)

From stdpp Require Import relations.
From S2P Require Import Prelude Config Writer Batch BatchReadOk BatchReadInv Metadata OctopiiWal LogStore Client.

#[local] Open Scope Z_scope.

(** * Application machines *)

(** [apply] answers bytes or an error text, [restore] an error text or nothing. *)
Class StateMachineTrait (S : Type) := {
  sm_apply : list Z → S → (list Z + string) * S;
  sm_snapshot : S → list Z;
  sm_restore : list Z → S → option string * S;
}.

(** ** The key-value machine *)

Definition bytes := list Z.
Definition KvMap := gmap bytes bytes.

(** [str::split_whitespace]; [word] is the current word, reversed. *)
Fixpoint words (word : bytes) (l : bytes) : list bytes :=
  let close := match word with [] => [] | _ => [reverse word] end in
  match l with
  | [] => close
  | a :: l1 =>
      if ws1 a then close ++ words [] l1
      else match l1 with
      | b :: l2 =>
          if ws2 a b then close ++ words [] l2
          else match l2 with
          | c :: l3 => if ws3 a b c then close ++ words [] l3 else words (a :: word) l1
          | [] => words (a :: word) l1
          end
      | [] => words (a :: word) l1
      end
  end.
Definition split_whitespace (l : bytes) : list bytes := words [] l.

Definition kv_apply (command : bytes) (m : KvMap) : (bytes + string) * KvMap :=
  if negb (utf8_valid command) then (inr "invalid utf-8 sequence", m)
  else
    let tokens := split_whitespace command in
    let op := default [] (head tokens) in
    if decide (op = str "SET") then
      match tokens with
      | _ :: key :: val :: _ => (inl (str "OK"), <[key := val]> m)
      | _ :: _ :: _ => (inr "SET missing value", m)
      | _ => (inr "SET missing key", m)
      end
    else if decide (op = str "GET") then
      match tokens with
      | _ :: key :: _ => (inl (default (str "NOT_FOUND") (m !! key)), m)
      | _ => (inr "GET missing key", m)
      end
    else if decide (op = str "DELETE") then
      match tokens with
      | _ :: key :: _ => (inl (str "OK"), delete key m)
      | _ => (inr "DELETE missing key", m)
      end
    else (inr "unknown op", m).

#[global] Instance kv_machine `{Bincode KvMap} : StateMachineTrait KvMap := {
  sm_apply := kv_apply;
  sm_snapshot m := serialize m;
  sm_restore bs m := match deserialize bs with
                     | None => (Some "bincode", m)
                     | Some m' => (None, m')
                     end;
}.

(** The replicated metadata of the cluster is such a machine. *)
#[global] Instance metadata_machine `{Bincode MetadataCmd} `{Bincode ClusterState} : StateMachineTrait ClusterState := {
  sm_apply c st := let '(r, st') := apply c st in
                   (match r with inl s => inl (str s) | inr e => inr e end, st');
  sm_snapshot := snapshot;
  sm_restore := restore;
}.

(** ** A machine with a write-ahead log *)

Section wal_backed.
Context {S E : Type} `{StateMachineTrait S} `{WalTopic E}.

Record WalBackedStateMachine := MkWalBacked {
  wb_inner : S;
  wb_wal : WriteAheadLog E;
}.

Definition replay_commands (entries : list bytes) (s : S) : S := foldl (λ s c, (sm_apply c s).2) s entries.

(** [with_inner]: the commands of the log are replayed, their answers and errors are dropped. *)
Definition with_inner (fuel : nat) (inner : S) (wal : WriteAheadLog E) : outcome unit * WalBackedStateMachine :=
  match attempt (read_all fuel) wal with
  | (Ok (Some entries), wal') => (Ok tt, MkWalBacked (replay_commands entries inner) wal')
  | (Ok None, wal') => (Ok tt, MkWalBacked inner wal')
  | (Err e, wal') => (Err e, MkWalBacked inner wal')
  | (Panic, wal') => (Panic, MkWalBacked inner wal')
  | (Hang, wal') => (Hang, MkWalBacked inner wal')
  end.

Definition append_entry (command : bytes) : M WalBackedStateMachine unit :=
  zoom wb_wal (λ w m, MkWalBacked (wb_inner m) w) (map_err "WAL error: " (wal_append command));; ret tt.

Definition wb_apply (command : bytes) : M WalBackedStateMachine (bytes + string) :=
  let! r := attempt (append_entry command) in
  match r with
  | None => ret (inr "WAL error")
  | Some _ => λ m, let '(r, s) := sm_apply command (wb_inner m) in (Ok r, MkWalBacked s (wb_wal m))
  end.
End wal_backed.
Arguments WalBackedStateMachine : clear implicits.

(** * The Raft state machine *)

Section mem_machine.
Context {Mem S : Type} (mem_default : Mem) `{StateMachineTrait S} `{Bincode (gmap string string)}.

Record StoredMembership := MkStoredMembership { sm_log_id : option LogId; sm_membership : Mem }.

Record SnapshotMeta := MkMeta {
  last_log_id : option LogId;
  meta_membership : StoredMembership;
  snapshot_id : string;
}.

Record StoredSnapshot := MkSnapshot { snap_meta : SnapshotMeta; snap_data : bytes }.

Record StateMachineData := MkData {
  last_applied_log : option LogId;
  last_membership : StoredMembership;
  data : gmap string string;
}.

(** [responses]: what was sent to the responders so far, by responder. *)
Record MemStateMachine := MkMachine {
  sm : S;
  state_machine : StateMachineData;
  snapshot_idx : Z;
  current_snapshot : option StoredSnapshot;
  responses : list (nat * bytes);
}.

Definition new_machine (s : S) : MemStateMachine :=
  MkMachine s (MkData None (MkStoredMembership None mem_default) ∅) 0 None [].

Definition set_sm (s : S) (m : MemStateMachine) : MemStateMachine :=
  MkMachine s (state_machine m) (snapshot_idx m) (current_snapshot m) (responses m).
Definition set_data (d : StateMachineData) (m : MemStateMachine) : MemStateMachine :=
  MkMachine (sm m) d (snapshot_idx m) (current_snapshot m) (responses m).
Definition set_snapshot (idx : Z) (s : option StoredSnapshot) (m : MemStateMachine) : MemStateMachine :=
  MkMachine (sm m) (state_machine m) idx s (responses m).
Definition send_response (responder : option nat) (response : bytes) (m : MemStateMachine) : MemStateMachine :=
  match responder with
  | None => m
  | Some r => MkMachine (sm m) (state_machine m) (snapshot_idx m) (current_snapshot m) (responses m ++ [(r, response)])
  end.

(** ** Snapshots *)

Definition make_snapshot_id (last : option LogId) (idx : Z) : string :=
  match last with
  | Some id => pretty (Z.to_N (node_id (leader_id id))) +:+ "-" +:+ pretty (Z.to_N (index id)) +:+ "-" +:+ pretty (Z.to_N idx)
  | None => "--" +:+ pretty (Z.to_N idx)
  end.

Definition build_snapshot : M MemStateMachine (SnapshotMeta * bytes) :=
  let! m := getS in
  let bs := serialize (data (state_machine m)) in
  let idx := wrap64 (snapshot_idx m + 1) in
  let last := last_applied_log (state_machine m) in
  let meta := MkMeta last (last_membership (state_machine m)) (make_snapshot_id last idx) in
  modify (set_snapshot idx (Some (MkSnapshot meta bs)));;
  ret (meta, bs).

Definition get_current_snapshot : M MemStateMachine (option (SnapshotMeta * bytes)) :=
  let! m := getS in
  ret ((λ s, (snap_meta s, snap_data s)) <$> current_snapshot m).

Definition install_snapshot (meta : SnapshotMeta) (snapshot : bytes) : M MemStateMachine unit :=
  match deserialize snapshot with
  | None => fail KInvalidData "snapshot"
  | Some d =>
      modify (set_data (MkData (last_log_id meta) (meta_membership meta) d));;
      let! m := getS in
      let '(e, s) := sm_restore (serialize d) (sm m) in
      modify (set_sm s);;
      match e with
      | Some msg => fail KOther msg
      | None => modify (λ m, set_snapshot (snapshot_idx m) (Some (MkSnapshot meta snapshot)) m)
      end
  end.

(** ** Applying entries *)

Definition applied_state : M MemStateMachine (option LogId * StoredMembership) :=
  let! m := getS in ret (last_applied_log (state_machine m), last_membership (state_machine m)).

Definition begin_receiving_snapshot : M MemStateMachine bytes := ret [].

(** An item of the stream: an entry with its responder, or an error of the reader. *)
Definition apply_item : Type := (Entry Mem * option nat) + io_error.

(** The entry becomes the last applied one before it is applied. *)
Definition apply_entry (entry : Entry Mem) (responder : option nat) : M MemStateMachine unit :=
  modify (λ m, set_data (MkData (Some (log_id entry)) (last_membership (state_machine m)) (data (state_machine m))) m);;
  let! response :=
    match payload entry with
    | Blank => ret []
    | Normal command =>
        let! m := getS in
        let '(r, s) := sm_apply command (sm m) in
        modify (set_sm s);;
        match r with inl bs => ret bs | inr msg => fail KOther msg end
    | Membership mem =>
        modify (λ m, set_data (MkData (last_applied_log (state_machine m)) (MkStoredMembership (Some (log_id entry)) mem)
                                 (data (state_machine m))) m);;
        ret []
    end in
  modify (send_response responder response).

Fixpoint machine_apply (items : list apply_item) : M MemStateMachine unit :=
  match items with
  | [] => ret tt
  | inr e :: _ => λ m, (Err e, m)
  | inl (entry, responder) :: items => apply_entry entry responder;; machine_apply items
  end.
End mem_machine.
Arguments StoredMembership : clear implicits.
Arguments SnapshotMeta : clear implicits.
Arguments StoredSnapshot : clear implicits.
Arguments MemStateMachine : clear implicits.
Arguments apply_item : clear implicits.

(** * A group of machines that exchange snapshots *)

Section group.
Context {Mem S : Type} (mem_default : Mem) `{StateMachineTrait S} `{BincodeLaws (gmap string string)}.

Abbreviation machine := (MemStateMachine Mem S).

(** The nodes, and the snapshots they have made. *)
Record group := MkGroup {
  g_nodes : gmap nat machine;
  g_snaps : list (SnapshotMeta Mem * bytes);
}.

Inductive group_step (G : group) : group → Prop :=
  | gs_start n s :
      g_nodes G !! n = None →
      group_step G (MkGroup (<[n := new_machine mem_default s]> (g_nodes G)) (g_snaps G))
  | gs_apply n m items o m' :
      g_nodes G !! n = Some m → machine_apply items m = (o, m') →
      group_step G (MkGroup (<[n := m']> (g_nodes G)) (g_snaps G))
  | gs_build n m snap m' :
      g_nodes G !! n = Some m → build_snapshot m = (Ok snap, m') →
      group_step G (MkGroup (<[n := m']> (g_nodes G)) (snap :: g_snaps G))
  | gs_current n m snap m' :
      g_nodes G !! n = Some m → get_current_snapshot m = (Ok (Some snap), m') →
      group_step G (MkGroup (<[n := m']> (g_nodes G)) (snap :: g_snaps G))
  | gs_install n m meta bs o m' :
      g_nodes G !! n = Some m → (meta, bs) ∈ g_snaps G → install_snapshot meta bs m = (o, m') →
      group_step G (MkGroup (<[n := m']> (g_nodes G)) (g_snaps G)).

Definition empty_group : group := MkGroup ∅ [].

(** The bytes of an empty map. *)
Definition no_data : bytes := serialize (∅ : gmap string string).

Record machine_empty (m : machine) : Prop := {
  me_data : data (state_machine m) = ∅;
  me_snapshot s : current_snapshot m = Some s → snap_data s = no_data;
}.

Lemma apply_entry_data (e : Entry Mem) r (m : machine) o m' :
  apply_entry e r m = (o, m') → data (state_machine m') = data (state_machine m) ∧ current_snapshot m' = current_snapshot m.
Proof.
  rewrite /apply_entry /bind /modify /getS /ret /fail. destruct (payload e) as [|c|mem]; cbn.
  - intros [= _ <-]. by destruct r.
  - destruct (sm_apply c (sm m)) as [[bs|msg] s]; intros [= _ <-]; by destruct r.
  - intros [= _ <-]. by destruct r.
Qed.

Lemma machine_apply_data (items : list (apply_item Mem)) : ∀ (m : machine) o m',
  machine_apply items m = (o, m') → data (state_machine m') = data (state_machine m) ∧ current_snapshot m' = current_snapshot m.
Proof.
  induction items as [|[[e r]|err] items IH]; intros m o m'; cbn [machine_apply]; [by intros [= _ <-]| |by intros [= _ <-]].
  rewrite /bind. destruct (apply_entry e r m) as [o1 m1] eqn:E1. apply apply_entry_data in E1 as [Ed Es].
  destruct o1; [|by intros [= _ <-]..]. intros [Ed' Es']%IH. split; congruence.
Qed.

Lemma install_no_data meta (m : machine) o m' :
  machine_empty m → install_snapshot meta no_data m = (o, m') → machine_empty m'.
Proof.
  intros [Hd Hs]. rewrite /install_snapshot /no_data bincode_roundtrip /bind /modify /getS /fail /=.
  destruct (sm_restore _ (sm m)) as [[msg|] s]; intros [= _ <-]; split; cbn; try done. by intros ? [= <-].
Qed.

Definition group_empty (G : group) : Prop :=
  map_Forall (λ _, machine_empty) (g_nodes G) ∧ Forall (λ sn, sn.2 = no_data) (g_snaps G).

Lemma group_step_empty G G' : group_step G G' → group_empty G → group_empty G'.
Proof.
  intros Hst [Hn Hs]. rewrite /group_empty. destruct Hst as [n s _|n m items o m' Hm Ha|n m snap m' Hm Hb|n m snap m' Hm Hc|n m meta bs o m' Hm Hin Hi];
    cbn [g_nodes g_snaps]; try (pose proof (map_Forall_lookup_1 _ _ _ _ Hn Hm) as He).
  - split; [|done]. apply map_Forall_insert_2; [by split|done].
  - split; [|done]. apply map_Forall_insert_2; [|done]. apply machine_apply_data in Ha as [Ed Es]. destruct He. split; [congruence|by rewrite Es].
  - rewrite /build_snapshot /bind /getS /modify /ret in Hb. injection Hb as <- <-. destruct He as [Ed _].
    split; [|by constructor; [rewrite /= Ed|]]. apply map_Forall_insert_2; [|done]. split; cbn; [done|]. intros s [= <-]. by rewrite /= Ed.
  - rewrite /get_current_snapshot /bind /getS /ret in Hc. destruct (current_snapshot m) as [s|] eqn:Es; [|done].
    injection Hc as <- <-. split; [by apply map_Forall_insert_2|]. constructor; [|done]. by apply (me_snapshot _ He).
  - split; [|done]. apply map_Forall_insert_2; [|done]. rewrite Forall_forall in Hs. specialize (Hs _ Hin). cbn in Hs. subst bs. by eapply install_no_data.
Qed.

Lemma group_reach_empty G : rtc group_step empty_group G → group_empty G.
Proof.
  intros Hr. assert (group_empty empty_group) as He by (split; [apply map_Forall_empty|constructor]).
  induction Hr as [|G1 G2 G3 Hst _ IH]; [done|]. by apply IH, (group_step_empty G1).
Qed.

(** C40: a snapshot never carries application state. However a group of nodes starts, applies
    entries, builds, sends and installs snapshots, and whatever the application is, every
    snapshot they make is the encoding of an empty map. *)
Theorem snapshots_carry_nothing G :
  rtc group_step empty_group G →
  Forall (λ sn, sn.2 = no_data) (g_snaps G) ∧ map_Forall (λ _ m, data (state_machine m) = ∅) (g_nodes G).
Proof.
  intros [Hn Hs]%group_reach_empty. split; [done|]. eapply map_Forall_impl; [done|]. by intros n m [].
Qed.

(** What installing one of them does. *)
Lemma install_made G n meta bs f :
  rtc group_step empty_group G → (meta, bs) ∈ g_snaps G → g_nodes G !! n = Some f →
  ∃ f', install_snapshot meta bs f =
      (match (sm_restore no_data (sm f)).1 with None => Ok tt | Some msg => Err (IoError KOther msg) end, f') ∧
    sm f' = (sm_restore no_data (sm f)).2 ∧ last_applied_log (state_machine f') = last_log_id meta.
Proof.
  intros [_ Hs]%group_reach_empty Hin _. rewrite Forall_forall in Hs. specialize (Hs _ Hin). cbn in Hs. subst bs.
  rewrite /install_snapshot {1}/no_data bincode_roundtrip -/no_data /bind /modify /getS /fail /=.
  destruct (sm_restore no_data (sm f)) as [[msg|] s]; cbn; by eexists.
Qed.

(** one failing command stops the machine. When the application rejects a committed command,
    [apply] fails, the entry counts as applied, and none of the entries after it in the batch
    is applied or answered. *)
Theorem failed_command_stops_apply before (e : Entry Mem) r after (c : bytes) msg (m m1 : machine) s :
  machine_apply before m = (Ok tt, m1) → payload e = Normal c → sm_apply c (sm m1) = (inr msg, s) →
  ∃ m2, machine_apply (before ++ inl (e, r) :: after) m = (Err (IoError KOther msg), m2) ∧
    last_applied_log (state_machine m2) = Some (log_id e) ∧ sm m2 = s ∧ responses m2 = responses m1.
Proof.
  intros Hb Hp Ha. revert m Hb. induction before as [|[[e0 r0]|err] before IH]; intros m Hb; cbn [machine_apply app] in *.
  - injection Hb as <-. rewrite {1}/bind /apply_entry /bind /modify Hp /getS /fail /= Ha. by eexists.
  - rewrite /bind in Hb |- *. destruct (apply_entry e0 r0 m) as [[] m0]; try done. by apply IH.
  - done.
Qed.
End group.

(** * What installing a snapshot does to the two applications *)

(** Maps are encoded as their size and their pairs, so empty maps have the same bytes. *)
Class EmptyMapBytes `{Bincode (gmap string string)} `{Bincode KvMap} : Prop := {
  empty_map_bytes : serialize (∅ : gmap string string) = serialize (∅ : KvMap);
}.

(** The record of the cluster state is longer than an empty map. *)
Class EmptyMapShort `{Bincode (gmap string string)} `{Bincode ClusterState} : Prop := {
  empty_map_short : deserialize (serialize (∅ : gmap string string)) = (None : option ClusterState);
}.

Section applications.
Context {Mem : Type} (mem_default : Mem) `{BincodeLaws (gmap string string)}.

(** installing a snapshot empties the key-value machine. A follower that receives any snapshot
    made in the group reports success and the leader's position, and holds no key at all. *)
Theorem kv_snapshot_loses_keys `{BincodeLaws KvMap} `{!EmptyMapBytes} G n meta bs f :
  rtc (group_step (S := KvMap) mem_default) empty_group G → (meta, bs) ∈ g_snaps G → g_nodes G !! n = Some f →
  ∃ f', install_snapshot meta bs f = (Ok tt, f') ∧ sm f' = ∅ ∧ last_applied_log (state_machine f') = last_log_id meta.
Proof.
  intros Hr Hin Hf. destruct (install_made mem_default G n meta bs f Hr Hin Hf) as (f' & E & Es & El).
  assert (deserialize no_data = Some (∅ : KvMap)) as Ed by by rewrite /no_data empty_map_bytes bincode_roundtrip.
  cbn in E, Es. rewrite Ed in E Es. by exists f'.
Qed.

(** a node of the cluster cannot install a snapshot. With the cluster metadata as the
    application, installing fails after the applied position was moved to the snapshot's, so
    the node keeps its old metadata and counts the missing entries as applied. *)
Theorem metadata_snapshot_fails `{Bincode MetadataCmd} `{Bincode ClusterState} `{!EmptyMapShort} G n meta bs f :
  rtc (group_step (S := ClusterState) mem_default) empty_group G → (meta, bs) ∈ g_snaps G → g_nodes G !! n = Some f →
  ∃ f', install_snapshot meta bs f = (Err (IoError KOther "snapshot decode"), f') ∧ sm f' = sm f ∧
    last_applied_log (state_machine f') = last_log_id meta.
Proof.
  intros Hr Hin Hf. destruct (install_made mem_default G n meta bs f Hr Hin Hf) as (f' & E & Es & El).
  assert (deserialize no_data = (None : option ClusterState)) as Ed by apply empty_map_short.
  cbn in E, Es. rewrite /restore Ed in E Es. by exists f'.
Qed.
End applications.

(** * Replay of a machine with a log *)

Section replays.
Context {S E : Type} `{StateMachineTrait S} `{WalTopicLaws E}.

Fixpoint wb_run (cs : list bytes) : M (WalBackedStateMachine S E) (list (bytes + string)) :=
  match cs with
  | [] => ret []
  | c :: cs => let! r := wb_apply c in let! rs := wb_run cs in ret (r :: rs)
  end.

Lemma wb_apply_ok n c (m : WalBackedStateMachine S E) q :
  0 ≤ n → wt_accepts c → wt_holds (n + 1) (walrus (wb_wal m)) q →
  ∃ w, wb_apply c m = (Ok (sm_apply c (wb_inner m)).1, MkWalBacked (sm_apply c (wb_inner m)).2 w) ∧ wt_holds n (walrus w) (q ++ [c]).
Proof.
  intros Hn Ha Hh. destruct (wal_append_ok n (wb_wal m) q c Hn Ha Hh) as (w & Ew & Hw). exists w. split; [|done].
  rewrite /wb_apply /append_entry /attempt /bind /zoom /map_err Ew /ret /=. by destruct (sm_apply c (wb_inner m)).
Qed.

Lemma wb_run_ok cs : ∀ n (m : WalBackedStateMachine S E) q,
  0 ≤ n → Forall wt_accepts cs → wt_holds (n + len cs) (walrus (wb_wal m)) q →
  ∃ rs w, wb_run cs m = (Ok rs, MkWalBacked (replay_commands cs (wb_inner m)) w) ∧ wt_holds n (walrus w) (q ++ cs).
Proof.
  induction cs as [|c cs IH]; intros n m q Hn Hf Hh.
  - exists [], (wb_wal m). rewrite app_nil_r. rewrite len_nil Z.add_0_r in Hh. by destruct m.
  - apply Forall_cons in Hf as [Hc Hf]. rewrite len_cons in Hh. pose proof (len_nonneg cs).
    destruct (wb_apply_ok (n + len cs) c m q) as (w1 & E1 & Hh1); [lia|done|by replace (n + len cs + 1) with (n + (1 + len cs)) by lia|].
    destruct (IH n (MkWalBacked (sm_apply c (wb_inner m)).2 w1) _ Hn Hf Hh1) as (rs & w2 & E2 & Hh2).
    eexists _, w2. rewrite -app_assoc in Hh2. split; [|done]. cbn [wb_run]. by rewrite {1}/bind E1 /bind E2.
Qed.

(** A machine opened on the log of another one, from the same initial state, is in the same state,
    commands that failed included. *)
Theorem wal_machine_replays e s0 cs fuel :
  wt_holds (len cs) e [] → Forall wt_accepts cs → Forall (λ c, c ≠ []) cs →
  batch_covers true READ_ALL_BYTES cs → (length cs + 3 ≤ fuel)%nat →
  ∃ rs m w, wb_run cs (MkWalBacked s0 (new_wal e)) = (Ok rs, m) ∧
    with_inner fuel s0 (wb_wal m) = (Ok tt, MkWalBacked (wb_inner m) w).
Proof.
  intros Hh Hf Hne Hc Hl. destruct (wb_run_ok cs 0 (MkWalBacked s0 (new_wal e)) [] ltac:(lia) Hf Hh) as (rs & w & Hrun & Hw).
  destruct (read_loop_all_ok cs fuel [] 0 w Hw Hc Hl) as (w' & Er & _).
  eexists rs, _, w'. split; [done|]. cbn [wb_wal wb_inner]. rewrite /with_inner /attempt /read_all Er /=.
  by rewrite nonempty_all.
Qed.
End replays.
