(* ===== verification/OctopiiRestart.v ===== *)
(** Restarting a node of octopii: [get_initial_state] of the consensus library on octopii's log store, recovered
    from its write-ahead log, and on its state machine, which is built empty at every start
    ([src/octopii/src/openraft/storage.rs], [src/octopii/src/openraft/node.rs]). *)

From stdpp Require Import strings.
From S2P Require Import Prelude Config Writer Batch BatchReadOk BatchReadInv Metadata OctopiiWal LogStore LogStoreOk RaftMachine RaftQuorum RaftMembership RaftLogIds RaftProgress RaftState RaftEngine RaftCore RaftCoreOk RaftStartup RaftStartupOk.

#[local] Open Scope Z_scope.

(** * octopii's state machine under the consensus library *)

Definition to_stored (m : RaftMachine.StoredMembership Membership) : StoredMembership := MkStored (sm_log_id m) (sm_membership m).
Definition of_stored (m : StoredMembership) : RaftMachine.StoredMembership Membership := MkStoredMembership (stored_log_id m) (stored_m m).
Definition to_meta (m : RaftMachine.SnapshotMeta Membership) : SnapshotMeta :=
  MkSnapshotMeta (RaftMachine.last_log_id m) (to_stored (meta_membership m)) (RaftMachine.snapshot_id m).
Definition of_meta (m : SnapshotMeta) : RaftMachine.SnapshotMeta Membership :=
  MkMeta (meta_last_log_id m) (of_stored (last_membership m)) (snapshot_id m).
Definition to_snapshot (p : RaftMachine.SnapshotMeta Membership * list Z) : Snapshot := MkSnapshot (to_meta p.1) p.2.

Section machine.
Context {A : Type} `{StateMachineTrait A} `{BincodeLaws (gmap string string)}.
Abbreviation machine := (MemStateMachine Membership A).

#[export] Instance octopii_machine : RaftStateMachine machine := {
  applied_state := let! (a, m) := RaftMachine.applied_state in ret (a, to_stored m);
  sm_apply_entries es := machine_apply (map (λ e, inl (e, None)) es);
  sm_install_snapshot snap := install_snapshot (of_meta (snap_meta snap)) (snap_data snap);
  get_current_snapshot := let! o := RaftMachine.get_current_snapshot in ret (to_snapshot <$> o);
  sm_build_snapshot := let! p := build_snapshot in ret (to_snapshot p)
}.

(** The application: what a command makes of it, and whether it is accepted. *)
Definition app_step (s : A) (e : MEntry) : A := match payload e with Normal c => (sm_apply c s).2 | _ => s end.
Definition app_accepts (s : A) (e : MEntry) : Prop :=
  match payload e with Normal c => ∃ r, (sm_apply c s).1 = inl r | _ => True end.
Definition app_unpack (snap : Snapshot) (s : A) : A :=
  match deserialize (snap_data snap) with Some d => (sm_restore (serialize (d : gmap string string)) s).2 | None => s end.

Record machine_at (m : machine) (v : sm_view A) (o : option Snapshot) : Prop := {
  ma_data : sm m = v_data v;
  ma_applied : last_applied_log (RaftMachine.state_machine m) = v_applied v;
  ma_mem : to_stored (RaftMachine.last_membership (RaftMachine.state_machine m)) = v_mem v;
  ma_snapshot : (λ s, to_snapshot (RaftMachine.snap_meta s, RaftMachine.snap_data s)) <$> current_snapshot m = o;
  ma_restores snap : o = Some snap → ∃ d : gmap string string, deserialize (snap_data snap) = Some d ∧ ∀ s, (sm_restore (serialize d) s).1 = None
}.

Definition entry_step (v : sm_view A) (e : MEntry) : sm_view A :=
  MkView (app_step (v_data v) e) (Some (log_id e)) (default (v_mem v) (stored_of e)).

Lemma apply_entry_at e (m : machine) v o :
  machine_at m v o → app_accepts (v_data v) e → ∃ m', apply_entry e None m = (Ok tt, m') ∧ machine_at m' (entry_step v e) o.
Proof.
  intros [Hd Ha Hm Hs Hr] Hacc. unfold app_accepts in Hacc. rewrite /entry_step /app_step /stored_of /RaftState.get_membership.
  rewrite /apply_entry /bind /modify /getS /ret. destruct (payload e) as [|c|mem]; cbn [payload].
  - eexists. split; [reflexivity|]. by split.
  - destruct Hacc as [r Hr']. simpl. rewrite Hd. destruct (sm_apply c (v_data v)) as [res s'] eqn:E. simpl in Hr'. subst res.
    eexists. split; [reflexivity|]. by split.
  - eexists. split; [reflexivity|]. by split.
Qed.

(** The application accepts the commands of the entries, one after the other. *)
Fixpoint app_accepted (s : A) (es : list MEntry) : Prop :=
  match es with [] => True | e :: es => app_accepts s e ∧ app_accepted (app_step s e) es end.

Lemma app_accepted_app es1 : ∀ s es2, app_accepted s (es1 ++ es2) ↔ app_accepted s es1 ∧ app_accepted (foldl app_step s es1) es2.
Proof. induction es1 as [|e es1 IH]; intros s es2; simpl; [tauto|]. rewrite IH. tauto. Qed.

Lemma entries_data es : ∀ v, v_data (foldl entry_step v es) = foldl app_step (v_data v) es.
Proof. induction es as [|e es IH]; intros v; [done|]. simpl. by rewrite IH. Qed.

Lemma machine_apply_at es : ∀ (m : machine) v o,
  machine_at m v o → app_accepted (v_data v) es →
  ∃ m', machine_apply (map (λ e, inl (e, None)) es) m = (Ok tt, m') ∧ machine_at m' (foldl entry_step v es) o.
Proof.
  induction es as [|e es IH]; intros m v o Hs Hacc; [by exists m|]. destruct Hacc as [He Hacc].
  destruct (apply_entry_at e m v o Hs He) as (s1 & Hrun & Hs1). destruct (IH s1 _ _ Hs1 Hacc) as (s2 & Hrun2 & Hs2).
  exists s2. split; [|done]. simpl. unfold bind. by rewrite Hrun.
Qed.

Lemma install_at (m : machine) v snap :
  machine_at m v (Some snap) →
  ∃ m', install_snapshot (of_meta (snap_meta snap)) (snap_data snap) m = (Ok tt, m') ∧
    machine_at m' (MkView (app_unpack snap (v_data v)) (meta_last_log_id (snap_meta snap)) (last_membership (snap_meta snap))) (Some snap).
Proof.
  intros [Hd Ha Hm Hs Hr]. destruct (Hr snap eq_refl) as (d & Hde & Hres). unfold install_snapshot, app_unpack. rewrite Hde.
  rewrite /bind /modify /getS /ret /=. rewrite -Hd. specialize (Hres (sm m)). destruct (sm_restore (serialize d) (sm m)) as [r s']. simpl in Hres. subst r.
  eexists. split; [reflexivity|]. destruct snap as [[li [? ?] ?] data]. split; try done.
Qed.

#[export] Program Instance octopii_machine_laws : RaftStateMachineLaws machine := {
  sm_data := A; sm_step := app_step; sm_accepts := app_accepts; sm_unpack := app_unpack; sm_at := machine_at
}.
Next Obligation. intros s v o [Hd Ha Hm _ _]. unfold applied_state, octopii_machine, RaftMachine.applied_state, bind, getS, ret. by rewrite Ha Hm. Qed.
Next Obligation.
  intros s v o [_ _ _ Hs _]. unfold get_current_snapshot, octopii_machine, RaftMachine.get_current_snapshot, bind, getS, ret.
  rewrite -Hs. by destruct (current_snapshot s).
Qed.
Next Obligation.
  intros s v o es Hs Hacc. by apply machine_apply_at.
Qed.
Next Obligation. intros s v snap Hs. by apply install_at. Qed.
Next Obligation.
  intros s v [Hd Ha Hm _ _]. unfold sm_build_snapshot, octopii_machine, build_snapshot, applied_state, RaftMachine.applied_state, bind, modify, getS, ret.
  eexists _, _. split; [reflexivity|]. simpl. by rewrite Ha Hm.
Qed.

(** A machine as [MemStateMachine::new] makes it. *)
Lemma new_machine_at (s : A) : machine_at (new_machine default_membership s) (MkView s None default_stored) None.
Proof. by split. Qed.
End machine.

(** * Restarting *)

Section restart.
Context {A E : Type} `{StateMachineTrait A} `{BincodeLaws (gmap string string)}.
Context `{WalTopicLaws E} `{BincodeLaws (WalLogRecord Membership)} `{!BincodeTagged (WalLogRecord Membership)}.
Abbreviation machine := (MemStateMachine Membership A).
Abbreviation store := (WalLogStore Membership E).

(** [OpenRaftNode::start]: the log store is recovered from the write-ahead log, the state machine is new. *)
Definition start_node (fuel : nat) (now : Z) (w : WriteAheadLog E) (app : A) : outcome RaftState * StorageHelper store machine :=
  match WalLogStore_new fuel w with
  | (Ok _, st) => get_initial_state now (MkHelper st (new_machine default_membership app))
  | (Err e, st) => (Err e, MkHelper st (new_machine default_membership app))
  | (Panic, st) => (Panic, MkHelper st (new_machine default_membership app))
  | (Hang, st) => (Hang, MkHelper st (new_machine default_membership app))
  end.

(** What is committed of a log that was never purged. *)
Definition committed_part (l : mlog) : list MEntry := take (Z.to_nat (next_index (rl_committed l))) (rl_entries l).

Lemma between_committed l : rl_purged l = None → entries_between l 0 (next_index (rl_committed l)) = committed_part l.
Proof. intros Hp. unfold entries_between, entries_from, committed_part, rl_first. rewrite Hp. simpl. by rewrite Z.sub_0_r drop_0. Qed.

(** The store a sequence of operations leaves is read back from its write-ahead log. *)
Lemma store_reopened e os fuel :
  wt_holds (len (all_records os)) e [] → log_ops_ok os empty_log → Forall (λ r, wt_accepts (serialize r)) (all_records os) →
  batch_covers true READ_ALL_BYTES (serialize <$> all_records os) → (length (all_records os) + 3 ≤ fuel)%nat →
  ∃ s st, run_wal_ops os (MkStore default_inner (new_wal e)) = (Ok (spec_log_ops os empty_log).1, s) ∧
    WalLogStore_new fuel (st_wal s) = (Ok tt, st) ∧ rep (st_inner st) (spec_log_ops os empty_log).2.
Proof.
  intros Hh Hok Hf Hc Hl. destruct (run_wal_ops_ok os 0 _ _ _ (store_fresh _ _ Hh) Hok) as (s & Hrun & [Hr Hw Hp]); [lia|done|].
  destruct (WalLogStore_new_ok _ _ _ fuel Hw Hc Hl) as (w & Hn & _). eexists s, _. split; [done|]. split; [exact Hn|]. simpl. simpl in Hp. by rewrite Hp.
Qed.

(** C10: a node of octopii that starts again for the first time has lost nothing. Its write-ahead log was empty at first
    and one batch read covers it (4096 records, 10 MiB). Whatever appends, truncations, votes and
    committed ids its log store went through, as long as nothing was purged and the application accepts the committed
    commands, starting again from the write-ahead log succeeds (a second time it does not, as reading consumes
    the log: [LogStoreOk.wal_recovery_consumes]): the vote and the log ids are the ones saved, the
    application has run every committed command once and in order from its initial state, the
    applied position is the committed id, and the effective membership is the last one in the log. *)
Theorem octopii_node_restarts e os fuel now (app : A) :
  wt_holds (len (all_records os)) e [] → log_ops_ok os empty_log → Forall (λ r, wt_accepts (serialize r)) (all_records os) →
  batch_covers true READ_ALL_BYTES (serialize <$> all_records os) → (length (all_records os) + 3 ≤ fuel)%nat →
  let l := (spec_log_ops os empty_log).2 in
  rl_purged l = None → leaders_ordered (map log_id (rl_entries l)) → (∀ c, rl_committed l = Some c → c ∈ map log_id (rl_entries l)) →
  app_accepted app (committed_part l) →
  ∃ s st state m, run_wal_ops os (MkStore default_inner (new_wal e)) = (Ok (spec_log_ops os empty_log).1, s) ∧
    start_node fuel now (st_wal s) app = (Ok state, MkHelper st m) ∧
    vote_ref state = default default_vote (rl_vote l) ∧ log_ids state = keys (map log_id (rl_entries l)) ∧
    committed state = rl_committed l ∧ last_applied_log (RaftMachine.state_machine m) = rl_committed l ∧
    sm m = foldl app_step app (committed_part l) ∧
    ms_effective (membership_state state) = new_from_stored_membership (membership_after default_stored (rl_entries l)).
Proof.
  intros Hh Hok Hf Hc Hl l Hp Hord Hcom Hacc. destruct (store_reopened e os fuel Hh Hok Hf Hc Hl) as (s & st & Hrun & Hnew & Hrep). fold l in Hrep.
  assert (ids_of l = map log_id (rl_entries l)) as Hids by (unfold ids_of; by rewrite Hp).
  pose proof (get_initial_state_restores (LS := store) (SM := machine) now st (new_machine default_membership app) l) as Hmain.
  destruct (Hmain (MkView app None default_stored) None)
    as (state & m1 & m2 & Hst & Hv & Hk & _ & _ & Hm1 & Hm2 & Hco & Hef).
  { exact Hrep. } { unfold rl_first. by rewrite Hp. } { by rewrite Hids. } { exact (new_machine_at app). } { exact Hp. } { by rewrite Hids. }
  { simpl. by rewrite between_committed. }
  assert (m2 = m1) as -> by (destruct Hm2 as [?|[Hsome _]]; [done|rewrite Hp in Hsome; by destruct Hsome]).
  assert (v_applied (caught_up l (MkView app None default_stored)) = rl_committed l) as Hap.
  { unfold caught_up. rewrite replay_applied. simpl. destruct (rl_committed l) as [y|] eqn:Hy.
    - destruct (between_ids (LS := store) st l None y) as (_ & x & Hx & <-); [done|by rewrite Hids|done|rewrite Hids; by apply Hcom|done|].
      simpl in Hx. by rewrite Hx.
    - unfold entries_between. by rewrite Z.sub_diag. }
  exists s, st, state, m1. split; [done|]. unfold start_node. rewrite Hnew. split; [exact Hst|]. simpl in Hm1, Hco, Hef. rewrite Hids in Hk.
  destruct Hm1 as [Hd Ha _ _ _]. rewrite Hap in Ha Hco. split_and!; [done..| |].
  - rewrite Hd -(between_committed l Hp). exact (entries_data (entries_between l 0 (next_index (rl_committed l))) (MkView app None default_stored)).
  - rewrite Hef. do 2 f_equal. unfold entries_from, rl_first. by rewrite Hp.
Qed.

(** ** When it fails *)

(** Up to the replay of what is committed, starting on a new machine only reads. *)
Lemma start_replays st l now (app : A) c err h' :
  rep (st_inner st) l → rl_committed l = Some c →
  let h : StorageHelper store machine := MkHelper st (new_machine default_membership app) in
  (if 0 <? rl_first l then fail KOther "Cannot re-apply logs"
   else reapply_committed (Z.to_nat (next_index (Some c) - 0)) 0 (next_index (Some c))) h = (Err err, h') →
  get_initial_state now h = (Err err, h').
Proof.
  intros Hr Hc h Hm. pose proof (Hr : lr_holds st l) as Hh.
  assert (sm_at (SM := machine) (new_machine default_membership app) (MkView app None default_stored) None) as Hs by exact (new_machine_at app).
  unfold get_initial_state.
  rewrite (bind_ok _ _ _ _ _ (on_log_read _ h _ (lr_vote st l Hh))) (bind_ok _ _ _ _ _ (on_log_read _ h _ (lr_committed st l Hh))).
  rewrite (bind_ok _ _ _ _ _ (on_log_read _ h _ (lr_state st l Hh))) (bind_ok _ _ _ _ _ (on_sm_read _ h _ (sm_applied_ok _ _ _ Hs))).
  assert (restore_from_snapshot h = (Ok tt, h)) as Hrestore by reflexivity.
  rewrite (bind_ok _ _ _ _ _ Hrestore) (bind_ok _ _ _ _ _ (on_sm_read _ h _ (sm_applied_ok _ _ _ Hs))).
  rewrite Hc. cbn [v_applied]. change (opt_log_id_lt (Some c) None) with false. cbn iota.
  change (opt_log_id_lt None (Some c)) with true. cbn iota. change (next_index (rl_purged l)) with (rl_first l).
  change (next_index None) with 0. unfold bind at 1. destruct (0 <? rl_first l); [by injection Hm as <- <-|]. unfold bind at 1. by rewrite Hm.
Qed.


Lemma reapply_rejects l fuel : ∀ start e (st : store) (m : machine) v o before x after c msg s,
  rep (st_inner st) l → machine_at m v o → rl_first l ≤ start → e ≤ rl_next l → e - start ≤ Z.of_nat fuel →
  entries_between l start e = before ++ x :: after → app_accepted (v_data v) before →
  payload x = Normal c → sm_apply c (foldl app_step (v_data v) before) = (inr msg, s) →
  ∃ h', reapply_committed fuel start e (MkHelper st m) = (Err (IoError KOther msg), h').
Proof.
  induction fuel as [|fuel IH]; intros start e st m v o before x after c msg s Hr Hm Hf He Hfuel Hb Hacc Hx Hrej; cbn [reapply_committed].
  all: destruct (Z.ltb_spec start e) as [Hlt|Hge].
  1: lia.
  1,3: unfold entries_between in Hb; replace (Z.to_nat (e - start)) with 0%nat in Hb by lia; by destruct before.
  pose proof (Hr : lr_holds st l) as Hh. set (mid := Z.min e (start + 64)).
  unfold bind at 1. unfold on_log at 1, zoom. cbn [helper_log]. rewrite (read_between _ l) //; [lia|]. cbn [helper_sm].
  destruct (between_last _ l start mid Hh) as (Hhd & y & Hlast & Hy); [lia..|]. rewrite Hhd Hlast /= Hy. rewrite !bool_decide_true //. simpl.
  unfold bind, on_sm, zoom. cbn [helper_sm helper_log]. rewrite (between_app l start mid e) in Hb; [lia..|].
  apply app_eq_inv in Hb as [(k & Hk1 & Hk2)|(k & Hk1 & Hk2)].
  - destruct k as [|y' k]; simpl in Hk2.
    + rewrite app_nil_r in Hk1. subst before. destruct (machine_apply_at _ m v o Hm Hacc) as (m1 & Ha & Hm1). simpl in Ha. rewrite Ha.
      by apply (IH mid e st m1 _ o [] x after c msg s Hr Hm1); [lia..|done|done|done|rewrite entries_data].
    + injection Hk2 as <- Hk2. rewrite Hk1 map_app. simpl. destruct (machine_apply_at _ m v o Hm Hacc) as (m1 & Ha & Hm1).
      rewrite -entries_data -(ma_data _ _ _ Hm1) in Hrej.
      destruct (failed_command_stops_apply _ x None (map (λ e, inl (e, None)) k) c msg m m1 s Ha Hx Hrej) as (m2 & Hrun & _).
      rewrite Hrun. by eexists.
  - rewrite Hk1 in Hacc, Hrej. apply app_accepted_app in Hacc as [Ha1 Ha2]. destruct (machine_apply_at _ m v o Hm Ha1) as (m1 & Ha & Hm1).
    simpl in Ha. rewrite Ha. eapply IH; [done|exact Hm1|lia..|exact Hk2|by rewrite entries_data|done|].
    rewrite foldl_app in Hrej. rewrite entries_data. exact Hrej.
Qed.

(** a command the application rejects stops its node for good. Once such a command is committed, every
    later start replays the log up to it and fails with the application's error. *)
Theorem rejected_command_blocks_restart e os fuel now (app : A) before x after c msg s' :
  wt_holds (len (all_records os)) e [] → log_ops_ok os empty_log → Forall (λ r, wt_accepts (serialize r)) (all_records os) →
  batch_covers true READ_ALL_BYTES (serialize <$> all_records os) → (length (all_records os) + 3 ≤ fuel)%nat →
  let l := (spec_log_ops os empty_log).2 in
  rl_purged l = None → leaders_ordered (map log_id (rl_entries l)) → (∀ y, rl_committed l = Some y → y ∈ map log_id (rl_entries l)) →
  committed_part l = before ++ x :: after → app_accepted app before →
  payload x = Normal c → sm_apply c (foldl app_step app before) = (inr msg, s') →
  ∃ s h, run_wal_ops os (MkStore default_inner (new_wal e)) = (Ok (spec_log_ops os empty_log).1, s) ∧
    start_node fuel now (st_wal s) app = (Err (IoError KOther msg), h).
Proof.
  intros Hh Hok Hf Hc Hl l Hp Hord Hcom Hpart Hacc Hx Hrej. destruct (store_reopened e os fuel Hh Hok Hf Hc Hl) as (s & st & Hrun & Hnew & Hrep). fold l in Hrep.
  assert (ids_of l = map log_id (rl_entries l)) as Hids by (unfold ids_of; by rewrite Hp).
  destruct (rl_committed l) as [y|] eqn:Hy; [|unfold committed_part in Hpart; rewrite Hy in Hpart; by destruct before].
  pose proof (in_log_next st l (Some y) Hrep) as Hn. simpl in Hn. rewrite Hids in Hn. destruct Hn as [_ Hn]; [by apply Hcom|].
  assert (rl_first l = 0) as Hf0 by (unfold rl_first; by rewrite Hp).
  destruct (reapply_rejects l (Z.to_nat (next_index (Some y) - 0)) 0 (next_index (Some y)) st (new_machine default_membership app)
    (MkView app None default_stored) None before x after c msg s') as [h' Hre]; try done; [lia|simpl; lia| |].
  { rewrite -Hy between_committed //. }
  eexists s, h'. split; [done|]. unfold start_node. rewrite Hnew. apply (start_replays st l now app y); [done..|]. by rewrite Hf0.
Qed.
End restart.
