(* ===== verification/OctopiiRpc.v ===== *)
(** Remote calls between octopii nodes: [src/octopii/src/rpc/message.rs], [src/octopii/src/rpc/handler.rs] and the
    connections of [src/octopii/src/transport/mod.rs].

    A call gets a number, waits in a map under that number, and is sent on the connection to its peer; the loop that
    reads the connection finds the waiting call by the number of a response. A group of nodes is a step
    relation: what was sent on a connection may be read never, late or more than once. The theorems say what a call
    returns: the answer of the node it was sent to, to that very call, at most once; and which connection nobody reads. *)

From stdpp Require Import relations.
From S2P Require Import Prelude Metadata.

#[local] Open Scope Z_scope.

(** * Messages *)

Definition SocketAddr : Type := string * Z.
Definition port (a : SocketAddr) : Z := a.2.

Inductive RequestPayload :=
  | RaftMessage (message : list Z)
  | OpenRaft (kind : string) (data : list Z)
  | Custom (operation : string) (data : list Z).

Record RpcRequest := MkRequest { req_id : Z; req_payload : RequestPayload }.

Inductive ResponsePayload :=
  | AppendEntriesResp (term : Z) (success : bool)
  | RequestVoteResp (term : Z) (vote_granted : bool)
  | SnapshotResp (term : Z) (success : bool)
  | OpenRaftResp (kind : string) (data : list Z)
  | CustomResponse (success : bool) (data : list Z)
  | ErrorResp (message : string).

Record RpcResponse := MkResponse { resp_id : Z; resp_payload : ResponsePayload }.

Inductive OneWayMessage :=
  | Heartbeat (node_id timestamp : Z)
  | CustomOneWay (operation : string) (data : list Z).

Inductive RpcMessage :=
  | Request (r : RpcRequest)
  | Response (r : RpcResponse)
  | OneWay (m : OneWayMessage).

Definition new_request (id : Z) (payload : RequestPayload) : RpcMessage := Request (MkRequest id payload).
Definition new_response (id : Z) (payload : ResponsePayload) : RpcMessage := Response (MkResponse id payload).
Definition new_one_way (m : OneWayMessage) : RpcMessage := OneWay m.
Definition message_id (m : RpcMessage) : option Z :=
  match m with Request r => Some (req_id r) | Response r => Some (resp_id r) | OneWay _ => None end.

(** * Connections *)

(** [peers] keeps one connection to an address; connections are numbered as they are made. *)
Record QuicTransport := MkTransport {
  peers : gmap SocketAddr nat;
  closed : gset nat;
  connections : nat;
}.

(** What happens when an address is dialled, and when a message is sent. *)
Inductive sending := ConnectFails | SendFails | SendTimesOut | Sent.

Definition connect (addr : SocketAddr) (dial : bool) : M QuicTransport nat :=
  let! t := getS in
  let fresh :=
    if dial then
      modify (λ t, MkTransport (<[addr := connections t]> (peers t)) (closed t) (S (connections t))) ;; ret (connections t)
    else fail KOther "Connection failed" in
  match peers t !! addr with
  | Some c => if decide (c ∉ closed t) then ret c else fresh
  | None => fresh
  end.

(** [accept]: the connection that a peer has opened replaces the one that was kept. *)
Definition accept (addr : SocketAddr) (t : QuicTransport) : nat * QuicTransport :=
  (connections t, MkTransport (<[addr := connections t]> (peers t)) (closed t) (S (connections t))).

Definition has_active_peer (addr : SocketAddr) (t : QuicTransport) : bool :=
  match peers t !! addr with Some c => bool_decide (c ∉ closed t) | None => false end.
Definition invalidate_peer (addr : SocketAddr) (t : QuicTransport) : QuicTransport :=
  MkTransport (delete addr (peers t)) (closed t) (connections t).

(** * The handler *)

(** [pending_requests] by number; [peer_receivers] by address, with the connection its loop reads; and the
    connections that the accept loop of the node ([src/octopii/src/openraft/node.rs]) reads. *)
Record RpcHandler := MkRpc {
  transport : QuicTransport;
  next_id : Z;
  pending_requests : gset Z;
  request_handler : bool;
  peer_receivers : gmap SocketAddr nat;
  accept_loops : gset nat;
}.

Definition new_handler : RpcHandler := MkRpc (MkTransport ∅ ∅ 0) 1 ∅ false ∅ ∅.
Definition set_request_handler (h : RpcHandler) : RpcHandler :=
  MkRpc (transport h) (next_id h) (pending_requests h) true (peer_receivers h) (accept_loops h).

Definition set_transport (t : QuicTransport) (h : RpcHandler) : RpcHandler :=
  MkRpc t (next_id h) (pending_requests h) (request_handler h) (peer_receivers h) (accept_loops h).
Definition set_pending (p : gset Z) (h : RpcHandler) : RpcHandler :=
  MkRpc (transport h) (next_id h) p (request_handler h) (peer_receivers h) (accept_loops h).
Definition set_receivers (r : gmap SocketAddr nat) (h : RpcHandler) : RpcHandler :=
  MkRpc (transport h) (next_id h) (pending_requests h) (request_handler h) r (accept_loops h).
Definition set_accept_loops (l : gset nat) (h : RpcHandler) : RpcHandler :=
  MkRpc (transport h) (next_id h) (pending_requests h) (request_handler h) (peer_receivers h) l.
Definition in_transport {A} (m : M QuicTransport A) : M RpcHandler A := zoom transport set_transport m.

(** A loop that already reads from the address keeps its connection. *)
Definition ensure_peer_receiver (addr : SocketAddr) (c : nat) (h : RpcHandler) : RpcHandler :=
  match peer_receivers h !! addr with Some _ => h | None => set_receivers (<[addr := c]> (peer_receivers h)) h end.
Definition receiver_ends (addr : SocketAddr) (h : RpcHandler) : RpcHandler := set_receivers (delete addr (peer_receivers h)) h.

Definition accepted_peer (addr : SocketAddr) (h : RpcHandler) : RpcHandler :=
  let '(c, t) := accept addr (transport h) in set_accept_loops ({[c]} ∪ accept_loops h) (set_transport t h).
Definition close_connection (c : nat) (h : RpcHandler) : RpcHandler :=
  set_transport (MkTransport (peers (transport h)) ({[c]} ∪ closed (transport h)) (connections (transport h))) h.

(** The loops that read the connection [c], to [addr]. *)
Definition reads (addr : SocketAddr) (c : nat) (h : RpcHandler) : Prop := peer_receivers h !! addr = Some c ∨ c ∈ accept_loops h.

Section handler.
Context `{Bincode RpcMessage}.

(** [request] up to the wait: the number, the connection and the bytes that were sent. *)
Definition request_start (addr : SocketAddr) (payload : RequestPayload) (o : sending) : M RpcHandler (Z * nat * list Z) :=
  let! h := getS in
  let id := next_id h in
  modify (λ h, MkRpc (transport h) (wrap64 (next_id h + 1)) ({[id]} ∪ pending_requests h) (request_handler h) (peer_receivers h) (accept_loops h)) ;;
  let! c := attempt (in_transport (connect addr (match o with ConnectFails => false | _ => true end))) in
  match c with
  | None => modify (λ h, set_pending (pending_requests h ∖ {[id]}) h) ;; fail KOther "Connection failed"
  | Some c =>
      modify (ensure_peer_receiver addr c) ;;
      match o with
      | SendFails => modify (λ h, set_transport (invalidate_peer addr (transport h)) h) ;; fail KOther "Transport send failed"
      | SendTimesOut => modify (λ h, set_transport (invalidate_peer addr (transport h)) h) ;; fail KOther "Request send timeout"
      | _ => ret (id, c, serialize (new_request id payload))
      end
  end.

(** [send_one_way]: no number, no wait; a send that fails leaves the connection. *)
Definition send_one_way (addr : SocketAddr) (m : OneWayMessage) (o : sending) : M RpcHandler (nat * list Z) :=
  let! c := in_transport (connect addr (match o with ConnectFails => false | _ => true end)) in
  modify (ensure_peer_receiver addr c) ;;
  match o with
  | SendFails | SendTimesOut => fail KOther "Failed to send one-way message"
  | _ => ret (c, serialize (new_one_way m))
  end.

(** The end of the wait: [handle_response] finds the call, or its time is over. *)
Definition handle_response (resp : RpcResponse) (h : RpcHandler) : option RpcResponse * RpcHandler :=
  if decide (resp_id resp ∈ pending_requests h) then (Some resp, set_pending (pending_requests h ∖ {[resp_id resp]}) h) else (None, h).
Definition request_timeout (id : Z) (h : RpcHandler) : RpcHandler := set_pending (pending_requests h ∖ {[id]}) h.

(** [handle_request]: what is sent back, given what the callback answers. *)
Definition handle_request (req : RpcRequest) (answer : ResponsePayload) (h : RpcHandler) : ResponsePayload * list Z :=
  let payload := if request_handler h then answer else ErrorResp "No request handler registered" in
  (payload, serialize (new_response (req_id req) payload)).

(** A loop that reads a connection: a message that cannot be decoded is dropped. *)
Definition received (data : list Z) : option RpcMessage := deserialize data.

(** * A group of nodes *)

(** [served]: every run of a callback; [answered]: every response that was handed to the call that waits for it. A
    message whose sending took too long may have been sent; the call has returned an error then. *)
Record Net := MkNet {
  nodes : gmap SocketAddr RpcHandler;
  wire : list (SocketAddr * SocketAddr * nat * list Z);
  calls : list (SocketAddr * SocketAddr * Z * nat * RequestPayload);
  served : list (SocketAddr * RpcRequest * ResponsePayload);
  answered : list (SocketAddr * RpcResponse);
}.

Definition set_node (a : SocketAddr) (h : RpcHandler) (N : Net) : Net := MkNet (<[a := h]> (nodes N)) (wire N) (calls N) (served N) (answered N).
Definition put_call (a b : SocketAddr) (id : Z) (c : nat) (p : RequestPayload) (bs : list Z) (N : Net) : Net :=
  MkNet (nodes N) ((a, b, c, bs) :: wire N) ((a, b, id, c, p) :: calls N) (served N) (answered N).
Definition put_wire (a b : SocketAddr) (c : nat) (bs : list Z) (N : Net) : Net :=
  MkNet (nodes N) ((a, b, c, bs) :: wire N) (calls N) (served N) (answered N).
Definition put_served (b a : SocketAddr) (c : nat) (bs : list Z) (req : RpcRequest) (p : ResponsePayload) (N : Net) : Net :=
  MkNet (nodes N) ((b, a, c, bs) :: wire N) (calls N) ((b, req, p) :: served N) (answered N).
Definition put_answer (a : SocketAddr) (r : RpcResponse) (N : Net) : Net :=
  MkNet (nodes N) (wire N) (calls N) (served N) ((a, r) :: answered N).

(** Numbers are not used up: [next_id] stays below [2^64]. *)
Inductive net_step (N : Net) : Net → Prop :=
  | st_start a : nodes N !! a = None → net_step N (set_node a new_handler N)
  | st_set_handler a h : nodes N !! a = Some h → net_step N (set_node a (set_request_handler h) N)
  | st_request a h b payload o id c bs h' :
      nodes N !! a = Some h → next_id h < U64_MAX → request_start b payload o h = (Ok (id, c, bs), h') →
      net_step N (put_call a b id c payload bs (set_node a h' N))
  | st_request_fails a h b payload o e h' :
      nodes N !! a = Some h → next_id h < U64_MAX → request_start b payload o h = (Err e, h') → net_step N (set_node a h' N)
  | st_request_times_out a h b payload e c h' :
      nodes N !! a = Some h → next_id h < U64_MAX → request_start b payload SendTimesOut h = (Err e, h') →
      (connect b true (transport h)).1 = Ok c →
      net_step N (put_call a b (next_id h) c payload (serialize (new_request (next_id h) payload)) (set_node a h' N))
  | st_one_way a h b m o c bs h' :
      nodes N !! a = Some h → send_one_way b m o h = (Ok (c, bs), h') → net_step N (put_wire a b c bs (set_node a h' N))
  | st_one_way_fails a h b m o e h' :
      nodes N !! a = Some h → send_one_way b m o h = (Err e, h') → net_step N (set_node a h' N)
  | st_serve a b c bs req h answer p out :
      (a, b, c, bs) ∈ wire N → nodes N !! b = Some h → received bs = Some (Request req) → handle_request req answer h = (p, out) →
      net_step N (put_served b a c out req p N)
  | st_response a b c bs resp h h' :
      (b, a, c, bs) ∈ wire N → nodes N !! a = Some h → reads b c h → received bs = Some (Response resp) →
      handle_response resp h = (Some resp, h') → net_step N (put_answer a resp (set_node a h' N))
  | st_timeout a h id : nodes N !! a = Some h → net_step N (set_node a (request_timeout id h) N)
  | st_accept a h b : nodes N !! a = Some h → net_step N (set_node a (accepted_peer b h) N)
  | st_close a h c : nodes N !! a = Some h → net_step N (set_node a (close_connection c h) N)
  | st_receiver_ends a h b : nodes N !! a = Some h → net_step N (set_node a (receiver_ends b h) N)
  | st_accept_ends a h c : nodes N !! a = Some h → net_step N (set_node a (set_accept_loops (accept_loops h ∖ {[c]}) h) N).

Definition empty_net : Net := MkNet ∅ [] [] [] [].
Definition reachable (N : Net) : Prop := rtc net_step empty_net N.
End handler.

Section calls.
Context `{BincodeLaws RpcMessage}.

(** * The start of a call *)

Lemma connect_spec addr dial t o t' :
  connect addr dial t = (o, t') →
  (connections t ≤ connections t')%nat ∧
  (∀ c, o = Ok c → peers t !! addr = Some c ∨ c = connections t ∧ (connections t < connections t')%nat) ∧
  (∀ b c, peers t' !! b = Some c → peers t !! b = Some c ∨ (c < connections t')%nat) ∧ (o = Panic ∨ o = Hang → False).
Proof.
  unfold connect, bind, getS, modify, ret, fail.
  destruct (peers t !! addr) as [c0|] eqn:Hp; [case_decide|]; destruct dial; intros [= <- <-]; cbn; (split; [lia|]);
    (split; [intros c [= <-]; auto; right; lia|]); (split; [|by intros []]); auto; intros b c [[_ <-]|[_ ?]]%lookup_insert_Some; auto; right; lia.
Qed.

(** The number is the next one, it waits unless no connection could be made, and no loop is replaced. *)
Record started (addr : SocketAddr) (h h' : RpcHandler) : Prop := {
  sd_next : next_id h' = wrap64 (next_id h + 1);
  sd_pending : pending_requests h' ⊆ {[next_id h]} ∪ pending_requests h;
  sd_conns : (connections (transport h) ≤ connections (transport h'))%nat;
  sd_receivers b c : peer_receivers h' !! b = Some c → peer_receivers h !! b = Some c ∨
    (peers (transport h) !! addr = Some c ∨ (c < connections (transport h'))%nat) ∧ b = addr;
  sd_peers b c : peers (transport h') !! b = Some c → peers (transport h) !! b = Some c ∨ (c < connections (transport h'))%nat;
  sd_keeps b c : peer_receivers h !! b = Some c → peer_receivers h' !! b = Some c;
  sd_accepts : accept_loops h' = accept_loops h;
}.

Lemma ensure_receiver_spec addr c h :
  transport (ensure_peer_receiver addr c h) = transport h ∧ next_id (ensure_peer_receiver addr c h) = next_id h ∧
  pending_requests (ensure_peer_receiver addr c h) = pending_requests h ∧ accept_loops (ensure_peer_receiver addr c h) = accept_loops h ∧
  (∀ b c', peer_receivers (ensure_peer_receiver addr c h) !! b = Some c' → peer_receivers h !! b = Some c' ∨ (b = addr ∧ c' = c)) ∧
  (∀ b c', peer_receivers h !! b = Some c' → peer_receivers (ensure_peer_receiver addr c h) !! b = Some c').
Proof.
  unfold ensure_peer_receiver. destruct (peer_receivers h !! addr) as [c0|] eqn:E1; [by split_and!; auto|]. split_and!; try done; cbn.
  - intros b c' [[-> ->]|[Hne Hb]]%lookup_insert_Some; auto.
  - intros b c' Hb. rewrite lookup_insert_ne //. by intros ->; congruence.
Qed.

Lemma request_start_spec addr payload o h r h' :
  request_start addr payload o h = (r, h') →
  started addr h h' ∧ (∀ id c bs, r = Ok (id, c, bs) → id = next_id h ∧ bs = serialize (new_request id payload) ∧
    (peers (transport h) !! addr = Some c ∨ c = connections (transport h) ∧ (connections (transport h) < connections (transport h'))%nat)) ∧
  (∀ c, o ≠ ConnectFails → (connect addr true (transport h)).1 = Ok c →
    peers (transport h) !! addr = Some c ∨ c = connections (transport h) ∧ (connections (transport h) < connections (transport h'))%nat).
Proof.
  unfold request_start, bind at 1, getS, bind at 1, modify at 1. set (h1 := MkRpc _ _ _ _ _ _). unfold bind at 1, attempt, in_transport, zoom.
  assert (o = ConnectFails ∨ o ≠ ConnectFails) as Ho by (destruct o; auto).
  destruct (connect addr _ (transport h1)) as [oc t'] eqn:Ec. pose proof (connect_spec _ _ _ _ _ Ec) as (Hle & Hc & Hpe & Hno). cbn in Ec, Hle, Hc, Hpe.
  destruct oc as [c|e| |]; [| |by destruct Hno; auto..].
  - specialize (Hc c eq_refl). pose proof (ensure_receiver_spec addr c (set_transport t' h1)) as (Ht & Hn & Hp & Ha & Hr & Hk).
    unfold bind at 1, modify at 1. set (h2 := ensure_peer_receiver addr c (set_transport t' h1)) in *.
    assert (∀ t, connections t = connections t' → (∀ b c, peers t !! b = Some c → peers t' !! b = Some c) → started addr h (set_transport t h2)) as Hst.
    { intros t Et Ep. split; cbn; rewrite ?Hn ?Hp ?Et //; [|by intros b c' ?%Ep%Hpe].
      intros b c' [?|[-> ->]]%Hr; [by left|]. right. split; [|done]. destruct Hc as [?|[-> ?]]; [by left|right; lia]. }
    assert (started addr h h2) as Hst2.
    { specialize (Hst (transport h2) ltac:(by rewrite Ht) ltac:(by rewrite Ht)). by destruct h2. }
    assert (o ≠ ConnectFails → (connect addr true (transport h)) = (Ok c, t')) as Ec' by (by destruct o).
    assert (∀ t, connections t = connections t' → ∀ c0, o ≠ ConnectFails → (connect addr true (transport h)).1 = Ok c0 →
      peers (transport h) !! addr = Some c0 ∨ c0 = connections (transport h) ∧ (connections (transport h) < connections t)%nat) as Hconn.
    { intros t Et c0 Hne. rewrite Ec' //. intros [= <-]. by rewrite Et. }
    destruct o; unfold bind, modify, fail, ret; intros [= <- <-];
      (split; [first [exact Hst2|apply Hst; cbn; rewrite Ht; [done|by intros b' c' [_ ?]%lookup_delete_Some]]|]);
      (split; [|apply Hconn; cbn; by rewrite Ht]); try done; intros id c' bs [= <- <- <-]; (split_and!; [done|done|]); by rewrite Ht.
  - unfold bind, modify, fail. intros [= <- <-]. split; [|split; [done|]].
    + split; cbn; [done|set_solver|done|auto|done|done|done].
    + intros c0 Hne. replace (connect addr true (transport h)) with (@Err nat e, t'); [done|]. by destruct o.
Qed.

(** * The invariant *)

Definition conn_ok (h : RpcHandler) : Prop :=
  (∀ b c, peer_receivers h !! b = Some c → (c < connections (transport h))%nat) ∧
  (∀ b c, peers (transport h) !! b = Some c → (c < connections (transport h))%nat).

Record net_ok (N : Net) : Prop := {
  no_next a h : nodes N !! a = Some h → 1 ≤ next_id h ≤ U64_MAX;
  no_conns a h : nodes N !! a = Some h → conn_ok h;
  no_calls a b id c p : (a, b, id, c, p) ∈ calls N → ∃ h, nodes N !! a = Some h ∧ id < next_id h ∧ (c < connections (transport h))%nat;
  no_unique a b id c p b' c' p' : (a, b, id, c, p) ∈ calls N → (a, b', id, c', p') ∈ calls N → b' = b ∧ c' = c ∧ p' = p;
  no_wire a b c bs : (a, b, c, bs) ∈ wire N →
    (∃ id p, bs = serialize (new_request id p) ∧ (a, b, id, c, p) ∈ calls N) ∨
    (∃ req p, bs = serialize (new_response (req_id req) p) ∧ (a, req, p) ∈ served N ∧ (b, a, req_id req, c, req_payload req) ∈ calls N) ∨
    (∃ m, bs = serialize (new_one_way m));
  no_answered a r : (a, r) ∈ answered N →
    (∃ b c p, (a, b, resp_id r, c, p) ∈ calls N ∧ (b, MkRequest (resp_id r) p, resp_payload r) ∈ served N) ∧
    ∃ h, nodes N !! a = Some h ∧ resp_id r ∉ pending_requests h;
  no_pending a h id : nodes N !! a = Some h → id ∈ pending_requests h → id < next_id h;
  no_once : NoDup ((λ x, (x.1, resp_id x.2)) <$> answered N);
}.

(** A handler that moves on. *)
Record moves (h h' : RpcHandler) : Prop := {
  mv_next : next_id h ≤ next_id h' ≤ U64_MAX;
  mv_conns : (connections (transport h) ≤ connections (transport h'))%nat;
  mv_ok : conn_ok h → conn_ok h';
  mv_pending id : id ∈ pending_requests h' → id ∈ pending_requests h ∨ next_id h ≤ id < next_id h';
  mv_accepts c : (c < connections (transport h))%nat → c ∈ accept_loops h' → c ∈ accept_loops h;
}.

Lemma net_ok_node N a h h' : net_ok N → nodes N !! a = Some h → moves h h' → net_ok (set_node a h' N).
Proof.
  intros [Hn Hk Hc Hu Hw Ha Hpe Ho] Hh [Mn Mc Mk Mp _]. pose proof (Hn a h Hh).
  assert (∀ a0 h0, nodes (set_node a h' N) !! a0 = Some h0 → a0 = a ∧ h0 = h' ∨ nodes N !! a0 = Some h0) as Hcase.
  { cbn. intros a0 h0 [[-> ->]|[_ ?]]%lookup_insert_Some; auto. }
  split; try done.
  - intros a0 h0 [[-> ->]|?]%Hcase; [lia|by eapply Hn].
  - intros a0 h0 [[-> ->]|?]%Hcase; [by apply Mk, (Hk a)|by eapply Hk].
  - intros a0 b id c p (h0 & Hh0 & Hlt & Hcn)%Hc. cbn. destruct (decide (a0 = a)) as [-> | Hne].
    + exists h'. rewrite lookup_insert_eq. simplify_eq. split; [done|lia].
    + exists h0. by rewrite lookup_insert_ne.
  - intros a0 r Hin. destruct (Ha a0 r Hin) as [(b & c & p & Hcall & Hserved) (h0 & Hh0 & Hnot)]. split; [by exists b, c, p|]. cbn.
    destruct (decide (a0 = a)) as [-> | Hne]; [|exists h0; by rewrite lookup_insert_ne].
    exists h'. rewrite lookup_insert_eq. split; [done|]. simplify_eq. intros [Hin'|Hin']%Mp; [done|].
    destruct (Hc _ _ _ _ _ Hcall) as (h1 & Hh1 & Hlt & _). simplify_eq. lia.
  - intros a0 h0 id [[-> ->]|?]%Hcase; [|by eapply Hpe]. intros [Hin|?]%Mp; [|lia]. pose proof (Hpe a h id Hh Hin). lia.
Qed.

Lemma net_ok_start N a : net_ok N → nodes N !! a = None → net_ok (set_node a new_handler N).
Proof.
  intros [Hn Hk Hc Hu Hw Han Hpe Ho] Hnone.
  assert (∀ a0 h0, nodes (set_node a new_handler N) !! a0 = Some h0 → a0 = a ∧ h0 = new_handler ∨ nodes N !! a0 = Some h0) as Hcase.
  { cbn. intros a0 h0 [[-> ->]|[_ ?]]%lookup_insert_Some; auto. }
  assert (∀ a0 h0, nodes N !! a0 = Some h0 → nodes (set_node a new_handler N) !! a0 = Some h0) as Hkeep.
  { intros a0 h0 Hh0. cbn. rewrite lookup_insert_ne //. intros ->. congruence. }
  split; try done.
  - intros a0 h0 [[-> ->]|?]%Hcase; [done|by eapply Hn].
  - intros a0 h0 [[-> ->]|?]%Hcase; [done|by eapply Hk].
  - intros a0 b id c p (h0 & Hh0%Hkeep & Hlt)%Hc. by exists h0.
  - intros a0 r Hin. destruct (Han a0 r Hin) as [? (h0 & Hh0%Hkeep & Hnot)]. split; [done|]. by exists h0.
  - intros a0 h0 id [[-> ->]|?]%Hcase; [|by eapply Hpe]. by intros ?%elem_of_empty.
Qed.

Lemma started_moves addr h h' : started addr h h' → conn_ok h → 1 ≤ next_id h < U64_MAX → moves h h' ∧ next_id h' = next_id h + 1.
Proof.
  intros [Hn Hpe Hco Hr Hp Hk Ha] [Hrc Hpc] Hlt. rewrite /wrap64 Z.mod_small in Hn; [unfold U64_MAX in *; lia|]. split; [|done]. split.
  - lia.
  - done.
  - intros _. split.
    + intros b c [Hb|[[Hb|?] ->]]%Hr; [apply Hrc in Hb; lia|apply Hpc in Hb; lia|done].
    + intros b c [Hb|?]%Hp; [apply Hpc in Hb; lia|done].
  - intros id Hin%Hpe. apply elem_of_union in Hin as [->%elem_of_singleton|?]; [right; lia|by left].
  - intros c _. by rewrite Ha.
Qed.

(** A call with a number of its own. *)
Lemma net_ok_call N a b id c p h :
  net_ok N → nodes N !! a = Some h → id < next_id h → (c < connections (transport h))%nat → (∀ b' c' p', (a, b', id, c', p') ∉ calls N) →
  net_ok (put_call a b id c p (serialize (new_request id p)) N).
Proof.
  intros [Hn Hk Hc Hu Hw Han Hpe Ho] Hh Hlt Hcn Hfresh. split; try done.
  - intros a0 b0 id0 c0 p0 [[= -> -> -> -> ->]|Hin]%elem_of_cons; [by exists h|by eapply Hc].
  - intros a0 b0 id0 c0 p0 b1 c1 p1 [E0|H0']%elem_of_cons [E1|H1']%elem_of_cons; simplify_eq; [done|by apply Hfresh in H1'|by apply Hfresh in H0'|by eapply Hu].
  - intros a0 b0 c0 bs0 [[= -> -> -> ->]|Hin]%elem_of_cons; [left; exists id, p; split; [done|by left]|].
    destruct (Hw _ _ _ _ Hin) as [(id0 & p0 & -> & ?)|[(req & p0 & -> & ? & ?)|?]]; [left; exists id0, p0|right; left; exists req, p0|by do 2 right]; split_and!; try done; by right.
  - intros a0 r Hin. destruct (Han a0 r Hin) as [(b0 & c0 & p0 & ? & ?) ?]. split; [|done]. exists b0, c0, p0. split; [by right|done].
Qed.

Lemma request_ok N a h b payload o r h' c :
  net_ok N → nodes N !! a = Some h → next_id h < U64_MAX → request_start b payload o h = (r, h') →
  moves h h' ∧ net_ok (set_node a h' N) ∧
  ((c < connections (transport h'))%nat → net_ok (put_call a b (next_id h) c payload (serialize (new_request (next_id h) payload)) (set_node a h' N))).
Proof.
  intros Hok Hh Hlt Hrun. apply request_start_spec in Hrun as (Hst & _). pose proof (no_next _ Hok a h Hh).
  apply started_moves in Hst as [Hmv Hnext]; [|by apply (no_conns _ Hok a)|lia]. pose proof (net_ok_node N a h h' Hok Hh Hmv) as Hok'.
  split; [done|]. split; [done|]. intros Hcn. apply (net_ok_call _ _ _ _ _ _ h'); [done|by apply lookup_insert_eq|lia|done|].
  intros b' c' p' (h0 & Hh0 & ? & _)%(no_calls _ Hok). simplify_eq. lia.
Qed.

(** A message without an answer. *)
Lemma one_way_spec addr m o h r h' :
  send_one_way addr m o h = (r, h') → conn_ok h → 1 ≤ next_id h ≤ U64_MAX → moves h h' ∧ (∀ c bs, r = Ok (c, bs) → bs = serialize (new_one_way m)).
Proof.
  intros Hrun [Hrc Hpc] Hn. unfold send_one_way, bind at 1, in_transport, zoom in Hrun.
  destruct (connect addr _ (transport h)) as [oc t'] eqn:Ec. apply connect_spec in Ec as (Hle & Hc & Hpe & _).
  assert (∀ h1, transport h1 = t' → next_id h1 = next_id h → pending_requests h1 = pending_requests h → accept_loops h1 = accept_loops h →
    (∀ b c, peer_receivers h1 !! b = Some c → peer_receivers h !! b = Some c ∨ (c < connections t')%nat) → moves h h1) as Hmv.
  { intros h1 Et En Ep Ea Hr. split; rewrite ?Et ?En ?Ep ?Ea; [lia|done| |auto|auto]. intros _. split; rewrite Et.
    - intros b c [Hb%Hrc|?]%Hr; lia.
    - intros b c [Hb%Hpc|?]%Hpe; lia. }
  destruct oc as [c|e| |]; [|injection Hrun as <- <-; (split; [apply Hmv; auto|done])..].
  pose proof (ensure_receiver_spec addr c (set_transport t' h)) as (Ht & Hnx & Hp & Ha & Hr & _).
  assert (moves h (ensure_peer_receiver addr c (set_transport t' h))) as Hm.
  { apply Hmv; auto. intros b c' [Hb|[-> ->]]%Hr; [by left|]. right. destruct (Hc c eq_refl) as [?%Hpc|[-> ?]]; lia. }
  unfold bind, modify in Hrun. destruct o; injection Hrun as <- <-; (split; [exact Hm|]); try done; by intros c' bs [= <- <-].
Qed.

Lemma net_ok_wire N a b c m : net_ok N → net_ok (put_wire a b c (serialize (new_one_way m)) N).
Proof.
  intros [Hn Hk Hc Hu Hw Han Hpe Ho]. split; try done. intros a0 b0 c0 bs0 [[= -> -> -> ->]|Hin]%elem_of_cons; [|by apply Hw].
  do 2 right. by eexists.
Qed.

Ltac node_moves Hok Hh :=
  apply (net_ok_node _ _ _ _ Hok Hh); pose proof (no_next _ Hok _ _ Hh); split; cbn; try done; try lia; try set_solver; auto.

Lemma net_ok_served N a b c bs req h answer p out :
  net_ok N → (a, b, c, bs) ∈ wire N → received bs = Some (Request req) → handle_request req answer h = (p, out) →
  net_ok (put_served b a c out req p N).
Proof.
  intros [Hn Hk Hc Hu Hw Han Hpe Ho] Hin Hrec Ehr. unfold handle_request in Ehr. injection Ehr as Hp <-. rewrite Hp. split; try done.
  - destruct (Hw _ _ _ _ Hin) as [(id0 & p0 & -> & Hcall)|[(req0 & p0 & -> & _ & _)|[m ->]]]; unfold received in Hrec; rewrite bincode_roundtrip in Hrec; [|done..].
    injection Hrec as <-. intros a0 b0 c0 bs0 [[= -> -> -> ->]|Hin0]%elem_of_cons.
    + right. left. exists (MkRequest id0 p0), p. split_and!; [done|by left|done].
    + destruct (Hw _ _ _ _ Hin0) as [?|[(req & p1 & -> & ? & ?)|?]]; [by left|right; left; exists req, p1|by do 2 right]. split_and!; try done. by right.
  - intros a0 r Hin0. destruct (Han a0 r Hin0) as [(b0 & c0 & p0 & ? & ?) ?]. split; [|done]. exists b0, c0, p0. split; [done|by right].
Qed.

(** A response on the wire was made for a call on that connection. *)
Lemma response_call N a b c bs resp :
  net_ok N → (b, a, c, bs) ∈ wire N → received bs = Some (Response resp) →
  ∃ p, (a, b, resp_id resp, c, p) ∈ calls N ∧ (b, MkRequest (resp_id resp) p, resp_payload resp) ∈ served N.
Proof.
  intros Hok Hin Hrec. destruct (no_wire _ Hok _ _ _ _ Hin) as [(id0 & p0 & -> & _)|[(req & p0 & -> & Hserved & Hcall)|[m ->]]];
    unfold received in Hrec; rewrite bincode_roundtrip in Hrec; [done| |done]. injection Hrec as <-. exists (req_payload req). split; [done|]. by destruct req.
Qed.

Lemma handle_response_spec resp h h' :
  handle_response resp h = (Some resp, h') → resp_id resp ∈ pending_requests h ∧ h' = set_pending (pending_requests h ∖ {[resp_id resp]}) h.
Proof. unfold handle_response. case_decide; by intros [= <-]. Qed.

Lemma net_ok_answer N a b c bs resp h h' :
  net_ok N → (b, a, c, bs) ∈ wire N → nodes N !! a = Some h → received bs = Some (Response resp) →
  handle_response resp h = (Some resp, h') → net_ok (put_answer a resp (set_node a h' N)).
Proof.
  intros Hok Hin Hh Hrec [Hpend ->]%handle_response_spec. destruct (response_call N a b c bs resp Hok Hin Hrec) as (p & Hcall & Hserved).
  assert (net_ok (set_node a (set_pending (pending_requests h ∖ {[resp_id resp]}) h) N)) as Hok' by node_moves Hok Hh.
  pose proof (no_answered _ Hok) as Hold. destruct Hok' as [Hn Hk Hc Hu Hw Han Hpe Ho]. split; try done.
  - intros a0 r [[= -> ->]|Hin0]%elem_of_cons; [|by apply Han]. split; [by exists b, c, p|].
    eexists. split; [apply lookup_insert_eq|]. cbn. set_solver.
  - apply NoDup_cons. split; [|done]. intros ([a1 r1] & [= Ea Er] & Hin1)%list_elem_of_fmap. cbn in Ea, Er, Hin1. subst a1.
    destruct (Hold a r1 Hin1) as [_ (h1 & Hh1 & Hnot)]. simplify_eq. by rewrite Er in Hpend.
Qed.

Lemma moves_small h h' : transport h' = transport h → next_id h' = next_id h → 1 ≤ next_id h ≤ U64_MAX → pending_requests h' ⊆ pending_requests h →
  (∀ b c, peer_receivers h' !! b = Some c → peer_receivers h !! b = Some c) → accept_loops h' ⊆ accept_loops h → moves h h'.
Proof. intros Et En Hn Hp Hr Ha. split; rewrite ?Et ?En; [lia|lia| |set_solver|set_solver]. intros [Hrc Hpc]. split; rewrite ?Et; [|done]. eauto. Qed.

Lemma moves_accept b h : 1 ≤ next_id h ≤ U64_MAX → moves h (accepted_peer b h).
Proof.
  intros Hn. split; cbn; [lia|lia| |auto|].
  - intros [Hrc Hpc]. split; cbn; [intros b' c Hb%Hrc; lia|]. intros b' c [[_ <-]|[_ Hb%Hpc]]%lookup_insert_Some; lia.
  - intros c Hc [->%elem_of_singleton|?]%elem_of_union; [lia|done].
Qed.

Lemma set_node_moves N a h h' :
  nodes N !! a = Some h → h' = h ∨ moves h h' →
  ∀ a0 h0, nodes N !! a0 = Some h0 → ∃ h1, <[a := h']> (nodes N) !! a0 = Some h1 ∧ (h1 = h0 ∨ moves h0 h1).
Proof.
  intros Hh Hm a0 h0 Hh0. destruct (decide (a0 = a)) as [-> | Hne]; [|exists h0; rewrite lookup_insert_ne //; auto].
  simplify_eq. exists h'. by rewrite lookup_insert_eq.
Qed.

(** A step keeps the invariant; handlers stay or move on. *)
Lemma net_step_spec N N' :
  net_step N N' → net_ok N → net_ok N' ∧ ∀ a h, nodes N !! a = Some h → ∃ h', nodes N' !! a = Some h' ∧ (h' = h ∨ moves h h').
Proof.
  intros Hstep Hok.
  assert (∀ a h h', nodes N !! a = Some h → moves h h' →
    net_ok (set_node a h' N) ∧ ∀ a0 h0, nodes N !! a0 = Some h0 → ∃ h1, <[a := h']> (nodes N) !! a0 = Some h1 ∧ (h1 = h0 ∨ moves h0 h1)) as Hset.
  { intros a h h' Hh Hm. split; [by apply (net_ok_node N a h)|]. apply (set_node_moves N a h); auto. }
  assert (∀ a h h', nodes N !! a = Some h → transport h' = transport h → next_id h' = next_id h → pending_requests h' ⊆ pending_requests h →
    (∀ b c, peer_receivers h' !! b = Some c → peer_receivers h !! b = Some c) → accept_loops h' ⊆ accept_loops h →
    net_ok (set_node a h' N) ∧ ∀ a0 h0, nodes N !! a0 = Some h0 → ∃ h1, <[a := h']> (nodes N) !! a0 = Some h1 ∧ (h1 = h0 ∨ moves h0 h1)) as Hsmall.
  { intros a h h' Hh ?????. apply (Hset a h); [done|]. apply moves_small; try done. by apply (no_next _ Hok a). }
  destruct Hstep as [a Ha|a h Hh|a h b payload o id c bs h' Hh Hlt Hrun|a h b payload o e h' Hh Hlt Hrun|a h b payload e c h' Hh Hlt Hrun Hc
    |a h b m o c bs h' Hh Hrun|a h b m o e h' Hh Hrun|a b c bs req h answer p out Hin Hh Hrec Hans|a b c bs resp h h' Hin Hh Hread Hrec Hgot|a h id Hh|a h b Hh|a h c Hh|a h b Hh|a h c Hh].
  - split; [by apply net_ok_start|]. intros a0 h0 Hh0. exists h0. cbn. rewrite lookup_insert_ne; [by intros ->; congruence|auto].
  - by apply (Hsmall a h).
  - destruct (request_ok N a h b payload o _ h' c Hok Hh Hlt Hrun) as (Hmv & _ & Hcall). apply request_start_spec in Hrun as (_ & Hmsg & _).
    destruct (Hmsg id c bs eq_refl) as (-> & -> & Hconn). split; [|apply (set_node_moves N a h); auto]. apply Hcall.
    destruct Hmv, (no_conns _ Hok a h Hh) as [_ Hp]. destruct Hconn as [?%Hp|[-> ?]]; lia.
  - destruct (request_ok N a h b payload o _ h' O Hok Hh Hlt Hrun) as (Hmv & _ & _). by apply (Hset a h).
  - destruct (request_ok N a h b payload _ _ h' c Hok Hh Hlt Hrun) as (Hmv & _ & Hcall). apply request_start_spec in Hrun as (_ & _ & Hconn).
    split; [|apply (set_node_moves N a h); auto]. apply Hcall. specialize (Hconn c ltac:(done) Hc).
    destruct Hmv, (no_conns _ Hok a h Hh) as [_ Hp]. destruct Hconn as [?%Hp|[-> ?]]; lia.
  - apply one_way_spec in Hrun as [Hmv Hmsg]; [|by apply (no_conns _ Hok a)|by apply (no_next _ Hok a)]. rewrite (Hmsg c bs eq_refl).
    split; [apply net_ok_wire; by apply (net_ok_node N a h)|]. apply (set_node_moves N a h); auto.
  - apply one_way_spec in Hrun as [Hmv _]; [|by apply (no_conns _ Hok a)|by apply (no_next _ Hok a)]. by apply (Hset a h).
  - split; [by apply (net_ok_served N a b c bs req h answer)|]. intros a0 h0 Hh0. exists h0. auto.
  - split; [by apply (net_ok_answer N a b c bs resp h h')|]. apply handle_response_spec in Hgot as [_ ->].
    apply (set_node_moves N a h); [done|]. right. apply moves_small; try done; [by apply (no_next _ Hok a)|]. cbn. set_solver.
  - apply (Hsmall a h); try done. cbn. set_solver.
  - apply (Hset a h); [done|]. by apply moves_accept, (no_next _ Hok a).
  - apply (Hset a h); [done|]. pose proof (no_next _ Hok a h Hh). split; cbn; auto; lia.
  - apply (Hsmall a h); try done. cbn. by intros b0 c0 [_ ?]%lookup_delete_Some.
  - apply (Hsmall a h); try done. cbn. set_solver.
Qed.

Lemma reachable_ok N : reachable N → net_ok N.
Proof.
  intros Hr. assert (net_ok empty_net) as He by (split; cbn; try done; try (by intros; set_solver); constructor).
  induction Hr as [|N1 N2 N3 Hstep _ IH]; [done|]. by apply IH, (net_step_spec N1).
Qed.

(** * What a call returns *)

(** C16: a call returns the answer to itself. However messages are lost, delayed, repeated and reordered, connections
    are replaced or closed, loops end and calls time out, every response that a call of a node is handed was made by
    the node it was sent to, by running its callback on exactly that call's number and payload; the number belongs to
    one call, and a call is handed one response at most. *)
Theorem rpc_answers_own_call N :
  reachable N →
  (∀ a r, (a, r) ∈ answered N → ∃ b c p, (a, b, resp_id r, c, p) ∈ calls N ∧ (b, MkRequest (resp_id r) p, resp_payload r) ∈ served N ∧
    ∀ b' c' p', (a, b', resp_id r, c', p') ∈ calls N → b' = b ∧ c' = c ∧ p' = p) ∧
  NoDup ((λ x, (x.1, resp_id x.2)) <$> answered N).
Proof.
  intros Hok%reachable_ok. split; [|apply (no_once _ Hok)]. intros a r Hin.
  destruct (no_answered _ Hok a r Hin) as [(b & c & p & Hcall & Hserved) _]. exists b, c, p. split_and!; [done|done|].
  intros b' c' p' Hcall'. by eapply (no_unique _ Hok a b (resp_id r)).
Qed.

(** * A connection nobody reads *)

(** Steps after which the loop of [a] for [b] still reads the connection [c0]. *)
Definition step_reading (a b : SocketAddr) (c0 : nat) (N N' : Net) : Prop :=
  net_step N N' ∧ ∃ h, nodes N' !! a = Some h ∧ peer_receivers h !! b = Some c0.

Lemma net_step_calls N N' x : net_step N N' → x ∈ calls N → x ∈ calls N'.
Proof. intros Hstep Hin. destruct Hstep; cbn; try done; by right. Qed.

(** after a failed send the peer is not heard. The connection is dropped, but the loop that reads the peer's
    responses stays with it: as long as that loop does not end, a call on any other connection that this node has
    opened is never handed a response. *)
Theorem unread_connection_never_answers N a h b c0 c id p N' :
  reachable N → nodes N !! a = Some h → peer_receivers h !! b = Some c0 → (a, b, id, c, p) ∈ calls N → c ≠ c0 → c ∉ accept_loops h →
  (∀ r, (a, r) ∈ answered N → resp_id r ≠ id) →
  rtc (step_reading a b c0) N N' → ∀ r, (a, r) ∈ answered N' → resp_id r ≠ id.
Proof.
  intros Hreach Hh Hloop Hcall Hne Hacc Hans Hrtc. revert h Hh Hloop Hcall Hacc Hans Hreach.
  induction Hrtc as [N|N1 N2 N3 [Hstep (h2 & Hh2 & Hloop2)] _ IH]; intros h Hh Hloop Hcall Hacc Hans Hreach; [done|].
  pose proof (reachable_ok _ Hreach) as Hok. destruct (net_step_spec _ _ Hstep Hok) as [_ Hmv].
  destruct (Hmv a h Hh) as (h2' & ? & Hh2'). simplify_eq. destruct (no_calls _ Hok _ _ _ _ _ Hcall) as (h' & ? & _ & Hlt). simplify_eq.
  apply (IH h2); [done|done|by eapply net_step_calls| | |by eapply rtc_r].
  { destruct Hh2' as [->|Hm]; [done|]. by intros Hin%(mv_accepts _ _ Hm). }
  clear IH Hh2 Hloop2 Hmv Hh2'. destruct Hstep as [| | | | | | | |a1 b1 c1 bs resp h1 h1' Hin Hh1 Hl1 Hrec Hgot| | | | |]; try done.
  intros r [[= <- <-]|Hin0]%elem_of_cons; [|by apply Hans]. intros Hid.
  destruct (response_call N1 a b1 c1 bs r Hok Hin Hrec) as (p1 & Hcall1 & _). rewrite Hid in Hcall1.
  destruct (no_unique _ Hok _ _ _ _ _ _ _ _ Hcall Hcall1) as (-> & -> & _). simplify_eq. destruct Hl1; congruence.
Qed.

(** After a failed send, the next call is on another connection than the one that is read. *)
Lemma next_call_is_unread N a h b c0 payload id c bs h' :
  reachable N → nodes N !! a = Some h → peer_receivers h !! b = Some c0 → peers (transport h) !! b ≠ Some c0 →
  request_start b payload Sent h = (Ok (id, c, bs), h') → c ≠ c0 ∧ peer_receivers h' !! b = Some c0.
Proof.
  intros Hok%reachable_ok Hh Hloop Hnp Hrun. apply request_start_spec in Hrun as ([_ _ _ _ _ Hk _] & Hmsg & _).
  destruct (Hmsg id c bs eq_refl) as (_ & _ & Hc). split; [|by apply Hk]. intros ->. pose proof (no_conns _ Hok a h Hh) as [Hr _]. apply Hr in Hloop.
  destruct Hc; [done|lia].
Qed.
End calls.
