(* ===== verification/OctopiiNode.v ===== *)
(** A node of octopii around its Raft instance: [src/octopii/src/openraft/node.rs] and
    [src/octopii/src/openraft/network.rs].

    The node keeps the addresses of its peers in a map, in a write-ahead log and in a map of the process, answers the
    remote calls of other nodes from its Raft instance, and sends those of its own. The Raft instance is the
    class [RaftApi], of which [bincode] carries requests and answers. The theorems say what a node knows of its
    peers over its restarts, and that a call of the network is a call of the peer's Raft instance. *)

From stdpp Require Import strings sorting.
From S2P Require Import Prelude Config Writer Batch BatchReadOk BatchReadInv Metadata OctopiiWal LogStoreOk RaftMachine OctopiiRpc.

#[local] Open Scope Z_scope.

(** * Configuration *)

Record Config := MkConfig {
  node_id : Z;
  bind_addr : SocketAddr;
  config_peers : list SocketAddr;
  is_initial_leader : bool;
  public_addr : option SocketAddr;
}.

(** The number of a peer is the last digit of its port; the own number and zero are skipped. *)
Definition peer_id_of (a : SocketAddr) : Z := port a mod 10.
Definition is_peer (cfg : Config) (a : SocketAddr) : bool := negb (peer_id_of a =? node_id cfg) && (0 <? peer_id_of a).
Definition peers_of (cfg : Config) : list SocketAddr := filter (λ a, is_peer cfg a = true) (config_peers cfg).
Definition my_addr (cfg : Config) : SocketAddr := default (bind_addr cfg) (public_addr cfg).

(** * The map of the process *)

Definition GlobalPeers : Type := gmap string (gmap Z SocketAddr).

Definition cluster_namespace : string := "distributed_walrus_cluster".

Definition register_global_peer_addr (ns : string) (id : Z) (a : SocketAddr) (g : GlobalPeers) : GlobalPeers :=
  <[ns := <[id := a]> (default ∅ (g !! ns))]> g.
Definition global_peer_addr (ns : string) (id : Z) (g : GlobalPeers) : option SocketAddr := g !! ns ≫= λ m, m !! id.
Definition clear_global_peer_addrs_for (ns : string) (g : GlobalPeers) : GlobalPeers := delete ns g.

(** * The address book *)

Record PeerAddrRecord := MkPeerAddr { peer_id : Z; peer_addr : SocketAddr }.

Section book.
Context {E : Type} `{WalTopic E} `{Bincode PeerAddrRecord}.

Record AddressBook := MkBook {
  peer_addrs : gmap Z SocketAddr;
  peer_addr_wal : WriteAheadLog E;
  global_addrs : GlobalPeers;
}.

Definition in_peer_wal {A} (m : M (WriteAheadLog E) A) : M AddressBook A :=
  zoom peer_addr_wal (λ w b, MkBook (peer_addrs b) w (global_addrs b)) m.
Definition put_addr (id : Z) (a : SocketAddr) : M AddressBook unit :=
  modify (λ b, MkBook (<[id := a]> (peer_addrs b)) (peer_addr_wal b) (global_addrs b)).
Definition register (id : Z) (a : SocketAddr) : M AddressBook unit :=
  modify (λ b, MkBook (peer_addrs b) (peer_addr_wal b) (register_global_peer_addr cluster_namespace id a (global_addrs b))).

(** A record that cannot be decoded is skipped, a log that cannot be read is empty. *)
Definition load_records (entries : list (list Z)) : gmap Z SocketAddr :=
  foldl (λ m raw, match deserialize raw with Some r => <[peer_id r := peer_addr r]> m | None => m end) ∅ entries.
Definition load_peer_addr_records (fuel : nat) : M (WriteAheadLog E) (gmap Z SocketAddr) :=
  let! entries := attempt (read_all fuel) in ret (load_records (default [] entries)).

Definition append_peer_addr_record (id : Z) (a : SocketAddr) : M AddressBook unit :=
  let! _ := in_peer_wal (wal_append (serialize (MkPeerAddr id a))) in ret tt.

Fixpoint add_config_peers (l : list SocketAddr) : M AddressBook unit :=
  match l with
  | [] => ret tt
  | a :: l =>
      let! b := getS in
      (if decide (peer_addrs b !! peer_id_of a = Some a) then ret tt
       else append_peer_addr_record (peer_id_of a) a ;; put_addr (peer_id_of a) a) ;;
      add_config_peers l
  end.

(** The part of [OpenRaftNode::new] that fills the book, on a log that was just opened. *)
Definition book_new (fuel : nat) (cfg : Config) : M AddressBook unit :=
  register (node_id cfg) (my_addr cfg) ;;
  let! m := in_peer_wal (load_peer_addr_records fuel) in
  modify (λ b, MkBook (<[node_id cfg := bind_addr cfg]> m) (peer_addr_wal b) (global_addrs b)) ;;
  add_config_peers (peers_of cfg) ;;
  modify (λ b, MkBook (peer_addrs b) (peer_addr_wal b)
                 (foldr (λ '(id, a), register_global_peer_addr cluster_namespace id a) (global_addrs b) (map_to_list (peer_addrs b)))).

Definition persist_peer_addr_if_needed (id : Z) (a : SocketAddr) : M AddressBook unit :=
  let! b := getS in
  let needs_persist := negb (bool_decide (peer_addrs b !! id = Some a)) in
  (if needs_persist then put_addr id a else ret tt) ;;
  register id a ;;
  if needs_persist then append_peer_addr_record id a else ret tt.

(** [start] registers the peers of the configuration again. *)
Fixpoint start_peers (l : list SocketAddr) : M AddressBook unit :=
  match l with
  | [] => ret tt
  | a :: l => persist_peer_addr_if_needed (peer_id_of a) a ;; start_peers l
  end.

Definition update_peer_addr (id : Z) (a : SocketAddr) : M AddressBook unit := ignore (persist_peer_addr_if_needed id a).

Definition peer_addr_for (id : Z) : M AddressBook (option SocketAddr) :=
  let! b := getS in
  match peer_addrs b !! id with
  | Some a => ret (Some a)
  | None =>
      match global_peer_addr cluster_namespace id (global_addrs b) with
      | Some a => ignore (persist_peer_addr_if_needed id a) ;; ret (Some a)
      | None => ret None
      end
  end.

(** [QuinnNetwork::peer_addr] keeps what it finds in the map only. *)
Definition net_peer_addr (target : Z) : M AddressBook (option SocketAddr) :=
  let! b := getS in
  match peer_addrs b !! target with
  | Some a => ret (Some a)
  | None =>
      match global_peer_addr cluster_namespace target (global_addrs b) with
      | Some a => put_addr target a ;; ret (Some a)
      | None => ret None
      end
  end.

(** [conf_state]: the numbers of the book, the own one among them. *)
Definition conf_state_voters (cfg : Config) (b : AddressBook) : list Z :=
  let voters := (map_to_list (peer_addrs b)).*1 in
  merge_sort Z.le (if decide (node_id cfg ∈ voters) then voters else voters ++ [node_id cfg]).
End book.
Arguments AddressBook : clear implicits.

(** The members a cluster is initialised with: text of an address by number. *)
Definition initial_members (show_addr : SocketAddr → string) (cfg : Config) : gmap Z string :=
  foldl (λ m a, <[peer_id_of a := show_addr a]> m) {[node_id cfg := show_addr (my_addr cfg)]} (peers_of cfg).

(** * Serving the calls of other nodes *)

Section node.
Context {R AReq AResp VReq VResp SReq SResp : Type}.

Class RaftApi := {
  raft_append_entries : AReq → M R AResp;
  raft_vote : VReq → M R VResp;
  raft_install_snapshot : SReq → M R SResp;
}.
Context `{RaftApi} `{Bincode AReq, Bincode AResp, Bincode VReq, Bincode VResp, Bincode SReq, Bincode SResp}.

(** A request that cannot be decoded and one that fails are answered with no bytes. *)
Definition answer_bytes {Req Resp} `{Bincode Req, Bincode Resp} (f : Req → M R Resp) (data : list Z) : M R (list Z) :=
  match deserialize data with
  | None => ret []
  | Some req =>
      let! resp := attempt (f req) in
      match resp with Some r => ret (serialize r) | None => ret [] end
  end.

Definition serve_openraft (kind : string) (data : list Z) : M R (list Z) :=
  if decide (kind = "append_entries") then answer_bytes raft_append_entries data
  else if decide (kind = "vote") then answer_bytes raft_vote data
  else if decide (kind = "install_snapshot") then answer_bytes raft_install_snapshot data
  else ret [].

(** The callback of [start]; [custom] is the handler the application has set. *)
Definition node_handler (custom : option (RpcRequest → ResponsePayload)) (req : RpcRequest) : M R ResponsePayload :=
  match req_payload req with
  | OpenRaft kind data => let! d := serve_openraft kind data in ret (OpenRaftResp kind d)
  | _ => ret (match custom with Some h => h req | None => CustomResponse false [] end)
  end.

(** * Sending calls *)

(** [OpenRaftFilters]: what tests switch off; a delay only takes time. *)
Record OpenRaftFilters := MkFilters {
  drop_pairs : gset (Z * Z);
  partitions : list (gset Z * gset Z);
}.
Definition no_filters : OpenRaftFilters := MkFilters ∅ [].
Definition add_send_drop_to (self to : Z) (f : OpenRaftFilters) : OpenRaftFilters := MkFilters ({[(self, to)]} ∪ drop_pairs f) (partitions f).
Definition add_partition (g1 g2 : gset Z) (f : OpenRaftFilters) : OpenRaftFilters := MkFilters (drop_pairs f) (partitions f ++ [(g1, g2)]).

Definition partitioned (self target : Z) (p : gset Z * gset Z) : bool :=
  (bool_decide (self ∈ p.1) && bool_decide (target ∈ p.2)) || (bool_decide (self ∈ p.2) && bool_decide (target ∈ p.1)).
Definition filtered (self target : Z) (f : OpenRaftFilters) : bool :=
  existsb (partitioned self target) (partitions f) || bool_decide ((self, target) ∈ drop_pairs f).

Inductive RPCError := Network | Unreachable.

(** What a client sees of the rest: how an address is found, and what a call of the transport returns. *)
Record Wire (S : Type) := MkWire {
  lookup_addr : Z → M S (option SocketAddr);
  rpc_request : SocketAddr → RequestPayload → M S ResponsePayload;
}.
Arguments MkWire {S}.
Arguments lookup_addr {S}.
Arguments rpc_request {S}.

Definition send_openraft {S} (w : Wire S) (f : OpenRaftFilters) (self target : Z) (kind : string) (data : list Z) : M S ResponsePayload :=
  if filtered self target f then fail KOther "openraft-filters"
  else
    let! a := lookup_addr w target in
    match a with
    | None => fail KOther "no address for peer"
    | Some a => rpc_request w a (OpenRaft kind data)
    end.

(** [append_entries] and [vote] of [RaftNetworkV2]. *)
Definition call_peer {S Req Resp} `{Bincode Req, Bincode Resp} (w : Wire S) (f : OpenRaftFilters) (self target : Z) (kind : string) (req : Req) :
    M S (RPCError + Resp) :=
  let! r := attempt (send_openraft w f self target kind (serialize req)) in
  match r with
  | Some (OpenRaftResp kind' data) =>
      if decide (kind' = kind) then
        match deserialize data with Some resp => ret (inr resp) | None => ret (inl Network) end
      else ret (inl Unreachable)
  | _ => ret (inl Unreachable)
  end.
Definition net_append_entries {S} (w : Wire S) (f : OpenRaftFilters) (self target : Z) (req : AReq) : M S (RPCError + AResp) :=
  call_peer w f self target "append_entries" req.
Definition net_vote {S} (w : Wire S) (f : OpenRaftFilters) (self target : Z) (req : VReq) : M S (RPCError + VResp) :=
  call_peer w f self target "vote" req.

(** [full_snapshot] is not implemented. *)
Definition net_full_snapshot {S} (snapshot : list Z) : M S (RPCError + unit) := ret (inl Unreachable).
End node.
Arguments RaftApi : clear implicits.
Arguments Wire : clear implicits.
Arguments MkWire {S}.

(** * What the node says of itself *)

Record Metrics := MkMetrics {
  current_leader : option Z;
  last_log_index : option Z;
  replication : option (gmap Z (option Z));
  joint_config : list (gset Z);
}.

Definition is_leader (cfg : Config) (m : Metrics) : bool := bool_decide (current_leader m = Some (node_id cfg)).
Definition has_leader (m : Metrics) : bool := match current_leader m with Some _ => true | None => false end.
Definition read_index {S} (cfg : Config) (m : Metrics) : M S unit :=
  if is_leader cfg m then ret tt else fail KOther "not leader".

(** The index a peer is known to have: none is zero. *)
Definition peer_progress (id : Z) (m : Metrics) : option (Z * Z) :=
  match last_log_index m, replication m with
  | Some lst, Some repl => (λ o : option Z, (default 0 o, lst)) <$> repl !! id
  | _, _ => None
  end.
Definition is_learner_caught_up (threshold id : Z) (m : Metrics) : bool :=
  match peer_progress id m with Some (matched, lst) => Z.max 0 (lst - matched) <=? threshold | None => false end.

(** The members that [promote_learner] asks for. *)
Definition promoted_members (id : Z) (m : Metrics) : gset Z := {[id]} ∪ ⋃ joint_config m.

(** [query] runs the command on the application of this node, outside the log. *)
Definition query {A} `{StateMachineTrait A} (command : list Z) : M A (list Z) := λ s,
  let '(r, s') := sm_apply command s in (match r with inl out => Ok out | inr msg => Err (IoError KOther msg) end, s').

(** * What the node knows of its peers *)

(** * The address book *)

Section book.
Context {E : Type} `{WalTopicLaws E} `{BincodeLaws PeerAddrRecord} `{!BincodeTagged PeerAddrRecord}.

Definition put_record (m : gmap Z SocketAddr) (r : PeerAddrRecord) : gmap Z SocketAddr := <[peer_id r := peer_addr r]> m.
Definition book_of (recs : list PeerAddrRecord) : gmap Z SocketAddr := foldl put_record ∅ recs.
Definition accepted (r : PeerAddrRecord) : Prop := wt_accepts (serialize r).

(** The log of addresses holds the records [recs], and [n] more have room. *)
Definition log_holds (n : Z) (b : AddressBook E) (recs : list PeerAddrRecord) : Prop :=
  wt_holds n (walrus (peer_addr_wal b)) (serialize <$> recs).
Definition records_covered (recs : list PeerAddrRecord) : Prop := batch_covers true READ_ALL_BYTES (serialize <$> recs).

Lemma load_records_ok recs : load_records (serialize <$> recs) = book_of recs.
Proof.
  unfold load_records, book_of. generalize (∅ : gmap Z SocketAddr). induction recs as [|r recs IH]; intros m; [done|].
  cbn [fmap list_fmap foldl]. by rewrite bincode_roundtrip IH.
Qed.

Lemma book_of_app recs recs' : book_of (recs ++ recs') = foldl put_record (book_of recs) recs'.
Proof. apply foldl_app. Qed.

Lemma append_record_ok n id a b recs :
  0 ≤ n → accepted (MkPeerAddr id a) → log_holds (n + 1) b recs →
  ∃ b', append_peer_addr_record id a b = (Ok tt, b') ∧ log_holds n b' (recs ++ [MkPeerAddr id a]) ∧ peer_addrs b' = peer_addrs b ∧ global_addrs b' = global_addrs b.
Proof.
  intros Hn Ha Hh. destruct (wal_append_ok n (peer_addr_wal b) _ _ Hn Ha Hh) as (w & Ew & Hw).
  unfold append_peer_addr_record, in_peer_wal, bind, zoom. rewrite Ew. eexists. split_and!; [done| |done|done]. unfold log_holds. by rewrite fmap_app.
Qed.

(** What [persist_peer_addr_if_needed] records. *)
Definition recorded (id : Z) (a : SocketAddr) (m : gmap Z SocketAddr) : list PeerAddrRecord :=
  if decide (m !! id = Some a) then [] else [MkPeerAddr id a].

Lemma put_recorded id a m : foldl put_record m (recorded id a m) = <[id := a]> m.
Proof. unfold recorded. case_decide; [|done]. cbn. by rewrite insert_id. Qed.

Lemma persist_ok n id a b recs :
  0 ≤ n → accepted (MkPeerAddr id a) → log_holds (n + len (recorded id a (peer_addrs b))) b recs →
  ∃ b', persist_peer_addr_if_needed id a b = (Ok tt, b') ∧ log_holds n b' (recs ++ recorded id a (peer_addrs b)) ∧
    peer_addrs b' = <[id := a]> (peer_addrs b).
Proof.
  intros Hn Ha Hh. unfold persist_peer_addr_if_needed, bind at 1, getS. unfold recorded in *. case_decide as Hd.
  - rewrite bool_decide_true //. cbn [negb]. eexists. split; [done|]. rewrite app_nil_r. rewrite len_nil Z.add_0_r in Hh.
    split; [done|]. cbn. by rewrite insert_id.
  - rewrite bool_decide_false //. cbn [negb]. unfold bind, put_addr, register, modify. cbn [peer_addrs peer_addr_wal global_addrs].
    set (b1 := MkBook _ _ _). destruct (append_record_ok n id a b1 recs) as (b' & -> & Hh' & Hp & _); [done|done|exact Hh|].
    exists b'. by rewrite Hp.
Qed.

(** A list of updates, and the records they leave. *)
Definition updates : Type := list (Z * SocketAddr).
Fixpoint update_all (us : updates) : M (AddressBook E) unit :=
  match us with
  | [] => ret tt
  | (id, a) :: us => update_peer_addr id a ;; update_all us
  end.
Fixpoint records_of (us : updates) (m : gmap Z SocketAddr) : list PeerAddrRecord :=
  match us with
  | [] => []
  | (id, a) :: us => recorded id a m ++ records_of us (<[id := a]> m)
  end.
Definition put_all (us : updates) (m : gmap Z SocketAddr) : gmap Z SocketAddr := foldl (λ m '(id, a), <[id := a]> m) m us.
Definition all_accepted (us : updates) : Prop := Forall (λ '(id, a), accepted (MkPeerAddr id a)) us.

Lemma put_records_of us m : foldl put_record m (records_of us m) = put_all us m.
Proof. revert m. induction us as [|[id a] us IH]; intros m; [done|]. cbn. by rewrite foldl_app put_recorded IH. Qed.

Lemma update_all_ok us : ∀ n b recs,
  0 ≤ n → all_accepted us → log_holds (n + len (records_of us (peer_addrs b))) b recs →
  ∃ b', update_all us b = (Ok tt, b') ∧ log_holds n b' (recs ++ records_of us (peer_addrs b)) ∧ peer_addrs b' = put_all us (peer_addrs b).
Proof.
  induction us as [|[id a] us IH]; intros n b recs Hn Hacc Hh; cbn [records_of update_all] in *.
  { exists b. rewrite app_nil_r. rewrite len_nil Z.add_0_r in Hh. done. }
  apply Forall_cons in Hacc as [Ha Hacc]. rewrite len_app in Hh. pose proof (len_nonneg (records_of us (<[id := a]> (peer_addrs b)))).
  destruct (persist_ok (n + len (records_of us (<[id := a]> (peer_addrs b)))) id a b recs) as (b1 & E1 & Hh1 & Hp1); [lia|done| |].
  { by rewrite -Z.add_assoc (Z.add_comm (len _) (len (recorded _ _ _))). }
  rewrite -Hp1 in Hh1 |- *. destruct (IH n b1 _ Hn Hacc Hh1) as (b2 & E2 & Hh2 & Hp2). exists b2. unfold bind, update_peer_addr, ignore. rewrite E1 E2 Hp2.
  rewrite app_assoc. split_and!; try done. by rewrite Hp1.
Qed.

(** The peers of the configuration, as updates. *)
Definition configured (l : list SocketAddr) : updates := (λ a, (peer_id_of a, a)) <$> l.

Lemma add_config_peers_ok l : ∀ n b recs,
  0 ≤ n → all_accepted (configured l) → log_holds (n + len (records_of (configured l) (peer_addrs b))) b recs →
  ∃ b', add_config_peers l b = (Ok tt, b') ∧ log_holds n b' (recs ++ records_of (configured l) (peer_addrs b)) ∧
    peer_addrs b' = put_all (configured l) (peer_addrs b).
Proof.
  induction l as [|a l IH]; intros n b recs Hn Hacc Hh; cbn [configured fmap list_fmap records_of add_config_peers] in *.
  { exists b. rewrite app_nil_r. rewrite len_nil Z.add_0_r in Hh. done. }
  fold (configured l) in *. apply Forall_cons in Hacc as [Ha Hacc]. unfold bind at 1, getS. unfold recorded in *. case_decide as Hd.
  - cbn [app] in *. rewrite insert_id // in Hh |- *. destruct (IH n b recs Hn Hacc Hh) as (b' & E1 & Hh' & Hp). exists b'.
    split; [exact E1|]. split; [done|]. cbn. by rewrite insert_id.
  - rewrite len_app in Hh. set (m := <[peer_id_of a := a]> (peer_addrs b)) in *. pose proof (len_nonneg (records_of (configured l) m)).
    destruct (append_record_ok (n + len (records_of (configured l) m)) (peer_id_of a) a b recs) as (b1 & E1 & Hh1 & Hp1 & _); [lia|done| |].
    { rewrite len_cons len_nil in Hh. by replace (n + len (records_of (configured l) m) + 1) with (n + (1 + 0 + len (records_of (configured l) m))) by lia. }
    unfold bind at 1, bind at 1. rewrite E1. cbn [put_addr modify]. unfold put_addr, modify. rewrite Hp1. fold m. set (b2 := MkBook m _ _).
    destruct (IH n b2 (recs ++ [MkPeerAddr (peer_id_of a) a]) Hn Hacc) as (b3 & E3 & Hh3 & Hp3); [exact Hh1|]. exists b3. rewrite E3.
    split; [done|]. split; [by rewrite -app_assoc in Hh3|done].
Qed.

(** Opening the book: the records that the log held are in the map, and no longer in the log. *)
Lemma book_new_ok n fuel cfg b recs :
  let m := <[node_id cfg := bind_addr cfg]> (book_of recs) in
  0 ≤ n → all_accepted (configured (peers_of cfg)) → records_covered recs → (length recs + 3 ≤ fuel)%nat →
  log_holds (n + len (records_of (configured (peers_of cfg)) m)) b recs →
  ∃ b', book_new fuel cfg b = (Ok tt, b') ∧ log_holds n b' (records_of (configured (peers_of cfg)) m) ∧
    peer_addrs b' = put_all (configured (peers_of cfg)) m.
Proof.
  intros m Hn Hacc Hcov Hfuel Hh. unfold book_new, bind at 1, register, modify at 1. cbn [peer_addrs peer_addr_wal global_addrs].
  unfold bind at 1, in_peer_wal, zoom, load_peer_addr_records, bind at 1, attempt. cbn [peer_addrs peer_addr_wal global_addrs].
  destruct (read_all_drains _ (peer_addr_wal b) _ fuel Hh Hcov) as (w & -> & Hw & _ & _); [by rewrite length_fmap|]. cbn [default ret].
  rewrite nonempty_all; [by apply Forall_fmap, Forall_forall; intros r _; apply bincode_tagged|]. cbn [default from_option id]. rewrite load_records_ok.
  unfold bind at 1, modify at 1. cbn [peer_addrs peer_addr_wal global_addrs]. fold m. set (b1 := MkBook m w _).
  destruct (add_config_peers_ok (peers_of cfg) n b1 [] Hn Hacc) as (b2 & E2 & Hh2 & Hp2); [exact Hw|]. unfold bind. rewrite E2.
  eexists. split; [done|]. split; [exact Hh2|exact Hp2].
Qed.

Lemma start_peers_ok l : ∀ n b recs,
  0 ≤ n → all_accepted (configured l) → log_holds (n + len (records_of (configured l) (peer_addrs b))) b recs →
  ∃ b', start_peers l b = (Ok tt, b') ∧ log_holds n b' (recs ++ records_of (configured l) (peer_addrs b)) ∧
    peer_addrs b' = put_all (configured l) (peer_addrs b).
Proof.
  induction l as [|a l IH]; intros n b recs Hn Hacc Hh; cbn [configured fmap list_fmap records_of start_peers] in *.
  { exists b. rewrite app_nil_r. rewrite len_nil Z.add_0_r in Hh. done. }
  fold (configured l) in *. apply Forall_cons in Hacc as [Ha Hacc]. rewrite len_app in Hh. set (m := <[peer_id_of a := a]> (peer_addrs b)) in *.
  pose proof (len_nonneg (records_of (configured l) m)).
  destruct (persist_ok (n + len (records_of (configured l) m)) (peer_id_of a) a b recs) as (b1 & E1 & Hh1 & Hp1); [lia|done| |].
  { by rewrite -Z.add_assoc (Z.add_comm (len _) (len (recorded _ _ _))). }
  fold m in Hp1. rewrite -Hp1 in Hh1 |- *. destruct (IH n b1 _ Hn Hacc Hh1) as (b2 & E2 & Hh2 & Hp2). exists b2. unfold bind. rewrite E1 E2 Hp2.
  rewrite app_assoc. split_and!; try done. by rewrite Hp1.
Qed.

(** * The life of a process *)

(** [OpenRaftNode::new], [start] and calls of [update_peer_addr]; a process starts with the log that is there. *)
Definition session (fuel : nat) (cfg : Config) (us : updates) : M (AddressBook E) unit :=
  book_new fuel cfg ;; start_peers (peers_of cfg) ;; update_all us.
Definition reopened (b : AddressBook E) : AddressBook E := MkBook ∅ (peer_addr_wal b) ∅.

(** What it records, starting from a log with [recs], and what it knows in the end. *)
Definition session_updates (cfg : Config) (us : updates) : updates := configured (peers_of cfg) ++ configured (peers_of cfg) ++ us.
Definition own_entry (cfg : Config) (recs : list PeerAddrRecord) : gmap Z SocketAddr := <[node_id cfg := bind_addr cfg]> (book_of recs).
Definition session_records (cfg : Config) (us : updates) (recs : list PeerAddrRecord) : list PeerAddrRecord :=
  records_of (session_updates cfg us) (own_entry cfg recs).

Lemma records_of_app us us' m : records_of (us ++ us') m = records_of us m ++ records_of us' (put_all us m).
Proof. revert m. induction us as [|[id a] us IH]; intros m; [done|]. cbn. by rewrite IH app_assoc. Qed.
Lemma put_all_app us us' m : put_all (us ++ us') m = put_all us' (put_all us m).
Proof. apply foldl_app. Qed.

Lemma session_ok n fuel cfg us b recs :
  0 ≤ n → all_accepted (session_updates cfg us) → records_covered recs → (length recs + 3 ≤ fuel)%nat →
  log_holds (n + len (session_records cfg us recs)) b recs →
  ∃ b', session fuel cfg us b = (Ok tt, b') ∧ log_holds n b' (session_records cfg us recs) ∧
    peer_addrs b' = put_all (session_updates cfg us) (own_entry cfg recs).
Proof.
  intros Hn Hacc Hcov Hfuel Hh. unfold session_records, session_updates in *. set (cs := configured (peers_of cfg)) in *. set (m := own_entry cfg recs) in *.
  apply Forall_app in Hacc as [Hc Hacc]. apply Forall_app in Hacc as [_ Hu]. rewrite !records_of_app !len_app in Hh |- *. rewrite !put_all_app.
  set (r1 := records_of cs m) in *. set (r2 := records_of cs (put_all cs m)) in *. set (r3 := records_of us _) in *.
  pose proof (len_nonneg r2). pose proof (len_nonneg r3).
  destruct (book_new_ok (n + len r3 + len r2) fuel cfg b recs) as (b1 & E1 & Hh1 & Hp1); [lia|done|done|done| |].
  { fold (own_entry cfg recs). fold m cs r1. by replace (n + len r3 + len r2 + len r1) with (n + (len r1 + (len r2 + len r3))) by lia. }
  fold (own_entry cfg recs) in Hh1, Hp1. fold m cs r1 in Hh1, Hp1.
  destruct (start_peers_ok (peers_of cfg) (n + len r3) b1 r1) as (b2 & E2 & Hh2 & Hp2); [lia|done|by rewrite Hp1|]. rewrite Hp1 in Hh2, Hp2. fold cs r2 in Hh2, Hp2.
  destruct (update_all_ok us n b2 (r1 ++ r2) Hn Hu) as (b3 & E3 & Hh3 & Hp3); [by rewrite Hp2|].
  exists b3. unfold session, bind. rewrite E1 E2 E3. split; [done|]. rewrite Hp2 in Hh3, Hp3. rewrite app_assoc. done.
Qed.

(** ** Which address is known *)

Lemma put_all_lookup us m m' id : m !! id = m' !! id → put_all us m !! id = put_all us m' !! id.
Proof.
  revert m m'. induction us as [|[i a] us IH]; intros m m' Heq; [done|]. cbn. apply IH.
  destruct (decide (i = id)) as [-> | Hne]; [by rewrite !lookup_insert_eq|by rewrite !lookup_insert_ne].
Qed.

Lemma put_all_other us m id : id ∉ us.*1 → put_all us m !! id = m !! id.
Proof.
  revert m. induction us as [|[i a] us IH]; intros m Hid; [done|]. cbn in *. rewrite IH; [set_solver|]. rewrite lookup_insert_ne //. set_solver.
Qed.

Lemma records_lookup us id : ∀ m m0, m !! id = m0 !! id → foldl put_record m0 (records_of us m) !! id = put_all us m0 !! id.
Proof.
  induction us as [|[i a] us IH]; intros m m0 Heq; [done|]. cbn [records_of]. rewrite foldl_app. change (put_all ((i, a) :: us) m0) with (put_all us (<[i := a]> m0)).
  rewrite (IH _ (foldl put_record m0 (recorded i a m))).
  - unfold recorded. case_decide as Hd; cbn; (destruct (decide (i = id)) as [-> | Hne]; [by rewrite ?lookup_insert_eq -?Heq ?Hd|by rewrite !lookup_insert_ne]).
  - apply put_all_lookup. unfold recorded. case_decide as Hd; [|done]. cbn.
    destruct (decide (i = id)) as [-> | Hne]; [by rewrite lookup_insert_eq -Heq|by rewrite lookup_insert_ne].
Qed.

Lemma session_lookup cfg us recs id :
  id ≠ node_id cfg → id ∉ (configured (peers_of cfg)).*1 → put_all (session_updates cfg us) (own_entry cfg recs) !! id = put_all us (book_of recs) !! id.
Proof.
  intros Hid Hc. unfold session_updates. rewrite !put_all_app. apply put_all_lookup. rewrite !put_all_other //. by rewrite lookup_insert_ne.
Qed.

Lemma session_records_lookup cfg us id :
  id ≠ node_id cfg → id ∉ (configured (peers_of cfg)).*1 → book_of (session_records cfg us []) !! id = put_all us ∅ !! id.
Proof.
  intros Hid Hc. unfold book_of, session_records. rewrite records_lookup; [by rewrite lookup_insert_ne|].
  unfold session_updates. rewrite !put_all_app. apply put_all_lookup. by rewrite !put_all_other.
Qed.

Lemma records_other us m m0 id : id ∉ us.*1 → foldl put_record m0 (records_of us m) !! id = m0 !! id.
Proof.
  revert m m0. induction us as [|[i a] us IH]; intros m m0 Hid; [done|]. cbn in *. rewrite foldl_app IH; [set_solver|].
  unfold recorded. case_decide; [done|]. cbn. rewrite lookup_insert_ne //. set_solver.
Qed.

(** C20: the addresses a node was told are known after a restart: for a peer that is neither the node itself nor
    in the configuration, the last one it was told, in the process that was told and in the next one. *)
Theorem addresses_survive_restart n fuel cfg us b :
  let r := session_records cfg us [] in
  0 ≤ n → all_accepted (session_updates cfg us) → records_covered r → (length r + 3 ≤ fuel)%nat →
  log_holds (n + len (session_records cfg [] r) + len r) b [] →
  ∃ b1 b2, session fuel cfg us b = (Ok tt, b1) ∧ session fuel cfg [] (reopened b1) = (Ok tt, b2) ∧
    ∀ id, id ≠ node_id cfg → id ∉ (configured (peers_of cfg)).*1 →
      peer_addrs b1 !! id = put_all us ∅ !! id ∧ peer_addrs b2 !! id = put_all us ∅ !! id.
Proof.
  intros r Hn Hacc Hcov Hfuel Hh. pose proof (len_nonneg (session_records cfg [] r)).
  assert (records_covered []) as Hc0 by (split; [done|rewrite /READ_ALL_BYTES; consts|done]).
  destruct (session_ok (n + len (session_records cfg [] r)) fuel cfg us b []) as (b1 & E1 & Hh1 & Hp1); [lia|done|done|cbn in *; lia|done|].
  destruct (session_ok n fuel cfg [] (reopened b1) r) as (b2 & E2 & Hh2 & Hp2); [lia| |done|done|exact Hh1|].
  { unfold session_updates in *. rewrite app_nil_r. apply Forall_app in Hacc as [Hc Hacc]. by apply Forall_app. }
  exists b1, b2. split_and!; [done|done|]. intros id Hid Hc. rewrite Hp1 Hp2. rewrite !session_lookup //. split; [done|].
  cbn. by apply session_records_lookup.
Qed.

(** and no longer known after the next restart. Reading the log at the start consumes it, and what was read is not
    written again: a second start finds only the peers of the configuration. *)
Theorem second_restart_forgets n fuel cfg us b :
  let r := session_records cfg us [] in let r' := session_records cfg [] r in
  0 ≤ n → all_accepted (session_updates cfg us) → records_covered r → records_covered r' → (length r + length r' + 3 ≤ fuel)%nat →
  log_holds (n + len (session_records cfg [] r') + len r' + len r) b [] →
  ∃ b1 b2 b3, session fuel cfg us b = (Ok tt, b1) ∧ session fuel cfg [] (reopened b1) = (Ok tt, b2) ∧
    session fuel cfg [] (reopened b2) = (Ok tt, b3) ∧
    ∀ id, id ≠ node_id cfg → id ∉ (configured (peers_of cfg)).*1 → peer_addrs b2 !! id = put_all us ∅ !! id ∧ peer_addrs b3 !! id = None.
Proof.
  intros r r' Hn Hacc Hcov Hcov' Hfuel Hh. set (r'' := session_records cfg [] r') in *. pose proof (len_nonneg r'). pose proof (len_nonneg r'').
  assert (records_covered []) as Hc0 by (split; [done|rewrite /READ_ALL_BYTES; consts|done]).
  assert (all_accepted (session_updates cfg [])) as Hacc0.
  { unfold session_updates in *. rewrite app_nil_r. apply Forall_app in Hacc as [Hc Hacc]. by apply Forall_app. }
  destruct (session_ok (n + len r'' + len r') fuel cfg us b []) as (b1 & E1 & Hh1 & Hp1); [lia|done|done|cbn in *; lia|done|].
  destruct (session_ok (n + len r'') fuel cfg [] (reopened b1) r) as (b2 & E2 & Hh2 & Hp2); [lia|done|done|lia|exact Hh1|].
  destruct (session_ok n fuel cfg [] (reopened b2) r') as (b3 & E3 & Hh3 & Hp3); [lia|done|done|lia|exact Hh2|].
  exists b1, b2, b3. split_and!; [done|done|done|]. intros id Hid Hc. rewrite Hp2 Hp3. rewrite !session_lookup //. cbn. split; [by apply session_records_lookup|].
  unfold r', session_records, book_of. rewrite records_other //. unfold session_updates. rewrite app_nil_r fmap_app. by intros [?|?]%elem_of_app.
Qed.
End book.

(** * Calls of the network *)

Section network.
Context {R AReq AResp VReq VResp SReq SResp : Type} `{RaftApi R AReq AResp VReq VResp SReq SResp}.
Context `{BincodeLaws AReq, BincodeLaws AResp, BincodeLaws VReq, BincodeLaws VResp, Bincode SReq, Bincode SResp}.

(** The network to a peer that serves its calls with [node_handler]; the state is that of the peer's Raft instance. *)
Definition peer_wire (addrs : gmap Z SocketAddr) (id : Z) (custom : option (RpcRequest → ResponsePayload)) : Wire R :=
  MkWire (λ target, ret (addrs !! target)) (λ _ payload, node_handler custom (MkRequest id payload)).

(** What the caller sees of an answer. *)
Definition network_answer {Resp} (o : outcome Resp * R) : outcome (RPCError + Resp) * R :=
  match o with
  | (Ok x, r) => (Ok (inr x), r)
  | (Err _, r) => (Ok (inl Network), r)
  | (Panic, r) => (Panic, r)
  | (Hang, r) => (Hang, r)
  end.

Lemma answer_bytes_ok {Req Resp} `{BincodeLaws Req} `{Bincode Resp} (g : Req → M R Resp) req r :
  answer_bytes g (serialize req) r =
    match g req r with (Ok x, r) => (Ok (serialize x), r) | (Err _, r) => (Ok [], r) | (Panic, r) => (Panic, r) | (Hang, r) => (Hang, r) end.
Proof. unfold answer_bytes. rewrite bincode_roundtrip. unfold bind, attempt. by destruct (g req r) as [[] ?]. Qed.

Lemma call_peer_ok {Req Resp} `{BincodeLaws Req} `{BincodeLaws Resp} addrs id custom f self target a kind (g : Req → M R Resp) req r :
  addrs !! target = Some a → filtered self target f = false → (deserialize [] : option Resp) = None →
  serve_openraft kind (serialize req) r = answer_bytes g (serialize req) r →
  call_peer (peer_wire addrs id custom) f self target kind req r = network_answer (g req r).
Proof.
  intros Ha Hf Hnil Hserve. unfold call_peer, send_openraft, bind at 1, attempt. rewrite Hf. unfold bind at 1. cbn [lookup_addr rpc_request peer_wire ret]. rewrite Ha.
  unfold node_handler. cbn [req_payload]. unfold bind at 1. rewrite Hserve answer_bytes_ok.
  destruct (g req r) as [[x|e| |] r']; cbn; rewrite ?decide_True //; [by rewrite bincode_roundtrip|by rewrite Hnil].
Qed.

(** C17: a call of the network is a call of the peer's Raft instance. Encoding, dispatch by kind and decoding add
    nothing: the caller gets exactly the peer's answer, and a network error when the peer's instance fails; and a
    filtered call does not reach the peer. *)
Theorem network_calls_raft addrs id custom f self target a :
  addrs !! target = Some a → (deserialize [] : option AResp) = None → (deserialize [] : option VResp) = None →
  (filtered self target f = false →
    (∀ req r, net_append_entries (peer_wire addrs id custom) f self target req r = network_answer (raft_append_entries req r)) ∧
    (∀ req r, net_vote (peer_wire addrs id custom) f self target req r = network_answer (raft_vote req r))) ∧
  (filtered self target f = true →
    (∀ req r, net_append_entries (peer_wire addrs id custom) f self target req r = (Ok (inl Unreachable), r)) ∧
    (∀ req r, net_vote (peer_wire addrs id custom) f self target req r = (Ok (inl Unreachable), r))).
Proof.
  intros Ha Hna Hnv. split; intros Hf.
  - split; intros req r; by apply (call_peer_ok _ _ _ _ _ _ a).
  - unfold net_append_entries, net_vote, call_peer, send_openraft. by rewrite Hf.
Qed.
End network.
