(* ===== verification/OctopiiChunk.v ===== *)
(** Chunks and messages on a connection: [src/octopii/src/transport/peer.rs], [src/octopii/src/chunk.rs] and
    [src/octopii/src/shipping_lane.rs].

    Every message and every chunk has a stream of its own. The receiver sees the bytes of the stream in pieces, up to its
    end; what it answers goes back on the same stream. Both ends are computations on their side of a stream. The
    theorems say what the two ends of a transfer agree on, and when they do not. *)

From S2P Require Import Prelude Config Instances OctopiiRpc.

#[local] Open Scope Z_scope.

(** [sha2]. *)
Class Sha256 := { sha256 : list Z → list Z }.
Class Sha256Laws `{Sha256} : Prop := {
  sha256_len d : len (sha256 d) = 32;
  sha256_bytes d : Forall is_byte (sha256 d);
}.

(** A [u32] and a [u64] in little-endian bytes. *)
Definition u32_bytes (z : Z) : list Z := le_bytes 4 (z mod 2 ^ 32).
Definition u64_bytes (z : Z) : list Z := le_bytes 8 (wrap64 z).

(** * One side of a stream *)

(** [incoming]: what is still to be read, up to the end of the stream, which is proper or a reset; [pieces]: how large the
    pieces are that reads find, less one byte; [listens]: whether the peer still takes what is written; the file that a receiver
    writes, with the space it has. *)
Record Stream := MkStream {
  incoming : list Z;
  finished : bool;
  pieces : list nat;
  listens : bool;
  outgoing : list Z;
  file : option (list Z);
  can_create : bool;
  room : Z;
}.
Definition set_incoming (l : list Z) (p : list nat) (s : Stream) : Stream :=
  MkStream l (finished s) p (listens s) (outgoing s) (file s) (can_create s) (room s).

Definition write_all (data : list Z) : M Stream unit :=
  let! s := getS in
  if listens s then modify (λ s, MkStream (incoming s) (finished s) (pieces s) (listens s) (outgoing s ++ data) (file s) (can_create s) (room s))
  else fail KOther "Write error".

(** [read_exact]. *)
Definition read_exact (n : Z) : M Stream (list Z) :=
  let! s := getS in
  if n <=? len (incoming s) then
    modify (set_incoming (drop (Z.to_nat n) (incoming s)) (pieces s)) ;; ret (take (Z.to_nat n) (incoming s))
  else fail KOther "Read error".

(** [read] into a buffer of [n > 0] bytes: at least one byte, [None] at a proper end. *)
Definition read_some (n : Z) : M Stream (option (list Z)) :=
  let! s := getS in
  match incoming s with
  | [] => if finished s then ret None else fail KOther "Read error"
  | l =>
      let k := Nat.min (Z.to_nat n) (S (default (length l) (head (pieces s)))) in
      modify (set_incoming (drop k l) (tail (pieces s))) ;; ret (Some (take k l))
  end.

(** * Messages: [send] and [recv] *)

Definition message_bytes (data : list Z) : list Z := u32_bytes (len data) ++ data.

(** The length of a message is cut to 32 bits, and its acknowledgment is the end of the other direction. *)
Definition recv : M Stream (option (list Z)) :=
  let! len_buf := read_exact 4 in
  let! data := read_exact (le_value len_buf) in
  ret (Some data).

(** * Chunks *)

Inductive ChunkSource :=
  | File (metadata_len : Z) (content : list Z)
  | Memory (bytes : list Z).

Definition BUFFER_SIZE : Z := 64 * 1024.

Section chunk.
Context `{Sha256}.

(** What [send_chunk_verified] writes. A file has the size its metadata told before it was read. *)
Definition chunk_size (c : ChunkSource) : Z := match c with File n _ => n | Memory d => len d end.
Definition chunk_content (c : ChunkSource) : list Z := match c with File _ d => d | Memory d => d end.
Definition chunk_bytes (c : ChunkSource) : list Z := u64_bytes (chunk_size c) ++ chunk_content c ++ sha256 (chunk_content c).

(** The end of [send_chunk_verified]: the status the receiver has answered. *)
Definition sent (c : ChunkSource) : M Stream Z :=
  let! ack := read_exact 1 in
  match ack with
  | [0] => ret (chunk_size c)
  | [1] => fail KOther "Checksum verification failed on peer"
  | _ => fail KOther "Unknown error on peer"
  end.

(** The loop of both receivers; [put] is what they do with a piece besides hashing it, [data] what they have read. *)
Fixpoint recv_loop (put : list Z → M Stream unit) (fuel : nat) (total_size : Z) (data : list Z) : M Stream (list Z) :=
  match fuel with
  | O => hang
  | S fuel =>
      if len data <? total_size then
        let! r := attempt (read_some (Z.min BUFFER_SIZE (total_size - len data))) in
        match r with
        | Some (Some piece) => put piece ;; recv_loop put fuel total_size (data ++ piece)
        | Some None => ignore (write_all [2]) ;; fail KOther "Unexpected EOF"
        | None => ignore (write_all [2]) ;; fail KOther "Read error"
        end
      else ret data
  end.

(** What both receivers do before and after the loop. *)
Definition recv_size : M Stream Z :=
  let! size := attempt (read_exact 8) in
  match size with
  | Some buf => ret (le_value buf)
  | None => ignore (write_all [2]) ;; fail KOther "Failed to read size"
  end.
Definition recv_checksum : M Stream (list Z) :=
  let! sum := attempt (read_exact 32) in
  match sum with
  | Some buf => ret buf
  | None => ignore (write_all [2]) ;; fail KOther "Failed to read checksum"
  end.

(** [recv_chunk_verified], on a stream that was opened. *)
Definition recv_chunk_verified (fuel : nat) : M Stream (option (list Z)) :=
  let! total_size := recv_size in
  let! data := recv_loop (λ _, ret tt) fuel total_size [] in
  let! received_checksum := recv_checksum in
  if decide (sha256 data = received_checksum) then write_all [0] ;; ret (Some data)
  else write_all [1] ;; fail KOther "Checksum verification failed".

(** The file: creating it empties it, a write needs space. *)
Definition create_file : M Stream unit :=
  let! s := getS in
  if can_create s then modify (λ s, MkStream (incoming s) (finished s) (pieces s) (listens s) (outgoing s) (Some []) (can_create s) (room s))
  else fail KOther "create".
Definition append_file (data : list Z) : M Stream unit :=
  let! s := getS in
  if len data <=? room s then
    modify (λ s, MkStream (incoming s) (finished s) (pieces s) (listens s) (outgoing s) (Some (default [] (file s) ++ data)) (can_create s) (room s - len data))
  else fail KOther "File write failed".

(** [recv_chunk_to_path]: a file that cannot be created is answered, one that cannot be written is not. *)
Definition recv_chunk_to_path (fuel : nat) : M Stream (option Z) :=
  let! total_size := recv_size in
  let! created := attempt create_file in
  match created with
  | None => ignore (write_all [2]) ;; fail KOther "Failed to create file"
  | Some _ =>
      let! data := recv_loop append_file fuel total_size [] in
      let! received_checksum := recv_checksum in
      if decide (sha256 data = received_checksum) then write_all [0] ;; ret (Some (len data))
      else ignore (write_all [1]) ;; fail KOther "Checksum verification failed"
  end.

(** * The shipping lane *)

Record TransferResult := MkTransfer {
  tr_peer : SocketAddr;
  tr_success : bool;
  bytes_transferred : Z;
  checksum_verified : bool;
  tr_error : option string;
}.
Definition transfer_success (a : SocketAddr) (n : Z) : TransferResult := MkTransfer a true n true None.
Definition transfer_failure (a : SocketAddr) (e : string) : TransferResult := MkTransfer a false 0 false (Some e).

(** [send_file] and [send_memory], once connected. *)
Definition lane_send (a : SocketAddr) (c : ChunkSource) : M Stream TransferResult := λ s,
  match sent c s with
  | (Ok n, s') => (Ok (transfer_success a n), s')
  | (Err e, s') => (Ok (transfer_failure a (err_msg e)), s')
  | (Panic, s') => (Panic, s')
  | (Hang, s') => (Hang, s')
  end.

Definition receive_memory (fuel : nat) (a : SocketAddr) : M Stream (TransferResult * option (list Z)) := λ s,
  match recv_chunk_verified fuel s with
  | (Ok (Some d), s') => (Ok (transfer_success a (len d), Some d), s')
  | (Ok None, s') => (Ok (transfer_failure a "connection closed before data", None), s')
  | (Err e, s') => (Ok (transfer_failure a (err_msg e), None), s')
  | (Panic, s') => (Panic, s')
  | (Hang, s') => (Hang, s')
  end.

(** An error of the receiver is returned as it is. *)
Definition receive_file (fuel : nat) (a : SocketAddr) : M Stream TransferResult :=
  let! r := recv_chunk_to_path fuel in
  match r with
  | Some n => ret (transfer_success a n)
  | None => ret (transfer_failure a "connection closed before data transfer")
  end.
End chunk.

(** * Reading *)

Lemma set_incoming_same s : set_incoming (incoming s) (pieces s) s = s.
Proof. by destruct s. Qed.

Lemma read_exact_ok n s d rest :
  incoming s = d ++ rest → len d = n → read_exact n s = (Ok d, set_incoming rest (pieces s) s).
Proof.
  intros Hi Hn. unfold read_exact, bind, getS, modify, ret. rewrite Hi len_app. pose proof (len_nonneg rest).
  destruct (Z.leb_spec n (len d + len rest)); [|lia]. assert (Z.to_nat n = length d) as -> by (unfold len in Hn; lia).
  by rewrite take_app_length drop_app_length.
Qed.

Lemma read_exact_split n s :
  0 ≤ n → n ≤ len (incoming s) →
  ∃ d, len d = n ∧ incoming s = d ++ drop (Z.to_nat n) (incoming s) ∧ read_exact n s = (Ok d, set_incoming (drop (Z.to_nat n) (incoming s)) (pieces s) s).
Proof.
  intros H0 Hn. exists (take (Z.to_nat n) (incoming s)). assert (len (take (Z.to_nat n) (incoming s)) = n) as El by (unfold len in *; rewrite length_take; lia).
  split; [done|]. rewrite take_drop. split; [done|]. apply read_exact_ok; [by rewrite take_drop|done].
Qed.

Lemma read_exact_short n s : len (incoming s) < n → read_exact n s = (Err (IoError KOther "Read error"), s).
Proof. intros Hn. unfold read_exact, bind, getS. by destruct (Z.leb_spec n (len (incoming s))); [lia|]. Qed.

Lemma read_some_ok n s :
  0 < n → incoming s ≠ [] →
  ∃ d rest p, d ≠ [] ∧ len d ≤ n ∧ incoming s = d ++ rest ∧ read_some n s = (Ok (Some d), set_incoming rest p s).
Proof.
  intros Hn Hi. unfold read_some, bind, getS. destruct (incoming s) as [|x l] eqn:E1; [done|]. set (k := Nat.min _ _).
  exists (take k (x :: l)), (drop k (x :: l)), (tail (pieces s)). assert (0 < k)%nat by (unfold k; lia). split_and!.
  - by destruct k; [lia|].
  - unfold len. rewrite length_take. unfold k. lia.
  - by rewrite take_drop.
  - done.
Qed.

Lemma read_some_end n s : incoming s = [] → attempt (read_some n) s = (Ok (if finished s then Some None else None), s).
Proof. intros E1. unfold attempt, read_some, bind, getS. rewrite E1. by destruct (finished s). Qed.

(** An answer that may get lost. *)
Definition answered_with (st : Z) (s : Stream) : Stream := (write_all [st] s).2.
Lemma answered_outgoing st s : outgoing (answered_with st s) = outgoing s ++ (if listens s then [st] else []).
Proof. unfold answered_with, write_all, bind, getS. destruct (listens s); cbn; by rewrite ?app_nil_r. Qed.
Lemma ignore_write st s : ignore (write_all [st]) s = (Ok tt, answered_with st s).
Proof. unfold answered_with, ignore, write_all, bind, getS. by destruct (listens s). Qed.

Definition put_out (data : list Z) (s : Stream) : Stream :=
  MkStream (incoming s) (finished s) (pieces s) (listens s) (outgoing s ++ data) (file s) (can_create s) (room s).
Lemma write_all_ok data s : listens s = true → write_all data s = (Ok tt, put_out data s).
Proof. intros Hl. unfold write_all, bind, getS. by rewrite Hl. Qed.

(** * The loop of the receivers *)

Section loop.
Context (put : list Z → M Stream unit) (upd : list Z → Stream → Stream) (fits : Z → Stream → Prop).
Hypothesis put_ok : ∀ d s, fits (len d) s → put d s = (Ok tt, upd d s).
Hypothesis fits_split : ∀ d n s l p, 0 ≤ n → fits (len d + n) s → fits (len d) (set_incoming l p s) ∧ fits n (upd d (set_incoming l p s)).
Hypothesis upd_reads : ∀ d s, incoming (upd d s) = incoming s ∧ finished (upd d s) = finished s ∧ listens (upd d s) = listens s ∧ outgoing (upd d s) = outgoing s.
Hypothesis upd_set : ∀ d s l p, set_incoming l p (upd d s) = upd d (set_incoming l p s).
Hypothesis upd_app : ∀ d d' s, upd d' (upd d s) = upd (d ++ d') s.
Hypothesis upd_nil : ∀ s, fits 0 s → upd [] s = s.

(** It reads what is missing, however the bytes come; the fuel covers a byte a turn. *)
Lemma recv_loop_ok d : ∀ fuel data rest s,
  incoming s = d ++ rest → (length d < fuel)%nat → fits (len d) s →
  ∃ p, recv_loop put fuel (len data + len d) data s = (Ok (data ++ d), upd d (set_incoming rest p s)).
Proof.
  induction d as [d IH] using (induction_ltof1 _ length). intros fuel data rest s Hi Hfuel Hfit. destruct fuel as [|fuel]; [lia|]. cbn [recv_loop].
  destruct (Z.ltb_spec (len data) (len data + len d)) as [Hlt|Hge]; cycle 1.
  { assert (d = []) as -> by (destruct d; [done|rewrite len_cons in Hge; pose proof (len_nonneg d); lia]). exists (pieces s). cbn in Hi. subst rest.
    rewrite set_incoming_same app_nil_r upd_nil //. }
  destruct (read_some_ok (Z.min BUFFER_SIZE (len data + len d - len data)) s) as (x & rest' & p & Hx & Hlen & Hi' & Hread).
  { unfold BUFFER_SIZE. lia. }
  { rewrite Hi. destruct d; [rewrite len_nil in Hlt; lia|done]. }
  assert (∃ d', d = x ++ d' ∧ rest' = d' ++ rest) as (d' & -> & ->).
  { rewrite Hi in Hi'. exists (drop (length x) d). unfold len in Hlen. split.
    - rewrite -{1}(take_drop (length x) d). f_equal. apply (f_equal (take (length x))) in Hi'. rewrite take_app_length in Hi'.
      rewrite take_app_le in Hi'; [lia|done].
    - apply (f_equal (drop (length x))) in Hi'. rewrite drop_app_length drop_app_le in Hi'; [lia|done]. }
  unfold bind at 1, attempt. rewrite Hread. rewrite len_app in Hfit |- *. destruct (fits_split x (len d') s (d' ++ rest) p (len_nonneg d') Hfit) as [Hf1 Hf2].
  unfold bind at 1. rewrite put_ok //. assert (0 < length x)%nat by (destruct x; [done|cbn; lia]).
  replace (len data + (len x + len d')) with (len (data ++ x) + len d') by (rewrite len_app; lia).
  destruct (IH d') with (fuel := fuel) (data := data ++ x) (rest := rest) (s := upd x (set_incoming (d' ++ rest) p s)) as (p' & ->).
  - unfold ltof. rewrite length_app. lia.
  - by destruct (upd_reads x (set_incoming (d' ++ rest) p s)) as (-> & _).
  - rewrite length_app in Hfuel. lia.
  - done.
  - exists p'. by rewrite upd_set upd_app app_assoc.
Qed.

(** A stream that ends too early. *)
Lemma recv_loop_short d : ∀ fuel total data s,
  incoming s = d → len data + len d < total → (length d < fuel)%nat → fits (len d) s →
  ∃ msg s', recv_loop put fuel total data s = (Err (IoError KOther msg), s') ∧ outgoing s' = outgoing s ++ (if listens s then [2] else []).
Proof.
  induction d as [d IH] using (induction_ltof1 _ length). intros fuel total data s Hi Ht Hfuel Hfit. destruct fuel as [|fuel]; [lia|]. cbn [recv_loop].
  pose proof (len_nonneg d). destruct (Z.ltb_spec (len data) total); [|lia]. destruct d as [|b d].
  - unfold bind at 1. rewrite read_some_end //. destruct (finished s); unfold bind; rewrite ignore_write; do 2 eexists; (split; [done|]); apply answered_outgoing.
  - destruct (read_some_ok (Z.min BUFFER_SIZE (total - len data)) s) as (x & rest & p & Hx & Hlen & Hi' & Hread); [unfold BUFFER_SIZE; lia|by rewrite Hi|].
    rewrite Hi in Hi'. rewrite Hi' in Ht, Hfuel, Hfit, IH. rewrite len_app in Ht, Hfit. rewrite length_app in Hfuel. assert (0 < length x)%nat by (destruct x; [done|cbn; lia]).
    destruct (fits_split x (len rest) s rest p (len_nonneg rest) Hfit) as [Hf1 Hf2]. unfold bind at 1, attempt. rewrite Hread. unfold bind at 1. rewrite put_ok //.
    destruct (upd_reads x (set_incoming rest p s)) as (Eu & _ & El & Eo).
    destruct (IH rest) with (fuel := fuel) (total := total) (data := data ++ x) (s := upd x (set_incoming rest p s)) as (msg & s' & E2 & Ho).
    + unfold ltof. rewrite length_app. lia.
    + done.
    + rewrite len_app. lia.
    + lia.
    + done.
    + exists msg, s'. split; [exact E2|]. by rewrite Ho El Eo.
Qed.
End loop.

Lemma le_bytes_value bs : Forall is_byte bs → le_bytes (length bs) (le_value bs) = bs.
Proof.
  induction 1 as [|b bs [Hb1 Hb2] Hbs IH]; [done|]. cbn [length le_value le_bytes]. rewrite Z.mul_comm.
  rewrite Z_mod_plus_full Z.mod_small // Z.div_add // Z.div_small // Z.add_0_l. by f_equal.
Qed.

Lemma len_u64 z : len (u64_bytes z) = 8.
Proof. unfold len, u64_bytes. by rewrite length_le_bytes. Qed.
Lemma value_u64 z : is_u64 z → le_value (u64_bytes z) = z.
Proof. intros [Hz1 Hz2]. unfold u64_bytes, wrap64. unfold U64_MAX in Hz2. rewrite Z.mod_small; [lia|]. apply le_value_bytes. change (256 ^ Z.of_nat 8) with (2 ^ 64). lia. Qed.
Lemma u64_value bs : Forall is_byte bs → len bs = 8 → u64_bytes (le_value bs) = bs ∧ is_u64 (le_value bs).
Proof.
  intros Hb Hl. pose proof (le_value_range bs Hb) as Hr. assert (length bs = 8%nat) as El by (unfold len in Hl; lia). rewrite El in Hr.
  change (256 ^ Z.of_nat 8) with (2 ^ 64) in Hr. unfold u64_bytes, wrap64, is_u64, U64_MAX. rewrite Z.mod_small //. split; [|lia]. rewrite -El. by apply le_bytes_value.
Qed.

Section memory.
Context `{Sha256Laws}.

Lemma recv_memory_ok d fuel data rest s :
  incoming s = d ++ rest → (length d < fuel)%nat →
  ∃ p, recv_loop (λ _, ret tt) fuel (len data + len d) data s = (Ok (data ++ d), set_incoming rest p s).
Proof. intros Hi Hf. by apply (recv_loop_ok (λ _, ret tt) (λ _ s, s) (λ _ _, True)). Qed.

Lemma recv_memory_short fuel total data s :
  len data + len (incoming s) < total → (length (incoming s) < fuel)%nat →
  ∃ msg s', recv_loop (λ _, ret tt) fuel total data s = (Err (IoError KOther msg), s') ∧ outgoing s' = outgoing s ++ (if listens s then [2] else []).
Proof. intros Ht Hf. by apply (recv_loop_short (λ _, ret tt) (λ _ s, s) (λ _ _, True)) with (d := incoming s). Qed.

(** The two ways to begin and to end. *)
Lemma recv_size_split s :
  (len (incoming s) < 8 ∧ ∃ msg, recv_size s = (Err (IoError KOther msg), answered_with 2 s)) ∨
  ∃ buf rest, len buf = 8 ∧ incoming s = buf ++ rest ∧ recv_size s = (Ok (le_value buf), set_incoming rest (pieces s) s).
Proof.
  destruct (decide (len (incoming s) < 8)) as [Hlt|Hge].
  - left. split; [done|]. unfold recv_size, bind, attempt. rewrite read_exact_short // ignore_write. by eexists.
  - right. destruct (read_exact_split 8 s) as (buf & Hl & Hi & Hr); [lia|lia|]. exists buf, (drop (Z.to_nat 8) (incoming s)). unfold recv_size, bind, attempt. by rewrite Hr.
Qed.

Lemma recv_checksum_split s :
  (len (incoming s) < 32 ∧ ∃ msg, recv_checksum s = (Err (IoError KOther msg), answered_with 2 s)) ∨
  ∃ buf rest, len buf = 32 ∧ incoming s = buf ++ rest ∧ recv_checksum s = (Ok buf, set_incoming rest (pieces s) s).
Proof.
  destruct (decide (len (incoming s) < 32)) as [Hlt|Hge].
  - left. split; [done|]. unfold recv_checksum, bind, attempt. rewrite read_exact_short // ignore_write. by eexists.
  - right. destruct (read_exact_split 32 s) as (buf & Hl & Hi & Hr); [lia|lia|]. exists buf, (drop (Z.to_nat 32) (incoming s)). unfold recv_checksum, bind, attempt. by rewrite Hr.
Qed.

Lemma app_eq_len {A} (a b c d : list A) : len a = len c → a ++ b = c ++ d → a = c ∧ b = d.
Proof. intros Hl. apply app_inj_1. unfold len in Hl. lia. Qed.

(** A stream that begins with a chunk begins with the size of that chunk. *)
Lemma chunk_prefix buf rest d rest' :
  len buf = 8 → len d ≤ U64_MAX → buf ++ rest = chunk_bytes (Memory d) ++ rest' → le_value buf = len d ∧ rest = (d ++ sha256 d) ++ rest'.
Proof.
  intros Hl Hd Heq. unfold chunk_bytes in Heq. cbn [chunk_size chunk_content] in Heq. rewrite -(app_assoc (u64_bytes _)) in Heq.
  apply app_eq_len in Heq as [-> ->]; [|by rewrite len_u64]. split; [|done]. apply value_u64. split; [apply len_nonneg|done].
Qed.

Lemma recv_chunk_spec fuel s :
  Forall is_byte (incoming s) → listens s = true → (length (incoming s) < fuel)%nat →
  match recv_chunk_verified fuel s with
  | (Ok (Some d), s') => incoming s = chunk_bytes (Memory d) ++ incoming s' ∧ len d ≤ U64_MAX ∧ outgoing s' = outgoing s ++ [0]
  | (Err _, s') => (∀ d rest, len d ≤ U64_MAX → incoming s ≠ chunk_bytes (Memory d) ++ rest) ∧
      (outgoing s' = outgoing s ++ [1] ∨ outgoing s' = outgoing s ++ [2])
  | _ => False
  end.
Proof.
  intros Hb Hl Hf. unfold recv_chunk_verified, bind at 1. destruct (recv_size_split s) as [[Hlt (msg & ->)]|(buf & rest & Hbuf & Hi & ->)].
  { rewrite answered_outgoing Hl. split; [|by right]. intros d rest _ Heq. rewrite Heq in Hlt. unfold chunk_bytes in Hlt.
    rewrite !len_app len_u64 in Hlt. pose proof (len_nonneg rest). cbn [chunk_content] in Hlt. pose proof (len_nonneg d). pose proof (len_nonneg (sha256 d)). lia. }
  rewrite Hi in Hb, Hf. apply Forall_app in Hb as [Hb1 Hb2]. destruct (u64_value buf Hb1 Hbuf) as [Hu Hr]. rewrite length_app in Hf.
  set (s1 := set_incoming rest (pieces s) s). unfold bind at 1. set (n := le_value buf) in *. destruct (decide (len rest < n)) as [Hshort|Hlong].
  { destruct (recv_memory_short fuel n [] s1) as (msg & s' & -> & Ho); [change (0 + len rest < n); lia|cbn; lia|]. split; [|right; by rewrite Ho /= Hl].
    intros d rest' Hd Heq. rewrite Hi in Heq. apply chunk_prefix in Heq as [En ->]; [|done|done]. fold n in En. rewrite !len_app in Hshort.
    pose proof (len_nonneg rest'). pose proof (len_nonneg (sha256 d)). lia. }
  destruct Hr as [Hn Hr]. set (d := take (Z.to_nat n) rest). assert (len d = n) as Ed by (unfold d, len in *; rewrite length_take; lia).
  assert (rest = d ++ drop (Z.to_nat n) rest) as Erest by by rewrite take_drop.
  destruct (recv_memory_ok d fuel [] (drop (Z.to_nat n) rest) s1) as (p & Eloop); [done|unfold len in *; lia|].
  rewrite len_nil Z.add_0_l Ed in Eloop. rewrite Eloop. unfold bind at 1. set (s2 := set_incoming _ p s1). cbn [app].
  destruct (recv_checksum_split s2) as [[Hlt (msg & ->)]|(sum & rest2 & Hsum & Hi2 & ->)].
  { rewrite answered_outgoing /= Hl. split; [|by right]. intros d' rest' Hd' Heq. rewrite Hi in Heq. apply chunk_prefix in Heq as [En Er]; [|done|done].
    fold n in En. cbn in Hlt. rewrite Er -app_assoc in Hlt. rewrite drop_app_length' in Hlt; [unfold len in En; lia|].
    rewrite len_app sha256_len in Hlt. pose proof (len_nonneg rest'). lia. }
  cbn in Hi2. case_decide as Hd.
  - unfold bind. rewrite write_all_ok //. split; [|split; [lia|done]]. change (incoming (put_out [0] (set_incoming rest2 (pieces s2) s2))) with rest2.
    rewrite Hi. unfold chunk_bytes. cbn [chunk_size chunk_content]. rewrite Ed Hu -app_assoc. f_equal. by rewrite {1}Erest Hi2 Hd -app_assoc.
  - unfold bind. rewrite write_all_ok //. split; [|by left].
    intros d' rest' Hd' Heq. rewrite Hi in Heq. apply chunk_prefix in Heq as [En Er]; [|done|done]. fold n in En. rewrite Erest Hi2 -app_assoc in Er.
    apply app_eq_len in Er as [Edd Er]; [|lia]. subst d'. apply app_eq_len in Er as [Es _]; [|by rewrite sha256_len]. done.
Qed.

(** C18: a chunk is taken exactly when it is there. From any bytes, in any pieces, [recv_chunk_verified] returns: it
    accepts [d] and answers 0 exactly when the stream begins with the size of [d], [d] and its digest, and in every
    other case it fails and answers 1 or 2. *)
Theorem recv_chunk_exact fuel s :
  Forall is_byte (incoming s) → listens s = true → (length (incoming s) < fuel)%nat →
  match recv_chunk_verified fuel s with
  | (Ok (Some d), s') => incoming s = chunk_bytes (Memory d) ++ incoming s' ∧ len d ≤ U64_MAX ∧ outgoing s' = outgoing s ++ [0]
  | (Err _, s') => (∀ d rest, len d ≤ U64_MAX → incoming s ≠ chunk_bytes (Memory d) ++ rest) ∧
      (outgoing s' = outgoing s ++ [1] ∨ outgoing s' = outgoing s ++ [2])
  | _ => False
  end.
Proof. apply recv_chunk_spec. Qed.

(** ** Writing to a file *)

Definition file_has (d : list Z) (s : Stream) : Stream :=
  MkStream (incoming s) (finished s) (pieces s) (listens s) (outgoing s) (Some (default [] (file s) ++ d)) (can_create s) (room s - len d).
Definition file_fits (n : Z) (s : Stream) : Prop := n ≤ room s ∧ is_Some (file s).

Lemma recv_file_ok d fuel data rest s :
  incoming s = d ++ rest → (length d < fuel)%nat → file_fits (len d) s →
  ∃ p, recv_loop append_file fuel (len data + len d) data s = (Ok (data ++ d), file_has d (set_incoming rest p s)).
Proof.
  intros Hi Hf Hfit. apply (recv_loop_ok append_file file_has file_fits); try done.
  - intros x s0 [Hr _]. unfold append_file, bind, getS. by destruct (Z.leb_spec (len x) (room s0)); [|lia].
  - intros x n s0 l p Hn [Hr Hs]. split; [split; [cbn; lia|done]|]. split; [cbn; lia|by eexists].
  - intros x y s0. unfold file_has. cbn. by rewrite app_assoc len_app Z.sub_add_distr.
  - intros s0 [_ [f Ef]]. unfold file_has. rewrite Ef. cbn. rewrite app_nil_r len_nil Z.sub_0_r -Ef. by destruct s0.
Qed.

(** A whole stream, up to the comparison of the digests. *)
Lemma recv_path_run d sum rest fuel s :
  incoming s = u64_bytes (len d) ++ d ++ sum ++ rest → len d ≤ U64_MAX → len sum = 32 → (length d < fuel)%nat → can_create s = true → len d ≤ room s → listens s = true →
  ∃ s1, recv_chunk_to_path fuel s =
    (if decide (sha256 d = sum) then write_all [0] ;; ret (Some (len d))
     else ignore (write_all [1]) ;; fail KOther "Checksum verification failed") s1 ∧
    file s1 = Some d ∧ outgoing s1 = outgoing s ∧ listens s1 = true.
Proof.
  intros Hi Hu Hs Hf Hc Hr Hl. assert (is_u64 (len d)) as Hu' by (split; [apply len_nonneg|done]).
  unfold recv_chunk_to_path, recv_size, bind at 1, bind at 1, attempt at 1. rewrite (read_exact_ok 8 s _ _ Hi (len_u64 _)). cbn [ret]. rewrite value_u64 //.
  unfold bind at 1, attempt at 1, create_file, bind at 1, getS. cbn [can_create set_incoming]. rewrite Hc. unfold modify at 1. set (s1 := MkStream _ _ _ _ _ _ _ _).
  destruct (recv_file_ok d fuel [] (sum ++ rest) s1) as (p & Eloop); [done|done|split; [done|by eexists]|]. rewrite len_nil Z.add_0_l in Eloop.
  unfold bind at 1. rewrite Eloop. cbn [app]. unfold bind at 1, recv_checksum, bind at 1, attempt. erewrite (read_exact_ok 32 _ sum rest); [|done|done]. cbn [ret].
  eexists. split; [reflexivity|]. done.
Qed.

(** * Transfers *)

Lemma sent_success a c t : incoming t = [0] → ∃ t', lane_send a c t = (Ok (transfer_success a (chunk_size c)), t').
Proof. intros Hi. unfold lane_send, sent, bind. rewrite (read_exact_ok 1 t [0] []) //. by eexists. Qed.
Lemma sent_failure a c t :
  incoming t = [1] ∨ incoming t = [2] ∨ incoming t = [] → ∃ e t', lane_send a c t = (Ok (transfer_failure a e), t').
Proof.
  unfold lane_send, sent, bind. intros [Hi|[Hi|Hi]].
  - rewrite (read_exact_ok 1 t [1] []) //. by do 2 eexists.
  - rewrite (read_exact_ok 1 t [2] []) //. by do 2 eexists.
  - rewrite read_exact_short; [by rewrite Hi|]. by do 2 eexists.
Qed.

(** A receiver whose side of the stream is new. *)
Record receiving (c : ChunkSource) (fuel : nat) (s : Stream) : Prop := {
  rc_incoming : incoming s = chunk_bytes c;
  rc_content : Forall is_byte (chunk_content c);
  rc_size : is_u64 (chunk_size c);
  rc_listens : listens s = true;
  rc_outgoing : outgoing s = [];
  rc_fuel : (length (incoming s) < fuel)%nat;
}.

Lemma receiving_bytes c fuel s : receiving c fuel s → Forall is_byte (incoming s).
Proof.
  intros [-> Hc _ _ _ _]. unfold chunk_bytes. rewrite !Forall_app. split_and!; [apply le_bytes_byte|done|apply sha256_bytes].
Qed.

(** C19: a transfer is a transfer. What a sender writes of a chunk whose size is that of its content, the receiver takes
    whole, in memory or to a file with room for it, however the bytes arrive; both ends report the same
    number of bytes, and success. *)
Theorem chunk_transfer c fuel s a b :
  receiving c fuel s → chunk_size c = len (chunk_content c) →
  (∃ s', receive_memory fuel a s = (Ok (transfer_success a (chunk_size c), Some (chunk_content c)), s') ∧
    ∀ t, incoming t = outgoing s' → ∃ t', lane_send b c t = (Ok (transfer_success b (chunk_size c)), t')) ∧
  (can_create s = true → chunk_size c ≤ room s →
    ∃ s', receive_file fuel a s = (Ok (transfer_success a (chunk_size c)), s') ∧ file s' = Some (chunk_content c) ∧
      ∀ t, incoming t = outgoing s' → ∃ t', lane_send b c t = (Ok (transfer_success b (chunk_size c)), t')).
Proof.
  intros Hr Hsize. pose proof (receiving_bytes c fuel s Hr) as Hb. destruct Hr as [Hi Hc Hu Hl Ho Hf]. rewrite Hsize in Hu.
  assert (chunk_bytes c = chunk_bytes (Memory (chunk_content c)) ++ []) as Ec by (unfold chunk_bytes; cbn [chunk_size chunk_content]; by rewrite Hsize app_nil_r). split.
  - pose proof (recv_chunk_spec fuel s Hb Hl Hf) as Hspec. unfold receive_memory.
    destruct (recv_chunk_verified fuel s) as [[[d|]|e| |] s']; [|done| |done|done].
    + destruct Hspec as (Hi' & Hd & Ho'). rewrite Hi Ec in Hi'. symmetry in Hi'. unfold chunk_bytes at 1 in Hi'. rewrite -app_assoc in Hi'.
      apply chunk_prefix in Hi' as [En Er]; [|by rewrite len_u64|apply Hu]. cbn [chunk_size chunk_content] in *. rewrite value_u64 in En; [split; [apply len_nonneg|done]|].
      rewrite app_nil_r -!app_assoc in Er. apply app_eq_len in Er as [-> _]; [|done]. rewrite Hsize. eexists. split; [done|]. intros t Ht.
      rewrite Ho' Ho in Ht. rewrite -Hsize. by apply sent_success.
    + destruct Hspec as [Hno _]. destruct (Hno (chunk_content c) []); [apply Hu|]. by rewrite Hi Ec.
  - intros Hcreate Hroom. rewrite Hsize in Hroom.
    destruct (recv_path_run (chunk_content c) (sha256 (chunk_content c)) [] fuel s) as (s1 & E1 & Hfile & Ho1 & Hl1); try done.
    + rewrite Hi Ec. unfold chunk_bytes. cbn [chunk_size chunk_content]. by rewrite !app_nil_r.
    + apply Hu.
    + apply sha256_len.
    + rewrite Hi in Hf. unfold chunk_bytes in Hf. rewrite !length_app in Hf. lia.
    + rewrite decide_True // in E1. unfold receive_file, bind at 1. rewrite E1. unfold bind at 1. rewrite write_all_ok //. rewrite Hsize. eexists. split; [reflexivity|]. split; [done|].
      intros t Ht. cbn in Ht. rewrite Ho1 Ho in Ht. rewrite -Hsize. by apply sent_success.
Qed.

(** a file that changed while it was sent is not taken. Its size was read first: whether the content has become
    shorter, or longer and its digest is not found after the announced bytes, both ends report a failure. *)
Theorem changed_file_rejected n content fuel s a b :
  receiving (File n content) fuel s →
  len content < n ∨ n < len content ∧ sha256 (take (Z.to_nat n) content) ≠ take 32 (drop (Z.to_nat n) content ++ sha256 content) →
  ∃ e s', receive_memory fuel a s = (Ok (transfer_failure a e, None), s') ∧
    ∀ t, incoming t = outgoing s' → ∃ e' t', lane_send b (File n content) t = (Ok (transfer_failure b e'), t').
Proof.
  intros Hr Hn. pose proof (receiving_bytes _ fuel s Hr) as Hb. destruct Hr as [Hi Hc Hu Hl Ho Hf]. cbn [chunk_size chunk_content] in *.
  pose proof (recv_chunk_spec fuel s Hb Hl Hf) as Hspec. unfold receive_memory.
  destruct (recv_chunk_verified fuel s) as [[[d|]|e| |] s']; [|done| |done|done].
  - exfalso. destruct Hspec as (Hi' & Hd & _). rewrite Hi in Hi'. unfold chunk_bytes at 1 in Hi'. cbn [chunk_size chunk_content] in Hi'.
    apply chunk_prefix in Hi' as [En Er]; [|by rewrite len_u64|done]. rewrite value_u64 // in En.
    destruct Hn as [Hn|[Hn Hsha]].
    + apply (f_equal len) in Er. rewrite !len_app !sha256_len in Er. pose proof (len_nonneg (incoming s')). lia.
    + apply Hsha. rewrite -{1}(take_drop (Z.to_nat n) content) -!app_assoc in Er.
      apply app_eq_len in Er as [E1 E2]; [|rewrite En /len length_take; unfold len in *; lia]. rewrite E1 E2 take_app_length' //.
      pose proof (sha256_len d) as E3. unfold len in E3. lia.
  - destruct Hspec as [_ Ho']. do 2 eexists. split; [reflexivity|]. intros t Ht. rewrite Ho in Ho'. apply sent_failure.
    destruct Ho' as [E1|E1]; rewrite E1 in Ht; auto.
Qed.

(** a rejected chunk stays. When the digest does not match, [recv_chunk_to_path] fails and tells the sender, and the
    bytes it could not verify are the content of the file. *)
Theorem rejected_chunk_stays d sum rest fuel s :
  incoming s = u64_bytes (len d) ++ d ++ sum ++ rest → len d ≤ U64_MAX → len sum = 32 → sum ≠ sha256 d →
  (length d < fuel)%nat → can_create s = true → len d ≤ room s → listens s = true →
  ∃ s', recv_chunk_to_path fuel s = (Err (IoError KOther "Checksum verification failed"), s') ∧ file s' = Some d ∧ outgoing s' = outgoing s ++ [1].
Proof.
  intros Hi Hu Hs Hne Hf Hc Hr Hl. destruct (recv_path_run d sum rest fuel s) as (s1 & E1 & Hfile & Ho1 & Hl1); try done.
  rewrite decide_False in E1; [intros E2; by apply Hne|]. rewrite E1. unfold bind. rewrite ignore_write. eexists. split; [done|].
  unfold answered_with. rewrite write_all_ok //. cbn. by rewrite Ho1.
Qed.
End memory.

(** * Messages *)

Lemma recv_ok n d rest s : incoming s = le_bytes 4 n ++ d ++ rest → 0 ≤ n < 2 ^ 32 → len d = n → recv s = (Ok (Some d), set_incoming rest (pieces s) s).
Proof.
  intros Hi Hn Hd. unfold recv, bind. rewrite (read_exact_ok 4 s _ _ Hi); [unfold len; by rewrite length_le_bytes|]. rewrite le_value_bytes; [by change (256 ^ Z.of_nat 4) with (2 ^ 32)|].
  by rewrite (read_exact_ok n _ d rest).
Qed.

(** a message is received up to 4 GiB. The length is written in 32 bits, so that of a longer message only the
    remainder arrives, without an error. *)
Theorem message_cut_at_32_bits d s :
  incoming s = message_bytes d → ∃ s', recv s = (Ok (Some (take (Z.to_nat (len d mod 2 ^ 32)) d)), s').
Proof.
  intros Hi. pose proof (len_nonneg d). pose proof (Z.mod_pos_bound (len d) (2 ^ 32) ltac:(lia)). pose proof (Z.mod_le (len d) (2 ^ 32) ltac:(lia) ltac:(lia)).
  eexists. apply (recv_ok (len d mod 2 ^ 32) _ (drop (Z.to_nat (len d mod 2 ^ 32)) d)); [by rewrite take_drop Hi|lia|].
  unfold len in *. rewrite length_take. lia.
Qed.

(** a chunk is taken for a message. The loop that reads the messages of a connection opens the streams of chunks
    too: of a chunk of at least 4 bytes and less than 4 GiB it reads the upper half of the size and most of the content as a message, sends
    no status, and the sender reports a failure. *)
Theorem loop_takes_chunk `{Sha256Laws} d s a :
  incoming s = chunk_bytes (Memory d) → 4 ≤ len d < 2 ^ 32 → outgoing s = [] →
  ∃ s', recv s = (Ok (Some (replicate 4 0 ++ take (length d - 4) d)), s') ∧
    ∀ t, incoming t = outgoing s' → ∃ e t', lane_send a (Memory d) t = (Ok (transfer_failure a e), t').
Proof.
  intros Hi Hd Ho. assert (u64_bytes (len d) = le_bytes 4 (len d) ++ replicate 4 0) as E1.
  { unfold u64_bytes, wrap64. rewrite Z.mod_small; [lia|]. cbn [le_bytes replicate app]. do 4 f_equal.
    assert ((((len d `div` 256) `div` 256) `div` 256) `div` 256 = 0) as ->; [|done].
    rewrite !Z.div_div; [lia..|]. apply Z.div_small. lia. }
  eexists. split; [apply (recv_ok (len d) _ (drop (length d - 4) d ++ sha256 d)); [|lia|]|].
  - rewrite Hi. unfold chunk_bytes. cbn [chunk_size chunk_content]. rewrite E1 -!app_assoc. do 2 f_equal. by rewrite app_assoc take_drop.
  - rewrite len_app len_replicate. unfold len in *. rewrite length_take. lia.
  - intros t Ht. cbn in Ht. rewrite Ho in Ht. apply sent_failure. auto.
Qed.
