(* ===== verification/Background.v ===== *)
(** The background worker: [src/src/wal/runtime/background.rs].

    One thread per instance flushes the files whose paths writers published, collects the
    files that are ready to be deleted, and every thousandth turn drops its handles and
    deletes them. A turn of its loop is [worker_turn]; what other threads send between turns
    are steps of the environment. The fsync side of the io_uring crate is the class
    [FsyncRing]. *)

From S2P Require Import Prelude Config Storage Trackers Index.

#[local] Open Scope Z_scope.

(** [ring_push q]: the queue that holds [q] takes one more operation. [ring_submit]: the
    operations in the queue go to the kernel, or an error. [ring_wait]: the same, and the
    completions (user tag and result) that are ready afterwards. *)
Class FsyncRing := {
  ring_new : Fs → bool;
  ring_push : list (string * nat) → bool;
  ring_submit : list (string * nat) → Fs → bool;
  ring_wait : list (string * nat) → Fs → option unit * list (nat * Z);
}.

(** [submit] empties the queue; the kernel answers with the tags it was given. *)
Class FsyncRingOk `{FsyncRing} : Prop := {
  ring_empty_push : ring_push [] = true;
  ring_submit_ok q s : ring_submit q s = true;
  ring_tags q s : Forall (λ c, c.1 ∈ q.*2) (ring_wait q s).2;
}.

Record Worker := MkWorker {
  pool : gmap string StorageImpl;
  tick : Z;
  delete_pending : gset string;
  owns_deletions : bool;      (* its channel is the one in [DELETION_TX] *)
}.

(** The worker with what it shares; [flushed] records the files it has asked to be synced. *)
Record BgEnv := MkBg {
  bg_fs : Fs;
  bg_trk : Trackers;
  bg_rx : list string;
  bg_worker : Worker;
  flushed : list string;
}.

Definition sleep_millis (schedule : FsyncSchedule) : Z :=
  match schedule with
  | Milliseconds ms => Z.max ms 1
  | SyncEach => 5000
  | NoFsync => 10000
  end.

Definition set_pool (p : gmap string StorageImpl) (w : Worker) : Worker :=
  MkWorker p (tick w) (delete_pending w) (owns_deletions w).
Definition set_worker (f : Worker → Worker) : M BgEnv unit :=
  modify (λ e, MkBg (bg_fs e) (bg_trk e) (bg_rx e) (f (bg_worker e)) (flushed e)).
Definition on_bg_fs {A} (m : M Fs A) : M BgEnv A :=
  zoom bg_fs (λ s e, MkBg s (bg_trk e) (bg_rx e) (bg_worker e) (flushed e)) m.
Definition note_flush (p : string) : M BgEnv unit :=
  modify (λ e, MkBg (bg_fs e) (bg_trk e) (bg_rx e) (bg_worker e) (flushed e ++ [p])).

(** Phase 1: everything on the channel, each path once. *)
Definition collect_unique : M BgEnv (list string) := λ e,
  (Ok (elements (list_to_set (bg_rx e) : gset string)),
   MkBg (bg_fs e) (bg_trk e) [] (bg_worker e) (flushed e)).

(** Phase 2: open what is not open yet; a path that is gone or cannot be opened is passed over. *)
Definition open_path (path : string) : M BgEnv unit :=
  let! e := getS in
  if negb (bool_decide (path ∈ fs_names (bg_fs e))) then ret tt
  else
    match pool (bg_worker e) !! path with
    | Some _ => ret tt
    | None =>
        let! r := attempt (on_bg_fs (create_storage_impl path)) in
        match r with
        | Some storage => set_worker (λ w, set_pool (<[path := storage]> (pool w)) w)
        | None => ret tt
        end
    end.

Fixpoint open_paths (unique : list string) : M BgEnv unit :=
  match unique with
  | [] => ret tt
  | path :: unique => open_path path;; open_paths unique
  end.

Definition fsync_batch (unique : list string) (p : gmap string StorageImpl) : list string :=
  filter (λ path, is_Some (st ← p !! path; as_fd st)) unique.

Section worker.
Context `{FsyncRing}.

(** The pushes; a full queue is submitted first, and the push tried once more. *)
Fixpoint push_fsyncs (i : nat) (batch : list string) (q : list (string * nat)) :
    M BgEnv (list (string * nat)) :=
  match batch with
  | [] => ret q
  | path :: batch =>
      let! e := getS in
      if ring_push q then note_flush path;; push_fsyncs (S i) batch (q ++ [(path, i)])
      else if ring_submit q (bg_fs e) then
        if ring_push [] then note_flush path;; push_fsyncs (S i) batch [(path, i)] else panic
      else panic
  end.

(** The completions that are ready, one per operation at most; an error is looked up in
    the batch by its tag. *)
Definition process_completions (batch : list string) (cqes : list (nat * Z)) : M BgEnv unit :=
  if forallb (λ c, (0 <=? c.2) || (c.1 <? length batch)%nat) (take (length batch) cqes)
  then ret tt else panic.

(** Phase 3. *)
Definition flush_fd (unique : list string) : M BgEnv unit :=
  let! e := getS in
  match fsync_batch unique (pool (bg_worker e)) with
  | [] => ret tt
  | batch =>
      let! q := push_fsyncs 0 batch [] in
      let! e := getS in
      process_completions batch (ring_wait q (bg_fs e)).2
  end.

Fixpoint flush_maps (unique : list string) : M BgEnv unit :=
  match unique with
  | [] => ret tt
  | path :: unique =>
      let! e := getS in
      (match pool (bg_worker e) !! path with
       | Some storage => note_flush path;; ignore (on_bg_fs (storage_flush storage))
       | None => ret tt
       end);;
      flush_maps unique
  end.

(** Phase 4: the deletion requests, for the worker whose channel it is. *)
Definition collect_deletions : M BgEnv unit := λ e,
  if owns_deletions (bg_worker e) then
    match DELETION_TX (bg_trk e) with
    | Some queue =>
        let w := bg_worker e in
        (Ok tt, MkBg (bg_fs e) (with_deletions (Some []) (bg_trk e)) (bg_rx e)
                  (MkWorker (pool w) (tick w) (delete_pending w ∪ list_to_set queue) true)
                  (flushed e))
    | None => (Ok tt, e)
    end
  else (Ok tt, e).

(** [fails] are the files that the system refuses to remove this time: the error is only noted. *)
Fixpoint remove_files (fails : gset string) (paths : list string) : M Fs unit :=
  match paths with
  | [] => ret tt
  | p :: paths => (if bool_decide (p ∈ fails) then ret tt else modify (fs_unlink_name p));; remove_files fails paths
  end.

(** Phase 5: every thousandth turn. The requests are drained, whether the files could be removed or not. *)
Definition periodic_cleanup (fails : gset string) : M BgEnv unit :=
  let! e := getS in
  let w := bg_worker e in
  let n := tick w + 1 in
  if n >=? 1000 then
    set_worker (λ w, MkWorker ∅ 0 ∅ (owns_deletions w));;
    on_bg_fs (remove_files fails (elements (delete_pending w)))
  else set_worker (λ w, MkWorker (pool w) n (delete_pending w) (owns_deletions w)).

(** One turn of the loop. *)
Definition worker_turn (fails : gset string) : M BgEnv unit :=
  let! unique := collect_unique in
  open_paths unique;;
  let! e := getS in
  (if USE_FD_BACKEND (bg_fs e) then flush_fd unique else flush_maps unique);;
  collect_deletions;;
  periodic_cleanup fails.

(** [start_background_workers]: the ring is created before the first turn. *)
Definition start_worker (owns : bool) (s : Fs) : option Worker :=
  if ring_new s then Some (MkWorker ∅ 0 ∅ owns) else None.
End worker.

(** * What a turn does *)

(** With the descriptor back end the pool holds descriptors. *)
Definition pool_ok (e : BgEnv) : Prop :=
  USE_FD_BACKEND (bg_fs e) = true →
  map_Forall (λ _ st, is_Some (as_fd st)) (pool (bg_worker e)).

(** Only the pool and the record of flushes differ. *)
Definition same_but_pool (e e' : BgEnv) : Prop :=
  bg_fs e' = bg_fs e ∧ bg_trk e' = bg_trk e ∧ bg_rx e' = bg_rx e ∧
  tick (bg_worker e') = tick (bg_worker e) ∧ delete_pending (bg_worker e') = delete_pending (bg_worker e) ∧
  owns_deletions (bg_worker e') = owns_deletions (bg_worker e).

#[global] Instance same_but_pool_preorder : PreOrder same_but_pool.
Proof.
  split; [done|]. intros e1 e2 e3 (?&?&?&?&?&?) (?&?&?&?&?&?). split_and!; congruence.
Qed.

Lemma open_paths_ok unique : ∀ e, pool_ok e →
  ∃ e', open_paths unique e = (Ok tt, e') ∧ same_but_pool e e' ∧ pool_ok e' ∧ flushed e' = flushed e ∧
    pool (bg_worker e) ⊆ pool (bg_worker e') ∧
    ∀ p, p ∈ unique → p ∈ fs_names (bg_fs e) → is_Some (pool (bg_worker e') !! p).
Proof.
  induction unique as [|q unique IH]; intros e Hp.
  { exists e. split_and!; try done. by intros p ?%not_elem_of_nil. }
  assert (∃ e1, open_path q e = (Ok tt, e1) ∧ same_but_pool e e1 ∧ pool_ok e1 ∧ flushed e1 = flushed e ∧
    pool (bg_worker e) ⊆ pool (bg_worker e1) ∧
    (q ∈ fs_names (bg_fs e) → is_Some (pool (bg_worker e1) !! q))) as (e1 & E1 & Hs1 & Hp1 & Hf1 & Hsub1 & Hq).
  { rewrite /open_path {1}/bind /getS. case_bool_decide as Hn; cbn [negb]; [|by exists e].
    destruct (pool (bg_worker e) !! q) as [st|] eqn:Eq; [by exists e|].
    rewrite /bind /attempt /on_bg_fs /zoom /create_storage_impl /bind /getS bool_decide_eq_true_2 //.
    destruct (USE_FD_BACKEND (bg_fs e)) eqn:Eu; cbn; eexists; (split; [done|]); split_and!; try done;
      [|by apply insert_subseteq|by rewrite lookup_insert_eq|by rewrite /pool_ok /= Eu|by apply insert_subseteq|by rewrite lookup_insert_eq].
    intros _. cbn. apply map_Forall_insert_2; [by eexists|by apply Hp]. }
  destruct (IH e1 Hp1) as (e2 & E2 & Hs2 & Hp2 & Hf2 & Hsub2 & Hall). exists e2.
  split_and!; [|by etrans|done|congruence|by etrans|].
  - cbn. by rewrite /bind E1.
  - intros p [->|Hin]%elem_of_cons Hn; [|apply Hall; [done|]; by destruct Hs1 as (-> & _)].
    destruct (Hq Hn) as [st Hst]. exists st. by eapply lookup_weaken.
Qed.

Section turns.
Context `{FsyncRingOk}.

Lemma push_fsyncs_ok batch : ∀ i q e,
  ∃ q' e', push_fsyncs i batch q e = (Ok q', e') ∧ same_but_pool e e' ∧
    pool (bg_worker e') = pool (bg_worker e) ∧ flushed e' = flushed e ++ batch ∧
    ∀ x, x ∈ q'.*2 → x ∈ q.*2 ∨ (x < i + length batch)%nat.
Proof.
  induction batch as [|p batch IH]; intros i q e.
  { exists q, e. rewrite app_nil_r. split_and!; try done. auto. }
  cbn [push_fsyncs]. rewrite {1}/bind /getS.
  assert (∀ q1, (∀ x, x ∈ q1.*2 → x ∈ q.*2 ∨ (x < S i)%nat) →
    ∃ q' e', (note_flush p;; push_fsyncs (S i) batch q1) e = (Ok q', e') ∧ same_but_pool e e' ∧
      pool (bg_worker e') = pool (bg_worker e) ∧ flushed e' = flushed e ++ p :: batch ∧
      ∀ x, x ∈ q'.*2 → x ∈ q.*2 ∨ (x < i + S (length batch))%nat) as Hgo.
  { intros q1 Hq1. rewrite /bind /note_flush /modify. set e1 := MkBg _ _ _ _ _.
    destruct (IH (S i) q1 e1) as (q' & e' & E & Hs & Hpl & Hf & Hx). exists q', e'.
    split_and!; [done|by etrans|done|by rewrite Hf -app_assoc|].
    intros x Hin. destruct (Hx x Hin) as [Hin'|]; [|right; lia]. destruct (Hq1 x Hin'); [by left|right; lia]. }
  destruct (ring_push q).
  - apply Hgo. intros x. rewrite fmap_app elem_of_app. intros [?|Hin]; [by left|].
    apply list_elem_of_singleton in Hin. right. cbn in Hin. lia.
  - rewrite ring_submit_ok ring_empty_push. apply Hgo. intros x Hin%list_elem_of_singleton. right. cbn in Hin. lia.
Qed.

Lemma flush_fd_ok unique e :
  ∃ e', flush_fd unique e = (Ok tt, e') ∧ same_but_pool e e' ∧ pool (bg_worker e') = pool (bg_worker e) ∧
    flushed e' = flushed e ++ fsync_batch unique (pool (bg_worker e)).
Proof.
  rewrite /flush_fd {1}/bind /getS. destruct (fsync_batch _ _) as [|p batch] eqn:Eb.
  { exists e. by rewrite app_nil_r. }
  destruct (push_fsyncs_ok (p :: batch) 0 [] e) as (q & e1 & E1 & Hs & Hp & Hf & Hx).
  rewrite {1}/bind E1 {1}/bind. exists e1. split_and!; [|done..].
  rewrite /process_completions. assert (forallb (λ c, (0 <=? c.2) || (c.1 <? length (p :: batch))%nat)
    (take (length (p :: batch)) (ring_wait q (bg_fs e1)).2) = true) as ->; [|done].
  apply forallb_forall. intros c Hin%list_elem_of_In%elem_of_take. destruct Hin as (j & Hj & _).
  pose proof (ring_tags q (bg_fs e1)) as Htags. rewrite Forall_lookup in Htags.
  destruct (Hx _ (Htags j c Hj)) as [Hn|Hlt]; [by apply not_elem_of_nil in Hn|].
  apply orb_true_iff. right. by apply Nat.ltb_lt.
Qed.

Lemma flush_maps_ok unique : ∀ e,
  ∃ e', flush_maps unique e = (Ok tt, e') ∧ same_but_pool e e' ∧ pool (bg_worker e') = pool (bg_worker e) ∧
    flushed e' = flushed e ++ filter (λ p, is_Some (pool (bg_worker e) !! p)) unique.
Proof.
  induction unique as [|p unique IH]; intros e; [exists e; by rewrite app_nil_r|].
  cbn [flush_maps]. rewrite {1}/bind /getS {1}/bind.
  destruct (decide (is_Some (pool (bg_worker e) !! p))) as [Hsome|Hnone].
  - rewrite filter_cons_True //. destruct Hsome as [st ->]. rewrite /bind /note_flush /modify.
    set e1 := MkBg _ _ _ _ _. assert (ignore (on_bg_fs (storage_flush st)) e1 = (Ok tt, e1)) as ->.
    { rewrite /ignore /on_bg_fs /zoom /storage_flush. by destruct (env_flush_ok (bg_fs e1)). }
    destruct (IH e1) as (e' & E & Hs & Hp & Hf). exists e'. split_and!; [done|by etrans|done|].
    by rewrite Hf -app_assoc.
  - rewrite filter_cons_False // (proj2 (eq_None_not_Some _) Hnone). apply IH.
Qed.

Lemma remove_files_names fails l : ∀ s,
  ∃ s', remove_files fails l s = (Ok tt, s') ∧ fs_names s' = fs_names s ∖ (list_to_set l ∖ fails) ∧
    USE_FD_BACKEND s' = USE_FD_BACKEND s.
Proof.
  induction l as [|p l IH]; intros s; [exists s; split_and!; [done|set_solver|done]|].
  cbn [remove_files]. case_bool_decide as Hp.
  - destruct (IH s) as (s' & E & Hn & Hu). exists s'. split_and!; [done| |done]. rewrite Hn /=. set_solver.
  - destruct (IH (fs_unlink_name p s)) as (s' & E & Hn & Hu). exists s'. split_and!; [done| |done]. rewrite Hn /=. set_solver.
Qed.

(** The requests a worker has received or will receive. *)
Definition requested (e : BgEnv) : gset string :=
  delete_pending (bg_worker e) ∪
  (if owns_deletions (bg_worker e) then list_to_set (default [] (DELETION_TX (bg_trk e))) else ∅).

Lemma collect_deletions_ok e :
  ∃ e', collect_deletions e = (Ok tt, e') ∧ bg_fs e' = bg_fs e ∧ bg_rx e' = bg_rx e ∧ flushed e' = flushed e ∧
    pool (bg_worker e') = pool (bg_worker e) ∧ tick (bg_worker e') = tick (bg_worker e) ∧
    owns_deletions (bg_worker e') = owns_deletions (bg_worker e) ∧ delete_pending (bg_worker e') = requested e ∧
    (is_Some (DELETION_TX (bg_trk e')) ↔ is_Some (DELETION_TX (bg_trk e))) ∧
    (if owns_deletions (bg_worker e) then default [] (DELETION_TX (bg_trk e')) = [] else True).
Proof.
  rewrite /collect_deletions /requested. destruct (owns_deletions (bg_worker e)) eqn:Eo.
  - destruct (DELETION_TX (bg_trk e)) as [queue|] eqn:Eq; eexists; (split; [done|]); cbn;
      rewrite ?Eq ?Eo /=; split_and!; try done; set_solver.
  - eexists. split; [done|]. rewrite Eo. split_and!; try done. set_solver.
Qed.

(** A turn: what was published is flushed; requests are collected; on the thousandth turn
    the requested names are gone, but for those that could not be removed, and nothing else. *)
Lemma worker_turn_ok fails e :
  pool_ok e →
  ∃ e' fl, worker_turn fails e = (Ok tt, e') ∧ pool_ok e' ∧ bg_rx e' = [] ∧
    owns_deletions (bg_worker e') = owns_deletions (bg_worker e) ∧
    (is_Some (DELETION_TX (bg_trk e')) ↔ is_Some (DELETION_TX (bg_trk e))) ∧
    flushed e' = flushed e ++ fl ∧
    (∀ p, p ∈ bg_rx e → p ∈ fs_names (bg_fs e) → p ∈ fl) ∧
    (if tick (bg_worker e) + 1 >=? 1000
     then tick (bg_worker e') = 0 ∧ fs_names (bg_fs e') = fs_names (bg_fs e) ∖ (requested e ∖ fails) ∧ requested e' = ∅
     else tick (bg_worker e') = tick (bg_worker e) + 1 ∧ bg_fs e' = bg_fs e ∧ requested e' = requested e).
Proof.
  intros Hp. rewrite /worker_turn {1}/bind /collect_unique. set u := elements _. set e0 := MkBg _ _ [] _ _.
  destruct (open_paths_ok u e0 Hp) as (e1 & E1 & Hs1 & Hp1 & Hf1 & _ & Hall). rewrite {1}/bind E1 {1}/bind /getS.
  assert (∃ e2 fl, (if USE_FD_BACKEND (bg_fs e1) then flush_fd u else flush_maps u) e1 = (Ok tt, e2) ∧
    same_but_pool e1 e2 ∧ pool (bg_worker e2) = pool (bg_worker e1) ∧ flushed e2 = flushed e1 ++ fl ∧
    ∀ p, p ∈ u → is_Some (pool (bg_worker e1) !! p) → p ∈ fl) as (e2 & fl & E2 & Hs2 & Hp2 & Hf2 & Hfl).
  { destruct (USE_FD_BACKEND (bg_fs e1)) eqn:Eu.
    - destruct (flush_fd_ok u e1) as (e2 & ? & ? & ? & ?). eexists e2, _. split_and!; [done..|].
      intros p Hin [st Hst]. apply list_elem_of_filter. split; [|done]. rewrite Hst. by apply (Hp1 Eu p).
    - destruct (flush_maps_ok u e1) as (e2 & ? & ? & ? & ?). eexists e2, _. split_and!; [done..|].
      intros p Hin Hst. by apply list_elem_of_filter. }
  rewrite {1}/bind E2. assert (same_but_pool e0 e2) as Hs by by etrans.
  destruct Hs as (Efs & Etrk & Erx & Etick & Epend & Eown). cbn in Efs, Etrk, Erx, Etick, Epend, Eown.
  assert (requested e2 = requested e) as Ereq by by rewrite /requested Eown Epend Etrk.
  destruct (collect_deletions_ok e2) as (e3 & E3 & F1 & F2 & F3 & F4 & F5 & F6 & F7 & F8 & F9).
  rewrite ?Efs ?Erx ?Etick ?Eown ?Etrk ?Ereq in F1 F2 F5 F6 F7 F8 F9.
  assert (∀ p, p ∈ bg_rx e → p ∈ fs_names (bg_fs e) → p ∈ fl) as Hpub.
  { intros p Hin Hn. assert (p ∈ u) as Hu by (rewrite /u elem_of_elements elem_of_list_to_set; done). auto. }
  rewrite {1}/bind E3 /periodic_cleanup {1}/bind /getS F5. destruct (tick (bg_worker e) + 1 >=? 1000).
  - destruct (remove_files_names fails (elements (delete_pending (bg_worker e3))) (bg_fs e3)) as (s' & Er & Hn & Hu).
    eexists _, fl. rewrite {1}/bind /set_worker /modify /on_bg_fs /zoom Er. split; [done|]. cbn.
    split_and!; [|done|done|done|by rewrite F3 Hf2 Hf1|done|done|..].
    + intros Hfd. apply map_Forall_empty.
    + by rewrite Hn F1 F7 list_to_set_elements_L.
    + rewrite /requested /= F6. destruct (owns_deletions (bg_worker e)); [by rewrite F9|]; set_solver.
  - eexists _, fl. split; [done|]. cbn.
    split_and!; [|done|done|done|by rewrite F3 Hf2 Hf1|done|done|done|].
    + intros Hfd. cbn in Hfd |- *. rewrite F4 Hp2. apply Hp1. destruct Hs1 as (-> & _). by rewrite F1 in Hfd.
    + rewrite /requested /= F6 F7 /requested. destruct (owns_deletions (bg_worker e)); [rewrite F9|]; set_solver.
Qed.

(** * Runs *)

(** What happens to a worker's environment: a turn, with the files that the system refuses to remove in it, a writer publishes a path, a file becomes
    ready for deletion, a log file is created. *)
Inductive bg_event :=
  | BTurn (fails : gset string)
  | BPublish (p : string)
  | BRequest (p : string)
  | BCreate (p : string).

Definition bg_step (ev : bg_event) (e : BgEnv) : BgEnv :=
  match ev with
  | BTurn fails => (worker_turn fails e).2
  | BPublish p => MkBg (bg_fs e) (bg_trk e) (bg_rx e ++ [p]) (bg_worker e) (flushed e)
  | BRequest p =>
      MkBg (bg_fs e) (with_deletions ((λ q, q ++ [p]) <$> DELETION_TX (bg_trk e)) (bg_trk e))
           (bg_rx e) (bg_worker e) (flushed e)
  | BCreate p =>
      MkBg (fs_link p (MkFile ∅ MAX_FILE_SIZE) (bg_fs e)) (bg_trk e) (bg_rx e) (bg_worker e) (flushed e)
  end.

Definition bg_run (evs : list bg_event) (e : BgEnv) : BgEnv := foldl (λ e ev, bg_step ev e) e evs.

Lemma pool_ok_step ev e : pool_ok e → pool_ok (bg_step ev e).
Proof.
  intros Hp. destruct ev as [fails| | |]; cbn [bg_step]; try done. destruct (worker_turn_ok fails e Hp) as (e' & fl & -> & Hp' & _). done.
Qed.

Lemma bg_step_request ev e : pool_ok e → requested (bg_step ev e) ⊆ requested e ∪ match ev with BRequest p => {[p]} | _ => ∅ end.
Proof.
  intros Hp. destruct ev as [fails|p|p|p]; cbn [bg_step]; [|set_solver| |set_solver].
  - destruct (worker_turn_ok fails e Hp) as (e' & fl & -> & _ & _ & _ & _ & _ & _ & Ht). cbn [snd].
    destruct (_ >=? _); [destruct Ht as (_ & _ & ->)|destruct Ht as (_ & _ & ->)]; set_solver.
  - rewrite /requested /=. destruct (owns_deletions (bg_worker e)); [|set_solver].
    destruct (DELETION_TX (bg_trk e)); cbn; [rewrite list_to_set_app_L|]; set_solver.
Qed.

(** whatever happens between its turns, the worker deletes no file but those whose deletion was
    requested: a file that is there before a run and not after it was in the queue, or
    was put there during the run. *)
Theorem worker_deletes_only_requested evs e p :
  pool_ok e → p ∈ fs_names (bg_fs e) → (p ∉ fs_names (bg_fs (bg_run evs e))) →
  p ∈ requested e ∨ BRequest p ∈ evs.
Proof.
  revert e. induction evs as [|ev evs IH]; intros e Hp Hin Hout; [done|]. cbn in Hout.
  destruct (decide (p ∈ fs_names (bg_fs (bg_step ev e)))) as [Hs|Hs].
  - destruct (IH _ (pool_ok_step ev e Hp) Hs Hout) as [Hr|Hr]; [|right; by right].
    apply (bg_step_request ev e Hp), elem_of_union in Hr as [Hr|Hr]; [by left|].
    destruct ev as [fails|q|q|q]; try by apply not_elem_of_empty in Hr.
    apply elem_of_singleton in Hr as ->. right. by left.
  - left. destruct ev as [fails|q|q|q]; cbn [bg_step] in Hs; try done.
    + destruct (worker_turn_ok fails e Hp) as (e' & fl & E & _ & _ & _ & _ & _ & _ & Ht). rewrite E in Hs. cbn [snd] in Hs.
      clear E. destruct (_ >=? _); destruct Ht as (_ & Hn & _); rewrite Hn in Hs; [|by destruct Hs].
      apply not_elem_of_difference in Hs as [Hs|Hs]; [by destruct Hs|]. by apply elem_of_difference in Hs as [Hs _].
    + exfalso. apply Hs. by apply elem_of_union_r.
Qed.

Fixpoint turns (evs : list bg_event) : Z :=
  match evs with
  | [] => 0
  | BTurn _ :: evs => 1 + turns evs
  | _ :: evs => turns evs
  end.

Lemma turns_nonneg evs : 0 ≤ turns evs.
Proof. induction evs as [|[] evs IH]; cbn; lia. Qed.

Lemma absent_run evs : ∀ e p,
  pool_ok e → (p ∉ fs_names (bg_fs e)) → (BCreate p ∉ evs) → p ∉ fs_names (bg_fs (bg_run evs e)).
Proof.
  induction evs as [|ev evs IH]; intros e p Hp Hn Hc; [done|]. cbn.
  apply not_elem_of_cons in Hc as [Hne Hc]. apply IH; [by apply pool_ok_step| |done].
  destruct ev as [fails|q|q|q]; cbn [bg_step]; try done.
  - destruct (worker_turn_ok fails e Hp) as (e' & fl & -> & _ & _ & _ & _ & _ & _ & Ht). cbn [snd].
    destruct (_ >=? _); destruct Ht as (_ & Hn' & _); rewrite Hn'; [|exact Hn].
    intros [Hin _]%elem_of_difference. exact (Hn Hin).
  - cbn. intros [->%elem_of_singleton|Hin]%elem_of_union; [done|exact (Hn Hin)].
Qed.

Lemma requested_run evs : ∀ e p,
  pool_ok e → p ∈ requested e → (BCreate p ∉ evs) → (∀ fails, BTurn fails ∈ evs → p ∉ fails) → 0 ≤ tick (bg_worker e) < 1000 →
  1000 ≤ tick (bg_worker e) + turns evs → p ∉ fs_names (bg_fs (bg_run evs e)).
Proof.
  induction evs as [|ev evs IH]; intros e p Hp Hr Hc Hf Ht Hn; [cbn in Hn; lia|].
  apply not_elem_of_cons in Hc as [Hne Hc]. pose proof (λ fails H, Hf fails (list_elem_of_further _ _ _ H)) as Hf'. cbn [bg_run foldl]. rewrite -/(bg_run evs _).
  pose proof (pool_ok_step ev e Hp) as Hp'.
  destruct ev as [fails|q|q|q]; [|apply IH; try done..]; cbn [bg_step turns] in *.
  - destruct (worker_turn_ok fails e Hp) as (e' & fl & E & _ & _ & _ & _ & _ & _ & Hturn). rewrite E in Hp' |- *. cbn [snd] in *.
    rewrite Z.geb_leb in Hturn. destruct (Z.leb_spec 1000 (tick (bg_worker e) + 1)).
    + apply absent_run; [done| |done]. destruct Hturn as (_ & -> & _). pose proof (Hf fails (list_elem_of_here _ _)). set_solver.
    + destruct Hturn as (Etick & _ & Ereq). apply IH; [done|by rewrite Ereq|done|done|lia|lia].
  - rewrite /requested /= in Hr |- *. destruct (owns_deletions (bg_worker e)); [|done].
    destruct (DELETION_TX (bg_trk e)); cbn in *; [rewrite list_to_set_app_L|]; set_solver.
Qed.

(** C39: a file whose deletion is requested (from the worker that owns the channel) is deleted within
    a thousand turns of the worker, whatever else happens, unless a file of that name is
    created again or the system refuses to remove it; requests are not made again
    ([refused_deletion_forgotten]). *)
Theorem worker_deletes_requested evs e p :
  pool_ok e → owns_deletions (bg_worker e) = true → is_Some (DELETION_TX (bg_trk e)) →
  0 ≤ tick (bg_worker e) < 1000 → 1000 ≤ turns evs → (BCreate p ∉ evs) → (∀ fails, BTurn fails ∈ evs → p ∉ fails) →
  p ∉ fs_names (bg_fs (bg_run (BRequest p :: evs) e)).
Proof.
  intros Hp Ho [q Hq] Ht Hn Hc Hf. cbn [bg_run foldl]. rewrite -/(bg_run evs _).
  apply requested_run; [by apply pool_ok_step| |done|done|done|cbn; lia].
  rewrite /requested /= Ho Hq /= list_to_set_app_L. set_solver.
Qed.

(** a file that could not be removed in the turn for it stays for as long as its deletion is not
    requested anew. *)
Theorem refused_deletion_forgotten fails evs e p :
  pool_ok e → p ∈ fs_names (bg_fs e) → tick (bg_worker e) = 999 → p ∈ fails → (BRequest p ∉ evs) →
  p ∈ fs_names (bg_fs (bg_run (BTurn fails :: evs) e)).
Proof.
  intros Hp Hin Ht Hf Hev. cbn [bg_run foldl bg_step]. rewrite -/(bg_run evs _).
  destruct (worker_turn_ok fails e Hp) as (e' & fl & E & Hp' & _ & _ & _ & _ & _ & Hturn). rewrite E Ht /= in Hturn |- *.
  destruct Hturn as (_ & Hn & Hr). apply dec_stable. intros Hout.
  assert (p ∈ fs_names (bg_fs e')) as Hin' by (rewrite Hn; set_solver).
  destruct (worker_deletes_only_requested evs e' p Hp' Hin' Hout) as [H1|H1]; [|by destruct Hev]. rewrite Hr in H1. set_solver.
Qed.

(** a turn of the worker asks the kernel to sync every file whose path was published since the
    last turn and that still exists, on both back ends, and never stops on an error of a
    flush. *)
Theorem worker_flushes_published fails e :
  pool_ok e →
  ∃ e' fl, worker_turn fails e = (Ok tt, e') ∧ pool_ok e' ∧ bg_rx e' = [] ∧ flushed e' = flushed e ++ fl ∧
    ∀ p, p ∈ bg_rx e → p ∈ fs_names (bg_fs e) → p ∈ fl.
Proof.
  intros Hp. destruct (worker_turn_ok fails e Hp) as (e' & fl & E & Hp' & Hrx & _ & _ & Hf & Hpub & _).
  by exists e', fl.
Qed.
End turns.
