(* ===== verification/SortBy.v ===== *)
(** Rust's [slice::sort_by_key] and [sort_by] with a comparison of keys: the stable sort of a
    list by an integer key, used by the block producer for transactions and trie leaves. *)

From S2P Require Import Prelude.
From Stdlib Require Import Sorted.

#[local] Open Scope Z_scope.

Section sort_by.
Context {A : Type} (key : A → Z).

(** An element goes before the elements whose key is not smaller than its own. *)
Fixpoint insert_by (x : A) (l : list A) : list A :=
  match l with
  | [] => [x]
  | y :: l' => if key x <=? key y then x :: l else y :: insert_by x l'
  end.
Definition sort_by_key (l : list A) : list A := foldr insert_by [] l.

Definition key_le (x y : A) : Prop := key x ≤ key y.

Lemma insert_by_perm x l : insert_by x l ≡ₚ x :: l.
Proof.
  induction l as [|y l IH]; [done|]. cbn. destruct (key x <=? key y); [done|].
  rewrite IH. constructor.
Qed.

Lemma sort_by_key_perm l : sort_by_key l ≡ₚ l.
Proof. induction l as [|x l IH]; [done|]. etransitivity; [apply insert_by_perm|by constructor]. Qed.

Lemma insert_by_sorted x l : StronglySorted key_le l → StronglySorted key_le (insert_by x l).
Proof.
  induction 1 as [|y l Hs IH Hf]; cbn; [repeat constructor|]. destruct (Z.leb_spec (key x) (key y)) as [Hle|Hlt].
  - constructor; [by constructor|]. constructor; [done|].
    eapply Forall_impl; [exact Hf|]. rewrite /key_le. intros z. lia.
  - constructor; [done|]. rewrite insert_by_perm. constructor; [rewrite /key_le; lia|done].
Qed.

Lemma sort_by_key_sorted l : StronglySorted key_le (sort_by_key l).
Proof. induction l as [|x l IH]; [constructor|]. by apply insert_by_sorted. Qed.

(** The sort is stable: the elements of one key keep their order. *)
Lemma insert_by_filter x l k :
  filter (λ y, key y = k) (insert_by x l) = filter (λ y, key y = k) (x :: l).
Proof.
  induction l as [|y l IH]; [done|]. cbn [insert_by]. destruct (Z.leb_spec (key x) (key y)) as [Hle|Hlt]; [done|].
  rewrite filter_cons IH !filter_cons. repeat case_decide; try done. lia.
Qed.

Lemma sort_by_key_stable l k : filter (λ y, key y = k) (sort_by_key l) = filter (λ y, key y = k) l.
Proof.
  induction l as [|x l IH]; [done|]. change (sort_by_key (x :: l)) with (insert_by x (sort_by_key l)).
  rewrite insert_by_filter !filter_cons IH. done.
Qed.

(** With distinct keys the sort depends on the set of elements only, and its keys increase. *)
Lemma sorted_perm_unique l l' :
  (∀ x y, x ∈ l → y ∈ l → key x = key y → x = y) →
  StronglySorted key_le l → StronglySorted key_le l' → l ≡ₚ l' → l = l'.
Proof.
  intros Hinj Hs. revert l' Hinj. induction Hs as [|x l Hs IH Hf]; intros l' Hinj Hs' Hp.
  { by apply Permutation_nil in Hp. }
  destruct Hs' as [|y l' Hs' Hf']; [by apply Permutation_sym, Permutation_nil in Hp|].
  assert (x = y) as <-.
  { apply Hinj; [set_solver|rewrite Hp; set_solver|].
    assert (y ∈ x :: l) as [->|Hy]%elem_of_cons by (rewrite Hp; set_solver); [done|].
    assert (x ∈ y :: l') as [->|Hx]%elem_of_cons by (rewrite -Hp; set_solver); [done|].
    rewrite ->Forall_forall in Hf, Hf'. specialize (Hf y Hy). specialize (Hf' x Hx). rewrite /key_le in Hf Hf'. lia. }
  f_equal. apply IH; [|done|by eapply Permutation_cons_inv].
  intros a b Ha Hb. apply Hinj; set_solver.
Qed.

Lemma sort_by_key_unique l l' :
  (∀ x y, x ∈ l → y ∈ l → key x = key y → x = y) → l ≡ₚ l' → sort_by_key l = sort_by_key l'.
Proof.
  intros Hinj Hp. apply sorted_perm_unique; [|apply sort_by_key_sorted..|by rewrite !sort_by_key_perm].
  intros x y. rewrite !sort_by_key_perm. apply Hinj.
Qed.

Lemma sort_by_key_strict l :
  NoDup l → (∀ x y, x ∈ l → y ∈ l → key x = key y → x = y) →
  StronglySorted (λ x y, key x < key y) (sort_by_key l).
Proof.
  intros Hn Hinj. assert (NoDup (sort_by_key l)) as Hn' by by rewrite sort_by_key_perm.
  assert (∀ x y, x ∈ sort_by_key l → y ∈ sort_by_key l → key x = key y → x = y) as Hinj'.
  { intros x y. rewrite !sort_by_key_perm. apply Hinj. }
  pose proof (sort_by_key_sorted l) as Hs. induction Hs as [|x k Hs IH Hf]; constructor.
  - apply NoDup_cons in Hn' as [_ Hn']. apply IH; [done|]. intros a b Ha Hb. apply Hinj'; set_solver.
  - apply NoDup_cons in Hn' as [Hnin _]. rewrite Forall_forall. rewrite ->Forall_forall in Hf. intros y Hy. specialize (Hf y Hy).
    rewrite /key_le in Hf. destruct (decide (key x = key y)) as [E1|]; [|lia].
    apply Hinj' in E1; [by subst|set_solver|set_solver].
Qed.
End sort_by.

Lemma sort_by_key_map {A B} (f : A → B) (key : B → Z) l :
  sort_by_key key (f <$> l) = f <$> sort_by_key (λ x, key (f x)) l.
Proof.
  induction l as [|x l IH]; [done|]. change (insert_by key (f x) (sort_by_key key (f <$> l)) = f <$> insert_by (λ x, key (f x)) x (sort_by_key (λ x, key (f x)) l)).
  rewrite IH. clear IH.
  induction (sort_by_key (λ x, key (f x)) l) as [|y k IHk]; [done|]. cbn. destruct (key (f x) <=? key (f y)); [done|].
  cbn. f_equal. exact IHk.
Qed.

Lemma sort_by_key_ext {A} (key key' : A → Z) l : (∀ x, key x = key' x) → sort_by_key key l = sort_by_key key' l.
Proof.
  intros Hk. induction l as [|x l IH]; [done|].
  change (insert_by key x (sort_by_key key l) = insert_by key' x (sort_by_key key' l)). rewrite IH. clear IH.
  induction (sort_by_key key' l) as [|y k IH]; [done|]. cbn. by rewrite !Hk IH.
Qed.

(** ** Sublists *)

Lemma StronglySorted_sublist {A} (R : A → A → Prop) l k : StronglySorted R k → sublist l k → StronglySorted R l.
Proof.
  intros Hk Hs. induction Hs as [|x l k Hs IH|x l k Hs IH]; [constructor|..]; inversion_clear Hk as [|? ? Hk' Hf]; [|by apply IH].
  constructor; [by apply IH|]. rewrite ->Forall_forall in Hf |- *. intros y Hy. apply Hf. by eapply elem_of_sublist.
Qed.

Lemma filter_sublist {A} (P : A → Prop) `{∀ x, Decision (P x)} l k : sublist l k → sublist (filter P l) (filter P k).
Proof.
  induction 1 as [|x l k Hs IH|x l k Hs IH]; [constructor|..]; rewrite !filter_cons; case_decide; try done; by constructor.
Qed.
