(* ===== verification/StateDb.v ===== *)
(** The block producer's state database as its users see it: the data of
    [src/block-producer/src/schema], the trait [StateDatabase] of
    [src/block-producer/src/db/traits.rs] with its default methods and its
    [TransactionBuffer], and the built-in wallets of [src/block-producer/src/wallet/mod.rs].

    Addresses, hashes and 256-bit words are the numbers their big-endian bytes write. The text
    of an error is kept where the sources write it and dropped where a library does. *)

From S2P Require Import Prelude.
From stdpp Require Import sorting.

#[local] Open Scope Z_scope.

(** * Typed errors

    A computation of the block producer ends in a value, in an error of the type its
    signature names, or in a panic; an error keeps the mutations made before it. *)

Inductive result (E A : Type) :=
  | Good (a : A)
  | Bad (e : E)
  | Crash.
Arguments Good {_ _} _.
Arguments Bad {_ _} _.
Arguments Crash {_ _}.

#[global] Instance result_eq_dec {E A} `{EqDecision E, EqDecision A} : EqDecision (result E A).
Proof. solve_decision. Defined.

Definition X (S E A : Type) : Type := S → result E A * S.

Definition good {S E A} (a : A) : X S E A := λ s, (Good a, s).
Definition bad {S E A} (e : E) : X S E A := λ s, (Bad e, s).
Definition crash {S E A} : X S E A := λ s, (Crash, s).

Definition chain {S E A B} (m : X S E A) (k : A → X S E B) : X S E B := λ s,
  match m s with
  | (Good a, s') => k a s'
  | (Bad e, s') => (Bad e, s')
  | (Crash, s') => (Crash, s')
  end.

(** [map_err] followed by [?]. *)
Definition map_bad {S E F A} (f : E → F) (m : X S E A) : X S F A := λ s,
  match m s with
  | (Good a, s') => (Good a, s')
  | (Bad e, s') => (Bad (f e), s')
  | (Crash, s') => (Crash, s')
  end.

(** [match m { Ok(v) => .., Err(e) => .. }]. *)
Definition caught {S E F A} (m : X S E A) : X S F (E + A) := λ s,
  match m s with
  | (Good a, s') => (Good (inr a), s')
  | (Bad e, s') => (Good (inl e), s')
  | (Crash, s') => (Crash, s')
  end.

Definition state {S E} : X S E S := λ s, (Good s, s).
Definition update {S E} (f : S → S) : X S E unit := λ s, (Good tt, f s).
Definition lift {S E A} (r : E + A) : X S E A :=
  match r with inl e => bad e | inr a => good a end.

(** Run a computation on a part of the state. *)
Definition within {S T E A} (g : S → T) (p : T → S → S) (m : X T E A) : X S E A := λ s,
  let '(r, t) := m (g s) in (r, p t s).

Notation "'let?' x := m 'in' k" := (chain m (λ x, k))
  (at level 10, x pattern, m at level 100, k at level 200) : walrus_scope.
Notation "m ?; k" := (chain m (λ _, k))
  (at level 100, k at level 200, right associativity) : walrus_scope.

(** [for x in l { f(x)?; }]. *)
Fixpoint each {S E T} (f : T → X S E unit) (l : list T) : X S E unit :=
  match l with
  | [] => good tt
  | x :: l => f x ?; each f l
  end.

(** [l.iter().map(f).collect::<Result<Vec<_>, _>>()]. *)
Fixpoint collect {S E T A} (f : T → X S E A) (l : list T) : X S E (list A) :=
  match l with
  | [] => good []
  | x :: l => let? a := f x in let? r := collect f l in good (a :: r)
  end.

(** * The schema *)

Abbreviation Address := Z (only parsing).
Abbreviation B256 := Z (only parsing).
Abbreviation U256 := Z (only parsing).
Abbreviation Bytes := (list Z) (only parsing).

Definition U256_MAX : Z := 2 ^ 256 - 1.
Definition wrap256 (z : Z) : Z := z mod 2 ^ 256.

Record Account := MkAccount {
  nonce : Z;
  balance : U256;
  storage_root : B256;
  code_hash : B256;
}.
#[global] Instance Account_eq_dec : EqDecision Account.
Proof. solve_decision. Defined.

(** The root hash of an empty trie, and the hash of no code. *)
Definition EMPTY_STORAGE_ROOT : B256 :=
  0x56e81f171bcc55a6ff8345e692c0f86e5b48e01b996cadc001622fb5e363b421.
Definition EMPTY_CODE_HASH : B256 :=
  0xc5d2460186f7233c927e7db2dcc703c0e500b653ca82273b7bfad8045d85a470.

Definition default_account : Account := MkAccount 0 0 EMPTY_STORAGE_ROOT EMPTY_CODE_HASH.
Definition with_balance (b : U256) : Account := MkAccount 0 b EMPTY_STORAGE_ROOT EMPTY_CODE_HASH.

Definition is_contract (a : Account) : bool := negb (code_hash a =? EMPTY_CODE_HASH).
Definition is_empty (a : Account) : bool :=
  (nonce a =? 0) && (balance a =? 0) && (code_hash a =? EMPTY_CODE_HASH).

Definition increment_nonce (a : Account) : Account :=
  MkAccount (wrap64 (nonce a + 1)) (balance a) (storage_root a) (code_hash a).
Definition add_balance (amount : U256) (a : Account) : Account :=
  MkAccount (nonce a) (wrap256 (balance a + amount)) (storage_root a) (code_hash a).
Definition sub_balance (amount : U256) (a : Account) : string + Account :=
  if balance a <? amount then inl "Insufficient balance"
  else inr (MkAccount (nonce a) (balance a - amount) (storage_root a) (code_hash a)).

Record StorageSlot := MkSlot {
  slot_address : Address;
  slot_key : U256;
  slot_value : U256;
}.
#[global] Instance StorageSlot_eq_dec : EqDecision StorageSlot.
Proof. solve_decision. Defined.

Record StorageChange := MkChange {
  change_address : Address;
  change_key : U256;
  old_value : U256;
  new_value : U256;
}.
Definition is_changed (c : StorageChange) : bool := negb (old_value c =? new_value c).
Definition gas_refund (c : StorageChange) : Z :=
  match old_value c =? 0, new_value c =? 0 with
  | false, true => 15000
  | true, false => -20000
  | _, _ => 0
  end.

(** * The trait *)

Inductive DbError :=
  | DbIo
  | DbSerialization
  | AccountNotFound (a : Address)
  | CodeNotFound (h : B256)
  | BlockNotFound (n : Z)
  | DbTransaction (msg : string)
  | DbWalrus
  | DbOther.
#[global] Instance DbError_eq_dec : EqDecision DbError.
Proof. solve_decision. Defined.

Class StateDatabase (D : Type) := {
  get_account : Address → X D DbError (option Account);
  set_account : Address → Account → X D DbError unit;
  delete_account : Address → X D DbError unit;
  get_storage : Address → U256 → X D DbError U256;
  set_storage : Address → U256 → U256 → X D DbError unit;
  get_all_storage : Address → X D DbError (list StorageSlot);
  get_code : B256 → X D DbError (option Bytes);
  set_code : B256 → Bytes → X D DbError unit;
  get_block_hash : Z → X D DbError (option B256);
  set_block_hash : Z → B256 → X D DbError unit;
  begin_transaction : X D DbError unit;
  commit_transaction : X D DbError unit;
  rollback_transaction : X D DbError unit;
  get_changed_accounts : X D DbError (list Address);
}.

Section defaults.
Context {D : Type} `{StateDatabase D}.

Definition batch_get_accounts (addresses : list Address) : X D DbError (list (option Account)) :=
  collect get_account addresses.
Definition batch_set_storage (changes : list (Address * U256 * U256)) : X D DbError unit :=
  each (λ '(address, key, value), set_storage address key value) changes.
End defaults.

(** ** What a client of transactions relies on

    [disk d] is what would survive the process, [in_txn d] whether a transaction is open. *)

Definition keeps {D T E A} (disk : D → T) (in_txn : D → bool) (m : X D E A) : Prop := ∀ d,
  in_txn d = true → (m d).1 ≠ Crash ∧ disk (m d).2 = disk d ∧ in_txn (m d).2 = true.

Class AtomicDb (D : Type) `{StateDatabase D} := {
  Disk : Type;
  disk : D → Disk;
  in_txn : D → bool;
  keeps_get_account a : keeps disk in_txn (get_account a);
  keeps_set_account a acc : keeps disk in_txn (set_account a acc);
  keeps_delete_account a : keeps disk in_txn (delete_account a);
  keeps_get_storage a k : keeps disk in_txn (get_storage a k);
  keeps_set_storage a k v : keeps disk in_txn (set_storage a k v);
  keeps_get_code h : keeps disk in_txn (get_code h);
  keeps_set_code h c : keeps disk in_txn (set_code h c);
  keeps_get_block_hash n : keeps disk in_txn (get_block_hash n);
  begin_atomic d :
    in_txn d = false →
    (begin_transaction d).1 = Good tt ∧ disk (begin_transaction d).2 = disk d ∧ in_txn (begin_transaction d).2 = true;
  commit_atomic d :
    in_txn d = true → (commit_transaction d).1 ≠ Crash ∧ in_txn (commit_transaction d).2 = false ∧
    ∀ e, (commit_transaction d).1 = Bad e → disk (commit_transaction d).2 = disk d;
  rollback_atomic d :
    in_txn d = true → (rollback_transaction d).1 = Good tt ∧ in_txn (rollback_transaction d).2 = false ∧
    disk (rollback_transaction d).2 = disk d;
}.

Create HintDb keeps.
#[export] Hint Resolve keeps_get_account keeps_set_account keeps_delete_account keeps_get_storage keeps_set_storage
  keeps_get_code keeps_set_code keeps_get_block_hash : keeps.

Section keeps_rules.
Context {D T : Type} (disk : D → T) (in_txn : D → bool).
Abbreviation keeps := (keeps disk in_txn).

Lemma keeps_good {E A} (a : A) : keeps (@good D E A a).
Proof. by intros d. Qed.
Lemma keeps_bad {E A} (e : E) : keeps (@bad D E A e).
Proof. by intros d. Qed.
Lemma keeps_state {E} : keeps (@state D E).
Proof. by intros d. Qed.

Lemma keeps_chain {E A B} (m : X D E A) (k : A → X D E B) : keeps m → (∀ a, keeps (k a)) → keeps (chain m k).
Proof.
  intros Hm Hk d Ho. rewrite /chain. destruct (Hm d Ho) as (Hc & Hd & Ho'). destruct (m d) as [[a|e|] d'] eqn:E1; cbn in *; [|done|done].
  destruct (Hk a d' Ho') as (? & Hd' & ?). split_and!; [done|congruence|done].
Qed.

Lemma keeps_map_bad {E F A} (f : E → F) (m : X D E A) : keeps m → keeps (map_bad f m).
Proof. intros Hm d Ho. rewrite /map_bad. specialize (Hm d Ho). destruct (m d) as [[] ?]; naive_solver. Qed.

Lemma keeps_caught {E F A} (m : X D E A) : keeps m → keeps (@caught D E F A m).
Proof. intros Hm d Ho. rewrite /caught. specialize (Hm d Ho). destruct (m d) as [[] ?]; naive_solver. Qed.

Lemma keeps_lift {E A} (r : E + A) : keeps (lift r).
Proof. by destruct r. Qed.

Lemma keeps_each {E R} (f : R → X D E unit) l : (∀ x, keeps (f x)) → keeps (each f l).
Proof. intros Hf. induction l as [|x l IH]; [apply keeps_good|]. by apply keeps_chain. Qed.
End keeps_rules.
#[export] Hint Resolve keeps_good keeps_bad keeps_state keeps_chain keeps_map_bad keeps_caught keeps_lift keeps_each : keeps.

Record TransactionBuffer := MkBuffer {
  buf_accounts : gmap Address Account;
  buf_storage : gmap (Address * U256) U256;
  buf_codes : gmap B256 Bytes;
  buf_block_hashes : gmap Z B256;
  deleted_accounts : list Address;
}.

Definition new_buffer : TransactionBuffer := MkBuffer ∅ ∅ ∅ ∅ [].

Definition buf_set_account (a : Address) (acc : Account) (b : TransactionBuffer) : TransactionBuffer :=
  MkBuffer (<[a := acc]> (buf_accounts b)) (buf_storage b) (buf_codes b) (buf_block_hashes b) (deleted_accounts b).
Definition buf_delete_account (a : Address) (b : TransactionBuffer) : TransactionBuffer :=
  MkBuffer (delete a (buf_accounts b)) (buf_storage b) (buf_codes b) (buf_block_hashes b) (deleted_accounts b ++ [a]).
Definition buf_set_storage (a : Address) (k v : U256) (b : TransactionBuffer) : TransactionBuffer :=
  MkBuffer (buf_accounts b) (<[(a, k) := v]> (buf_storage b)) (buf_codes b) (buf_block_hashes b) (deleted_accounts b).
Definition buf_set_code (h : B256) (c : Bytes) (b : TransactionBuffer) : TransactionBuffer :=
  MkBuffer (buf_accounts b) (buf_storage b) (<[h := c]> (buf_codes b)) (buf_block_hashes b) (deleted_accounts b).
Definition buf_set_block_hash (n : Z) (h : B256) (b : TransactionBuffer) : TransactionBuffer :=
  MkBuffer (buf_accounts b) (buf_storage b) (buf_codes b) (<[n := h]> (buf_block_hashes b)) (deleted_accounts b).

(** [track_changed_account]. *)
Definition track (a : Address) (changed : list Address) : list Address :=
  if decide (a ∈ changed) then changed else changed ++ [a].

Lemma track_nodup a l : NoDup l → NoDup (track a l).
Proof.
  intros Hl. rewrite /track. case_decide as Hin; [done|].
  apply NoDup_app. split; [done|]. split; [|apply NoDup_singleton].
  intros x Hx ->%list_elem_of_singleton. done.
Qed.

Lemma elem_of_track x a l : x ∈ track a l ↔ x = a ∨ x ∈ l.
Proof. rewrite /track. case_decide; set_solver. Qed.

(** * The built-in wallets *)

Record BuiltInWallet := MkWallet { wallet_address : Address; initial_balance_eth : Z }.

Definition initial_balance_wei (w : BuiltInWallet) : U256 := wrap256 (initial_balance_eth w * 10 ^ 18).

Definition get_builtin_wallets : list BuiltInWallet :=
  [ MkWallet 0xf39Fd6e51aad88F6F4ce6aB8827279cffFb92266 10000;
    MkWallet 0x70997970C51812dc3A010C7d01b50e0d17dc79C8 5000;
    MkWallet 0x3C44CdDdB6a900fa2b585dd299e03d12FA4293BC 5000 ].

Definition get_default_sender : option BuiltInWallet := head get_builtin_wallets.
Definition find_wallet_by_address (a : Address) : option BuiltInWallet :=
  snd <$> list_find (λ w, wallet_address w = a) get_builtin_wallets.
Definition is_builtin_address (a : Address) : bool :=
  match find_wallet_by_address a with Some _ => true | None => false end.

(** * The contract

    What a state database promises: a transaction works on a copy of the committed view. *)

(** The slots of an account, in key order. *)
Definition keys_of (a : Address) (m : gmap (Address * U256) U256) : list U256 :=
  merge_sort Z.le
    (omap (λ '((key_addr, key_slot), _), if key_addr =? a then Some key_slot else None) (map_to_list m)).

Definition slots_of (a : Address) (m : gmap (Address * U256) U256) : list StorageSlot :=
  omap (λ k, MkSlot a k <$> m !! (a, k)) (keys_of a m).

Lemma keys_of_spec a m k : k ∈ keys_of a m ↔ is_Some (m !! (a, k)).
Proof.
  rewrite /keys_of merge_sort_Permutation list_elem_of_omap. split.
  - intros ([[a' k'] v] & Hin & Hk). destruct (Z.eqb_spec a' a) as [->|]; [|done].
    injection Hk as ->. exists v. by apply elem_of_map_to_list.
  - intros [v Hv]. exists ((a, k), v). rewrite Z.eqb_refl. split; [by apply elem_of_map_to_list|done].
Qed.

Lemma keys_of_nodup a m : NoDup (keys_of a m).
Proof.
  rewrite /keys_of merge_sort_Permutation. pose proof (NoDup_fst_map_to_list m) as Hn.
  induction (map_to_list m) as [|[[a' k'] v] l IH]; cbn; [constructor|].
  apply NoDup_cons in Hn as [Hnin Hn]. specialize (IH Hn). destruct (Z.eqb_spec a' a) as [->|]; [|done].
  apply NoDup_cons. split; [|done]. intros ([[a2 k2] v2] & Hin & Hk)%list_elem_of_omap.
  destruct (Z.eqb_spec a2 a) as [->|]; [|done]. injection Hk as ->. apply Hnin.
  apply list_elem_of_fmap. by exists ((a, k'), v2).
Qed.

(** The keys are determined by the slots the account has. *)
Lemma keys_of_ext a m m' : (∀ k, m !! (a, k) = m' !! (a, k)) → keys_of a m = keys_of a m'.
Proof.
  intros Hm. apply (Sorted_unique Z.le).
  - apply Sorted_merge_sort, _.
  - apply Sorted_merge_sort, _.
  - apply NoDup_Permutation; [apply keys_of_nodup..|]. intros k. by rewrite !keys_of_spec Hm.
Qed.

Lemma slots_of_ext a m m' : (∀ k, m !! (a, k) = m' !! (a, k)) → slots_of a m = slots_of a m'.
Proof.
  intros Hm. rewrite /slots_of (keys_of_ext a m m' Hm).
  induction (keys_of a m') as [|k l IH]; [done|]. cbn. by rewrite Hm IH.
Qed.

Lemma elem_of_slots_of a m s : s ∈ slots_of a m ↔ slot_address s = a ∧ m !! (a, slot_key s) = Some (slot_value s).
Proof.
  rewrite /slots_of list_elem_of_omap. split.
  - intros (k & Hk & Hs). destruct (m !! (a, k)) as [v|] eqn:E1; [|done]. by injection Hs as <-.
  - destruct s as [a' k v]. cbn. intros [-> E1]. exists k. rewrite keys_of_spec E1. by split.
Qed.

Lemma slots_of_nodup a m : NoDup (slots_of a m).
Proof.
  rewrite /slots_of. pose proof (keys_of_nodup a m) as Hn. induction Hn as [|k l Hk Hn IH]; cbn; [constructor|].
  destruct (m !! (a, k)) as [v|] eqn:E1; cbn; [|done]. apply NoDup_cons. split; [|done].
  intros (k' & Hk' & Hs)%list_elem_of_omap. destruct (m !! (a, k')); [|done]. by injection Hs as ->.
Qed.

Inductive db_op :=
  | GetAccount (a : Address)
  | SetAccount (a : Address) (acc : Account)
  | DeleteAccount (a : Address)
  | GetStorage (a : Address) (k : U256)
  | SetStorage (a : Address) (k v : U256)
  | GetAllStorage (a : Address)
  | GetCode (h : B256)
  | SetCode (h : B256) (c : Bytes)
  | GetBlockHash (n : Z)
  | SetBlockHash (n : Z) (h : B256)
  | Begin
  | Commit
  | Rollback
  | GetChanged.

Inductive db_reply :=
  | RUnit
  | RAccount (o : option Account)
  | RValue (v : U256)
  | RSlots (l : list StorageSlot)
  | RCode (o : option Bytes)
  | RHash (o : option B256)
  | RChanged (l : list Address).

Definition reply {S E A} (f : A → db_reply) (m : X S E A) : X S E db_reply := let? a := m in good (f a).

Definition db_step {D} `{StateDatabase D} (op : db_op) : X D DbError db_reply :=
  match op with
  | GetAccount a => reply RAccount (get_account a)
  | SetAccount a acc => reply (λ _, RUnit) (set_account a acc)
  | DeleteAccount a => reply (λ _, RUnit) (delete_account a)
  | GetStorage a k => reply RValue (get_storage a k)
  | SetStorage a k v => reply (λ _, RUnit) (set_storage a k v)
  | GetAllStorage a => reply RSlots (get_all_storage a)
  | GetCode h => reply RCode (get_code h)
  | SetCode h c => reply (λ _, RUnit) (set_code h c)
  | GetBlockHash n => reply RHash (get_block_hash n)
  | SetBlockHash n h => reply (λ _, RUnit) (set_block_hash n h)
  | Begin => reply (λ _, RUnit) begin_transaction
  | Commit => reply (λ _, RUnit) commit_transaction
  | Rollback => reply (λ _, RUnit) rollback_transaction
  | GetChanged => reply RChanged get_changed_accounts
  end.

(** A sequence of calls; the caller goes on after an error. *)
Fixpoint db_run {D} `{StateDatabase D} (ops : list db_op) (d : D) : list (result DbError db_reply) * D :=
  match ops with
  | [] => ([], d)
  | op :: ops => let '(r, d1) := db_step op d in let '(rs, d2) := db_run ops d1 in (r :: rs, d2)
  end.

Record view := MkView {
  v_accounts : gmap Address Account;
  v_storage : gmap (Address * U256) U256;
  v_codes : gmap B256 Bytes;
  v_hashes : gmap Z B256;
}.

Record spec := MkSpec {
  committed : view;
  pending : option view;
  touched : list Address;
}.

Definition current (s : spec) : view := default (committed s) (pending s).
Definition revise (f : view → view) (s : spec) : spec :=
  match pending s with
  | Some v => MkSpec (committed s) (Some (f v)) (touched s)
  | None => MkSpec (f (committed s)) None (touched s)
  end.
Definition touch (a : Address) (s : spec) : spec := MkSpec (committed s) (pending s) (track a (touched s)).

Definition v_set_account (a : Address) (acc : Account) (v : view) : view :=
  MkView (<[a := acc]> (v_accounts v)) (v_storage v) (v_codes v) (v_hashes v).
Definition v_delete_account (a : Address) (v : view) : view :=
  MkView (delete a (v_accounts v)) (v_storage v) (v_codes v) (v_hashes v).
Definition v_set_storage (a : Address) (k x : U256) (v : view) : view :=
  MkView (v_accounts v) (<[(a, k) := x]> (v_storage v)) (v_codes v) (v_hashes v).
Definition v_set_code (h : B256) (c : Bytes) (v : view) : view :=
  MkView (v_accounts v) (v_storage v) (<[h := c]> (v_codes v)) (v_hashes v).
Definition v_set_hash (n : Z) (h : B256) (v : view) : view :=
  MkView (v_accounts v) (v_storage v) (v_codes v) (<[n := h]> (v_hashes v)).

(** [fault]: the disk fails during this call. A failed write changes nothing but the list of
    touched accounts, a failed commit drops the transaction. *)
Definition spec_step (fault : bool) (op : db_op) (s : spec) : result DbError db_reply * spec :=
  let read (r : db_reply) := (if fault then Bad DbOther else Good r, s) in
  let write (s1 : spec) (f : view → view) := if fault then (Bad DbOther, s1) else (Good RUnit, revise f s1) in
  match op with
  | GetAccount a => read (RAccount (v_accounts (current s) !! a))
  | SetAccount a acc => write (touch a s) (v_set_account a acc)
  | DeleteAccount a => write (touch a s) (v_delete_account a)
  | GetStorage a k => read (RValue (default 0 (v_storage (current s) !! (a, k))))
  | SetStorage a k x => write (touch a s) (v_set_storage a k x)
  | GetAllStorage a => read (RSlots (slots_of a (v_storage (current s))))
  | GetCode h => read (RCode (v_codes (current s) !! h))
  | SetCode h c => write s (v_set_code h c)
  | GetBlockHash n => read (RHash (v_hashes (current s) !! n))
  | SetBlockHash n h => write s (v_set_hash n h)
  | Begin =>
      match pending s with
      | Some _ => (Bad (DbTransaction "Transaction already started"), s)
      | None => (Good RUnit, MkSpec (committed s) (Some (committed s)) [])
      end
  | Commit =>
      match pending s with
      | None => (Bad (DbTransaction "No active transaction"), s)
      | Some v => if fault then (Bad DbOther, MkSpec (committed s) None (touched s))
                  else (Good RUnit, MkSpec v None (touched s))
      end
  | Rollback => (Good RUnit, MkSpec (committed s) None [])
  | GetChanged => (Good (RChanged (touched s)), s)
  end.

Fixpoint spec_run (steps : list (bool * db_op)) (s : spec) : list (result DbError db_reply) * spec :=
  match steps with
  | [] => ([], s)
  | (fault, op) :: steps =>
      let '(r, s1) := spec_step fault op s in let '(rs, s2) := spec_run steps s1 in (r :: rs, s2)
  end.
