(* ===== verification/RedbDb.v ===== *)
(** The embedded state database: [RedbStateDB] of [src/block-producer/src/db/redb_db.rs].

    Of redb the code uses five tables and its transactions: a write transaction takes effect
    as a whole or not at all. Which transactions fail is a list of the state, one flag for
    each transaction to come, so that every pattern of failures is a run of the model.
    Accounts are stored in their bincode encoding.

    The database refines a transactional store ([spec]): a transaction works on a copy of
    the committed view, [commit] installs the copy, [rollback] and a failed commit drop it. *)

From S2P Require Import Prelude Metadata StateDb.

#[local] Open Scope Z_scope.

(** * The database *)

Record Tables := MkTables {
  accounts_table : gmap Address Bytes;
  storage_table : gmap (Address * U256) U256;
  code_table : gmap B256 Bytes;
  blocks_table : gmap Z Bytes;
  block_hashes_table : gmap Z B256;
}.
Definition empty_tables : Tables := MkTables ∅ ∅ ∅ ∅ ∅.

Definition put_account (a : Address) (data : Bytes) (t : Tables) : Tables :=
  MkTables (<[a := data]> (accounts_table t)) (storage_table t) (code_table t) (blocks_table t) (block_hashes_table t).
Definition remove_account (a : Address) (t : Tables) : Tables :=
  MkTables (delete a (accounts_table t)) (storage_table t) (code_table t) (blocks_table t) (block_hashes_table t).
Definition put_storage (a : Address) (k v : U256) (t : Tables) : Tables :=
  MkTables (accounts_table t) (<[(a, k) := v]> (storage_table t)) (code_table t) (blocks_table t) (block_hashes_table t).
Definition put_code (h : B256) (c : Bytes) (t : Tables) : Tables :=
  MkTables (accounts_table t) (storage_table t) (<[h := c]> (code_table t)) (blocks_table t) (block_hashes_table t).
Definition put_block (n : Z) (data : Bytes) (t : Tables) : Tables :=
  MkTables (accounts_table t) (storage_table t) (code_table t) (<[n := data]> (blocks_table t)) (block_hashes_table t).
Definition put_block_hash (n : Z) (h : B256) (t : Tables) : Tables :=
  MkTables (accounts_table t) (storage_table t) (code_table t) (blocks_table t) (<[n := h]> (block_hashes_table t)).

Record RedbStateDB := MkRedb {
  tables : Tables;
  redb_faults : list bool;
  tx_buffer : option TransactionBuffer;
  changed_accounts : list Address;
}.

Definition set_buffer (b : option TransactionBuffer) (d : RedbStateDB) : RedbStateDB :=
  MkRedb (tables d) (redb_faults d) b (changed_accounts d).
Definition set_changed (l : list Address) (d : RedbStateDB) : RedbStateDB :=
  MkRedb (tables d) (redb_faults d) (tx_buffer d) l.

(** One redb transaction, from [begin_write] to [commit]. *)
Definition write_txn (f : Tables → Tables) : X RedbStateDB DbError unit := λ d,
  match redb_faults d with
  | true :: rest => (Bad DbOther, MkRedb (tables d) rest (tx_buffer d) (changed_accounts d))
  | false :: rest => (Good tt, MkRedb (f (tables d)) rest (tx_buffer d) (changed_accounts d))
  | [] => (Good tt, MkRedb (f (tables d)) [] (tx_buffer d) (changed_accounts d))
  end.

(** [begin_read], [open_table] and what is read from it. *)
Definition read_txn {A} (f : Tables → A) : X RedbStateDB DbError A := λ d,
  match redb_faults d with
  | true :: rest => (Bad DbOther, MkRedb (tables d) rest (tx_buffer d) (changed_accounts d))
  | false :: rest => (Good (f (tables d)), MkRedb (tables d) rest (tx_buffer d) (changed_accounts d))
  | [] => (Good (f (tables d)), d)
  end.

Section redb.
Context `{Bincode Account}.

Definition decode_account (data : Bytes) : X RedbStateDB DbError (option Account) :=
  match deserialize data with
  | Some account => good (Some account)
  | None => bad DbSerialization
  end.

(** * Opening *)

(** [initialize_builtin_accounts]: one write transaction that adds the wallets that have no
    account yet. *)
Definition builtin_account (w : BuiltInWallet) : Account := MkAccount 0 (initial_balance_wei w) 0 EMPTY_CODE_HASH.

Definition init_wallet (t : Tables) (w : BuiltInWallet) : Tables :=
  match accounts_table t !! wallet_address w with
  | Some _ => t
  | None => put_account (wallet_address w) (serialize (builtin_account w)) t
  end.

Definition initialize_builtin_accounts : X RedbStateDB DbError unit :=
  write_txn (λ t, foldl init_wallet t get_builtin_wallets).

(** [open_internal]: the transaction that creates the tables, then the wallets. [disk] is what
    the file holds. *)
Definition open_internal (readonly : bool) (disk : Tables) (faults : list bool) : result DbError unit * RedbStateDB :=
  (if readonly then good tt
   else write_txn (λ t, t) ?; initialize_builtin_accounts)
  (MkRedb disk faults None []).
Definition RedbStateDB_new : Tables → list bool → result DbError unit * RedbStateDB := open_internal false.
Definition open_readonly : Tables → list bool → result DbError unit * RedbStateDB := open_internal true.

(** * Blocks *)

Section blocks.
Context {Block : Type} `{Bincode Block} (block_number : Block → Z).

Definition save_block (block : Block) : X RedbStateDB DbError unit :=
  write_txn (put_block (block_number block) (serialize block)).

Definition get_block (n : Z) : X RedbStateDB DbError (option Block) :=
  let? value := read_txn (λ t, blocks_table t !! n) in
  match value with
  | Some data => match deserialize data with Some b => good (Some b) | None => bad DbSerialization end
  | None => good None
  end.
End blocks.

(** * The trait's operations *)

Definition track_changed_account (a : Address) : X RedbStateDB DbError unit :=
  update (λ d, set_changed (track a (changed_accounts d)) d).

(** [if let Some(ref mut buffer) = *self.tx_buffer.write()]: the buffer, or redb at once. *)
Definition write_through (f : TransactionBuffer → TransactionBuffer) (g : Tables → Tables) : X RedbStateDB DbError unit :=
  let? d := state in
  match tx_buffer d with
  | Some b => update (set_buffer (Some (f b)))
  | None => write_txn g
  end.

Definition redb_get_account (a : Address) : X RedbStateDB DbError (option Account) :=
  let? d := state in
  let from_redb :=
    let? value := read_txn (λ t, accounts_table t !! a) in
    match value with
    | Some data => decode_account data
    | None => good None
    end in
  match tx_buffer d with
  | Some b =>
      match buf_accounts b !! a with
      | Some acc => good (Some acc)
      | None => if decide (a ∈ deleted_accounts b) then good None else from_redb
      end
  | None => from_redb
  end.

Definition redb_set_account (a : Address) (acc : Account) : X RedbStateDB DbError unit :=
  track_changed_account a ?;
  write_through (buf_set_account a acc) (put_account a (serialize acc)).

Definition redb_delete_account (a : Address) : X RedbStateDB DbError unit :=
  track_changed_account a ?;
  write_through (buf_delete_account a) (remove_account a).

Definition redb_get_storage (a : Address) (k : U256) : X RedbStateDB DbError U256 :=
  let? d := state in
  match (b ← tx_buffer d; buf_storage b !! (a, k)) with
  | Some v => good v
  | None => read_txn (λ t, default 0 (storage_table t !! (a, k)))
  end.

Definition redb_set_storage (a : Address) (k v : U256) : X RedbStateDB DbError unit :=
  track_changed_account a ?;
  write_through (buf_set_storage a k v) (put_storage a k v).

(** Only the committed slots are seen. *)
Definition redb_get_all_storage (a : Address) : X RedbStateDB DbError (list StorageSlot) :=
  read_txn (λ t, slots_of a (storage_table t)).

(** No look at the buffer. *)
Definition redb_get_code (h : B256) : X RedbStateDB DbError (option Bytes) :=
  read_txn (λ t, code_table t !! h).

Definition redb_set_code (h : B256) (c : Bytes) : X RedbStateDB DbError unit :=
  write_through (buf_set_code h c) (put_code h c).

Definition redb_get_block_hash (n : Z) : X RedbStateDB DbError (option B256) :=
  let? d := state in
  match (b ← tx_buffer d; buf_block_hashes b !! n) with
  | Some h => good (Some h)
  | None => read_txn (λ t, block_hashes_table t !! n)
  end.

Definition redb_set_block_hash (n : Z) (h : B256) : X RedbStateDB DbError unit :=
  write_through (buf_set_block_hash n h) (put_block_hash n h).

Definition redb_begin_transaction : X RedbStateDB DbError unit :=
  let? d := state in
  match tx_buffer d with
  | Some _ => bad (DbTransaction "Transaction already started")
  | None => update (λ d, set_changed [] (set_buffer (Some new_buffer) d))
  end.

(** The five loops of [commit_transaction] over the buffer. *)
Definition commit_accounts (m : gmap Address Account) (t : Tables) : Tables :=
  map_fold (λ a acc, put_account a (serialize acc)) t m.
Definition commit_deleted (l : list Address) (t : Tables) : Tables := foldl (λ t a, remove_account a t) t l.
Definition commit_storage (m : gmap (Address * U256) U256) (t : Tables) : Tables :=
  map_fold (λ '(a, k) v, put_storage a k v) t m.
Definition commit_codes (m : gmap B256 Bytes) (t : Tables) : Tables := map_fold put_code t m.
Definition commit_block_hashes (m : gmap Z B256) (t : Tables) : Tables := map_fold put_block_hash t m.

Definition commit_buffer (b : TransactionBuffer) (t : Tables) : Tables :=
  commit_block_hashes (buf_block_hashes b)
    (commit_codes (buf_codes b)
      (commit_storage (buf_storage b)
        (commit_deleted (deleted_accounts b)
          (commit_accounts (buf_accounts b) t)))).

(** The buffer is taken before redb is asked. *)
Definition redb_commit_transaction : X RedbStateDB DbError unit :=
  let? d := state in
  match tx_buffer d with
  | None => bad (DbTransaction "No active transaction")
  | Some b => update (set_buffer None) ?; write_txn (commit_buffer b)
  end.

Definition redb_rollback_transaction : X RedbStateDB DbError unit :=
  update (λ d, set_changed [] (set_buffer None d)).

Definition redb_get_changed_accounts : X RedbStateDB DbError (list Address) :=
  let? d := state in good (changed_accounts d).

#[global] Instance redb_state_database : StateDatabase RedbStateDB := {
  get_account := redb_get_account;
  set_account := redb_set_account;
  delete_account := redb_delete_account;
  get_storage := redb_get_storage;
  set_storage := redb_set_storage;
  get_all_storage := redb_get_all_storage;
  get_code := redb_get_code;
  set_code := redb_set_code;
  get_block_hash := redb_get_block_hash;
  set_block_hash := redb_set_block_hash;
  begin_transaction := redb_begin_transaction;
  commit_transaction := redb_commit_transaction;
  rollback_transaction := redb_rollback_transaction;
  get_changed_accounts := redb_get_changed_accounts;
}.
End redb.
