(* ===== verification/RedbOk.v ===== *)
(** The embedded state database keeps the contract of [StateDb]: its runs are runs of the
    transactional store [spec], faults of the disk included. Two uses are outside the
    contract and are excluded by [op_fits]: an account that is set again after it was deleted
    in the same transaction, and a look at code or at a whole storage that the running
    transaction has changed. *)

From S2P Require Import Prelude Metadata StateDb RedbDb.

#[local] Open Scope Z_scope.

(** * Lemmas on maps *)

Definition without {V} (l : list Z) (m : gmap Z V) : gmap Z V := foldr delete m l.

Lemma lookup_without {V} l (m : gmap Z V) a :
  without l m !! a = if decide (a ∈ l) then None else m !! a.
Proof.
  induction l as [|b l IH]; [done|]. rewrite /without /= -/(without l m) lookup_delete IH.
  repeat case_decide; set_solver.
Qed.

Lemma fmap_without {V W} (f : V → W) l (m : gmap Z V) : f <$> without l m = without l (f <$> m).
Proof. apply map_eq. intros a. rewrite lookup_fmap !lookup_without lookup_fmap. by case_decide. Qed.

Lemma foldl_remove l t :
  foldl (λ t a, remove_account a t) t l
  = MkTables (without l (accounts_table t)) (storage_table t) (code_table t) (blocks_table t) (block_hashes_table t).
Proof.
  revert t. induction l as [|a l IH]; intros t; [by destruct t|]. cbn [foldl]. rewrite IH /remove_account /=. f_equal.
  apply map_eq. intros x. rewrite /without /= -/(without l _) lookup_delete !lookup_without lookup_delete.
  repeat case_decide; congruence.
Qed.

(** Folding insertions is a union. *)
Lemma fold_inserts {K V W} `{Countable K} (f : V → W) (m : gmap K V) (m0 : gmap K W) :
  map_fold (λ k v acc, <[k := f v]> acc) m0 m = (f <$> m) ∪ m0.
Proof.
  induction m as [|k v m Hk Hf IH] using map_first_key_ind.
  - by rewrite map_fold_empty fmap_empty left_id_L.
  - rewrite map_fold_insert_first_key // IH fmap_insert insert_union_l //.
Qed.

Section redb_ok.
Context `{BincodeLaws Account}.

Implicit Types (d : RedbStateDB) (s : spec) (b : TransactionBuffer).

Definition overlay b (v : view) : view :=
  MkView (buf_accounts b ∪ without (deleted_accounts b) (v_accounts v))
         (buf_storage b ∪ v_storage v) (buf_codes b ∪ v_codes v) (buf_block_hashes b ∪ v_hashes v).

Record tables_are (t : Tables) (v : view) : Prop := {
  ta_accounts : accounts_table t = serialize <$> v_accounts v;
  ta_storage : storage_table t = v_storage v;
  ta_codes : code_table t = v_codes v;
  ta_hashes : block_hashes_table t = v_hashes v;
}.

Record refines d s : Prop := {
  rf_tables : tables_are (tables d) (committed s);
  rf_pending : pending s = (λ b, overlay b (committed s)) <$> tx_buffer d;
  rf_touched : touched s = changed_accounts d;
  rf_deleted b a : tx_buffer d = Some b → a ∈ deleted_accounts b → buf_accounts b !! a = None;
}.

(** The use of the database the contract covers. *)
Definition op_fits (op : db_op) d : bool :=
  match tx_buffer d with
  | None => true
  | Some b =>
      match op with
      | SetAccount a _ => bool_decide (a ∉ deleted_accounts b)
      | GetCode h => bool_decide (buf_codes b !! h = None)
      | GetAllStorage a => bool_decide (map_Forall (λ k _, k.1 ≠ a) (buf_storage b))
      | _ => true
      end
  end.

Fixpoint run_fits (ops : list db_op) d : bool :=
  match ops with
  | [] => true
  | op :: ops => op_fits op d && run_fits ops (db_step op d).2
  end.

(** * Redb transactions *)

Definition with_faults (l : list bool) d : RedbStateDB := MkRedb (tables d) l (tx_buffer d) (changed_accounts d).

(** What one redb transaction does with the faults. *)
Definition takes d (fault : bool) (l : list bool) : Prop :=
  match redb_faults d with
  | [] => fault = false ∧ l = []
  | x :: rest => fault = x ∧ l = rest
  end.

Lemma takes_in d fault l :
  takes d fault l → (fault = true → true ∈ redb_faults d) ∧ (true ∈ l → true ∈ redb_faults d).
Proof.
  rewrite /takes. destruct (redb_faults d) as [|x rest]; [by intros [-> ->]|]. intros [-> ->].
  split; [intros ->; set_solver|set_solver].
Qed.

Lemma read_txn_ok {A} (f : Tables → A) d :
  ∃ fault l, takes d fault l ∧
    read_txn f d = (if fault then Bad DbOther else Good (f (tables d)), with_faults l d).
Proof.
  destruct d as [t l b c]. rewrite /read_txn /takes /with_faults /=. destruct l as [|[] l]; eexists _, _; by split.
Qed.

Lemma write_txn_ok f d :
  ∃ fault l, takes d fault l ∧
    write_txn f d = (if fault then Bad DbOther else Good tt,
                     with_faults l (MkRedb (if fault then tables d else f (tables d)) [] (tx_buffer d) (changed_accounts d))).
Proof.
  destruct d as [t l b c]. rewrite /write_txn /takes /with_faults /=. destruct l as [|[] l]; eexists _, _; by split.
Qed.

Lemma refines_faults l d s : refines d s → refines (with_faults l d) s.
Proof. by intros []; split. Qed.

(** * Committing *)

Lemma fold_puts {K V W} `{Countable K} (put : K → V → Tables → Tables) (f : V → W) (wrap : gmap K W → Tables)
    (m : gmap K V) m0 :
  (∀ k v x, put k v (wrap x) = wrap (<[k := f v]> x)) → map_fold put (wrap m0) m = wrap ((f <$> m) ∪ m0).
Proof.
  intros Hput. rewrite -fold_inserts. induction m as [|k v m Hk Hf IH] using map_first_key_ind; [done|].
  by rewrite !map_fold_insert_first_key // IH Hput.
Qed.

Lemma commit_buffer_eq b t :
  commit_buffer b t
  = MkTables (without (deleted_accounts b) ((serialize <$> buf_accounts b) ∪ accounts_table t))
             (buf_storage b ∪ storage_table t) (buf_codes b ∪ code_table t) (blocks_table t)
             (buf_block_hashes b ∪ block_hashes_table t).
Proof.
  destruct t as [ta ts tc tb th]. rewrite /commit_buffer /commit_accounts /commit_deleted /commit_storage
    /commit_codes /commit_block_hashes.
  rewrite (fold_puts _ serialize (λ m, MkTables m ts tc tb th)) // foldl_remove.
  rewrite (fold_puts _ id (λ m, MkTables _ m tc tb th)); [by intros []|].
  rewrite (fold_puts _ id (λ m, MkTables _ _ m tb th)) // (fold_puts _ id (λ m, MkTables _ _ _ tb m)) //.
  by rewrite !map_fmap_id.
Qed.

Lemma commit_overlay b t v :
  tables_are t v → (∀ a, a ∈ deleted_accounts b → buf_accounts b !! a = None) →
  tables_are (commit_buffer b t) (overlay b v).
Proof.
  intros [Ha Hs Hc Hh] Hd. rewrite commit_buffer_eq. split; cbn; [|by rewrite ?Hs ?Hc ?Hh..].
  rewrite Ha -map_fmap_union -fmap_without. f_equal. apply map_eq. intros a.
  rewrite lookup_without !lookup_union lookup_without. case_decide as Hin; [|done]. by rewrite Hd.
Qed.

(** * One call *)

(** The call [m] is the step [op] of the specification, or that step under a fault of the
    disk that was to come. *)
Definition simulates (op : db_op) (m : X RedbStateDB DbError db_reply) d s : Prop :=
  ∃ fault d', m d = ((spec_step fault op s).1, d') ∧ refines d' (spec_step fault op s).2 ∧
    (fault = true → true ∈ redb_faults d) ∧ (true ∈ redb_faults d' → true ∈ redb_faults d).

(** A call that does not reach the disk. *)
Lemma simulates_quiet op m d s d' :
  m d = ((spec_step false op s).1, d') → refines d' (spec_step false op s).2 → redb_faults d' = redb_faults d →
  simulates op m d s.
Proof. intros E1 Hr Hf. exists false, d'. by rewrite Hf. Qed.

(** A read of the tables that answers what the view holds. *)
Lemma simulates_read {A} op (f : Tables → A) (g : A → db_reply) d s :
  refines d s →
  (∀ fault, spec_step fault op s = (if fault then Bad DbOther else Good (g (f (tables d))), s)) →
  simulates op (reply g (read_txn f)) d s.
Proof.
  intros Hr Hs. destruct (read_txn_ok f d) as (fault & l & Ht & E1). destruct (takes_in _ _ _ Ht) as [Hf1 Hf2].
  exists fault, (with_faults l d). rewrite !Hs /reply /chain E1.
  destruct fault; split_and!; try done; by apply refines_faults.
Qed.

(** A write of the tables outside a transaction. *)
Lemma simulates_write op f g d s s1 :
  refines d s1 → tx_buffer d = None →
  (∀ fault, spec_step fault op s = if fault then (Bad DbOther, s1) else (Good RUnit, revise g s1)) →
  (∀ t v, tables_are t v → tables_are (f t) (g v)) →
  simulates op (reply (λ _, RUnit) (write_txn f)) d s.
Proof.
  intros Hr Hb Hs Hfg. destruct (write_txn_ok f d) as (fault & l & Ht & E1). destruct (takes_in _ _ _ Ht) as [Hf1 Hf2].
  destruct Hr as [Rt Rp Rc Rd]. rewrite Hb /= in Rp.
  destruct fault; [exists true|exists false]; eexists; rewrite !Hs /reply /chain E1;
    (split_and!; [reflexivity| |done|done]).
  - split; cbn; [done|by rewrite Hb|done|]. intros b a. by rewrite Hb.
  - rewrite /revise Rp. split; cbn; [auto|by rewrite Hb|done|]. intros b a. by rewrite Hb.
Qed.

Lemma pending_none d s : refines d s → tx_buffer d = None → pending s = None ∧ current s = committed s.
Proof. intros Hr Hb. rewrite /current (rf_pending _ _ Hr) Hb. done. Qed.
Lemma pending_some d s b :
  refines d s → tx_buffer d = Some b →
  pending s = Some (overlay b (committed s)) ∧ current s = overlay b (committed s).
Proof. intros Hr Hb. rewrite /current (rf_pending _ _ Hr) Hb. done. Qed.

(** A write in either mode, in the state after the account was tracked. *)
Lemma simulates_through op fb ft g d s s1 :
  refines d s1 →
  (∀ fault, spec_step fault op s = if fault then (Bad DbOther, s1) else (Good RUnit, revise g s1)) →
  (∀ t v, tables_are t v → tables_are (ft t) (g v)) →
  (∀ b, tx_buffer d = Some b →
     overlay (fb b) (committed s1) = g (overlay b (committed s1)) ∧
     ∀ a, a ∈ deleted_accounts (fb b) → buf_accounts (fb b) !! a = None) →
  simulates op (reply (λ _, RUnit) (write_through fb ft)) d s.
Proof.
  intros Hr Hs Hft Hfb. destruct (tx_buffer d) as [b|] eqn:Hb.
  - destruct (Hfb b eq_refl) as [Ho Hd]. destruct (pending_some d s1 b Hr Hb) as [Hp _].
    apply (simulates_quiet op _ d s (set_buffer (Some (fb b)) d)); rewrite ?(Hs false) //=.
    + by rewrite /reply /write_through /chain /state /update Hb.
    + destruct Hr as [Rt Rp Rc Rd]. rewrite /revise Hp. split; cbn; [done|by rewrite Ho|done|]. intros ? a [= <-]. apply Hd.
  - destruct (simulates_write op ft g d s s1 Hr Hb Hs Hft) as (fault & d' & E1 & Hsim). exists fault, d'.
    by rewrite -E1 /reply /write_through /chain /state /update Hb.
Qed.

Lemma refines_track a d s : refines d s → refines (set_changed (track a (changed_accounts d)) d) (touch a s).
Proof. intros [Rt Rp Rc Rd]. split; cbn; [done..|by rewrite Rc|done]. Qed.

Lemma lookup_overlay_account b v a :
  v_accounts (overlay b v) !! a
  = match buf_accounts b !! a with
    | Some acc => Some acc
    | None => if decide (a ∈ deleted_accounts b) then None else v_accounts v !! a
    end.
Proof. rewrite /= lookup_union lookup_without. destruct (buf_accounts b !! a); case_decide; by destruct (v_accounts v !! a). Qed.

(** What a write to the buffer does to the overlay. *)
Lemma overlay_set_account b v a acc : overlay (buf_set_account a acc b) v = v_set_account a acc (overlay b v).
Proof. rewrite /overlay /v_set_account /=. by rewrite insert_union_l. Qed.
Lemma overlay_set_storage b v a k x : overlay (buf_set_storage a k x b) v = v_set_storage a k x (overlay b v).
Proof. rewrite /overlay /v_set_storage /=. by rewrite insert_union_l. Qed.
Lemma overlay_set_code b v h c : overlay (buf_set_code h c b) v = v_set_code h c (overlay b v).
Proof. rewrite /overlay /v_set_code /=. by rewrite insert_union_l. Qed.
Lemma overlay_set_hash b v n h : overlay (buf_set_block_hash n h b) v = v_set_hash n h (overlay b v).
Proof. rewrite /overlay /v_set_hash /=. by rewrite insert_union_l. Qed.
Lemma overlay_delete b v a : overlay (buf_delete_account a b) v = v_delete_account a (overlay b v).
Proof.
  rewrite /overlay /v_delete_account /=. f_equal. apply map_eq. intros x.
  rewrite lookup_union lookup_delete lookup_without lookup_delete lookup_union lookup_without.
  repeat case_decide; set_solver.
Qed.
Lemma overlay_new v : overlay new_buffer v = v.
Proof. destruct v. rewrite /overlay /=. by rewrite !(left_id_L ∅ (∪)). Qed.

Lemma simulates_ext op m m' d s : m d = m' d → simulates op m' d s → simulates op m d s.
Proof. intros E1 (fault & d' & E2 & Hs). exists fault, d'. by rewrite E1. Qed.

(** ** Reads *)

Lemma decoded d s a :
  refines d s → accounts_table (tables d) !! a ≫= deserialize = v_accounts (committed s) !! a.
Proof.
  intros Hr. rewrite (ta_accounts _ _ (rf_tables _ _ Hr)) lookup_fmap.
  destruct (v_accounts (committed s) !! a) as [acc|]; [|done]. cbn. apply bincode_roundtrip.
Qed.

Lemma get_account_redb d s a :
  refines d s → v_accounts (current s) !! a = v_accounts (committed s) !! a →
  simulates (GetAccount a)
    (reply RAccount (let? value := read_txn (λ t, accounts_table t !! a) in
                     match value with Some data => decode_account data | None => good None end)) d s.
Proof.
  intros Hr Hc. apply (simulates_ext _ _ (reply (λ o, RAccount (o ≫= deserialize)) (read_txn (λ t, accounts_table t !! a)))).
  - rewrite /reply /chain. destruct (read_txn_ok (λ t, accounts_table t !! a) d) as ([] & l & _ & ->); [done|].
    pose proof (decoded d s a Hr) as Hd.
    destruct (accounts_table (tables d) !! a) as [data|] eqn:E1; [|done]. cbn in Hd.
    rewrite (ta_accounts _ _ (rf_tables _ _ Hr)) lookup_fmap in E1.
    destruct (v_accounts (committed s) !! a) as [acc|] eqn:E2; [|done]. by rewrite /decode_account /= Hd.
  - apply simulates_read; [done|]. intros fault. by rewrite /= Hc (decoded d s).
Qed.

Lemma get_account_ok d s a : refines d s → simulates (GetAccount a) (db_step (GetAccount a)) d s.
Proof.
  intros Hr. destruct (tx_buffer d) as [b|] eqn:Hb.
  - destruct (pending_some d s b Hr Hb) as [_ Hc]. pose proof (lookup_overlay_account b (committed s) a) as Hl. rewrite -Hc in Hl.
    destruct (buf_accounts b !! a) as [acc|] eqn:E1; [|destruct (decide (a ∈ deleted_accounts b)) as [Hin|Hin]].
    + apply (simulates_quiet _ _ d s d); [|done|done].
      by rewrite /= Hl /reply /chain /redb_get_account /chain /state Hb E1.
    + apply (simulates_quiet _ _ d s d); [|done|done].
      by rewrite /= Hl /reply /chain /redb_get_account /chain /state Hb E1 decide_True.
    + eapply simulates_ext; [|apply (get_account_redb d s a Hr Hl)].
      by rewrite /= /reply /chain /redb_get_account /chain /state Hb E1 decide_False.
  - eapply simulates_ext; [|apply (get_account_redb d s a Hr)].
    + by rewrite /= /reply /chain /redb_get_account /chain /state Hb.
    + by rewrite (proj2 (pending_none d s Hr Hb)).
Qed.

Lemma get_storage_ok d s a k : refines d s → simulates (GetStorage a k) (db_step (GetStorage a k)) d s.
Proof.
  intros Hr. pose proof (ta_storage _ _ (rf_tables _ _ Hr)) as Ht. destruct (tx_buffer d) as [b|] eqn:Hb.
  - destruct (pending_some d s b Hr Hb) as [_ Hc]. destruct (buf_storage b !! (a, k)) as [x|] eqn:E1.
    + apply (simulates_quiet _ _ d s d); [|done|done].
      by rewrite /= Hc /= (lookup_union_Some_l _ _ _ x E1) /reply /chain /redb_get_storage /chain /state Hb /= E1.
    + eapply simulates_ext; [|apply (simulates_read _ (λ t, default 0 (storage_table t !! (a, k))) RValue d s Hr)].
      * by rewrite /= /reply /chain /redb_get_storage /chain /state Hb /= E1.
      * intros fault. by rewrite /= Hc /= lookup_union_r // Ht.
  - eapply simulates_ext; [|apply (simulates_read _ (λ t, default 0 (storage_table t !! (a, k))) RValue d s Hr)].
    + by rewrite /= /reply /chain /redb_get_storage /chain /state Hb.
    + intros fault. by rewrite /= (proj2 (pending_none d s Hr Hb)) Ht.
Qed.

Lemma get_block_hash_ok d s n : refines d s → simulates (GetBlockHash n) (db_step (GetBlockHash n)) d s.
Proof.
  intros Hr. pose proof (ta_hashes _ _ (rf_tables _ _ Hr)) as Ht. destruct (tx_buffer d) as [b|] eqn:Hb.
  - destruct (pending_some d s b Hr Hb) as [_ Hc]. destruct (buf_block_hashes b !! n) as [x|] eqn:E1.
    + apply (simulates_quiet _ _ d s d); [|done|done].
      by rewrite /= Hc /= (lookup_union_Some_l _ _ _ x E1) /reply /chain /redb_get_block_hash /chain /state Hb /= E1.
    + eapply simulates_ext; [|apply (simulates_read _ (λ t, block_hashes_table t !! n) RHash d s Hr)].
      * by rewrite /= /reply /chain /redb_get_block_hash /chain /state Hb /= E1.
      * intros fault. by rewrite /= Hc /= lookup_union_r // Ht.
  - eapply simulates_ext; [|apply (simulates_read _ (λ t, block_hashes_table t !! n) RHash d s Hr)].
    + by rewrite /= /reply /chain /redb_get_block_hash /chain /state Hb.
    + intros fault. by rewrite /= (proj2 (pending_none d s Hr Hb)) Ht.
Qed.

Lemma get_code_ok d s h : refines d s → op_fits (GetCode h) d = true → simulates (GetCode h) (db_step (GetCode h)) d s.
Proof.
  intros Hr Hfit. apply (simulates_read _ (λ t, code_table t !! h) RCode d s Hr). intros fault. cbn.
  rewrite (ta_codes _ _ (rf_tables _ _ Hr)). rewrite /op_fits in Hfit. destruct (tx_buffer d) as [b|] eqn:Hb.
  - apply bool_decide_eq_true in Hfit. by rewrite (proj2 (pending_some d s b Hr Hb)) /= lookup_union_r.
  - by rewrite (proj2 (pending_none d s Hr Hb)).
Qed.

Lemma get_all_storage_ok d s a :
  refines d s → op_fits (GetAllStorage a) d = true → simulates (GetAllStorage a) (db_step (GetAllStorage a)) d s.
Proof.
  intros Hr Hfit. apply (simulates_read _ (λ t, slots_of a (storage_table t)) RSlots d s Hr). intros fault. cbn.
  rewrite (ta_storage _ _ (rf_tables _ _ Hr)). rewrite /op_fits in Hfit. destruct (tx_buffer d) as [b|] eqn:Hb.
  - apply bool_decide_eq_true in Hfit. rewrite (proj2 (pending_some d s b Hr Hb)) /=.
    rewrite (slots_of_ext a (buf_storage b ∪ v_storage (committed s)) (v_storage (committed s))) //.
    intros k. apply lookup_union_r. destruct (buf_storage b !! (a, k)) eqn:E1; [|done]. by destruct (Hfit _ _ E1).
  - by rewrite (proj2 (pending_none d s Hr Hb)).
Qed.

(** ** Writes *)

Lemma tracked op a fb ft d s :
  simulates op (reply (λ _, RUnit) (write_through fb ft)) (set_changed (track a (changed_accounts d)) d) s →
  simulates op (reply (λ _, RUnit) (track_changed_account a ?; write_through fb ft)) d s.
Proof. intros (fault & d' & E1 & Hs). exists fault, d'. by rewrite -E1. Qed.

Lemma set_account_ok d s a acc :
  refines d s → op_fits (SetAccount a acc) d = true → simulates (SetAccount a acc) (db_step (SetAccount a acc)) d s.
Proof.
  intros Hr Hfit. apply tracked, (simulates_through _ _ _ (v_set_account a acc) _ _ (touch a s)).
  - by apply refines_track.
  - by intros [].
  - intros t v [Ha Hs Hc Hh]. split; cbn; [by rewrite Ha fmap_insert|done..].
  - intros b Hb. cbn in Hb. rewrite /op_fits Hb bool_decide_eq_true in Hfit. split; [apply overlay_set_account|].
    intros x Hx. cbn. rewrite lookup_insert_ne; [by intros ->|]. by eapply rf_deleted.
Qed.

Lemma delete_account_ok d s a : refines d s → simulates (DeleteAccount a) (db_step (DeleteAccount a)) d s.
Proof.
  intros Hr. apply tracked, (simulates_through _ _ _ (v_delete_account a) _ _ (touch a s)).
  - by apply refines_track.
  - by intros [].
  - intros t v [Ha Hs Hc Hh]. split; cbn; [by rewrite Ha fmap_delete|done..].
  - intros b Hb. split; [apply overlay_delete|]. intros x. cbn. rewrite elem_of_app list_elem_of_singleton lookup_delete.
    intros Hx. case_decide; [done|]. destruct Hx as [Hx|]; [by eapply rf_deleted|congruence].
Qed.

Lemma set_storage_ok d s a k x : refines d s → simulates (SetStorage a k x) (db_step (SetStorage a k x)) d s.
Proof.
  intros Hr. apply tracked, (simulates_through _ _ _ (v_set_storage a k x) _ _ (touch a s)).
  - by apply refines_track.
  - by intros [].
  - intros t v [Ha Hs Hc Hh]. split; cbn; [done|by rewrite Hs|done..].
  - intros b Hb. split; [apply overlay_set_storage|]. intros y. cbn. by eapply rf_deleted.
Qed.

Lemma set_code_ok d s h c : refines d s → simulates (SetCode h c) (db_step (SetCode h c)) d s.
Proof.
  intros Hr. apply (simulates_through _ _ _ (v_set_code h c) _ _ s Hr).
  - by intros [].
  - intros t v [Ha Hs Hc Hh]. split; cbn; [done..|by rewrite Hc|done].
  - intros b Hb. split; [apply overlay_set_code|]. intros y. cbn. by eapply rf_deleted.
Qed.

Lemma set_block_hash_ok d s n h : refines d s → simulates (SetBlockHash n h) (db_step (SetBlockHash n h)) d s.
Proof.
  intros Hr. apply (simulates_through _ _ _ (v_set_hash n h) _ _ s Hr).
  - by intros [].
  - intros t v [Ha Hs Hc Hh]. split; cbn; [done..|by rewrite Hh].
  - intros b Hb. split; [apply overlay_set_hash|]. intros y. cbn. by eapply rf_deleted.
Qed.

(** ** Transactions *)

Lemma begin_ok d s : refines d s → simulates Begin (db_step Begin) d s.
Proof.
  intros Hr. destruct (tx_buffer d) as [b|] eqn:Hb.
  - apply (simulates_quiet _ _ d s d); cbn; rewrite ?(proj1 (pending_some d s b Hr Hb)); [|done|done].
    by rewrite /reply /chain /redb_begin_transaction /chain /state Hb.
  - destruct (pending_none d s Hr Hb) as [Hp _].
    apply (simulates_quiet _ _ d s (set_changed [] (set_buffer (Some new_buffer) d))); cbn; rewrite ?Hp; [|split; cbn|done].
    + by rewrite /reply /chain /redb_begin_transaction /chain /state Hb.
    + apply Hr.
    + by rewrite overlay_new.
    + done.
    + intros b a [= <-] Hin. done.
Qed.

Lemma rollback_ok d s : refines d s → simulates Rollback (db_step Rollback) d s.
Proof.
  intros Hr. apply (simulates_quiet _ _ d s (set_changed [] (set_buffer None d))); [done| |done].
  split; [apply Hr|done|done|by intros].
Qed.

Lemma get_changed_ok d s : refines d s → simulates GetChanged (db_step GetChanged) d s.
Proof.
  intros Hr. apply (simulates_quiet _ _ d s d); [|done|done].
  by rewrite /= /reply /chain /redb_get_changed_accounts /chain /state (rf_touched _ _ Hr).
Qed.

Lemma commit_ok d s : refines d s → simulates Commit (db_step Commit) d s.
Proof.
  intros Hr. destruct (tx_buffer d) as [b|] eqn:Hb.
  - destruct (pending_some d s b Hr Hb) as [Hp _].
    destruct (write_txn_ok (commit_buffer b) (set_buffer None d)) as (fault & l & Ht & E1).
    destruct (takes_in _ _ _ Ht) as [Hf1 Hf2]. destruct fault; [exists true|exists false]; eexists;
      rewrite /= Hp /reply /chain /redb_commit_transaction /chain /state Hb /update E1; (split_and!; [done| |done|done]).
    + split; [apply Hr|done|apply Hr|by intros].
    + split; cbn; [|done|apply Hr|by intros]. apply commit_overlay; [apply Hr|]. intros a. by eapply rf_deleted.
  - apply (simulates_quiet _ _ d s d); cbn; rewrite ?(proj1 (pending_none d s Hr Hb)); [|done|done].
    by rewrite /reply /chain /redb_commit_transaction /chain /state Hb.
Qed.

Lemma step_ok op d s : refines d s → op_fits op d = true → simulates op (db_step op) d s.
Proof.
  intros Hr Hfit. destruct op; auto using get_account_ok, set_account_ok, delete_account_ok, get_storage_ok, set_storage_ok,
    get_all_storage_ok, get_code_ok, set_code_ok, get_block_hash_ok, set_block_hash_ok, begin_ok, commit_ok, rollback_ok,
    get_changed_ok.
Qed.

(** * The contract *)

(** C9: [RedbStateDB] is a transactional store. Any sequence of calls on a database in a state
    that represents the store [s], that neither sets an account again after deleting it in the
    same transaction nor reads code (or lists a storage) the transaction has changed, gives the
    replies of the store and ends in a state that represents the store's: reads see the running
    transaction, a commit installs it, a rollback or a commit the disk refuses leaves the
    committed view. Without disk faults no call fails that the store does not refuse. *)
Theorem redb_refines_store ops d s :
  refines d s → run_fits ops d = true →
  ∃ faults, length faults = length ops ∧
    (db_run ops d).1 = (spec_run (zip faults ops) s).1 ∧
    refines (db_run ops d).2 (spec_run (zip faults ops) s).2 ∧
    (true ∉ redb_faults d → Forall (λ f, f = false) faults).
Proof.
  revert d s. induction ops as [|op ops IH]; intros d s Hr Hfit; [by exists []|].
  cbn in Hfit. apply andb_prop in Hfit as [Hf1 Hf2].
  destruct (step_ok op d s Hr Hf1) as (fault & d' & E1 & Hr' & Hfault & Hrest). rewrite E1 /= in Hf2.
  destruct (IH d' _ Hr' Hf2) as (faults & Hl & E2 & Hr2 & Hno). exists (fault :: faults). cbn [db_run zip zip_with spec_run].
  rewrite E1. destruct (spec_step fault op s) as [r s1]. cbn in *.
  destruct (db_run ops d') as [rs d2], (spec_run (zip faults ops) s1) as [rs' s2]. cbn in *.
  split_and!; [lia|congruence|done|]. intros Hnf. constructor; [|by eauto]. destruct fault; [|done]. by destruct Hnf; auto.
Qed.

(** * Transactions are atomic *)

Lemma keeps_read_txn {A} (f : Tables → A) : keeps tables (λ d, bool_decide (is_Some (tx_buffer d))) (read_txn f).
Proof. intros d Ho. by destruct (read_txn_ok f d) as ([] & l & _ & ->). Qed.

Lemma keeps_through f g : keeps tables (λ d, bool_decide (is_Some (tx_buffer d))) (write_through f g).
Proof. intros d [b Hb]%bool_decide_eq_true. by rewrite /write_through /chain /state Hb. Qed.

Lemma keeps_track a : keeps tables (λ d, bool_decide (is_Some (tx_buffer d))) (track_changed_account a).
Proof. by intros d. Qed.

Lemma keeps_decode data : keeps tables (λ d, bool_decide (is_Some (tx_buffer d))) (decode_account data).
Proof. rewrite /decode_account. destruct (deserialize data); auto with keeps. Qed.

Lemma keeps_redb_get_account a : keeps tables (λ d, bool_decide (is_Some (tx_buffer d))) (redb_get_account a).
Proof.
  apply keeps_chain; [auto with keeps|]. intros d.
  assert (keeps tables (λ d, bool_decide (is_Some (tx_buffer d)))
    (let? value := read_txn (λ t, accounts_table t !! a) in
     match value with Some data => decode_account data | None => good None end)) as Hk.
  { apply keeps_chain; [apply keeps_read_txn|]. intros [data|]; auto using keeps_decode with keeps. }
  destruct (tx_buffer d) as [b|]; [|done]. destruct (buf_accounts b !! a); [auto with keeps|].
  case_decide; auto with keeps.
Qed.

#[global] Program Instance redb_atomic : AtomicDb RedbStateDB := {
  Disk := Tables;
  disk := tables;
  in_txn := λ d, bool_decide (is_Some (tx_buffer d));
  keeps_get_account := keeps_redb_get_account;
}.
Next Obligation. intros a acc. apply keeps_chain; [apply keeps_track|intros; apply keeps_through]. Qed.
Next Obligation. intros a. apply keeps_chain; [apply keeps_track|intros; apply keeps_through]. Qed.
Next Obligation.
  intros a k. apply keeps_chain; [auto with keeps|]. intros d. destruct (_ ≫= _); [auto with keeps|apply keeps_read_txn].
Qed.
Next Obligation. intros a k v. apply keeps_chain; [apply keeps_track|intros; apply keeps_through]. Qed.
Next Obligation. intros h. apply keeps_read_txn. Qed.
Next Obligation. intros h c. apply keeps_through. Qed.
Next Obligation.
  intros n. apply keeps_chain; [auto with keeps|]. intros d. destruct (_ ≫= _); [auto with keeps|apply keeps_read_txn].
Qed.
Next Obligation.
  intros d Ho%bool_decide_eq_false. cbn. rewrite /redb_begin_transaction /chain /state.
  destruct (tx_buffer d) as [b|] eqn:Hb; [|done]. by destruct Ho; exists b.
Qed.
Next Obligation.
  intros d [b Hb]%bool_decide_eq_true. cbn. rewrite /redb_commit_transaction /chain /state Hb /update.
  by destruct (write_txn_ok (commit_buffer b) (set_buffer None d)) as ([] & l & _ & ->).
Qed.
Next Obligation. by intros d Ho. Qed.

(** * Opening *)

Definition add_wallet (v : view) (w : BuiltInWallet) : view :=
  match v_accounts v !! wallet_address w with
  | Some _ => v
  | None => v_set_account (wallet_address w) (builtin_account w) v
  end.
Definition with_wallets (v : view) : view := foldl add_wallet v get_builtin_wallets.

Lemma init_wallets_are l t v : tables_are t v → tables_are (foldl init_wallet t l) (foldl add_wallet v l).
Proof.
  revert t v. induction l as [|w l IH]; intros t v Hv; [done|]. cbn [foldl]. apply IH.
  destruct Hv as [Ha Hs Hc Hh]. rewrite /init_wallet /add_wallet Ha lookup_fmap.
  destruct (v_accounts v !! wallet_address w); cbn; [by split|]. split; cbn; [by rewrite Ha fmap_insert|done..].
Qed.

Lemma add_wallets_keep l v a acc : v_accounts v !! a = Some acc → v_accounts (foldl add_wallet v l) !! a = Some acc.
Proof.
  revert v. induction l as [|w l IH]; intros v Hv; [done|]. cbn [foldl]. apply IH. rewrite /add_wallet.
  destruct (v_accounts v !! wallet_address w) eqn:E1; [done|]. cbn. rewrite lookup_insert_ne; [congruence|done].
Qed.

Lemma add_wallets_have l v w : w ∈ l → is_Some (v_accounts (foldl add_wallet v l) !! wallet_address w).
Proof.
  revert v. induction l as [|w' l IH]; intros v Hin; [by apply elem_of_nil in Hin|]. cbn [foldl].
  apply elem_of_cons in Hin as [->|Hin]; [|by apply IH].
  destruct (v_accounts (add_wallet v w') !! wallet_address w') as [acc|] eqn:E1.
  - exists acc. by apply add_wallets_keep.
  - rewrite /add_wallet in E1. destruct (v_accounts v !! wallet_address w') eqn:E2; [congruence|].
    cbn in E1. by rewrite lookup_insert_eq in E1.
Qed.

Lemma add_wallets_idle l v : (∀ w, w ∈ l → is_Some (v_accounts v !! wallet_address w)) → foldl add_wallet v l = v.
Proof.
  revert v. induction l as [|w l IH]; intros v Hv; [done|]. cbn [foldl].
  assert (add_wallet v w = v) as ->; [|apply IH; intros; apply Hv; by apply elem_of_cons; right].
  rewrite /add_wallet. by destruct (Hv w (list_elem_of_here _ _)) as [acc ->].
Qed.

(** Opening a database file whose tables hold the view [v] either fails, in a state whose
    tables are those of the file, or gives a database without a transaction that represents [v]
    with the missing built-in wallets added: no account that is there, and so no balance spent
    since, is reset, every built-in wallet has an account, and opening again changes nothing. *)
Theorem open_adds_missing_wallets disk_tables v faults r d :
  tables_are disk_tables v → RedbStateDB_new disk_tables faults = (r, d) →
  match r with
  | Good _ =>
      refines d (MkSpec (with_wallets v) None []) ∧
      (∀ a acc, v_accounts v !! a = Some acc → v_accounts (with_wallets v) !! a = Some acc) ∧
      (∀ w, w ∈ get_builtin_wallets → is_Some (v_accounts (with_wallets v) !! wallet_address w)) ∧
      with_wallets (with_wallets v) = with_wallets v
  | Bad _ => tables d = disk_tables
  | Crash => False
  end.
Proof.
  intros Hv. rewrite /RedbStateDB_new /open_internal /chain /initialize_builtin_accounts.
  destruct (write_txn_ok (λ t, t) (MkRedb disk_tables faults None [])) as ([] & l & _ & ->); [by intros [= <- <-]|].
  match goal with |- context [write_txn ?f ?d1] => destruct (write_txn_ok f d1) as ([] & l2 & _ & ->) end;
    intros [= <- <-]; [done|]. split_and!.
  - split; [by apply (init_wallets_are get_builtin_wallets)|done|done|by intros].
  - intros a acc. apply add_wallets_keep.
  - intros w. apply add_wallets_have.
  - apply add_wallets_idle. intros w. apply add_wallets_have.
Qed.

(** * Outside the contract *)

Lemma db_run_cons op ops d r d' : db_step op d = (r, d') → (db_run (op :: ops) d).1 = r :: (db_run ops d').1.
Proof. intros E1. cbn [db_run]. rewrite E1. by destruct (db_run ops d'). Qed.

Lemma buffered_account t b c a acc :
  buf_accounts b !! a = Some acc →
  db_step (GetAccount a) (MkRedb t [] (Some b) c) = (Good (RAccount (Some acc)), MkRedb t [] (Some b) c).
Proof. intros E1. by rewrite /= /reply /chain /redb_get_account /chain /state /= E1. Qed.

Lemma missing_account t c a :
  accounts_table t !! a = None →
  db_step (GetAccount a) (MkRedb t [] None c) = (Good (RAccount None), MkRedb t [] None c).
Proof. intros E1. by rewrite /= /reply /chain /redb_get_account /chain /state /read_txn /= E1. Qed.

(** An account deleted and then created again in one transaction (a contract that destroys
    itself and is paid by a later transaction of the block) is visible until the commit and
    gone after it: the commit writes the buffered accounts first and removes the deleted ones
    after. *)
Theorem recreated_account_lost d b a acc :
  redb_faults d = [] → tx_buffer d = Some b →
  let ops := [DeleteAccount a; SetAccount a acc; GetAccount a; Commit; GetAccount a] in
  run_fits ops d = false ∧
  (db_run ops d).1 = [Good RUnit; Good RUnit; Good (RAccount (Some acc)); Good RUnit; Good (RAccount None)].
Proof.
  destruct d as [t l b0 c]. cbn [redb_faults tx_buffer]. intros -> ->. split.
  { rewrite /= /op_fits /= bool_decide_eq_false_2; [set_solver|done]. }
  do 2 (erewrite db_run_cons; [|reflexivity]). erewrite db_run_cons; [|apply buffered_account, lookup_insert_eq].
  erewrite db_run_cons; [|reflexivity]. erewrite db_run_cons; [done|]. apply missing_account.
  rewrite commit_buffer_eq /= lookup_without decide_True; [set_solver|done].
Qed.

(** Code stored in a transaction cannot be read before the commit, though the account that
    has its hash can: a contract deployed by a transaction cannot be called by a later one of
    the same block. *)
Theorem new_code_hidden d b a h code :
  redb_faults d = [] → tx_buffer d = Some b → code_table (tables d) !! h = None →
  (db_run [SetAccount a (MkAccount 1 0 EMPTY_STORAGE_ROOT h); SetCode h code; GetAccount a; GetCode h; Commit; GetCode h] d).1
  = [Good RUnit; Good RUnit; Good (RAccount (Some (MkAccount 1 0 EMPTY_STORAGE_ROOT h))); Good (RCode None);
     Good RUnit; Good (RCode (Some code))].
Proof.
  destruct d as [t l b0 c]. cbn [redb_faults tx_buffer tables]. intros -> -> Hh.
  do 2 (erewrite db_run_cons; [|reflexivity]). erewrite db_run_cons; [|apply buffered_account, lookup_insert_eq].
  do 3 (erewrite db_run_cons; [|reflexivity]). cbn -[commit_buffer]. rewrite Hh commit_buffer_eq /=.
  by rewrite lookup_union_l' ?lookup_insert_eq.
Qed.
End redb_ok.
