(* ===== verification/KvDb.v ===== *)
(** The second state database of the block producer: [WalrusStateDB] of
    [src/block-producer/src/db/kvdb.rs] and its cache, [src/block-producer/src/db/cache.rs].

    Every account, storage slot, contract code and block hash has a topic of its own in the storage engine; a
    write appends a version, a read takes the last version of one batch read that does not commit, and a cache
    is asked first. The engine is seen through the interface [TopicLog], the LRU crate through [Lru]. *)

From S2P Require Import Prelude Config Writer Batch BatchReadOk BatchReadInv Metadata StateDb.

#[local] Open Scope Z_scope.

(** * What the database is built on *)

(** [append_for_topic] and [batch_read_for_topic] with [checkpoint = false]. *)
Class TopicLog (E : Type) := {
  tl_append : string → list Z → M E unit;
  tl_peek : string → Z → M E (list (list Z));
}.

(** [tl_holds n e c]: the topics hold [c], and there is room for [n] more appends. *)
Class TopicLogLaws (E : Type) `{TopicLog E} := {
  tl_accepts : string → list Z → Prop;
  tl_holds : Z → E → (string → list (list Z)) → Prop;
  tl_holds_append n e c t d :
    0 ≤ n → tl_accepts t d → tl_holds (n + 1) e c →
    ∃ e', tl_append t d e = (Ok tt, e') ∧ tl_holds n e' (λ t', if decide (t' = t) then c t ++ [d] else c t');
  tl_holds_peek n e c t max :
    tl_holds n e c → batch_covers true max (c t) →
    ∃ e', tl_peek t max e = (Ok (nonempty (take (batch_count max (c t) 0 0) (c t))), e') ∧ tl_holds n e' c;
}.

(** The crate [lru]: a map that forgets. *)
Class Lru (K V C : Type) := {
  lru_new : Z → C;
  lru_get : K → C → option V * C;
  lru_put : K → V → C → C;
  lru_pop : K → C → C;
  lru_clear : C → C;
}.

Class LruLaws (K V C : Type) `{EqDecision K} `{Lru K V C} := {
  lru_has : C → K → option V;
  lru_has_new n k : lru_has (lru_new n) k = None;
  lru_get_has k c : (lru_get k c).1 = lru_has c k ∧ ∀ k', lru_has (lru_get k c).2 k' = lru_has c k';
  lru_put_same k v c : lru_has (lru_put k v c) k = Some v;
  lru_put_other k v c k' : k' ≠ k → lru_has (lru_put k v c) k' = lru_has c k' ∨ lru_has (lru_put k v c) k' = None;
  lru_pop_has k c k' : lru_has (lru_pop k c) k' = if decide (k' = k) then None else lru_has c k';
  lru_clear_has c k : lru_has (lru_clear c) k = None;
}.

(** The crate [hex], the decimal text of a number, and the bytes of a hash. *)
Class KvText := {
  hex_encode : Z → string;
  show : Z → string;
  b256_bytes : B256 → list Z;
  b256_from : list Z → B256;
}.

(** Hexadecimal text has two digits for each byte and no colon. *)
Class KvTextLaws `{KvText} : Prop := {
  hex_inj a b : hex_encode a = hex_encode b → a = b;
  show_inj a b : show a = show b → a = b;
  hex_split a b s t : hex_encode a +:+ (":" +:+ s) = hex_encode b +:+ (":" +:+ t) → a = b ∧ s = t;
  b256_roundtrip h : b256_from (b256_bytes h) = h;
  b256_length h : len (b256_bytes h) = 32;
}.

(** * The cache *)

Inductive CacheKey :=
  | KAccount (a : Address)
  | KStorage (a : Address) (k : U256)
  | KCode (h : B256)
  | KBlockHash (n : Z).
#[global] Instance CacheKey_eq_dec : EqDecision CacheKey.
Proof. solve_decision. Defined.

Inductive CacheValue :=
  | VAccount (acc : Account)
  | VStorage (v : U256)
  | VCode (c : Bytes)
  | VBlockHash (h : B256).
#[global] Instance CacheValue_eq_dec : EqDecision CacheValue.
Proof. solve_decision. Defined.

(** [as_account] and the like panic on a value of another kind. *)
Definition as_account (v : CacheValue) : option Account := match v with VAccount a => Some a | _ => None end.
Definition as_storage (v : CacheValue) : option U256 := match v with VStorage x => Some x | _ => None end.
Definition as_code (v : CacheValue) : option Bytes := match v with VCode c => Some c | _ => None end.
Definition as_block_hash (v : CacheValue) : option B256 := match v with VBlockHash h => Some h | _ => None end.

Definition CACHE_CAPACITY : Z := 10000.

(** * The database *)

Section kvdb.
Context {E C : Type} `{TopicLog E} `{Lru CacheKey CacheValue C} `{KvText} `{Bincode Account} `{Bincode U256}.

Record WalrusStateDB := MkKv {
  kv_wal : E;
  kv_cache : C;
  kv_buffer : option TransactionBuffer;
  kv_changed : list Address;
}.

Abbreviation db A := (X WalrusStateDB DbError A).

(** [WalrusStateDB::new] on an engine. *)
Definition kv_new (e : E) : WalrusStateDB := MkKv e (lru_new CACHE_CAPACITY) None [].

Definition kv_set_cache (c : C) (d : WalrusStateDB) : WalrusStateDB := MkKv (kv_wal d) c (kv_buffer d) (kv_changed d).
Definition kv_set_buffer (b : option TransactionBuffer) (d : WalrusStateDB) : WalrusStateDB := MkKv (kv_wal d) (kv_cache d) b (kv_changed d).
Definition kv_set_changed (l : list Address) (d : WalrusStateDB) : WalrusStateDB := MkKv (kv_wal d) (kv_cache d) (kv_buffer d) l.

(** A call of the engine; its error becomes [DbError::Walrus]. *)
Definition in_log {A} (m : M E A) : db A := λ d,
  let '(o, e) := m (kv_wal d) in
  (match o with Ok a => Good a | Err _ => Bad DbWalrus | _ => Crash end, MkKv e (kv_cache d) (kv_buffer d) (kv_changed d)).

(** ** The cache *)

Definition cache_get (k : CacheKey) : db (option CacheValue) := λ d,
  let '(o, c) := lru_get k (kv_cache d) in (Good o, kv_set_cache c d).
Definition cache_put (k : CacheKey) (v : CacheValue) : db unit := update (λ d, kv_set_cache (lru_put k v (kv_cache d)) d).
Definition cache_remove (k : CacheKey) : db unit := update (λ d, kv_set_cache (lru_pop k (kv_cache d)) d).

(** ** Topics *)

Definition topic_of (k : CacheKey) : string :=
  match k with
  | KAccount a => "accounts:" +:+ hex_encode a
  | KStorage a k => "storage:" +:+ (hex_encode a +:+ (":" +:+ show k))
  | KCode h => "code:" +:+ hex_encode h
  | KBlockHash n => "block_hash:" +:+ show n
  end.

Definition LATEST_BYTES : Z := 1024 * 1024 * 10.

Definition read_latest_for_topic (topic : string) : db (option (list Z)) :=
  let? entries := in_log (tl_peek topic LATEST_BYTES) in good (last entries).

Definition kv_persist_account (a : Address) (acc : Account) : db unit := in_log (tl_append (topic_of (KAccount a)) (serialize acc)).
Definition kv_persist_storage (a : Address) (k v : U256) : db unit := in_log (tl_append (topic_of (KStorage a k)) (serialize v)).

Definition load_account (a : Address) : db (option Account) :=
  let? cached := cache_get (KAccount a) in
  match cached with
  | Some v => match as_account v with Some acc => good (Some acc) | None => crash end
  | None =>
      let? entry := read_latest_for_topic (topic_of (KAccount a)) in
      match entry with
      | None => good None
      | Some data =>
          match deserialize data with
          | None => bad DbSerialization
          | Some acc => cache_put (KAccount a) (VAccount acc) ?; good (Some acc)
          end
      end
  end.

Definition load_storage (a : Address) (k : U256) : db U256 :=
  let? cached := cache_get (KStorage a k) in
  match cached with
  | Some v => match as_storage v with Some x => good x | None => crash end
  | None =>
      let? entry := read_latest_for_topic (topic_of (KStorage a k)) in
      match entry with
      | None => good 0
      | Some data =>
          match deserialize data with
          | None => bad DbSerialization
          | Some x => cache_put (KStorage a k) (VStorage x) ?; good x
          end
      end
  end.

Definition kv_track (a : Address) : db unit := update (λ d, kv_set_changed (track a (kv_changed d)) d).

(** ** The trait *)

Definition kv_get_account (a : Address) : db (option Account) :=
  let? d := state in
  match kv_buffer d with
  | Some b =>
      match buf_accounts b !! a with
      | Some acc => good (Some acc)
      | None => if decide (a ∈ deleted_accounts b) then good None else load_account a
      end
  | None => load_account a
  end.

Definition kv_set_account (a : Address) (acc : Account) : db unit :=
  kv_track a ?;
  let? d := state in
  match kv_buffer d with
  | Some b => update (kv_set_buffer (Some (buf_set_account a acc b)))
  | None => kv_persist_account a acc ?; cache_put (KAccount a) (VAccount acc)
  end.

Definition kv_delete_account (a : Address) : db unit :=
  kv_track a ?;
  let? d := state in
  match kv_buffer d with
  | Some b => update (kv_set_buffer (Some (buf_delete_account a b)))
  | None => kv_persist_account a default_account ?; cache_remove (KAccount a)
  end.

Definition kv_get_storage (a : Address) (k : U256) : db U256 :=
  let? d := state in
  match kv_buffer d with
  | Some b => match buf_storage b !! (a, k) with Some v => good v | None => load_storage a k end
  | None => load_storage a k
  end.

Definition kv_set_storage (a : Address) (k v : U256) : db unit :=
  kv_track a ?;
  let? d := state in
  match kv_buffer d with
  | Some b => update (kv_set_buffer (Some (buf_set_storage a k v b)))
  | None => kv_persist_storage a k v ?; cache_put (KStorage a k) (VStorage v)
  end.

(** Not implemented: the list is empty. *)
Definition kv_get_all_storage (a : Address) : db (list StorageSlot) := good [].

Definition kv_get_code (h : B256) : db (option Bytes) :=
  let? cached := cache_get (KCode h) in
  match cached with
  | Some v => match as_code v with Some c => good (Some c) | None => crash end
  | None =>
      let? entry := read_latest_for_topic (topic_of (KCode h)) in
      match entry with
      | None => good None
      | Some data => cache_put (KCode h) (VCode data) ?; good (Some data)
      end
  end.

Definition kv_append_code (h : B256) (c : Bytes) : db unit :=
  in_log (tl_append (topic_of (KCode h)) c) ?; cache_put (KCode h) (VCode c).

Definition kv_set_code (h : B256) (c : Bytes) : db unit :=
  let? d := state in
  match kv_buffer d with
  | Some b => update (kv_set_buffer (Some (buf_set_code h c b)))
  | None => kv_append_code h c
  end.

Definition kv_get_block_hash (n : Z) : db (option B256) :=
  let? cached := cache_get (KBlockHash n) in
  match cached with
  | Some v => match as_block_hash v with Some h => good (Some h) | None => crash end
  | None =>
      let? entry := read_latest_for_topic (topic_of (KBlockHash n)) in
      match entry with
      | None => good None
      | Some data =>
          if len data =? 32
          then let h := b256_from data in cache_put (KBlockHash n) (VBlockHash h) ?; good (Some h)
          else good None
      end
  end.

Definition kv_append_hash (n : Z) (h : B256) : db unit :=
  in_log (tl_append (topic_of (KBlockHash n)) (b256_bytes h)) ?; cache_put (KBlockHash n) (VBlockHash h).

Definition kv_set_block_hash (n : Z) (h : B256) : db unit :=
  let? d := state in
  match kv_buffer d with
  | Some b => update (kv_set_buffer (Some (buf_set_block_hash n h b)))
  | None => kv_append_hash n h
  end.

Definition kv_begin_transaction : db unit :=
  let? d := state in
  match kv_buffer d with
  | Some _ => bad (DbTransaction "Transaction already started")
  | None => update (λ d, kv_set_changed [] (kv_set_buffer (Some new_buffer) d))
  end.

(** The buffer is taken before anything is written; a failed append leaves what came before it. *)
Definition kv_commit_transaction : db unit :=
  let? d := state in
  match kv_buffer d with
  | None => bad (DbTransaction "No active transaction")
  | Some b =>
      update (kv_set_buffer None) ?;
      each (λ '(a, acc), kv_persist_account a acc ?; cache_put (KAccount a) (VAccount acc)) (map_to_list (buf_accounts b)) ?;
      each (λ '((a, k), v), kv_persist_storage a k v ?; cache_put (KStorage a k) (VStorage v)) (map_to_list (buf_storage b)) ?;
      each (λ '(h, c), kv_append_code h c) (map_to_list (buf_codes b)) ?;
      each (λ '(n, h), kv_append_hash n h) (map_to_list (buf_block_hashes b))
  end.

Definition kv_rollback_transaction : db unit :=
  let? d := state in
  match kv_buffer d with
  | None => bad (DbTransaction "No active transaction")
  | Some _ => update (λ d, kv_set_changed [] (kv_set_buffer None d))
  end.

Definition kv_get_changed_accounts : db (list Address) := let? d := state in good (kv_changed d).
Definition kv_clear_cache : db unit := update (λ d, kv_set_cache (lru_clear (kv_cache d)) d).

#[export] Instance kv_database : StateDatabase WalrusStateDB := {
  get_account := kv_get_account;
  set_account := kv_set_account;
  delete_account := kv_delete_account;
  get_storage := kv_get_storage;
  set_storage := kv_set_storage;
  get_all_storage := kv_get_all_storage;
  get_code := kv_get_code;
  set_code := kv_set_code;
  get_block_hash := kv_get_block_hash;
  set_block_hash := kv_set_block_hash;
  begin_transaction := kv_begin_transaction;
  commit_transaction := kv_commit_transaction;
  rollback_transaction := kv_rollback_transaction;
  get_changed_accounts := kv_get_changed_accounts;
}.
End kvdb.
Arguments WalrusStateDB : clear implicits.
