(* ===== verification/KvDbOk.v ===== *)
(** [WalrusStateDB] implements the contract of a state database, within the limits of a batch read: the
    same store that the embedded database refines. At the end, what it is built on: the storage engine implements
    its interface of topics, and a list is an LRU cache. *)

From S2P Require Import Prelude Config Storage Block Trackers Allocator Index TopicClean Reader Writer TopicInv Core Batch Walrus BatchRead Recovery EngineInv BatchReadOk BatchReadInv Fifo Metadata OctopiiWal Bucket WalrusEngine StateDb KvDb.

#[local] Open Scope Z_scope.

(** * Cells: a key of the cache, its topic and its place in a view *)

Definition view_at (v : view) (k : CacheKey) : option CacheValue :=
  match k with
  | KAccount a => VAccount <$> v_accounts v !! a
  | KStorage a k => VStorage <$> v_storage v !! (a, k)
  | KCode h => VCode <$> v_codes v !! h
  | KBlockHash n => VBlockHash <$> v_hashes v !! n
  end.

Definition kind_ok (k : CacheKey) (x : CacheValue) : Prop :=
  match k, x with
  | KAccount _, VAccount _ | KStorage _ _, VStorage _ | KCode _, VCode _ | KBlockHash _, VBlockHash _ => True
  | _, _ => False
  end.

Lemma view_at_kind v k x : view_at v k = Some x → kind_ok k x.
Proof. destruct k; cbn; intros (y & _ & ->)%fmap_Some; done. Qed.

(** Inserting into one of the maps sets one of their cells. *)
Lemma insert_cell {K A} `{Countable K} (wk : K → CacheKey) (wv : A → CacheValue) `{!Inj (=) (=) wk} (m : gmap K A) i y i' :
  wv <$> (<[i := y]> m !! i') = if decide (wk i' = wk i) then Some (wv y) else wv <$> (m !! i').
Proof.
  destruct (decide (wk i' = wk i)) as [->%(inj wk)|Hne]; [by rewrite lookup_insert_eq|]. rewrite lookup_insert_ne //. by intros ->.
Qed.
#[local] Instance KAccount_inj : Inj (=) (=) KAccount. Proof. by intros ?? [=]. Qed.
#[local] Instance KStorage_inj : Inj (=) (=) (λ p : Address * U256, KStorage p.1 p.2). Proof. by intros [??] [??] [= -> ->]. Qed.
#[local] Instance KCode_inj : Inj (=) (=) KCode. Proof. by intros ?? [=]. Qed.
#[local] Instance KBlockHash_inj : Inj (=) (=) KBlockHash. Proof. by intros ?? [=]. Qed.

(** What a buffer says of a cell; the buffer laid over a view. *)
Definition buffer_at (b : TransactionBuffer) (k : CacheKey) : option CacheValue :=
  match k with
  | KAccount a => VAccount <$> buf_accounts b !! a
  | KStorage a k => VStorage <$> buf_storage b !! (a, k)
  | KCode h => VCode <$> buf_codes b !! h
  | KBlockHash n => VBlockHash <$> buf_block_hashes b !! n
  end.

Definition laid_over (b : TransactionBuffer) (v : view) : view :=
  MkView (buf_accounts b ∪ v_accounts v) (buf_storage b ∪ v_storage v) (buf_codes b ∪ v_codes v) (buf_block_hashes b ∪ v_hashes v).

Lemma laid_over_at b v k : view_at (laid_over b v) k = match buffer_at b k with Some x => Some x | None => view_at v k end.
Proof. destruct k; cbn; rewrite lookup_union; by destruct (_ !! _), (_ !! _). Qed.

(** The number of cells a buffer holds. *)
Definition buffer_size (b : TransactionBuffer) : Z :=
  Z.of_nat (size (buf_accounts b) + size (buf_storage b) + size (buf_codes b) + size (buf_block_hashes b)).
Definition open_size (o : option TransactionBuffer) : Z := match o with Some b => buffer_size b | None => 0 end.

Lemma size_insert_le {K A} `{Countable K} (k : K) (x : A) (m : gmap K A) : (size (<[k := x]> m) ≤ S (size m))%nat.
Proof. rewrite map_size_insert. destruct (m !! k); cbn; lia. Qed.

(** Setting one cell. *)
Definition cell_set (k : CacheKey) (x : CacheValue) (f : CacheKey → option CacheValue) : CacheKey → option CacheValue :=
  λ k', if decide (k' = k) then Some x else f k'.

Definition cells_of (b : TransactionBuffer) : list (CacheKey * CacheValue) :=
  ((λ '(a, acc), (KAccount a, VAccount acc)) <$> map_to_list (buf_accounts b)) ++
  ((λ '((a, k), v), (KStorage a k, VStorage v)) <$> map_to_list (buf_storage b)) ++
  ((λ '(h, c), (KCode h, VCode c)) <$> map_to_list (buf_codes b)) ++
  ((λ '(n, h), (KBlockHash n, VBlockHash h)) <$> map_to_list (buf_block_hashes b)).

Lemma cells_of_length b : len (cells_of b) = buffer_size b.
Proof. unfold cells_of, len, buffer_size. rewrite !length_app !length_fmap !length_map_to_list. lia. Qed.

Lemma elem_of_cells_of b k x : (k, x) ∈ cells_of b ↔ buffer_at b k = Some x.
Proof.
  unfold cells_of. rewrite !elem_of_app !list_elem_of_fmap. split.
  - intros [([a y] & [= -> ->] & Hy)|[([[a i] y] & [= -> ->] & Hy)|[([a y] & [= -> ->] & Hy)|([a y] & [= -> ->] & Hy)]]];
      apply elem_of_map_to_list in Hy; cbn; by rewrite Hy.
  - destruct k as [a|a i|h|n]; cbn; intros (y & Hy & ->)%fmap_Some; apply elem_of_map_to_list in Hy.
    + left. by exists (a, y).
    + right. left. by exists ((a, i), y).
    + right. right. left. by exists (h, y).
    + right. right. right. by exists (n, y).
Qed.

(** Writing the cells of a buffer, in any order and each once, lays it over the view. *)
Lemma cells_set_spec l : ∀ f,
  (∀ k x y, (k, x) ∈ l → (k, y) ∈ l → x = y) → ∀ k,
  foldl (λ f p, cell_set p.1 p.2 f) f l k = match list_find (λ p, p.1 = k) l with Some (_, p) => Some p.2 | None => f k end.
Proof.
  induction l as [|[k0 x0] l IH]; intros f Hfun k; [done|]. cbn [foldl list_find fst snd].
  rewrite IH; [intros k' x y Hx Hy; apply (Hfun k'); by right|]. unfold cell_set at 1. destruct (decide (k = k0)) as [<-|Hne].
  - rewrite (decide_True_pi eq_refl). destruct (list_find (λ p, p.1 = k) l) as [[i [k1 x1]]|] eqn:Hf; cbn; [|done].
    apply list_find_Some in Hf as (Hi & Hk1 & _). cbn in Hk1. subst k1. f_equal. apply (Hfun k); [right; by eapply list_elem_of_lookup_2|by left].
  - rewrite decide_False; [congruence|]. by destruct (list_find (λ p, p.1 = k) l) as [[i [k1 x1]]|].
Qed.

Lemma cells_of_laid_over b v k :
  foldl (λ f p, cell_set p.1 p.2 f) (view_at v) (cells_of b) k = view_at (laid_over b v) k.
Proof.
  rewrite cells_set_spec; [intros k' x y Hx%elem_of_cells_of Hy%elem_of_cells_of; congruence|]. rewrite laid_over_at.
  destruct (list_find (λ p, p.1 = k) (cells_of b)) as [[i [k1 x1]]|] eqn:Hf.
  - apply list_find_Some in Hf as (Hi & Hk1 & _). cbn in Hk1 |- *. subst k1. apply list_elem_of_lookup_2, elem_of_cells_of in Hi. by rewrite Hi.
  - apply list_find_None in Hf. destruct (buffer_at b k) as [x|] eqn:Hb; [|done]. apply elem_of_cells_of in Hb.
    rewrite Forall_forall in Hf. by apply Hf in Hb.
Qed.

(** * Topics of different cells are different *)

Section names.
Context `{KvTextLaws}.

Lemma topic_of_inj k k' : topic_of k = topic_of k' → k = k'.
Proof.
  destruct k as [a|a i|h|n], k' as [a'|a' i'|h'|n']; cbn; intros Heq; try discriminate; simplify_eq.
  - by f_equal; apply hex_inj.
  - match goal with Heq : _ = _ |- _ => apply (hex_split a a') in Heq as [-> Hs] end. by apply show_inj in Hs as ->.
  - by f_equal; apply hex_inj.
  - by f_equal; apply show_inj.
Qed.
End names.

(** * The log and the cache of a store *)

Section refinement.
Context {E C : Type} `{TopicLogLaws E} `{Lru CacheKey CacheValue C} `{!LruLaws CacheKey CacheValue C} `{KvTextLaws} `{BincodeLaws Account} `{BincodeLaws U256}.
Abbreviation kvdb := (WalrusStateDB E C).
Abbreviation cells := (CacheKey → option CacheValue).

Definition encode_value (x : CacheValue) : list Z :=
  match x with
  | VAccount acc => serialize acc
  | VStorage v => serialize v
  | VCode c => c
  | VBlockHash h => b256_bytes h
  end.

(** A version that a read of ten megabytes and 2000 entries is sure to reach. *)
Definition MAX_VERSION : Z := 4096.
Definition small (k : CacheKey) (x : CacheValue) : Prop :=
  encode_value x ≠ [] ∧ len (encode_value x) ≤ MAX_VERSION ∧ tl_accepts (topic_of k) (encode_value x).

(** A topic whose last version is [o], with room for [n] more. *)
Record cell_ok (n : Z) (q : list (list Z)) (o : option CacheValue) : Prop := {
  ce_len : len q + n ≤ MAX_BATCH_ENTRIES;
  ce_small : Forall (λ d, d ≠ [] ∧ len d ≤ MAX_VERSION) q;
  ce_last : last q = encode_value <$> o;
}.

Record store_ok (n : Z) (d : kvdb) (f : cells) : Prop := {
  so_log : ∃ c, tl_holds n (kv_wal d) c ∧ ∀ k, cell_ok n (c (topic_of k)) (f k);
  so_cache k x : lru_has (kv_cache d) k = Some x → f k = Some x;
  so_kind k x : f k = Some x → kind_ok k x;
}.

(** The parts of the database that a cell does not touch. *)
Definition same_txn (d d' : kvdb) : Prop := kv_buffer d' = kv_buffer d ∧ kv_changed d' = kv_changed d.

Lemma store_ok_ext n d f g : store_ok n d f → (∀ k, f k = g k) → store_ok n d g.
Proof.
  intros [(c & Hc & Hcell) Hcache Hkind] Heq. split.
  - exists c. split; [done|]. intros k. rewrite -Heq. apply Hcell.
  - intros k x. rewrite -Heq. apply Hcache.
  - intros k x. rewrite -Heq. apply Hkind.
Qed.

Lemma store_ok_txn n d f b l : store_ok n d f → store_ok n (MkKv (kv_wal d) (kv_cache d) b l) f.
Proof. by intros [? ? ?]. Qed.

Lemma total_small q : Forall (λ d, d ≠ [] ∧ len d ≤ MAX_VERSION) q → batch_total q ≤ len q * (PREFIX_META_SIZE + MAX_VERSION).
Proof.
  induction 1 as [|d q [_ Hd] _ IH]; [done|]. change (batch_total (d :: q)) with (entry_need d + batch_total q). rewrite len_cons /entry_need. lia.
Qed.

(** A read finds the last version. *)
Lemma read_latest_ok n d f k :
  0 ≤ n → store_ok n d f →
  ∃ d', read_latest_for_topic (topic_of k) d = (Good (encode_value <$> f k), d') ∧ store_ok n d' f ∧ same_txn d d' ∧ kv_cache d' = kv_cache d.
Proof.
  intros Hn [(c & Hc & Hcell) Hcache Hkind]. destruct (Hcell k) as [Hlen Hsm Hlast]. set (q := c (topic_of k)) in *.
  pose proof (total_small q Hsm) as Ht. pose proof (len_nonneg q) as Hq0.
  assert (batch_covers true LATEST_BYTES q) as Hcov.
  { split; [|unfold LATEST_BYTES; consts|intros _; unfold MAX_BATCH_ENTRIES in *; lia].
    unfold LATEST_BYTES. unfold PREFIX_META_SIZE, MAX_VERSION, MAX_BATCH_ENTRIES in *. lia. }
  destruct (tl_holds_peek n (kv_wal d) c (topic_of k) LATEST_BYTES Hc Hcov) as (e' & Hp & Hc').
  assert (batch_count LATEST_BYTES q 0 0 = length q) as Hcount.
  { pose proof (batch_count_le LATEST_BYTES q 0 0). destruct (decide (batch_count LATEST_BYTES q 0 0 < length q)%nat) as [Hlt|]; [|lia].
    pose proof (batch_count_stop LATEST_BYTES q 0 0 ltac:(destruct Hcov; lia) Hlt) as Hs.
    assert (len (nonempty (take (batch_count LATEST_BYTES q 0 0) q)) ≤ Z.of_nat (batch_count LATEST_BYTES q 0 0)).
    { unfold nonempty, len. pose proof (length_filter (λ d, d ≠ []) (take (batch_count LATEST_BYTES q 0 0) q)) as Hf. rewrite length_take in Hf. lia. }
    unfold len in *. lia. }
  fold q in Hp. rewrite Hcount firstn_all nonempty_all in Hp; [eapply Forall_impl; [exact Hsm|by intros ? [? _]]|].
  eexists. unfold read_latest_for_topic, chain, in_log. rewrite Hp. split; [rewrite -Hlast; reflexivity|]. split; [|done].
  split; [by exists c|done|done].
Qed.

(** Appending a version and keeping it in the cache sets the cell. *)
Lemma append_cell_ok n d f k x :
  0 ≤ n → small k x → kind_ok k x → store_ok (n + 1) d f →
  ∃ d', (in_log (tl_append (topic_of k) (encode_value x)) ?; cache_put k x) d = (Good tt, d') ∧
    store_ok n d' (cell_set k x f) ∧ same_txn d d'.
Proof.
  intros Hn (Hne & Hsm & Hacc) Hk [(c & Hc & Hcell) Hcache Hkind].
  destruct (tl_holds_append n (kv_wal d) c (topic_of k) (encode_value x) Hn Hacc Hc) as (e' & Ha & Hc').
  eexists. unfold chain, in_log, cache_put, update, kv_set_cache. rewrite Ha. split; [reflexivity|]. split; [|done]. split.
  - eexists. split; [exact Hc'|]. intros k'. cbn beta. unfold cell_set. destruct (decide (k' = k)) as [-> | Hkk].
    + rewrite decide_True //. destruct (Hcell k) as [Hl Hs _]. split; [rewrite len_app; change (len [encode_value x]) with 1; lia| |by rewrite last_snoc].
      apply Forall_app. split; [done|]. by constructor.
    + rewrite decide_False; [by intros ?%topic_of_inj|]. destruct (Hcell k') as [Hl Hs Hla]. split; [lia|done|done].
  - intros k' y. unfold cell_set. cbn. case_decide as Hkk; [subst k'; by rewrite lru_put_same|].
    destruct (lru_put_other k x (kv_cache d) k' Hkk) as [-> | ->]; [apply Hcache|done].
  - intros k' y. unfold cell_set. case_decide as Hkk; [subst k'; by intros [= <-]|apply Hkind].
Qed.

(** Asking the cache. *)
Lemma cache_get_ok n d f k :
  store_ok n d f →
  ∃ o d', cache_get k d = (Good o, d') ∧ store_ok n d' f ∧ same_txn d d' ∧ (∀ x, o = Some x → f k = Some x).
Proof.
  intros [Hlog Hcache Hkind]. destruct (lru_get_has k (kv_cache d)) as [Hget Hhas]. unfold cache_get.
  destruct (lru_get k (kv_cache d)) as [o c']. cbn in Hget, Hhas. exists o, (kv_set_cache c' d). split_and!; [done| |done|].
  - split; [done| |done]. intros k' x. cbn. rewrite Hhas. apply Hcache.
  - intros x ->. by apply Hcache.
Qed.

Lemma cache_put_ok n d f k x :
  store_ok n d f → f k = Some x → ∃ d', cache_put k x d = (Good tt, d') ∧ store_ok n d' f ∧ same_txn d d'.
Proof.
  intros [Hlog Hcache Hkind] Hf. eexists. split; [reflexivity|]. split; [|done]. split; [done| |done].
  intros k' y. cbn. destruct (decide (k' = k)) as [-> | Hne]; [rewrite lru_put_same; congruence|].
  destruct (lru_put_other k x (kv_cache d) k' Hne) as [-> | ->]; [apply Hcache|done].
Qed.

(** ** Loading a cell *)

Lemma same_txn_trans d1 d2 d3 : same_txn d1 d2 → same_txn d2 d3 → same_txn d1 d3.
Proof. intros [? ?] [? ?]. split; congruence. Qed.

(** The cache is asked, then the log, and what the log has is put in the cache. *)
Lemma load_cell_ok {A} n d f k (cached : CacheValue → X kvdb DbError A) (none : A) (found : list Z → X kvdb DbError A) (val : CacheValue → A) :
  0 ≤ n → store_ok n d f →
  (∀ x d', kind_ok k x → cached x d' = (Good (val x), d')) →
  (∀ x d', kind_ok k x → found (encode_value x) d' = (cache_put k x ?; good (val x)) d') →
  ∃ d', (let? o := cache_get k in
         match o with
         | Some x => cached x
         | None => let? e := read_latest_for_topic (topic_of k) in match e with None => good none | Some data => found data end
         end) d = (Good (match f k with Some x => val x | None => none end), d') ∧ store_ok n d' f ∧ same_txn d d'.
Proof.
  intros Hn Hs Hcached Hfound. destruct (cache_get_ok _ _ _ k Hs) as (o & d1 & Ec & Hs1 & Ht1 & Ho). unfold chain at 1. rewrite Ec.
  destruct o as [x|].
  - specialize (Ho x eq_refl). exists d1. rewrite Ho Hcached //. by apply (so_kind _ _ _ Hs).
  - destruct (read_latest_ok n d1 f k Hn Hs1) as (d2 & Er & Hs2 & Ht2 & _). unfold chain at 1. rewrite Er.
    destruct (f k) as [x|] eqn:Hf; cbn.
    + rewrite Hfound; [by apply (so_kind _ _ _ Hs)|]. destruct (cache_put_ok n d2 f k x Hs2 Hf) as (d3 & Ep & Hs3 & Ht3).
      exists d3. unfold chain. rewrite Ep. split_and!; [done|done|]. eauto using same_txn_trans.
    + exists d2. split_and!; [done|done|]. eauto using same_txn_trans.
Qed.

Lemma load_account_ok n d f a :
  0 ≤ n → store_ok n d f →
  ∃ d', load_account a d = (Good (match f (KAccount a) with Some x => as_account x | None => None end), d') ∧ store_ok n d' f ∧ same_txn d d'.
Proof.
  intros Hn Hs. apply (load_cell_ok n d f (KAccount a) _ None _ as_account Hn Hs); intros [acc|v|c|h] d' Hk; try done.
  cbn. by rewrite bincode_roundtrip.
Qed.

Lemma load_storage_ok n d f a k :
  0 ≤ n → store_ok n d f →
  ∃ d', load_storage a k d = (Good (match f (KStorage a k) with Some x => default 0 (as_storage x) | None => 0 end), d') ∧ store_ok n d' f ∧ same_txn d d'.
Proof.
  intros Hn Hs. apply (load_cell_ok n d f (KStorage a k) _ 0 _ (λ x, default 0 (as_storage x)) Hn Hs); intros [acc|v|c|h] d' Hk; try done.
  cbn. by rewrite bincode_roundtrip.
Qed.

Lemma load_code_ok n d f h :
  0 ≤ n → store_ok n d f →
  ∃ d', kv_get_code h d = (Good (match f (KCode h) with Some x => as_code x | None => None end), d') ∧ store_ok n d' f ∧ same_txn d d'.
Proof. intros Hn Hs. by apply (load_cell_ok n d f (KCode h) _ None _ as_code Hn Hs); intros [acc|v|c|x] d' Hk. Qed.

Lemma load_hash_ok n d f i :
  0 ≤ n → store_ok n d f →
  ∃ d', kv_get_block_hash i d = (Good (match f (KBlockHash i) with Some x => as_block_hash x | None => None end), d') ∧ store_ok n d' f ∧ same_txn d d'.
Proof.
  intros Hn Hs. apply (load_cell_ok n d f (KBlockHash i) _ None _ as_block_hash Hn Hs); intros [acc|v|c|h] d' Hk; try done.
  cbn [encode_value]. by rewrite b256_length b256_roundtrip.
Qed.

(** ** A commit *)

Definition write_cell (p : CacheKey * CacheValue) : X kvdb DbError unit :=
  in_log (tl_append (topic_of p.1) (encode_value p.2)) ?; cache_put p.1 p.2.

Lemma each_app {S T X'} (f : T → X S X' unit) l1 l2 s : each f (l1 ++ l2) s = (each f l1 ?; each f l2) s.
Proof.
  revert s. induction l1 as [|x l1 IH]; intros s; [done|]. cbn [each app]. unfold chain. destruct (f x s) as [[]]; done.
Qed.

Lemma each_fmap {S T T' X'} (f : T → X S X' unit) (g : T' → T) l s : each f (g <$> l) s = each (λ x, f (g x)) l s.
Proof. revert s. induction l as [|x l IH]; intros s; [done|]. cbn [each fmap list_fmap]. unfold chain. by destruct (f (g x) s) as [[]]. Qed.

Lemma each_ext {S T X'} (f g : T → X S X' unit) l s : (∀ x s, f x s = g x s) → each f l s = each g l s.
Proof. intros Hfg. revert s. induction l as [|x l IH]; intros s; [done|]. cbn [each]. unfold chain. rewrite Hfg. by destruct (g x s) as [[]]. Qed.

Lemma chain_ext {S A B X'} (m m' : X S X' A) (k k' : A → X S X' B) s : (∀ s, m s = m' s) → (∀ a s, k a s = k' a s) → chain m k s = chain m' k' s.
Proof. intros Hm Hk. unfold chain. rewrite Hm. by destruct (m' s) as [[]]. Qed.

(** The four loops of a commit write the cells of the buffer. *)
Lemma commit_writes_cells b d :
  kv_buffer d = Some b → kv_commit_transaction d = each write_cell (cells_of b) (kv_set_buffer None d).
Proof.
  intros Hb. unfold kv_commit_transaction, cells_of, chain at 1, state. rewrite Hb. unfold chain at 1, update. set (d0 := kv_set_buffer None d).
  rewrite each_app. apply chain_ext; [intros s; rewrite each_fmap; apply each_ext; by intros [a acc]|]. intros _ s.
  rewrite each_app. apply chain_ext; [intros s'; rewrite each_fmap; apply each_ext; by intros [[a k] v]|]. intros _ s'.
  rewrite each_app. apply chain_ext; [intros s''; rewrite each_fmap; apply each_ext; by intros [h c]|]. intros _ s''.
  rewrite each_fmap. apply each_ext. by intros [n h].
Qed.

Lemma write_cells_ok l : ∀ n d f,
  0 ≤ n → Forall (λ p, small p.1 p.2 ∧ kind_ok p.1 p.2) l → store_ok (n + len l) d f →
  ∃ d', each write_cell l d = (Good tt, d') ∧ store_ok n d' (foldl (λ f p, cell_set p.1 p.2 f) f l) ∧ same_txn d d'.
Proof.
  induction l as [|[k x] l IH]; intros n d f Hn Hl Hs; [rewrite len_nil Z.add_0_r in Hs; by exists d|].
  apply Forall_cons in Hl as [[Hsm Hk] Hl]. rewrite len_cons in Hs. pose proof (len_nonneg l).
  destruct (append_cell_ok (n + len l) d f k x) as (d1 & E1 & Hs1 & Ht1); [lia|done|done|by replace (n + len l + 1) with (n + (1 + len l)) by lia|].
  destruct (IH n d1 _ Hn Hl Hs1) as (d2 & E2 & Hs2 & Ht2). exists d2. cbn [each]. unfold chain at 1. unfold write_cell at 1. cbn [fst snd] in *.
  rewrite E1. split_and!; [done|done|]. eauto using same_txn_trans.
Qed.

(** ** The contract *)

(** [r]: the number of calls to come. *)
Record kv_refines (r : Z) (d : kvdb) (s : spec) : Prop := {
  kr_store : ∃ n, r + open_size (kv_buffer d) ≤ n ∧ store_ok n d (view_at (committed s));
  kr_pending : pending s = (λ b, laid_over b (committed s)) <$> kv_buffer d;
  kr_touched : touched s = kv_changed d;
  kr_buffer b : kv_buffer d = Some b → deleted_accounts b = [] ∧ ∀ k x, buffer_at b k = Some x → small k x;
}.

(** The use of the database the contract covers. *)
Definition op_ok (op : db_op) (d : kvdb) : Prop :=
  match op with
  | SetAccount a acc => small (KAccount a) (VAccount acc)
  | SetStorage a k v => small (KStorage a k) (VStorage v)
  | SetCode h c => small (KCode h) (VCode c)
  | SetBlockHash n h => small (KBlockHash n) (VBlockHash h)
  | GetCode h => match kv_buffer d with Some b => buf_codes b !! h = None | None => True end
  | GetBlockHash n => match kv_buffer d with Some b => buf_block_hashes b !! n = None | None => True end
  | Rollback => kv_buffer d ≠ None
  | DeleteAccount _ | GetAllStorage _ => False
  | GetAccount _ | GetStorage _ _ | Begin | Commit | GetChanged => True
  end.

Fixpoint run_ok (ops : list db_op) (d : kvdb) : Prop :=
  match ops with
  | [] => True
  | op :: ops => op_ok op d ∧ run_ok ops (db_step op d).2
  end.

Lemma open_size_nonneg o : 0 ≤ open_size o.
Proof. destruct o; cbn; [unfold buffer_size|]; lia. Qed.

Lemma kr_current r d s :
  kv_refines r d s → current s = match kv_buffer d with Some b => laid_over b (committed s) | None => committed s end.
Proof. intros Hr. unfold current. rewrite (kr_pending _ _ _ Hr). by destruct (kv_buffer d). Qed.

(** A write into the buffer of the transaction. *)
Lemma kr_buffered r d s b b' f k x l :
  0 ≤ r → kv_refines (r + 1) d s → kv_buffer d = Some b → small k x →
  (∀ k', buffer_at b' k' = cell_set k x (buffer_at b) k') → deleted_accounts b' = deleted_accounts b → buffer_size b' ≤ buffer_size b + 1 →
  laid_over b' (committed s) = f (laid_over b (committed s)) →
  kv_refines r (MkKv (kv_wal d) (kv_cache d) (Some b') l) (MkSpec (committed s) (Some (f (laid_over b (committed s)))) l).
Proof.
  intros Hr [(n & Hn & Hs) Hp Ht Hb] Eb Hsm Hat Hdel Hsize Hlaid. rewrite Eb in Hn, Hp. destruct (Hb b Eb) as [Hd Hbs]. split; cbn.
  - exists n. split; [cbn in Hn; lia|]. by apply store_ok_txn.
  - by rewrite Hlaid.
  - done.
  - intros ? [= <-]. split; [congruence|]. intros k' y. rewrite Hat. unfold cell_set. case_decide as Hk; [subst k'; by intros [= <-]|apply Hbs].
Qed.

(** A write outside a transaction. *)
Lemma kr_direct r d s f k x l :
  0 ≤ r → kv_refines (r + 1) d s → kv_buffer d = None → small k x → kind_ok k x →
  (∀ k', view_at (f (committed s)) k' = cell_set k x (view_at (committed s)) k') →
  ∃ d', write_cell (k, x) (MkKv (kv_wal d) (kv_cache d) None l) = (Good tt, d') ∧
    kv_refines r d' (MkSpec (f (committed s)) None l).
Proof.
  intros Hr [(n & Hn & Hs) Hp Ht Hb] Eb Hsm Hk Hat. rewrite Eb in Hn. cbn in Hn.
  destruct (append_cell_ok (n - 1) (MkKv (kv_wal d) (kv_cache d) None l) (view_at (committed s)) k x) as (d' & E1 & Hs' & Et & Ec);
    [lia|done|done|replace (n - 1 + 1) with n by lia; by apply store_ok_txn|].
  exists d'. split; [done|]. cbn in Et, Ec. split; cbn; rewrite ?Et ?Ec; try done.
  exists (n - 1). split; [cbn; lia|]. by eapply store_ok_ext.
Qed.

Definition simulates (op : db_op) : Prop := ∀ r d s,
  0 ≤ r → kv_refines (r + 1) d s → op_ok op d →
  ∃ d', db_step op d = ((spec_step false op s).1, d') ∧ kv_refines r d' (spec_step false op s).2.

(** A load from the store leaves a state that refines what it did. *)
Lemma kr_load {A} r d s (m : X kvdb DbError A) v :
  0 ≤ r → kv_refines (r + 1) d s →
  (∀ n, 0 ≤ n → store_ok n d (view_at (committed s)) → ∃ d', m d = (Good v, d') ∧ store_ok n d' (view_at (committed s)) ∧ same_txn d d') →
  ∃ d', m d = (Good v, d') ∧ kv_refines r d' s.
Proof.
  intros Hr Hk Hm. destruct (kr_store _ _ _ Hk) as (n & Hn & Hs). pose proof (open_size_nonneg (kv_buffer d)).
  destruct (Hm n ltac:(lia) Hs) as (d' & E1 & Hs' & Ht). exists d'. split; [done|].
  destruct Hk as [_ Hp Htt Hb]. destruct Ht as [Eb Ec]. split; rewrite ?Eb ?Ec; try done. exists n. split; [lia|done].
Qed.

Lemma kr_stay r d s : 0 ≤ r → kv_refines (r + 1) d s → kv_refines r d s.
Proof. intros Hr [(n & Hn & Hs) Hp Ht Hb]. split; try done. exists n. split; [lia|done]. Qed.

Lemma get_account_sim a : simulates (GetAccount a).
Proof.
  intros r d s Hr Hk _. cbn [db_step spec_step fst snd]. rewrite (kr_current _ _ _ Hk). unfold reply, chain at 1, get_account, kv_database, kv_get_account, chain at 1, state.
  destruct (kr_load r d s (load_account a) (v_accounts (committed s) !! a) Hr Hk) as (d' & E1 & Hr').
  { intros n Hn Hs. destruct (load_account_ok n d _ a Hn Hs) as (d' & -> & ? & ?). exists d'. split; [|done]. cbn. by destruct (_ !! a). }
  destruct (kv_buffer d) as [b|] eqn:Eb; [|exists d'; by rewrite E1]. destruct (kr_buffer _ _ _ Hk b Eb) as [Hdel _].
  cbn [laid_over v_accounts]. rewrite lookup_union. destruct (buf_accounts b !! a) as [acc|].
  - exists d. split; [|by apply kr_stay]. by destruct (_ !! a).
  - rewrite Hdel. destruct (decide (a ∈ [])) as [Hin|_]; [by apply not_elem_of_nil in Hin|]. exists d'. rewrite E1. by rewrite left_id_L.
Qed.

Lemma get_storage_sim a k : simulates (GetStorage a k).
Proof.
  intros r d s Hr Hk _. cbn [db_step spec_step fst snd]. rewrite (kr_current _ _ _ Hk). unfold reply, chain at 1, get_storage, kv_database, kv_get_storage, chain at 1, state.
  destruct (kr_load r d s (load_storage a k) (default 0 (v_storage (committed s) !! (a, k))) Hr Hk) as (d' & E1 & Hr').
  { intros n Hn Hs. destruct (load_storage_ok n d _ a k Hn Hs) as (d' & -> & ? & ?). exists d'. split; [|done]. cbn. by destruct (_ !! (a, k)). }
  destruct (kv_buffer d) as [b|] eqn:Eb; [|exists d'; by rewrite E1].
  cbn [laid_over v_storage]. rewrite lookup_union. destruct (buf_storage b !! (a, k)) as [v|].
  - exists d. split; [|by apply kr_stay]. by destruct (_ !! (a, k)).
  - exists d'. rewrite E1. by rewrite left_id_L.
Qed.

Lemma get_code_sim h : simulates (GetCode h).
Proof.
  intros r d s Hr Hk Hok. cbn [db_step spec_step fst snd op_ok] in *. rewrite (kr_current _ _ _ Hk). unfold reply, chain, get_code, kv_database.
  destruct (kr_load r d s (kv_get_code h) (v_codes (committed s) !! h) Hr Hk) as (d' & E1 & Hr').
  { intros n Hn Hs. destruct (load_code_ok n d _ h Hn Hs) as (d' & -> & ? & ?). exists d'. split; [|done]. cbn. by destruct (_ !! h). }
  exists d'. rewrite E1. split; [|done]. destruct (kv_buffer d) as [b|]; [|done]. cbn. by rewrite lookup_union Hok left_id_L.
Qed.

Lemma get_block_hash_sim i : simulates (GetBlockHash i).
Proof.
  intros r d s Hr Hk Hok. cbn [db_step spec_step fst snd op_ok] in *. rewrite (kr_current _ _ _ Hk). unfold reply, chain, get_block_hash, kv_database.
  destruct (kr_load r d s (kv_get_block_hash i) (v_hashes (committed s) !! i) Hr Hk) as (d' & E1 & Hr').
  { intros n Hn Hs. destruct (load_hash_ok n d _ i Hn Hs) as (d' & -> & ? & ?). exists d'. split; [|done]. cbn. by destruct (_ !! i). }
  exists d'. rewrite E1. split; [|done]. destruct (kv_buffer d) as [b|]; [|done]. cbn. by rewrite lookup_union Hok left_id_L.
Qed.

(** A setter: in a transaction it sets a cell of the buffer, outside it writes the cell. *)
Lemma set_cell_sim r d s k x f (put : TransactionBuffer → TransactionBuffer) l :
  0 ≤ r → kv_refines (r + 1) d s → small k x → kind_ok k x →
  (∀ b k', buffer_at (put b) k' = cell_set k x (buffer_at b) k') → (∀ b, deleted_accounts (put b) = deleted_accounts b) →
  (∀ b, buffer_size (put b) ≤ buffer_size b + 1) → (∀ b v, laid_over (put b) v = f (laid_over b v)) →
  (∀ v k', view_at (f v) k' = cell_set k x (view_at v) k') →
  let d1 := MkKv (kv_wal d) (kv_cache d) (kv_buffer d) l in
  ∃ d', (match kv_buffer d with Some b => update (kv_set_buffer (Some (put b))) | None => write_cell (k, x) end) d1 = (Good tt, d') ∧
    kv_refines r d' (revise f (MkSpec (committed s) (pending s) l)).
Proof.
  intros Hr Hk Hsm Hkind Hat Hdel Hsize Hlaid Hview d1. unfold d1. pose proof (kr_pending _ _ _ Hk) as Hp. destruct (kv_buffer d) as [b|] eqn:Eb.
  - eexists. split; [reflexivity|]. unfold revise. cbn [pending committed touched]. rewrite Hp. cbn. by apply (kr_buffered r d s b (put b) f k x l).
  - destruct (kr_direct r d s f k x l Hr Hk Eb Hsm Hkind (Hview _)) as (d' & E1 & Hr'). exists d'. split; [exact E1|].
    unfold revise. cbn [pending committed touched]. by rewrite Hp.
Qed.

Ltac set_cell w := intros ? k'; unfold cell_set; destruct k' as [?|a' k'|?|?]; cbn -[decide]; try (by case_decide); first [apply (insert_cell w _)|apply (insert_cell w _ _ _ _ (a', k'))]; exact _.
Ltac set_size := intros b; unfold buffer_size; cbn;
  match goal with |- context [<[?i := ?x]> ?m] => pose proof (size_insert_le i x m) end; lia.

Lemma set_account_sim a acc : simulates (SetAccount a acc).
Proof.
  intros r d s Hr Hk Hsm. cbn [db_step spec_step fst snd op_ok] in *.
  destruct (set_cell_sim r d s (KAccount a) (VAccount acc) (v_set_account a acc) (buf_set_account a acc) (track a (kv_changed d)))
    as (d' & E1 & Hr'); [done|done|done|done|set_cell KAccount|done|set_size| |set_cell KAccount|].
  - intros b v. unfold laid_over, v_set_account. cbn. by rewrite insert_union_l.
  - exists d'. unfold reply, chain at 1, set_account, kv_database, kv_set_account, kv_track, chain at 1, update at 1, chain at 1, state. cbn [kv_buffer kv_set_changed].
    unfold kv_set_changed at 1. unfold touch. rewrite (kr_touched _ _ _ Hk). split; [|done]. destruct (kv_buffer d); [|unfold write_cell in E1; cbn in E1; unfold kv_persist_account]; by rewrite E1.
Qed.

Lemma set_storage_sim a k v : simulates (SetStorage a k v).
Proof.
  intros r d s Hr Hk Hsm. cbn [db_step spec_step fst snd op_ok] in *.
  destruct (set_cell_sim r d s (KStorage a k) (VStorage v) (v_set_storage a k v) (buf_set_storage a k v) (track a (kv_changed d)))
    as (d' & E1 & Hr'); [done|done|done|done|set_cell (λ p : Address * U256, KStorage p.1 p.2)|done|set_size| |set_cell (λ p : Address * U256, KStorage p.1 p.2)|].
  - intros b w. unfold laid_over, v_set_storage. cbn. by rewrite insert_union_l.
  - exists d'. unfold reply, chain at 1, set_storage, kv_database, kv_set_storage, kv_track, chain at 1, update at 1, chain at 1, state. cbn [kv_buffer kv_set_changed].
    unfold kv_set_changed at 1. unfold touch. rewrite (kr_touched _ _ _ Hk). split; [|done]. destruct (kv_buffer d); [|unfold write_cell in E1; cbn in E1; unfold kv_persist_storage]; by rewrite E1.
Qed.

Lemma set_code_sim h c : simulates (SetCode h c).
Proof.
  intros r d s Hr Hk Hsm. cbn [db_step spec_step fst snd op_ok] in *.
  destruct (set_cell_sim r d s (KCode h) (VCode c) (v_set_code h c) (buf_set_code h c) (kv_changed d))
    as (d' & E1 & Hr'); [done|done|done|done|set_cell KCode|done|set_size| |set_cell KCode|].
  - intros b w. unfold laid_over, v_set_code. cbn. by rewrite insert_union_l.
  - exists d'. unfold reply, chain at 1, set_code, kv_database, kv_set_code, chain at 1, state, kv_append_code.
    rewrite -(kr_touched _ _ _ Hk) in Hr'. split; [|by destruct s]. destruct d as [? ? [b|] ?]; cbn in E1 |- *; [by injection E1 as <-|]. unfold write_cell in E1. cbn in E1. by rewrite E1.
Qed.

Lemma set_block_hash_sim i h : simulates (SetBlockHash i h).
Proof.
  intros r d s Hr Hk Hsm. cbn [db_step spec_step fst snd op_ok] in *.
  destruct (set_cell_sim r d s (KBlockHash i) (VBlockHash h) (v_set_hash i h) (buf_set_block_hash i h) (kv_changed d))
    as (d' & E1 & Hr'); [done|done|done|done|set_cell KBlockHash|done|set_size| |set_cell KBlockHash|].
  - intros b w. unfold laid_over, v_set_hash. cbn. by rewrite insert_union_l.
  - exists d'. unfold reply, chain at 1, set_block_hash, kv_database, kv_set_block_hash, chain at 1, state, kv_append_hash.
    rewrite -(kr_touched _ _ _ Hk) in Hr'. split; [|by destruct s]. destruct d as [? ? [b|] ?]; cbn in E1 |- *; [by injection E1 as <-|]. unfold write_cell in E1. cbn in E1. by rewrite E1.
Qed.

Lemma begin_sim : simulates Begin.
Proof.
  intros r d s Hr Hk _. pose proof (kr_pending _ _ _ Hk) as Hp. cbn [db_step]. unfold reply, chain at 1, begin_transaction, kv_database, kv_begin_transaction, chain at 1, state.
  cbn [spec_step]. rewrite Hp. destruct (kv_buffer d) as [b|] eqn:Eb; cbn.
  - exists d. split; [done|]. by apply kr_stay.
  - eexists. split; [reflexivity|]. destruct (kr_store _ _ _ Hk) as (n & Hn & Hs). rewrite Eb in Hn. cbn in Hn. split; cbn.
    + exists n. change (buffer_size new_buffer) with 0. split; [lia|]. exact (store_ok_txn n d _ _ _ Hs).
    + unfold laid_over. cbn. rewrite !left_id_L. by destruct (committed s).
    + done.
    + intros b [= <-]. split; [done|]. intros [?|? ?|?|?] x; cbn; by rewrite lookup_empty.
Qed.

Lemma commit_sim : simulates Commit.
Proof.
  intros r d s Hr Hk _. pose proof (kr_pending _ _ _ Hk) as Hp. cbn [db_step]. unfold reply, chain at 1, commit_transaction, kv_database. cbn [spec_step]. rewrite Hp.
  destruct (kv_buffer d) as [b|] eqn:Eb; cbn [fmap option_fmap option_map].
  - rewrite (commit_writes_cells b) //. destruct (kr_store _ _ _ Hk) as (n & Hn & Hs). rewrite Eb in Hn. cbn in Hn.
    destruct (kr_buffer _ _ _ Hk b Eb) as [_ Hsm].
    destruct (write_cells_ok (cells_of b) (n - len (cells_of b)) (kv_set_buffer None d) (view_at (committed s))) as (d' & E1 & Hs' & Et & Ec).
    + rewrite cells_of_length. lia.
    + apply Forall_forall. intros [k x] Hin%elem_of_cells_of. split; [by apply Hsm|].
      destruct k; cbn in Hin; apply fmap_Some in Hin as (y & _ & ->); done.
    + replace (n - len (cells_of b) + len (cells_of b)) with n by lia. by apply store_ok_txn.
    + exists d'. rewrite E1. split; [done|]. cbn in Et, Ec |- *. split; cbn; rewrite ?Et ?Ec; try done.
      * exists (n - len (cells_of b)). split; [rewrite cells_of_length; cbn; lia|]. eapply store_ok_ext; [done|]. apply cells_of_laid_over.
      * apply (kr_touched _ _ _ Hk).
  - unfold kv_commit_transaction, chain, state. rewrite Eb. exists d. split; [done|]. by apply kr_stay.
Qed.

Lemma rollback_sim : simulates Rollback.
Proof.
  intros r d s Hr Hk Hok. cbn [db_step op_ok] in *. unfold reply, chain at 1, rollback_transaction, kv_database, kv_rollback_transaction, chain at 1, state.
  destruct (kv_buffer d) as [b|] eqn:Eb; [|done]. eexists. split; [reflexivity|].
  destruct (kr_store _ _ _ Hk) as (n & Hn & Hs). rewrite Eb in Hn. pose proof (open_size_nonneg (Some b)). split; cbn; try done.
  exists n. split; [lia|]. exact (store_ok_txn n d _ _ _ Hs).
Qed.

Lemma get_changed_sim : simulates GetChanged.
Proof.
  intros r d s Hr Hk _. exists d. split; [|by apply kr_stay]. cbn. by rewrite (kr_touched _ _ _ Hk).
Qed.

Lemma step_sim op : simulates op.
Proof.
  destruct op; [apply get_account_sim|apply set_account_sim| |apply get_storage_sim|apply set_storage_sim| |apply get_code_sim|apply set_code_sim
    |apply get_block_hash_sim|apply set_block_hash_sim|apply begin_sim|apply commit_sim|apply rollback_sim|apply get_changed_sim]; by intros ? ? ? ? ? [].
Qed.

(** C15: [WalrusStateDB] keeps the same contract as the embedded database. Any sequence of calls without
    deletions and listings, that reads no code or block hash its transaction has changed and rolls back only what was
    begun, gives the replies of the transactional store, without a failure, as long as it has at most as many
    calls as a batch read returns entries and every version is small; the cache, however it forgets, does not show. *)
Theorem walrus_db_refines_store ops d s :
  kv_refines (len ops) d s → run_ok ops d →
  (db_run ops d).1 = (spec_run ((λ op, (false, op)) <$> ops) s).1 ∧
  kv_refines 0 (db_run ops d).2 (spec_run ((λ op, (false, op)) <$> ops) s).2.
Proof.
  revert d s. induction ops as [|op ops IH]; intros d s Hk Hok; [done|]. destruct Hok as [Hop Hok]. rewrite len_cons in Hk.
  pose proof (len_nonneg ops). destruct (step_sim op (len ops) d s) as (d' & E1 & Hk'); [lia|by rewrite Z.add_comm|done|].
  rewrite E1 in Hok. cbn [db_run spec_run fmap list_fmap]. rewrite E1. destruct (spec_step false op s) as [r s1]. cbn in Hk', Hok.
  destruct (IH d' s1 Hk' Hok) as [E2 Hk2]. destruct (db_run ops d') as [rs d2], (spec_run _ s1) as [rs' s2]. cbn in *. by rewrite E2.
Qed.

(** A new database on empty topics is the empty store. *)
Lemma kv_new_refines n e :
  0 ≤ n ≤ MAX_BATCH_ENTRIES → tl_holds n e (λ _, []) → kv_refines n (kv_new e) (MkSpec (MkView ∅ ∅ ∅ ∅) None []).
Proof.
  intros Hn Hh. split; try done. exists n. split; [cbn; lia|]. split.
  - exists (λ _, []). split; [done|]. intros k. split; [rewrite len_nil; lia|done|]. by destruct k; cbn; rewrite lookup_empty.
  - intros k x. cbn. by rewrite lru_has_new.
  - intros k x Hx. by eapply view_at_kind.
Qed.

(** ** Outside the contract *)

(** a deletion is lost at its commit. The buffer notes the deleted addresses and the commit does not look at
    them: an account deleted in a transaction is there again, unchanged, once the transaction is committed. *)
Theorem deleted_account_returns r d s a acc :
  0 ≤ r → kv_refines (r + 3) d s → pending s = None → v_accounts (committed s) !! a = Some acc →
  (db_run [Begin; DeleteAccount a; GetAccount a; Commit; GetAccount a] d).1 =
    [Good RUnit; Good RUnit; Good (RAccount None); Good RUnit; Good (RAccount (Some acc))].
Proof.
  intros Hr Hk Hpend Hacc. cbn [db_run]. destruct (begin_sim (r + 2) d s) as (d1 & E1 & Hk1); [lia|by replace (r + 2 + 1) with (r + 3) by lia|done|].
  cbn [spec_step] in E1, Hk1. rewrite Hpend in E1, Hk1. cbn [fst snd] in E1, Hk1. rewrite E1.
  assert (kv_buffer d1 = Some new_buffer) as Eb.
  { cbn [db_step] in E1. revert E1. unfold reply, chain, begin_transaction, kv_database, kv_begin_transaction, chain, state, update.
    pose proof (kr_pending _ _ _ Hk) as Hp. rewrite Hpend in Hp. destruct (kv_buffer d); [done|]. by intros [= <-]. }
  assert (∃ d2, db_step (DeleteAccount a) d1 = (Good RUnit, d2) ∧ kv_buffer d2 = Some (buf_delete_account a new_buffer) ∧
    kv_wal d2 = kv_wal d1 ∧ kv_cache d2 = kv_cache d1) as (d2 & E2 & Eb2 & Ew & Ec).
  { eexists. cbn [db_step]. unfold reply, chain, delete_account, kv_database, kv_delete_account, chain, kv_track, update, state. cbn. rewrite Eb. by split_and!. }
  rewrite E2. assert (db_step (GetAccount a) d2 = (Good (RAccount None), d2)) as ->.
  { cbn [db_step]. unfold reply, chain, get_account, kv_database, kv_get_account, chain, state. rewrite Eb2. cbn [buf_delete_account new_buffer buf_accounts deleted_accounts].
    rewrite lookup_delete_eq. by rewrite decide_True //; set_solver. }
  assert (db_step Commit d2 = (Good RUnit, kv_set_buffer None d2)) as ->.
  { cbn [db_step]. unfold reply, chain, commit_transaction, kv_database. rewrite (commit_writes_cells (buf_delete_account a new_buffer)) //. }
  destruct (kr_store _ _ _ Hk1) as (n & Hn & Hs). pose proof (open_size_nonneg (kv_buffer d1)).
  destruct (load_account_ok n (kv_set_buffer None d2) (view_at (committed s)) a) as (d3 & E3 & _); [lia|destruct Hs; split; cbn; rewrite ?Ew ?Ec; done|].
  assert (db_step (GetAccount a) (kv_set_buffer None d2) = (Good (RAccount (Some acc)), d3)) as ->; [|done].
  cbn [db_step]. unfold reply, chain, get_account, kv_database, kv_get_account, chain, state. cbn [kv_set_buffer kv_buffer].
  cbn in E3. by rewrite E3 Hacc.
Qed.

Lemma batch_count_limit max : ∀ q total emitted,
  Forall (λ d, d ≠ []) q → total + payload_bytes q ≤ max → 0 ≤ emitted ≤ MAX_BATCH_ENTRIES → MAX_BATCH_ENTRIES ≤ emitted + len q →
  Z.of_nat (batch_count max q total emitted) = MAX_BATCH_ENTRIES - emitted.
Proof.
  induction q as [|d q IH]; intros total emitted Hne Ht He Hl; cbn [batch_count].
  - rewrite len_nil in Hl. lia.
  - apply Forall_cons in Hne as [Hd Hne]. rewrite len_cons in Hl. cbn in Ht. fold (payload_bytes q) in Ht. pose proof (payload_le q) as [Hp0 _].
    pose proof (len_nonneg d). destruct (Z.geb_spec emitted MAX_BATCH_ENTRIES); [lia|]. destruct (Z.gtb_spec (total + len d) max); [lia|]. cbn [andb].
    rewrite nonempty_one. destruct d as [|y d]; [done|]. cbn. change (len [y :: d]) with 1. rewrite Nat2Z.inj_succ IH //; lia.
Qed.

(** C38: the newest version of an account is not read once there are more than 2000. Reading takes the last entry of
    one batch read, which ends after 2000 entries: when the cache has forgotten the account, every read gives
    the 2000th version ever written, however many there are. *)
Theorem newest_version_lost n e c cache l a (accs : list Account) :
  tl_holds n e c → c (topic_of (KAccount a)) = (λ acc, encode_value (VAccount acc)) <$> accs → Forall (λ acc, serialize acc ≠ []) accs →
  batch_covers true LATEST_BYTES (serialize <$> accs) → MAX_BATCH_ENTRIES < len accs → lru_has cache (KAccount a) = None →
  (kv_get_account a (MkKv e cache None l)).1 = Good (accs !! Z.to_nat (MAX_BATCH_ENTRIES - 1)).
Proof.
  intros Hh Hc Hne Hcov Hlen Hcache. change (c (topic_of (KAccount a)) = serialize <$> accs) in Hc. unfold kv_get_account, chain at 1, state. cbn [kv_buffer].
  unfold load_account, chain at 1, cache_get. cbn [kv_cache]. destruct (lru_get_has (KAccount a) cache) as [Hget _].
  destruct (lru_get (KAccount a) cache) as [o c']. cbn in Hget. rewrite Hget Hcache. cbn [kv_set_cache kv_wal kv_buffer kv_changed].
  rewrite -Hc in Hcov. destruct (tl_holds_peek n e c (topic_of (KAccount a)) LATEST_BYTES Hh Hcov) as (e' & Hp & _).
  unfold chain at 1, read_latest_for_topic, chain at 1, in_log. cbn [kv_wal]. rewrite Hp. rewrite Hc in Hcov |- *.
  assert (Forall (λ d, d ≠ []) (serialize <$> accs)) as Hne' by by apply Forall_fmap.
  pose proof (payload_le (serialize <$> accs)) as [_ Hpay]. pose proof (bc_total _ _ _ Hcov) as Htot.
  pose proof (batch_count_limit LATEST_BYTES (serialize <$> accs) 0 0 Hne') as Hk.
  rewrite nonempty_all; [by apply Forall_take|]. set (k := batch_count LATEST_BYTES (serialize <$> accs) 0 0) in *.
  assert (k = Z.to_nat MAX_BATCH_ENTRIES) as ->.
  { assert (Z.of_nat k = MAX_BATCH_ENTRIES); [|lia]. rewrite Hk; [lia|unfold MAX_BATCH_ENTRIES; lia| |lia]. unfold len in *. rewrite length_fmap. lia. }
  destruct (lookup_lt_is_Some_2 accs (Z.to_nat (MAX_BATCH_ENTRIES - 1))) as [acc Hacc]; [unfold len, MAX_BATCH_ENTRIES in *; lia|].
  assert (last (take (Z.to_nat MAX_BATCH_ENTRIES) (serialize <$> accs)) = Some (serialize acc)) as ->.
  { rewrite last_lookup length_take length_fmap. unfold len, MAX_BATCH_ENTRIES in *.
    replace (Nat.pred (Z.to_nat 2000 `min` length accs)) with (Z.to_nat (2000 - 1)) by lia. rewrite lookup_take_lt; [lia|]. by rewrite list_lookup_fmap Hacc. }
  cbn [good]. unfold good. rewrite bincode_roundtrip Hacc. reflexivity.
Qed.
End refinement.

(** * The engine *)

Section engine.
Context `{MetaCodecLaws} `{MapCodec BlockPos} `{MapCodec CleanMarkerRecord} `{IoUringReliable} `{ReadRingReliable}.

#[export] Instance walrus_topics : TopicLog Walrus := {
  tl_append := append_for_topic;
  tl_peek t max := batch_read_for_topic t max false None;
}.

Lemma walrus_topic_append n W c t d :
  0 ≤ n → fits t d → walrus_holds (n + 1) W c →
  ∃ W', append_for_topic t d W = (Ok tt, W') ∧ walrus_holds n W' (λ t', if decide (t' = t) then c t ++ [d] else c t').
Proof.
  intros Hn Hf (g & σ & Hi & Hc & Hg & Hr).
  destruct (append_for_topic_ok g W σ t d (2 * n)) as (g' & W' & E & Hi' & Hg'); [done|done|lia|..].
  { by replace (2 * n + 2) with (2 * (n + 1)) by lia. } { specialize (Hr t). lia. }
  exists W'. split; [done|]. exists g', (spec_append t [d] σ). split_and!; [done| |done|apply room_append; by change (len [d]) with 1].
  intros k. unfold spec_append. case_decide as Hk; [subst k; by rewrite pending_insert Hc|by rewrite pending_insert_ne // Hc].
Qed.

Lemma walrus_topic_peek n W c t max :
  walrus_holds n W c → batch_covers true max (c t) →
  ∃ W', batch_read_for_topic t max false None W = (Ok (nonempty (take (batch_count max (c t) 0 0) (c t))), W') ∧ walrus_holds n W' c.
Proof.
  intros (g & σ & Hi & Hc & Hg & Hr) Hcov.
  destruct (batch_read_ok g W σ t max false Hi) as (W' & E & Hi' & Hs); [rewrite Hc; by destruct Hcov; split; auto|].
  unfold spec_batch in E. rewrite Hc in E. exists W'. split; [done|]. exists g, σ. split_and!; [done|done| |done]. eapply env_good_eq; [apply Hs|done].
Qed.

#[export] Instance walrus_topics_laws : TopicLogLaws Walrus := {
  tl_accepts := fits;
  tl_holds := walrus_holds;
  tl_holds_append := walrus_topic_append;
  tl_holds_peek := walrus_topic_peek;
}.
End engine.

(** * A list as an LRU cache, the most recent entry first *)

Section list_lru.
Context {K V : Type} `{EqDecision K}.

Definition lru_list : Type := Z * list (K * V).

Fixpoint find_key (k : K) (l : list (K * V)) : option V :=
  match l with [] => None | (k', v) :: l => if decide (k = k') then Some v else find_key k l end.
Fixpoint drop_key (k : K) (l : list (K * V)) : list (K * V) :=
  match l with [] => [] | (k', v) :: l => if decide (k = k') then drop_key k l else (k', v) :: drop_key k l end.

#[export] Instance list_lru : Lru K V lru_list := {
  lru_new n := (n, []);
  lru_get k c := match find_key k c.2 with Some v => (Some v, (c.1, (k, v) :: drop_key k c.2)) | None => (None, c) end;
  lru_put k v c := (c.1, take (S (Z.to_nat (c.1 - 1))) ((k, v) :: drop_key k c.2));
  lru_pop k c := (c.1, drop_key k c.2);
  lru_clear c := (c.1, []);
}.

Lemma find_drop_key k k' l : find_key k' (drop_key k l) = if decide (k' = k) then None else find_key k' l.
Proof. induction l as [|[k0 v0] l IH]; cbn; [by case_decide|]. repeat (case_decide; cbn; simplify_eq; try done). Qed.

Lemma find_take k l n : find_key k (take n l) = find_key k l ∨ find_key k (take n l) = None.
Proof. revert n. induction l as [|[k0 v0] l IH]; intros [|n]; cbn; auto. case_decide; auto. Qed.

#[export] Program Instance list_lru_laws : LruLaws K V lru_list := { lru_has c k := find_key k c.2 }.
Next Obligation. done. Qed.
Next Obligation.
  intros k c. cbn. destruct (find_key k c.2) as [v|] eqn:E; cbn; [|done]. split; [done|]. intros k'. rewrite find_drop_key.
  by case_decide; simplify_eq.
Qed.
Next Obligation. intros k v c. cbn. by rewrite decide_True. Qed.
Next Obligation.
  intros k v c k' Hne. cbn. rewrite decide_False //. destruct (find_take k' (drop_key k c.2) (Z.to_nat (c.1 - 1))) as [-> | ->]; [|by right].
  left. by rewrite find_drop_key decide_False.
Qed.
Next Obligation. intros k c k'. apply find_drop_key. Qed.
Next Obligation. done. Qed.
End list_lru.
Arguments lru_list : clear implicits.
