(* ===== verification/TxData.v ===== *)
(** Transactions, blocks and receipts of the block producer:
    [src/block-producer/src/schema/block.rs] and [src/block-producer/src/executor/receipts.rs].

    Text is the list of its UTF-8 bytes. Parsing of addresses and of 256-bit numbers (alloy),
    the hex crate, SHA-256, and the JSON text of a header are parameters. *)

From S2P Require Import Prelude Client StateDb.

#[local] Open Scope Z_scope.

Abbreviation text := (list Z) (only parsing).

(** [to_be_bytes] and [from_be_bytes]. *)
Fixpoint be_bytes (n : nat) (z : Z) : Bytes :=
  match n with
  | O => []
  | S n => be_bytes n (z / 256) ++ [z mod 256]
  end.
Definition from_be_bytes (l : Bytes) : Z := foldl (λ acc b, acc * 256 + b) 0 l.

Lemma length_be_bytes n z : length (be_bytes n z) = n.
Proof. revert z. induction n as [|n IH]; intros z; [done|]. cbn. rewrite length_app IH /=. lia. Qed.

Lemma be_bytes_range n z : Forall is_byte (be_bytes n z).
Proof.
  revert z. induction n as [|n IH]; intros z; [constructor|]. cbn. apply Forall_app. split; [done|].
  apply Forall_singleton. rewrite /is_byte. apply Z.mod_pos_bound. lia.
Qed.

Lemma from_be_bytes_be n z : 0 ≤ z < 256 ^ Z.of_nat n → from_be_bytes (be_bytes n z) = z.
Proof.
  revert z. induction n as [|n IH]; intros z Hz; [cbn in *; lia|]. cbn [be_bytes].
  rewrite /from_be_bytes foldl_app /= -/(from_be_bytes _) IH.
  - rewrite Nat2Z.inj_succ Z.pow_succ_r in Hz; [lia|]. split; [apply Z.div_pos; lia|]. apply Z.div_lt_upper_bound; lia.
  - pose proof (Z.div_mod z 256 ltac:(lia)). lia.
Qed.

Class TextLib := {
  parse_address : text → option Address;
  u256_from_str_radix16 : text → option U256;
  hex_encode : Bytes → text;
  hex_decode : text → option Bytes;
  sha256 : Bytes → B256;
}.

(** What the code relies on: the hex crate writes two lower-case digits a byte and reads them
    back, SHA-256 has 32 bytes, and a parsed number has 256 bits. *)
Class TextLaws `{TextLib} : Prop := {
  hex_encode_pairs b : Forall is_byte b → hex_encode b = hex_pairs b;
  hex_decode_pairs b : Forall is_byte b → hex_decode (hex_pairs b) = Some b;
  sha256_range b : 0 ≤ sha256 b < 2 ^ 256;
  u256_range s v : u256_from_str_radix16 s = Some v → 0 ≤ v < 2 ^ 256;
}.

(** * Numbers in transactions *)

(** [trim_start_matches("0x")]: as often as it is there. *)
Fixpoint trim_0x (s : text) : text :=
  match s with
  | x :: y :: rest => if (x =? 48) && (y =? 120) then trim_0x rest else s
  | _ => s
  end.

Fixpoint radix_loop (s : text) (acc : Z) : option Z :=
  match s with
  | [] => Some acc
  | c :: s =>
      d ← hex_value c;
      if acc * 16 + d <=? U64_MAX then radix_loop s (acc * 16 + d) else None
  end.

(** [u64::from_str_radix(s, 16)]: one plus sign may come first. *)
Definition u64_from_str_radix16 (s : text) : option Z :=
  match s with
  | [] => None
  | [43] | [45] => None
  | 43 :: rest => radix_loop rest 0
  | _ => radix_loop s 0
  end.

Lemma radix_loop_range s acc v : 0 ≤ acc ≤ U64_MAX → radix_loop s acc = Some v → 0 ≤ v ≤ U64_MAX.
Proof.
  revert acc. induction s as [|c s IH]; intros acc Ha; cbn; [by intros [= <-]|].
  destruct (hex_value c) as [d|] eqn:E1; [|done]. cbn. destruct (Z.leb_spec (acc * 16 + d) U64_MAX) as [Hle|]; [|done].
  apply IH. split; [|done]. apply hex_value_range in E1. lia.
Qed.

Lemma u64_radix_range s v : u64_from_str_radix16 s = Some v → 0 ≤ v ≤ U64_MAX.
Proof.
  rewrite /u64_from_str_radix16. intros E1. assert (0 ≤ 0 ≤ U64_MAX) by (rewrite /U64_MAX; lia).
  repeat case_match; try done; by eapply radix_loop_range.
Qed.

(** * Transactions *)

Record Transaction := MkTx {
  from : text;
  to : option text;
  value : text;
  data : text;
  gas : text;
  tx_nonce : text;
  hash : option text;
  gas_price : option text;
  chain_id : option Z;
  max_fee_per_gas : option text;
  max_priority_fee_per_gas : option text;
}.

Section transactions.
Context `{TextLib}.
Implicit Types tx : Transaction.

Definition from_address tx : option Address := parse_address (from tx).
Definition to_address tx : option (option Address) :=
  match to tx with
  | Some addr => Some <$> parse_address addr
  | None => Some None
  end.
Definition value_wei tx : option U256 := u256_from_str_radix16 (trim_0x (value tx)).
Definition gas_limit tx : option Z := u64_from_str_radix16 (trim_0x (gas tx)).
Definition nonce_value tx : option Z := u64_from_str_radix16 (trim_0x (tx_nonce tx)).
Definition data_bytes tx : option Bytes := hex_decode (trim_0x (data tx)).
Definition is_create tx : bool := match to tx with None => true | Some _ => false end.
End transactions.

(** * Blocks *)

Record BlockHeader := MkHeader {
  number : Z;
  parent_hash : text;
  timestamp : Z;
  tx_count : Z;
  transactions_root : text;
  state_root : option text;
  header_gas_used : option Z;
  header_gas_limit : option Z;
  receipts_root : option text;
}.
Record Block := MkBlock { header : BlockHeader; transactions : list Transaction }.

(** [serde_json::to_string] of a header: of the stored form ([schema/block.rs]), and of the announced
    form ([main.rs]), whose time is text and whose empty fields are left out. *)
Class HeaderJson := { header_json : BlockHeader → Bytes; announced_json : BlockHeader → Bytes }.

(** [Block::hash] of the stored form. *)
Definition block_hash `{TextLib, HeaderJson} (h : BlockHeader) : text :=
  str "0x" ++ hex_encode (be_bytes 32 (sha256 (header_json h))).

(** * Receipts *)

Record EvmLog := MkEvmLog { log_address : Address; log_topics : list B256; log_data : Bytes }.

Record Log := MkLog {
  address : Address;
  topics : list B256;
  ldata : Bytes;
  block_number : Z;
  transaction_hash : B256;
  transaction_index : Z;
  log_index : Z;
}.

Record TransactionReceipt := MkReceipt {
  rc_transaction_hash : B256;
  rc_transaction_index : Z;
  rc_block_hash : B256;
  rc_block_number : Z;
  rc_from : Address;
  rc_to : option Address;
  rc_contract_address : option Address;
  rc_gas_used : Z;
  rc_cumulative_gas_used : Z;
  rc_status : Z;
  rc_logs : list Log;
  rc_logs_bloom : Bytes;
}.

Record ExecutionResult := MkExec {
  gas_used : Z;
  success : bool;
  output : option Bytes;
  contract_address : option Address;
  exec_gas_refund : Z;
  logs : list EvmLog;
}.

Section receipts.
Context `{TextLib, HeaderJson}.

(** [B256::from_slice] panics unless the slice has 32 bytes. *)
Definition parse_block_hash (hash_str : text) : option B256 :=
  let bytes := default [] (hex_decode (trim_0x hash_str)) in
  if len bytes =? 32 then Some (from_be_bytes bytes) else None.

Definition convert_logs (revm_logs : list EvmLog) (tx_hash : B256) (tx_index block_number : Z) : list Log :=
  imap (λ i l, MkLog (log_address l) (log_topics l) (log_data l) block_number tx_hash tx_index (Z.of_nat i)) revm_logs.

(** Not computed: 256 zero bytes. *)
Definition compute_logs_bloom (revm_logs : list EvmLog) : Bytes := replicate 256 0.

Definition build_receipt {S E} (tx_hash : B256) (tx_index : Z) (block : Block) (tx : Transaction)
    (result : ExecutionResult) (cumulative_gas_used : Z) : X S E TransactionReceipt :=
  match parse_block_hash (block_hash (header block)) with
  | None => crash
  | Some bh =>
      good (MkReceipt tx_hash tx_index bh (number (header block)) (default 0 (from_address tx))
              (default None (to_address tx)) (contract_address result) (gas_used result) cumulative_gas_used
              (if success result then 1 else 0)
              (convert_logs (logs result) tx_hash tx_index (number (header block)))
              (compute_logs_bloom (logs result)))
  end.

Lemma trim_0x_pairs b : Forall is_byte b → trim_0x (hex_pairs b) = hex_pairs b.
Proof.
  intros Hb. destruct Hb as [|x b Hx _]; [done|]. rewrite hex_pairs_cons. cbn. destruct (byte_nibbles x Hx) as (_ & Hn & _).
  destruct (Z.eqb_spec (hex_digit (x mod 16)) 120) as [E1|]; [|by rewrite andb_false_r].
  rewrite /hex_digit in E1. case_match; lia.
Qed.

(** The hash of a block is always readable back, so building a receipt does not panic. *)
Lemma parse_block_hash_ok `{!TextLaws} h : parse_block_hash (block_hash h) = Some (sha256 (header_json h)).
Proof.
  pose proof (be_bytes_range 32 (sha256 (header_json h))) as Hb.
  rewrite /parse_block_hash /block_hash hex_encode_pairs //. change (trim_0x (str "0x" ++ ?x)) with (trim_0x x).
  rewrite trim_0x_pairs // hex_decode_pairs //. cbv zeta. change (default [] (Some ?x)) with x. rewrite /len length_be_bytes.
  change (Z.of_nat 32 =? 32) with true. cbv iota. f_equal. apply from_be_bytes_be.
  pose proof (sha256_range (header_json h)). done.
Qed.
End receipts.
