(* ===== verification/Trie.v ===== *)
(** State, storage and list roots: [src/block-producer/src/trie] and
    [src/block-producer/src/utils/merkle.rs].

    keccak, the RLP encoding of integers, byte strings, hashes, lists and list headers, and alloy's
    [HashBuilder] are parameters. Of [HashBuilder] the code relies on two things: leaves must be added with
    increasing keys ([add_leaf] asserts it), and the root is a function of the leaves. *)

From S2P Require Import Prelude SortBy Metadata StateDb RedbDb RedbOk TxData.
From Stdlib Require Import Sorted.

#[local] Open Scope Z_scope.

Class TrieLib := {
  keccak256 : Bytes → B256;
  trie_root : list (B256 * Bytes) → B256;
  rlp_header : Z → Bytes;
  rlp_uint : Z → Bytes;
  rlp_b256 : B256 → Bytes;
  rlp_address : Address → Bytes;
  rlp_bytes : Bytes → Bytes;
  (* each item with the length it declares *)
  rlp_list : list (Z * Bytes) → Bytes;
  length_of_length : Z → Z;
}.

Inductive TrieError :=
  | TrieDatabase (e : DbError)
  | TrieNoAccount.

(** * The builder *)

Record TrieBuilder := MkTrie { leaves : list (B256 * Bytes) }.
Definition new_trie : TrieBuilder := MkTrie [].

(** [HashBuilder::add_leaf] panics on a key that is not above the last one. *)
Definition add_leaf (key : B256) (value : Bytes) (b : TrieBuilder) : option TrieBuilder :=
  match last (leaves b) with
  | Some (k, _) => if k <? key then Some (MkTrie (leaves b ++ [(key, value)])) else None
  | None => Some (MkTrie [(key, value)])
  end.

Fixpoint add_leaves (l : list (B256 * Bytes)) (b : TrieBuilder) : option TrieBuilder :=
  match l with
  | [] => Some b
  | (k, v) :: l => b' ← add_leaf k v b; add_leaves l b'
  end.

Section roots.
Context `{TrieLib}.

Definition root (b : TrieBuilder) : B256 := trie_root (leaves b).

(** Insert the leaves in the order given and take the root. *)
Definition build {S E} (l : list (B256 * Bytes)) : X S E B256 :=
  match add_leaves l new_trie with
  | Some b => good (root b)
  | None => crash
  end.

Definition hash_key (key : Bytes) : B256 := keccak256 key.

(** [nonce, balance, storage_root, code_hash]. *)
Definition rlp_encode_account (nonce balance storage_root code_hash : Z) : Bytes :=
  rlp_header (len (rlp_uint nonce) + len (rlp_uint balance) + len (rlp_b256 storage_root) + len (rlp_b256 code_hash))
  ++ rlp_uint nonce ++ rlp_uint balance ++ rlp_b256 storage_root ++ rlp_b256 code_hash.
Definition rlp_encode_storage_value (value : U256) : Bytes := rlp_uint value.

(** ** Transactions, receipts and logs in RLP

    [length] is the length of the payload and of its header; the header that is written
    announces one byte less than that. *)

Definition rlp_length (payload : Bytes) : Z := len payload + length_of_length (len payload).
Definition rlp_struct (payload : Bytes) : Bytes := rlp_header (rlp_length payload - 1) ++ payload.

Definition tx_payload (tx : Transaction) : Bytes :=
  rlp_bytes (from tx) ++ match to tx with Some t => rlp_bytes t | None => rlp_bytes [] end
  ++ rlp_bytes (value tx) ++ rlp_bytes (data tx) ++ rlp_bytes (gas tx) ++ rlp_bytes (tx_nonce tx).
Definition encode_transaction (tx : Transaction) : Bytes := rlp_struct (tx_payload tx).

Definition log_payload (l : Log) : Bytes :=
  rlp_address (address l) ++ rlp_list ((λ t, (len (rlp_b256 t), rlp_b256 t)) <$> topics l) ++ rlp_bytes (ldata l).
Definition encode_log (l : Log) : Z * Bytes := (rlp_length (log_payload l), rlp_struct (log_payload l)).

Definition encode_receipt (r : TransactionReceipt) : Bytes :=
  rlp_struct (rlp_uint (rc_status r) ++ rlp_uint (rc_cumulative_gas_used r) ++ rlp_bytes (rc_logs_bloom r)
              ++ rlp_list (encode_log <$> rc_logs r)).

(** * The root of one storage *)

Definition storage_leaf (s : StorageSlot) : B256 * U256 := (hash_key (be_bytes 32 (slot_key s)), slot_value s).

Definition storage_leaves (slots : list StorageSlot) : list (B256 * Bytes) :=
  let sorted_slots := sort_by_key fst (storage_leaf <$> filter (λ s, slot_value s ≠ 0) slots) in
  (λ '(h, v), (h, rlp_encode_storage_value v)) <$> sorted_slots.

Definition account_leaf (x : B256 * (Z * U256 * B256 * B256)) : B256 * Bytes :=
  let '(h, (n, b, sr, ch)) := x in (h, rlp_encode_account n b sr ch).

Definition EMPTY_STATE_ROOT : B256 := EMPTY_STORAGE_ROOT.

Section calculators.
Context {D : Type} `{StateDatabase D}.

(** [StorageRootCalculator::calculate]. *)
Definition calculate_storage_root (a : Address) : X D TrieError B256 :=
  let? storage_slots := map_bad TrieDatabase (get_all_storage a) in
  match storage_slots with
  | [] => good EMPTY_STORAGE_ROOT
  | _ => build (storage_leaves storage_slots)
  end.

(** [process_account]: hashed address, nonce, balance, storage root, code hash. *)
Definition process_account (a : Address) : X D TrieError (B256 * (Z * U256 * B256 * B256)) :=
  let? account := map_bad TrieDatabase (get_account a) in
  match account with
  | None => bad TrieNoAccount
  | Some account =>
      let? storage_root := calculate_storage_root a in
      good (hash_key (be_bytes 20 a), (nonce account, balance account, storage_root, code_hash account))
  end.

(** [calculate_incremental]: the parallel map reads only, so its order does not show; which of
    several missing accounts an error names is left out of [TrieNoAccount]. *)
Definition calculate_incremental : X D TrieError B256 :=
  let? changed_accounts := map_bad TrieDatabase get_changed_accounts in
  match changed_accounts with
  | [] => good EMPTY_STATE_ROOT
  | _ =>
      let? accounts_with_storage := collect process_account changed_accounts in
      build (account_leaf <$> sort_by_key fst accounts_with_storage)
  end.

(** [StateRootCalculator::calculate]: the same. *)
Definition calculate : X D TrieError B256 := calculate_incremental.
End calculators.

(** * The root of a list *)

Definition EMPTY_ROOT_HASH : B256 := EMPTY_STORAGE_ROOT.

(** The key of an item is the hash of its encoded index. *)
Definition list_leaf {T} (encode : T → Bytes) (i : nat) (x : T) : B256 * Bytes := (keccak256 (rlp_uint (Z.of_nat i)), encode x).
Definition list_leaves {T} (encode : T → Bytes) (l : list T) : list (B256 * Bytes) :=
  sort_by_key fst (imap (list_leaf encode) l).

Definition calculate_merkle_root {S E T} (encode : T → Bytes) (items : list T) : X S E B256 :=
  match items with
  | [] => good EMPTY_ROOT_HASH
  | _ => build (list_leaves encode items)
  end.
End roots.

(** * The builder accepts increasing leaves *)

Definition increasing (l : list (B256 * Bytes)) : Prop := StronglySorted (λ x y, x.1 < y.1) l.

Lemma add_leaf_increasing b k v l :
  increasing (leaves b ++ (k, v) :: l) → add_leaf k v b = Some (MkTrie (leaves b ++ [(k, v)])).
Proof.
  intros Hi. rewrite /add_leaf. destruct (leaves b) as [|x l0 _] eqn:E1 using rev_ind; [done|].
  rewrite last_snoc. destruct x as [k0 v0].
  assert (k0 < k) as Hlt.
  { clear E1. rewrite -app_assoc in Hi. rewrite /increasing in Hi. induction l0 as [|y l0 IH].
    - cbn in Hi. inversion_clear Hi as [|? ? _ Hf]. by inversion_clear Hf.
    - cbn in Hi. inversion_clear Hi as [|? ? Hs _]. by apply IH. }
  by apply Z.ltb_lt in Hlt as ->.
Qed.

Lemma add_leaves_increasing l b : increasing (leaves b ++ l) → add_leaves l b = Some (MkTrie (leaves b ++ l)).
Proof.
  revert b. induction l as [|[k v] l IH]; intros b Hi; [destruct b; by rewrite /= app_nil_r|]. cbn [add_leaves].
  rewrite (add_leaf_increasing b k v l Hi) /=. rewrite IH /= -?app_assoc //.
Qed.

Section roots_ok.
Context `{TrieLib} `{BincodeLaws Account}.

Lemma build_increasing {S E} l (s : S) : increasing l → @build _ S E l s = (Good (trie_root l), s).
Proof. intros Hi. rewrite /build (add_leaves_increasing l new_trie) //. Qed.

(** No two of the keys have the same hash. *)
Definition no_collision (n : nat) (l : list Z) : Prop :=
  ∀ x y, x ∈ l → y ∈ l → hash_key (be_bytes n x) = hash_key (be_bytes n y) → x = y.

Lemma sorted_increasing {T} (f : T → B256 * Bytes) (l : list T) :
  NoDup l → (∀ x y, x ∈ l → y ∈ l → (f x).1 = (f y).1 → x = y) → increasing (sort_by_key fst (f <$> l)).
Proof.
  intros Hn Hinj. rewrite sort_by_key_map /increasing. pose proof (sort_by_key_strict (λ x, (f x).1) l Hn Hinj) as Hs.
  induction Hs as [|x k Hs IH Hf]; [constructor|]. cbn. constructor; [done|]. by apply Forall_fmap.
Qed.

(** * Storage roots *)

Definition nonzero (m : gmap (Address * U256) U256) : gmap (Address * U256) U256 := filter (λ kv, kv.2 ≠ 0) m.

(** The reference: the trie of the slots that are not zero. *)
Definition ref_storage_root (a : Address) (m : gmap (Address * U256) U256) : B256 :=
  trie_root (sort_by_key fst ((λ s, (hash_key (be_bytes 32 (slot_key s)), rlp_uint (slot_value s))) <$> slots_of a (nonzero m))).

Lemma nonzero_slots a m : filter (λ s, slot_value s ≠ 0) (slots_of a m) ≡ₚ slots_of a (nonzero m).
Proof.
  apply NoDup_Permutation; [apply NoDup_filter, slots_of_nodup|apply slots_of_nodup|]. intros s.
  rewrite list_elem_of_filter !elem_of_slots_of /nonzero map_lookup_filter_Some /=. naive_solver.
Qed.

Lemma storage_leaves_ref a m :
  no_collision 32 (keys_of a m) →
  storage_leaves (slots_of a m)
  = sort_by_key fst ((λ s, (hash_key (be_bytes 32 (slot_key s)), rlp_uint (slot_value s))) <$> slots_of a (nonzero m)) ∧
  increasing (storage_leaves (slots_of a m)).
Proof.
  intros Hc. set (leaf := λ s, (hash_key (be_bytes 32 (slot_key s)), rlp_uint (slot_value s))).
  set (l := filter (λ s, slot_value s ≠ 0) (slots_of a m)).
  assert (∀ x y, x ∈ l → y ∈ l → (leaf x).1 = (leaf y).1 → x = y) as Hinj.
  { intros x y Hx Hy E1. rewrite /l list_elem_of_filter elem_of_slots_of in Hx. rewrite /l list_elem_of_filter elem_of_slots_of in Hy.
    destruct Hx as (_ & Hx & Ex), Hy as (_ & Hy & Ey). apply Hc in E1; [|apply keys_of_spec; by eexists..].
    destruct x, y. cbn in *. congruence. }
  assert (NoDup l) as Hn by apply NoDup_filter, slots_of_nodup.
  assert (storage_leaves (slots_of a m) = sort_by_key fst (leaf <$> l)) as ->.
  { rewrite /storage_leaves -/l !sort_by_key_map -list_fmap_compose. done. }
  split; [|by apply sorted_increasing]. rewrite !sort_by_key_map. f_equal.
  apply sort_by_key_unique; [done|apply nonzero_slots].
Qed.

(** * A database at rest *)

Record at_rest (d : RedbStateDB) (v : view) : Prop := {
  ar_tables : tables_are (tables d) v;
  ar_closed : tx_buffer d = None;
  ar_faults : redb_faults d = [];
}.

Lemma rest_read {A} (f : Tables → A) d v : at_rest d v → read_txn f d = (Good (f (tables d)), d).
Proof. intros [_ _ Hf]. by rewrite /read_txn Hf. Qed.

Lemma rest_get_account d v a : at_rest d v → get_account a d = (Good (v_accounts v !! a), d).
Proof.
  intros Hr. rewrite /= /redb_get_account /chain /state (ar_closed _ _ Hr) (rest_read _ d v Hr).
  rewrite (ta_accounts _ _ (ar_tables _ _ Hr)) lookup_fmap.
  destruct (v_accounts v !! a) as [acc|]; [|done]. by rewrite /= /decode_account bincode_roundtrip.
Qed.

Lemma rest_get_all_storage d v a : at_rest d v → get_all_storage a d = (Good (slots_of a (v_storage v)), d).
Proof. intros Hr. rewrite /= /redb_get_all_storage (rest_read _ d v Hr). by rewrite (ta_storage _ _ (ar_tables _ _ Hr)). Qed.

Lemma rest_storage_root d v a :
  at_rest d v → trie_root [] = EMPTY_STORAGE_ROOT → no_collision 32 (keys_of a (v_storage v)) →
  calculate_storage_root a d = (Good (ref_storage_root a (v_storage v)), d).
Proof.
  intros Hr Hr0 Hc. rewrite /calculate_storage_root /chain /map_bad (rest_get_all_storage d v a Hr).
  destruct (storage_leaves_ref a (v_storage v) Hc) as [El Hi]. rewrite /ref_storage_root -El.
  destruct (slots_of a (v_storage v)); [by rewrite /storage_leaves /= Hr0|]. by apply build_increasing.
Qed.

(** * The state root *)

(** The reference: the trie of the given accounts, with their storage roots. *)
Definition state_leaf (v : view) (a : Address) : B256 * Bytes :=
  (hash_key (be_bytes 20 a),
   match v_accounts v !! a with
   | Some acc => rlp_encode_account (nonce acc) (balance acc) (ref_storage_root a (v_storage v)) (code_hash acc)
   | None => []
   end).
Definition ref_state_root (v : view) (A : gset Address) : B256 :=
  trie_root (sort_by_key fst (state_leaf v <$> elements A)).

Lemma rest_process d v a :
  at_rest d v → trie_root [] = EMPTY_STORAGE_ROOT → no_collision 32 (keys_of a (v_storage v)) →
  process_account a d
  = (match v_accounts v !! a with
     | Some acc => Good (hash_key (be_bytes 20 a), (nonce acc, balance acc, ref_storage_root a (v_storage v), code_hash acc))
     | None => Bad TrieNoAccount
     end, d).
Proof.
  intros Hr Hr0 Hc. rewrite /process_account /chain /map_bad (rest_get_account d v a Hr).
  destruct (v_accounts v !! a) as [acc|]; [|done]. by rewrite (rest_storage_root d v a Hr Hr0 Hc).
Qed.

(** Every account of the list exists. *)
Definition all_exist (v : view) (l : list Address) : bool := bool_decide (Forall (λ a, is_Some (v_accounts v !! a)) l).

Lemma all_exist_cons v a l : all_exist v (a :: l) = bool_decide (is_Some (v_accounts v !! a)) && all_exist v l.
Proof. rewrite /all_exist -bool_decide_and. apply bool_decide_ext. by rewrite Forall_cons. Qed.

Lemma rest_collect d v l :
  at_rest d v → trie_root [] = EMPTY_STORAGE_ROOT → (∀ a, a ∈ l → no_collision 32 (keys_of a (v_storage v))) →
  ∃ r, collect process_account l d = (r, d) ∧
  if all_exist v l
  then ∃ xs, r = Good xs ∧ account_leaf <$> xs = state_leaf v <$> l ∧ xs.*1 = (λ a, hash_key (be_bytes 20 a)) <$> l
  else r = Bad TrieNoAccount.
Proof.
  intros Hr Hr0. induction l as [|a l IH]; intros Hc; [eexists; split; [done|]; by exists []|].
  destruct IH as (r & E1 & IH); [intros; apply Hc; by apply elem_of_cons; right|]. rewrite all_exist_cons.
  cbn [collect]. rewrite /chain (rest_process d v a Hr Hr0); [apply Hc; by apply elem_of_cons; left|].
  destruct (v_accounts v !! a) as [acc|] eqn:Ea.
  - rewrite bool_decide_eq_true_2 //= E1. destruct (all_exist v l).
    + destruct IH as (xs & -> & El & Ek). eexists. split; [done|]. eexists. split; [done|]. cbn. rewrite El Ek. split; [|done].
      by rewrite /state_leaf Ea.
    + subst r. by eexists.
  - rewrite bool_decide_eq_false_2; [by intros []|]. by eexists.
Qed.

Lemma state_root_eq d v :
  at_rest d v → NoDup (changed_accounts d) → trie_root [] = EMPTY_STORAGE_ROOT →
  no_collision 20 (changed_accounts d) →
  (∀ a, a ∈ changed_accounts d → no_collision 32 (keys_of a (v_storage v))) →
  calculate d
  = (if all_exist v (changed_accounts d) then Good (ref_state_root v (list_to_set (changed_accounts d)))
     else Bad TrieNoAccount, d).
Proof.
  intros Hr Hn Hr0 Hc Hs. rewrite /calculate /calculate_incremental /chain /map_bad /= /redb_get_changed_accounts /chain /state /=.
  destruct (rest_collect d v (changed_accounts d) Hr Hr0 Hs) as (r & E1 & Hl).
  destruct (changed_accounts d) as [|a0 l0] eqn:Ec; [by rewrite /ref_state_root /= elements_empty /= Hr0|].
  rewrite -Ec in Hn Hc Hs E1 Hl |- *. rewrite E1. destruct (all_exist v _); [|by subst r].
  destruct Hl as (xs & -> & El & Ek). set (l := changed_accounts d) in *.
  assert (account_leaf <$> sort_by_key fst xs = sort_by_key fst (state_leaf v <$> l)) as ->.
  { rewrite -El sort_by_key_map. f_equal. apply sort_by_key_ext. by intros [? [[[]]]]. }
  assert (∀ x y, x ∈ l → y ∈ l → (state_leaf v x).1 = (state_leaf v y).1 → x = y) as Hinj by apply Hc.
  rewrite build_increasing; [by apply sorted_increasing|]. rewrite /ref_state_root !sort_by_key_map. do 4 f_equal.
  apply sort_by_key_unique; [done|]. by rewrite elements_list_to_set.
Qed.

(** C34: The state root of a database at rest is the root of the trie that holds, for each
    account changed since the last transaction began, its nonce, balance, code hash and the root
    of its slots that are not zero. It depends on the set of changed accounts and on the committed
    view only, not on the order of the changes, and the trie builder, which panics on keys out of
    order, accepts the leaves when no two hashed keys collide. If a changed account no longer
    exists the calculation fails. *)
Theorem state_root_reference d v :
  at_rest d v → NoDup (changed_accounts d) → trie_root [] = EMPTY_STORAGE_ROOT →
  no_collision 20 (changed_accounts d) →
  (∀ a, a ∈ changed_accounts d → no_collision 32 (keys_of a (v_storage v))) →
  calculate d
  = (if all_exist v (changed_accounts d) then Good (ref_state_root v (list_to_set (changed_accounts d)))
     else Bad TrieNoAccount, d).
Proof. apply state_root_eq. Qed.

(** * Roots of lists *)

Definition index_collision_free (n : nat) : Prop :=
  ∀ i j, (i < n)%nat → (j < n)%nat → keccak256 (rlp_uint (Z.of_nat i)) = keccak256 (rlp_uint (Z.of_nat j)) → i = j.

Lemma imap_leaves {T} (encode : T → Bytes) l :
  imap (list_leaf encode) l = (λ '(i, x), list_leaf encode i x) <$> imap pair l.
Proof. rewrite fmap_imap. by apply imap_ext. Qed.

Lemma elem_of_indexed {T} (l : list T) i x : (i, x) ∈ imap pair l ↔ l !! i = Some x.
Proof.
  rewrite elem_of_lookup_imap. split; [by intros (j & y & [= -> ->] & Hy)|]. intros Hx. by exists i, x.
Qed.

Lemma indexed_nodup {T} (l : list T) : NoDup (imap pair l).
Proof.
  apply NoDup_alt. intros i j [k x]. rewrite !list_lookup_imap. destruct (l !! i), (l !! j); cbn; congruence.
Qed.

Lemma merkle_root_ok {S E T} (encode : T → Bytes) items (s : S) :
  items ≠ [] → index_collision_free (length items) →
  @calculate_merkle_root _ S E T encode items s = (Good (trie_root (list_leaves encode items)), s).
Proof.
  intros Hne Hc. destruct items as [|x rest] eqn:E1; [done|]. rewrite -E1 in Hc |- *. rewrite /calculate_merkle_root {1}E1.
  apply build_increasing. rewrite /list_leaves imap_leaves. apply sorted_increasing; [apply indexed_nodup|].
  intros [i y] [j z]. rewrite !elem_of_indexed. intros Hy Hz Ek. apply Hc in Ek; [|by eapply lookup_lt_Some..].
  subst j. congruence.
Qed.

(** A list root commits to the list: two lists of the same length whose roots are equal have
    the same encodings in the same order, unless the trie's hash collides. So the transactions
    root fixes the order of a block's transactions; and the receipts root, which is taken over
    the values of a hash map, is a different one for every order in which the map may list
    receipts with different encodings. *)
Theorem merkle_root_binds {S E T} (encode : T → Bytes) l l' (s : S) :
  l ≠ [] → length l = length l' → index_collision_free (length l) →
  (trie_root (list_leaves encode l) = trie_root (list_leaves encode l') → list_leaves encode l = list_leaves encode l') →
  @calculate_merkle_root _ S E T encode l s = calculate_merkle_root encode l' s →
  encode <$> l = encode <$> l'.
Proof.
  intros Hne Hlen Hc Hinj. rewrite merkle_root_ok // merkle_root_ok.
  { intros ->. by destruct l. }
  { by rewrite -Hlen. }
  intros [= Hroot%Hinj]. apply list_eq. intros i. rewrite !list_lookup_fmap.
  destruct (l !! i) as [x|] eqn:Ex; [|by rewrite (proj2 (lookup_ge_None l' i)) // -Hlen; apply lookup_ge_None].
  assert (list_leaf encode i x ∈ imap (list_leaf encode) l') as Hin.
  { rewrite -(sort_by_key_perm fst (imap _ l')) -/(list_leaves encode l') -Hroot /list_leaves sort_by_key_perm. apply elem_of_lookup_imap. by exists i, x. }
  apply elem_of_lookup_imap in Hin as (j & y & [= Ek Ey] & Hy). apply Hc in Ek; [|by eapply lookup_lt_Some|].
  - subst j. rewrite Hy /=. by rewrite Ey.
  - rewrite Hlen. by eapply lookup_lt_Some.
Qed.
End roots_ok.
