(* ===== verification/Executor.v ===== *)
(** Execution of blocks: [revm_adapter.rs], [transaction.rs], [block_executor.rs] and [mod.rs]
    of [src/block-producer/src/executor].

    The EVM is a parameter: for a block and a transaction environment revm is a finite
    interaction with the database ([evm]), which asks for accounts, code, slots and block hashes
    and ends in a result with the changed accounts, or in an error. The adapter answers it from
    the state database through a cache of accounts. *)

From S2P Require Import Prelude Client StateDb TxData.

#[local] Open Scope Z_scope.

(** * The EVM *)

Record AccountInfo := MkInfo {
  info_balance : U256;
  info_nonce : Z;
  info_code_hash : B256;
  info_code : option Bytes;
}.

Record EvmSlot := MkEvmSlot { original_value : U256; present_value : U256 }.
Definition slot_is_changed (s : EvmSlot) : bool := negb (original_value s =? present_value s).

Record EvmAccount := MkEvmAccount {
  info : AccountInfo;
  evm_storage : list (U256 * EvmSlot);
  is_selfdestructed : bool;
  is_touched : bool;
}.

Inductive Output :=
  | OutCall (data : Bytes)
  | OutCreate (data : Bytes) (addr : option Address).

Inductive RevmResult :=
  | Success (output : Output) (gas_used gas_refunded : Z) (logs : list EvmLog)
  | Revert (output : Bytes) (gas_used : Z)
  | Halt (gas_used : Z).

Record ResultAndState := MkResultAndState {
  evm_result : RevmResult;
  evm_state : list (Address * EvmAccount);
}.

(** The interaction of [Evm::transact] with its database. [EvmFailed] is an [EVMError] of the
    transaction; an error of the database ends the interaction. *)
Inductive evm :=
  | EvmDone (r : ResultAndState)
  | EvmFailed
  | EvmBasic (a : Address) (k : option AccountInfo → evm)
  | EvmCode (h : B256) (k : Bytes → evm)
  | EvmStorage (a : Address) (i : U256) (k : U256 → evm)
  | EvmBlockHash (n : Z) (k : B256 → evm).

Record BlockEnv := MkBlockEnv { env_number : U256; env_timestamp : U256; env_gas_limit : option U256 }.

Inductive TransactTo := TransactCall (a : Address) | TransactCreate.

Record TxEnv := MkTxEnv {
  caller : Address;
  transact_to : TransactTo;
  env_value : U256;
  env_data : Bytes;
  env_tx_gas_limit : Z;
  env_nonce : option Z;
  env_gas_price : option U256;
  env_chain_id : option Z;
}.

Class Revm := { transact : BlockEnv → TxEnv → evm }.

(** * Errors *)

Inductive ExecutorError :=
  | EDatabase (e : DbError)
  | EEvm
  | ETransaction
  | InvalidGas
  | BlockGasLimitExceeded (used limit : Z)
  | NonceTooLow (expected got : Z)
  | InsufficientFunds (required available : U256)
  | GasLimitExceeded
  | InsufficientBalance
  | InvalidNonce
  | EOther.

Definition is_fatal (e : ExecutorError) : bool :=
  match e with
  | EDatabase _ | EEvm => true
  | _ => false
  end.

Definition is_validation_error (e : ExecutorError) : bool :=
  match e with
  | InvalidGas | BlockGasLimitExceeded _ _ | NonceTooLow _ _ | InsufficientFunds _ _ => true
  | _ => false
  end.

(** [ok_or(e)] and [map_err(..)?] on a parse. *)
Definition parsed {S A} (e : ExecutorError) (o : option A) : X S ExecutorError A :=
  match o with Some a => good a | None => bad e end.

Section executor.
Context {D : Type} `{StateDatabase D} `{TextLib} `{HeaderJson} `{Revm}.

(** * The adapter *)

Record RevmAdapter := MkAdapter { adb : D; cache : gmap Address AccountInfo }.
Definition new_adapter (d : D) : RevmAdapter := MkAdapter d ∅.

Definition in_db {E A} (m : X D E A) : X RevmAdapter E A := within adb (λ d r, MkAdapter d (cache r)) m.

Definition info_of (o : option Account) : AccountInfo :=
  match o with
  | Some acc => MkInfo (balance acc) (nonce acc) (code_hash acc) None
  | None => MkInfo 0 0 EMPTY_CODE_HASH None
  end.

(** [CachedRedbState::basic]. *)
Definition basic (a : Address) : X RevmAdapter DbError (option AccountInfo) :=
  let? r := state in
  match cache r !! a with
  | Some i => good (Some i)
  | None =>
      let? account := in_db (get_account a) in
      let i := info_of account in
      update (λ r, MkAdapter (adb r) (<[a := i]> (cache r))) ?;
      good (Some i)
  end.

Definition code_by_hash (h : B256) : X RevmAdapter DbError Bytes :=
  if h =? EMPTY_CODE_HASH then good []
  else
    let? code := in_db (get_code h) in
    match code with
    | Some c => good c
    | None => bad (CodeNotFound h)
    end.

Definition storage (a : Address) (i : U256) : X RevmAdapter DbError U256 := in_db (get_storage a i).

Definition evm_block_hash (n : Z) : X RevmAdapter DbError B256 :=
  let? h := in_db (get_block_hash n) in
  match h with
  | Some h => good h
  | None => bad (BlockNotFound n)
  end.

(** [self.evm.transact().map_err(..)]. *)
Fixpoint run_evm (t : evm) : X RevmAdapter ExecutorError ResultAndState :=
  match t with
  | EvmDone r => good r
  | EvmFailed => bad EEvm
  | EvmBasic a k => let? x := map_bad (λ _, EEvm) (basic a) in run_evm (k x)
  | EvmCode h k => let? x := map_bad (λ _, EEvm) (code_by_hash h) in run_evm (k x)
  | EvmStorage a i k => let? x := map_bad (λ _, EEvm) (storage a i) in run_evm (k x)
  | EvmBlockHash n k => let? x := map_bad (λ _, EEvm) (evm_block_hash n) in run_evm (k x)
  end.

Definition clear_cache : X RevmAdapter ExecutorError unit := update (λ r, MkAdapter (adb r) ∅).

(** One account of [apply_state_changes]. *)
Definition apply_account (change : Address * EvmAccount) : X D DbError unit :=
  let '(a, account) := change in
  if is_selfdestructed account then delete_account a
  else if is_touched account then
    let i := info account in
    set_account a (MkAccount (info_nonce i) (info_balance i) EMPTY_STORAGE_ROOT (info_code_hash i)) ?;
    match info_code i with
    | Some code =>
        if negb (info_code_hash i =? EMPTY_CODE_HASH) && negb (len code =? 0) then set_code (info_code_hash i) code
        else good tt
    | None => good tt
    end ?;
    each (λ '(slot, value), if slot_is_changed value then set_storage a slot (present_value value) else good tt)
         (evm_storage account)
  else good tt.

(** [apply_state_changes]: in the order in which the map of changes is iterated. *)
Definition apply_state_changes (r : ResultAndState) : X RevmAdapter ExecutorError unit :=
  map_bad EDatabase (in_db (each apply_account (evm_state r))).

Definition convert_result {S} (r : RevmResult) : X S ExecutorError ExecutionResult :=
  match r with
  | Success (OutCall out) gas refund lg => good (MkExec gas true (Some out) None refund lg)
  | Success (OutCreate out addr) gas refund lg => good (MkExec gas true (Some out) addr refund lg)
  | Revert out gas => good (MkExec gas false (Some out) None 0 [])
  | Halt _ => bad EEvm
  end.

(** [RevmAdapter::execute]. *)
Definition adapter_execute (tx_env : TxEnv) (block_env : BlockEnv) : X RevmAdapter ExecutorError ExecutionResult :=
  let? result_and_state := run_evm (transact block_env tx_env) in
  apply_state_changes result_and_state ?;
  clear_cache ?;
  convert_result (evm_result result_and_state).

(** * Transactions *)

Definition calculate_required_balance {S} (tx : Transaction) : X S ExecutorError U256 :=
  let? limit := parsed ETransaction (gas_limit tx) in
  let? price := match gas_price tx with
                | Some gp => parsed ETransaction (u256_from_str_radix16 (trim_0x gp))
                | None => good 1000000000
                end in
  let? v := parsed ETransaction (value_wei tx) in
  let? gas_cost := parsed ETransaction (if limit * price <=? U256_MAX then Some (limit * price) else None) in
  parsed ETransaction (if gas_cost + v <=? U256_MAX then Some (gas_cost + v) else None).

Definition validate_transaction (tx : Transaction) : X RevmAdapter ExecutorError unit :=
  let? limit := parsed ETransaction (gas_limit tx) in
  if limit =? 0 then bad InvalidGas
  else
    let? from_addr := parsed ETransaction (from_address tx) in
    let? account := map_bad EDatabase (in_db (get_account from_addr)) in
    let? n := parsed ETransaction (nonce_value tx) in
    match account with
    | Some acc => if n <? nonce acc then bad (NonceTooLow (nonce acc) n) else good tt
    | None => good tt
    end ?;
    let? required := calculate_required_balance tx in
    let available := match account with Some acc => balance acc | None => 0 end in
    if available <? required then bad (InsufficientFunds required available) else good tt.

(** [build_tx_env]: an unparsable recipient is [Other], the rest [Transaction]. *)
Definition build_tx_env {S} (tx : Transaction) : X S ExecutorError TxEnv :=
  let? from_addr := parsed ETransaction (from_address tx) in
  let? to_addr := parsed EOther (to_address tx) in
  let? v := parsed ETransaction (value_wei tx) in
  let? d := parsed ETransaction (data_bytes tx) in
  let? limit := parsed ETransaction (gas_limit tx) in
  let? n := parsed ETransaction (nonce_value tx) in
  let? price := match gas_price tx with
                | Some gp => let? p := parsed ETransaction (u256_from_str_radix16 (trim_0x gp)) in good (Some p)
                | None => good None
                end in
  good (MkTxEnv from_addr (match to_addr with Some a => TransactCall a | None => TransactCreate end)
          v d limit (Some n) price (chain_id tx)).

Definition execute (tx : Transaction) (block_env : BlockEnv) : X RevmAdapter ExecutorError ExecutionResult :=
  let? tx_env := build_tx_env tx in
  adapter_execute tx_env block_env.

(** * Blocks *)

Record BlockExecutionResult := MkBlockResult {
  execution_results : gmap text ExecutionResult;
  receipts : gmap text TransactionReceipt;
  total_gas_used : Z;
  successful_txs : Z;
  failed_txs : Z;
}.
Definition empty_result : BlockExecutionResult := MkBlockResult ∅ ∅ 0 0 0.

Definition count_failed (acc : BlockExecutionResult) : BlockExecutionResult :=
  MkBlockResult (execution_results acc) (receipts acc) (total_gas_used acc) (successful_txs acc) (failed_txs acc + 1).

Definition build_block_env (block : Block) : BlockEnv :=
  MkBlockEnv (number (header block)) (wrap64 (timestamp (header block))) (header_gas_limit (header block)).

(** [format!("tx_{}", index)] for a transaction without a hash. *)
Definition tx_key (index : Z) (tx : Transaction) : text :=
  match hash tx with
  | Some h => h
  | None => str ("tx_" +:+ pretty index)
  end.

Definition starts_with_0x (s : text) : bool :=
  match s with x :: y :: _ => (x =? 48) && (y =? 120) | _ => false end.

Definition tx_hash_b256 (tx_hash : text) : B256 :=
  let decoded :=
    if starts_with_0x tx_hash && (len tx_hash =? 66) then
      match hex_decode (trim_0x tx_hash) with
      | Some bytes => if len bytes =? 32 then Some (from_be_bytes bytes) else None
      | None => None
      end
    else None in
  default (sha256 tx_hash) decoded.

(** The [Ok] branch of the loop. *)
Definition record_result {S} (block : Block) (index : Z) (tx : Transaction) (result : ExecutionResult)
    (acc : BlockExecutionResult) : X S ExecutorError BlockExecutionResult :=
  let total := wrap64 (total_gas_used acc + gas_used result) in
  let key := tx_key index tx in
  let? receipt := build_receipt (tx_hash_b256 key) index block tx result total in
  good (MkBlockResult (<[key := result]> (execution_results acc)) (<[key := receipt]> (receipts acc)) total
          (if success result then successful_txs acc + 1 else successful_txs acc)
          (if success result then failed_txs acc else failed_txs acc + 1)).

(** One turn of the loop. *)
Definition execute_one (block : Block) (block_env : BlockEnv) (index : Z) (tx : Transaction)
    (acc : BlockExecutionResult) : X RevmAdapter ExecutorError BlockExecutionResult :=
  let? v := caught (validate_transaction tx) in
  match v with
  | inl _ => good (count_failed acc)
  | inr _ =>
      let? r := caught (execute tx block_env) in
      match r with
      | inr result => record_result block index tx result acc
      | inl e =>
          if is_fatal e then map_bad EDatabase (in_db rollback_transaction) ?; bad e
          else good (count_failed acc)
      end
  end.

Fixpoint execute_txs (block : Block) (block_env : BlockEnv) (index : Z) (txs : list Transaction)
    (acc : BlockExecutionResult) : X RevmAdapter ExecutorError BlockExecutionResult :=
  match txs with
  | [] => good acc
  | tx :: txs =>
      let? acc := execute_one block block_env index tx acc in
      execute_txs block block_env (index + 1) txs acc
  end.

Definition execute_block (block : Block) : X RevmAdapter ExecutorError BlockExecutionResult :=
  map_bad EDatabase (in_db begin_transaction) ?;
  let? r := execute_txs block (build_block_env block) 0 (transactions block) empty_result in
  map_bad EDatabase (in_db commit_transaction) ?;
  good r.
End executor.
Arguments RevmAdapter : clear implicits.
