(* ===== verification/ExecutorOk.v ===== *)
(** What the block executor promises, proved against the interface [AtomicDb] of the state
    database: a block is executed as a whole or not at all, its counts and gas are those of its
    transactions, and the account cache of the adapter does not show. *)

From S2P Require Import Prelude Client StateDb TxData Executor.

#[local] Open Scope Z_scope.

Section atomic.
Context {D : Type} `{AtomicDb D} `{TextLaws} `{HeaderJson} `{Revm}.
Implicit Types (r : RevmAdapter D).

Definition a_disk r : Disk := disk (adb r).
Definition a_open r : bool := in_txn (adb r).
Abbreviation akeeps := (keeps a_disk a_open).

(** * Everything inside a block keeps the disk *)

Lemma keeps_in_db {E A} (m : X D E A) : keeps disk in_txn m → akeeps (in_db m).
Proof.
  intros Hm r Ho. specialize (Hm (adb r) Ho). rewrite /in_db /within /a_disk /a_open. by destruct (m (adb r)).
Qed.
Hint Resolve keeps_in_db : keeps.

Lemma keeps_update_cache {E} f : akeeps (@update _ E (λ r, MkAdapter (adb r) (f r))).
Proof. by intros r. Qed.
Hint Resolve keeps_update_cache : keeps.

Lemma keeps_parsed {A} e (o : option A) : akeeps (parsed e o).
Proof. destruct o; cbn [parsed]; auto with keeps. Qed.
Hint Resolve keeps_parsed : keeps.

Lemma keeps_basic a : akeeps (basic a).
Proof.
  apply keeps_chain; [auto with keeps|]. intros r. destruct (cache r !! a); [auto with keeps|].
  apply keeps_chain; [auto with keeps|]. intros account. apply keeps_chain; auto with keeps.
Qed.

Lemma keeps_code_by_hash h : akeeps (code_by_hash h).
Proof.
  rewrite /code_by_hash. destruct (h =? EMPTY_CODE_HASH); [auto with keeps|].
  apply keeps_chain; [auto with keeps|]. intros []; auto with keeps.
Qed.

Lemma keeps_block_hash n : akeeps (evm_block_hash n).
Proof. apply keeps_chain; [auto with keeps|]. intros []; auto with keeps. Qed.
Hint Resolve keeps_basic keeps_code_by_hash keeps_block_hash : keeps.

Lemma keeps_run_evm t : akeeps (run_evm t).
Proof.
  induction t as [r| |a k IH|h k IH|a i k IH|n k IH]; cbn [run_evm]; auto with keeps;
    apply keeps_chain; auto using keeps_in_db with keeps.
  apply keeps_map_bad. rewrite /storage. auto with keeps.
Qed.

Lemma keeps_apply_account c : keeps disk in_txn (apply_account c).
Proof.
  destruct c as [a account]. rewrite /apply_account. destruct (is_selfdestructed account); [auto with keeps|].
  destruct (is_touched account); [|auto with keeps]. apply keeps_chain; [auto with keeps|]. intros _. apply keeps_chain.
  - destruct (info_code (info account)); [|auto with keeps]. destruct (_ && _); auto with keeps.
  - intros _. apply keeps_each. intros [slot value]. destruct (slot_is_changed value); auto with keeps.
Qed.
Hint Resolve keeps_run_evm keeps_apply_account : keeps.

Lemma keeps_convert x : akeeps (convert_result x).
Proof. destruct x as [[]| |]; cbn [convert_result]; auto with keeps. Qed.
Hint Resolve keeps_convert : keeps.

(** Walk over the steps that keep the disk by a hint. *)
Ltac keep_steps := repeat (apply keeps_chain; [solve [auto with keeps]|intros ?]).

Lemma keeps_build_tx_env tx : akeeps (build_tx_env tx).
Proof.
  rewrite /build_tx_env. keep_steps. apply keeps_chain; [|auto with keeps]. destruct (gas_price tx); [|auto with keeps].
  apply keeps_chain; auto with keeps.
Qed.
Hint Resolve keeps_build_tx_env : keeps.

Lemma keeps_execute tx env : akeeps (execute tx env).
Proof. rewrite /execute /adapter_execute /apply_state_changes /clear_cache. keep_steps. auto with keeps. Qed.

Lemma keeps_required tx : akeeps (calculate_required_balance tx).
Proof.
  rewrite /calculate_required_balance. apply keeps_chain; [auto with keeps|]. intros limit. apply keeps_chain.
  { destruct (gas_price tx); auto with keeps. }
  intros price. keep_steps. auto with keeps.
Qed.
Hint Resolve keeps_required keeps_execute : keeps.

Lemma keeps_validate tx : akeeps (validate_transaction tx).
Proof.
  rewrite /validate_transaction. apply keeps_chain; [auto with keeps|]. intros limit. destruct (limit =? 0); [auto with keeps|].
  keep_steps. apply keeps_chain.
  { destruct a0; [|auto with keeps]. destruct (_ <? _); auto with keeps. }
  intros _. apply keeps_chain; [auto with keeps|]. intros required. destruct (_ <? _); auto with keeps.
Qed.
Hint Resolve keeps_validate : keeps.

Lemma keeps_record block index tx result acc : akeeps (record_result block index tx result acc).
Proof.
  rewrite /record_result /build_receipt parse_block_hash_ok. apply keeps_chain; auto with keeps.
Qed.
Hint Resolve keeps_record : keeps.

(** * A block as a whole *)

(** A turn of the loop goes on with the transaction open, or ends after a rollback. *)
Definition turn_ok {A} (m : X (RevmAdapter D) ExecutorError A) : Prop := ∀ r,
  a_open r = true →
  a_disk (m r).2 = a_disk r ∧
  match (m r).1 with
  | Good _ => a_open (m r).2 = true
  | Bad _ => a_open (m r).2 = false
  | Crash => False
  end.

Lemma execute_one_ok block env index tx acc : turn_ok (execute_one block env index tx acc).
Proof.
  intros r Ho. rewrite /execute_one /chain /caught.
  destruct (keeps_validate tx r Ho) as (Hc1 & Hd1 & Ho1). destruct (validate_transaction tx r) as [[u|e|] r1]; cbn in *; [|done|done].
  destruct (keeps_execute tx env r1 Ho1) as (Hc2 & Hd2 & Ho2).
  destruct (execute tx env r1) as [[result|e|] r2]; cbn in *; [| |done].
  - destruct (keeps_record block index tx result acc r2 Ho2) as (Hc3 & Hd3 & Ho3).
    split; [congruence|]. rewrite /record_result /build_receipt parse_block_hash_ok /chain in Hc3 Ho3 |- *. done.
  - destruct (is_fatal e); cbn; [|split; [congruence|done]].
    destruct (rollback_atomic (adb r2) Ho2) as (Eg & Hb & Hd). rewrite /map_bad /in_db /within.
    destruct (rollback_transaction (adb r2)) as [[]]; cbn in *; [|done|done]. rewrite /a_disk /a_open /= in Hd1 Hd2 |- *.
    split; [congruence|done].
Qed.

Lemma execute_txs_ok block env index txs acc : turn_ok (execute_txs block env index txs acc).
Proof.
  revert index acc. induction txs as [|tx txs IH]; intros index acc r Ho; [done|]. cbn [execute_txs]. rewrite /chain.
  destruct (execute_one_ok block env index tx acc r Ho) as [Hd Hr].
  destruct (execute_one block env index tx acc r) as [[acc'|e|] r1]; cbn in *; [|done|done].
  destruct (IH (index + 1) acc' r1 Hr) as [Hd' Hr']. split; [congruence|done].
Qed.

(** C27: Executing a block is atomic. From a database without an open transaction the execution
    never panics and ends without an open transaction; if it fails, for whatever reason (a fatal
    error of the EVM or of the database in any transaction of the block, or a commit that the
    disk refuses), what is on disk is what was there before the block. *)
Theorem execute_block_atomic block r :
  a_open r = false →
  (execute_block block r).1 ≠ Crash ∧
  a_open (execute_block block r).2 = false ∧
  ∀ e, (execute_block block r).1 = Bad e → a_disk (execute_block block r).2 = a_disk r.
Proof.
  intros Ho. destruct (execute_block block r) as [x r'] eqn:Ex. cbn. revert Ex.
  rewrite /execute_block /chain /map_bad /in_db /within.
  destruct (begin_atomic (adb r) Ho) as (Eb & Hd & Hb). destruct (begin_transaction (adb r)) as [y d1]. cbn in *. subst y.
  destruct (execute_txs_ok block (build_block_env block) 0 (transactions block) empty_result (MkAdapter d1 (cache r)) Hb) as [Hd2 Hr].
  destruct (execute_txs _ _ _ _ _ _) as [[res|e|] r2]; cbn in *; [| |done].
  - destruct (commit_atomic (adb r2) Hr) as (Hc & Hcl & Hdisk). rewrite /a_disk /= in Hd2.
    destruct (commit_transaction (adb r2)) as [[[]|e|] d3]; cbn in *; [by intros [= <- <-]| |done].
    intros [= <- <-]. split_and!; [done|done|]. intros _ _. rewrite /a_disk /= (Hdisk e eq_refl). congruence.
  - intros [= <- <-]. rewrite /a_disk /= in Hd2 |- *. split_and!; [done|done|]. intros _ _. congruence.
Qed.
End atomic.

(** * Counts, gas and receipts *)

Section tally.
Context {D : Type} `{StateDatabase D} `{TextLib} `{HeaderJson} `{Revm}.

(** The gas of the receipts up to an index. *)
Definition gas_upto (i : Z) (m : gmap text TransactionReceipt) : Z :=
  map_fold (λ _ rc s, if rc_transaction_index rc <=? i then rc_gas_used rc + s else s) 0 m.

Lemma gas_upto_insert i m key rc :
  m !! key = None →
  gas_upto i (<[key := rc]> m) = (if rc_transaction_index rc <=? i then rc_gas_used rc else 0) + gas_upto i m.
Proof.
  intros Hk. rewrite /gas_upto map_fold_insert_L //.
  - intros j1 j2 z1 z2 y _ _ _. repeat case_match; lia.
  - destruct (rc_transaction_index rc <=? i); lia.
Qed.

Lemma gas_upto_ext i j m :
  map_Forall (λ _ rc, rc_transaction_index rc ≤ i ∧ rc_transaction_index rc ≤ j) m → gas_upto i m = gas_upto j m.
Proof.
  induction m as [|key rc m Hk _ IH] using map_first_key_ind; [done|]. intros Hf.
  rewrite !gas_upto_insert //. apply map_Forall_insert in Hf as [[Hi Hj] Hf]; [|done]. rewrite (IH Hf).
  apply Z.leb_le in Hi as ->. by apply Z.leb_le in Hj as ->.
Qed.

(** The receipt of transaction [i] of the block and the result it reports. *)
Definition receipt_for (block : Block) (acc : BlockExecutionResult) (key : text) (rc : TransactionReceipt) : Prop :=
  ∃ (i : nat) tx result,
    transactions block !! i = Some tx ∧ key = tx_key (Z.of_nat i) tx ∧ rc_transaction_index rc = Z.of_nat i ∧
    execution_results acc !! key = Some result ∧ rc_gas_used rc = gas_used result ∧
    rc_status rc = (if success result then 1 else 0) ∧ rc_from rc = default 0 (from_address tx) ∧
    rc_block_number rc = number (header block).

Record tally (block : Block) (n : Z) (acc : BlockExecutionResult) : Prop := {
  ty_count : successful_txs acc + failed_txs acc = n;
  ty_dom : dom (receipts acc) = dom (execution_results acc);
  ty_receipts : map_Forall (λ key rc, receipt_for block acc key rc ∧ rc_transaction_index rc < n) (receipts acc);
  ty_total : total_gas_used acc = wrap64 (gas_upto n (receipts acc));
  ty_cumulative : map_Forall (λ _ rc,
    rc_cumulative_gas_used rc = wrap64 (gas_upto (rc_transaction_index rc) (receipts acc))) (receipts acc);
}.

(** The keys under which a block's results are kept are distinct. *)
Definition distinct_keys (block : Block) : Prop :=
  ∀ (i j : nat) tx tx', transactions block !! i = Some tx → transactions block !! j = Some tx' →
    tx_key (Z.of_nat i) tx = tx_key (Z.of_nat j) tx' → i = j.

Lemma tally_failed block n acc : tally block n acc → tally block (n + 1) (count_failed acc).
Proof.
  intros [Hc Hd Hr Ht Hu]. split; cbn; [lia|done| | |done].
  - eapply map_Forall_impl; [exact Hr|]. intros key rc [Hrc Hlt]. split; [done|lia].
  - rewrite Ht. f_equal. apply gas_upto_ext. eapply map_Forall_impl; [exact Hr|]. intros key rc [_ Hlt]. lia.
Qed.

(** A key that is not there yet keeps the receipts that are. *)
Lemma receipt_for_insert block acc key rc acc' key' result :
  receipt_for block acc key rc → execution_results acc' = <[key' := result]> (execution_results acc) → key ≠ key' →
  receipt_for block acc' key rc.
Proof.
  intros (i & tx & res & Ht & Hk & Hi & He & Hrest) E1 Hne. exists i, tx, res. rewrite E1 lookup_insert_ne //.
Qed.

Lemma fresh_key block n acc tx :
  distinct_keys block → transactions block !! n = Some tx → tally block (Z.of_nat n) acc →
  receipts acc !! tx_key (Z.of_nat n) tx = None.
Proof.
  intros Hd Hn Ht. destruct (receipts acc !! _) as [rc|] eqn:E1; [|done].
  destruct (ty_receipts _ _ _ Ht _ _ E1) as [(i & tx' & res & Hi & Hk & Hidx & _) Hlt].
  assert (n = i) as -> by (by eapply Hd). lia.
Qed.

Lemma tally_recorded {S} block n acc tx result (s : S) acc' s' :
  distinct_keys block → transactions block !! n = Some tx → tally block (Z.of_nat n) acc →
  record_result block (Z.of_nat n) tx result acc s = (Good acc', s') → tally block (Z.of_nat n + 1) acc'.
Proof.
  intros Hd Hn Ht. pose proof (fresh_key block n acc tx Hd Hn Ht) as Hf. destruct Ht as [Hc Hdom Hr Ht Hu].
  rewrite /record_result /build_receipt /chain. destruct (parse_block_hash _) as [bh|]; [|done]. cbn. intros [= <- _].
  set (key := tx_key (Z.of_nat n) tx) in *. set (rc := MkReceipt _ _ _ _ _ _ _ _ _ _ _ _).
  assert (∀ i, Z.of_nat n ≤ i → gas_upto i (<[key := rc]> (receipts acc)) = gas_used result + gas_upto i (receipts acc)) as Hup.
  { intros i Hi. rewrite gas_upto_insert //= (proj2 (Z.leb_le _ _) Hi). done. }
  assert (wrap64 (total_gas_used acc + gas_used result)
          = wrap64 (gas_upto (Z.of_nat n) (<[key := rc]> (receipts acc)))) as Hw.
  { rewrite Hup; [lia|]. rewrite Ht /wrap64 Zplus_mod_idemp_l. f_equal. lia. }
  split; cbn.
  - destruct (success result); lia.
  - by rewrite !dom_insert_L Hdom.
  - apply map_Forall_insert; [done|]. split.
    + split; [|cbn; lia]. exists n, tx, result. cbn. by rewrite lookup_insert_eq.
    + intros k x Hx. destruct (Hr k x Hx) as [Hrc Hlt]. split; [|lia].
      eapply receipt_for_insert; [exact Hrc|reflexivity|]. intros ->. congruence.
  - rewrite Hw. f_equal. apply gas_upto_ext. apply map_Forall_insert; [done|]. split; [cbn; lia|].
    intros k x Hx. destruct (Hr k x Hx) as [_ Hlt]. lia.
  - apply map_Forall_insert; [done|]. split; [done|]. intros k x Hx. destruct (Hr k x Hx) as [_ Hlt]. rewrite (Hu k x Hx).
    rewrite gas_upto_insert //=. destruct (Z.leb_spec (Z.of_nat n) (rc_transaction_index x)); [lia|]. done.
Qed.

Lemma tally_one block env n acc tx r acc' r' :
  distinct_keys block → transactions block !! n = Some tx → tally block (Z.of_nat n) acc →
  execute_one block env (Z.of_nat n) tx acc r = (Good acc', r') → tally block (Z.of_nat n + 1) acc'.
Proof.
  intros Hd Hn Ht. rewrite /execute_one /chain /caught. destruct (validate_transaction tx r) as [[u|e|] r1]; cbn; [| |done].
  - destruct (execute tx env r1) as [[result|e|] r2]; cbn; [| |done].
    + by eapply tally_recorded.
    + destruct (is_fatal e); cbn; [|intros [= <- _]; by apply tally_failed].
      by destruct (map_bad _ _ r2) as [[]].
  - intros [= <- _]. by apply tally_failed.
Qed.

Lemma tally_txs block env txs n acc r acc' r' :
  distinct_keys block → transactions block = take n (transactions block) ++ txs → (n ≤ length (transactions block))%nat →
  tally block (Z.of_nat n) acc →
  execute_txs block env (Z.of_nat n) txs acc r = (Good acc', r') → tally block (len (transactions block)) acc'.
Proof.
  intros Hd. revert n acc r. induction txs as [|tx txs IH]; intros n acc r Hs Hn Ht; cbn [execute_txs].
  - rewrite app_nil_r in Hs. intros [= <- _]. assert (Z.of_nat n = len (transactions block)) as <-; [|done].
    rewrite /len Hs length_take. lia.
  - assert (transactions block !! n = Some tx) as Hx.
    { rewrite Hs lookup_app_r length_take; [lia|]. by replace (n - n `min` length (transactions block))%nat with 0%nat by lia. }
    rewrite /chain. destruct (execute_one _ _ _ _ _ r) as [[acc1|e|] r1] eqn:E1; [|done|done].
    replace (Z.of_nat n + 1) with (Z.of_nat (n + 1)) by lia. apply IH.
    + rewrite {1}Hs. rewrite Nat.add_1_r (take_S_r _ _ tx Hx) -app_assoc. done.
    + apply lookup_lt_Some in Hx. lia.
    + replace (Z.of_nat (n + 1)) with (Z.of_nat n + 1) by lia. by eapply tally_one.
Qed.

(** The result of an executed block accounts for its transactions: every transaction is
    counted once, as successful or failed; a receipt and a result are kept for the same
    transactions, under the key of the transaction the receipt names, with the gas and status of
    the result; the total is the sum of the gas of all receipts, and the cumulative gas of a
    receipt is the sum over the receipts up to its index, as 64-bit sums. *)
Theorem execute_block_tally block r res r' :
  distinct_keys block → execute_block block r = (Good res, r') → tally block (len (transactions block)) res.
Proof.
  intros Hd. rewrite /execute_block /chain. destruct (map_bad _ _ r) as [[u|e|] r1]; [|done|done].
  destruct (execute_txs _ _ _ _ _ r1) as [[res1|e|] r2] eqn:E1; [|done|done].
  destruct (map_bad _ _ r2) as [[u'|e|] r3]; [|done|done]. intros [= <- _].
  apply (tally_txs block (build_block_env block) (transactions block) 0 empty_result r1 res1 r2 Hd); [done|lia| |exact E1].
  split; cbn; [done|by rewrite !dom_empty_L|apply map_Forall_empty|done|apply map_Forall_empty].
Qed.
End tally.

(** * The account cache *)

Section cache.
Context {D : Type} `{StateDatabase D} `{TextLib} `{HeaderJson} `{Revm}.
Implicit Types (d : D) (c : gmap Address AccountInfo).

(** The EVM run on the state database itself, without the cache. *)
Fixpoint run_direct (t : evm) : X D ExecutorError ResultAndState :=
  match t with
  | EvmDone r => good r
  | EvmFailed => bad EEvm
  | EvmBasic a k => let? x := map_bad (λ _, EEvm) (get_account a) in run_direct (k (Some (info_of x)))
  | EvmCode h k =>
      let? x := (if h =? EMPTY_CODE_HASH then good []
                 else let? code := map_bad (λ _, EEvm) (get_code h) in
                      match code with Some c => good c | None => bad EEvm end) in
      run_direct (k x)
  | EvmStorage a i k => let? x := map_bad (λ _, EEvm) (get_storage a i) in run_direct (k x)
  | EvmBlockHash n k =>
      let? h := map_bad (λ _, EEvm) (get_block_hash n) in
      match h with Some x => run_direct (k x) | None => bad EEvm end
  end.

(** Reads leave the database as it is (a disk without faults). *)
Record pure_reads d : Prop := {
  pr_account a : (get_account a d).2 = d;
  pr_code h : (get_code h d).2 = d;
  pr_storage a i : (get_storage a i d).2 = d;
  pr_hash n : (get_block_hash n d).2 = d;
}.

(** What is cached is what the database holds. *)
Definition coherent d c : Prop := ∀ a i, c !! a = Some i → ∃ acc, get_account a d = (Good acc, d) ∧ i = info_of acc.

Lemma coherent_insert d c a acc :
  coherent d c → get_account a d = (Good acc, d) → coherent d (<[a := info_of acc]> c).
Proof.
  intros Hc E1 x i. rewrite lookup_insert. case_decide as Hx; [intros [= <-]; subst x; by exists acc|]. apply Hc.
Qed.

Lemma run_evm_direct t d c :
  pure_reads d → coherent d c →
  ∃ c', run_evm t (MkAdapter d c) = ((run_direct t d).1, MkAdapter d c') ∧ coherent d c' ∧ (run_direct t d).2 = d.
Proof.
  intros Hp. revert c. induction t as [r| |a k IH|h k IH|a i k IH|n k IH]; intros c Hc; cbn [run_evm run_direct].
  - by exists c.
  - by exists c.
  - rewrite /chain /map_bad /basic /chain /state /=. pose proof (pr_account d Hp a) as Ha. destruct (c !! a) as [i|] eqn:E1.
    + destruct (Hc a i E1) as (acc & E2 & ->). rewrite E2 /=. by apply IH.
    + rewrite /in_db /within /=. destruct (get_account a d) as [[acc|e|] d'] eqn:E2; cbn in Ha; subst d'; [|by exists c..].
      cbn. apply IH. by apply coherent_insert.
  - rewrite /chain /map_bad /code_by_hash. destruct (h =? EMPTY_CODE_HASH); [by apply IH|]. rewrite /chain /in_db /within /=.
    pose proof (pr_code d Hp h) as Ha. destruct (get_code h d) as [[[x|]|e|] d']; cbn in Ha; subst d'; cbn; [by apply IH|by exists c..].
  - rewrite /chain /map_bad /storage /in_db /within /=. pose proof (pr_storage d Hp a i) as Ha.
    destruct (get_storage a i d) as [[x|e|] d']; cbn in Ha; subst d'; cbn; [by apply IH|by exists c..].
  - rewrite /chain /map_bad /evm_block_hash /chain /in_db /within /=. pose proof (pr_hash d Hp n) as Ha.
    destruct (get_block_hash n d) as [[[x|]|e|] d']; cbn in Ha; subst d'; cbn; [by apply IH|by exists c..].
Qed.

(** The adapter's account cache does not show. On a disk without faults and from an empty
    cache, which is how every transaction of a block finds it, running the EVM through the cache
    gives the result of running it on the database, and a transaction that is executed leaves
    the cache empty for the next one. *)
Theorem cache_transparent t d :
  pure_reads d →
  (run_evm t (new_adapter d)).1 = (run_direct t d).1 ∧ adb (run_evm t (new_adapter d)).2 = d ∧
  ∀ tx env r result r', execute tx env r = (Good result, r') → cache r' = ∅.
Proof.
  intros Hp. destruct (run_evm_direct t d ∅ Hp) as (c' & E1 & _ & _); [by intros a i|]. rewrite /new_adapter E1.
  split_and!; [done|done|]. intros tx env r result r'. rewrite /execute /adapter_execute /clear_cache /chain /update.
  destruct (build_tx_env tx r) as [[te|e|] r1]; [|done|done]. destruct (run_evm _ r1) as [[rs|e|] r2]; [|done|done].
  destruct (apply_state_changes rs r2) as [[u|e|] r3]; [|done|done].
  destruct (evm_result rs) as [[]| |]; cbn; by intros [= _ <-].
Qed.
End cache.
