(* ===== verification/Producer.v ===== *)
(** The block producer: [src/block-producer/src/main.rs].

    A producer takes transactions from a topic of the cluster into its pool, selects some for a
    block, has the block executed on the state database, and links it to the block before. The
    source of transactions is a record of operations ([TxSource]); JSON, the order in which a
    hash map is iterated and the clock are parameters. *)

From S2P Require Import Prelude Metadata Client SortBy StateDb RedbDb TxData Trie Executor.

#[local] Open Scope Z_scope.

Definition DEFAULT_BLOCK_GAS_LIMIT : Z := 30000000.

(** The transaction as it is queued. *)
Record RawTx := MkRaw {
  r_from : text;
  r_to : option text;
  r_value : text;
  r_data : text;
  r_gas : text;
  r_nonce : text;
  r_hash : option text;
}.

(** [CliClient::get] on the producer's topic. *)
Record TxSource (Src : Type) := MkSource { src_get : Src → (io_error + option text) * Src }.
Arguments MkSource {_} _.
Arguments src_get {_} _.

Inductive ProducerError :=
  | PSource
  | PNoTransactions
  | POpen (e : DbError)
  | PExecute (e : ExecutorError)
  | PStateRoot (e : TrieError)
  | PSave (e : DbError).

Class ProducerLib := {
  tx_from_json : Bytes → option RawTx;
  tx_json : RawTx → Bytes;
  (** [HashMap::values]. *)
  values_of : gmap text TransactionReceipt → list TransactionReceipt;
}.

(** * Selecting transactions *)

Fixpoint trim_0X (s : text) : text :=
  match s with
  | x :: y :: rest => if (x =? 48) && (y =? 88) then trim_0X rest else s
  | _ => s
  end.

Section producer.
Context `{TextLib} `{HeaderJson} `{ProducerLib} `{TrieLib} `{Revm} `{Bincode Account} `{Bincode Block}.
Context {Src : Type} (src : TxSource Src).

Definition parse_transaction (hex_data : text) : option RawTx :=
  bytes ← hex_decode (trim_0X (trim_0x hex_data));
  if utf8_valid bytes then tx_from_json bytes else None.

Definition parse_gas_limit (gas_hex : text) : option Z := u64_from_str_radix16 (trim_0x gas_hex).

Definition nonce_key (tx : RawTx) : Z := default 0 (u64_from_str_radix16 (trim_0x (r_nonce tx))).
Definition gas_estimate (tx : RawTx) : Z := default 21000 (parse_gas_limit (r_gas tx)).

Record BlockProducer := MkProducer {
  source : Src;
  max_txs_per_block : Z;
  current_block_number : Z;
  last_block_hash : text;
  pending_pool : list RawTx;
  pool_max_size : Z;
}.

Definition zero_hash : text := str "0x" ++ replicate 64 48.

Definition new_producer (s : Src) (max_txs : Z) : BlockProducer := MkProducer s max_txs 0 zero_hash [] (wrap64 (max_txs * 10)).

Definition set_pool (s : Src) (pool : list RawTx) (p : BlockProducer) : BlockProducer :=
  MkProducer s (max_txs_per_block p) (current_block_number p) (last_block_hash p) pool (pool_max_size p).

(** [refill_pool]: until the pool is full or the topic empty; what does not parse is dropped. *)
Fixpoint refill_pool (fuel : nat) : X BlockProducer ProducerError unit :=
  match fuel with
  | O => crash
  | S fuel => λ p,
      if len (pending_pool p) <? pool_max_size p then
        match src_get src (source p) with
        | (inl _, s') => (Bad PSource, set_pool s' (pending_pool p) p)
        | (inr None, s') => (Good tt, set_pool s' (pending_pool p) p)
        | (inr (Some hex_data), s') =>
            match parse_transaction hex_data with
            | Some tx => refill_pool fuel (set_pool s' (pending_pool p ++ [tx]) p)
            | None => refill_pool fuel (set_pool s' (pending_pool p) p)
            end
        end
      else (Good tt, p)
  end.

(** [fetch_transactions]; nothing calls it. *)
Fixpoint fetch_transactions (n : nat) (s : Src) : (ProducerError + list RawTx) * Src :=
  match n with
  | O => (inr [], s)
  | S n =>
      match src_get src s with
      | (inl _, s') => (inl PSource, s')
      | (inr None, s') => (inr [], s')
      | (inr (Some hex_data), s') =>
          match fetch_transactions n s' with
          | (inr txs, s2) => (inr (match parse_transaction hex_data with Some tx => tx :: txs | None => txs end), s2)
          | r => r
          end
      end
  end.

(** The loop of [select_transactions_for_block]: 64-bit sums wrap; a transaction that does not
    fit goes to the front of the pool. *)
Fixpoint select_loop (candidates : list RawTx) (estimated_gas : Z) (selected pool : list RawTx) : list RawTx * list RawTx :=
  match candidates with
  | [] => (selected, pool)
  | tx :: candidates =>
      let sum := wrap64 (estimated_gas + gas_estimate tx) in
      if sum <=? DEFAULT_BLOCK_GAS_LIMIT then select_loop candidates sum (selected ++ [tx]) pool
      else select_loop candidates estimated_gas selected (tx :: pool)
  end.

Definition select_transactions_for_block (fuel : nat) : X BlockProducer ProducerError (list RawTx) :=
  refill_pool fuel ?;
  let? p := state in
  match pending_pool p with
  | [] => good []
  | pool =>
      let '(selected, rest) := select_loop (sort_by_key nonce_key pool) 0 [] [] in
      update (set_pool (source p) rest) ?;
      good selected
  end.

(** [return_to_pool]; nothing calls it. *)
Fixpoint return_to_pool (txs : list RawTx) (p : BlockProducer) : BlockProducer :=
  match txs with
  | [] => p
  | tx :: txs =>
      if len (pending_pool p) >=? pool_max_size p then p
      else return_to_pool txs (set_pool (source p) (tx :: pending_pool p) p)
  end.

(** * Producing a block *)

Definition convert_tx (tx : RawTx) : Transaction :=
  MkTx (r_from tx) (r_to tx) (r_value tx) (r_data tx) (r_gas tx) (r_nonce tx) (r_hash tx) None None None None.

Definition convert_to_schema_block (h : BlockHeader) (txs : list RawTx) : Block :=
  MkBlock (MkHeader (number h) (parent_hash h) (timestamp h) (len txs) (transactions_root h) (state_root h)
             (header_gas_used h) (header_gas_limit h) (receipts_root h))
          (convert_tx <$> txs).

Definition hex_root (r : B256) : text := str "0x" ++ hex_encode (be_bytes 32 r).

Definition calculate_transactions_root (txs : list RawTx) : text := hex_root (sha256 (txs ≫= tx_json)).

(** The state of the process and of the database file it opens for every block. *)
Record World := MkWorld { producer : BlockProducer; db_file : Tables; disk_faults : list bool }.

(** Run on the opened database; its file is what is left when it is closed. *)
Definition on_executor {A} (m : X (RevmAdapter RedbStateDB) ProducerError A) (d : RedbStateDB) (w : World) :
    result ProducerError A * World :=
  let '(r, a) := m (new_adapter d) in (r, MkWorld (producer w) (tables (adb a)) (redb_faults (adb a))).

Definition calculate_state_root : X (RevmAdapter RedbStateDB) ProducerError B256 :=
  map_bad PStateRoot (within adb (λ d r, MkAdapter d (cache r)) calculate_incremental).

(** The receipts as the hash map lists them. *)
Definition receipts_root_of {S E} (rs : list TransactionReceipt) : X S E B256 :=
  match rs with
  | [] => good EMPTY_ROOT_HASH
  | _ => calculate_merkle_root encode_receipt rs
  end.

(** [submit_to_execution_layer]: the new header. The saved block is the one converted before
    the header was filled in. *)
Definition submit_to_execution_layer (h : BlockHeader) (txs : list RawTx) : X World ProducerError BlockHeader := λ w,
  match RedbStateDB_new (db_file w) (disk_faults w) with
  | (Bad e, d) => (Bad (POpen e), MkWorld (producer w) (tables d) (redb_faults d))
  | (Crash, d) => (Crash, MkWorld (producer w) (tables d) (redb_faults d))
  | (Good _, d) =>
      on_executor
        (let schema_block := convert_to_schema_block h txs in
         let? result := map_bad PExecute (execute_block schema_block) in
         let? sr := calculate_state_root in
         let? tr := calculate_merkle_root encode_transaction (transactions schema_block) in
         let? rr := receipts_root_of (values_of (receipts result)) in
         map_bad PSave (in_db (save_block (λ b, number (header b)) schema_block)) ?;
         good (MkHeader (number h) (parent_hash h) (timestamp h) (tx_count h) (hex_root tr) (Some (hex_root sr))
                 (Some (total_gas_used result)) (header_gas_limit h) (Some (hex_root rr))))
        d w
  end.

Definition in_producer {A} (m : X BlockProducer ProducerError A) : X World ProducerError A :=
  within producer (λ p w, MkWorld p (db_file w) (disk_faults w)) m.

(** [Block::hash] of the announced form. *)
Definition announced_hash (h : BlockHeader) : text :=
  str "0x" ++ hex_encode (be_bytes 32 (sha256 (announced_json h))).

Definition link (h : BlockHeader) (p : BlockProducer) : BlockProducer :=
  MkProducer (source p) (max_txs_per_block p) (wrap64 (current_block_number p + 1)) (announced_hash h) (pending_pool p) (pool_max_size p).

(** [produce_block] at time [now]. *)
Definition produce_block (fuel : nat) (now : Z) : X World ProducerError (BlockHeader * list RawTx) :=
  let? txs := in_producer (select_transactions_for_block fuel) in
  match txs with
  | [] => bad PNoTransactions
  | _ =>
      let? w := state in
      let p := producer w in
      let h := MkHeader (current_block_number p) (last_block_hash p) now (len txs) (calculate_transactions_root txs)
                 None None (Some DEFAULT_BLOCK_GAS_LIMIT) None in
      let? h' := submit_to_execution_layer h txs in
      in_producer (update (link h')) ?;
      good (h', txs)
  end.

(** [start]: the ticks of the clock, each with its outcome. *)
Fixpoint ticks (fuel : nat) (times : list Z) (w : World) : list (result ProducerError (BlockHeader * list RawTx)) * World :=
  match times with
  | [] => ([], w)
  | now :: times =>
      let '(r, w1) := produce_block fuel now w in
      let '(rs, w2) := ticks fuel times w1 in (r :: rs, w2)
  end.
End producer.
Arguments BlockProducer : clear implicits.
Arguments World : clear implicits.

(** * The gas sum *)

(** The gas sum of the selection wraps. A transaction that asks for the largest 64-bit gas is
    selected after any other transaction, though its gas alone is far above the limit of a
    block, and it lowers the running sum by one. *)
Theorem gas_overflow_selected tx c est sel pool :
  gas_estimate tx = U64_MAX → 1 ≤ est ≤ DEFAULT_BLOCK_GAS_LIMIT →
  select_loop (tx :: c) est sel pool = select_loop c (est - 1) (sel ++ [tx]) pool.
Proof.
  intros Hg He. cbn [select_loop]. rewrite Hg. rewrite /DEFAULT_BLOCK_GAS_LIMIT in He.
  assert (wrap64 (est + U64_MAX) = est - 1) as ->.
  { rewrite /wrap64 /U64_MAX. replace (est + (2 ^ 64 - 1)) with (est - 1 + 1 * 2 ^ 64) by lia. rewrite Z_mod_plus_full Z.mod_small; lia. }
  destruct (Z.leb_spec (est - 1) DEFAULT_BLOCK_GAS_LIMIT) as [|Hc]; [done|]. rewrite /DEFAULT_BLOCK_GAS_LIMIT in Hc. lia.
Qed.
