(* ===== verification/ProducerOk.v ===== *)
(** What the block producer promises: its pool neither loses nor invents transactions, the
    selection is in nonce order, fits the gas limit and leaves out only what does not fit, the
    topic is drained, and the blocks form a chain. And where it breaks its promises. *)

From S2P Require Import Prelude Metadata Client SortBy StateDb RedbDb RedbOk TxData Trie Executor Producer.
From Stdlib Require Import Sorted.

#[local] Open Scope Z_scope.

(** * Selection *)

Definition total_gas (txs : list RawTx) : Z := foldr (λ tx s, gas_estimate tx + s) 0 txs.

Lemma total_gas_app a b : total_gas (a ++ b) = total_gas a + total_gas b.
Proof. induction a as [|x a IH]; [done|]. cbn. rewrite -/(total_gas (a ++ b)) -/(total_gas a) IH. lia. Qed.

Lemma gas_estimate_range tx : 0 ≤ gas_estimate tx ≤ U64_MAX.
Proof.
  rewrite /gas_estimate /parse_gas_limit. destruct (u64_from_str_radix16 _) as [g|] eqn:E1; [by eapply u64_radix_range|].
  rewrite /U64_MAX /=. lia.
Qed.

Lemma select_loop_spec c g sel pool s r :
  select_loop c g sel pool = (s, r) →
  ∃ chosen skipped, s = sel ++ chosen ∧ r = reverse skipped ++ pool ∧ sublist chosen c ∧ chosen ++ skipped ≡ₚ c.
Proof.
  revert g sel pool. induction c as [|tx c IH]; intros g sel pool; cbn [select_loop].
  { intros [= <- <-]. exists [], []. by rewrite app_nil_r. }
  destruct (_ <=? _); intros E1.
  - destruct (IH _ _ _ E1) as (ch & sk & -> & -> & Hs & Hp). exists (tx :: ch), sk.
    rewrite -app_assoc. split_and!; [done|done|by constructor|]. cbn. by rewrite Hp.
  - destruct (IH _ _ _ E1) as (ch & sk & -> & -> & Hs & Hp). exists ch, (tx :: sk).
    rewrite reverse_cons -app_assoc. split_and!; [done|done|by constructor|]. by rewrite -Permutation_middle Hp.
Qed.

(** Without overflow the loop fills the block: what it leaves out does not fit any more. *)
Lemma select_loop_gas c sel pool s r :
  Forall (λ tx, gas_estimate tx ≤ U64_MAX - DEFAULT_BLOCK_GAS_LIMIT) c → total_gas sel ≤ DEFAULT_BLOCK_GAS_LIMIT →
  select_loop c (total_gas sel) sel pool = (s, r) →
  total_gas sel ≤ total_gas s ≤ DEFAULT_BLOCK_GAS_LIMIT ∧
  ∀ tx, tx ∈ r → tx ∈ pool ∨ total_gas s + gas_estimate tx > DEFAULT_BLOCK_GAS_LIMIT.
Proof.
  intros Hc. revert sel pool. induction Hc as [|tx c Hg _ IH]; intros sel pool Hsel; cbn [select_loop].
  { intros [= <- <-]. split; [lia|]. by left. }
  pose proof (gas_estimate_range tx) as Hr.
  assert (0 ≤ total_gas sel) as H0.
  { clear. induction sel as [|x sel IH]; [done|]. cbn. pose proof (gas_estimate_range x). rewrite -/(total_gas sel). lia. }
  assert (wrap64 (total_gas sel + gas_estimate tx) = total_gas (sel ++ [tx])) as Ew.
  { rewrite total_gas_app /= Z.add_0_r /wrap64 Z.mod_small //. rewrite /U64_MAX in Hg. lia. }
  rewrite Ew. destruct (Z.leb_spec (total_gas (sel ++ [tx])) DEFAULT_BLOCK_GAS_LIMIT) as [Hle|Hgt]; intros E1.
  - destruct (IH _ _ Hle E1) as [Hs Hout]. split; [|done]. rewrite total_gas_app /= in Hs. lia.
  - destruct (IH _ _ Hsel E1) as [Hs Hout]. split; [done|]. intros x Hx.
    destruct (Hout x Hx) as [[->|Hin]%elem_of_cons|Hfit]; [right|by left|by right].
    rewrite total_gas_app /= in Hgt. lia.
Qed.

Section producer_ok.
Context `{TextLib} `{HeaderJson} `{ProducerLib} `{TrieLib} `{Revm} `{Bincode Account} `{Bincode Block}.
Context {Src : Type} (src : TxSource Src).
Implicit Types (p : BlockProducer Src) (w : World Src).

Lemma selection_run fuel p p1 :
  refill_pool src fuel p = (Good tt, p1) →
  ∃ s r, select_loop (sort_by_key nonce_key (pending_pool p1)) 0 [] [] = (s, r) ∧
    select_transactions_for_block src fuel p = (Good s, set_pool (source p1) r p1).
Proof.
  intros E1. rewrite /select_transactions_for_block /chain E1 /state. destruct (pending_pool p1) as [|tx pool] eqn:E2.
  - exists [], []. split; [done|]. destruct p1. cbn in *. by subst.
  - destruct (select_loop _ _ _ _) as [s r] eqn:E3. by exists s, r.
Qed.

(** The transactions of a block are chosen from the pool without losing or duplicating any:
    the chosen ones and what stays in the pool are the pool as it was after the refill. The
    chosen ones are in nonce order, and those of one nonce in the order of the pool. When
    no gas limit is near the end of the 64-bit range, their gas fits the limit of a block, and no transaction
    left in the pool would still fit. *)
Theorem selection_exact fuel p p1 :
  refill_pool src fuel p = (Good tt, p1) →
  ∃ s p', select_transactions_for_block src fuel p = (Good s, p') ∧
    s ++ pending_pool p' ≡ₚ pending_pool p1 ∧
    StronglySorted (λ a b, nonce_key a ≤ nonce_key b) s ∧
    (∀ k, sublist (filter (λ tx, nonce_key tx = k) s) (filter (λ tx, nonce_key tx = k) (pending_pool p1))) ∧
    (Forall (λ tx, gas_estimate tx ≤ U64_MAX - DEFAULT_BLOCK_GAS_LIMIT) (pending_pool p1) →
     total_gas s ≤ DEFAULT_BLOCK_GAS_LIMIT ∧
     ∀ tx, tx ∈ pending_pool p' → total_gas s + gas_estimate tx > DEFAULT_BLOCK_GAS_LIMIT).
Proof.
  intros E1. destruct (selection_run fuel p p1 E1) as (s & r & E2 & E3). eexists s, _. split; [exact E3|].
  destruct (select_loop_spec _ _ _ _ _ _ E2) as (ch & sk & -> & -> & Hs & Hp). cbn [app] in *.
  split_and!; cbn [pending_pool set_pool].
  - rewrite app_nil_r reverse_Permutation Hp. apply sort_by_key_perm.
  - eapply StronglySorted_sublist; [|exact Hs]. apply sort_by_key_sorted.
  - intros k. rewrite -(sort_by_key_stable nonce_key (pending_pool p1)). by apply filter_sublist.
  - intros Hg. rewrite app_nil_r in E2 |- *.
    destruct (select_loop_gas (sort_by_key nonce_key (pending_pool p1)) [] [] ch (reverse sk)) as [Hle Hout]; [|done|exact E2|].
    + by rewrite sort_by_key_perm.
    + split; [lia|]. intros tx Hin. by destruct (Hout tx Hin) as [?%elem_of_nil|].
Qed.

(** * Refilling the pool *)

(** What the producer relies on: the source is a queue. *)
Record SourceLaws (holds : Src → list text → Prop) : Prop := {
  src_pop s q : holds s q → ∃ s', src_get src s = (inr (head q), s') ∧ holds s' (tail q);
}.

Lemma refill_run holds fuel p q :
  SourceLaws holds → holds (source p) q → (length q < fuel)%nat →
  ∃ n p1, refill_pool src fuel p = (Good tt, p1) ∧
    pending_pool p1 = pending_pool p ++ omap parse_transaction (take n q) ∧
    holds (source p1) (drop n q) ∧
    (pool_max_size p ≤ len (pending_pool p1) ∨ drop n q = []) ∧
    len (pending_pool p1) ≤ Z.max (len (pending_pool p)) (pool_max_size p) ∧
    current_block_number p1 = current_block_number p ∧ last_block_hash p1 = last_block_hash p.
Proof.
  intros Hl. revert p q. induction fuel as [|fuel IH]; intros p q Hq Hf; [lia|]. cbn [refill_pool].
  destruct (Z.ltb_spec (len (pending_pool p)) (pool_max_size p)) as [Hlt|Hge].
  - destruct (src_pop _ Hl _ _ Hq) as (s' & E1 & Hq'). rewrite E1. destruct q as [|x q].
    + eexists 0%nat, _. split; [done|]. cbn. rewrite app_nil_r. split_and!; [done|done|by right|lia|done|done].
    + cbn [head tail length] in *. destruct (parse_transaction x) as [tx|] eqn:Ep.
      * edestruct (IH (set_pool s' (pending_pool p ++ [tx]) p) q Hq') as (n & p1 & E2 & Hp & Hh & Hor & Hm & Hc); [lia|].
        exists (S n), p1. cbn in *. rewrite Ep. rewrite len_app len_cons len_nil in Hm.
        split_and!; [done|by rewrite Hp -app_assoc|done|done|lia|apply Hc..].
      * edestruct (IH (set_pool s' (pending_pool p) p) q Hq') as (n & p1 & E2 & Hp & Hh & Hor & Hm & Hc); [lia|].
        exists (S n), p1. cbn in *. rewrite Ep. split_and!; [done..|apply Hc|apply Hc].
  - eexists 0%nat, p. split; [done|]. cbn. rewrite app_nil_r. split_and!; [done|done|by left|lia|done|done].
Qed.

(** The refill of the pool always ends: from a topic that holds [q], a turn for each of its
    entries and one more are enough. It takes a prefix of the topic, adds the entries that parse to
    the pool in their order and drops the others, and stops only when the pool is full or
    the topic is empty. The pool never grows beyond its size. *)
Theorem refill_terminates holds fuel p q :
  SourceLaws holds → holds (source p) q → (length q < fuel)%nat →
  ∃ n p1, refill_pool src fuel p = (Good tt, p1) ∧
    pending_pool p1 = pending_pool p ++ omap parse_transaction (take n q) ∧
    holds (source p1) (drop n q) ∧
    (pool_max_size p ≤ len (pending_pool p1) ∨ drop n q = []) ∧
    len (pending_pool p1) ≤ Z.max (len (pending_pool p)) (pool_max_size p) ∧
    current_block_number p1 = current_block_number p ∧ last_block_hash p1 = last_block_hash p.
Proof. apply refill_run. Qed.

(** * The chain *)

Fixpoint chained (n : Z) (prev : text) (hs : list BlockHeader) : Prop :=
  match hs with
  | [] => True
  | h :: hs => number h = n ∧ parent_hash h = prev ∧ chained (n + 1) (announced_hash h) hs
  end.

Definition produced (rs : list (result ProducerError (BlockHeader * list RawTx))) : list BlockHeader :=
  omap (λ r, match r with Good (h, _) => Some h | _ => None end) rs.

(** What a tick does to the position of the chain. *)
Definition same_position p p' : Prop :=
  current_block_number p' = current_block_number p ∧ last_block_hash p' = last_block_hash p.

Lemma refill_position fuel p : same_position p (refill_pool src fuel p).2.
Proof.
  revert p. induction fuel as [|fuel IH]; intros p; [done|]. cbn [refill_pool]. destruct (_ <? _); [|done].
  destruct (src_get src (source p)) as [[e|[x|]] s']; [done| |done].
  destruct (parse_transaction x); [apply (IH (set_pool s' (pending_pool p ++ [_]) p))|apply (IH (set_pool s' (pending_pool p) p))].
Qed.

Lemma select_position fuel p : same_position p (select_transactions_for_block src fuel p).2.
Proof.
  rewrite /select_transactions_for_block /chain. pose proof (refill_position fuel p) as Hr.
  destruct (refill_pool src fuel p) as [[u|e|] p1]; [|done|done]. rewrite /state. destruct (pending_pool p1); [done|].
  by destruct (select_loop _ _ _ _).
Qed.

Lemma submit_producer h txs w : producer (submit_to_execution_layer h txs w).2 = producer w.
Proof.
  rewrite /submit_to_execution_layer. destruct (RedbStateDB_new _ _) as [[u|e|] d]; [|done|done].
  rewrite /on_executor. by destruct (chain _ _ _).
Qed.

Lemma submit_header h txs w h' w' :
  submit_to_execution_layer h txs w = (Good h', w') → number h' = number h ∧ parent_hash h' = parent_hash h.
Proof.
  rewrite /submit_to_execution_layer. destruct (RedbStateDB_new _ _) as [[u|e|] d]; [|done|done].
  rewrite /on_executor /chain. destruct (map_bad _ _ _) as [[res|e|] a1]; [|done|done].
  destruct (calculate_state_root a1) as [[sr|e|] a2]; [|done|done].
  destruct (calculate_merkle_root _ _ a2) as [[tr|e|] a3]; [|done|done].
  destruct (receipts_root_of _ a3) as [[rr|e|] a4]; [|done|done].
  destruct (map_bad _ _ a4) as [[v|e|] a5]; [|done|done]. by intros [= <- _].
Qed.

Lemma produce_position fuel now w r w' :
  produce_block src fuel now w = (r, w') →
  match r with
  | Good (h, _) =>
      number h = current_block_number (producer w) ∧ parent_hash h = last_block_hash (producer w) ∧
      current_block_number (producer w') = wrap64 (current_block_number (producer w) + 1) ∧
      last_block_hash (producer w') = announced_hash h
  | _ => same_position (producer w) (producer w')
  end.
Proof.
  rewrite /produce_block /chain /in_producer /within. pose proof (select_position fuel (producer w)) as [Hn Hh].
  destruct (select_transactions_for_block src fuel (producer w)) as [[txs|e|] p1]; cbn in *; [|by intros [= <- <-]..].
  destruct txs as [|tx txs]; [by intros [= <- <-]|]. rewrite /state.
  match goal with |- context [submit_to_execution_layer ?h0 ?t0 ?w0] =>
    pose proof (submit_producer h0 t0 w0) as Hp; destruct (submit_to_execution_layer h0 t0 w0) as [[h'|e|] w2] eqn:E1 end;
    cbn in Hp; rewrite /update; intros [= <- <-]; cbn; rewrite ?Hp; [|done|done].
  apply submit_header in E1 as [En Eh]. cbn in *. rewrite En Eh Hn Hh. done.
Qed.

(** C29: The blocks a producer announces form a chain: their numbers count up by one from where
    the producer stands, and the parent hash of each is the hash of the JSON of the header announced before
    it, whatever ticks without a block (no transactions, a failed execution) lie between. *)
Theorem blocks_form_chain fuel times w rs w' :
  ticks src fuel times w = (rs, w') →
  0 ≤ current_block_number (producer w) → current_block_number (producer w) + len times ≤ U64_MAX →
  chained (current_block_number (producer w)) (last_block_hash (producer w)) (produced rs) ∧
  current_block_number (producer w') = current_block_number (producer w) + len (produced rs).
Proof.
  revert w rs w'. induction times as [|now times IH]; intros w rs w'; cbn [ticks];
    [intros [= <- <-] _ _; split; [done|change (produced []) with (@nil BlockHeader); rewrite len_nil; lia]|].
  destruct (produce_block src fuel now w) as [r w1] eqn:E1. destruct (ticks src fuel times w1) as [rs1 w2] eqn:E2.
  intros [= <- <-] Hcur Hb. rewrite len_cons in Hb. pose proof (len_nonneg times). apply produce_position in E1.
  assert (∀ n, 0 ≤ n ≤ U64_MAX → wrap64 n = n) as Hw by (intros n Hn; rewrite /wrap64 Z.mod_small; [rewrite /U64_MAX in Hn; lia|done]).
  destruct r as [[h txs]|e|].
  - destruct E1 as (En & Eh & Ec & El). rewrite Hw in Ec; [lia|]. destruct (IH _ _ _ E2) as [Hc Hn]; [lia|lia|]. cbn.
    rewrite Ec El in Hc. rewrite Hn Ec len_cons. split; [done|]. fold (produced rs1). lia.
  - destruct E1 as [Ec El]. destruct (IH _ _ _ E2) as [Hc Hn]; [lia|lia|]. rewrite Ec El in Hc. by rewrite Hn Ec.
  - destruct E1 as [Ec El]. destruct (IH _ _ _ E2) as [Hc Hn]; [lia|lia|]. rewrite Ec El in Hc. by rewrite Hn Ec.
Qed.

(** * What is lost *)

(** A block whose execution fails takes its transactions with it. When [produce_block] fails
    after transactions were selected (one transaction that runs out of gas is enough, since
    every halt of the EVM is a fatal error), the selected transactions are neither in a block nor
    in the pool, and they have been consumed from the topic. *)
Theorem failed_block_loses_transactions fuel now w e w' :
  produce_block src fuel now w = (Bad e, w') → e ≠ PSource → e ≠ PNoTransactions →
  ∃ txs p1, txs ≠ [] ∧ refill_pool src fuel (producer w) = (Good tt, p1) ∧
    txs ++ pending_pool (producer w') ≡ₚ pending_pool p1 ∧ source (producer w') = source p1 ∧
    same_position (producer w) (producer w').
Proof.
  intros Ep Hs Hn. pose proof (produce_position _ _ _ _ _ Ep) as Hpos. revert Ep.
  rewrite /produce_block /chain /in_producer /within.
  destruct (refill_pool src fuel (producer w)) as [[[]|e1|] p1] eqn:E1.
  - destruct (selection_run fuel (producer w) p1 E1) as (s & r & E2 & ->). destruct (select_loop_spec _ _ _ _ _ _ E2) as (ch & sk & -> & -> & _ & Hp).
    cbn [app]. destruct ch as [|tx ch]; [intros [= <- _]; done|]. rewrite /state.
    match goal with |- context [submit_to_execution_layer ?h0 ?t0 ?w0] =>
      pose proof (submit_producer h0 t0 w0) as Hpr; destruct (submit_to_execution_layer h0 t0 w0) as [[h'|e2|] w2] end; [done| |done].
    intros [= -> <-]. rewrite Hpr in Hpos. exists (tx :: ch), p1. rewrite Hpr. cbn. split_and!; [done|done| |done|apply Hpos..].
    rewrite app_nil_r reverse_Permutation. rewrite -(sort_by_key_perm nonce_key (pending_pool p1)) -Hp. done.
  - rewrite /select_transactions_for_block /chain E1. intros [= <- _]. exfalso. apply Hs. clear -E1.
    revert E1. generalize (producer w) as p. induction fuel as [|fuel IH]; intros p; cbn [refill_pool]; [done|].
    destruct (_ <? _); [|done]. destruct (src_get src (source p)) as [[x|[x|]] s']; [by intros [= <- _]| |done].
    destruct (parse_transaction x); apply IH.
  - by rewrite /select_transactions_for_block /chain E1.
Qed.

Lemma submit_saves h txs w h' w' :
  submit_to_execution_layer h txs w = (Good h', w') →
  blocks_table (db_file w') !! number h = Some (serialize (convert_to_schema_block h txs)) ∧
  is_Some (state_root h') ∧ is_Some (header_gas_used h') ∧ is_Some (receipts_root h').
Proof.
  rewrite /submit_to_execution_layer. destruct (RedbStateDB_new _ _) as [[u|e|] d]; [|done|done].
  rewrite /on_executor /chain. destruct (map_bad _ _ _) as [[res|e|] a1]; [|done|done].
  destruct (calculate_state_root a1) as [[sr|e|] a2]; [|done|done].
  destruct (calculate_merkle_root _ _ a2) as [[tr|e|] a3]; [|done|done].
  destruct (receipts_root_of _ a3) as [[rr|e|] a4]; [|done|done].
  rewrite /map_bad /in_db /within /save_block.
  match goal with |- context [write_txn ?f ?d1] => destruct (write_txn_ok f d1) as ([] & l & _ & ->) end; [done|].
  intros [= <- <-]. cbn. by rewrite lookup_insert_eq.
Qed.

(** The block that is saved is not the block that is announced. It is the block as it was
    before its execution, without state root, gas and receipts root, so the hash of the saved header is
    not the parent hash of the next block. And since a producer starts at number zero, the first
    block it makes after a restart replaces the block saved as number zero. *)
Theorem saved_block_lacks_results fuel now w h txs w' :
  produce_block src fuel now w = (Good (h, txs), w') →
  ∃ saved, blocks_table (db_file w') !! number h = Some (serialize saved) ∧
    state_root (header saved) = None ∧ header_gas_used (header saved) = None ∧ receipts_root (header saved) = None ∧
    is_Some (state_root h) ∧ is_Some (header_gas_used h) ∧ is_Some (receipts_root h) ∧
    transactions saved = convert_tx <$> txs ∧
    (∀ s n, producer w = new_producer s n → number h = 0).
Proof.
  intros Ep. destruct (produce_position _ _ _ _ _ Ep) as (Hn & _). revert Ep.
  rewrite /produce_block /chain /in_producer /within. destruct (select_transactions_for_block _ _ _) as [[ts|e|] p1]; [|done|done].
  destruct ts as [|t ts]; [done|]. rewrite /state.
  match goal with |- context [submit_to_execution_layer ?h0 ?t0 ?w0] =>
    destruct (submit_to_execution_layer h0 t0 w0) as [[h'|e2|] w2] eqn:E1 end; [|done|done].
  intros [= <- <- <-]. pose proof (submit_header _ _ _ _ _ E1) as [En _]. apply submit_saves in E1 as (Hs & Hr1 & Hr2 & Hr3).
  cbn in En. eexists. rewrite En. cbn in Hs |- *. split_and!; [exact Hs|done..|].
  intros s n E2. rewrite -En Hn E2. done.
Qed.
End producer_ok.

Section destroyed.
Context `{TextLib} `{HeaderJson} `{ProducerLib} `{TrieLib} `{Revm} `{BincodeLaws Account} `{Bincode Block}.
Context {Src : Type}.
Implicit Types (w : World Src).

(** A changed account that no longer exists. *)
Definition vanished (v : view) (changed : list Address) (a : Address) : Prop := a ∈ changed ∧ v_accounts v !! a = None.

(** A block that destroys an account commits and then fails. The execution of the block is
    committed to the database first; the state root is calculated after it and fails on a
    changed account that no longer exists. The transactions have taken effect, but there is no block
    for them, and the next block has the same number. *)
Theorem destroyed_account_fails_block h txs w d res a v x :
  RedbStateDB_new (db_file w) (disk_faults w) = (Good tt, d) →
  execute_block (convert_to_schema_block h txs) (new_adapter d) = (Good res, a) →
  at_rest (adb a) v → NoDup (changed_accounts (adb a)) → trie_root [] = EMPTY_STORAGE_ROOT →
  no_collision 20 (changed_accounts (adb a)) →
  (∀ y, y ∈ changed_accounts (adb a) → no_collision 32 (keys_of y (v_storage v))) →
  vanished v (changed_accounts (adb a)) x →
  ∃ w', submit_to_execution_layer h txs w = (Bad (PStateRoot TrieNoAccount), w') ∧
    db_file w' = tables (adb a) ∧ producer w' = producer w.
Proof.
  intros E1 E2 Hr Hn Ht Hc Hs [Hin Hx]. rewrite /submit_to_execution_layer E1 /on_executor /chain.
  rewrite {1}/map_bad E2 /calculate_state_root /map_bad /within.
  pose proof (state_root_eq (adb a) v Hr Hn Ht Hc Hs) as E3. rewrite /calculate in E3. rewrite E3.
  rewrite /all_exist bool_decide_eq_false_2; [|by eexists]. rewrite Forall_forall. intros Hall. destruct (Hall x Hin) as [y Hy]. congruence.
Qed.
End destroyed.
