(* ===== verification/CliClient.v ===== *)
(** The client library of the cluster, [src/distributed-walrus/src/cli_client.rs], talking to
    the client listener of a node ([Client]) over a connection of its own for each request.

    [wire_refines_queues] composes the client library, the listener and the distributed layer:
    what a program sees through [CliClient] is a first-in first-out queue for each topic. *)

From S2P Require Import Prelude Metadata WalKey Bucket Controller ClusterInv ClusterOps ClusterQueues Client.

#[local] Open Scope walrus_scope.
#[local] Open Scope Z_scope.

(** * The client *)

(** What [read_exact] and [String::from_utf8] make of the bytes the server sends. *)
Definition read_response (sent : list Z) : outcome (list Z) :=
  match sent with
  | a :: b :: c :: d :: rest =>
      let resp_len := from_le a b c d in
      if len rest <? resp_len then Err (IoError KOther "read payload")
      else
        let buf := take (Z.to_nat resp_len) rest in
        if utf8_valid buf then Ok buf else Err (IoError KOther "utf-8 decode")
  | _ => Err (IoError KOther "read length")
  end.

Definition strip_prefix (prefix s : list Z) : option (list Z) :=
  if bool_decide (take (length prefix) s = prefix) then Some (drop (length prefix) s) else None.

Section cli.
Context {E : Type} `{Engine E} `{Bincode MetadataCmd, Bincode ClusterState}
        `{Bincode InternalOp} `{Bincode InternalResp}.
Variable json_state : TopicState → string.
Variable metrics_json : Z → Cluster E → string.
Variable hops : nat.

(** [send_raw]: a connection to node [i], one frame, one response. When the task that serves the
    connection dies, the client has read what it sent before, or the end of the stream. *)
Definition send_raw (i : Z) (line : list Z) : M (Cluster E) (list Z) := λ c,
  match handle_connection json_state metrics_json hops i (le_u32 (len line mod 2 ^ 32) ++ line) c with
  | (Ok (sent, _), c') => (read_response sent, c')
  | (Err e, c') => (Err e, c')
  | (Panic, c') =>
      ((if (len line =? 0) || (len line >? MAX_FRAME_LEN)
        then read_response (send_response (str "ERR invalid frame length"))
        else Err (IoError KOther "read length")), c')
  | (Hang, c') => (Hang, c')
  end.

Definition simple_ok (i : Z) (line : list Z) : M (Cluster E) unit :=
  let! resp := send_raw i line in
  if bool_decide (resp = str "OK") then ret tt else bail (to_string resp).

Definition send_payload (i : Z) (line : list Z) : M (Cluster E) (list Z) :=
  let! resp := send_raw i line in
  match strip_prefix (str "OK ") resp with
  | Some rest => ret rest
  | None =>
      match strip_prefix (str "ERR") resp with
      | Some _ => bail (to_string resp)
      | None => ret resp
      end
  end.

Definition cli_register (i : Z) (topic : list Z) : M (Cluster E) unit := simple_ok i (str "REGISTER " ++ topic).

Definition cli_put (i : Z) (topic data : list Z) : M (Cluster E) unit :=
  simple_ok i (str "PUT " ++ topic ++ str " " ++ data).

Definition cli_get (i : Z) (topic : list Z) : M (Cluster E) (option (list Z)) :=
  let! resp := send_raw i (str "GET " ++ topic) in
  if bool_decide (resp = str "EMPTY") then ret None
  else
    match strip_prefix (str "OK ") resp with
    | Some rest => ret (Some rest)
    | None => bail ("unexpected GET response: " +:+ to_string resp)
    end.

Definition cli_state (i : Z) (topic : list Z) : M (Cluster E) (list Z) := send_payload i (str "STATE " ++ topic).
Definition cli_metrics (i : Z) : M (Cluster E) (list Z) := send_payload i (str "METRICS").
End cli.

(** * Plain text on the wire *)

Definition plain (b : Z) : Prop := 0x21 ≤ b < 0x7F.
Definition ascii (b : Z) : Prop := 0 ≤ b < 0x80.

Lemma utf8_ascii l : Forall ascii l → utf8_valid l = true.
Proof.
  induction 1 as [|a l Ha _ IH]; [done|]. cbn. rewrite /ascii in Ha. destruct (Z.ltb_spec a 0x80); [done|lia].
Qed.

Lemma plain_ascii l : Forall plain l → Forall ascii l.
Proof. intros Hl. eapply Forall_impl; [exact Hl|]. rewrite /plain /ascii. lia. Qed.

Lemma trim_end_plain l b : plain b → trim_end (l ++ [b]) = l ++ [b].
Proof.
  intros Hb. rewrite /trim_end reverse_app reverse_singleton /=. rewrite /plain in Hb.
  assert (ws1 b = false) as ->.
  { rewrite /ws1 /between. destruct (Z.leb_spec b 0x0D); [lia|]. rewrite andb_false_r. destruct (Z.eqb_spec b 0x20); [lia|done]. }
  destruct (reverse l) as [|x k] eqn:Er.
  { by rewrite (reverse_singleton b) -(reverse_involutive l) Er. }
  assert (ws2 x b = false) as ->.
  { rewrite /ws2. destruct (Z.eqb_spec b 0x85); [lia|]. destruct (Z.eqb_spec b 0xA0); [lia|]. apply andb_false_r. }
  assert (∀ y, ws3 y x b = false) as Hw.
  { intros y. rewrite /ws3 /between. destruct (Z.eqb_spec b 0x80); [lia|]. destruct (Z.leb_spec 0x80 b); [lia|].
    destruct (Z.eqb_spec b 0xA8); [lia|]. destruct (Z.eqb_spec b 0xA9); [lia|]. destruct (Z.eqb_spec b 0xAF); [lia|].
    destruct (Z.eqb_spec b 0x9F); [lia|]. by rewrite !andb_false_r. }
  assert (reverse (b :: x :: k) = l ++ [b]) as Hrev by by rewrite reverse_cons -Er reverse_involutive.
  destruct k as [|y k]; [done|]. by rewrite Hw.
Qed.

Lemma to_string_str t : to_string (str t) = t.
Proof.
  rewrite /to_string /str -list_fmap_compose. rewrite -{2}(String.string_of_list_ascii_of_string t). f_equal.
  induction (String.list_ascii_of_string t) as [|a l IH]; [done|]. cbn. rewrite IH. f_equal.
  by rewrite Nat2Z.id Ascii.ascii_nat_embedding.
Qed.

Lemma str_app s t : str (s +:+ t) = str s ++ str t.
Proof.
  induction s as [|a s IH]; [done|]. change (str (String a s +:+ t)) with (Z.of_nat (Ascii.nat_of_ascii a) :: str (s +:+ t)).
  by rewrite IH.
Qed.

Lemma hex_pairs_ascii bytes : Forall is_byte bytes → Forall ascii (hex_pairs bytes).
Proof.
  induction 1 as [|b bytes Hb _ IH]; [done|]. rewrite hex_pairs_cons.
  destruct (byte_nibbles b Hb) as (H1 & H2 & _). pose proof (hex_digit_range _ H1). pose proof (hex_digit_range _ H2).
  repeat constructor; [rewrite /ascii; lia..|done].
Qed.

Lemma str_to_string l : Forall is_byte l → str (to_string l) = l.
Proof.
  intros Hl. rewrite /to_string /str String.list_ascii_of_string_of_list_ascii.
  induction Hl as [|b l Hb _ IH]; [done|]. cbn. rewrite IH. f_equal. rewrite /is_byte in Hb.
  rewrite Ascii.nat_ascii_embedding; lia.
Qed.

Lemma ascii_byte b : ascii b → is_byte b.
Proof. rewrite /ascii /is_byte. lia. Qed.

Lemma from_str_radix16_byte a b x : from_str_radix16 a b = Some x → is_byte x.
Proof.
  rewrite /from_str_radix16 /is_byte. case_match; [intros Hx%hex_value_range; lia|].
  destruct (hex_value a) as [y|] eqn:Ey; [|done]. destruct (hex_value b) as [z|] eqn:Ez; [|done].
  intros [= <-]. apply hex_value_range in Ey, Ez. lia.
Qed.

(** What the loop over the pairs makes of ASCII text: some bytes, or the message that names the
    first bad pair; never a panic, and never an effect. *)
Definition hex_outcome (n : nat) (r : outcome (list Z)) : Prop :=
  match r with
  | Ok d => Forall is_byte d ∧ length d = n
  | Err e => ∃ a b, ascii a ∧ ascii b ∧
      e = IoError KOther ("invalid hex byte '" +:+ to_string [a; b] +:+ "': invalid digit found in string")
  | _ => False
  end.

Lemma hex_loop_text n l :
  length l = (2 * n)%nat → Forall ascii l → ∃ r, (∀ S (s : S), hex_loop l s = (r, s)) ∧ hex_outcome n r.
Proof.
  revert l. induction n as [|n IH]; intros l Hl Ha.
  { destruct l; [|done]. exists (Ok []). by split. }
  destruct l as [|a [|b l]]; cbn in Hl; [lia..|]. apply Forall_cons in Ha as [Ha [Hb Hl']%Forall_cons].
  destruct (IH l ltac:(lia) Hl') as (r & Hr & Ho). cbn [hex_loop]. rewrite cont_ascii; [apply Ha|].
  assert (match l with c :: _ => cont c | [] => false end = false) as ->.
  { destruct Hl' as [|c l Hc _]; [done|]. apply cont_ascii, Hc. }
  destruct (from_str_radix16 a b) as [x|] eqn:Ex; cbn [orb].
  - exists (match r with Ok d => Ok (x :: d) | Err e => Err e | Panic => Panic | Hang => Hang end).
    split; [intros S s; rewrite /bind Hr; by destruct r|]. destruct r as [d| | |]; [|done..].
    destruct Ho as [Hd Hlen]. split; [constructor; [by eapply from_str_radix16_byte|done]|]. cbn. by rewrite Hlen.
  - eexists. split; [done|]. by exists a, b.
Qed.

Lemma read_send_response resp : Forall ascii resp → len resp < 2 ^ 32 → read_response (send_response resp) = Ok resp.
Proof.
  intros Ha Hl. pose proof (len_nonneg resp). rewrite /send_response /read_response. cbn [le_u32 app].
  rewrite from_le_le_u32; [apply Z.mod_pos_bound; lia|]. rewrite Z.mod_small; [lia|].
  rewrite Z.ltb_irrefl take_ge; [rewrite /len; lia|]. by rewrite utf8_ascii.
Qed.

Section wire.
Context {E : Type} `{Engine E} `{Bincode MetadataCmd, Bincode ClusterState}
        `{Bincode InternalOp} `{Bincode InternalResp}.
Variable json_state : TopicState → string.
Variable metrics_json : Z → Cluster E → string.
Variable hops : nat.
Abbreviation send_raw := (send_raw json_state metrics_json hops).
Abbreviation handle_command := (handle_command json_state metrics_json hops).

(** A command the listener takes: ASCII text that ends in a printable byte. *)
Definition command (line : list Z) : Prop :=
  Forall ascii line ∧ len line ≤ MAX_FRAME_LEN ∧ ∃ l b, line = l ++ [b] ∧ plain b.

Lemma send_raw_text i line c r c' :
  command line → handle_text json_state metrics_json hops i line c = (Ok r, c') → Forall ascii r → len r < 2 ^ 32 →
  send_raw i line c = (Ok r, c').
Proof.
  intros (Ha & Hl & l & b & -> & _) E1 Hr Hlr. rewrite /CliClient.send_raw /handle_connection.
  rewrite Z.mod_small; [rewrite /MAX_FRAME_LEN in Hl; pose proof (len_nonneg (l ++ [b])); lia|].
  change (le_u32 (len (l ++ [b])) ++ l ++ [b]) with (frame (l ++ [b])). rewrite -(app_nil_r (frame (l ++ [b]))).
  rewrite loop_frame; [rewrite len_app len_cons len_nil in Hl |- *; pose proof (len_nonneg l); lia|].
  rewrite /bind E1. destruct (length (frame (l ++ [b]) ++ [])) as [|fuel] eqn:Ef; [by rewrite length_app in Ef|].
  cbn [Client.connection_loop app]. by rewrite /ret read_send_response.
Qed.

Lemma handle_text_command i line c :
  command line →
  handle_text json_state metrics_json hops i line c
  = match handle_command i line c with
    | (Ok msg, c') => (Ok msg, c')
    | (Err e, c') => (Ok (str ("ERR " +:+ err_msg e)), c')
    | (Panic, c') => (Panic, c')
    | (Hang, c') => (Hang, c')
    end.
Proof.
  intros (Ha & _ & l & b & -> & Hb). rewrite /handle_text utf8_ascii // /bind /catch trim_end_plain //.
  by destruct (handle_command i (l ++ [b]) c) as [[] ?].
Qed.

Lemma send_raw_reply i line c r c' :
  command line → handle_command i line c = (Ok r, c') → Forall ascii r → len r < 2 ^ 32 → send_raw i line c = (Ok r, c').
Proof. intros Hc E1. apply send_raw_text; [done|]. by rewrite handle_text_command // E1. Qed.

Lemma send_raw_error i line c e c' :
  command line → handle_command i line c = (Err e, c') → Forall ascii (str (err_msg e)) →
  len (str (err_msg e)) < 2 ^ 16 + 100 → send_raw i line c = (Ok (str ("ERR " +:+ err_msg e)), c').
Proof.
  intros Hc E1 Ha Hl. apply send_raw_text; [done| |..].
  - by rewrite handle_text_command // E1.
  - rewrite str_app. apply Forall_app. split; [|done]. repeat constructor; done.
  - rewrite str_app len_app. change (len (str "ERR ")) with 4. lia.
Qed.

(** ** The commands the client writes *)

Definition word (t : string) : Prop := str t ≠ [] ∧ Forall plain (str t).

Lemma word_spaceless t : word t → Forall (λ b, b ≠ 0x20) (str t).
Proof. intros [_ Ht]. eapply Forall_impl; [exact Ht|]. rewrite /plain. lia. Qed.

Lemma command_word (l : list Z) t :
  Forall ascii l → word t → len l + len (str t) ≤ MAX_FRAME_LEN → command (l ++ str t).
Proof.
  intros Hl [Hne Ht] Hlen. split_and!; [apply Forall_app; split; [done|by apply plain_ascii]|by rewrite len_app|].
  destruct (str t) as [|b k _] using rev_ind; [done|]. exists (l ++ k), b. split; [by rewrite app_assoc|].
  apply Forall_app in Ht as [_ Ht]. by inversion_clear Ht.
Qed.

Lemma register_command i t c :
  word t →
  handle_command i (str "REGISTER " ++ str t) c = (ensure_topic hops i t;; ret (str "OK")) c.
Proof.
  intros Ht. change (str "REGISTER " ++ str t) with (str "REGISTER" ++ 0x20 :: str t).
  rewrite /Client.handle_command /splitn3 split_space_app; [by repeat constructor|]. rewrite split_space_end; [by apply word_spaceless|].
  rewrite bool_decide_eq_true_2 // {1}/bind /require /ret. by rewrite to_string_str.
Qed.

Lemma put_command i t payload c :
  word t →
  handle_command i (str "PUT " ++ str t ++ str " " ++ payload) c
  = match strip_0x payload with
    | None => (bail "payload must be hexstring format (start with 0x or 0X)" : M (Cluster E) (list Z)) c
    | Some _ => (let! bytes := parse_hexstring payload in append_for_topic hops i t bytes;; ret (str "OK")) c
    end.
Proof.
  intros Ht. change (str "PUT " ++ str t ++ str " " ++ payload) with (str "PUT" ++ 0x20 :: str t ++ 0x20 :: payload).
  rewrite /Client.handle_command /splitn3 split_space_app; [by repeat constructor|]. rewrite split_space_app; [by apply word_spaceless|].
  rewrite bool_decide_eq_false_2; [by vm_compute|]. rewrite bool_decide_eq_true_2 // {1}/bind /require /ret {1}/bind.
  rewrite to_string_str. by destruct (strip_0x payload).
Qed.

Lemma get_command i t c :
  word t →
  handle_command i (str "GET " ++ str t) c
  = (let! r := read_one_for_topic_shared hops i t in
     match r with
     | Some bytes => ret (str "OK " ++ encode_hexstring bytes)
     | None => ret (str "EMPTY")
     end) c.
Proof.
  intros Ht. destruct (put_get_text json_state metrics_json hops i (str t) [] c (word_spaceless t Ht) (Forall_nil_2 _)) as [_ Hg].
  rewrite to_string_str in Hg. exact Hg.
Qed.
End wire.

(** * Topics over the wire are queues *)

Section wire_queues.
Context {Eng : Type} `{QueueEngine Eng}.
Context `{BincodeLaws MetadataCmd, Bincode ClusterState, BincodeLaws InternalOp, BincodeLaws InternalResp, NodeIds}.
Variable json_state : TopicState → string.
Variable metrics_json : Z → Cluster Eng → string.
Implicit Types (c : Cluster Eng).

(** A call of the client library. The payload of a [put] is any text. *)
Inductive wop :=
  | WRegister (i : Z) (t : string)
  | WPut (i : Z) (t : string) (payload : list Z)
  | WGet (i : Z) (t : string).

Definition run_wire (hops : nat) (o : wop) : M (Cluster Eng) (option (list Z)) :=
  match o with
  | WRegister i t => cli_register json_state metrics_json hops i (str t);; ret None
  | WPut i t payload => cli_put json_state metrics_json hops i (str t) payload;; ret None
  | WGet i t => cli_get json_state metrics_json hops i (str t)
  end.

(** Calls one after the other. Replication catches up before the next one. *)
Fixpoint run_wires (hops : nat) (os : list wop) c : list (outcome (option (list Z))) * Cluster Eng :=
  match os with
  | [] => ([], c)
  | o :: os =>
      let '(r, c) := run_wire hops o c in
      let '(rs, c) := run_wires hops os (sync c) in (r :: rs, c)
  end.

(** The bytes a payload stands for. Only hexadecimal text stands for any. *)
Definition payload_bytes (payload : list Z) : outcome (list Z) :=
  match strip_0x payload with
  | None => Err (IoError KOther "payload must be hexstring format (start with 0x or 0X)")
  | Some _ => (parse_hexstring payload tt).1
  end.

(** The request of the cluster a call stands for, and its effect on the queues: a payload that
    stands for no bytes is refused without a look at the topic. *)
Definition as_cop (o : wop) : outcome cop :=
  match o with
  | WRegister i t => Ok (CRegister i t)
  | WPut i t payload =>
      match payload_bytes payload with
      | Ok d => Ok (CPut i t d)
      | Err e => Err e
      | Panic => Panic
      | Hang => Hang
      end
  | WGet i t => Ok (CGet i t)
  end.

Definition spec_wop (o : wop) (σ : gmap string (list (list Z))) :
    outcome (option (list Z)) * gmap string (list (list Z)) :=
  match as_cop o with
  | Ok k => spec_cop k σ
  | Err e => (Err e, σ)
  | Panic => (Panic, σ)
  | Hang => (Hang, σ)
  end.

Fixpoint spec_wops (os : list wop) (σ : gmap string (list (list Z))) :
    list (outcome (option (list Z))) * gmap string (list (list Z)) :=
  match os with
  | [] => ([], σ)
  | o :: os => let '(r, σ) := spec_wop o σ in let '(rs, σ) := spec_wops os σ in (r :: rs, σ)
  end.

(** What the client library makes of an answer of the cluster. *)
Definition wire_answer (o : wop) (r : outcome (option (list Z))) : outcome (option (list Z)) :=
  match r with
  | Ok x => Ok (encode_hexstring <$> x)
  | Err e =>
      let text := "ERR " +:+ err_msg e in
      Err (IoError KOther (match o with WGet _ _ => "unexpected GET response: " +:+ text | _ => text end))
  | Panic => Panic
  | Hang => Hang
  end.

Fixpoint wire_answers (os : list wop) (rs : list (outcome (option (list Z)))) : list (outcome (option (list Z))) :=
  match os, rs with
  | o :: os, r :: rs => wire_answer o r :: wire_answers os rs
  | _, _ => []
  end.

(** The topic is a word, and the command is ASCII text that fits in a frame and ends in a
    printable byte. *)
Definition wire_ok (o : wop) : Prop :=
  match o with
  | WRegister _ t | WGet _ t => word t ∧ len (str t) ≤ 1000
  | WPut _ t payload =>
      word t ∧ len (str t) ≤ 1000 ∧ Forall ascii payload ∧ len payload ≤ MAX_FRAME_LEN - 1100 ∧
      ∃ l b, payload = l ++ [b] ∧ plain b
  end.

(** The engines take the bytes, if there are any. *)
Definition wop_ok (o : wop) : Prop := ∀ k, as_cop o = Ok k → cop_ok k.

Definition short_bytes (d : list Z) : Prop := Forall is_byte d ∧ 2 * len d ≤ MAX_FRAME_LEN.
Definition bytes_held (σ : gmap string (list (list Z))) : Prop := map_Forall (λ _ q, Forall short_bytes q) σ.

(** *** Payloads *)

Lemma payload_run payload :
  Forall ascii payload →
  ∃ r, (∀ (S : Type) (s : S), (match strip_0x payload with
                            | None => bail "payload must be hexstring format (start with 0x or 0X)"
                            | Some _ => parse_hexstring payload
                            end) s = (r, s)) ∧ payload_bytes payload = r ∧
    match r with
    | Ok d => Forall is_byte d ∧ 2 * len d ≤ len payload
    | Err e => Forall ascii (str (err_msg e)) ∧ len (str (err_msg e)) < 2 ^ 16 + 100
    | _ => False
    end.
Proof.
  intros Ha. rewrite /payload_bytes. destruct (strip_0x payload) as [hex|] eqn:Es.
  2: { eexists. split; [done|]. split; [done|]. split; [by repeat constructor|done]. }
  assert (∃ x, payload = 48 :: x :: hex) as [x Hx].
  { rewrite /strip_0x in Es. repeat case_match; simplify_eq; by eexists. }
  assert (Forall ascii hex ∧ len payload = 2 + len hex) as [Hh Hlen].
  { subst payload. apply Forall_cons in Ha as [_ [_ Hh]%Forall_cons]. rewrite !len_cons. split; [done|lia]. }
  rewrite /parse_hexstring Es. set l := if Z.odd (len hex) then _ else _.
  assert (∃ n, length l = (2 * n)%nat ∧ 2 * Z.of_nat n ≤ len hex + 1 ∧ Forall ascii l) as (n & Hn & Hle & Hl).
  { subst l. destruct (Z.odd (len hex)) eqn:Eo.
    - apply Z.odd_spec in Eo as [m Hm]. exists (Z.to_nat (m + 1)). unfold len in *. cbn [length]. split_and!; [lia|lia|].
      by constructor.
    - rewrite -Z.negb_even in Eo. apply negb_false_iff, Z.even_spec in Eo as [m Hm]. exists (Z.to_nat m).
      unfold len in *. split_and!; [lia|lia|done]. }
  destruct (hex_loop_text n l Hn Hl) as (r & Hr & Ho). exists r. split; [exact Hr|]. rewrite Hr. split; [done|].
  destruct r as [d|e| |]; [| |done..].
  - destruct Ho as [Hd Hdl]. split; [done|]. rewrite /len Hdl. unfold len in *. lia.
  - destruct Ho as (a & b & Ha1 & Hb1 & ->). cbn [err_msg]. assert (Forall ascii [a; b]) as Hab by (apply Forall_cons; split; [done|by apply Forall_singleton]).
    rewrite !str_app str_to_string; [eapply Forall_impl; [exact Hab|apply ascii_byte]|].
    split; [|rewrite !len_app !len_cons; by vm_compute].
    apply Forall_app. split; [by repeat constructor|]. apply Forall_app. split; [done|by repeat constructor].
Qed.

Lemma as_cop_bytes o k :
  wire_ok o → as_cop o = Ok k →
  match k with CPut _ _ d => short_bytes d | _ => True end.
Proof.
  intros Ho Hk. destruct o as [i t|i t p|i t]; cbn [as_cop] in Hk; [by simplify_eq| |by simplify_eq].
  destruct Ho as (_ & _ & Ha & Hl & _). destruct (payload_run p Ha) as (r & _ & Hp & Hr). rewrite Hp in Hk.
  destruct r as [d| | |]; simplify_eq. destruct Hr as [Hb Hd]. split; [done|]. lia.
Qed.

Lemma spec_wop_bytes o σ : wire_ok o → bytes_held σ → bytes_held (spec_wop o σ).2.
Proof.
  intros Ho Hs. rewrite /spec_wop. destruct (as_cop o) as [k| | |] eqn:Ek; try done.
  pose proof (as_cop_bytes o k Ho Ek) as Hk. destruct k as [i t|i t d|i t]; cbn.
  - destruct (σ !! t) as [q|] eqn:E1; [done|]. by apply map_Forall_insert_2.
  - destruct (σ !! t) as [q|] eqn:E1; [|done]. apply map_Forall_insert_2; [|done].
    apply Forall_app. split; [by apply (Hs t)|]. by apply Forall_singleton.
  - destruct (σ !! t) as [q|] eqn:E1; [|done]. apply map_Forall_insert_2; [|done]. apply Forall_tail. by apply (Hs t).
Qed.

Lemma err_short t : word t → len (str t) ≤ 1000 →
  Forall ascii (str ("unknown topic " +:+ t)) ∧ len (str ("unknown topic " +:+ t)) < 2 ^ 16 + 100.
Proof.
  intros [_ Ht] Hl. rewrite str_app. split.
  - apply Forall_app. split; [by repeat constructor|by apply plain_ascii].
  - rewrite len_app. change (len (str "unknown topic ")) with 14. lia.
Qed.

Lemma simple_reply hops i line c c' :
  send_raw json_state metrics_json hops i line c = (Ok (str "OK"), c') →
  (simple_ok json_state metrics_json hops i line;; ret None) c = (Ok (None : option (list Z)), c').
Proof. intros E1. by rewrite /simple_ok /bind E1 bool_decide_eq_true_2. Qed.

Lemma simple_error hops i line c e c' :
  send_raw json_state metrics_json hops i line c = (Ok (str ("ERR " +:+ e)), c') →
  (simple_ok json_state metrics_json hops i line;; ret None) c = (Err (IoError KOther ("ERR " +:+ e)) : outcome (option (list Z)), c').
Proof. intros E1. rewrite /simple_ok /bind E1 bool_decide_eq_false_2; [done|]. by rewrite to_string_str. Qed.

Lemma unit_run {A} (m : M (Cluster Eng) A) c r c' :
  (m;; ret (None : option (list Z))) c = (r, c') →
  match r with
  | Ok x => ∃ a, m c = (Ok a, c') ∧ x = None
  | Err e => m c = (Err e, c')
  | Panic => m c = (Panic, c')
  | Hang => m c = (Hang, c')
  end.
Proof. rewrite /bind. destruct (m c) as [[a|e| |] c1]; intros [= <- <-]; [by exists a|done..]. Qed.

(** The answer to a GET, and the command that put it there. *)
Lemma encode_ascii d : Forall is_byte d → Forall ascii (encode_hexstring d).
Proof. intros Hb. apply Forall_app. split; [by repeat constructor|by apply hex_pairs_ascii]. Qed.

Lemma len_encode d : len (encode_hexstring d) = 2 + 2 * len d.
Proof. rewrite /encode_hexstring len_app. change (d ≫= _) with (hex_pairs d). by rewrite len_hex_pairs. Qed.

Lemma ok_text d :
  Forall is_byte d → 2 * len d ≤ MAX_FRAME_LEN →
  Forall ascii (str "OK " ++ encode_hexstring d) ∧ len (str "OK " ++ encode_hexstring d) < 2 ^ 32.
Proof.
  intros Hb Hd. split; [apply Forall_app; split; [by repeat constructor|by apply encode_ascii]|].
  rewrite len_app len_encode. change (len (str "OK ")) with 3. rewrite /MAX_FRAME_LEN in Hd. lia.
Qed.

Lemma encode_last d : Forall is_byte d → ∃ l b, encode_hexstring d = l ++ [b] ∧ plain b.
Proof.
  intros Hb. destruct d as [|x d _] using rev_ind; [exists [48], 120; by split|].
  apply Forall_app in Hb as [_ Hx]. inversion_clear Hx as [|? ? Hx' _]. destruct (byte_nibbles x Hx') as (_ & Hn & _).
  exists (encode_hexstring d ++ [hex_digit (x / 16)]), (hex_digit (x mod 16)). split.
  - by rewrite /encode_hexstring bind_app -!app_assoc.
  - rewrite /plain /hex_digit. case_match; lia.
Qed.

Lemma put_is_command t payload :
  word t → len (str t) ≤ 1000 → Forall ascii payload → len payload ≤ MAX_FRAME_LEN - 1100 →
  (∃ l b, payload = l ++ [b] ∧ plain b) →
  command (str "PUT " ++ str t ++ str " " ++ payload).
Proof.
  intros [_ Ht] Hl Ha Hd (l & b & Hp & Hb). split_and!.
  - apply Forall_app; split; [by repeat constructor|]. apply Forall_app; split; [by apply plain_ascii|].
    apply Forall_app; split; [by repeat constructor|done].
  - rewrite 3!len_app. change (len (str "PUT ")) with 4. change (len (str " ")) with 1. lia.
  - exists (str "PUT " ++ str t ++ str " " ++ l), b. by rewrite Hp -!app_assoc.
Qed.

(** The cluster serves the request the call stands for; a refused payload leaves it alone. *)
Definition serves (hops : nat) (o : wop) c σ c' : Prop :=
  match as_cop o with
  | Ok k => run_cop hops k c = ((spec_cop k σ).1, c')
  | _ => c' = c
  end.

Lemma run_put_ok hops i t payload c σ c' :
  wire_ok (WPut i t payload) → serves hops (WPut i t payload) c σ c' →
  run_wire hops (WPut i t payload) c = (wire_answer (WPut i t payload) (spec_wop (WPut i t payload) σ).1, c').
Proof.
  intros (Ht & Hl & Ha & Hd & Hp) Er. rewrite /serves /spec_wop in Er |- *. cbn [as_cop run_wire] in *.
  assert (command (str "PUT " ++ str t ++ str " " ++ payload)) as Hc by by apply put_is_command.
  pose proof (put_command json_state metrics_json hops i t payload c Ht) as Eh.
  destruct (payload_run payload Ha) as (r & Hrun & Hb & Hr). specialize (Hrun _ c). rewrite Hb in Er |- *.
  destruct r as [d|e| |]; [|subst c'|done..].
  - assert (handle_command json_state metrics_json hops i (str "PUT " ++ str t ++ str " " ++ payload) c
            = (append_for_topic hops i t d;; ret (str "OK")) c) as Eh'.
    { rewrite Eh. destruct (strip_0x payload); [|done]. by rewrite {1}/bind Hrun. }
    cbn [spec_cop] in Er |- *. destruct (σ !! t) as [q|].
    + apply unit_run in Er as (a & Er & _). apply simple_reply.
      apply send_raw_reply; [done|by rewrite Eh' /bind Er|by repeat constructor|done].
    + apply unit_run in Er. apply simple_error. destruct (err_short t Ht Hl) as [Ha' Hlen].
      apply (send_raw_error json_state metrics_json hops i _ c (IoError KOther ("unknown topic " +:+ t))); [done| |done|done].
      by rewrite Eh' /bind Er.
  - cbn [fst wire_answer]. apply simple_error. apply send_raw_error; [done| |apply Hr..].
    rewrite Eh. destruct (strip_0x payload); [|done]. by rewrite /bind Hrun.
Qed.

Lemma run_wire_ok hops o c σ c' :
  wire_ok o → bytes_held σ → serves hops o c σ c' →
  run_wire hops o c = (wire_answer o (spec_wop o σ).1, c').
Proof.
  intros Ho Hs Er. destruct o as [i t|i t d|i t]; [|by apply run_put_ok|]; rewrite /serves /spec_wop in Er |- *;
    cbn [as_cop run_cop run_wire spec_cop] in *.
  - destruct Ho as [Ht Hl]. apply unit_run in Er as (a & Er & _). apply simple_reply.
    apply send_raw_reply; [|by rewrite register_command // /bind Er|by repeat constructor|done].
    apply command_word; [by repeat constructor|done|]. change (len (str "REGISTER ")) with 9. rewrite /MAX_FRAME_LEN. lia.
  - destruct Ho as [Ht Hl].
    assert (command (str "GET " ++ str t)) as Hc.
    { apply command_word; [by repeat constructor|done|]. change (len (str "GET ")) with 4. rewrite /MAX_FRAME_LEN. lia. }
    rewrite /cli_get /bind. destruct (σ !! t) as [q|] eqn:Eq.
    + destruct q as [|d q]; cbn [head fst] in Er |- *.
      * rewrite (send_raw_reply json_state metrics_json hops i _ c (str "EMPTY") c'); [done| |by repeat constructor|done|done].
        by rewrite get_command // /bind Er.
      * assert (short_bytes d) as [Hb Hd] by (by specialize (Hs t _ Eq); inversion_clear Hs).
        destruct (ok_text d Hb Hd) as [Ha Hlen].
        rewrite (send_raw_reply json_state metrics_json hops i _ c (str "OK " ++ encode_hexstring d) c'); [done| |done|done|].
        { by rewrite get_command // /bind Er. }
        rewrite bool_decide_eq_false_2; [done|]. rewrite /strip_prefix bool_decide_eq_true_2 //.
    + destruct (err_short t Ht Hl) as [Ha Hlen].
      rewrite (send_raw_error json_state metrics_json hops i _ c (IoError KOther ("unknown topic " +:+ t)) c'); [done| |done|done|].
      { by rewrite get_command // /bind Er. }
      rewrite bool_decide_eq_false_2; [done|]. cbn [err_msg]. by rewrite /strip_prefix bool_decide_eq_false_2 // to_string_str.
Qed.

Lemma cluster_inv_le b b' ld c σ : cluster_inv b ld c σ → b' ≤ b → cluster_inv b' ld c σ.
Proof.
  intros (st & μ & cont & ? & ? & ? & Hd) Hb. exists st, μ, cont. split_and!; [done..|]. by eapply data_inv_le.
Qed.

Lemma serves_ok hops ld c σ b o :
  cluster_inv (b + 1) ld c σ → synced c → 0 ≤ b → b + 3 ≤ U64_MAX → wop_ok o →
  ∃ c', serves (S (S hops)) o c σ c' ∧ cluster_inv b ld c' (spec_wop o σ).2.
Proof.
  intros Hi Hsy Hb HbU Ho. rewrite /serves /spec_wop. specialize (Ho). rewrite /wop_ok in Ho.
  destruct (as_cop o) as [k| | |]; [by apply run_cop_ok, Ho|..];
    (exists c; split; [done|]; apply (cluster_inv_le (b + 1)); [done|lia]).
Qed.

(** The calls the gateway makes: the bytes are printed by the caller. *)
Definition of_cop (k : cop) : wop :=
  match k with
  | CRegister i t => WRegister i t
  | CPut i t d => WPut i t (encode_hexstring d)
  | CGet i t => WGet i t
  end.

Lemma payload_bytes_encode d : Forall is_byte d → payload_bytes (encode_hexstring d) = Ok d.
Proof.
  intros Hb. rewrite /payload_bytes. change (strip_0x (encode_hexstring d)) with (Some (hex_pairs d)). by rewrite parse_encode.
Qed.

Lemma put_of_bytes i t d :
  word t ∧ len (str t) ≤ 1000 → Forall is_byte d → 2 * len d ≤ MAX_FRAME_LEN - 1102 →
  wire_ok (of_cop (CPut i t d)) ∧ as_cop (of_cop (CPut i t d)) = Ok (CPut i t d).
Proof.
  intros [Ht Hl] Hb Hd. cbn. rewrite payload_bytes_encode //. split_and!; [done..|by apply encode_ascii|rewrite len_encode; lia| |done].
  by apply encode_last.
Qed.

(** C28: Programs that use the client library see queues. In a cluster that starts empty, whose
    consensus layer is available and whose replicas catch up between calls, any sequence of
    [register], [put] and [get] calls through any nodes, each over its own connection, as
    text in frames, is answered as by one first-in first-out queue for each registered topic. The payload of
    a [put] is any line of ASCII text: hexadecimal text appends the bytes it stands for, and any
    other text is refused with the message of the server and no effect. A [get] returns
    the hexadecimal text of the oldest entry or nothing, and a request on an unknown topic is an
    error that carries the server's message. *)
Theorem wire_refines_queues hops ld c st os :
  fresh_cluster (len os) ld c st → len os + 2 ≤ U64_MAX → Forall wop_ok os → Forall wire_ok os →
  (run_wires (S (S hops)) os c).1 = wire_answers os (spec_wops os ∅).1.
Proof.
  intros Hf Hl Hok Hw. destruct (fresh_cluster_inv _ _ _ _ Hf) as [Hinv Hsy].
  assert (bytes_held ∅) as Hs by apply map_Forall_empty. clear Hf st. revert Hinv Hsy Hs Hl Hok Hw.
  generalize (∅ : gmap string (list (list Z))) as σ. revert c.
  induction os as [|o os IH]; intros c σ Hinv Hsy Hs Hl Hok Hw; [done|].
  apply Forall_cons in Hok as [Ho Hos]. apply Forall_cons in Hw as [Hwo Hws].
  rewrite len_cons in Hinv Hl. pose proof (len_nonneg os). rewrite Z.add_comm in Hinv.
  destruct (serves_ok hops ld c σ (len os) o) as (c1 & E1 & Hi1); [done..|lia|done|].
  destruct (sync_ok _ _ _ _ Hi1) as [Hi2 Hs2].
  pose proof (run_wire_ok (S (S hops)) o c σ c1 Hwo Hs E1) as Ew. cbn [run_wires spec_wops]. rewrite Ew.
  specialize (IH (sync c1) (spec_wop o σ).2 Hi2 Hs2 (spec_wop_bytes o σ Hwo Hs) ltac:(lia) Hos Hws).
  destruct (spec_wop o σ) as [r σ1]. cbn in IH |- *. destruct (run_wires (S (S hops)) os (sync c1)) as [rs c2].
  destruct (spec_wops os σ1) as [rs' σ2]. cbn in *. by rewrite IH.
Qed.
End wire_queues.
