(* ===== verification/Gateway.v ===== *)
(** The JSON-RPC gateway, [src/rpc-gateway/src/main.rs], between wallets and the cluster, and
    the way of a transaction from the gateway to the pool of the block producer.

    The gateway writes the JSON of a transaction in hexadecimal to its topic through the client library,
    and answers questions about nonces and block numbers from the producer's database. JSON is a
    parameter; permits, time-outs and metrics are not modelled. With a batch processor, which is the default,
    a call only hands its text to a task that writes batches; [gateway_event] has the calls and
    the turns of that task. *)

From S2P Require Import Prelude Config Metadata WalKey Bucket Controller ClusterInv ClusterOps ClusterQueues Client CliClient SortBy StateDb RedbDb RedbOk TxData Trie Executor Producer.

#[local] Open Scope walrus_scope.
#[local] Open Scope Z_scope.

(** * The gateway *)

(** The transaction a wallet sends: the queued one and a gas price. *)
Record GwTx := MkGwTx { gw_tx : RawTx; gw_gas_price : option text }.

Inductive RpcError :=
  | InvalidParams
  | SerializationError
  | WalrusConnectionFailed
  | WalrusWriteFailed
  | RequestTimeout
  | InternalError.

Definition rpc_code (e : RpcError) : Z :=
  match e with
  | InvalidParams => -32602
  | SerializationError => -32000
  | WalrusConnectionFailed => -32002
  | WalrusWriteFailed => -32003
  | RequestTimeout => -32008
  | InternalError => -32603
  end.

Class GatewayLib := { gw_json : GwTx → Bytes }.

(** [str::contains]. *)
Fixpoint contains (needle s : list Z) : bool :=
  bool_decide (take (length needle) s = needle) || match s with [] => false | _ :: s => contains needle s end.

Definition ensure_hex_format (data : text) : text :=
  match strip_0x data with
  | Some _ => data
  | None => str "0x" ++ data
  end.

(** A task of the batch processor: the text to write, and the request that waits for the answer. *)
Record BatchTask := MkTask { task_request : nat; task_data : text }.

Section gateway.
Context {E : Type} `{Engine E} `{Bincode MetadataCmd, Bincode ClusterState}
        `{Bincode InternalOp} `{Bincode InternalResp}.
Context `{TextLib} `{GatewayLib}.
Variable json_state : TopicState → string.
Variable metrics_json : Z → Cluster E → string.
Variable hops : nat.
Variable node : Z.
Variable default_topic : string.
(** The largest batch, if there is a batch processor. *)
Variable batch_processor : option Z.

(** The channel of the batch processor, the batch its task collects, and the answers given so
    far, by the number of the request. *)
Record Gateway := MkGateway {
  cluster : Cluster E;
  topic_registered : bool;
  channel : list BatchTask;
  batch : list BatchTask;
  requests : nat;
  responses : gmap nat (RpcError + text);
}.

Definition new_gateway (c : Cluster E) : Gateway := MkGateway c false [] [] 0 ∅.
Definition set_cluster (c : Cluster E) (g : Gateway) : Gateway :=
  MkGateway c (topic_registered g) (channel g) (batch g) (requests g) (responses g).
Definition set_registered (g : Gateway) : Gateway :=
  MkGateway (cluster g) true (channel g) (batch g) (requests g) (responses g).
Definition set_tasks (ch b : list BatchTask) (g : Gateway) : Gateway :=
  MkGateway (cluster g) (topic_registered g) ch b (requests g) (responses g).

(** The caller of request [i] gets its answer. *)
Definition respond (i : nat) (r : RpcError + text) (g : Gateway) : Gateway :=
  MkGateway (cluster g) (topic_registered g) (channel g) (batch g) (requests g) (<[i := r]> (responses g)).
Definition new_request (g : Gateway) : Gateway :=
  MkGateway (cluster g) (topic_registered g) (channel g) (batch g) (S (requests g)) (responses g).

(** A request of the client library. Replication catches up before the next one. *)
Definition request {A} (m : M (Cluster E) A) : M Gateway A := λ g,
  let '(r, c) := m (cluster g) in (r, set_cluster (sync c) g).

Definition ensure_topic_registered : M Gateway (RpcError + unit) :=
  let! g := getS in
  if topic_registered g then ret (inr tt)
  else
    let registered := modify set_registered;; ret (inr tt) in
    let! r := catch (request (cli_register json_state metrics_json hops node (str default_topic))) in
    match r with
    | inl _ => registered
    | inr msg =>
        if contains (str "already exists") (str msg) || contains (str "already registered") (str msg) then registered
        else ret (inl WalrusWriteFailed)
    end.

(** The hash the caller gets: of the hexadecimal text. *)
Definition response_hash (hex_data : text) : text := str "0x" ++ hex_encode (be_bytes 32 (sha256 hex_data)).

Definition write_to_walrus (hex_data : text) : M Gateway (RpcError + text) :=
  let! r := catch (request (cli_put json_state metrics_json hops node (str default_topic) hex_data)) in
  match r with
  | inl _ => ret (inr (response_hash hex_data))
  | inr _ => ret (inl WalrusWriteFailed)
  end.

(** ** The batch processor *)

(** The writes of a batch, in the order in which the cluster serves them. *)
Fixpoint write_tasks (served : list BatchTask) : M Gateway (list (nat * (RpcError + text))) :=
  match served with
  | [] => ret []
  | task :: served =>
      let! r := write_to_walrus (task_data task) in
      let! results := write_tasks served in
      ret ((task_request task, r) :: results)
  end.

Fixpoint send_responses (results : list (nat * (RpcError + text))) (g : Gateway) : Gateway :=
  match results with
  | [] => g
  | (i, r) :: results => send_responses results (respond i r g)
  end.

(** [process_batch]: the writes run concurrently; [order] is the order in which the cluster
    happens to serve them. The callers get their answers when all are done. *)
Definition process_batch (order : list BatchTask → list BatchTask) : M Gateway unit :=
  let! g := getS in
  match batch g with
  | [] => ret tt
  | tasks =>
      modify (set_tasks (channel g) []);;
      let! results := write_tasks (order tasks) in
      modify (send_responses results)
  end.

(** The two arms of the loop: a task arrives, and the timer fires. *)
Definition batch_recv (max_batch_size : Z) (order : list BatchTask → list BatchTask) : M Gateway unit :=
  let! g := getS in
  match channel g with
  | [] => ret tt
  | task :: ch =>
      modify (set_tasks ch (batch g ++ [task]));;
      if max_batch_size <=? len (batch g ++ [task]) then process_batch order else ret tt
  end.

Definition batch_tick (order : list BatchTask → list BatchTask) : M Gateway unit := process_batch order.

(** [submit]. The request then waits; a full channel only delays it. *)
Definition submit (i : nat) (data : text) : M Gateway unit :=
  modify (λ g, set_tasks (channel g ++ [MkTask i data]) (batch g) g).

(** ** Transactions *)

(** Request [i]: its answer comes at once or, through the batch processor, later. *)
Definition process_hex (i : nat) (hex_data : text) : M Gateway unit :=
  let! r := ensure_topic_registered in
  match r with
  | inl e => modify (respond i (inl e))
  | inr _ =>
      match batch_processor with
      | Some _ => submit i hex_data
      | None => let! r := write_to_walrus hex_data in modify (respond i r)
      end
  end.

Definition process_raw_transaction (i : nat) (data : text) : M Gateway unit := process_hex i (ensure_hex_format data).

Definition process_transaction (i : nat) (tx : GwTx) : M Gateway unit :=
  process_hex i (ensure_hex_format (hex_encode (gw_json tx))).

(** What happens to a gateway: calls of wallets and turns of the loop of the batch processor. *)
Inductive GwEvent :=
  | SendTransaction (tx : GwTx)
  | SendRawTransaction (data : text)
  | BatchRecv (order : list BatchTask → list BatchTask)
  | BatchTick (order : list BatchTask → list BatchTask).

Definition gateway_event (ev : GwEvent) : M Gateway unit :=
  let! g := getS in
  match ev with
  | SendTransaction tx => modify new_request;; process_transaction (requests g) tx
  | SendRawTransaction data => modify new_request;; process_raw_transaction (requests g) data
  | BatchRecv order => match batch_processor with Some m => batch_recv m order | None => ret tt end
  | BatchTick order => match batch_processor with Some _ => batch_tick order | None => ret tt end
  end.

Fixpoint run_gateway (evs : list GwEvent) : M Gateway unit :=
  match evs with
  | [] => ret tt
  | ev :: evs => gateway_event ev;; run_gateway evs
  end.

Definition health : M Gateway (RpcError + text) :=
  let! r := catch (request (cli_metrics json_state metrics_json hops node)) in
  match r with
  | inl _ => ret (inr (str "OK"))
  | inr _ => ret (inl WalrusConnectionFailed)
  end.

(** * Questions about the chain *)

(** [format!("0x{:x}", n)]. *)
Definition hex_number (n : Z) : text := str "0x" ++ Config.Namespace.format_x n.

(** [get_transaction_count]: [opened] is the producer's database, or nothing when it cannot be
    opened, as while the producer holds it. *)
Definition get_transaction_count `{Bincode Account} (address : text) (opened : option RedbStateDB) : RpcError + text :=
  match hex_decode (trim_0X (trim_0x address)) with
  | None => inl InvalidParams
  | Some addr_bytes =>
      if negb (len addr_bytes =? 20) then inl InvalidParams
      else
        let n := match opened with
                 | Some d =>
                     match (get_account (from_be_bytes addr_bytes) d).1 with
                     | Good (Some acc) => nonce acc
                     | _ => 0
                     end
                 | None => 0
                 end in
        inr (hex_number n)
  end.

(** The search of [block_number]: the last of the blocks 0, 1, 2, .. that follow each other. *)
Fixpoint find_latest `{Bincode Block} (turns : nat) (i found : Z) (d : RedbStateDB) : Z :=
  match turns with
  | O => found
  | S turns =>
      match get_block (Block := Block) i d with
      | (Good (Some _), d') => find_latest turns (i + 1) i d'
      | _ => found
      end
  end.

Definition block_number `{Bincode Block} (opened : option RedbStateDB) : text :=
  match opened with
  | Some d => hex_number (find_latest (Z.to_nat 1000000) 0 0 d)
  | None => str "0x0"
  end.
End gateway.
Arguments Gateway : clear implicits.
