(* ===== verification/GatewayOk.v ===== *)
(** From a wallet to the pool: a transaction accepted by the gateway travels as JSON in
    hexadecimal through the client library, the listener and the cluster to the block producer.
    The theorems compose the gateway, the client library, the distributed layer and the producer. *)

From S2P Require Import Prelude Config Metadata WalKey Bucket Controller ClusterInv ClusterOps ClusterQueues Client CliClient SortBy StateDb RedbDb RedbOk TxData Trie Executor Producer ProducerOk Gateway.

#[local] Open Scope walrus_scope.
#[local] Open Scope Z_scope.

Section pipeline.
Context {Eng : Type} `{QueueEngine Eng}.
Context `{BincodeLaws MetadataCmd, Bincode ClusterState, BincodeLaws InternalOp, BincodeLaws InternalResp, NodeIds}.
Context `{TextLaws} `{GatewayLib} `{ProducerLib}.
Variable json_state : TopicState → string.
Variable metrics_json : Z → Cluster Eng → string.
Variable hops : nat.
Variables node reader : Z.
Variable t : string.
Hypothesis node_ok : node ∈ node_ids.
Hypothesis reader_ok : reader ∈ node_ids.
Hypothesis topic_ok : word t ∧ len (str t) ≤ 1000.

Implicit Types (c : Cluster Eng) (g : Gateway Eng).

(** * The topic as the source of the producer *)

(** [CliClient::get] on the topic. Replication catches up before the next request. *)
Definition cluster_source : TxSource (Cluster Eng) := MkSource (λ c,
  match cli_get json_state metrics_json (S (S hops)) reader (str t) c with
  | (Ok r, c') => (inr r, sync c')
  | (Err e, c') => (inl e, sync c')
  | (_, c') => (inl (IoError KOther "connection lost"), sync c')
  end).

(** The cluster works and the topic holds [q]. *)
Definition topic_holds c (q : list (list Z)) : Prop := ∃ b ld σ,
  cluster_inv b ld c σ ∧ synced c ∧ 0 ≤ b ∧ bytes_held σ ∧ σ !! t = Some q.

Lemma members_reader b ld c σ : cluster_inv b ld c σ → is_Some (members c !! reader).
Proof. intros (st & μ & cont & Hh & _). by apply (he_ids _ _ _ Hh). Qed.

Lemma topic_get c q :
  topic_holds c q →
  ∃ c', cli_get json_state metrics_json (S (S hops)) reader (str t) c = (Ok (encode_hexstring <$> head q), c') ∧
    topic_holds (sync c') (tail q).
Proof.
  intros (b & ld & σ & Hi & Hsy & Hb & Hby & Hq).
  destruct (read_shared_ok (S hops) ld c σ q b reader t Hi Hsy Hb (members_reader _ _ _ _ Hi) Hq) as (c' & Er & Hi').
  assert (run_cop (S (S hops)) (CGet reader t) c = ((spec_cop (CGet reader t) σ).1, c')) as Ec by (cbn; rewrite Hq; exact Er).
  pose proof (run_wire_ok json_state metrics_json (S (S hops)) (WGet reader t) c σ c' topic_ok Hby Ec) as Ew.
  cbn in Ew. rewrite /spec_wop /= Hq /= in Ew. exists c'. split; [exact Ew|].
  destruct (sync_ok _ _ _ _ Hi') as [Hi2 Hs2]. exists b, ld, (<[t := tail q]> σ). split_and!; [done|done|done| |by rewrite lookup_insert_eq].
  apply map_Forall_insert_2; [|done]. apply Forall_tail. by apply (Hby t).
Qed.

Lemma cluster_source_laws :
  SourceLaws cluster_source (λ c q, ∃ qs, topic_holds c qs ∧ q = encode_hexstring <$> qs).
Proof.
  split. intros c q (qs & Hq & ->). destruct (topic_get c qs Hq) as (c' & E1 & Hq'). exists (sync c').
  rewrite /cluster_source /= E1. destruct qs as [|d qs]; (split; [done|]); eexists; by split.
Qed.

(** * The gateway *)

Variable batch_processor : option Z.
Abbreviation write_to_walrus := (write_to_walrus json_state metrics_json (S (S hops)) node t).
Abbreviation run_gateway := (run_gateway json_state metrics_json (S (S hops)) node t batch_processor).
Abbreviation gateway_event := (gateway_event json_state metrics_json (S (S hops)) node t batch_processor).

(** The cluster works and the topic, if it is registered, holds [q]. *)
Definition gw_inv (b : Z) c (reg : bool) (q : list (list Z)) : Prop := ∃ ld σ,
  cluster_inv b ld c σ ∧ synced c ∧ bytes_held σ ∧ default [] (σ !! t) = q ∧ (reg = true → is_Some (σ !! t)).

Lemma gw_inv_le b b' c reg q : gw_inv b c reg q → b' ≤ b → gw_inv b' c reg q.
Proof. intros (ld & σ & Hi & ?) Hb. exists ld, σ. split; [by eapply cluster_inv_le|done]. Qed.

(** A transaction whose JSON fits in a command, and is read back by the producer without the
    gas price. *)
Definition tx_ok (tx : GwTx) : Prop :=
  Forall is_byte (gw_json tx) ∧ 2 * len (gw_json tx) ≤ MAX_FRAME_LEN - 1102 ∧ utf8_valid (gw_json tx) = true ∧
  tx_from_json (gw_json tx) = Some (gw_tx tx) ∧ ∀ k, is_u64 k → accepts (wal_key t k) (gw_json tx).

Lemma gw_request b c σ ld k r :
  cluster_inv (b + 1) ld c σ → synced c → bytes_held σ → 0 ≤ b → b + 3 ≤ U64_MAX →
  cop_ok k → wire_ok (of_cop k) → as_cop (of_cop k) = Ok k → (spec_cop k σ).1 = Ok r →
  ∃ c', run_wire json_state metrics_json (S (S hops)) (of_cop k) c = (Ok (encode_hexstring <$> r), c') ∧
    cluster_inv b ld (sync c') (spec_cop k σ).2 ∧ synced (sync c') ∧ bytes_held (spec_cop k σ).2.
Proof.
  intros Hi Hsy Hby Hb HbU Hc Hw Hk Hr. destruct (run_cop_ok hops ld c σ b k Hi Hsy Hb HbU Hc) as (c' & E1 & Hi').
  assert (spec_wop (of_cop k) σ = spec_cop k σ) as Es by by rewrite /spec_wop Hk.
  pose proof (run_wire_ok json_state metrics_json (S (S hops)) (of_cop k) c σ c' Hw Hby) as Ew.
  rewrite /serves Hk Es Hr /= in Ew. specialize (Ew ltac:(by rewrite E1 Hr)).
  destruct (sync_ok _ _ _ _ Hi') as [Hi2 Hs2]. exists c'. split_and!; [done..|]. rewrite -Es. by apply spec_wop_bytes.
Qed.

Lemma unit_call (m : M (Cluster Eng) unit) c (x : option (list Z)) c' :
  (m;; ret None) c = (Ok x, c') → m c = (Ok tt, c').
Proof. rewrite /bind. by destruct (m c) as [[[]|e| |] c1]; intros [= _ <-]. Qed.

Lemma register_ok b g q :
  gw_inv (b + 1) (cluster g) (topic_registered g) q → 0 ≤ b → b + 3 ≤ U64_MAX →
  ∃ c', ensure_topic_registered json_state metrics_json (S (S hops)) node t g = (Ok (inr tt), set_registered (set_cluster c' g)) ∧
    gw_inv b c' true q.
Proof.
  intros Hg Hb HbU. rewrite /ensure_topic_registered /bind /getS /=. destruct (topic_registered g) eqn:Er.
  - exists (cluster g). split; [by destruct g; cbn in *; subst|]. eapply gw_inv_le; [exact Hg|lia].
  - destruct Hg as (ld & σ & Hi & Hsy & Hby & Hq & _).
    destruct (gw_request b (cluster g) σ ld (CRegister node t) None Hi Hsy Hby Hb HbU node_ok topic_ok eq_refl eq_refl)
      as (c' & E1 & Hi' & Hsy' & Hby').
    apply unit_call in E1. rewrite /catch /request E1 /=. exists (sync c'). split; [done|].
    exists ld, (spec_cop (CRegister node t) σ).2. cbn in *. split_and!; [done..| |].
    + destruct (σ !! t) as [q'|] eqn:Eq; [by rewrite Eq|by rewrite lookup_insert_eq -Hq].
    + intros _. destruct (σ !! t) as [q'|] eqn:Eq; [by rewrite Eq|by rewrite lookup_insert_eq].
Qed.

Lemma hex_format_pairs d : Forall is_byte d → ensure_hex_format (hex_encode d) = encode_hexstring d.
Proof.
  intros Hd. rewrite hex_encode_pairs // /ensure_hex_format. destruct Hd as [|x d Hx _]; [done|]. rewrite hex_pairs_cons.
  destruct (byte_nibbles x Hx) as (_ & Hn & _). assert (strip_0x (hex_digit (x / 16) :: hex_digit (x mod 16) :: hex_pairs d) = None) as ->; [|done].
  rewrite /strip_0x. assert (hex_digit (x mod 16) ≠ 120 ∧ hex_digit (x mod 16) ≠ 88) as [Hx1 Hx2].
  { rewrite /hex_digit. case_match; lia. }
  revert Hx1 Hx2. generalize (hex_digit (x mod 16)), (hex_digit (x / 16)). intros y z Hx1 Hx2. repeat case_match; congruence.
Qed.

(** The text a transaction is written as, and the answer of a caller. *)
Definition tx_text (tx : GwTx) : text := encode_hexstring (gw_json tx).
Definition tx_answer (tx : GwTx) : RpcError + text := inr (response_hash (tx_text tx)).

Lemma write_ok b g q tx :
  gw_inv (b + 1) (cluster g) true q → 0 ≤ b → b + 3 ≤ U64_MAX → tx_ok tx →
  ∃ c', write_to_walrus (tx_text tx) g = (Ok (tx_answer tx), set_cluster c' g) ∧ gw_inv b c' true (q ++ [gw_json tx]).
Proof.
  intros (ld & σ & Hi & Hsy & Hbytes & Hq & Hreg) Hb HbU (Hby & Hl & _ & _ & Ha). destruct (Hreg eq_refl) as [q' Eq].
  rewrite Eq /= in Hq. subst q'. destruct (put_of_bytes node t (gw_json tx) topic_ok Hby Hl) as [Hw Hk].
  destruct (gw_request b (cluster g) σ ld (CPut node t (gw_json tx)) None) as (c' & E1 & Hi' & Hsy' & Hby'); [done|done|done|done|done| |done|done|by rewrite /= Eq|].
  { split; [exact node_ok|exact Ha]. }
  apply unit_call in E1. exists (sync c'). rewrite /Gateway.write_to_walrus /bind /catch /request E1 /=. split; [done|].
  rewrite /= Eq in Hi' Hby'. exists ld, (<[t := q ++ [gw_json tx]]> σ). rewrite lookup_insert_eq. by split_and!.
Qed.

(** ** Batches *)

Section transactions.
(** The transactions of the requests 0, 1, 2, ... *)
Variable txs : list GwTx.
Hypothesis txs_ok : Forall tx_ok txs.

Definition picked (ids : list nat) : list GwTx := omap (λ i, txs !! i) ids.

Lemma picked_app ids1 ids2 : picked (ids1 ++ ids2) = picked ids1 ++ picked ids2.
Proof. apply omap_app. Qed.

(** A task carries the text of its request. *)
Definition task_ok (task : BatchTask) : Prop := ∃ tx, txs !! task_request task = Some tx ∧ task_data task = tx_text tx.

Lemma write_tasks_ok tasks b g q :
  gw_inv (b + len tasks) (cluster g) true q → 0 ≤ b → b + len tasks + 3 ≤ U64_MAX → Forall task_ok tasks →
  ∃ c', write_tasks json_state metrics_json (S (S hops)) node t tasks g
        = (Ok (omap (λ task, (λ tx, (task_request task, tx_answer tx)) <$> txs !! task_request task) tasks), set_cluster c' g) ∧
    gw_inv b c' true (q ++ (gw_json <$> picked (task_request <$> tasks))).
Proof.
  intros Hi Hb HbU Hok. revert g q Hi HbU. induction Hok as [|task tasks (tx & Ht & Hd) Hok IH]; intros g q Hi HbU.
  - exists (cluster g). rewrite app_nil_r. rewrite len_nil Z.add_0_r in Hi. by destruct g.
  - rewrite len_cons in Hi HbU. pose proof (len_nonneg tasks). assert (tx_ok tx) as Htx by by eapply Forall_lookup_1.
    destruct (write_ok (b + len tasks) g q tx) as (c1 & E1 & Hi1); [|lia|lia|done|].
    { by replace (b + len tasks + 1) with (b + (1 + len tasks)) by lia. }
    destruct (IH (set_cluster c1 g) (q ++ [gw_json tx]) Hi1) as (c2 & E2 & Hi2); [lia|].
    exists c2. cbn [Gateway.write_tasks fmap list_fmap]. rewrite Hd /bind E1 E2. cbn [omap list_omap]. rewrite Ht. split; [done|].
    rewrite -app_assoc in Hi2. cbn in Hi2. rewrite /picked. cbn [fmap list_fmap omap list_omap]. rewrite Ht. exact Hi2.
Qed.

(** The answers of served tasks. *)
Definition answers_of (ids : list nat) : list (nat * (RpcError + text)) :=
  omap (λ i, (λ tx, (i, tx_answer tx)) <$> txs !! i) ids.

Lemma send_responses_ok ids g :
  ∃ rs, send_responses (answers_of ids) g
        = MkGateway (cluster g) (topic_registered g) (channel g) (batch g) (requests g) rs ∧
    ∀ i, rs !! i = if decide (i ∈ ids ∧ (i < length txs)%nat) then tx_answer <$> txs !! i else responses g !! i.
Proof.
  revert g. induction ids as [|j ids IH]; intros g.
  { exists (responses g). split; [by destruct g|]. intros i. case_decide as Hd; [destruct Hd; set_solver|done]. }
  rewrite /answers_of /=. destruct (txs !! j) as [tx|] eqn:Ej; cbn [fmap option_fmap option_map].
  - destruct (IH (respond j (tx_answer tx) g)) as (rs & E1 & Hrs). exists rs. split; [exact E1|]. intros i. rewrite Hrs /=.
    apply lookup_lt_Some in Ej as Hj. destruct (decide (i = j)) as [->|Hne].
    + rewrite (decide_True (P := j ∈ j :: ids ∧ _)); [split; [set_solver|done]|]. rewrite lookup_insert_eq Ej. by case_decide.
    + rewrite lookup_insert_ne //. apply decide_ext. set_solver.
  - destruct (IH g) as (rs & E1 & Hrs). exists rs. split; [exact E1|]. intros i. rewrite Hrs. apply decide_ext.
    apply lookup_ge_None in Ej. rewrite elem_of_cons. split; [naive_solver|]. intros [[->|?] ?]; [lia|done].
Qed.

(** ** The state of a gateway that has seen the first [k] transactions *)

Definition largest : Z := Z.max 1 (default 1 batch_processor).
Definition waiting (g : Gateway Eng) : list BatchTask := batch g ++ channel g.

(** The batches that are written, and the order in which the cluster has served each. *)
Record gw_state (b : Z) (g : Gateway Eng) (k : nat) (batches served : list (list nat)) : Prop := {
  gs_topic : gw_inv (b + len (waiting g)) (cluster g) (topic_registered g) (gw_json <$> picked (concat served));
  gs_ids : concat batches ++ (task_request <$> waiting g) = seq 0 k;
  gs_served : Forall2 (≡ₚ) batches served;
  gs_sizes : Forall (λ l, 0 < len l ≤ largest) batches;
  gs_batch : len (batch g) < largest;
  gs_tasks : Forall task_ok (waiting g);
  gs_none : batch_processor = None → waiting g = [];
  gs_requests : requests g = k;
  gs_registered : (0 < k)%nat → topic_registered g = true;
  gs_responses : ∀ i, responses g !! i = if decide (i ∈ concat batches) then tx_answer <$> txs !! i else None;
  gs_count : (k ≤ length txs)%nat;
}.

(** Some tasks at the head of the queue are written. *)
Lemma write_batch_ok b g k batches served tasks rest order :
  gw_state b g k batches served → waiting g = tasks ++ rest → order tasks ≡ₚ tasks → 0 < len tasks ≤ largest →
  0 ≤ b → b + len (waiting g) + 3 ≤ U64_MAX → topic_registered g = true →
  ∃ g', (let! results := write_tasks json_state metrics_json (S (S hops)) node t (order tasks) in
         modify (send_responses results)) (set_tasks rest [] g) = (Ok tt, g') ∧
    gw_state b g' k (batches ++ [task_request <$> tasks]) (served ++ [task_request <$> order tasks]) ∧
    batch g' = [] ∧ channel g' = rest.
Proof.
  intros [Hg Hids Hsv Hsz Hbt Htk Hno Hrq Hrg Hrs Hk] Hw Ho Hlen Hb HbU Hreg. rewrite Hw in Hg Hids Htk HbU. 
  apply Forall_app in Htk as [Htasks Hrest]. rewrite len_app in Hg HbU. pose proof (len_nonneg rest).
  assert (len (order tasks) = len tasks) as Hlo by (unfold len; by rewrite Ho).
  destruct (write_tasks_ok (order tasks) (b + len rest) (set_tasks rest [] g) (gw_json <$> picked (concat served)))
    as (c' & E1 & Hg'); [|lia|lia|by rewrite Ho|].
  { rewrite Hlo. cbn. rewrite Hreg in Hg. by replace (b + len rest + len tasks) with (b + (len tasks + len rest)) by lia. }
  rewrite /bind E1 /modify.
  assert (∀ l, omap (λ task, (λ tx, (task_request task, tx_answer tx)) <$> txs !! task_request task) l
               = answers_of (task_request <$> l)) as Ha.
  { intros l. rewrite /answers_of. induction l as [|task l IH]; [done|]. cbn in IH |- *. by rewrite IH. }
  rewrite Ha. destruct (send_responses_ok (task_request <$> order tasks) (set_cluster c' (set_tasks rest [] g))) as (rs & E2 & Hrs').
  eexists. split; [by rewrite E2|]. cbn. rewrite fmap_app app_assoc in Hids.
  assert (∀ i, i ∈ task_request <$> order tasks ↔ i ∈ task_request <$> tasks) as Hin by (intros i; by rewrite Ho).
  split; [|done]. split; cbn; try done.
  - rewrite /waiting /= concat_app /= app_nil_r picked_app fmap_app Hreg. exact Hg'.
  - by rewrite concat_app /= app_nil_r.
  - apply Forall2_app; [done|]. constructor; [|constructor]. by rewrite Ho.
  - apply Forall_app. split; [done|]. apply Forall_singleton. by rewrite /len length_fmap.
  - rewrite len_nil /largest. lia.
  - intros Hn. specialize (Hno Hn). rewrite Hw in Hno. by apply app_eq_nil in Hno as [_ ->].
  - intros i. rewrite Hrs' /= concat_app /= app_nil_r Hrs.
    assert (∀ j, j ∈ task_request <$> tasks → (j < length txs)%nat) as Hlt.
    { intros j (task & -> & Hj)%list_elem_of_fmap. rewrite Forall_forall in Htasks. destruct (Htasks task Hj) as (tx & Ht & _).
      by apply lookup_lt_Some in Ht. }
    destruct (decide (i ∈ task_request <$> tasks)) as [Hi|Hi].
    + rewrite decide_True; [split; [by apply Hin|by apply Hlt]|]. rewrite decide_True //. set_solver.
    + rewrite decide_False; [intros [?%Hin _]; done|]. apply decide_ext. set_solver.
Qed.
Lemma process_batch_ok b g k batches served order :
  gw_state b g k batches served → (∀ l, order l ≡ₚ l) → 0 ≤ b → b + len (waiting g) + 3 ≤ U64_MAX →
  ∃ g' batches' served', process_batch json_state metrics_json (S (S hops)) node t order g = (Ok tt, g') ∧
    gw_state b g' k batches' served' ∧ batch g' = [] ∧ channel g' = channel g.
Proof.
  intros Hg Ho Hb HbU. rewrite /process_batch {1}/bind /getS. destruct (batch g) as [|task tasks] eqn:Eb.
  { exists g, batches, served. by split. }
  assert (topic_registered g = true) as Hreg.
  { apply (gs_registered _ _ _ _ _ Hg). pose proof (gs_ids _ _ _ _ _ Hg) as Hids. rewrite /waiting Eb in Hids.
    destruct k; [|lia]. apply (f_equal length) in Hids. rewrite length_app /= in Hids. lia. }
  destruct (write_batch_ok b g k batches served (task :: tasks) (channel g) order Hg) as (g' & E1 & Hg' & H'); try done.
  - by rewrite /waiting Eb.
  - pose proof (gs_batch _ _ _ _ _ Hg) as Hl. rewrite Eb in Hl. split; [rewrite len_cons; pose proof (len_nonneg tasks)|]; lia.
  - exists g'. do 2 eexists. split; [|by split]. rewrite {1}/bind {1}/modify. exact E1.
Qed.

Lemma gw_state_move b g k batches served ch bt :
  gw_state b g k batches served → bt ++ ch = waiting g → len bt < largest → gw_state b (set_tasks ch bt g) k batches served.
Proof. intros [Hg Hids Hsv Hsz Hbt Htk Hno Hrq Hrg Hrs Hk] Hw Hl. split; rewrite /waiting /= ?Hw; done. Qed.

Lemma batch_recv_ok b g k batches served m order :
  gw_state b g k batches served → batch_processor = Some m → (∀ l, order l ≡ₚ l) → 0 ≤ b → b + len (waiting g) + 3 ≤ U64_MAX →
  ∃ g' batches' served', batch_recv json_state metrics_json (S (S hops)) node t m order g = (Ok tt, g') ∧
    gw_state b g' k batches' served' ∧ channel g' = tail (channel g).
Proof.
  intros Hg Hm Ho Hb HbU. rewrite /batch_recv {1}/bind /getS. destruct (channel g) as [|task ch] eqn:Ec.
  { exists g, batches, served. by rewrite Ec. }
  assert ((batch g ++ [task]) ++ ch = waiting g) as Hw by by rewrite -app_assoc /waiting Ec.
  rewrite {1}/bind {1}/modify. pose proof (gs_batch _ _ _ _ _ Hg) as Hl.
  destruct (Z.leb_spec m (len (batch g ++ [task]))) as [Hle|Hlt].
  2: { exists (set_tasks ch (batch g ++ [task]) g), batches, served. split; [done|]. split; [|done].
       apply gw_state_move; [done..|]. rewrite /largest Hm /=. lia. }
  assert (topic_registered g = true) as Hreg.
  { apply (gs_registered _ _ _ _ _ Hg). pose proof (gs_ids _ _ _ _ _ Hg) as Hids. rewrite -Hw in Hids.
    destruct k; [|lia]. apply (f_equal length) in Hids. rewrite length_app !fmap_app !length_app /= in Hids. lia. }
  rewrite /process_batch {1}/bind /getS /=. destruct (batch g ++ [task]) as [|x tasks] eqn:Eb; [by destruct (batch g)|].
  destruct (write_batch_ok b g k batches served (x :: tasks) ch order Hg) as (g' & E1 & Hg' & _ & Hc); try done.
  - rewrite -Eb len_app len_cons len_nil. pose proof (len_nonneg (batch g)). lia.
  - exists g'. do 2 eexists. split; [|by split]. rewrite {1}/bind {1}/modify. exact E1.
Qed.

(** A transaction arrives. *)
Lemma process_hex_ok b g k batches served tx :
  gw_state (b + 2) g k batches served → txs !! k = Some tx → 0 ≤ b → b + 2 + len (waiting g) + 3 ≤ U64_MAX →
  ∃ g' batches' served',
    process_hex json_state metrics_json (S (S hops)) node t batch_processor k (tx_text tx) (new_request g) = (Ok tt, g') ∧
    gw_state b g' (S k) batches' served'.
Proof.
  intros [Hg Hids Hsv Hsz Hbt Htk Hno Hrq Hrg Hrs Hk] Ht Hb HbU. pose proof (len_nonneg (waiting g)).
  apply lookup_lt_Some in Ht as Hlt. assert (tx_ok tx) as Htx by by eapply Forall_lookup_1.
  destruct (register_ok (b + 1 + len (waiting g)) (new_request g) (gw_json <$> picked (concat served))) as (c1 & E1 & Hg1); [|lia|lia|].
  { by replace (b + 1 + len (waiting g) + 1) with (b + 2 + len (waiting g)) by lia. }
  rewrite /process_hex {1}/bind E1. destruct batch_processor as [m|] eqn:Em.
  - eexists _, batches, served. split; [done|].
    split; rewrite ?/waiting /=; try done.
    + rewrite app_assoc len_app len_cons len_nil -/(waiting g). by replace (b + (len (waiting g) + (1 + 0))) with (b + 1 + len (waiting g)) by lia.
    + rewrite app_assoc -/(waiting g) fmap_app app_assoc Hids.
      change (0%nat :: seq 1 k) with (seq 0 (S k)). by rewrite seq_S.
    + rewrite app_assoc. apply Forall_app. split; [done|]. apply Forall_singleton. by exists tx.
    + by rewrite Em.
    + by rewrite Hrq.
  - specialize (Hno eq_refl). rewrite Hno in Hids, Hg1, HbU |- *. rewrite /= app_nil_r in Hids. rewrite len_nil Z.add_0_r in Hg1.
    destruct (write_ok b (set_registered (set_cluster c1 (new_request g))) (gw_json <$> picked (concat served)) tx Hg1)
      as (c2 & E2 & Hg2); [lia|rewrite len_nil in HbU; lia|done|].
    rewrite /bind E2 /modify. eexists _, (batches ++ [[k]]), (served ++ [[k]]). split; [done|].
    split; rewrite ?/waiting /= -?/(waiting g) ?Hno; try done.
    + rewrite len_nil Z.add_0_r concat_app /= picked_app {2}/picked /= Ht fmap_app. exact Hg2.
    + rewrite concat_app /= app_nil_r Hids. change (0%nat :: seq 1 k) with (seq 0 (S k)). by rewrite seq_S.
    + apply Forall2_app; [done|]. by constructor.
    + apply Forall_app. split; [done|]. apply Forall_singleton. rewrite len_cons len_nil /largest. lia.
    + by rewrite Hrq.
    + intros i. rewrite concat_app /=. destruct (decide (i = k)) as [->|Hne].
      * rewrite lookup_insert_eq decide_True; [set_solver|]. by rewrite Ht.
      * rewrite lookup_insert_ne // Hrs. apply decide_ext. set_solver.
Qed.
Lemma waiting_le b g k batches served : gw_state b g k batches served → len (waiting g) ≤ Z.of_nat k.
Proof.
  intros Hg. pose proof (gs_ids _ _ _ _ _ Hg) as Hi. apply (f_equal length) in Hi.
  rewrite length_app length_fmap length_seq in Hi. unfold len. lia.
Qed.

(** A turn of the loop of the batch processor. *)
Lemma loop_event_ok b g k batches served ev :
  gw_state b g k batches served → 0 ≤ b → b + Z.of_nat k + 3 ≤ U64_MAX →
  match ev with BatchRecv order | BatchTick order => ∀ l, order l ≡ₚ l | _ => False end →
  ∃ g' batches' served', gateway_event ev g = (Ok tt, g') ∧ gw_state b g' k batches' served' ∧
    match batch_processor, ev with
    | Some _, BatchRecv _ => channel g' = tail (channel g)
    | Some _, BatchTick _ => batch g' = [] ∧ channel g' = channel g
    | _, _ => True
    end.
Proof.
  intros Hg Hb HbU Hev. pose proof (waiting_le _ _ _ _ _ Hg). rewrite /Gateway.gateway_event {1}/bind /getS.
  destruct ev as [| |order|order]; [done..| |]; (destruct batch_processor as [m|] eqn:Em; [|by exists g, batches, served]).
  - destruct (batch_recv_ok b g k batches served m order Hg Em Hev) as (g' & bs & sv & E1 & Hg' & Hc); [done|lia|].
    by exists g', bs, sv.
  - destruct (process_batch_ok b g k batches served order Hg Hev) as (g' & bs & sv & E1 & Hg' & H'); [done|lia|].
    by exists g', bs, sv.
Qed.

(** What happens at the gateway, and the transactions that come with it. *)
Inductive sends : list GwEvent → list GwTx → Prop :=
  | sends_nil : sends [] []
  | sends_transaction tx evs rest : sends evs rest → sends (SendTransaction tx :: evs) (tx :: rest)
  | sends_raw tx data evs rest :
      ensure_hex_format data = tx_text tx → sends evs rest → sends (SendRawTransaction data :: evs) (tx :: rest)
  | sends_recv order evs rest : (∀ l, order l ≡ₚ l) → sends evs rest → sends (BatchRecv order :: evs) rest
  | sends_tick order evs rest : (∀ l, order l ≡ₚ l) → sends evs rest → sends (BatchTick order :: evs) rest.

Lemma run_step {ev evs g g1} r : gateway_event ev g = (Ok tt, g1) → run_gateway evs g1 = r → run_gateway (ev :: evs) g = r.
Proof. intros E1 <-. cbn [Gateway.run_gateway]. by rewrite {1}/bind E1. Qed.

(** The handler of a call, if the event is one. *)
Definition handler (ev : GwEvent) (i : nat) : option (M (Gateway Eng) unit) :=
  match ev with
  | SendTransaction tx => Some (process_transaction json_state metrics_json (S (S hops)) node t batch_processor i tx)
  | SendRawTransaction data => Some (process_raw_transaction json_state metrics_json (S (S hops)) node t batch_processor i data)
  | _ => None
  end.

Lemma send_event_ok ev b g k batches served tx :
  gw_state (b + 2 * (len txs - Z.of_nat k)) g k batches served → txs !! k = Some tx → 0 ≤ b → b + 2 * len txs + 4 ≤ U64_MAX →
  handler ev k = Some (process_hex json_state metrics_json (S (S hops)) node t batch_processor k (tx_text tx)) →
  ∃ g' batches' served', gateway_event ev g = (Ok tt, g') ∧
    gw_state (b + 2 * (len txs - Z.of_nat (S k))) g' (S k) batches' served'.
Proof.
  intros Hg Ht Hb HbU Hev. pose proof (waiting_le _ _ _ _ _ Hg). apply lookup_lt_Some in Ht as Hlt.
  destruct (process_hex_ok (b + 2 * (len txs - Z.of_nat (S k))) g k batches served tx) as (g' & bs & sv & E1 & Hg'); [|done|..].
  - by replace (b + 2 * (len txs - Z.of_nat (S k)) + 2) with (b + 2 * (len txs - Z.of_nat k)) by lia.
  - unfold len. lia.
  - unfold len in *. lia.
  - exists g', bs, sv. split; [|done]. pose proof (gs_requests _ _ _ _ _ Hg) as Hr.
    rewrite /Gateway.gateway_event {1}/bind /getS. destruct ev; cbn in Hev; [..|done|done];
      injection Hev as Hev; by rewrite {1}/bind {1}/modify Hr Hev.
Qed.

Lemma drop_S_eq {A} (l : list A) k x l' : drop k l = x :: l' → l' = drop (S k) l.
Proof. intros E1. by rewrite -(drop_drop l 1 k) || rewrite -Nat.add_1_r -drop_drop E1. Qed.

Lemma gateway_run_ok evs b g k batches served :
  sends evs (drop k txs) → gw_state (b + 2 * (len txs - Z.of_nat k)) g k batches served → 0 ≤ b → b + 2 * len txs + 4 ≤ U64_MAX →
  ∃ g' batches' served', run_gateway evs g = (Ok tt, g') ∧ gw_state b g' (length txs) batches' served'.
Proof.
  intros Hev. remember (drop k txs) as rest eqn:Er. revert g k batches served Er.
  induction Hev as [|tx evs rest _ IH|tx data evs rest Hd _ IH|order evs rest Ho _ IH|order evs rest Ho _ IH];
    intros g k batches served Er Hg Hb HbU; pose proof (gs_count _ _ _ _ _ Hg) as Hk.
  - apply (f_equal length) in Er. rewrite length_drop /= in Er. assert (k = length txs) as -> by lia.
    exists g, batches, served. split; [done|]. unfold len in Hg. by rewrite Z.sub_diag Z.add_0_r in Hg.
  - symmetry in Er. pose proof (lookup_drop txs k 0) as Ht. rewrite Er Nat.add_0_r in Ht. symmetry in Ht.
    assert (tx_ok tx) as (Hby & _) by by eapply Forall_lookup_1.
    destruct (send_event_ok (SendTransaction tx) b g k batches served tx Hg Ht Hb HbU) as (g1 & bs & sv & E1 & Hg1).
    { by rewrite /= /process_transaction hex_format_pairs. }
    destruct (IH g1 (S k) bs sv) as (g2 & bs2 & sv2 & E2 & Hg2); [by apply drop_S_eq in Er|done..|].
    exists g2, bs2, sv2. split; [|done]. by eapply run_step.
  - symmetry in Er. pose proof (lookup_drop txs k 0) as Ht. rewrite Er Nat.add_0_r in Ht. symmetry in Ht.
    destruct (send_event_ok (SendRawTransaction data) b g k batches served tx Hg Ht Hb HbU) as (g1 & bs & sv & E1 & Hg1).
    { by rewrite /= /process_raw_transaction Hd. }
    destruct (IH g1 (S k) bs sv) as (g2 & bs2 & sv2 & E2 & Hg2); [by apply drop_S_eq in Er|done..|].
    exists g2, bs2, sv2. split; [|done]. by eapply run_step.
  - destruct (loop_event_ok (b + 2 * (len txs - Z.of_nat k)) g k batches served (BatchRecv order) Hg) as (g1 & bs & sv & E1 & Hg1 & _);
      [unfold len; lia|unfold len in *; lia|done|].
    destruct (IH g1 k bs sv Er Hg1 Hb HbU) as (g2 & bs2 & sv2 & E2 & Hg2). exists g2, bs2, sv2. split; [|done]. by eapply run_step.
  - destruct (loop_event_ok (b + 2 * (len txs - Z.of_nat k)) g k batches served (BatchTick order) Hg) as (g1 & bs & sv & E1 & Hg1 & _);
      [unfold len; lia|unfold len in *; lia|done|].
    destruct (IH g1 k bs sv Er Hg1 Hb HbU) as (g2 & bs2 & sv2 & E2 & Hg2). exists g2, bs2, sv2. split; [|done]. by eapply run_step.
Qed.

(** Enough turns of the loop leave nothing waiting. *)
Definition drain (g : Gateway Eng) : list GwEvent :=
  replicate (length (channel g)) (BatchRecv id) ++ [BatchTick id].

Lemma drain_ok b g k batches served :
  gw_state b g k batches served → 0 ≤ b → b + Z.of_nat k + 3 ≤ U64_MAX →
  ∃ g' batches' served', run_gateway (drain g) g = (Ok tt, g') ∧ gw_state b g' k batches' served' ∧ waiting g' = [].
Proof.
  intros Hg Hb HbU. rewrite /drain. remember (length (channel g)) as n eqn:En. revert g batches served Hg En.
  induction n as [|n IH]; intros g batches served Hg En.
  - destruct (loop_event_ok b g k batches served (BatchTick id) Hg Hb HbU) as (g1 & bs & sv & E1 & Hg1 & Hw); [done|].
    exists g1, bs, sv. split; [by eapply run_step|]. split; [done|]. destruct batch_processor as [m|] eqn:Em.
    + destruct Hw as [Hb1 Hc]. rewrite /waiting Hb1 Hc. by destruct (channel g).
    + by apply (gs_none _ _ _ _ _ Hg1).
  - destruct (loop_event_ok b g k batches served (BatchRecv id) Hg Hb HbU) as (g1 & bs & sv & E1 & Hg1 & Hw); [done|].
    pose proof (λ evs r, run_step (evs := evs) r E1) as Hstep. destruct batch_processor as [m|] eqn:Em.
    + destruct (IH g1 bs sv Hg1) as (g2 & bs2 & sv2 & E2 & Hg2); [rewrite Hw; by destruct (channel g); simplify_eq/=|].
      exists g2, bs2, sv2. split; [by apply (Hstep _ (Ok tt, g2))|done].
    + pose proof (gs_none _ _ _ _ _ Hg Em) as Hn. rewrite /waiting in Hn. apply app_eq_nil in Hn as [_ Hn]. by rewrite Hn in En.
Qed.
End transactions.

(** * From the gateway to the pool *)

Lemma trim_0X_pairs d : Forall is_byte d → trim_0X (hex_pairs d) = hex_pairs d.
Proof.
  intros Hb. destruct Hb as [|x d Hx _]; [done|]. rewrite hex_pairs_cons. cbn. destruct (byte_nibbles x Hx) as (_ & Hn & _).
  destruct (Z.eqb_spec (hex_digit (x mod 16)) 88) as [E1|]; [|by rewrite andb_false_r].
  rewrite /hex_digit in E1. case_match; lia.
Qed.

Lemma parse_sent tx : tx_ok tx → parse_transaction (encode_hexstring (gw_json tx)) = Some (gw_tx tx).
Proof.
  intros (Hb & _ & Hu & Hj & _). rewrite /parse_transaction.
  change (trim_0x (encode_hexstring (gw_json tx))) with (trim_0x (hex_pairs (gw_json tx))).
  by rewrite trim_0x_pairs // trim_0X_pairs // hex_decode_pairs //= Hu.
Qed.

Lemma parse_all txs k :
  Forall tx_ok txs → omap parse_transaction (take k (encode_hexstring <$> (gw_json <$> txs))) = gw_tx <$> take k txs.
Proof.
  intros Hok. revert k. induction Hok as [|tx txs Htx _ IH]; intros [|k]; [done..|]. cbn. rewrite (parse_sent tx Htx). f_equal. apply IH.
Qed.

Lemma concat_Permutation_Forall2 {A} (ls1 ls2 : list (list A)) : Forall2 (≡ₚ) ls1 ls2 → concat ls1 ≡ₚ concat ls2.
Proof. induction 1 as [|l1 l2 ls1 ls2 Hl _ IH]; [done|]. cbn. by rewrite Hl IH. Qed.

Lemma length_omap_le {A B} (f : A → option B) l : (length (omap f l) ≤ length l)%nat.
Proof. induction l as [|x l IH]; [done|]. cbn. destruct (f x); cbn; lia. Qed.

#[local] Instance picked_Permutation txs : Proper ((≡ₚ) ==> (≡ₚ)) (picked txs).
Proof.
  intros l1 l2 Hl. rewrite /picked. induction Hl as [|i l1 l2 _ IH|i j l|l1 l2 l3 _ IH1 _ IH2]; cbn; [done| | |by etrans].
  - by destruct (txs !! i); rewrite ?IH.
  - destruct (txs !! i), (txs !! j); [apply Permutation_swap|done..].
Qed.

Lemma picked_suffix pre txs : picked (pre ++ txs) (seq (length pre) (length txs)) = txs.
Proof.
  revert pre. induction txs as [|tx txs IH]; intros pre; [done|]. rewrite /picked /= lookup_app_r // Nat.sub_diag /=. f_equal.
  specialize (IH (pre ++ [tx])). rewrite length_app Nat.add_1_r -app_assoc in IH. exact IH.
Qed.

Lemma picked_all txs : picked txs (seq 0 (length txs)) = txs.
Proof. exact (picked_suffix [] txs). Qed.

(** The gateway of an empty cluster. *)
Lemma gateway_run ld c st evs txs :
  fresh_cluster (2 * len txs) ld c st → 2 * len txs + 4 ≤ U64_MAX → Forall tx_ok txs → sends evs txs →
  ∃ g batches served, run_gateway evs (new_gateway c) = (Ok tt, g) ∧ gw_state txs 0 g (length txs) batches served.
Proof.
  intros Hf HbU Hok Hev. destruct (fresh_cluster_inv _ _ _ _ Hf) as [Hinv Hsy].
  apply (gateway_run_ok txs Hok evs 0 (new_gateway c) 0 [] []); [done| |done|lia].
  split; cbn; try done.
  - rewrite Z.sub_0_r Z.add_0_r. exists ld, ∅. by split_and!; [| |apply map_Forall_empty| |].
  - rewrite len_nil /largest. lia.
  - lia.
  - lia.
Qed.

(** The pool after a refill. *)
Lemma refill_served g txs batches served n :
  gw_state txs 0 g (length txs) batches served → txs ≠ [] → Forall tx_ok txs → len txs ≤ n * 10 ≤ U64_MAX →
  ∃ p, refill_pool cluster_source (S (length txs)) (new_producer (cluster g) n) = (Good tt, p) ∧
    pending_pool p = gw_tx <$> picked txs (concat served).
Proof.
  intros Hg Hne Hok Hn. set (l := picked txs (concat served)).
  assert (length l ≤ length txs)%nat as Hl.
  { etrans; [apply length_omap_le|]. assert (concat served ≡ₚ concat batches) as ->.
    { symmetry. apply concat_Permutation_Forall2, Hg. }
    pose proof (gs_ids _ _ _ _ _ _ Hg) as Hi. apply (f_equal length) in Hi. rewrite length_app length_seq in Hi. lia. }
  assert (Forall tx_ok l) as Hlok.
  { apply Forall_forall. intros tx (i & _ & Hi)%list_elem_of_omap. by eapply Forall_lookup_1. }
  assert (topic_holds (cluster g) (gw_json <$> l)) as Hh.
  { destruct (gs_topic _ _ _ _ _ _ Hg) as (ld & σ & Hi & Hsy & Hby & Hq & Hreg).
    destruct Hreg as [q Eq]; [apply (gs_registered _ _ _ _ _ _ Hg); destruct txs; cbn; [done|lia]|].
    rewrite Eq /= in Hq. subst q. exists (0 + len (waiting g)), ld, σ. split_and!; [done|done| |done|done].
    pose proof (len_nonneg (waiting g)). lia. }
  destruct (refill_run cluster_source _ (S (length txs)) (new_producer (cluster g) n) (encode_hexstring <$> (gw_json <$> l))
              cluster_source_laws) as (k & p & E2 & Hp & _ & Hor & _ & _).
  { eexists. split; [exact Hh|done]. }
  { rewrite !length_fmap. lia. }
  exists p. split; [done|]. cbn [pending_pool new_producer app] in Hp. rewrite Hp parse_all // in Hor |- *.
  assert (length l ≤ k)%nat as Hk; [|by rewrite take_ge].
  destruct Hor as [Hfull|Hdrop].
  - rewrite /len length_fmap length_take /= /wrap64 Z.mod_small in Hfull; [rewrite /U64_MAX in Hn; pose proof (len_nonneg txs); lia|].
    rewrite /len in Hn. lia.
  - apply (f_equal length) in Hdrop. rewrite length_drop !length_fmap /= in Hdrop. lia.
Qed.

(** C30: What wallets send reaches the pool, in the order of the batches. The cluster starts empty, its
    consensus layer is available and its replicas catch up between requests, which it serves one
    at a time; the transactions fit in a command and come at any moment between the turns of the batch
    processor, if there is one. The gateway numbers the transactions; those
    it has written so far are the first ones, cut into batches of at most the configured size, and
    every batch is written in the order in which the cluster served it. Exactly the callers of these have
    the hash of their transaction as an answer. A
    block producer that then refills its pool from the topic through the same or another node
    finds exactly the transactions written, if its pool has room for them. Without a batch
    processor nothing waits and every batch is one transaction: the order is that of arrival. *)
Theorem gateway_to_pool ld c st evs txs n :
  fresh_cluster (2 * len txs) ld c st → 2 * len txs + 4 ≤ U64_MAX → Forall tx_ok txs → txs ≠ [] → sends evs txs →
  len txs ≤ n * 10 ≤ U64_MAX →
  ∃ g batches served p, run_gateway evs (new_gateway c) = (Ok tt, g) ∧
    concat batches ++ (task_request <$> waiting g) = seq 0 (length txs) ∧
    Forall (λ l, 0 < len l ≤ Z.max 1 (default 1 batch_processor)) batches ∧
    Forall2 (≡ₚ) batches served ∧
    (batch_processor = None → waiting g = []) ∧
    (∀ i, responses g !! i = if decide (i ∈ concat batches) then tx_answer <$> txs !! i else None) ∧
    refill_pool cluster_source (S (length txs)) (new_producer (cluster g) n) = (Good tt, p) ∧
    pending_pool p = gw_tx <$> picked txs (concat served).
Proof.
  intros Hf HbU Hok Hne Hev Hn. destruct (gateway_run ld c st evs txs) as (g & bs & sv & E1 & Hg); [done..|].
  destruct (refill_served g txs bs sv n Hg Hne Hok Hn) as (p & E2 & Hp). exists g, bs, sv, p.
  split_and!; [done|apply Hg..|done|done].
Qed.

(** C26: No accepted transaction is forgotten. Under the same conditions, once the task of the batch
    processor has had as many turns as the channel holds tasks and its timer has fired, every
    caller has the hash of its transaction as an answer, and a pool refilled then holds all the
    transactions, each once. *)
Theorem gateway_answers_everyone ld c st evs txs n :
  fresh_cluster (2 * len txs) ld c st → 2 * len txs + 4 ≤ U64_MAX → Forall tx_ok txs → txs ≠ [] → sends evs txs →
  len txs ≤ n * 10 ≤ U64_MAX →
  ∃ g g' p, run_gateway evs (new_gateway c) = (Ok tt, g) ∧ run_gateway (drain g) g = (Ok tt, g') ∧
    (∀ i tx, txs !! i = Some tx → responses g' !! i = Some (tx_answer tx)) ∧
    refill_pool cluster_source (S (length txs)) (new_producer (cluster g') n) = (Good tt, p) ∧
    pending_pool p ≡ₚ gw_tx <$> txs.
Proof.
  intros Hf HbU Hok Hne Hev Hn. destruct (gateway_run ld c st evs txs) as (g & bs & sv & E1 & Hg); [done..|].
  destruct (drain_ok txs Hok 0 g (length txs) bs sv Hg) as (g' & bs' & sv' & E2 & Hg' & Hw); [done|unfold len in HbU; lia|].
  destruct (refill_served g' txs bs' sv' n Hg' Hne Hok Hn) as (p & E3 & Hp). exists g, g', p.
  pose proof (gs_ids _ _ _ _ _ _ Hg') as Hids. rewrite Hw app_nil_r in Hids. split_and!; [done|done| |done|].
  - intros i tx Hi. rewrite (gs_responses _ _ _ _ _ _ Hg') Hi. case_decide as Hn'; [done|].
    destruct Hn'. rewrite Hids. apply elem_of_seq. apply lookup_lt_Some in Hi. lia.
  - rewrite Hp. apply fmap_Permutation. assert (concat sv' ≡ₚ seq 0 (length txs)) as ->.
    { rewrite -Hids. symmetry. apply concat_Permutation_Forall2, Hg'. }
    by rewrite picked_all.
Qed.
End pipeline.
