(* ===== verification/Witnesses.v ===== *)
(** Concrete runs: each theorem with hypotheses is applied here to a state in which they hold. *)

From stdpp Require Import relations.
From S2P Require Import Prelude Config Storage Block Trackers Allocator Index TopicClean Reader Writer TopicInv Core Batch Walrus BatchRead Recovery EngineInv BatchReadOk BatchReadInv BatchReadSkips Fifo Instances Background.

#[local] Open Scope Z_scope.

(** * A process that has just started *)

Definition fs0 : Fs := MkFs ∅ ∅ true None 0 ∅ ∅ 1700000000000 true true.
Definition trk0 : Trackers := MkTrackers ∅ ∅ None.
Definition pm0 : WalPathManager := {| root := "wal_files" |}.

Lemma fs0_inv : fs_inv fs0.
Proof. split; [done|apply map_Forall_empty|done|done]. Qed.

Lemma fs0_fresh : fresh_dir pm0 fs0.
Proof. intros name. apply not_elem_of_empty. Qed.

Lemma fs0_good n : 0 ≤ n ≤ 100000 → env_good n fs0.
Proof. intros Hn. split; [done..|]. split; cbn; rewrite /U64_MAX; lia. Qed.

Lemma fits_short t d : bool_decide (len (name_bytes t) ≤ 230) = true → len d ≤ 1000 → fits t d.
Proof.
  intros Ht%bool_decide_eq_true Hd. apply ref_fits; [|done].
  rewrite /entry_need. consts.
Qed.

(** A run is determined by its outcome and its state. *)
Lemma run_ok {S A} (m : M S A) s a : (m s).1 = Ok a → m s = (Ok a, (m s).2).
Proof. destruct (m s) as [o s']. by intros [= ->]. Qed.

(** * The engine *)

(** Two topics, a peek, a batch, a clock that goes back and two batch reads. *)
Definition ops0 : list op :=
  [OAppend "a" [1; 2]; OAppend "b" [9]; ORead "a" false; OClock 5; OBatch "a" [[3]; []; [4; 5]];
   ORead "a" true; OBatchRead "a" 4000 false; ORead "b" true; ORead "b" true; OBatchRead "a" 4000 true; ORead "a" true].

Lemma walrus_refines_queues_witness :
  ∃ W0 W, with_paths pm0 StrictlyAtOnce (Milliseconds 200) trk0 fs0 = (Ok W0, wa_fs W0) ∧
    run_all ops0 W0 =
      (Ok [RDone; RDone; REntry (Some [1; 2]); RDone; RDone; REntry (Some [1; 2]); REntries [[3]; [4; 5]];
           REntry (Some [9]); REntry None; REntries [[3]; [4; 5]]; REntry None], W) ∧
    (∀ t, get_topic_entry_count t W = len (pending (spec_all ops0 ∅).2 t)).
Proof.
  apply (walrus_refines_queues pm0 StrictlyAtOnce (Milliseconds 200) trk0 fs0 ops0).
  - apply fs0_inv.
  - apply fs0_fresh.
  - apply fs0_good. done.
  - repeat constructor; try done; apply fits_short; done.
  - done.
Defined.

(** A handle and a block of a log file. *)
Definition file0 : string := "wal_files/1".
Definition fs1 : Fs := fs_keep file0 (Fd file0 MAX_FILE_SIZE false)
                         (fs_link file0 (MkFile ∅ MAX_FILE_SIZE) (fs_set_millis 1 fs0)).
Definition block1 : Block := MkBlock 1 file0 0 DEFAULT_BLOCK_SIZE (Fd file0 MAX_FILE_SIZE false) 0.

Lemma is_u64_small z : 0 ≤ z ≤ 2 ^ 40 → is_u64 z.
Proof. rewrite /is_u64 /U64_MAX. lia. Qed.

Definition write1 : M Fs unit := Block_write block1 0 [104; 105] "t" 10485760.

Lemma write1_runs : ∃ s', write1 fs1 = (Ok tt, s').
Proof. exists (write1 fs1).2. apply run_ok. vm_compute. reflexivity. Qed.

Lemma small_payload : is_u64 (len [104; 105]) ∧ is_u64 10485760 ∧ Forall is_byte [104; 105].
Proof. split_and!; [by apply is_u64_small|by apply is_u64_small|by repeat constructor]. Qed.

Lemma block_write_read_witness :
  ∃ s', write1 fs1 = (Ok tt, s') ∧
    Block_read block1 0 s' = (Ok ([104; 105], PREFIX_META_SIZE + len [104; 105]), s').
Proof.
  destruct small_payload as (H1 & H2 & _). destruct write1_runs as [s' E]. exists s'. split; [exact E|].
  exact (block_write_read block1 0 [104; 105] "t" 10485760 fs1 s' E H1 H2).
Defined.

Lemma block_read_detects_corruption_witness :
  ∃ s', write1 fs1 = (Ok tt, s') ∧
    let c := fs_put file0 (0 + 0 + PREFIX_META_SIZE + 1) [106] s' in
    Block_read block1 0 c =
      (Err (IoError KInvalidData "checksum mismatch, data corruption detected"), c).
Proof.
  assert (is_byte 106 ∧ 106 ≠ 105) as [H4 H5] by done.
  destruct small_payload as (H1 & H2 & H3). destruct write1_runs as [s' E]. exists s'. split; [exact E|].
  exact (block_read_detects_corruption block1 0 [104; 105] "t" 10485760 fs1 s' 1%nat 106 105 E
           H1 H2 H3 eq_refl H4 H5).
Defined.

Lemma zero1_runs : ∃ s', zero_range block1 0 PREFIX_META_SIZE fs1 = (Ok tt, s').
Proof. exists (zero_range block1 0 PREFIX_META_SIZE fs1).2. apply run_ok. vm_compute. reflexivity. Qed.

Lemma zero_range_invalidates_witness :
  ∃ s', zero_range block1 0 PREFIX_META_SIZE fs1 = (Ok tt, s') ∧
    Block_read block1 0 s' = (Err (IoError KInvalidData "invalid metadata length: 0"), s').
Proof.
  destruct zero1_runs as [s' E]. exists s'. split; [exact E|].
  exact (zero_range_invalidates block1 0 fs1 s' E).
Defined.

(** * The allocator *)

Definition alloc1 : BlockAllocator := MkAllocator block1 false pm0.
Definition env1 : AllocEnv := MkAllocEnv fs1 trk0 alloc1.

Lemma fs1_inv : fs_inv fs1.
Proof. split; [done| |done|done]. by apply map_Forall_insert_2; [|apply map_Forall_empty]. Qed.

Lemma env1_inv : alloc_inv env1.
Proof.
  split; cbn; try done; [apply fs1_inv| |apply Z.divide_0_r].
  exists 1. split; [reflexivity|done].
Qed.

Lemma serve_all_disjoint_witness :
  ∃ bs e', serve_all [RNext; RSized 20000000; RNext] env1 = (Ok bs, e') ∧ alloc_inv e' ∧
    Forall2 (λ r b, wanted r ≤ b_limit b) [RNext; RSized 20000000; RNext] bs ∧
    Forall (λ b, 0 ≤ b_offset b ∧ b_offset b + b_limit b ≤ MAX_FILE_SIZE) bs ∧ separate env1 bs.
Proof.
  apply (serve_all_disjoint [RNext; RSized 20000000; RNext] env1).
  - apply env1_inv.
  - by repeat constructor.
  - done.
  - by split.
Defined.

Lemma alloc_block_refuses_witness :
  alloc_block 0 env1 =
    (Err (IoError KInvalidInput "invalid allocation size, a single entry can't be more than 1gb"), env1).
Proof. apply (alloc_block_refuses 0 env1). by left. Defined.

(** The same process when no file can be created, with the current file full. *)
Definition env_full : AllocEnv :=
  MkAllocEnv (MkFs (fs_files fs1) (fs_names fs1) true None 1 ∅ (keeper fs1) 1700000000000 false true)
    trk0 (MkAllocator (bk_offset MAX_FILE_SIZE block1) false pm0).

Lemma env_full_inv : alloc_inv env_full.
Proof.
  split; cbn; try done; [by destruct fs1_inv; split| |by exists BLOCKS_PER_FILE].
  exists 1. split; [reflexivity|done].
Qed.

Lemma alloc_block_error_keeps_lock_witness :
  (alloc_block 300 env_full).1 = Err (IoError KOther "create") ∧
  (∀ want', 0 < want' ≤ MAX_ALLOC → (alloc_block want' (alloc_block 300 env_full).2).1 = Hang) ∧
  (get_next_available_block (alloc_block 300 env_full).2).1 = Hang ∧
  ∀ id, (fast_forward id (alloc_block 300 env_full).2).1 = Hang.
Proof.
  apply (alloc_block_error_keeps_lock 300 env_full); [apply env_full_inv|done|done|done|done].
Defined.

Lemma alloc_block_past_file_witness :
  ∃ b e', alloc_block 1060000000 env1 = (Ok b, e') ∧ MAX_FILE_SIZE < b_offset b + b_limit b.
Proof. apply (alloc_block_past_file 1060000000 env1); [apply env1_inv|done|done|done]. Defined.

(** * The clock and namespaces *)

(** Two threads race: the second one loses its first exchange. *)
Lemma now_millis_unique_witness :
  ∃ s, rtc Clock.step Clock.initial s ∧ Clock.issued s = [8; 7] ∧ NoDup (Clock.issued s).
Proof.
  assert (rtc Clock.step Clock.initial (Clock.State 8 ∅ [8; 7])) as Hr.
  { eapply rtc_l; [apply (Clock.step_load _ 0%nat 7); done|].
    eapply rtc_l; [apply (Clock.step_load _ 1%nat 7); done|].
    eapply rtc_l; [by apply (Clock.step_exchange_ok _ 0%nat 7 0)|].
    eapply rtc_l; [by apply (Clock.step_exchange_err _ 1%nat 7 0)|].
    eapply rtc_l; [by apply (Clock.step_exchange_ok _ 1%nat 7 7)|]. apply rtc_refl. }
  eexists. split; [exact Hr|]. split; [reflexivity|].
  apply (Clock.now_millis_unique (Clock.State 8 ∅ [8; 7])); [exact Hr|done].
Defined.

Lemma sanitize_keeps_allowed_witness :
  Namespace.sanitize_namespace [Namespace.cp_dot; Namespace.cp_dot] = [Namespace.cp_dot; Namespace.cp_dot].
Proof.
  apply (Namespace.sanitize_keeps_allowed [Namespace.cp_dot; Namespace.cp_dot]);
    [by repeat constructor|by constructor].
Defined.

(** * Persisted maps *)

Definition index0 : WalIndex := MkIndex {["t" := MkPos 0 300]} (index_path pm0 "read_offset_idx").

Lemma index_set_runs : ∃ s', (WalIndex_set "u" 2 512 index0).1 fs0 = (Ok tt, s').
Proof.
  exists ((WalIndex_set "u" 2 512 index0).1 fs0).2. apply run_ok. vm_compute. reflexivity.
Qed.

Lemma index_survives_restart_witness :
  ∃ s', (WalIndex_set "u" 2 512 index0).1 fs0 = (Ok tt, s') ∧
    WalIndex_new_in pm0 "read_offset_idx" s' = (WalIndex_set "u" 2 512 index0).2 ∧
    WalIndex_get "u" (WalIndex_new_in pm0 "read_offset_idx" s') = Some (MkPos 2 512).
Proof.
  destruct index_set_runs as [s' E]. exists s'. split; [exact E|].
  exact (index_survives_restart pm0 "read_offset_idx" "u" 2 512 index0 fs0 s' eq_refl E).
Defined.

(** The machine stops after the temporary file was written and before it was synced: what the
    file holds is lost. *)
Lemma crash0 bs :
  crash_state ∅ (replace_ops (idx_path index0) bs) fs0
    (fs_link (tmp_path (idx_path index0)) (whole_file [1; 2]) fs0).
Proof.
  eapply crash_later; [reflexivity|]. apply crash_now. intros p Hp. cbn in Hp.
  by rewrite !fs_read_link_other; set_solver.
Qed.

Lemma index_persist_crash_safe_witness :
  ∃ bs s', map_to_bytes (idx_store index0) = Some bs ∧ crash_state ∅ (replace_ops (idx_path index0) bs) fs0 s' ∧
    (WalIndex_new_in pm0 "read_offset_idx" s' = WalIndex_new_in pm0 "read_offset_idx" fs0 ∨
     WalIndex_new_in pm0 "read_offset_idx" s' = index0).
Proof.
  eexists _, _. split; [reflexivity|]. split; [apply crash0|].
  eapply (index_persist_crash_safe index0); [reflexivity|reflexivity|apply crash0].
Defined.

Lemma ref_serialises (m : gmap string CleanMarkerRecord) : is_Some (map_to_bytes m).
Proof. by eexists. Qed.

Lemma clean_markers_survive_restart_witness :
  let '(t, s') := clean_run [MarkDirty "a"; PersisterTurn; MarkDirty "b"] (clean_startup pm0 fs0) fs0 in
  ∀ topic, topic ∉ persist_tx t → topic_is_clean topic (clean_startup pm0 s') = topic_is_clean topic t.
Proof.
  apply (clean_markers_survive_restart ref_serialises pm0
    [MarkDirty "a"; PersisterTurn; MarkDirty "b"] fs0). by split.
Defined.

(** * Readers *)

Lemma persist_every_window_witness :
  persist_run (AtLeastOnce 3) 3 new_info = ([false; false; true], new_info).
Proof. apply (persist_every_window 3 new_info); [done|reflexivity]. Defined.

(** * Trackers *)

(** One block, handed out, sealed, its file filled up, and consumed. *)
Definition events0 : list tracker_event := [EHandout 1 "f"; ESeal 1; EFull "f"; EConsume 1].

Lemma deletion_only_when_consumed_witness :
  ∃ t locks, tracker_run events0 t locks ∧ DELETION_TX t = Some ["f"] ∧ file_consumed t locks "f".
Proof.
  assert (∃ t locks, tracker_run events0 t locks ∧ DELETION_TX t = Some ["f"]) as (t & locks & Hr & Hq).
  { assert (tracker_run [] (MkTrackers ∅ ∅ (Some [])) ∅) as R0 by apply run_empty.
    pose proof (run_step _ (EHandout 1 "f") _ _ R0) as R1. specialize (R1 ltac:(
      split_and!; [done|apply not_elem_of_empty|done|rewrite count_blocks_empty; done])).
    pose proof (run_step _ (ESeal 1) _ _ R1 ltac:(cbn; set_solver)) as R2.
    pose proof (run_step _ (EFull "f") _ _ R2 I) as R3.
    pose proof (run_step _ (EConsume 1) _ _ R3 ltac:(intros b Hb; vm_compute in Hb; by injection Hb as <-)) as R4.
    eexists _, _. split; [exact R4|]. vm_compute. reflexivity. }
  exists t, locks. split; [exact Hr|]. split; [exact Hq|].
  apply (deletion_only_when_consumed events0 t locks ["f"] "f"); [exact Hr|exact Hq|by constructor].
Defined.

Definition trk2 : Trackers :=
  MkTrackers (<[1 := MkBlockState false "f"]> {[2 := MkBlockState false "f"]})
             {["f" := MkFileState 0 0 2 true]} (Some []).

Lemma double_checkpoint_deletes_witness :
  let t' := set_checkpointed_true 1 (set_checkpointed_true 1 trk2) in
  DELETION_TX t' = Some ["f"] ∧ t_blocks t' !! 2 = Some (MkBlockState false "f").
Proof. apply (double_checkpoint_deletes trk2 "f" 1 2 []); done. Defined.

(** * Writers and the read cursor *)

Definition writer1 : Writer := MkWriter block1 "t" 258 NoFsync false.
Definition wenv1 : WEnv := MkWEnv env1 ∅ [] writer1.
Definition huge : list Z := replicate (Z.to_nat MAX_ALLOC) 0.

Lemma len_huge : len huge = MAX_ALLOC.
Proof. rewrite /huge len_replicate Z2Nat.id; done. Qed.

Lemma oversized_write_seals_active_witness :
  ∃ e', Writer_write huge wenv1 =
      (Err (IoError KInvalidInput "invalid allocation size, a single entry can't be more than 1gb"), e') ∧
    we_self e' = writer1 ∧
    chain (info_of (we_reader e') "t") = [] ++ [set_used 258 block1].
Proof.
  apply (oversized_write_seals_active huge wenv1).
  - reflexivity.
  - rewrite len_huge. consts.
  - done.
  - done.
  - reflexivity.
Defined.

(** A reader that has consumed the 258 bytes of the active block. *)
Definition walrus1 : Walrus :=
  MkWalrus env1 {["t" := MkInfo [] 0 0 0 1 258 true]} {["t" := writer1]} [] index0 StrictlyAtOnce
    NoFsync (clean_startup pm0 fs0) ∅.

Lemma caught_up_read_resets_cursor_witness :
  ∃ W', read_next "t" true walrus1 = (Ok None, W') ∧
    WalIndex_get "t" (read_offset_index W') = Some (MkPos (Z.lor 1 TAIL_FLAG) 0).
Proof.
  apply (caught_up_read_resets_cursor "t" walrus1 writer1 (MkInfo [] 0 0 0 1 258 true)); done.
Defined.

(** * Batch reads *)

(** Two entries of 128 bytes in a sealed block and one of two bytes in the active block; the
    budget of 500 bytes ends in the second. *)
Definition big1 : list Z := replicate 128 1.
Definition big2 : list Z := replicate 128 2.
Definition block2 : Block := MkBlock 2 file0 DEFAULT_BLOCK_SIZE DEFAULT_BLOCK_SIZE (Fd file0 MAX_FILE_SIZE false) 0.
Definition block3 : Block := MkBlock 3 file0 (2 * DEFAULT_BLOCK_SIZE) DEFAULT_BLOCK_SIZE (Fd file0 MAX_FILE_SIZE false) 0.

Definition fs3 : Fs :=
  let s := (Block_write block1 0 big1 "t" 10485760 fs1).2 in
  let s := (Block_write block1 384 big2 "t" 10485760 s).2 in
  (Block_write block2 0 [7; 7] "t" 20971520 s).2.

Definition info3 : ColReaderInfo := MkInfo [set_used 768 block1] 0 0 0 0 0 true.
Definition writer3 : Writer := MkWriter block2 "t" 258 NoFsync false.
Definition env3 : AllocEnv := MkAllocEnv fs3 trk0 (MkAllocator block3 false pm0).
Definition walrus3 : Walrus :=
  MkWalrus env3 {["t" := info3]} {["t" := writer3]} [] (MkIndex ∅ (read_index_path pm0)) StrictlyAtOnce
    NoFsync (clean_startup pm0 fs0) {["t" := 3]}.
Definition ghost3 : ghost := <[1 := ("t", block1)]> {[2 := ("t", block2)]}.
Definition queues3 : queues := {["t" := [big1; big2; [7; 7]]]}.

Lemma fs3_len : f_len (file_of fs3 file0) = MAX_FILE_SIZE.
Proof. vm_compute. reflexivity. Qed.

Lemma made3 : made pm0 fs3 file0.
Proof. exists 1. split; [reflexivity|]. vm_compute. by split. Qed.

Lemma fs3_seg : seg fs3 block1 0 768 [big1; big2] ∧ seg fs3 block2 0 258 [[7; 7]].
Proof.
  split.
  - apply seg_cons; [vm_compute; reflexivity|]. apply seg_cons; [vm_compute; reflexivity|]. apply seg_nil.
  - apply seg_cons; [vm_compute; reflexivity|]. apply seg_nil.
Qed.

Lemma ghost3_ok : ghost_ok env3 ghost3.
Proof.
  assert (∀ id t b, ghost3 !! id = Some (t, b) → id = 1 ∧ b = block1 ∨ id = 2 ∧ b = block2) as Hg.
  { intros id t b. rewrite /ghost3. intros [[<- [= <- <-]]|[_ [<- [= <- <-]]%lookup_singleton_Some]]%lookup_insert_Some; auto. }
  assert (∀ b, b = block1 ∨ b = block2 → owned env3 b) as Ho.
  { intros b [-> | ->]; split; try done; try (rewrite /= fs3_len; done); apply made3. }
  split.
  - intros id t b [[-> ->]|[-> ->]]%Hg; (split; [apply Ho; auto|done]).
  - intros id id' t t' b b' [[-> ->]|[-> ->]]%Hg [[-> ->]|[-> ->]]%Hg Hne; try done; right; [by left|by right].
Qed.

Lemma walrus3_inv : winv ghost3 walrus3 queues3 queues3.
Proof.
  destruct fs3_seg as [Hs1 Hs2]. assert (holds ghost3 "t" block1 ∧ holds ghost3 "t" block2) as [Hh1 Hh2] by done.
  split.
  - split; [|apply ghost3_ok|].
    + split; try done; [|apply made3|by exists 2]. split; try done. apply map_Forall_insert_2; [done|apply map_Forall_empty].
    + intros t. destruct (decide (t = "t")) as [->|Hne]; last first.
      { rewrite /walrus3 /queues3 /info_of /pending /= !lookup_singleton_ne //. by apply topic_ok_new. }
      rewrite /walrus3 /queues3 /info_of /pending /= !lookup_singleton_eq /=. split; cbn; try done.
      * by repeat constructor.
      * intros w' [= <-]. split; cbn; try done. by intros ?%list_elem_of_singleton.
      * lia.
      * exists [big1; big2], [[7; 7]]. split_and!; try done. exists [big1; big2], []. split_and!; [|by exists []|done].
        by apply (seg_used _ block1).
  - intros t. rewrite /walrus3 /info_of /=. by rewrite lookup_empty.
  - intros t. rewrite /get_topic_entry_count /pending /queues3 /=. destruct (decide (t = "t")) as [->|Hne].
    + by rewrite !lookup_singleton_eq.
    + by rewrite !lookup_singleton_ne.
  - done.
Qed.

Lemma walrus3_cut : cut_in_last_block walrus3 "t" 500 big1 big2 [] [[7; 7]].
Proof.
  destruct fs3_seg as [Hs1 Hs2]. split; try done.
  - exists (set_used 768 block1). split_and!; [done|done|]. by apply (seg_used _ block1).
  - exists writer3. done.
Qed.

Lemma batch_read_skips_sealed_witness :
  pending queues3 "t" = big1 :: big2 :: [] ++ [[7; 7]] ∧
  ∃ W', batch_read_for_topic "t" 500 true None walrus3 = (Ok (nonempty (big1 :: [[7; 7]])), W') ∧
    (read_next "t" false W').1 = Ok None ∧ get_topic_entry_count "t" W' = len (big2 :: []).
Proof.
  apply (batch_read_skips_sealed ghost3 walrus3 queues3 "t" 500 big1 big2 [] [[7; 7]]).
  - apply walrus3_inv.
  - apply walrus3_cut.
Defined.

(** * Recovery *)

(** The file after one entry was written to its first block. *)
Definition fs2 : Fs := (write1 fs1).2.
Definition handle0 : StorageImpl := Fd file0 MAX_FILE_SIZE false.

Lemma fs2_block : block_image fs2 file0 handle0 0 "t" 258 [[104; 105]].
Proof.
  split.
  - apply seg_cons; [vm_compute; reflexivity|]. apply seg_nil.
  - discriminate.
  - vm_compute. discriminate.
  - right. eexists. vm_compute. reflexivity.
  - eexists. split; vm_compute; reflexivity.
Qed.

Lemma fs2_image : file_image fs2 file0 handle0 100 0 [("t", 258, [[104; 105]])].
Proof. apply fi_block; [apply fs2_block|]. apply fi_unused; [exact I|]. vm_compute. reflexivity. Qed.

Lemma scan_file_recovers_witness :
  scan_file 100 file0 handle0 0 (MkScan 1 ∅ trk0 ∅) fs2 =
    (Ok (recovered file0 handle0 [("t", 258, [[104; 105]])] 0 (MkScan 1 ∅ trk0 ∅)), fs2).
Proof. apply (scan_file_recovers fs2 file0 handle0 100 0 [("t", 258, [[104; 105]])]). apply fs2_image. Defined.

(** * The background worker *)

(** A ring of 2048 entries whose operations all succeed. *)
#[global] Instance ref_fsync_ring : FsyncRing := {
  ring_new _ := true;
  ring_push q := len q <? 2048;
  ring_submit _ _ := true;
  ring_wait q _ := (Some tt, (λ x, (x.2, 0)) <$> q);
}.
#[global] Instance ref_fsync_ring_ok : FsyncRingOk.
Proof.
  split; [done..|]. intros q s. cbn. apply Forall_fmap, Forall_forall. intros x Hx. cbn.
  by apply list_elem_of_fmap_2.
Qed.

(** Before the thousandth turn: one file is to be deleted, one was written to. *)
Definition bg0 : BgEnv :=
  MkBg (fs_link "b" empty_file (fs_link "a" empty_file fs0)) (MkTrackers ∅ ∅ (Some ["a"])) ["b"; "c"; "b"]
       (MkWorker ∅ 999 ∅ true) [].

Lemma bg0_pool : pool_ok bg0.
Proof. intros _. apply map_Forall_empty. Qed.

Lemma worker_deletes_only_requested_witness : "a" ∈ requested bg0 ∨ BRequest "a" ∈ [BPublish "a"; BTurn ∅].
Proof.
  refine (worker_deletes_only_requested [BPublish "a"; BTurn ∅] bg0 "a" bg0_pool _ _).
  - apply (bool_decide_unpack _). by vm_compute.
  - apply (bool_decide_unpack _). by vm_compute.
Defined.

Lemma no_create n : BCreate "a" ∉ replicate n (BTurn ∅).
Proof. intros [? _]%elem_of_replicate. done. Qed.
Lemma turns_replicate n : turns (replicate n (BTurn ∅)) = Z.of_nat n.
Proof. induction n as [|n IH]; [done|]. cbn [replicate turns]. lia. Qed.

Lemma worker_deletes_requested_witness :
  "a" ∉ fs_names (bg_fs (bg_run (BRequest "a" :: replicate 1000 (BTurn ∅)) bg0)).
Proof.
  refine (worker_deletes_requested (replicate 1000 (BTurn ∅)) bg0 "a" bg0_pool eq_refl _ _ _ (no_create 1000) _).
  - by eexists.
  - done.
  - rewrite turns_replicate. lia.
  - intros fails [[= ->] _]%elem_of_replicate. by apply not_elem_of_empty.
Defined.

Lemma refused_deletion_forgotten_witness : "a" ∈ fs_names (bg_fs (bg_run (BTurn {["a"]} :: replicate 5 (BTurn ∅)) bg0)).
Proof.
  refine (refused_deletion_forgotten {["a"]} (replicate 5 (BTurn ∅)) bg0 "a" bg0_pool _ eq_refl _ _).
  - apply (bool_decide_unpack _). by vm_compute.
  - by apply elem_of_singleton.
  - intros [? _]%elem_of_replicate. done.
Defined.

Lemma worker_flushes_published_witness :
  ∃ e' fl, worker_turn ∅ bg0 = (Ok tt, e') ∧ pool_ok e' ∧ bg_rx e' = [] ∧ flushed e' = [] ++ fl ∧
    ∀ p, p ∈ bg_rx bg0 → p ∈ fs_names (bg_fs bg0) → p ∈ fl.
Proof. exact (worker_flushes_published ∅ bg0 bg0_pool). Defined.
