(* ===== verification/ClusterWitnesses.v ===== *)
(** Concrete runs of the distributed layer, with a reference serialisation. *)

From stdpp Require Import countable.
From S2P Require Import Prelude Config Storage Block Trackers Reader Writer Core Batch Walrus Recovery EngineInv Fifo Instances Witnesses WalrusEngine.

From S2P Require Import Metadata WalKey Bucket Controller ClusterInv ClusterOps ClusterQueues Client.

#[local] Open Scope Z_scope.

#[global] Instance TopicState_eq_dec : EqDecision TopicState.
Proof. solve_decision. Defined.
#[global] Instance ClusterState_eq_dec : EqDecision ClusterState.
Proof. solve_decision. Defined.
#[global] Instance MetadataCmd_eq_dec : EqDecision MetadataCmd.
Proof. solve_decision. Defined.

#[global] Instance TopicState_countable : Countable TopicState.
Proof.
  refine (inj_countable'
    (λ t, (current_segment t, leader_node t, last_sealed_entry_offset t, sealed_segments t, segment_leaders t))
    (λ '(a, b, c, d, e), MkTopic a b c d e) _). by intros [].
Defined.
#[global] Instance ClusterState_countable : Countable ClusterState.
Proof. refine (inj_countable' (λ c, (topics c, nodes c)) (λ '(t, n), MkCluster t n) _). by intros []. Defined.
#[global] Instance MetadataCmd_countable : Countable MetadataCmd.
Proof.
  refine (inj_countable'
    (λ c, match c with CreateTopic n l => inl (n, l) | RolloverTopic n l k => inr (inl (n, l, k))
                     | UpsertNode i a => inr (inr (i, a)) end)
    (λ c, match c with inl (n, l) => CreateTopic n l | inr (inl (n, l, k)) => RolloverTopic n l k
                     | inr (inr (i, a)) => UpsertNode i a end) _). by intros [].
Defined.

(** A serialisation by enumeration, in place of [bincode]. *)
#[global] Instance ref_bincode {A} `{Countable A} : Bincode A := {
  serialize a := [Z.pos (encode a)];
  deserialize bs := match bs with [Z.pos p] => decode p | _ => None end;
}.
#[global] Instance ref_bincode_laws {A} `{Countable A} : BincodeLaws A.
Proof. split. intros a. apply decode_encode. Qed.

Definition cmds0 : list MetadataCmd :=
  [CreateTopic "a" 7; UpsertNode 7 "h:1"; RolloverTopic "a" 8 3; RolloverTopic "b" 8 3; CreateTopic "a" 9].

Lemma metadata_refines_spec_witness :
  (apply_log (serialize <$> cmds0) default_cluster).1 =
    [inl "CREATED"; inl "NODE"; inl "ROLLED"; inr "Topic not found"; inl "EXISTS"].
Proof. rewrite (proj1 (metadata_refines_spec cmds0 ltac:(by vm_compute))). reflexivity. Defined.

Lemma snapshot_then_log_witness :
  let log1 := serialize <$> take 2 cmds0 in
  let log2 := serialize <$> drop 2 cmds0 in
  (apply_log log2 (restore (snapshot (apply_log log1 default_cluster).2) default_cluster).2).2 =
    (apply_log (serialize <$> cmds0) default_cluster).2.
Proof.
  exact (proj2 (snapshot_then_log (serialize <$> take 2 cmds0) (serialize <$> drop 2 cmds0) default_cluster)).
Defined.

Lemma rollover_not_idempotent_witness :
  let st := MkCluster {["a" := concrete ([], 7)]} ∅ in
  topics (apply_cmd (RolloverTopic "a" 8 3) (apply_cmd (RolloverTopic "a" 8 3) st).2).2 !! "a" =
    Some (concrete ([(7, 3); (8, 3)], 8)).
Proof. exact (rollover_not_idempotent "a" 8 3 [] 7 (MkCluster {["a" := concrete ([], 7)]} ∅) eq_refl ltac:(by vm_compute)). Defined.

Lemma wal_key_roundtrip_witness : parse_wal_key "t_a_s_b_s_12" = Some ("a_s_b", 12).
Proof. exact (proj1 (wal_key_roundtrip "a_s_b" 12 "" 0 ltac:(split; by vm_compute) ltac:(split; by vm_compute))). Defined.

(** ** A cluster of two nodes *)

#[global] Instance TestControl_eq_dec : EqDecision TestControl.
Proof. solve_decision. Defined.
#[global] Instance InternalOp_eq_dec : EqDecision InternalOp.
Proof. solve_decision. Defined.
#[global] Instance InternalResp_eq_dec : EqDecision InternalResp.
Proof. solve_decision. Defined.

#[global] Instance TestControl_countable : Countable TestControl.
Proof.
  refine (inj_countable'
    (λ c, match c with ForceForwardReadError f => inl f | RevokeLeases t => inr (inl t)
          | TriggerJoin i a => inr (inr (inl (i, a))) | SyncLeases => inr (inr (inr 0))
          | ForceMonitorError => inr (inr (inr 1)) | ForceDirSizeError => inr (inr (inr 2)) end)
    (λ c, match c with inl f => ForceForwardReadError f | inr (inl t) => RevokeLeases t
          | inr (inr (inl (i, a))) => TriggerJoin i a | inr (inr (inr 0)) => SyncLeases
          | inr (inr (inr 1)) => ForceMonitorError | inr (inr (inr _)) => ForceDirSizeError end) _). by intros [].
Defined.
#[global] Instance InternalOp_countable : Countable InternalOp.
Proof.
  refine (inj_countable'
    (λ c, match c with ForwardAppend k d => inl (k, d) | ForwardRead k m => inr (inl (k, m))
          | ForwardMetadata cmd => inr (inr (inl cmd)) | JoinCluster i a => inr (inr (inr (inl (i, a))))
          | OpTestControl c => inr (inr (inr (inr c))) end)
    (λ c, match c with inl (k, d) => ForwardAppend k d | inr (inl (k, m)) => ForwardRead k m
          | inr (inr (inl cmd)) => ForwardMetadata cmd | inr (inr (inr (inl (i, a)))) => JoinCluster i a
          | inr (inr (inr (inr c))) => OpTestControl c end) _). by intros [].
Defined.
#[global] Instance InternalResp_countable : Countable InternalResp.
Proof.
  refine (inj_countable'
    (λ r, match r with RespOk => inl (inl 0) | ReadResult d h => inl (inr (d, h)) | RespError e => inr e end)
    (λ r, match r with inl (inl _) => RespOk | inl (inr (d, h)) => ReadResult d h | inr e => RespError e end) _).
  by intros [].
Defined.

(** Node 1 leads consensus; a segment takes two entries. *)
Definition view0 : RaftView :=
  MkView (λ i, i =? 1) (λ _ _, Some 1) (λ _, [[1; 2]])
    (λ a, if String.eqb a "h:1" then Some 1 else if String.eqb a "h:2" then Some 2 else None)
    (λ _, false) None (λ _, None) (λ _, 1) (Some "2").

Definition log0 : list (list Z) := serialize <$> [UpsertNode 1 "h:1"; UpsertNode 2 "h:2"].
Definition meta0 : ClusterState := MkCluster ∅ {[1 := "h:1"; 2 := "h:2"]}.

Definition node0 {E} (e : E) : Node E := MkNode (MkStorage e ∅ ∅) meta0 2 ∅ ∅ false false false.
Definition cluster0 {E} (e1 e2 : E) : Cluster E := MkCl {[1 := node0 e1; 2 := node0 e2]} log0 view0.

#[global] Instance ids0 : NodeIds := ({[1; 2]} : gset Z).

Lemma cluster0_members {E} (e1 e2 : E) i n :
  members (cluster0 e1 e2) !! i = Some n → i = 1 ∧ n = node0 e1 ∨ i = 2 ∧ n = node0 e2.
Proof.
  cbn. destruct (decide (i = 1)) as [->|]; [rewrite lookup_insert_eq; intros [= <-]; by left|].
  rewrite lookup_insert_ne //. destruct (decide (i = 2)) as [->|].
  - rewrite lookup_insert_eq. intros [= <-]. by right.
  - by rewrite lookup_insert_ne.
Qed.

Lemma cluster0_fresh `{QueueEngine E} e1 e2 b :
  holds b e1 (λ _, []) → holds b e2 (λ _, []) → fresh_cluster b 1 (cluster0 e1 e2) meta0.
Proof.
  intros H1 H2. split_and!; [|done|].
  - assert (∀ i, is_Some (members (cluster0 e1 e2) !! i) ↔ i = 1 ∨ i = 2) as Hm.
    { intros i. split; [by intros [n [[-> _]|[-> _]]%cluster0_members]; [left|right]|].
      intros [->| ->]; by eexists. }
    split; try done.
    + intros i. rewrite Hm /node_ids /ids0. set_solver.
    + intros i _. cbn. by case_bool_decide; destruct (Z.eqb_spec i 1).
    + intros j [->| ->]%Hm; by eexists.
    + intros i j. cbn [view cluster0 joint_config view0]. assert (voters_of [[1; 2]] = [1; 2]) as -> by by vm_compute.
      rewrite Hm !elem_of_cons. intros [?|[?|[]%not_elem_of_nil]]; auto.
    + intros j [a Ha]. apply Hm. cbn in Ha. destruct (decide (j = 1)); [by left|]. destruct (decide (j = 2)); [by right|].
      by rewrite !lookup_insert_ne in Ha.
  - by intros i n [[-> ->]|[-> ->]]%cluster0_members.
Qed.

(** Keys of topics with short names are short. *)
Lemma pretty_go_len (d : nat) x s :
  (x < 10 ^ N.of_nat d)%N → (String.length (pretty_N_go x s) ≤ d + String.length s)%nat.
Proof.
  revert x s. induction d as [|d IH]; intros x s Hx.
  { assert (x = 0%N) as -> by (cbn in Hx; lia). by rewrite pretty_N_go_0. }
  destruct (decide (0 < x)%N) as [Hp|Hp]; last first.
  { assert (x = 0%N) as -> by lia. rewrite pretty_N_go_0. lia. }
  rewrite pretty_N_go_step //. etrans; [apply IH|cbn; lia]. apply N.Div0.div_lt_upper_bound.
  rewrite Nat2N.inj_succ N.pow_succ_r' in Hx. lia.
Qed.

Lemma pretty_len (z : Z) : is_u64 z → (String.length (pretty (Z.to_N z)) ≤ 20)%nat.
Proof.
  intros Hz. rewrite /pretty /pretty_N. case_decide; [cbn; lia|]. etrans; [apply (pretty_go_len 20)|cbn; lia].
  rewrite /is_u64 /U64_MAX in Hz. change (10 ^ N.of_nat 20)%N with 100000000000000000000%N. lia.
Qed.

Lemma length_list_ascii s : length (String.list_ascii_of_string s) = String.length s.
Proof. induction s; cbn; congruence. Qed.

Lemma string_length_app a b : String.length (a +:+ b) = (String.length a + String.length b)%nat.
Proof. induction a as [|x a IH]; [done|]. change (S (String.length (a +:+ b)) = S (String.length a) + String.length b)%nat. lia. Qed.

Lemma key_fits t d k :
  (String.length t ≤ 100)%nat → len d ≤ 1000 → is_u64 k → batch_fits (wal_key t k) [d].
Proof.
  intros Ht Hd Hk. assert (fits (wal_key t k) d) as Hf.
  { apply ref_fits; [rewrite /entry_need; consts|]. rewrite /len /name_bytes length_fmap length_list_ascii.
    rewrite /wal_key !string_length_app. pose proof (pretty_len k Hk). cbn. lia. }
  split_and!; [by constructor|done|]. pose proof (len_nonneg d). rewrite /batch_total /= /entry_need. consts.
Qed.

Definition short_cop (o : cop) : bool :=
  match o with
  | CRegister i _ | CGet i _ => bool_decide (i ∈ (node_ids : gset Z))
  | CPut i t d => bool_decide (i ∈ (node_ids : gset Z)) && (String.length t <=? 100)%nat && (len d <=? 1000)
  end.

Lemma short_cop_ok o : short_cop o = true → cop_ok o.
Proof.
  destruct o as [i t|i t d|i t]; cbn; [by intros ?%bool_decide_eq_true| |by intros ?%bool_decide_eq_true].
  rewrite !andb_true_iff. intros [[Hi%bool_decide_eq_true Ht%Nat.leb_le] Hd%Z.leb_le].
  split; [done|]. intros k Hk. by apply key_fits.
Qed.

Lemma short_cops os : forallb short_cop os = true → Forall (λ o, short_cop o = true) os.
Proof. intros Hs. apply Forall_forall. intros o Ho. eapply forallb_forall; [done|]. by apply list_elem_of_In. Qed.

(** Four entries through both nodes, with a rollover after every second one; the reads go through
    different nodes too. *)
Definition cops0 : list cop :=
  [CPut 2 "a" [0]; CRegister 1 "a"; CPut 1 "a" [1]; CPut 2 "a" [2]; CPut 1 "a" [3]; CGet 2 "a";
   CGet 1 "a"; CPut 2 "a" [4]; CPut 1 "a" [5]; CGet 1 "a"; CGet 2 "a"; CGet 2 "a"; CGet 1 "a"; CGet 1 "b"].

Lemma cluster_refines_queues_witness :
  ∃ W, with_paths pm0 StrictlyAtOnce SyncEach trk0 fs0 = (Ok W, wa_fs W) ∧
    (run_cops 2 cops0 (cluster0 W W)).1 =
      [unknown_topic "a"; Ok None; Ok None; Ok None; Ok None; Ok (Some [1]); Ok (Some [2]); Ok None;
       Ok None; Ok (Some [3]); Ok (Some [4]); Ok (Some [5]); Ok None; unknown_topic "b"].
Proof.
  destruct (walrus_holds_fresh pm0 StrictlyAtOnce SyncEach trk0 fs0 (len cops0)) as (W & E & Hh);
    [apply fs0_inv|apply fs0_fresh|by apply fs0_good|by vm_compute|].
  exists W. split; [exact E|].
  refine (cluster_refines_queues 0 1 (cluster0 W W) meta0 cops0 _ _ _).
  - exact (cluster0_fresh W W _ Hh Hh).
  - by vm_compute.
  - apply Forall_forall. intros o Ho. apply short_cop_ok. revert o Ho. apply Forall_forall, short_cops. by vm_compute.
Defined.

(** ** A rollover that overtakes an append *)

(** An engine that is just its queues. *)
#[local] Instance queue_engine : Engine (gmap string (list (list Z))) := {
  engine_append k ds := modify (λ m, <[k := default [] (m !! k) ++ ds]> m);
  engine_read k checkpoint := λ m,
    (Ok (head (default [] (m !! k))), if checkpoint then <[k := tail (default [] (m !! k))]> m else m);
  engine_size k m := len (default [] (m !! k));
}.

(** Requests, and the moments ([None]) at which the replicas catch up. *)
Fixpoint run_steps (os : list (option cop)) (c : Cluster (gmap string (list (list Z)))) :
    list (outcome (option (list Z))) * Cluster (gmap string (list (list Z))) :=
  match os with
  | [] => ([], c)
  | None :: os => run_steps os (sync c)
  | Some o :: os => let '(r, c) := run_cop 2 o c in let '(rs, c) := run_steps os c in (r :: rs, c)
  end.

(** Node 2 leads the topic, node 1 leads consensus. The third entry arrives at node 2 after
    the rollover of the full segment was committed, before node 2 has applied it. *)
Definition late_run (d1 d2 d3 : list Z) : list (option cop) :=
  [Some (CRegister 1 "a"); None; Some (CPut 2 "a" d1); Some (CPut 2 "a" d2); Some (CPut 2 "a" d3);
   None; Some (CGet 2 "a"); Some (CGet 2 "a"); Some (CGet 2 "a")].

Definition late_state (d1 d2 d3 : list Z) : Cluster (gmap string (list (list Z))) :=
  (run_steps (late_run d1 d2 d3) (cluster0 ∅ ∅)).2.

Lemma late_state_empty d1 d2 d3 :
  run_cop 2 (CGet 2 "a") (late_state d1 d2 d3) = (Ok None, late_state d1 d2 d3).
Proof. vm_compute. reflexivity. Qed.

Lemma run_steps_app os os' c :
  run_steps (os ++ os') c =
    let '(rs, c) := run_steps os c in let '(rs', c) := run_steps os' c in (rs ++ rs', c).
Proof.
  revert c. induction os as [|[o|] os IH]; intros c; cbn; [by destruct (run_steps os' c)| |by rewrite IH].
  destruct (run_cop 2 o c) as [r c1]. rewrite IH. destruct (run_steps os c1) as [rs c2].
  by destruct (run_steps os' c2).
Qed.

(** a rollover carries the entry count its proposer read, and a leader whose replica has not
    applied the rollover yet goes on accepting entries for the sealed segment. In this run
    (a segment takes two entries; the topic's leader is not the leader of consensus) three
    puts are acknowledged, but however often the topic is read only two entries are
    delivered, whatever the entries are. *)
Theorem late_append_lost d1 d2 d3 n :
  (run_steps (late_run d1 d2 d3 ++ replicate n (Some (CGet 2 "a"))) (cluster0 ∅ ∅)).1 =
    [Ok None; Ok None; Ok None; Ok None; Ok (Some d1); Ok (Some d2); Ok None] ++ replicate n (Ok None).
Proof.
  rewrite run_steps_app. destruct (run_steps (late_run d1 d2 d3) (cluster0 ∅ ∅)) as [rs c] eqn:E.
  assert (c = late_state d1 d2 d3) as -> by by rewrite /late_state E.
  assert (rs = [Ok None; Ok None; Ok None; Ok None; Ok (Some d1); Ok (Some d2); Ok None]) as ->.
  { change rs with (rs, late_state d1 d2 d3).1. rewrite -E. vm_compute. reflexivity. }
  clear E. assert (run_steps (replicate n (Some (CGet 2 "a"))) (late_state d1 d2 d3) =
    (replicate n (Ok None), late_state d1 d2 d3)) as ->; [|done].
  induction n as [|n IH]; [done|]. cbn [replicate run_steps]. by rewrite late_state_empty IH.
Qed.

(** ** The client protocol *)

Definition json0 (_ : TopicState) : string := "{}".
Definition metrics0 (_ : Z) (_ : Cluster (gmap string (list (list Z)))) : string := "{}".

Lemma hexstring_roundtrip_witness : parse_hexstring (str "0x00ff1a") tt = (Ok [0; 255; 26], tt).
Proof. refine (hexstring_roundtrip [0; 255; 26] tt _). repeat constructor; done. Defined.

(** [0xabz\u{e9}1]: the second slice ends inside the accented letter. *)
Lemma hexstring_panics_witness :
  parse_hexstring (str "0x" ++ hex_pairs [0xab] ++ 122 :: 0xC3 :: 0xA9 :: [49]) tt = (Panic, tt).
Proof. refine (hexstring_panics [0xab] 122 0xC3 0xA9 [49] tt _ _ _ _); [repeat constructor; done|done..]. Defined.

Lemma frames_in_order_witness :
  handle_connection json0 metrics0 2 1 (concat (frame <$> [str "REGISTER a"; str "PUT a 0x1"; str "GET a"])) (cluster0 ∅ ∅) =
  answers json0 metrics0 2 1 [str "REGISTER a"; str "PUT a 0x1"; str "GET a"] [] (cluster0 ∅ ∅).
Proof.
  exact (frames_in_order json0 metrics0 2 1 [str "REGISTER a"; str "PUT a 0x1"; str "GET a"] (cluster0 ∅ ∅)
    ltac:(repeat constructor; done)).
Defined.

Lemma oversized_frame_desyncs_witness :
  handle_connection json0 metrics0 2 1 (frame (replicate 65537 0) ++ []) (cluster0 ∅ ∅) =
    (let! r := handle_connection json0 metrics0 2 1 (replicate 65537 0 ++ []) in
     ret (send_response (str "ERR invalid frame length") ++ r.1, r.2)) (cluster0 ∅ ∅).
Proof.
  refine (oversized_frame_desyncs json0 metrics0 2 1 (replicate 65537 0) [] (cluster0 ∅ ∅) _).
  rewrite /len length_replicate. done.
Defined.

Lemma put_get_text_witness :
  handle_command json0 metrics0 2 1 (str "PUT" ++ 0x20 :: str "a" ++ 0x20 :: encode_hexstring [1; 2]) (cluster0 ∅ ∅) =
    (append_for_topic 2 1 (to_string (str "a")) [1; 2];; ret (str "OK"))%walrus (cluster0 ∅ ∅).
Proof.
  refine (proj1 (put_get_text json0 metrics0 2 1 (str "a") [1; 2] (cluster0 ∅ ∅) _ _)); repeat constructor; done.
Defined.
