(* ===== verification/RaftWitnesses.v ===== *)
(** Concrete runs of the log store and the Raft state machines. *)

From stdpp Require Import countable relations.
From S2P Require Import Prelude Config Storage Block Trackers Allocator Reader Writer Core Batch Walrus BatchRead Recovery EngineInv BatchReadOk BatchReadInv Fifo Instances Witnesses Bucket OctopiiWal WalrusEngine.

From S2P Require Import Metadata ClusterWitnesses LogStore LogStoreOk RaftMachine.

#[local] Open Scope Z_scope.

(** * A serialisation of the records *)

#[global] Instance LeaderId_eq_dec : EqDecision LeaderId.
Proof. solve_decision. Defined.
#[global] Instance LogId_eq_dec : EqDecision LogId.
Proof. solve_decision. Defined.
#[global] Instance Vote_eq_dec : EqDecision Vote.
Proof. solve_decision. Defined.
#[global] Instance EntryPayload_eq_dec {Mem} `{EqDecision Mem} : EqDecision (EntryPayload Mem).
Proof. solve_decision. Defined.
#[global] Instance Entry_eq_dec {Mem} `{EqDecision Mem} : EqDecision (Entry Mem).
Proof. solve_decision. Defined.
#[global] Instance WalLogRecord_eq_dec {Mem} `{EqDecision Mem} : EqDecision (WalLogRecord Mem).
Proof. solve_decision. Defined.

#[global] Instance LogId_countable : Countable LogId.
Proof.
  refine (inj_countable' (λ i, (term (leader_id i), node_id (leader_id i), index i))
    (λ '(t, n, i), MkLogId (MkLeaderId t n) i) _). by intros [[]].
Defined.
#[global] Instance Vote_countable : Countable Vote.
Proof.
  refine (inj_countable' (λ v, (term (vote_leader v), node_id (vote_leader v), vote_committed v))
    (λ '(t, n, c), MkVote (MkLeaderId t n) c) _). by intros [[]].
Defined.
#[global] Instance Entry_countable {Mem} `{Countable Mem} : Countable (Entry Mem).
Proof.
  refine (inj_countable'
    (λ e, (log_id e, match payload e with Blank => inl () | Normal d => inr (inl d) | Membership m => inr (inr m) end))
    (λ '(i, p), MkEntry i (match p with inl _ => Blank | inr (inl d) => Normal d | inr (inr m) => Membership m end)) _).
  by intros [? []].
Defined.
#[global] Instance WalLogRecord_countable {Mem} `{Countable Mem} : Countable (WalLogRecord Mem).
Proof.
  refine (inj_countable'
    (λ r, match r with RecLogEntry e => inl (inl e) | RecVote v => inl (inr v) | RecCommitted c => inr (inl c)
                     | RecPurged i => inr (inr (inl i)) | RecTruncated i => inr (inr (inr i)) end)
    (λ r, match r with inl (inl e) => RecLogEntry e | inl (inr v) => RecVote v | inr (inl c) => RecCommitted c
                     | inr (inr (inl i)) => RecPurged i | inr (inr (inr i)) => RecTruncated i end) _).
  by intros [].
Defined.

#[global] Instance ref_bincode_tagged {Mem} `{Countable Mem} : BincodeTagged (WalLogRecord Mem).
Proof. by split. Qed.

(** * The write-ahead log, on the engine *)

Lemma fresh_topic n :
  0 ≤ n ≤ 400 → ∃ W, with_paths pm0 StrictlyAtOnce (Milliseconds 200) trk0 fs0 = (Ok W, wa_fs W) ∧ wt_holds n W [].
Proof.
  intros Hn. destruct (walrus_holds_fresh pm0 StrictlyAtOnce (Milliseconds 200) trk0 fs0 n) as (W & E & Hh).
  - apply fs0_inv.
  - apply fs0_fresh.
  - apply fs0_good. lia.
  - rewrite /U64_MAX. lia.
  - exists W. split; [exact E|]. exists (λ _, []). split; [exact Hh|reflexivity].
Qed.

Lemma accepts_short (d : list Z) : len d ≤ 1000 → wt_accepts (E := Walrus) d.
Proof. intros Hd. apply fits_short; [by vm_compute|done]. Qed.

(** Two records are appended and read back; one is empty. *)
Lemma read_all_drains_witness :
  ∃ W w w' o, with_paths pm0 StrictlyAtOnce (Milliseconds 200) trk0 fs0 = (Ok W, wa_fs W) ∧
    (wal_append [1; 2];; wal_append []) (new_wal W) = (o, w) ∧ read_all 5 w = (Ok [[1; 2]], w').
Proof.
  destruct (fresh_topic 2) as (W & E & Hh); [lia|].
  destruct (wal_append_ok 1 (new_wal W) [] [1; 2]) as (w1 & E1 & Hh1); [lia|by apply accepts_short|exact Hh|].
  destruct (wal_append_ok 0 w1 [[1; 2]] []) as (w2 & E2 & Hh2); [lia|by apply accepts_short|exact Hh1|].
  destruct (read_all_drains 0 w2 [[1; 2]; []] 5 Hh2) as (w3 & E3 & _).
  - split; by vm_compute.
  - cbn. lia.
  - exists W, w2, w3. eexists. split; [exact E|]. split; [|exact E3]. rewrite /bind E1. exact E2.
Defined.

(** * The log store *)

Definition id0 (i : Z) : LogId := MkLogId (MkLeaderId 1 7) i.
Definition entry0 (i : Z) : Entry unit := MkEntry (id0 i) (Normal [i]).

(** A vote, four entries, a truncation of the last two, one entry again, a purge and reads. *)
Definition log_ops0 : list (log_op unit) :=
  [LSaveVote (MkVote (MkLeaderId 1 7) true); LAppend (entry0 <$> [0; 1; 2; 3]); LTruncate (id0 2);
   LAppend [entry0 2]; LSaveCommitted (Some (id0 1)); LPurge (id0 0); LGetState;
   LRead (Included 0) (Excluded 2); LReadVote; LReadCommitted].

Definition answers0 : list (log_answer unit) :=
  [ADone; ADone; ADone; ADone; ADone; ADone; AState (Some (id0 0)) (Some (id0 2)); AEntries [entry0 1];
   AVote (Some (MkVote (MkLeaderId 1 7) true)); ACommitted (Some (id0 1))].

Lemma log_answers0 : (spec_log_ops log_ops0 empty_log).1 = answers0.
Proof. vm_compute. reflexivity. Qed.

Lemma run_from_lookup {Mem} a (es : list (Entry Mem)) :
  Forall (λ '(i, e), entry_index e = a + Z.of_nat i) (imap pair es) → run_from a es.
Proof.
  intros Hf i e He. rewrite Forall_lookup in Hf. specialize (Hf i (i, e)). cbn in Hf. apply Hf.
  by rewrite list_lookup_imap He.
Qed.

Lemma log_ops0_ok : log_ops_ok log_ops0 empty_log.
Proof. cbn. split_and!; try done; apply run_from_lookup; by repeat constructor. Qed.

Lemma log_records0_accepted : Forall (λ r, wt_accepts (E := Walrus) (serialize r)) (all_records log_ops0).
Proof. apply Forall_forall. intros r _. by apply accepts_short. Qed.

Lemma log_records0_covered : batch_covers true READ_ALL_BYTES (serialize <$> all_records log_ops0).
Proof. split; by vm_compute. Qed.

Lemma wal_store_refines_log_witness :
  ∃ W s, with_paths pm0 StrictlyAtOnce (Milliseconds 200) trk0 fs0 = (Ok W, wa_fs W) ∧
    run_wal_ops log_ops0 (MkStore default_inner (new_wal W)) = (Ok answers0, s).
Proof.
  destruct (fresh_topic 9) as (W & E & Hh); [lia|].
  destruct (wal_store_refines_log W log_ops0 Hh log_ops0_ok log_records0_accepted) as (s & Hs).
  rewrite log_answers0 in Hs. exists W, s. split; [exact E|exact Hs].
Defined.

Lemma wal_store_recovers_witness :
  ∃ W s w, with_paths pm0 StrictlyAtOnce (Milliseconds 200) trk0 fs0 = (Ok W, wa_fs W) ∧
    run_wal_ops log_ops0 (MkStore default_inner (new_wal W)) = (Ok answers0, s) ∧
    WalLogStore_new 20 (st_wal s) = (Ok tt, MkStore (st_inner s) w).
Proof.
  destruct (fresh_topic 9) as (W & E & Hh); [lia|].
  destruct (wal_store_recovers W log_ops0 20 Hh log_ops0_ok log_records0_accepted log_records0_covered) as (s & w & Hs & Hn).
  - vm_compute. lia.
  - rewrite log_answers0 in Hs. exists W, s, w. split; [exact E|]. split; [exact Hs|exact Hn].
Defined.

Lemma wal_recovery_consumes_witness :
  ∃ W s (s1 s2 : WalLogStore unit Walrus), with_paths pm0 StrictlyAtOnce (Milliseconds 200) trk0 fs0 = (Ok W, wa_fs W) ∧
    run_wal_ops log_ops0 (MkStore default_inner (new_wal W)) = (Ok answers0, s) ∧
    WalLogStore_new 20 (st_wal s) = (Ok tt, s1) ∧ vote (st_inner s1) = Some (MkVote (MkLeaderId 1 7) true) ∧
    WalLogStore_new 20 (st_wal s1) = (Ok tt, s2) ∧ st_inner s2 = default_inner.
Proof.
  destruct (fresh_topic 9) as (W & E & Hh); [lia|].
  destruct (wal_recovery_consumes W log_ops0 20 Hh log_ops0_ok log_records0_accepted log_records0_covered) as (s & s1 & s2 & Hs & Hn & Hv & Hn2 & He).
  - vm_compute. lia.
  - rewrite log_answers0 in Hs. exists W, s, s1, s2. split; [exact E|]. split; [exact Hs|]. split; [exact Hn|].
    split; [exact Hv|]. split; [exact Hn2|exact He].
Defined.

(** * State machines *)

Definition set_cmd (s : string) : Entry unit := MkEntry (id0 5) (Normal (Client.str s)).

#[global] Instance ref_empty_map_bytes : EmptyMapBytes.
Proof. split. vm_compute. reflexivity. Qed.
#[global] Instance ref_empty_map_short : EmptyMapShort.
Proof. split. vm_compute. reflexivity. Qed.

(** One node applies an entry and builds a snapshot; another one starts empty. *)
Section one_snapshot.
Context {S : Type} `{StateMachineTrait S} (s0 : S) (e : Entry unit).

Definition machine1 : MemStateMachine unit S := (apply_entry e None (new_machine tt s0)).2.
Definition snapshot1 : SnapshotMeta unit * bytes :=
  (MkMeta (Some (log_id e)) (last_membership (state_machine machine1)) (make_snapshot_id (Some (log_id e)) 1), no_data).
Definition group1 : group (Mem := unit) (S := S) :=
  MkGroup (<[1%nat := (build_snapshot machine1).2]> (<[1%nat := machine1]> (<[1%nat := new_machine tt s0]> (<[0%nat := new_machine tt s0]> ∅))))
    [snapshot1].

Lemma group1_reached c bs :
  payload e = Normal c → (sm_apply c s0).1 = inl bs → rtc (group_step tt) empty_group group1.
Proof.
  intros Hp Ha. eapply rtc_l; [apply (gs_start tt empty_group 0 s0); done|].
  eapply rtc_l; [apply (gs_start tt _ 1 s0); by rewrite /= lookup_insert_ne|].
  eapply rtc_l; [apply (gs_apply tt _ 1 (new_machine tt s0) [inl (e, None)] (Ok tt) machine1); [by rewrite /= lookup_insert_eq|]|].
  { rewrite /machine1 /apply_entry /= /apply_entry /bind /modify /getS Hp /=. by destruct (sm_apply c s0) as [[] ?]. }
  eapply rtc_l; [apply (gs_build tt _ 1 machine1 snapshot1 (build_snapshot machine1).2); [by rewrite /= lookup_insert_eq|]|apply rtc_refl].
  rewrite /build_snapshot /bind /getS /modify /ret /snapshot1 /no_data /machine1 /apply_entry /bind /modify /getS Hp /=.
  by destruct (sm_apply c s0) as [[] ?].
Qed.
End one_snapshot.

Definition kv_group : group := group1 (∅ : KvMap) (set_cmd "SET a b").

Lemma kv_group_reached : rtc (group_step tt) empty_group kv_group.
Proof. eapply (group1_reached (∅ : KvMap) (set_cmd "SET a b")); [reflexivity|]. vm_compute. reflexivity. Qed.

Lemma snapshots_carry_nothing_witness :
  g_snaps kv_group ≠ [] ∧ Forall (λ sn, sn.2 = no_data) (g_snaps kv_group) ∧
  map_Forall (λ _ m, data (state_machine m) = ∅) (g_nodes kv_group).
Proof. split; [discriminate|]. apply (snapshots_carry_nothing tt kv_group). apply kv_group_reached. Defined.

(** The leader holds the key; the follower that installs its snapshot does not. *)
Lemma kv_snapshot_loses_keys_witness :
  sm (machine1 (∅ : KvMap) (set_cmd "SET a b")) !! Client.str "a" = Some (Client.str "b") ∧
  ∃ f', install_snapshot (snapshot1 (∅ : KvMap) (set_cmd "SET a b")).1 no_data (new_machine tt (∅ : KvMap)) = (Ok tt, f') ∧
    sm f' = ∅ ∧ last_applied_log (state_machine f') = Some (id0 5).
Proof.
  split; [vm_compute; reflexivity|].
  apply (kv_snapshot_loses_keys tt kv_group 0 (snapshot1 (∅ : KvMap) (set_cmd "SET a b")).1 no_data (new_machine tt (∅ : KvMap))).
  - apply kv_group_reached.
  - apply list_elem_of_here.
  - vm_compute. reflexivity.
Defined.

Definition meta_cmd : Entry unit := MkEntry (id0 5) (Normal (serialize (CreateTopic "a" 7))).
Definition meta_group : group := group1 default_cluster meta_cmd.

Lemma meta_group_reached : rtc (group_step tt) empty_group meta_group.
Proof. eapply (group1_reached default_cluster meta_cmd); [reflexivity|]. vm_compute. reflexivity. Qed.

Lemma metadata_snapshot_fails_witness :
  ∃ f', install_snapshot (snapshot1 default_cluster meta_cmd).1 no_data (new_machine tt default_cluster) =
      (Err (IoError KOther "snapshot decode"), f') ∧ sm f' = default_cluster ∧
    last_applied_log (state_machine f') = Some (id0 5).
Proof.
  apply (metadata_snapshot_fails tt meta_group 0 (snapshot1 default_cluster meta_cmd).1 no_data (new_machine tt default_cluster)).
  - apply meta_group_reached.
  - apply list_elem_of_here.
  - vm_compute. reflexivity.
Defined.

(** A rollover of a topic that does not exist, followed by the creation of another one. *)
Definition bad_cmd : Entry unit := MkEntry (id0 1) (Normal (serialize (RolloverTopic "x" 7 3))).

Lemma failed_command_stops_apply_witness :
  ∃ m2, machine_apply ([inl (meta_cmd, None)] ++ inl (bad_cmd, Some 4%nat) :: [inl (meta_cmd, Some 5%nat)]) (new_machine tt default_cluster) =
      (Err (IoError KOther "Topic not found"), m2) ∧ last_applied_log (state_machine m2) = Some (id0 1) ∧
    sm m2 = sm (machine1 default_cluster meta_cmd) ∧ responses m2 = responses (machine1 default_cluster meta_cmd).
Proof.
  apply (failed_command_stops_apply [inl (meta_cmd, None)] bad_cmd (Some 4%nat) [inl (meta_cmd, Some 5%nat)] (serialize (RolloverTopic "x" 7 3))
    "Topic not found" (new_machine tt default_cluster) (machine1 default_cluster meta_cmd)).
  - vm_compute. reflexivity.
  - reflexivity.
  - vm_compute. reflexivity.
Defined.
