(* ===== verification/ConsensusWitnesses.v ===== *)
(** Runs that meet the hypotheses of the theorems on the consensus library: a group of three nodes elects a
    leader, commits an entry and answers a read, a member is added, and the runtime writes its log. *)

From stdpp Require Import functions strings.
From S2P Require Import Prelude LogStore LogStoreOk RaftQuorum RaftMembership RaftLogIds RaftProgress RaftState RaftEngine RaftCore RaftNet RaftSafety RaftRead RaftCoreOk.

#[local] Open Scope Z_scope.

(** * A group of three *)

Lemma group3_ok : group_ok members3 config_of.
Proof.
  split_and!; [done|by repeat constructor| |done]. intros x y Hne Hx Hy.
  assert (x ∈ [1; 2; 3] ∧ y ∈ [1; 2; 3]) as [Hx' Hy'].
  { assert (ids (to_quorum_set members3) = [1; 2; 3]) as Heq by (vm_compute; done). by rewrite Heq in Hx, Hy. }
  clear Hx Hy. revert Hne. repeat (apply elem_of_cons in Hx' as [-> | Hx']); [..|by apply elem_of_nil in Hx'];
    (repeat (apply elem_of_cons in Hy' as [-> | Hy']); [..|by apply elem_of_nil in Hy']); intros Hne; try done; vm_compute; done.
Qed.

Abbreviation reach := (reachable_world members3 config_of).

(** A node handles an event. *)
Definition wdo (now n : Z) (ev : Event) (w : World) : World :=
  MkWorld (<[n := (handle_event runtime0 now ev (wengine w n)).2]> (wengine w)) (wreqs w).

Lemma wdo_reach now n ev w :
  reach w → delivered w n ev → ev ≠ EvElect → (handle_event runtime0 now ev (wengine w n)).1 = Ok tt → reach (wdo now n ev w).
Proof.
  intros Hr Hd Hev Ho. eapply rtc_r; [exact Hr|]. eapply WHandle; [exact Hd|by intros ?|].
  rewrite -Ho. apply surjective_pairing.
Qed.

Definition wsend (n : Z) (l : CommittedVote) (i j k : nat) (w : World) : World :=
  let log := wlog members3 (wengine w n) in MkWorld (wengine w) (wreqs w ++ [stretch log l i j (log_id <$> last (take k log))]).

Definition lead1 : CommittedVote := MkLeaderId 1 1.
Definition vote_req1 : VoteRequest := MkVoteRequest (vote_of 1) (Some default_log_id).
Definition granted1 : VoteResponse := MkVoteResponse (vote_of 1) true (Some default_log_id).

Definition w0 : World := init_world members3 config_of.
(** Node 1 stands for election, node 2 and node 1 itself vote for it. *)
Definition w1 : World := wdo 1000 1 (EvNotify (NTick 0)) w0.
Definition w2 : World := wdo 1000 2 (EvVoteRequest vote_req1 0) w1.
Definition w3 : World := wdo 1000 1 (EvNotify (NVoteResponse 1 (MkVoteResponse (vote_of 1) true None) lead1)) w2.
Definition w4 : World := wdo 1000 1 (EvNotify (NVoteResponse 2 granted1 lead1)) w3.
(** Its blank entry is on disk, and goes to node 2. *)
Definition w5 : World := wdo 1000 1 (EvNotify (NLocalIO (new_log_io lead1 (Some (id_at 1 1))))) w4.
Definition w6 : World := wsend 1 lead1 0 2 0 w5.
Definition w7 : World := wdo 1000 2 (EvAppendEntries (stretch (wlog members3 (wengine w5 1)) lead1 0 2 None) 0) w6.
(** Node 1 commits it, and node 2 hears of that. *)
Definition w8 : World := wdo 1000 1 (EvNotify (NReplicationProgress true (MkSessionId lead1 (Some default_log_id)) 2 (Okay (Okay (Some (id_at 1 1)))))) w7.
Definition w9 : World := wsend 1 lead1 2 2 2 w8.
Definition w10 : World := wdo 1000 2 (EvAppendEntries (stretch (wlog members3 (wengine w8 1)) lead1 2 2 (Some (id_at 1 1))) 1) w9.

Ltac handled := vm_compute; reflexivity.
Ltac put_out i := apply (list_elem_of_lookup_2 _ i); vm_compute; reflexivity.

Lemma w1_reach : reach w1.
Proof. apply wdo_reach; [apply rtc_refl|apply DelNotify, NotTick|done|handled]. Qed.
Lemma w2_reach : reach w2.
Proof. apply wdo_reach; [apply w1_reach|apply (DelVoteRequest _ _ 1); [put_out 1%nat|done]|done|handled]. Qed.
Lemma w3_reach : reach w3.
Proof. apply wdo_reach; [apply w2_reach|apply DelNotify, (NotOwnVote _ _ (vote_of 1)); [put_out 0%nat|done]|done|handled]. Qed.
Lemma w4_reach : reach w4.
Proof. apply wdo_reach; [apply w3_reach|eapply DelNotify, NotVote; put_out 1%nat|done|handled]. Qed.
Lemma w5_reach : reach w5.
Proof.
  apply wdo_reach; [apply w4_reach| |done|handled].
  apply DelNotify. apply (NotLocalIO _ _ (AppendEntries lead1 [MkEntry (id_at 1 1) Blank])); [put_out 4%nat|done].
Qed.

Lemma wsend_reach n l i j k w L :
  reach w → leader (wengine w n) = Some L → leader_vote L = l → (i ≤ j ≤ length (wlog members3 (wengine w n)))%nat →
  Z.of_nat k ≤ next_index (committed (state (wengine w n))) → reach (wsend n l i j k w).
Proof. intros Hr HL <- Hij Hk. eapply rtc_r; [exact Hr|]. by apply WSend. Qed.

Lemma w6_reach : reach w6.
Proof. eapply wsend_reach; [apply w5_reach|handled|handled|vm_compute; lia|vm_compute; done]. Qed.
Lemma w7_reach : reach w7.
Proof. apply wdo_reach; [apply w6_reach|apply DelAppendEntries; [handled|done]|done|handled]. Qed.
Lemma w8_reach : reach w8.
Proof.
  apply wdo_reach; [apply w7_reach| |done|handled]. apply DelNotify.
  replace (Some (id_at 1 1)) with (sent_last (stretch (wlog members3 (wengine w5 1)) lead1 0 2 None)) by handled.
  eapply (NotMatching _ _ 2 _ 0); [handled|done|put_out 4%nat|].
  assert ((leader (wengine w7 1) ≫= λ l, try_get 2 (progress l)) ≫= matching = None) as Hnone by handled.
  intros l ent Hl Hent. rewrite Hl /= Hent /= in Hnone. by rewrite Hnone.
Qed.
Lemma w9_reach : reach w9.
Proof. eapply wsend_reach; [apply w8_reach|handled|handled|vm_compute; lia|vm_compute; done]. Qed.
Lemma w10_reach : reach w10.
Proof. apply wdo_reach; [apply w9_reach|apply DelAppendEntries; [handled|done]|done|handled]. Qed.






(** ** A group that is not orderly *)

Abbreviation reach_anyhow := (reachable_anyhow members3 config_of).

Lemma wdo_anyhow now n ev w :
  reach_anyhow w → delivered w n ev → (handle_event runtime0 now ev (wengine w n)).1 = Ok tt → reach_anyhow (wdo now n ev w).
Proof.
  intros Hr Hd Ho. eapply rtc_r; [exact Hr|]. eapply WHandle; [exact Hd|done|]. rewrite -Ho. apply surjective_pairing.
Qed.

Lemma reach_reach_anyhow w : reach w → reach_anyhow w.
Proof.
  apply rtc_subrel. intros x y Hs. destruct Hs as [w' n rt now ev e' Hd _ He|w' n l i j k Hl Hij Hk]; [by eapply WHandle|by apply WSend].
Qed.

(** Node 1, which leads, is told to stand, takes a write, and is elected again with the votes of node 2 and its own. *)
Definition lead2 : CommittedVote := MkLeaderId 2 1.
Definition d1 : World := wdo 1000 1 EvElect w4.
Definition d2 : World := wdo 1000 1 (EvWrite [7]) d1.
Definition d3 : World := wdo 5000 2 (EvVoteRequest (MkVoteRequest (vote_of 2) (Some (id_at 1 1))) 0) d2.
Definition d4 : World := wdo 1000 1 (EvNotify (NVoteResponse 1 (MkVoteResponse (vote_of 2) true None) lead2)) d3.
Definition d5 : World := wdo 1000 1 (EvNotify (NVoteResponse 2 (MkVoteResponse (vote_of 2) true (Some default_log_id)) lead2)) d4.

Lemma d5_reach : reach_anyhow d5.
Proof.
  assert (reach_anyhow d1) as H1 by (apply wdo_anyhow; [apply reach_reach_anyhow, w4_reach|apply DelElect|handled]).
  assert (reach_anyhow d2) as H2 by (apply wdo_anyhow; [exact H1|apply DelWrite|handled]).
  assert (reach_anyhow d3) as H3 by (apply wdo_anyhow; [exact H2|apply (DelVoteRequest _ _ 1); [put_out 8%nat|done]|handled]).
  assert (reach_anyhow d4) as H4 by (apply wdo_anyhow; [exact H3|apply DelNotify, (NotOwnVote _ _ (vote_of 2)); [put_out 7%nat|done]|handled]).
  apply wdo_anyhow; [exact H4|eapply DelNotify, NotVote; put_out 3%nat|handled].
Qed.

(** Without the restriction to orderly groups the theorems on them fail: the log that this engine has written has two
    entries with index 2, and is not the one whose ids the engine keeps. *)
Lemma elect_while_leading_breaks_engine :
  group_ok members3 config_of ∧ reach_anyhow d5 ∧ ¬ engine_wf members3 1 (wengine d5 1).
Proof.
  split; [exact group3_ok|]. split; [exact d5_reach|]. intros (Hc & _). specialize (Hc 3%nat (id_at 2 2) ltac:(handled)). discriminate Hc.
Qed.

(** * A read *)

Lemma wdo_step now n ev w :
  delivered w n ev → ev ≠ EvElect → (handle_event runtime0 now ev (wengine w n)).1 = Ok tt → wstep members3 w (wdo now n ev w).
Proof. intros Hd Hev Ho. eapply WHandle; [exact Hd|by intros ?|]. rewrite -Ho. apply surjective_pairing. Qed.

(** Node 1 is asked for a read once node 2 has heard of the commitment; node 2 confirms that it leads. *)
Definition read1 : ReadStart := match (handle_check_is_leader_request 1000 1000 ReadIndex (wengine w10 1)).1 with Ok r => r | _ => ReadAnswered (Failed (CheckForwardToLeader None)) end.
Definition read1_rpcs : list (Z * AppendEntriesRequest) := match read1 with ReadWaits _ _ _ rpcs => rpcs | _ => [] end.
Definition read1_rpc (m : option LogId) : AppendEntriesRequest := MkAppendReq (committed_into_vote lead1) m [] (Some (id_at 1 1)).
Definition read1_lin : Linearizer := MkLinearize 1 (id_at 1 1) None.
Definition w11 : World := wdo 1000 2 (EvAppendEntries (read1_rpc (Some (id_at 1 1))) 2) (sent w10 read1_rpcs).

Lemma read1_asks : read1_rpcs = [(2, read1_rpc (Some (id_at 1 1))); (3, read1_rpc None)].
Proof. handled. Qed.

Lemma read1_confirmed : read_confirmed members3 w10 1 read1_lin w11.
Proof.
  destruct (handle_check_is_leader_request 1000 1000 ReadIndex (wengine w10 1)) as [o e] eqn:Hh.
  assert (o = Ok (ReadWaits read1_lin (committed_into_vote lead1) (em0 members3) read1_rpcs)) as ->.
  { apply (f_equal fst) in Hh. cbn [fst] in Hh. rewrite -Hh. handled. }
  eapply (ReadAsked _ _ _ 1000 1000 _ _ _ _ _ [Okay (2, Success)]); [exact Hh| | |].
  - apply rtc_once, wdo_step; [apply DelAppendEntries; [handled|done]|done|handled].
  - constructor; [|constructor]. exists 0%nat, (read1_rpc (Some (id_at 1 1))), 2. split; [handled|]. split; [handled|].
    eexists. put_out 6%nat.
  - handled.
Qed.

Lemma w8_w10 : rtc (wstep members3) w8 w10.
Proof.
  destruct (leader (wengine w8 1)) as [l|] eqn:Hl; [|assert (bool_decide (is_Some (leader (wengine w8 1))) = true) as Hs by handled; rewrite Hl in Hs; discriminate Hs].
  assert (leader_vote l = lead1) as Hv by (assert (leader_vote <$> leader (wengine w8 1) = Some lead1) as He by handled; rewrite Hl in He; by injection He).
  eapply rtc_l; [|apply rtc_once, wdo_step; [apply DelAppendEntries; [handled|done]|done|handled]].
  unfold w9, wsend. rewrite -Hv. apply WSend; [exact Hl|vm_compute; lia|vm_compute; done].
Qed.


(** * Members, ids and progress *)

(** Node 3 takes the place of node 2. *)
Definition two_members : MembershipState :=
  let em := em_new (Some default_log_id) (MkMembership [{[1; 2]}] {[1 := MkBasicNode "a"; 2 := MkBasicNode "b"; 3 := MkBasicNode "c"]}) in
  MkMembershipState em em.

Lemma change_membership_outcomes_witness :
  ∃ m, change_membership (Fatal := unit) (ReplaceAllVoters {[1; 3]}) true (StepCommitted (id_at 1 5)) (StepCommitted (id_at 1 6)) two_members
      = (Okay (Okay (id_at 1 6, m)), MkMembershipState (em_new (Some (id_at 1 6)) m) (em_new (Some (id_at 1 6)) m)) ∧
    configs m = [{[1; 3]}].
Proof.
  destruct (change_membership (Fatal := unit) (ReplaceAllVoters {[1; 3]}) true (StepCommitted (id_at 1 5)) (StepCommitted (id_at 1 6)) two_members)
    as [r s2] eqn:Hrun.
  destruct (change_membership_outcomes _ _ _ _ two_members r s2 ltac:(done) Hrun) as [Hr Hok].
  destruct (change_apply two_members (ReplaceAllVoters {[1; 3]}) true) as [joint|] eqn:Ha; [|vm_compute in Ha; done].
  destruct (Hok joint _ _ eq_refl eq_refl eq_refl) as [[lid m] ->]. destruct Hr as (_ & goal & Hgoal & Hc & _ & -> & _).
  assert (lid = id_at 1 6) as -> by (apply (f_equal fst) in Hrun; vm_compute in Hrun |- *; congruence).
  exists m. split; [done|]. rewrite Hc. f_equal. vm_compute in Hgoal. by injection Hgoal as <-.
Defined.

(** The change is proposed and not committed yet. *)
Lemma membership_quorums_always_meet_witness :
  ∃ m s, change_apply two_members (ReplaceAllVoters {[1; 3]}) true = Okay m ∧ s = ms_append (em_new (Some (id_at 1 5)) m) two_members ∧
    quorums_meet (quorum_set (ms_committed s)) (quorum_set (ms_effective s)) ∧
    change_apply s (AddVoterIds {[2]}) true = Failed (InProgress (Some default_log_id) (Some (id_at 1 5))).
Proof.
  destruct (change_apply two_members (ReplaceAllVoters {[1; 3]}) true) as [m|] eqn:Hm; [|vm_compute in Hm; done].
  exists m, (ms_append (em_new (Some (id_at 1 5)) m) two_members). split; [reflexivity|]. split; [reflexivity|].
  destruct (membership_quorums_always_meet (Some default_log_id) (em_membership (ms_effective two_members)) (ms_append (em_new (Some (id_at 1 5)) m) two_members))
    as [Hmeet Hrefused]; [done| |].
  - apply rtc_once. change (MkMembershipState _ _) with two_members. by eapply MsChange.
  - split; [exact Hmeet|]. apply (Hrefused). intros Heq. apply (f_equal em_log_id) in Heq. discriminate Heq.
Defined.

Definition ids3 : list LogId := [id_at 1 4; id_at 1 5; id_at 2 6].
Lemma ids3_consecutive : consecutive 4 ids3.
Proof. intros [|[|[|]]] x Hx; simpl in Hx; by simplify_eq/=. Qed.

Lemma log_id_list_is_log_witness :
  keys ids3 = [id_at 1 4; id_at 2 6] ∧ extend (keys ids3) [id_at 2 7] = keys (ids3 ++ [id_at 2 7]) ∧ ref_at (keys ids3) 5 = Some (id_at 1 5).
Proof.
  split; [reflexivity|]. destruct (log_id_list_is_log 4 ids3 ids3_consecutive) as (Hext & _ & _ & _ & _ & Hat & _).
  split; [|apply (Hat 5)]. apply Hext. intros [|[|[|[|]]]] x Hx; simpl in Hx; by simplify_eq/=.
Defined.

Lemma get_key_log_ids_finds_keys_witness :
  get_key_log_ids (λ i, match ids3 !! Z.to_nat (i - 4) with Some x => Okay x | None => Failed tt end) 6 (id_at 1 4) (id_at 2 6) = Some (Okay (keys ids3)).
Proof.
  apply (get_key_log_ids_finds_keys _ 4 ids3 (id_at 1 4) (id_at 2 6) 6); [apply ids3_consecutive| | |reflexivity|reflexivity|simpl; lia].
  - intros [|[|[|]]] [|[|[|]]] x y Hij Hx Hy; simpl in Hx, Hy; simplify_eq/=; try lia; auto. all: right; left; simpl; lia.
  - intros x Hx. repeat (apply elem_of_cons in Hx as [-> | Hx]; [reflexivity|]). by apply elem_of_nil in Hx.
Defined.

(** Two voters of three acknowledge. *)
#[local] Instance own_borrow : Borrow (option LogId) (option LogId) := λ x, x.
Definition fresh_progress : VecProgress (option LogId) (option LogId) := vp_new (to_quorum_set members3) (learner_ids members3) None.
Definition after_ack (id : Z) (p : VecProgress (option LogId) (option LogId)) := (update_with id (λ _, Some (id_at 1 5)) p).2.

Lemma ack_step id p : try_get id p = Some None → vp_step p (after_ack id p).
Proof. intros Hp. exists id, (λ _, Some (id_at 1 5)), None. split_and!; [done..|by left|done]. Qed.

Lemma quorum_accepted_is_greatest_witness :
  quorum_accepted (after_ack 2 (after_ack 1 fresh_progress)) = Some (id_at 1 5) ∧
  greatest_accepted (vp_quorum_set (after_ack 2 (after_ack 1 fresh_progress))) (voters (after_ack 2 (after_ack 1 fresh_progress)))
    (quorum_accepted (after_ack 2 (after_ack 1 fresh_progress))).
Proof.
  split; [reflexivity|].
  apply (quorum_accepted_is_greatest members3 None (after_ack 1 fresh_progress)); [done|by repeat constructor| |by apply ack_step].
  by apply rtc_once, ack_step.
Defined.

(** * The runtime *)

Lemma mem_ops_end (o : log_op Membership) (s : MemLogStoreInner Membership) : (sto_op o s).1 ≠ Hang.
Proof. destruct o; try done. simpl. unfold purge, bind, getS. by destruct (opt_log_id_le _ _). Qed.

Lemma run_engine_commands_ends_witness : (run_engine_commands 5 node1).1 ≠ Hang.
Proof. apply run_engine_commands_ends. exact mem_ops_end. Defined.

(** A node that has stood for election runs its commands: its vote is saved, nothing of the log changes. *)
Definition standing1 : MemCore := (on_engine (let! _ := handle_notification runtime0 100 (NTick 0) in ret tt) node1).2.
Definition log1 : RaftLog Membership := MkRaftLog None [MkEntry default_log_id (LogStore.Membership members3)] None None.

Lemma log1_held : rep (log_store standing1) log1.
Proof.
  split; try reflexivity.
  - intros [|] e He; simpl in He; by simplify_eq/=.
  - intros k. change (log (log_store standing1)) with ({[0 := MkEntry default_log_id (LogStore.Membership members3)]} : gmap Z MEntry).
    change (rl_first log1) with 0. case_decide as Hk; simpl.
    + rewrite Z.sub_0_r. destruct (decide (k = 0)) as [-> | Hne]; [done|]. rewrite lookup_singleton_ne //.
      destruct (Z.to_nat k) as [|[|]] eqn:Hkn; [lia|done..].
    + rewrite lookup_singleton_ne //. intros <-. by apply Hk.
Qed.

Definition after1 : MemCore := (run_engine_commands 100 standing1).2.

Lemma run_engine_commands_writes_log_witness :
  run_engine_commands 100 standing1 = (Ok tt, after1) ∧ LogStore.vote (log_store after1) = Some (vote_of 1) ∧
  ∃ batch, rep (log_store after1) (spec_log_ops batch (log_after (output (core_engine standing1)) log1)).2.
Proof.
  assert (run_engine_commands 100 standing1 = (Ok tt, after1)) as Hrun by handled. split; [exact Hrun|]. split; [handled|].
  destruct (run_engine_commands_writes_log 100 0 standing1 log1 (Ok tt) after1) as (_ & ran & rest & batch & Heq & Hout & _ & m & _ & Hh);
    [lia| |done|exact Hrun|].
  - split; [apply log1_held|]. split; [vm_compute; tauto|]. vm_compute. repeat constructor.
  - specialize (Hout eq_refl). assert (output (core_engine after1) = []) as Hnil by handled. rewrite Hnil in Hout. subst rest.
    rewrite app_nil_r in Heq. rewrite Heq. exists batch. exact Hh.
Defined.
