(* ===== verification/ProducerWitnesses.v ===== *)
(** Concrete runs of the block producer, its databases and the gateway. The libraries are
    replaced by small functions that keep their laws: hashes by the numbers the bytes write, the
    trie by an enumeration of its leaves, and the EVM by one that bumps the nonce of the caller, halts
    or destroys the caller, by the value of the transaction. *)

From stdpp Require Import countable.
From S2P Require Import Prelude Config Storage Block Trackers Reader Writer Core Batch Walrus Recovery EngineInv BatchReadOk BatchReadInv Fifo Instances Metadata WalKey Bucket Controller ClusterInv ClusterOps ClusterQueues WalrusEngine Client SortBy StateDb RedbDb RedbOk KvDb KvDbOk TxData Trie Executor ExecutorOk Producer ProducerOk CliClient Gateway GatewayOk Witnesses ClusterWitnesses.

#[local] Open Scope Z_scope.

(** * The libraries *)

#[global] Instance Account_countable : Countable Account.
Proof.
  refine (inj_countable' (λ a, (nonce a, balance a, storage_root a, code_hash a)) (λ '(n, b, s, c), MkAccount n b s c) _).
  by intros [].
Defined.

(** The producer does not read blocks back. *)
#[global] Instance toy_block_bincode : Bincode TxData.Block := {
  serialize b := [number (header b); len (transactions b)];
  deserialize _ := None;
}.

Fixpoint hex_pairs_of (l : list Z) : option (list Z) :=
  match l with
  | [] => Some []
  | [_] => None
  | x :: y :: l => a ← hex_value x; b ← hex_value y; r ← hex_pairs_of l; Some (a * 16 + b :: r)
  end.

Definition hex_digits (s : list Z) : option Z :=
  foldl (λ acc c, a ← acc; d ← hex_value c; Some (a * 16 + d)) (Some 0) s.

#[global] Instance toy_text : TextLib := {
  parse_address s := if len (trim_0x s) =? 40 then hex_digits (trim_0x s) else None;
  u256_from_str_radix16 s := v ← hex_digits s; if (0 <=? v) && (v <? 2 ^ 256) then Some v else None;
  hex_encode := hex_pairs;
  hex_decode := hex_pairs_of;
  sha256 b := from_be_bytes b mod 2 ^ 256;
}.

#[global] Instance toy_text_laws : TextLaws.
Proof.
  split.
  - done.
  - intros b Hb. induction Hb as [|x b Hx _ IH]; [done|]. rewrite hex_pairs_cons.
    change (hex_pairs_of (hex_digit (x / 16) :: hex_digit (x mod 16) :: hex_pairs b) = Some (x :: b)).
    change (hex_decode (hex_pairs b)) with (hex_pairs_of (hex_pairs b)) in IH.
    destruct (byte_nibbles x Hx) as (Hh & Hl & Ex). cbn. rewrite !hex_value_digit //= IH /=. by rewrite Ex.
  - intros b. apply Z.mod_pos_bound. lia.
  - intros s v. cbn. destruct (hex_digits s) as [z|]; [|done]. cbn.
    destruct (Z.leb_spec 0 z), (Z.ltb_spec z (2 ^ 256)); cbn; intros [= <-]; lia.
Qed.

#[global] Instance toy_header : HeaderJson := { header_json h := [number h; timestamp h]; announced_json h := [timestamp h; number h] }.

#[global] Instance toy_trie : TrieLib := {
  keccak256 := from_be_bytes;
  trie_root l := match l with [] => EMPTY_STORAGE_ROOT | _ => Z.pos (encode l) end;
  rlp_header n := [n];
  rlp_uint z := [z];
  rlp_b256 z := [z];
  rlp_address z := [z];
  rlp_bytes b := b;
  rlp_list l := l ≫= snd;
  length_of_length _ := 1;
}.

Definition toy_account (i : AccountInfo) (destroyed : bool) : EvmAccount :=
  MkEvmAccount (MkInfo (info_balance i) (info_nonce i + 1) (info_code_hash i) None) [(7, MkEvmSlot 0 (info_nonce i + 1))] destroyed true.

#[global] Instance toy_revm : Revm := {
  transact _ te :=
    EvmBasic (caller te) (λ o,
      EvmStorage (caller te) 7 (λ _,
        match o with
        | None => EvmFailed
        | Some i =>
            if env_value te =? 13 then EvmDone (MkResultAndState (Halt 21000) [])
            else EvmDone (MkResultAndState (Success (OutCall []) 21000 0 []) [(caller te, toy_account i (env_value te =? 14))])
        end));
}.

(** A transaction is written as its nonce, with everything else fixed. *)
Definition sender0 : list Z := str "0xf39Fd6e51aad88F6F4ce6aB8827279cffFb92266".
Definition raw (value nonce : string) : RawTx := MkRaw sender0 (Some sender0) (str value) [] (str "0x5208") (str nonce) None.

#[global] Instance toy_producer : ProducerLib := {
  tx_from_json b := match b with
                    | [n] => Some (MkRaw sender0 (Some sender0) (str "0x1") [] (str "0x5208") [n] None)
                    | _ => None
                    end;
  tx_json tx := r_nonce tx;
  values_of m := (map_to_list m).*2;
}.

#[global] Instance toy_gateway : GatewayLib := { gw_json tx := r_nonce (gw_tx tx) }.

(** * The database *)

Definition tables0 : Tables := empty_tables.
Definition no_view : view := MkView ∅ ∅ ∅ ∅.
Definition opened0 : RedbStateDB := (RedbStateDB_new tables0 []).2.

Lemma tables0_are : tables_are tables0 no_view.
Proof. by split. Qed.

Definition ops0 : list db_op :=
  [Begin; SetAccount 1 (with_balance 5); SetStorage 1 7 8; GetAccount 1; GetStorage 1 7; Rollback; GetAccount 1; Begin;
   SetAccount 2 (with_balance 6); Commit; GetAccount 2; Begin; DeleteAccount 2; GetAccount 2; Commit; GetAccount 2; GetChanged].

Lemma redb_refines_store_witness :
  let d := MkRedb tables0 [] None [] in
  ∃ faults, length faults = length ops0 ∧
    (db_run ops0 d).1 = (spec_run (zip faults ops0) (MkSpec no_view None [])).1 ∧
    refines (db_run ops0 d).2 (spec_run (zip faults ops0) (MkSpec no_view None [])).2 ∧
    (true ∉ redb_faults d → Forall (λ f, f = false) faults).
Proof.
  exact (redb_refines_store ops0 (MkRedb tables0 [] None []) (MkSpec no_view None [])
           ltac:(split; [apply tables0_are|done|done|done]) ltac:(by vm_compute)).
Defined.

Lemma recreated_account_lost_witness :
  (db_run [DeleteAccount 1; SetAccount 1 (with_balance 5); GetAccount 1; Commit; GetAccount 1]
     (MkRedb tables0 [] (Some new_buffer) [])).1
  = [Good RUnit; Good RUnit; Good (RAccount (Some (with_balance 5))); Good RUnit; Good (RAccount None)].
Proof.
  exact (proj2 (recreated_account_lost (MkRedb tables0 [] (Some new_buffer) []) new_buffer 1 (with_balance 5) eq_refl eq_refl)).
Defined.

(** * Roots *)

Lemma toy_no_collision n l : Forall (λ z, 0 ≤ z < 256 ^ Z.of_nat n) l → no_collision n l.
Proof.
  intros Hl x y Hx Hy. rewrite /hash_key /=. rewrite Forall_forall in Hl.
  rewrite !from_be_bytes_be; [by apply Hl|by apply Hl|done].
Qed.

Lemma toy_index_free n : index_collision_free n.
Proof. intros i j _ _. cbn. rewrite /from_be_bytes /=. lia. Qed.

Definition rest0 : RedbStateDB :=
  MkRedb (MkTables (serialize <$> ({[ 1 := with_balance 5; 2 := with_balance 6; 3 := with_balance 7 ]} : gmap Z Account))
            {[ (2, 7) := 8; (2, 9) := 0 ]} ∅ ∅ ∅) [] None [2; 1].
Definition view1 : view := StateDb.MkView {[ 1 := with_balance 5; 2 := with_balance 6; 3 := with_balance 7 ]} {[ (2, 7) := 8; (2, 9) := 0 ]} ∅ ∅.

Lemma state_root_reference_witness :
  calculate rest0 = (Good (ref_state_root view1 {[ 1; 2 ]}), rest0).
Proof.
  rewrite (state_root_reference rest0 view1).
  - split; [by split|done|done].
  - apply (bool_decide_unpack _). by vm_compute.
  - done.
  - apply toy_no_collision. repeat constructor; by vm_compute.
  - intros a _. apply toy_no_collision. apply Forall_forall. intros k [v Hv]%keys_of_spec.
    cbn in Hv. destruct (decide (k = 7)) as [->|]; [by vm_compute|]. destruct (decide (k = 9)) as [->|]; [by vm_compute|].
    rewrite !lookup_insert_ne in Hv; [congruence..|done].
  - vm_compute. reflexivity.
Defined.

Lemma merkle_root_binds_witness :
  @calculate_merkle_root _ unit TrieError RawTx r_nonce [raw "0x1" "0x0"; raw "0x1" "0x1"] tt
  = calculate_merkle_root r_nonce [raw "0x2" "0x0"; raw "0x3" "0x1"] tt ∧
  r_nonce <$> [raw "0x1" "0x0"; raw "0x1" "0x1"] = r_nonce <$> [raw "0x2" "0x0"; raw "0x3" "0x1"].
Proof.
  split; [by vm_compute|].
  refine (merkle_root_binds (S := unit) (E := TrieError) r_nonce [raw "0x1" "0x0"; raw "0x1" "0x1"] [raw "0x2" "0x0"; raw "0x3" "0x1"] tt _ _ _ _ _).
  - done.
  - done.
  - apply toy_index_free.
  - done.
  - by vm_compute.
Defined.

(** * Executing blocks *)

Definition block_of (txs : list RawTx) : TxData.Block :=
  convert_to_schema_block (MkHeader 0 zero_hash 1 (len txs) [] None None (Some DEFAULT_BLOCK_GAS_LIMIT) None) txs.

(** The second transaction halts the EVM: nothing of the first is left. *)
Lemma execute_block_atomic_witness :
  let r := execute_block (block_of [raw "0x1" "0x0"; raw "0xd" "0x1"]) (new_adapter opened0) in
  r.1 = Bad EEvm ∧ a_disk r.2 = a_disk (new_adapter opened0).
Proof.
  cbv zeta.
  destruct (execute_block_atomic (block_of [raw "0x1" "0x0"; raw "0xd" "0x1"]) (new_adapter opened0) ltac:(by vm_compute)) as (_ & _ & Hd).
  assert ((execute_block (block_of [raw "0x1" "0x0"; raw "0xd" "0x1"]) (new_adapter opened0)).1 = Bad EEvm) as E1 by by vm_compute.
  split; [exact E1|exact (Hd _ E1)].
Defined.

(** Two transactions succeed, the one between them has an old nonce. *)
Definition block1 : TxData.Block := block_of [raw "0x1" "0x0"; raw "0x1" "0x0"; raw "0x1" "0x1"].

Lemma keys_distinct block :
  bool_decide (NoDup (imap (λ i tx, tx_key (Z.of_nat i) tx) (transactions block))) = true → distinct_keys block.
Proof.
  intros Hn%bool_decide_eq_true i j tx tx' Hi Hj Hk. rewrite NoDup_alt in Hn.
  apply (Hn i j (tx_key (Z.of_nat i) tx)); rewrite list_lookup_imap ?Hi ?Hj /=; [done|by rewrite Hk].
Qed.

Lemma execute_block_tally_witness :
  ∃ res r', execute_block block1 (new_adapter opened0) = (Good res, r') ∧ tally block1 3 res ∧
    successful_txs res = 2 ∧ failed_txs res = 1 ∧ total_gas_used res = 42000.
Proof.
  destruct (execute_block block1 (new_adapter opened0)) as [[res|e|] r'] eqn:E1; [|by vm_compute in E1..].
  exists res, r'. split; [done|]. split.
  - apply (execute_block_tally block1 (new_adapter opened0) res r'); [|exact E1].
    apply keys_distinct. by vm_compute.
  - assert (Good res = (execute_block block1 (new_adapter opened0)).1) as E2 by by rewrite E1.
    clear E1. vm_compute in E2. injection E2 as ->. split_and!; reflexivity.
Defined.

Lemma cache_transparent_witness :
  let t := transact (build_block_env block1) (MkTxEnv 5 TransactCreate 1 [] 21000 None None None) in
  (run_evm t (new_adapter rest0)).1 = (run_direct t rest0).1.
Proof.
  intros t. refine (proj1 (cache_transparent t rest0 _)).
  split; intros *; cbn; rewrite /redb_get_account /chain /state /= /read_txn /=; try done.
  destruct (_ !! a) as [data|]; [|done]. rewrite /decode_account. by destruct (deserialize data).
Defined.

(** * The producer *)

(** A topic that is a list of texts. *)
Definition queue : TxSource (list (list Z)) := MkSource (λ q, (inr (head q), tail q)).

Lemma queue_laws : SourceLaws queue eq.
Proof. split. intros s q ->. by exists (tail q). Qed.

Definition producer1 : BlockProducer (list (list Z)) :=
  set_pool [] [raw "0x1" "0x2"; raw "0x1" "0x0"; raw "0x2" "0x2"; raw "0x1" "0x1"] (new_producer [] 3).

Lemma selection_exact_witness :
  ∃ s p', select_transactions_for_block queue 1 producer1 = (Good s, p') ∧
    s ++ pending_pool p' ≡ₚ pending_pool producer1 ∧ s = [raw "0x1" "0x0"; raw "0x1" "0x1"; raw "0x1" "0x2"; raw "0x2" "0x2"].
Proof.
  destruct (selection_exact queue 1 producer1 producer1 eq_refl) as (s & p' & E1 & Hp & _).
  exists s, p'. split_and!; [exact E1|exact Hp|]. vm_compute in E1. injection E1 as <- _. reflexivity.
Defined.

Definition topic1 : list (list Z) := [encode_hexstring [48]; str "junk"; encode_hexstring [49]; encode_hexstring [50]].

(** Room for ten; the second entry is not a transaction. *)
Lemma refill_terminates_witness :
  ∃ n p1, refill_pool queue 5 (new_producer topic1 1) = (Good tt, p1) ∧
    pending_pool p1 = omap parse_transaction (take n topic1) ∧ source p1 = drop n topic1.
Proof.
  destruct (refill_terminates queue eq 5 (new_producer topic1 1) topic1 queue_laws eq_refl ltac:(cbn; lia))
    as (n & p1 & E1 & Hp & Hs & _). exists n, p1. split_and!; [exact E1|exact Hp|exact Hs].
Defined.

Definition world1 (q : list (list Z)) (pool : list RawTx) : World (list (list Z)) :=
  MkWorld (set_pool q pool (new_producer q 1)) tables0 [].

(** Transactions that fill a block each. The second tick fails, the last finds an empty pool. *)
Definition heavy (value nonce : string) : RawTx := MkRaw sender0 (Some sender0) (str value) [] (str "0x1c9c380") (str nonce) None.
Definition world2 : World (list (list Z)) := world1 [] [heavy "0x1" "0x2"; heavy "0xd" "0x1"; heavy "0x1" "0x0"].

Lemma blocks_form_chain_witness :
  let rs := (ticks queue 5 [1; 2; 3; 4] world2).1 in chained 0 zero_hash (produced rs) ∧ len (produced rs) = 2.
Proof.
  cbv zeta. destruct (ticks queue 5 [1; 2; 3; 4] world2) as [rs w'] eqn:E1.
  refine (conj (proj1 (blocks_form_chain queue 5 [1; 2; 3; 4] world2 rs w' E1 _ _)) _).
  - done.
  - by vm_compute.
  - assert (len (produced (ticks queue 5 [1; 2; 3; 4] world2).1) = 2) as E2 by (vm_compute; reflexivity).
    rewrite E1 in E2. exact E2.
Defined.

Lemma failed_block_loses_transactions_witness :
  ∃ w', produce_block queue 5 1 (world1 [] [raw "0xd" "0x0"; raw "0x1" "0x1"]) = (Bad (PExecute EEvm), w') ∧
  ∃ txs p1, txs ≠ [] ∧ refill_pool queue 5 (producer (world1 [] [raw "0xd" "0x0"; raw "0x1" "0x1"])) = (Good tt, p1) ∧
    txs ++ pending_pool (producer w') ≡ₚ pending_pool p1.
Proof.
  destruct (produce_block queue 5 1 (world1 [] [raw "0xd" "0x0"; raw "0x1" "0x1"])) as [r w'] eqn:E1.
  assert (r = Bad (PExecute EEvm)) as ->.
  { change r with (r, w').1. rewrite -E1. vm_compute. reflexivity. }
  exists w'. split; [reflexivity|].
  destruct (failed_block_loses_transactions queue 5 1 _ _ _ E1 ltac:(discriminate) ltac:(discriminate)) as (txs & p1 & Hn & Er & Hp & _).
  exists txs, p1. split_and!; [exact Hn|exact Er|exact Hp].
Defined.

(** The sender destroys its own account. *)
Definition executed1 : RevmAdapter RedbStateDB := (execute_block (block_of [raw "0xe" "0x0"]) (new_adapter opened0)).2.
Definition view2 : view :=
  StateDb.MkView (omap deserialize (accounts_table (tables (adb executed1)))) (storage_table (tables (adb executed1)))
    (code_table (tables (adb executed1))) (block_hashes_table (tables (adb executed1))).

Lemma destroyed_account_fails_block_witness :
  ∃ w', submit_to_execution_layer (header (block_of [raw "0xe" "0x0"])) [raw "0xe" "0x0"] (world1 [] [])
        = (Bad (PStateRoot TrieNoAccount), w') ∧
    db_file w' = tables (adb executed1).
Proof.
  destruct (execute_block (block_of [raw "0xe" "0x0"]) (new_adapter opened0)) as [r a] eqn:E1.
  destruct (destroyed_account_fails_block (header (block_of [raw "0xe" "0x0"])) [raw "0xe" "0x0"] (world1 [] []) opened0
     (match r with Good res => res | _ => empty_result end) executed1 view2 0xf39Fd6e51aad88F6F4ce6aB8827279cffFb92266)
    as (w' & E2 & Hf & _).
  - vm_compute. reflexivity.
  - change (execute_block (block_of [raw "0xe" "0x0"]) (new_adapter opened0)
            = (Good match r with Good res => res | _ => empty_result end, executed1)).
    rewrite /executed1 E1. change r with (r, a).1. rewrite -E1. vm_compute. reflexivity.
  - split; [|vm_compute; reflexivity|vm_compute; reflexivity]. split; vm_compute; reflexivity.
  - apply (bool_decide_unpack _). vm_compute. exact I.
  - reflexivity.
  - apply toy_no_collision, (bool_decide_unpack _). vm_compute. exact I.
  - intros y _. apply toy_no_collision. assert (storage_table (tables (adb executed1)) = ∅) as Es by (vm_compute; reflexivity).
    rewrite /view2 /= Es. constructor.
  - split; [apply (bool_decide_unpack _); vm_compute; exact I|vm_compute; reflexivity].
  - exists w'. split; [exact E2|exact Hf].
Defined.

Lemma gas_overflow_selected_witness :
  let greedy := MkRaw sender0 None [] [] (str "0xffffffffffffffff") [] None in
  select_loop [greedy] 21000 [raw "0x1" "0x0"] [] = ([raw "0x1" "0x0"; greedy], []).
Proof.
  intros greedy. rewrite (gas_overflow_selected greedy [] 21000 [raw "0x1" "0x0"] []); [vm_compute; reflexivity| |reflexivity].
  split; vm_compute; discriminate.
Defined.

(** * Through the cluster *)

Lemma word_a : word "a" ∧ len (str "a") ≤ 1000.
Proof. split; [|by vm_compute]. split; [done|]. by repeat constructor. Qed.

(** Hexadecimal text, with an odd number of digits too, and texts that are refused. *)
Definition wops1 : list wop :=
  [WPut 2 "a" (str "0x00"); WRegister 1 "a"; WPut 1 "a" (str "0X1fF"); WPut 2 "a" (str "hello world"); WPut 2 "a" (str "0x");
   WPut 1 "a" (str "0xzz"); WGet 2 "a"; WGet 1 "a"; WGet 1 "a"; WPut 2 "b" (str "one")].

Lemma wops1_answers :
  wire_answers wops1 (spec_wops wops1 ∅).1
  = [Err (IoError KOther "ERR unknown topic a"); Ok None; Ok None;
     Err (IoError KOther "ERR payload must be hexstring format (start with 0x or 0X)"); Ok None;
     Err (IoError KOther "ERR invalid hex byte 'zz': invalid digit found in string");
     Ok (Some (str "0x01ff")); Ok (Some (str "0x")); Ok None;
     Err (IoError KOther "ERR payload must be hexstring format (start with 0x or 0X)")].
Proof. by vm_compute. Qed.

(** A line of text, decided. *)
Definition text_line (p : list Z) : bool :=
  forallb (λ b, (0 <=? b) && (b <? 0x80)) p && (len p <=? 1000) &&
  match last p with Some b => (0x21 <=? b) && (b <? 0x7F) | None => false end.

Lemma text_line_ok i t p : word t ∧ len (str t) ≤ 1000 → text_line p = true → wire_ok (WPut i t p).
Proof.
  intros [Ht Hl] [[Ha Hlen%Z.leb_le]%andb_true_iff Hlast]%andb_true_iff. split_and!; [done..| |rewrite /MAX_FRAME_LEN; lia|].
  - apply Forall_forall. intros b Hb%list_elem_of_In. rewrite forallb_forall in Ha. specialize (Ha b Hb).
    apply andb_true_iff in Ha as [?%Z.leb_le ?%Z.ltb_lt]. done.
  - destruct p as [|b l _] using rev_ind; [done|]. rewrite last_snoc in Hlast. apply andb_true_iff in Hlast as [?%Z.leb_le ?%Z.ltb_lt].
    by exists l, b.
Qed.

Lemma wire_refines_queues_witness :
  ∃ W, with_paths pm0 StrictlyAtOnce SyncEach trk0 fs0 = (Ok W, wa_fs W) ∧
    (run_wires (λ _, "") (λ _ _, "") 2 wops1 (cluster0 W W)).1 = wire_answers wops1 (spec_wops wops1 ∅).1.
Proof.
  destruct (walrus_holds_fresh pm0 StrictlyAtOnce SyncEach trk0 fs0 (len wops1)) as (W & E & Hh);
    [apply fs0_inv|apply fs0_fresh|by apply fs0_good|by vm_compute|].
  exists W. split; [exact E|].
  refine (wire_refines_queues (λ _, "") (λ _ _, "") 0 1 (cluster0 W W) meta0 wops1 _ _ _ _).
  - exact (cluster0_fresh W W _ Hh Hh).
  - by vm_compute.
  - assert (Forall (λ o, match as_cop o with Ok k => short_cop k = true | _ => True end) wops1) as Hs by (repeat constructor; by vm_compute).
    eapply Forall_impl; [exact Hs|]. intros o Ho k Hk. rewrite Hk in Ho. by apply short_cop_ok.
  - assert (word "b" ∧ len (str "b") ≤ 1000) as Hb by (split; [split; [discriminate|by repeat constructor]|by vm_compute]).
    pose proof (λ i p, text_line_ok i "a" p word_a) as Hput. pose proof (λ i p, text_line_ok i "b" p Hb) as Hput'.
    repeat (apply Forall_cons; split); try apply Forall_nil_2;
      first [exact word_a|apply Hput; vm_compute; reflexivity|apply Hput'; vm_compute; reflexivity].
Defined.

Definition sent1 : GwTx := MkGwTx (MkRaw sender0 (Some sender0) (str "0x1") [] (str "0x5208") [48] None) (Some (str "0x1")).
Definition sent2 : GwTx := MkGwTx (MkRaw sender0 (Some sender0) (str "0x1") [] (str "0x5208") [49] None) None.
Definition sent : list GwTx := [sent1; sent2].

Lemma nonce_ok t price n :
  (String.length t ≤ 100)%nat → 0 ≤ n < 128 →
  tx_ok t (MkGwTx (MkRaw sender0 (Some sender0) (str "0x1") [] (str "0x5208") [n] None) price).
Proof.
  intros Ht Hn. split_and!.
  - apply Forall_singleton. rewrite /is_byte. lia.
  - by vm_compute.
  - cbn. destruct (Z.ltb_spec n 128); [done|lia].
  - done.
  - intros k Hk. by apply key_fits.
Qed.

Lemma sent_ok t : (String.length t ≤ 100)%nat → Forall (tx_ok t) sent.
Proof. intros Ht. apply Forall_cons. split; [by apply nonce_ok|]. apply Forall_singleton. by apply nonce_ok. Qed.

Lemma sent_fresh :
  ∃ W, with_paths pm0 StrictlyAtOnce SyncEach trk0 fs0 = (Ok W, wa_fs W) ∧ fresh_cluster (2 * len sent) 1 (cluster0 W W) meta0.
Proof.
  destruct (walrus_holds_fresh pm0 StrictlyAtOnce SyncEach trk0 fs0 (2 * len sent)) as (W & E & Hh);
    [apply fs0_inv|apply fs0_fresh|by apply fs0_good|by vm_compute|].
  exists W. split; [exact E|exact (cluster0_fresh W W _ Hh Hh)].
Qed.

Lemma nodes_listed : (1 ∈ (node_ids : gset Z)) ∧ (2 ∈ (node_ids : gset Z)).
Proof. rewrite /node_ids /ids0. set_solver. Qed.

(** Batches of two, served in the wrong order. *)
Definition gw_events1 : list GwEvent :=
  [SendTransaction sent1; BatchRecv reverse; SendTransaction sent2; BatchRecv reverse].

Lemma gw_events1_sends : sends gw_events1 sent.
Proof. repeat constructor; intros l; apply reverse_Permutation. Qed.

Lemma gateway_to_pool_witness :
  ∃ W, with_paths pm0 StrictlyAtOnce SyncEach trk0 fs0 = (Ok W, wa_fs W) ∧
  ∃ g batches served p,
    run_gateway (λ _, "") (λ _ _, "") 2 1 "a" (Some 2) gw_events1 (new_gateway (cluster0 W W)) = (Ok tt, g) ∧
    concat batches ++ (task_request <$> waiting g) = seq 0 (length sent) ∧
    Forall2 (≡ₚ) batches served ∧
    refill_pool (cluster_source (λ _, "") (λ _ _, "") 0 2 "a") (S (length sent)) (new_producer (cluster g) 1) = (Good tt, p) ∧
    pending_pool p = gw_tx <$> picked sent (concat served).
Proof.
  destruct sent_fresh as (W & E & Hf). exists W. split; [exact E|].
  pose proof (gateway_to_pool (λ _, "") (λ _ _, "") 0 1 2 "a" (proj1 nodes_listed) (proj2 nodes_listed)
              word_a (Some 2) 1 (cluster0 W W) meta0 gw_events1 sent 1) as Hgw.
  destruct Hgw as (g & bs & sv & p & E1 & Hids & _ & Hsv & _ & _ & E2 & Hp);
    [exact Hf|apply Z.leb_le; vm_compute; reflexivity|apply sent_ok; cbn; lia|discriminate|exact gw_events1_sends|split; vm_compute; discriminate|].
  exists g, bs, sv, p. split_and!; [exact E1|exact Hids|exact Hsv|exact E2|exact Hp].
Defined.

(** The default batch size: both transactions wait until the timer fires. *)
Definition gw_events2 : list GwEvent :=
  [SendTransaction sent1; SendRawTransaction (hex_encode (gw_json sent2))].

Lemma gw_events2_sends : sends gw_events2 sent.
Proof. constructor. apply sends_raw; [by vm_compute|constructor]. Qed.

Lemma gateway_answers_everyone_witness :
  ∃ W, with_paths pm0 StrictlyAtOnce SyncEach trk0 fs0 = (Ok W, wa_fs W) ∧
  ∃ g g' p,
    run_gateway (λ _, "") (λ _ _, "") 2 1 "a" (Some 100) gw_events2 (new_gateway (cluster0 W W)) = (Ok tt, g) ∧
    run_gateway (λ _, "") (λ _ _, "") 2 1 "a" (Some 100) (drain g) g = (Ok tt, g') ∧
    responses g' !! 1%nat = Some (tx_answer sent2) ∧
    refill_pool (cluster_source (λ _, "") (λ _ _, "") 0 2 "a") (S (length sent)) (new_producer (cluster g') 1) = (Good tt, p) ∧
    pending_pool p ≡ₚ gw_tx <$> sent.
Proof.
  destruct sent_fresh as (W & E & Hf). exists W. split; [exact E|].
  pose proof (gateway_answers_everyone (λ _, "") (λ _ _, "") 0 1 2 "a" (proj1 nodes_listed) (proj2 nodes_listed)
              word_a (Some 100) 1 (cluster0 W W) meta0 gw_events2 sent 1) as Hgw.
  destruct Hgw as (g & g' & p & E1 & E2 & Hr & E3 & Hp);
    [exact Hf|apply Z.leb_le; vm_compute; reflexivity|apply sent_ok; cbn; lia|discriminate|exact gw_events2_sends|split; vm_compute; discriminate|].
  exists g, g', p. split_and!; [exact E1|exact E2|apply Hr; reflexivity|exact E3|exact Hp].
Defined.

(** * The state database on the storage engine *)

(** * Texts: as many ones as the number of an address, and a colon never *)

Fixpoint ones (n : nat) : string := match n with O => EmptyString | S n => String (Ascii.ascii_of_nat 49) (ones n) end.

Lemma ones_split n m s t : ones n +:+ (":" +:+ s) = ones m +:+ (":" +:+ t) → n = m ∧ s = t.
Proof.
  revert m. induction n as [|n IH]; intros [|m]; cbn; intros Heq; try discriminate; injection Heq as Heq; [done|].
  apply IH in Heq as [-> ->]. done.
Qed.
Lemma ones_inj n m : ones n = ones m → n = m.
Proof. intros Heq. apply (ones_split n m EmptyString EmptyString). by rewrite Heq. Qed.

#[global] Instance ref_text : KvText := {
  hex_encode a := ones (Pos.to_nat (encode a));
  show a := ones (Pos.to_nat (encode a));
  b256_bytes h := h :: replicate 31 0;
  b256_from l := default 0 (head l);
}.
#[global] Instance ref_text_laws : KvTextLaws.
Proof.
  assert (∀ a b : Z, ones (Pos.to_nat (encode a)) = ones (Pos.to_nat (encode b)) → a = b) as Hinj.
  { intros a b Heq%ones_inj%Pos2Nat.inj. by apply (inj encode) in Heq. }
  split; try done. intros a b s t [Heq%Pos2Nat.inj ->]%ones_split. by apply (inj encode) in Heq as ->.
Qed.

Abbreviation kv := (WalrusStateDB Walrus (lru_list CacheKey CacheValue)).

Lemma fresh_engine n :
  0 ≤ n ≤ 10000 → ∃ W, with_paths pm0 StrictlyAtOnce (Milliseconds 200) trk0 fs0 = (Ok W, wa_fs W) ∧ walrus_holds n W (λ _, []).
Proof.
  intros Hn. apply walrus_holds_fresh; [apply fs0_inv|apply fs0_fresh|apply fs0_good; lia|rewrite /U64_MAX; lia].
Qed.

Lemma small0 k x : bool_decide (len (name_bytes (topic_of k)) ≤ 230) = true → len (encode_value x) ≤ 100 → encode_value x ≠ [] →
  small (E := Walrus) k x.
Proof. intros Hk Hx Hne. split; [done|]. split; [unfold MAX_VERSION; lia|]. apply fits_short; [done|lia]. Qed.

(** * A transaction that is committed, one that is rolled back *)

Definition acc1 : Account := with_balance 5.
Definition acc2 : Account := with_balance 7.
Definition kv_ops : list db_op :=
  [Begin; SetAccount 1 acc1; SetStorage 1 2 3; GetAccount 1; Commit; GetStorage 1 2; SetAccount 1 acc2; GetAccount 1; Begin; SetAccount 1 acc1;
   GetAccount 1; SetBlockHash 4 9; Commit; GetAccount 1; GetChanged].
Definition kv_replies : list (result DbError db_reply) :=
  [Good RUnit; Good RUnit; Good RUnit; Good (RAccount (Some acc1)); Good RUnit; Good (RValue 3); Good RUnit; Good (RAccount (Some acc2)); Good RUnit; Good RUnit;
   Good (RAccount (Some acc1)); Good RUnit; Good RUnit; Good (RAccount (Some acc1)); Good (RChanged [1])].

Lemma kv_run_ok (d : kv) : KvDbOk.run_ok kv_ops d.
Proof. unfold kv_ops. cbn [KvDbOk.run_ok KvDbOk.op_ok]. split_and!; try exact I; apply small0; vm_compute; done. Qed.

Lemma walrus_db_refines_store_witness :
  ∃ W, with_paths pm0 StrictlyAtOnce (Milliseconds 200) trk0 fs0 = (Ok W, wa_fs W) ∧ (db_run kv_ops (kv_new W : kv)).1 = kv_replies.
Proof.
  destruct (fresh_engine (len kv_ops)) as (W & E & Hh); [by vm_compute|]. exists W. split; [exact E|].
  destruct (walrus_db_refines_store kv_ops (kv_new W : kv) (MkSpec (MkView ∅ ∅ ∅ ∅) None [])) as [Hrun _].
  - apply kv_new_refines; [|exact Hh]. change (len kv_ops) with 15. unfold MAX_BATCH_ENTRIES. lia.
  - apply kv_run_ok.
  - rewrite Hrun. vm_compute. reflexivity.
Defined.

(** * A deletion *)

Lemma kv_after_set : ∃ W (d : kv) s,
  with_paths pm0 StrictlyAtOnce (Milliseconds 200) trk0 fs0 = (Ok W, wa_fs W) ∧ (db_run [SetAccount 1 acc1] (kv_new W)).2 = d ∧
  kv_refines 3 d s ∧ pending s = None ∧ v_accounts (committed s) !! 1 = Some acc1.
Proof.
  destruct (fresh_engine 4) as (W & E & Hh); [lia|].
  destruct (set_account_sim 1 acc1 3 (kv_new W : kv) (MkSpec (MkView ∅ ∅ ∅ ∅) None [])) as (d' & E1 & Hr).
  - lia.
  - apply kv_new_refines; [|exact Hh]. unfold MAX_BATCH_ENTRIES. lia.
  - apply small0; vm_compute; done.
  - exists W, d'. eexists. split_and!; [exact E|cbn [db_run]; by rewrite E1|exact Hr|reflexivity|reflexivity].
Qed.

Lemma deleted_account_returns_witness :
  ∃ W, with_paths pm0 StrictlyAtOnce (Milliseconds 200) trk0 fs0 = (Ok W, wa_fs W) ∧
    (db_run [Begin; DeleteAccount 1; GetAccount 1; Commit; GetAccount 1] (db_run [SetAccount 1 acc1] (kv_new W : kv)).2).1 =
    [Good RUnit; Good RUnit; Good (RAccount None); Good RUnit; Good (RAccount (Some acc1))].
Proof.
  destruct kv_after_set as (W & d & s & E & Ed & Hr & Hp & Ha). exists W. split; [exact E|]. rewrite Ed.
  apply (deleted_account_returns 0 d s 1 acc1); [lia|exact Hr|exact Hp|exact Ha].
Defined.

(** * 2001 versions *)

Definition versions (n : nat) : list Account := with_balance ∘ Z.of_nat <$> seq 0 n.

Lemma append_all l : ∀ n W c t,
  0 ≤ n → Forall (fits t) l → walrus_holds (n + len l) W c →
  ∃ W' c', walrus_holds n W' c' ∧ c' t = c t ++ l.
Proof.
  induction l as [|d l IH]; intros n W c t Hn Hl Hh.
  - exists W, c. rewrite len_nil Z.add_0_r in Hh. by rewrite app_nil_r.
  - apply Forall_cons in Hl as [Hd Hl]. rewrite len_cons in Hh. pose proof (len_nonneg l).
    destruct (walrus_topic_append (n + len l) W c t d) as (W1 & _ & Hh1); [lia|done|by replace (n + len l + 1) with (n + (1 + len l)) by lia|].
    destruct (IH n W1 _ t Hn Hl Hh1) as (W2 & c2 & Hh2 & Ht). exists W2, c2. split; [done|]. rewrite Ht decide_True //. by rewrite -app_assoc.
Qed.

Lemma newest_version_lost_witness :
  ∃ (W : Walrus) c, walrus_holds 0 W c ∧ c (topic_of (KAccount 1)) = serialize <$> versions 2005 ∧
    (kv_get_account 1 (MkKv W (lru_new CACHE_CAPACITY : lru_list CacheKey CacheValue) None [])).1 = Good (Some (with_balance 1999)) ∧
    last (versions 2005) = Some (with_balance 2004).
Proof.
  destruct (fresh_engine 2005) as (W0 & _ & Hh0); [lia|].
  destruct (append_all (serialize <$> versions 2005) 0 W0 (λ _, []) (topic_of (KAccount 1))) as (W & c & Hh & Hc).
  - lia.
  - apply Forall_fmap, Forall_forall. intros x _. by apply fits_short.
  - exact Hh0.
  - exists W, c. split; [exact Hh|]. split; [exact Hc|]. split; [|vm_compute; reflexivity].
    apply (newest_version_lost 0 W c (lru_new CACHE_CAPACITY : lru_list CacheKey CacheValue) [] 1 (versions 2005)).
    + exact Hh.
    + exact Hc.
    + apply Forall_forall. by intros x _.
    + split; by vm_compute.
    + by vm_compute.
    + reflexivity.
Defined.
