(* ===== verification/OctopiiWitnesses.v ===== *)
(** Octopii's nodes at work: calls, a connection that is not read, addresses over restarts, chunks; and nodes
    that restart: a run of the key-value machine on the engine of the repository, one whose log
    was purged, and one that committed a command the machine rejects. *)

From stdpp Require Import countable relations strings.
From S2P Require Import Prelude Config Storage Block Trackers Allocator Reader Writer Core Batch Walrus BatchRead Recovery EngineInv BatchReadOk BatchReadInv Fifo Instances Metadata OctopiiWal LogStore LogStoreOk RaftQuorum RaftMembership RaftLogIds RaftProgress RaftState RaftEngine RaftCore RaftCoreOk RaftStartup RaftStartupOk Bucket WalrusEngine RaftMachine OctopiiRestart OctopiiRpc OctopiiNode OctopiiChunk Witnesses ClusterWitnesses RaftWitnesses.

#[local] Open Scope Z_scope.

(** * Messages as numbers *)

#[global] Instance RequestPayload_eq_dec : EqDecision RequestPayload.
Proof. solve_decision. Defined.
#[global] Instance RequestPayload_countable : Countable RequestPayload.
Proof.
  refine (inj_countable' (λ p, match p with RaftMessage m => inl m | OpenRaft k d => inr (inl (k, d)) | Custom o d => inr (inr (o, d)) end)
    (λ s, match s with inl m => RaftMessage m | inr (inl (k, d)) => OpenRaft k d | inr (inr (o, d)) => Custom o d end) _). by intros [].
Defined.
#[global] Instance ResponsePayload_eq_dec : EqDecision ResponsePayload.
Proof. solve_decision. Defined.
#[global] Instance ResponsePayload_countable : Countable ResponsePayload.
Proof.
  refine (inj_countable' (λ p, match p with
      | AppendEntriesResp t s => inl (inl (t, s)) | RequestVoteResp t s => inl (inr (inl (t, s))) | SnapshotResp t s => inl (inr (inr (t, s)))
      | OpenRaftResp k d => inr (inl (k, d)) | CustomResponse s d => inr (inr (inl (s, d))) | ErrorResp m => inr (inr (inr m)) end)
    (λ s, match s with
      | inl (inl (t, s)) => AppendEntriesResp t s | inl (inr (inl (t, s))) => RequestVoteResp t s | inl (inr (inr (t, s))) => SnapshotResp t s
      | inr (inl (k, d)) => OpenRaftResp k d | inr (inr (inl (s, d))) => CustomResponse s d | inr (inr (inr m)) => ErrorResp m end) _). by intros [].
Defined.
#[global] Instance RpcRequest_eq_dec : EqDecision RpcRequest.
Proof. solve_decision. Defined.
#[global] Instance RpcRequest_countable : Countable RpcRequest.
Proof. refine (inj_countable' (λ r, (req_id r, req_payload r)) (λ '(i, p), MkRequest i p) _). by intros []. Defined.
#[global] Instance RpcResponse_eq_dec : EqDecision RpcResponse.
Proof. solve_decision. Defined.
#[global] Instance RpcResponse_countable : Countable RpcResponse.
Proof. refine (inj_countable' (λ r, (resp_id r, resp_payload r)) (λ '(i, p), MkResponse i p) _). by intros []. Defined.
#[global] Instance OneWayMessage_eq_dec : EqDecision OneWayMessage.
Proof. solve_decision. Defined.
#[global] Instance OneWayMessage_countable : Countable OneWayMessage.
Proof.
  refine (inj_countable' (λ m, match m with Heartbeat n t => inl (n, t) | CustomOneWay o d => inr (o, d) end)
    (λ s, match s with inl (n, t) => Heartbeat n t | inr (o, d) => CustomOneWay o d end) _). by intros [].
Defined.
#[global] Instance RpcMessage_eq_dec : EqDecision RpcMessage.
Proof. solve_decision. Defined.
#[global] Instance RpcMessage_countable : Countable RpcMessage.
Proof.
  refine (inj_countable' (λ m, match m with Request r => inl r | Response r => inr (inl r) | OneWay o => inr (inr o) end)
    (λ s, match s with inl r => Request r | inr (inl r) => Response r | inr (inr o) => OneWay o end) _). by intros [].
Defined.

(** * A call *)

Definition addr_a : SocketAddr := ("127.0.0.1", 9321).
Definition addr_b : SocketAddr := ("127.0.0.1", 9322).
Definition ping : RequestPayload := Custom "PING" [1; 2].
Definition pong : ResponsePayload := CustomResponse true [3].

Definition two_nodes : Net := set_node addr_b (set_request_handler new_handler) (set_node addr_b new_handler (set_node addr_a new_handler empty_net)).

Lemma two_nodes_reachable : reachable two_nodes.
Proof.
  eapply rtc_l; [by apply (st_start empty_net addr_a)|]. eapply rtc_l; [by apply (st_start _ addr_b)|].
  eapply rtc_l; [by apply (st_set_handler _ addr_b new_handler)|]. apply rtc_refl.
Qed.

(** [a] calls [b], once or after a call whose sending failed. *)
Definition caller (o : sending) (h : RpcHandler) : RpcHandler := (request_start addr_b ping o h).2.
Definition call_made (id : Z) (c : nat) (h : RpcHandler) (N : Net) : Net :=
  put_call addr_a addr_b id c ping (serialize (new_request id ping)) (set_node addr_a h N).
Definition call_served (id : Z) (c : nat) (N : Net) : Net :=
  put_served addr_b addr_a c (serialize (new_response id pong)) (MkRequest id ping) pong N.

Definition called : Net := call_made 1 0 (caller Sent new_handler) two_nodes.
Definition answered_net : Net :=
  put_answer addr_a (MkResponse 1 pong) (set_node addr_a (set_pending (pending_requests (caller Sent new_handler) ∖ {[1]}) (caller Sent new_handler)) (call_served 1 0 called)).

Lemma served_step id c N h :
  (addr_a, addr_b, c, serialize (new_request id ping)) ∈ wire N → nodes N !! addr_b = Some (set_request_handler h) →
  net_step N (call_served id c N).
Proof.
  intros Hin Hh. apply (st_serve N addr_a addr_b c (serialize (new_request id ping)) (MkRequest id ping) (set_request_handler h) pong); [done|done| |done].
  unfold received. by rewrite bincode_roundtrip.
Qed.

Lemma called_reachable : reachable called.
Proof.
  eapply rtc_r; [apply two_nodes_reachable|]. by apply (st_request _ addr_a new_handler addr_b ping Sent 1 O).
Qed.

Lemma answered_reachable : reachable answered_net.
Proof.
  eapply rtc_r; [eapply rtc_r; [apply called_reachable|apply (served_step 1 O _ new_handler); [by left|done]]|].
  apply (st_response _ addr_a addr_b O (serialize (new_response 1 pong)) (MkResponse 1 pong) (caller Sent new_handler)); [by left|done| | |done].
  - by left.
  - unfold received. by rewrite bincode_roundtrip.
Qed.

Lemma rpc_answers_own_call_witness :
  (addr_a, MkResponse 1 pong) ∈ answered answered_net ∧
  ∃ b c p, (addr_a, b, 1, c, p) ∈ calls answered_net ∧ (b, MkRequest 1 p, pong) ∈ served answered_net ∧
    ∀ b' c' p', (addr_a, b', 1, c', p') ∈ calls answered_net → b' = b ∧ c' = c ∧ p' = p.
Proof.
  split; [by left|]. destruct (rpc_answers_own_call answered_net answered_reachable) as [Hans _].
  apply (Hans addr_a (MkResponse 1 pong)). by left.
Defined.

(** * A failed send, and the next call *)

Definition failing : RpcHandler := caller SendFails (caller Sent new_handler).
Definition recalled : Net := call_made 3 1 (caller Sent failing) (set_node addr_a failing called).

Lemma recalled_reachable : reachable recalled.
Proof.
  apply (rtc_r _ (set_node addr_a failing called)); [eapply rtc_r; [apply called_reachable|]|].
  - by apply (st_request_fails _ addr_a (caller Sent new_handler) addr_b ping SendFails (IoError KOther "Transport send failed")).
  - by apply (st_request _ addr_a failing addr_b ping Sent 3 1).
Qed.

(** The node answers the second call; the caller's loop reads the first connection. *)
Lemma unread_connection_never_answers_witness :
  (addr_b, MkRequest 3 ping, pong) ∈ served (call_served 3 1 recalled) ∧
  rtc (step_reading addr_a addr_b 0) recalled (call_served 3 1 recalled) ∧
  ∀ r, (addr_a, r) ∈ answered (call_served 3 1 recalled) → resp_id r ≠ 3.
Proof.
  assert (rtc (step_reading addr_a addr_b 0) recalled (call_served 3 1 recalled)) as Hrun.
  { apply rtc_once. split; [apply (served_step 3 1 _ new_handler); [by left|done]|]. by exists (caller Sent failing). }
  split; [by left|]. split; [exact Hrun|].
  apply (unread_connection_never_answers recalled addr_a (caller Sent failing) addr_b 0 1 3 ping); [exact recalled_reachable|done|done|by left|done|done| |exact Hrun].
  by intros r Hin%elem_of_nil.
Defined.

(** * Addresses *)

#[global] Instance PeerAddrRecord_eq_dec : EqDecision PeerAddrRecord.
Proof. solve_decision. Defined.
#[global] Instance PeerAddrRecord_countable : Countable PeerAddrRecord.
Proof. refine (inj_countable' (λ r, (peer_id r, peer_addr r)) (λ '(i, a), MkPeerAddr i a) _). by intros []. Defined.
#[global] Instance peer_addr_tagged : BincodeTagged PeerAddrRecord.
Proof. by split. Qed.

(** Node 1, with node 2 in its configuration; it is told the addresses of 2 and of 7, and of 7 again. *)
Definition cfg1 : Config := MkConfig 1 addr_a [addr_a; addr_b] true None.
Definition moved_b : SocketAddr := ("10.0.0.2", 9322).
Definition addr_7 : SocketAddr := ("10.0.0.7", 9327).
Definition told : updates := [(7, addr_b); (2, moved_b); (7, addr_7)].

Lemma updates_accepted us : all_accepted (E := Walrus) us.
Proof. apply Forall_forall. intros [id a] _. by apply accepts_short. Qed.

Lemma first_records : session_records cfg1 told [] = [MkPeerAddr 2 addr_b; MkPeerAddr 7 addr_b; MkPeerAddr 2 moved_b; MkPeerAddr 7 addr_7].
Proof. reflexivity. Qed.
Lemma second_records : session_records cfg1 [] (session_records cfg1 told []) = [MkPeerAddr 2 addr_b].
Proof. reflexivity. Qed.

Lemma not_configured : 7 ∉ (configured (peers_of cfg1)).*1.
Proof. apply (bool_decide_unpack _). reflexivity. Qed.
Lemma told_7 : put_all told ∅ !! 7 = Some addr_7.
Proof. reflexivity. Qed.

Lemma covered_short recs : (length recs ≤ 4)%nat → records_covered recs.
Proof. intros Hl. destruct recs as [|? [|? [|? [|? [|]]]]]; cbn in Hl; try lia; split; by vm_compute. Qed.

Lemma addresses_survive_restart_witness :
  ∃ W b1 b2, with_paths pm0 StrictlyAtOnce (Milliseconds 200) trk0 fs0 = (Ok W, wa_fs W) ∧
    session 10 cfg1 told (MkBook ∅ (new_wal W) ∅) = (Ok tt, b1) ∧ session 10 cfg1 [] (reopened b1) = (Ok tt, b2) ∧
    peer_addrs b1 !! 7 = Some addr_7 ∧ peer_addrs b2 !! 7 = Some addr_7.
Proof.
  destruct (fresh_topic 5) as (W & E & Hh); [lia|]. exists W.
  destruct (addresses_survive_restart 0 10 cfg1 told (MkBook ∅ (new_wal W) ∅)) as (b1 & b2 & E1 & E2 & Hids).
  - lia.
  - apply updates_accepted.
  - rewrite first_records. apply covered_short. cbn. lia.
  - rewrite first_records. cbn. lia.
  - exact Hh.
  - exists b1, b2. split_and!; [exact E|exact E1|exact E2| |].
    + rewrite -told_7. apply Hids; [discriminate|apply not_configured].
    + rewrite -told_7. apply Hids; [discriminate|apply not_configured].
Defined.

Lemma second_restart_forgets_witness :
  ∃ W b1 b2 b3, with_paths pm0 StrictlyAtOnce (Milliseconds 200) trk0 fs0 = (Ok W, wa_fs W) ∧
    session 10 cfg1 told (MkBook ∅ (new_wal W) ∅) = (Ok tt, b1) ∧ session 10 cfg1 [] (reopened b1) = (Ok tt, b2) ∧
    session 10 cfg1 [] (reopened b2) = (Ok tt, b3) ∧ peer_addrs b2 !! 7 = Some addr_7 ∧ peer_addrs b3 !! 7 = None.
Proof.
  destruct (fresh_topic 5) as (W & E & Hh); [lia|]. exists W.
  destruct (second_restart_forgets 0 10 cfg1 told (MkBook ∅ (new_wal W) ∅)) as (b1 & b2 & b3 & E1 & E2 & E3 & Hids).
  - lia.
  - apply updates_accepted.
  - rewrite first_records. apply covered_short. cbn. lia.
  - rewrite second_records. apply covered_short. cbn. lia.
  - rewrite second_records first_records. cbn. lia.
  - exact Hh.
  - exists b1, b2, b3. destruct (Hids 7 ltac:(discriminate) not_configured) as [Hb2 Hb3]. split_and!; [exact E|exact E1|exact E2|exact E3| |exact Hb3].
    rewrite -told_7. exact Hb2.
Defined.

(** * A call through the network *)

(** A Raft instance that takes what is not older than the term it has seen. *)
Definition take_term (term : Z) : M Z Z :=
  let! seen := getS in
  if seen <=? term then modify (λ _, term) ;; ret term else fail KOther "old term".
#[global] Instance term_raft : RaftApi Z Z Z Z Z Z Z := {
  raft_append_entries := take_term;
  raft_vote := take_term;
  raft_install_snapshot := take_term;
}.

Lemma network_calls_raft_witness :
  net_append_entries (peer_wire {[2 := addr_b]} 1 None) no_filters 1 2 5 4 = (Ok (inr 5), 5) ∧
  net_vote (peer_wire {[2 := addr_b]} 1 None) no_filters 1 2 3 4 = (Ok (inl Network : RPCError + Z), 4) ∧
  net_vote (peer_wire {[2 := addr_b]} 1 None) (add_send_drop_to 1 2 no_filters) 1 2 5 4 = (Ok (inl Unreachable : RPCError + Z), 4).
Proof.
  destruct (network_calls_raft {[2 := addr_b]} 1 None no_filters 1 2 addr_b) as [Hpass _]; [reflexivity|reflexivity|reflexivity|].
  destruct (network_calls_raft {[2 := addr_b]} 1 None (add_send_drop_to 1 2 no_filters) 1 2 addr_b) as [_ Hdrop]; [reflexivity|reflexivity|reflexivity|].
  destruct (Hpass eq_refl) as [Happ Hvote]. destruct (Hdrop eq_refl) as [_ Hcut]. split_and!; [rewrite Happ; reflexivity|rewrite Hvote; reflexivity|apply Hcut].
Defined.

(** * Chunks *)

(** A digest of 32 bytes. *)
#[global] Instance toy_sha256 : Sha256 := { sha256 d := le_bytes 32 (1 + foldr Z.add 0 d) }.
#[global] Instance toy_sha256_laws : Sha256Laws.
Proof. split; intros d; [change (Z.of_nat (length (le_bytes 32 (1 + foldr Z.add 0 d))) = 32); by rewrite length_le_bytes|apply le_bytes_byte]. Qed.

Definition payload : list Z := [7; 8; 9; 10; 11; 12].
(** The stream of a receiver to whom the bytes come in pieces of one, three and two bytes. *)
Definition stream_of (bytes : list Z) : Stream := MkStream bytes true [O; 2; 1]%nat true [] None true 100.

Lemma payload_receiving c : Forall is_byte (chunk_content c) → is_u64 (chunk_size c) → receiving c (S (length (chunk_bytes c))) (stream_of (chunk_bytes c)).
Proof. intros Hc Hs. split; try done. cbn. lia. Qed.

Lemma chunk_transfer_witness :
  (∃ s', receive_memory 47 addr_a (stream_of (chunk_bytes (File 6 payload))) = (Ok (transfer_success addr_a 6, Some payload), s')) ∧
  (∃ s', receive_file 47 addr_a (stream_of (chunk_bytes (File 6 payload))) = (Ok (transfer_success addr_a 6), s') ∧ file s' = Some payload).
Proof.
  destruct (chunk_transfer (File 6 payload) 47 (stream_of (chunk_bytes (File 6 payload))) addr_a addr_b) as [(s1 & E1 & _) Hfile].
  - apply payload_receiving; [repeat constructor; done|done].
  - reflexivity.
  - destruct (Hfile eq_refl ltac:(done)) as (s2 & E2 & Ef & _). split; [exists s1; exact E1|]. exists s2. split; [exact E2|exact Ef].
Defined.

(** Two bytes are gone when the file is read. *)
Lemma changed_file_rejected_witness :
  ∃ e s', receive_memory 47 addr_a (stream_of (chunk_bytes (File 8 payload))) = (Ok (transfer_failure addr_a e, None), s') ∧ outgoing s' = [2].
Proof.
  destruct (changed_file_rejected 8 payload 47 (stream_of (chunk_bytes (File 8 payload))) addr_a addr_b) as (e & s' & E1 & _).
  - apply payload_receiving; [repeat constructor; done|done].
  - by left.
  - exists e, s'. split; [exact E1|]. apply (f_equal (outgoing ∘ snd)) in E1. cbn in E1. rewrite -E1. vm_compute. reflexivity.
Defined.

Lemma rejected_chunk_stays_witness :
  ∃ s', recv_chunk_to_path 7 (stream_of (u64_bytes 6 ++ payload ++ replicate 32 0)) = (Err (IoError KOther "Checksum verification failed"), s') ∧
    file s' = Some payload ∧ outgoing s' = [1].
Proof.
  apply (rejected_chunk_stays payload (replicate 32 0) [] 7 (stream_of (u64_bytes 6 ++ payload ++ replicate 32 0))); try done. vm_compute. lia.
Defined.

Lemma recv_chunk_exact_witness :
  ∃ s', recv_chunk_verified 47 (stream_of (chunk_bytes (Memory payload))) = (Ok (Some payload), s') ∧ outgoing s' = [0].
Proof.
  assert ((recv_chunk_verified 47 (stream_of (chunk_bytes (Memory payload)))).1 = Ok (Some payload)) as Erun by (vm_compute; reflexivity).
  pose proof (recv_chunk_exact 47 (stream_of (chunk_bytes (Memory payload)))
    ltac:(apply (bool_decide_unpack _); vm_compute; reflexivity) eq_refl ltac:(vm_compute; lia)) as Hspec.
  destruct (recv_chunk_verified 47 _) as [o s']. cbn in Erun. subst o. exists s'. split; [reflexivity|]. apply Hspec.
Defined.

Lemma loop_takes_chunk_witness :
  (recv (stream_of (chunk_bytes (Memory payload)))).1 = Ok (Some [0; 0; 0; 0; 7; 8]).
Proof.
  destruct (loop_takes_chunk payload (stream_of (chunk_bytes (Memory payload))) addr_a) as (s' & -> & _); [reflexivity|done|reflexivity|reflexivity].
Defined.

Lemma message_cut_at_32_bits_witness : (recv (stream_of (message_bytes payload))).1 = Ok (Some payload).
Proof. destruct (message_cut_at_32_bits payload (stream_of (message_bytes payload)) eq_refl) as (s' & ->). reflexivity. Defined.

(** * Nodes that restart *)

#[global] Instance BasicNode_countable : Countable BasicNode.
Proof. refine (inj_countable' addr MkBasicNode _). by intros []. Defined.
#[global] Instance Membership_countable : Countable Membership.
Proof. refine (inj_countable' (λ m, (configs m, RaftMembership.nodes m)) (λ '(c, n), MkMembership c n) _). by intros []. Defined.

(** Three members, two commands of the key-value machine, the second one not committed yet. *)
Definition members0 : Membership := MkMembership [{[1; 2; 3]}] (list_to_map (map (λ i, (i, MkBasicNode EmptyString)) [1; 2; 3])).
Definition kv_entry (i : Z) (cmd : string) : Entry Membership := MkEntry (id0 i) (Normal (Client.str cmd)).
Definition kv_ops (cmd : string) : list (log_op Membership) :=
  [LSaveVote (MkVote (MkLeaderId 1 7) true); LAppend [MkEntry (id0 0) (LogStore.Membership members0); kv_entry 1 cmd];
   LSaveCommitted (Some (id0 1)); LAppend [kv_entry 2 "SET a c"]].

Lemma kv_ops_ok cmd : log_ops_ok (kv_ops cmd) empty_log.
Proof. cbn. split_and!; try done; apply run_from_lookup; by repeat constructor. Qed.

Lemma records_accepted (os : list (log_op Membership)) : Forall (λ r, wt_accepts (E := Walrus) (serialize r)) (all_records os).
Proof. apply Forall_forall. intros r _. by apply accepts_short. Qed.

Lemma kv_ordered cmd : leaders_ordered (map log_id (rl_entries (spec_log_ops (kv_ops cmd) empty_log).2)).
Proof. intros i j x y _ Hx Hy. left. destruct i as [|[|[|]]], j as [|[|[|]]]; cbn in Hx, Hy; by simplify_eq/=. Qed.

Lemma kv_committed cmd c : rl_committed (spec_log_ops (kv_ops cmd) empty_log).2 = Some c → c ∈ map log_id (rl_entries (spec_log_ops (kv_ops cmd) empty_log).2).
Proof. intros Hc. change (Some (id0 1) = Some c) in Hc. injection Hc as <-. change (id0 1 ∈ [id0 0; id0 1; id0 2]). set_solver. Qed.

Lemma kv_covered cmd : batch_covers true READ_ALL_BYTES (serialize <$> all_records (kv_ops cmd)).
Proof. split; by vm_compute. Qed.

Definition kv_after (cmd : string) : KvMap := foldl app_step (∅ : KvMap) (committed_part (spec_log_ops (kv_ops cmd) empty_log).2).

Lemma octopii_node_restarts_witness :
  ∃ W s st state m, with_paths pm0 StrictlyAtOnce (Milliseconds 200) trk0 fs0 = (Ok W, wa_fs W) ∧
    run_wal_ops (kv_ops "SET a b") (MkStore default_inner (new_wal W)) = (Ok (spec_log_ops (kv_ops "SET a b") empty_log).1, s) ∧
    start_node 20 0 (st_wal s) (∅ : KvMap) = (Ok state, MkHelper st m) ∧
    vote_ref state = MkVote (MkLeaderId 1 7) true ∧ committed state = Some (id0 1) ∧
    sm m !! Client.str "a" = Some (Client.str "b") ∧ em_membership (ms_effective (membership_state state)) = members0.
Proof.
  destruct (fresh_topic 5) as (W & E & Hh); [lia|].
  destruct (octopii_node_restarts W (kv_ops "SET a b") 20 0 (∅ : KvMap) Hh (kv_ops_ok _) (records_accepted _) (kv_covered _))
    as (s & st & state & m & Hrun & Hst & Hv & _ & Hc & _ & Hm & Hef).
  - vm_compute. lia.
  - reflexivity.
  - apply kv_ordered.
  - apply kv_committed.
  - change (app_accepted (∅ : KvMap) [MkEntry (id0 0) (LogStore.Membership members0); kv_entry 1 "SET a b"]).
    split; [done|]. split; [|done]. exists (Client.str "OK"). vm_compute. reflexivity.
  - exists W, s, st, state, m. split_and!; [exact E|exact Hrun|exact Hst|by rewrite Hv|by rewrite Hc| |].
    + rewrite Hm. vm_compute. reflexivity.
    + rewrite Hef. reflexivity.
Defined.

(** The same run, and a purge of the first entry. *)
Definition kv_purge_ops (cmd : string) : list (log_op Membership) := kv_ops cmd ++ [LPurge (id0 0)].

Lemma kv_purge_ops_ok cmd : log_ops_ok (kv_purge_ops cmd) empty_log.
Proof. cbn. split_and!; try done; apply run_from_lookup; by repeat constructor. Qed.

Lemma kv_purge_covered cmd : batch_covers true READ_ALL_BYTES (serialize <$> all_records (kv_purge_ops cmd)).
Proof. split; by vm_compute. Qed.


(** The committed command has no value. *)
Lemma rejected_command_blocks_restart_witness :
  ∃ W s h, with_paths pm0 StrictlyAtOnce (Milliseconds 200) trk0 fs0 = (Ok W, wa_fs W) ∧
    run_wal_ops (kv_ops "SET a") (MkStore default_inner (new_wal W)) = (Ok (spec_log_ops (kv_ops "SET a") empty_log).1, s) ∧
    start_node 20 0 (st_wal s) (∅ : KvMap) = (Err (IoError KOther "SET missing value"), h).
Proof.
  destruct (fresh_topic 5) as (W & E & Hh); [lia|].
  destruct (rejected_command_blocks_restart W (kv_ops "SET a") 20 0 (∅ : KvMap) [MkEntry (id0 0) (LogStore.Membership members0)] (kv_entry 1 "SET a") []
    (Client.str "SET a") "SET missing value" ∅ Hh (kv_ops_ok _) (records_accepted _) (kv_covered _)) as (s & h & Hrun & Hst).
  - vm_compute. lia.
  - reflexivity.
  - apply kv_ordered.
  - apply kv_committed.
  - reflexivity.
  - split; exact I.
  - reflexivity.
  - vm_compute. reflexivity.
  - exists W, s, h. split; [exact E|]. split; [exact Hrun|exact Hst].
Defined.
